(* ===== verification/_CoqProject ===== *)
-Q . S2P
Prelude.v
Packed.v
Palette.v
PaletteSlots.v
PaletteSpec.v
PaletteUpdates.v
PaletteViews.v
PaletteTheorems.v
Bytes.v
NbtTree.v
NbtTreeSpec.v
NbtScan.v
NbtScanSpec.v
NbtRoot.v
Keys.v
Counting.v
Wire.v
SubChunk.v
SubChunkSpec.v
SubChunkTheorems.v
Revisions.v
Entities.v
EntityTheorems.v
Biome.v
Mesh.v
MeshTheorems.v
Snapshot.v
LevelChunk.v
LevelChunkSpec.v
Store.v
StoreCommits.v
StoreInv.v
StoreOpsSpec.v
StoreBatchSpec.v
StoreColumnSpec.v
StoreTraces.v
StoreTheorems.v
Light.v
LightSpec.v
Effects.v
LightGrid.v
LightState.v
LightSolve.v
LightField.v
LightRules.v
LightDarken.v
LightIncrease.v
LightSolveSpec.v
LightOutput.v
LightChanges.v
LightChangesSpec.v
LightResults.v
LightFull.v
LightFullGrid.v
LightFullSeed.v
LightFullSpread.v
LightFullResults.v
BlobStore.v
BlobStoreSpec.v
BlobStoreTheorems.v
BlobPackets.v
BlobPacketsSpec.v
BlobResolver.v
BlobResolverInv.v
BlobResolverSpec.v
BlobIntake.v
BlobIntakeSpec.v
BlobAcceptSpec.v
BlobMissSpec.v
BlobOutputSpec.v
BlobResolverTheorems.v
Lanes.v
Ordered.v
OrderedSpec.v
OrderedChoice.v
OrderedTheorems.v
ColumnScan.v
Columns.v
ColumnSet.v
Requests.v
