(* ===== verification/Prelude.v ===== *)
(** * Cinnabar's world, its blob cache, ordered commits and column bookkeeping, verified

    Cinnabar is a Minecraft Bedrock client. This development models [src/crates/world/src], the crate that
    owns the client's world: it decodes what the server sends, keeps it packed, answers the mesher's, the
    lighting's and the collision code's questions, and tells them what to rebuild; the blob cache of
    [src/crates/protocol/src], through which chunk packets pass on their way to it; the ordered commits of
    [src/crates/client-world/src/ingestion], which decide when each event of the server may change the world; and
    the column bookkeeping of [src/crates/chunk-pipeline/src/stream], which knows what is resident and what to ask for.
    The rest of the client (transport, ECS, rendering, assets, user interface) reads and drives these.

    ** How the parts fit together

    A level-chunk or sub-chunk packet is read by a byte reader (Wire) into sections of paletted layers
    (Palette, SubChunk), biome columns (Biome) and block-entity records (NbtScan, Entities), a whole column
    at a time (LevelChunk). The decoded values are committed to the chunk store (Store...), which matches
    them with what it holds, allocates collision revisions (Revisions) and reports the sections that
    changed and the meshes that see them (Keys). Single-block updates edit the packed layers in place of a
    copy (SubChunk, Palette). A chunk packet whose bodies were replaced by hashes waits in the resolver
    (BlobResolver, BlobIntake) until its bodies are in the content-addressed store (BlobStore), and then
    leaves it, in order for each column, as the packet it stands for or as a request to send it again.
    Every event has a sequence and a footprint of what it reads and writes (Lanes). It is admitted, prepared by
    a worker and committed as soon as nothing before it that is unfinished conflicts with it (Ordered).
    Mesh jobs read a 3x3x3 neighbourhood of sections (Mesh, Snapshot). As the player moves, the columns that enter
    the view are found row by row (ColumnScan) and requested in the order of their admission (Requests, over the
    records and queues of Columns); what is resident is kept by column, with a journal that lets a reader follow it (ColumnSet).

    ** Files

    - Prelude: loops that may panic ([foldM]), loops with fuel ([run]), a [result] type with its monad,
      counting lemmas. Packed: the word packing of [palette.rs]. Bytes: integers as bytes, [BTreeMap].
      Counting: checked [usize] sums, sums over maps, strict orders, [dedup], maps listed in order.
    - Palette ([palette.rs], [palette/edits.rs]): [PalettedStorage] and every operation. PaletteSlots,
      PaletteSpec, PaletteUpdates, PaletteViews hold the lemmas; PaletteTheorems the properties.
    - NbtTree ([nbt_tree.rs]): encoder and parser; NbtTreeSpec: round trip and the loop equation. NbtScan
      ([block_entity.rs]): the strict scanner; NbtScanSpec, NbtRoot: the scanner against the
      parser. Entities: live updates, tails, packet entries; EntityTheorems.
    - Keys ([chunk.rs], [mutation.rs], [mesh_neighbourhood/offsets.rs]): keys, their order, dependents, neighbour reach.
      Mesh, MeshTheorems ([mesh_neighbourhood.rs]), Snapshot ([section_snapshot.rs]).
    - Wire, SubChunk ([sub_chunk.rs], [sub_chunk/payload.rs]) with SubChunkSpec,
      SubChunkTheorems; Biome ([biome.rs]); LevelChunk ([store/level_chunk.rs]) with LevelChunkSpec.
    - Revisions ([collision_revision.rs]): the shared atomic counter, as a function and as interleaved steps.
    - Store ([store.rs], [store/helpers.rs], [chunk.rs]): data, queries, the monad of the store and, with
      StoreCommits, its methods. StoreInv: total correctness ([wp]), the invariant [store_ok] and the
      relation [evolves] between the stores before and after. StoreOpsSpec, StoreBatchSpec,
      StoreColumnSpec: one specification per method. StoreTraces: evictions, how decoders meet the
      preconditions of commits, and runs of operations. StoreTheorems: the properties.
    - Light ([light.rs]): packed nibbles, section light, the light store and its snapshots; LightSpec.
      Effects: a state monad with errors and panics, its [wp] and loop rules.
    - The light solver ([light_solver/]): Light also has [types.rs]; LightState ([cache.rs], [output.rs],
      [queue.rs]), LightSolve ([solve.rs], [scratch.rs]), LightChanges ([changes.rs]). LightGrid: positions and
      dense indices. LightField: the abstract specification, what light is. LightRules: a rule per small step.
      LightDarken, LightIncrease: the two halves of a solve; LightSolveSpec: buffers between solves and the
      phases together; LightChangesSpec: the relight; LightOutput: packing, and the walk of a section's direct sky.
      LightResults: what calls return, and the properties.
      LightFull ([full.rs]): the full solve; LightFullGrid: its padded grid; LightFullSeed,
      LightFullSpread: its phases; LightFullResults: the phases together, the copy-out and the properties.
    - BlobStore ([blob_cache.rs], [blob_cache/persistence.rs]): the store with its pins, its insertion and
      eviction. BlobStoreSpec: its invariant and one specification per operation;
      BlobStoreTheorems.
    - BlobPackets ([blob_cache/resolver/ordering.rs], [recovery.rs], [accounting.rs], [reconstruction.rs]):
      columns, recoveries, byte accounts and reconstruction of packets, with BlobPacketsSpec. BlobResolver
      ([blob_cache/resolver.rs], [pressure.rs]): state, accounting, abandonment, output of resolved packets.
      BlobIntake ([resolver.rs], [miss_response.rs], [status.rs]): the entry points. BlobResolverInv: the
      invariant of the resolver; BlobResolverSpec: abandonment and accounting, with [evolves], what every
      step keeps; BlobIntakeSpec, BlobAcceptSpec, BlobMissSpec, BlobOutputSpec: one specification per
      operation. BlobResolverTheorems: sequences of calls and the properties.
    - Lanes ([lanes.rs], and the event types of [protocol/src]): consumers, columns, footprints, classification
      and the summary of earlier events, with the relation [conflicts] that the summary decides. Ordered
      ([ordered.rs], [ordered/ingress.rs]): [OrderedCommitState] and every operation. OrderedSpec: the invariant
      [ordered_ok], what a call may change ([moves]), admission and completion. OrderedChoice: scans, lookahead,
      bursts and the start of a step. OrderedTheorems: runs of calls and the properties.
    - ColumnScan ([column_scan.rs]): disks, row spans by bisection and the iterator over entering columns. Columns
      ([column_bookkeeping.rs]): records and queues indexed by column, with the class [ColumnOwned]. ColumnSet
      ([column_set.rs], and the replay of [near_drawn.rs]): the section set. Requests ([request_queue.rs], with the
      requests of [model.rs], their classes of [diagnostics.rs], and of [requests/dispatch.rs] the loop that takes a batch
      and the call that gives an unsent one back): the queue.

    ** What the theorems show

    - Palettes: an edit or a batch of edits, on stable slots with live counts or by rebuilding, has the effect
      of writing the cells one by one and reports exactly whether anything changed; the packed words,
      bulk reads and equality depend on the cells only; memory stays within its bound.
    - NBT: a tree that encodes parses back; a root the scanner accepts parses, to the metadata the scanner
      cached; scanned records are prefixes within their limits; tails keep the first record of each
      position within count and byte budgets.
    - Sections: decoding is total on all bytes; block updates refine cell writes; the inline cache reuses a
      section only where decoding would give the same blocks, alone and within a whole column.
    - Revisions: concurrent callers never get a revision twice; failure means real exhaustion.
    - Keys and meshes: reach and dependents are exact and inverse to each other, so a mesh that could see a
      change is invalidated; samples read the world captured.
    - Store: no run of operations panics or breaks the invariant; equal revisions mean equal collision
      content; snapshots are current; failed calls have no effect; each commit changes exactly its scope
      and reports exactly what changed, for packets of any bytes.
    - Light: a nibble write changes one sample; storage is determined by its samples; commits are guarded by
      generation. A solve returns the field that the inductive rules of LightField give (the brightest level
      reaching each cell, and direct sky), whatever light was there before; relighting changed cells
      gives the light of a whole solve, and so does the full solve by buckets; loops end and 35 queue
      entries a cell are enough. A solve panics exactly for a region within the voxel limit with more cells than a u32 counts;
      the full solve is proved for padded grids of at most 2^32 cells, since past them it truncates cell numbers.
    - Blob cache: no run of store operations breaks its accounts of bytes and pins; a response is published
      whole or not at all; eviction takes the least recently used bodies without a pin and no more than it must.
      No run of resolver calls panics or hangs, and between calls a packet waits exactly for its absent bodies
      ([waits_absent]); a packet is answered with its hashes sorted into cached, asked for by another and to be asked
      for ([classified_in]), and from then on an admitted one waits, is ready or handed out, or a recovery for all it
      names is queued or handed out; a refused sub-chunk reply is left to the deadline of its request. A response ends the
      waiting for each of its hashes; output leaves in order for each column, and queued ordinary work cannot be held forever;
      a reconstructed packet is the bodies of its hashes with its inline bytes.
    - Ordered commits: no run of calls panics or exceeds an admission bound; the next step is exactly the least
      event that may commit within the budget, with the updates of its burst in order, and a partial batch goes on only
      within the budget; effects in commit order have the result
      of effects in wire order, when those of events that do not conflict commute; the frontier is exact and
      never starves, and chunk data that a pass withholds cannot hold ready work when the pass allows heavy work.
    - Column bookkeeping: the scan yields exactly the columns of the new disk outside the old one, once each, at the
      ends of the coordinates too; records behave as one map, a queue as a list, the section set as a set - the answers of
      its calls, the order of its listings and the next column after a cursor included - and the
      request queue as a list of slots in which a reservation is a barrier, whatever is done to them; of a batch that
      was not sent the live requests are put back where they were, unless it is of an older terrain or does not fit
      beside the queue's 64; replaying the journal brings a reader up to date; a column that lost its
      last section is a new one when it returns.

    ** Conventions and bounds

    A panic ([unwrap], [expect], indexing, overflow in debug builds) is [None]; [Result] is [result]. Loops
    over lists are folds; loops that consume input run with the fuel [S (length input)], which suffices
    because every turn consumes a byte, and the unwinding equation of the loop is proved. Nesting is bounded
    by [MAX_NBT_DEPTH] as in the code. Machine integers are [Z] or [nat] with their range in the invariant
    and the wrap-around, saturation or check written out; [usize] has 64 bits.

    SHA-256, [BlockIds] and [BiomeIds] (registries of other crates) are parameters. Lazily computed caches
    ([OnceLock]) are the functions that compute them. Shared handles ([Arc]) are values: [Arc::make_mut]
    and clones have value semantics, and [Arc::ptr_eq] is only used by the store after equal handles have
    been replaced by the old ones, where it is equality. The one interior mutation, the wire identity of a
    resident section, is written to every place of the store that holds the section. Another store of the
    process may draw revisions between two operations of this one.

    In the resolver, what [capacity()] answers is up to the allocator: a [Layout] gives the sizes of types
    and the answers in the order they are asked, and the theorems hold for each. A [HashMap] is visited in
    an arbitrary fixed order, a reservation fails only past [isize::MAX] bytes, and [debug_assert] is a panic. Sizes stay below the bounds
    [layout_ok] states (2^32 for a capacity), so that [usize] sums do not overflow. xxh64 is a parameter.

    In the ordered commits, world events carry the fields that classification and the choice of a step read, and
    a prepared payload is a parameter. [allowed] in OrderedTheorems states what the callers keep to: sequences
    below 2^64 - 1, one footprint for each sequence up to normalisation, promotion within capacity, no cancelled
    admission of a started event, and at most 2^32 retained payloads. A burst runs with the fuel of one more
    than the entries, which suffices because each turn starts an entry.

    In the column bookkeeping, clocks, ages and counts are 64-bit and queue positions 128-bit, and an overflow is a
    panic: the theorems bound what a run of calls costs ([set_costs], its length) by the clocks. The journal holds
    8192 keys and 64 dispatched requests are remembered, as in the code. The fuel of a bisection and of a scan is the
    rest of its range plus one; [collect] takes any fuel above the number of columns. [Clone] is a copy, and a
    [HashMap] of columns is visited in an arbitrary fixed order.

    ** Not modelled

    Floating point (NBT floats keep their bits, [NbtCompound::float] is left out; [chunk_grid.rs] and
    [weather.rs] compute with [f32]), [block_highlights.rs], getters that only clone handles, test-only
    counters, the latency trace and disk writer of
    the blob cache, and packet fields that the cache only carries along. Other crates: see the component list of the manifest; left out are floating
    point, I/O, GPU and ECS glue, and, as candidates for extension, the framing of the bridge, inventory authority
    and what the chunk pipeline builds on its bookkeeping: scheduling of jobs, retries and transport receipts. *)
From stdpp Require Import base numbers list gmap sets.

(** ** Tactics *)

(** Discharges the first premise of [H]: its goal comes first. *)
Ltac forward H :=
  match type of H with
  | ?P → _ => let h := fresh in assert (h : P); [|specialize (H h); clear h]
  end.

(** ** Loops that can panic *)

(** A [for] loop whose body may panic: [None] is a panic. *)
Fixpoint foldM {A B} (f : A → B → option A) (a : A) (l : list B) : option A :=
  match l with
  | [] => Some a
  | x :: l => a' ← f a x; foldM f a' l
  end.

(** [true] is success, [false] is a panic: [assert!] and the [expect]s that carry no value. *)
Definition assert (b : bool) : option unit := if b then Some tt else None.

Lemma foldM_app {A B} (f : A → B → option A) a l1 l2 :
  foldM f a (l1 ++ l2) = (a' ← foldM f a l1; foldM f a' l2).
Proof.
  revert a. induction l1 as [|x l1 IH]; intros a; simpl; [done|].
  destruct (f a x); simpl; auto.
Qed.

(** The loop rule: an invariant indexed by the processed prefix, which the body re-establishes
    without panicking. *)
Lemma foldM_inv {A B} (f : A → B → option A) (I : list B → A → Prop) a l :
  I [] a →
  (∀ pre x post b, l = pre ++ x :: post → I pre b → ∃ b', f b x = Some b' ∧ I (pre ++ [x]) b') →
  ∃ b, foldM f a l = Some b ∧ I l b.
Proof.
  intros H0 Hstep.
  cut (∀ suf pre b, l = pre ++ suf → I pre b → ∃ b', foldM f b suf = Some b' ∧ I l b').
  { intros Hc. by apply (Hc l [] a). }
  induction suf as [|x suf IH]; intros pre b Hl Hb; simpl.
  - rewrite app_nil_r in Hl. subst. eauto.
  - destruct (Hstep _ _ _ _ Hl Hb) as (b' & -> & Hb'). simpl.
    apply (IH (pre ++ [x])); [|done]. by rewrite <-app_assoc.
Qed.

(** The same rule for [for i in 0..n]. *)
Lemma foldM_seq_inv {A} (f : A → nat → option A) (I : nat → A → Prop) a n :
  I 0 a →
  (∀ i b, i < n → I i b → ∃ b', f b i = Some b' ∧ I (S i) b') →
  ∃ b, foldM f a (seq 0 n) = Some b ∧ I n b.
Proof.
  intros H0 Hstep.
  destruct (foldM_inv f (λ pre b, I (length pre) b) a (seq 0 n)) as (b & Hf & Hb); [done| |].
  - intros pre x post b Hl Hb.
    assert (Hlen : length (seq 0 n) = length pre + S (length post)).
    { by rewrite Hl, length_app. }
    rewrite length_seq in Hlen.
    assert (Hx : seq 0 n !! length pre = Some x) by (rewrite Hl, list_lookup_middle; done).
    apply lookup_seq in Hx as [Hx _]. simpl in Hx. subst x.
    destruct (Hstep (length pre) b) as (b' & ? & ?); [lia|done|].
    exists b'. split; [done|]. rewrite length_app. simpl. by rewrite Nat.add_1_r.
  - rewrite length_seq in Hb. eauto.
Qed.

(** [loop I as p] applies the rule to the [for] loop of the goal with the invariant [I]: the goals
    are the entry, the body and the continuation, where [p] destructs the loop's result. *)
Tactic Notation "loop" constr(I) "as" simple_intropattern(p) :=
  match goal with
  | |- context [foldM ?f ?a (seq 0 ?n)] =>
      let H := fresh "Hloop" in
      pose proof (foldM_seq_inv f I a n) as H; forward H; [|forward H; [|destruct H as p]]
  end.

(** ** Fallible code *)

(** [Result<A, E>]. *)
Inductive result (E A : Type) : Type :=
  | Ok (a : A)
  | Err (e : E).
#[global] Arguments Ok {E A} a.
#[global] Arguments Err {E A} e.

#[export] Instance result_ret E : MRet (result E) := λ A, Ok.
#[export] Instance result_bind E : MBind (result E) := λ A B f m,
  match m with Ok a => f a | Err e => Err e end.
#[export] Instance result_fmap E : FMap (result E) := λ A B f m,
  match m with Ok a => Ok (f a) | Err e => Err e end.

(** [Result::ok]. *)
Definition ok {E A} (m : result E A) : option A := match m with Ok a => Some a | Err _ => None end.

Lemma result_bind_Ok {E A B} (f : A → result E B) (m : result E A) b :
  (m ≫= f) = Ok b ↔ ∃ a, m = Ok a ∧ f a = Ok b.
Proof.
  destruct m as [a|e]; simpl; split.
  - eauto.
  - intros (a' & [= ->] & H). done.
  - done.
  - by intros (a' & ? & _).
Qed.

(** ** [loop] with a measure *)

(** One turn of a [loop]: [inl] goes round again, [inr] leaves with a result. [run] takes at most
    [fuel] turns; with a measure that every turn decreases, any fuel above it gives the loop's own
    result and [out_of_fuel] is never returned. *)
Fixpoint run {St R} (out_of_fuel : R) (body : St → St + R) (fuel : nat) (s : St) : R :=
  match fuel with
  | 0 => out_of_fuel
  | S fuel => match body s with inl s' => run out_of_fuel body fuel s' | inr r => r end
  end.

Section run.
Context {St R : Type} (body : St → St + R) (measure : St → nat).
Hypothesis Hdecr : ∀ s s', body s = inl s' → measure s' < measure s.

Lemma run_irrelevant o o' fuel fuel' s :
  measure s < fuel → measure s < fuel' → run o body fuel s = run o' body fuel' s.
Proof using All.
  revert fuel' s. induction fuel as [|fuel IH]; intros [|fuel'] s Hf Hf'; simpl; try lia.
  destruct (body s) as [s'|r] eqn:Hb; [|done]. apply Hdecr in Hb. apply IH; lia.
Qed.

(** The loop equation. *)
Lemma run_unfold o fuel s :
  measure s < fuel →
  run o body fuel s = match body s with inl s' => run o body (S (measure s')) s' | inr r => r end.
Proof using All.
  intros Hf. destruct fuel as [|fuel]; [lia|].
  change (run o body (S fuel) s) with (match body s with inl s' => run o body fuel s' | inr r => r end).
  destruct (body s) as [s'|r] eqn:Hb; [|done]. apply Hdecr in Hb. apply run_irrelevant; lia.
Qed.

(** Rule of invariants: [I] holds at every turn and the exit gives [Q]. *)
Lemma run_inv (I : St → Prop) (Q : R → Prop) o fuel s :
  (∀ s, I s → match body s with inl s' => I s' | inr r => Q r end) →
  measure s < fuel → I s → Q (run o body fuel s).
Proof using All.
  intros Hstep. revert s. induction fuel as [|fuel IH]; intros s Hf HI; [lia|]. simpl.
  specialize (Hstep _ HI). destruct (body s) as [s'|r] eqn:Hb; [|done].
  apply IH; [|done]. apply Hdecr in Hb. lia.
Qed.
End run.

(** ** Counting the indices below a bound that satisfy a test *)

Fixpoint count_below (p : nat → bool) (n : nat) : nat :=
  match n with
  | 0 => 0
  | S m => count_below p m + (if p m then 1 else 0)
  end.

Lemma count_below_ext p q n :
  (∀ i, i < n → p i = q i) → count_below p n = count_below q n.
Proof.
  induction n as [|n IH]; intros H; simpl; [done|].
  rewrite IH by (intros; apply H; lia). by rewrite (H n) by lia.
Qed.

Lemma count_below_le p n : count_below p n ≤ n.
Proof. induction n; simpl; [lia|]. destruct (p n); lia. Qed.

Lemma count_below_pos p n i : i < n → p i = true → 0 < count_below p n.
Proof.
  induction n as [|n IH]; intros Hi Hp; simpl; [lia|].
  destruct (decide (i = n)) as [->|]; [rewrite Hp; lia|].
  assert (0 < count_below p n) by (apply IH; [lia|done]). lia.
Qed.

Lemma count_below_zero p n : count_below p n = 0 → ∀ i, i < n → p i = false.
Proof.
  intros H i Hi. destruct (p i) eqn:E; [|done].
  pose proof (count_below_pos p n i Hi E). lia.
Qed.

Lemma count_below_zero_iff p n : count_below p n = 0 ↔ ∀ i, i < n → p i = false.
Proof.
  split; [apply count_below_zero|]. intros H.
  induction n as [|n IH]; simpl; [done|]. rewrite IH by (intros; apply H; lia).
  by rewrite (H n) by lia.
Qed.

Lemma count_below_all p n : (∀ i, i < n → p i = true) → count_below p n = n.
Proof.
  induction n as [|n IH]; intros H; simpl; [done|].
  rewrite IH by (intros; apply H; lia). rewrite (H n) by lia. lia.
Qed.

(** Changing the test at one index moves the count by that index alone. *)
Lemma count_below_update p q n i :
  i < n → (∀ j, j < n → j ≠ i → q j = p j) →
  count_below q n + (if p i then 1 else 0) = count_below p n + (if q i then 1 else 0).
Proof.
  induction n as [|n IH]; intros Hi H; simpl; [lia|].
  destruct (decide (i = n)) as [->|].
  - rewrite (count_below_ext q p) by (intros; apply H; lia). lia.
  - rewrite (H n) by lia. specialize (IH ltac:(lia) ltac:(intros; apply H; lia)). lia.
Qed.

(** A count of one identifies the index. *)
Lemma count_below_one p n i j :
  count_below p n = 1 → i < n → j < n → p i = true → p j = true → i = j.
Proof.
  revert i j. induction n as [|n IH]; intros i j Hc Hi Hj Hpi Hpj; simpl in *; [lia|].
  destruct (decide (i = n)) as [->|], (decide (j = n)) as [->|]; [done| | |].
  - rewrite Hpi in Hc. pose proof (count_below_pos p n j ltac:(lia) Hpj). lia.
  - rewrite Hpj in Hc. pose proof (count_below_pos p n i ltac:(lia) Hpi). lia.
  - destruct (p n); [|apply IH; auto; lia].
    pose proof (count_below_pos p n i ltac:(lia) Hpi). lia.
Qed.

(** Partition: if every index below [n] has a class below [m], the class sizes add up to [n]. *)
Lemma sum_indicator a m :
  sum_list_with (λ k, if bool_decide (a = k) then 1 else 0) (seq 0 m) = if decide (a < m) then 1 else 0.
Proof.
  induction m as [|m IH]; [done|]. rewrite seq_S, sum_list_with_app, IH. simpl.
  repeat case_decide; repeat case_bool_decide; lia.
Qed.

Lemma sum_list_with_plus {A} (f g : A → nat) l :
  sum_list_with (λ x, f x + g x) l = sum_list_with f l + sum_list_with g l.
Proof. induction l as [|x l IH]; simpl; [done|]. rewrite IH. lia. Qed.

Lemma count_below_partition (f : nat → nat) n m :
  (∀ i, i < n → f i < m) →
  sum_list_with (λ k, count_below (λ i, bool_decide (f i = k)) n) (seq 0 m) = n.
Proof.
  induction n as [|n IH]; intros Hf; simpl.
  - induction (seq 0 m); simpl; auto.
  - rewrite sum_list_with_plus, IH, sum_indicator by (intros; apply Hf; lia).
    rewrite decide_True by (apply Hf; lia). lia.
Qed.

(** Pigeonhole form: the classes of a partial classification hold no more than its domain. *)
Lemma sum_count_le (g : nat → option nat) n m :
  sum_list_with (λ k, count_below (λ i, bool_decide (g i = Some k)) m) (seq 0 n)
    ≤ count_below (λ i, bool_decide (is_Some (g i))) m.
Proof.
  induction m as [|m IH]; simpl.
  - induction (seq 0 n); simpl; lia.
  - rewrite sum_list_with_plus.
    assert (sum_list_with (λ k, if bool_decide (g m = Some k) then 1 else 0) (seq 0 n)
              ≤ if bool_decide (is_Some (g m)) then 1 else 0).
    { destruct (g m) as [a|].
      - rewrite bool_decide_eq_true_2 by eauto.
        replace (sum_list_with (λ k, if bool_decide (Some a = Some k) then 1 else 0) (seq 0 n))
          with (sum_list_with (λ k, if bool_decide (a = k) then 1 else 0) (seq 0 n)).
        { rewrite sum_indicator. case_decide; simpl; lia. }
        clear. induction (seq 0 n) as [|k l IH]; simpl; [done|]. rewrite IH. f_equal.
        repeat case_bool_decide; congruence.
      - rewrite bool_decide_eq_false_2 by (intros [? ?]; done).
        clear. induction (seq 0 n) as [|k l IH]; simpl in *; lia. }
    lia.
Qed.

Lemma sum_list_with_ge {A} (f : A → nat) l : (∀ x, x ∈ l → 1 ≤ f x) → length l ≤ sum_list_with f l.
Proof.
  induction l as [|x l IH]; intros H; simpl; [lia|].
  pose proof (H x ltac:(set_solver)). specialize (IH ltac:(set_solver)). lia.
Qed.

Lemma pigeonhole (g : nat → option nat) n m :
  (∀ k, k < n → ∃ i, i < m ∧ g i = Some k) →
  n ≤ count_below (λ i, bool_decide (is_Some (g i))) m.
Proof.
  intros H. etransitivity; [|apply (sum_count_le g n)].
  rewrite <-(length_seq n 0) at 1. apply sum_list_with_ge.
  intros k Hk%elem_of_seq. destruct (H k ltac:(lia)) as (i & Hi & Hg).
  apply (count_below_pos _ _ i Hi). by apply bool_decide_eq_true_2.
Qed.
