(* ===== verification/Packed.v ===== *)
(** * Packed index words

    The bit layout of [crates/world/src/palette.rs]: a sub-chunk's 4,096 palette indices stored
    [32 / bits] to a [u32] word, with the leftover high bits of every word zero. *)
From stdpp Require Import base numbers list gmap sets.
From S2P Require Import Prelude.

(** ** Constants and the packing of one word *)

Definition SUB_CHUNK_SIDE : nat := 16.
Definition BLOCKS_PER_SUB_CHUNK : nat := SUB_CHUNK_SIDE * SUB_CHUNK_SIDE * SUB_CHUNK_SIDE.
Definition SUPPORTED_BITS : list nat := [0; 1; 2; 3; 4; 5; 6; 8; 16].
Definition PACKED_BITS : list nat := [1; 2; 3; 4; 5; 6; 8; 16].

(** [usize::div_ceil]. *)
Definition div_ceil (a b : nat) : nat := a / b + (if a mod b =? 0 then 0 else 1).

Definition word_count (bits_per_index : nat) : nat :=
  if bits_per_index =? 0 then 0
  else
    let values_per_word := 32 / bits_per_index in
    div_ceil BLOCKS_PER_SUB_CHUNK values_per_word.

(** [SUPPORTED_BITS.find(..).expect(..)]: the default is never reached, as 16 always matches. *)
Definition bits_for_palette_len (palette_len : nat) : nat :=
  match list_find (λ bits, bits = 16 ∨ (Z.of_nat palette_len ≤ Z.shiftl 1 (Z.of_nat bits))%Z)
          SUPPORTED_BITS with
  | Some (_, bits) => bits
  | None => 16
  end.

(** Bitwise complement of a [u32]. *)
Definition u32_not (w : Z) : Z := Z.lxor w (Z.ones 32).
(** [w << shift] on a [u32]. *)
Definition u32_shl (w : Z) (shift : Z) : Z := (Z.shiftl w shift mod 2 ^ 32)%Z.

(** The word update of [write_palette_index]. *)
Definition write_slot (word : Z) (bits_per_index slot index : nat) : Z :=
  let shift := Z.of_nat (slot * bits_per_index) in
  let mask := u32_shl (Z.shiftl 1 (Z.of_nat bits_per_index) - 1) shift in
  Z.lor (Z.land word (u32_not mask)) (Z.land (u32_shl (Z.of_nat index) shift) mask).

(** The word read of [physical_index]. *)
Definition read_slot (word : Z) (bits_per_index slot : nat) : nat :=
  let shift := Z.of_nat (slot * bits_per_index) in
  let mask := (Z.shiftl 1 (Z.of_nat bits_per_index) - 1)%Z in
  Z.to_nat (Z.land (Z.shiftr word shift) mask).

(** [None] is the panic of [words[..]]. *)
Definition write_palette_index (words : list Z) (bits_per_index linear index : nat) : option (list Z) :=
  if bits_per_index =? 0 then Some words
  else
    let values_per_word := 32 / bits_per_index in
    word ← words !! (linear / values_per_word);
    Some (<[linear / values_per_word :=
             write_slot word bits_per_index (linear mod values_per_word) index]> words).

(** The lookup of [physical_index] once [linear] is in range; [None] is a missing word. *)
Definition read_palette_index (words : list Z) (bits_per_index linear : nat) : option nat :=
  if bits_per_index =? 0 then Some 0
  else
    let values_per_word := 32 / bits_per_index in
    word ← words !! (linear / values_per_word);
    Some (read_slot word bits_per_index (linear mod values_per_word)).

(** A loop that writes every cell's index into fresh words. *)
Definition pack_words (bits_per_index : nat) (index_of : nat → option nat) : option (list Z) :=
  foldM (λ words linear, index ← index_of linear; write_palette_index words bits_per_index linear index)
    (replicate (word_count bits_per_index) 0%Z) (seq 0 BLOCKS_PER_SUB_CHUNK).

(** [slots * bits] of the word at [index], as [has_zero_padding] computes it. *)
Definition used_bits (bits_per_index index : nat) : nat :=
  let per_word := 32 / bits_per_index in
  (BLOCKS_PER_SUB_CHUNK - index * per_word) `min` per_word * bits_per_index.

(** ** Arithmetic of the layout *)

Lemma BLOCKS_eq : BLOCKS_PER_SUB_CHUNK = Z.to_nat 4096.
Proof. reflexivity. Qed.
#[global] Opaque BLOCKS_PER_SUB_CHUNK.

Create HintDb packed.

Lemma packed_bits_range bits : bits ∈ PACKED_BITS → 1 ≤ bits ≤ 16.
Proof. unfold PACKED_BITS. set_unfold. lia. Qed.

Lemma supported_bits_cases bits : bits ∈ SUPPORTED_BITS ↔ bits = 0 ∨ bits ∈ PACKED_BITS.
Proof. unfold SUPPORTED_BITS, PACKED_BITS. set_solver. Qed.

Lemma per_word_bounds bits : 1 ≤ bits ≤ 16 → 2 ≤ 32 / bits ∧ 32 / bits * bits ≤ 32.
Proof.
  intros H. split.
  - apply Nat.div_le_lower_bound; lia.
  - rewrite Nat.mul_comm. apply Nat.Div0.mul_div_le.
Qed.

Lemma slot_fits bits slot : 1 ≤ bits ≤ 16 → slot < 32 / bits → slot * bits + bits ≤ 32.
Proof. intros H Hs. pose proof (per_word_bounds bits H). nia. Qed.

Lemma word_count_covers bits linear :
  1 ≤ bits ≤ 16 → linear < BLOCKS_PER_SUB_CHUNK → linear / (32 / bits) < word_count bits.
Proof.
  intros H Hl. pose proof (per_word_bounds bits H) as [Hp _].
  unfold word_count, div_ceil. destruct (Nat.eqb_spec bits 0); [lia|].
  set (p := 32 / bits) in *.
  pose proof (Nat.div_mod_eq BLOCKS_PER_SUB_CHUNK p). pose proof (Nat.mod_upper_bound BLOCKS_PER_SUB_CHUNK p).
  apply Nat.Div0.div_lt_upper_bound. destruct (Nat.eqb_spec (BLOCKS_PER_SUB_CHUNK mod p) 0); nia.
Qed.

Lemma div_ceil_le a b n : 0 < b → a ≤ n * b → div_ceil a b ≤ n.
Proof.
  intros Hb Ha. unfold div_ceil. pose proof (Nat.div_mod_eq a b). pose proof (Nat.mod_upper_bound a b).
  destruct (Nat.eqb_spec (a mod b) 0); nia.
Qed.

Lemma div_ceil_covers a b : 0 < b → a ≤ div_ceil a b * b.
Proof.
  intros Hb. unfold div_ceil. pose proof (Nat.div_mod_eq a b). pose proof (Nat.mod_upper_bound a b).
  destruct (Nat.eqb_spec (a mod b) 0); nia.
Qed.

(** The widest packing has the most words. *)
Lemma word_count_max bits : bits ≤ 16 → word_count bits ≤ word_count 16.
Proof.
  intros Hb. unfold word_count at 1. destruct (Nat.eqb_spec bits 0); [lia|].
  pose proof (per_word_bounds bits ltac:(lia)) as [Hp _]. apply div_ceil_le; [lia|].
  pose proof (div_ceil_covers BLOCKS_PER_SUB_CHUNK 2 ltac:(lia)) as Hc.
  change (div_ceil BLOCKS_PER_SUB_CHUNK 2) with (word_count 16) in Hc. nia.
Qed.

(** Distinct cells in one word occupy distinct slots. *)
Lemma same_word_other_slot p i j :
  0 < p → i ≠ j → i / p = j / p → i mod p ≠ j mod p.
Proof. intros Hp Hij Hd Hm. pose proof (Nat.div_mod_eq i p). pose proof (Nat.div_mod_eq j p). nia. Qed.

Definition is_u32 (w : Z) : Prop := (0 ≤ w < 2 ^ 32)%Z.

Lemma testbit_above n z i : (0 ≤ z < 2 ^ n)%Z → (n ≤ i)%Z → Z.testbit z i = false.
Proof.
  intros Hz Hi. destruct (decide (z = 0%Z)) as [->|]; [apply Z.bits_0|].
  apply Z.bits_above_log2; [lia|]. apply Z.lt_le_trans with n; [|done].
  apply Z.log2_lt_pow2; lia.
Qed.

Lemma testbit_bound n z : (0 ≤ n)%Z → (0 ≤ z)%Z → (∀ i, (n ≤ i)%Z → Z.testbit z i = false) → (z < 2 ^ n)%Z.
Proof.
  intros Hn Hz Hb. destruct (decide (z = 0%Z)) as [->|]; [apply Z.pow_pos_nonneg; lia|].
  apply Z.log2_lt_pow2; [lia|]. apply Z.nle_gt. intros Hle.
  assert (Hbit : Z.testbit z (Z.log2 z) = true) by (apply Z.bit_log2; lia).
  rewrite Hb in Hbit by done. done.
Qed.

Lemma shiftl_1_minus_1 n : (0 ≤ n)%Z → (Z.shiftl 1 n - 1 = Z.ones n)%Z.
Proof. intros. rewrite Z.shiftl_1_l, Z.ones_equiv. lia. Qed.

(** Fields that do not overlap: [|] adds. *)
Lemma lor_shiftl_add a n b :
  (0 ≤ n)%Z → (0 ≤ b < 2 ^ n)%Z → Z.lor (Z.shiftl a n) b = (a * 2 ^ n + b)%Z.
Proof.
  intros Hn Hb. assert (Hz : Z.land (Z.shiftl a n) b = 0%Z).
  { apply Z.bits_inj'. intros i Hi. rewrite Z.land_spec, Z.bits_0, Z.shiftl_spec by done.
    destruct (decide (i < n)%Z); [by rewrite Z.testbit_neg_r by lia|].
    rewrite (testbit_above n b i) by lia. apply andb_false_r. }
  pose proof (Z.add_lor_land (Z.shiftl a n) b) as Ha. rewrite Hz in Ha.
  rewrite Z.shiftl_mul_pow2 in * by done. lia.
Qed.

Lemma mask_testbit bits slot i :
  1 ≤ bits ≤ 16 → slot < 32 / bits → (0 ≤ i)%Z →
  Z.testbit (u32_shl (Z.shiftl 1 (Z.of_nat bits) - 1) (Z.of_nat (slot * bits))) i =
  bool_decide (Z.of_nat (slot * bits) ≤ i < Z.of_nat (slot * bits + bits))%Z.
Proof.
  intros Hb Hs Hi. pose proof (slot_fits bits slot Hb Hs). unfold u32_shl.
  rewrite shiftl_1_minus_1 by lia. rewrite <-Z.land_ones by lia.
  rewrite Z.land_spec, Z.shiftl_spec by lia.
  rewrite !Z.testbit_ones by lia.
  case_bool_decide; destruct (Z.leb_spec 0 (i - Z.of_nat (slot * bits))),
    (Z.ltb_spec (i - Z.of_nat (slot * bits)) (Z.of_nat bits)), (Z.leb_spec 0 i), (Z.ltb_spec i 32);
    simpl; try done; lia.
Qed.

Lemma write_slot_testbit word bits slot index i :
  1 ≤ bits ≤ 16 → slot < 32 / bits → is_u32 word → (Z.of_nat index < 2 ^ Z.of_nat bits)%Z → (0 ≤ i)%Z →
  Z.testbit (write_slot word bits slot index) i =
  if decide (Z.of_nat (slot * bits) ≤ i < Z.of_nat (slot * bits + bits))%Z
  then Z.testbit (Z.of_nat index) (i - Z.of_nat (slot * bits)) else Z.testbit word i.
Proof.
  intros Hb Hs Hw Hidx Hi. pose proof (slot_fits bits slot Hb Hs). unfold write_slot.
  rewrite Z.lor_spec, !Z.land_spec, mask_testbit by done.
  unfold u32_not. rewrite Z.lxor_spec, mask_testbit, Z.testbit_ones by (done || lia).
  case_bool_decide as E; case_decide; try done; simpl.
  - unfold u32_shl. rewrite <-Z.land_ones, Z.land_spec, Z.shiftl_spec, Z.testbit_ones by lia.
    destruct (Z.leb_spec 0 i), (Z.ltb_spec i 32); simpl; try lia.
    rewrite !andb_true_r, andb_false_r. done.
  - rewrite andb_false_r, orb_false_r. destruct (Z.leb_spec 0 i), (Z.ltb_spec i 32); simpl; try lia.
    + by rewrite andb_true_r.
    + rewrite andb_false_r. symmetry. apply (testbit_above 32); [done|lia].
Qed.

Lemma read_slot_testbit word bits slot i :
  (0 ≤ word)%Z → (0 ≤ i)%Z →
  Z.testbit (Z.of_nat (read_slot word bits slot)) i =
  if decide (i < Z.of_nat bits)%Z then Z.testbit word (i + Z.of_nat (slot * bits)) else false.
Proof.
  intros Hw Hi. unfold read_slot. rewrite shiftl_1_minus_1 by lia.
  rewrite Z2Nat.id by (apply Z.land_nonneg; right; rewrite Z.ones_equiv; pose proof (Z.pow_pos_nonneg 2 (Z.of_nat bits)); lia).
  rewrite Z.land_spec, Z.shiftr_spec, Z.testbit_ones by lia.
  destruct (Z.leb_spec 0 i), (Z.ltb_spec i (Z.of_nat bits)); case_decide; try lia; simpl;
    by rewrite ?andb_true_r, ?andb_false_r.
Qed.

Lemma read_slot_bound word bits slot : (Z.of_nat (read_slot word bits slot) < 2 ^ Z.of_nat bits)%Z.
Proof.
  unfold read_slot. rewrite shiftl_1_minus_1 by lia. rewrite Z.land_ones by lia.
  pose proof (Z.mod_pos_bound (Z.shiftr word (Z.of_nat (slot * bits))) (2 ^ Z.of_nat bits)).
  pose proof (Z.pow_pos_nonneg 2 (Z.of_nat bits)). lia.
Qed.

Lemma write_slot_nonneg word bits slot index :
  1 ≤ bits ≤ 16 → slot < 32 / bits → is_u32 word → (0 ≤ write_slot word bits slot index)%Z.
Proof.
  intros Hb Hs Hw. unfold write_slot. apply Z.lor_nonneg. split; apply Z.land_nonneg.
  - left. apply Hw.
  - left. unfold u32_shl. apply Z.mod_pos_bound. lia.
Qed.

Lemma write_slot_u32 word bits slot index :
  1 ≤ bits ≤ 16 → slot < 32 / bits → is_u32 word → (Z.of_nat index < 2 ^ Z.of_nat bits)%Z →
  is_u32 (write_slot word bits slot index).
Proof.
  intros Hb Hs Hw Hi. pose proof (slot_fits bits slot Hb Hs). split; [by apply write_slot_nonneg|].
  apply testbit_bound; [lia|by apply write_slot_nonneg|]. intros i Hge.
  rewrite write_slot_testbit by (done || lia). rewrite decide_False by lia.
  apply (testbit_above 32); [done|lia].
Qed.

Lemma read_write_slot_same word bits slot index :
  1 ≤ bits ≤ 16 → slot < 32 / bits → is_u32 word → (Z.of_nat index < 2 ^ Z.of_nat bits)%Z →
  read_slot (write_slot word bits slot index) bits slot = index.
Proof.
  intros Hb Hs Hw Hidx. apply Nat2Z.inj, Z.bits_inj'. intros i Hi.
  rewrite read_slot_testbit by (try apply write_slot_nonneg; done || lia).
  case_decide.
  - rewrite write_slot_testbit by (done || lia). rewrite decide_True by lia. f_equal. lia.
  - symmetry. apply (testbit_above (Z.of_nat bits)); lia.
Qed.

Lemma read_write_slot_other word bits slot slot' index :
  1 ≤ bits ≤ 16 → slot < 32 / bits → slot' < 32 / bits → slot ≠ slot' →
  is_u32 word → (Z.of_nat index < 2 ^ Z.of_nat bits)%Z →
  read_slot (write_slot word bits slot index) bits slot' = read_slot word bits slot'.
Proof.
  intros Hb Hs Hs' Hne Hw Hidx. apply Nat2Z.inj, Z.bits_inj'. intros i Hi.
  pose proof (write_slot_nonneg word bits slot index Hb Hs Hw). destruct Hw.
  rewrite !read_slot_testbit by done. case_decide; [|done].
  rewrite write_slot_testbit by (done || lia). rewrite decide_False; [done|]. nia.
Qed.

(** ** Word vectors *)

(** A vector of the exact length for its width, every word a [u32]. *)
Record words_ok (bits : nat) (words : list Z) : Prop := {
  words_length : length words = word_count bits;
  words_u32 : Forall is_u32 words;
}.

Lemma words_ok_zero bits : words_ok bits (replicate (word_count bits) 0%Z).
Proof. split; [apply length_replicate|]. apply Forall_replicate. split; lia. Qed.

Lemma words_ok_lookup bits words i :
  1 ≤ bits ≤ 16 → words_ok bits words → i < BLOCKS_PER_SUB_CHUNK →
  ∃ w, words !! (i / (32 / bits)) = Some w ∧ is_u32 w.
Proof.
  intros Hb [Hl Hf] Hi. destruct (lookup_lt_is_Some_2 words (i / (32 / bits))) as [w Hw].
  { rewrite Hl. by apply word_count_covers. }
  exists w. split; [done|]. by eapply Forall_lookup_1.
Qed.

Lemma read_palette_index_total bits words i :
  bits ∈ SUPPORTED_BITS → words_ok bits words → i < BLOCKS_PER_SUB_CHUNK →
  ∃ k, read_palette_index words bits i = Some k ∧ (Z.of_nat k < 2 ^ Z.of_nat bits)%Z.
Proof.
  intros Hb Hw Hi. unfold read_palette_index. destruct (Nat.eqb_spec bits 0) as [->|Hz]; [by exists 0|].
  apply supported_bits_cases in Hb as [?|Hb]; [done|]. apply packed_bits_range in Hb.
  destruct (words_ok_lookup bits words i Hb Hw Hi) as (w & -> & _). simpl.
  eexists. split; [done|]. apply read_slot_bound.
Qed.

(** Writing one cell: it never panics, keeps the vector well formed and changes no other cell. *)
Lemma write_palette_index_spec bits words i k :
  bits ∈ SUPPORTED_BITS → words_ok bits words → i < BLOCKS_PER_SUB_CHUNK →
  (Z.of_nat k < 2 ^ Z.of_nat bits)%Z →
  ∃ words', write_palette_index words bits i k = Some words' ∧ words_ok bits words' ∧
    ∀ j, j < BLOCKS_PER_SUB_CHUNK →
      read_palette_index words' bits j = if decide (i = j) then Some k else read_palette_index words bits j.
Proof.
  intros Hb Hw Hi Hk. unfold write_palette_index, read_palette_index.
  destruct (Nat.eqb_spec bits 0) as [->|Hz].
  { exists words. split_and!; [done..|]. intros j _. case_decide; [|done]. f_equal. lia. }
  apply supported_bits_cases in Hb as [?|Hb]; [done|]. apply packed_bits_range in Hb.
  destruct (words_ok_lookup bits words i Hb Hw Hi) as (w & Hlw & Hu). rewrite Hlw. simpl.
  pose proof (per_word_bounds bits Hb) as [Hp _].
  assert (Hm : ∀ j, j mod (32 / bits) < 32 / bits) by (intros; apply Nat.mod_upper_bound; lia).
  eexists. split_and!; [done| |].
  - destruct Hw as [Hl Hf]. split; [by rewrite length_insert|].
    apply Forall_insert; [done|]. by apply write_slot_u32.
  - intros j Hj. destruct (decide (i / (32 / bits) = j / (32 / bits))) as [Hd|Hd].
    + rewrite <-Hd, list_lookup_insert_eq by (by eapply lookup_lt_Some). rewrite Hlw. simpl.
      case_decide as E; f_equal.
      * subst j. by apply read_write_slot_same.
      * apply read_write_slot_other; auto. apply same_word_other_slot; auto. lia.
    + rewrite list_lookup_insert_ne by done. case_decide; [congruence|done].
Qed.

Lemma write_palette_index_other bits words i k words' :
  write_palette_index words bits i k = Some words' → length words' = length words.
Proof.
  unfold write_palette_index. case_match; [by intros [= ->]|].
  destruct (words !! _); simpl; [|done]. intros [= <-]. by rewrite length_insert.
Qed.

(** [for linear in 0..n] writing [index_of linear]. *)
Lemma pack_words_spec bits f :
  bits ∈ SUPPORTED_BITS →
  (∀ i, i < BLOCKS_PER_SUB_CHUNK → ∃ k, f i = Some k ∧ (Z.of_nat k < 2 ^ Z.of_nat bits)%Z) →
  ∃ words, pack_words bits f = Some words ∧ words_ok bits words ∧
    ∀ i, i < BLOCKS_PER_SUB_CHUNK → read_palette_index words bits i = f i.
Proof.
  intros Hb Hf. unfold pack_words.
  destruct (foldM_seq_inv
    (λ words linear, index ← f linear; write_palette_index words bits linear index)
    (λ n ws, words_ok bits ws ∧ ∀ i, i < n → i < BLOCKS_PER_SUB_CHUNK → read_palette_index ws bits i = f i)
    (replicate (word_count bits) 0%Z) BLOCKS_PER_SUB_CHUNK) as (ws & -> & Hok & Hr).
  - split; [apply words_ok_zero|lia].
  - intros i ws Hi [Hok Hr]. destruct (Hf i Hi) as (k & Hk & Hkb). rewrite Hk. simpl.
    destruct (write_palette_index_spec bits ws i k Hb Hok Hi Hkb) as (ws' & -> & Hok' & Hr').
    eexists. split_and!; [done..|]. intros j Hj Hj'. rewrite Hr' by done.
    case_decide; [by subst|]. apply Hr; lia.
  - exists ws. split_and!; [done..|]. intros. by apply Hr.
Qed.

(** ** Zero padding makes the packed form unique *)

(** No bit is set outside the cell slots: what [has_zero_padding] tests. *)
Definition padded (bits : nat) (words : list Z) : Prop :=
  ∀ index word, words !! index = Some word → (word < 2 ^ Z.of_nat (used_bits bits index))%Z.

Lemma padded_zero bits n : padded bits (replicate n 0%Z).
Proof. intros i w [-> _]%lookup_replicate. apply Z.pow_pos_nonneg; lia. Qed.

Lemma slot_below_used bits linear :
  1 ≤ bits ≤ 16 → linear < BLOCKS_PER_SUB_CHUNK →
  linear mod (32 / bits) * bits + bits ≤ used_bits bits (linear / (32 / bits)).
Proof.
  intros Hb Hl. pose proof (per_word_bounds bits Hb) as [Hp _]. unfold used_bits.
  set (p := 32 / bits) in *. pose proof (Nat.div_mod_eq linear p).
  pose proof (Nat.mod_upper_bound linear p ltac:(lia)).
  assert (S (linear mod p) ≤ (BLOCKS_PER_SUB_CHUNK - linear / p * p) `min` p) by nia.
  nia.
Qed.

Lemma write_palette_index_padded bits words i k words' :
  bits ∈ SUPPORTED_BITS → words_ok bits words → i < BLOCKS_PER_SUB_CHUNK →
  (Z.of_nat k < 2 ^ Z.of_nat bits)%Z → padded bits words →
  write_palette_index words bits i k = Some words' → padded bits words'.
Proof.
  unfold write_palette_index. intros Hb Hw Hi Hk Hp.
  destruct (Nat.eqb_spec bits 0) as [->|Hz]; [by intros [= <-]|].
  apply supported_bits_cases in Hb as [?|Hb]; [done|]. apply packed_bits_range in Hb.
  destruct (words_ok_lookup bits words i Hb Hw Hi) as (w & Hlw & Hu). rewrite Hlw. simpl.
  intros [= <-] j w'. destruct (decide (i / (32 / bits) = j)) as [<-|Hne].
  2:{ rewrite list_lookup_insert_ne by done. apply Hp. }
  rewrite list_lookup_insert_eq by (by eapply lookup_lt_Some). intros [= <-].
  pose proof (slot_below_used bits i Hb Hi). pose proof (per_word_bounds bits Hb) as [Hpp _].
  assert (Hm : i mod (32 / bits) < 32 / bits) by (apply Nat.mod_upper_bound; lia).
  apply testbit_bound; [lia|by apply write_slot_nonneg|]. intros b Hge.
  rewrite write_slot_testbit by (done || lia). rewrite decide_False by lia.
  apply (testbit_above (Z.of_nat (used_bits bits (i / (32 / bits))))); [|done].
  split; [apply Hu|by eapply Hp].
Qed.

Lemma pack_words_padded bits f words :
  bits ∈ SUPPORTED_BITS →
  (∀ i, i < BLOCKS_PER_SUB_CHUNK → ∃ k, f i = Some k ∧ (Z.of_nat k < 2 ^ Z.of_nat bits)%Z) →
  pack_words bits f = Some words → padded bits words.
Proof.
  intros Hb Hf. unfold pack_words.
  destruct (foldM_seq_inv
    (λ words linear, index ← f linear; write_palette_index words bits linear index)
    (λ n ws, words_ok bits ws ∧ padded bits ws)
    (replicate (word_count bits) 0%Z) BLOCKS_PER_SUB_CHUNK) as (ws & -> & Hok & Hr).
  - split; [apply words_ok_zero|apply padded_zero].
  - intros i ws Hi [Hok Hp]. destruct (Hf i Hi) as (k & Hk & Hkb). rewrite Hk. simpl.
    destruct (write_palette_index_spec bits ws i k Hb Hok Hi Hkb) as (ws' & Hwr & Hok' & Hr').
    exists ws'. split_and!; [done..|].
    exact (write_palette_index_padded _ _ _ _ _ Hb Hok Hi Hkb Hp Hwr).
  - by intros [= <-].
Qed.

(** A set bit of a padded word lies in some cell's slot. *)
Lemma used_bit_cell bits idx b :
  1 ≤ bits ≤ 16 → b < used_bits bits idx →
  let linear := idx * (32 / bits) + b / bits in
  linear < BLOCKS_PER_SUB_CHUNK ∧ linear / (32 / bits) = idx ∧ linear mod (32 / bits) = b / bits.
Proof.
  intros Hb Hlt. pose proof (per_word_bounds bits Hb) as [Hp _]. unfold used_bits in Hlt.
  set (p := 32 / bits) in *.
  assert (b / bits < (BLOCKS_PER_SUB_CHUNK - idx * p) `min` p) by (apply Nat.Div0.div_lt_upper_bound; lia).
  simpl. split; [lia|]. split.
  - rewrite Nat.div_add_l, (Nat.div_small (b / bits)) by lia. lia.
  - rewrite Nat.add_comm, Nat.Div0.mod_add. apply Nat.mod_small. lia.
Qed.

Lemma packed_words_ext bits words words' :
  bits ∈ SUPPORTED_BITS → words_ok bits words → words_ok bits words' →
  padded bits words → padded bits words' →
  (∀ i, i < BLOCKS_PER_SUB_CHUNK → read_palette_index words bits i = read_palette_index words' bits i) →
  words = words'.
Proof.
  intros Hb [Hl Hu] [Hl' Hu'] Hp Hp' Hr.
  apply list_eq_same_length with (length words); [congruence|done|].
  intros idx w w' Hidx Hw Hw'.
  apply supported_bits_cases in Hb as [->|Hb].
  { rewrite Hl in Hidx. unfold word_count in Hidx. simpl in Hidx. lia. }
  apply packed_bits_range in Hb.
  pose proof (Forall_lookup_1 _ _ _ _ Hu Hw) as Hwu. pose proof (Forall_lookup_1 _ _ _ _ Hu' Hw') as Hwu'.
  pose proof (Hp _ _ Hw) as Hpw. pose proof (Hp' _ _ Hw') as Hpw'.
  apply Z.bits_inj'. intros b Hb0.
  destruct (decide (b < Z.of_nat (used_bits bits idx))%Z) as [Hlt|Hge].
  2:{ destruct Hwu, Hwu'. rewrite !(testbit_above (Z.of_nat (used_bits bits idx))) by lia. done. }
  destruct (used_bit_cell bits idx (Z.to_nat b) Hb ltac:(lia)) as (Hlin & Hdiv & Hmod).
  specialize (Hr _ Hlin). unfold read_palette_index in Hr.
  destruct (Nat.eqb_spec bits 0) as [?|_]; [lia|]. rewrite Hdiv, Hmod, Hw, Hw' in Hr. simpl in Hr.
  injection Hr as Hr. apply (f_equal (λ n, Z.testbit (Z.of_nat n) (Z.of_nat (Z.to_nat b mod bits)))) in Hr.
  pose proof (Nat.mod_upper_bound (Z.to_nat b) bits ltac:(lia)).
  pose proof (Nat.div_mod_eq (Z.to_nat b) bits).
  destruct Hwu, Hwu'. rewrite !read_slot_testbit, !decide_True in Hr by lia.
  replace (Z.of_nat (Z.to_nat b mod bits) + Z.of_nat (Z.to_nat b / bits * bits))%Z with b in Hr by nia.
  done.
Qed.

(** ** The width chosen for a palette *)

Lemma bits_for_palette_len_supported n : bits_for_palette_len n ∈ SUPPORTED_BITS.
Proof.
  unfold bits_for_palette_len. destruct (list_find _ _) as [[i b]|] eqn:E.
  - apply list_find_Some in E as (Hl & _ & _). by eapply list_elem_of_lookup_2.
  - unfold SUPPORTED_BITS. set_solver.
Qed.

Lemma bits_for_palette_len_fits n :
  n ≤ BLOCKS_PER_SUB_CHUNK → (Z.of_nat n ≤ 2 ^ Z.of_nat (bits_for_palette_len n))%Z.
Proof.
  intros Hn. pose proof BLOCKS_eq. unfold bits_for_palette_len.
  destruct (list_find _ _) as [[i b]|] eqn:E.
  - apply list_find_Some in E as (Hl & [->|Hle] & _); [simpl; lia|].
    by rewrite Z.shiftl_1_l in Hle.
  - simpl. lia.
Qed.

(** No narrower supported width holds the palette. *)
Lemma bits_for_palette_len_least n bits :
  bits ∈ SUPPORTED_BITS → (Z.of_nat n ≤ 2 ^ Z.of_nat bits)%Z → bits_for_palette_len n ≤ bits.
Proof.
  intros [i Hi]%list_elem_of_lookup Hle. unfold bits_for_palette_len.
  destruct (list_find _ _) as [[k b]|] eqn:E.
  - apply list_find_Some in E as (Hl & _ & Hnot).
    destruct (decide (i < k)) as [Hlt|Hge].
    { destruct (Hnot i bits Hi Hlt). right. by rewrite Z.shiftl_1_l. }
    clear Hnot Hle. unfold SUPPORTED_BITS in *.
    do 9 (destruct k as [|k]; simpl in Hl; [injection Hl as <-;
      do 9 (destruct i as [|i]; simpl in Hi; [injection Hi as <-; lia|]); done|]). done.
  - apply list_find_None in E. rewrite Forall_forall in E. destruct (E bits).
    { by eapply list_elem_of_lookup_2. } right. by rewrite Z.shiftl_1_l.
Qed.

Lemma bits_for_palette_len_mono n m : n ≤ m → m ≤ BLOCKS_PER_SUB_CHUNK →
  bits_for_palette_len n ≤ bits_for_palette_len m.
Proof.
  intros Hnm Hm. apply bits_for_palette_len_least; [apply bits_for_palette_len_supported|].
  pose proof (bits_for_palette_len_fits m Hm). lia.
Qed.

Lemma bits_for_palette_len_1 : bits_for_palette_len 1 = 0.
Proof. reflexivity. Qed.

Lemma bits_for_palette_len_0_inv n :
  n ≤ BLOCKS_PER_SUB_CHUNK → bits_for_palette_len n = 0 → n ≤ 1.
Proof. intros Hn H. pose proof (bits_for_palette_len_fits n Hn) as Hf. rewrite H in Hf. simpl in Hf. lia. Qed.
