(* ===== verification/Palette.v ===== *)
(** * Palette storage

    [crates/world/src/palette.rs] and [crates/world/src/palette/edits.rs]: one block layer as a
    palette of raw network values plus packed indices, its reads, and the in-place edits that keep
    stable physical slots and repack lazily. Lists stand for boxed slices and [None] for a panic;
    the values are [u32]s as [Z], indices and widths are [nat]. *)
From stdpp Require Import base numbers list gmap sets.
From S2P Require Import Prelude Packed.

(** ** Data *)

(** [index as u16]. *)
Definition as_u16 (n : nat) : nat := Z.to_nat (Z.of_nat n mod 2 ^ 16).
(** [count += 1] and [count -= 1] on a [u16]; overflow panics under checked arithmetic. *)
Definition u16_incr (n : nat) : option nat :=
  if decide (Z.of_nat n < 2 ^ 16 - 1)%Z then Some (S n) else None.
Definition u16_decr (n : nat) : option nat := match n with 0 => None | S m => Some m end.

Record PaletteSlot := mk_slot { slot_palette_index : nat; slot_count : nat }.

Record PaletteEdits := mk_edits {
  slots : list PaletteSlot;
  direct : bool;
  (* the [OnceLock] cache of packed words *)
  canonical_words : option (list Z);
}.

Record PalettedStorage := mk_storage {
  raw_bits : nat;
  raw_words : list Z;
  palette : list Z;
  edits : option PaletteEdits;
}.

(** ** Reads *)

Definition storage_new (bits_per_index : nat) (words palette : list Z) : PalettedStorage :=
  mk_storage bits_per_index words palette None.

Definition uniform (runtime_id : Z) : PalettedStorage := storage_new 0 [] [runtime_id].

Definition bits_per_index (s : PalettedStorage) : nat :=
  match edits s with
  | Some _ => bits_for_palette_len (length (palette s))
  | None => raw_bits s
  end.

Definition physical_index (s : PalettedStorage) (linear : nat) : option nat :=
  if decide (BLOCKS_PER_SUB_CHUNK ≤ linear) then None
  else if raw_bits s =? 0 then Some 0
  else
    let values_per_word := 32 / raw_bits s in
    word ← raw_words s !! (linear / values_per_word);
    Some (read_slot word (raw_bits s) (linear mod values_per_word)).

(** [slots.get(slot).filter(|slot| slot.count != 0).map(|slot| slot.palette_index)]. *)
Definition live_index (sl : list PaletteSlot) (slot : nat) : option nat :=
  s ← sl !! slot;
  if slot_count s =? 0 then None else Some (slot_palette_index s).

Definition palette_index (s : PalettedStorage) (linear : nat) : option nat :=
  slot ← physical_index s linear;
  match edits s with
  | Some e => live_index (slots e) slot
  | None => Some slot
  end.

(** [palette_index(linear).and_then(|index| palette.get(index))]. *)
Definition cell_value (s : PalettedStorage) (linear : nat) : option Z :=
  index ← palette_index s linear; palette s !! index.

(** [usize::from(x) << 8 | usize::from(z) << 4 | usize::from(y)]. *)
Definition linear_index (x y z : nat) : nat :=
  Z.to_nat (Z.lor (Z.lor (Z.shiftl (Z.of_nat x) 8) (Z.shiftl (Z.of_nat z) 4)) (Z.of_nat y)).

Definition runtime_id (s : PalettedStorage) (x y z : nat) : option Z :=
  if decide (16 ≤ x ∨ 16 ≤ y ∨ 16 ≤ z) then None
  else index ← palette_index s (linear_index x y z); palette s !! index.

(** The body of [get_or_init] in [words]. *)
Definition canonical_pack (s : PalettedStorage) : option (list Z) :=
  let bits := bits_per_index s in
  if bits =? 0 then Some [] else pack_words bits (palette_index s).

(** [words()]: the exposed words and the storage with its cache as the call leaves it. *)
Definition words (s : PalettedStorage) : option (list Z * PalettedStorage) :=
  match edits s with
  | Some e =>
      if direct e then Some (raw_words s, s)
      else
        match canonical_words e with
        | Some w => Some (w, s)
        | None =>
            w ← canonical_pack s;
            Some (w, mk_storage (raw_bits s) (raw_words s) (palette s)
                       (Some (mk_edits (slots e) (direct e) (Some w))))
        end
  | None => Some (raw_words s, s)
  end.

Definition is_uniform (s : PalettedStorage) : bool := bits_per_index s =? 0.

Definition uniform_runtime_id (s : PalettedStorage) : option Z :=
  if is_uniform s then palette s !! 0 else None.

Definition U32_MAX : Z := 2 ^ 32 - 1.
Definition U16_MAX : Z := 2 ^ 16 - 1.

(** The chunked loop of [palette_indices]: word [word_index] fills its chunk of [out]; a missing
    word marks everything from its chunk on. *)
Fixpoint unpack_chunks (bits_per_index : nat) (ws : list Z) (word_index : nat) (todo fuel : nat) : list Z :=
  match fuel with
  | 0 => []
  | S fuel =>
      if todo =? 0 then []
      else
        let per_word := 32 / bits_per_index in
        match ws !! word_index with
        | None => replicate todo U32_MAX
        | Some word =>
            let chunk := per_word `min` todo in
            ((λ slot, Z.of_nat (read_slot word bits_per_index slot)) <$> seq 0 chunk) ++
              unpack_chunks bits_per_index ws (S word_index) (todo - chunk) fuel
        end
  end.

(** [palette_indices], the contents of [out] when it returns. *)
Definition palette_indices (s : PalettedStorage) : list Z :=
  match edits s with
  | Some _ =>
      (λ linear, match palette_index s linear with Some i => Z.of_nat i | None => U32_MAX end)
        <$> seq 0 BLOCKS_PER_SUB_CHUNK
  | None =>
      if raw_bits s =? 0 then replicate BLOCKS_PER_SUB_CHUNK 0%Z
      else unpack_chunks (raw_bits s) (raw_words s) 0 BLOCKS_PER_SUB_CHUNK BLOCKS_PER_SUB_CHUNK
  end.

(** The word/slot cursor loop of [column_palette_indices]. *)
Fixpoint column_loop (bits : nat) (ws : list Z) (word slot : nat) (n : nat) : list Z :=
  match n with
  | 0 => []
  | S n =>
      let value := match ws !! word with
                   | None => U16_MAX
                   | Some packed => (Z.of_nat (read_slot packed bits slot) mod 2 ^ 16)%Z
                   end in
      let per_word := 32 / bits in
      if S slot =? per_word then value :: column_loop bits ws (S word) 0 n
      else value :: column_loop bits ws word (S slot) n
  end.

(** [column_palette_indices]; [None] is the assertion on [x] and [z]. *)
Definition column_palette_indices (s : PalettedStorage) (x z : nat) : option (list Z) :=
  if decide (x < SUB_CHUNK_SIDE ∧ z < SUB_CHUNK_SIDE) then
    Some
      (let first := linear_index x 0 z in
       match edits s with
       | Some _ =>
           (λ y, match palette_index s (first + y) with
                 | Some i => (Z.of_nat i mod 2 ^ 16)%Z | None => U16_MAX end) <$> seq 0 SUB_CHUNK_SIDE
       | None =>
           if raw_bits s =? 0 then replicate SUB_CHUNK_SIDE 0%Z
           else
             let per_word := 32 / raw_bits s in
             column_loop (raw_bits s) (raw_words s) (first / per_word) (first mod per_word) SUB_CHUNK_SIDE
       end)
  else None.

Definition contains_only (s : PalettedStorage) (id : Z) : bool :=
  match edits s with
  | Some _ => bool_decide (palette s = [id])
  | None => forallb (λ linear, bool_decide (cell_value s linear = Some id)) (seq 0 BLOCKS_PER_SUB_CHUNK)
  end.

(** ** Heap accounting, for a target with [usize_bytes]-byte machine words *)

Definition SIZE_U32 : nat := 4.
Definition SIZE_PALETTE_SLOT : nat := 4.

Definition next_multiple_of (n m : nat) : nat := if n mod m =? 0 then n else n + (m - n mod m).

Definition canonical_heap_bytes (usize_bytes words : nat) : nat :=
  next_multiple_of (words * SIZE_U32 + 2 * usize_bytes) usize_bytes.

Definition MAX_RETAINED_HEAP_BYTES (usize_bytes : nat) : nat :=
  word_count 16 * SIZE_U32 + BLOCKS_PER_SUB_CHUNK * (SIZE_U32 + SIZE_PALETTE_SLOT)
    + canonical_heap_bytes usize_bytes (word_count 16).

Definition working_heap_bytes (s : PalettedStorage) : nat :=
  length (raw_words s) * SIZE_U32 + length (palette s) * SIZE_U32
    + match edits s with Some e => length (slots e) * SIZE_PALETTE_SLOT | None => 0 end.

Definition retained_heap_bytes (usize_bytes : nat) (s : PalettedStorage) : nat :=
  working_heap_bytes s +
    match edits s with
    | Some e => match canonical_words e with
                | Some ws => canonical_heap_bytes usize_bytes (length ws) | None => 0 end
    | None => 0
    end.

Definition retained_heap_bytes_bound (usize_bytes : nat) (s : PalettedStorage) : nat :=
  working_heap_bytes s +
    match edits s with
    | Some e => if direct e then 0 else canonical_heap_bytes usize_bytes (word_count (bits_per_index s))
    | None => 0
    end.

(** ** Repair of decoded storage *)

(** [zero_indices_at_or_above]: an edited snapshot is first canonicalised, then every index past
    the palette is rewritten to zero. *)
Definition zero_indices_at_or_above (s : PalettedStorage) (palette_len : nat) : option PalettedStorage :=
  s ← match edits s with
      | Some _ => ws ← words s; Some (mk_storage (bits_per_index s) (fst ws) (palette s) None)
      | None => Some s
      end;
  if decide (raw_bits s = 0 ∨ (Z.shiftl 1 (Z.of_nat (raw_bits s)) ≤ Z.of_nat palette_len)%Z) then Some s
  else
    foldM (λ s linear,
      if match palette_index s linear with Some index => palette_len <=? index | None => false end
      then ws ← write_palette_index (raw_words s) (raw_bits s) linear 0;
           Some (mk_storage (raw_bits s) ws (palette s) (edits s))
      else Some s) s (seq 0 BLOCKS_PER_SUB_CHUNK).

(** ** Edits *)

(** [PaletteEdits::new]. *)
Definition edits_new (counts : list nat) : PaletteEdits :=
  mk_edits (imap (λ index count, mk_slot (as_u16 index) count) counts) true None.

(** [PaletteEdits::allocate]: the slots and the claimed position. *)
Definition allocate (sl : list PaletteSlot) (palette_index : nat) : option (list PaletteSlot * nat) :=
  match list_find (λ slot, slot_count slot = 0) sl with
  | Some (slot, _) => Some (<[slot := mk_slot (as_u16 palette_index) 0]> sl, slot)
  | None =>
      assert (length sl <? BLOCKS_PER_SUB_CHUNK);;
      Some (sl ++ [mk_slot (as_u16 palette_index) 0], length sl)
  end.

(** Live slots past the removed palette entry move down by one. *)
Definition shift_slots (sl : list PaletteSlot) (source_index : nat) : list PaletteSlot :=
  (λ slot, if negb (slot_count slot =? 0) && (source_index <? slot_palette_index slot)
           then mk_slot (slot_palette_index slot - 1) (slot_count slot) else slot) <$> sl.

(** The palette after the edit, with the slots it renumbers: [values.remove], [values.push]. *)
Definition edit_palette (values : list Z) (sl : list PaletteSlot) (removed : bool) (source_index : nat)
    (push : option Z) : option (list Z * list PaletteSlot) :=
  '(values, sl) ← (if removed then
      assert (source_index <? length values);;
      let values := delete source_index values in
      Some (values, if source_index <? length values then shift_slots sl source_index else sl)
    else Some (values, sl));
  Some (match push with Some v => values ++ [v] | None => values end, sl).

(** [position(|slot| slot.count != 0 && slot.palette_index == index)]. *)
Definition slot_of_index (sl : list PaletteSlot) (index : nat) : option nat :=
  fst <$> list_find (λ slot, slot_count slot ≠ 0 ∧ slot_palette_index slot = index) sl.

(** Grows the physical width when the slots no longer fit the current one. *)
Definition widen (s : PalettedStorage) (bits : nat) : option (nat * list Z) :=
  if raw_bits s <? bits then
    ws ← (if raw_bits s =? 0 then Some (replicate (word_count bits) 0%Z)
          else pack_words bits (physical_index s));
    Some (bits, ws)
  else Some (raw_bits s, raw_words s).

Definition is_direct (bits palette_len : nat) (sl : list PaletteSlot) : bool :=
  (bits =? bits_for_palette_len palette_len) &&
  forallb (λ p, (slot_count (snd p) =? 0) || (fst p =? slot_palette_index (snd p))) (imap pair sl).

(** The slots with [source] released, the palette with its entry dropped if that was its last
    cell, and the destination slot of [runtime_id], found or allocated. *)
Definition retarget (values : list Z) (sl : list PaletteSlot) (source : nat) (runtime_id : Z)
    : option (bool * list Z * list PaletteSlot * nat) :=
  source_slot ← sl !! source;
  let source_index := slot_palette_index source_slot in
  destination ← match list_find (λ value, value = runtime_id) values with
                | Some (index, _) => slot ← slot_of_index sl index; Some (Some slot)
                | None => Some None
                end;
  count ← u16_decr (slot_count source_slot);
  let sl := <[source := mk_slot source_index count]> sl in
  let removed := count =? 0 in
  let fresh := match destination with Some _ => false | None => true end in
  '(values, sl) ← edit_palette values sl removed source_index (if fresh then Some runtime_id else None);
  '(sl, slot) ← match destination with
                | Some slot => Some (sl, slot)
                | None => allocate sl (length values - 1)
                end;
  Some (removed || fresh, values, sl, slot).

Definition patch_edit (s : PalettedStorage) (linear : nat) (runtime_id : Z) : option PalettedStorage :=
  source ← physical_index s linear;
  e ← edits s;
  '(repaletted, values, sl, slot) ← retarget (palette s) (slots e) source runtime_id;
  target ← sl !! slot;
  count ← u16_incr (slot_count target);
  let sl := <[slot := mk_slot (slot_palette_index target) count]> sl in
  '(bits, ws) ← widen s (bits_for_palette_len (length sl));
  ws ← write_palette_index ws bits linear slot;
  let d := if (repaletted : bool) then is_direct bits (length values) sl else direct e in
  Some (mk_storage bits ws values (Some (mk_edits sl d None))).

(** [has_zero_padding]. *)
Definition has_zero_padding (s : PalettedStorage) : bool :=
  (length (raw_words s) =? word_count (raw_bits s)) &&
  ((raw_bits s =? 0) ||
   forallb (λ p, let used := used_bits (raw_bits s) (fst p) in
                 (used =? 32) || (Z.shiftr (snd p) (Z.of_nat used) =? 0)%Z)
     (imap pair (raw_words s))).

(** The counting loop of [canonical_counts]: the counts and whether every cell was valid. *)
Definition count_cells (s : PalettedStorage) : option (list nat * bool) :=
  foldM (λ '(counts, valid) linear,
      match index ← palette_index s linear; count ← counts !! index; Some (index, count) with
      | Some (index, count) => count ← u16_incr count; Some (<[index := count]> counts, valid)
      | None => Some (counts, false)
      end)
    (replicate (length (palette s)) 0, true) (seq 0 BLOCKS_PER_SUB_CHUNK).

(** [canonical_counts]: the outer option is a panic, the inner the method's own result. *)
Definition canonical_counts (s : PalettedStorage) : option (option (list nat)) :=
  if raw_bits s =? 0 then
    Some (if (length (palette s) =? 1) && (length (raw_words s) =? 0)
          then Some [as_u16 BLOCKS_PER_SUB_CHUNK] else None)
  else
    '(counts, valid) ← count_cells s;
    let canonical :=
      valid && (1 <=? length (palette s)) && (length (palette s) <=? BLOCKS_PER_SUB_CHUNK)
      && forallb (λ count, negb (count =? 0)) counts
      && (size (list_to_set (palette s) : gset Z) =? length (palette s))
      && (bits_for_palette_len (length (palette s)) =? raw_bits s)
      && has_zero_padding s in
    Some (if canonical then Some counts else None).

(** ** The batch normaliser [apply_runtime_updates] *)

(** [final_updates]: the last value given for each cell. *)
Definition final_updates (updates : list (nat * Z)) : gmap nat Z :=
  foldl (λ m u, <[fst u := snd u]> m) ∅ updates.

(** [final_updates.get(&linear).copied().unwrap_or(current)]; panics on a cell without a value. *)
Definition updated_value (s : PalettedStorage) (final : gmap nat Z) (linear : nat) : option Z :=
  current ← cell_value s linear; Some (default current (final !! linear)).

(** First pass: whether any cell changes, and the set of values in use afterwards. *)
Definition scan_updates (s : PalettedStorage) (final : gmap nat Z) : option (bool * gset Z) :=
  foldM (λ '(changed, used) linear,
      current ← cell_value s linear;
      let value := default current (final !! linear) in
      Some (changed || negb (value =? current)%Z, {[value]} ∪ used))
    (false, ∅) (seq 0 BLOCKS_PER_SUB_CHUNK).

(** [values] and [value_indices] grow together. *)
Definition push_value (acc : list Z * gmap Z nat) (wanted : bool) (value : Z) : list Z * gmap Z nat :=
  let '(values, indices) := acc in
  if wanted && bool_decide (indices !! value = None)
  then (values ++ [value], <[value := length values]> indices) else (values, indices).

(** Survivors in palette order, then new values in update order. *)
Definition rebuild_palette (old : list Z) (used : gset Z) (final : gmap nat Z) (updates : list (nat * Z))
    : list Z * gmap Z nat :=
  let acc := foldl (λ acc value, push_value acc (bool_decide (value ∈ used)) value) ([], ∅) old in
  foldl (λ acc u, push_value acc (bool_decide (final !! fst u = Some (snd u))) (snd u)) acc updates.

(** Second pass: packs the words and counts the cells of each palette entry. *)
Definition repack (s : PalettedStorage) (final : gmap nat Z) (indices : gmap Z nat) (bits len : nat)
    : option (list Z * list nat) :=
  foldM (λ '(ws, counts) linear,
      value ← updated_value s final linear;
      index ← indices !! value;
      count ← counts !! index;
      count ← u16_incr count;
      ws ← write_palette_index ws bits linear index;
      Some (ws, <[index := count]> counts))
    (replicate (word_count bits) 0%Z, replicate len 0) (seq 0 BLOCKS_PER_SUB_CHUNK).

Definition apply_runtime_updates (s : PalettedStorage) (updates : list (nat * Z))
    : option (bool * PalettedStorage) :=
  let final := final_updates updates in
  '(changed, used) ← scan_updates s final;
  if negb changed then Some (false, s)
  else
    let '(values, indices) := rebuild_palette (palette s) used final updates in
    let bits := bits_for_palette_len (length values) in
    '(ws, counts) ← repack s final indices bits (length values);
    Some (true, mk_storage bits ws values
                  (if forallb (λ count, negb (count =? 0)) counts then Some (edits_new counts) else None)).

Definition apply_runtime_update (s : PalettedStorage) (linear : nat) (runtime_id : Z)
    : option (bool * PalettedStorage) :=
  match index ← palette_index s linear; value ← palette s !! index; Some value with
  | None => apply_runtime_updates s [(linear, runtime_id)]
  | Some value =>
      if (value =? runtime_id)%Z then Some (false, s)
      else
        match edits s with
        | Some _ => s' ← patch_edit s linear runtime_id; Some (true, s')
        | None =>
            counts ← canonical_counts s;
            match counts with
            | None => apply_runtime_updates s [(linear, runtime_id)]
            | Some counts =>
                s' ← patch_edit (mk_storage (raw_bits s) (raw_words s) (palette s) (Some (edits_new counts)))
                       linear runtime_id;
                Some (true, s')
            end
        end
  end.

(** Representation equality: [impl PartialEq for PalettedStorage]. *)
Definition storage_eqb (s1 s2 : PalettedStorage) : option bool :=
  w1 ← words s1; w2 ← words s2;
  Some (bool_decide (bits_per_index s1 = bits_per_index s2 ∧ palette s1 = palette s2 ∧ fst w1 = fst w2)).
