(* ===== verification/PaletteSlots.v ===== *)
(** * Slot bookkeeping of palette edits

    The invariant tying the slots of [PaletteEdits] to the packed cells and to the palette, and the
    effect on it of each step of [retarget] in [Palette]: releasing the edited cell's slot, dropping
    a palette entry, claiming a slot and assigning the cell. *)
From stdpp Require Import base numbers list gmap sets.
From S2P Require Import Prelude Packed Palette.

Create HintDb slots.

(** [phys] maps a cell to its slot ([None] while it is being moved), [n] is the palette length and
    [hole] the one palette entry without a live slot, if any. *)
Record slots_inv (phys : nat → option nat) (sl : list PaletteSlot) (n : nat) (hole : option nat) : Prop := {
  si_range : ∀ i k, i < BLOCKS_PER_SUB_CHUNK → phys i = Some k → k < length sl;
  si_counts : ∀ k s, sl !! k = Some s →
    slot_count s = count_below (λ i, bool_decide (phys i = Some k)) BLOCKS_PER_SUB_CHUNK;
  si_live : ∀ k j, live_index sl k = Some j → j < n ∧ hole ≠ Some j;
  si_inj : ∀ k k' j, live_index sl k = Some j → live_index sl k' = Some j → k = k';
  si_surj : ∀ j, j < n → hole ≠ Some j → ∃ k, live_index sl k = Some j;
}.

(** The cell map while [linear] is unassigned, and after it is given [slot]. *)
Definition phys_without (phys : nat → option nat) (linear i : nat) : option nat :=
  if decide (i = linear) then None else phys i.
Definition phys_with (phys : nat → option nat) (linear slot i : nat) : option nat :=
  if decide (i = linear) then Some slot else phys i.

Lemma live_index_Some sl k j :
  live_index sl k = Some j ↔ ∃ s, sl !! k = Some s ∧ slot_count s ≠ 0 ∧ slot_palette_index s = j.
Proof.
  unfold live_index. split.
  - destruct (sl !! k) as [s|]; simpl; [|done]. case_match eqn:E; [done|]. intros [= <-].
    apply Nat.eqb_neq in E. eauto.
  - intros (s & -> & Hc & <-). simpl. apply Nat.eqb_neq in Hc. by rewrite Hc.
Qed.

Lemma live_index_None sl k :
  live_index sl k = None ↔ ∀ s, sl !! k = Some s → slot_count s = 0.
Proof.
  unfold live_index. destruct (sl !! k) as [s|]; simpl; [|done].
  case_match eqn:E; [apply Nat.eqb_eq in E|apply Nat.eqb_neq in E]; split; try done.
  - by intros _ ? [= <-].
  - intros Hs. destruct E. by apply Hs.
Qed.

Lemma live_index_insert sl k s k' : k < length sl →
  live_index (<[k := s]> sl) k' =
  if decide (k' = k) then (if slot_count s =? 0 then None else Some (slot_palette_index s)) else live_index sl k'.
Proof.
  intros Hk. unfold live_index. case_decide as E.
  - subst. by rewrite list_lookup_insert_eq.
  - by rewrite list_lookup_insert_ne.
Qed.

(** A live slot holds some cell. *)
Lemma live_slot_phys phys sl n hole k j :
  slots_inv phys sl n hole → live_index sl k = Some j →
  ∃ i, i < BLOCKS_PER_SUB_CHUNK ∧ phys i = Some k.
Proof.
  intros H (s & Hs & Hc & _)%live_index_Some.
  rewrite (si_counts _ _ _ _ H _ _ Hs) in Hc.
  destruct (existsb (λ i, bool_decide (phys i = Some k)) (seq 0 BLOCKS_PER_SUB_CHUNK)) eqn:E.
  - apply existsb_exists in E as (i & Hi & Hp). apply in_seq in Hi.
    apply bool_decide_eq_true_1 in Hp. exists i. split; [lia|done].
  - destruct Hc. apply count_below_zero_iff. intros i Hi.
    destruct (bool_decide (phys i = Some k)) eqn:Hp; [|done].
    assert (existsb (λ i, bool_decide (phys i = Some k)) (seq 0 BLOCKS_PER_SUB_CHUNK) = true).
    { apply existsb_exists. exists i. split; [apply in_seq; lia|done]. }
    congruence.
Qed.

(** A cell's slot is live. *)
Lemma phys_slot_live phys sl n hole i k :
  slots_inv phys sl n hole → i < BLOCKS_PER_SUB_CHUNK → phys i = Some k →
  ∃ j, live_index sl k = Some j.
Proof.
  intros H Hi Hp. destruct (lookup_lt_is_Some_2 sl k) as [s Hs]; [by eapply si_range|].
  exists (slot_palette_index s). apply live_index_Some. exists s. split_and!; [done| |done].
  rewrite (si_counts _ _ _ _ H _ _ Hs).
  pose proof (count_below_pos (λ i, bool_decide (phys i = Some k)) BLOCKS_PER_SUB_CHUNK i Hi) as Hc.
  forward Hc; [by apply bool_decide_eq_true_2|lia].
Qed.

(** The palette is no longer than the number of assigned cells. *)
Lemma slots_inv_palette_le phys sl n :
  slots_inv phys sl n None →
  n ≤ count_below (λ i, bool_decide (is_Some (phys i))) BLOCKS_PER_SUB_CHUNK.
Proof.
  intros H. transitivity (count_below (λ i, bool_decide (is_Some (phys i ≫= live_index sl))) BLOCKS_PER_SUB_CHUNK).
  - apply (pigeonhole (λ i, phys i ≫= live_index sl)). intros j Hj.
    destruct (si_surj _ _ _ _ H j Hj) as [k Hk]; [done|].
    destruct (live_slot_phys _ _ _ _ _ _ H Hk) as (i & Hi & Hp). exists i. split; [done|]. by rewrite Hp.
  - apply Nat.eq_le_incl, count_below_ext. intros i Hi. apply bool_decide_ext.
    destruct (phys i) as [k|] eqn:Hp; simpl; [|done].
    destruct (phys_slot_live _ _ _ _ _ _ H Hi Hp) as [j ->]. by split.
Qed.

(** Without a dead slot, the slots are no more than the assigned cells. *)
Lemma slots_inv_length_le phys sl n hole :
  slots_inv phys sl n hole → (∀ k s, sl !! k = Some s → slot_count s ≠ 0) →
  length sl ≤ count_below (λ i, bool_decide (is_Some (phys i))) BLOCKS_PER_SUB_CHUNK.
Proof.
  intros H Hall. apply (pigeonhole phys). intros k Hk.
  destruct (lookup_lt_is_Some_2 sl k Hk) as [s Hs].
  apply (live_slot_phys _ _ _ _ k (slot_palette_index s) H). apply live_index_Some. eauto.
Qed.

Lemma unassigned_count (phys : nat → option nat) linear :
  linear < BLOCKS_PER_SUB_CHUNK → phys linear = None →
  count_below (λ i, bool_decide (is_Some (phys i))) BLOCKS_PER_SUB_CHUNK < BLOCKS_PER_SUB_CHUNK.
Proof.
  intros Hl Hp.
  set (p i := bool_decide (is_Some (phys i))).
  set (q i := if decide (i = linear) then true else p i).
  pose proof (count_below_update p q BLOCKS_PER_SUB_CHUNK linear Hl) as Hu.
  forward Hu. { intros j _ Hne. unfold q. by rewrite decide_False. }
  unfold q in Hu at 2. rewrite decide_True in Hu by done.
  unfold p in Hu at 1. rewrite Hp, bool_decide_eq_false_2 in Hu by (intros [? ?]; done).
  pose proof (count_below_le q BLOCKS_PER_SUB_CHUNK). fold p. lia.
Qed.

(** ** Step 1: release the edited cell *)

Lemma count_without phys linear k :
  linear < BLOCKS_PER_SUB_CHUNK →
  count_below (λ i, bool_decide (phys_without phys linear i = Some k)) BLOCKS_PER_SUB_CHUNK
    + (if decide (phys linear = Some k) then 1 else 0)
  = count_below (λ i, bool_decide (phys i = Some k)) BLOCKS_PER_SUB_CHUNK.
Proof.
  intros Hl.
  set (p i := bool_decide (phys i = Some k)).
  set (q i := bool_decide (phys_without phys linear i = Some k)).
  pose proof (count_below_update p q BLOCKS_PER_SUB_CHUNK linear Hl) as Hu.
  forward Hu. { intros j _ Hne. unfold p, q, phys_without. by rewrite decide_False. }
  assert (Hq : q linear = false).
  { unfold q, phys_without. rewrite decide_True by done. by apply bool_decide_eq_false_2. }
  assert (Hp : p linear = if decide (phys linear = Some k) then true else false).
  { unfold p. case_decide; case_bool_decide; done. }
  rewrite Hq, Hp in Hu. destruct (decide _); lia.
Qed.

Lemma release_inv phys sl n linear source s :
  slots_inv phys sl n None → linear < BLOCKS_PER_SUB_CHUNK → phys linear = Some source →
  sl !! source = Some s →
  ∃ count, u16_decr (slot_count s) = Some count ∧
    let sl' := <[source := mk_slot (slot_palette_index s) count]> sl in
    slots_inv (phys_without phys linear) sl' n (if count =? 0 then Some (slot_palette_index s) else None) ∧
    ∀ k, live_index sl' k = if decide (k = source ∧ count = 0) then None else live_index sl k.
Proof.
  intros H Hl Hp Hs. pose proof (lookup_lt_Some _ _ _ Hs) as Hlt.
  pose proof (si_counts _ _ _ _ H _ _ Hs) as Hcs. pose proof (count_without phys linear source Hl) as Hcw.
  rewrite decide_True in Hcw by done. rewrite <-Hcs in Hcw.
  set (c := count_below _ _) in Hcw. rewrite Nat.add_1_r in Hcw. rewrite <-Hcw.
  exists c. split; [done|]. simpl.
  assert (Hlive : ∀ k, live_index (<[source:=mk_slot (slot_palette_index s) c]> sl) k =
     if decide (k = source ∧ c = 0) then None else live_index sl k).
  { intros k. rewrite live_index_insert by done. simpl. destruct (decide (k = source)) as [->|Hne].
    - destruct (Nat.eqb_spec c 0).
      + by rewrite decide_True.
      + rewrite decide_False by (by intros [_ ?]). symmetry. apply live_index_Some. exists s. split_and!; [done|lia|done].
    - by rewrite decide_False by (by intros [? _]). }
  assert (Hsrc : live_index sl source = Some (slot_palette_index s)).
  { apply live_index_Some. exists s. split_and!; [done|lia|done]. }
  split; [|done]. split.
  - intros i k Hi. rewrite length_insert. unfold phys_without. destruct (decide (i = linear)); [discriminate|]. by apply (si_range _ _ _ _ H).
  - intros k t Ht. destruct (decide (k = source)) as [->|Hne].
    + rewrite list_lookup_insert_eq in Ht by done. by injection Ht as <-.
    + rewrite list_lookup_insert_ne in Ht by done. rewrite (si_counts _ _ _ _ H _ _ Ht).
      pose proof (count_without phys linear k Hl) as Hk. rewrite decide_False in Hk by congruence. lia.
  - intros k j. rewrite Hlive. destruct (decide (k = source ∧ c = 0)) as [E|E]; [discriminate|]. intros Hj.
    destruct (si_live _ _ _ _ H _ _ Hj) as [Hjn _]. split; [done|].
    destruct (Nat.eqb_spec c 0); [|done]. intros Heq. injection Heq as Heq.
    apply E. split; [|done]. apply (si_inj _ _ _ _ H k source j); [done|congruence].
  - intros k k' j Hk Hk'. rewrite Hlive in Hk, Hk'.
    destruct (decide (k = source ∧ c = 0)); [done|]. destruct (decide (k' = source ∧ c = 0)); [done|].
    by apply (si_inj _ _ _ _ H k k' j).
  - intros j Hj Hh. destruct (si_surj _ _ _ _ H j Hj) as [k Hk]; [done|]. exists k. rewrite Hlive.
    rewrite decide_False; [done|]. intros [-> Hc0]. rewrite Hc0 in Hh. simpl in Hh. congruence.
Qed.

(** ** Step 2: drop the palette entry whose last cell was released *)

Definition shift_index (r j : nat) : nat := if r <? j then j - 1 else j.

Lemma live_index_shift sl r k :
  live_index (shift_slots sl r) k = shift_index r <$> live_index sl k.
Proof.
  unfold live_index, shift_slots, shift_index. rewrite list_lookup_fmap.
  destruct (sl !! k) as [s|]; simpl; [|done].
  destruct (Nat.eqb_spec (slot_count s) 0) as [Hz|Hz]; simpl.
  - by rewrite Hz.
  - destruct (Nat.ltb_spec r (slot_palette_index s)); simpl;
      destruct (Nat.eqb_spec (slot_count s) 0); done.
Qed.

Lemma shift_inv phys sl n r :
  slots_inv phys sl n (Some r) → r < n → slots_inv phys (shift_slots sl r) (n - 1) None.
Proof.
  intros H Hr. split.
  - intros i k. unfold shift_slots. rewrite length_fmap. by apply si_range with n (Some r).
  - intros k s. unfold shift_slots. rewrite list_lookup_fmap. destruct (sl !! k) as [t|] eqn:Ht; simpl; [|discriminate].
    intros [= <-]. rewrite <-(si_counts _ _ _ _ H _ _ Ht). by case_match.
  - intros k j. rewrite live_index_shift. destruct (live_index sl k) as [j0|] eqn:Hj0; simpl; [|discriminate].
    intros [= <-]. destruct (si_live _ _ _ _ H _ _ Hj0) as [? ?]. unfold shift_index.
    assert (j0 ≠ r) by congruence. split; [|done]. destruct (Nat.ltb_spec r j0); lia.
  - intros k k' j. rewrite !live_index_shift.
    destruct (live_index sl k) as [j0|] eqn:Hj0; simpl; [|discriminate].
    destruct (live_index sl k') as [j1|] eqn:Hj1; simpl; [|discriminate].
    destruct (si_live _ _ _ _ H _ _ Hj0), (si_live _ _ _ _ H _ _ Hj1).
    assert (j0 ≠ r) by congruence. assert (j1 ≠ r) by congruence.
    intros [= <-] [= He]. apply (si_inj _ _ _ _ H k k' j0); [done|]. rewrite Hj1. f_equal.
    unfold shift_index in He. destruct (Nat.ltb_spec r j0), (Nat.ltb_spec r j1); lia.
  - intros j Hj _. destruct (si_surj _ _ _ _ H (if j <? r then j else S j)) as [k Hk].
    + destruct (Nat.ltb_spec j r); lia.
    + destruct (Nat.ltb_spec j r); intros [= ?]; lia.
    + exists k. rewrite live_index_shift, Hk. simpl. f_equal. unfold shift_index.
      destruct (Nat.ltb_spec j r); destruct (Nat.ltb_spec r (if j <? r then j else S j));
        destruct (Nat.ltb_spec r j); destruct (Nat.ltb_spec r (S j)); lia.
Qed.

(** ** Step 3: claim a slot for a new palette entry *)

Lemma as_u16_small n : n ≤ BLOCKS_PER_SUB_CHUNK → as_u16 n = n.
Proof. intros H. pose proof BLOCKS_eq. unfold as_u16. rewrite Z.mod_small by lia. lia. Qed.

Lemma claim_inv phys sl n linear :
  slots_inv phys sl n None → linear < BLOCKS_PER_SUB_CHUNK → phys linear = None →
  length sl ≤ BLOCKS_PER_SUB_CHUNK →
  ∃ sl' slot, allocate sl n = Some (sl', slot) ∧ slots_inv phys sl' (S n) (Some n) ∧
    sl' !! slot = Some (mk_slot n 0) ∧ length sl ≤ length sl' ≤ BLOCKS_PER_SUB_CHUNK ∧
    ∀ k, live_index sl' k = live_index sl k.
Proof.
  intros H Hl Hp Hlen. pose proof (unassigned_count _ _ Hl Hp) as Hun.
  pose proof (slots_inv_palette_le _ _ _ H) as Hn.
  assert (Hu16 : as_u16 n = n) by (apply as_u16_small; lia).
  assert (Hgen : ∀ sl' slot, (∀ k, live_index sl' k = live_index sl k) → length sl ≤ length sl' →
    (∀ k s, sl' !! k = Some s → sl !! k = Some s ∨ (slot_count s = 0 ∧ (sl !! k = None ∨ ∃ t, sl !! k = Some t ∧ slot_count t = 0))) →
    sl' !! slot = Some (mk_slot n 0) → slots_inv phys sl' (S n) (Some n)).
  { intros sl' slot Hlive Hlen' Hlk Hslot. split.
    - intros i k Hi Hk. pose proof (si_range _ _ _ _ H i k Hi Hk). lia.
    - intros k s Hs. destruct (Hlk k s Hs) as [Hs'|[Hz Hs']]; [by apply (si_counts _ _ _ _ H)|].
      rewrite Hz. destruct Hs' as [Hnone|(t & Ht & Htz)].
      + symmetry. apply count_below_zero_iff. intros i Hi. apply bool_decide_eq_false_2. intros Hi'.
        apply (si_range _ _ _ _ H) in Hi'; [|done]. apply lookup_ge_None in Hnone. lia.
      + rewrite <-Htz. by apply (si_counts _ _ _ _ H).
    - intros k j. rewrite Hlive. intros Hj. destruct (si_live _ _ _ _ H _ _ Hj). split; [lia|].
      intros [= ->]. lia.
    - intros k k' j. rewrite !Hlive. by apply (si_inj _ _ _ _ H).
    - intros j Hj Hne. destruct (si_surj _ _ _ _ H j) as [k Hk]; [|done|].
      { assert (j ≠ n) by congruence. lia. }
      exists k. by rewrite Hlive. }
  unfold allocate. rewrite Hu16. destruct (list_find _ sl) as [[slot t]|] eqn:Hf.
  - apply list_find_Some in Hf as (Ht & Hz & _). pose proof (lookup_lt_Some _ _ _ Ht) as Hlt.
    assert (Hlive : ∀ k, live_index (<[slot:=mk_slot n 0]> sl) k = live_index sl k).
    { intros k. rewrite live_index_insert by done. destruct (decide (k = slot)) as [->|]; [|done]. simpl.
      symmetry. apply live_index_None. congruence. }
    eexists _, slot. split_and!; [done| | | | |done].
    + apply Hgen with slot; [done|by rewrite length_insert| |by rewrite list_lookup_insert_eq].
      intros k s Hs. destruct (decide (k = slot)) as [->|Hne].
      * rewrite list_lookup_insert_eq in Hs by done. injection Hs as <-. right. split; [done|]. right. eauto.
      * rewrite list_lookup_insert_ne in Hs by done. by left.
    + by rewrite list_lookup_insert_eq.
    + rewrite length_insert. lia.
    + rewrite length_insert. lia.
  - apply list_find_None in Hf. rewrite Forall_lookup in Hf.
    pose proof (slots_inv_length_le _ _ _ _ H Hf) as Hle.
    unfold assert. destruct (Nat.ltb_spec (length sl) BLOCKS_PER_SUB_CHUNK); [|lia]. simpl.
    assert (Hlive : ∀ k, live_index (sl ++ [mk_slot n 0]) k = live_index sl k).
    { intros k. unfold live_index. destruct (decide (k < length sl)).
      - by rewrite lookup_app_l.
      - rewrite lookup_app_r by lia. rewrite (lookup_ge_None_2 sl) by lia.
        destruct (k - length sl) eqn:E; simpl; done. }
    eexists _, _. split_and!; [done| | | | |done].
    + apply Hgen with (length sl); [done|rewrite length_app; simpl; lia| |by rewrite list_lookup_middle].
      intros k s Hs. destruct (decide (k < length sl)).
      * rewrite lookup_app_l in Hs by done. by left.
      * rewrite lookup_app_r in Hs by lia. right. rewrite (lookup_ge_None_2 sl) by lia.
        destruct (k - length sl) eqn:E; simpl in Hs; [|done]. injection Hs as <-. split; [done|by left].
    + by rewrite list_lookup_middle.
    + rewrite length_app. simpl. lia.
    + rewrite length_app. simpl. lia.
Qed.

(** ** Step 4: assign the cell to its slot *)

Lemma assign_inv phys sl n hole linear slot t :
  slots_inv phys sl n hole → linear < BLOCKS_PER_SUB_CHUNK → phys linear = None →
  sl !! slot = Some t →
  (hole = None ∧ slot_count t ≠ 0 ∨ hole = Some (slot_palette_index t) ∧ slot_count t = 0 ∧ slot_palette_index t < n) →
  ∃ count, u16_incr (slot_count t) = Some count ∧
    let sl' := <[slot := mk_slot (slot_palette_index t) count]> sl in
    slots_inv (phys_with phys linear slot) sl' n None ∧
    ∀ k, live_index sl' k = if decide (k = slot) then Some (slot_palette_index t) else live_index sl k.
Proof.
  intros H Hl Hp Ht Hcase. pose proof (lookup_lt_Some _ _ _ Ht) as Hlt.
  pose proof (si_counts _ _ _ _ H _ _ Ht) as Hct.
  assert (Hfit : (Z.of_nat (slot_count t) < 2 ^ 16 - 1)%Z).
  { rewrite Hct. pose proof BLOCKS_eq.
    pose proof (count_below_le (λ i, bool_decide (phys i = Some slot)) BLOCKS_PER_SUB_CHUNK). lia. }
  exists (S (slot_count t)). split; [by unfold u16_incr; rewrite decide_True|]. simpl.
  assert (Hlive : ∀ k, live_index (<[slot:=mk_slot (slot_palette_index t) (S (slot_count t))]> sl) k =
     if decide (k = slot) then Some (slot_palette_index t) else live_index sl k).
  { intros k. by rewrite live_index_insert. }
  assert (Hcount : ∀ k, count_below (λ i, bool_decide (phys_with phys linear slot i = Some k)) BLOCKS_PER_SUB_CHUNK
     = count_below (λ i, bool_decide (phys i = Some k)) BLOCKS_PER_SUB_CHUNK + (if decide (k = slot) then 1 else 0)).
  { intros k. rewrite <-(count_without (phys_with phys linear slot) linear k Hl).
    rewrite <-(count_without phys linear k Hl), Hp. f_equal.
    - rewrite (decide_False (P := None = Some k)) by done. rewrite Nat.add_0_r.
      apply count_below_ext. intros i Hi. apply bool_decide_ext. unfold phys_without, phys_with.
      by destruct (decide (i = linear)).
    - unfold phys_with. rewrite (decide_True (P := linear = linear)) by done.
      destruct (decide (k = slot)), (decide (Some slot = Some k)); congruence. }
  assert (Hother : ∀ k j, k ≠ slot → live_index sl k = Some j → j ≠ slot_palette_index t).
  { intros k j Hne Hj ->. destruct Hcase as [[-> Hc]|(-> & Hc & _)].
    - apply Hne. apply (si_inj _ _ _ _ H k slot _ Hj). apply live_index_Some. eauto.
    - by apply (si_live _ _ _ _ H) in Hj as [_ ?]. }
  split; [|done]. split.
  - intros i k Hi. rewrite length_insert. unfold phys_with. destruct (decide (i = linear)); [by intros [= <-]|]. by apply (si_range _ _ _ _ H).
  - intros k s. rewrite Hcount. destruct (decide (k = slot)) as [->|Hne].
    + rewrite list_lookup_insert_eq by done. intros [= <-]. simpl. rewrite Hct. lia.
    + rewrite list_lookup_insert_ne by done. rewrite Nat.add_0_r. apply (si_counts _ _ _ _ H).
  - intros k j. rewrite Hlive. intros Hj. split; [|done]. destruct (decide (k = slot)) as [->|].
    + injection Hj as <-. destruct Hcase as [[-> Hc]|(-> & Hc & ?)]; [|done].
      apply (si_live _ _ _ _ H slot). apply live_index_Some. eauto.
    + by apply (si_live _ _ _ _ H k).
  - intros k k' j Hk Hk'. rewrite Hlive in Hk, Hk'.
    destruct (decide (k = slot)) as [->|Hne], (decide (k' = slot)) as [->|Hne']; [done| | |].
    + injection Hk as <-. by destruct (Hother _ _ Hne' Hk').
    + injection Hk' as <-. by destruct (Hother _ _ Hne Hk).
    + by apply (si_inj _ _ _ _ H k k' j).
  - intros j Hj _. destruct (decide (j = slot_palette_index t)) as [->|Hne].
    { exists slot. rewrite Hlive. by rewrite decide_True. }
    destruct (si_surj _ _ _ _ H j Hj) as [k Hk].
    { destruct Hcase as [[-> _]|(-> & _)]; congruence. }
    exists k. rewrite Hlive. rewrite decide_False; [done|]. intros ->.
    destruct Hcase as [[_ Hc]|(_ & Hc & _)];
      apply live_index_Some in Hk as (s & Hs & Hsc & Hsi); rewrite Ht in Hs; injection Hs as <-; congruence.
Qed.

(** ** The steps composed: [edit_palette] and [retarget] *)

(** The value a slot currently shows. *)
Definition slot_value (values : list Z) (sl : list PaletteSlot) (k : nat) : option Z :=
  live_index sl k ≫= λ j, values !! j.

Lemma shift_slots_id sl r :
  (∀ k j, live_index sl k = Some j → j ≤ r) → shift_slots sl r = sl.
Proof.
  intros H. apply list_eq. intros k. unfold shift_slots. rewrite list_lookup_fmap.
  destruct (sl !! k) as [s|] eqn:Hs; simpl; [|done]. f_equal.
  destruct (Nat.eqb_spec (slot_count s) 0); simpl; [done|].
  destruct (Nat.ltb_spec r (slot_palette_index s)); [|done].
  assert (slot_palette_index s ≤ r) by (apply (H k); apply live_index_Some; eauto). lia.
Qed.

Lemma delete_lookup_shift {A} (values : list A) r j :
  j ≠ r → delete r values !! shift_index r j = values !! j.
Proof.
  intros Hne. unfold shift_index. destruct (Nat.ltb_spec r j).
  - rewrite list_lookup_delete_ge by lia. f_equal. lia.
  - rewrite list_lookup_delete_lt by lia. done.
Qed.

Lemma NoDup_delete_idx (values : list Z) r : NoDup values → NoDup (delete r values).
Proof. intros H. eapply sublist_NoDup; [exact H|apply sublist_delete]. Qed.

Lemma edit_palette_spec phys sl values (removed : bool) si push :
  slots_inv phys sl (length values) (if removed then Some si else None) →
  NoDup values → si < length values →
  ∃ values' sl', edit_palette values sl removed si push =
      Some (match push with Some v => values' ++ [v] | None => values' end, sl') ∧
    slots_inv phys sl' (length values') None ∧ NoDup values' ∧ values' ⊆ values ∧
    (∀ k, slot_value values' sl' k = slot_value values sl k) ∧
    length sl' = length sl ∧ (∀ k, slot_count <$> sl' !! k = slot_count <$> sl !! k) ∧
    (removed = false → values' = values ∧ sl' = sl).
Proof.
  intros H Hnd Hsi. unfold edit_palette. destruct removed.
  - unfold assert. destruct (Nat.ltb_spec si (length values)); [|lia]. simpl.
    assert (Hlen : length (delete si values) = length values - 1).
    { rewrite length_delete by (by apply lookup_lt_is_Some_2). done. }
    assert (Hif : (if si <? length (delete si values) then shift_slots sl si else sl) = shift_slots sl si).
    { destruct (Nat.ltb_spec si (length (delete si values))); [done|]. symmetry. apply shift_slots_id.
      intros k j Hj. apply (si_live _ _ _ _ H) in Hj as [Hj _]. lia. }
    rewrite Hif. eexists _, _. split_and!; [done| | | | | | |done].
    + rewrite Hlen. by apply shift_inv.
    + by apply NoDup_delete_idx.
    + intros v Hv. apply list_elem_of_lookup in Hv as [i Hi]. destruct (decide (i < si)).
      * rewrite list_lookup_delete_lt in Hi by done. by eapply list_elem_of_lookup_2.
      * rewrite list_lookup_delete_ge in Hi by lia. by eapply list_elem_of_lookup_2.
    + intros k. unfold slot_value. rewrite live_index_shift.
      destruct (live_index sl k) as [j|] eqn:Hj; simpl; [|done].
      apply delete_lookup_shift. apply (si_live _ _ _ _ H) in Hj as [_ Hj]. congruence.
    + unfold shift_slots. by rewrite length_fmap.
    + intros k. unfold shift_slots. rewrite list_lookup_fmap. destruct (sl !! k) as [s|]; [|done].
      cbn [fmap option_fmap option_map]. by destruct (negb _ && _).
  - simpl. exists values, sl. split_and!; try done.
Qed.

Lemma slot_of_index_spec phys sl n hole j :
  slots_inv phys sl n hole → j < n → hole ≠ Some j →
  ∃ k, slot_of_index sl j = Some k ∧ live_index sl k = Some j.
Proof.
  intros H Hj Hh. destruct (si_surj _ _ _ _ H j Hj Hh) as [k Hk].
  apply live_index_Some in Hk as (s & Hs & Hc & Hi). unfold slot_of_index.
  destruct (list_find_elem_of (λ slot, slot_count slot ≠ 0 ∧ slot_palette_index slot = j) sl s) as [[k' s'] Hf].
  - by eapply list_elem_of_lookup_2.
  - done.
  - rewrite Hf. simpl. exists k'. split; [done|].
    apply list_find_Some in Hf as (Hs' & [? ?] & _). apply live_index_Some. eauto.
Qed.

Record retargeted (phys : nat → option nat) (values : list Z) (sl : list PaletteSlot) (linear : nat) (id : Z)
    (rp : bool) (values' : list Z) (sl' : list PaletteSlot) (slot count : nat) (t : PaletteSlot) : Prop := {
  rt_slot : sl' !! slot = Some t;
  rt_count : u16_incr (slot_count t) = Some count;
  rt_nodup : NoDup values';
  rt_nonempty : 1 ≤ length values';
  rt_length : length sl' ≤ BLOCKS_PER_SUB_CHUNK;
  rt_grows : length sl ≤ length sl';
  rt_inv : slots_inv (phys_with phys linear slot)
             (<[slot := mk_slot (slot_palette_index t) count]> sl') (length values') None;
  rt_values : ∀ i, i < BLOCKS_PER_SUB_CHUNK →
    (phys_with phys linear slot i ≫= slot_value values' (<[slot := mk_slot (slot_palette_index t) count]> sl'))
    = if decide (i = linear) then Some id else phys i ≫= slot_value values sl;
  rt_same : rp = false → values' = values ∧ length sl' = length sl ∧
    ∀ k, live_index (<[slot := mk_slot (slot_palette_index t) count]> sl') k = live_index sl k;
}.

(** What the last step adds once the slot is claimed. *)
Lemma assign_values phys phys1 values values' sl sl' hole linear id slot t count :
  phys1 = phys_without phys linear →
  sl' !! slot = Some t →
  (∀ k, live_index (<[slot := mk_slot (slot_palette_index t) count]> sl') k =
        if decide (k = slot) then Some (slot_palette_index t) else live_index sl' k) →
  values' !! slot_palette_index t = Some id →
  slots_inv phys1 sl' (length values') hole →
  (∀ i k, i ≠ linear → i < BLOCKS_PER_SUB_CHUNK → phys i = Some k → slot_value values' sl' k = slot_value values sl k) →
  ∀ i, i < BLOCKS_PER_SUB_CHUNK →
    (phys_with phys linear slot i ≫= slot_value values' (<[slot := mk_slot (slot_palette_index t) count]> sl'))
    = if decide (i = linear) then Some id else phys i ≫= slot_value values sl.
Proof.
  intros -> Ht Hlive Hid Hinv Hsame i Hi. unfold phys_with. destruct (decide (i = linear)) as [->|Hne].
  - simpl. unfold slot_value. by rewrite Hlive, decide_True.
  - destruct (phys i) as [k|] eqn:Hk; simpl; [|done].
    transitivity (slot_value values' sl' k); [|by eapply Hsame].
    unfold slot_value. rewrite Hlive. destruct (decide (k = slot)) as [->|]; [|done].
    destruct (phys_slot_live _ _ _ _ i slot Hinv Hi) as [j Hj].
    { unfold phys_without. by rewrite decide_False. }
    rewrite Hj. simpl. apply live_index_Some in Hj as (t' & Ht' & _ & <-). congruence.
Qed.

Lemma list_find_value (values : list Z) id j :
  list_find (λ value, value = id) values = Some j → values !! fst j = Some id.
Proof. destruct j as [i v]. intros (Hl & -> & _)%list_find_Some. done. Qed.

Lemma list_find_value_None values id :
  list_find (λ value : Z, value = id) values = None → id ∉ values.
Proof. intros H%list_find_None. rewrite Forall_forall in H. intros Hin. by apply (H id). Qed.

Section retarget.
Context (phys : nat → option nat) (values : list Z) (sl : list PaletteSlot) (linear source si : nat) (id : Z).
Hypothesis Hinv : slots_inv phys sl (length values) None.
Hypothesis Hnd : NoDup values.
Hypothesis Hlen : length sl ≤ BLOCKS_PER_SUB_CHUNK.
Hypothesis Hlin : linear < BLOCKS_PER_SUB_CHUNK.
Hypothesis Hphys : phys linear = Some source.
Hypothesis Hlive : live_index sl source = Some si.
Hypothesis Hold : values !! si ≠ Some id.

(** The value is already in the palette: the cell joins that entry's slot. *)
Lemma retarget_existing index v :
  list_find (λ value, value = id) values = Some (index, v) →
  ∃ rp values' sl' slot count t,
    retarget values sl source id = Some (rp, values', sl', slot) ∧
    retargeted phys values sl linear id rp values' sl' slot count t.
Proof using All.
  intros Hfind. pose proof (list_find_value _ _ _ Hfind) as Hid. simpl in Hid.
  pose proof Hlive as (s & Hs & Hc & Hsi)%live_index_Some.
  assert (Hsin : si < length values) by (by apply (si_live _ _ _ _ Hinv) in Hlive as [? _]).
  assert (Hne : index ≠ si) by (intros ->; done).
  destruct (slot_of_index_spec _ _ _ _ index Hinv) as (slot & Hslot & Hslive);
    [by eapply lookup_lt_Some|done|].
  assert (Hss : slot ≠ source) by (intros ->; congruence).
  unfold retarget. rewrite Hs. simpl. rewrite Hfind. simpl. rewrite Hslot. simpl.
  destruct (release_inv _ _ _ _ _ _ Hinv Hlin Hphys Hs) as (c & -> & Hinv1 & Hlive1). simpl.
  rewrite Hsi in *. set (sl1 := <[source:=_]> sl) in *.
  assert (Hinv1' : slots_inv (phys_without phys linear) sl1 (length values)
                     (if (c =? 0) then Some si else None)) by done.
  destruct (edit_palette_spec _ _ _ (c =? 0) si None Hinv1' Hnd Hsin)
    as (values' & sl' & -> & Hinv2 & Hnd' & _ & Hval & Hlen' & Hcnt & Hsame). simpl.
  assert (Hslot1 : slot_value values sl1 slot = Some id).
  { unfold slot_value. rewrite Hlive1, decide_False by (by intros [? _]). by rewrite Hslive. }
  rewrite <-Hval in Hslot1. unfold slot_value in Hslot1.
  destruct (live_index sl' slot) as [j|] eqn:Hj; simpl in Hslot1; [|done].
  pose proof Hj as (t & Ht & Htc & Htj)%live_index_Some.
  destruct (assign_inv _ _ _ _ linear slot t Hinv2 Hlin) as (count & Hcount & Hinv3 & Hlive3); [|done|by left|].
  { unfold phys_without. by rewrite decide_True. }
  exists (c =? 0), values', sl', slot, count, t. rewrite orb_false_r. split; [done|].
  assert (Hl1 : length sl1 = length sl) by (unfold sl1; by rewrite length_insert).
  split; auto; try lia.
  - apply lookup_lt_Some in Hslot1. lia.
  - destruct Hinv3 as [H1 H2 H3 H4 H5]. split; auto.
    + intros i k Hi Hk. apply (H1 i k Hi). unfold phys_with, phys_without in *. by destruct (decide (i = linear)).
    + intros k u Hu. rewrite (H2 k u Hu). apply count_below_ext. intros i Hi. apply bool_decide_ext.
      unfold phys_with, phys_without. by destruct (decide (i = linear)).
  - eapply assign_values; [done|done|done|by rewrite Htj|exact Hinv2|].
    intros i k Hi Hib Hk. rewrite Hval. unfold slot_value. rewrite Hlive1.
    destruct (decide (k = source ∧ c = 0)) as [[-> Hc0]|]; [exfalso|done].
    destruct (lookup_lt_is_Some_2 sl1 source) as [u Hu].
    { rewrite Hl1. by eapply lookup_lt_Some. }
    pose proof (phys_slot_live _ _ _ _ i source Hinv1 Hib) as [j0 Hj0].
    { unfold phys_without. by rewrite decide_False. }
    rewrite Hlive1, decide_True in Hj0 by done. done.
  - intros Hrp. destruct (Hsame Hrp) as [-> ->]. split_and!; [done|done|].
    intros k. rewrite Hlive3. destruct (decide (k = slot)) as [->|].
    + rewrite Hslive. rewrite Htj. rewrite Hlive1, decide_False in Hj by (by intros [? _]). congruence.
    + rewrite Hlive1. rewrite decide_False; [done|]. intros [_ ->]. done.
Qed.

(** A new value: the palette grows and a slot is claimed for it. *)
Lemma retarget_fresh :
  list_find (λ value, value = id) values = None →
  ∃ rp values' sl' slot count t,
    retarget values sl source id = Some (rp, values', sl', slot) ∧
    retargeted phys values sl linear id rp values' sl' slot count t.
Proof using All.
  intros Hfind. pose proof (list_find_value_None _ _ Hfind) as Hnotin.
  pose proof Hlive as (s & Hs & Hc & Hsi)%live_index_Some.
  assert (Hsin : si < length values) by (by apply (si_live _ _ _ _ Hinv) in Hlive as [? _]).
  unfold retarget. rewrite Hs. simpl. rewrite Hfind. simpl.
  destruct (release_inv _ _ _ _ _ _ Hinv Hlin Hphys Hs) as (c & -> & Hinv1 & Hlive1). simpl.
  rewrite Hsi in *. set (sl1 := <[source:=_]> sl) in *.
  assert (Hl1 : length sl1 = length sl) by (unfold sl1; by rewrite length_insert).
  assert (Hinv1' : slots_inv (phys_without phys linear) sl1 (length values)
                     (if (c =? 0) then Some si else None)) by done.
  destruct (edit_palette_spec _ _ _ (c =? 0) si (Some id) Hinv1' Hnd Hsin)
    as (values2 & sl2 & -> & Hinv2 & Hnd2 & Hsub & Hval & Hlen2 & Hcnt & _). simpl.
  rewrite length_app. simpl. rewrite Nat.add_sub.
  assert (Hun : phys_without phys linear linear = None) by (unfold phys_without; by rewrite decide_True).
  destruct (claim_inv _ _ _ linear Hinv2 Hlin Hun) as (sl' & slot & -> & Hinv3 & Hslot & Hlen3 & Hlive3); [lia|].
  simpl.
  destruct (assign_inv _ _ _ _ linear slot _ Hinv3 Hlin Hun Hslot) as (count & Hcount & Hinv4 & Hlive4).
  { right. split_and!; [done|done|simpl; lia]. }
  exists true, (values2 ++ [id]), sl', slot, count, (mk_slot (length values2) 0).
  rewrite orb_true_r. split; [done|].
  split; auto; try lia.
  - apply NoDup_app. split_and!; [done| |apply NoDup_singleton]. intros x Hx ->%list_elem_of_singleton.
    by apply Hnotin, Hsub.
  - rewrite length_app. simpl. lia.
  - rewrite length_app. simpl. rewrite Nat.add_1_r. destruct Hinv4 as [H1 H2 H3 H4 H5]. split; auto.
    + intros i k Hi Hk. apply (H1 i k Hi). unfold phys_with, phys_without in *. by destruct (decide (i = linear)).
    + intros k u Hu. rewrite (H2 k u Hu). apply count_below_ext. intros i Hi. apply bool_decide_ext.
      unfold phys_with, phys_without. by destruct (decide (i = linear)).
  - eapply assign_values; [done|done|done| | |].
    + simpl. by rewrite list_lookup_middle.
    + rewrite length_app. simpl. rewrite Nat.add_1_r. exact Hinv3.
    + intros i k Hi Hib Hk. transitivity (slot_value values2 sl2 k).
      { unfold slot_value. rewrite Hlive3. destruct (live_index sl2 k) as [j|] eqn:Hj; simpl; [|done].
        apply (si_live _ _ _ _ Hinv2) in Hj as [Hj _]. by apply lookup_app_l. }
      rewrite Hval. unfold slot_value. rewrite Hlive1.
      destruct (decide (k = source ∧ c = 0)) as [[-> Hc0]|]; [exfalso|done].
      pose proof (phys_slot_live _ _ _ _ i source Hinv1 Hib) as [j0 Hj0].
      { unfold phys_without. by rewrite decide_False. }
      rewrite Hlive1, decide_True in Hj0 by done. done.
Qed.
End retarget.
