(* ===== verification/PaletteSpec.v ===== *)
(** * Correctness of palette storage

    The well-formedness of decoded and edited storages, and the refinement of every edit of
    [Palette] to a write on the abstract cell function [cell_value]. *)
From stdpp Require Import base numbers list gmap sets.
From S2P Require Import Prelude Packed Palette PaletteSlots.

(** ** Well-formedness *)

(** The physical vector: a supported width, the exact number of [u32] words. *)
Record raw_ok (s : PalettedStorage) : Prop := {
  raw_supported : raw_bits s ∈ SUPPORTED_BITS;
  raw_words_ok : words_ok (raw_bits s) (raw_words s);
}.

(** Storage as the decoders leave it: every cell names a palette entry. *)
Record decoded_ok (s : PalettedStorage) : Prop := {
  dec_raw : raw_ok s;
  dec_palette : 1 ≤ length (palette s) ≤ BLOCKS_PER_SUB_CHUNK;
  dec_cells : ∀ i, i < BLOCKS_PER_SUB_CHUNK → ∃ k, physical_index s i = Some k ∧ k < length (palette s);
}.

(** Storage with edit bookkeeping. *)
Record edited_ok (s : PalettedStorage) (e : PaletteEdits) : Prop := {
  ed_raw : raw_ok s;
  ed_padded : padded (raw_bits s) (raw_words s);
  ed_nodup : NoDup (palette s);
  ed_nonempty : 1 ≤ length (palette s);
  ed_slots : length (slots e) ≤ BLOCKS_PER_SUB_CHUNK;
  ed_width : bits_for_palette_len (length (slots e)) ≤ raw_bits s;
  ed_inv : slots_inv (physical_index s) (slots e) (length (palette s)) None;
  ed_direct : direct e = is_direct (raw_bits s) (length (palette s)) (slots e);
  ed_cache : ∀ w, canonical_words e = Some w → direct e = false ∧ canonical_pack s = Some w;
}.

Definition storage_ok (s : PalettedStorage) : Prop :=
  match edits s with
  | Some e => edited_ok s e
  | None => decoded_ok s
  end.

(** The reference semantics of a batch: one write after the other. *)
Definition write_cell (cells : nat → option Z) (u : nat * Z) : nat → option Z :=
  λ i, if decide (i = fst u) then Some (snd u) else cells i.
Definition write_cells (cells : nat → option Z) (updates : list (nat * Z)) : nat → option Z :=
  foldl write_cell cells updates.

(** ** Reads of well-formed storage *)

Lemma physical_index_read s i : i < BLOCKS_PER_SUB_CHUNK →
  physical_index s i = read_palette_index (raw_words s) (raw_bits s) i.
Proof. intros Hi. unfold physical_index, read_palette_index. rewrite decide_False by lia. done. Qed.

Lemma physical_index_total s i : raw_ok s → i < BLOCKS_PER_SUB_CHUNK →
  ∃ k, physical_index s i = Some k ∧ (Z.of_nat k < 2 ^ Z.of_nat (raw_bits s))%Z.
Proof. intros [Hb Hw] Hi. rewrite physical_index_read by done. by apply read_palette_index_total. Qed.

Lemma physical_index_range s i k : physical_index s i = Some k → i < BLOCKS_PER_SUB_CHUNK.
Proof. unfold physical_index. case_decide; [discriminate|]. intros _. lia. Qed.

Lemma cell_value_edited s e i : edits s = Some e →
  cell_value s i = physical_index s i ≫= slot_value (palette s) (slots e).
Proof.
  intros He. unfold cell_value, palette_index. rewrite He.
  destruct (physical_index s i); done.
Qed.

Lemma cell_value_decoded s i : edits s = None →
  cell_value s i = physical_index s i ≫= λ k, palette s !! k.
Proof. intros He. unfold cell_value, palette_index. rewrite He. by destruct (physical_index s i). Qed.

Lemma edited_palette_index s e i : edited_ok s e → edits s = Some e → i < BLOCKS_PER_SUB_CHUNK →
  ∃ k j, physical_index s i = Some k ∧ live_index (slots e) k = Some j ∧
    palette_index s i = Some j ∧ j < length (palette s).
Proof.
  intros H He Hi. destruct (physical_index_total s i (ed_raw _ _ H) Hi) as (k & Hk & _).
  destruct (phys_slot_live _ _ _ _ _ _ (ed_inv _ _ H) Hi Hk) as [j Hj].
  exists k, j. split_and!; [done|done| |by apply (si_live _ _ _ _ (ed_inv _ _ H)) in Hj as [? _]].
  unfold palette_index. by rewrite Hk, He.
Qed.

Lemma palette_index_total s i : storage_ok s → i < BLOCKS_PER_SUB_CHUNK →
  ∃ j, palette_index s i = Some j ∧ j < length (palette s).
Proof.
  unfold storage_ok. intros H Hi. destruct (edits s) as [e|] eqn:He.
  - destruct (edited_palette_index s e i H He Hi) as (k & j & _ & _ & ? & ?). eauto.
  - unfold palette_index. rewrite He. destruct (dec_cells _ H i Hi) as (k & -> & ?). simpl. eauto.
Qed.

(** Every cell of a well-formed storage has a value. *)
Lemma cell_value_total s i : storage_ok s → i < BLOCKS_PER_SUB_CHUNK → is_Some (cell_value s i).
Proof.
  intros H Hi. destruct (palette_index_total s i H Hi) as (j & Hj & Hlt).
  unfold cell_value. rewrite Hj. simpl. by apply lookup_lt_is_Some_2.
Qed.

Lemma edited_palette_length s e : edited_ok s e → length (palette s) ≤ BLOCKS_PER_SUB_CHUNK.
Proof.
  intros H. pose proof (slots_inv_palette_le _ _ _ (ed_inv _ _ H)).
  pose proof (count_below_le (λ i, bool_decide (is_Some (physical_index s i))) BLOCKS_PER_SUB_CHUNK). lia.
Qed.

Lemma edited_bits_for s e : edited_ok s e →
  bits_for_palette_len (length (palette s)) ≤ raw_bits s.
Proof.
  intros H. etransitivity; [|apply (ed_width _ _ H)]. apply bits_for_palette_len_mono; [|apply (ed_slots _ _ H)].
  (* every palette entry has its own slot *)
  transitivity (count_below (λ k, bool_decide (is_Some (live_index (slots e) k))) (length (slots e)));
    [|apply count_below_le].
  apply (pigeonhole (live_index (slots e))). intros j Hj.
  destruct (si_surj _ _ _ _ (ed_inv _ _ H) j Hj) as [k Hk]; [done|].
  exists k. split; [|done]. apply live_index_Some in Hk as (? & ? & _). by eapply lookup_lt_Some.
Qed.

Lemma is_direct_iff bits n sl :
  is_direct bits n sl = true ↔ bits = bits_for_palette_len n ∧ ∀ k j, live_index sl k = Some j → j = k.
Proof.
  unfold is_direct. rewrite andb_true_iff, Nat.eqb_eq, forallb_forall.
  apply and_iff_compat_l. split.
  - intros H k j (s & Hs & Hc & <-)%live_index_Some.
    assert (Hin : In (k, s) (imap pair sl)).
    { apply list_elem_of_In, list_elem_of_lookup. exists k. by rewrite list_lookup_imap, Hs. }
    apply H in Hin. simpl in Hin. apply orb_true_iff in Hin as [E|E]; apply Nat.eqb_eq in E; congruence.
  - intros H [k s] Hin. apply list_elem_of_In, list_elem_of_lookup in Hin as [i Hi].
    rewrite list_lookup_imap in Hi. destruct (sl !! i) as [t|] eqn:Ht; simpl in Hi; [|discriminate].
    injection Hi as -> ->. simpl. destruct (Nat.eqb_spec (slot_count s) 0); [done|]. simpl.
    apply Nat.eqb_eq. symmetry. apply (H k). apply live_index_Some. eauto.
Qed.

Lemma is_direct_ext bits n sl sl' :
  (∀ k, live_index sl k = live_index sl' k) → is_direct bits n sl = is_direct bits n sl'.
Proof.
  intros H. apply eq_true_iff_eq. rewrite !is_direct_iff. by setoid_rewrite H.
Qed.

Lemma slots_inv_ext phys phys' sl n hole :
  (∀ i, i < BLOCKS_PER_SUB_CHUNK → phys i = phys' i) → slots_inv phys sl n hole → slots_inv phys' sl n hole.
Proof.
  intros He [H1 H2 H3 H4 H5]. split; auto.
  - intros i k Hi Hk. apply (H1 i); [done|]. by rewrite He.
  - intros k s Hs. rewrite (H2 k s Hs). apply count_below_ext. intros i Hi. by rewrite He.
Qed.

(** ** One-cell edits *)

Lemma widen_spec s b :
  raw_ok s → padded (raw_bits s) (raw_words s) → b ∈ SUPPORTED_BITS →
  (∀ i k, i < BLOCKS_PER_SUB_CHUNK → physical_index s i = Some k → (Z.of_nat k < 2 ^ Z.of_nat b)%Z) →
  ∃ bits ws, widen s b = Some (bits, ws) ∧ bits = raw_bits s `max` b ∧ bits ∈ SUPPORTED_BITS ∧
    words_ok bits ws ∧ padded bits ws ∧
    ∀ i, i < BLOCKS_PER_SUB_CHUNK → read_palette_index ws bits i = physical_index s i.
Proof.
  intros [Hb Hw] Hp Hbs Hfit. unfold widen. destruct (Nat.ltb_spec (raw_bits s) b).
  - destruct (Nat.eqb_spec (raw_bits s) 0) as [Hz|Hz]; simpl.
    + eexists _, _. split_and!; [done|lia|done|apply words_ok_zero|apply padded_zero|].
      intros i Hi. rewrite physical_index_read by done. unfold read_palette_index.
      rewrite Hz. destruct (Nat.eqb_spec b 0); [done|]. simpl.
      assert (1 ≤ b ≤ 16). { apply supported_bits_cases in Hbs as [?|Hbs]; [done|]. by apply packed_bits_range. }
      rewrite lookup_replicate_2 by (by apply word_count_covers). simpl. f_equal.
      apply Nat2Z.inj, Z.bits_inj'. intros j Hj. rewrite read_slot_testbit by done.
      change (Z.of_nat 0) with 0%Z. rewrite !Z.bits_0. by case_decide.
    + destruct (pack_words_spec b (physical_index s) Hbs) as (ws & Hpk & Hok & Hr).
      { intros i Hi. destruct (physical_index_total s i) as (k & Hk & _); [by split|done|]. eauto. }
      rewrite Hpk. simpl. eexists _, _. split_and!; [done|lia|done|done| |done].
      eapply pack_words_padded; [done| |done].
      intros i Hi. destruct (physical_index_total s i) as (k & Hk & _); [by split|done|]. eauto.
  - eexists _, _. split_and!; [done|lia|done|done|done|]. intros i Hi. by rewrite physical_index_read.
Qed.

Lemma patch_edit_spec s e linear id :
  edited_ok s e → edits s = Some e → linear < BLOCKS_PER_SUB_CHUNK → cell_value s linear ≠ Some id →
  ∃ s' e', patch_edit s linear id = Some s' ∧ edits s' = Some e' ∧ edited_ok s' e' ∧
    ∀ i, i < BLOCKS_PER_SUB_CHUNK → cell_value s' i = write_cell (cell_value s) (linear, id) i.
Proof.
  intros H He Hl Hne. destruct (edited_palette_index s e linear H He Hl) as (source & si & Hsrc & Hlive & Hpi & Hsi).
  unfold patch_edit. rewrite Hsrc. simpl. rewrite He. simpl.
  assert (Hold : palette s !! si ≠ Some id).
  { unfold cell_value in Hne. by rewrite Hpi in Hne. }
  assert (Hrt : ∃ rp values' sl' slot count t,
    retarget (palette s) (slots e) source id = Some (rp, values', sl', slot) ∧
    retargeted (physical_index s) (palette s) (slots e) linear id rp values' sl' slot count t).
  { destruct (list_find (λ value, value = id) (palette s)) as [[index v]|] eqn:Hf.
    - eapply retarget_existing; eauto using ed_inv, ed_nodup, ed_slots.
    - eapply retarget_fresh; eauto using ed_inv, ed_nodup, ed_slots. }
  destruct Hrt as (rp & values' & sl' & slot & count & t & -> & Hrt). simpl.
  rewrite (rt_slot _ _ _ _ _ _ _ _ _ _ _ Hrt). simpl. rewrite (rt_count _ _ _ _ _ _ _ _ _ _ _ Hrt). simpl.
  pose proof (rt_inv _ _ _ _ _ _ _ _ _ _ _ Hrt) as Hinv'.
  pose proof (rt_values _ _ _ _ _ _ _ _ _ _ _ Hrt) as Hvals.
  set (sl3 := <[slot := _]> sl') in *.
  assert (Hlen3 : length sl3 = length sl') by apply length_insert. rewrite Hlen3.
  pose proof (rt_length _ _ _ _ _ _ _ _ _ _ _ Hrt) as Hlen. pose proof (rt_grows _ _ _ _ _ _ _ _ _ _ _ Hrt) as Hgrow.
  assert (Hfit : ∀ k, k < length sl' → (Z.of_nat k < 2 ^ Z.of_nat (bits_for_palette_len (length sl')))%Z).
  { intros k Hk. pose proof (bits_for_palette_len_fits _ Hlen). lia. }
  destruct (widen_spec s (bits_for_palette_len (length sl'))) as (bits & ws & -> & Hbits & Hbs & Hwok & Hpad & Hread);
    [apply (ed_raw _ _ H)|apply (ed_padded _ _ H)|apply bits_for_palette_len_supported| |].
  { intros i k Hi Hk. apply Hfit. apply (si_range _ _ _ _ (ed_inv _ _ H)) in Hk; [lia|done]. }
  simpl.
  assert (Hslot : slot < length sl') by (eapply lookup_lt_Some, (rt_slot _ _ _ _ _ _ _ _ _ _ _ Hrt)).
  assert (Hslotfit : (Z.of_nat slot < 2 ^ Z.of_nat bits)%Z).
  { eapply Z.lt_le_trans; [by apply Hfit|]. apply Z.pow_le_mono_r; lia. }
  destruct (write_palette_index_spec bits ws linear slot Hbs Hwok Hl Hslotfit) as (ws' & Hws' & Hwok' & Hread').
  rewrite Hws'. simpl.
  set (s' := mk_storage _ _ _ _).
  assert (Hphys : ∀ i, i < BLOCKS_PER_SUB_CHUNK →
     phys_with (physical_index s) linear slot i = physical_index s' i).
  { intros i Hi. rewrite physical_index_read by done. unfold s'. simpl. rewrite Hread', Hread by done.
    unfold phys_with. destruct (decide (i = linear)), (decide (linear = i)); congruence. }
  eexists s', _. split_and!; [done|done| |].
  - split; simpl.
    + by split.
    + exact (write_palette_index_padded _ _ _ _ _ Hbs Hwok Hl Hslotfit Hpad Hws').
    + apply (rt_nodup _ _ _ _ _ _ _ _ _ _ _ Hrt).
    + apply (rt_nonempty _ _ _ _ _ _ _ _ _ _ _ Hrt).
    + by rewrite Hlen3.
    + rewrite Hlen3. lia.
    + eapply slots_inv_ext; [done|]. done.
    + destruct rp; [done|]. destruct (rt_same _ _ _ _ _ _ _ _ _ _ _ Hrt eq_refl) as (-> & Hl' & Hli).
      rewrite (ed_direct _ _ H). assert (bits = raw_bits s) as ->.
      { pose proof (ed_width _ _ H). rewrite Hbits, Hl'. lia. }
      apply is_direct_ext. intros k. symmetry. apply Hli.
    + discriminate.
  - intros i Hi. erewrite (cell_value_edited s') by done. rewrite <-Hphys by done. simpl.
    rewrite Hvals by done. unfold write_cell. simpl. case_decide; [done|]. by erewrite cell_value_edited.
Qed.
