(* ===== verification/PaletteUpdates.v ===== *)
(** * The batch normaliser and the admission of decoded storage to edits

    [canonical_counts] and [apply_runtime_updates] of [Palette]: neither panics on well-formed
    storage, the counts admitted to [edits_new] describe the cells exactly, and a batch has the
    effect of its writes taken one after the other. *)
From stdpp Require Import base numbers list gmap sets.
From S2P Require Import Prelude Packed Palette PaletteSlots PaletteSpec.

(** ** Counting the cells of each class *)

(** [counts] holds, for every class, the number of cells below [n] that [f] puts in it. *)
Definition counts_of (f : nat → option nat) (n : nat) (counts : list nat) : Prop :=
  ∀ k c, counts !! k = Some c → c = count_below (λ i, bool_decide (f i = Some k)) n.

Lemma counts_of_zero f n : counts_of f 0 (replicate n 0).
Proof. intros k c [-> _]%lookup_replicate. done. Qed.

Lemma counts_of_hit f i counts k c :
  counts_of f i counts → i < BLOCKS_PER_SUB_CHUNK → f i = Some k → counts !! k = Some c →
  ∃ c', u16_incr c = Some c' ∧ counts_of f (S i) (<[k := c']> counts).
Proof.
  intros H Hi Hf Hk. pose proof (H _ _ Hk) as Hc.
  pose proof (count_below_le (λ i, bool_decide (f i = Some k)) i). pose proof BLOCKS_eq.
  exists (S c). split; [unfold u16_incr; rewrite decide_True by lia; done|].
  intros k' c'. simpl. destruct (decide (k' = k)) as [->|Hne].
  - rewrite list_lookup_insert_eq by (by eapply lookup_lt_Some). intros [= <-].
    rewrite bool_decide_eq_true_2 by done. lia.
  - rewrite list_lookup_insert_ne by done. intros Hc'.
    rewrite bool_decide_eq_false_2 by congruence. rewrite (H _ _ Hc'). lia.
Qed.

Lemma counts_of_miss f i counts :
  counts_of f i counts → (∀ k, f i = Some k → length counts ≤ k) → counts_of f (S i) counts.
Proof.
  intros H Hf k c Hk. simpl. rewrite (H _ _ Hk). rewrite bool_decide_eq_false_2; [lia|].
  intros Hfk. apply Hf in Hfk. apply lookup_lt_Some in Hk. lia.
Qed.

Lemma counts_of_ext f g n counts :
  (∀ i, i < n → f i = g i) → counts_of f n counts → counts_of g n counts.
Proof.
  intros Hfg H k c Hk. rewrite (H _ _ Hk). apply count_below_ext. intros i Hi. by rewrite Hfg.
Qed.

Lemma forallb_nonzero counts :
  forallb (λ count, negb (count =? 0)) counts = true ↔ ∀ k c, counts !! k = Some c → c ≠ 0.
Proof.
  rewrite forallb_forall. split.
  - intros H k c Hk. assert (Hin : In c counts) by (eapply list_elem_of_In, list_elem_of_lookup_2, Hk).
    apply H in Hin. destruct (Nat.eqb_spec c 0); done.
  - intros H c Hin. apply list_elem_of_In, list_elem_of_lookup in Hin as [k Hk].
    specialize (H _ _ Hk). destruct (Nat.eqb_spec c 0); done.
Qed.

(** ** The slots [PaletteEdits::new] builds *)

Lemma edits_new_lookup counts k : length counts ≤ BLOCKS_PER_SUB_CHUNK →
  slots (edits_new counts) !! k = mk_slot k <$> counts !! k.
Proof.
  intros Hl. simpl. rewrite list_lookup_imap. destruct (counts !! k) eqn:Hk; simpl; [|done].
  apply lookup_lt_Some in Hk. rewrite as_u16_small by lia. done.
Qed.

Lemma edits_new_live counts k : length counts ≤ BLOCKS_PER_SUB_CHUNK →
  (∀ k c, counts !! k = Some c → c ≠ 0) →
  live_index (slots (edits_new counts)) k = if decide (k < length counts) then Some k else None.
Proof.
  intros Hl Hnz. unfold live_index. rewrite edits_new_lookup by done.
  destruct (counts !! k) as [c|] eqn:Hk; simpl.
  - rewrite decide_True by (by eapply lookup_lt_Some). specialize (Hnz _ _ Hk).
    destruct (Nat.eqb_spec c 0); done.
  - apply lookup_ge_None in Hk. rewrite decide_False by lia. done.
Qed.

(** Exact nonzero counts are all that [edits_new] needs. *)
Lemma edits_new_ok bits ws values counts :
  bits ∈ SUPPORTED_BITS → words_ok bits ws → padded bits ws → NoDup values →
  1 ≤ length values ≤ BLOCKS_PER_SUB_CHUNK → bits = bits_for_palette_len (length values) →
  length counts = length values → (∀ k c, counts !! k = Some c → c ≠ 0) →
  counts_of (read_palette_index ws bits) BLOCKS_PER_SUB_CHUNK counts →
  (∀ i k, i < BLOCKS_PER_SUB_CHUNK → read_palette_index ws bits i = Some k → k < length values) →
  edited_ok (mk_storage bits ws values (Some (edits_new counts))) (edits_new counts).
Proof.
  intros Hb Hw Hp Hnd Hlen Hbits Hlc Hnz Hcounts Hrange.
  assert (Hslen : length (slots (edits_new counts)) = length values).
  { simpl. by rewrite length_imap. }
  assert (Hlive : ∀ k j, live_index (slots (edits_new counts)) k = Some j ↔ k = j ∧ k < length values).
  { intros k j. rewrite edits_new_live by (done || lia). rewrite Hlc. case_decide; [|split; [done|lia]].
    split; [by intros [= <-]|by intros [-> _]]. }
  split; cbn [raw_bits raw_words palette canonical_words direct].
  - by split.
  - done.
  - done.
  - lia.
  - lia.
  - rewrite Hslen. lia.
  - split.
    + intros i k Hi Hk. rewrite physical_index_read in Hk by done. rewrite Hslen. by eapply Hrange.
    + intros k s Hs. rewrite edits_new_lookup in Hs by lia.
      destruct (counts !! k) as [c|] eqn:Hk; simpl in Hs; [|done]. injection Hs as <-. simpl.
      rewrite (Hcounts _ _ Hk). apply count_below_ext. intros i Hi. by rewrite physical_index_read.
    + intros k j [-> ?]%Hlive. done.
    + intros k k' j [-> _]%Hlive [-> _]%Hlive. done.
    + intros j Hj _. exists j. by apply Hlive.
  - symmetry. apply is_direct_iff. split; [done|]. by intros k j [-> _]%Hlive.
  - done.
Qed.

Lemma edits_new_cell bits ws values counts i :
  length counts = length values → length values ≤ BLOCKS_PER_SUB_CHUNK →
  (∀ k c, counts !! k = Some c → c ≠ 0) → i < BLOCKS_PER_SUB_CHUNK →
  cell_value (mk_storage bits ws values (Some (edits_new counts))) i
  = read_palette_index ws bits i ≫= λ k, values !! k.
Proof.
  intros Hlc Hlen Hnz Hi. erewrite cell_value_edited by done. rewrite physical_index_read by done. simpl.
  destruct (read_palette_index ws bits i) as [k|]; simpl; [|done].
  unfold slot_value. change (imap _ _) with (slots (edits_new counts)).
  rewrite edits_new_live by (done || lia). case_decide; simpl; [done|].
  symmetry. apply lookup_ge_None. lia.
Qed.

(** ** [canonical_counts] *)

Lemma count_cells_spec s :
  ∃ counts valid, count_cells s = Some (counts, valid) ∧ length counts = length (palette s) ∧
    counts_of (palette_index s) BLOCKS_PER_SUB_CHUNK counts ∧
    (valid = true → ∀ i, i < BLOCKS_PER_SUB_CHUNK → ∃ k, palette_index s i = Some k ∧ k < length (palette s)).
Proof.
  unfold count_cells.
  loop (λ i '(counts, valid), length counts = length (palette s) ∧
     counts_of (palette_index s) i counts ∧
     ((valid : bool) = true → ∀ j, j < i → ∃ k, palette_index s j = Some k ∧ k < length (palette s)))
     as ([counts valid] & -> & ? & ? & ?).
  - split_and!; [apply length_replicate|apply counts_of_zero|lia].
  - intros i [counts valid] Hi (Hlen & Hc & Hv).
    destruct (palette_index s i) as [k|] eqn:Hk; simpl.
    + destruct (counts !! k) as [c|] eqn:Hck; simpl.
      * destruct (counts_of_hit _ _ _ _ _ Hc Hi Hk Hck) as (c' & -> & Hc'). simpl.
        eexists. split; [done|]. split_and!; [by rewrite length_insert|done|].
        intros Hval j Hj. destruct (decide (j = i)) as [->|]; [|apply Hv; [done|lia]].
        exists k. split; [done|]. rewrite <-Hlen. by eapply lookup_lt_Some.
      * eexists. split; [done|]. split_and!; [done| |discriminate].
        apply counts_of_miss; [done|]. intros k' Hk'. rewrite Hk in Hk'. injection Hk' as <-.
        by apply lookup_ge_None.
    + eexists. split; [done|]. split_and!; [done| |discriminate].
      apply counts_of_miss; [done|]. by rewrite Hk.
  - eauto 10.
Qed.

Lemma size_list_to_set_NoDup (l : list Z) :
  size (list_to_set l : gset Z) = length l ↔ NoDup l.
Proof.
  split; [|apply size_list_to_set].
  assert (Hle : ∀ l : list Z, size (list_to_set l : gset Z) ≤ length l).
  { clear. induction l as [|x l IH]; [done|]. cbn [list_to_set foldr length].
    rewrite size_union_alt, size_singleton.
    pose proof (subseteq_size (list_to_set l ∖ {[x]} : gset Z) (list_to_set l) ltac:(set_solver)). lia. }
  induction l as [|x l IH]; [by constructor|]. cbn [list_to_set foldr length]. intros Hs.
  destruct (decide (x ∈ l)) as [Hx|Hx].
  - assert (({[x]} ∪ list_to_set l : gset Z) = list_to_set l) as Heq by set_solver.
    rewrite Heq in Hs. specialize (Hle l). lia.
  - constructor; [done|]. apply IH. rewrite size_union, size_singleton in Hs by set_solver. lia.
Qed.

Lemma has_zero_padding_spec s :
  raw_bits s ∈ SUPPORTED_BITS → Forall is_u32 (raw_words s) →
  has_zero_padding s = true ↔ words_ok (raw_bits s) (raw_words s) ∧ padded (raw_bits s) (raw_words s).
Proof.
  intros Hb Hu. unfold has_zero_padding. rewrite andb_true_iff, Nat.eqb_eq.
  destruct (Nat.eqb_spec (raw_bits s) 0) as [Hz|Hz]; simpl.
  { split; [|by intros [[] _]]. intros [Hl _]. split; [by split|].
    rewrite Hz in *. destruct (raw_words s); [|done]. intros ? ? H. by rewrite lookup_nil in H. }
  assert (Hiff : forallb (λ p, let used := used_bits (raw_bits s) (fst p) in
            (used =? 32) || (Z.shiftr (snd p) (Z.of_nat used) =? 0)%Z) (imap pair (raw_words s)) = true
          ↔ padded (raw_bits s) (raw_words s)).
  { rewrite forallb_forall. unfold padded. split.
    - intros H i w Hi. specialize (H (i, w)). forward H.
      { apply list_elem_of_In, list_elem_of_lookup. exists i. by rewrite list_lookup_imap, Hi. }
      simpl in H. pose proof (Forall_lookup_1 _ _ _ _ Hu Hi) as [? ?].
      apply orb_true_iff in H as [H|H].
      + apply Nat.eqb_eq in H. by rewrite H.
      + apply Z.eqb_eq in H. rewrite Z.shiftr_div_pow2 in H by lia.
        assert (0 < 2 ^ Z.of_nat (used_bits (raw_bits s) i))%Z by (apply Z.pow_pos_nonneg; lia).
        apply Z.div_small_iff in H; lia.
    - intros H [i w] Hin. apply list_elem_of_In, list_elem_of_lookup in Hin as [k Hk].
      rewrite list_lookup_imap in Hk. destruct (raw_words s !! k) as [w'|] eqn:Hw; simpl in Hk; [|done].
      injection Hk as -> ->. simpl. apply orb_true_iff. right. apply Z.eqb_eq.
      specialize (H _ _ Hw). pose proof (Forall_lookup_1 _ _ _ _ Hu Hw) as [? ?].
      rewrite Z.shiftr_div_pow2 by lia. apply Z.div_small. lia. }
  rewrite Hiff. split; [intros [Hl ?]; split; [by split|done]|intros [[? _] ?]; done].
Qed.

(** Admission is exact: it never panics and what it admits is well-formed edited storage showing
    the same cells. *)
Lemma canonical_counts_spec s :
  edits s = None → decoded_ok s →
  ∃ r, canonical_counts s = Some r ∧
    ∀ counts, r = Some counts →
      let s' := mk_storage (raw_bits s) (raw_words s) (palette s) (Some (edits_new counts)) in
      edited_ok s' (edits_new counts) ∧
      ∀ i, i < BLOCKS_PER_SUB_CHUNK → cell_value s' i = cell_value s i.
Proof.
  intros He [[Hb Hw] Hpal Hcells]. unfold canonical_counts.
  assert (Hcell : ∀ counts, length counts = length (palette s) → (∀ k c, counts !! k = Some c → c ≠ 0) →
    ∀ i, i < BLOCKS_PER_SUB_CHUNK →
    cell_value (mk_storage (raw_bits s) (raw_words s) (palette s) (Some (edits_new counts))) i = cell_value s i).
  { intros counts Hl Hnz i Hi. rewrite edits_new_cell by (done || lia).
    rewrite cell_value_decoded by done. by rewrite physical_index_read. }
  destruct (Nat.eqb_spec (raw_bits s) 0) as [Hz|Hz].
  - eexists. split; [done|]. intros counts Hr.
    destruct (Nat.eqb_spec (length (palette s)) 1) as [Hl|]; [|done].
    destruct (Nat.eqb_spec (length (raw_words s)) 0) as [Hwz|]; [|done]. simpl in Hr. injection Hr as <-.
    pose proof BLOCKS_eq. rewrite as_u16_small by lia.
    assert (Hnz : ∀ k c, [BLOCKS_PER_SUB_CHUNK] !! k = Some c → c ≠ 0).
    { intros [|k] c; simpl; [intros [= <-]; lia|done]. }
    split; [|by apply Hcell]. rewrite Hz in *. apply edits_new_ok; auto.
    + destruct (raw_words s); [|done]. intros ? ? Hx. by rewrite lookup_nil in Hx.
    + destruct (palette s) as [|v [|]]; try done. apply NoDup_singleton.
    + by rewrite Hl, bits_for_palette_len_1.
    + intros [|k] c; [|done]. simpl. intros [= <-]. symmetry. apply count_below_all. done.
    + intros i k Hi. unfold read_palette_index. simpl. intros [= <-]. lia.
  - destruct (count_cells_spec s) as (counts & valid & -> & Hlen & Hcounts & Hvalid). simpl.
    eexists. split; [done|]. intros counts' Hr. case_match eqn:Hc; [|done]. injection Hr as <-.
    apply andb_prop in Hc as [[[[[[Hv H1]%andb_prop H2]%andb_prop H3]%andb_prop H4]%andb_prop H5]%andb_prop H6].
    apply Nat.eqb_eq in H4, H5. apply size_list_to_set_NoDup in H4.
    pose proof (proj1 (forallb_nonzero _) H3) as Hnz. apply has_zero_padding_spec in H6 as [_ Hpad]; [|done|apply Hw].
    split; [|by apply Hcell].
    assert (Hpi : ∀ i, i < BLOCKS_PER_SUB_CHUNK → palette_index s i = read_palette_index (raw_words s) (raw_bits s) i).
    { intros i Hi. unfold palette_index. rewrite He, physical_index_read by done. by destruct (read_palette_index _ _ _). }
    apply edits_new_ok; auto.
    + by eapply counts_of_ext.
    + intros i k Hi Hk. destruct (Hvalid Hv i Hi) as (k' & Hk' & ?). rewrite Hpi in Hk' by done. congruence.
Qed.

(** ** Palette edits refine writes on the cells

    [apply_runtime_updates] and [apply_runtime_update] of [Palette] against the reference semantics
    [write_cells]: the rebuilt palette, the second packing pass and the dispatch between the patch,
    the admission and the batch normaliser. *)

(** ** The last write of a cell *)

Lemma final_updates_snoc us u : final_updates (us ++ [u]) = <[fst u := snd u]> (final_updates us).
Proof. unfold final_updates. by rewrite foldl_app. Qed.

Lemma write_cells_final cells us i :
  write_cells cells us i = match final_updates us !! i with Some v => Some v | None => cells i end.
Proof.
  induction us as [|u us IH] using rev_ind; [done|].
  unfold write_cells in *. rewrite foldl_app, final_updates_snoc. simpl. unfold write_cell at 1.
  destruct (decide (i = fst u)) as [->|]; [by rewrite lookup_insert_eq|].
  by rewrite lookup_insert_ne.
Qed.

Lemma final_updates_elem us i v : final_updates us !! i = Some v → (i, v) ∈ us.
Proof.
  induction us as [|[j w] us IH] using rev_ind; [done|]. rewrite final_updates_snoc. simpl.
  destruct (decide (i = j)) as [->|].
  - rewrite lookup_insert_eq. intros [= ->]. set_solver.
  - rewrite lookup_insert_ne by done. intros H%IH. set_solver.
Qed.

(** A cell after the batch: its final update, or its current value. *)
Lemma updated_value_write s us i :
  is_Some (cell_value s i) → updated_value s (final_updates us) i = write_cells (cell_value s) us i.
Proof.
  intros [v Hv]. unfold updated_value. rewrite write_cells_final, Hv. simpl.
  by destruct (final_updates us !! i).
Qed.

(** ** First pass *)

Section scan.
Context (s : PalettedStorage) (final : gmap nat Z).
Hypothesis Hcells : ∀ i, i < BLOCKS_PER_SUB_CHUNK → is_Some (cell_value s i).

Lemma scan_updates_spec :
  ∃ changed used, scan_updates s final = Some (changed, used) ∧
    (changed = true ↔ ∃ i, i < BLOCKS_PER_SUB_CHUNK ∧ updated_value s final i ≠ cell_value s i) ∧
    ∀ v, v ∈ used ↔ ∃ i, i < BLOCKS_PER_SUB_CHUNK ∧ updated_value s final i = Some v.
Proof using All.
  unfold scan_updates.
  loop (λ n '(changed, used),
    ((changed : bool) = true ↔ ∃ i, i < n ∧ updated_value s final i ≠ cell_value s i) ∧
    ∀ v, v ∈ (used : gset Z) ↔ ∃ i, i < n ∧ updated_value s final i = Some v)
    as ([changed used] & -> & H1 & H2).
  - split; [split; [done|intros (? & ? & _); lia]|]. intros v. split; [set_solver|intros (? & ? & _); lia].
  - intros n [changed used] Hn [H1 H2]. destruct (Hcells n Hn) as [c Hc]. rewrite Hc. simpl.
    assert (Hu : updated_value s final n = Some (default c (final !! n))).
    { unfold updated_value. by rewrite Hc. }
    set (v := default c (final !! n)) in *.
    eexists. split; [done|]. split.
    + rewrite orb_true_iff, H1. split.
      * intros [(i & ? & ?)|Hne]; [exists i; split; [lia|done]|].
        exists n. split; [lia|]. rewrite Hu, Hc. intros [= Heq]. rewrite Heq, Z.eqb_refl in Hne. done.
      * intros (i & Hi & Hne). destruct (decide (i = n)) as [->|]; [right|left; exists i; split; [lia|done]].
        destruct (Z.eqb_spec v c) as [Heq|]; [|done]. rewrite Hu, Hc, Heq in Hne. done.
    + intros w. rewrite elem_of_union, elem_of_singleton, H2. split.
      * intros [->|(i & ? & ?)]; [exists n; split; [lia|done]|exists i; split; [lia|done]].
      * intros (i & Hi & Hw). destruct (decide (i = n)) as [->|]; [left; congruence|right; exists i; split; [lia|done]].
  - eauto.
Qed.
End scan.

(** ** The rebuilt palette *)

(** [values] and [value_indices] stay inverse to each other. *)
Definition palette_map (acc : list Z * gmap Z nat) : Prop :=
  NoDup (fst acc) ∧ ∀ v k, snd acc !! v = Some k ↔ fst acc !! k = Some v.

Lemma palette_map_None acc v : palette_map acc → snd acc !! v = None ↔ v ∉ fst acc.
Proof.
  intros [_ H]. split.
  - intros Hn [k Hk]%list_elem_of_lookup. apply H in Hk. congruence.
  - intros Hn. destruct (snd acc !! v) as [k|] eqn:Hk; [|done]. apply H in Hk.
    destruct Hn. by eapply list_elem_of_lookup_2.
Qed.

Lemma push_value_spec acc wanted v :
  palette_map acc →
  palette_map (push_value acc wanted v) ∧
  ∀ w, w ∈ fst (push_value acc wanted v) ↔ w ∈ fst acc ∨ (wanted = true ∧ w = v).
Proof.
  intros Hm. destruct acc as [values indices]. simpl. destruct wanted; simpl.
  2:{ split; [done|]. intros w. split; [by left|intros [?|[? _]]; done]. }
  pose proof (palette_map_None _ v Hm) as Hnone. destruct Hm as [Hnd Hinv]. simpl in *.
  case_bool_decide as Hv; simpl.
  - apply Hnone in Hv. split; [|intros w; rewrite elem_of_app, list_elem_of_singleton; by intuition].
    split; simpl.
    + apply NoDup_app. split_and!; [done| |apply NoDup_singleton]. intros x Hx ->%list_elem_of_singleton. done.
    + intros w k. destruct (decide (w = v)) as [->|Hne].
      * rewrite lookup_insert_eq. split.
        -- intros [= <-]. by rewrite list_lookup_middle.
        -- intros Hk. apply lookup_app_Some in Hk as [Hk|[Hge Hk]]; [destruct Hv; by eapply list_elem_of_lookup_2|].
           apply list_lookup_singleton_Some in Hk as [Hk _]. f_equal. lia.
      * rewrite lookup_insert_ne, Hinv by done. split.
        -- intros Hk. by apply lookup_app_l_Some.
        -- intros [Hk|[_ Hk]]%lookup_app_Some; [done|].
           apply list_lookup_singleton_Some in Hk as [_ ?]. congruence.
  - split; [done|]. intros w. split; [by left|]. intros [?|[_ ->]]; [done|].
    destruct (decide (v ∈ values)); [done|]. by destruct Hv; apply Hnone.
Qed.

Lemma push_values_spec {A} (wanted : A → bool) (value : A → Z) l acc :
  palette_map acc →
  let r := foldl (λ acc x, push_value acc (wanted x) (value x)) acc l in
  palette_map r ∧ ∀ w, w ∈ fst r ↔ w ∈ fst acc ∨ ∃ x, x ∈ l ∧ wanted x = true ∧ w = value x.
Proof.
  revert acc. induction l as [|x l IH]; intros acc Hm; simpl.
  - split; [done|]. intros w. split; [by left|]. intros [?|(x & Hx & _)]; [done|]. by apply elem_of_nil in Hx.
  - destruct (push_value_spec acc (wanted x) (value x) Hm) as [Hm' Hin].
    destruct (IH _ Hm') as [Hm'' Hin']. split; [done|]. intros w. rewrite Hin', Hin. split.
    + intros [[?|[? ?]]|(y & ? & ?)]; [by left|right; exists x|right; exists y]; (split; [|done]); [left|by right].
    + intros [?|(y & [->|?]%elem_of_cons & ? & ?)]; [by do 2 left|left; right; done|right; eauto].
Qed.

Lemma rebuild_palette_spec old used final us :
  let r := rebuild_palette old used final us in
  palette_map r ∧
  ∀ w, w ∈ fst r ↔ (w ∈ old ∧ w ∈ used) ∨ ∃ i, (i, w) ∈ us ∧ final !! i = Some w.
Proof.
  unfold rebuild_palette.
  destruct (push_values_spec (λ v, bool_decide (v ∈ used)) id old ([], ∅)) as [Hm Hin].
  { split; [constructor|]. intros v k. simpl. rewrite lookup_empty, lookup_nil. done. }
  destruct (push_values_spec (λ u, bool_decide (final !! fst u = Some (snd u))) snd us _ Hm) as [Hm' Hin'].
  split; [done|]. intros w. rewrite Hin', Hin. simpl. split.
  - intros [[Hw|(x & Hx & Hu & ->)]|([i v] & Hu & Hf & ->)]; [by apply elem_of_nil in Hw| |].
    + left. by apply bool_decide_eq_true_1 in Hu.
    + right. exists i. split; [done|]. by apply bool_decide_eq_true_1 in Hf.
  - intros [[Ho Hu]|(i & Hi & Hf)].
    + left. right. exists w. split_and!; [done|by apply bool_decide_eq_true_2|done].
    + right. exists (i, w). split_and!; [done|by apply bool_decide_eq_true_2|done].
Qed.

(** ** Second pass *)

Lemma repack_spec s final (values : list Z) indices bits :
  bits ∈ SUPPORTED_BITS → (Z.of_nat (length values) ≤ 2 ^ Z.of_nat bits)%Z →
  palette_map (values, indices) →
  (∀ i, i < BLOCKS_PER_SUB_CHUNK → ∃ v, updated_value s final i = Some v ∧ v ∈ values) →
  ∃ ws counts, repack s final indices bits (length values) = Some (ws, counts) ∧
    words_ok bits ws ∧ padded bits ws ∧ length counts = length values ∧
    counts_of (read_palette_index ws bits) BLOCKS_PER_SUB_CHUNK counts ∧
    ∀ i, i < BLOCKS_PER_SUB_CHUNK → ∃ k, read_palette_index ws bits i = Some k ∧
      values !! k = updated_value s final i ∧ k < length values.
Proof.
  intros Hb Hfit [Hnd Hinv] Hval. simpl in Hinv.
  set (f i := updated_value s final i ≫= λ v, indices !! v).
  assert (Hf : ∀ i, i < BLOCKS_PER_SUB_CHUNK → ∃ v k, updated_value s final i = Some v ∧ indices !! v = Some k ∧
    values !! k = Some v ∧ k < length values).
  { intros i Hi. destruct (Hval i Hi) as (v & Hv & [k Hk]%list_elem_of_lookup).
    exists v, k. split_and!; [done|by apply Hinv|done|by eapply lookup_lt_Some]. }
  unfold repack.
  loop (λ n '(ws, counts), words_ok bits ws ∧ padded bits ws ∧ length counts = length values ∧
    counts_of f n counts ∧ ∀ i, i < n → i < BLOCKS_PER_SUB_CHUNK → read_palette_index ws bits i = f i)
    as ([ws counts] & -> & Hw & Hp & Hl & Hc & Hr).
  - split_and!; [apply words_ok_zero|apply padded_zero|apply length_replicate|apply counts_of_zero|lia].
  - intros n [ws counts] Hn (Hw & Hp & Hl & Hc & Hr). destruct (Hf n Hn) as (v & k & Hv & Hk & Hvk & Hkl).
    assert (Hfn : f n = Some k) by (unfold f; by rewrite Hv).
    rewrite Hv. simpl. rewrite Hk. simpl.
    destruct (lookup_lt_is_Some_2 counts k ltac:(lia)) as [c Hck]. rewrite Hck. simpl.
    destruct (counts_of_hit _ _ _ _ _ Hc Hn Hfn Hck) as (c' & -> & Hc'). simpl.
    assert (Hkb : (Z.of_nat k < 2 ^ Z.of_nat bits)%Z) by lia.
    destruct (write_palette_index_spec bits ws n k Hb Hw Hn Hkb) as (ws' & Hws' & Hw' & Hr').
    rewrite Hws'. simpl. eexists. split; [done|]. split_and!; [done| |by rewrite length_insert|done|].
    + exact (write_palette_index_padded _ _ _ _ _ Hb Hw Hn Hkb Hp Hws').
    + intros i Hi Hib. rewrite Hr' by done. case_decide; [congruence|]. apply Hr; [lia|done].
  - exists ws, counts. split_and!; try done.
    + eapply counts_of_ext; [|done]. intros i Hi. symmetry. by apply Hr.
    + intros i Hi. destruct (Hf i Hi) as (v & k & Hv & Hk & Hvk & Hkl). exists k.
      split_and!; [|congruence|done]. rewrite Hr by done. unfold f. by rewrite Hv.
Qed.

(** ** The batch *)

(** What every edit promises: the new storage shows [cells'], and its change flag is exact. *)
Record edit_spec (s : PalettedStorage) (cells' : nat → option Z) (changed : bool) (s' : PalettedStorage) : Prop := {
  es_ok : storage_ok s';
  es_cells : ∀ i, i < BLOCKS_PER_SUB_CHUNK → cell_value s' i = cells' i;
  es_changed : changed = true ↔ ∃ i, i < BLOCKS_PER_SUB_CHUNK ∧ cells' i ≠ cell_value s i;
  es_same : changed = false → s' = s;
  es_edited : changed = true → is_Some (edits s');
}.

Lemma storage_palette_elem s i v : cell_value s i = Some v → v ∈ palette s.
Proof.
  unfold cell_value. destruct (palette_index s i) as [k|]; simpl; [|done]. apply list_elem_of_lookup_2.
Qed.

Lemma batch_spec s us :
  storage_ok s → Forall (λ u, fst u < BLOCKS_PER_SUB_CHUNK) us →
  ∃ changed s', apply_runtime_updates s us = Some (changed, s') ∧
    edit_spec s (write_cells (cell_value s) us) changed s'.
Proof.
  intros Hok Hus. set (final := final_updates us).
  assert (Hcells : ∀ i, i < BLOCKS_PER_SUB_CHUNK → is_Some (cell_value s i)) by (intros; by apply cell_value_total).
  assert (Hupd : ∀ i, i < BLOCKS_PER_SUB_CHUNK → updated_value s final i = write_cells (cell_value s) us i).
  { intros i Hi. apply updated_value_write. auto. }
  unfold apply_runtime_updates. fold final.
  destruct (scan_updates_spec s final Hcells) as (changed & used & -> & Hch & Hused). simpl.
  assert (Hch' : changed = true ↔ ∃ i, i < BLOCKS_PER_SUB_CHUNK ∧ write_cells (cell_value s) us i ≠ cell_value s i).
  { rewrite Hch. split; intros (i & Hi & Hne); exists i; (split; [done|]); by rewrite ?Hupd, <-?Hupd in *. }
  destruct changed; simpl.
  2:{ eexists _, _. split; [done|]. split; [done| |done|done|done].
      intros i Hi. destruct (decide (cell_value s i = write_cells (cell_value s) us i)) as [|Hne]; [done|].
      exfalso. destruct Hch' as [_ Hc]. discriminate Hc. exists i. split; [done|]. congruence. }
  pose proof (rebuild_palette_spec (palette s) used final us) as [Hm Hin].
  destruct (rebuild_palette (palette s) used final us) as [values indices]. simpl in Hin.
  assert (Hval : ∀ i, i < BLOCKS_PER_SUB_CHUNK → ∃ v, updated_value s final i = Some v ∧ v ∈ values).
  { intros i Hi. destruct (Hcells i Hi) as [c Hc]. exists (default c (final !! i)).
    assert (Hu : updated_value s final i = Some (default c (final !! i))) by (unfold updated_value; by rewrite Hc).
    split; [done|]. apply Hin. destruct (final !! i) as [v|] eqn:Hf; simpl in *.
    - right. exists i. split; [by apply final_updates_elem|done].
    - left. split; [by eapply storage_palette_elem|]. apply Hused. eauto. }
  assert (Hlive : ∀ k v, values !! k = Some v → ∃ i, i < BLOCKS_PER_SUB_CHUNK ∧ updated_value s final i = Some v).
  { intros k v Hk%list_elem_of_lookup_2. apply Hin in Hk as [[_ Hu]|(i & Hi & Hf)]; [by apply Hused|].
    rewrite Forall_forall in Hus. specialize (Hus _ Hi). simpl in Hus. exists i. split; [done|].
    unfold updated_value. destruct (Hcells i Hus) as [c ->]. simpl. by rewrite Hf. }
  destruct Hm as [Hnd Hinv]. simpl in Hnd, Hinv.
  assert (Hlen : length values ≤ BLOCKS_PER_SUB_CHUNK).
  { etransitivity; [|apply (count_below_le (λ i, bool_decide (is_Some (updated_value s final i ≫= λ v, indices !! v))))].
    apply pigeonhole. intros k Hk. destruct (lookup_lt_is_Some_2 values k Hk) as [v Hv].
    destruct (Hlive _ _ Hv) as (i & Hi & Hu). exists i. split; [done|]. rewrite Hu. simpl. by apply Hinv. }
  assert (Hpos : 1 ≤ length values).
  { pose proof BLOCKS_eq. destruct (Hval 0) as (v & _ & Hv); [lia|]. destruct values; simpl; [by apply elem_of_nil in Hv|lia]. }
  set (bits := bits_for_palette_len (length values)).
  destruct (repack_spec s final values indices bits) as (ws & counts & -> & Hw & Hp & Hlc & Hc & Hr);
    [apply bits_for_palette_len_supported|by apply bits_for_palette_len_fits|done|done|]. simpl.
  assert (Hnz : ∀ k c, counts !! k = Some c → c ≠ 0).
  { intros k c Hk. rewrite (Hc _ _ Hk). intros Hz. pose proof (count_below_zero _ _ Hz) as Hnone.
    destruct (lookup_lt_is_Some_2 values k) as [v Hv]; [rewrite <-Hlc; by eapply lookup_lt_Some|].
    destruct (Hlive _ _ Hv) as (i & Hi & Hu). destruct (Hr i Hi) as (k' & Hk' & Hv' & _).
    rewrite Hu in Hv'. assert (k' = k) as -> by (by eapply NoDup_lookup).
    specialize (Hnone i Hi). simpl in Hnone. by apply bool_decide_eq_false_1 in Hnone. }
  rewrite (proj2 (forallb_nonzero counts) Hnz).
  eexists _, _. split; [done|]. split; [|  |done|done|by eexists].
  - unfold storage_ok. cbn [edits]. apply edits_new_ok; try done; [apply bits_for_palette_len_supported|].
    intros i k Hi Hk. destruct (Hr i Hi) as (k' & Hk' & _ & ?). congruence.
  - intros i Hi. rewrite edits_new_cell by done. destruct (Hr i Hi) as (k & -> & Hk & _). simpl.
    by rewrite Hk, Hupd.
Qed.

(** ** One update *)

Lemma update_spec s linear id :
  storage_ok s → linear < BLOCKS_PER_SUB_CHUNK →
  ∃ changed s', apply_runtime_update s linear id = Some (changed, s') ∧
    edit_spec s (write_cell (cell_value s) (linear, id)) changed s'.
Proof.
  intros Hok Hl. unfold apply_runtime_update. fold (cell_value s linear).
  destruct (cell_value_total s linear Hok Hl) as [v Hv].
  pose proof (batch_spec s [(linear, id)] Hok) as Hbatch. forward Hbatch; [by repeat constructor|].
  change (write_cells (cell_value s) [(linear, id)]) with (write_cell (cell_value s) (linear, id)) in Hbatch.
  assert (Hsame : (index ← palette_index s linear; value ← palette s !! index; Some value) = Some v).
  { unfold cell_value in Hv. destruct (palette_index s linear) as [k|]; simpl in *; [|done]. by rewrite Hv. }
  rewrite Hsame. destruct (Z.eqb_spec v id) as [->|Hne].
  { eexists _, _. split; [done|].
    assert (Hid : ∀ i, write_cell (cell_value s) (linear, id) i = cell_value s i).
    { intros i. unfold write_cell. simpl. case_decide; [by subst|done]. }
    split; [done|intros; by rewrite Hid| |done|done]. split; [done|]. intros (i & _ & Hi). by rewrite Hid in Hi. }
  assert (Hchg : ∃ i, i < BLOCKS_PER_SUB_CHUNK ∧ write_cell (cell_value s) (linear, id) i ≠ cell_value s i).
  { exists linear. split; [done|]. unfold write_cell. simpl. rewrite decide_True, Hv by done. congruence. }
  unfold storage_ok in Hok. destruct (edits s) as [e|] eqn:He.
  - destruct (patch_edit_spec s e linear id Hok He Hl) as (s' & e' & -> & He' & Hok' & Hc'); [congruence|].
    eexists _, _. split; [done|]. split; [unfold storage_ok; by rewrite He'|done|done|done|by eexists].
  - destruct (canonical_counts_spec s He Hok) as (r & -> & Hr). simpl. destruct r as [counts|]; [|done].
    destruct (Hr counts eq_refl) as [Hok1 Hc1].
    destruct (patch_edit_spec _ _ linear id Hok1 eq_refl Hl) as (s' & e' & -> & He' & Hok' & Hc').
    { rewrite Hc1, Hv by done. congruence. }
    eexists _, _. split; [done|].
    split; [unfold storage_ok; by rewrite He'| |done|done|by eexists].
    intros i Hi. rewrite Hc' by done. unfold write_cell. case_decide; [done|]. by apply Hc1.
Qed.
