(* ===== verification/PaletteViews.v ===== *)
(** * Views of a palette storage

    The public word view, the bulk reads, the uniformity tests, the heap accounting and the repair
    of decoded indices, each against the per-cell reads of [Palette]. *)
From stdpp Require Import base numbers list gmap sets.
From S2P Require Import Prelude Packed Palette PaletteSlots PaletteSpec PaletteUpdates.

(** ** The canonical form of edited storage *)

(** Every palette entry of edited storage is some cell's value. *)
Lemma edited_palette_used s e v :
  edited_ok s e → edits s = Some e → v ∈ palette s →
  ∃ i, i < BLOCKS_PER_SUB_CHUNK ∧ cell_value s i = Some v.
Proof.
  intros H He [j Hj]%list_elem_of_lookup.
  destruct (si_surj _ _ _ _ (ed_inv _ _ H) j) as [k Hk]; [by eapply lookup_lt_Some|done|].
  destruct (live_slot_phys _ _ _ _ _ _ (ed_inv _ _ H) Hk) as (i & Hi & Hp).
  exists i. split; [done|]. rewrite (cell_value_edited s e) by done. rewrite Hp. simpl.
  unfold slot_value. by rewrite Hk.
Qed.

Lemma palette_index_fits s i k :
  storage_ok s → palette_index s i = Some k → i < BLOCKS_PER_SUB_CHUNK →
  (Z.of_nat k < 2 ^ Z.of_nat (bits_per_index s))%Z.
Proof.
  intros Hok Hk Hi. destruct (palette_index_total s i Hok Hi) as (k' & Hk' & Hlt).
  rewrite Hk in Hk'. injection Hk' as <-. unfold storage_ok, bits_per_index in *.
  destruct (edits s) as [e|] eqn:He.
  - pose proof (bits_for_palette_len_fits _ (edited_palette_length _ _ Hok)). lia.
  - unfold palette_index in Hk. rewrite He in Hk.
    destruct (physical_index_total s i (dec_raw _ Hok) Hi) as (j & Hj & ?).
    rewrite Hj in Hk. simpl in Hk. by injection Hk as <-.
Qed.

Lemma bits_per_index_supported s : storage_ok s → bits_per_index s ∈ SUPPORTED_BITS.
Proof.
  unfold storage_ok, bits_per_index. destruct (edits s).
  - intros _. apply bits_for_palette_len_supported.
  - intros H. apply (dec_raw _ H).
Qed.

(** ** [words] *)

Lemma word_count_0 : word_count 0 = 0.
Proof. done. Qed.

Lemma canonical_pack_spec s :
  storage_ok s → ∃ ws, canonical_pack s = Some ws ∧ words_ok (bits_per_index s) ws ∧
    padded (bits_per_index s) ws ∧
    ∀ i, i < BLOCKS_PER_SUB_CHUNK → read_palette_index ws (bits_per_index s) i = palette_index s i.
Proof.
  intros Hok. unfold canonical_pack. pose proof (bits_per_index_supported s Hok) as Hb.
  assert (Hf : ∀ i, i < BLOCKS_PER_SUB_CHUNK → ∃ k, palette_index s i = Some k ∧
            (Z.of_nat k < 2 ^ Z.of_nat (bits_per_index s))%Z).
  { intros i Hi. destruct (palette_index_total s i Hok Hi) as (k & Hk & _).
    exists k. split; [done|by eapply palette_index_fits]. }
  destruct (Nat.eqb_spec (bits_per_index s) 0) as [Hz|Hz].
  - exists []. rewrite Hz in *. split_and!; [done| | |].
    + split; [done|constructor].
    + intros i w H. by rewrite lookup_nil in H.
    + intros i Hi. destruct (Hf i Hi) as (k & -> & Hk). unfold read_palette_index. simpl in *. f_equal. lia.
  - destruct (pack_words_spec _ _ Hb Hf) as (ws & Hws & Hw & Hr). exists ws. split_and!; try done.
    exact (pack_words_padded _ _ _ Hb Hf Hws).
Qed.

Definition is_edited (s : PalettedStorage) : bool := match edits s with Some _ => true | None => false end.

Record words_view (s : PalettedStorage) (ws : list Z) (s' : PalettedStorage) : Prop := {
  wv_words : words_ok (bits_per_index s) ws;
  wv_read : ∀ i, i < BLOCKS_PER_SUB_CHUNK → read_palette_index ws (bits_per_index s) i = palette_index s i;
  wv_padded : is_edited s = true → padded (bits_per_index s) ws;
  wv_ok : storage_ok s';
  wv_palette : palette s' = palette s;
  wv_bits : bits_per_index s' = bits_per_index s;
  wv_cells : ∀ i, cell_value s' i = cell_value s i;
  wv_again : words s' = Some (ws, s');
}.

Lemma canonical_pack_cache s e w :
  edits s = Some e →
  canonical_pack (mk_storage (raw_bits s) (raw_words s) (palette s) (Some (mk_edits (slots e) (direct e) w)))
  = canonical_pack s.
Proof.
  intros He. unfold canonical_pack, bits_per_index. simpl. rewrite He.
  assert (Hext : palette_index (mk_storage (raw_bits s) (raw_words s) (palette s)
                   (Some (mk_edits (slots e) (direct e) w))) = palette_index s).
  { unfold palette_index. simpl. by rewrite He. }
  by rewrite Hext.
Qed.

Lemma edited_direct_index s e i :
  edited_ok s e → edits s = Some e → direct e = true → i < BLOCKS_PER_SUB_CHUNK →
  raw_bits s = bits_per_index s ∧ palette_index s i = physical_index s i.
Proof.
  intros H He Hd Hi. rewrite (ed_direct _ _ H) in Hd. apply is_direct_iff in Hd as [Hb Hk].
  split; [unfold bits_per_index; by rewrite He|].
  destruct (edited_palette_index s e i H He Hi) as (k & j & Hp & Hl & Hpi & _).
  rewrite Hp, Hpi. by rewrite (Hk _ _ Hl).
Qed.

Lemma words_spec s : storage_ok s → ∃ ws s', words s = Some (ws, s') ∧ words_view s ws s'.
Proof.
  intros Hok. destruct (canonical_pack_spec s Hok) as (cw & Hcw & Hcok & Hcpad & Hcr).
  unfold words. destruct (edits s) as [e|] eqn:He.
  - pose proof Hok as Hed. unfold storage_ok in Hed. rewrite He in Hed.
    destruct (direct e) eqn:Hd.
    + eexists _, _. split; [done|]. pose proof BLOCKS_eq.
      destruct (edited_direct_index s e 0 Hed He Hd) as [Hbits _]; [lia|].
      split; try done; rewrite <-?Hbits.
      * apply (ed_raw _ _ Hed).
      * intros i Hi. destruct (edited_direct_index s e i Hed He Hd Hi) as [_ ->].
        by rewrite physical_index_read.
      * intros _. apply (ed_padded _ _ Hed).
      * unfold words. by rewrite He, Hd.
    + destruct (canonical_words e) as [w|] eqn:Hc.
      * destruct (ed_cache _ _ Hed w Hc) as [_ Hw]. rewrite Hcw in Hw. injection Hw as <-.
        eexists _, _. split; [done|]. split; try done. unfold words. by rewrite He, Hd, Hc.
      * rewrite Hcw. simpl. eexists _, _. split; [done|].
        split; try done; simpl.
        -- unfold storage_ok. simpl. destruct Hed. split; try done; simpl.
           ++ by destruct ed_raw.
           ++ by rewrite <-Hd.
           ++ intros w [= <-]. split; [done|].
              rewrite <-Hcw, <-(canonical_pack_cache s e (Some cw) He). by rewrite Hd.
        -- unfold bits_per_index. simpl. by rewrite He.
        -- intros i. unfold cell_value, palette_index. simpl. by rewrite He.
  - unfold storage_ok in Hok. rewrite He in Hok. eexists _, _. split; [done|].
    assert (Hb : bits_per_index s = raw_bits s) by (unfold bits_per_index; by rewrite He).
    split; rewrite ?Hb; try done.
    + apply (dec_raw _ Hok).
    + intros i Hi. unfold palette_index. rewrite He, physical_index_read by done. by destruct (read_palette_index _ _ _).
    + unfold is_edited. by rewrite He.
    + unfold storage_ok. by rewrite He.
    + unfold words. by rewrite He.
Qed.

(** ** Representation equality *)

(** Canonical storages are equal exactly when their palettes and cells are. *)
Lemma storage_eqb_canonical s1 s2 :
  storage_ok s1 → storage_ok s2 → is_edited s1 = true → is_edited s2 = true →
  ∃ b, storage_eqb s1 s2 = Some b ∧
    (b = true ↔ palette s1 = palette s2 ∧ ∀ i, i < BLOCKS_PER_SUB_CHUNK → cell_value s1 i = cell_value s2 i).
Proof.
  intros H1 H2 E1 E2. unfold storage_eqb.
  destruct (words_spec s1 H1) as (w1 & s1' & -> & V1). destruct (words_spec s2 H2) as (w2 & s2' & -> & V2).
  simpl. eexists. split; [done|]. rewrite bool_decide_eq_true. split.
  - intros (Hb & Hp & Hw). split; [done|]. intros i Hi. unfold cell_value.
    rewrite <-(wv_read _ _ _ V1), <-(wv_read _ _ _ V2) by done. by rewrite Hb, Hp, Hw.
  - intros [Hp Hc]. assert (Hb : bits_per_index s1 = bits_per_index s2).
    { unfold bits_per_index, is_edited in *. destruct (edits s1), (edits s2); try done. by rewrite Hp. }
    split_and!; [done|done|].
    apply (packed_words_ext (bits_per_index s1)).
    + by apply bits_per_index_supported.
    + apply (wv_words _ _ _ V1).
    + rewrite Hb. apply (wv_words _ _ _ V2).
    + by apply (wv_padded _ _ _ V1).
    + rewrite Hb. by apply (wv_padded _ _ _ V2).
    + intros i Hi. rewrite (wv_read _ _ _ V1) by done. rewrite Hb, (wv_read _ _ _ V2) by done.
      destruct (palette_index_total s1 i H1 Hi) as (k1 & Hk1 & Hl1).
      destruct (palette_index_total s2 i H2 Hi) as (k2 & Hk2 & Hl2).
      specialize (Hc i Hi). unfold cell_value in Hc. rewrite Hk1, Hk2 in *. simpl in Hc.
      f_equal. rewrite <-Hp in Hc, Hl2. destruct (lookup_lt_is_Some_2 _ _ Hl1) as [v Hv].
      assert (Hnd : NoDup (palette s1)).
      { unfold storage_ok, is_edited in *. destruct (edits s1) as [e|]; [|done]. apply (ed_nodup _ _ H1). }
      eapply NoDup_lookup; [done|done|]. by rewrite <-Hc.
Qed.

(** ** Uniformity *)

Lemma contains_only_spec s id :
  storage_ok s →
  contains_only s id = true ↔ ∀ i, i < BLOCKS_PER_SUB_CHUNK → cell_value s i = Some id.
Proof.
  intros Hok. unfold contains_only. destruct (edits s) as [e|] eqn:He.
  - pose proof Hok as Hed. unfold storage_ok in Hed. rewrite He in Hed. rewrite bool_decide_eq_true. split.
    + intros Hp i Hi. destruct (cell_value_total s i Hok Hi) as [v Hv].
      pose proof (storage_palette_elem _ _ _ Hv) as Hin. rewrite Hp in Hin.
      apply list_elem_of_singleton in Hin. by subst.
    + intros Hall.
      assert (Hv : ∀ v, v ∈ palette s → v = id).
      { intros v Hv. destruct (edited_palette_used _ _ _ Hed He Hv) as (i & Hi & Hc).
        rewrite Hall in Hc by done. by injection Hc. }
      pose proof (ed_nonempty _ _ Hed) as Hne. pose proof (ed_nodup _ _ Hed) as Hnd.
      destruct (palette s) as [|v [|w l]]; simpl in Hne; [lia| |].
      * by rewrite (Hv v) by (by left).
      * apply NoDup_cons in Hnd as [Hnotin _]. destruct Hnotin.
        rewrite (Hv v), (Hv w) by (by repeat constructor). by left.
  - rewrite forallb_forall. split.
    + intros H i Hi. eapply bool_decide_eq_true_1, H. apply in_seq. lia.
    + intros H i Hi. apply in_seq in Hi. apply bool_decide_eq_true_2, H. lia.
Qed.

(** ** Bulk reads *)

Definition index_or (sentinel : Z) (modulus : Z) (o : option nat) : Z :=
  match o with Some i => (Z.of_nat i mod modulus)%Z | None => sentinel end.

Lemma unpack_chunks_spec bits ws wi todo fuel :
  1 ≤ bits ≤ 32 → todo ≤ fuel →
  unpack_chunks bits ws wi todo fuel =
  (λ linear, match ws !! (linear / (32 / bits)) with
             | Some w => Z.of_nat (read_slot w bits (linear mod (32 / bits))) | None => U32_MAX end)
    <$> seq (wi * (32 / bits)) todo.
Proof.
  intros Hb. assert (Hp : 1 ≤ 32 / bits) by (apply Nat.div_le_lower_bound; lia).
  set (p := 32 / bits) in *. revert wi todo.
  induction fuel as [|fuel IH]; intros wi todo Hf; [by replace todo with 0 by lia|].
  simpl. destruct (Nat.eqb_spec todo 0) as [->|Hz]; [done|]. fold p.
  assert (Hin : ∀ i, i < p → (wi * p + i) / p = wi ∧ (wi * p + i) mod p = i).
  { intros i Hi. rewrite Nat.div_add_l, Nat.div_small by lia. split; [lia|].
    rewrite Nat.add_comm, Nat.Div0.mod_add. by apply Nat.mod_small. }
  destruct (ws !! wi) as [w|] eqn:Hw.
  - rewrite IH by lia. set (c := p `min` todo).
    replace (seq (wi * p) todo) with (seq (wi * p) c ++ seq (wi * p + c) (todo - c))
      by (rewrite <-seq_app; f_equal; lia).
    rewrite fmap_app. f_equal.
    + replace (seq (wi * p) c) with ((λ i, wi * p + i) <$> seq 0 c).
      2:{ apply list_eq. intros i. rewrite list_lookup_fmap.
          destruct (decide (i < c)).
          - rewrite !lookup_seq_lt by done. simpl. done.
          - rewrite !lookup_seq_ge by lia. done. }
      rewrite <-list_fmap_compose. apply list_fmap_ext. intros k i Hi. apply lookup_seq in Hi as [-> ?]. simpl.
      destruct (Hin k ltac:(lia)) as [-> ->]. by rewrite Hw.
    + destruct (decide (p ≤ todo)).
      * replace (S wi * p) with (wi * p + c) by lia. done.
      * by replace (todo - c) with 0 by lia.
  - symmetry. apply list_eq. intros k. destruct (decide (k < todo)).
    2:{ rewrite !lookup_ge_None_2; [done|rewrite length_replicate; lia|rewrite length_fmap, length_seq; lia]. }
    rewrite list_lookup_fmap.
    rewrite lookup_seq_lt, lookup_replicate_2 by done. simpl.
    rewrite (lookup_ge_None_2 ws); [done|]. apply lookup_ge_None in Hw. etransitivity; [done|].
    apply Nat.div_le_lower_bound; lia.
Qed.

Lemma column_loop_spec bits ws linear n :
  1 ≤ bits ≤ 32 →
  column_loop bits ws (linear / (32 / bits)) (linear mod (32 / bits)) n =
  (λ i, index_or U16_MAX (2 ^ 16) ((λ w, read_slot w bits (i mod (32 / bits))) <$> ws !! (i / (32 / bits))))
    <$> seq linear n.
Proof.
  intros Hb. assert (Hp : 1 ≤ 32 / bits) by (apply Nat.div_le_lower_bound; lia).
  revert linear. induction n as [|n IH]; intros linear; [done|].
  cbn [column_loop]. set (p := 32 / bits) in *.
  pose proof (Nat.div_mod_eq linear p). pose proof (Nat.mod_upper_bound linear p ltac:(lia)).
  destruct (Nat.eqb_spec (S (linear mod p)) p) as [E|E]; cbn [seq fmap list_fmap].
  - f_equal; [by destruct (ws !! _)|]. rewrite <-IH. f_equal.
    + apply (Nat.div_unique (S linear) p _ 0); nia.
    + apply (Nat.mod_unique (S linear) p (S (linear / p))); nia.
  - f_equal; [by destruct (ws !! _)|]. rewrite <-IH. f_equal.
    + apply (Nat.div_unique (S linear) p _ (S (linear mod p))); nia.
    + apply (Nat.mod_unique (S linear) p (linear / p)); nia.
Qed.

Lemma linear_index_eq x y z : y < 16 → z < 16 → linear_index x y z = 256 * x + 16 * z + y.
Proof.
  intros Hy Hz. unfold linear_index. rewrite <-Z.lor_assoc.
  rewrite (lor_shiftl_add _ 4) by lia. rewrite lor_shiftl_add by lia. lia.
Qed.

(** ** Heap accounting *)

Lemma next_multiple_of_mono n m k : 0 < k → n ≤ m → next_multiple_of n k ≤ next_multiple_of m k.
Proof.
  intros Hk Hn.
  assert (Hd : ∀ a, next_multiple_of a k = k * div_ceil a k).
  { intros a. unfold next_multiple_of, div_ceil. pose proof (Nat.div_mod_eq a k).
    pose proof (Nat.mod_upper_bound a k). destruct (Nat.eqb_spec (a mod k) 0); nia. }
  rewrite !Hd. apply Nat.mul_le_mono_l, div_ceil_le; [done|].
  pose proof (div_ceil_covers m k Hk). lia.
Qed.

Lemma canonical_heap_bytes_mono u n m : 0 < u → n ≤ m → canonical_heap_bytes u n ≤ canonical_heap_bytes u m.
Proof. intros Hu Hn. unfold canonical_heap_bytes. apply next_multiple_of_mono; [done|]. unfold SIZE_U32. lia. Qed.

Lemma supported_bits_le bits : bits ∈ SUPPORTED_BITS → bits ≤ 16.
Proof. intros [->|H%packed_bits_range]%supported_bits_cases; lia. Qed.

Lemma working_heap_le s : storage_ok s →
  working_heap_bytes s ≤ word_count 16 * SIZE_U32 + BLOCKS_PER_SUB_CHUNK * (SIZE_U32 + SIZE_PALETTE_SLOT).
Proof.
  intros Hok. unfold working_heap_bytes, storage_ok, SIZE_U32, SIZE_PALETTE_SLOT in *.
  destruct (edits s) as [e|].
  - destruct (ed_raw _ _ Hok) as [Hb [Hl _]]. pose proof (word_count_max _ (supported_bits_le _ Hb)).
    pose proof (edited_palette_length _ _ Hok). pose proof (ed_slots _ _ Hok). nia.
  - destruct (dec_raw _ Hok) as [Hb [Hl _]]. pose proof (word_count_max _ (supported_bits_le _ Hb)).
    pose proof (dec_palette _ Hok). nia.
Qed.

(** ** Repair of decoded indices *)

(** What [zero_indices_at_or_above] accepts: decoder output before the repair, or edited storage. *)
Definition repairable (s : PalettedStorage) : Prop :=
  match edits s with Some e => edited_ok s e | None => raw_ok s end.

Lemma zero_indices_raw s n :
  raw_ok s → edits s = None → 1 ≤ n →
  ∃ s', zero_indices_at_or_above s n = Some s' ∧ raw_ok s' ∧ edits s' = None ∧
    palette s' = palette s ∧ raw_bits s' = raw_bits s ∧
    ∀ i, i < BLOCKS_PER_SUB_CHUNK →
      physical_index s' i = (λ k, if n <=? k then 0 else k) <$> physical_index s i.
Proof.
  intros Hraw He Hn. unfold zero_indices_at_or_above. rewrite He. simpl.
  destruct (decide _) as [Hd|Hd].
  { exists s. split_and!; try done. intros i Hi.
    destruct (physical_index_total s i Hraw Hi) as (k & -> & Hk). simpl. f_equal.
    destruct (Nat.leb_spec n k); [|done]. destruct Hd as [Hz|Hle].
    - rewrite Hz in Hk. simpl in Hk. lia.
    - rewrite Z.shiftl_1_l in Hle. lia. }
  loop (λ m t, raw_ok t ∧ edits t = None ∧ palette t = palette s ∧ raw_bits t = raw_bits s ∧
    ∀ i, i < BLOCKS_PER_SUB_CHUNK → physical_index t i =
      if decide (i < m) then (λ k, if n <=? k then 0 else k) <$> physical_index s i else physical_index s i)
    as (t & -> & Hr & He' & Hp & Hb & Hi).
  - split_and!; done.
  - intros m t Hm (Hr & He' & Hp & Hb & Hi).
    destruct (physical_index_total s m Hraw Hm) as (k & Hk & Hkb).
    assert (Htm : physical_index t m = Some k) by (rewrite Hi, decide_False by lia; done).
    assert (Hpt : palette_index t m = Some k) by (unfold palette_index; by rewrite Htm, He').
    rewrite Hpt. destruct (Nat.leb_spec n k) as [Hnk|Hnk].
    + destruct Hr as [Hsb Hw].
      destruct (write_palette_index_spec (raw_bits t) (raw_words t) m 0 Hsb Hw Hm) as (ws & -> & Hw' & Hrd).
      { apply Z.pow_pos_nonneg; lia. }
      simpl. eexists. split; [done|]. split_and!; [by split|done|done|done|].
      intros i Hib. rewrite physical_index_read by done. cbn [raw_words raw_bits]. rewrite Hrd by done.
      rewrite <-physical_index_read, Hi by done. destruct (decide (m = i)) as [<-|].
      * rewrite decide_True by lia. rewrite Hk. simpl. destruct (Nat.leb_spec n k); [done|lia].
      * destruct (decide (i < m)), (decide (i < S m)); done || lia.
    + eexists. split; [done|]. split_and!; try done. intros i Hib. rewrite Hi by done.
      destruct (decide (i < m)), (decide (i < S m)); try done || lia.
      assert (i = m) as -> by lia. rewrite Hk. simpl. destruct (Nat.leb_spec n k); [lia|done].
  - exists t. split_and!; try done. intros i Hib. rewrite Hi by done. by rewrite decide_True.
Qed.

Lemma zero_indices_decoded s :
  raw_ok s → edits s = None → 1 ≤ length (palette s) ≤ BLOCKS_PER_SUB_CHUNK →
  ∃ s', zero_indices_at_or_above s (length (palette s)) = Some s' ∧ decoded_ok s' ∧ edits s' = None ∧
    palette s' = palette s ∧
    ∀ i, i < BLOCKS_PER_SUB_CHUNK → cell_value s' i =
      match cell_value s i with Some v => Some v | None => palette s !! 0 end.
Proof.
  intros Hraw He Hlen. destruct (zero_indices_raw s (length (palette s)) Hraw He) as (s' & Hs' & Hr & He' & Hp & Hb & Hi); [lia|].
  exists s'. split_and!; try done.
  - split; [done|by rewrite Hp|]. intros i Hib. rewrite Hi by done.
    destruct (physical_index_total s i Hraw Hib) as (k & -> & _). simpl. eexists. split; [done|].
    rewrite Hp. destruct (Nat.leb_spec (length (palette s)) k); lia.
  - intros i Hib. rewrite !cell_value_decoded by done. rewrite Hi, Hp by done.
    destruct (physical_index_total s i Hraw Hib) as (k & -> & _). simpl.
    destruct (Nat.leb_spec (length (palette s)) k).
    + by rewrite (lookup_ge_None_2 _ k).
    + destruct (lookup_lt_is_Some_2 (palette s) k) as [v Hv]; [done|]. by rewrite Hv.
Qed.
