(* ===== verification/PaletteTheorems.v ===== *)
(** * What palette storage guarantees

    The properties of [Palette] a caller relies on: edits refine writes on cells and leave a
    canonical form, every view agrees with the per-cell reads, and the heap accounting is a bound. *)
From stdpp Require Import base numbers list gmap sets.
From S2P Require Import Prelude Packed Palette PaletteSlots PaletteSpec PaletteUpdates PaletteViews.

(** ** Sample storages *)

Definition edited_uniform (id : Z) : PalettedStorage :=
  mk_storage 0 [] [id] (Some (edits_new [BLOCKS_PER_SUB_CHUNK])).

(** One update per element, in order. *)
Definition apply_each (s : PalettedStorage) (updates : list (nat * Z)) : option PalettedStorage :=
  foldM (λ s u, snd <$> apply_runtime_update s (fst u) (snd u)) s updates.

Lemma uniform_ok id : storage_ok (uniform id).
Proof.
  pose proof BLOCKS_eq. split.
  - split; [by left|]. split; [done|constructor].
  - simpl. lia.
  - intros i Hi. exists 0. rewrite physical_index_read by done. simpl. split; [done|lia].
Qed.

Lemma edited_uniform_ok id : storage_ok (edited_uniform id).
Proof.
  pose proof BLOCKS_eq. apply edits_new_ok.
  - by left.
  - apply words_ok_zero.
  - intros i w Hi. by rewrite lookup_nil in Hi.
  - apply NoDup_singleton.
  - simpl. lia.
  - done.
  - done.
  - intros [|k] c; simpl; [intros [= <-]; lia|done].
  - intros [|k] c; [|done]. simpl. intros [= <-]. symmetry. by apply count_below_all.
  - cbn [length]. intros i k Hi. unfold read_palette_index. simpl. intros [= <-]. lia.
Qed.

Lemma canonical_facts s :
  storage_ok s → is_edited s = true →
  NoDup (palette s) ∧
  (∀ v, v ∈ palette s ↔ ∃ i, i < BLOCKS_PER_SUB_CHUNK ∧ cell_value s i = Some v) ∧
  (∀ bits, bits ∈ SUPPORTED_BITS → (Z.of_nat (length (palette s)) ≤ 2 ^ Z.of_nat bits)%Z → bits_per_index s ≤ bits).
Proof.
  intros Hok He. pose proof Hok as Hed. unfold storage_ok, is_edited, bits_per_index in *.
  destruct (edits s) as [e|] eqn:Hes; [|done]. split_and!.
  - apply (ed_nodup _ _ Hed).
  - intros v. split; [by eapply edited_palette_used|]. intros (i & _ & Hi). by eapply storage_palette_elem.
  - intros bits Hb Hl. by apply bits_for_palette_len_least.
Qed.

Lemma apply_each_spec s us :
  storage_ok s → Forall (λ u, fst u < BLOCKS_PER_SUB_CHUNK) us →
  ∃ s', apply_each s us = Some s' ∧ storage_ok s' ∧
    ∀ i, i < BLOCKS_PER_SUB_CHUNK → cell_value s' i = write_cells (cell_value s) us i.
Proof.
  intros Hok Hus. unfold apply_each.
  destruct (foldM_inv (λ s u, snd <$> apply_runtime_update s (fst u) (snd u))
    (λ pre t, storage_ok t ∧ ∀ i, i < BLOCKS_PER_SUB_CHUNK → cell_value t i = write_cells (cell_value s) pre i)
    s us) as (t & Ht & Htok & Htc); [done| |eauto].
  intros pre [linear id] post t Hl [Htok Htc]. rewrite Hl in Hus.
  apply Forall_app in Hus as [_ Hus]. apply Forall_cons in Hus as [Hlin _]. simpl in Hlin.
  destruct (update_spec t linear id Htok Hlin) as (changed & t' & Hup & Hspec). simpl. rewrite Hup. simpl.
  eexists. split; [done|]. split; [apply (es_ok _ _ _ _ Hspec)|]. intros i Hi.
  rewrite (es_cells _ _ _ _ Hspec) by done. unfold write_cells. rewrite foldl_app. simpl.
  unfold write_cell at 1 2. simpl. case_decide; [done|]. by apply Htc.
Qed.

(** ** Edits *)

(** C1: A batch of runtime-id updates on well-formed storage never panics and has the effect of its
    writes taken one after the other: the new storage is well formed, every cell reads the last
    value written to it, [true] is returned exactly when some cell changed, and on [false] the
    storage is untouched. *)
Theorem apply_runtime_updates_refines s us :
  storage_ok s → Forall (λ u, fst u < BLOCKS_PER_SUB_CHUNK) us →
  ∃ changed s', apply_runtime_updates s us = Some (changed, s') ∧ storage_ok s' ∧
    (∀ i, i < BLOCKS_PER_SUB_CHUNK → cell_value s' i = write_cells (cell_value s) us i) ∧
    (changed = true ↔ ∃ i, i < BLOCKS_PER_SUB_CHUNK ∧ write_cells (cell_value s) us i ≠ cell_value s i) ∧
    (changed = false → s' = s).
Proof.
  intros Hok Hus. destruct (batch_spec s us Hok Hus) as (changed & s' & ? & []). by exists changed, s'.
Qed.

Lemma apply_runtime_updates_refines_witness :
  ∃ changed s', apply_runtime_updates (uniform 7) [(5, 9%Z); (6, 7%Z); (5, 8%Z)] = Some (changed, s') ∧ storage_ok s' ∧
    (∀ i, i < BLOCKS_PER_SUB_CHUNK → cell_value s' i =
       write_cells (cell_value (uniform 7)) [(5, 9%Z); (6, 7%Z); (5, 8%Z)] i) ∧
    (changed = true ↔ ∃ i, i < BLOCKS_PER_SUB_CHUNK ∧
       write_cells (cell_value (uniform 7)) [(5, 9%Z); (6, 7%Z); (5, 8%Z)] i ≠ cell_value (uniform 7) i) ∧
    (changed = false → s' = uniform 7).
Proof.
  apply (apply_runtime_updates_refines (uniform 7)); [apply uniform_ok|].
  pose proof BLOCKS_eq. repeat constructor; simpl; lia.
Defined.

(** One runtime-id update, whichever path it takes (no change, patch of live slots, admission of
    decoded storage, batch fallback), never panics on well-formed storage and writes exactly its
    own cell. *)
Theorem apply_runtime_update_refines s linear id :
  storage_ok s → linear < BLOCKS_PER_SUB_CHUNK →
  ∃ changed s', apply_runtime_update s linear id = Some (changed, s') ∧ storage_ok s' ∧
    cell_value s' linear = Some id ∧
    (∀ i, i < BLOCKS_PER_SUB_CHUNK → i ≠ linear → cell_value s' i = cell_value s i) ∧
    (changed = true ↔ cell_value s linear ≠ Some id) ∧
    (changed = false → s' = s).
Proof.
  intros Hok Hl. destruct (update_spec s linear id Hok Hl) as (changed & s' & Hup & [Hok' Hc Hch Hsame _]).
  exists changed, s'. unfold write_cell in *. simpl in *. split_and!; try done.
  - rewrite Hc by done. by rewrite decide_True.
  - intros i Hi Hne. rewrite Hc by done. by rewrite decide_False.
  - rewrite Hch. split.
    + intros (i & Hi & Hne). destruct (decide (i = linear)) as [->|]; [congruence|done].
    + intros Hne. exists linear. split; [done|]. rewrite decide_True by done. congruence.
Qed.

Lemma apply_runtime_update_refines_witness :
  ∃ changed s', apply_runtime_update (edited_uniform 7) 17 9 = Some (changed, s') ∧ storage_ok s' ∧
    cell_value s' 17 = Some 9%Z ∧
    (∀ i, i < BLOCKS_PER_SUB_CHUNK → i ≠ 17 → cell_value s' i = cell_value (edited_uniform 7) i) ∧
    (changed = true ↔ cell_value (edited_uniform 7) 17 ≠ Some 9%Z) ∧
    (changed = false → s' = edited_uniform 7).
Proof.
  apply (apply_runtime_update_refines (edited_uniform 7) 17 9); [apply edited_uniform_ok|].
  pose proof BLOCKS_eq. lia.
Defined.

(** C38: A storage that an edit changed is canonical: its palette lists exactly the values in use,
    each once, and the exposed index width is the smallest supported one that holds it. *)
Theorem edit_leaves_canonical s linear id s' :
  storage_ok s → linear < BLOCKS_PER_SUB_CHUNK → apply_runtime_update s linear id = Some (true, s') →
  NoDup (palette s') ∧
  (∀ v, v ∈ palette s' ↔ ∃ i, i < BLOCKS_PER_SUB_CHUNK ∧ cell_value s' i = Some v) ∧
  (∀ bits, bits ∈ SUPPORTED_BITS → (Z.of_nat (length (palette s')) ≤ 2 ^ Z.of_nat bits)%Z → bits_per_index s' ≤ bits).
Proof.
  intros Hok Hl Hup. destruct (update_spec s linear id Hok Hl) as (changed & s'' & Hup' & [Hok' _ _ _ Hed]).
  rewrite Hup in Hup'. injection Hup' as <- <-. apply canonical_facts; [done|].
  unfold is_edited. by destruct (Hed eq_refl) as [e ->].
Qed.

Lemma edit_leaves_canonical_witness :
  ∃ s', apply_runtime_update (uniform 7) 17 9 = Some (true, s') ∧
  NoDup (palette s') ∧
  (∀ v, v ∈ palette s' ↔ ∃ i, i < BLOCKS_PER_SUB_CHUNK ∧ cell_value s' i = Some v) ∧
  (∀ bits, bits ∈ SUPPORTED_BITS → (Z.of_nat (length (palette s')) ≤ 2 ^ Z.of_nat bits)%Z → bits_per_index s' ≤ bits).
Proof.
  pose proof BLOCKS_eq. assert (Hl : 17 < BLOCKS_PER_SUB_CHUNK) by lia.
  destruct (update_spec (uniform 7) 17 9 (uniform_ok 7) Hl) as (changed & s' & Hup & [_ _ Hch _ _]).
  assert (changed = true) as ->.
  { apply Hch. exists 17. split; [done|]. unfold write_cell. cbn [fst snd]. rewrite decide_True by done.
    rewrite cell_value_decoded by done. rewrite physical_index_read by done. done. }
  exists s'. split; [done|]. by apply (edit_leaves_canonical (uniform 7) 17 9 s' (uniform_ok 7) Hl).
Defined.

(** Applying the updates one at a time and applying them as one batch show the same cells. *)
Theorem batch_equals_single_updates s us :
  storage_ok s → Forall (λ u, fst u < BLOCKS_PER_SUB_CHUNK) us →
  ∃ s1 changed s2, apply_each s us = Some s1 ∧ apply_runtime_updates s us = Some (changed, s2) ∧
    ∀ i, i < BLOCKS_PER_SUB_CHUNK → cell_value s1 i = cell_value s2 i.
Proof.
  intros Hok Hus. destruct (apply_each_spec s us Hok Hus) as (s1 & H1 & _ & Hc1).
  destruct (batch_spec s us Hok Hus) as (changed & s2 & H2 & [_ Hc2 _ _ _]).
  exists s1, changed, s2. split_and!; [done|done|]. intros i Hi. by rewrite Hc1, Hc2.
Qed.

Lemma batch_equals_single_updates_witness :
  ∃ s1 changed s2, apply_each (uniform 7) [(5, 9%Z); (5, 8%Z)] = Some s1 ∧
    apply_runtime_updates (uniform 7) [(5, 9%Z); (5, 8%Z)] = Some (changed, s2) ∧
    ∀ i, i < BLOCKS_PER_SUB_CHUNK → cell_value s1 i = cell_value s2 i.
Proof.
  apply (batch_equals_single_updates (uniform 7)); [apply uniform_ok|].
  pose proof BLOCKS_eq. repeat constructor; simpl; lia.
Defined.

(** ** Views *)

(** The public word view never panics; it is a well-formed packing at the exposed width that
    decodes, cell for cell, to the storage's own palette indices, and asking again returns the same
    words from the cache without changing any cell. *)
Theorem words_view_faithful s :
  storage_ok s →
  ∃ ws s', words s = Some (ws, s') ∧ words_ok (bits_per_index s) ws ∧
    (∀ i, i < BLOCKS_PER_SUB_CHUNK → cell_value (storage_new (bits_per_index s) ws (palette s)) i = cell_value s i) ∧
    storage_ok s' ∧ (∀ i, cell_value s' i = cell_value s i) ∧ words s' = Some (ws, s').
Proof.
  intros Hok. destruct (words_spec s Hok) as (ws & s' & Hw & V). exists ws, s'. split_and!.
  - done.
  - apply (wv_words _ _ _ V).
  - intros i Hi. rewrite cell_value_decoded by done. rewrite physical_index_read by done. simpl.
    by rewrite (wv_read _ _ _ V).
  - apply (wv_ok _ _ _ V).
  - apply (wv_cells _ _ _ V).
  - apply (wv_again _ _ _ V).
Qed.

Lemma words_view_faithful_witness :
  ∃ ws s', words (edited_uniform 3) = Some (ws, s') ∧ words_ok (bits_per_index (edited_uniform 3)) ws ∧
    (∀ i, i < BLOCKS_PER_SUB_CHUNK →
       cell_value (storage_new (bits_per_index (edited_uniform 3)) ws (palette (edited_uniform 3))) i
       = cell_value (edited_uniform 3) i) ∧
    storage_ok s' ∧ (∀ i, cell_value s' i = cell_value (edited_uniform 3) i) ∧ words s' = Some (ws, s').
Proof. apply (words_view_faithful (edited_uniform 3)), edited_uniform_ok. Defined.

(** Equality of two edited storages compares exactly the palettes and the cells: the history of
    physical slots, widths and caches that led to them is invisible. *)
Theorem storage_eqb_history_free s1 s2 :
  storage_ok s1 → storage_ok s2 → is_edited s1 = true → is_edited s2 = true →
  ∃ b, storage_eqb s1 s2 = Some b ∧
    (b = true ↔ palette s1 = palette s2 ∧ ∀ i, i < BLOCKS_PER_SUB_CHUNK → cell_value s1 i = cell_value s2 i).
Proof. apply storage_eqb_canonical. Qed.

Lemma storage_eqb_history_free_witness :
  ∃ b, storage_eqb (edited_uniform 3) (edited_uniform 4) = Some b ∧
    (b = true ↔ palette (edited_uniform 3) = palette (edited_uniform 4) ∧
       ∀ i, i < BLOCKS_PER_SUB_CHUNK → cell_value (edited_uniform 3) i = cell_value (edited_uniform 4) i).
Proof. apply (storage_eqb_history_free (edited_uniform 3) (edited_uniform 4)); try done; apply edited_uniform_ok. Defined.

(** The bulk reads agree with the per-cell lookup for storage of any word count, the missing-word
    sentinels included: [palette_indices] lists every cell's index or [u32::MAX], and
    [column_palette_indices] the sixteen cells of a column as [u16]s or [u16::MAX]. *)
Theorem bulk_reads_agree s x z :
  raw_bits s ≤ 32 → x < 16 → z < 16 →
  palette_indices s =
    (λ i, match palette_index s i with Some k => Z.of_nat k | None => U32_MAX end) <$> seq 0 BLOCKS_PER_SUB_CHUNK ∧
  column_palette_indices s x z =
    Some ((λ y, index_or U16_MAX (2 ^ 16) (palette_index s (linear_index x y z))) <$> seq 0 SUB_CHUNK_SIDE).
Proof.
  intros Hb Hx Hz. pose proof BLOCKS_eq.
  assert (Hphys : raw_bits s ≠ 0 → ∀ i, i < BLOCKS_PER_SUB_CHUNK →
    physical_index s i = (λ w, read_slot w (raw_bits s) (i mod (32 / raw_bits s))) <$> raw_words s !! (i / (32 / raw_bits s))).
  { intros Hz0 i Hi. rewrite physical_index_read by done. unfold read_palette_index.
    destruct (Nat.eqb_spec (raw_bits s) 0); [done|]. by destruct (_ !! _). }
  assert (Hzero : raw_bits s = 0 → ∀ i, i < BLOCKS_PER_SUB_CHUNK → physical_index s i = Some 0).
  { intros Hz0 i Hi. rewrite physical_index_read by done. unfold read_palette_index. by rewrite Hz0. }
  assert (Hrep : ∀ (f : nat → Z) n, (∀ i, i < n → f i = 0%Z) → replicate n 0%Z = f <$> seq 0 n).
  { intros f n Hf. apply list_eq. intros k. destruct (decide (k < n)).
    - rewrite lookup_replicate_2, list_lookup_fmap, lookup_seq_lt by done. simpl. by rewrite Hf.
    - rewrite !lookup_ge_None_2; [done|rewrite length_fmap, length_seq|rewrite length_replicate]; lia. }
  split.
  - unfold palette_indices, palette_index. destruct (edits s) as [e|]; [done|].
    destruct (Nat.eqb_spec (raw_bits s) 0) as [Hz0|Hz0].
    + apply Hrep. intros i Hi. by rewrite Hzero.
    + rewrite unpack_chunks_spec by lia. apply list_fmap_ext. intros k i Hi. apply lookup_seq in Hi as [-> ?].
      simpl. rewrite Hphys by (done || lia). by destruct (_ !! _).
  - unfold column_palette_indices. rewrite decide_True by done. f_equal.
    assert (Hlin : ∀ y, y < 16 → linear_index x 0 z + y = linear_index x y z).
    { intros y Hy. rewrite !linear_index_eq by lia. lia. }
    assert (Hin : ∀ y, y < 16 → linear_index x y z < BLOCKS_PER_SUB_CHUNK).
    { intros y Hy. rewrite linear_index_eq by lia. lia. }
    unfold palette_index. destruct (edits s) as [e|].
    + apply list_fmap_ext. intros k y Hy. apply lookup_seq in Hy as [-> Hy]. simpl. by rewrite Hlin.
    + destruct (Nat.eqb_spec (raw_bits s) 0) as [Hz0|Hz0].
      * apply Hrep. intros y Hy. by rewrite (Hzero Hz0 _ (Hin y Hy)).
      * rewrite column_loop_spec by lia. apply list_eq. intros k. rewrite !list_lookup_fmap.
        destruct (decide (k < SUB_CHUNK_SIDE)) as [Hk|Hk].
        -- rewrite !lookup_seq_lt by done. simpl. rewrite Hlin by done. rewrite (Hphys Hz0 _ (Hin k Hk)).
           by destruct (_ !! _).
        -- rewrite !lookup_ge_None_2; [done|rewrite length_seq; lia..].
Qed.

Lemma bulk_reads_agree_witness :
  let s := storage_new 8 [1; 2; 3]%Z [] in
  palette_indices s =
    (λ i, match palette_index s i with Some k => Z.of_nat k | None => U32_MAX end) <$> seq 0 BLOCKS_PER_SUB_CHUNK ∧
  column_palette_indices s 1 2 =
    Some ((λ y, index_or U16_MAX (2 ^ 16) (palette_index s (linear_index 1 y 2))) <$> seq 0 SUB_CHUNK_SIDE).
Proof. apply (bulk_reads_agree (storage_new 8 [1; 2; 3]%Z []) 1 2); simpl; lia. Defined.

(** [contains_only] is exact on well-formed storage: it holds when and only when every cell of
    the section has the given runtime id. *)
Theorem contains_only_iff s id :
  storage_ok s → contains_only s id = true ↔ ∀ i, i < BLOCKS_PER_SUB_CHUNK → cell_value s i = Some id.
Proof. apply contains_only_spec. Qed.

Lemma contains_only_iff_witness :
  contains_only (edited_uniform 4) 4 = true ↔
  ∀ i, i < BLOCKS_PER_SUB_CHUNK → cell_value (edited_uniform 4) i = Some 4%Z.
Proof. apply (contains_only_iff (edited_uniform 4) 4), edited_uniform_ok. Defined.

(** ** Memory *)

(** The heap a storage retains, with whatever word cache it currently holds, is within the bound
    it is charged for, and that bound is within the module's constant maximum. *)
Theorem retained_heap_bounded usize_bytes s :
  0 < usize_bytes → storage_ok s →
  retained_heap_bytes usize_bytes s ≤ retained_heap_bytes_bound usize_bytes s ∧
  retained_heap_bytes_bound usize_bytes s ≤ MAX_RETAINED_HEAP_BYTES usize_bytes.
Proof.
  intros Hu Hok. pose proof (working_heap_le s Hok) as Hw. unfold retained_heap_bytes, retained_heap_bytes_bound, MAX_RETAINED_HEAP_BYTES.
  pose proof (bits_per_index_supported s Hok) as Hb. split.
  - apply Nat.add_le_mono_l. pose proof Hok as Hed. unfold storage_ok in Hed.
    destruct (edits s) as [e|] eqn:He; [|lia]. destruct (canonical_words e) as [w|] eqn:Hc; [|lia].
    destruct (ed_cache _ _ Hed w Hc) as [-> Hp]. destruct (canonical_pack_spec s Hok) as (w' & Hp' & [Hl _] & _).
    rewrite Hp in Hp'. injection Hp' as <-. by rewrite Hl.
  - apply Nat.add_le_mono; [done|]. destruct (edits s) as [e|]; [|lia]. destruct (direct e); [lia|].
    apply canonical_heap_bytes_mono; [done|]. by apply word_count_max, supported_bits_le.
Qed.

Lemma retained_heap_bounded_witness :
  retained_heap_bytes 8 (edited_uniform 4) ≤ retained_heap_bytes_bound 8 (edited_uniform 4) ∧
  retained_heap_bytes_bound 8 (edited_uniform 4) ≤ MAX_RETAINED_HEAP_BYTES 8.
Proof. apply (retained_heap_bounded 8 (edited_uniform 4)); [lia|apply edited_uniform_ok]. Defined.
