(* ===== verification/Bytes.v ===== *)
(** * Bytes and variable-length integers

    The primitives the decoders and encoders of [crates/world/src] share: little-endian fields,
    zigzag and base-128 integers of [nbt_tree.rs], UTF-8 validity (the test of
    [std::str::from_utf8]) and the unread suffix that stands for a cursor. Bytes and machine
    integers are [Z]. Also the sorted lists that [BTreeMap]s iterate over. *)
From stdpp Require Import base numbers list.
From Stdlib Require Import Sorted.
From S2P Require Import Prelude Packed.

(** ** Bytes *)

Definition is_byte (b : Z) : Prop := (0 ≤ b < 256)%Z.
Definition bytes := list Z.

(** [value as iW] of a [uW] bit pattern. *)
Definition to_signed (w : Z) (v : Z) : Z := if (v <? 2 ^ (w - 1))%Z then v else (v - 2 ^ w)%Z.
(** [value as uW]. *)
Definition to_unsigned (w : Z) (v : Z) : Z := (v mod 2 ^ w)%Z.

Definition i32_range (v : Z) : Prop := (- 2 ^ 31 ≤ v < 2 ^ 31)%Z.
Definition i64_range (v : Z) : Prop := (- 2 ^ 63 ≤ v < 2 ^ 63)%Z.

(** [to_le_bytes] of an [n]-byte integer, and [from_le_bytes] to its unsigned pattern. *)
Fixpoint le_bytes (n : nat) (v : Z) : bytes :=
  match n with 0 => [] | S n => (v mod 256)%Z :: le_bytes n (v / 256)%Z end.
Fixpoint le_value (l : bytes) : Z :=
  match l with [] => 0%Z | b :: l => (b + 256 * le_value l)%Z end.

(** ** UTF-8 *)

Definition in_range (lo hi b : Z) : bool := ((lo <=? b) && (b <=? hi))%Z.
Definition continuation (b : Z) : bool := in_range 128 191 b.

(** [std::str::from_utf8(..).is_ok()]. *)
Fixpoint utf8_valid (l : bytes) : bool :=
  match l with
  | [] => true
  | b0 :: l1 =>
      if (b0 <? 128)%Z then utf8_valid l1
      else if in_range 194 223 b0 then
        match l1 with b1 :: l2 => continuation b1 && utf8_valid l2 | _ => false end
      else if in_range 224 239 b0 then
        match l1 with
        | b1 :: b2 :: l3 =>
            in_range (if (b0 =? 224)%Z then 160 else 128) (if (b0 =? 237)%Z then 159 else 191) b1
            && continuation b2 && utf8_valid l3
        | _ => false
        end
      else if in_range 240 244 b0 then
        match l1 with
        | b1 :: b2 :: b3 :: l4 =>
            in_range (if (b0 =? 240)%Z then 144 else 128) (if (b0 =? 244)%Z then 143 else 191) b1
            && continuation b2 && continuation b3 && utf8_valid l4
        | _ => false
        end
      else false
  end.

(** ** Zigzag *)

(** [((value << 1) ^ (value >> 31)) as u32] and its 64-bit sibling. *)
Definition zigzag32 (value : Z) : Z := to_unsigned 32 (Z.lxor (Z.shiftl value 1) (Z.shiftr value 31)).
Definition zigzag64 (value : Z) : Z := to_unsigned 64 (Z.lxor (Z.shiftl value 1) (Z.shiftr value 63)).
(** [((value >> 1) as iW) ^ -((value & 1) as iW)]. *)
Definition unzigzag (value : Z) : Z := Z.lxor (Z.shiftr value 1) (- Z.land value 1).

(** ** Base-128 integers *)

(** [write_var_u64]: a [u64] has at most ten groups. *)
Fixpoint write_var (fuel : nat) (value : Z) : bytes :=
  match fuel with
  | 0 => []
  | S fuel =>
      let byte := Z.land value 127 in
      let value := Z.shiftr value 7 in
      if (value =? 0)%Z then [byte] else Z.lor byte 128 :: write_var fuel value
  end.
Definition write_var_u64 (value : Z) : bytes := write_var 10 value.

(** ** The cursor: [Cursor::take] and [Cursor::byte] on the unread suffix *)

Definition take_bytes (n : Z) (l : bytes) : option (bytes * bytes) :=
  if (n <=? Z.of_nat (length l))%Z then Some (take (Z.to_nat n) l, drop (Z.to_nat n) l) else None.

Definition read_byte (l : bytes) : option (Z * bytes) :=
  match l with [] => None | b :: l => Some (b, l) end.

(** [Cursor::var_u64]: [n] bytes may still be read, [index] have been. *)
Fixpoint var_u64_from (index n : nat) (value : Z) (l : bytes) : option (Z * bytes) :=
  match n with
  | 0 => None
  | S n =>
      '(byte, l) ← read_byte l;
      let value := Z.lor value (Z.shiftl (Z.land byte 127) (Z.of_nat (index * 7)) mod 2 ^ 64) in
      if (Z.land byte 128 =? 0)%Z then Some (value, l) else var_u64_from (S index) n value l
  end.
Definition var_u64 (max_bytes : nat) (l : bytes) : option (Z * bytes) := var_u64_from 0 max_bytes 0 l.

(** ** Laws *)

Lemma land_127 b : Z.land b 127 = (b mod 128)%Z.
Proof. change 127%Z with (Z.ones 7). by rewrite Z.land_ones. Qed.

Lemma land_1 b : Z.land b 1 = (b mod 2)%Z.
Proof. change 1%Z with (Z.ones 1). by rewrite Z.land_ones. Qed.

(** The continuation bit of a byte. *)
Lemma land_128 b : is_byte b → (Z.land b 128 =? 0)%Z = (b <? 128)%Z.
Proof.
  intros Hb. assert (Z.land b 128 = 128 * (b / 128))%Z as ->.
  { apply Z.bits_inj'. intros i Hi. rewrite Z.land_spec.
    change 128%Z with (2 ^ 7)%Z. rewrite Z.mul_comm, <-Z.shiftr_div_pow2, <-Z.shiftl_mul_pow2 by lia.
    rewrite Z.pow2_bits_eqb, Z.shiftl_spec by lia. destruct (Z.eqb_spec 7 i) as [<-|Hne].
    - rewrite Z.shiftr_spec by lia. apply andb_true_r.
    - rewrite andb_false_r. symmetry. destruct (decide (i < 7)%Z); [apply Z.testbit_neg_r; lia|].
      rewrite Z.shiftr_spec by lia. replace (i - 7 + 7)%Z with i by lia. apply (testbit_above 8); [|lia].
      unfold is_byte in Hb. lia. }
  destruct (Z.ltb_spec b 128).
  - rewrite Z.div_small by (unfold is_byte in Hb; lia). done.
  - apply Z.eqb_neq. assert (1 ≤ b / 128)%Z by (apply Z.div_le_lower_bound; lia). lia.
Qed.

Lemma lor_128 b : (0 ≤ b < 128)%Z → Z.lor b 128 = (128 + b)%Z.
Proof. intros Hb. rewrite Z.lor_comm. change 128%Z with (Z.shiftl 1 7). rewrite lor_shiftl_add by lia. done. Qed.

Lemma length_take_bytes n l a r : take_bytes n l = Some (a, r) → l = a ++ r ∧ length a = Z.to_nat n.
Proof.
  unfold take_bytes. destruct (Z.leb_spec n (Z.of_nat (length l))); [|done].
  intros [= <- <-]. split; [by rewrite take_drop|]. rewrite length_take. lia.
Qed.

Lemma take_bytes_app a r : take_bytes (Z.of_nat (length a)) (a ++ r) = Some (a, r).
Proof.
  unfold take_bytes. rewrite length_app. destruct (Z.leb_spec (Z.of_nat (length a)) (Z.of_nat (length a + length r))); [|lia].
  by rewrite Nat2Z.id, take_app_length, drop_app_length.
Qed.

Lemma write_var_nonempty fuel v : 0 < fuel → 1 ≤ length (write_var fuel v).
Proof. destruct fuel; [lia|]. simpl. by destruct (_ =? 0)%Z; simpl; lia. Qed.

Lemma write_var_bytes fuel v : Forall is_byte (write_var fuel v).
Proof.
  revert v. induction fuel as [|fuel IH]; intros v; simpl; [constructor|].
  pose proof (Z.mod_pos_bound v 128). rewrite land_127.
  destruct (_ =? 0)%Z; constructor; try done; [unfold is_byte; lia|].
  rewrite lor_128 by lia. unfold is_byte. lia.
Qed.

Lemma zigzag_value w v :
  (0 < w)%Z → (- 2 ^ (w - 1) ≤ v < 2 ^ (w - 1))%Z →
  to_unsigned w (Z.lxor (Z.shiftl v 1) (Z.shiftr v (w - 1))) = if (0 <=? v)%Z then (2 * v)%Z else (- 2 * v - 1)%Z.
Proof.
  intros Hw Hv. unfold to_unsigned. rewrite Z.shiftl_mul_pow2, Z.shiftr_div_pow2 by lia.
  assert (Hp : (2 ^ w = 2 * 2 ^ (w - 1))%Z) by (rewrite <-Z.pow_succ_r by lia; f_equal; lia).
  destruct (Z.leb_spec 0 v).
  - rewrite (Z.div_small v) by lia. rewrite Z.lxor_0_r, Z.mod_small by lia. lia.
  - assert (v / 2 ^ (w - 1) = -1)%Z as ->.
    { symmetry. apply (Z.div_unique _ _ _ (v + 2 ^ (w - 1))); lia. }
    rewrite Z.lxor_m1_r. rewrite <-Z.opp_lnot || unfold Z.lnot.
    rewrite Z.mod_small by lia. lia.
Qed.

Lemma unzigzag_value v : unzigzag v = if (v mod 2 =? 0)%Z then (v / 2)%Z else (- (v / 2) - 1)%Z.
Proof.
  unfold unzigzag. rewrite land_1, Z.shiftr_div_pow2 by lia. change (2 ^ 1)%Z with 2%Z.
  pose proof (Z.mod_pos_bound v 2). destruct (Z.eqb_spec (v mod 2) 0) as [->|].
  - by rewrite Z.lxor_0_r.
  - assert (v mod 2 = 1)%Z as -> by lia. change (- (1))%Z with (-1)%Z. rewrite Z.lxor_m1_r. unfold Z.lnot. lia.
Qed.

Lemma unzigzag_zigzag w v :
  (0 < w)%Z → (- 2 ^ (w - 1) ≤ v < 2 ^ (w - 1))%Z →
  unzigzag (to_unsigned w (Z.lxor (Z.shiftl v 1) (Z.shiftr v (w - 1)))) = v.
Proof.
  intros Hw Hv. rewrite zigzag_value, unzigzag_value by done. destruct (Z.leb_spec 0 v).
  - rewrite Z.mul_comm, Z.mod_mul, Z.div_mul by lia. done.
  - replace (-2 * v - 1)%Z with (1 + (- v - 1) * 2)%Z by lia.
    rewrite Z.mod_add, Z.div_add by lia. simpl. change (1 / 2)%Z with 0%Z. lia.
Qed.

Lemma zigzag32_range v : (0 ≤ zigzag32 v < 2 ^ 32)%Z.
Proof. unfold zigzag32, to_unsigned. apply Z.mod_pos_bound. lia. Qed.
Lemma zigzag64_range v : (0 ≤ zigzag64 v < 2 ^ 64)%Z.
Proof. unfold zigzag64, to_unsigned. apply Z.mod_pos_bound. lia. Qed.

Lemma unzigzag_32 v : i32_range v → unzigzag (zigzag32 v) = v.
Proof. apply (unzigzag_zigzag 32). done. Qed.
Lemma unzigzag_64 v : i64_range v → unzigzag (zigzag64 v) = v.
Proof. apply (unzigzag_zigzag 64). done. Qed.

Lemma unzigzag_range w v : (0 < w)%Z → (0 ≤ v < 2 ^ w)%Z → (- 2 ^ (w - 1) ≤ unzigzag v < 2 ^ (w - 1))%Z.
Proof.
  intros Hw Hv. assert (Hp : (2 ^ w = 2 * 2 ^ (w - 1))%Z) by (rewrite <-Z.pow_succ_r by lia; f_equal; lia).
  rewrite unzigzag_value. pose proof (Z.div_mod v 2). pose proof (Z.mod_pos_bound v 2).
  destruct (Z.eqb_spec (v mod 2) 0); lia.
Qed.

(** One more group: the shifted bits do not overlap those already read. *)
Lemma lor_group value m k :
  (0 ≤ k)%Z → (0 ≤ value < 2 ^ k)%Z → (0 ≤ m)%Z → (m * 2 ^ k < 2 ^ 64)%Z →
  Z.lor value (Z.shiftl m k mod 2 ^ 64) = (value + m * 2 ^ k)%Z.
Proof.
  intros Hk Hv Hm Hlt. rewrite Z.mod_small.
  - rewrite Z.lor_comm, lor_shiftl_add by done. lia.
  - rewrite Z.shiftl_mul_pow2 by done. nia.
Qed.

(** Reading back a written base-128 integer. *)
Lemma var_u64_from_write fuel index n value v rest :
  (0 ≤ value < 2 ^ Z.of_nat (index * 7))%Z → (0 ≤ v < 2 ^ Z.of_nat (fuel * 7))%Z → 0 < fuel ≤ n →
  (value + v * 2 ^ Z.of_nat (index * 7) < 2 ^ 64)%Z →
  var_u64_from index n value (write_var fuel v ++ rest)
  = Some ((value + v * 2 ^ Z.of_nat (index * 7))%Z, rest).
Proof.
  revert index n value v. induction fuel as [|fuel IH]; intros index n value v Hval Hv Hn Hmax; [lia|].
  destruct n as [|n]; [lia|]. cbn [write_var var_u64_from].
  rewrite land_127, Z.shiftr_div_pow2 by lia. change (2 ^ 7)%Z with 128%Z.
  pose proof (Z.mod_pos_bound v 128 ltac:(lia)) as Hm. pose proof (Z.div_mod v 128 ltac:(lia)) as Hdm.
  set (p := (2 ^ Z.of_nat (index * 7))%Z) in *. assert (0 < p)%Z by (apply Z.pow_pos_nonneg; lia).
  assert (0 ≤ v / 128)%Z by (apply Z.div_pos; lia).
  assert (Hsmall : (0 ≤ v mod 128 * p < 2 ^ 64)%Z) by nia.
  destruct (Z.eqb_spec (v / 128) 0) as [Hz|Hz]; cbn [app read_byte mbind option_bind].
  - rewrite land_128 by (unfold is_byte; lia). rewrite land_127.
    rewrite (Z.mod_small (v mod 128)) by lia.
    rewrite lor_group by (done || lia || (fold p; lia)). fold p.
    destruct (Z.ltb_spec (v mod 128) 128); [|lia]. do 2 f_equal. rewrite Hdm at 2. rewrite Hz. lia.
  - rewrite lor_128 by lia. rewrite land_128 by (unfold is_byte; lia). rewrite land_127.
    replace (128 + v mod 128)%Z with (v mod 128 + 1 * 128)%Z by lia. rewrite Z.mod_add by lia.
    rewrite (Z.mod_small (v mod 128)) by lia.
    destruct (Z.ltb_spec (v mod 128 + 1 * 128) 128); [lia|].
    rewrite lor_group by (done || lia || (fold p; lia)). fold p.
    assert (Hp' : (2 ^ Z.of_nat (S index * 7) = 128 * p)%Z).
    { unfold p. change 128%Z with (2 ^ 7)%Z. rewrite <-Z.pow_add_r by lia. f_equal. lia. }
    assert (Hf' : (2 ^ Z.of_nat (S fuel * 7) = 128 * 2 ^ Z.of_nat (fuel * 7))%Z).
    { change 128%Z with (2 ^ 7)%Z. rewrite <-Z.pow_add_r by lia. f_equal. lia. }
    assert (Hvf : (v / 128 < 2 ^ Z.of_nat (fuel * 7))%Z) by (apply Z.div_lt_upper_bound; lia).
    assert (0 < fuel) by (destruct fuel; [simpl in Hvf; lia|lia]).
    assert (Hsum : (value + v mod 128 * p + v / 128 * (128 * p) = value + v * p)%Z) by nia.
    rewrite IH; rewrite ?Hp'; [|nia|lia|lia|nia].
    do 2 f_equal. nia.
Qed.

Lemma write_var_extend fuel fuel' v :
  (0 ≤ v < 2 ^ Z.of_nat (fuel * 7))%Z → 0 < fuel ≤ fuel' → write_var fuel' v = write_var fuel v.
Proof.
  revert fuel' v. induction fuel as [|fuel IH]; intros [|fuel'] v Hv Hf; try lia. cbn [write_var].
  rewrite Z.shiftr_div_pow2 by lia. change (2 ^ 7)%Z with 128%Z.
  destruct (Z.eqb_spec (v / 128) 0); [done|]. f_equal.
  assert (Hf' : (2 ^ Z.of_nat (S fuel * 7) = 128 * 2 ^ Z.of_nat (fuel * 7))%Z).
  { change 128%Z with (2 ^ 7)%Z. rewrite <-Z.pow_add_r by lia. f_equal. lia. }
  assert (0 ≤ v / 128 < 2 ^ Z.of_nat (fuel * 7))%Z.
  { split; [apply Z.div_pos; lia|apply Z.div_lt_upper_bound; lia]. }
  apply IH; [done|]. destruct fuel; [simpl in *; lia|lia].
Qed.

Lemma var_u64_write_5 v rest : (0 ≤ v < 2 ^ 35)%Z → var_u64 5 (write_var_u64 v ++ rest) = Some (v, rest).
Proof.
  intros Hv. unfold var_u64, write_var_u64. rewrite (write_var_extend 5) by (done || lia).
  rewrite var_u64_from_write; [|simpl; lia|done|lia|simpl; lia].
  f_equal. f_equal. simpl. lia.
Qed.

Lemma var_u64_write_10 v rest : (0 ≤ v < 2 ^ 64)%Z → var_u64 10 (write_var_u64 v ++ rest) = Some (v, rest).
Proof.
  intros Hv. unfold var_u64, write_var_u64.
  rewrite var_u64_from_write; [|simpl; lia|simpl; lia|lia|simpl; lia].
  f_equal. f_equal. simpl. lia.
Qed.

(** Little-endian fields. *)
Lemma length_le_bytes n v : length (le_bytes n v) = n.
Proof. revert v. induction n; intros v; simpl; auto. Qed.

Lemma le_value_bytes n v : (0 ≤ v < 2 ^ (8 * Z.of_nat n))%Z → le_value (le_bytes n v) = v.
Proof.
  revert v. induction n as [|n IH]; intros v Hv; [simpl in *; lia|]. cbn [le_bytes le_value].
  rewrite IH.
  - pose proof (Z.div_mod v 256). lia.
  - split; [apply Z.div_pos; lia|]. apply Z.div_lt_upper_bound; [lia|].
    change 256%Z with (2 ^ 8)%Z. rewrite <-Z.pow_add_r by lia. replace (8 + 8 * Z.of_nat n)%Z with (8 * Z.of_nat (S n))%Z by lia. lia.
Qed.

Lemma to_signed_unsigned w v :
  (0 < w)%Z → (- 2 ^ (w - 1) ≤ v < 2 ^ (w - 1))%Z → to_signed w (to_unsigned w v) = v.
Proof.
  intros Hw Hv. assert (Hp : (2 ^ w = 2 * 2 ^ (w - 1))%Z) by (rewrite <-Z.pow_succ_r by lia; f_equal; lia).
  unfold to_signed, to_unsigned. destruct (decide (0 ≤ v)%Z).
  - rewrite Z.mod_small by lia. destruct (Z.ltb_spec v (2 ^ (w - 1))); lia.
  - replace (v mod 2 ^ w)%Z with (v + 2 ^ w)%Z by (apply (Z.mod_unique _ _ (-1)); lia).
    destruct (Z.ltb_spec (v + 2 ^ w) (2 ^ (w - 1))); lia.
Qed.

(** Readers return a strict suffix. *)
Lemma var_u64_from_suffix index n value l v r :
  var_u64_from index n value l = Some (v, r) → ∃ p, l = p ++ r ∧ 1 ≤ length p.
Proof.
  revert index value l. induction n as [|n IH]; intros index value l; simpl; [done|].
  destruct l as [|b l]; simpl; [done|]. destruct (_ =? 0)%Z.
  - intros [= _ <-]. by exists [b].
  - intros (p & -> & ?)%IH. exists (b :: p). simpl. split; [done|lia].
Qed.

(** ** Ordered maps

    [BTreeMap] as a strictly sorted association list: insertion replaces an equal key, iteration is
    in key order. The order is a class, with instances for the two key types the code uses. *)

(** ** [Ord] *)

Class Ord (K : Type) := ord_cmp : K → K → comparison.
Class OrdLaws (K : Type) `{Ord K} := {
  cmp_eq a b : ord_cmp a b = Eq ↔ a = b;
  cmp_flip a b : ord_cmp b a = CompOpp (ord_cmp a b);
  cmp_trans a b c : ord_cmp a b = Lt → ord_cmp b c = Lt → ord_cmp a c = Lt;
}.

(** [str] and [[u8]]: lexicographic on bytes. *)
Fixpoint bytes_cmp (a b : bytes) : comparison :=
  match a, b with
  | [], [] => Eq
  | [], _ => Lt
  | _, [] => Gt
  | x :: a, y :: b => match Z.compare x y with Eq => bytes_cmp a b | c => c end
  end.
#[export] Instance bytes_ord : Ord bytes := bytes_cmp.

#[export] Instance bytes_ord_laws : OrdLaws bytes.
Proof.
  split; unfold ord_cmp, bytes_ord.
  - induction a as [|x a IH]; intros [|y b]; simpl; try done.
    destruct (Z.compare_spec x y) as [->|?|?]; [rewrite IH| |]; split; try done.
    + by intros ->.
    + by intros [= ->].
    + intros [= -> ->]. lia.
    + intros [= -> ->]. lia.
  - induction a as [|x a IH]; intros [|y b]; simpl; try done.
    rewrite (Z.compare_antisym x y). destruct (Z.compare x y); simpl; auto.
  - induction a as [|x a IH]; intros [|y b] [|z c]; simpl; try done.
    destruct (Z.compare_spec x y), (Z.compare_spec y z); subst; try done; intros H1 H2.
    + rewrite Z.compare_refl. eauto.
    + by rewrite (proj2 (Z.compare_lt_iff _ _)).
    + by rewrite (proj2 (Z.compare_lt_iff _ _)).
    + rewrite (proj2 (Z.compare_lt_iff _ _)) by lia. done.
Qed.

(** [i32] *)
#[export] Instance Z_ord : Ord Z := Z.compare.

#[export] Instance Z_ord_laws : OrdLaws Z.
Proof.
  split; unfold ord_cmp, Z_ord.
  - apply Z.compare_eq_iff.
  - intros a b. apply Z.compare_antisym.
  - intros a b c. rewrite !Z.compare_lt_iff. lia.
Qed.

(** ** The map *)

Section btree.
Context {K V : Type} `{OrdLaws K}.
Implicit Types (m : list (K * V)) (k : K) (v : V).

Fixpoint bt_insert k v m : list (K * V) :=
  match m with
  | [] => [(k, v)]
  | (k', v') :: m' =>
      match ord_cmp k k' with
      | Lt => (k, v) :: m
      | Eq => (k, v) :: m'
      | Gt => (k', v') :: bt_insert k v m'
      end
  end.

Fixpoint bt_get k m : option V :=
  match m with
  | [] => None
  | (k', v') :: m => match ord_cmp k k' with Eq => Some v' | _ => bt_get k m end
  end.

Definition key_lt (a b : K * V) : Prop := ord_cmp (fst a) (fst b) = Lt.
Definition bt_sorted m : Prop := StronglySorted key_lt m.

Lemma cmp_refl k : ord_cmp k k = Eq.
Proof using Type*. by apply cmp_eq. Qed.

Lemma cmp_gt k k' : ord_cmp k k' = Gt ↔ ord_cmp k' k = Lt.
Proof using Type*. rewrite (cmp_flip k k'). by destruct (ord_cmp k k'). Qed.

Lemma bt_get_insert k v k' m :
  bt_get k' (bt_insert k v m) = match ord_cmp k' k with Eq => Some v | _ => bt_get k' m end.
Proof using Type*.
  induction m as [|[k1 v1] m IH]; simpl; [by destruct (ord_cmp k' k)|].
  destruct (ord_cmp k k1) eqn:E; simpl; [|done|].
  - apply cmp_eq in E as ->. by destruct (ord_cmp k' k1).
  - rewrite IH. destruct (ord_cmp k' k1) eqn:E1; [|done|done].
    apply cmp_eq in E1 as ->. destruct (ord_cmp k1 k) eqn:E2; [|done|done].
    apply cmp_eq in E2 as ->. rewrite cmp_refl in E. done.
Qed.

Lemma bt_insert_bound k v m a : key_lt a (k, v) → Forall (key_lt a) m → Forall (key_lt a) (bt_insert k v m).
Proof using Type*.
  intros Ha. induction m as [|[k1 v1] m IH]; simpl; intros Hf; [by repeat constructor|].
  apply Forall_cons in Hf as [H1 H2]. destruct (ord_cmp k k1) eqn:E; repeat constructor; auto.
Qed.

Lemma bt_insert_sorted k v m : bt_sorted m → bt_sorted (bt_insert k v m).
Proof using Type*.
  unfold bt_sorted. induction m as [|[k1 v1] m IH]; simpl; intros Hs; [repeat constructor|].
  apply StronglySorted_inv in Hs as [Hs Hf]. destruct (ord_cmp k k1) eqn:E.
  - apply cmp_eq in E as ->. constructor; [done|]. eapply Forall_impl; [done|]. by intros [].
  - constructor; [by constructor|]. constructor; [done|].
    eapply Forall_impl; [done|]. intros [k2 v2]. unfold key_lt. simpl. by apply cmp_trans.
  - constructor; [by apply IH|]. apply bt_insert_bound; [by apply cmp_gt|done].
Qed.

(** Inserting past the last key appends. *)
Lemma bt_insert_last k v m : Forall (λ e, ord_cmp (fst e) k = Lt) m → bt_insert k v m = m ++ [(k, v)].
Proof using Type*.
  induction m as [|[k1 v1] m IH]; simpl; intros Hf; [done|].
  apply Forall_cons in Hf as [H1 H2]. simpl in H1. apply cmp_gt in H1 as ->. by rewrite IH.
Qed.

Lemma bt_sorted_app m1 e m2 : bt_sorted (m1 ++ e :: m2) → Forall (λ a, key_lt a e) m1.
Proof using Type*.
  unfold bt_sorted. induction m1 as [|a m1 IH]; simpl; intros Hs; [constructor|].
  apply StronglySorted_inv in Hs as [Hs Hf]. constructor; [|by apply IH].
  apply Forall_app in Hf as [_ Hf]. by apply Forall_cons in Hf as [? _].
Qed.

Lemma bt_get_elem k v m : bt_get k m = Some v → (k, v) ∈ m.
Proof using Type*.
  induction m as [|[k1 v1] m IH]; simpl; [done|]. destruct (ord_cmp k k1) eqn:E.
  - apply cmp_eq in E as ->. intros [= ->]. by left.
  - intros ?. right. auto.
  - intros ?. right. auto.
Qed.

Lemma bt_get_lookup k v m : bt_sorted m → (k, v) ∈ m → bt_get k m = Some v.
Proof using Type*.
  unfold bt_sorted. induction m as [|[k1 v1] m IH]; simpl; intros Hs Hin; [by apply elem_of_nil in Hin|].
  apply StronglySorted_inv in Hs as [Hs Hf]. apply elem_of_cons in Hin as [[= -> ->]|Hin].
  - by rewrite cmp_refl.
  - rewrite Forall_forall in Hf. specialize (Hf _ Hin). unfold key_lt in Hf. simpl in Hf.
    apply cmp_gt in Hf. rewrite Hf. by apply IH.
Qed.

Lemma bt_insert_elem k v m e : e ∈ bt_insert k v m → e = (k, v) ∨ e ∈ m.
Proof using Type*.
  induction m as [|[k1 v1] m IH]; simpl.
  - intros ->%list_elem_of_singleton. by left.
  - destruct (ord_cmp k k1); rewrite !elem_of_cons; tauto.
Qed.
End btree.
