(* ===== verification/NbtTree.v ===== *)
(** * The owned NBT tree

    [crates/world/src/nbt_tree.rs]: the tree, its typed accessors, the encoder [encode_root] and the
    parser [BlockEntityNbt::parse]. Strings are their UTF-8 bytes, floats their bit patterns, the
    cursor the unread suffix of the input. *)
From stdpp Require Import base numbers list.
From S2P Require Import Prelude Packed Bytes.

(** ** Data *)

Definition MAX_NBT_DEPTH : nat := 64.

Inductive NbtValue :=
  | NByte (v : Z)
  | NShort (v : Z)
  | NInt (v : Z)
  | NLong (v : Z)
  | NFloat (bits : Z)
  | NDouble (bits : Z)
  | NByteArray (l : bytes)
  | NString (s : bytes)
  | NList (items : list NbtValue)
  | NCompound (entries : list (bytes * NbtValue))
  | NIntArray (l : list Z)
  | NLongArray (l : list Z).

Definition NbtCompound := list (bytes * NbtValue).

(** ** Accessors *)

Module Compound.

Definition get (c : NbtCompound) (key : bytes) : option NbtValue := bt_get key c.

Definition integer (c : NbtCompound) (key : bytes) : option Z :=
  v ← get c key;
  match v with NByte v | NShort v | NInt v | NLong v => Some v | _ => None end.

Definition boolean (c : NbtCompound) (key : bytes) : option bool :=
  (λ v, negb (v =? 0)%Z) <$> integer c key.

Definition string (c : NbtCompound) (key : bytes) : option bytes :=
  v ← get c key; match v with NString s => Some s | _ => None end.

Definition compound (c : NbtCompound) (key : bytes) : option NbtCompound :=
  v ← get c key; match v with NCompound c => Some c | _ => None end.

Definition list (c : NbtCompound) (key : bytes) : option (Datatypes.list NbtValue) :=
  v ← get c key; match v with NList l => Some l | _ => None end.

Definition insert (c : NbtCompound) (key : bytes) (v : NbtValue) : NbtCompound := bt_insert key v c.
End Compound.

Definition tag (v : NbtValue) : Z :=
  match v with
  | NByte _ => 1 | NShort _ => 2 | NInt _ => 3 | NLong _ => 4 | NFloat _ => 5 | NDouble _ => 6
  | NByteArray _ => 7 | NString _ => 8 | NList _ => 9 | NCompound _ => 10
  | NIntArray _ => 11 | NLongArray _ => 12
  end.

(** ** Encoding *)

(** The two [&'static str] errors. *)
Inductive EncodeError := DepthBound | MixedListTags.

(** [items.iter().try_for_each]. *)
Fixpoint try_for_each {E A} (f : A → result E unit) (l : list A) : result E unit :=
  match l with [] => Ok () | x :: l => match f x with Ok _ => try_for_each f l | Err e => Err e end end.

Definition is_container (v : NbtValue) : bool :=
  match v with NList _ | NCompound _ => true | _ => false end.

Fixpoint validate_encoding (v : NbtValue) (depth : nat) {struct v} : result EncodeError unit :=
  if (MAX_NBT_DEPTH <? depth) || (is_container v && (MAX_NBT_DEPTH <=? depth)) then Err DepthBound
  else
    match v with
    | NList items =>
        if match items with
           | first :: _ => existsb (λ item, negb (tag item =? tag first)%Z) items
           | [] => false
           end
        then Err MixedListTags
        else try_for_each (λ item, validate_encoding item (S depth)) items
    | NCompound entries => try_for_each (λ e, validate_encoding (snd e) (S depth)) entries
    | _ => Ok ()
    end.

(** [len as i32] through the zigzag writer. *)
Definition write_length (n : nat) : bytes := write_var_u64 (zigzag32 (to_signed 32 (to_unsigned 32 (Z.of_nat n)))).

Definition write_string (s : bytes) : bytes := write_var_u64 (Z.of_nat (length s)) ++ s.

Fixpoint write_payload (v : NbtValue) : bytes :=
  match v with
  | NByte v => [to_unsigned 8 v]
  | NShort v => le_bytes 2 (to_unsigned 16 v)
  | NInt v => write_var_u64 (zigzag32 v)
  | NLong v => write_var_u64 (zigzag64 v)
  | NFloat b => le_bytes 4 b
  | NDouble b => le_bytes 8 b
  | NByteArray l => write_length (length l) ++ l
  | NString s => write_string s
  | NList items =>
      [match items with first :: _ => tag first | [] => 0%Z end] ++ write_length (length items)
        ++ flat_map write_payload items
  | NCompound entries =>
      flat_map (λ e, [tag (snd e)] ++ write_string (fst e) ++ write_payload (snd e)) entries ++ [0%Z]
  | NIntArray l => write_length (length l) ++ flat_map (λ i, write_var_u64 (zigzag32 i)) l
  | NLongArray l => write_length (length l) ++ flat_map (λ i, write_var_u64 (zigzag64 i)) l
  end.

Definition encode_root (c : NbtCompound) : result EncodeError bytes :=
  match try_for_each (λ e, validate_encoding (snd e) 1) c with
  | Err e => Err e
  | Ok _ => Ok ([10%Z] ++ write_string [] ++ write_payload (NCompound c))
  end.

(** ** Parsing *)

Definition Parser (A : Type) := bytes → option (A * bytes).

Definition zigzag_i32 : Parser Z := λ l,
  '(value, l) ← var_u64 5 l; Some (unzigzag (to_unsigned 32 value), l).
Definition zigzag_i64 : Parser Z := λ l,
  '(value, l) ← var_u64 10 l; Some (unzigzag value, l).

Definition read_length : Parser Z := λ l,
  '(v, l) ← zigzag_i32 l; if (v <? 0)%Z then None else Some (v, l).

Definition read_string : Parser bytes := λ l,
  '(n, l) ← var_u64 5 l; '(s, l) ← take_bytes n l; if utf8_valid s then Some (s, l) else None.

(** An [n]-byte little-endian field, unsigned. *)
Definition read_le (n : Z) : Parser Z := λ l, '(b, l) ← take_bytes n l; Some (le_value b, l).

(** [for _ in 0..n] collecting into a vector. *)
Fixpoint items_loop {A} (item : Parser A) (n : nat) : Parser (list A) := λ l,
  match n with
  | 0 => Some ([], l)
  | S n => '(x, l) ← item l; '(xs, l) ← items_loop item n l; Some (x :: xs, l)
  end.

(** One turn of the entry loop of [Cursor::compound]: [inr] leaves with the result. *)
Definition compound_step (value : Z → Parser NbtValue) (st : NbtCompound * bytes)
    : (NbtCompound * bytes) + option (NbtCompound * bytes) :=
  let '(entries, l) := st in
  match read_byte l with
  | None => inr None
  | Some (tag, l) =>
      if (tag =? 0)%Z then inr (Some (entries, l))
      else
        match ('(name, l) ← read_string l; '(v, l) ← value tag l; Some (name, v, l)) with
        | None => inr None
        | Some (name, v, l) => inl (bt_insert name v entries, l)
        end
  end.

(** Every turn reads a byte: one more turn than there are bytes is enough. *)
Definition compound_loop (value : Z → Parser NbtValue) : Parser NbtCompound := λ l,
  run None (compound_step value) (S (length l)) ([], l).

Section parse.
(** [self.input.len()]. *)
Context (input_len : Z).

(** [Cursor::value]: [room] is [MAX_NBT_DEPTH - depth]. *)
Fixpoint value (room : nat) (tag : Z) (l : bytes) {struct room} : option (NbtValue * bytes) :=
  match tag with
  | 1%Z => '(b, l) ← read_byte l; Some (NByte (to_signed 8 b), l)
  | 2%Z => '(v, l) ← read_le 2 l; Some (NShort (to_signed 16 v), l)
  | 3%Z => '(v, l) ← zigzag_i32 l; Some (NInt v, l)
  | 4%Z => '(v, l) ← zigzag_i64 l; Some (NLong v, l)
  | 5%Z => '(v, l) ← read_le 4 l; Some (NFloat v, l)
  | 6%Z => '(v, l) ← read_le 8 l; Some (NDouble v, l)
  | 7%Z => '(n, l) ← read_length l; '(b, l) ← take_bytes n l; Some (NByteArray b, l)
  | 8%Z => '(s, l) ← read_string l; Some (NString s, l)
  | 9%Z =>
      '(element, l) ← read_byte l;
      '(n, l) ← read_length l;
      match room with
      | 0 => None
      | S room =>
          if (input_len <? n)%Z then None
          else '(items, l) ← items_loop (value room element) (Z.to_nat n) l; Some (NList items, l)
      end
  | 10%Z =>
      match room with
      | 0 => None
      | S room => '(c, l) ← compound_loop (value room) l; Some (NCompound c, l)
      end
  | 11%Z =>
      '(n, l) ← read_length l;
      if (input_len <? n)%Z then None
      else '(items, l) ← items_loop zigzag_i32 (Z.to_nat n) l; Some (NIntArray items, l)
  | 12%Z =>
      '(n, l) ← read_length l;
      if (input_len <? n)%Z then None
      else '(items, l) ← items_loop zigzag_i64 (Z.to_nat n) l; Some (NLongArray items, l)
  | _ => None
  end.
End parse.

(** [BlockEntityNbt::parse]. *)
Definition parse (input : bytes) : option NbtCompound :=
  '(root, l) ← read_byte input;
  if negb (root =? 10)%Z then None
  else
    '(_, l) ← read_string l;
    '(c, _) ← compound_loop (value (Z.of_nat (length input)) MAX_NBT_DEPTH) l;
    Some c.

(** ** The trees Rust can hold *)

Definition in_bits (lo hi v : Z) : bool := ((lo <=? v) && (v <? hi))%Z.
Definition is_byteb (b : Z) : bool := in_bits 0 256 b.
Definition is_i32b (v : Z) : bool := in_bits (- 2 ^ 31) (2 ^ 31) v.
Definition is_i64b (v : Z) : bool := in_bits (- 2 ^ 63) (2 ^ 63) v.

(** A valid [str] of less than [2^35] bytes. *)
Definition str_ok (s : bytes) : bool :=
  utf8_valid s && (Z.of_nat (length s) <? 2 ^ 35)%Z.

Definition lt_bytes (a b : bytes) : bool := match bytes_cmp a b with Lt => true | _ => false end.
Fixpoint sorted_keys (c : NbtCompound) : bool :=
  match c with
  | [] => true
  | (k, _) :: c' => forallb (λ e, lt_bytes k (fst e)) c' && sorted_keys c'
  end.

(** Every machine integer in its range, every collection's length an [i32], every string UTF-8 and
    every compound a map. *)
Fixpoint value_ok (v : NbtValue) : bool :=
  match v with
  | NByte v => in_bits (- 2 ^ 7) (2 ^ 7) v
  | NShort v => in_bits (- 2 ^ 15) (2 ^ 15) v
  | NInt v => is_i32b v
  | NLong v => is_i64b v
  | NFloat b => in_bits 0 (2 ^ 32) b
  | NDouble b => in_bits 0 (2 ^ 64) b
  | NByteArray l => (Z.of_nat (length l) <? 2 ^ 31)%Z
  | NString s => str_ok s
  | NList items => (Z.of_nat (length items) <? 2 ^ 31)%Z && forallb value_ok items
  | NCompound c => sorted_keys c && forallb (λ e, str_ok (fst e) && value_ok (snd e)) c
  | NIntArray l => (Z.of_nat (length l) <? 2 ^ 31)%Z && forallb is_i32b l
  | NLongArray l => (Z.of_nat (length l) <? 2 ^ 31)%Z && forallb is_i64b l
  end.
Definition compound_ok (c : NbtCompound) : bool := value_ok (NCompound c).
