(* ===== verification/NbtTreeSpec.v ===== *)
(** * The NBT tree: encoding and parsing

    Every tree the encoder accepts is parsed back to itself, and the parser's loops end before
    their fuel does. *)
From Stdlib Require Import Sorted.
From stdpp Require Import base numbers list.
From S2P Require Import Prelude Packed Bytes NbtTree.

(** ** Induction on trees *)

Section nbt_ind.
Variable P : NbtValue → Prop.
Hypothesis Hleaf : ∀ v, is_container v = false → P v.
Hypothesis Hlist : ∀ items, Forall P items → P (NList items).
Hypothesis Hcompound : ∀ entries, Forall (λ e, P (snd e)) entries → P (NCompound entries).

Fixpoint nbt_value_ind (v : NbtValue) : P v :=
  match v return P v with
  | NList items =>
      Hlist items ((fix go l : Forall P l :=
        match l with [] => List.Forall_nil _ | x :: l => List.Forall_cons _ _ _ (nbt_value_ind x) (go l) end) items)
  | NCompound entries =>
      Hcompound entries ((fix go l : Forall (λ e, P (snd e)) l :=
        match l with [] => List.Forall_nil _ | e :: l => List.Forall_cons _ _ _ (nbt_value_ind (snd e)) (go l) end) entries)
  | NByte b => Hleaf (NByte b) eq_refl
  | NShort b => Hleaf (NShort b) eq_refl
  | NInt b => Hleaf (NInt b) eq_refl
  | NLong b => Hleaf (NLong b) eq_refl
  | NFloat b => Hleaf (NFloat b) eq_refl
  | NDouble b => Hleaf (NDouble b) eq_refl
  | NByteArray b => Hleaf (NByteArray b) eq_refl
  | NString b => Hleaf (NString b) eq_refl
  | NIntArray b => Hleaf (NIntArray b) eq_refl
  | NLongArray b => Hleaf (NLongArray b) eq_refl
  end.
End nbt_ind.

(** ** Readers consume a prefix *)

Lemma in_bits_iff lo hi v : in_bits lo hi v = true ↔ (lo ≤ v < hi)%Z.
Proof. unfold in_bits. rewrite andb_true_iff. lia. Qed.

(** [p] is what the reader consumed. *)
Definition consumes {A} (m : Parser A) : Prop := ∀ l a r, m l = Some (a, r) → ∃ p, l = p ++ r.

(** Splits the binds of a successful parse in [H]. *)
Ltac parse_inv H :=
  repeat (simpl in H; match type of H with
  | (?m ≫= _) = Some _ => let E := fresh "E" in destruct m as [[? ?]|] eqn:E; [|discriminate H]
  | (if ?b then _ else _) = Some _ => let E := fresh "E" in destruct b eqn:E; try discriminate H
  | Some _ = Some _ => injection H as <- <-
  | None = Some _ => discriminate H
  end).

Lemma consumes_length {A} (m : Parser A) l a r : consumes m → m l = Some (a, r) → length r ≤ length l.
Proof. intros Hm (p & ->)%Hm. rewrite length_app. lia. Qed.

Lemma consumes_trans (l1 l2 l3 : bytes) : (∃ p, l1 = p ++ l2) → (∃ p, l2 = p ++ l3) → ∃ p, l1 = p ++ l3.
Proof. intros [p ->] [q ->]. exists (p ++ q). by rewrite app_assoc. Qed.

Lemma read_byte_consumes : consumes read_byte.
Proof. intros [|b l] a r; simpl; [done|]. intros [= <- <-]. by exists [b]. Qed.
Lemma take_bytes_consumes n : consumes (take_bytes n).
Proof. intros l a r [-> _]%length_take_bytes. by exists a. Qed.
Lemma var_u64_consumes n : consumes (var_u64 n).
Proof. intros l a r (p & -> & _)%var_u64_from_suffix. by exists p. Qed.

Create HintDb consumes.
#[export] Hint Resolve read_byte_consumes take_bytes_consumes var_u64_consumes : consumes.

(** Chains the suffixes of the reads recorded in the context. *)
Ltac chain :=
  match goal with
  | |- ∃ p, ?l = p ++ ?l => by exists []
  | E : ?m ?l0 = Some (_, ?r0) |- ∃ p, ?l0 = p ++ _ =>
      apply (consumes_trans l0 r0); [refine ((_ : consumes m) _ _ _ E); eauto with consumes|clear E; chain]
  end.
Ltac consumes_tac := let H := fresh in intros ? ? ? H; parse_inv H; chain.

Lemma zigzag_i32_consumes : consumes zigzag_i32.
Proof. unfold zigzag_i32. consumes_tac. Qed.
Lemma zigzag_i64_consumes : consumes zigzag_i64.
Proof. unfold zigzag_i64. consumes_tac. Qed.
#[export] Hint Resolve zigzag_i32_consumes zigzag_i64_consumes : consumes.
Lemma read_length_consumes : consumes read_length.
Proof. unfold read_length. consumes_tac. Qed.
Lemma read_string_consumes : consumes read_string.
Proof. unfold read_string. consumes_tac. Qed.
Lemma read_le_consumes n : consumes (read_le n).
Proof. unfold read_le. consumes_tac. Qed.
#[export] Hint Resolve read_length_consumes read_string_consumes read_le_consumes : consumes.

Lemma items_loop_consumes {A} (item : Parser A) n : consumes item → consumes (items_loop item n).
Proof.
  intros Hitem. induction n as [|n IH]; consumes_tac.
Qed.

Lemma compound_step_decr value :
  (∀ tag, consumes (value tag)) →
  ∀ st st', compound_step value st = inl st' → length (snd st') < length (snd st).
Proof.
  intros Hv [es l] st'. unfold compound_step. destruct l as [|t l]; [done|]. cbn [read_byte].
  destruct (t =? 0)%Z; [done|].
  destruct (read_string l) as [[name l1]|] eqn:E1; simpl; [|done].
  destruct (value t l1) as [[v l2]|] eqn:E2; simpl; [|done]. intros [= <-]. simpl.
  pose proof (consumes_length _ _ _ _ read_string_consumes E1). pose proof (consumes_length _ _ _ _ (Hv t) E2). lia.
Qed.

Lemma compound_loop_consumes value : (∀ tag, consumes (value tag)) → consumes (compound_loop value).
Proof.
  intros Hv l a r H. unfold compound_loop in H.
  pose proof (run_inv (compound_step value) (λ st, length (snd st)) (compound_step_decr value Hv)
    (λ st, ∃ p, l = p ++ snd st) (λ res, ∀ a r, res = Some (a, r) → ∃ p, l = p ++ r)
    None (S (length l)) ([], l)) as Hinv.
  eapply Hinv in H; [done| |simpl; lia|by exists []]. clear -Hv.
  intros [es l1] [p ->]. simpl. destruct l1 as [|t l1]; simpl; [done|].
  destruct (t =? 0)%Z.
  - intros a r [= <- <-]. exists (p ++ [t]). by rewrite <-app_assoc.
  - destruct (read_string l1) as [[name l2]|] eqn:E1; simpl; [|done].
    destruct (value t l2) as [[v l3]|] eqn:E2; simpl; [|done].
    apply read_string_consumes in E1 as [p1 ->]. apply Hv in E2 as [p2 ->].
    exists (p ++ t :: p1 ++ p2). rewrite <-!app_assoc. simpl. by rewrite <-app_assoc.
Qed.

#[export] Hint Resolve items_loop_consumes compound_loop_consumes : consumes.

Lemma value_consumes input_len room tag : consumes (value input_len room tag).
Proof.
  revert tag. induction room as [|room IH]; intros tag l a r H; cbn [value] in H;
    repeat case_match; try discriminate; parse_inv H; subst; chain.
Qed.

(** ** Reading back what was written *)

Lemma read_length_write n rest :
  (Z.of_nat n < 2 ^ 31)%Z → read_length (write_length n ++ rest) = Some (Z.of_nat n, rest).
Proof.
  intros Hn. unfold read_length, zigzag_i32, write_length.
  rewrite (to_signed_unsigned 32) by lia.
  pose proof (zigzag32_range (Z.of_nat n)). rewrite var_u64_write_5 by lia. simpl.
  unfold to_unsigned. rewrite (Z.mod_small (zigzag32 _)) by done.
  rewrite unzigzag_32 by (unfold i32_range; lia). destruct (Z.ltb_spec (Z.of_nat n) 0); [lia|done].
Qed.

Lemma zigzag_i32_write v rest : is_i32b v = true → zigzag_i32 (write_var_u64 (zigzag32 v) ++ rest) = Some (v, rest).
Proof.
  intros Hv%in_bits_iff. unfold zigzag_i32. pose proof (zigzag32_range v).
  rewrite var_u64_write_5 by lia. simpl. unfold to_unsigned. rewrite Z.mod_small by done.
  by rewrite unzigzag_32.
Qed.

Lemma zigzag_i64_write v rest : is_i64b v = true → zigzag_i64 (write_var_u64 (zigzag64 v) ++ rest) = Some (v, rest).
Proof.
  intros Hv%in_bits_iff. unfold zigzag_i64. pose proof (zigzag64_range v).
  rewrite var_u64_write_10 by lia. simpl. by rewrite unzigzag_64.
Qed.

Lemma read_string_write s rest : str_ok s = true → read_string (write_string s ++ rest) = Some (s, rest).
Proof.
  unfold str_ok. intros [Hu Hl]%andb_prop. apply Z.ltb_lt in Hl. unfold read_string, write_string.
  rewrite <-app_assoc, var_u64_write_5 by lia. simpl. rewrite take_bytes_app. simpl. by rewrite Hu.
Qed.

Lemma read_le_write n v rest :
  (0 ≤ v < 2 ^ (8 * Z.of_nat n))%Z → read_le (Z.of_nat n) (le_bytes n v ++ rest) = Some (v, rest).
Proof.
  intros Hv. unfold read_le. rewrite <-(length_le_bytes n v) at 1. rewrite take_bytes_app. simpl.
  by rewrite le_value_bytes.
Qed.

Lemma items_loop_write {A} (item : Parser A) (write : A → bytes) bound l rest :
  (∀ x rest, x ∈ l → length (write x ++ rest) ≤ bound → item (write x ++ rest) = Some (x, rest)) →
  length (flat_map write l ++ rest) ≤ bound →
  items_loop item (length l) (flat_map write l ++ rest) = Some (l, rest).
Proof.
  induction l as [|x l IH]; intros Hx Hb; simpl; [done|]. simpl in Hb. rewrite <-app_assoc in *.
  rewrite Hx by (done || by left). simpl. rewrite IH; [done| |].
  - intros y r Hy. apply Hx. by right.
  - rewrite !length_app in *. lia.
Qed.

Lemma compound_loop_write value (es : NbtCompound) rest bound :
  (∀ e rest, e ∈ es → str_ok (fst e) = true ∧ tag (snd e) ≠ 0%Z ∧ (length (write_payload (snd e) ++ rest) ≤ bound →
    value (tag (snd e)) (write_payload (snd e) ++ rest) = Some (snd e, rest))) →
  bt_sorted es → length (write_payload (NCompound es) ++ rest) ≤ bound →
  compound_loop value (write_payload (NCompound es) ++ rest) = Some (es, rest).
Proof.
  intros Hes Hs Hb. unfold compound_loop. cbn [write_payload] in *.
  set (w := λ e : bytes * NbtValue, [tag (snd e)] ++ write_string (fst e) ++ write_payload (snd e)) in *.
  assert (Hgen : ∀ es1 acc fuel, (∀ e, e ∈ es1 → e ∈ es) → bt_sorted (acc ++ es1) → length es1 < fuel →
    length ((flat_map w es1 ++ [0%Z]) ++ rest) ≤ bound →
    run None (compound_step value) fuel (acc, (flat_map w es1 ++ [0%Z]) ++ rest) = Some (acc ++ es1, rest)).
  { induction es1 as [|[k v] es1 IH]; intros acc fuel Hsub Hacc Hfuel Hbound; (destruct fuel as [|fuel]; [simpl in *; lia|]); simpl.
    - by rewrite app_nil_r.
    - destruct (Hes (k, v) ((flat_map w es1 ++ [0%Z]) ++ rest)) as (Hk & Ht & Hv); [apply Hsub; by left|].
      simpl in Hk, Ht, Hv. destruct (Z.eqb_spec (tag v) 0); [done|].
      simpl in Hbound. rewrite <-!app_assoc in *. rewrite read_string_write by done. simpl. cbn [app] in Hv, Hbound.
      rewrite Hv by (rewrite !length_app in *; simpl in *; rewrite ?length_app in *; lia). simpl.
      rewrite bt_insert_last.
      2:{ eapply Forall_impl; [by apply bt_sorted_app in Hacc|]. done. }
      eapply eq_trans; [apply IH|].
      + intros e He. apply Hsub. by right.
      + by rewrite <-app_assoc.
      + simpl in Hfuel. lia.
      + rewrite !length_app in *; simpl in *; lia.
      + by rewrite <-app_assoc. }
  apply (Hgen es []); try done. clear. rewrite !length_app.
  match goal with |- context [flat_map ?w es] => assert (length es ≤ length (flat_map w es)); [|simpl; lia] end.
  induction es as [|e es IH]; simpl; [lia|]. rewrite !length_app. lia.
Qed.

Lemma write_payload_nonempty v : 1 ≤ length (write_payload v).
Proof.
  assert (Hw : ∀ n, 1 ≤ length (write_var_u64 n)) by (intros; apply write_var_nonempty; lia).
  destruct v; simpl; rewrite ?length_app; simpl; try lia; auto; unfold write_length, write_string;
    rewrite ?length_app; match goal with |- context [length (write_var_u64 ?n)] => pose proof (Hw n) end; lia.
Qed.

Lemma tag_nonzero v : tag v ≠ 0%Z.
Proof. by destruct v. Qed.

Lemma flat_map_length {A} (f : A → bytes) l : (∀ x, 1 ≤ length (f x)) → length l ≤ length (flat_map f l).
Proof. intros Hf. induction l as [|x l IH]; simpl; [lia|]. rewrite length_app. specialize (Hf x). lia. Qed.

Lemma sorted_keys_sorted es : sorted_keys es = true → bt_sorted es.
Proof.
  unfold bt_sorted. induction es as [|[k v] es IH]; simpl; [constructor|].
  intros [Hk Hs]%andb_prop. constructor; [by apply IH|]. apply Forall_forall. intros e He.
  rewrite forallb_forall in Hk. specialize (Hk e (proj1 (list_elem_of_In _ _) He)).
  unfold key_lt, lt_bytes, ord_cmp, bytes_ord in *. by case_match.
Qed.

Lemma forallb_elem {A} (f : A → bool) l x : forallb f l = true → x ∈ l → f x = true.
Proof. rewrite forallb_forall. intros H Hx. apply H. by apply list_elem_of_In. Qed.

Lemma try_for_each_elem {E A} (f : A → result E unit) l x : try_for_each f l = Ok () → x ∈ l → f x = Ok ().
Proof.
  induction l as [|y l IH]; simpl; [by intros _ ?%elem_of_nil|]. destruct (f y) as [[]|] eqn:Hy; [|done].
  intros H [->|Hx]%elem_of_cons; [done|by apply IH].
Qed.

(** What [validate_encoding] accepts. *)
Lemma validate_inv v depth :
  validate_encoding v depth = Ok () →
  depth ≤ MAX_NBT_DEPTH ∧ (is_container v = true → depth < MAX_NBT_DEPTH) ∧
  (∀ items, v = NList items →
     (∀ first rest, items = first :: rest → ∀ item, item ∈ items → tag item = tag first) ∧
     ∀ item, item ∈ items → validate_encoding item (S depth) = Ok ()) ∧
  (∀ es, v = NCompound es → ∀ e, e ∈ es → validate_encoding (snd e) (S depth) = Ok ()).
Proof.
  assert (Hb : validate_encoding v depth = Ok () →
    (MAX_NBT_DEPTH <? depth) || (is_container v && (MAX_NBT_DEPTH <=? depth)) = false).
  { destruct v; cbn [validate_encoding]; by case_match. }
  intros H. pose proof (Hb H) as Hd. apply orb_false_iff in Hd as [H1 H2]. apply Nat.ltb_ge in H1.
  split_and!; [done| | |].
  - intros Hc. rewrite Hc in H2. cbn [andb] in H2. by apply Nat.leb_gt in H2.
  - intros items ->. cbn [validate_encoding] in H. rewrite (Hb H) in H.
    destruct (match items with first :: _ => _ | [] => false end) eqn:Hm; [done|]. split.
    + intros first rest -> item Hin. destruct (Z.eqb_spec (tag item) (tag first)) as [|Hne]; [done|].
      exfalso. assert (existsb (λ item, negb (tag item =? tag first)%Z) (first :: rest) = true) as Hex; [|congruence].
      apply existsb_exists. exists item. split; [by apply list_elem_of_In|]. by apply Z.eqb_neq in Hne as ->.
    + intros item Hin. by eapply try_for_each_elem in H.
  - intros es -> e Hin. cbn [validate_encoding] in H. rewrite (Hb H) in H.
    by apply (try_for_each_elem (λ e, validate_encoding (snd e) (S depth))) with (x := e) in H.
Qed.

(** ** The round trip *)

Section roundtrip.
Context (input_len : nat).

Definition reads_back (room : nat) (v : NbtValue) : Prop := ∀ rest,
  length (write_payload v ++ rest) ≤ input_len →
  value (Z.of_nat input_len) room (tag v) (write_payload v ++ rest) = Some (v, rest).

Lemma int_items_read (write : Z → bytes) (item : Parser Z) (okb : Z → bool) l rest :
  (∀ v rest, okb v = true → item (write v ++ rest) = Some (v, rest)) → forallb okb l = true →
  items_loop item (length l) (flat_map write l ++ rest) = Some (l, rest).
Proof using Type.
  intros Hitem Hl. apply (items_loop_write _ _ (length (flat_map write l ++ rest))); [|done].
  intros x r Hx _. apply Hitem. by eapply forallb_elem.
Qed.

Lemma count_within {A} (write : A → bytes) l rest pre :
  (∀ x, 1 ≤ length (write x)) → length ((pre ++ flat_map write l) ++ rest) ≤ input_len →
  (Z.of_nat input_len <? Z.of_nat (length l))%Z = false.
Proof using Type.
  intros Hw Hlen. pose proof (flat_map_length write l Hw). rewrite !length_app in Hlen.
  apply Z.ltb_ge. lia.
Qed.

Lemma write_var_u64_nonempty v : 1 ≤ length (write_var_u64 v).
Proof using Type. apply write_var_nonempty. lia. Qed.

Lemma leaf_reads_back room v :
  is_container v = false → value_ok v = true → reads_back room v.
Proof using Type.
  intros Hc Hok rest Hlen. destruct v; try done; cbn [tag write_payload value_ok] in *;
    repeat match goal with H : _ && _ = true |- _ => apply andb_prop in H as [? H] end;
    repeat match goal with
    | H : in_bits _ _ _ = true |- _ => apply in_bits_iff in H
    | H : (_ <? _)%Z = true |- _ => apply Z.ltb_lt in H
    end; destruct room; cbn [value].
  1,2: cbn [app read_byte mbind option_bind]; by rewrite (to_signed_unsigned 8) by lia.
  1,2: rewrite (read_le_write 2) by (apply Z.mod_pos_bound; lia); cbn [mbind option_bind];
    by rewrite (to_signed_unsigned 16) by lia.
  1,2: by rewrite zigzag_i32_write by done.
  1,2: by rewrite zigzag_i64_write by done.
  1,2: by rewrite (read_le_write 4) by done.
  1,2: by rewrite (read_le_write 8) by done.
  1,2: rewrite <-app_assoc, read_length_write by done; cbn [mbind option_bind]; by rewrite take_bytes_app.
  1,2: by rewrite read_string_write.
  1,2: pose proof (count_within _ _ _ _ (λ x, write_var_u64_nonempty (zigzag32 x)) Hlen) as Hcount;
    rewrite <-app_assoc, read_length_write by done; cbn [mbind option_bind]; rewrite Hcount, Nat2Z.id;
    by rewrite (int_items_read _ _ is_i32b) by (done || apply zigzag_i32_write).
  1,2: pose proof (count_within _ _ _ _ (λ x, write_var_u64_nonempty (zigzag64 x)) Hlen) as Hcount;
    rewrite <-app_assoc, read_length_write by done; cbn [mbind option_bind]; rewrite Hcount, Nat2Z.id;
    by rewrite (int_items_read _ _ is_i64b) by (done || apply zigzag_i64_write).
Qed.

(** A list whose items share a tag and read back one level deeper. *)
Lemma list_reads_back room items :
  (Z.of_nat (length items) < 2 ^ 31)%Z →
  (∀ first rest, items = first :: rest → ∀ item, item ∈ items → tag item = tag first) →
  (∀ item, item ∈ items → reads_back room item) → reads_back (S room) (NList items).
Proof using Type.
  intros Hlen Htags Hitems rest Hbound. cbn [value tag write_payload app read_byte mbind option_bind] in *.
  assert (Hcount : (Z.of_nat input_len <? Z.of_nat (length items))%Z = false).
  { apply (count_within write_payload items rest (tag (NList items) :: write_length (length items)));
      [apply write_payload_nonempty|]. cbn [app]. rewrite <-app_assoc in *. simpl in *. lia. }
  rewrite <-app_assoc. rewrite read_length_write by done. cbn [mbind option_bind].
  rewrite Hcount, Nat2Z.id.
  rewrite (items_loop_write _ write_payload input_len); [done| |].
  - intros x r Hx Hxb. destruct items as [|first tl]; [by apply elem_of_nil in Hx|].
    rewrite <-(Htags first tl eq_refl x Hx). by apply Hitems.
  - cbn [app length] in Hbound. rewrite <-app_assoc, !length_app in Hbound. rewrite length_app. lia.
Qed.

Lemma compound_reads_back room es :
  bt_sorted es → (∀ e, e ∈ es → str_ok (fst e) = true ∧ reads_back room (snd e)) →
  reads_back (S room) (NCompound es).
Proof using Type.
  intros Hs Hes rest Hbound. cbn [value tag].
  rewrite (compound_loop_write _ es rest input_len); [done| |done|done].
  intros e r He. destruct (Hes e He) as [Hk Hv]. split_and!; [done|apply tag_nonzero|]. apply Hv.
Qed.

Lemma value_reads_back v : ∀ room depth,
  value_ok v = true → validate_encoding v depth = Ok () → depth + room = S MAX_NBT_DEPTH → reads_back room v.
Proof using Type.
  induction v as [v Hc|items IH|es IH] using nbt_value_ind; intros room depth Hok Hval Hroom;
    apply validate_inv in Hval as (Hd & Hcont & Hlist & Hcomp).
  - by apply leaf_reads_back.
  - destruct (Hlist _ eq_refl) as [Htags Hitems]. cbn [value_ok] in Hok.
    apply andb_prop in Hok as [Hlen Hok]. apply Z.ltb_lt in Hlen.
    specialize (Hcont eq_refl). destruct room as [|room]; [lia|].
    apply list_reads_back; [done|done|]. intros item Hin. rewrite Forall_forall in IH.
    apply (IH item Hin room (S depth)); [by eapply forallb_elem|by apply Hitems|lia].
  - cbn [value_ok] in Hok. apply andb_prop in Hok as [Hs Hok].
    specialize (Hcont eq_refl). destruct room as [|room]; [lia|].
    apply compound_reads_back; [by apply sorted_keys_sorted|]. intros e Hin.
    apply (forallb_elem _ _ e) in Hok as [Hk Hv]%andb_prop; [|done]. rewrite Forall_forall in IH.
    split; [done|]. apply (IH e Hin room (S depth)); [done|by eapply Hcomp|lia].
Qed.
End roundtrip.

(** ** Properties *)

(** C32: Whatever tree [encode_root] accepts, if its integers are in range, its strings are UTF-8 and
    its collections have [i32] lengths, the parser reads the very same tree back from the encoded
    bytes. *)
Theorem encode_parse_roundtrip c bs :
  compound_ok c = true → encode_root c = Ok bs → parse bs = Some c.
Proof.
  unfold compound_ok, encode_root. cbn [value_ok]. intros [Hs Hok]%andb_prop.
  destruct (try_for_each _ c) as [[]|] eqn:Hval; [|done]. intros Henc.
  assert (bs = 10%Z :: write_string [] ++ write_payload (NCompound c)) as -> by (simpl in *; congruence).
  unfold parse. cbn [read_byte mbind option_bind]. change (negb (10 =? 10)%Z) with false. cbv iota.
  rewrite read_string_write by done. cbn [mbind option_bind].
  set (input_len := length _).
  pose proof (compound_loop_write (value (Z.of_nat input_len) MAX_NBT_DEPTH) c [] input_len) as Hloop.
  rewrite app_nil_r in Hloop. rewrite Hloop; [done| |by apply sorted_keys_sorted|].
  - intros e rest He. apply (forallb_elem _ _ e) in Hok as [Hk Hv]%andb_prop; [|done].
    split_and!; [done|apply tag_nonzero|].
    apply (value_reads_back input_len (snd e) MAX_NBT_DEPTH 1); [done| |done].
    by apply (try_for_each_elem (λ e, validate_encoding (snd e) 1) c e).
  - unfold input_len. simpl. lia.
Qed.

Definition sample_tree : NbtCompound :=
  [([97%Z], NList [NInt (-5); NInt 300]); ([98%Z], NCompound [([], NString [195%Z; 169%Z])])].

Lemma encode_parse_roundtrip_witness : ∃ bs, encode_root sample_tree = Ok bs ∧ parse bs = Some sample_tree.
Proof. eexists. split; [reflexivity|]. apply encode_parse_roundtrip; reflexivity. Defined.

(** The entry loop of the parser never runs out of fuel: on every input it satisfies the loop
    equation of [Cursor::compound], one entry and then the loop on a strictly shorter input. *)
Theorem compound_loop_equation input_len room l :
  let body := compound_step (value input_len room) in
  compound_loop (value input_len room) l =
  (λ st, match body st with
         | inl st' => run None body (S (length (snd st'))) st'
         | inr r => r end) ([], l) ∧
  ∀ st st', body st = inl st' → length (snd st') < length (snd st).
Proof.
  pose proof (compound_step_decr (value input_len room) (value_consumes input_len room)) as Hd.
  split; [|exact Hd]. unfold compound_loop. simpl length.
  apply (run_unfold _ (λ st, length (snd st)) Hd). simpl. lia.
Qed.
