(* ===== verification/NbtScan.v ===== *)
(** * The block-entity NBT scanner

    [crates/world/src/block_entity.rs], the part that admits one NetworkLittleEndian root from
    untrusted bytes: the limits, the error type, [Reader], [ScanState], [scan_payload] and
    [BlockEntityNbt::scan_prefix] with its deferred semantic errors, and the actor projection of
    [shape_actor.rs]. The reader and the tag counter travel together in [scan_state]. *)
From Stdlib Require String Ascii.
From stdpp Require Import base numbers list strings.
From S2P Require Import Prelude Packed Bytes NbtTree.
#[local] Open Scope Z_scope.

(** ** Limits and errors *)

Definition MAX_BLOCK_ENTITY_NBT_BYTES : Z := 1024 * 1024.
Definition MAX_NBT_COLLECTION_LENGTH : Z := 16384.
Definition MAX_NBT_STRING_BYTES : Z := 64 * 1024.
Definition MAX_NBT_TAGS : Z := 16384.
Definition MAX_BLOCK_ENTITY_TAIL_BYTES : Z := 8 * 1024 * 1024.
Definition MAX_BLOCK_ENTITY_BYTES_PER_CHUNK : Z := MAX_BLOCK_ENTITY_TAIL_BYTES.
Definition MAX_BLOCK_ENTITIES_PER_CHUNK : Z := 16384.
Definition MAX_BLOCK_ENTITIES_PER_SUB_CHUNK : Z := 4096.

Inductive BlockEntityNbtError :=
  | RootNotCompound (tag : Z)
  | UnknownTag (tag : Z)
  | UnexpectedEof (context : string) (needed remaining : Z)
  | VarIntTooLong
  | VarIntOverflow
  | VarLongTooLong
  | VarLongOverflow
  | NegativeLength (value : Z)
  | CollectionTooLong (len max : Z)
  | StringTooLong (len max : Z)
  | InvalidUtf8
  | DepthExceeded (max : Z)
  | TooManyTags (max : Z)
  | TooManyBytes (max : Z)
  | NonEmptyEndList
  | DuplicateRootField (field : string)
  | InvalidRootFieldType (field : string) (expected actual : Z)
  | PartialPosition.

(** [wire_error_reason(..).is_some()]. *)
Definition is_wire_error (e : BlockEntityNbtError) : bool :=
  match e with
  | UnknownTag _ | UnexpectedEof _ _ _ | VarIntTooLong | VarIntOverflow | VarLongTooLong
  | VarLongOverflow | NegativeLength _ | InvalidUtf8 | NonEmptyEndList => true
  | _ => false
  end.

(** ** The reader *)

Record scan_state := mk_scan { position : Z; rest : bytes; tags : Z }.

Definition Scan (A : Type) : Type := scan_state → result BlockEntityNbtError (A * scan_state).
#[export] Instance scan_ret : MRet Scan := λ A a s, Ok (a, s).
#[export] Instance scan_bind : MBind Scan := λ A B f m s,
  match m s with Ok (a, s) => f a s | Err e => Err e end.
Definition fail {A} (e : BlockEntityNbtError) : Scan A := λ _, Err e.

Definition remaining (s : scan_state) : Z := Z.of_nat (length (rest s)).

Definition require_remaining (len : Z) (context : string) : Scan unit := λ s,
  if remaining s <? len then Err (UnexpectedEof context len (remaining s)) else Ok ((), s).

Definition read_exact (len : Z) (context : string) : Scan bytes := λ s,
  match require_remaining len context s with
  | Err e => Err e
  | Ok _ =>
      if MAX_BLOCK_ENTITY_NBT_BYTES <? position s + len then Err (TooManyBytes MAX_BLOCK_ENTITY_NBT_BYTES)
      else Ok (take (Z.to_nat len) (rest s),
               mk_scan (position s + len) (drop (Z.to_nat len) (rest s)) (tags s))
  end.

Definition read_u8 (context : string) : Scan Z :=
  b ← read_exact 1 context; mret (hd 0 b).

Definition check_collection_limit (len minimum_element_bytes : Z) (context : string) : Scan unit :=
  if len <=? MAX_NBT_COLLECTION_LENGTH then mret ()
  else
    _ ← require_remaining (len * minimum_element_bytes) context;
    fail (CollectionTooLong len MAX_NBT_COLLECTION_LENGTH).

Definition skip (len : Z) (context : string) : Scan unit := _ ← read_exact len context; mret ().

(** [for index in 0..5] of [read_var_u32]: [n] turns are left. *)
Fixpoint read_var_u32_from (index n : nat) (value : Z) (context : string) : Scan Z :=
  match n with
  | O => fail VarIntTooLong
  | S n =>
      byte ← read_u8 context;
      if (Nat.eqb index 4) && negb (Z.land byte 128 =? 0) then fail VarIntTooLong
      else if (Nat.eqb index 4) && negb (Z.land byte 112 =? 0) then fail VarIntOverflow
      else
        let value := Z.lor value (Z.shiftl (Z.land byte 127) (Z.of_nat (index * 7)) mod 2 ^ 32) in
        if Z.land byte 128 =? 0 then mret value else read_var_u32_from (S index) n value context
  end.
Definition read_var_u32 (context : string) : Scan Z := read_var_u32_from 0 5 0 context.

Definition read_zigzag_i32 (context : string) : Scan Z := v ← read_var_u32 context; mret (unzigzag v).
Definition skip_zigzag_i32 (context : string) : Scan unit := _ ← read_zigzag_i32 context; mret ().

Fixpoint skip_zigzag_i64_from (index n : nat) (context : string) : Scan unit :=
  match n with
  | O => fail VarLongTooLong
  | S n =>
      byte ← read_u8 context;
      if (Nat.eqb index 9) && negb (Z.land byte 128 =? 0) then fail VarLongTooLong
      else if (Nat.eqb index 9) && negb (Z.land byte 126 =? 0) then fail VarLongOverflow
      else if Z.land byte 128 =? 0 then mret () else skip_zigzag_i64_from (S index) n context
  end.
Definition skip_zigzag_i64 (context : string) : Scan unit := skip_zigzag_i64_from 0 10 context.

Definition read_collection_length (context : string) : Scan Z :=
  value ← read_zigzag_i32 context; if value <? 0 then fail (NegativeLength value) else mret value.

Definition scan_string (context : string) : Scan bytes :=
  len ← read_var_u32 context;
  _ ← require_remaining len context;
  if MAX_NBT_STRING_BYTES <? len then fail (StringTooLong len MAX_NBT_STRING_BYTES)
  else s ← read_exact len context; if utf8_valid s then mret s else fail InvalidUtf8.

(** ** The payload scan *)

Definition visit_tag : Scan unit := λ s,
  let tags := tags s + 1 in
  if MAX_NBT_TAGS <? tags then Err (TooManyTags MAX_NBT_TAGS) else Ok ((), mk_scan (position s) (rest s) tags).

Definition minimum_payload_size (tag : Z) : Scan Z :=
  if tag =? 1 then mret 1
  else if tag =? 2 then mret 2
  else if bool_decide (tag ∈ [3; 4; 7; 8; 10; 11; 12]) then mret 1
  else if tag =? 5 then mret 4
  else if tag =? 6 then mret 8
  else if tag =? 9 then mret 2
  else fail (UnknownTag tag).

(** [for _ in 0..n]. *)
Fixpoint repeat_scan (n : nat) (m : Scan unit) : Scan unit :=
  match n with O => mret () | S n => _ ← m; repeat_scan n m end.

(** One turn of the entry loop of a nested compound. *)
Definition scan_compound_step (payload : Z → Scan unit) (s : scan_state)
    : scan_state + result BlockEntityNbtError (unit * scan_state) :=
  match read_u8 "compound tag" s with
  | Err e => inr (Err e)
  | Ok (child_tag, s) =>
      if child_tag =? 0 then inr (Ok ((), s))
      else
        match (_ ← visit_tag; _ ← scan_string "tag name"; payload child_tag) s with
        | Err e => inr (Err e)
        | Ok (_, s) => inl s
        end
  end.

(** The fallback error is never returned: every turn reads a byte. *)
Definition scan_compound (payload : Z → Scan unit) : Scan unit := λ s,
  run (Err (TooManyTags MAX_NBT_TAGS)) (scan_compound_step payload) (S (length (rest s))) s.

(** [scan_payload] with [room = MAX_NBT_DEPTH - depth]; [enter_container] fails without room. *)
Fixpoint scan_payload (room : nat) (tag : Z) {struct room} : Scan unit :=
  match tag with
  | 1 => skip 1 "byte"
  | 2 => skip 2 "short"
  | 3 => skip_zigzag_i32 "int"
  | 4 => skip_zigzag_i64 "long"
  | 5 => skip 4 "float"
  | 6 => skip 8 "double"
  | 7 => len ← read_collection_length "byte array"; skip len "byte array"
  | 8 => _ ← scan_string "string"; mret ()
  | 9 =>
      match room with
      | O => fail (DepthExceeded (Z.of_nat MAX_NBT_DEPTH))
      | S room =>
          element_tag ← read_u8 "list element tag";
          len ← read_collection_length "list";
          if (element_tag =? 0) && negb (len =? 0) then fail NonEmptyEndList
          else
            _ ← (if negb (len =? 0) then
                   minimum ← minimum_payload_size element_tag;
                   check_collection_limit len minimum "list elements"
                 else mret ());
            repeat_scan (Z.to_nat len) (_ ← visit_tag; scan_payload room element_tag)
      end
  | 10 =>
      match room with
      | O => fail (DepthExceeded (Z.of_nat MAX_NBT_DEPTH))
      | S room => scan_compound (scan_payload room)
      end
  | 11 =>
      len ← read_collection_length "int array";
      _ ← check_collection_limit len 1 "int array elements";
      repeat_scan (Z.to_nat len) (skip_zigzag_i32 "int array element")
  | 12 =>
      len ← read_collection_length "long array";
      _ ← check_collection_limit len 1 "long array elements";
      repeat_scan (Z.to_nat len) (skip_zigzag_i64 "long array element")
  | _ => fail (UnknownTag tag)
  end.

(** ** The root *)

Inductive RootByteCandidate := Absent | Value (v : Z) | Invalid.

(** [prefer_wire_or_first_semantic]. *)
Definition prefer_wire_or_first_semantic {A} (m : result BlockEntityNbtError A)
    (semantic_error : option BlockEntityNbtError) : result BlockEntityNbtError A :=
  match m with
  | Ok a => Ok a
  | Err e => if is_wire_error e then Err e else Err (default e semantic_error)
  end.

Definition get_or_insert {A} (o : option A) (a : A) : option A := Some (default a o).

(** The room at the children of the root, [depth = 1]. *)
Definition CHILD_ROOM : nat := MAX_NBT_DEPTH - 1.

Definition scan_root_byte_candidate (candidate : RootByteCandidate) (tag : Z) : Scan RootByteCandidate :=
  value ← (if tag =? 1 then v ← read_u8 "root byte candidate"; mret (Some v)
           else _ ← scan_payload CHILD_ROOM tag; mret None);
  mret (match candidate, value with Absent, Some v => Value v | _, _ => Invalid end).

(** The locals of the root loop. *)
Record root_state := mk_root {
  r_scan : scan_state;
  r_id : option bytes;
  r_position : option Z * option Z * option Z;
  r_note : RootByteCandidate;
  r_powered : RootByteCandidate;
  r_semantic : option BlockEntityNbtError;
}.

Definition with_scan (r : root_state) (s : scan_state) : root_state :=
  mk_root s (r_id r) (r_position r) (r_note r) (r_powered r) (r_semantic r).
Definition with_semantic (r : root_state) (e : BlockEntityNbtError) : root_state :=
  mk_root (r_scan r) (r_id r) (r_position r) (r_note r) (r_powered r) (get_or_insert (r_semantic r) e).

(** Runs a reader on the root's state, with its error filtered. *)
Definition on_scan {A} (m : Scan A) (r : root_state) : result BlockEntityNbtError (A * root_state) :=
  match prefer_wire_or_first_semantic (m (r_scan r)) (r_semantic r) with
  | Ok (a, s) => Ok (a, with_scan r s)
  | Err e => Err e
  end.

Definition str (s : string) : bytes := (λ a, Z.of_N (Ascii.N_of_ascii a)) <$> String.list_ascii_of_string s.

Definition ID := Eval vm_compute in str "id".
Definition X := Eval vm_compute in str "x".
Definition Y := Eval vm_compute in str "y".
Definition Z_ := Eval vm_compute in str "z".
Definition NOTE := Eval vm_compute in str "note".
Definition POWERED := Eval vm_compute in str "powered".

Definition axis (p : option Z * option Z * option Z) (slot : nat) : option Z :=
  match slot with 0%nat => fst (fst p) | 1%nat => snd (fst p) | _ => snd p end.
Definition set_axis (p : option Z * option Z * option Z) (slot : nat) (v : Z) :=
  match slot with
  | 0%nat => (Some v, snd (fst p), snd p)
  | 1%nat => (fst (fst p), Some v, snd p)
  | _ => (fst p, Some v)
  end.

(** The arm of a field named [name] and tagged [tag]. *)
Definition root_id_field (tag : Z) (r : root_state) : result BlockEntityNbtError root_state :=
  if negb (tag =? 8) then
    let r := with_semantic r (InvalidRootFieldType "id" 8 tag) in
    snd <$> on_scan (scan_payload CHILD_ROOM tag) r
  else
    '(value, r) ← on_scan (scan_string "id value") r;
    Ok (match r_id r with
        | Some _ => with_semantic r (DuplicateRootField "id")
        | None => mk_root (r_scan r) (Some value) (r_position r) (r_note r) (r_powered r) (r_semantic r)
        end).

Definition root_axis_field (slot : nat) (field : string) (tag : Z) (r : root_state)
    : result BlockEntityNbtError root_state :=
  if negb (tag =? 3) then
    let r := with_semantic r (InvalidRootFieldType field 3 tag) in
    snd <$> on_scan (scan_payload CHILD_ROOM tag) r
  else
    '(value, r) ← on_scan (read_zigzag_i32 "position") r;
    Ok (match axis (r_position r) slot with
        | Some _ => with_semantic r (DuplicateRootField field)
        | None => mk_root (r_scan r) (r_id r) (set_axis (r_position r) slot value) (r_note r) (r_powered r) (r_semantic r)
        end).

Definition root_field (name : bytes) (tag : Z) (r : root_state) : result BlockEntityNbtError root_state :=
  if decide (name = ID) then root_id_field tag r
  else if decide (name = X) then root_axis_field 0 "x" tag r
  else if decide (name = Y) then root_axis_field 1 "y" tag r
  else if decide (name = Z_) then root_axis_field 2 "z" tag r
  else if decide (name = NOTE) then
    '(c, r) ← on_scan (scan_root_byte_candidate (r_note r) tag) r;
    Ok (mk_root (r_scan r) (r_id r) (r_position r) c (r_powered r) (r_semantic r))
  else if decide (name = POWERED) then
    '(c, r) ← on_scan (scan_root_byte_candidate (r_powered r) tag) r;
    Ok (mk_root (r_scan r) (r_id r) (r_position r) (r_note r) c (r_semantic r))
  else snd <$> on_scan (scan_payload CHILD_ROOM tag) r.

(** One turn of the root loop; [break] leaves with the state. *)
Definition root_step (r : root_state) : root_state + result BlockEntityNbtError root_state :=
  match on_scan (read_u8 "compound tag") r with
  | Err e => inr (Err e)
  | Ok (tag, r) =>
      if tag =? 0 then inr (Ok r)
      else
        match ('(_, r) ← on_scan visit_tag r;
               '(name, r) ← on_scan (scan_string "tag name") r;
               root_field name tag r) with
        | Err e => inr (Err e)
        | Ok r => inl r
        end
  end.

Definition root_loop (r : root_state) : result BlockEntityNbtError root_state :=
  run (Err (TooManyTags MAX_NBT_TAGS)) root_step (S (length (rest (r_scan r)))) r.

(** ** Block states and actors *)

(** [write_text]: a length-prefixed string in the digest's input. *)
Definition write_text (value : bytes) : bytes := le_bytes 8 (Z.of_nat (length value)) ++ value.

(** The entry [state_identity] feeds to the digest; [None] for a value that is no state. *)
Definition state_entry (e : bytes * NbtValue) : option bytes :=
  match snd e with
  | NByte v => Some (write_text (fst e) ++ [1; to_unsigned 8 v])
  | NInt v => Some (write_text (fst e) ++ [3] ++ le_bytes 4 (to_unsigned 32 v))
  | NString v => Some (write_text (fst e) ++ [8] ++ write_text v)
  | _ => None
  end.

Inductive ShapeActor :=
  | NoActor
  | Piston (progress_bits : Z)
  | Moving (state_identity : bytes) (piston : Z * Z * Z) (expanding : bool).

(** Finite and within [0.0..=1.0], on the bit pattern of an [f32]: 1.0 is [0x3f80_0000] and the
    negative zero is admitted too. *)
Definition unit_interval_bits (bits : Z) : bool := (bits <=? 0x3F800000) || (bits =? 0x80000000).

Definition PISTON_ARM := Eval vm_compute in str "PistonArm".
Definition MOVING_BLOCK := Eval vm_compute in str "MovingBlock".
Definition PROGRESS := Eval vm_compute in str "Progress".
Definition MOVING := Eval vm_compute in str "movingBlock".
Definition NAME := Eval vm_compute in str "name".
Definition STATES := Eval vm_compute in str "states".
Definition EXPANDING := Eval vm_compute in str "expanding".
Definition PISTON_POS_X := Eval vm_compute in str "pistonPosX".
Definition PISTON_POS_Y := Eval vm_compute in str "pistonPosY".
Definition PISTON_POS_Z := Eval vm_compute in str "pistonPosZ".

Section shape_actor.
(** SHA-256 of the digest's input, from the [sha2] crate. *)
Context (sha256 : bytes → bytes).

Definition state_identity (name : bytes) (states : NbtCompound) : option bytes :=
  (λ entries, sha256 (write_text name ++ concat entries)) <$> mapM state_entry states.

Definition moving_block (root : NbtCompound) : ShapeActor :=
  match (block ← Compound.compound root MOVING;
         name ← Compound.string block NAME;
         states ← Compound.compound block STATES;
         state_identity name states) with
  | None => NoActor
  | Some identity =>
      let pos key := match Compound.get root key with Some (NInt v) => v | _ => 0 end in
      Moving identity (pos PISTON_POS_X, pos PISTON_POS_Y, pos PISTON_POS_Z)
        (match Compound.get root EXPANDING with Some (NByte v) => negb (v =? 0) | _ => false end)
  end.

(** [ShapeActor::from_nbt] of an identifier and the retained bytes. *)
Definition shape_actor_from_nbt (id : option bytes) (bs : bytes) : ShapeActor :=
  if decide (id = Some PISTON_ARM ∨ id = Some MOVING_BLOCK) then
    match parse bs with
    | None => NoActor
    | Some root =>
        if decide (id = Some PISTON_ARM) then
          let progress := match Compound.get root PROGRESS with Some (NFloat bits) => bits | _ => 0 end in
          if unit_interval_bits progress then Piston progress else NoActor
        else moving_block root
    end
  else NoActor.
End shape_actor.

(** ** The retained root *)

Record BlockEntityNbt := mk_nbt {
  nbt_bytes : bytes;
  nbt_id : option bytes;
  embedded_position : option (Z * Z * Z);
  note_candidate : RootByteCandidate;
  powered_candidate : RootByteCandidate;
  shape_actor : ShapeActor;
}.

(** What a root loop that stopped on the end tag stands for. *)
Definition root_position (r : root_state) : option (Z * Z * Z) * option BlockEntityNbtError :=
  match r_position r with
  | (None, None, None) => (None, r_semantic r)
  | (Some x, Some y, Some z) => (Some (x, y, z), r_semantic r)
  | _ => (None, get_or_insert (r_semantic r) PartialPosition)
  end.

Section scan_prefix.
Context (sha256 : bytes → bytes).

(** Root tag, root name, first tag visit. *)
Definition scan_header : Scan Z :=
  root ← read_u8 "root tag"; _ ← scan_string "root name"; _ ← visit_tag; mret root.

(** The bytes read so far, [&input[..consumed]]. *)
Definition consumed_bytes (input : bytes) (s : scan_state) : bytes := take (Z.to_nat (position s)) input.

Definition scan_prefix (input : bytes)
    : result BlockEntityNbtError (BlockEntityNbt * Z * option BlockEntityNbtError) :=
  match scan_header (mk_scan 0 input 0) with
  | Err e => Err e
  | Ok (root, s) =>
      if negb (root =? 10) then
        let semantic := RootNotCompound root in
        match prefer_wire_or_first_semantic (scan_payload MAX_NBT_DEPTH root s) (Some semantic) with
        | Err e => Err e
        | Ok (_, s) =>
            Ok (mk_nbt (consumed_bytes input s) None None Absent Absent NoActor, position s, Some semantic)
        end
      else
        match root_loop (mk_root s None (None, None, None) Absent Absent None) with
        | Err e => Err e
        | Ok r =>
            let '(embedded, semantic) := root_position r in
            let bs := consumed_bytes input (r_scan r) in
            let actor := match semantic with
                         | None => shape_actor_from_nbt sha256 (r_id r) bs | Some _ => NoActor end in
            Ok (mk_nbt bs (r_id r) embedded (r_note r) (r_powered r) actor, position (r_scan r), semantic)
        end
  end.

Definition decode_prefix (input : bytes) : result BlockEntityNbtError (BlockEntityNbt * Z) :=
  match scan_prefix input with
  | Err e => Err e
  | Ok (nbt, consumed, Some e) => Err e
  | Ok (nbt, consumed, None) => Ok (nbt, consumed)
  end.

Definition COMPOUND_TAG : Z := 10.

Definition lenient_nbt_len (input : bytes) : Z :=
  match input with
  | [] => 0
  | tag :: _ =>
      if tag =? COMPOUND_TAG then
        match scan_prefix input with
        | Ok (_, consumed, _) => consumed
        | Err _ => Z.of_nat (length input)
        end
      else 1
  end.
End scan_prefix.
