(* ===== verification/NbtScanSpec.v ===== *)
(** * Frame and simulation of the NBT scanner

    A successful scan reads a prefix of its input, within the byte limit, and does not depend on
    what follows it; wherever the scanner succeeds the tree parser does too, and reads the same
    bytes. *)
From stdpp Require Import base numbers list strings.
From S2P Require Import Prelude Packed Bytes NbtTree NbtTreeSpec NbtScan.
#[local] Open Scope Z_scope.

(** ** Inversion of the scanner's steps *)

Lemma scan_bind_Ok {A B} (m : Scan A) (f : A → Scan B) s b s' :
  (m ≫= f) s = Ok (b, s') ↔ ∃ a s1, m s = Ok (a, s1) ∧ f a s1 = Ok (b, s').
Proof.
  unfold mbind, scan_bind. split.
  - destruct (m s) as [[a s1]|e]; [eauto|done].
  - by intros (a & s1 & -> & H).
Qed.

Lemma scan_bind_run {A B} (m : Scan A) (f : A → Scan B) s a s1 :
  m s = Ok (a, s1) → (m ≫= f) s = f a s1.
Proof. intros H. unfold mbind, scan_bind. by rewrite H. Qed.

(** Takes a chain of successful binds in [H] apart. *)
Ltac scan_inv H :=
  repeat match type of H with
  | (_ ≫= _) _ = Ok _ => let a := fresh "a" in let s := fresh "s" in let E := fresh "E" in
      apply scan_bind_Ok in H as (a & s & E & H)
  | mret _ _ = Ok _ => unfold mret, scan_ret in H; injection H as H; subst
  | fail _ _ = Ok _ => discriminate H
  | (if ?b then _ else _) _ = Ok _ => let E := fresh "E" in destruct b eqn:E
  end.

(** [m] succeeds on exactly a prefix: what it needs, and nothing of what follows. *)
Definition framed {A} (m : Scan A) : Prop := ∀ s a s', m s = Ok (a, s') →
  ∃ p, rest s = p ++ rest s' ∧ position s' = position s + Z.of_nat (length p) ∧
    (position s ≤ MAX_BLOCK_ENTITY_NBT_BYTES → position s' ≤ MAX_BLOCK_ENTITY_NBT_BYTES) ∧
    ∀ ext, m (mk_scan (position s) (p ++ ext) (tags s)) = Ok (a, mk_scan (position s') ext (tags s')).

Lemma framed_ret {A} (a : A) : framed (mret a).
Proof. intros [pos l t] b s' [= <- <-]. exists []. simpl. split_and!; [done|lia|done|done]. Qed.

Lemma framed_fail {A} e : framed (@fail A e).
Proof. done. Qed.

Lemma framed_bind_post {A B} (Q : A → Prop) (m : Scan A) (f : A → Scan B) :
  framed m → (∀ s a s', m s = Ok (a, s') → Q a) → (∀ a, Q a → framed (f a)) → framed (m ≫= f).
Proof.
  intros Hm Hq Hf s b s' (a & s1 & H1 & H2)%scan_bind_Ok.
  destruct (Hm _ _ _ H1) as (p1 & Hr1 & Hp1 & Hb1 & He1).
  destruct (Hf a (Hq _ _ _ H1) _ _ _ H2) as (p2 & Hr2 & Hp2 & Hb2 & He2).
  exists (p1 ++ p2). split_and!.
  - by rewrite Hr1, Hr2, app_assoc.
  - rewrite length_app. lia.
  - auto.
  - intros ext. rewrite <-app_assoc. rewrite (scan_bind_run _ _ _ _ _ (He1 (p2 ++ ext))). apply He2.
Qed.

Lemma framed_bind {A B} (m : Scan A) (f : A → Scan B) :
  framed m → (∀ a, framed (f a)) → framed (m ≫= f).
Proof. intros Hm Hf. by apply (framed_bind_post (λ _, True)). Qed.

Lemma framed_repeat n m : framed m → framed (repeat_scan n m).
Proof. intros Hm. induction n as [|n IH]; [apply framed_ret|]. by apply framed_bind. Qed.

Create HintDb framed.
#[export] Hint Resolve framed_ret framed_fail framed_repeat : framed.
#[export] Hint Extern 2 (framed (_ ≫= _)) => apply framed_bind; [|intros ?] : framed.
#[export] Hint Extern 2 (framed (if ?b then _ else _)) => destruct b : framed.

(** ** The primitive readers *)

Lemma read_exact_inv len c s b s' :
  0 ≤ len → read_exact len c s = Ok (b, s') →
  rest s = b ++ rest s' ∧ Z.of_nat (length b) = len ∧
  s' = mk_scan (position s + len) (rest s') (tags s) ∧ position s + len ≤ MAX_BLOCK_ENTITY_NBT_BYTES.
Proof.
  unfold read_exact, require_remaining, remaining. intros Hl.
  destruct (Z.ltb_spec (Z.of_nat (length (rest s))) len); [done|].
  destruct (Z.ltb_spec MAX_BLOCK_ENTITY_NBT_BYTES (position s + len)); [done|]. intros [= <- <-]. simpl.
  split_and!; [by rewrite take_drop|rewrite length_take; lia|done|done].
Qed.

Lemma read_exact_run b c ext pos t :
  pos + Z.of_nat (length b) ≤ MAX_BLOCK_ENTITY_NBT_BYTES →
  read_exact (Z.of_nat (length b)) c (mk_scan pos (b ++ ext) t) = Ok (b, mk_scan (pos + Z.of_nat (length b)) ext t).
Proof.
  intros Hm. unfold read_exact, require_remaining, remaining. simpl. rewrite length_app.
  destruct (Z.ltb_spec (Z.of_nat (length b + length ext)) (Z.of_nat (length b))); [lia|].
  destruct (Z.ltb_spec MAX_BLOCK_ENTITY_NBT_BYTES (pos + Z.of_nat (length b))); [lia|].
  by rewrite Nat2Z.id, take_app_length, drop_app_length.
Qed.

Lemma framed_read_exact len c : 0 ≤ len → framed (read_exact len c).
Proof.
  intros Hl s b s' H. apply read_exact_inv in H as (Hr & Hb & Hs & Hm); [|done]. exists b.
  rewrite Hs. simpl. split_and!; [by rewrite Hs in Hr|lia|lia|]. intros ext. rewrite <-Hb. apply read_exact_run. lia.
Qed.

Lemma read_u8_inv c s b s' : read_u8 c s = Ok (b, s') →
  rest s = b :: rest s' ∧ position s' = position s + 1 ∧ tags s' = tags s ∧ position s' ≤ MAX_BLOCK_ENTITY_NBT_BYTES.
Proof.
  unfold read_u8. intros H. scan_inv H. apply read_exact_inv in E as (Hr & Hl & Hs & Hm); [|lia].
  destruct a as [|x [|]]; simpl in Hl; try lia. simpl in *. rewrite Hr, Hs. done.
Qed.

Lemma framed_read_u8 c : framed (read_u8 c).
Proof. apply framed_bind; [by apply framed_read_exact|intros; apply framed_ret]. Qed.
#[export] Hint Resolve framed_read_u8 : framed.

Lemma framed_skip len c : 0 ≤ len → framed (skip len c).
Proof. intros. apply framed_bind; [by apply framed_read_exact|intros; apply framed_ret]. Qed.

Lemma framed_visit_tag : framed visit_tag.
Proof.
  intros s a s'. unfold visit_tag. case_match eqn:E; [done|]. intros [= <- <-]. exists []. simpl.
  split_and!; [done|lia|done|]. intros ext. unfold visit_tag. simpl. by rewrite E.
Qed.
#[export] Hint Resolve framed_visit_tag : framed.

Lemma framed_read_var_u32_from index n value c : framed (read_var_u32_from index n value c).
Proof. revert index value. induction n as [|n IH]; intros index value; simpl; auto 10 with framed. Qed.

Lemma framed_skip_zigzag_i64 c : framed (skip_zigzag_i64 c).
Proof.
  unfold skip_zigzag_i64. generalize 0%nat, 10%nat. intros index n. revert index.
  induction n as [|n IH]; intros index; simpl; auto 10 with framed.
Qed.

Lemma framed_read_zigzag_i32 c : framed (read_zigzag_i32 c).
Proof. apply framed_bind; [apply framed_read_var_u32_from|auto with framed]. Qed.
#[export] Hint Resolve framed_read_var_u32_from framed_skip_zigzag_i64 framed_read_zigzag_i32 : framed.

Lemma framed_skip_zigzag_i32 c : framed (skip_zigzag_i32 c).
Proof. unfold skip_zigzag_i32. auto with framed. Qed.
Lemma framed_read_collection_length c : framed (read_collection_length c).
Proof. unfold read_collection_length. auto with framed. Qed.
Lemma framed_check_collection_limit len m c : framed (check_collection_limit len m c).
Proof.
  unfold check_collection_limit. destruct (_ <=? _); [apply framed_ret|].
  intros s a s' H. scan_inv H.
Qed.
Lemma framed_minimum_payload_size tag : framed (minimum_payload_size tag).
Proof. unfold minimum_payload_size. auto 10 with framed. Qed.
#[export] Hint Resolve framed_skip_zigzag_i32 framed_read_collection_length framed_check_collection_limit
  framed_minimum_payload_size : framed.

Lemma read_collection_length_nonneg c s v s' : read_collection_length c s = Ok (v, s') → 0 ≤ v.
Proof. unfold read_collection_length. intros H. scan_inv H. lia. Qed.

Lemma lor_bound n a b : 0 ≤ n → 0 ≤ a < 2 ^ n → 0 ≤ b < 2 ^ n → 0 ≤ Z.lor a b < 2 ^ n.
Proof.
  intros Hn Ha Hb. assert (0 ≤ Z.lor a b) by (apply Z.lor_nonneg; lia). split; [done|].
  apply testbit_bound; [done..|]. intros i Hi. rewrite Z.lor_spec, !(testbit_above n) by done. done.
Qed.

Lemma read_var_u32_range index n value c s v s' :
  0 ≤ value < 2 ^ 32 → read_var_u32_from index n value c s = Ok (v, s') → 0 ≤ v < 2 ^ 32.
Proof.
  revert index value s. induction n as [|n IH]; intros index value s Hval H; [done|].
  cbn [read_var_u32_from] in H. scan_inv H; try (eapply IH; [|exact H]);
    apply lor_bound; try done; apply Z.mod_pos_bound; lia.
Qed.

(** ** Strings and payloads *)

Lemma scan_string_inv c s b s' : scan_string c s = Ok (b, s') →
  ∃ len s1, read_var_u32 c s = Ok (len, s1) ∧ rest s1 = b ++ rest s' ∧ len = Z.of_nat (length b) ∧
    len ≤ MAX_NBT_STRING_BYTES ∧ utf8_valid b = true ∧ s' = mk_scan (position s1 + len) (rest s') (tags s1) ∧
    position s' ≤ MAX_BLOCK_ENTITY_NBT_BYTES.
Proof.
  unfold scan_string. intros H. scan_inv H. exists a, s0.
  unfold require_remaining in E0. case_match; [done|]. injection E0 as <- <-.
  assert (Ha : 0 ≤ a < 2 ^ 32) by (eapply read_var_u32_range; [|exact E]; lia).
  apply read_exact_inv in E2 as (Hr & Hb & Hs & Hm); [|lia].
  split_and!; auto; [lia|]. rewrite Hs. simpl. done.
Qed.

Lemma framed_scan_string c : framed (scan_string c).
Proof.
  intros s b s' H. apply scan_string_inv in H as (len & s1 & Hlen & Hr & Hb & Hmax & Hu & Hs & Hm).
  destruct (framed_read_var_u32_from _ _ _ _ _ _ _ Hlen) as (p & Hp & Hpos & _ & Hext).
  exists (p ++ b). split_and!.
  - rewrite Hp, Hr. by rewrite app_assoc.
  - rewrite length_app, Hs. simpl. lia.
  - done.
  - intros ext. unfold scan_string. rewrite <-app_assoc.
    rewrite (scan_bind_run _ _ _ _ _ (Hext (b ++ ext))).
    assert (Hrq : require_remaining len c (mk_scan (position s1) (b ++ ext) (tags s1))
                  = Ok ((), mk_scan (position s1) (b ++ ext) (tags s1))).
    { unfold require_remaining, remaining. simpl. rewrite length_app. destruct (Z.ltb_spec (Z.of_nat (length b + length ext)) len); [lia|done]. }
    rewrite (scan_bind_run _ _ _ _ _ Hrq). destruct (Z.ltb_spec MAX_NBT_STRING_BYTES len); [lia|].
    rewrite Hs in Hm. simpl in Hm. pose proof (read_exact_run b c ext (position s1) (tags s1)) as Hre.
    rewrite <-Hb in Hre. specialize (Hre Hm). rewrite (scan_bind_run _ _ _ _ _ Hre). rewrite Hu, Hs. done.
Qed.
#[export] Hint Resolve framed_scan_string : framed.

Lemma scan_compound_step_frame payload s s1 :
  (∀ tag, framed (payload tag)) → scan_compound_step payload s = inl s1 →
  ∃ p, rest s = p ++ rest s1 ∧ 1 ≤ Z.of_nat (length p) ∧ position s1 = position s + Z.of_nat (length p) ∧
    (position s ≤ MAX_BLOCK_ENTITY_NBT_BYTES → position s1 ≤ MAX_BLOCK_ENTITY_NBT_BYTES) ∧
    ∀ ext, scan_compound_step payload (mk_scan (position s) (p ++ ext) (tags s))
           = inl (mk_scan (position s1) ext (tags s1)).
Proof.
  intros Hp. unfold scan_compound_step. destruct (read_u8 _ s) as [[t s0]|e] eqn:Ht; [|done].
  destruct (t =? 0) eqn:Hz; [done|].
  destruct ((_ ← visit_tag; _ ← scan_string "tag name"; payload t) s0) as [[[] s2]|e] eqn:Hb; [|done].
  intros [= <-].
  assert (Hfr : framed (_ ← visit_tag; _ ← scan_string "tag name"; payload t)) by auto 10 with framed.
  destruct (Hfr _ _ _ Hb) as (p2 & Hr2 & Hp2 & Hb2 & He2).
  destruct (framed_read_u8 _ _ _ _ Ht) as (p1 & Hr1 & Hp1 & Hb1 & He1).
  apply read_u8_inv in Ht as (Hr & _). assert (p1 = [t]) as ->.
  { rewrite Hr in Hr1. destruct p1 as [|x [|y p1]]; simpl in Hr1.
    - apply (f_equal length) in Hr1. simpl in Hr1. lia.
    - congruence.
    - injection Hr1 as _ Hr1. apply (f_equal length) in Hr1. simpl in Hr1. rewrite length_app in Hr1. lia. }
  exists ([t] ++ p2). split_and!.
  - by rewrite Hr1, Hr2.
  - simpl. lia.
  - simpl in *. lia.
  - auto.
  - intros ext. rewrite <-app_assoc, (He1 (p2 ++ ext)), Hz, He2. done.
Qed.

Lemma framed_scan_compound payload : (∀ tag, framed (payload tag)) → framed (scan_compound payload).
Proof.
  intros Hp. intros s a s'. unfold scan_compound. generalize (S (length (rest s))).
  assert (Hgen : ∀ fuel s, run (Err (TooManyTags MAX_NBT_TAGS)) (scan_compound_step payload) fuel s = Ok (a, s') →
    ∃ p, rest s = p ++ rest s' ∧ position s' = position s + Z.of_nat (length p) ∧
    (position s ≤ MAX_BLOCK_ENTITY_NBT_BYTES → position s' ≤ MAX_BLOCK_ENTITY_NBT_BYTES) ∧
    ∀ ext fuel', (length (p ++ ext) < fuel')%nat →
      run (Err (TooManyTags MAX_NBT_TAGS)) (scan_compound_step payload) fuel' (mk_scan (position s) (p ++ ext) (tags s))
      = Ok (a, mk_scan (position s') ext (tags s'))).
  { clear s. induction fuel as [|fuel IH]; intros s H; [done|]. cbn [run] in H.
    destruct (scan_compound_step payload s) as [s1|r] eqn:Hstep.
    - destruct (scan_compound_step_frame _ _ _ Hp Hstep) as (p1 & Hr1 & Hl1 & Hp1 & Hb1 & He1).
      destruct (IH _ H) as (p2 & Hr2 & Hp2 & Hb2 & He2). exists (p1 ++ p2). split_and!.
      + by rewrite Hr1, Hr2, app_assoc.
      + rewrite length_app. lia.
      + auto.
      + intros ext [|fuel'] Hf; [lia|]. cbn [run]. rewrite <-app_assoc, He1. apply He2.
        rewrite !length_app in *. lia.
    - unfold scan_compound_step in Hstep. destruct (read_u8 _ s) as [[t s0]|e] eqn:Ht; [|by injection Hstep as <-].
      destruct (t =? 0) eqn:Hz.
      2:{ destruct ((_ ← visit_tag; _ ← scan_string "tag name"; payload t) s0) as [[[] ?]|]; [done|].
          by injection Hstep as <-. }
      injection Hstep as <-. injection H as <- <-.
      destruct (framed_read_u8 _ _ _ _ Ht) as (p1 & Hr1 & Hp1 & Hb1 & He1). exists p1. split_and!; [done..|].
      intros ext [|fuel'] Hf; [lia|]. cbn [run]. unfold scan_compound_step. by rewrite He1, Hz. }
  intros fuel H. destruct (Hgen _ _ H) as (p & Hr & Hpos & Hb & He). exists p. split_and!; [done..|].
  intros ext. apply He. simpl. lia.
Qed.

Lemma framed_scan_payload room tag : framed (scan_payload room tag).
Proof.
  revert tag. induction room as [|room IH]; intros tag; cbn [scan_payload]; repeat case_match;
    auto 12 using framed_skip, framed_scan_compound with framed lia.
  all: apply (framed_bind_post (λ v, 0 ≤ v)); [auto with framed|by intros ??? ?%read_collection_length_nonneg|].
  all: intros len Hlen; try (by apply framed_skip); auto 12 with framed.
Qed.
#[export] Hint Resolve framed_scan_payload : framed.

(** ** Scanned roots parse

    Wherever the scanner of [NbtScan] succeeds the tree parser of [NbtTree] succeeds on the same
    bytes, so every retained block entity has a tree, and the metadata the scanner kept is what the
    tree says. *)

(** ** Primitive readers *)

Lemma sim_read_u8 c s b s' : read_u8 c s = Ok (b, s') → read_byte (rest s) = Some (b, rest s').
Proof. intros (-> & _)%read_u8_inv. done. Qed.

Lemma shrink_read_u8 c s b s' : read_u8 c s = Ok (b, s') → (length (rest s') < length (rest s))%nat.
Proof. intros (-> & _)%read_u8_inv. simpl. lia. Qed.

Lemma sim_read_exact len c s b s' :
  0 ≤ len → read_exact len c s = Ok (b, s') →
  take_bytes len (rest s) = Some (b, rest s') ∧ (length (rest s') + Z.to_nat len = length (rest s))%nat.
Proof.
  intros Hl (Hr & Hb & _)%read_exact_inv; [|done]. rewrite Hr, <-Hb. split; [apply take_bytes_app|].
  rewrite length_app. lia.
Qed.

Lemma land_127_bound b : 0 ≤ Z.land b 127 < 128.
Proof. rewrite land_127. apply Z.mod_pos_bound. lia. Qed.

(** The fifth byte has at most four payload bits. *)
Lemma land_fifth b : Z.land b 112 = 0 → Z.land b 127 < 16.
Proof.
  intros Hz. assert (Z.land b 127 = Z.land b 15) as ->.
  { change 127 with (Z.lor 112 15). by rewrite Z.land_lor_distr_r, Hz, Z.lor_0_l. }
  change 15 with (Z.ones 4). rewrite Z.land_ones by lia. apply Z.mod_pos_bound. lia.
Qed.

Lemma group_small b index n :
  (index + S n = 5)%nat → (index = 4%nat → Z.land b 112 = 0) →
  0 ≤ Z.shiftl (Z.land b 127) (Z.of_nat (index * 7)) < 2 ^ 32.
Proof.
  intros Hi H4. pose proof (land_127_bound b). rewrite Z.shiftl_mul_pow2 by lia.
  destruct (decide (index = 4%nat)) as [->|].
  - pose proof (land_fifth b (H4 eq_refl)). change (2 ^ Z.of_nat (4 * 7)) with (2 ^ 28). lia.
  - assert (Z.of_nat (index * 7) ≤ 21) by lia.
    assert (2 ^ Z.of_nat (index * 7) ≤ 2 ^ 21) by (apply Z.pow_le_mono_r; lia).
    assert (0 < 2 ^ Z.of_nat (index * 7)) by (apply Z.pow_pos_nonneg; lia). nia.
Qed.

Lemma sim_var_u32_from index n value c s v s' :
  (index + n = 5)%nat → 0 ≤ value < 2 ^ 32 → read_var_u32_from index n value c s = Ok (v, s') →
  var_u64_from index n value (rest s) = Some (v, rest s') ∧ (length (rest s') < length (rest s))%nat.
Proof.
  revert index value s. induction n as [|n IH]; intros index value s Hi Hval H; [done|].
  cbn [read_var_u32_from] in H. apply scan_bind_Ok in H as (b & s1 & Hb & H).
  pose proof (shrink_read_u8 _ _ _ _ Hb) as Hsh.
  cbn [var_u64_from]. rewrite (sim_read_u8 _ _ _ _ Hb). cbn [mbind option_bind].
  destruct ((index =? 4)%nat && negb (Z.land b 128 =? 0)) eqn:E1; [done|].
  destruct ((index =? 4)%nat && negb (Z.land b 112 =? 0)) eqn:E2; [done|].
  assert (H4 : index = 4%nat → Z.land b 112 = 0).
  { intros ->. simpl in E2. apply negb_false_iff in E2. by apply Z.eqb_eq in E2. }
  pose proof (group_small b index n Hi H4) as Hg.
  rewrite !(Z.mod_small (Z.shiftl _ _)) in * by lia.
  destruct (Z.land b 128 =? 0).
  - injection H as <- <-. done.
  - destruct (IH (S index) _ s1 ltac:(lia) (lor_bound 32 _ _ ltac:(lia) Hval Hg) H) as [-> ?]. split; [done|lia].
Qed.

Lemma sim_var_u32 c s v s' : read_var_u32 c s = Ok (v, s') →
  var_u64 5 (rest s) = Some (v, rest s') ∧ 0 ≤ v < 2 ^ 32 ∧ (length (rest s') < length (rest s))%nat.
Proof.
  intros H. destruct (sim_var_u32_from 0 5 0 c s v s') as [? ?]; [done|lia|exact H|]. split_and!; try done.
  all: eapply read_var_u32_range; [|exact H]; lia.
Qed.

Lemma sim_zigzag_i32 c s v s' : read_zigzag_i32 c s = Ok (v, s') →
  zigzag_i32 (rest s) = Some (v, rest s') ∧ (length (rest s') < length (rest s))%nat.
Proof.
  unfold read_zigzag_i32, zigzag_i32. intros H. scan_inv H.
  destruct (sim_var_u32 _ _ _ _ E) as (-> & Hr & ?). simpl. unfold to_unsigned. by rewrite Z.mod_small.
Qed.

Lemma sim_skip_i64_from index n value c s s' : skip_zigzag_i64_from index n c s = Ok ((), s') →
  ∃ v, var_u64_from index n value (rest s) = Some (v, rest s') ∧ (length (rest s') < length (rest s))%nat.
Proof.
  revert index value s. induction n as [|n IH]; intros index value s H; [done|].
  cbn [skip_zigzag_i64_from] in H. apply scan_bind_Ok in H as (b & s1 & Hb & H).
  pose proof (shrink_read_u8 _ _ _ _ Hb) as Hsh.
  cbn [var_u64_from]. rewrite (sim_read_u8 _ _ _ _ Hb). cbn [mbind option_bind].
  destruct ((index =? 9)%nat && negb (Z.land b 128 =? 0)); [done|].
  destruct ((index =? 9)%nat && negb (Z.land b 126 =? 0)); [done|].
  destruct (Z.land b 128 =? 0).
  - injection H as <-. eauto.
  - destruct (IH (S index) (Z.lor value (Z.shiftl (Z.land b 127) (Z.of_nat (index * 7)) mod 2 ^ 64)) s1 H) as (v & -> & ?).
    exists v. split; [done|lia].
Qed.

Lemma sim_skip_i64 c s s' : skip_zigzag_i64 c s = Ok ((), s') →
  ∃ v, zigzag_i64 (rest s) = Some (v, rest s') ∧ (length (rest s') < length (rest s))%nat.
Proof.
  intros H. destruct (sim_skip_i64_from _ _ 0 _ _ _ H) as (v & Hv & ?). exists (unzigzag v).
  unfold zigzag_i64, var_u64. by rewrite Hv.
Qed.

Lemma sim_length c s v s' : read_collection_length c s = Ok (v, s') →
  read_length (rest s) = Some (v, rest s') ∧ 0 ≤ v ∧ (length (rest s') < length (rest s))%nat.
Proof.
  intros H. pose proof (read_collection_length_nonneg _ _ _ _ H). unfold read_collection_length, read_length in *.
  scan_inv H. destruct (sim_zigzag_i32 _ _ _ _ E) as [-> ?]. simpl. by rewrite E0.
Qed.

Lemma sim_string c s b s' : scan_string c s = Ok (b, s') →
  read_string (rest s) = Some (b, rest s') ∧ (length (rest s') < length (rest s))%nat.
Proof.
  intros (len & s1 & Hl & Hr & Hb & _ & Hu & Hs & _)%scan_string_inv. unfold read_string.
  destruct (sim_var_u32 _ _ _ _ Hl) as (-> & _ & ?). simpl. rewrite Hr, Hb, take_bytes_app. simpl.
  rewrite Hu. split; [done|]. rewrite Hr, length_app in *. lia.
Qed.

Lemma sim_visit s s' : visit_tag s = Ok ((), s') → rest s' = rest s.
Proof. unfold visit_tag. case_match; [done|]. by intros [= <-]. Qed.

(** ** Loops *)

(** [item] follows [m], and each element takes at least a byte. *)
Definition follows {A} (bound : nat) (m : Scan unit) (item : Parser A) : Prop := ∀ s s',
  m s = Ok ((), s') → (length (rest s) ≤ bound)%nat →
  ∃ a, item (rest s) = Some (a, rest s') ∧ (length (rest s') < length (rest s))%nat.

Lemma sim_repeat {A} bound m (item : Parser A) n s s' :
  follows bound m item → repeat_scan n m s = Ok ((), s') → (length (rest s) ≤ bound)%nat →
  ∃ l, items_loop item n (rest s) = Some (l, rest s') ∧ (n + length (rest s') ≤ length (rest s))%nat.
Proof.
  intros Hm. revert s. induction n as [|n IH]; intros s H Hb.
  - injection H as <-. by exists [].
  - cbn [repeat_scan] in H. apply scan_bind_Ok in H as ([] & s1 & H1 & H).
    destruct (Hm _ _ H1 Hb) as (a & Ha & Hlt). destruct (IH _ H) as (l & Hl & Hn); [lia|].
    exists (a :: l). cbn [items_loop]. rewrite Ha. simpl. rewrite Hl. simpl. split; [done|lia].
Qed.

Lemma sim_compound_step bound payload value s s1 entries :
  (∀ tag, follows bound (payload tag) (value tag)) → (length (rest s) ≤ bound)%nat →
  scan_compound_step payload s = inl s1 →
  ∃ name v, compound_step value (entries, rest s) = inl (bt_insert name v entries, rest s1) ∧
    (length (rest s1) < length (rest s))%nat.
Proof.
  intros Hp Hb. unfold scan_compound_step, compound_step.
  destruct (read_u8 _ s) as [[t s0]|e] eqn:Ht; [|done].
  pose proof (shrink_read_u8 _ _ _ _ Ht). rewrite (sim_read_u8 _ _ _ _ Ht).
  destruct (t =? 0) eqn:Hz; [done|].
  destruct ((_ ← visit_tag; _ ← scan_string "tag name"; payload t) s0) as [[[] s2]|e] eqn:Hbd; [|done].
  intros [= <-]. scan_inv Hbd. destruct a. apply sim_visit in E.
  destruct (sim_string _ _ _ _ E0) as [Hs Hlt]. rewrite E in Hs, Hlt. rewrite Hs.
  destruct (Hp t _ _ Hbd) as (v & Hv & ?); [lia|]. exists a0, v. simpl. rewrite Hv. split; [done|lia].
Qed.

Lemma sim_compound bound payload value s s' :
  (∀ tag, follows bound (payload tag) (value tag)) → (length (rest s) ≤ bound)%nat →
  scan_compound payload s = Ok ((), s') →
  ∃ c, compound_loop value (rest s) = Some (c, rest s') ∧ (length (rest s') < length (rest s))%nat.
Proof.
  intros Hp Hb. unfold scan_compound, compound_loop.
  assert (Hgen : ∀ fuel s entries, (length (rest s) ≤ bound)%nat →
    run (Err (TooManyTags MAX_NBT_TAGS)) (scan_compound_step payload) fuel s = Ok ((), s') →
    ∃ c, run None (compound_step value) fuel (entries, rest s) = Some (c, rest s') ∧
      (length (rest s') < length (rest s))%nat).
  { clear s Hb. induction fuel as [|fuel IH]; intros s entries Hb H; [done|]. cbn [run] in *.
    destruct (scan_compound_step payload s) as [s1|r] eqn:Hstep.
    - destruct (sim_compound_step _ _ _ _ _ entries Hp Hb Hstep) as (name & v & -> & Hlt).
      destruct (IH s1 (bt_insert name v entries) ltac:(lia) H) as (c & Hc & ?). exists c. split; [done|lia].
    - unfold scan_compound_step in Hstep. destruct (read_u8 _ s) as [[t s0]|e] eqn:Ht.
      2:{ injection Hstep as <-. done. }
      unfold compound_step. pose proof (shrink_read_u8 _ _ _ _ Ht). rewrite (sim_read_u8 _ _ _ _ Ht).
      destruct (t =? 0) eqn:Hz.
      2:{ destruct ((_ ← visit_tag; _ ← scan_string "tag name"; payload t) s0) as [[[] ?]|]; [done|].
          injection Hstep as <-. done. }
      injection Hstep as <-. injection H as <-. eauto. }
  by apply Hgen.
Qed.

(** ** Payloads *)

Lemma sim_skip len c s s' : 0 < len → skip len c s = Ok ((), s') →
  ∃ b, take_bytes len (rest s) = Some (b, rest s') ∧ (length (rest s') < length (rest s))%nat.
Proof.
  intros Hl H. unfold skip in H. scan_inv H. destruct (sim_read_exact len _ _ _ _ ltac:(lia) E) as [? ?].
  eexists. split; [done|lia].
Qed.

Lemma sim_skip_len len c s s' : 0 ≤ len → skip len c s = Ok ((), s') →
  ∃ b, take_bytes len (rest s) = Some (b, rest s') ∧ (length (rest s') ≤ length (rest s))%nat.
Proof.
  intros Hl H. unfold skip in H. scan_inv H. destruct (sim_read_exact _ _ _ _ _ Hl E) as [? ?].
  eexists. split; [done|lia].
Qed.

Lemma sim_limit len m c s s' : check_collection_limit len m c s = Ok ((), s') → s' = s.
Proof.
  unfold check_collection_limit. destruct (len <=? _); [by intros [= <-]|]. intros H. scan_inv H.
Qed.

Lemma minimum_pure tag s m s' : minimum_payload_size tag s = Ok (m, s') → s' = s.
Proof. unfold minimum_payload_size. repeat case_match; by intros [= _ <-]. Qed.

Lemma follows_visit {A} bound (m : Scan unit) (item : Parser A) :
  follows bound m item → follows bound (_ ← visit_tag; m) item.
Proof.
  intros Hm s s' H Hb. apply scan_bind_Ok in H as ([] & s1 & H1 & H). apply sim_visit in H1.
  rewrite <-H1 in *. by apply Hm.
Qed.

Lemma follows_zigzag_i32 bound c : follows bound (skip_zigzag_i32 c) zigzag_i32.
Proof.
  intros s s' H _. unfold skip_zigzag_i32 in H. scan_inv H.
  destruct (sim_zigzag_i32 _ _ _ _ E) as [? ?]. eauto.
Qed.
Lemma follows_zigzag_i64 bound c : follows bound (skip_zigzag_i64 c) zigzag_i64.
Proof. intros s s' H _. by apply sim_skip_i64 in H. Qed.

Section payload.
Context (input_len : nat).

Lemma sim_fixed room tag len c (mk : Z → NbtValue) :
  0 < len →
  (∀ l, value (Z.of_nat input_len) room tag l = ('(v, l) ← read_le len l; Some (mk v, l))) →
  follows input_len (skip len c) (value (Z.of_nat input_len) room tag).
Proof using Type.
  intros Hlen Hval s s' H _. destruct (sim_skip _ _ _ _ Hlen H) as (b & Hb & ?).
  exists (mk (le_value b)). rewrite Hval. unfold read_le. by rewrite Hb.
Qed.

(** The two array payloads and the list share the limit test. *)
Lemma sim_items {A} n m (item : Parser A) s s' :
  0 ≤ n → follows input_len m item → repeat_scan (Z.to_nat n) m s = Ok ((), s') →
  (length (rest s) ≤ input_len)%nat →
  (Z.of_nat input_len <? n) = false ∧ ∃ l, items_loop item (Z.to_nat n) (rest s) = Some (l, rest s') ∧
    (length (rest s') ≤ length (rest s))%nat.
Proof using Type.
  intros Hn Hm H Hb. destruct (sim_repeat _ _ _ _ _ _ Hm H Hb) as (l & Hl & Hle).
  split; [apply Z.ltb_ge; lia|]. exists l. split; [done|lia].
Qed.

(** Each tag in turn: the scanner's case against the parser's. *)
Lemma sim_byte room : follows input_len (skip 1 "byte") (value (Z.of_nat input_len) room 1).
Proof using Type.
  intros s s' H _. unfold skip in H. scan_inv H.
  apply read_exact_inv in E as (Hr & Hl & _); [|lia]. destruct a as [|x [|]]; simpl in Hl; try lia.
  exists (NByte (to_signed 8 x)). rewrite Hr. destruct room; simpl; (split; [done|lia]).
Qed.

Lemma sim_byte_array room :
  follows input_len (len ← read_collection_length "byte array"; skip len "byte array")
    (value (Z.of_nat input_len) room 7).
Proof using Type.
  intros s s' H _. scan_inv H. destruct (sim_length _ _ _ _ E) as (Hl & Hn & ?).
  destruct (sim_skip_len _ _ _ _ Hn H) as (b & Hb & ?). exists (NByteArray b).
  destruct room; cbn [value]; rewrite Hl; simpl; rewrite Hb; simpl; (split; [done|lia]).
Qed.

Lemma sim_string_payload room : follows input_len (_ ← scan_string "string"; mret ()) (value (Z.of_nat input_len) room 8).
Proof using Type.
  intros s s' H _. scan_inv H. destruct (sim_string _ _ _ _ E) as (Hl & ?). exists (NString a).
  destruct room; cbn [value]; by rewrite Hl.
Qed.

Lemma sim_int room : follows input_len (skip_zigzag_i32 "int") (value (Z.of_nat input_len) room 3).
Proof using Type.
  intros s s' H Hb. destruct (follows_zigzag_i32 input_len _ _ _ H Hb) as (v & Hv & ?).
  exists (NInt v). destruct room; cbn [value]; by rewrite Hv.
Qed.

Lemma sim_long room : follows input_len (skip_zigzag_i64 "long") (value (Z.of_nat input_len) room 4).
Proof using Type.
  intros s s' H Hb. destruct (follows_zigzag_i64 input_len _ _ _ H Hb) as (v & Hv & ?).
  exists (NLong v). destruct room; cbn [value]; by rewrite Hv.
Qed.

Lemma sim_array room tag m c1 c2 (item : Parser Z) (mk : list Z → NbtValue) :
  (∀ l, value (Z.of_nat input_len) room tag l =
     ('(n, l) ← read_length l; if Z.of_nat input_len <? n then None
      else '(items, l) ← items_loop item (Z.to_nat n) l; Some (mk items, l))) →
  follows input_len m item →
  follows input_len
    (len ← read_collection_length c1; _ ← check_collection_limit len 1 c2; repeat_scan (Z.to_nat len) m)
    (value (Z.of_nat input_len) room tag).
Proof using Type.
  intros Hval Hm s s' H Hb. scan_inv H. destruct (sim_length _ _ _ _ E) as (Hl & Hn & ?).
  destruct a0. apply sim_limit in E0 as ->.
  destruct (sim_items _ _ _ _ _ Hn Hm H) as (Hlt & l & Hi & ?); [lia|]. exists (mk l).
  rewrite Hval, Hl. simpl. rewrite Hlt, Hi. simpl. split; [done|lia].
Qed.

Lemma sim_list room s s' :
  (∀ tag, follows input_len (scan_payload room tag) (value (Z.of_nat input_len) (S room) tag)) →
  scan_payload (S room) 9 s = Ok ((), s') → (length (rest s) ≤ input_len)%nat →
  ∃ v, value (Z.of_nat input_len) (S (S room)) 9 (rest s) = Some (v, rest s') ∧ (length (rest s') < length (rest s))%nat.
Proof using Type.
  intros IH H Hb. change (scan_payload (S room) 9) with
    (element_tag ← read_u8 "list element tag";
     len ← read_collection_length "list";
     if (element_tag =? 0) && negb (len =? 0) then fail NonEmptyEndList
     else _ ← (if negb (len =? 0) then
                 minimum ← minimum_payload_size element_tag;
                 check_collection_limit len minimum "list elements" else mret ());
          repeat_scan (Z.to_nat len) (_ ← visit_tag; scan_payload room element_tag)) in H.
  scan_inv H. pose proof (shrink_read_u8 _ _ _ _ E) as Hsh. apply sim_read_u8 in E.
  destruct (sim_length _ _ _ _ E0) as (Hl & Hn & ?).
  assert (Hs : s2 = s1).
  { destruct (negb (a0 =? 0)); scan_inv E2; [|done]. apply minimum_pure in E3 as ->. destruct a1. by apply sim_limit in E2. }
  rewrite Hs in H.
  destruct (sim_items _ _ _ _ _ Hn (follows_visit _ _ _ (IH a)) H) as (Hlt & l & Hi & ?); [lia|].
  exists (NList l).
  change (value (Z.of_nat input_len) (S (S room)) 9 (rest s)) with
    ('(element, l) ← read_byte (rest s); '(n, l) ← read_length l;
     if Z.of_nat input_len <? n then None
     else '(items, l) ← items_loop (value (Z.of_nat input_len) (S room) element) (Z.to_nat n) l; Some (NList items, l)).
  rewrite E. simpl. rewrite Hl. simpl. rewrite Hlt. cbn [value] in Hi. rewrite Hi. simpl. split; [done|lia].
Qed.

Lemma sim_compound_payload room s s' :
  (∀ tag, follows input_len (scan_payload room tag) (value (Z.of_nat input_len) (S room) tag)) →
  scan_payload (S room) 10 s = Ok ((), s') → (length (rest s) ≤ input_len)%nat →
  ∃ v, value (Z.of_nat input_len) (S (S room)) 10 (rest s) = Some (v, rest s') ∧ (length (rest s') < length (rest s))%nat.
Proof using Type.
  intros IH H Hb. destruct (sim_compound _ _ _ _ _ IH Hb H) as (c & Hc & ?). exists (NCompound c).
  change (value (Z.of_nat input_len) (S (S room)) 10 (rest s)) with
    ('(c, l) ← compound_loop (value (Z.of_nat input_len) (S room)) (rest s); Some (NCompound c, l)).
  by rewrite Hc.
Qed.

Lemma sim_payload room tag :
  follows input_len (scan_payload room tag) (value (Z.of_nat input_len) (S room) tag).
Proof using Type.
  revert tag. induction room as [|room IH]; intros tag s s' H Hb; pose proof H as H0; cbn [scan_payload] in H;
    repeat match type of H with match ?t with _ => _ end _ = Ok _ => destruct t; try discriminate H end.
  all: first
    [ exact (sim_byte _ _ _ H Hb) | exact (sim_byte_array _ _ _ H Hb) | exact (sim_string_payload _ _ _ H Hb)
    | exact (sim_int _ _ _ H Hb) | exact (sim_long _ _ _ H Hb)
    | exact (sim_list _ _ _ IH H0 Hb) | exact (sim_compound_payload _ _ _ IH H0 Hb)
    | refine (sim_fixed _ _ _ _ (λ v, NShort (to_signed 16 v)) _ _ _ _ H Hb); [lia|done]
    | refine (sim_fixed _ _ _ _ NFloat _ _ _ _ H Hb); [lia|done]
    | refine (sim_fixed _ _ _ _ NDouble _ _ _ _ H Hb); [lia|done]
    | refine (sim_array _ _ _ _ _ zigzag_i32 NIntArray _ _ _ _ H Hb); [done|apply follows_zigzag_i32]
    | refine (sim_array _ _ _ _ _ zigzag_i64 NLongArray _ _ _ _ H Hb); [done|apply follows_zigzag_i64] ].
Qed.
End payload.
