(* ===== verification/NbtRoot.v ===== *)
(** * Roots admitted by the scanner

    The frame of [scan_prefix], the agreement of the metadata it keeps with the parsed tree, and
    the properties callers rely on. *)
From stdpp Require Import base numbers list strings.
From S2P Require Import Prelude Packed Bytes NbtTree NbtTreeSpec NbtScan NbtScanSpec.
#[local] Open Scope Z_scope.

Lemma child_room : S CHILD_ROOM = MAX_NBT_DEPTH.
Proof. done. Qed.
#[local] Opaque MAX_NBT_DEPTH CHILD_ROOM.

(** ** The root loop reads a prefix *)

Lemma on_scan_Ok {A} (m : Scan A) r a r' :
  on_scan m r = Ok (a, r') ↔ ∃ s', m (r_scan r) = Ok (a, s') ∧ r' = with_scan r s'.
Proof.
  unfold on_scan, prefer_wire_or_first_semantic. destruct (m (r_scan r)) as [[b s]|e].
  - split; [intros [= <- <-]; eauto|by intros (s' & [= <- <-] & ->)].
  - destruct (is_wire_error e); split; (done || by intros (? & ? & _)).
Qed.

Definition root_framed (f : root_state → result BlockEntityNbtError root_state) : Prop := ∀ r r', f r = Ok r' →
  ∃ p, rest (r_scan r) = p ++ rest (r_scan r') ∧
    position (r_scan r') = position (r_scan r) + Z.of_nat (length p) ∧
    (position (r_scan r) ≤ MAX_BLOCK_ENTITY_NBT_BYTES → position (r_scan r') ≤ MAX_BLOCK_ENTITY_NBT_BYTES) ∧
    ∀ ext, f (with_scan r (mk_scan (position (r_scan r)) (p ++ ext) (tags (r_scan r))))
           = Ok (with_scan r' (mk_scan (position (r_scan r')) ext (tags (r_scan r')))).

Lemma root_framed_bind {A} (m : root_state → Scan A) (f : A → root_state → result BlockEntityNbtError root_state) :
  (∀ r, framed (m r)) → (∀ r s, m (with_scan r s) = m r) → (∀ a, root_framed (f a)) →
  root_framed (λ r, '(a, r) ← on_scan (m r) r; f a r).
Proof.
  intros Hm Hc Hf r r' ([a r1] & H1 & H2)%result_bind_Ok. apply on_scan_Ok in H1 as (s1 & H1 & ->).
  destruct (Hm r _ _ _ H1) as (p1 & Hr1 & Hp1 & Hb1 & He1).
  destruct (Hf a _ _ H2) as (p2 & Hr2 & Hp2 & Hb2 & He2). simpl in *.
  exists (p1 ++ p2). split_and!.
  - by rewrite Hr1, Hr2, app_assoc.
  - rewrite length_app. lia.
  - auto.
  - intros ext. apply result_bind_Ok. eexists (a, _). split; [|apply He2].
    apply on_scan_Ok. eexists. rewrite Hc. simpl. rewrite <-app_assoc. split; [apply He1|done].
Qed.

Lemma root_framed_update (g : root_state → root_state) :
  (∀ r s, g (with_scan r s) = with_scan (g r) s) → root_framed (λ r, Ok (g r)).
Proof.
  intros Hg r r' [= <-].
  assert (Hs : r_scan (g r) = r_scan r).
  { pose proof (Hg r (r_scan r)) as H. assert (with_scan r (r_scan r) = r) as Hr by by destruct r.
    rewrite Hr in H. by rewrite H. }
  exists []. rewrite Hs. simpl. split_and!; [done|lia|done|]. intros ext. by rewrite Hg.
Qed.

Lemma root_framed_pre (h : root_state → root_state) f :
  (∀ r s, h (with_scan r s) = with_scan (h r) s) → root_framed f → root_framed (λ r, f (h r)).
Proof.
  intros Hh Hf r r' H.
  assert (Hs : r_scan (h r) = r_scan r).
  { pose proof (Hh r (r_scan r)) as Hx. assert (with_scan r (r_scan r) = r) as Hr by by destruct r.
    rewrite Hr in Hx. by rewrite Hx. }
  destruct (Hf _ _ H) as (p & Hr & Hp & Hb & He). rewrite Hs in *. exists p. split_and!; [done..|].
  intros ext. by rewrite Hh.
Qed.

Lemma root_framed_ext f g : (∀ r, f r = g r) → root_framed f → root_framed g.
Proof.
  intros He Hf r r' H. rewrite <-He in H. destruct (Hf _ _ H) as (p & ? & ? & ? & Hx).
  exists p. split_and!; [done..|]. intros ext. by rewrite <-He.
Qed.

Lemma framed_candidate c tag : framed (scan_root_byte_candidate c tag).
Proof. unfold scan_root_byte_candidate. auto 12 with framed. Qed.

(** An arm that only skips the payload. *)
Lemma root_framed_payload tag : root_framed (λ r, snd <$> on_scan (scan_payload CHILD_ROOM tag) r).
Proof.
  apply (root_framed_ext (λ r, '(_, r) ← on_scan (scan_payload CHILD_ROOM tag) r; Ok r)).
  - intros r. destruct (on_scan _ r) as [[]|]; done.
  - apply (root_framed_bind (λ _, scan_payload CHILD_ROOM tag) (λ _ r, Ok r)); [auto with framed|done|].
    intros _. by apply root_framed_update.
Qed.

Lemma root_framed_field name tag : root_framed (root_field name tag).
Proof.
  unfold root_field.
  assert (Haxis : ∀ slot field, root_framed (root_axis_field slot field tag)).
  { intros slot field. unfold root_axis_field. destruct (negb _).
    - by apply (root_framed_pre (λ r, with_semantic r (InvalidRootFieldType field 3 tag)) (λ r, snd <$> on_scan (scan_payload CHILD_ROOM tag) r)), root_framed_payload.
    - apply (root_framed_bind (λ _, read_zigzag_i32 "position")); [auto with framed|done|].
      intros a. apply root_framed_update. intros r s. simpl. by destruct (axis _ _). }
  repeat case_decide; auto using root_framed_payload.
  - unfold root_id_field. destruct (negb _).
    + by apply (root_framed_pre (λ r, with_semantic r (InvalidRootFieldType "id" 8 tag)) (λ r, snd <$> on_scan (scan_payload CHILD_ROOM tag) r)), root_framed_payload.
    + apply (root_framed_bind (λ _, scan_string "id value")); [auto with framed|done|].
      intros a. apply root_framed_update. intros r s. simpl. by destruct (r_id r).
  - apply (root_framed_bind (λ r, scan_root_byte_candidate (r_note r) tag)); [intros; apply framed_candidate|done|].
    intros c. by apply root_framed_update.
  - apply (root_framed_bind (λ r, scan_root_byte_candidate (r_powered r) tag)); [intros; apply framed_candidate|done|].
    intros c. by apply root_framed_update.
Qed.

Definition root_entry (tag : Z) (r : root_state) : result BlockEntityNbtError root_state :=
  '(_, r) ← on_scan visit_tag r;
  '(name, r) ← on_scan (scan_string "tag name") r;
  root_field name tag r.

Lemma root_framed_entry tag : root_framed (root_entry tag).
Proof.
  apply (root_framed_bind (λ _, visit_tag)); [auto with framed|done|]. intros _.
  apply (root_framed_bind (λ _, scan_string "tag name")); [auto with framed|done|]. intros name.
  apply root_framed_field.
Qed.

Lemma root_step_entry r :
  root_step r = match on_scan (read_u8 "compound tag") r with
                | Err e => inr (Err e)
                | Ok (tag, r) => if tag =? 0 then inr (Ok r)
                                 else match root_entry tag r with Err e => inr (Err e) | Ok r => inl r end
                end.
Proof. done. Qed.

(** The tag byte of a turn. *)
Lemma on_read_u8 c r t r0 : on_scan (read_u8 c) r = Ok (t, r0) →
  rest (r_scan r) = t :: rest (r_scan r0) ∧ position (r_scan r0) = position (r_scan r) + 1 ∧
  position (r_scan r0) ≤ MAX_BLOCK_ENTITY_NBT_BYTES ∧
  ∀ ext, on_scan (read_u8 c) (with_scan r (mk_scan (position (r_scan r)) (t :: ext) (tags (r_scan r))))
         = Ok (t, with_scan r0 (mk_scan (position (r_scan r0)) ext (tags (r_scan r0)))).
Proof.
  intros (s & H & ->)%on_scan_Ok. destruct (framed_read_u8 c _ _ _ H) as (p & Hp & Hpos & _ & He).
  apply read_u8_inv in H as (Hr & Hpos' & _ & Hm). simpl. split_and!; [done|done|done|]. intros ext.
  assert (p = [t]) as ->.
  { destruct p as [|x [|y p]]; simpl in *; [lia| |lia]. congruence. }
  apply on_scan_Ok. eexists. simpl. split; [apply He|done].
Qed.

Lemma root_framed_loop : root_framed root_loop.
Proof.
  intros r r'. unfold root_loop. generalize (S (length (rest (r_scan r)))).
  assert (Hgen : ∀ fuel r, run (Err (TooManyTags MAX_NBT_TAGS)) root_step fuel r = Ok r' →
    ∃ p, rest (r_scan r) = p ++ rest (r_scan r') ∧
    position (r_scan r') = position (r_scan r) + Z.of_nat (length p) ∧
    (position (r_scan r) ≤ MAX_BLOCK_ENTITY_NBT_BYTES → position (r_scan r') ≤ MAX_BLOCK_ENTITY_NBT_BYTES) ∧
    ∀ ext fuel', (length (p ++ ext) < fuel')%nat →
      run (Err (TooManyTags MAX_NBT_TAGS)) root_step fuel'
        (with_scan r (mk_scan (position (r_scan r)) (p ++ ext) (tags (r_scan r))))
      = Ok (with_scan r' (mk_scan (position (r_scan r')) ext (tags (r_scan r'))))).
  { clear r. induction fuel as [|fuel IH]; intros r H; [done|]. cbn [run] in H. rewrite root_step_entry in H.
    destruct (on_scan (read_u8 "compound tag") r) as [[t r0]|e] eqn:Ht; [|done].
    destruct (on_read_u8 _ _ _ _ Ht) as (Hr0 & Hp0 & Hm0 & He0).
    destruct (t =? 0) eqn:Hz.
    - injection H as <-. exists [t]. split_and!; [done|done|done|].
      intros ext [|fuel'] Hf; [lia|]. cbn [run app]. by rewrite root_step_entry, He0, Hz.
    - destruct (root_entry t r0) as [r1|e] eqn:Hen; [|done].
      destruct (root_framed_entry _ _ _ Hen) as (p1 & Hr1 & Hp1 & Hb1 & He1).
      destruct (IH _ H) as (p2 & Hr2 & Hp2 & Hb2 & He2).
      exists (t :: p1 ++ p2). split_and!.
      + by rewrite Hr0, Hr1, Hr2, <-app_comm_cons, <-app_assoc.
      + simpl. rewrite length_app. lia.
      + auto.
      + intros ext [|fuel'] Hf; [lia|]. cbn [run]. rewrite <-app_comm_cons, <-app_assoc, root_step_entry, He0, Hz.
        rewrite (He1 (p2 ++ ext)). apply He2. simpl in Hf. rewrite !length_app in *. lia. }
  intros fuel H. destruct (Hgen _ _ H) as (p & Hr & Hpos & Hb & He). exists p. split_and!; [done..|].
  intros ext. apply He. simpl. lia.
Qed.

(** ** The frame of [scan_prefix] *)

Lemma framed_header :
  framed scan_header.
Proof. unfold scan_header. auto 10 with framed. Qed.

Lemma take_app_Z {A} (p q : list A) n : n = Z.of_nat (length p) → take (Z.to_nat n) (p ++ q) = p.
Proof. intros ->. by rewrite Nat2Z.id, take_app_length. Qed.

Section frame.
Context (sha256 : bytes → bytes).

Lemma scan_prefix_frame input nbt n sem :
  scan_prefix sha256 input = Ok (nbt, n, sem) →
  0 ≤ n ≤ Z.of_nat (length input) ∧ n ≤ MAX_BLOCK_ENTITY_NBT_BYTES ∧
  nbt_bytes nbt = take (Z.to_nat n) input ∧
  ∀ ext, scan_prefix sha256 (take (Z.to_nat n) input ++ ext) = Ok (nbt, n, sem).
Proof using Type.
  unfold scan_prefix. destruct (scan_header (mk_scan 0 input 0)) as [[root s]|e] eqn:Hh; [|done].
  destruct (framed_header _ _ _ Hh) as (p1 & Hr1 & Hp1 & Hb1 & He1). cbn [rest position tags r_scan] in *.
  destruct (negb (root =? 10)) eqn:Hroot.
  - destruct (scan_payload MAX_NBT_DEPTH root s) as [[[] s1]|e] eqn:Hp.
    2:{ simpl. by destruct (is_wire_error e). }
    destruct (framed_scan_payload _ _ _ _ _ Hp) as (p2 & Hr2 & Hp2 & Hb2 & He2).
    cbn [prefer_wire_or_first_semantic]. unfold consumed_bytes. intros [= <- <- <-].
    assert (Hn : position s1 = Z.of_nat (length (p1 ++ p2))) by (rewrite length_app; lia).
    assert (Hi : input = (p1 ++ p2) ++ rest s1) by (by rewrite Hr1, Hr2, app_assoc).
    assert (Htk : take (Z.to_nat (position s1)) input = p1 ++ p2) by (rewrite Hi; by apply take_app_Z).
    rewrite Htk. cbn [nbt_bytes]. split_and!; try done.
    + lia.
    + rewrite Hi, length_app. lia.
    + apply Hb2, Hb1. unfold MAX_BLOCK_ENTITY_NBT_BYTES. lia.
    + intros ext. rewrite <-app_assoc, (He1 (p2 ++ ext)), Hroot, (He2 ext).
      cbn [prefer_wire_or_first_semantic position]. rewrite app_assoc, (take_app_Z (p1 ++ p2)) by done. done.
  - destruct (root_loop (mk_root s None (None, None, None) Absent Absent None)) as [r|e] eqn:Hl; [|done].
    destruct (root_framed_loop _ _ Hl) as (p2 & Hr2 & Hp2 & Hb2 & He2). cbn [rest position tags r_scan] in *.
    destruct (root_position r) as [embedded semantic] eqn:Hpos. unfold consumed_bytes. intros [= <- <- <-].
    assert (Hn : position (r_scan r) = Z.of_nat (length (p1 ++ p2))) by (rewrite length_app; lia).
    assert (Hi : input = (p1 ++ p2) ++ rest (r_scan r)) by (by rewrite Hr1, Hr2, app_assoc).
    assert (Htk : take (Z.to_nat (position (r_scan r))) input = p1 ++ p2) by (rewrite Hi; by apply take_app_Z).
    rewrite Htk. cbn [nbt_bytes]. split_and!; try done.
    + lia.
    + rewrite Hi, length_app. lia.
    + apply Hb2, Hb1. unfold MAX_BLOCK_ENTITY_NBT_BYTES. lia.
    + intros ext. rewrite <-app_assoc, (He1 (p2 ++ ext)), Hroot.
      pose proof (He2 ext) as He2'. unfold with_scan in He2'. simpl in He2'. rewrite He2'.
      unfold root_position in *. simpl. rewrite Hpos. rewrite app_assoc, (take_app_Z (p1 ++ p2)) by done. done.
Qed.

(** A successful root reads at least its tag. *)
Lemma scan_prefix_positive input nbt n sem : scan_prefix sha256 input = Ok (nbt, n, sem) → 1 ≤ n.
Proof using Type.
  intros H. destruct (scan_prefix_frame _ _ _ _ H) as (Hn & _ & _ & Hf).
  destruct (decide (n = 0)) as [->|]; [exfalso|lia]. specialize (Hf []). simpl in Hf. done.
Qed.
End frame.

(** ** The metadata agrees with the tree *)

Definition candidate_agrees (c : RootByteCandidate) (o : option NbtValue) : Prop :=
  match c with Absent => o = None | Value b => o = Some (NByte (to_signed 8 b)) | Invalid => True end.

(** What the loop's locals say of the entries read so far, as long as no semantic error is pending. *)
Record agrees (r : root_state) (c : NbtCompound) : Prop := {
  ag_id : Compound.get c ID = NString <$> r_id r;
  ag_x : Compound.get c X = NInt <$> axis (r_position r) 0;
  ag_y : Compound.get c Y = NInt <$> axis (r_position r) 1;
  ag_z : Compound.get c Z_ = NInt <$> axis (r_position r) 2;
  ag_note : candidate_agrees (r_note r) (Compound.get c NOTE);
  ag_powered : candidate_agrees (r_powered r) (Compound.get c POWERED);
}.

Lemma get_insert_eq k v (c : NbtCompound) : Compound.get (bt_insert k v c) k = Some v.
Proof. unfold Compound.get. by rewrite bt_get_insert, cmp_refl. Qed.

Lemma get_insert_ne k k' v (c : NbtCompound) : k' ≠ k → Compound.get (bt_insert k v c) k' = Compound.get c k'.
Proof.
  intros Hne. unfold Compound.get. rewrite bt_get_insert. destruct (ord_cmp k' k) eqn:E; [|done|done].
  by apply cmp_eq in E.
Qed.

(** Entries under other names leave the metadata alone. *)
Lemma agrees_other r c name v :
  name ∉ [ID; X; Y; Z_; NOTE; POWERED] → agrees r c → agrees r (bt_insert name v c).
Proof.
  rewrite !not_elem_of_cons. intros (H1 & H2 & H3 & H4 & H5 & H6 & _) []. split; rewrite get_insert_ne by congruence; done.
Qed.

Ltac agree_tac := split; simpl; rewrite ?get_insert_eq; rewrite ?get_insert_ne by done; auto.

Section agree.
Context (input_len : nat).
Let value := value (Z.of_nat input_len) (S CHILD_ROOM).

Lemma on_payload tag r a r1 :
  on_scan (scan_payload CHILD_ROOM tag) r = Ok (a, r1) → (length (rest (r_scan r)) ≤ input_len)%nat →
  ∃ v, value tag (rest (r_scan r)) = Some (v, rest (r_scan r1)) ∧
    (length (rest (r_scan r1)) < length (rest (r_scan r)))%nat ∧ ∃ s, r1 = with_scan r s.
Proof using Type.
  intros (s & H & ->)%on_scan_Ok Hb. destruct a. destruct (sim_payload _ _ _ _ _ H Hb) as (v & Hv & ?).
  exists v. split_and!; [exact Hv|done|by eexists].
Qed.

Definition field_follows (name : bytes) (tag : Z) (r r1 : root_state) : Prop :=
  ∃ v, value tag (rest (r_scan r)) = Some (v, rest (r_scan r1)) ∧
    (length (rest (r_scan r1)) < length (rest (r_scan r)))%nat ∧
    (r_semantic r1 = None → r_semantic r = None ∧ ∀ c, agrees r c → agrees r1 (bt_insert name v c)).

Lemma id_field_follows tag r r1 :
  root_id_field tag r = Ok r1 → (length (rest (r_scan r)) ≤ input_len)%nat → field_follows ID tag r r1.
Proof using Type.
  unfold root_id_field. intros H Hb. destruct (Z.eqb_spec tag 8) as [->|]; simpl in H.
  - apply result_bind_Ok in H as ([a r0] & H0 & H). apply on_scan_Ok in H0 as (s & Hs & ->).
    destruct (sim_string _ _ _ _ Hs) as [Hv Hlt]. exists (NString a).
    change (value 8 (rest (r_scan r))) with ('(s, l) ← read_string (rest (r_scan r)); Some (NString s, l)).
    rewrite Hv. simpl in H. destruct (r_id r) as [i|] eqn:Hi; injection H as <-; simpl; (split_and!; [done|done|]).
    + discriminate.
    + intros Hsem. split; [done|]. intros c []. by agree_tac.
  - destruct (on_scan _ _) as [[u r0]|] eqn:H0; simpl in H; [|done]. injection H as <-.
    apply on_payload in H0 as (v & Hv & ? & s & ->); [|done]. exists v. split_and!; try done.
Qed.

Lemma axis_field_follows slot name field tag r r1 :
  (slot, name) ∈ [(0%nat, X); (1%nat, Y); (2%nat, Z_)] →
  root_axis_field slot field tag r = Ok r1 → (length (rest (r_scan r)) ≤ input_len)%nat →
  field_follows name tag r r1.
Proof using Type.
  unfold root_axis_field. intros Hslot H Hb. destruct (Z.eqb_spec tag 3) as [->|]; simpl in H.
  - apply result_bind_Ok in H as ([a r0] & H0 & H). apply on_scan_Ok in H0 as (s & Hs & ->).
    destruct (sim_zigzag_i32 _ _ _ _ Hs) as [Hv Hlt]. exists (NInt a).
    change (value 3 (rest (r_scan r))) with ('(v, l) ← zigzag_i32 (rest (r_scan r)); Some (NInt v, l)).
    rewrite Hv. simpl in H. destruct (axis (r_position r) slot) as [i|] eqn:Hi; injection H as <-; simpl;
      (split_and!; [done|done|]); [discriminate|].
    intros Hsem. split; [done|]. intros c [].
    apply elem_of_cons in Hslot as [[= -> ->]|Hslot]; [by agree_tac|].
    apply elem_of_cons in Hslot as [[= -> ->]|Hslot]; [by agree_tac|].
    apply list_elem_of_singleton in Hslot as [= -> ->]. by agree_tac.
  - destruct (on_scan _ _) as [[u r0]|] eqn:H0; simpl in H; [|done]. injection H as <-.
    apply on_payload in H0 as (v & Hv & ? & s & ->); [|done]. exists v. split_and!; try done.
Qed.

Lemma candidate_follows c0 tag s c1 s1 :
  scan_root_byte_candidate c0 tag s = Ok (c1, s1) → (length (rest s) ≤ input_len)%nat →
  ∃ v, value tag (rest s) = Some (v, rest s1) ∧ (length (rest s1) < length (rest s))%nat ∧
    ∀ o, candidate_agrees c0 o → candidate_agrees c1 (Some v).
Proof using Type.
  unfold scan_root_byte_candidate. intros H Hb. destruct (Z.eqb_spec tag 1) as [->|].
  - scan_inv H. scan_inv E. pose proof (shrink_read_u8 _ _ _ _ E0). apply sim_read_u8 in E0. exists (NByte (to_signed 8 a0)).
    change (value 1 (rest s)) with ('(b, l) ← read_byte (rest s); Some (NByte (to_signed 8 b), l)).
    rewrite E0. split_and!; [done|done|]. intros o. by destruct c0.
  - scan_inv H. scan_inv E. destruct a0. destruct (sim_payload _ _ _ _ _ E0 Hb) as (v & Hv & ?). exists v.
    split_and!; [exact Hv|done|]. by destruct c0.
Qed.

Lemma root_field_follows name tag r r1 :
  root_field name tag r = Ok r1 → (length (rest (r_scan r)) ≤ input_len)%nat → field_follows name tag r r1.
Proof using Type.
  unfold root_field. intros H Hb.
  destruct (decide (name = ID)) as [->|N1]; [by apply id_field_follows|].
  destruct (decide (name = X)) as [->|N2]; [eapply axis_field_follows; [|done|done]; repeat first [by left|right]|].
  destruct (decide (name = Y)) as [->|N3]; [eapply axis_field_follows; [|done|done]; repeat first [by left|right]|].
  destruct (decide (name = Z_)) as [->|N4]; [eapply axis_field_follows; [|done|done]; repeat first [by left|right]|].
  destruct (decide (name = NOTE)) as [->|N5].
  { apply result_bind_Ok in H as ([c r0] & H0 & H). apply on_scan_Ok in H0 as (s & Hs & ->).
    destruct (candidate_follows _ _ _ _ _ Hs Hb) as (v & Hv & ? & Hc). injection H as <-. exists v.
    split_and!; [done|done|]. intros Hsem. split; [done|]. intros c' []. agree_tac. by eapply Hc. }
  destruct (decide (name = POWERED)) as [->|N6].
  { apply result_bind_Ok in H as ([c r0] & H0 & H). apply on_scan_Ok in H0 as (s & Hs & ->).
    destruct (candidate_follows _ _ _ _ _ Hs Hb) as (v & Hv & ? & Hc). injection H as <-. exists v.
    split_and!; [done|done|]. intros Hsem. split; [done|]. intros c' []. agree_tac. by eapply Hc. }
  destruct (on_scan _ _) as [[u r0]|] eqn:H0; simpl in H; [|done]. injection H as <-.
  apply on_payload in H0 as (v & Hv & ? & s & ->); [|done]. exists v. split_and!; [done|done|].
  intros Hsem. split; [done|]. intros c Hc. apply agrees_other; [|by destruct Hc].
  rewrite !not_elem_of_cons. split_and!; try done. apply not_elem_of_nil.
Qed.

(** The two loops in lockstep. *)
Lemma root_loop_follows fuel r r' c :
  run (Err (TooManyTags MAX_NBT_TAGS)) root_step fuel r = Ok r' → (length (rest (r_scan r)) ≤ input_len)%nat →
  ∃ c', run None (compound_step value) fuel (c, rest (r_scan r)) = Some (c', rest (r_scan r')) ∧
    (r_semantic r' = None → r_semantic r = None ∧ (agrees r c → agrees r' c')).
Proof using Type.
  revert r c. induction fuel as [|fuel IH]; intros r c H Hb; [done|]. cbn [run] in *.
  rewrite root_step_entry in H. unfold compound_step at 1.
  destruct (on_scan (read_u8 "compound tag") r) as [[t r0]|e] eqn:Ht; [|done].
  apply on_scan_Ok in Ht as (s0 & Ht & ->). pose proof (shrink_read_u8 _ _ _ _ Ht).
  rewrite (sim_read_u8 _ _ _ _ Ht). destruct (t =? 0).
  - injection H as <-. exists c. split; [done|]. intros Hs. split; [done|]. by intros [].
  - unfold root_entry in H.
    destruct (on_scan visit_tag _) as [[u r1]|] eqn:H1; simpl in H; [|done].
    apply on_scan_Ok in H1 as (s1 & H1 & ->). destruct u. apply sim_visit in H1. simpl in H1, H.
    destruct (on_scan (scan_string "tag name") _) as [[name r2]|] eqn:H2; simpl in H; [|done].
    apply on_scan_Ok in H2 as (s2 & H2 & ->). simpl in H2. destruct (sim_string _ _ _ _ H2) as [Hs Hlt].
    rewrite H1 in Hs, Hlt. rewrite Hs. cbn [mbind option_bind].
    destruct (root_field name t _) as [r3|] eqn:H3; [|done].
    apply root_field_follows in H3 as (v & Hv & Hlt3 & Hag); [|simpl; lia]. simpl in Hv, Hlt3. rewrite Hv.
    cbn [mbind option_bind]. destruct (IH r3 (bt_insert name v c) H) as (c' & Hc' & Hag'); [lia|].
    exists c'. split; [done|]. intros Hsem. destruct (Hag' Hsem) as [Hs3 Ha3]. destruct (Hag Hs3) as [Hs4 Ha4].
    split; [done|]. intros Ha. apply Ha3, Ha4. by destruct Ha.
Qed.
End agree.

(** A root without a pending semantic error parses, and the tree says what the scan kept. *)
Lemma scan_prefix_tree sha256 input nbt n sem :
  scan_prefix sha256 input = Ok (nbt, n, sem) → sem = None →
  ∃ tree, parse (nbt_bytes nbt) = Some tree ∧
    Compound.get tree ID = NString <$> nbt_id nbt ∧
    match embedded_position nbt with
    | Some (x, y, z) => Compound.get tree X = Some (NInt x) ∧ Compound.get tree Y = Some (NInt y) ∧
                        Compound.get tree Z_ = Some (NInt z)
    | None => Compound.get tree X = None ∧ Compound.get tree Y = None ∧ Compound.get tree Z_ = None
    end ∧
    candidate_agrees (note_candidate nbt) (Compound.get tree NOTE) ∧
    candidate_agrees (powered_candidate nbt) (Compound.get tree POWERED).
Proof.
  intros H Hsem. destruct (scan_prefix_frame _ _ _ _ _ H) as (_ & _ & Hb & Hf).
  specialize (Hf []). rewrite app_nil_r, <-Hb in Hf. clear H Hb. set (inp := nbt_bytes nbt) in *.
  unfold scan_prefix in Hf.
  destruct (scan_header (mk_scan 0 inp 0)) as [[root s]|e] eqn:Hh; [|done].
  destruct (negb (root =? 10)) eqn:Hroot.
  { destruct (scan_payload MAX_NBT_DEPTH root s) as [[[] s1]|e]; simpl in Hf.
    - injection Hf as _ _ <-. done.
    - by destruct (is_wire_error e). }
  destruct (root_loop (mk_root s None (None, None, None) Absent Absent None)) as [r|e] eqn:Hl; [|done].
  destruct (root_position r) as [embedded semantic] eqn:Hpos. injection Hf as Hnbt _ Hs. subst semantic.
  rewrite <-Hnbt. cbn [nbt_id embedded_position note_candidate powered_candidate].
  unfold scan_header in Hh. scan_inv Hh. injection Hh as <- <-. apply sim_read_u8 in E as Hroot1. pose proof (shrink_read_u8 _ _ _ _ E).
  destruct (sim_string _ _ _ _ E0) as [Hs1 ?]. destruct a1. apply sim_visit in E1. cbn [rest] in *.
  unfold root_loop in Hl. cbn [r_scan] in Hl.
  destruct (root_loop_follows (length inp) _ _ _ [] Hl) as (c' & Hc' & Hag); [cbn [r_scan]; rewrite E1; lia|].
  exists c'. unfold parse. rewrite Hroot1. cbn [mbind option_bind]. rewrite Hroot, Hs1. cbn [mbind option_bind].
  unfold compound_loop. rewrite <-child_room, <-E1. cbn [r_scan] in Hc'.
  split; [exact (f_equal (λ o : option (NbtCompound * bytes), '(c, _) ← o; Some c) Hc')|].
  unfold root_position in Hpos. rewrite Hsem in Hpos.
  assert (Hsr : r_semantic r = None).
  { destruct (r_position r) as [[[x|] [y|]] [z|]]; try done; by injection Hpos as _ ->. }
  destruct (Hag Hsr) as [_ Ha]. destruct Ha as [Hi Hx Hy Hz Hn Hp]; [split; done|].
  split; [done|]. split; [|done].
  destruct (r_position r) as [[[x|] [y|]] [z|]]; simpl in *; try done; injection Hpos as <- _; done.
Qed.
