(* ===== verification/Keys.v ===== *)
(** * Keys and invalidation offsets

    [chunk.rs] (chunk and sub-chunk keys and the meshes a change invalidates), the block-entity key
    of [block_entity.rs], [NeighbourReach] and update validation of [mutation.rs], and the offset
    tables of [mesh_neighbourhood/offsets.rs]. Coordinates are [i32]s as [Z], with the checked
    arithmetic written out. *)
From stdpp Require Import base numbers list gmap sorting.
From S2P Require Import Prelude Packed Bytes.
#[local] Open Scope Z_scope.

(** ** Keys *)

Definition i32_ok (v : Z) : bool := (- 2 ^ 31 <=? v) && (v <? 2 ^ 31).
Definition checked_i32 (v : Z) : option Z := if i32_ok v then Some v else None.
Definition checked_add (a b : Z) : option Z := checked_i32 (a + b).
Definition checked_sub (a b : Z) : option Z := checked_i32 (a - b).
Definition saturate (v : Z) : Z := Z.min (2 ^ 31 - 1) (Z.max (- 2 ^ 31) v).
Definition saturating_add (a b : Z) : Z := saturate (a + b).
Definition saturating_mul (a b : Z) : Z := saturate (a * b).

Record ChunkKey := mk_chunk_key { ck_dimension : Z; ck_x : Z; ck_z : Z }.
Record SubChunkKey := mk_sub_chunk_key { sk_dimension : Z; sk_x : Z; sk_y : Z; sk_z : Z }.
Record BlockEntityKey := mk_entity_key { bk_dimension : Z; bk_x : Z; bk_y : Z; bk_z : Z }.

#[export] Instance chunk_key_eq_dec : EqDecision ChunkKey.
Proof. solve_decision. Defined.
#[export] Instance sub_chunk_key_eq_dec : EqDecision SubChunkKey.
Proof. solve_decision. Defined.
#[export] Instance entity_key_eq_dec : EqDecision BlockEntityKey.
Proof. solve_decision. Defined.
#[export] Instance chunk_key_countable : Countable ChunkKey.
Proof.
  apply (inj_countable' (λ k, (ck_dimension k, ck_x k, ck_z k)) (λ '(d, x, z), mk_chunk_key d x z)).
  by intros [].
Defined.
#[export] Instance sub_chunk_key_countable : Countable SubChunkKey.
Proof.
  apply (inj_countable' (λ k, (sk_dimension k, sk_x k, sk_y k, sk_z k)) (λ '(d, x, y, z), mk_sub_chunk_key d x y z)).
  by intros [].
Defined.
#[export] Instance entity_key_countable : Countable BlockEntityKey.
Proof.
  apply (inj_countable' (λ k, (bk_dimension k, bk_x k, bk_y k, bk_z k)) (λ '(d, x, y, z), mk_entity_key d x y z)).
  by intros [].
Defined.

Definition from_chunk (c : ChunkKey) (y : Z) : SubChunkKey := mk_sub_chunk_key (ck_dimension c) (ck_x c) y (ck_z c).
Definition sk_chunk (k : SubChunkKey) : ChunkKey := mk_chunk_key (sk_dimension k) (sk_x k) (sk_z k).

(** [div_euclid(16)] and [rem_euclid(16)] are [Z]'s floor division and modulo. *)
Definition bk_position (k : BlockEntityKey) : Z * Z * Z := (bk_x k, bk_y k, bk_z k).
Definition bk_chunk (k : BlockEntityKey) : ChunkKey := mk_chunk_key (bk_dimension k) (bk_x k / 16) (bk_z k / 16).
Definition bk_sub_chunk (k : BlockEntityKey) : SubChunkKey :=
  mk_sub_chunk_key (bk_dimension k) (bk_x k / 16) (bk_y k / 16) (bk_z k / 16).

(** ** Mesh dependents *)

Definition mesh_dependents (k : SubChunkKey) : list SubChunkKey :=
  let '(mk_sub_chunk_key d x y z) := k in
  omap id
    [ Some k;
      (λ x, mk_sub_chunk_key d x y z) <$> checked_sub x 1;
      (λ x, mk_sub_chunk_key d x y z) <$> checked_add x 1;
      (λ y, mk_sub_chunk_key d x y z) <$> checked_sub y 1;
      (λ y, mk_sub_chunk_key d x y z) <$> checked_add y 1;
      (λ z, mk_sub_chunk_key d x y z) <$> checked_sub z 1;
      (λ z, mk_sub_chunk_key d x y z) <$> checked_add z 1 ].

Definition UNIT_STEPS : list Z := [-1; 0; 1].

(** [filter_map] over an offset table with the checked operation [op]. *)
Definition offset_key (op : Z → Z → option Z) (k : SubChunkKey) (o : Z * Z * Z) : option SubChunkKey :=
  let '(dx, dy, dz) := o in
  x ← op (sk_x k) dx; y ← op (sk_y k) dy; z ← op (sk_z k) dz;
  Some (mk_sub_chunk_key (sk_dimension k) x y z).

Definition CUBE_OFFSETS : list (Z * Z * Z) :=
  dx ← UNIT_STEPS; dy ← UNIT_STEPS; dz ← UNIT_STEPS; [(dx, dy, dz)].

Definition mesh_neighbourhood_dependents (k : SubChunkKey) : list SubChunkKey :=
  omap (offset_key checked_add k) CUBE_OFFSETS.
Definition biome_mesh_dependents := mesh_neighbourhood_dependents.

Definition ADJACENT_OFFSETS : list (Z * Z * Z) :=
  [(-1, -1, -1); (-1, -1, 0); (-1, -1, 1); (-1, 0, -1); (-1, 0, 0); (-1, 0, 1);
   (-1, 1, -1); (-1, 1, 0); (-1, 1, 1); (0, -1, -1); (0, -1, 0); (0, -1, 1);
   (0, 0, -1); (0, 0, 1); (0, 1, -1); (0, 1, 0); (0, 1, 1); (1, -1, -1);
   (1, -1, 0); (1, -1, 1); (1, 0, -1); (1, 0, 0); (1, 0, 1); (1, 1, -1); (1, 1, 0); (1, 1, 1)].

Definition LIQUID_SAMPLE_OFFSETS : list (Z * Z * Z) :=
  [(0, -1, 0); (-1, -1, 0); (1, -1, 0); (0, -1, -1); (0, -1, 1);
   (-1, 0, -1); (-1, 0, 0); (-1, 0, 1); (0, 0, -1); (0, 0, 0); (0, 0, 1); (1, 0, -1); (1, 0, 0); (1, 0, 1);
   (-1, 1, -1); (-1, 1, 0); (-1, 1, 1); (0, 1, -1); (0, 1, 0); (0, 1, 1); (1, 1, -1); (1, 1, 0); (1, 1, 1)].

Definition is_liquid_sample_offset (o : Z * Z * Z) : bool :=
  let '(x, y, z) := o in
  (((y =? 0) || (y =? 1)) && (-1 <=? x) && (x <=? 1) && (-1 <=? z) && (z <=? 1))
  || ((y =? -1) && (((x =? 0) && (z =? 0)) || (Z.abs x + Z.abs z =? 1))).

Definition liquid_mesh_dependents (k : SubChunkKey) : list SubChunkKey :=
  omap (offset_key checked_sub k) LIQUID_SAMPLE_OFFSETS.

(** ** Block updates and their reach *)

Record BlockUpdate := mk_update { u_x : Z; u_y : Z; u_z : Z; u_layer : Z; u_runtime_id : Z }.

Definition MAX_STORAGE_COUNT : Z := 16.
(** The loading anchor of a dimension whose transfer position lies outside its height ([dimension.rs]). *)
Definition dimension_loading_fallback_y (dimension : Z) : Z := if dimension =? 2 then 50 else 0.

Inductive MutationError :=
  | CollisionRevisionExhausted
  | LocalCoordinatesOutOfBounds (x y z : Z)
  | LayerOutOfBounds (layer max : Z).

Definition validate (u : BlockUpdate) : result MutationError unit :=
  if (16 <=? u_x u) || (16 <=? u_y u) || (16 <=? u_z u)
  then Err (LocalCoordinatesOutOfBounds (u_x u) (u_y u) (u_z u))
  else if MAX_STORAGE_COUNT <=? u_layer u then Err (LayerOutOfBounds (u_layer u) MAX_STORAGE_COUNT)
  else Ok ().

Record NeighbourReach := mk_reach { light : Z; mesh : Z }.

Definition ALL : NeighbourReach := mk_reach (Z.shiftl 1 27 - 1) (Z.shiftl 1 27 - 1).
Definition union (a b : NeighbourReach) : NeighbourReach :=
  mk_reach (Z.lor (light a) (light b)) (Z.lor (mesh a) (mesh b)).

(** [c <= margin], [true], [c >= 15 - margin]: which of the offsets -1, 0, 1 an axis allows. *)
Definition axis_reach (margin c : Z) : list bool := [c <=? margin; true; 15 - margin <=? c].

Definition reach_bits (ax ay az : list bool) : Z :=
  foldl (λ bits '(dx, reaches_x),
    foldl (λ bits '(dy, reaches_y),
      foldl (λ bits '(dz, reaches_z),
        if (reaches_x : bool) && (reaches_y : bool) && (reaches_z : bool)
        then Z.lor bits (Z.shiftl 1 (Z.of_nat (dx * 9 + dy * 3 + dz))) else bits)
      bits (imap pair az)) bits (imap pair ay)) 0 (imap pair ax).

Definition offsets_within (x y z margin : Z) : Z :=
  reach_bits (axis_reach margin x) (axis_reach margin y) (axis_reach margin z).

Definition of_cell (x y z : Z) : NeighbourReach := mk_reach (offsets_within x y z 0) (offsets_within x y z 1).
Definition of_updates (us : list BlockUpdate) : NeighbourReach :=
  foldl (λ reach u, union reach (of_cell (u_x u) (u_y u) (u_z u))) (mk_reach 0 0) us.

Definition offset_bit (bits : Z) (o : Z * Z * Z) : bool :=
  let '(dx, dy, dz) := o in
  if (dx <? -1) || (1 <? dx) || (dy <? -1) || (1 <? dy) || (dz <? -1) || (1 <? dz) then true
  else
    let bit := (dx + 1) * 9 + (dy + 1) * 3 + (dz + 1) in
    negb (Z.land bits (Z.shiftl 1 bit) =? 0).
Definition light_reaches (r : NeighbourReach) (o : Z * Z * Z) : bool := offset_bit (light r) o.
Definition mesh_reaches (r : NeighbourReach) (o : Z * Z * Z) : bool := offset_bit (mesh r) o.

(** ** Laws *)

Lemma checked_i32_Some v w : checked_i32 v = Some w ↔ w = v ∧ i32_ok v = true.
Proof. unfold checked_i32. destruct (i32_ok v); split; [by intros [= ->]|by intros [-> _]|done|by intros [_ ?]]. Qed.

Lemma unit_steps_iff d : d ∈ UNIT_STEPS ↔ -1 ≤ d ≤ 1.
Proof. unfold UNIT_STEPS. set_unfold. lia. Qed.

Lemma cube_offsets_iff dx dy dz : (dx, dy, dz) ∈ CUBE_OFFSETS ↔ -1 ≤ dx ≤ 1 ∧ -1 ≤ dy ≤ 1 ∧ -1 ≤ dz ≤ 1.
Proof.
  rewrite <-!unit_steps_iff. unfold CUBE_OFFSETS. rewrite list_elem_of_bind. setoid_rewrite list_elem_of_bind.
  setoid_rewrite list_elem_of_bind. setoid_rewrite list_elem_of_singleton. split.
  - by intros (a & (b & (c & [= -> -> ->] & Hc) & Hb) & Ha).
  - intros (? & ? & ?). eauto 10.
Qed.

(** Membership in a [filter_map] over an offset table. *)
Lemma offset_key_Some op k o t :
  offset_key op k o = Some t ↔ sk_dimension t = sk_dimension k ∧ op (sk_x k) (fst (fst o)) = Some (sk_x t) ∧
    op (sk_y k) (snd (fst o)) = Some (sk_y t) ∧ op (sk_z k) (snd o) = Some (sk_z t).
Proof.
  destruct o as [[dx dy] dz], t as [d x y z]. simpl. split.
  - destruct (op (sk_x k) dx), (op (sk_y k) dy), (op (sk_z k) dz); simpl; try done. by intros [= -> -> -> ->].
  - intros (-> & -> & -> & ->). done.
Qed.

Definition key_ok (k : SubChunkKey) : Prop :=
  i32_ok (sk_x k) = true ∧ i32_ok (sk_y k) = true ∧ i32_ok (sk_z k) = true.

(** The offset from [t] to [k]. *)
Definition key_offset (k t : SubChunkKey) : Z * Z * Z := (sk_x k - sk_x t, sk_y k - sk_y t, sk_z k - sk_z t).

Lemma dependents_sub_iff (offsets : list (Z * Z * Z)) k t :
  t ∈ omap (offset_key checked_sub k) offsets ↔
  sk_dimension t = sk_dimension k ∧ key_ok t ∧ key_offset k t ∈ offsets.
Proof.
  rewrite list_elem_of_omap. unfold key_ok, key_offset. split.
  - intros ([[dx dy] dz] & Hin & (Hd & [Hx Hx']%checked_i32_Some & [Hy Hy']%checked_i32_Some & [Hz Hz']%checked_i32_Some)%offset_key_Some).
    simpl in *. rewrite Hx, Hy, Hz. split_and!; try done.
    replace (sk_x k - (sk_x k - dx)) with dx by lia. replace (sk_y k - (sk_y k - dy)) with dy by lia.
    by replace (sk_z k - (sk_z k - dz)) with dz by lia.
  - intros (Hd & (Hx & Hy & Hz) & Hin). eexists. split; [exact Hin|]. apply offset_key_Some. simpl.
    unfold checked_sub. rewrite !Z.sub_sub_distr, !Z.sub_diag. simpl. by rewrite !checked_i32_Some.
Qed.

Lemma dependents_add_iff (offsets : list (Z * Z * Z)) k t :
  t ∈ omap (offset_key checked_add k) offsets ↔
  sk_dimension t = sk_dimension k ∧ key_ok t ∧ key_offset t k ∈ offsets.
Proof.
  rewrite list_elem_of_omap. unfold key_ok, key_offset. split.
  - intros ([[dx dy] dz] & Hin & (Hd & [Hx Hx']%checked_i32_Some & [Hy Hy']%checked_i32_Some & [Hz Hz']%checked_i32_Some)%offset_key_Some).
    simpl in *. rewrite Hx, Hy, Hz. split_and!; try done.
    replace (sk_x k + dx - sk_x k) with dx by lia. replace (sk_y k + dy - sk_y k) with dy by lia.
    by replace (sk_z k + dz - sk_z k) with dz by lia.
  - intros (Hd & (Hx & Hy & Hz) & Hin). eexists. split; [exact Hin|]. apply offset_key_Some. simpl.
    unfold checked_add. rewrite !Zplus_minus. by rewrite !checked_i32_Some.
Qed.

(** The liquid table lists the offsets of its predicate. *)
Lemma liquid_offsets_iff o : o ∈ LIQUID_SAMPLE_OFFSETS ↔ is_liquid_sample_offset o = true.
Proof.
  split.
  - intros Hin. pose proof (forallb_forall is_liquid_sample_offset LIQUID_SAMPLE_OFFSETS) as [H _].
    apply H; [reflexivity|]. by apply list_elem_of_In.
  - destruct o as [[x y] z]. intros H.
    assert (Hc : (x, y, z) ∈ CUBE_OFFSETS).
    { apply cube_offsets_iff. unfold is_liquid_sample_offset in H. lia. }
    assert (Hall : forallb (λ o, implb (is_liquid_sample_offset o) (bool_decide (o ∈ LIQUID_SAMPLE_OFFSETS))) CUBE_OFFSETS = true)
      by reflexivity.
    rewrite forallb_forall in Hall. specialize (Hall _ (proj1 (list_elem_of_In _ _) Hc)). cbv beta in Hall.
    rewrite H in Hall. cbn [implb] in Hall. by apply bool_decide_eq_true_1 in Hall.
Qed.

(** ** The reach bits *)

Definition axis_bit (ax : list bool) (d : Z) : bool := nth (Z.to_nat (d + 1)) ax false.

Lemma reach_bits_all a0 a2 b0 b2 c0 c2 :
  let ax := [a0; true; a2] in let ay := [b0; true; b2] in let az := [c0; true; c2] in
  forallb (λ o, Bool.eqb (offset_bit (reach_bits ax ay az) o)
    (axis_bit ax (fst (fst o)) && axis_bit ay (snd (fst o)) && axis_bit az (snd o))) CUBE_OFFSETS = true.
Proof. destruct a0, a2, b0, b2, c0, c2; reflexivity. Qed.

Lemma reach_bits_spec margin x y z o :
  o ∈ CUBE_OFFSETS →
  offset_bit (offsets_within x y z margin) o =
  axis_bit (axis_reach margin x) (fst (fst o)) && axis_bit (axis_reach margin y) (snd (fst o))
    && axis_bit (axis_reach margin z) (snd o).
Proof.
  intros Ho. unfold offsets_within, axis_reach.
  pose proof (reach_bits_all (x <=? margin) (15 - margin <=? x) (y <=? margin) (15 - margin <=? y)
    (z <=? margin) (15 - margin <=? z)) as H. cbv zeta in H. rewrite forallb_forall in H.
  specialize (H o (proj1 (list_elem_of_In _ _) Ho)). by apply eqb_prop in H.
Qed.

(** An axis allows the offset [d] exactly when the neighbour there has a cell within reach. *)
Lemma axis_bit_iff margin c d :
  0 ≤ margin ≤ 6 → 0 ≤ c < 16 → -1 ≤ d ≤ 1 →
  axis_bit (axis_reach margin c) d = true ↔ ∃ c', 0 ≤ c' < 16 ∧ Z.abs (16 * d + c' - c) ≤ margin + 1.
Proof.
  intros Hm Hc Hd. unfold axis_bit, axis_reach. assert (d = -1 ∨ d = 0 ∨ d = 1) as [-> | [-> | ->]] by lia; simpl.
  - rewrite Z.leb_le. split; [intros H; exists 15; lia|intros (c' & ? & ?); lia].
  - split; [intros _; exists c; lia|done].
  - rewrite Z.leb_le. split; [intros H; exists 0; lia|intros (c' & ? & ?); lia].
Qed.

(** A cell of the sub-chunk at offset [o] is within [dist] of the local cell, along every axis. *)
Definition near (dist x y z : Z) (o : Z * Z * Z) : Prop :=
  let '(dx, dy, dz) := o in ∃ x' y' z', 0 ≤ x' < 16 ∧ 0 ≤ y' < 16 ∧ 0 ≤ z' < 16 ∧
    Z.abs (16 * dx + x' - x) ≤ dist ∧ Z.abs (16 * dy + y' - y) ≤ dist ∧ Z.abs (16 * dz + z' - z) ≤ dist.

Lemma offsets_within_iff margin x y z o :
  0 ≤ margin ≤ 6 → 0 ≤ x < 16 → 0 ≤ y < 16 → 0 ≤ z < 16 → o ∈ CUBE_OFFSETS →
  offset_bit (offsets_within x y z margin) o = true ↔ near (margin + 1) x y z o.
Proof.
  intros Hm Hx Hy Hz Ho. rewrite reach_bits_spec by done. destruct o as [[dx dy] dz].
  apply cube_offsets_iff in Ho as (? & ? & ?). cbn [fst snd]. rewrite !andb_true_iff, !axis_bit_iff by done. split.
  - intros [[(x' & ? & ?) (y' & ? & ?)] (z' & ? & ?)]. exists x', y', z'. tauto.
  - intros (x' & y' & z' & ? & ? & ? & ? & ? & ?). eauto 10.
Qed.

Lemma offset_bit_lor a b o : o ∈ CUBE_OFFSETS → offset_bit (Z.lor a b) o = offset_bit a o || offset_bit b o.
Proof.
  destruct o as [[dx dy] dz]. intros Ho%cube_offsets_iff. unfold offset_bit.
  destruct (_ || _) eqn:E; [done|]. clear E.
  assert (Hn : 0 ≤ (dx + 1) * 9 + (dy + 1) * 3 + (dz + 1)) by lia. set (n := _ + (dz + 1)) in *.
  assert (Hbit : ∀ v, negb (Z.land v (Z.shiftl 1 n) =? 0) = Z.testbit v n).
  { intros v. rewrite Z.shiftl_1_l. destruct (Z.testbit v n) eqn:Ht.
    - apply negb_true_iff, Z.eqb_neq. intros Hz. apply (f_equal (λ w, Z.testbit w n)) in Hz.
      rewrite Z.land_spec, Z.pow2_bits_true, Z.bits_0, Ht in Hz by done. done.
    - apply negb_false_iff, Z.eqb_eq, Z.bits_inj'. intros i Hi. rewrite Z.land_spec, Z.bits_0, Z.pow2_bits_eqb by done.
      destruct (Z.eqb_spec n i) as [<-|]; [by rewrite Ht|apply andb_false_r]. }
  rewrite !Hbit. apply Z.lor_spec.
Qed.

Lemma offset_bit_0 o : o ∈ CUBE_OFFSETS → offset_bit 0 o = false.
Proof.
  destruct o as [[dx dy] dz]. intros Ho%cube_offsets_iff. unfold offset_bit.
  destruct (_ || _) eqn:E; [exfalso; lia|]. by rewrite Z.land_0_l.
Qed.

Lemma of_updates_bits (f : NeighbourReach → Z) us o :
  (∀ a b, f (union a b) = Z.lor (f a) (f b)) → f (mk_reach 0 0) = 0 → o ∈ CUBE_OFFSETS →
  offset_bit (f (of_updates us)) o = existsb (λ u, offset_bit (f (of_cell (u_x u) (u_y u) (u_z u))) o) us.
Proof.
  intros Hu H0 Ho. unfold of_updates.
  assert (Hgen : ∀ r, offset_bit (f (foldl (λ r u, union r (of_cell (u_x u) (u_y u) (u_z u))) r us)) o
    = offset_bit (f r) o || existsb (λ u, offset_bit (f (of_cell (u_x u) (u_y u) (u_z u))) o) us).
  { induction us as [|u us IH]; intros r; simpl; [by rewrite orb_false_r|].
    by rewrite IH, Hu, offset_bit_lor, orb_assoc. }
  by rewrite Hgen, H0, offset_bit_0.
Qed.

Definition update_ok (u : BlockUpdate) : Prop :=
  0 ≤ u_x u < 16 ∧ 0 ≤ u_y u < 16 ∧ 0 ≤ u_z u < 16.

Lemma of_updates_near (f : NeighbourReach → Z) margin us o :
  (∀ a b, f (union a b) = Z.lor (f a) (f b)) → f (mk_reach 0 0) = 0 →
  (∀ x y z, f (of_cell x y z) = offsets_within x y z margin) → 0 ≤ margin ≤ 6 →
  Forall update_ok us → o ∈ CUBE_OFFSETS →
  offset_bit (f (of_updates us)) o = true ↔ ∃ u, u ∈ us ∧ near (margin + 1) (u_x u) (u_y u) (u_z u) o.
Proof.
  intros Hu H0 Hf Hm Hus Ho. rewrite of_updates_bits, existsb_exists by done. rewrite Forall_forall in Hus.
  split; intros (u & Hin & H); exists u.
  - apply list_elem_of_In in Hin. destruct (Hus u Hin) as (? & ? & ?). rewrite Hf in H.
    split; [done|]. by apply offsets_within_iff in H.
  - destruct (Hus u Hin) as (? & ? & ?). split; [by apply list_elem_of_In|]. rewrite Hf. by apply offsets_within_iff.
Qed.

(** ** Properties *)

(** The reach of a batch is exact: of the 26 neighbours and the section itself, light is said to
    reach those with a cell within one block of a changed cell, and the mesh those with a cell within
    two. *)
Theorem reach_exact us o :
  Forall update_ok us → o ∈ CUBE_OFFSETS →
  (light_reaches (of_updates us) o = true ↔ ∃ u, u ∈ us ∧ near 1 (u_x u) (u_y u) (u_z u) o) ∧
  (mesh_reaches (of_updates us) o = true ↔ ∃ u, u ∈ us ∧ near 2 (u_x u) (u_y u) (u_z u) o).
Proof.
  intros Hus Ho. split; [apply (of_updates_near light 0)|apply (of_updates_near mesh 1)]; done.
Qed.

Lemma reach_exact_witness :
  let us := [mk_update 15 3 0 0 7] in
  (light_reaches (of_updates us) (1, 0, -1) = true ↔ ∃ u, u ∈ us ∧ near 1 (u_x u) (u_y u) (u_z u) (1, 0, -1)) ∧
  (mesh_reaches (of_updates us) (1, 0, -1) = true ↔ ∃ u, u ∈ us ∧ near 2 (u_x u) (u_y u) (u_z u) (1, 0, -1)).
Proof.
  apply (reach_exact [mk_update 15 3 0 0 7] (1, 0, -1)).
  - repeat constructor; simpl; lia.
  - apply cube_offsets_iff. lia.
Defined.

(** Invalidation is the inverse of sampling: a mesh is a liquid dependent of a section exactly
    when the section lies at one of the mesh's liquid sample offsets, and a neighbourhood dependent
    exactly when it is at most one section away on every axis, overflowing keys left out. *)
Theorem dependents_inverse k t :
  (t ∈ liquid_mesh_dependents k ↔
     sk_dimension t = sk_dimension k ∧ key_ok t ∧ is_liquid_sample_offset (key_offset k t) = true) ∧
  (t ∈ mesh_neighbourhood_dependents k ↔
     sk_dimension t = sk_dimension k ∧ key_ok t ∧
     Z.abs (sk_x t - sk_x k) ≤ 1 ∧ Z.abs (sk_y t - sk_y k) ≤ 1 ∧ Z.abs (sk_z t - sk_z k) ≤ 1).
Proof.
  split.
  - unfold liquid_mesh_dependents. by rewrite dependents_sub_iff, liquid_offsets_iff.
  - unfold mesh_neighbourhood_dependents. rewrite dependents_add_iff. unfold key_offset.
    rewrite cube_offsets_iff. split; intros (? & ? & ?); (split_and!; try done); lia.
Qed.

(** The sections that share a face with [k]. *)
Definition shares_face (k t : SubChunkKey) : Prop := sk_dimension t = sk_dimension k ∧
  (Z.abs (sk_x t - sk_x k) = 1 ∧ i32_ok (sk_x t) = true ∧ sk_y t = sk_y k ∧ sk_z t = sk_z k ∨
   sk_x t = sk_x k ∧ Z.abs (sk_y t - sk_y k) = 1 ∧ i32_ok (sk_y t) = true ∧ sk_z t = sk_z k ∨
   sk_x t = sk_x k ∧ sk_y t = sk_y k ∧ Z.abs (sk_z t - sk_z k) = 1 ∧ i32_ok (sk_z t) = true).
(** The sections at most one away from [k] on every axis. *)
Definition around (k t : SubChunkKey) : Prop := sk_dimension t = sk_dimension k ∧ key_ok t ∧
  Z.abs (sk_x t - sk_x k) ≤ 1 ∧ Z.abs (sk_y t - sk_y k) ≤ 1 ∧ Z.abs (sk_z t - sk_z k) ≤ 1.

Lemma mesh_dependents_iff k t : t ∈ mesh_dependents k ↔ t = k ∨ shares_face k t.
Proof.
  destruct k as [d x y z], t as [d' x' y' z']. unfold mesh_dependents, shares_face. rewrite list_elem_of_omap. simpl.
  assert (Hin : ∀ (f : Z → SubChunkKey) o, f <$> o = Some (mk_sub_chunk_key d' x' y' z') ↔ ∃ v, o = Some v ∧ f v = mk_sub_chunk_key d' x' y' z')
    by (intros f o; rewrite fmap_Some; naive_solver).
  split.
  - intros (o & Ho & ->). unfold checked_sub, checked_add in Ho. rewrite !elem_of_cons in Ho.
    destruct Ho as [[= -> -> -> ->]|[Ho|[Ho|[Ho|[Ho|[Ho|[Ho|Ho]]]]]]]; [by left|..|by apply not_elem_of_nil in Ho]; right; symmetry in Ho;
      apply Hin in Ho as (v & [-> Hv]%checked_i32_Some & [= <- <- <- <-]); (split; [done|]); simpl; first [left; split_and!; (done || lia)|right; left; split_and!; (done || lia)|right; right; split_and!; (done || lia)].
  - intros H. exists (Some (mk_sub_chunk_key d' x' y' z')). split; [|done]. destruct H as [[= -> -> -> ->]|[-> H]]; [by left|]. rewrite !elem_of_cons. unfold checked_sub, checked_add.
    destruct H as [(Ha & Hok & -> & ->)|[(-> & Ha & Hok & ->)|(-> & -> & Ha & Hok)]];
      [destruct (decide (x' = x - 1)); [right; left|do 2 right; left]|destruct (decide (y' = y - 1)); [do 3 right; left|do 4 right; left]|
       destruct (decide (z' = z - 1)); [do 5 right; left|do 6 right; left]]; symmetry; apply Hin; eexists; (split; [apply checked_i32_Some; split; [reflexivity|]|f_equal; lia]);
      match goal with H : i32_ok ?v = true |- i32_ok ?w = true => replace w with v by lia; exact H end.
Qed.

(** ** The order of keys

    The derived [Ord] of [SubChunkKey] and [ChunkKey] in [crates/world/src/chunk.rs], and sets of keys as
    sorted vectors. *)

(** [BTreeSet<SubChunkKey>] to [Vec]: the derived order, field by field. *)
Definition sub_chunk_key_leb (a b : SubChunkKey) : bool :=
  match (sk_dimension a ?= sk_dimension b), (sk_x a ?= sk_x b), (sk_y a ?= sk_y b), (sk_z a ?= sk_z b) with
  | Lt, _, _, _ => true | Gt, _, _, _ => false
  | _, Lt, _, _ => true | _, Gt, _, _ => false
  | _, _, Lt, _ => true | _, _, Gt, _ => false
  | _, _, _, Gt => false | _, _, _, _ => true
  end.
Definition sub_chunk_key_le (a b : SubChunkKey) : Prop := Is_true (sub_chunk_key_leb a b).
#[export] Instance sub_chunk_key_le_dec : RelDecision sub_chunk_key_le := λ a b, Is_true_dec _.
Definition sorted_keys (X : gset SubChunkKey) : list SubChunkKey := merge_sort sub_chunk_key_le (elements X).

Definition chunk_key_leb (a b : ChunkKey) : bool :=
  match (ck_dimension a ?= ck_dimension b), (ck_x a ?= ck_x b), (ck_z a ?= ck_z b) with
  | Lt, _, _ => true | Gt, _, _ => false
  | _, Lt, _ => true | _, Gt, _ => false
  | _, _, Gt => false | _, _, _ => true
  end.
Definition chunk_key_le (a b : ChunkKey) : Prop := Is_true (chunk_key_leb a b).
#[export] Instance chunk_key_le_dec : RelDecision chunk_key_le := λ a b, Is_true_dec _.
Definition sorted_chunks (X : gset ChunkKey) : list ChunkKey := merge_sort chunk_key_le (elements X).

Lemma sub_chunk_key_le_iff a b :
  sub_chunk_key_le a b ↔
  sk_dimension a < sk_dimension b ∨ sk_dimension a = sk_dimension b ∧
    (sk_x a < sk_x b ∨ sk_x a = sk_x b ∧ (sk_y a < sk_y b ∨ sk_y a = sk_y b ∧ sk_z a ≤ sk_z b)).
Proof.
  unfold sub_chunk_key_le, sub_chunk_key_leb.
  destruct (Z.compare_spec (sk_dimension a) (sk_dimension b)), (Z.compare_spec (sk_x a) (sk_x b)),
    (Z.compare_spec (sk_y a) (sk_y b)), (Z.compare_spec (sk_z a) (sk_z b)); simpl; (split; [intros []; lia|]); intros; try exact I; lia.
Qed.

#[export] Instance sub_chunk_key_le_total : Total sub_chunk_key_le.
Proof. intros a b. rewrite !sub_chunk_key_le_iff. lia. Qed.
#[export] Instance sub_chunk_key_le_trans : Transitive sub_chunk_key_le.
Proof. intros a b c. rewrite !sub_chunk_key_le_iff. lia. Qed.

Lemma sub_chunk_keys_sorted X : StronglySorted sub_chunk_key_le (sorted_keys X).
Proof. apply StronglySorted_merge_sort; apply _. Qed.
Lemma sorted_keys_nodup X : NoDup (sorted_keys X).
Proof. unfold sorted_keys. rewrite merge_sort_Permutation. apply NoDup_elements. Qed.

Lemma elem_of_sorted_chunks X k : k ∈ sorted_chunks X ↔ k ∈ X.
Proof. unfold sorted_chunks. by rewrite merge_sort_Permutation, elem_of_elements. Qed.
Lemma elem_of_sorted_keys X k : k ∈ sorted_keys X ↔ k ∈ X.
Proof. unfold sorted_keys. by rewrite merge_sort_Permutation, elem_of_elements. Qed.

Lemma sk_chunk_from_chunk key y : sk_chunk (from_chunk key y) = key.
Proof. by destruct key. Qed.
Lemma sk_y_from_chunk key y : sk_y (from_chunk key y) = y.
Proof. done. Qed.
Lemma from_sk_chunk k : from_chunk (sk_chunk k) (sk_y k) = k.
Proof. by destruct k. Qed.
