(* ===== verification/Counting.v ===== *)
(** * Counts and orders

    [usize] arithmetic as the accounts use it, sums over finite maps, sorted lists, [Vec::dedup], and maps in key order. *)
From stdpp Require Import base numbers list gmap sets sorting.
From S2P Require Import Prelude.
#[local] Open Scope Z_scope.

(** ** [usize] *)

Definition USIZE_MAX : Z := 2 ^ 64 - 1.
Definition sat_add (a b : Z) : Z := Z.min (a + b) USIZE_MAX.
Definition sat_sub (a b : Z) : Z := Z.max (a - b) 0.
Definition sat_mul (a b : Z) : Z := Z.min (a * b) USIZE_MAX.
Definition checked_add (a b : Z) : option Z := if a + b <=? USIZE_MAX then Some (a + b) else None.
Definition checked_sub (a b : Z) : option Z := if b <=? a then Some (a - b) else None.
Definition checked_mul (a b : Z) : option Z := if a * b <=? USIZE_MAX then Some (a * b) else None.

Lemma checked_add_Some a b c : checked_add a b = Some c ↔ c = a + b ∧ a + b ≤ USIZE_MAX.
Proof. unfold checked_add. destruct (Z.leb_spec (a + b) USIZE_MAX); split; [by intros [= <-]|by intros [-> _]|done|lia]. Qed.

Lemma checked_sub_Some a b c : checked_sub a b = Some c ↔ c = a - b ∧ b ≤ a.
Proof. unfold checked_sub. destruct (Z.leb_spec b a); split; [by intros [= <-]|by intros [-> _]|done|lia]. Qed.

(** ** Sums over maps *)

Section sum.
Context `{Countable K} {A : Type}.
Implicit Types (f g : K → A → Z) (m : gmap K A).

Definition map_sum f m : Z := map_fold (λ k x acc, f k x + acc) 0 m.

Lemma map_sum_empty f : map_sum f ∅ = 0.
Proof. apply map_fold_empty. Qed.

Lemma map_sum_insert f m k x : m !! k = None → map_sum f (<[k := x]> m) = f k x + map_sum f m.
Proof. intros Hk. unfold map_sum. rewrite (map_fold_insert_L _ _ k x m); [done|intros; lia|done]. Qed.

Lemma map_sum_delete f m k x : m !! k = Some x → map_sum f m = f k x + map_sum f (delete k m).
Proof. intros Hk. rewrite <-(insert_delete_id m k x) at 1 by done. apply map_sum_insert, lookup_delete_eq. Qed.

(** An update of a present key. *)
Lemma map_sum_update f m k x y : m !! k = Some x → map_sum f (<[k := y]> m) = map_sum f m - f k x + f k y.
Proof.
  intros Hk. rewrite <-insert_delete_eq, map_sum_insert by apply lookup_delete_eq. rewrite (map_sum_delete f m k x) by done. lia.
Qed.

Lemma map_sum_ext f g m : (∀ k x, m !! k = Some x → f k x = g k x) → map_sum f m = map_sum g m.
Proof.
  induction m as [|k x m Hk IH] using map_ind; intros Hfg; [done|].
  rewrite !map_sum_insert by done. rewrite Hfg by apply lookup_insert_eq. f_equal. apply IH. intros j y Hj. apply Hfg.
  rewrite lookup_insert_ne by congruence. done.
Qed.

Lemma map_sum_nonneg f m : (∀ k x, m !! k = Some x → 0 ≤ f k x) → 0 ≤ map_sum f m.
Proof.
  induction m as [|k x m Hk IH] using map_ind; intros Hf; [done|]. rewrite map_sum_insert by done.
  assert (0 ≤ f k x) by (apply Hf, lookup_insert_eq). assert (0 ≤ map_sum f m); [|lia]. apply IH. intros j y Hj. apply (Hf j).
  rewrite lookup_insert_ne by congruence. done.
Qed.

Lemma map_sum_le f g m : (∀ k x, m !! k = Some x → f k x ≤ g k x) → map_sum f m ≤ map_sum g m.
Proof.
  induction m as [|k x m Hk IH] using map_ind; intros Hf; [done|]. rewrite !map_sum_insert by done.
  assert (f k x ≤ g k x) by (apply Hf, lookup_insert_eq). assert (map_sum f m ≤ map_sum g m); [|lia]. apply IH. intros j y Hj. apply (Hf j).
  rewrite lookup_insert_ne by congruence. done.
Qed.

(** One entry is at most the whole. *)
Lemma map_sum_lookup_le f m k x : (∀ k x, m !! k = Some x → 0 ≤ f k x) → m !! k = Some x → f k x ≤ map_sum f m.
Proof.
  intros Hf Hk. rewrite (map_sum_delete f m k x) by done. assert (0 ≤ map_sum f (delete k m)); [|lia].
  apply map_sum_nonneg. intros j y [_ Hj]%lookup_delete_Some. by apply (Hf j).
Qed.

(** A smaller map weighs less. *)
Lemma map_sum_sub f m' m : (∀ k x, 0 ≤ f k x) → (∀ k x, m' !! k = Some x → m !! k = Some x) → map_sum f m' ≤ map_sum f m.
Proof.
  intros Hf. revert m. induction m' as [|k x m' Hk IH] using map_ind; intros m H'; [apply map_sum_nonneg; intros; apply Hf|].
  assert (m !! k = Some x) as Hx by (apply H', lookup_insert_eq). rewrite map_sum_insert, (map_sum_delete _ m k x) by done.
  assert (map_sum f m' ≤ map_sum f (delete k m)); [|lia]. apply IH. intros j y Hj. assert (j ≠ k) by congruence.
  rewrite lookup_delete_ne by done. apply H'. by rewrite lookup_insert_ne.
Qed.
End sum.

(** A singled-out key counts once. *)
Lemma map_sum_indicator `{Countable K} {A} (f : K → A → Z) (m : gmap K A) k x : m !! k = Some x → (∀ j y, m !! j = Some y → j ≠ k → f j y = 0) →
  map_sum f m = f k x.
Proof.
  intros Hk Hz. rewrite (map_sum_delete f m k x) by done. rewrite (map_sum_ext f (λ _ _, 0)); [|intros j y [? ?]%lookup_delete_Some; by apply Hz].
  assert (∀ n : gmap K A, map_sum (λ _ _, 0) n = 0) as Hn; [|rewrite Hn; lia].
  induction n as [|j y n Hj IH] using map_ind; [done|]. rewrite map_sum_insert by done. lia.
Qed.

(** Maps with the same keys and values of the same weight. *)
Lemma map_sum_related `{Countable K} {A} (f : K → A → Z) (m m' : gmap K A) :
  (∀ k, match m !! k, m' !! k with Some x, Some y => f k x = f k y | None, None => True | _, _ => False end) → map_sum f m = map_sum f m'.
Proof.
  revert m'. induction m as [|k x m Hk IH] using map_ind; intros m' Hm.
  { assert (m' = ∅) as ->; [|done]. apply map_eq. intros k. specialize (Hm k). rewrite lookup_empty in *. by destruct (m' !! k). }
  rewrite map_sum_insert by done. pose proof (Hm k) as Hx. rewrite lookup_insert_eq in Hx. destruct (m' !! k) as [y|] eqn:Hy; [|done].
  rewrite (map_sum_delete f m' k y Hy), Hx. f_equal. apply IH. intros j. specialize (Hm j). destruct (decide (j = k)) as [->|Hne]; [by rewrite Hk, lookup_delete_eq|].
  by rewrite lookup_insert_ne, lookup_delete_ne in * by done.
Qed.

(** ** Sorted lists *)

(** A list in a strict order has no element twice. *)
Lemma strict_sorted_NoDup {A} (R : A → A → Prop) l : (∀ a b, R a b → ¬ R b a) → StronglySorted R l → NoDup l.
Proof.
  intros Hasym. induction 1 as [|x l Hl IH Hx]; [constructor|]. constructor; [|done]. intros Hin. rewrite Forall_forall in Hx. specialize (Hx x Hin). by apply (Hasym x x).
Qed.
(** Two lists in a strict order with the same elements. *)
Lemma strict_sorted_ext {A} (R : A → A → Prop) l l' : (∀ a b, R a b → ¬ R b a) → StronglySorted R l → StronglySorted R l' → (∀ x, x ∈ l ↔ x ∈ l') → l = l'.
Proof.
  intros Hasym Hl Hl' Hin. apply (StronglySorted_unique_strong R); [|done|done|apply NoDup_Permutation; [by apply (strict_sorted_NoDup R)..|done]].
  intros a b _ _ Hab Hba. destruct (Hasym a b Hab Hba).
Qed.
Lemma sorted_filter {A} (R : A → A → Prop) (P : A → Prop) `{∀ x, Decision (P x)} l : StronglySorted R l → StronglySorted R (filter P l).
Proof.
  induction 1 as [|x l Hl IH Hx]; [constructor|]. rewrite filter_cons. case_decide; [|done]. constructor; [done|]. rewrite Forall_forall in Hx |- *.
  intros y [_ Hy]%list_elem_of_filter. by apply Hx.
Qed.
Lemma sorted_fmap {A B} (R : A → A → Prop) (S : B → B → Prop) (f : A → B) l : (∀ a b, R a b → S (f a) (f b)) → StronglySorted R l → StronglySorted S (f <$> l).
Proof.
  intros Hf. induction 1 as [|x l Hl IH Hx]; [constructor|]. rewrite fmap_cons. constructor; [done|]. rewrite Forall_forall in Hx. apply Forall_forall.
  intros y (z & -> & Hz)%list_elem_of_fmap. by apply Hf, Hx.
Qed.
Lemma seqZ_increasing m n : StronglySorted Z.lt (seqZ m n).
Proof.
  unfold seqZ. apply (sorted_fmap Nat.lt); [lia|]. generalize (Z.to_nat n) 0%nat. clear. intros n. induction n as [|n IH]; intros a; [constructor|].
  simpl. constructor; [apply IH|]. apply Forall_forall. intros y Hy%elem_of_seq. lia.
Qed.

(** [Vec::dedup]: drops what equals its predecessor. *)
Section dedup.
Context {A : Type} `{EqDecision A}.
Fixpoint dedup_from (last : A) (l : list A) : list A :=
  match l with
  | [] => []
  | x :: l => if bool_decide (x = last) then dedup_from last l else x :: dedup_from x l
  end.
Definition dedup (l : list A) : list A := match l with [] => [] | x :: l => x :: dedup_from x l end.

Context (R : A → A → Prop) `{!AntiSymm (=) R}.
Lemma dedup_from_spec last l : StronglySorted R (last :: l) →
  StronglySorted R (last :: dedup_from last l) ∧ NoDup (last :: dedup_from last l) ∧ ∀ x, x ∈ last :: dedup_from last l ↔ x ∈ last :: l.
Proof.
  revert last. induction l as [|y l IH]; intros last Hl; simpl.
  { split; [done|]. split; [apply NoDup_singleton|done]. }
  apply StronglySorted_inv in Hl as [Hl Hlast]. rewrite Forall_cons in Hlast. destruct Hlast as [Hy Hlast]. case_bool_decide as Heq.
  - subst y. destruct (IH last Hl) as (Hs & Hnd & Hin). split; [done|]. split; [done|]. intros x. rewrite Hin, !elem_of_cons. tauto.
  - destruct (IH y Hl) as (Hs & Hnd & Hin).
    assert (Hle : Forall (R last) (y :: dedup_from y l)).
    { apply Forall_forall. intros x Hx%Hin. apply elem_of_cons in Hx as [->|Hx]; [done|]. rewrite Forall_forall in Hlast. by apply Hlast. }
    split; [by constructor|]. split.
    + constructor; [|done]. intros Hx. assert (R y last) as Hyl; [|apply Heq; by apply (anti_symm R)].
      apply elem_of_cons in Hx as [->|Hx]; [done|]. apply StronglySorted_inv in Hs as [_ Hs]. rewrite Forall_forall in Hs. by apply Hs.
    + intros x. rewrite elem_of_cons, Hin, !elem_of_cons. tauto.
Qed.
Lemma dedup_sorted l : StronglySorted R l → StronglySorted R (dedup l) ∧ NoDup (dedup l) ∧ ∀ x, x ∈ dedup l ↔ x ∈ l.
Proof. destruct l as [|x l]; [|apply dedup_from_spec]. intros _. split; [constructor|]. split; [constructor|done]. Qed.
End dedup.

(** ** Maps in key order *)

Definition entry_le {A} (a b : Z * A) : Prop := a.1 ≤ b.1.
#[export] Instance entry_le_dec {A} : RelDecision (@entry_le A).
Proof. intros a b. unfold entry_le. apply _. Defined.
(** A [BTreeMap<u64, _>] in key order. *)
Definition ordered {A} (m : gmap Z A) : list (Z * A) := merge_sort entry_le (map_to_list m).

Lemma elem_of_ordered {A} (m : gmap Z A) q x : (q, x) ∈ ordered m ↔ m !! q = Some x.
Proof. unfold ordered. by rewrite merge_sort_Permutation, elem_of_map_to_list. Qed.
#[export] Instance entry_le_total {A} : Total (@entry_le A).
Proof. intros a b. unfold entry_le. lia. Qed.
#[export] Instance entry_le_trans {A} : Transitive (@entry_le A).
Proof. intros a b c. unfold entry_le. lia. Qed.
Lemma ordered_sorted {A} (m : gmap Z A) : StronglySorted entry_le (ordered m).
Proof. apply StronglySorted_merge_sort; apply _. Qed.
Lemma ordered_keys {A} (m : gmap Z A) : NoDup (ordered m).*1.
Proof. unfold ordered. rewrite merge_sort_Permutation. apply NoDup_fst_map_to_list. Qed.
Lemma ordered_strict {A} (m : gmap Z A) : StronglySorted (λ a b, a.1 < b.1) (ordered m).
Proof.
  pose proof (ordered_sorted m) as Hs. pose proof (ordered_keys m) as Hnd. revert Hnd.
  induction Hs as [|x l Hl IH Hx]; intros Hnd; [constructor|]. rewrite fmap_cons in Hnd. apply NoDup_cons in Hnd as [Hn Hnd].
  constructor; [by apply IH|]. rewrite Forall_forall in Hx |- *. intros y Hy. specialize (Hx y Hy). unfold entry_le in Hx.
  assert (x.1 ≠ y.1); [|lia]. intros Heq. apply Hn. rewrite Heq. apply list_elem_of_fmap. by exists y.
Qed.
(** A list in key order with the entries of a map is the map in key order. *)
Lemma ordered_unique {A} (m : gmap Z A) l : StronglySorted (λ a b, a.1 < b.1) l → (∀ p x, (p, x) ∈ l ↔ m !! p = Some x) → l = ordered m.
Proof. intros Hl Hin. apply (strict_sorted_ext (λ a b, a.1 < b.1)); [intros a b; lia|done|apply ordered_strict|]. intros [p x]. by rewrite Hin, elem_of_ordered. Qed.

Lemma ordered_filter {A} (P : Z * A → Prop) `{∀ x, Decision (P x)} (m : gmap Z A) : filter P (ordered m) = ordered (filter P m).
Proof.
  apply ordered_unique; [by apply sorted_filter, ordered_strict|]. intros p x. rewrite list_elem_of_filter, elem_of_ordered, map_lookup_filter_Some. tauto.
Qed.
Lemma ordered_delete {A} (m : gmap Z A) p : ordered (delete p m) = filter (λ x, x.1 ≠ p) (ordered m).
Proof.
  symmetry. apply ordered_unique; [by apply sorted_filter, ordered_strict|]. intros k x. rewrite list_elem_of_filter, elem_of_ordered, lookup_delete_Some. simpl. naive_solver.
Qed.
Lemma ordered_insert_last {A} (m : gmap Z A) p x : (∀ k y, m !! k = Some y → k < p) → ordered (<[p := x]> m) = ordered m ++ [(p, x)].
Proof.
  intros Hlt. symmetry. apply ordered_unique.
  - apply StronglySorted_app. split; [|split; [apply ordered_strict|repeat constructor]]. intros [k y] z Hk%elem_of_ordered ->%list_elem_of_singleton. simpl. by apply (Hlt k y).
  - intros k y. rewrite elem_of_app, elem_of_ordered, list_elem_of_singleton, lookup_insert_Some. split.
    + intros [Hk|[= -> ->]]; [right|by left]. split; [|done]. intros ->. specialize (Hlt _ _ Hk). lia.
    + intros [[<- <-]|[_ Hk]]; [by right|by left].
Qed.
Lemma ordered_insert_first {A} (m : gmap Z A) p x : (∀ k y, m !! k = Some y → p < k) → ordered (<[p := x]> m) = (p, x) :: ordered m.
Proof.
  intros Hlt. symmetry. apply ordered_unique.
  - constructor; [apply ordered_strict|]. apply Forall_forall. intros [k y] Hk%elem_of_ordered. simpl. by apply (Hlt k y).
  - intros k y. rewrite elem_of_cons, elem_of_ordered, lookup_insert_Some. split.
    + intros [[= -> ->]|Hk]; [by left|right]. split; [|done]. intros ->. specialize (Hlt _ _ Hk). lia.
    + intros [[<- <-]|[_ Hk]]; [by left|by right].
Qed.
Lemma ordered_update {A} (m : gmap Z A) p x y : m !! p = Some x → ordered (<[p := y]> m) = (λ z, if decide (z.1 = p) then (p, y) else z) <$> ordered m.
Proof.
  intros Hp. symmetry. apply ordered_unique.
  - pose proof (ordered_strict m) as Hs. induction Hs as [|z l Hl IH Hz]; [constructor|]. rewrite fmap_cons. constructor; [done|].
    rewrite Forall_forall in Hz |- *. intros w (w' & -> & Hw)%list_elem_of_fmap. specialize (Hz w' Hw). repeat case_decide; simpl; lia.
  - intros k z. rewrite list_elem_of_fmap. split.
    + intros ([k' z'] & Heq & Hk%elem_of_ordered). simpl in Heq. case_decide as Hd; injection Heq as -> ->; [by rewrite lookup_insert_eq|by rewrite lookup_insert_ne].
    + intros [[<- <-]|[Hne Hk]]%lookup_insert_Some.
      * exists (p, x). split; [by rewrite decide_True|by apply elem_of_ordered].
      * exists (k, z). split; [by rewrite decide_False by (intros ?; by apply Hne)|by apply elem_of_ordered].
Qed.
