(* ===== verification/Wire.v ===== *)
(** * The vanilla byte reader

    [Reader] of [crates/world/src/sub_chunk.rs]: a read past the end yields zero, parks the cursor at
    the end and is remembered in [failed_read]. The reader is its unread suffix and the position it
    has reached. *)
From stdpp Require Import base numbers list.
From S2P Require Import Prelude Packed Bytes.
#[local] Open Scope Z_scope.

Record Reader := mk_reader { r_position : Z; remaining : bytes; failed_read : bool }.

Definition reader_new (bs : bytes) : Reader := mk_reader 0 bs false.

Definition is_at_end (r : Reader) : bool := match remaining r with [] => true | _ => false end.

(** [position = bytes.len()]. *)
Definition skip_to_end (r : Reader) : Reader :=
  mk_reader (r_position r + Z.of_nat (length (remaining r))) [] (failed_read r).

Definition fail_read (r : Reader) : Reader := mk_reader (r_position r) (remaining r) true.

Definition read_u8 (r : Reader) : Z * Reader :=
  match remaining r with
  | [] => (0, fail_read r)
  | b :: l => (b, mk_reader (r_position r + 1) l (failed_read r))
  end.

Definition read_exact (count : Z) (r : Reader) : option bytes * Reader :=
  if Z.of_nat (length (remaining r)) <? count then (None, skip_to_end (fail_read r))
  else (Some (take (Z.to_nat count) (remaining r)),
        mk_reader (r_position r + count) (drop (Z.to_nat count) (remaining r)) (failed_read r)).

(** [for index in 0..5] of [read_var_i32]: [n] turns are left. *)
Fixpoint read_var_i32_from (index n : nat) (encoded : Z) (r : Reader) : Z * Reader :=
  match n with
  | O => (0, r)
  | S n =>
      if is_at_end r then (0, fail_read r)
      else
        let '(byte, r) := read_u8 r in
        let encoded := Z.lor encoded (Z.shiftl (Z.land byte 127) (Z.of_nat (index * 7)) mod 2 ^ 32) in
        if Z.land byte 128 =? 0 then (unzigzag encoded, r) else read_var_i32_from (S index) n encoded r
  end.
Definition read_var_i32 (r : Reader) : Z * Reader := read_var_i32_from 0 5 0 r.

(** ** Frame

    A read that did not fail took exactly a prefix, and takes the same prefix whatever follows it;
    a failed read stays failed; every read stays within the input. *)

(** [r'] comes after [r] in the same input. *)
Definition advances (r r' : Reader) : Prop :=
  (failed_read r = true → failed_read r' = true) ∧
  ∃ p, remaining r = p ++ remaining r' ∧ r_position r' = r_position r + Z.of_nat (length p).

Lemma advances_refl r : advances r r.
Proof. split; [done|]. exists []. simpl. split; [done|lia]. Qed.

Lemma advances_trans r1 r2 r3 : advances r1 r2 → advances r2 r3 → advances r1 r3.
Proof.
  intros [F1 (p1 & R1 & P1)] [F2 (p2 & R2 & P2)]. split; [auto|]. exists (p1 ++ p2).
  rewrite R1, R2, length_app. split; [by rewrite app_assoc|lia].
Qed.

Definition stable {A} (m : Reader → A * Reader) : Prop := ∀ r a r', m r = (a, r') →
  advances r r' ∧
  (failed_read r' = false → ∀ p, remaining r = p ++ remaining r' →
     ∀ pos ext f, m (mk_reader pos (p ++ ext) f) = (a, mk_reader (pos + Z.of_nat (length p)) ext f)).

Definition rret {A} (a : A) : Reader → A * Reader := λ r, (a, r).
Definition rbind {A B} (m : Reader → A * Reader) (f : A → Reader → B * Reader) : Reader → B * Reader :=
  λ r, let '(a, r) := m r in f a r.

Lemma stable_ret {A} (a : A) : stable (rret a).
Proof.
  intros [pos l f] b r' [= <- <-]. split; [apply advances_refl|]. simpl. intros _ p Hp pos' ext f'.
  apply (f_equal length) in Hp as Hl. rewrite length_app in Hl. destruct p; [|simpl in Hl; lia].
  unfold rret. simpl. by rewrite Z.add_0_r.
Qed.

Lemma stable_bind {A B} (m : Reader → A * Reader) (f : A → Reader → B * Reader) :
  stable m → (∀ a, stable (f a)) → stable (rbind m f).
Proof.
  intros Hm Hf r b r'. unfold rbind. destruct (m r) as [a r1] eqn:H1. intros H2.
  destruct (Hm _ _ _ H1) as [A1 S1]. destruct (Hf a _ _ _ H2) as [A2 S2]. split; [by eapply advances_trans|].
  intros Hfail p Hp pos ext f0. destruct A1 as [F1 (p1 & R1 & P1)]. destruct A2 as [F2 (p2 & R2 & P2)].
  assert (Hf1 : failed_read r1 = false).
  { destruct (failed_read r1); [|done]. rewrite F2 in Hfail by done. done. }
  assert (p = p1 ++ p2) as ->.
  { rewrite R1, R2, app_assoc in Hp. by apply app_inv_tail in Hp. }
  rewrite <-app_assoc, (S1 Hf1 p1 R1 pos (p2 ++ ext) f0), (S2 Hfail p2 R2). rewrite length_app.
  by replace (pos + Z.of_nat (length p1 + length p2)) with (pos + Z.of_nat (length p1) + Z.of_nat (length p2)) by lia.
Qed.

Lemma stable_ext {A} (m m' : Reader → A * Reader) : (∀ r, m r = m' r) → stable m → stable m'.
Proof.
  intros He Hm r a r' H. rewrite <-He in H. destruct (Hm _ _ _ H) as [Ha Hs]. split; [done|].
  intros Hf p Hp pos ext f. rewrite <-He. by apply Hs.
Qed.

Lemma stable_read_u8 : stable read_u8.
Proof.
  intros [pos l f] a r'. unfold read_u8. destruct l as [|b l]; simpl; intros [= <- <-].
  - split; [|done]. split; [done|]. exists []. simpl. split; [done|lia].
  - split.
    + split; [done|]. exists [b]. done.
    + simpl. intros _ p Hp pos' ext f'. apply (app_inv_tail l [b] p) in Hp as <-. done.
Qed.

Lemma stable_read_exact count : 0 ≤ count → stable (read_exact count).
Proof.
  intros Hc [pos l f] a r'. unfold read_exact. cbn [remaining r_position failed_read].
  destruct (Z.ltb_spec (Z.of_nat (length l)) count); intros [= <- <-].
  - split; [|done]. split; [done|]. exists l. simpl. by rewrite app_nil_r.
  - assert (Hsplit : l = take (Z.to_nat count) l ++ drop (Z.to_nat count) l) by (by rewrite take_drop).
    assert (Hlen : length (take (Z.to_nat count) l) = Z.to_nat count) by (rewrite length_take; lia).
    split.
    + split; [done|]. exists (take (Z.to_nat count) l). simpl. split; [done|lia].
    + simpl. intros _ p Hp pos' ext f'. rewrite Hsplit in Hp at 1. apply app_inv_tail in Hp as <-.
      rewrite length_app, Hlen. destruct (Z.ltb_spec (Z.of_nat (Z.to_nat count + length ext)) count); [lia|].
      rewrite take_app_le, drop_app_le by lia. rewrite take_ge, drop_ge by lia.
      by replace (Z.of_nat (Z.to_nat count)) with count by lia.
Qed.

Lemma stable_fail {A} (a : A) : stable (λ r, (a, fail_read r)).
Proof. intros r b r' [= <- <-]. split; [|done]. split; [done|]. exists []. simpl. split; [done|lia]. Qed.

Lemma advances_skip_to_end r : advances r (skip_to_end r).
Proof. split; [done|]. exists (remaining r). simpl. by rewrite app_nil_r. Qed.

Lemma read_var_i32_step index n encoded r :
  read_var_i32_from index (S n) encoded r =
  rbind read_u8 (λ byte r',
    match remaining r with
    | [] => (0, r')
    | _ => let encoded := Z.lor encoded (Z.shiftl (Z.land byte 127) (Z.of_nat (index * 7)) mod 2 ^ 32) in
           if Z.land byte 128 =? 0 then (unzigzag encoded, r') else read_var_i32_from (S index) n encoded r'
    end) r.
Proof. destruct r as [pos [|b l] f]; done. Qed.

Lemma stable_read_var_i32_from index n encoded : stable (read_var_i32_from index n encoded).
Proof.
  revert index encoded. induction n as [|n IH]; intros index encoded; [apply stable_ret|].
  intros [pos l f] a r' H. destruct l as [|b l].
  - injection H as <- <-. split; [|done]. split; [done|]. exists []. simpl. split; [done|lia].
  - set (k := λ byte r', let encoded := Z.lor encoded (Z.shiftl (Z.land byte 127) (Z.of_nat (index * 7)) mod 2 ^ 32) in
           if Z.land byte 128 =? 0 then (unzigzag encoded, r') else read_var_i32_from (S index) n encoded r').
    assert (Hk : ∀ byte, stable (k byte)).
    { intros byte. unfold k. destruct (_ =? 0); [apply stable_ret|apply IH]. }
    assert (Heq : ∀ pos b l f, read_var_i32_from index (S n) encoded (mk_reader pos (b :: l) f)
                            = rbind read_u8 k (mk_reader pos (b :: l) f)) by done.
    rewrite Heq in H. destruct (stable_bind _ _ stable_read_u8 Hk _ _ _ H) as [Ha Hs]. split; [done|].
    intros Hf p Hp pos' ext f'. rewrite <-(Hs Hf p Hp pos' ext f'). destruct p as [|b' p]; [exfalso|done].
    (* at least the first byte is consumed *)
    unfold rbind in H. simpl in H. destruct (Hk b _ _ _ H) as [[_ (q & Hq & _)] _]. simpl in *.
    apply (f_equal length) in Hp, Hq. simpl in Hp. rewrite length_app in Hq. lia.
Qed.

Lemma stable_read_var_i32 : stable read_var_i32.
Proof. apply stable_read_var_i32_from. Qed.

Create HintDb stable.
#[export] Hint Resolve stable_ret stable_read_u8 stable_read_var_i32 stable_fail : stable.
#[export] Hint Extern 2 (stable (rbind _ _)) => apply stable_bind; [|intros ?] : stable.

(** A value read is an [i32]. *)
Lemma read_var_i32_range r v r' : read_var_i32 r = (v, r') → (- 2 ^ 31 ≤ v < 2 ^ 31)%Z.
Proof.
  unfold read_var_i32. assert (Hgen : ∀ n index encoded r, 0 ≤ encoded < 2 ^ 32 →
    read_var_i32_from index n encoded r = (v, r') → - 2 ^ 31 ≤ v < 2 ^ 31).
  { clear r. induction n as [|n IH]; intros index encoded r He H; [injection H as <- <-; lia|].
    rewrite read_var_i32_step in H. unfold rbind in H. destruct (read_u8 r) as [byte r1].
    destruct (remaining r); [injection H as <- <-; lia|]. cbv zeta in H.
    assert (Hb : 0 ≤ Z.lor encoded (Z.shiftl (Z.land byte 127) (Z.of_nat (index * 7)) mod 2 ^ 32) < 2 ^ 32).
    { pose proof (Z.mod_pos_bound (Z.shiftl (Z.land byte 127) (Z.of_nat (index * 7))) (2 ^ 32) ltac:(lia)) as Hm.
      assert (0 ≤ Z.lor encoded (Z.shiftl (Z.land byte 127) (Z.of_nat (index * 7)) mod 2 ^ 32)) by (apply Z.lor_nonneg; lia).
      split; [done|]. apply testbit_bound; [done..|]. intros i Hi. rewrite Z.lor_spec, !(testbit_above 32) by done. done. }
    destruct (_ =? 0); [|by eapply IH]. injection H as <- <-. apply (unzigzag_range 32); [lia|done]. }
  intros H. eapply Hgen; [|exact H]. lia.
Qed.
