(* ===== verification/SubChunk.v ===== *)
(** * Sub-chunks

    [crates/world/src/sub_chunk.rs] and [sub_chunk/payload.rs]: the network decoder of a 16x16x16
    section, which never fails, the inline payload cache and the block updates. A [BlockIds] trait
    object is a record of its methods; [None] stands for a panic. *)
From stdpp Require Import base numbers list strings.
From S2P Require Import Prelude Packed Palette Bytes NbtTree NbtScan Keys Wire.
#[local] Open Scope Z_scope.

(** ** Id resolution *)

(** The trait object; [Context] is what [Arc<dyn Any>] holds. *)
Record BlockIds (Context : Type) := mk_block_ids {
  inline_cache_context : option Context;
  inline_cache_context_matches : Context → bool;
  air : Z;
  resolve : Z → Z;
  resolve_persistent : NbtCompound → Z;
}.
Arguments mk_block_ids {Context}.
Arguments inline_cache_context {Context}.
Arguments inline_cache_context_matches {Context}.
Arguments air {Context}.
Arguments resolve {Context}.
Arguments resolve_persistent {Context}.

(** [RawBlockIds { air }]: its context is itself. *)
Definition raw_block_ids (air : Z) : BlockIds Z :=
  mk_block_ids (Some air) (λ previous, previous =? air) air (λ network_id, network_id) (λ _, air).

(** What a matching context promises: the same resolution as the decoder that published it. *)
Class ContextContract {Context} (ids ids' : BlockIds Context) := {
  contract_air : air ids = air ids';
  contract_resolve n : resolve ids n = resolve ids' n;
  contract_persistent e : resolve_persistent ids e = resolve_persistent ids' e;
}.

(** ** Data *)

Definition LEGACY_PAYLOAD_BYTES : Z := 4096 + 4096 / 2.
Definition MAX_WIRE_STORAGES : Z := 2.
Definition MAX_PALETTE_ENTRIES : Z := 4096.

Record InlinePayload (Context : Type) := mk_inline {
  il_length : Z;
  il_hash : bytes;
  il_y_index : option Z;
  il_context : Context;
}.
Arguments mk_inline {Context}.
Arguments il_length {Context}.
Arguments il_hash {Context}.
Arguments il_y_index {Context}.
Arguments il_context {Context}.

Record SubChunk (Context : Type) := mk_sub_chunk {
  version : Z;
  y_index : option Z;
  storages : list PalettedStorage;
  (* the [Mutex] of [InlinePayloadCache] *)
  inline_payload : option (InlinePayload Context);
}.
Arguments mk_sub_chunk {Context}.
Arguments version {Context}.
Arguments y_index {Context}.
Arguments storages {Context}.
Arguments inline_payload {Context}.

(** ** Packed storage *)

(** [as_chunks::<4>()] with [u32::from_le_bytes]. *)
Fixpoint words_of_bytes (bs : bytes) : list Z :=
  match bs with
  | b0 :: b1 :: b2 :: b3 :: bs => le_value [b0; b1; b2; b3] :: words_of_bytes bs
  | _ => []
  end.

(** [(0..n).map(|_| entry(reader)).collect()]. *)
Fixpoint read_entries (entry : Reader → Z * Reader) (n : nat) : Reader → list Z * Reader :=
  match n with
  | O => rret []
  | S n => rbind entry (λ v, rbind (read_entries entry n) (λ vs, rret (v :: vs)))
  end.

(** [usize::try_from(v).unwrap_or(0).clamp(1, max)]. *)
Definition clamp_palette_len (bits_per_index : nat) (v : Z) : nat :=
  let max_palette_len := Z.min (Z.shiftl 1 (Z.of_nat bits_per_index)) MAX_PALETTE_ENTRIES in
  Z.to_nat (Z.max 1 (Z.min (if v <? 0 then 0 else v) max_palette_len)).

Definition read_packed_storage (bits_per_index : nat) (entry : Reader → Z * Reader)
    : Reader → option PalettedStorage * Reader :=
  let count := word_count bits_per_index in
  rbind (read_exact (Z.of_nat (count * 4))) (λ read,
  let words := match read with None => replicate count 0 | Some bs => words_of_bytes bs end in
  rbind read_var_i32 (λ v,
  let palette_len := clamp_palette_len bits_per_index v in
  rbind (read_entries entry palette_len) (λ palette,
  rret (zero_indices_at_or_above (storage_new bits_per_index words palette) palette_len)))).

(** ** The network decoder *)

Section decode.
Context (sha256 : bytes → bytes) {Context : Type} (ids : BlockIds Context).

Definition persistent_entry (r : Reader) : Z * Reader :=
  let input := remaining r in
  let consumed := lenient_nbt_len sha256 input in
  let '(_, r) := read_exact consumed r in
  match (nbt ← ok (decode_prefix sha256 (take (Z.to_nat consumed) input)); parse (nbt_bytes (fst nbt))) with
  | Some entry => (resolve_persistent ids entry, r)
  | None => (air ids, fail_read r)
  end.

Definition network_entry : Reader → Z * Reader :=
  rbind read_var_i32 (λ v, rret (resolve ids (to_unsigned 32 v))).

Definition read_block_storage : Reader → option PalettedStorage * Reader :=
  rbind read_u8 (λ header,
  let entry := if Z.land header 1 =? 0 then persistent_entry else network_entry in
  let bits := Z.shiftr header 1 in
  if (bits =? 0) || (bits =? 127) then rbind entry (λ v, rret (Some (uniform v)))
  else if bool_decide (Z.to_nat bits ∈ PACKED_BITS) then read_packed_storage (Z.to_nat bits) entry
  else rret (Some (uniform (air ids)))).

(** [(0..storage_count).map(..)]. *)
Fixpoint read_storages (version : Z) (n : nat) : Reader → option (list PalettedStorage) * Reader :=
  match n with
  | O => rret (Some [])
  | S n =>
      rbind (if 9 <? version then rret (Some (uniform (air ids))) else read_block_storage) (λ s,
      rbind (read_storages version n) (λ ss, rret (s ← s; ss ← ss; Some (s :: ss))))
  end.

Definition empty_section (version : Z) (y_index : option Z) : SubChunk Context :=
  mk_sub_chunk version y_index [] None.

Definition sub_chunk_read : Reader → option (SubChunk Context) * Reader :=
  rbind read_u8 (λ version,
  if (version =? 0) || ((2 <=? version) && (version <=? 7)) then
    rbind (read_exact LEGACY_PAYLOAD_BYTES) (λ _, rret (Some (empty_section version None)))
  else
    rbind (if 7 <? version then rbind read_u8 (λ n, rret (Z.min n MAX_WIRE_STORAGES)) else rret 1) (λ storage_count,
    rbind (if 8 <? version then rbind read_u8 (λ y, rret (Some (to_signed 8 y))) else rret None) (λ y_index,
    rbind (read_storages version (Z.to_nat storage_count)) (λ storages,
    rret (storages ← storages; Some (mk_sub_chunk version y_index storages None)))))).

Definition sub_chunk_decode_prefix (bs : bytes) : option (SubChunk Context * Z) :=
  let '(section, r) := sub_chunk_read (reader_new bs) in
  section ← section; Some (section, r_position r).

Definition sub_chunk_decode (bs : bytes) : option (SubChunk Context) := fst <$> sub_chunk_decode_prefix bs.

(** ** The inline payload cache *)

(** [read_inline]: the section and what it leaves in its cache. *)
Definition read_inline (context : option Context) (r : Reader) : option (SubChunk Context) * Reader :=
  let input := remaining r in
  let start := r_position r in
  let '(section, r) := sub_chunk_read r in
  (section ← section;
   Some (match context with
         | Some context =>
             if negb (failed_read r) && negb (bool_decide (storages section = [])) then
               let length := r_position r - start in
               mk_sub_chunk (version section) (y_index section) (storages section)
                 (Some (mk_inline length (sha256 (take (Z.to_nat length) input)) (y_index section) context))
             else section
         | None => section
         end), r).

Definition reuse_inline (section : SubChunk Context) (slot_y : Z) (r : Reader) : bool * Reader :=
  match inline_payload section with
  | None => (false, r)
  | Some payload =>
      if match il_y_index payload with Some actual => negb (actual =? slot_y) | None => false end
         || negb (inline_cache_context_matches ids (il_context payload))
      then (false, r)
      else if Z.of_nat (length (remaining r)) <? il_length payload then (false, r)
      else
        let bs := take (Z.to_nat (il_length payload)) (remaining r) in
        if negb (bool_decide (sha256 bs = il_hash payload)) then (false, r)
        else (true, snd (read_exact (il_length payload) r))
  end.

Definition retain_inline_identity_from (section decoded : SubChunk Context) : SubChunk Context :=
  mk_sub_chunk (version section) (y_index section) (storages section) (inline_payload decoded).

(** ** Reads and comparisons *)

Definition has_no_storages (section : SubChunk Context) : bool := bool_decide (storages section = []).

Definition sub_chunk_runtime_id (section : SubChunk Context) (layer : nat) (x y z : nat) : option Z :=
  s ← storages section !! layer; runtime_id s x y z.

(** [storages == storages]: slice equality, left to right. *)
Fixpoint storages_eqb (a b : list PalettedStorage) : option bool :=
  match a, b with
  | [], [] => Some true
  | s :: a, t :: b => e ← storage_eqb s t; if (e : bool) then storages_eqb a b else Some false
  | _, _ => Some false
  end.

Definition cells_eqb (s t : PalettedStorage) : bool :=
  forallb (λ x, forallb (λ y, forallb (λ z, bool_decide (runtime_id s x y z = runtime_id t x y z))
    (seq 0 16)) (seq 0 16)) (seq 0 16).

Definition blocks_match (a b : SubChunk Context) : option bool :=
  e ← (if (length (storages a) =? length (storages b))%nat then storages_eqb (storages a) (storages b) else Some false);
  Some (e || ((length (storages a) =? length (storages b))%nat
              && forallb (λ p, cells_eqb (fst p) (snd p)) (zip (storages a) (storages b)))).

(** ** Block updates *)

Definition for_block_updates (y : Z) : SubChunk Context :=
  let y_index := if (- 128 <=? y) && (y <? 128) then Some y else None in
  empty_section (match y_index with Some _ => 9 | None => 8 end) y_index.

(** [while storages.len() <= layer { push(uniform(air)) }]. *)
Definition pad_layers (air_runtime_id : Z) (ss : list PalettedStorage) (layer : nat) : list PalettedStorage :=
  ss ++ replicate (S layer - length ss) (uniform air_runtime_id).

(** [updates_by_layer[layer].push((linear, runtime_id))]. *)
Definition push_update (groups : list (list (nat * Z))) (u : BlockUpdate) : option (list (list (nat * Z))) :=
  let layer := Z.to_nat (u_layer u) in
  group ← groups !! layer;
  let linear := linear_index (Z.to_nat (u_x u)) (Z.to_nat (u_y u)) (Z.to_nat (u_z u)) in
  Some (<[layer := group ++ [(linear, u_runtime_id u)]]> groups).

Definition apply_layer (ss : list PalettedStorage) (layer : nat) (updates : list (nat * Z))
    : option (bool * list PalettedStorage) :=
  match updates with
  | [] => Some (false, ss)
  | [(linear, runtime_id)] =>
      s ← ss !! layer; '(changed, s) ← apply_runtime_update s linear runtime_id; Some (changed, <[layer := s]> ss)
  | _ => s ← ss !! layer; '(changed, s) ← apply_runtime_updates s updates; Some (changed, <[layer := s]> ss)
  end.

(** [while storages.last().is_some_and(..) { pop() }], on the reversed list. *)
Fixpoint pop_air (air_runtime_id : Z) (reversed : list PalettedStorage) : list PalettedStorage :=
  match reversed with
  | [] => []
  | s :: l => if contains_only s air_runtime_id then pop_air air_runtime_id l else reversed
  end.

Definition apply_block_updates (section : SubChunk Context) (updates : list BlockUpdate) (air_runtime_id : Z)
    : option (bool * SubChunk Context) :=
  let previous_layers := length (storages section) in
  '(ss, groups) ← foldM (λ '(ss, groups) u,
      groups ← push_update groups u;
      Some (pad_layers air_runtime_id ss (Z.to_nat (u_layer u)), groups))
    (storages section, replicate (Z.to_nat MAX_STORAGE_COUNT) []) updates;
  '(changed, ss) ← foldM (λ '(changed, ss) '(layer, layer_updates),
      '(c, ss) ← apply_layer ss layer layer_updates; Some (changed || c, ss))
    (false, ss) (imap pair groups);
  let ss := reverse (pop_air air_runtime_id (reverse ss)) in
  Some (changed || negb (length ss =? previous_layers)%nat,
        mk_sub_chunk (version section) (y_index section) ss None).
End decode.
