(* ===== verification/SubChunkSpec.v ===== *)
(** * The sub-chunk decoder

    Decoding never fails: every byte string gives a section whose cells all have values. A decode
    that did not run past its input took exactly a prefix, which is what the inline payload cache
    relies on. *)
From stdpp Require Import base numbers list strings gmap sets.
From S2P Require Import Prelude Packed Palette PaletteSpec PaletteUpdates PaletteViews PaletteTheorems Bytes NbtTree NbtScan NbtRoot Keys Wire.
From S2P Require Import SubChunk.
#[local] Open Scope Z_scope.

(** ** Bytes and entries *)

Lemma le_value_u32 b0 b1 b2 b3 :
  is_byte b0 → is_byte b1 → is_byte b2 → is_byte b3 → is_u32 (le_value [b0; b1; b2; b3]).
Proof. unfold is_byte, is_u32. simpl. lia. Qed.

Lemma words_of_bytes_spec n bs :
  length bs = (n * 4)%nat → Forall is_byte bs → length (words_of_bytes bs) = n ∧ Forall is_u32 (words_of_bytes bs).
Proof.
  revert bs. induction n as [|n IH]; intros bs Hl Hf.
  - destruct bs; [by split; [|constructor]|done].
  - destruct bs as [|b0 [|b1 [|b2 [|b3 bs]]]]; simpl in Hl; try lia.
    apply Forall_cons in Hf as [H0 Hf]. apply Forall_cons in Hf as [H1 Hf].
    apply Forall_cons in Hf as [H2 Hf]. apply Forall_cons in Hf as [H3 Hf].
    destruct (IH bs ltac:(lia) Hf) as [Hl' Hf']. cbn [words_of_bytes length]. split; [lia|].
    constructor; [by apply le_value_u32|done].
Qed.

Lemma words_of_read count r read r' :
  Forall is_byte (remaining r) → read_exact (Z.of_nat (count * 4)) r = (read, r') →
  let ws := match read with None => replicate count 0 | Some bs => words_of_bytes bs end in
  length ws = count ∧ Forall is_u32 ws.
Proof.
  intros Hb. unfold read_exact. destruct (Z.ltb_spec (Z.of_nat (length (remaining r))) (Z.of_nat (count * 4))).
  - intros [= <- <-]. simpl. split; [apply length_replicate|]. apply Forall_replicate. split; lia.
  - intros [= <- <-]. apply words_of_bytes_spec; [|by apply Forall_take].
    rewrite Nat2Z.id, length_take. lia.
Qed.

Lemma read_entries_length entry n r vs r' : read_entries entry n r = (vs, r') → length vs = n.
Proof.
  revert r vs. induction n as [|n IH]; intros r vs; simpl; [by intros [= <- _]|].
  unfold rbind, rret. destruct (entry r) as [v r1]. destruct (read_entries entry n r1) as [vs' r2] eqn:E.
  intros [= <- <-]. simpl. f_equal. by eapply IH.
Qed.

Lemma clamp_palette_len_range bits v : (1 ≤ clamp_palette_len bits v ≤ BLOCKS_PER_SUB_CHUNK)%nat.
Proof.
  pose proof BLOCKS_eq. unfold clamp_palette_len, MAX_PALETTE_ENTRIES. cbv zeta.
  destruct (v <? 0); lia.
Qed.

(** The header and words read, the clamp and the repair always give well-formed storage. *)
Lemma read_packed_storage_ok bits entry r o r' :
  bits ∈ PACKED_BITS → Forall is_byte (remaining r) → read_packed_storage bits entry r = (o, r') →
  ∃ s, o = Some s ∧ storage_ok s.
Proof.
  intros Hbits Hbytes. unfold read_packed_storage, rbind, rret.
  destruct (read_exact (Z.of_nat (word_count bits * 4)) r) as [read r1] eqn:E1.
  destruct (words_of_read _ _ _ _ Hbytes E1) as [Hwl Hwu].
  set (ws := match read with None => _ | Some bs => _ end) in *. clearbody ws.
  destruct (read_var_i32 r1) as [v r2]. destruct (read_entries entry (clamp_palette_len bits v) r2) as [vs r3] eqn:E3.
  apply read_entries_length in E3. intros [= <- <-]. rewrite <-E3.
  pose proof (clamp_palette_len_range bits v) as Hlen. rewrite <-E3 in Hlen.
  destruct (zero_indices_decoded (storage_new bits ws vs)) as (s' & Hs' & Hok & He & _).
  - split; [apply supported_bits_cases; by right|by split].
  - done.
  - done.
  - exists s'. split; [exact Hs'|]. unfold storage_ok. by rewrite He.
Qed.

(** ** Frames *)

Lemma stable_read_entries entry n : stable entry → stable (read_entries entry n).
Proof. intros He. induction n as [|n IH]; simpl; auto 10 with stable. Qed.

Lemma stable_read_packed_storage bits entry : stable entry → stable (read_packed_storage bits entry).
Proof.
  intros He. unfold read_packed_storage. apply stable_bind; [apply stable_read_exact; lia|]. intros read.
  apply stable_bind; [auto with stable|]. intros v.
  apply stable_bind; [by apply stable_read_entries|auto with stable].
Qed.

(** A bind whose first reader preserves what the second needs of the bytes. *)
Lemma advances_bytes r r' : advances r r' → Forall is_byte (remaining r) → Forall is_byte (remaining r').
Proof. intros [_ (p & -> & _)] Hf. by apply Forall_app in Hf as [_ ?]. Qed.

Section decode.
Context (sha256 : bytes → bytes) {Context : Type}.

Lemma decode_prefix_Ok input nbt n :
  decode_prefix sha256 input = Ok (nbt, n) ↔ scan_prefix sha256 input = Ok (nbt, n, None).
Proof using Type.
  unfold decode_prefix. destruct (scan_prefix sha256 input) as [[[nbt' n'] [e|]]|e]; split; try done.
  - by intros [= -> ->].
  - by intros [= -> ->].
Qed.

(** Only a compound root decodes. *)
Lemma scan_prefix_root input nbt n : scan_prefix sha256 input = Ok (nbt, n, None) → ∃ l, input = COMPOUND_TAG :: l.
Proof using Type.
  unfold scan_prefix. destruct (scan_header (mk_scan 0 input 0)) as [[root s]|e] eqn:Hh; [|done].
  destruct (negb (root =? 10)) eqn:Hroot.
  { destruct (prefer_wire_or_first_semantic _ _) as [[[] s1]|e]; [|done]. by intros [= _ _ ]. }
  intros _. apply negb_false_iff, Z.eqb_eq in Hroot. subst root.
  unfold scan_header in Hh. apply NbtScanSpec.scan_bind_Ok in Hh as (a & s0 & E & Hh).
  apply NbtScanSpec.scan_bind_Ok in Hh as (? & s1 & _ & Hh). apply NbtScanSpec.scan_bind_Ok in Hh as (? & s2 & _ & Hh).
  injection Hh as -> _. apply NbtScanSpec.read_u8_inv in E as (Hr & _). simpl in Hr. eauto.
Qed.

Lemma lenient_nbt_len_nonneg input : 0 ≤ lenient_nbt_len sha256 input ≤ Z.of_nat (length input).
Proof using Type.
  unfold lenient_nbt_len. destruct input as [|t l]; [simpl; lia|].
  destruct (t =? COMPOUND_TAG); [|simpl; lia].
  destruct (scan_prefix sha256 (t :: l)) as [[[nbt n] sem]|e] eqn:H; [|lia].
  by apply scan_prefix_frame in H as (? & _).
Qed.

Lemma lenient_nbt_len_Ok input nbt n :
  scan_prefix sha256 input = Ok (nbt, n, None) → lenient_nbt_len sha256 input = n.
Proof using Type.
  intros H. destruct (scan_prefix_root _ _ _ H) as [l ->]. unfold lenient_nbt_len.
  change (COMPOUND_TAG =? COMPOUND_TAG) with true. cbv iota. by rewrite H.
Qed.

(** What a persistent entry that decodes comes from. *)
Lemma persistent_decodes input nbt n :
  decode_prefix sha256 (take (Z.to_nat (lenient_nbt_len sha256 input)) input) = Ok (nbt, n) →
  scan_prefix sha256 input = Ok (nbt, lenient_nbt_len sha256 input, None).
Proof using Type.
  intros H%decode_prefix_Ok. destruct (scan_prefix_root _ _ _ H) as [l Hl].
  destruct input as [|t input]; [by rewrite take_nil in Hl|].
  assert (t = COMPOUND_TAG) as ->.
  { destruct (Z.to_nat (lenient_nbt_len sha256 (t :: input))); simpl in Hl; congruence. }
  unfold lenient_nbt_len in *. change (COMPOUND_TAG =? COMPOUND_TAG) with true in *. cbv iota in *.
  destruct (scan_prefix sha256 (COMPOUND_TAG :: input)) as [[[nbt' n'] sem]|e] eqn:Hs.
  - destruct (scan_prefix_frame _ _ _ _ _ Hs) as (_ & _ & _ & Hf). specialize (Hf []).
    rewrite app_nil_r, H in Hf. by injection Hf as <- -> <-.
  - rewrite Nat2Z.id, take_ge in H by done. congruence.
Qed.

Context (ids : BlockIds Context).

Lemma stable_persistent_entry : stable (persistent_entry sha256 ids).
Proof using Type.
  intros r a r' H. unfold persistent_entry in H.
  pose proof (lenient_nbt_len_nonneg (remaining r)) as Hn. set (n := lenient_nbt_len sha256 (remaining r)) in *.
  destruct (read_exact n r) as [rd r1] eqn:Hre.
  destruct (stable_read_exact n ltac:(lia) _ _ _ Hre) as [Ha Hst].
  destruct (nbt ← ok (decode_prefix sha256 (take (Z.to_nat n) (remaining r))); parse (nbt_bytes (fst nbt)))
    as [entry|] eqn:Hd; injection H as <- <-.
  2:{ split; [|done]. destruct Ha as [? ?]. by split. }
  split; [done|]. intros Hfail p Hp pos ext f.
  destruct (decode_prefix sha256 (take (Z.to_nat n) (remaining r))) as [[nbt n']|e] eqn:Hdec; [|done].
  simpl in Hd. pose proof (persistent_decodes _ _ _ Hdec) as Hscan. fold n in Hscan.
  destruct (scan_prefix_frame _ _ _ _ _ Hscan) as (Hle & _ & _ & Hf).
  assert (Htk : p = take (Z.to_nat n) (remaining r)).
  { unfold read_exact in Hre. destruct (Z.ltb_spec (Z.of_nat (length (remaining r))) n); [lia|].
    injection Hre as _ <-. simpl in Hp. rewrite <-(take_drop (Z.to_nat n) (remaining r)) in Hp at 1.
    by apply app_inv_tail in Hp as <-. }
  specialize (Hf ext). rewrite <-Htk in Hf. unfold persistent_entry. cbn [remaining].
  rewrite (lenient_nbt_len_Ok _ _ _ Hf). specialize (Hst Hfail p Hp pos ext f).
  rewrite Hst. assert (Htp : take (Z.to_nat n) (p ++ ext) = p).
  { rewrite Htk. rewrite take_app_le by (rewrite length_take; lia). by rewrite take_idemp. }
  rewrite Htp, Htk, Hdec. cbn [ok mbind option_bind fst]. by rewrite Hd.
Qed.

Lemma stable_network_entry : stable (network_entry ids).
Proof using Type. unfold network_entry. auto with stable. Qed.
#[local] Hint Resolve stable_persistent_entry stable_network_entry : stable.

Lemma stable_read_block_storage : stable (read_block_storage sha256 ids).
Proof using Type.
  unfold read_block_storage. apply stable_bind; [auto with stable|]. intros header.
  destruct (Z.land header 1 =? 0), (_ || _); [auto with stable| |auto with stable|];
    (case_bool_decide; [apply stable_read_packed_storage|]; auto with stable).
Qed.

Lemma stable_read_storages version n : stable (read_storages sha256 ids version n).
Proof using Type.
  induction n as [|n IH]; simpl; [auto with stable|].
  apply stable_bind; [destruct (9 <? version); [auto with stable|apply stable_read_block_storage]|].
  auto with stable.
Qed.

Lemma stable_sub_chunk_read : stable (sub_chunk_read sha256 ids).
Proof using Type.
  unfold sub_chunk_read. apply stable_bind; [auto with stable|]. intros version.
  destruct (_ || _).
  - apply stable_bind; [by apply stable_read_exact|auto with stable].
  - apply stable_bind; [destruct (7 <? version); auto with stable|]. intros n.
    apply stable_bind; [destruct (8 <? version); auto with stable|]. intros y.
    apply stable_bind; [apply stable_read_storages|auto with stable].
Qed.

(** ** Totality *)

Lemma read_block_storage_ok r o r' :
  Forall is_byte (remaining r) → read_block_storage sha256 ids r = (o, r') → ∃ s, o = Some s ∧ storage_ok s.
Proof using Type.
  intros Hb. unfold read_block_storage, rbind, rret. destruct (read_u8 r) as [header r1] eqn:E.
  apply stable_read_u8 in E as [Ha _]. apply advances_bytes in Ha; [|done].
  destruct (_ || _).
  - destruct (if Z.land header 1 =? 0 then _ else _) as [v r2]. intros [= <- <-]. eauto using uniform_ok.
  - case_bool_decide as Hbits.
    + by apply read_packed_storage_ok.
    + intros [= <- <-]. eauto using uniform_ok.
Qed.

Lemma read_storages_ok version n r o r' :
  Forall is_byte (remaining r) → read_storages sha256 ids version n r = (o, r') →
  ∃ ss, o = Some ss ∧ Forall storage_ok ss ∧ length ss = n.
Proof using Type.
  revert r o r'. induction n as [|n IH]; intros r o r' Hb; cbn [read_storages].
  - intros [= <- <-]. exists []. split_and!; [done|constructor|done].
  - unfold rbind at 1.
    destruct ((if 9 <? version then rret (Some (uniform (air ids))) else read_block_storage sha256 ids) r) as [so r1] eqn:E1.
    assert ((∃ s, so = Some s ∧ storage_ok s) ∧ advances r r1) as [(s & -> & Hs) Ha].
    { destruct (9 <? version).
      - injection E1 as <- <-. eauto using uniform_ok, advances_refl.
      - split; [by eapply read_block_storage_ok|]. by apply stable_read_block_storage in E1 as [? _]. }
    unfold rbind. destruct (read_storages sha256 ids version n r1) as [sso r2] eqn:E2.
    destruct (IH _ _ _ (advances_bytes _ _ Ha Hb) E2) as (ss & -> & Hss & Hl).
    intros [= <- <-]. exists (s :: ss). simpl. split_and!; [done|by constructor|lia].
Qed.

Lemma sub_chunk_read_ok r o r' :
  Forall is_byte (remaining r) → sub_chunk_read sha256 ids r = (o, r') →
  ∃ section, o = Some section ∧ Forall storage_ok (storages section) ∧ (length (storages section) ≤ 2)%nat ∧
    inline_payload section = None.
Proof using Type.
  intros Hb. unfold sub_chunk_read. unfold rbind at 1. destruct (read_u8 r) as [version r1] eqn:E1.
  apply stable_read_u8 in E1 as [A1 _]. pose proof (advances_bytes _ _ A1 Hb) as Hb1.
  destruct (_ || _).
  { unfold rbind. destruct (read_exact _ r1). intros [= <- <-]. eexists. simpl. split_and!; [done|constructor|simpl; lia|done]. }
  unfold rbind at 1.
  destruct ((if 7 <? version then rbind read_u8 (λ n, rret (Z.min n MAX_WIRE_STORAGES)) else rret 1) r1) as [n r2] eqn:E2.
  assert (advances r1 r2 ∧ n ≤ 2) as [A2 Hn].
  { destruct (7 <? version).
    - unfold rbind, rret in E2. destruct (read_u8 r1) as [b rb] eqn:Eb. injection E2 as <- <-.
      apply stable_read_u8 in Eb as [? _]. split; [done|]. unfold MAX_WIRE_STORAGES. lia.
    - injection E2 as <- <-. split; [apply advances_refl|lia]. }
  pose proof (advances_bytes _ _ A2 Hb1) as Hb2. unfold rbind at 1.
  destruct ((if 8 <? version then rbind read_u8 (λ y, rret (Some (to_signed 8 y))) else rret None) r2) as [y r3] eqn:E3.
  assert (A3 : advances r2 r3).
  { destruct (8 <? version).
    - unfold rbind, rret in E3. destruct (read_u8 r2) as [b rb] eqn:Eb. injection E3 as <- <-.
      by apply stable_read_u8 in Eb as [? _].
    - injection E3 as <- <-. apply advances_refl. }
  pose proof (advances_bytes _ _ A3 Hb2) as Hb3. unfold rbind.
  destruct (read_storages sha256 ids version (Z.to_nat n) r3) as [sso r4] eqn:E4.
  destruct (read_storages_ok _ _ _ _ _ Hb3 E4) as (ss & -> & Hss & Hl).
  intros [= <- <-]. eexists. simpl. split_and!; [done|done|cbn [storages]; lia|done].
Qed.
End decode.

(** ** The decoder depends on the ids only through their resolution *)

Section contract.
Context (sha256 : bytes → bytes) {Context : Type} (ids ids' : BlockIds Context) `{!ContextContract ids ids'}.

Lemma persistent_entry_contract r : persistent_entry sha256 ids r = persistent_entry sha256 ids' r.
Proof using Type*.
  unfold persistent_entry. destruct (read_exact _ r) as [rd r1].
  destruct (nbt ← _; parse _) as [e|]; f_equal; [apply contract_persistent|apply contract_air].
Qed.

Lemma network_entry_contract r : network_entry ids r = network_entry ids' r.
Proof using Type*. unfold network_entry, rbind, rret. destruct (read_var_i32 r). by rewrite contract_resolve. Qed.

Lemma rbind_ext {A B} (m m' : Reader → A * Reader) (f f' : A → Reader → B * Reader) r :
  m r = m' r → (∀ a r, f a r = f' a r) → rbind m f r = rbind m' f' r.
Proof using Type. intros Hm Hf. unfold rbind. rewrite Hm. by destruct (m' r). Qed.

Lemma read_entries_ext entry entry' n r :
  (∀ r, entry r = entry' r) → read_entries entry n r = read_entries entry' n r.
Proof using Type.
  intros He. revert r. induction n as [|n IH]; intros r; cbn [read_entries]; [done|].
  apply rbind_ext; [done|]. intros v r1. by apply rbind_ext.
Qed.

Lemma read_packed_storage_ext bits entry entry' r :
  (∀ r, entry r = entry' r) → read_packed_storage bits entry r = read_packed_storage bits entry' r.
Proof using Type.
  intros He. unfold read_packed_storage. apply rbind_ext; [done|]. intros rd r1.
  apply rbind_ext; [done|]. intros v r2. apply rbind_ext; [by apply read_entries_ext|done].
Qed.

Lemma read_block_storage_contract r : read_block_storage sha256 ids r = read_block_storage sha256 ids' r.
Proof using Type*.
  unfold read_block_storage. apply rbind_ext; [done|]. intros header r1.
  assert (He : ∀ r, (if Z.land header 1 =? 0 then persistent_entry sha256 ids else network_entry ids) r =
                    (if Z.land header 1 =? 0 then persistent_entry sha256 ids' else network_entry ids') r).
  { intros r2. destruct (_ =? _); [apply persistent_entry_contract|apply network_entry_contract]. }
  destruct (_ || _); [by apply rbind_ext|]. case_bool_decide; [by apply read_packed_storage_ext|].
  by rewrite contract_air.
Qed.

Lemma read_storages_contract version n r : read_storages sha256 ids version n r = read_storages sha256 ids' version n r.
Proof using Type*.
  revert r. induction n as [|n IH]; intros r; cbn [read_storages]; [done|]. apply rbind_ext.
  - destruct (9 <? version); [by rewrite contract_air|apply read_block_storage_contract].
  - intros s r1. by apply rbind_ext.
Qed.

Lemma sub_chunk_read_contract r : sub_chunk_read sha256 ids r = sub_chunk_read sha256 ids' r.
Proof using Type*.
  unfold sub_chunk_read. apply rbind_ext; [done|]. intros version r1. destruct (_ || _); [done|].
  apply rbind_ext; [done|]. intros n r2. apply rbind_ext; [done|]. intros y r3.
  apply rbind_ext; [apply read_storages_contract|done].
Qed.
End contract.

(** ** Block updates on a sub-chunk

    [apply_block_updates] of [SubChunk] against writes on layers of cells, an absent layer reading as
    air. *)
#[local] Close Scope Z_scope.

(** ** The reference semantics *)

Definition layer_cell (air : Z) (ss : list PalettedStorage) (layer i : nat) : option Z :=
  match ss !! layer with Some s => cell_value s i | None => Some air end.

Definition update_layer (u : BlockUpdate) : nat := Z.to_nat (u_layer u).
Definition update_cell (u : BlockUpdate) : nat :=
  linear_index (Z.to_nat (u_x u)) (Z.to_nat (u_y u)) (Z.to_nat (u_z u)).

Definition write_block (cells : nat → nat → option Z) (u : BlockUpdate) : nat → nat → option Z :=
  λ layer i, if decide (layer = update_layer u ∧ i = update_cell u) then Some (u_runtime_id u) else cells layer i.
Definition write_blocks (cells : nat → nat → option Z) (us : list BlockUpdate) : nat → nat → option Z :=
  foldl write_block cells us.

(** What [validate] admits of [u8] and [u32] fields. *)
Definition update_valid (u : BlockUpdate) : Prop := update_ok u ∧ (0 ≤ u_layer u < MAX_STORAGE_COUNT)%Z.

(** The pushes a layer has received. *)
Definition layer_group (us : list BlockUpdate) (layer : nat) : list (nat * Z) :=
  (λ u, (update_cell u, u_runtime_id u)) <$> filter (λ u, update_layer u = layer) us.

Lemma layer_group_snoc us u layer :
  layer_group (us ++ [u]) layer =
  layer_group us layer ++ (if decide (update_layer u = layer) then [(update_cell u, u_runtime_id u)] else []).
Proof.
  unfold layer_group. rewrite filter_app, fmap_app. f_equal.
  rewrite filter_cons, filter_nil. by case_decide.
Qed.

Lemma write_blocks_layer cells us layer i :
  write_blocks cells us layer i = write_cells (cells layer) (layer_group us layer) i.
Proof.
  induction us as [|u us IH] using rev_ind; [done|]. unfold write_blocks, write_cells in *.
  rewrite foldl_app, layer_group_snoc. simpl. unfold write_block at 1.
  destruct (decide (update_layer u = layer)) as [<-|Hne].
  - rewrite foldl_app. simpl. unfold write_cell at 1. simpl.
    destruct (decide (i = update_cell u)) as [->|].
    + by rewrite decide_True.
    + rewrite decide_False by (by intros [_ ?]). done.
  - rewrite app_nil_r, decide_False by (by intros [-> _]). done.
Qed.

Lemma update_cell_lt u : update_ok u → update_cell u < BLOCKS_PER_SUB_CHUNK.
Proof.
  intros (Hx & Hy & Hz). pose proof BLOCKS_eq. unfold update_cell. rewrite linear_index_eq by lia. lia.
Qed.

Lemma layer_group_lt us layer :
  Forall update_valid us → Forall (λ u, fst u < BLOCKS_PER_SUB_CHUNK) (layer_group us layer).
Proof.
  intros Hus. unfold layer_group. rewrite Forall_fmap. apply Forall_forall. intros u [_ Hu]%list_elem_of_filter.
  rewrite Forall_forall in Hus. simpl. apply update_cell_lt, (Hus u Hu).
Qed.

(** ** Grouping and padding *)

Lemma pad_layers_app air ss n layer :
  ∃ m, pad_layers air (ss ++ replicate n (uniform air)) layer = ss ++ replicate m (uniform air) ∧
    n ≤ m ∧ layer < length ss + m.
Proof.
  unfold pad_layers. rewrite <-app_assoc, <-replicate_add. eexists. split; [done|].
  rewrite length_app, length_replicate. lia.
Qed.

Section group.
Context (air : Z) (ss0 : list PalettedStorage) (us : list BlockUpdate).
Hypothesis Hus : Forall update_valid us.

Lemma group_updates :
  ∃ n groups, foldM (λ '(ss, groups) u,
      groups ← push_update groups u;
      Some (pad_layers air ss (Z.to_nat (u_layer u)), groups))
    (ss0, replicate (Z.to_nat MAX_STORAGE_COUNT) []) us
  = Some (ss0 ++ replicate n (uniform air), groups) ∧
    length groups = 16 ∧ (∀ layer, layer < 16 → groups !! layer = Some (layer_group us layer)) ∧
    (∀ u, u ∈ us → update_layer u < length ss0 + n).
Proof using All.
  destruct (foldM_inv (λ '(ss, groups) u,
      groups ← push_update groups u;
      Some (pad_layers air ss (Z.to_nat (u_layer u)), groups))
    (λ pre '(ss, groups), ∃ n, ss = ss0 ++ replicate n (uniform air) ∧
      length groups = 16 ∧ (∀ layer, layer < 16 → groups !! layer = Some (layer_group pre layer)) ∧
      (∀ u, u ∈ pre → update_layer u < length ss0 + n))
    (ss0, replicate (Z.to_nat MAX_STORAGE_COUNT) []) us)
    as ([ss groups] & Hf & n & -> & Hl & Hg & Hlt).
  - exists 0. simpl. rewrite app_nil_r. split_and!; [done|done| |by intros u ?%elem_of_nil].
    intros layer Hlayer. unfold layer_group. rewrite filter_nil. simpl.
    by do 16 (destruct layer as [|layer]; [done|]); lia.
  - intros pre u post [ss groups] Heq (n & -> & Hl & Hg & Hlt). rewrite Heq in Hus.
    apply Forall_app in Hus as [_ [Hu _]%Forall_cons]. destruct Hu as [Hu Hlayer].
    assert (Hul : update_layer u < 16) by (unfold update_layer, MAX_STORAGE_COUNT in *; lia).
    unfold push_update. fold (update_layer u). rewrite (Hg _ Hul). cbn [mbind option_bind].
    fold (update_cell u). eexists. split; [done|].
    destruct (pad_layers_app air ss0 n (update_layer u)) as (m & -> & Hnm & Hm).
    exists m. split_and!; [done|by rewrite length_insert| |].
    + intros layer Hlayer'. rewrite layer_group_snoc. case_decide as E.
      * subst layer. by rewrite list_lookup_insert_eq by lia.
      * rewrite list_lookup_insert_ne by done. rewrite Hg by done. by rewrite app_nil_r.
    + intros v [Hv| ->%list_elem_of_singleton]%elem_of_app; [|done]. specialize (Hlt v Hv). lia.
  - exists n, groups. eauto.
Qed.
End group.

(** ** The layers *)

Lemma apply_layer_spec ss layer ups :
  Forall storage_ok ss → Forall (λ u, fst u < BLOCKS_PER_SUB_CHUNK) ups → (ups ≠ [] → layer < length ss) →
  ∃ c ss', apply_layer ss layer ups = Some (c, ss') ∧ length ss' = length ss ∧ Forall storage_ok ss' ∧
    (∀ j, j ≠ layer → ss' !! j = ss !! j) ∧
    (∀ s, ss !! layer = Some s → ∃ s', ss' !! layer = Some s' ∧ edit_spec s (write_cells (cell_value s) ups) c s') ∧
    (ss !! layer = None → c = false).
Proof.
  intros Hss Hups Hlayer.
  assert (Hin : ∀ s c s' (o : option (bool * PalettedStorage)), o = Some (c, s') →
    ss !! layer = Some s → edit_spec s (write_cells (cell_value s) ups) c s' →
    ∃ c ss', ('(changed, s) ← o; Some (changed, <[layer := s]> ss)) = Some (c, ss') ∧ length ss' = length ss ∧
      Forall storage_ok ss' ∧ (∀ j, j ≠ layer → ss' !! j = ss !! j) ∧
      (∀ s, ss !! layer = Some s → ∃ s', ss' !! layer = Some s' ∧ edit_spec s (write_cells (cell_value s) ups) c s') ∧
      (ss !! layer = None → c = false)).
  { intros s c s' o -> Hs Hspec. exists c, (<[layer := s']> ss). simpl. split_and!; [done| | | | |].
    - by rewrite length_insert.
    - apply Forall_insert; [done|apply (es_ok _ _ _ _ Hspec)].
    - intros j Hj. by rewrite list_lookup_insert_ne.
    - intros t Ht. rewrite Hs in Ht. injection Ht as <-. exists s'.
      split; [|done]. apply list_lookup_insert_eq. by eapply lookup_lt_Some.
    - congruence. }
  destruct ups as [|[linear id] [|u2 ups]]; simpl.
  - exists false, ss. split_and!; try done. intros s Hs. exists s. split; [done|].
    split; try done. by eapply Forall_lookup_1. split; [done|]. by intros (i & _ & ?).
  - destruct (lookup_lt_is_Some_2 ss layer (Hlayer ltac:(done))) as [s Hs]. rewrite Hs. simpl.
    apply Forall_cons in Hups as [Hlin _]. simpl in Hlin.
    destruct (update_spec s linear id (Forall_lookup_1 _ _ _ _ Hss Hs) Hlin) as (c & s' & Ho & Hspec).
    rewrite <-Hs. by eapply Hin.
  - destruct (lookup_lt_is_Some_2 ss layer (Hlayer ltac:(done))) as [s Hs]. rewrite Hs. simpl.
    destruct (batch_spec s ((linear, id) :: u2 :: ups) (Forall_lookup_1 _ _ _ _ Hss Hs) Hups) as (c & s' & Ho & Hspec).
    rewrite <-Hs. by eapply Hin.
Qed.

(** A layer's storage after its group. *)
Definition layer_done (us : list BlockUpdate) (s s' : PalettedStorage) : nat → Prop := λ layer,
  ∃ c, edit_spec s (write_cells (cell_value s) (layer_group us layer)) c s'.

Section layers.
Context (us : list BlockUpdate) (ss : list PalettedStorage) (groups : list (list (nat * Z))).
Hypothesis Hss : Forall storage_ok ss.
Hypothesis Hus : Forall update_valid us.
Hypothesis Hlen : length groups = 16.
Hypothesis Hgroups : ∀ layer, layer < 16 → groups !! layer = Some (layer_group us layer).
Hypothesis Hlayers : ∀ u, u ∈ us → update_layer u < length ss.

Lemma group_layer layer : layer_group us layer ≠ [] → layer < length ss.
Proof using Hlayers.
  unfold layer_group. intros Hne.
  destruct (filter (λ u, update_layer u = layer) us) as [|u l] eqn:E; [done|].
  assert (Hu : u ∈ filter (λ u, update_layer u = layer) us) by (rewrite E; left).
  apply list_elem_of_filter in Hu as [<- Hu]. by apply Hlayers.
Qed.

Lemma apply_layers :
  ∃ c ss', foldM (λ '(changed, ss) '(layer, layer_updates),
      '(c, ss) ← apply_layer ss layer layer_updates; Some (changed || c, ss))
    (false, ss) (imap pair groups) = Some (c, ss') ∧
    length ss' = length ss ∧ Forall storage_ok ss' ∧
    (∀ layer s, layer < 16 → ss !! layer = Some s → ∃ s', ss' !! layer = Some s' ∧ ∀ i, i < BLOCKS_PER_SUB_CHUNK →
       cell_value s' i = write_cells (cell_value s) (layer_group us layer) i) ∧
    (∀ layer, 16 ≤ layer → ss' !! layer = ss !! layer) ∧
    (c = true ↔ ∃ layer s i, layer < 16 ∧ ss !! layer = Some s ∧ i < BLOCKS_PER_SUB_CHUNK ∧
       write_cells (cell_value s) (layer_group us layer) i ≠ cell_value s i).
Proof using All.
  destruct (foldM_inv (λ '(changed, ss) '(layer, layer_updates),
      '(c, ss) ← apply_layer ss layer layer_updates; Some (changed || c, ss))
    (λ pre '(c, ss1), let k := length pre in length ss1 = length ss ∧ Forall storage_ok ss1 ∧
       (∀ layer s, layer < k → ss !! layer = Some s → ∃ s', ss1 !! layer = Some s' ∧ ∀ i, i < BLOCKS_PER_SUB_CHUNK →
         cell_value s' i = write_cells (cell_value s) (layer_group us layer) i) ∧
       (∀ layer, k ≤ layer → ss1 !! layer = ss !! layer) ∧
       ((c : bool) = true ↔ ∃ layer s i, layer < k ∧ ss !! layer = Some s ∧ i < BLOCKS_PER_SUB_CHUNK ∧
         write_cells (cell_value s) (layer_group us layer) i ≠ cell_value s i))
    (false, ss) (imap pair groups)) as ([c ss'] & Hf & Hinv).
  - simpl. split_and!; try done; [intros; lia|split; [done|intros (? & ? & ? & ? & _); lia]].
  - intros pre [layer ups] post [c ss1] Heq (Hl & Hok & Hdone & Hrest & Hc). set (k := length pre) in *.
    assert (Hk : imap pair groups !! k = Some (layer, ups)) by (rewrite Heq; by apply list_lookup_middle).
    rewrite list_lookup_imap in Hk. destruct (groups !! k) as [g|] eqn:Hg; simpl in Hk; [|done].
    injection Hk as <- ->. assert (Hk16 : k < 16) by (apply lookup_lt_Some in Hg; lia).
    rewrite Hgroups in Hg by done. injection Hg as <-.
    destruct (apply_layer_spec ss1 k (layer_group us k)) as (c' & ss2 & -> & Hl2 & Hok2 & Hother & Hedit & Hnone).
    { done. } { by apply layer_group_lt. } { rewrite Hl. apply group_layer. }
    cbn [mbind option_bind]. eexists. split; [done|]. rewrite length_app. cbn [length]. fold k. rewrite Nat.add_1_r.
    split_and!; [lia|done| | |].
    + intros layer s Hlt Hs. destruct (decide (layer = k)) as [->|Hne].
      * destruct (Hedit s) as (s' & Hs' & Hspec); [by rewrite Hrest|]. exists s'. split; [done|].
        apply (es_cells _ _ _ _ Hspec).
      * destruct (Hdone layer s) as (s' & Hs' & ?); [lia|done|]. exists s'. rewrite Hother by done. done.
    + intros layer Hle. rewrite Hother by lia. apply Hrest. lia.
    + rewrite orb_true_iff, Hc. split.
      * intros [(layer & s & i & ? & ?)|Hc']; [exists layer, s, i; split; [lia|done]|].
        destruct (ss !! k) as [s|] eqn:Hs; [|rewrite Hnone in Hc'; [done|by rewrite Hrest]].
        destruct (Hedit s) as (s' & _ & Hspec); [by rewrite Hrest|].
        destruct (proj1 (es_changed _ _ _ _ Hspec) Hc') as (i & ? & ?). exists k, s, i. split_and!; (done || lia).
      * intros (layer & s & i & Hlt & Hs & Hi & Hne). destruct (decide (layer = k)) as [->|].
        -- right. destruct (Hedit s) as (s' & _ & Hspec); [by rewrite Hrest|].
           apply (proj2 (es_changed _ _ _ _ Hspec)). eauto.
        -- left. exists layer, s, i. split_and!; (done || lia).
  - rewrite length_imap, Hlen in Hinv. destruct Hinv as (? & ? & ? & ? & ?). exists c, ss'. split_and!; done.
Qed.
End layers.

(** ** Trailing air *)

Lemma pop_air_spec air rev :
  ∃ popped, rev = popped ++ pop_air air rev ∧ Forall (λ s, contains_only s air = true) popped ∧
    ∀ s l, pop_air air rev = s :: l → contains_only s air = false.
Proof.
  induction rev as [|s rev (popped & Heq & Hp & Hlast)]; simpl.
  - by exists [].
  - destruct (contains_only s air) eqn:Hs.
    + exists (s :: popped). split_and!; [by rewrite Heq at 1|by constructor|done].
    + exists []. split_and!; [done|constructor|]. by intros t l [= -> ->].
Qed.

Lemma trailing_air air ss :
  ∃ popped, let ss' := reverse (pop_air air (reverse ss)) in
    ss = ss' ++ popped ∧ Forall (λ s, contains_only s air = true) popped ∧
    ∀ s, last ss' = Some s → contains_only s air = false.
Proof.
  destruct (pop_air_spec air (reverse ss)) as (popped & Heq & Hp & Hlast). exists (reverse popped). simpl.
  split_and!.
  - rewrite <-reverse_app, <-Heq. by rewrite reverse_involutive.
  - apply Forall_forall. intros s Hs. rewrite elem_of_reverse in Hs. rewrite Forall_forall in Hp. by apply Hp.
  - intros s Hs. destruct (pop_air air (reverse ss)) as [|t l] eqn:E; [done|].
    rewrite reverse_cons, last_snoc in Hs. injection Hs as ->. by eapply Hlast.
Qed.

Lemma layer_cell_app air ss popped layer i :
  i < BLOCKS_PER_SUB_CHUNK → Forall storage_ok popped → Forall (λ s, contains_only s air = true) popped →
  layer_cell air (ss ++ popped) layer i = layer_cell air ss layer i.
Proof.
  intros Hi Hok Hp. unfold layer_cell. destruct (ss !! layer) as [s|] eqn:Hs.
  - by rewrite (lookup_app_l_Some _ _ _ _ Hs).
  - apply lookup_ge_None in Hs. rewrite lookup_app_r by done.
    destruct (popped !! (layer - length ss)) as [s|] eqn:Ht; [|done].
    apply contains_only_spec; [by eapply Forall_lookup_1| |done]. by eapply (Forall_lookup_1 _ _ _ _ Hp).
Qed.

Lemma layer_cell_uniform air ss n layer i :
  i < BLOCKS_PER_SUB_CHUNK → layer_cell air (ss ++ replicate n (uniform air)) layer i = layer_cell air ss layer i.
Proof.
  intros Hi. apply layer_cell_app; [done| |].
  - apply Forall_replicate, uniform_ok.
  - apply Forall_replicate, contains_only_spec; [apply uniform_ok|]. intros j Hj.
    rewrite cell_value_decoded by done. rewrite physical_index_read by done. done.
Qed.

(** ** The whole method *)

Record updates_spec {Context} (air : Z) (us : list BlockUpdate) (section : SubChunk Context) (changed : bool)
    (section' : SubChunk Context) : Prop := {
  us_ok : Forall storage_ok (storages section');
  us_cells : ∀ layer i, i < BLOCKS_PER_SUB_CHUNK →
    layer_cell air (storages section') layer i = write_blocks (layer_cell air (storages section)) us layer i;
  us_trimmed : ∀ s, last (storages section') = Some s → ∃ i, i < BLOCKS_PER_SUB_CHUNK ∧ cell_value s i ≠ Some air;
  us_changed : changed = true ↔ length (storages section') ≠ length (storages section) ∨
    ∃ layer i, i < BLOCKS_PER_SUB_CHUNK ∧
      write_blocks (layer_cell air (storages section)) us layer i ≠ layer_cell air (storages section) layer i;
  us_header : version section' = version section ∧ y_index section' = y_index section ∧ inline_payload section' = None;
}.

(** A storage that is not all air shows another value somewhere. *)
Lemma not_only_air s air : storage_ok s → contains_only s air = false →
  ∃ i, i < BLOCKS_PER_SUB_CHUNK ∧ cell_value s i ≠ Some air.
Proof.
  intros Hok Hc.
  destruct (decide (Forall (λ i, cell_value s i = Some air) (seq 0 BLOCKS_PER_SUB_CHUNK))) as [Hall|Hnot].
  - rewrite Forall_forall in Hall. assert (contains_only s air = true); [|congruence].
    apply contains_only_spec; [done|]. intros i Hi. apply Hall, elem_of_seq. lia.
  - apply not_Forall_Exists, Exists_exists in Hnot as (i & Hi%elem_of_seq & Hne); [|intros; apply _].
    exists i. split; [lia|done].
Qed.

Lemma apply_block_updates_spec {Context} (section : SubChunk Context) us air :
  Forall storage_ok (storages section) → Forall update_valid us →
  ∃ changed section', apply_block_updates section us air = Some (changed, section') ∧
    updates_spec air us section changed section'.
Proof.
  intros Hok Hus. unfold apply_block_updates.
  destruct (group_updates air (storages section) us Hus) as (n & groups & -> & Hgl & Hg & Hlt).
  cbn [mbind option_bind]. set (padded := storages section ++ replicate n (uniform air)).
  assert (Hpok : Forall storage_ok padded).
  { apply Forall_app. split; [done|]. apply Forall_replicate, uniform_ok. }
  destruct (apply_layers us padded groups Hpok Hus Hgl Hg) as (c & ss & -> & Hlen & Hssok & Hdone & Hrest & Hc).
  { intros u Hu. unfold padded. rewrite length_app, length_replicate. by apply Hlt. }
  cbn [mbind option_bind].
  destruct (trailing_air air ss) as (popped & Hsplit & Hp & Hlast). set (ss' := reverse _) in *. simpl in Hlast.
  pose proof Hssok as Hssok'. rewrite Hsplit in Hssok'. apply Forall_app in Hssok' as [Hok' Hpopok].
  assert (Hgroup16 : ∀ layer, 16 ≤ layer → layer_group us layer = []).
  { intros layer Hle. unfold layer_group. destruct (filter _ us) as [|u l] eqn:E; [done|].
    assert (Hu : u ∈ filter (λ u, update_layer u = layer) us) by (rewrite E; left).
    apply list_elem_of_filter in Hu as [Hl Hu]. rewrite Forall_forall in Hus. destruct (Hus u Hu) as [_ Hb].
    unfold update_layer, MAX_STORAGE_COUNT in *. lia. }
  assert (Hwrite : ∀ layer i, i < BLOCKS_PER_SUB_CHUNK →
    write_blocks (layer_cell air (storages section)) us layer i
    = write_cells (layer_cell air padded layer) (layer_group us layer) i).
  { intros layer i Hi. rewrite write_blocks_layer, !write_cells_final. unfold padded.
    by rewrite layer_cell_uniform. }
  assert (Hcells : ∀ layer i, i < BLOCKS_PER_SUB_CHUNK →
    layer_cell air ss layer i = write_cells (layer_cell air padded layer) (layer_group us layer) i).
  { intros layer i Hi. unfold layer_cell. destruct (decide (layer < 16)) as [Hl|Hl].
    - destruct (padded !! layer) as [s|] eqn:Hs.
      + destruct (Hdone layer s Hl Hs) as (s' & -> & Hs'). by apply Hs'.
      + rewrite (lookup_ge_None_2 ss) by (rewrite Hlen; by apply lookup_ge_None).
        destruct (layer_group us layer) as [|g gs] eqn:E; [done|exfalso].
        pose proof (group_layer us padded) as Hgl'. apply lookup_ge_None in Hs.
        assert (layer < length padded); [|lia]. apply Hgl'; [|by rewrite E].
        intros u Hu. unfold padded. rewrite length_app, length_replicate. by apply Hlt.
    - rewrite Hrest by lia. rewrite Hgroup16 by lia. by destruct (padded !! layer). }
  eexists _, _. split; [done|]. split; cbn [storages version y_index inline_payload].
  - done.
  - intros layer i Hi. rewrite Hwrite, <-Hcells by done. symmetry. rewrite Hsplit. by apply layer_cell_app.
  - intros s Hs. apply not_only_air; [|by apply Hlast].
    rewrite last_lookup in Hs. exact (Forall_lookup_1 _ _ _ _ Hok' Hs).
  - rewrite orb_true_iff, Hc, negb_true_iff, Nat.eqb_neq. split.
    + intros [(layer & s & i & Hl & Hs & Hi & Hne)|Hne]; [right|by left].
      exists layer, i. split; [done|]. rewrite Hwrite by done.
      unfold padded in *. rewrite <-(layer_cell_uniform air (storages section) n) by done.
      unfold layer_cell. by rewrite Hs.
    + intros [Hne|(layer & i & Hi & Hne)]; [by right|left]. rewrite Hwrite in Hne by done.
      rewrite <-(layer_cell_uniform air (storages section) n) in Hne by done. fold padded in Hne.
      destruct (decide (layer < 16)) as [Hl|Hl]; [|by rewrite Hgroup16 in Hne by lia].
      unfold layer_cell in Hne. destruct (padded !! layer) as [s|] eqn:Hs; [by exists layer, s, i|exfalso].
      destruct (layer_group us layer) as [|g gs] eqn:E; [done|]. apply lookup_ge_None in Hs.
      pose proof (group_layer us padded) as Hgl'. assert (layer < length padded); [|lia].
      apply Hgl'; [|by rewrite E]. intros u Hu. unfold padded. rewrite length_app, length_replicate. by apply Hlt.
  - done.
Qed.
