(* ===== verification/SubChunkTheorems.v ===== *)
(** * What sub-chunks guarantee

    Totality of the decoder, soundness of the inline payload cache, the refinement of block updates
    and the exactness of block comparison. *)
From stdpp Require Import base numbers list strings.
From S2P Require Import Prelude Packed Palette PaletteSpec PaletteUpdates PaletteViews PaletteTheorems Bytes NbtTree NbtScan Keys Wire SubChunk SubChunkSpec.
#[local] Open Scope Z_scope.

(** ** Comparison *)

Lemma linear_split i : (i < BLOCKS_PER_SUB_CHUNK)%nat →
  ∃ x y z, (x < 16 ∧ y < 16 ∧ z < 16)%nat ∧ i = linear_index x y z.
Proof.
  intros Hi. pose proof BLOCKS_eq. exists (i / 256)%nat, (i mod 16)%nat, (i / 16 mod 16)%nat.
  pose proof (Nat.mod_upper_bound i 16 ltac:(lia)). pose proof (Nat.mod_upper_bound (i / 16) 16 ltac:(lia)).
  assert (i / 256 < 16)%nat by (apply Nat.Div0.div_lt_upper_bound; lia). split; [lia|].
  rewrite linear_index_eq by done. pose proof (Nat.div_mod_eq i 16). pose proof (Nat.div_mod_eq (i / 16) 16).
  replace (i / 256)%nat with (i / 16 / 16)%nat by (by rewrite Nat.Div0.div_div). lia.
Qed.

Lemma runtime_id_cell s x y z : (x < 16 ∧ y < 16 ∧ z < 16)%nat → runtime_id s x y z = cell_value s (linear_index x y z).
Proof. intros (? & ? & ?). unfold runtime_id, cell_value. rewrite decide_False by lia. done. Qed.

Lemma cells_eqb_iff s t :
  cells_eqb s t = true ↔ ∀ i, (i < BLOCKS_PER_SUB_CHUNK)%nat → cell_value s i = cell_value t i.
Proof.
  unfold cells_eqb. pose proof BLOCKS_eq as HB. split.
  - intros H i (x & y & z & Hxyz & ->)%linear_split. rewrite <-!runtime_id_cell by done.
    rewrite forallb_forall in H. specialize (H x ltac:(apply in_seq; lia)). rewrite forallb_forall in H.
    specialize (H y ltac:(apply in_seq; lia)). rewrite forallb_forall in H.
    specialize (H z ltac:(apply in_seq; lia)). by apply bool_decide_eq_true_1 in H.
  - intros H. apply forallb_forall. intros x Hx%in_seq. apply forallb_forall. intros y Hy%in_seq.
    apply forallb_forall. intros z Hz%in_seq. apply bool_decide_eq_true_2. rewrite !runtime_id_cell by lia.
    apply H. rewrite linear_index_eq by lia. lia.
Qed.

Lemma storage_eqb_sound s t :
  storage_ok s → storage_ok t →
  ∃ b, storage_eqb s t = Some b ∧
    (b = true → ∀ i, (i < BLOCKS_PER_SUB_CHUNK)%nat → cell_value s i = cell_value t i).
Proof.
  intros Hs Ht. unfold storage_eqb. destruct (words_spec s Hs) as (w1 & s' & -> & V1).
  destruct (words_spec t Ht) as (w2 & t' & -> & V2). simpl. eexists. split; [done|].
  rewrite bool_decide_eq_true. intros (Hb & Hp & Hw) i Hi. unfold cell_value.
  rewrite <-(wv_read _ _ _ V1), <-(wv_read _ _ _ V2) by done. by rewrite Hb, Hp, Hw.
Qed.

Lemma storages_eqb_sound a b :
  Forall storage_ok a → Forall storage_ok b →
  ∃ e, storages_eqb a b = Some e ∧
    (e = true → length a = length b ∧ Forall (λ p, cells_eqb (fst p) (snd p) = true) (zip a b)).
Proof.
  revert b. induction a as [|s a IH]; intros [|t b] Ha Hb; simpl.
  - exists true. split; [done|]. intros _. split; [done|constructor].
  - by exists false.
  - by exists false.
  - apply Forall_cons in Ha as [Hs Ha]. apply Forall_cons in Hb as [Ht Hb].
    destruct (storage_eqb_sound s t Hs Ht) as (e & -> & He). simpl. destruct e; [|by exists false].
    destruct (IH b Ha Hb) as (e & -> & Hab). exists e. split; [done|]. intros ->.
    destruct (Hab eq_refl) as [Hl Hz]. split; [lia|]. constructor; [|done]. by apply cells_eqb_iff, He.
Qed.

Lemma blocks_match_spec {Context} (a b : SubChunk Context) :
  Forall storage_ok (storages a) → Forall storage_ok (storages b) →
  ∃ e, blocks_match a b = Some e ∧
    (e = true ↔ length (storages a) = length (storages b) ∧
       ∀ layer s t i, storages a !! layer = Some s → storages b !! layer = Some t →
         (i < BLOCKS_PER_SUB_CHUNK)%nat → cell_value s i = cell_value t i).
Proof.
  intros Ha Hb. unfold blocks_match.
  assert (Hzip : forallb (λ p, cells_eqb (fst p) (snd p)) (zip (storages a) (storages b)) = true ↔
    ∀ layer s t i, storages a !! layer = Some s → storages b !! layer = Some t →
      (i < BLOCKS_PER_SUB_CHUNK)%nat → cell_value s i = cell_value t i).
  { rewrite forallb_forall. split.
    - intros H layer s t i Hs Ht Hi. specialize (H (s, t)). forward H.
      { apply list_elem_of_In, list_elem_of_lookup. exists layer. by apply lookup_zip_Some. }
      by eapply cells_eqb_iff.
    - intros H [s t] Hin. apply list_elem_of_In, list_elem_of_lookup in Hin as [layer [Hs Ht]%lookup_zip_Some].
      apply cells_eqb_iff. intros i Hi. by eapply H. }
  destruct (Nat.eqb_spec (length (storages a)) (length (storages b))) as [Hl|Hl].
  - destruct (storages_eqb_sound _ _ Ha Hb) as (e & -> & He). cbn [mbind option_bind]. eexists. split; [done|].
    rewrite orb_true_iff. cbn [andb]. rewrite Hzip. split.
    + intros [->|H]; [|done]. destruct (He eq_refl) as [_ Hz]. split; [done|]. apply Hzip.
      apply forallb_forall. intros p Hp. rewrite Forall_forall in Hz. apply Hz. by apply list_elem_of_In.
    + intros [_ H]. by right.
  - cbn [mbind option_bind]. exists false. split; [done|]. split; [done|]. by intros [? _].
Qed.

(** ** Properties *)

Section properties.
Context (sha256 : bytes → bytes) {Context : Type}.

(** C30: Decoding a sub-chunk is total: whatever the bytes, the decoder returns a section, it consumes
    at most the input, reads at most two layers, and every cell of every layer has a value. *)
Theorem decode_total (ids : BlockIds Context) bs :
  Forall is_byte bs →
  ∃ section consumed, sub_chunk_decode_prefix sha256 ids bs = Some (section, consumed) ∧
    0 ≤ consumed ≤ Z.of_nat (length bs) ∧ (length (storages section) ≤ 2)%nat ∧
    ∀ layer s i, storages section !! layer = Some s → (i < BLOCKS_PER_SUB_CHUNK)%nat → is_Some (cell_value s i).
Proof using Type.
  intros Hb. unfold sub_chunk_decode_prefix. destruct (sub_chunk_read sha256 ids (reader_new bs)) as [o r] eqn:E.
  destruct (sub_chunk_read_ok sha256 ids (reader_new bs) o r Hb E) as (section & -> & Hok & Hl & _).
  apply stable_sub_chunk_read in E as [[_ (p & Hp & Hpos)] _]. simpl in *.
  exists section, (r_position r). split_and!; try done; [lia| |].
  - rewrite Hp, length_app. lia.
  - intros layer s i Hs Hi. apply cell_value_total; [|done]. by eapply Forall_lookup_1.
Qed.

(** The inline cache is sound: when a section that published its payload is reused for another
    reader, decoding that reader afresh would have given the same version, Y index and layers and
    left the reader in the same place, provided a matching context resolves ids alike and the two
    payloads do not collide under the hash. *)
Theorem inline_reuse_sound (ids ids' : BlockIds Context) context r section r1 payload slot_y r' r2 :
  read_inline sha256 ids (Some context) r = (Some section, r1) → inline_payload section = Some payload →
  (inline_cache_context_matches ids' context = true → ContextContract ids ids') →
  (let len := Z.to_nat (il_length payload) in
   sha256 (take len (remaining r')) = sha256 (take len (remaining r)) →
   take len (remaining r') = take len (remaining r)) →
  Forall is_byte (remaining r) →
  reuse_inline sha256 ids' section slot_y r' = (true, r2) →
  ∃ fresh, sub_chunk_read sha256 ids' r' = (Some fresh, r2) ∧
    version fresh = version section ∧ y_index fresh = y_index section ∧ storages fresh = storages section.
Proof using Type.
  intros Hread Hpay Hctx Hhash Hbytes Hreuse. unfold read_inline in Hread.
  destruct (sub_chunk_read sha256 ids r) as [o r3] eqn:Hr.
  destruct (sub_chunk_read_ok _ _ _ _ _ Hbytes Hr) as (sec & -> & _ & _ & Hnone).
  destruct (stable_sub_chunk_read _ _ _ _ _ Hr) as [[_ (p & Hp & Hpos)] Hst].
  cbn [mbind option_bind] in Hread. injection Hread as Hsec <-.
  destruct (negb (failed_read r3) && negb (bool_decide (storages sec = []))) eqn:Hcond; subst section; [|congruence].
  apply andb_prop in Hcond as [Hfail%negb_true_iff _].
  simpl in Hpay. injection Hpay as <-. cbn [il_length] in *.
  unfold reuse_inline in Hreuse. cbn [inline_payload il_y_index il_context il_length il_hash] in Hreuse.
  destruct (_ || _) eqn:Hor; [done|]. apply orb_false_iff in Hor as [_ Hm%negb_false_iff].
  specialize (Hctx Hm).
  replace (r_position r3 - r_position r) with (Z.of_nat (length p)) in * by lia. rewrite Nat2Z.id in *.
  destruct (Z.ltb_spec (Z.of_nat (length (remaining r'))) (Z.of_nat (length p))) as [|Hlen]; [done|].
  rewrite Hp, take_app_length in Hreuse, Hhash.
  destruct (bool_decide (sha256 (take (length p) (remaining r')) = sha256 p)) eqn:Heq; [|done].
  apply bool_decide_eq_true_1, Hhash in Heq. simpl in Hreuse. unfold read_exact in Hreuse.
  destruct (Z.ltb_spec (Z.of_nat (length (remaining r'))) (Z.of_nat (length p))); [lia|].
  rewrite Nat2Z.id in Hreuse. simpl in Hreuse. injection Hreuse as <-.
  exists sec. cbn [version y_index storages]. split_and!; [|done..].
  rewrite <-(sub_chunk_read_contract sha256 ids ids').
  destruct r' as [pos' l' f']. cbn [remaining r_position failed_read] in *.
  rewrite <-(take_drop (length p) l') at 1. rewrite Heq. by rewrite (Hst Hfail p Hp).
Qed.

(** C2: Block updates on a sub-chunk, with absent layers read as air, have the effect of writing the
    blocks one after the other; the flag is set exactly when a block or the number of layers
    changes, trailing layers of air are dropped and the cached wire identity is cleared. *)
Theorem apply_block_updates_refines (section : SubChunk Context) us air :
  Forall storage_ok (storages section) → Forall update_valid us →
  ∃ changed section', apply_block_updates section us air = Some (changed, section') ∧
    Forall storage_ok (storages section') ∧
    (∀ layer i, (i < BLOCKS_PER_SUB_CHUNK)%nat →
       layer_cell air (storages section') layer i = write_blocks (layer_cell air (storages section)) us layer i) ∧
    (∀ s, last (storages section') = Some s → ∃ i, (i < BLOCKS_PER_SUB_CHUNK)%nat ∧ cell_value s i ≠ Some air) ∧
    (changed = true ↔ length (storages section') ≠ length (storages section) ∨
       ∃ layer i, (i < BLOCKS_PER_SUB_CHUNK)%nat ∧
         layer_cell air (storages section') layer i ≠ layer_cell air (storages section) layer i) ∧
    inline_payload section' = None.
Proof using Type.
  intros Hok Hus. destruct (apply_block_updates_spec section us air Hok Hus) as (changed & section' & Hup & [H1 H2 H3 H4 H5]).
  exists changed, section'. split_and!; try done; [|by destruct H5 as (_ & _ & ->)].
  rewrite H4. split; (intros [?|(layer & i & Hi & ?)]; [by left|right; exists layer, i; split; [done|]]).
  - by rewrite H2.
  - by rewrite <-H2.
Qed.

(** [blocks_match] holds exactly when two sections have the same number of layers and the same
    block in every cell, however their palettes are packed. *)
Theorem blocks_match_iff (a b : SubChunk Context) :
  Forall storage_ok (storages a) → Forall storage_ok (storages b) →
  ∃ e, blocks_match a b = Some e ∧
    (e = true ↔ length (storages a) = length (storages b) ∧
       ∀ layer s t i, storages a !! layer = Some s → storages b !! layer = Some t →
         (i < BLOCKS_PER_SUB_CHUNK)%nat → cell_value s i = cell_value t i).
Proof using Type. exact (blocks_match_spec a b). Qed.
End properties.

(** ** Witnesses *)

Definition toy_hash (bs : bytes) : bytes := bs.

Lemma decode_total_witness :
  ∃ section consumed, sub_chunk_decode_prefix toy_hash (raw_block_ids 0) [9; 1; 255; 1; 14] = Some (section, consumed) ∧
    0 ≤ consumed ≤ 5 ∧ (length (storages section) ≤ 2)%nat ∧
    ∀ layer s i, storages section !! layer = Some s → (i < BLOCKS_PER_SUB_CHUNK)%nat → is_Some (cell_value s i).
Proof. apply (decode_total toy_hash (raw_block_ids 0) [9; 1; 255; 1; 14]). repeat constructor; lia. Defined.

(** One uniform layer of network id 7, with three bytes of another section behind it. *)
Lemma inline_reuse_sound_witness :
  let r := mk_reader 0 [9; 1; 255; 1; 14; 3; 3] false in
  let r' := mk_reader 40 [9; 1; 255; 1; 14; 8] false in
  ∃ section r1 payload r2,
    read_inline toy_hash (raw_block_ids 0) (Some 0) r = (Some section, r1) ∧ inline_payload section = Some payload ∧
    reuse_inline toy_hash (raw_block_ids 0) section (-1) r' = (true, r2) ∧
    ∃ fresh, sub_chunk_read toy_hash (raw_block_ids 0) r' = (Some fresh, r2) ∧
      version fresh = version section ∧ y_index fresh = y_index section ∧ storages fresh = storages section.
Proof.
  intros r r'. do 4 eexists. split; [reflexivity|]. split; [reflexivity|]. split; [reflexivity|].
  apply (inline_reuse_sound toy_hash (raw_block_ids 0) (raw_block_ids 0) 0 r _ _ _ (-1) r' _ eq_refl eq_refl).
  - intros _. by split.
  - done.
  - repeat constructor; lia.
  - reflexivity.
Defined.

Lemma apply_block_updates_refines_witness :
  let section := @empty_section Z 9 (Some 0) in
  let us := [mk_update 1 2 3 0 7; mk_update 1 2 3 1 0] in
  ∃ changed section', apply_block_updates section us 0 = Some (changed, section') ∧
    Forall storage_ok (storages section') ∧
    (∀ layer i, (i < BLOCKS_PER_SUB_CHUNK)%nat →
       layer_cell 0 (storages section') layer i = write_blocks (layer_cell 0 (storages section)) us layer i) ∧
    (∀ s, last (storages section') = Some s → ∃ i, (i < BLOCKS_PER_SUB_CHUNK)%nat ∧ cell_value s i ≠ Some 0) ∧
    (changed = true ↔ length (storages section') ≠ length (storages section) ∨
       ∃ layer i, (i < BLOCKS_PER_SUB_CHUNK)%nat ∧
         layer_cell 0 (storages section') layer i ≠ layer_cell 0 (storages section) layer i) ∧
    inline_payload section' = None.
Proof.
  apply (apply_block_updates_refines (@empty_section Z 9 (Some 0)) [mk_update 1 2 3 0 7; mk_update 1 2 3 1 0] 0).
  - constructor.
  - repeat constructor; simpl; unfold MAX_STORAGE_COUNT; lia.
Defined.

Lemma blocks_match_iff_witness :
  let a := @mk_sub_chunk Z 9 (Some 0) [uniform 7] None in
  let b := @mk_sub_chunk Z 8 None [edited_uniform 7] None in
  ∃ e, blocks_match a b = Some e ∧
    (e = true ↔ length (storages a) = length (storages b) ∧
       ∀ layer s t i, storages a !! layer = Some s → storages b !! layer = Some t →
         (i < BLOCKS_PER_SUB_CHUNK)%nat → cell_value s i = cell_value t i).
Proof.
  apply (blocks_match_iff (@mk_sub_chunk Z 9 (Some 0) [uniform 7] None) (@mk_sub_chunk Z 8 None [edited_uniform 7] None)).
  - apply Forall_singleton, uniform_ok.
  - apply Forall_singleton, edited_uniform_ok.
Defined.
