(* ===== verification/Revisions.v ===== *)
(** * Collision revision identities

    The allocator of [collision_revision.rs]: one atomic counter shared by every store of the process.
    [allocate_batch] is one uninterrupted call; [step] runs any number of calls side by side, where a
    relaxed load or a failed exchange may observe any earlier value of the counter and a weak exchange
    may fail for no reason. *)
From stdpp Require Import base numbers list gmap relations.
From S2P Require Import Prelude.
#[local] Open Scope Z_scope.

Definition U64_MAX : Z := 2 ^ 64 - 1.

Inductive CollisionRevisionError := Exhausted.

(** The body of the exchange loop up to the exchange: the last identity and the next counter value. *)
Definition try_batch (next count : Z) : result CollisionRevisionError (Z * Z) :=
  if next =? 0 then Err Exhausted
  else
    let last := next + (count - 1) in
    if U64_MAX <? last then Err Exhausted
    else Ok (last, if last =? U64_MAX then 0 else last + 1).

(** [(next..=last).collect()] *)
Definition revisions (next last : Z) : list Z := seqZ next (last - next + 1).

(** A call that no other thread disturbs: its result and the counter it leaves. *)
Definition allocate_batch (next count : Z) : result CollisionRevisionError (list Z) * Z :=
  if count =? 0 then (Ok [], next)
  else match try_batch next count with
       | Err e => (Err e, next)
       | Ok (last, replacement) => (Ok (revisions next last), replacement)
       end.

Definition allocate (next : Z) : result CollisionRevisionError Z * Z :=
  match allocate_batch next 1 with
  | (Ok (r :: _), next) => (Ok r, next)
  | (Ok [], next) => (Err Exhausted, next)
  | (Err e, next) => (Err e, next)
  end.

(** ** Concurrent calls *)

Inductive Thread :=
  | Ready (count : Z)
  | Trying (count next : Z)
  | Returned (count : Z) (r : result CollisionRevisionError (list Z)).

(** The counter with every value it has held, newest first, the calls, and the batches handed out. *)
Record Shared := mk_shared {
  current : Z;
  earlier : list Z;
  threads : gmap nat Thread;
  issued : list (nat * list Z);
}.

Definition observable (s : Shared) (v : Z) : Prop := v ∈ current s :: earlier s.
Definition set_thread (s : Shared) (t : nat) (th : Thread) : Shared :=
  mk_shared (current s) (earlier s) (<[t := th]> (threads s)) (issued s).

Inductive step (s : Shared) : Shared → Prop :=
  | step_empty t :
      threads s !! t = Some (Ready 0) → step s (set_thread s t (Returned 0 (Ok [])))
  | step_load t count v :
      threads s !! t = Some (Ready count) → count ≠ 0 → observable s v → step s (set_thread s t (Trying count v))
  | step_refuse t count next e :
      threads s !! t = Some (Trying count next) → try_batch next count = Err e →
      step s (set_thread s t (Returned count (Err e)))
  | step_exchange t count last replacement :
      threads s !! t = Some (Trying count (current s)) → try_batch (current s) count = Ok (last, replacement) →
      step s (mk_shared replacement (current s :: earlier s)
                (<[t := Returned count (Ok (revisions (current s) last))]> (threads s))
                ((t, revisions (current s) last) :: issued s))
  | step_retry t count next last replacement observed :
      threads s !! t = Some (Trying count next) → try_batch next count = Ok (last, replacement) →
      observable s observed → step s (set_thread s t (Trying count observed)).

(** Every thread is about to make one call; the process starts the counter at 1. *)
Definition starts (first : Z) (s : Shared) : Prop :=
  current s = first ∧ earlier s = [] ∧ issued s = [] ∧
  ∀ t th, threads s !! t = Some th → ∃ count, th = Ready count ∧ 0 ≤ count < 2 ^ 64.

(** ** Invariant *)

(** [n] identities have been handed out, in the order of the successful exchanges. *)
Record inv (first n : Z) (s : Shared) : Prop := {
  inv_n : 0 ≤ n ∧ first + n ≤ 2 ^ 64;
  inv_issued : concat (reverse (snd <$> issued s)) = seqZ first n;
  inv_current : current s = if first + n =? 2 ^ 64 then 0 else first + n;
  inv_seen v : observable s v → if v =? 0 then first + n = 2 ^ 64 else first ≤ v ≤ first + n;
  inv_trying t count next : threads s !! t = Some (Trying count next) → 0 < count < 2 ^ 64 ∧ observable s next;
  inv_ready t count : threads s !! t = Some (Ready count) → 0 ≤ count < 2 ^ 64;
  inv_ok t count batch : threads s !! t = Some (Returned count (Ok batch)) →
    Z.of_nat (length batch) = count ∧ (count = 0 ∨ (t, batch) ∈ issued s);
  inv_err t count e : threads s !! t = Some (Returned count (Err e)) → 2 ^ 64 < first + n + count;
  inv_once t batch : (t, batch) ∈ issued s → ∃ count, threads s !! t = Some (Returned count (Ok batch));
  inv_tids : NoDup (fst <$> issued s);
}.

Lemma try_batch_spec next count :
  0 < count →
  match try_batch next count with
  | Err _ => next = 0 ∨ 2 ^ 64 < next + count
  | Ok (last, replacement) =>
      next ≠ 0 ∧ last = next + count - 1 ∧ next + count ≤ 2 ^ 64 ∧
      replacement = if next + count =? 2 ^ 64 then 0 else next + count
  end.
Proof.
  intros Hc. unfold try_batch, U64_MAX. destruct (Z.eqb_spec next 0); [by left|].
  destruct (Z.ltb_spec (2 ^ 64 - 1) (next + (count - 1))); [right; lia|]. split_and!; [done|lia..|].
  destruct (Z.eqb_spec (next + (count - 1)) (2 ^ 64 - 1)), (Z.eqb_spec (next + count) (2 ^ 64)); lia.
Qed.

Lemma start_inv first s : 1 ≤ first < 2 ^ 64 → starts first s → inv first 0 s.
Proof.
  intros Hf (Hc & He & Hi & Ht). split.
  - lia.
  - by rewrite Hi.
  - rewrite Hc. destruct (Z.eqb_spec (first + 0) (2 ^ 64)); lia.
  - intros v. unfold observable. rewrite Hc, He. intros ->%list_elem_of_singleton.
    destruct (Z.eqb_spec first 0); lia.
  - intros t count next (? & ? & _)%Ht. done.
  - intros t count (? & [= <-] & ?)%Ht. done.
  - intros t count b (? & ? & _)%Ht. done.
  - intros t count e (? & ? & _)%Ht. done.
  - intros t b. rewrite Hi. by intros ?%not_elem_of_nil.
  - rewrite Hi. constructor.
Qed.

(** A step that only moves one thread keeps the invariant when the thread's new state fits. *)
Lemma inv_set_thread first n s t th old :
  inv first n s → threads s !! t = Some old → (∀ count r, old ≠ Returned count r) →
  match th with
  | Ready count => 0 ≤ count < 2 ^ 64
  | Trying count next => 0 < count < 2 ^ 64 ∧ observable s next
  | Returned count (Ok batch) => count = 0 ∧ batch = []
  | Returned count (Err _) => 2 ^ 64 < first + n + count
  end → inv first n (set_thread s t th).
Proof.
  intros [H1 H2 H3 H4 H5 H6 H7 H8 H9 H10] Hold Hrunning Hth. split; simpl; try done.
  - intros t' count next [[<- ->]|[_ ?]]%lookup_insert_Some; [done|by eapply H5].
  - intros t' count [[<- ->]|[_ ?]]%lookup_insert_Some; [done|by eapply H6].
  - intros t' count b [[<- ->]|[_ ?]]%lookup_insert_Some; [destruct Hth as [-> ->]; by split; [|left]|by eapply H7].
  - intros t' count e [[<- ->]|[_ ?]]%lookup_insert_Some; [done|by eapply H8].
  - intros t' b (count & Hb)%H9. exists count. rewrite lookup_insert_ne; [done|]. intros <-.
    rewrite Hold in Hb. injection Hb as ->. by eapply Hrunning.
Qed.

Lemma step_inv first n s s' : 1 ≤ first → inv first n s → step s s' → ∃ n', n ≤ n' ∧ inv first n' s'.
Proof.
  intros Hf Hinv Hstep. pose proof Hinv as [H1 H2 H3 H4 H5 H6 H7 H8 H9 H10].
  destruct Hstep as [t Ht|t count v Ht Hc Hv|t count next e Ht He|t count last repl Ht Hb|t count next last repl v Ht Hb Hv].
  - exists n. split; [done|]. by eapply inv_set_thread.
  - exists n. split; [done|]. eapply inv_set_thread; try done. split; [|done]. apply H6 in Ht. lia.
  - exists n. split; [done|]. eapply inv_set_thread; try done. destruct (H5 _ _ _ Ht) as [Hc Hseen].
    pose proof (try_batch_spec next count ltac:(lia)) as Hspec. rewrite He in Hspec. specialize (H4 _ Hseen).
    destruct (Z.eqb_spec next 0); lia.
  - destruct (H5 _ _ _ Ht) as [Hc Hseen]. pose proof (try_batch_spec (current s) count ltac:(lia)) as Hspec.
    rewrite Hb in Hspec. destruct Hspec as (Hnz & -> & Hle & ->).
    assert (current s = first + n) as Hcur by (destruct (Z.eqb_spec (first + n) (2 ^ 64)); congruence).
    assert (Hlen : length (revisions (current s) (current s + count - 1)) = Z.to_nat count)
      by (unfold revisions; rewrite length_seqZ; lia).
    assert (Hfresh : t ∉ (fst <$> issued s)).
    { intros ([t' b] & -> & Hin)%list_elem_of_fmap. destruct (H9 _ _ Hin) as (c & Hb'). simpl in Ht. congruence. }
    rewrite Hcur in *. exists (n + count). split; [lia|]. split; cbn [current earlier threads issued].
    + lia.
    + rewrite fmap_cons, reverse_cons, concat_app, H2. cbn [concat snd]. rewrite app_nil_r. unfold revisions.
      replace (first + n + count - 1 - (first + n) + 1) with count by lia. rewrite seqZ_app by lia. done.
    + by rewrite Z.add_assoc.
    + unfold observable. cbn [current earlier]. intros v [->|Hv]%elem_of_cons.
      * rewrite Z.add_assoc. destruct (Z.eqb_spec (first + n + count) (2 ^ 64)); simpl; [lia|].
        destruct (Z.eqb_spec (first + n + count) 0); lia.
      * assert (observable s v) as Hv' by (unfold observable; by rewrite Hcur). apply H4 in Hv'.
        destruct (Z.eqb_spec v 0); lia.
    + intros t' c next [[_ ?]|[_ Ht']]%lookup_insert_Some; [done|]. destruct (H5 _ _ _ Ht') as [? Hs]. split; [done|].
      unfold observable in *. simpl. rewrite Hcur in Hs. by right.
    + intros t' c [[_ ?]|[_ Ht']]%lookup_insert_Some; [done|by eapply H6].
    + intros t' c b [[<- [= <- <-]]|[_ Ht']]%lookup_insert_Some.
      * split; [rewrite Hlen; lia|]. right. by left.
      * destruct (H7 _ _ _ Ht') as [? [?|?]]; (split; [done|]); [by left|right; by right].
    + intros t' c e [[_ ?]|[_ Ht']]%lookup_insert_Some; [done|]. apply H8 in Ht'. lia.
    + intros t' b [[= -> ->]|Hin]%elem_of_cons.
      * exists count. by rewrite lookup_insert_eq.
      * destruct (H9 _ _ Hin) as (c & ?). exists c. rewrite lookup_insert_ne; [done|]. intros <-. apply Hfresh.
        apply list_elem_of_fmap. by exists (t, b).
    + by constructor.
  - exists n. split; [done|]. eapply inv_set_thread; try done. split; [|done]. by eapply H5.
Qed.

Lemma reachable_inv first s s' :
  1 ≤ first < 2 ^ 64 → starts first s → rtc step s s' → ∃ n, inv first n s'.
Proof.
  intros Hf Hs Hsteps. assert (∃ n, inv first n s) as Hn by (exists 0; by apply start_inv). clear Hs.
  induction Hsteps as [|s1 s2 s3 Hstep _ IH]; [done|]. apply IH. destruct Hn as [n Hn].
  destruct (step_inv first n s1 s2) as (n' & _ & ?); [lia|done..|]. by exists n'.
Qed.

Lemma NoDup_concat_disjoint {A} (ls : list (list A)) i j a b x :
  NoDup (concat ls) → ls !! i = Some a → ls !! j = Some b → i ≠ j → x ∈ a → x ∈ b → False.
Proof.
  intros Hnd Ha Hb Hij Hxa Hxb.
  revert i j Ha Hb Hij. induction ls as [|l ls IH]; intros i j Ha Hb Hij; [done|].
  simpl in Hnd. apply NoDup_app in Hnd as (_ & Hdis & Hnd).
  assert (Hin : ∀ k c, ls !! k = Some c → x ∈ c → x ∈ concat ls).
  { intros k c Hk Hx. apply list_elem_of_In, in_concat. exists c. rewrite <-!list_elem_of_In.
    split; [by eapply list_elem_of_lookup_2|done]. }
  destruct i as [|i], j as [|j]; simpl in *; try done.
  - injection Ha as <-. by eapply (Hdis x), Hin.
  - injection Hb as <-. by eapply (Hdis x), Hin.
  - eapply IH; [done..|congruence].
Qed.

Lemma inv_disjoint first n s t u bt bu x :
  inv first n s → (t, bt) ∈ issued s → (u, bu) ∈ issued s → t ≠ u → x ∈ bt → x ∈ bu → False.
Proof.
  intros Hinv Ht Hu Hne.
  assert (Hlook : ∀ v b, (v, b) ∈ issued s → ∃ i, reverse (snd <$> issued s) !! i = Some b ∧
    reverse (fst <$> issued s) !! i = Some v).
  { intros v b Hv. rewrite <-!fmap_reverse. apply elem_of_reverse, list_elem_of_lookup in Hv as (i & Hi).
    exists i. by rewrite !list_lookup_fmap, Hi. }
  destruct (Hlook _ _ Ht) as (i & Hi & Hit), (Hlook _ _ Hu) as (j & Hj & Hju).
  eapply NoDup_concat_disjoint; [|exact Hi|exact Hj|by intros ->; congruence].
  rewrite (inv_issued _ _ _ Hinv). apply NoDup_seqZ.
Qed.

Lemma inv_batch_in first n s t b x : inv first n s → (t, b) ∈ issued s → x ∈ b → first ≤ x < first + n.
Proof.
  intros Hinv Ht Hx. apply elem_of_seqZ. rewrite <-(inv_issued _ _ _ Hinv). apply list_elem_of_In, in_concat.
  exists b. rewrite <-!list_elem_of_In. split; [|done]. apply elem_of_reverse, list_elem_of_fmap. by exists (t, b).
Qed.

(** ** Properties *)

(** C33: However concurrent calls interleave, and whatever stale values their relaxed loads observe, the
    identities handed out are non-zero 64-bit values from the counter's start on, a batch has the
    length that was asked for, and no identity is ever handed out twice, to one call or to two. *)
Theorem revisions_unique first s s' t count batch :
  1 ≤ first < 2 ^ 64 → starts first s → rtc step s s' → threads s' !! t = Some (Returned count (Ok batch)) →
  Z.of_nat (length batch) = count ∧ NoDup batch ∧ Forall (λ r, first ≤ r ≤ U64_MAX) batch ∧
  ∀ u count' batch', threads s' !! u = Some (Returned count' (Ok batch')) → u ≠ t → ∀ r, r ∈ batch → r ∉ batch'.
Proof.
  intros Hf Hs Hsteps Ht. destruct (reachable_inv first s s' Hf Hs Hsteps) as [n Hinv].
  destruct (inv_ok _ _ _ Hinv _ _ _ Ht) as [Hlen Hbatch]. split; [done|].
  destruct Hbatch as [->|Hbatch].
  { destruct batch; [|simpl in Hlen; lia]. split_and!; [constructor|constructor|]. intros ????? r []%not_elem_of_nil. }
  split_and!.
  - assert (Hin : batch ∈ reverse (snd <$> issued s')) by (apply elem_of_reverse, list_elem_of_fmap; by exists (t, batch)).
    apply list_elem_of_split in Hin as (l1 & l2 & Hl). pose proof (NoDup_seqZ first n) as Hnd.
    rewrite <-(inv_issued _ _ _ Hinv), Hl, concat_app in Hnd. simpl in Hnd.
    by apply NoDup_app in Hnd as (_ & _ & (Hnd & _)%NoDup_app).
  - apply Forall_forall. intros r Hr. pose proof (inv_batch_in _ _ _ _ _ _ Hinv Hbatch Hr).
    destruct (inv_n _ _ _ Hinv). unfold U64_MAX. lia.
  - intros u count' batch' Hu Hne r Hr Hr'. destruct (inv_ok _ _ _ Hinv _ _ _ Hu) as [Hlen' [->|Hbatch']].
    + destruct batch'; [by apply not_elem_of_nil in Hr'|simpl in Hlen'; lia].
    + by eapply (inv_disjoint _ _ _ t u).
Qed.

(** A call reports exhaustion only when the counter really has fewer identities left than it asks
    for, although it may have decided on a stale value; the space then stays too small for it. *)
Theorem exhaustion_is_real first s s' s'' t count e :
  1 ≤ first < 2 ^ 64 → starts first s → rtc step s s' → threads s' !! t = Some (Returned count (Err e)) →
  rtc step s' s'' → current s'' = 0 ∨ 2 ^ 64 < current s'' + count.
Proof.
  intros Hf Hs H1 Ht H2.
  assert (∃ n, inv first n s'' ∧ 2 ^ 64 < first + n + count) as (n & Hinv & Hfull).
  { destruct (reachable_inv first s s' Hf Hs H1) as [n Hinv]. pose proof (inv_err _ _ _ Hinv _ _ _ Ht) as Hlt.
    assert (∃ n, inv first n s' ∧ 2 ^ 64 < first + n + count) as Hn by eauto. clear - H2 Hn Hf.
    induction H2 as [|s1 s2 s3 Hstep _ IH]; [done|]. apply IH. destruct Hn as (n & Hn & Hlt).
    destruct (step_inv first n s1 s2) as (n' & ? & ?); [lia|done..|]. exists n'. split; [done|lia]. }
  rewrite (inv_current _ _ _ Hinv). destruct (Z.eqb_spec (first + n) (2 ^ 64)); [by left|right; lia].
Qed.

(** A call that the others leave alone returns in two or three steps, with the result and the
    counter that [allocate_batch] computes from the value of the counter at its load. *)
Theorem undisturbed_call_returns s t count :
  threads s !! t = Some (Ready count) →
  ∃ s', rtc step s s' ∧ threads s' !! t = Some (Returned count (fst (allocate_batch (current s) count))) ∧
    current s' = snd (allocate_batch (current s) count) ∧ ∀ u, u ≠ t → threads s' !! u = threads s !! u.
Proof.
  intros Ht. unfold allocate_batch. destruct (Z.eqb_spec count 0) as [->|Hc].
  { eexists. split; [by eapply rtc_once, step_empty|]. simpl. rewrite lookup_insert_eq.
    split_and!; [done..|]. intros u Hu. by rewrite lookup_insert_ne. }
  assert (Hload : step s (set_thread s t (Trying count (current s)))) by (by apply step_load; [..|left]).
  destruct (try_batch (current s) count) as [[last repl]|e] eqn:Hb.
  - eexists. split.
    { eapply rtc_l; [exact Hload|]. eapply rtc_once. eapply (step_exchange _ t); [|exact Hb]. apply lookup_insert_eq. }
    simpl. rewrite lookup_insert_eq. split_and!; [done..|]. intros u Hu. by rewrite !lookup_insert_ne.
  - eexists. split.
    { eapply rtc_l; [exact Hload|]. eapply rtc_once. eapply (step_refuse _ t); [|exact Hb]. apply lookup_insert_eq. }
    simpl. rewrite lookup_insert_eq. split_and!; [done..|]. intros u Hu. by rewrite !lookup_insert_ne.
Qed.

(** ** Witnesses *)

(** Two calls for two identities each, one that exchanges first and one that retries. *)
Definition two_calls : Shared := mk_shared 1 [] {[0%nat := Ready 2; 1%nat := Ready 2]} [].

Lemma two_calls_start : starts 1 two_calls.
Proof.
  split_and!; try done. cbn [threads two_calls].
  intros t th [[<- <-]|[_ [<- <-]%lookup_singleton_Some]]%lookup_insert_Some; by exists 2.
Qed.

Lemma revisions_unique_witness :
  ∃ s', rtc step two_calls s' ∧ threads s' !! 0%nat = Some (Returned 2 (Ok [1; 2])) ∧
    Z.of_nat (length [1; 2]) = 2 ∧ NoDup [1; 2] ∧ Forall (λ r, 1 ≤ r ≤ U64_MAX) [1; 2] ∧
    ∀ u count' batch', threads s' !! u = Some (Returned count' (Ok batch')) → u ≠ 0%nat → ∀ r, r ∈ [1; 2] → r ∉ batch'.
Proof.
  set (s1 := set_thread two_calls 0 (Trying 2 1)). set (s2 := set_thread s1 1 (Trying 2 1)).
  set (s3 := mk_shared 3 [1] (<[0%nat := Returned 2 (Ok [1; 2])]> (threads s2)) [(0%nat, [1; 2])]).
  assert (Hsteps : rtc step two_calls s3).
  { eapply rtc_l; [apply (step_load _ 0 2 1); [reflexivity|done|by left]|].
    eapply rtc_l; [apply (step_load _ 1 2 1); [reflexivity|done|by left]|].
    apply rtc_once, (step_exchange s2 0 2 2 3); reflexivity. }
  exists s3. split; [exact Hsteps|]. split; [reflexivity|].
  apply (revisions_unique 1 two_calls s3 0 2 [1; 2]); [lia|exact two_calls_start|exact Hsteps|reflexivity].
Defined.

Definition last_identity : Shared := mk_shared U64_MAX [] {[0%nat := Ready 2]} [].

Lemma exhaustion_is_real_witness :
  ∃ s', rtc step last_identity s' ∧ threads s' !! 0%nat = Some (Returned 2 (Err Exhausted)) ∧
    (current s' = 0 ∨ 2 ^ 64 < current s' + 2).
Proof.
  set (s' := set_thread (set_thread last_identity 0 (Trying 2 U64_MAX)) 0 (Returned 2 (Err Exhausted))).
  assert (Hsteps : rtc step last_identity s').
  { eapply rtc_l; [apply (step_load _ 0 2 U64_MAX); [reflexivity|done|by left]|].
    apply rtc_once, (step_refuse _ 0 2 U64_MAX); reflexivity. }
  exists s'. split; [exact Hsteps|]. split; [reflexivity|].
  apply (exhaustion_is_real U64_MAX last_identity s' s' 0 2 Exhausted).
  - unfold U64_MAX. lia.
  - split_and!; try done. cbn [threads last_identity]. intros t th [<- <-]%lookup_singleton_Some. by exists 2.
  - exact Hsteps.
  - reflexivity.
  - apply rtc_refl.
Defined.

Lemma undisturbed_call_returns_witness :
  threads two_calls !! 0%nat = Some (Ready 2) ∧
  ∃ s', rtc step two_calls s' ∧ threads s' !! 0%nat = Some (Returned 2 (fst (allocate_batch 1 2))) ∧
    current s' = snd (allocate_batch 1 2) ∧ ∀ u, u ≠ 0%nat → threads s' !! u = threads two_calls !! u.
Proof. split; [reflexivity|]. apply (undisturbed_call_returns two_calls 0 2). reflexivity. Defined.
