(* ===== verification/Entities.v ===== *)
(** * Block-entity tails and live updates

    The rest of [block_entity.rs]: [decode_live] for one packet, and the loop that reads every root
    after a chunk or sub-chunk payload and keeps the entities the scope accepts. *)
From stdpp Require Import base numbers list gmap.
From S2P Require Import Prelude Packed Bytes NbtTree NbtScan Keys Revisions Wire SubChunk.
#[local] Open Scope Z_scope.

Inductive BlockEntityError :=
  | CollisionRevision (e : CollisionRevisionError)
  | Nbt (e : BlockEntityNbtError)
  | TooManyEntities (max : Z)
  | ChunkEntityBytesTooLarge (len max : Z)
  | PositionMismatch (expected actual : Z * Z * Z)
  | TrailingBytes (remaining : Z).

Record DecodedBlockEntities := mk_decoded_entities {
  entities : gmap BlockEntityKey BlockEntityNbt;
  bytes_consumed : Z;
}.

Inductive BlockEntityScope :=
  | ScopeChunk (chunk : ChunkKey) (y_start y_end : Z)
  | ScopeSubChunk (key : SubChunkKey).

(** The [(dimension, in_scope)] of the loop, the dimension kept in the key. *)
Definition scoped_key (scope : BlockEntityScope) (p : Z * Z * Z) : BlockEntityKey * bool :=
  let '(x, y, z) := p in
  match scope with
  | ScopeChunk chunk y_start y_end =>
      (mk_entity_key (ck_dimension chunk) x y z,
       bool_decide (mk_chunk_key (ck_dimension chunk) (Z.shiftr x 4) (Z.shiftr z 4) = chunk)
       && ((y_start <=? y) && (y <? y_end)))
  | ScopeSubChunk key =>
      (mk_entity_key (sk_dimension key) x y z,
       bool_decide (bk_sub_chunk (mk_entity_key (sk_dimension key) x y z) = key))
  end.

Definition nbt_len (nbt : BlockEntityNbt) : Z := Z.of_nat (length (nbt_bytes nbt)).

(** The loop's state: [&payload[consumed..]], the entities so far and [retained_bytes]. *)
Record scoped_state := mk_scoped {
  s_input : bytes;
  s_entities : gmap BlockEntityKey BlockEntityNbt;
  s_retained : Z;
}.

(** The tail of one turn, for a root without a semantic error. *)
Definition keep_entity (scope : BlockEntityScope) (nbt : BlockEntityNbt) (s : scoped_state) : scoped_state :=
  match embedded_position nbt with
  | None => s
  | Some p =>
      let '(key, in_scope) := scoped_key scope p in
      if in_scope && bool_decide (s_entities s !! key = None) then
        let total := s_retained s + nbt_len nbt in
        if total <=? MAX_BLOCK_ENTITY_BYTES_PER_CHUNK
        then mk_scoped (s_input s) (<[key := nbt]> (s_entities s)) total
        else s
      else s
  end.

Section decode.
Context (sha256 : bytes → bytes).

Definition decode_live (key : BlockEntityKey) (payload : bytes) : result BlockEntityError BlockEntityNbt :=
  match scan_prefix sha256 payload with
  | Err e => Err (Nbt e)
  | Ok (nbt, consumed, semantic) =>
      if negb (consumed =? Z.of_nat (length payload)) then Err (TrailingBytes (Z.of_nat (length payload) - consumed))
      else match semantic with
           | Some e => Err (Nbt e)
           | None =>
               match embedded_position nbt with
               | Some actual =>
                   if bool_decide (actual = bk_position key) then Ok nbt
                   else Err (PositionMismatch (bk_position key) actual)
               | None => Ok nbt
               end
           end
  end.

Definition scoped_step (scope : BlockEntityScope) (max_entities : Z) (s : scoped_state)
    : scoped_state + gmap BlockEntityKey BlockEntityNbt :=
  match s_input s with
  | [] => inr (s_entities s)
  | tag :: tail =>
      if negb (Z.of_nat (size (s_entities s)) <? max_entities) then inr (s_entities s)
      else if negb (tag =? COMPOUND_TAG) then inl (mk_scoped tail (s_entities s) (s_retained s))
      else match scan_prefix sha256 (s_input s) with
           | Err _ => inr (s_entities s)
           | Ok (nbt, used, semantic) =>
               let s := mk_scoped (drop (Z.to_nat used) (s_input s)) (s_entities s) (s_retained s) in
               inl (match semantic with Some _ => s | None => keep_entity scope nbt s end)
           end
  end.

Definition decode_scoped_entities (scope : BlockEntityScope) (payload : bytes) (max_entities : Z)
    : DecodedBlockEntities :=
  mk_decoded_entities
    (run ∅ (scoped_step scope max_entities) (S (length payload)) (mk_scoped payload ∅ 0))
    (Z.of_nat (length payload)).

Definition decode_level_chunk_tail (chunk : ChunkKey) (y_start y_end : Z) (payload : bytes) : DecodedBlockEntities :=
  let r := reader_new payload in
  let '(border_blocks, r) := Wire.read_u8 r in
  let '(_, r) := Wire.read_exact border_blocks r in
  let decoded := decode_scoped_entities (ScopeChunk chunk y_start y_end) (Wire.remaining r)
                   MAX_BLOCK_ENTITIES_PER_CHUNK in
  mk_decoded_entities (entities decoded) (Z.of_nat (length payload)).

Definition decode_sub_chunk_tail (key : SubChunkKey) (payload : bytes) : DecodedBlockEntities :=
  decode_scoped_entities (ScopeSubChunk key) payload MAX_BLOCK_ENTITIES_PER_SUB_CHUNK.

(** ** One SubChunk packet entry *)

Record DecodedSubChunk (Context : Type) := mk_decoded_sub_chunk {
  d_sub_chunk : SubChunk Context;
  d_block_entities : DecodedBlockEntities;
}.
#[global] Arguments mk_decoded_sub_chunk {_}.
#[global] Arguments d_sub_chunk {_}.
#[global] Arguments d_block_entities {_}.

Definition decode_entry {Context} (key : SubChunkKey) (payload : bytes) (ids : BlockIds Context)
    : option (DecodedSubChunk Context) :=
  '(section, consumed) ← sub_chunk_decode_prefix sha256 ids payload;
  Some (mk_decoded_sub_chunk section (decode_sub_chunk_tail key (drop (Z.to_nat consumed) payload))).
End decode.
