(* ===== verification/EntityTheorems.v ===== *)
(** * What the block-entity readers guarantee

    A scanned root is a prefix of at most a mebibyte, scanned alike whatever follows it, and its cached
    metadata is what its parsed tree says. The tail loop keeps the first root at each position that
    the scope accepts, within its record and byte budgets. *)
From stdpp Require Import base numbers list gmap fin_maps.
From S2P Require Import Prelude Packed PaletteSpec Bytes NbtTree NbtScan NbtRoot Keys Wire SubChunk SubChunkSpec Revisions Entities.
#[local] Open Scope Z_scope.
#[local] Opaque MAX_BLOCK_ENTITY_NBT_BYTES MAX_BLOCK_ENTITY_BYTES_PER_CHUNK.

(** ** Budgets of a map of entities *)

Definition total_bytes (m : gmap BlockEntityKey BlockEntityNbt) : Z := map_fold (λ _ nbt acc, nbt_len nbt + acc) 0 m.

Lemma total_bytes_empty : total_bytes ∅ = 0.
Proof. apply map_fold_empty. Qed.

Lemma total_bytes_insert m k nbt : m !! k = None → total_bytes (<[k := nbt]> m) = nbt_len nbt + total_bytes m.
Proof.
  intros Hk. unfold total_bytes. rewrite (map_fold_insert_L _ _ k nbt m); [done|intros; lia|done].
Qed.

Lemma total_bytes_delete m k nbt : m !! k = Some nbt → total_bytes m = nbt_len nbt + total_bytes (delete k m).
Proof.
  intros Hk. rewrite <-(total_bytes_insert (delete k m) k nbt) by apply lookup_delete_eq.
  by rewrite insert_delete_id.
Qed.

Lemma nbt_len_nonneg nbt : 0 ≤ nbt_len nbt.
Proof. unfold nbt_len. lia. Qed.

Lemma total_bytes_nonneg m : 0 ≤ total_bytes m.
Proof.
  induction m as [|k nbt m Hk IH] using map_ind; [by rewrite total_bytes_empty|].
  rewrite total_bytes_insert by done. pose proof (nbt_len_nonneg nbt). lia.
Qed.

(** ** The loop is a fold over the roots *)

Section roots.
Context (sha256 : bytes → bytes).

(** The roots a payload holds, each with the suffix it was scanned from: a byte that opens no
    compound is skipped, a malformed compound ends the payload, and roots with a semantic error
    are dropped. *)
Fixpoint roots (fuel : nat) (input : bytes) : list (BlockEntityNbt * bytes) :=
  match fuel, input with
  | S fuel, tag :: tail =>
      if negb (tag =? COMPOUND_TAG) then roots fuel tail
      else match scan_prefix sha256 input with
           | Err _ => []
           | Ok (nbt, used, semantic) =>
               match semantic with None => [(nbt, input)] | Some _ => [] end
               ++ roots fuel (drop (Z.to_nat used) input)
           end
  | _, _ => []
  end.
Definition payload_roots (payload : bytes) := roots (length payload) payload.

(** What the scope does with one root. *)
Definition admit_root (scope : BlockEntityScope) (max_entities : Z)
    (m : gmap BlockEntityKey BlockEntityNbt) (nbt : BlockEntityNbt) : gmap BlockEntityKey BlockEntityNbt :=
  match embedded_position nbt with
  | None => m
  | Some p =>
      let '(key, in_scope) := scoped_key scope p in
      if decide (in_scope = true ∧ m !! key = None ∧ Z.of_nat (size m) < max_entities ∧
                 total_bytes m + nbt_len nbt ≤ MAX_BLOCK_ENTITY_BYTES_PER_CHUNK)
      then <[key := nbt]> m else m
  end.
Definition admitted (scope : BlockEntityScope) (max_entities : Z) (m : gmap BlockEntityKey BlockEntityNbt)
    (nbts : list BlockEntityNbt) := foldl (admit_root scope max_entities) m nbts.

Lemma admit_full scope max m nbt : max ≤ Z.of_nat (size m) → admit_root scope max m nbt = m.
Proof using Type.
  intros Hm. unfold admit_root. destruct (embedded_position nbt) as [p|]; [|done].
  destruct (scoped_key scope p) as [key b]. by rewrite decide_False by lia.
Qed.

Lemma admitted_full scope max m nbts : max ≤ Z.of_nat (size m) → admitted scope max m nbts = m.
Proof using Type.
  intros Hm. induction nbts as [|nbt nbts IH]; [done|]. unfold admitted in *. simpl. by rewrite admit_full.
Qed.

Lemma keep_entity_admit scope max nbt s :
  s_retained s = total_bytes (s_entities s) → Z.of_nat (size (s_entities s)) < max →
  s_entities (keep_entity scope nbt s) = admit_root scope max (s_entities s) nbt ∧
  s_retained (keep_entity scope nbt s) = total_bytes (s_entities (keep_entity scope nbt s)) ∧
  s_input (keep_entity scope nbt s) = s_input s.
Proof using Type.
  intros Hr Hm. unfold keep_entity, admit_root. destruct (embedded_position nbt) as [p|]; [|done].
  destruct (scoped_key scope p) as [key b]. destruct b; cbn [andb]; [|by rewrite decide_False by (intros (? & ? & _); congruence)].
  destruct (s_entities s !! key) eqn:Hk.
  { rewrite bool_decide_eq_false_2 by done. by rewrite decide_False by (intros (? & ? & _); congruence). }
  rewrite bool_decide_eq_true_2 by done.
  rewrite Hr. destruct (Z.leb_spec (total_bytes (s_entities s) + nbt_len nbt) MAX_BLOCK_ENTITY_BYTES_PER_CHUNK);
    cbn [s_entities s_retained s_input].
  - rewrite decide_True by done. split_and!; [done| |done]. rewrite total_bytes_insert by done. lia.
  - rewrite decide_False by lia. done.
Qed.

(** Every turn reads at least a byte. *)
Lemma scoped_step_measure scope max s s' :
  scoped_step sha256 scope max s = inl s' → (length (s_input s') < length (s_input s))%nat.
Proof using Type.
  unfold scoped_step. destruct (s_input s) as [|tag tail] eqn:Hi; [done|].
  destruct (negb _); [done|]. destruct (negb _); [by intros [= <-]; simpl; lia|].
  destruct (scan_prefix sha256 (tag :: tail)) as [[[nbt used] sem]|] eqn:Hs; [|done]. intros [= <-].
  apply scan_prefix_positive in Hs. destruct sem.
  - simpl. rewrite length_drop. simpl. lia.
  - assert (∀ s0, s_input (keep_entity scope nbt s0) = s_input s0) as ->.
    { intros s0. unfold keep_entity. destruct (embedded_position nbt); [|done]. destruct (scoped_key _ _).
      destruct (_ && _); [|done]. by destruct (_ <=? _). }
    simpl. rewrite length_drop. simpl. lia.
Qed.

Lemma roots_irrelevant fuel fuel' input :
  (length input ≤ fuel)%nat → (length input ≤ fuel')%nat → roots fuel input = roots fuel' input.
Proof using Type.
  revert fuel' input. induction fuel as [|fuel IH]; intros [|fuel'] [|tag tail] H H'; simpl in *; try done; try lia.
  destruct (negb _); [apply IH; lia|].
  destruct (scan_prefix sha256 (tag :: tail)) as [[[nbt used] sem]|] eqn:Hs; [|done]. f_equal.
  apply scan_prefix_positive in Hs. apply IH; rewrite length_drop; simpl; lia.
Qed.

Lemma scoped_loop scope max fuel s :
  (length (s_input s) < fuel)%nat → s_retained s = total_bytes (s_entities s) →
  run ∅ (scoped_step sha256 scope max) fuel s
  = admitted scope max (s_entities s) (fst <$> payload_roots (s_input s)).
Proof using Type.
  revert s. induction fuel as [|fuel IH]; intros [input m retained] Hf Hr; [lia|]. cbn [s_input s_entities s_retained run] in *.
  unfold scoped_step at 1. cbn [s_input s_entities s_retained]. destruct input as [|tag tail]; [done|].
  destruct (Z.ltb_spec (Z.of_nat (size m)) max) as [Hm|Hm]; cbn [negb]; [|by rewrite admitted_full].
  cbn [length] in Hf. unfold payload_roots. cbn [roots length].
  destruct (tag =? COMPOUND_TAG); cbn [negb].
  2:{ rewrite IH by (simpl; try done; lia). done. }
  destruct (scan_prefix sha256 (tag :: tail)) as [[[nbt used] sem]|] eqn:Hs; [|done].
  apply scan_prefix_positive in Hs. set (rest := drop (Z.to_nat used) (tag :: tail)).
  assert (Hrest : (length rest ≤ length tail)%nat) by (unfold rest; rewrite length_drop; simpl; lia).
  rewrite (roots_irrelevant (length tail) (length rest)) by lia. rewrite fmap_app.
  destruct sem as [e|]; cbn [fmap list_fmap app fst].
  - rewrite IH by (simpl; try done; lia). done.
  - destruct (keep_entity_admit scope max nbt (mk_scoped rest m retained) Hr Hm) as (He & Ht & Hi).
    cbn [s_input s_entities] in *. rewrite IH; [|rewrite Hi; simpl; lia|done]. by rewrite He, Hi.
Qed.
End roots.

(** ** Where the roots come from *)

Section sound.
Context (sha256 : bytes → bytes).

Lemma roots_sound fuel input nbt suffix :
  (nbt, suffix) ∈ roots sha256 fuel input →
  (∃ pre, input = pre ++ suffix) ∧ ∃ used, scan_prefix sha256 suffix = Ok (nbt, used, None).
Proof using Type.
  revert input. induction fuel as [|fuel IH]; intros [|tag tail] H; simpl in H; try by apply not_elem_of_nil in H.
  destruct (negb _).
  { destruct (IH _ H) as [(pre & ->) ?]. split; [by exists (tag :: pre)|done]. }
  destruct (scan_prefix sha256 (tag :: tail)) as [[[n used] sem]|] eqn:Hs; [|by apply not_elem_of_nil in H].
  apply elem_of_app in H as [H|H].
  - destruct sem as [e|]; [by apply not_elem_of_nil in H|]. apply list_elem_of_singleton in H as [= -> ->].
    split; [by exists []|]. by exists used.
  - destruct (IH _ H) as [(pre & Hpre) ?]. split; [|done]. exists (take (Z.to_nat used) (tag :: tail) ++ pre).
    by rewrite <-app_assoc, <-Hpre, take_drop.
Qed.

(** The roots do not overlap. *)
Lemma roots_disjoint fuel input : (sum_list_with (λ p, length (nbt_bytes (fst p))) (roots sha256 fuel input) ≤ length input)%nat.
Proof using Type.
  revert input. induction fuel as [|fuel IH]; intros [|tag tail]; simpl; try lia.
  destruct (negb _); [specialize (IH tail); lia|].
  destruct (scan_prefix sha256 (tag :: tail)) as [[[n used] sem]|] eqn:Hs; simpl; [|lia].
  pose proof (scan_prefix_frame _ _ _ _ _ Hs) as (Hn & _ & Hb & _). specialize (IH (drop (Z.to_nat used) (tag :: tail))).
  rewrite length_drop in IH. rewrite sum_list_with_app. cbn [length] in *.
  set (f := λ p : BlockEntityNbt * bytes, length (nbt_bytes (fst p))) in *.
  assert (Hlen : (length (nbt_bytes n) ≤ Z.to_nat used)%nat) by (rewrite Hb, length_take; lia).
  destruct sem; cbn [sum_list_with foldr]; [lia|]. change (f (n, tag :: tail)) with (length (nbt_bytes n)). lia.
Qed.

(** The keys a scope lets in. *)
Definition scope_accepts (scope : BlockEntityScope) (key : BlockEntityKey) : Prop :=
  match scope with
  | ScopeChunk chunk y_start y_end => bk_chunk key = chunk ∧ y_start ≤ bk_y key < y_end
  | ScopeSubChunk k => bk_sub_chunk key = k
  end.

Lemma scoped_key_accepts scope p key :
  scoped_key scope p = (key, true) → bk_position key = p ∧ scope_accepts scope key.
Proof using Type.
  destruct p as [[x y] z], scope as [chunk lo hi|k]; simpl.
  - intros [= <- [Hc%bool_decide_eq_true_1 Hy]%andb_prop]. split; [done|]. unfold bk_chunk. simpl.
    rewrite !Z.shiftr_div_pow2 in Hc by lia. change (2 ^ 4) with 16 in Hc. rewrite Hc. split; [done|lia].
  - intros [= <- Hk%bool_decide_eq_true_1]. done.
Qed.

Record kept_ok (scope : BlockEntityScope) (max : Z) (nbts : list BlockEntityNbt)
    (m : gmap BlockEntityKey BlockEntityNbt) : Prop := {
  kept_each key nbt : m !! key = Some nbt →
    scope_accepts scope key ∧ embedded_position nbt = Some (bk_position key) ∧ nbt ∈ nbts;
  kept_count : Z.of_nat (size m) ≤ max;
  kept_budget : total_bytes m ≤ MAX_BLOCK_ENTITY_BYTES_PER_CHUNK;
  kept_within : total_bytes m ≤ Z.of_nat (sum_list_with (λ nbt, length (nbt_bytes nbt)) nbts);
}.

Lemma admitted_kept_ok scope max nbts : 0 ≤ max → kept_ok scope max nbts (admitted scope max ∅ nbts).
Proof using Type.
  intros Hmax. induction nbts as [|nbt nbts IH] using rev_ind.
  { split; simpl; rewrite ?total_bytes_empty; [by intros ??[]%lookup_empty_Some|by rewrite map_size_empty|done|done]. }
  unfold admitted in *. rewrite foldl_snoc. set (m := foldl _ ∅ nbts) in *. destruct IH as [He Hc Hb Hw].
  assert (kept_ok scope max (nbts ++ [nbt]) m) as Hm.
  { split; [|done|done|rewrite sum_list_with_app; lia]. intros key n (? & ? & ?)%He. split_and!; [done..|].
    apply elem_of_app. by left. }
  unfold admit_root. destruct (embedded_position nbt) as [p|] eqn:Hp; [|done].
  destruct (scoped_key scope p) as [key b] eqn:Hk. case_decide as Hin; [|done]. destruct Hin as (-> & Hn & Hs & Ht).
  apply scoped_key_accepts in Hk as [Hpos Hacc]. destruct Hm as [He' _ _ _]. split.
  - intros key' n [[<- <-]|[_ ?]]%lookup_insert_Some; [|by apply He']. split_and!; [done|by rewrite Hpos|].
    apply elem_of_app. right. by left.
  - rewrite map_size_insert_None by done. lia.
  - rewrite total_bytes_insert by done. lia.
  - rewrite total_bytes_insert, sum_list_with_app by done. simpl. unfold nbt_len. lia.
Qed.

Lemma decoded_kept_ok scope max payload :
  0 ≤ max → kept_ok scope max (fst <$> payload_roots sha256 payload) (entities (decode_scoped_entities sha256 scope payload max)).
Proof using Type.
  intros Hmax. unfold decode_scoped_entities. cbn [entities]. rewrite scoped_loop; [|simpl; lia|cbn [s_retained s_entities]; by rewrite total_bytes_empty].
  by apply admitted_kept_ok.
Qed.

Lemma sum_list_with_fmap {A B} (f : B → nat) (g : A → B) l : sum_list_with f (g <$> l) = sum_list_with (λ a, f (g a)) l.
Proof using Type. induction l as [|a l IH]; simpl; [done|]. by rewrite <-IH. Qed.
End sound.

(** ** What the block-entity readers guarantee: the theorems *)

Section properties.
Context (sha256 : bytes → bytes).

(** A scanned root is exactly a non-empty prefix of the input, at most a mebibyte long, and the
    scan, its metadata and its verdict do not depend on what follows that prefix. *)
Theorem scan_reads_a_prefix input nbt n semantic :
  scan_prefix sha256 input = Ok (nbt, n, semantic) →
  1 ≤ n ≤ Z.of_nat (length input) ∧ n ≤ 1024 * 1024 ∧ nbt_bytes nbt = take (Z.to_nat n) input ∧
  ∀ ext, scan_prefix sha256 (nbt_bytes nbt ++ ext) = Ok (nbt, n, semantic).
Proof using Type.
  intros H. destruct (scan_prefix_frame _ _ _ _ _ H) as (Hn & Hmax & Hb & Hf). pose proof (scan_prefix_positive _ _ _ _ _ H).
  rewrite Hb. split_and!; [lia|lia|exact Hmax|done|exact Hf].
Qed.

(** C31: A root that the strict scan accepts always parses to a tree, although the two readers are
    written separately, and the metadata the scan cached is what the tree says: the id, the
    position (all three coordinates or none), and the note and powered bytes when unambiguous. *)
Theorem accepted_root_parses input nbt n :
  decode_prefix sha256 input = Ok (nbt, n) →
  ∃ tree, parse (nbt_bytes nbt) = Some tree ∧ Compound.string tree ID = nbt_id nbt ∧
    match embedded_position nbt with
    | Some (x, y, z) => Compound.get tree X = Some (NInt x) ∧ Compound.get tree Y = Some (NInt y) ∧
                        Compound.get tree Z_ = Some (NInt z)
    | None => Compound.get tree X = None ∧ Compound.get tree Y = None ∧ Compound.get tree Z_ = None
    end ∧
    (∀ b, note_candidate nbt = Value b → Compound.get tree NOTE = Some (NByte (to_signed 8 b))) ∧
    (note_candidate nbt = Absent → Compound.get tree NOTE = None) ∧
    (∀ b, powered_candidate nbt = Value b → Compound.get tree POWERED = Some (NByte (to_signed 8 b))) ∧
    (powered_candidate nbt = Absent → Compound.get tree POWERED = None).
Proof using Type.
  unfold decode_prefix. destruct (scan_prefix sha256 input) as [[[nbt' n'] sem]|] eqn:H; [|done].
  destruct sem; [done|]. intros [= -> ->].
  destruct (scan_prefix_tree _ _ _ _ _ H eq_refl) as (tree & Hp & Hid & Hpos & Hn & Hw). exists tree.
  split; [done|]. split; [unfold Compound.string; rewrite Hid; by destruct (nbt_id nbt)|]. split; [done|].
  unfold candidate_agrees in *. split_and!.
  - intros b Hb. by rewrite Hb in Hn.
  - intros Hb. by rewrite Hb in Hn.
  - intros b Hb. by rewrite Hb in Hw.
  - intros Hb. by rewrite Hb in Hw.
Qed.

(** A live update is accepted only when the whole packet is one root of at most a mebibyte whose
    tree carries either the packet's own coordinates or none. *)
Theorem decode_live_sound key payload nbt :
  decode_live sha256 key payload = Ok nbt →
  nbt_bytes nbt = payload ∧ Z.of_nat (length payload) ≤ 1024 * 1024 ∧
  ∃ tree, parse payload = Some tree ∧
    ((Compound.get tree X = Some (NInt (bk_x key)) ∧ Compound.get tree Y = Some (NInt (bk_y key)) ∧
      Compound.get tree Z_ = Some (NInt (bk_z key))) ∨
     (Compound.get tree X = None ∧ Compound.get tree Y = None ∧ Compound.get tree Z_ = None)).
Proof using Type.
  unfold decode_live. destruct (scan_prefix sha256 payload) as [[[nbt' n] sem]|] eqn:H; [|done].
  destruct (Z.eqb_spec n (Z.of_nat (length payload))) as [->|]; [|done]. cbn [negb]. destruct sem as [e|]; [done|].
  destruct (scan_prefix_frame _ _ _ _ _ H) as (_ & Hmax & Hb & _). rewrite Nat2Z.id, take_ge in Hb by lia.
  destruct (scan_prefix_tree _ _ _ _ _ H eq_refl) as (tree & Hp & _ & Hpos & _). rewrite Hb in Hp.
  intros Hok. assert (nbt = nbt') as ->
    by (destruct (embedded_position nbt'); [case_bool_decide; congruence|congruence]).
  split; [done|]. split; [exact Hmax|]. exists tree. split; [done|].
  destruct (embedded_position nbt') as [[[x y] z]|]; [left|by right].
  case_bool_decide as Heq; [|done]. by injection Heq as -> -> ->.
Qed.

(** The tail loop terminates and is the fold it stands for: the roots of the payload in order, each
    kept when the scope accepts its position, the position is still free and both budgets allow it. *)
Theorem scoped_entities_are_first_roots scope payload max_entities :
  entities (decode_scoped_entities sha256 scope payload max_entities)
  = admitted scope max_entities ∅ (fst <$> payload_roots sha256 payload).
Proof using Type.
  unfold decode_scoped_entities. cbn [entities].
  rewrite scoped_loop; [done|simpl; lia|cbn [s_retained s_entities]; by rewrite total_bytes_empty].
Qed.

(** After a chunk, the border-block list is skipped and every entity kept lies in the chunk's
    column and Y range, under the position its own bytes carry; its bytes stand in the payload;
    at most 16384 entities and 8 MiB are kept, and never more bytes than the payload has. *)
Theorem level_chunk_tail_sound chunk y_start y_end payload :
  Forall is_byte payload →
  let decoded := decode_level_chunk_tail sha256 chunk y_start y_end payload in
  let tail := drop (S (Z.to_nat (default 0 (head payload)))) payload in
  bytes_consumed decoded = Z.of_nat (length payload) ∧
  Z.of_nat (size (entities decoded)) ≤ 16384 ∧
  total_bytes (entities decoded) ≤ Z.min (8 * 1024 * 1024) (Z.of_nat (length tail)) ∧
  ∀ key nbt, entities decoded !! key = Some nbt →
    bk_chunk key = chunk ∧ y_start ≤ bk_y key < y_end ∧ embedded_position nbt = Some (bk_position key) ∧
    ∃ before after, tail = before ++ nbt_bytes nbt ++ after ∧
      decode_prefix sha256 (nbt_bytes nbt ++ after) = Ok (nbt, nbt_len nbt).
Proof using Type.
  intros Hbytes decoded tail. subst decoded. unfold decode_level_chunk_tail.
  destruct (Wire.read_u8 (reader_new payload)) as [border r] eqn:E1.
  destruct (Wire.read_exact border r) as [o r'] eqn:E2.
  assert (Wire.remaining r' = tail) as ->.
  { unfold Wire.read_u8, reader_new in E1. cbn [Wire.remaining r_position failed_read] in E1.
    destruct payload as [|b l]; injection E1 as <- <-.
    - unfold Wire.read_exact in E2. cbn in E2. injection E2 as _ <-. done.
    - apply Forall_cons in Hbytes as [Hb _]. unfold Wire.read_exact, skip_to_end, fail_read in E2.
      cbn [Wire.remaining r_position failed_read] in E2. subst tail. cbn [head default drop].
      destruct (Z.ltb_spec (Z.of_nat (length l)) b); injection E2 as _ <-; [|done].
      cbn [Wire.remaining id]. by rewrite drop_ge by lia. }
  destruct (decoded_kept_ok sha256 (ScopeChunk chunk y_start y_end) MAX_BLOCK_ENTITIES_PER_CHUNK tail ltac:(done)) as [He Hc Hb Hw].
  cbn [entities bytes_consumed]. split_and!; [done|exact Hc| |].
  - apply Z.min_glb; [exact Hb|]. etransitivity; [exact Hw|].
    rewrite sum_list_with_fmap. apply Nat2Z.inj_le, roots_disjoint.
  - intros key nbt Hk. destruct (He _ _ Hk) as ([Hch Hy] & Hp & Hin). split_and!; try done; try lia.
    apply list_elem_of_fmap in Hin as ([n suffix] & -> & Hin). apply roots_sound in Hin as [(pre & Hpre) (used & Hs)].
    destruct (scan_prefix_frame _ _ _ _ _ Hs) as (Hu & _ & Hnb & _). exists pre, (drop (Z.to_nat used) suffix).
    cbn [fst]. rewrite Hnb at 1 2. rewrite take_drop. split; [done|]. unfold decode_prefix. rewrite Hs.
    unfold nbt_len. rewrite Hnb, length_take. f_equal. f_equal. lia.
Qed.

(** Decoding a SubChunk packet entry is total, and the entities after the section lie in that
    section, under the position their bytes carry, within 4096 records and 8 MiB. *)
Theorem entry_decodes {Context} (ids : BlockIds Context) key payload :
  Forall is_byte payload →
  ∃ entry, decode_entry sha256 key payload ids = Some entry ∧
    Forall storage_ok (storages (d_sub_chunk entry)) ∧ (length (storages (d_sub_chunk entry)) ≤ 2)%nat ∧
    Z.of_nat (size (entities (d_block_entities entry))) ≤ 4096 ∧
    total_bytes (entities (d_block_entities entry)) ≤ 8 * 1024 * 1024 ∧
    ∀ k nbt, entities (d_block_entities entry) !! k = Some nbt →
      bk_sub_chunk k = key ∧ embedded_position nbt = Some (bk_position k).
Proof using Type.
  intros Hbytes. unfold decode_entry, sub_chunk_decode_prefix.
  destruct (sub_chunk_read sha256 ids (reader_new payload)) as [o r] eqn:E.
  destruct (sub_chunk_read_ok sha256 ids (reader_new payload) o r Hbytes E) as (section & -> & Hok & Hl & _).
  cbn [mbind option_bind]. eexists. split; [done|]. cbn [d_sub_chunk d_block_entities]. split; [done|]. split; [done|].
  unfold decode_sub_chunk_tail.
  destruct (decoded_kept_ok sha256 (ScopeSubChunk key) MAX_BLOCK_ENTITIES_PER_SUB_CHUNK
    (drop (Z.to_nat (r_position r)) payload) ltac:(done)) as [He Hc Hb _].
  split_and!; [exact Hc|exact Hb|]. intros k nbt Hk. by destruct (He _ _ Hk) as (? & ? & _).
Qed.
End properties.

(** ** Witnesses *)

(** A root at (1, 2, 3), and the same with two bytes of the next root behind it. *)
Definition sample_root : bytes := [10; 0; 3; 1; 120; 2; 3; 1; 121; 4; 3; 1; 122; 6; 0].
Definition no_hash (bs : bytes) : bytes := bs.

Lemma scan_reads_a_prefix_witness :
  ∃ nbt, scan_prefix no_hash (sample_root ++ [10; 0]) = Ok (nbt, 15, None) ∧
    (1 ≤ 15 ≤ 17 ∧ 15 ≤ 1024 * 1024 ∧ nbt_bytes nbt = sample_root ∧
     ∀ ext, scan_prefix no_hash (nbt_bytes nbt ++ ext) = Ok (nbt, 15, None)).
Proof.
  eexists. split; [vm_compute; reflexivity|]. apply (scan_reads_a_prefix no_hash (sample_root ++ [10; 0])). vm_compute; reflexivity.
Defined.

Lemma accepted_root_parses_witness :
  ∃ nbt, decode_prefix no_hash sample_root = Ok (nbt, 15) ∧
    ∃ tree, parse (nbt_bytes nbt) = Some tree ∧ Compound.string tree ID = nbt_id nbt ∧
      Compound.get tree X = Some (NInt 1).
Proof.
  eexists. split; [vm_compute; reflexivity|]. edestruct (accepted_root_parses no_hash sample_root) as (tree & H1 & H2 & H3 & _); [vm_compute; reflexivity|].
  exists tree. split; [exact H1|]. split; [exact H2|]. exact (proj1 H3).
Defined.

Lemma decode_live_sound_witness :
  ∃ nbt, decode_live no_hash (mk_entity_key 0 1 2 3) sample_root = Ok nbt ∧ nbt_bytes nbt = sample_root ∧
    Z.of_nat (length sample_root) ≤ 1024 * 1024 ∧
    ∃ tree, parse sample_root = Some tree ∧
      ((Compound.get tree X = Some (NInt 1) ∧ Compound.get tree Y = Some (NInt 2) ∧ Compound.get tree Z_ = Some (NInt 3)) ∨
       (Compound.get tree X = None ∧ Compound.get tree Y = None ∧ Compound.get tree Z_ = None)).
Proof. eexists. split; [vm_compute; reflexivity|]. apply (decode_live_sound no_hash (mk_entity_key 0 1 2 3)). vm_compute; reflexivity. Defined.

(** One border block, then the root. *)
Lemma level_chunk_tail_sound_witness :
  let payload := 1 :: 77 :: sample_root in
  let decoded := decode_level_chunk_tail no_hash (mk_chunk_key 0 0 0) (-64) 320 payload in
  let tail := drop 2 payload in
  bytes_consumed decoded = 17 ∧ Z.of_nat (size (entities decoded)) ≤ 16384 ∧
  total_bytes (entities decoded) ≤ Z.min (8 * 1024 * 1024) (Z.of_nat (length tail)) ∧
  ∀ key nbt, entities decoded !! key = Some nbt →
    bk_chunk key = mk_chunk_key 0 0 0 ∧ -64 ≤ bk_y key < 320 ∧ embedded_position nbt = Some (bk_position key) ∧
    ∃ before after, tail = before ++ nbt_bytes nbt ++ after ∧
      decode_prefix no_hash (nbt_bytes nbt ++ after) = Ok (nbt, nbt_len nbt).
Proof.
  apply (level_chunk_tail_sound no_hash (mk_chunk_key 0 0 0) (-64) 320 (1 :: 77 :: sample_root)).
  repeat constructor; lia.
Defined.

Lemma entry_decodes_witness :
  ∃ entry, decode_entry no_hash (mk_sub_chunk_key 0 0 0 0) ([9; 1; 0; 1; 14] ++ sample_root) (raw_block_ids 0) = Some entry ∧
    Forall storage_ok (storages (d_sub_chunk entry)) ∧ (length (storages (d_sub_chunk entry)) ≤ 2)%nat ∧
    Z.of_nat (size (entities (d_block_entities entry))) ≤ 4096 ∧
    total_bytes (entities (d_block_entities entry)) ≤ 8 * 1024 * 1024 ∧
    ∀ k nbt, entities (d_block_entities entry) !! k = Some nbt →
      bk_sub_chunk k = mk_sub_chunk_key 0 0 0 0 ∧ embedded_position nbt = Some (bk_position k).
Proof.
  apply (entry_decodes no_hash (raw_block_ids 0) (mk_sub_chunk_key 0 0 0 0)). repeat constructor; lia.
Defined.
