(* ===== verification/Biome.v ===== *)
(** * Biome columns

    [crates/world/src/biome.rs]: the vertical column of packed biome storages at the head of a chunk
    payload, with empty slots filled the way vanilla fills them. *)
From stdpp Require Import base numbers list.
From S2P Require Import Prelude Packed Palette PaletteSpec PaletteUpdates PaletteViews PaletteTheorems Bytes Keys Wire SubChunk SubChunkSpec.
#[local] Open Scope Z_scope.

(** ** The decoder *)

Record BiomeIds := mk_biome_ids { default_biome : Z; resolve_biome : Z → Z }.

Definition raw_biome_ids (default : Z) : BiomeIds := mk_biome_ids default (λ id, id).

Definition biome_id (s : PalettedStorage) (x y z : nat) : option Z := runtime_id s x y z.

Definition extruded_updates (s : PalettedStorage) : list (nat * Z) :=
  x ← seq 0 16; z ← seq 0 16;
  let biome := default 0 (biome_id s x 15 z) in
  y ← seq 0 16; [(linear_index x y z, biome)].

Definition extruded_top_layer (s : PalettedStorage) : option PalettedStorage :=
  snd <$> apply_runtime_updates (uniform (default 0 (biome_id s 0 15 0))) (extruded_updates s).

Record DecodedBiomeColumn := mk_column {
  base_sub_chunk_y : Z;
  column_storages : list PalettedStorage;
  column_consumed : Z;
}.

Section decode.
Context (ids : BiomeIds).

(** [ids.resolve(reader.read_var_i32() as u16)] *)
Definition biome_entry : Reader → Z * Reader := rbind read_var_i32 (λ v, rret (resolve_biome ids (to_unsigned 16 v))).

(** One turn of the slot loop; the outer option is a panic of the decoder, the inner one an empty slot. *)
Definition read_slot : Reader → option (option PalettedStorage) * Reader := λ r,
  if is_at_end r then (Some None, r)
  else rbind read_u8 (λ header,
    let bits := Z.shiftr header 1 in
    if bits =? 127 then rret (Some None)
    else if bits =? 0 then rbind biome_entry (λ v, rret (Some (Some (uniform v))))
    else if bool_decide (Z.to_nat bits ∈ PACKED_BITS) then
      rbind (read_packed_storage (Z.to_nat bits) biome_entry) (λ s, rret (s ← s; Some (Some s)))
    else λ r, (Some None, skip_to_end r)) r.

Fixpoint read_slots (n : nat) : Reader → option (list (option PalettedStorage)) * Reader :=
  match n with
  | O => rret (Some [])
  | S n => rbind read_slot (λ s, rbind (read_slots n) (λ ss, rret (s ← s; ss ← ss; Some (s :: ss))))
  end.

(** [slots.iter().rev().find_map(Option::as_ref)]: the last storage there is. *)
Definition top_storage (slots : list (option PalettedStorage)) : option PalettedStorage := last (omap id slots).

(** [rposition(Option::is_some).map_or(0, |last| last + 1)] *)
Fixpoint filled_count (slots : list (option PalettedStorage)) : nat :=
  match slots with
  | [] => 0
  | s :: slots =>
      match filled_count slots with
      | O => match s with Some _ => 1 | None => 0 end
      | S n => S (S n)
      end
  end%nat.

Definition fill_slot (above : option PalettedStorage) (count : nat) (index : nat) (slot : option PalettedStorage) : PalettedStorage :=
  match slot, above with
  | Some s, _ => s
  | None, Some above => if (count <=? index)%nat then above else uniform (default_biome ids)
  | None, None => uniform (default_biome ids)
  end.

Definition fill_slots (slots : list (option PalettedStorage)) : option (list PalettedStorage) :=
  above ← match top_storage slots with
          | Some top => Some <$> extruded_top_layer top
          | None => Some None
          end;
  Some (imap (fill_slot above (filled_count slots)) slots).

Definition column_decode (base : Z) (storage_count : nat) (payload : bytes) : option DecodedBiomeColumn :=
  let '(slots, r) := read_slots storage_count (reader_new payload) in
  slots ← slots; storages ← fill_slots slots;
  Some (mk_column base storages (r_position r)).
End decode.

Definition column_storage (column : DecodedBiomeColumn) (sub_chunk_y : Z) : option PalettedStorage :=
  offset ← checked_sub sub_chunk_y (base_sub_chunk_y column);
  if offset <? 0 then None else column_storages column !! Z.to_nat offset.

(** ** Extrusion *)

Lemma write_cells_elem f us i v :
  (i, v) ∈ us → (∀ v', (i, v') ∈ us → v' = v) → write_cells f us i = Some v.
Proof.
  unfold write_cells. induction us as [|[j w] us IH] using rev_ind; [by intros ?%not_elem_of_nil|].
  intros Hin Hall. rewrite foldl_snoc. unfold write_cell at 1. simpl. case_decide as Hij.
  - subst j. f_equal. apply Hall, elem_of_app. right. by left.
  - apply IH.
    + apply elem_of_app in Hin as [?|[= -> ->]%list_elem_of_singleton]; done.
    + intros v' ?. apply Hall, elem_of_app. by left.
Qed.

Lemma extruded_updates_elem s i v :
  (i, v) ∈ extruded_updates s ↔
  ∃ x y z, (x < 16 ∧ y < 16 ∧ z < 16)%nat ∧ i = linear_index x y z ∧ v = default 0 (biome_id s x 15 z).
Proof.
  unfold extruded_updates. rewrite list_elem_of_bind. setoid_rewrite list_elem_of_bind. setoid_rewrite list_elem_of_bind.
  setoid_rewrite list_elem_of_singleton. setoid_rewrite elem_of_seq. split.
  - intros (x & (z & (y & [= -> ->] & ?) & ?) & ?). exists x, y, z. split_and!; (done || lia).
  - intros (x & y & z & ? & -> & ->). exists x. split; [|lia]. exists z. split; [|lia]. exists y. split; [done|lia].
Qed.

Lemma linear_index_lt x y z : (x < 16 ∧ y < 16 ∧ z < 16)%nat → (linear_index x y z < BLOCKS_PER_SUB_CHUNK)%nat.
Proof. intros ?. pose proof BLOCKS_eq. rewrite linear_index_eq by lia. lia. Qed.

Lemma linear_index_inj x y z x' y' z' :
  (x < 16 ∧ y < 16 ∧ z < 16)%nat → (x' < 16 ∧ y' < 16 ∧ z' < 16)%nat →
  linear_index x y z = linear_index x' y' z' → x = x' ∧ y = y' ∧ z = z'.
Proof. intros ??. rewrite !linear_index_eq by lia. lia. Qed.

Lemma extruded_spec s :
  ∃ t, extruded_top_layer s = Some t ∧ storage_ok t ∧
    ∀ x y z, (x < 16 ∧ y < 16 ∧ z < 16)%nat → biome_id t x y z = Some (default 0 (biome_id s x 15 z)).
Proof.
  unfold extruded_top_layer.
  destruct (batch_spec (uniform (default 0 (biome_id s 0 15 0))) (extruded_updates s)) as (changed & t & -> & [Hok Hcells _ _ _]).
  - apply uniform_ok.
  - apply Forall_forall. intros [i v] (x & y & z & ? & -> & _)%extruded_updates_elem. by apply linear_index_lt.
  - exists t. split; [done|]. split; [done|]. intros x y z Hxyz. unfold biome_id at 1, runtime_id. rewrite decide_False by lia.
    change (cell_value t (linear_index x y z) = Some (default 0 (biome_id s x 15 z))).
    rewrite Hcells by by apply linear_index_lt. apply write_cells_elem.
    + apply extruded_updates_elem. by exists x, y, z.
    + intros v' (x' & y' & z' & Hxyz' & Heq & ->)%extruded_updates_elem.
      by destruct (linear_index_inj _ _ _ _ _ _ Hxyz Hxyz' Heq) as (-> & -> & ->).
Qed.

Lemma uniform_biome b x y z : (x < 16 ∧ y < 16 ∧ z < 16)%nat → biome_id (uniform b) x y z = Some b.
Proof.
  intros ?. unfold biome_id, runtime_id, palette_index. rewrite decide_False by lia.
  unfold physical_index. rewrite decide_False by (pose proof (linear_index_lt x y z); lia). done.
Qed.

(** ** Reading the slots *)

Section slots.
Context (ids : BiomeIds).

Lemma stable_biome_entry : stable (biome_entry ids).
Proof using Type. unfold biome_entry. auto with stable. Qed.

Lemma read_slot_ok r o r' :
  Forall is_byte (remaining r) → read_slot ids r = (o, r') →
  advances r r' ∧ ∃ slot, o = Some slot ∧ ∀ s, slot = Some s → storage_ok s.
Proof using Type.
  intros Hb. unfold read_slot. destruct (is_at_end r) eqn:Hend.
  { intros [= <- <-]. split; [apply advances_refl|]. by exists None. }
  unfold rbind at 1. destruct (read_u8 r) as [header r1] eqn:E1. apply stable_read_u8 in E1 as [A1 _].
  assert (Forall is_byte (remaining r1)) as Hb1 by by eapply advances_bytes.
  destruct (_ =? 127).
  { intros [= <- <-]. split; [done|]. by exists None. }
  destruct (_ =? 0).
  { unfold rbind, rret. destruct (biome_entry ids r1) as [v r2] eqn:E2. apply stable_biome_entry in E2 as [A2 _].
    intros [= <- <-]. split; [by eapply advances_trans|]. eexists. split; [done|]. intros s [= <-]. apply uniform_ok. }
  case_bool_decide as Hbits.
  - unfold rbind, rret. destruct (read_packed_storage _ (biome_entry ids) r1) as [s r2] eqn:E2.
    destruct (read_packed_storage_ok _ _ _ _ _ Hbits Hb1 E2) as (t & -> & Hok).
    apply (stable_read_packed_storage _ _ stable_biome_entry) in E2 as [A2 _].
    intros [= <- <-]. split; [by eapply advances_trans|]. exists (Some t). split; [done|]. by intros s [= <-].
  - intros [= <- <-]. split; [eapply advances_trans; [done|apply advances_skip_to_end]|]. by exists None.
Qed.

Lemma read_slots_ok n r o r' :
  Forall is_byte (remaining r) → read_slots ids n r = (o, r') →
  advances r r' ∧ ∃ slots, o = Some slots ∧ length slots = n ∧ ∀ s, Some s ∈ slots → storage_ok s.
Proof using Type.
  revert r o r'. induction n as [|n IH]; intros r o r' Hb; cbn [read_slots].
  { intros [= <- <-]. split; [apply advances_refl|]. exists []. split_and!; [done..|]. by intros s ?%not_elem_of_nil. }
  unfold rbind, rret. destruct (read_slot ids r) as [slot r1] eqn:E1. destruct (read_slots ids n r1) as [slots r2] eqn:E2.
  destruct (read_slot_ok _ _ _ Hb E1) as (A1 & s & -> & Hs).
  destruct (IH r1 slots r2 (advances_bytes _ _ A1 Hb) E2) as (A2 & ss & -> & Hl & Hss).
  intros [= <- <-]. split; [by eapply advances_trans|]. exists (s :: ss). split_and!; [done|simpl; lia|].
  intros t [Ht|?]%elem_of_cons; [by apply Hs|by apply Hss].
Qed.
End slots.

(** ** Filling *)

(** [top] is the last storage of the slots, and [count] the number of slots up to it. *)
Lemma top_storage_spec slots :
  match top_storage slots with
  | Some top => (1 ≤ filled_count slots)%nat ∧ slots !! (filled_count slots - 1)%nat = Some (Some top)
  | None => filled_count slots = 0%nat
  end ∧ ∀ i s, slots !! i = Some (Some s) → (i < filled_count slots)%nat.
Proof.
  induction slots as [|slot slots IH]; [by split|]. destruct IH as [IH1 IH2].
  unfold top_storage in *. cbn [omap list_omap filled_count id].
  destruct (filled_count slots) as [|n] eqn:Hc.
  - assert (∀ i s, slots !! i ≠ Some (Some s)) as Hnone by (intros i s Hi; apply IH2 in Hi; lia).
    assert (Hempty : omap id slots = []).
    { clear IH1 IH2 Hc. induction slots as [|s slots IH]; [done|]. cbn [omap list_omap]. destruct s as [s|].
      - by destruct (Hnone 0%nat s).
      - simpl. apply IH. intros i. apply (Hnone (S i)). }
    destruct slot as [s|]; simpl; rewrite Hempty; simpl.
    + split; [by split|]. intros [|i] t Hi; [lia|]. simpl in Hi. by apply Hnone in Hi.
    + split; [done|]. intros [|i] t Hi; [done|]. simpl in Hi. by apply Hnone in Hi.
  - split.
    + destruct (last (omap id slots)) as [top|] eqn:Hlast; [|done].
      assert (last (match slot with Some a => a :: omap id slots | None => omap id slots end) = Some top) as Hl.
      { destruct slot; [|done]. by rewrite last_cons, Hlast. }
      replace (last _) with (Some top) by (destruct slot; exact (eq_sym Hl)).
      split; [lia|]. destruct IH1 as [_ IH1]. replace (S (S n) - 1)%nat with (S n) by lia. simpl.
      by replace (S n - 1)%nat with n in IH1 by lia.
    + intros [|i] s Hi; [lia|]. apply IH2 in Hi. lia.
Qed.

(** What each slot of a column shows. *)
Definition slot_shows (ids : BiomeIds) (slots : list (option PalettedStorage)) (i : nat) (s : PalettedStorage) : Prop :=
  storage_ok s ∧
  match slots !! i with
  | Some (Some t) => s = t
  | _ =>
      (** an empty slot above the last storage repeats the top layer of that storage *)
      (∀ j top, slots !! j = Some (Some top) → (j < i)%nat → (∀ k t, slots !! k = Some (Some t) → (k ≤ j)%nat) →
         ∀ x y z, (x < 16 ∧ y < 16 ∧ z < 16)%nat → biome_id s x y z = biome_id top x 15 z) ∧
      (** an empty slot with a storage above it, or in a column without storages, is the fallback biome *)
      ((∃ k t, slots !! k = Some (Some t) ∧ (i < k)%nat) ∨ (∀ k t, slots !! k ≠ Some (Some t)) →
         ∀ x y z, (x < 16 ∧ y < 16 ∧ z < 16)%nat → biome_id s x y z = Some (default_biome ids))
  end.

Lemma biome_id_total s x y z : storage_ok s → (x < 16 ∧ y < 16 ∧ z < 16)%nat → is_Some (biome_id s x y z).
Proof.
  intros Hok Hxyz. unfold biome_id, runtime_id. rewrite decide_False by lia.
  by apply (cell_value_total s (linear_index x y z)), linear_index_lt.
Qed.

Lemma fill_slots_spec ids slots :
  (∀ s, Some s ∈ slots → storage_ok s) →
  ∃ storages, fill_slots ids slots = Some storages ∧ length storages = length slots ∧
    ∀ i s, storages !! i = Some s → slot_shows ids slots i s.
Proof.
  intros Hok. unfold fill_slots. destruct (top_storage_spec slots) as [Htop Hlt].
  set (count := filled_count slots) in *.
  assert (∃ above, match top_storage slots with Some top => Some <$> extruded_top_layer top | None => Some None end = Some above ∧
    match top_storage slots, above with
    | Some top, Some a => storage_ok a ∧ ∀ x y z, (x < 16 ∧ y < 16 ∧ z < 16)%nat → biome_id a x y z = biome_id top x 15 z
    | None, None => True
    | _, _ => False
    end) as (above & -> & Habove).
  { destruct (top_storage slots) as [top|]; [|by exists None].
    destruct (extruded_spec top) as (t & -> & Ht & Hcells). exists (Some t). split; [done|]. split; [done|].
    intros x y z Hxyz. rewrite Hcells by done.
    destruct (biome_id_total top x 15 z) as [b Hb]; [|lia|by rewrite Hb].
    apply Hok. destruct Htop as [_ Htop]. by apply list_elem_of_lookup_2 in Htop. }
  cbn [mbind option_bind]. eexists. split; [done|]. split; [by rewrite length_imap|].
  intros i s. rewrite list_lookup_imap. destruct (slots !! i) as [slot|] eqn:Hi; [|done]. intros [= <-]. unfold slot_shows. rewrite Hi.
  destruct slot as [s|]; simpl. { split; [|done]. apply Hok. by apply list_elem_of_lookup_2 in Hi. }
  destruct (top_storage slots) as [top|] eqn:Ht, above as [a|]; try done.
  - destruct Habove as [Hao Ha], Htop as [Hc Htop]. destruct (Nat.leb_spec count i) as [Hle|Hgt].
    + split; [done|]. split.
      * intros j t Hj _ Hlast. pose proof (Hlt _ _ Hj). apply Hlast in Htop. assert (j = count - 1)%nat as -> by lia.
        destruct (top_storage_spec slots) as [Htop' _]. rewrite Ht in Htop'. destruct Htop' as [_ Htop'].
        fold count in Htop'. rewrite Hj in Htop'. by injection Htop' as ->.
      * intros [(k & t & Hk & Hik)|Hnone]; [apply Hlt in Hk; lia|]. by destruct (Hnone (count - 1)%nat top).
    + split; [apply uniform_ok|]. split.
      * intros j t Hj Hji Hlast. apply Hlast in Htop. lia.
      * intros _. apply uniform_biome.
  - split; [apply uniform_ok|]. split.
    + intros j t Hj. apply Hlt in Hj. lia.
    + intros _. apply uniform_biome.
Qed.

Lemma column_decode_Some ids base storage_count payload :
  Forall is_byte payload → is_Some (column_decode ids base storage_count payload).
Proof.
  intros Hb. unfold column_decode. destruct (read_slots ids storage_count (reader_new payload)) as [o r] eqn:E.
  destruct (read_slots_ok ids storage_count (reader_new payload) o r Hb E) as (_ & slots & -> & _ & Hs).
  destruct (fill_slots_spec ids slots Hs) as (storages & Hfill & _). cbn [mbind option_bind]. rewrite Hfill. by eexists.
Qed.

(** ** Properties *)

(** Decoding a biome column is total: every requested slot gets a storage with a biome in every cell,
    at most the payload is consumed, a slot that was sent shows what was sent, an empty slot above the
    last storage repeats that storage's top layer, and every other empty slot is the fallback biome. *)
Theorem column_decode_total ids base storage_count payload :
  Forall is_byte payload →
  ∃ slots r column, read_slots ids storage_count (reader_new payload) = (Some slots, r) ∧ length slots = storage_count ∧
    column_decode ids base storage_count payload = Some column ∧
    0 ≤ column_consumed column ≤ Z.of_nat (length payload) ∧ length (column_storages column) = storage_count ∧
    (∀ i s, column_storages column !! i = Some s → slot_shows ids slots i s) ∧
    ∀ i s x y z, column_storages column !! i = Some s → (x < 16 ∧ y < 16 ∧ z < 16)%nat → is_Some (biome_id s x y z).
Proof.
  intros Hb. unfold column_decode. destruct (read_slots ids storage_count (reader_new payload)) as [o r] eqn:E.
  destruct (read_slots_ok ids storage_count (reader_new payload) o r Hb E) as ([_ (p & Hp & Hpos)] & slots & -> & Hl & Hs).
  destruct (fill_slots_spec ids slots Hs) as (storages & Hfill & Hlen & Hshow). cbn [mbind option_bind]. rewrite Hfill.
  cbn [mbind option_bind]. eexists slots, r, _. simpl in Hp, Hpos. apply (f_equal length) in Hp. rewrite length_app in Hp.
  split_and!; try done; cbn [column_consumed column_storages]; [lia|lia|lia|].
  intros i s x y z Hi Hxyz. apply biome_id_total; [|done]. apply (Hshow _ _ Hi).
Qed.

(** A lookup by absolute section Y finds the storage of that slot, for the Ys of the column and no
    other, also at the ends of the 32-bit range. *)
Theorem column_storage_iff column y s :
  - 2 ^ 31 ≤ y < 2 ^ 31 → - 2 ^ 31 ≤ base_sub_chunk_y column < 2 ^ 31 →
  Z.of_nat (length (column_storages column)) < 2 ^ 31 →
  column_storage column y = Some s ↔
  ∃ i, column_storages column !! i = Some s ∧ y = base_sub_chunk_y column + Z.of_nat i.
Proof.
  intros Hy Hb Hl. unfold column_storage, checked_sub, checked_i32, i32_ok. split.
  - destruct ((- 2 ^ 31 <=? _) && _); [|done]. cbn [mbind option_bind].
    destruct (Z.ltb_spec (y - base_sub_chunk_y column) 0); [done|]. intros Hs.
    exists (Z.to_nat (y - base_sub_chunk_y column)). split; [done|]. lia.
  - intros (i & Hi & ->). pose proof (lookup_lt_Some _ _ _ Hi).
    replace (base_sub_chunk_y column + Z.of_nat i - base_sub_chunk_y column) with (Z.of_nat i) by lia.
    destruct (Z.leb_spec (- 2 ^ 31) (Z.of_nat i)), (Z.ltb_spec (Z.of_nat i) (2 ^ 31)); try lia. cbn [andb mbind option_bind].
    destruct (Z.ltb_spec (Z.of_nat i) 0); [lia|]. by rewrite Nat2Z.id.
Qed.

(** ** Witnesses *)

(** An empty slot, a uniform one of biome 7, and two that the payload ends before. *)
Lemma column_decode_total_witness :
  ∃ slots r column, read_slots (raw_biome_ids 1) 4 (reader_new [255; 1; 14]) = (Some slots, r) ∧ length slots = 4%nat ∧
    column_decode (raw_biome_ids 1) (-4) 4 [255; 1; 14] = Some column ∧
    0 ≤ column_consumed column ≤ 3 ∧ length (column_storages column) = 4%nat ∧
    (∀ i s, column_storages column !! i = Some s → slot_shows (raw_biome_ids 1) slots i s) ∧
    ∀ i s x y z, column_storages column !! i = Some s → (x < 16 ∧ y < 16 ∧ z < 16)%nat → is_Some (biome_id s x y z).
Proof. apply (column_decode_total (raw_biome_ids 1) (-4) 4 [255; 1; 14]). repeat constructor; lia. Defined.

Lemma column_storage_iff_witness :
  let column := mk_column (-4) [uniform 3; uniform 5] 0 in
  column_storage column (-3) = Some (uniform 5) ↔
  ∃ i, column_storages column !! i = Some (uniform 5) ∧ -3 = base_sub_chunk_y column + Z.of_nat i.
Proof. apply column_storage_iff; simpl; lia. Defined.
