(* ===== verification/Mesh.v ===== *)
(** * Mesh neighbourhoods

    [crates/world/src/mesh_neighbourhood.rs]: the bounded 3x3x3 view of sections a mesh is built from,
    with the sections above it for seasonal shelter. *)
From stdpp Require Import base numbers list gmap.
From S2P Require Import Prelude Packed Palette Bytes Keys SubChunk.
#[local] Open Scope Z_scope.

Inductive MeshSample := Block (runtime_id : Z) | Open_.

Record MeshDependencyMask := mk_mask { diagonal_ao : bool; liquid : bool; seasonal_foliage : bool }.
Definition mask_new (diagonal_ao liquid : bool) : MeshDependencyMask := mk_mask diagonal_ao liquid false.
Definition needs_diagonal_samples (m : MeshDependencyMask) : bool := diagonal_ao m || liquid m.
Definition with_seasonal_foliage (m : MeshDependencyMask) (enabled : bool) : MeshDependencyMask :=
  mk_mask (diagonal_ao m) (liquid m) enabled.

Definition WIDTH : Z := 3.
Definition ENTRY_COUNT : nat := 27.

(** [(-1..=1).contains(&v)] *)
Definition unit_range (v : Z) : bool := (-1 <=? v) && (v <=? 1).

Definition index (o : Z * Z * Z) : option nat :=
  let '(x, y, z) := o in
  if negb (unit_range x) || negb (unit_range y) || negb (unit_range z) then None
  else Some (Z.to_nat (((x + 1) * WIDTH + (y + 1)) * WIDTH + (z + 1))).

(** One axis of [split_coordinate]: [div_euclid] and [rem_euclid] of a positive divisor. *)
Definition split_axis (v : Z) : option (Z * nat) :=
  if unit_range (v / 16) then Some (v / 16, Z.to_nat (v mod 16)) else None.

Definition split_coordinate (c : Z * Z * Z) : option ((Z * Z * Z) * (nat * nat * nat)) :=
  let '(x, y, z) := c in
  '(ox, lx) ← split_axis x; '(oy, ly) ← split_axis y; '(oz, lz) ← split_axis z;
  Some ((ox, oy, oz), (lx, ly, lz)).

Section neighbourhood.
Context {Context : Type}.

Record MeshNeighbourhood := mk_neighbourhood {
  block_origin : Z * Z * Z;
  sub_chunks : list (option (SubChunk Context));
  column_above : list (Z * SubChunk Context);
  shared_column : option (Z * list (Z * SubChunk Context));
}.

Definition set_entry (n : MeshNeighbourhood) (i : nat) (s : SubChunk Context) : MeshNeighbourhood :=
  mk_neighbourhood (block_origin n) (<[i := Some s]> (sub_chunks n)) (column_above n) (shared_column n).

Definition neighbourhood_new (center : SubChunk Context) : MeshNeighbourhood :=
  set_entry (mk_neighbourhood (0, 0, 0) (replicate ENTRY_COUNT None) [] None) (default O (index (0, 0, 0))) center.

Definition with_block_origin (n : MeshNeighbourhood) (origin : Z * Z * Z) : MeshNeighbourhood :=
  mk_neighbourhood origin (sub_chunks n) (column_above n) (shared_column n).

Definition insert_section (n : MeshNeighbourhood) (offset : Z * Z * Z) (s : SubChunk Context) : bool * MeshNeighbourhood :=
  if bool_decide (offset = (0, 0, 0)) then (false, n)
  else match index offset with None => (false, n) | Some i => (true, set_entry n i s) end.

Definition section_at (n : MeshNeighbourhood) (offset : Z * Z * Z) : option (SubChunk Context) :=
  i ← index offset; default None (sub_chunks n !! i).

Definition listed_above (n : MeshNeighbourhood) (offset_y : Z) : bool :=
  existsb (λ e, fst e =? offset_y) (column_above n).

Definition insert_column_above (n : MeshNeighbourhood) (offset_y : Z) (s : SubChunk Context) : bool * MeshNeighbourhood :=
  if (offset_y <? 2) || negb (i32_ok (offset_y * 16)) || listed_above n offset_y then (false, n)
  else (true, mk_neighbourhood (block_origin n) (sub_chunks n) (column_above n ++ [(offset_y, s)]) (shared_column n)).

Definition with_shared_column (n : MeshNeighbourhood) (center_y : Z) (column : list (Z * SubChunk Context)) : MeshNeighbourhood :=
  mk_neighbourhood (block_origin n) (sub_chunks n) (column_above n) (Some (center_y, column)).

(** The [filter_map] over the shared column. *)
Definition shared_entry (n : MeshNeighbourhood) (center : Z) (e : Z * SubChunk Context) : option (Z * SubChunk Context) :=
  offset ← checked_sub (fst e) center;
  if (2 <=? offset) && i32_ok (offset * 16) && negb (listed_above n offset) then Some (offset, snd e) else None.

Definition shared_above (n : MeshNeighbourhood) : list (Z * SubChunk Context) :=
  match shared_column n with
  | Some (center, column) =>
      omap (shared_entry n center) (List.filter (λ e, saturating_add center 2 <=? fst e) column)
  | None => []
  end.

Definition seasonal_column (n : MeshNeighbourhood) : list (Z * SubChunk Context) :=
  omap id [ (λ s, (0, s)) <$> section_at n (0, 0, 0); (λ s, (1, s)) <$> section_at n (0, 1, 0) ]
  ++ column_above n ++ shared_above n.

Definition liquid_sub_chunks (n : MeshNeighbourhood) : list ((Z * Z * Z) * option (SubChunk Context)) :=
  (λ o, (o, section_at n o)) <$> LIQUID_SAMPLE_OFFSETS.

Definition sample_at (n : MeshNeighbourhood) (layer : nat) (o : Z * Z * Z) (l : nat * nat * nat) : MeshSample :=
  let '(x, y, z) := l in
  match s ← section_at n o; sub_chunk_runtime_id s layer x y z with Some id => Block id | None => Open_ end.

Definition sample (n : MeshNeighbourhood) (layer : nat) (c : Z * Z * Z) : MeshSample :=
  match split_coordinate c with
  | None => Open_
  | Some (o, l) => sample_at n layer o l
  end.

Definition liquid_sample (n : MeshNeighbourhood) (layer : nat) (c : Z * Z * Z) : MeshSample :=
  match split_coordinate c with
  | None => Open_
  | Some (o, l) => if negb (is_liquid_sample_offset o) then Open_ else sample_at n layer o l
  end.

Definition block_source (n : MeshNeighbourhood) (c : Z * Z * Z) : option (SubChunk Context * (nat * nat * nat)) :=
  '(o, l) ← split_coordinate c; s ← section_at n o; Some (s, l).

Definition liquid_block_source (n : MeshNeighbourhood) (c : Z * Z * Z) : option (SubChunk Context * (nat * nat * nat)) :=
  '(o, l) ← split_coordinate c;
  if is_liquid_sample_offset o then s ← section_at n o; Some (s, l) else None.
End neighbourhood.
Arguments MeshNeighbourhood : clear implicits.

(** ** Offsets and coordinates *)

#[local] Ltac Zify.zify_post_hook ::= Z.to_euclidean_division_equations.

Lemma unit_range_iff v : unit_range v = true ↔ -1 ≤ v ≤ 1.
Proof. unfold unit_range. lia. Qed.

Lemma index_Some x y z i :
  index (x, y, z) = Some i ↔ (x, y, z) ∈ CUBE_OFFSETS ∧ Z.of_nat i = ((x + 1) * 3 + (y + 1)) * 3 + (z + 1).
Proof.
  rewrite cube_offsets_iff, <-!unit_range_iff. unfold index, WIDTH.
  destruct (unit_range x) eqn:Hx, (unit_range y) eqn:Hy, (unit_range z) eqn:Hz; simpl;
    try (split; [done|by intros [(? & ? & ?) ?]]).
  apply unit_range_iff in Hx, Hy, Hz. split; [intros [= <-]; split; [done|lia]|intros [_ Hi]; f_equal; lia].
Qed.

Lemma index_is_Some o : is_Some (index o) ↔ o ∈ CUBE_OFFSETS.
Proof.
  destruct o as [[x y] z]. split.
  - by intros [i [Hi _]%index_Some].
  - intros Ho. exists (Z.to_nat (((x + 1) * 3 + (y + 1)) * 3 + (z + 1))). apply index_Some. split; [done|].
    apply cube_offsets_iff in Ho. lia.
Qed.

Lemma index_inj o o' i : index o = Some i → index o' = Some i → o = o'.
Proof.
  destruct o as [[x y] z], o' as [[x' y'] z']. intros [H1%cube_offsets_iff H2]%index_Some [H3%cube_offsets_iff H4]%index_Some.
  assert (x = x' ∧ y = y' ∧ z = z') as (-> & -> & ->) by lia. done.
Qed.

Lemma index_lt o i : index o = Some i → (i < ENTRY_COUNT)%nat.
Proof. destruct o as [[x y] z]. intros [H1%cube_offsets_iff H2]%index_Some. unfold ENTRY_COUNT. lia. Qed.

Lemma adjacent_iff o : o ∈ ADJACENT_OFFSETS ↔ o ∈ CUBE_OFFSETS ∧ o ≠ (0, 0, 0).
Proof.
  split.
  - intros Ho. pose proof (forallb_forall (λ o, bool_decide (o ∈ CUBE_OFFSETS ∧ o ≠ (0, 0, 0))) ADJACENT_OFFSETS) as [H _].
    eapply bool_decide_eq_true_1, H; [vm_compute; reflexivity|]. by apply list_elem_of_In.
  - intros [Ho Hne].
    assert (Hall : forallb (λ o, bool_decide (o = (0, 0, 0)) || bool_decide (o ∈ ADJACENT_OFFSETS)) CUBE_OFFSETS = true)
      by (vm_compute; reflexivity).
    rewrite forallb_forall in Hall. specialize (Hall o (proj1 (list_elem_of_In _ _) Ho)).
    apply orb_prop in Hall as [?%bool_decide_eq_true_1|?%bool_decide_eq_true_1]; done.
Qed.

(** A block of the view: from one section below to one section above on every axis. *)
Definition in_view (v : Z) : Prop := -16 ≤ v < 32.

Lemma split_axis_Some v o l : split_axis v = Some (o, l) ↔ in_view v ∧ o = v / 16 ∧ l = Z.to_nat (v mod 16).
Proof.
  unfold split_axis, in_view. destruct (unit_range (v / 16)) eqn:H.
  - apply unit_range_iff in H. split; [intros [= <- <-]|intros (_ & -> & ->); done]. split_and!; try done; lia.
  - split; [done|]. intros (Hv & _). assert (unit_range (v / 16) = true); [|congruence]. apply unit_range_iff. lia.
Qed.

Lemma split_coordinate_Some x y z o l :
  split_coordinate (x, y, z) = Some (o, l) ↔
  (in_view x ∧ in_view y ∧ in_view z) ∧ o = (x / 16, y / 16, z / 16) ∧
  l = (Z.to_nat (x mod 16), Z.to_nat (y mod 16), Z.to_nat (z mod 16)).
Proof.
  unfold split_coordinate. split.
  - destruct (split_axis x) as [[ox lx]|] eqn:Hx, (split_axis y) as [[oy ly]|] eqn:Hy, (split_axis z) as [[oz lz]|] eqn:Hz;
      cbn [mbind option_bind]; try done. intros [= <- <-].
    apply split_axis_Some in Hx as (? & -> & ->), Hy as (? & -> & ->), Hz as (? & -> & ->). done.
  - intros ((Hx & Hy & Hz) & -> & ->).
    assert (∀ v, in_view v → split_axis v = Some (v / 16, Z.to_nat (v mod 16))) as Hs by (intros; by apply split_axis_Some).
    rewrite !Hs by done. done.
Qed.

Lemma split_offset_cube x y z o l : split_coordinate (x, y, z) = Some (o, l) → o ∈ CUBE_OFFSETS.
Proof. intros ((? & ? & ?) & -> & _)%split_coordinate_Some. apply cube_offsets_iff. unfold in_view in *. lia. Qed.

(** ** The view as a function of the world *)

Section view.
Context {Context : Type}.
Implicit Types (n : MeshNeighbourhood Context) (s : SubChunk Context).

Lemma section_at_insert n o s o' :
  length (sub_chunks n) = ENTRY_COUNT →
  length (sub_chunks (snd (insert_section n o s))) = ENTRY_COUNT ∧
  fst (insert_section n o s) = bool_decide (o ∈ ADJACENT_OFFSETS) ∧
  section_at (snd (insert_section n o s)) o' =
    if decide (o' = o ∧ o ∈ ADJACENT_OFFSETS) then Some s else section_at n o'.
Proof using Type.
  intros Hl. unfold insert_section. case_bool_decide as H0; simpl.
  { rewrite bool_decide_eq_false_2, decide_False by (rewrite adjacent_iff; naive_solver). done. }
  destruct (index o) as [i|] eqn:Hi; simpl.
  - assert (o ∈ ADJACENT_OFFSETS) as Ho by (apply adjacent_iff; split; [apply index_is_Some; by exists i|done]).
    rewrite length_insert, bool_decide_eq_true_2 by done. split; [done|]. split; [done|].
    unfold section_at. simpl. destruct (index o') as [i'|] eqn:Hi'; simpl.
    + case_decide as Heq.
      * destruct Heq as [-> _]. assert (i' = i) as -> by congruence.
        rewrite list_lookup_insert_eq by (rewrite Hl; by eapply index_lt). done.
      * rewrite list_lookup_insert_ne; [done|]. intros ->. apply Heq. split; [by eapply index_inj|done].
    + rewrite decide_False; [done|]. intros [-> _]. congruence.
  - assert (o ∉ ADJACENT_OFFSETS) as Ho.
    { rewrite adjacent_iff, <-index_is_Some. intros [[i ?] _]. congruence. }
    rewrite bool_decide_eq_false_2, decide_False by naive_solver. done.
Qed.

Lemma section_at_new s o :
  length (sub_chunks (neighbourhood_new s)) = ENTRY_COUNT ∧
  section_at (neighbourhood_new s) o = if decide (o = (0, 0, 0)) then Some s else None.
Proof using Type.
  split; [done|]. unfold section_at. destruct (index o) as [i|] eqn:Hi; cbn [mbind option_bind].
  - unfold neighbourhood_new, set_entry. cbn [sub_chunks]. case_decide as Ho.
    + subst o. change (Some 13%nat = Some i) in Hi. injection Hi as <-. done.
    + assert (i ≠ 13%nat) as Hne by (intros ->; apply Ho; by eapply index_inj).
      change (default O (index (0, 0, 0))) with 13%nat. rewrite list_lookup_insert_ne by done.
      rewrite lookup_replicate_2 by by eapply index_lt. done.
  - rewrite decide_False; [done|]. intros ->. done.
Qed.

(** Sections as a partial map from keys, and the view a mesh captures of them. *)
Definition capture (world : SubChunkKey → option (SubChunk Context)) (t : SubChunkKey) (center : SubChunk Context) : MeshNeighbourhood Context :=
  foldl (λ n o, match offset_key checked_add t o ≫= world with Some s => snd (insert_section n o s) | None => n end)
    (neighbourhood_new center) ADJACENT_OFFSETS.

Lemma section_at_capture world t center o :
  section_at (capture world t center) o =
  if decide (o = (0, 0, 0)) then Some center
  else if decide (o ∈ CUBE_OFFSETS) then offset_key checked_add t o ≫= world else None.
Proof using Type.
  unfold capture. set (f := λ n o, _).
  assert (Hgen : ∀ offs n, length (sub_chunks n) = ENTRY_COUNT → (∀ o, o ∈ offs → o ∈ ADJACENT_OFFSETS) →
    section_at (foldl f n offs) o =
    match (if decide (o ∈ offs) then offset_key checked_add t o ≫= world else None) with Some s => Some s | None => section_at n o end).
  { induction offs as [|o1 offs IH]; intros n Hl Hin; [done|]. simpl.
    assert (o1 ∈ ADJACENT_OFFSETS) as Ho1 by (apply Hin; by left).
    assert (length (sub_chunks (f n o1)) = ENTRY_COUNT ∧ section_at (f n o1) o =
      match (if decide (o = o1) then offset_key checked_add t o1 ≫= world else None) with Some s => Some s | None => section_at n o end)
      as [Hl' Hs].
    { unfold f. destruct (offset_key checked_add t o1 ≫= world) as [s|].
      - destruct (section_at_insert n o1 s o Hl) as (? & _ & ->). split; [done|]. repeat case_decide; try done; intuition congruence.
      - split; [done|]. by destruct (decide (o = o1)). }
    rewrite IH, Hs; [|done|by intros o2 ?; apply Hin; right].
    destruct (decide (o = o1)) as [->|].
    - rewrite (decide_True (P := o1 ∈ o1 :: offs)) by by left. case_decide; [|done].
      by destruct (offset_key checked_add t o1 ≫= world).
    - destruct (decide (o ∈ offs)).
      + by rewrite decide_True by by right.
      + rewrite (decide_False (P := o ∈ o1 :: offs)) by (rewrite elem_of_cons; naive_solver). done. }
  destruct (section_at_new center o) as [Hl Hnew]. rewrite Hgen, Hnew by done.
  case_decide as Ho.
  - subst o. rewrite decide_False; [done|]. by intros [_ ?]%adjacent_iff.
  - destruct (decide (o ∈ CUBE_OFFSETS)) as [Hc|Hc].
    + rewrite decide_True by by apply adjacent_iff. by destruct (offset_key checked_add t o ≫= world).
    + rewrite decide_False; [done|]. by intros [? _]%adjacent_iff.
Qed.
End view.
