(* ===== verification/MeshTheorems.v ===== *)
(** * What mesh neighbourhoods guarantee

    Sampling a captured view is reading the world, a mesh only sees the sections that invalidate it,
    and the seasonal column lists each higher section once. *)
From Stdlib Require Import Sorted.
From stdpp Require Import base numbers list gmap.
From S2P Require Import Prelude Packed Palette PaletteSpec PaletteTheorems Bytes Keys SubChunk Mesh.
#[local] Open Scope Z_scope.
#[local] Ltac Zify.zify_post_hook ::= Z.to_euclidean_division_equations.

Section properties.
Context {Context : Type}.
Implicit Types (world : SubChunkKey → option (SubChunk Context)) (n : MeshNeighbourhood Context).

(** The block at absolute coordinates. *)
Definition world_block world (dimension : Z) (layer : nat) (x y z : Z) : MeshSample :=
  match s ← world (mk_sub_chunk_key dimension (x / 16) (y / 16) (z / 16));
        sub_chunk_runtime_id s layer (Z.to_nat (x mod 16)) (Z.to_nat (y mod 16)) (Z.to_nat (z mod 16)) with
  | Some id => Block id
  | None => Open_
  end.

Definition world_ok world : Prop := ∀ k, is_Some (world k) → key_ok k.

(** The captured section at an offset is the world's section there. *)
Lemma capture_reads_world world t center dx dy dz :
  world_ok world → world t = Some center → (dx, dy, dz) ∈ CUBE_OFFSETS →
  section_at (capture world t center) (dx, dy, dz)
  = world (mk_sub_chunk_key (sk_dimension t) (sk_x t + dx) (sk_y t + dy) (sk_z t + dz)).
Proof using Type.
  intros Hw Ht Ho. rewrite section_at_capture. rewrite (decide_True (P := _ ∈ CUBE_OFFSETS)) by done.
  case_decide as H0.
  - injection H0 as -> -> ->. rewrite !Z.add_0_r. rewrite <-Ht. by destruct t.
  - set (k := mk_sub_chunk_key _ _ _ _). destruct (offset_key checked_add t (dx, dy, dz)) as [k'|] eqn:Hk; cbn [mbind option_bind].
    + apply offset_key_Some in Hk as (Hd & [Hx _]%checked_i32_Some & [Hy _]%checked_i32_Some & [Hz _]%checked_i32_Some).
      f_equal. destruct k'. simpl in *. subst k. congruence.
    + destruct (world k) eqn:Hwk; [|done]. destruct (Hw k) as (Hx & Hy & Hz); [by rewrite Hwk|].
      assert (offset_key checked_add t (dx, dy, dz) = Some k) as Hs; [|congruence].
      apply offset_key_Some. subst k. simpl in *. unfold checked_add. by rewrite !checked_i32_Some.
Qed.

(** Sampling a captured view is reading the world: inside the 48-block cube around the section a
    sample is the block at the absolute position, through section and layer boundaries, and beyond it
    open space; the liquid sample is the same within its sections and open outside. *)
Theorem sample_reads_world world t center layer x y z :
  world_ok world → world t = Some center →
  let view := capture world t center in
  let block := world_block world (sk_dimension t) layer (16 * sk_x t + x) (16 * sk_y t + y) (16 * sk_z t + z) in
  sample view layer (x, y, z) = (if decide (in_view x ∧ in_view y ∧ in_view z) then block else Open_) ∧
  liquid_sample view layer (x, y, z) =
    (if decide (in_view x ∧ in_view y ∧ in_view z ∧ (x / 16, y / 16, z / 16) ∈ LIQUID_SAMPLE_OFFSETS) then block else Open_).
Proof using Type.
  intros Hw Ht view block.
  assert (Hblock : ∀ o l, split_coordinate (x, y, z) = Some (o, l) → sample_at view layer o l = block).
  { intros o l Hs. pose proof (split_offset_cube _ _ _ _ _ Hs) as Ho. apply split_coordinate_Some in Hs as (_ & -> & ->).
    unfold sample_at, view, block, world_block. rewrite capture_reads_world by done.
    replace ((16 * sk_x t + x) / 16) with (sk_x t + x / 16) by lia. replace ((16 * sk_y t + y) / 16) with (sk_y t + y / 16) by lia.
    replace ((16 * sk_z t + z) / 16) with (sk_z t + z / 16) by lia.
    replace ((16 * sk_x t + x) mod 16) with (x mod 16) by lia. replace ((16 * sk_y t + y) mod 16) with (y mod 16) by lia.
    by replace ((16 * sk_z t + z) mod 16) with (z mod 16) by lia. }
  unfold sample, liquid_sample. destruct (split_coordinate (x, y, z)) as [[o l]|] eqn:Hs.
  - rewrite (Hblock _ _ eq_refl). pose proof Hs as ((? & ? & ?) & -> & _)%split_coordinate_Some.
    rewrite decide_True by done. split; [done|]. destruct (is_liquid_sample_offset _) eqn:Hl; cbn [negb].
    + rewrite decide_True; [done|]. split_and!; try done. by apply liquid_offsets_iff.
    + rewrite decide_False; [done|]. intros (_ & _ & _ & Hin%liquid_offsets_iff). congruence.
  - assert (¬ (in_view x ∧ in_view y ∧ in_view z)) as Hout.
    { intros Hin. assert (split_coordinate (x, y, z) = Some ((x / 16, y / 16, z / 16), (Z.to_nat (x mod 16), Z.to_nat (y mod 16), Z.to_nat (z mod 16))))
        by (by apply split_coordinate_Some). congruence. }
    rewrite !decide_False by tauto. done.
Qed.

Lemma sample_at_ext (n n' : MeshNeighbourhood Context) layer o l :
  section_at n o = section_at n' o → sample_at n layer o l = sample_at n' layer o l.
Proof using Type. intros H. unfold sample_at. by rewrite H. Qed.

(** C40: Invalidation is complete: when one section changes, appears or disappears, every mesh that is
    not among its neighbourhood dependents samples exactly what it sampled before, and every mesh
    that is not among its liquid dependents keeps all its liquid samples. *)
Theorem invalidation_complete world world' changed t center center' layer c :
  key_ok t → (∀ k, k ≠ changed → world k = world' k) → world t = Some center → world' t = Some center' →
  (t ∉ mesh_neighbourhood_dependents changed →
   sample (capture world t center) layer c = sample (capture world' t center') layer c) ∧
  (t ∉ liquid_mesh_dependents changed →
   liquid_sample (capture world t center) layer c = liquid_sample (capture world' t center') layer c).
Proof using Type.
  intros Hok Hsame Ht Ht'. destruct (decide (t = changed)) as [<-|Hne].
  { split; intros []; [apply dependents_add_iff|apply dependents_sub_iff]; (split_and!; [done..|]);
      unfold key_offset; rewrite !Z.sub_diag; [by apply cube_offsets_iff|by apply liquid_offsets_iff]. }
  assert (center' = center) as -> by (rewrite (Hsame t Hne) in Ht; congruence).
  assert (Hcase : ∀ o, section_at (capture world t center) o = section_at (capture world' t center) o ∨
    sk_dimension t = sk_dimension changed ∧ key_offset changed t = o ∧ o ∈ CUBE_OFFSETS).
  { intros o. rewrite !section_at_capture. case_decide; [by left|]. case_decide as Ho; [|by left].
    destruct (offset_key checked_add t o) as [k|] eqn:Hk; cbn [mbind option_bind]; [|by left].
    destruct (decide (k = changed)) as [->|Hkc]; [right|left; by apply Hsame].
    apply offset_key_Some in Hk as (Hd & [Hx _]%checked_i32_Some & [Hy _]%checked_i32_Some & [Hz _]%checked_i32_Some).
    split_and!; [done| |done]. destruct o as [[dx dy] dz]. unfold key_offset. simpl in *. rewrite Hx, Hy, Hz.
    f_equal; [f_equal|]; lia. }
  destruct c as [[x y] z]. unfold sample, liquid_sample.
  destruct (split_coordinate (x, y, z)) as [[o l]|] eqn:Hs; [|done].
  destruct (Hcase o) as [Heq|(Hd & Hoff & Ho)].
  - split; intros _; [|destruct (is_liquid_sample_offset o); [|done]]; by apply sample_at_ext.
  - split.
    + intros Hnot. destruct Hnot. apply dependents_add_iff. split_and!; [done..|].
      unfold key_offset in *. subst o. rewrite cube_offsets_iff in *. lia.
    + intros Hnot. destruct (is_liquid_sample_offset o) eqn:Hl; [|done]. destruct Hnot. apply dependents_sub_iff.
      split_and!; [done..|]. rewrite Hoff. by apply liquid_offsets_iff.
Qed.

(** ** The seasonal column *)

Lemma omap_filter_all {A B} (f : A → option B) (p : A → bool) l :
  (∀ a b, f a = Some b → p a = true) → omap f (List.filter p l) = omap f l.
Proof using Type.
  intros Hf. induction l as [|a l IH]; [done|]. cbn [List.filter]. destruct (p a) eqn:Hp; cbn [omap list_omap].
  - by rewrite IH.
  - destruct (f a) eqn:Ha; [|done]. apply Hf in Ha. congruence.
Qed.

(** The views a mesh can be given. *)
Inductive built : MeshNeighbourhood Context → Prop :=
  | built_new center : built (neighbourhood_new center)
  | built_origin n origin : built n → built (with_block_origin n origin)
  | built_insert n o s : built n → built (snd (insert_section n o s))
  | built_above n dy s : built n → built (snd (insert_column_above n dy s))
  | built_shared n center_y column : built n → i32_ok center_y = true → bt_sorted column →
      built (with_shared_column n center_y column).

Record above_ok (n : MeshNeighbourhood Context) : Prop := {
  above_once : NoDup (fst <$> column_above n);
  above_range e : e ∈ column_above n → 2 ≤ fst e ∧ fst e * 16 < 2 ^ 31;
  shared_ok center column : shared_column n = Some (center, column) → i32_ok center = true ∧ bt_sorted column;
}.

Lemma listed_above_iff (n : MeshNeighbourhood Context) dy : listed_above n dy = true ↔ dy ∈ (fst <$> column_above n).
Proof using Type.
  unfold listed_above. rewrite existsb_exists. setoid_rewrite <-list_elem_of_In. rewrite list_elem_of_fmap.
  split; intros (e & H1 & H2); exists e; [split; [lia|done]|split; [done|lia]].
Qed.

Lemma built_above_ok n : built n → above_ok n.
Proof using Type.
  induction 1 as [center|n origin _ IH|n o s _ IH|n dy s _ IH|n cy column _ IH Hc Hs].
  - split; simpl; [constructor|by intros e ?%not_elem_of_nil|done].
  - by destruct IH.
  - unfold insert_section. case_bool_decide; [done|]. destruct (index o); [|done]. by destruct IH.
  - unfold insert_column_above. destruct (_ || _) eqn:Hor; [done|]. destruct IH as [H1 H2 H3].
    apply orb_false_iff in Hor as [[? Hi%negb_false_iff]%orb_false_iff Hl]. split; simpl; [| |done].
    + rewrite fmap_app. apply NoDup_app. split_and!; [done| |apply NoDup_singleton].
      intros d Hd ->%list_elem_of_singleton. apply listed_above_iff in Hd. simpl in Hd. congruence.
    + intros e [?|He%list_elem_of_singleton]%elem_of_app; [by apply H2|]. subst e. unfold i32_ok in Hi. simpl. lia.
  - destruct IH as [H1 H2 _]. split; simpl; [done|done|]. by intros ?? [= <- <-].
Qed.

Lemma shared_entry_Some n center e dy s :
  i32_ok center = true →
  shared_entry n center e = Some (dy, s) ↔
  fst e = center + dy ∧ snd e = s ∧ 2 ≤ dy ∧ dy * 16 < 2 ^ 31 ∧ listed_above n dy = false.
Proof using Type.
  intros Hc. unfold shared_entry, checked_sub, checked_i32. destruct e as [y t]. cbn [fst snd]. unfold i32_ok in *. split.
  - destruct ((- 2 ^ 31 <=? y - center) && _); [|done]. cbn [mbind option_bind].
    destruct (_ && negb _) eqn:Hif; [|done]. intros [= <- <-]. apply andb_prop in Hif as [? Hl%negb_true_iff].
    split_and!; [lia|done|lia|lia|done].
  - intros (Hy & -> & Hd & Hm & Hl). replace (y - center) with dy by lia.
    assert ((- 2 ^ 31 <=? dy) && (dy <? 2 ^ 31) = true) as -> by lia. cbn [mbind option_bind].
    assert ((2 <=? dy) && ((- 2 ^ 31 <=? dy * 16) && (dy * 16 <? 2 ^ 31)) = true) as -> by lia. by rewrite Hl.
Qed.

Lemma omap_shared_nodup n center column :
  i32_ok center = true → bt_sorted column → NoDup (fst <$> omap (shared_entry n center) column).
Proof using Type.
  intros Hc. unfold bt_sorted. induction column as [|e column IH]; intros Hs; [constructor|].
  apply StronglySorted_inv in Hs as [Hs Hf]. cbn [omap list_omap].
  destruct (shared_entry n center e) as [[dy s]|] eqn:He; [|by apply IH].
  apply shared_entry_Some in He as (Hy & _); [|done]. rewrite fmap_cons. constructor; [|by apply IH].
  intros ([dy' s'] & Heq & ([y' t] & Hin & He')%list_elem_of_omap)%list_elem_of_fmap. simpl in Heq. subst dy'.
  apply shared_entry_Some in He' as (Hy' & _); [|done]. rewrite Forall_forall in Hf. specialize (Hf _ Hin).
  unfold key_lt, ord_cmp, Z_ord in Hf. simpl in *. rewrite Hy, Hy', Z.compare_refl in Hf. done.
Qed.

Lemma low_entries n :
  let low := omap id [ (λ s : SubChunk Context, (0, s)) <$> section_at n (0, 0, 0); (λ s, (1, s)) <$> section_at n (0, 1, 0) ] in
  NoDup (fst <$> low) ∧ ∀ dy s, (dy, s) ∈ low ↔
    (dy = 0 ∧ section_at n (0, 0, 0) = Some s) ∨ (dy = 1 ∧ section_at n (0, 1, 0) = Some s).
Proof using Type.
  destruct (section_at n (0, 0, 0)) as [a|], (section_at n (0, 1, 0)) as [b|]; simpl; (split; [repeat constructor; set_solver|]);
    intros dy s; rewrite ?elem_of_cons, ?elem_of_nil; intuition congruence.
Qed.

Lemma shared_entries n center column :
  i32_ok center = true → bt_sorted column → shared_column n = Some (center, column) →
  NoDup (fst <$> shared_above n) ∧ ∀ dy s, (dy, s) ∈ shared_above n ↔
    (2 ≤ dy ∧ dy * 16 < 2 ^ 31 ∧ listed_above n dy = false ∧
     ∃ center column, shared_column n = Some (center, column) ∧ bt_get (center + dy) column = Some s).
Proof using Type.
  intros Hc Hs Hn.
  assert (Hrange : ∀ e dy s, shared_entry n center e = Some (dy, s) → (saturating_add center 2 <=? fst e) = true).
  { intros e dy s (-> & _ & Hd & _)%shared_entry_Some; [|done]. unfold saturating_add, saturate, i32_ok in *. lia. }
  assert (shared_above n = omap (shared_entry n center) column) as ->.
  { unfold shared_above. rewrite Hn. apply omap_filter_all. intros e [dy s]. apply Hrange. }
  split; [by apply omap_shared_nodup|]. intros dy s. rewrite list_elem_of_omap. split.
  - intros ([y t] & Hin & He). apply shared_entry_Some in He as (Hy & Ht & Hd & Hm & Hl); [|done]. simpl in *. subst t.
    split_and!; [done..|]. exists center, column. split; [done|]. rewrite <-Hy. by apply bt_get_lookup.
  - intros (Hd & Hm & Hl & center' & column' & Hn' & Hg). rewrite Hn in Hn'. injection Hn' as <- <-.
    exists (center + dy, s). split; [by apply bt_get_elem|]. by apply shared_entry_Some.
Qed.

(** However a view is built, its seasonal column lists every vertical offset at most once: the center
    section, the one above it, every explicitly captured higher section, and from the shared column
    every section at least two above whose offset no explicit section takes. *)
Theorem seasonal_column_exact n :
  built n →
  NoDup (fst <$> seasonal_column n) ∧
  ∀ dy s, (dy, s) ∈ seasonal_column n ↔
    (dy = 0 ∧ section_at n (0, 0, 0) = Some s) ∨ (dy = 1 ∧ section_at n (0, 1, 0) = Some s) ∨
    (dy, s) ∈ column_above n ∨
    (2 ≤ dy ∧ dy * 16 < 2 ^ 31 ∧ listed_above n dy = false ∧
     ∃ center column, shared_column n = Some (center, column) ∧ bt_get (center + dy) column = Some s).
Proof using Type.
  intros [H1 H2 H3]%built_above_ok. unfold seasonal_column. set (low := omap id _). 
  assert (Hlow : NoDup (fst <$> low) ∧ ∀ dy s, (dy, s) ∈ low ↔
    (dy = 0 ∧ section_at n (0, 0, 0) = Some s) ∨ (dy = 1 ∧ section_at n (0, 1, 0) = Some s)) by apply low_entries.
  assert (Hshared : NoDup (fst <$> shared_above n) ∧ ∀ dy s, (dy, s) ∈ shared_above n ↔
    (2 ≤ dy ∧ dy * 16 < 2 ^ 31 ∧ listed_above n dy = false ∧
     ∃ center column, shared_column n = Some (center, column) ∧ bt_get (center + dy) column = Some s)).
  { destruct (shared_column n) as [[center column]|] eqn:Hn.
    - destruct (H3 center column eq_refl) as [Hc Hs]. pose proof (shared_entries n center column Hc Hs Hn) as Hx. by rewrite Hn in Hx.
    - unfold shared_above. rewrite Hn. split; [constructor|]. intros dy s. split; [by intros ?%not_elem_of_nil|by intros (_ & _ & _ & ? & ? & ? & _)]. }
  destruct Hlow as [Hl1 Hl2], Hshared as [Hs1 Hs2]. split.
  - rewrite !fmap_app. apply NoDup_app. split_and!; [done| |apply NoDup_app; split_and!; [done| |done]].
    + intros d ([d1 s1] & -> & Hin)%list_elem_of_fmap [([d2 s2] & Heq & Hin')%list_elem_of_fmap|([d2 s2] & Heq & Hin')%list_elem_of_fmap]%elem_of_app;
        simpl in Heq; subst d2; apply Hl2 in Hin.
      * apply H2 in Hin'. simpl in Hin'. lia.
      * apply Hs2 in Hin'. lia.
    + intros d Hin Hin'. apply listed_above_iff in Hin. apply list_elem_of_fmap in Hin' as ([d2 s2] & -> & Hin').
      apply Hs2 in Hin' as (_ & _ & Hin' & _). simpl in Hin. congruence.
  - intros dy s. rewrite !elem_of_app, Hl2, Hs2. tauto.
Qed.
End properties.

(** ** Witnesses *)

Definition lone (id : Z) : SubChunk Z := mk_sub_chunk 9 (Some 0) [uniform id] None.
Definition two_sections (k : SubChunkKey) : option (SubChunk Z) :=
  if decide (k = mk_sub_chunk_key 0 0 0 0) then Some (lone 5)
  else if decide (k = mk_sub_chunk_key 0 0 1 0) then Some (lone 6) else None.
Definition far_section (k : SubChunkKey) : option (SubChunk Z) :=
  if decide (k = mk_sub_chunk_key 0 0 0 0) then Some (lone 5)
  else if decide (k = mk_sub_chunk_key 0 0 1 0) then Some (lone 6)
  else if decide (k = mk_sub_chunk_key 0 0 3 0) then Some (lone 7) else None.

Lemma sample_reads_world_witness :
  let view := capture two_sections (mk_sub_chunk_key 0 0 0 0) (lone 5) in
  let block := world_block two_sections 0 0 (16 * 0 + 3) (16 * 0 + 17) (16 * 0 + 2) in
  sample view 0 (3, 17, 2) = (if decide (in_view 3 ∧ in_view 17 ∧ in_view 2) then block else Open_) ∧
  liquid_sample view 0 (3, 17, 2) =
    (if decide (in_view 3 ∧ in_view 17 ∧ in_view 2 ∧ (3 / 16, 17 / 16, 2 / 16) ∈ LIQUID_SAMPLE_OFFSETS) then block else Open_).
Proof.
  apply (sample_reads_world two_sections (mk_sub_chunk_key 0 0 0 0) (lone 5) 0 3 17 2); [|reflexivity].
  intros k [s Hs]. unfold two_sections in Hs. repeat case_decide; subst; done.
Defined.

(** A section appears three above the mesh, which is no dependent of it. *)
Lemma invalidation_complete_witness :
  let t := mk_sub_chunk_key 0 0 0 0 in let changed := mk_sub_chunk_key 0 0 3 0 in
  (t ∉ mesh_neighbourhood_dependents changed →
   sample (capture two_sections t (lone 5)) 0 (1, 20, 1) = sample (capture far_section t (lone 5)) 0 (1, 20, 1)) ∧
  (t ∉ liquid_mesh_dependents changed →
   liquid_sample (capture two_sections t (lone 5)) 0 (1, 20, 1) = liquid_sample (capture far_section t (lone 5)) 0 (1, 20, 1)).
Proof.
  apply (invalidation_complete two_sections far_section (mk_sub_chunk_key 0 0 3 0) (mk_sub_chunk_key 0 0 0 0));
    [done| |reflexivity|reflexivity].
  intros k Hk. unfold two_sections, far_section. repeat case_decide; congruence.
Defined.

Lemma seasonal_column_exact_witness :
  let n := snd (insert_column_above (neighbourhood_new (lone 5)) 4 (lone 6)) in
  built n ∧ NoDup (fst <$> seasonal_column n) ∧
  ((4, lone 6) ∈ seasonal_column n ↔
    (4 = 0 ∧ section_at n (0, 0, 0) = Some (lone 6)) ∨ (4 = 1 ∧ section_at n (0, 1, 0) = Some (lone 6)) ∨
    (4, lone 6) ∈ column_above n ∨
    (2 ≤ 4 ∧ 4 * 16 < 2 ^ 31 ∧ listed_above n 4 = false ∧
     ∃ center column, shared_column n = Some (center, column) ∧ bt_get (center + 4) column = Some (lone 6))).
Proof.
  assert (built (snd (insert_column_above (neighbourhood_new (lone 5)) 4 (lone 6)))) as Hb by apply built_above, built_new.
  split; [exact Hb|]. destruct (seasonal_column_exact _ Hb) as [H1 H2]. split; [exact H1|apply (H2 4 (lone 6))].
Defined.
