(* ===== verification/Snapshot.v ===== *)
(** * Section snapshots

    [crates/world/src/section_snapshot.rs]: seven inline entries that spill into a hash map, and the
    proof that the pair behaves as one finite map. *)
From stdpp Require Import base numbers list gmap.
From S2P Require Import Prelude Keys.

Definition INLINE_SECTIONS : nat := 7.

Section snapshot.
Context {T : Type}.

(** [inline] is the fixed array; [overflow] takes over once it is full. *)
Record SectionSnapshot := mk_snapshot {
  inline : list (option (SubChunkKey * T));
  overflow : option (gmap SubChunkKey T);
}.

Definition snapshot_default : SectionSnapshot := mk_snapshot (replicate INLINE_SECTIONS None) None.

(** [entry.as_ref().is_none_or(|(old, _)| *old == key)] *)
Definition takes (key : SubChunkKey) (entry : option (SubChunkKey * T)) : bool :=
  match entry with None => true | Some (old, _) => bool_decide (old = key) end.

(** The first entry that takes the key is overwritten. *)
Fixpoint insert_inline (key : SubChunkKey) (v : T) (entries : list (option (SubChunkKey * T)))
    : option (list (option (SubChunkKey * T))) :=
  match entries with
  | [] => None
  | e :: entries =>
      if takes key e then Some (Some (key, v) :: entries)
      else (e ::.) <$> insert_inline key v entries
  end.

(** [HashMap::extend] *)
Definition extend_map (m : gmap SubChunkKey T) (es : list (SubChunkKey * T)) : gmap SubChunkKey T :=
  foldl (λ m e, <[fst e := snd e]> m) m es.

Definition snapshot_insert (s : SectionSnapshot) (key : SubChunkKey) (v : T) : SectionSnapshot :=
  match overflow s with
  | Some m => mk_snapshot (inline s) (Some (<[key := v]> m))
  | None =>
      match insert_inline key v (inline s) with
      | Some entries => mk_snapshot entries None
      | None =>
          let m := extend_map ∅ (omap id (inline s)) in
          mk_snapshot (replicate (length (inline s)) None) (Some (<[key := v]> m))
      end
  end.

Definition holds (key : SubChunkKey) (entry : option (SubChunkKey * T)) : bool :=
  match entry with None => false | Some (old, _) => bool_decide (old = key) end.

(** [entries.rotate_left(1)] *)
Definition rotate_left_1 {A} (l : list A) : list A := match l with [] => [] | a :: l => l ++ [a] end.

Definition snapshot_remove (s : SectionSnapshot) (key : SubChunkKey) : option T * SectionSnapshot :=
  match overflow s with
  | Some m => (m !! key, mk_snapshot (inline s) (Some (delete key m)))
  | None =>
      match list_find (λ e, holds key e = true) (inline s) with
      | Some (index, Some (_, v)) =>
          let entries := <[index := None]> (inline s) in
          (Some v, mk_snapshot (take index entries ++ rotate_left_1 (drop index entries)) None)
      | _ => (None, s)
      end
  end.

Definition snapshot_get (s : SectionSnapshot) (key : SubChunkKey) : option T :=
  match overflow s with
  | Some m => m !! key
  | None => snd <$> List.find (λ e, bool_decide (fst e = key)) (omap id (inline s))
  end.

(** [get_mut] followed by a write through the reference; nothing happens when there is no entry. *)
Fixpoint update_inline (key : SubChunkKey) (f : T → T) (entries : list (option (SubChunkKey * T)))
    : list (option (SubChunkKey * T)) :=
  match entries with
  | [] => []
  | e :: entries =>
      match e with
      | Some (old, v) => if bool_decide (old = key) then Some (old, f v) :: entries else e :: update_inline key f entries
      | None => e :: update_inline key f entries
      end
  end.

Definition snapshot_update (s : SectionSnapshot) (key : SubChunkKey) (f : T → T) : SectionSnapshot :=
  match overflow s with
  | Some m => mk_snapshot (inline s) (Some (alter f key m))
  | None => mk_snapshot (update_inline key f (inline s)) None
  end.

Definition snapshot_contains (s : SectionSnapshot) (key : SubChunkKey) : bool :=
  match snapshot_get s key with Some _ => true | None => false end.

(** The entries in no particular order: a hash map iterates as it likes. *)
Definition snapshot_entries (s : SectionSnapshot) : list (SubChunkKey * T) :=
  omap id (inline s) ++ match overflow s with Some m => map_to_list m | None => [] end.

Definition snapshot_values (s : SectionSnapshot) : list T := snd <$> snapshot_entries s.

Definition snapshot_extend (s : SectionSnapshot) (es : list (SubChunkKey * T)) : SectionSnapshot :=
  foldl (λ s e, snapshot_insert s (fst e) (snd e)) s es.

Definition snapshot_from_entries (es : list (SubChunkKey * T)) : SectionSnapshot := snapshot_extend snapshot_default es.

(** ** One finite map *)

(** The map a snapshot stands for. *)
Definition view (s : SectionSnapshot) : gmap SubChunkKey T :=
  match overflow s with
  | Some m => m
  | None => list_to_map (omap id (inline s))
  end.

(** Occupied entries come first, each key once; a spilled snapshot has no inline entry. *)
Record snapshot_ok (s : SectionSnapshot) : Prop := {
  ok_length : length (inline s) = INLINE_SECTIONS;
  ok_inline : ∃ es n, inline s = (Some <$> es) ++ replicate n None ∧ NoDup (fst <$> es);
  ok_overflow m : overflow s = Some m → omap id (inline s) = [];
}.

Lemma omap_none n : omap id (replicate n (@None (SubChunkKey * T))) = [].
Proof using Type. by induction n. Qed.

Lemma omap_some_none (es : list (SubChunkKey * T)) n : omap id ((Some <$> es) ++ replicate n None) = es.
Proof using Type.
  induction es as [|e es IH]; [apply omap_none|]. rewrite fmap_cons, <-app_comm_cons. cbn [omap list_omap id].
  f_equal. exact IH.
Qed.

Lemma insert_inline_spec key v (es : list (SubChunkKey * T)) n :
  NoDup (fst <$> es) →
  match insert_inline key v ((Some <$> es) ++ replicate n None) with
  | Some entries =>
      ∃ es' n', entries = (Some <$> es') ++ replicate n' None ∧ NoDup (fst <$> es') ∧
        (length es' + n' = length es + n)%nat ∧ list_to_map es' =@{gmap SubChunkKey T} <[key := v]> (list_to_map es)
  | None => n = 0%nat ∧ key ∉ (fst <$> es)
  end.
Proof using Type.
  induction es as [|[k w] es IH]; intros Hnd.
  - simpl. destruct n as [|n]; simpl; [by split; [|apply not_elem_of_nil]|].
    exists [(key, v)], n. split_and!; try done. apply NoDup_singleton.
  - rewrite fmap_cons in Hnd. apply NoDup_cons in Hnd as [Hk Hnd]. simpl. case_bool_decide as Hkk.
    + subst k. exists ((key, v) :: es), n. split_and!; try done; [by constructor|]. simpl. by rewrite insert_insert_eq.
    + specialize (IH Hnd). destruct (insert_inline key v _) as [entries|]; simpl.
      * destruct IH as (es' & n' & -> & Hnd' & Hl & Hm). exists ((k, w) :: es'), n'. split_and!; [done| |simpl; lia|].
        -- rewrite fmap_cons. constructor; [|done]. rewrite (not_elem_of_list_to_map (M := gmap SubChunkKey)) in Hk |- *.
           simpl in *. by rewrite Hm, lookup_insert_ne.
        -- simpl. rewrite Hm. by rewrite insert_insert_ne.
      * destruct IH as [-> Hin]. split; [done|]. rewrite elem_of_cons. intros [->|?]; done.
Qed.

(** [snapshot_ok] with the entries named. *)
Lemma inline_view s es n :
  overflow s = None → inline s = (Some <$> es) ++ replicate n None → view s = list_to_map es ∧ omap id (inline s) = es.
Proof using Type. intros Ho Hi. unfold view. by rewrite Ho, Hi, omap_some_none. Qed.

Lemma extend_map_nodup m es : NoDup (fst <$> es) → extend_map m es = list_to_map es ∪ m.
Proof using Type.
  unfold extend_map. revert m. induction es as [|[k v] es IH]; intros m Hnd; [simpl; by rewrite (left_id_L ∅ (∪))|].
  rewrite fmap_cons in Hnd. apply NoDup_cons in Hnd as [Hk Hnd]. simpl. rewrite IH by done.
  apply (not_elem_of_list_to_map (M := gmap SubChunkKey)) in Hk. simpl in Hk.
  by rewrite <-insert_union_r, insert_union_l by done.
Qed.

Lemma insert_refines s key v :
  snapshot_ok s → snapshot_ok (snapshot_insert s key v) ∧ view (snapshot_insert s key v) = <[key := v]> (view s).
Proof using Type.
  intros [Hl (es & n & Hi & Hnd) Hm]. unfold snapshot_insert, view at 2. destruct (overflow s) as [m|] eqn:Ho.
  { split; [|done]. split; simpl; [done|by exists es, n|]. intros m' _. by eapply Hm. }
  rewrite Hi, omap_some_none. pose proof (insert_inline_spec key v es n Hnd) as Hspec.
  destruct (insert_inline key v ((Some <$> es) ++ replicate n None)) as [entries|].
  - destruct Hspec as (es' & n' & -> & Hnd' & Hlen & Hmap). split.
    + split; simpl; [|by exists es', n'|done]. rewrite <-Hl, Hi, !length_app, !length_fmap, !length_replicate. lia.
    + unfold view. simpl. by rewrite omap_some_none.
  - split.
    + split; simpl; [by rewrite length_replicate, <-Hi| |intros ? _; apply omap_none].
      exists [], (length ((Some <$> es) ++ replicate n None)). split; [done|constructor].
    + unfold view. simpl. by rewrite extend_map_nodup, (right_id_L ∅ (∪)).
Qed.

Lemma get_refines s key : snapshot_ok s → snapshot_get s key = view s !! key.
Proof using Type.
  intros [Hl (es & n & Hi & Hnd) Hm]. unfold snapshot_get, view. destruct (overflow s) as [m|]; [done|].
  rewrite Hi, omap_some_none. clear Hi Hl. induction es as [|[k w] es IH]; [done|].
  rewrite fmap_cons in Hnd. apply NoDup_cons in Hnd as [Hk Hnd]. simpl. case_bool_decide as Hkk; simpl.
  - subst k. by rewrite lookup_insert_eq.
  - rewrite lookup_insert_ne by done. by apply IH.
Qed.

Lemma remove_refines s key :
  snapshot_ok s →
  fst (snapshot_remove s key) = view s !! key ∧ snapshot_ok (snd (snapshot_remove s key)) ∧
  view (snd (snapshot_remove s key)) = delete key (view s).
Proof using Type.
  intros Hok. pose proof Hok as [Hl (es & n & Hi & Hnd) Hm]. unfold snapshot_remove.
  destruct (overflow s) as [m|] eqn:Ho.
  { unfold view. rewrite Ho. simpl. split; [done|]. split; [|done]. split; simpl; [done|by exists es, n|]. intros m' _. by eapply Hm. }
  destruct (inline_view s es n Ho Hi) as [Hv _]. rewrite Hv.
  destruct (list_find _ (inline s)) as [[i [[k v]|]]|] eqn:Hf.
  - apply list_find_Some in Hf as (Hlook & Hholds & _). apply bool_decide_eq_true_1 in Hholds. subst k.
    assert (Hes : es !! i = Some (key, v)).
    { rewrite Hi in Hlook. apply lookup_app_Some in Hlook as [Hlook|[_ Hlook]].
      - rewrite list_lookup_fmap in Hlook. destruct (es !! i); simpl in Hlook; congruence.
      - apply lookup_replicate in Hlook as [? _]. done. }
    pose proof (list_elem_of_split_length _ _ _ Hes) as (e1 & e2 & -> & Hlen). cbn [fst snd].
    assert (Hent : take i (<[i:=None]> (inline s)) ++ rotate_left_1 (drop i (<[i:=None]> (inline s)))
      = (Some <$> (e1 ++ e2)) ++ replicate (S n) None).
    { rewrite Hi, fmap_app, fmap_cons. subst i. rewrite <-app_assoc.
      rewrite insert_app_r_alt by (rewrite length_fmap; lia). rewrite length_fmap, Nat.sub_diag. simpl.
      rewrite take_app_length', drop_app_length' by by rewrite length_fmap. simpl.
      rewrite fmap_app, <-!app_assoc. do 2 f_equal. change (None :: replicate n None) with (replicate (S n) (@None (SubChunkKey * T))).
      rewrite <-replicate_S_end. done. }
    rewrite Hent. rewrite fmap_app, fmap_cons in Hnd. apply NoDup_app in Hnd as (Hn1 & Hd & Hn2).
    apply NoDup_cons in Hn2 as [Hk2 Hn2]. simpl in *.
    assert (Hk1 : key ∉ (fst <$> e1)) by (intros Hin; apply (Hd _ Hin); by left).
    apply (not_elem_of_list_to_map (M := gmap SubChunkKey)) in Hk1, Hk2.
    split_and!.
    + rewrite list_to_map_app, lookup_union, Hk1. simpl. by rewrite lookup_insert_eq.
    + split; simpl; [| |done].
      * rewrite !length_app, !length_fmap, !length_app, length_cons, length_replicate in *.
        rewrite Hi, !length_app, !length_fmap, length_app, length_cons, length_replicate in Hl. lia.
      * exists (e1 ++ e2), (S n). split; [done|]. rewrite fmap_app. apply NoDup_app. split_and!; [done| |done].
        intros k Hk ?. apply (Hd _ Hk). by right.
    + unfold view. simpl. change (None :: replicate n None) with (replicate (S n) (@None (SubChunkKey * T))).
      rewrite omap_some_none, !list_to_map_app, delete_union, delete_id by done. simpl.
      by rewrite delete_insert_id.
  - apply list_find_Some in Hf as (_ & Hh & _). done.
  - apply list_find_None in Hf. rewrite Forall_forall in Hf.
    assert (Hnone : list_to_map (M := gmap SubChunkKey T) es !! key = None).
    { apply not_elem_of_list_to_map. intros ([k v] & -> & Hin)%list_elem_of_fmap. apply (Hf (Some (k, v))).
      - rewrite Hi. apply elem_of_app. left. by apply list_elem_of_fmap_2.
      - simpl. by apply bool_decide_eq_true_2. }
    simpl. rewrite Hnone. split; [done|]. split; [done|]. by rewrite Hv, delete_id.
Qed.

Lemma update_inline_spec key f (es : list (SubChunkKey * T)) n :
  NoDup (fst <$> es) →
  ∃ es', update_inline key f ((Some <$> es) ++ replicate n None) = (Some <$> es') ++ replicate n None ∧
    fst <$> es' = fst <$> es ∧ list_to_map es' =@{gmap SubChunkKey T} alter f key (list_to_map es).
Proof using Type.
  induction es as [|[k v] es IH]; intros Hnd.
  - exists []. simpl. split_and!; [|done|by rewrite alter_empty]. induction n as [|n IH]; [done|]. simpl. by f_equal.
  - rewrite fmap_cons in Hnd. apply NoDup_cons in Hnd as [Hk Hnd]. rewrite fmap_cons, <-app_comm_cons. cbn [update_inline].
    case_bool_decide as Hkk.
    + subst k. exists ((key, f v) :: es). split_and!; [done|done|]. simpl. by rewrite alter_insert_eq.
    + destruct (IH Hnd) as (es' & -> & Hfst & Hmap). exists ((k, v) :: es'). split_and!; [done|by rewrite !fmap_cons, Hfst|].
      simpl. by rewrite Hmap, alter_insert_ne.
Qed.

Lemma update_refines s key f :
  snapshot_ok s → snapshot_ok (snapshot_update s key f) ∧ view (snapshot_update s key f) = alter f key (view s).
Proof using Type.
  intros [Hl (es & n & Hi & Hnd) Hm]. unfold snapshot_update, view at 2. destruct (overflow s) as [m|] eqn:Ho.
  { split; [|done]. split; simpl; [done|by exists es, n|]. intros m' _. by eapply Hm. }
  destruct (update_inline_spec key f es n Hnd) as (es' & Hup & Hfst & Hmap). rewrite Hi, Hup, omap_some_none. split.
  - split; simpl; [|exists es', n; by rewrite Hfst|done].
    rewrite <-Hl, Hi, !length_app, !length_fmap. apply (f_equal length) in Hfst. rewrite !length_fmap in Hfst. lia.
  - unfold view. simpl. by rewrite omap_some_none.
Qed.

Lemma entries_refine s :
  snapshot_ok s → NoDup (fst <$> snapshot_entries s) ∧ ∀ k v, (k, v) ∈ snapshot_entries s ↔ view s !! k = Some v.
Proof using Type.
  intros [Hl (es & n & Hi & Hnd) Hm]. unfold snapshot_entries, view. destruct (overflow s) as [m|] eqn:Ho.
  - rewrite (Hm m eq_refl). simpl. split; [apply NoDup_fst_map_to_list|]. intros k v. apply elem_of_map_to_list.
  - rewrite Hi, omap_some_none, app_nil_r. split; [done|]. intros k v. by apply elem_of_list_to_map.
Qed.

Lemma default_ok : snapshot_ok snapshot_default ∧ view snapshot_default = ∅.
Proof using Type.
  split; [|unfold view; cbn [overflow snapshot_default inline]; by rewrite omap_none].
  split; [done| |done]. exists [], INLINE_SECTIONS. split; [done|constructor].
Qed.

(** ** Traces *)

Inductive SnapshotOp :=
  | OpInsert (key : SubChunkKey) (v : T)
  | OpRemove (key : SubChunkKey)
  | OpGet (key : SubChunkKey)
  | OpUpdate (key : SubChunkKey) (f : T → T).

(** What a call returns, and the state after it; on the snapshot and on a plain map. *)
Definition run_op (s : SectionSnapshot) (op : SnapshotOp) : option T * SectionSnapshot :=
  match op with
  | OpInsert k v => (None, snapshot_insert s k v)
  | OpRemove k => snapshot_remove s k
  | OpGet k => (snapshot_get s k, s)
  | OpUpdate k f => (snapshot_get s k, snapshot_update s k f)
  end.
Definition map_op (m : gmap SubChunkKey T) (op : SnapshotOp) : option T * gmap SubChunkKey T :=
  match op with
  | OpInsert k v => (None, <[k := v]> m)
  | OpRemove k => (m !! k, delete k m)
  | OpGet k => (m !! k, m)
  | OpUpdate k f => (m !! k, alter f k m)
  end.

Fixpoint trace {S} (step : S → SnapshotOp → option T * S) (s : S) (ops : list SnapshotOp) : list (option T) * S :=
  match ops with
  | [] => ([], s)
  | op :: ops =>
      let '(r, s) := step s op in let '(rs, s) := trace step s ops in (r :: rs, s)
  end.

Lemma op_refines s op :
  snapshot_ok s → fst (run_op s op) = fst (map_op (view s) op) ∧ snapshot_ok (snd (run_op s op)) ∧
  view (snd (run_op s op)) = snd (map_op (view s) op).
Proof using Type.
  intros Hok. destruct op as [k v|k|k|k f]; cbn [run_op map_op fst snd].
  - by destruct (insert_refines s k v Hok).
  - by apply remove_refines.
  - by rewrite get_refines.
  - rewrite get_refines by done. by destruct (update_refines s k f Hok).
Qed.

Lemma trace_refines s ops :
  snapshot_ok s → fst (trace run_op s ops) = fst (trace map_op (view s) ops) ∧ snapshot_ok (snd (trace run_op s ops)) ∧
  view (snd (trace run_op s ops)) = snd (trace map_op (view s) ops).
Proof using Type.
  revert s. induction ops as [|op ops IH]; intros s Hok; [done|]. simpl.
  destruct (op_refines s op Hok) as (H1 & H2 & H3). destruct (run_op s op) as [r s1]. destruct (map_op (view s) op) as [r' m1].
  simpl in *. subst r' m1. specialize (IH s1 H2). destruct (trace run_op s1 ops), (trace map_op (view s1) ops).
  simpl in *. destruct IH as (-> & ? & ?). done.
Qed.

(** A section snapshot is a finite map: any sequence of insertions, removals, reads and updates from
    an empty snapshot returns what the same sequence returns on a map, whether or not the inline
    entries spill, and iterating afterwards visits every key of that map once with its value. *)
Theorem snapshot_refines_map ops :
  let '(results, s) := trace run_op snapshot_default ops in
  let '(expected, m) := trace map_op ∅ ops in
  results = expected ∧ NoDup (fst <$> snapshot_entries s) ∧
  (∀ k v, (k, v) ∈ snapshot_entries s ↔ m !! k = Some v) ∧ ∀ k, snapshot_contains s k = bool_decide (is_Some (m !! k)).
Proof using Type.
  destruct default_ok as [Hok Hview]. pose proof (trace_refines snapshot_default ops Hok) as H. rewrite Hview in H.
  destruct (trace run_op snapshot_default ops) as [rs s]. destruct (trace map_op ∅ ops) as [rs' m]. simpl in H.
  destruct H as (-> & Hs & <-). split; [done|]. destruct (entries_refine s Hs) as [Hnd Hin]. split; [done|]. split; [done|].
  intros k. unfold snapshot_contains. rewrite get_refines by done. destruct (view s !! k).
  - by rewrite bool_decide_eq_true_2.
  - by rewrite bool_decide_eq_false_2 by by intros [? ?].
Qed.
End snapshot.
