(* ===== verification/LevelChunk.v ===== *)
(** * Level chunks

    [crates/world/src/store/level_chunk.rs]: the column a worker decodes from one inline payload, slot
    by slot, reusing resident sections whose wire bytes are unchanged. [None] stands for a panic. *)
From stdpp Require Import base numbers list gmap.
From S2P Require Import Prelude Packed Palette Bytes NbtTree NbtScan Keys Wire SubChunk Biome Entities.
#[local] Open Scope Z_scope.

Definition SLOT_INDEX_MASK : Z := 255.

Record DimensionSlots := mk_slots { slots_base : Z; slots_count : Z }.

Definition slot_y (slots : DimensionSlots) (slot : Z) : Z :=
  saturating_add (slots_base slots) (default (2 ^ 31 - 1) (checked_i32 slot)).

Record InlineDecodeWork := mk_work { decoded_sections : Z; reused_sections : Z }.

Section decode.
Context (sha256 : bytes → bytes) {Context : Type} (ids : BlockIds Context).

Record DecodedLevelChunk := mk_level_chunk {
  lc_sub_chunks : gmap Z (SubChunk Context);
  lc_biomes : option DecodedBiomeColumn;
  lc_block_entities : option DecodedBlockEntities;
  lc_block_bytes_consumed : Z;
  lc_bytes_consumed : Z;
  lc_work : InlineDecodeWork;
}.

(** The locals of [read_sub_chunks]. *)
Record slots_state := mk_slots_state {
  ss_reader : Reader;
  ss_sections : gmap Z (SubChunk Context);
  ss_work : InlineDecodeWork;
}.

(** The input ended before [index]: every remaining read empties its slot. *)
Definition clear_slots (slots : DimensionSlots) (index remaining : Z) (m : gmap Z (SubChunk Context)) : gmap Z (SubChunk Context) :=
  foldl (λ m offset,
    let slot := Z.land (index + offset) SLOT_INDEX_MASK in
    if slot <? slots_count slots then delete (slot_y slots slot) m else m)
    m (seqZ 0 (Z.min remaining (SLOT_INDEX_MASK + 1))).

(** A section that stays in its slot: its Y byte agrees and it has layers. *)
Definition keeps_slot (y : Z) (s : SubChunk Context) : bool :=
  negb (match y_index s with Some actual => negb (actual =? y) | None => false end || has_no_storages s).

(** A section the decoder reads for the slot at [y]. *)
Definition decode_slot_section (y : Z) (r : Reader) (st : slots_state) : option slots_state :=
  let '(section, r) := read_inline sha256 ids (inline_cache_context ids) r in
  section ← section;
  Some (mk_slots_state r
          (if keeps_slot y section then <[y := section]> (ss_sections st) else delete y (ss_sections st))
          (mk_work (decoded_sections (ss_work st) + 1) (reused_sections (ss_work st)))).

(** One read: a resident section that may be reused, else the decoder. *)
Definition read_slot_section (resident : option (SubChunk Context)) (y : Z) (st : slots_state) : option slots_state :=
  match resident with
  | Some resident =>
      let '(hit, r) := reuse_inline sha256 ids resident y (ss_reader st) in
      if (hit : bool) then
        Some (mk_slots_state r (<[y := resident]> (ss_sections st))
                (mk_work (decoded_sections (ss_work st)) (reused_sections (ss_work st) + 1)))
      else decode_slot_section y r st
  | None => decode_slot_section y (ss_reader st) st
  end.

(** [for index in 0..sub_chunk_count], with [n] turns left. *)
Fixpoint slots_loop (slots : DimensionSlots) (previous : option (gmap Z (SubChunk Context))) (index : Z) (n : nat)
    (st : slots_state) : option slots_state :=
  match n with
  | O => Some st
  | S n' =>
      if is_at_end (ss_reader st) then
        Some (mk_slots_state (ss_reader st) (clear_slots slots index (Z.of_nat n) (ss_sections st)) (ss_work st))
      else
        let slot := Z.land index SLOT_INDEX_MASK in
        if slots_count slots <=? slot then slots_loop slots previous (index + 1) n' st
        else
          let y := slot_y slots slot in
          st ← read_slot_section (previous ≫= λ m, m !! y) y st;
          slots_loop slots previous (index + 1) n' st
  end.

Definition read_sub_chunks (slots : DimensionSlots) (sub_chunk_count : nat) (previous : option (gmap Z (SubChunk Context)))
    (r : Reader) : option slots_state :=
  let st := mk_slots_state r ∅ (mk_work 0 0) in
  if slots_count slots =? 0 then Some st else slots_loop slots previous 0 sub_chunk_count st.

Definition level_chunk_decode (first_sub_chunk_y : Z) (sub_chunk_count : nat) (payload : bytes) : option DecodedLevelChunk :=
  st ← read_sub_chunks (mk_slots first_sub_chunk_y (Z.of_nat sub_chunk_count)) sub_chunk_count None (reader_new payload);
  let position := r_position (ss_reader st) in
  Some (mk_level_chunk (ss_sections st) None None position position (ss_work st)).

(** [decode_column_tail]: biomes, border blocks and block entities. *)
Definition decode_column_tail (chunk : ChunkKey) (slots : DimensionSlots) (payload : bytes) (biomes : BiomeIds)
    : option (DecodedBiomeColumn * DecodedBlockEntities) :=
  column ← column_decode biomes (slots_base slots) (Z.to_nat (slots_count slots)) payload;
  Some (column,
        decode_level_chunk_tail sha256 chunk
          (saturating_mul (slots_base slots) 16) (saturating_mul (slot_y slots (slots_count slots)) 16)
          (drop (Z.to_nat (column_consumed column)) payload)).

Definition decode_inline_reusing (chunk : ChunkKey) (slots : DimensionSlots) (sub_chunk_count : nat) (payload : bytes)
    (biomes : BiomeIds) (previous : option (gmap Z (SubChunk Context))) : option DecodedLevelChunk :=
  st ← read_sub_chunks slots sub_chunk_count previous (reader_new payload);
  '(column, block_entities) ← decode_column_tail chunk slots (remaining (ss_reader st)) biomes;
  Some (mk_level_chunk (ss_sections st) (Some column) (Some block_entities)
          (r_position (ss_reader st)) (Z.of_nat (length payload)) (ss_work st)).

Definition decode_inline (chunk : ChunkKey) (slots : DimensionSlots) (sub_chunk_count : nat) (payload : bytes)
    (biomes : BiomeIds) : option DecodedLevelChunk :=
  decode_inline_reusing chunk slots sub_chunk_count payload biomes None.
End decode.
Arguments DecodedLevelChunk : clear implicits.
Arguments slots_state : clear implicits.
