(* ===== verification/LevelChunkSpec.v ===== *)
(** * What level-chunk decoding guarantees

    A decode never panics, and reusing resident sections changes nothing but the work done: the same
    columns, byte positions and blocks come out, whenever the residents' wire identities are genuine
    and no two of the byte strings compared collide under the hash. *)
From stdpp Require Import base numbers list gmap fin_maps.
From S2P Require Import Prelude Packed Palette PaletteSpec PaletteTheorems Bytes NbtTree NbtScan Keys Wire SubChunk SubChunkSpec.
From S2P Require Import Biome Entities EntityTheorems LevelChunk.
#[local] Open Scope Z_scope.

(** ** Equal blocks and genuine identities *)

Section spec.
Context (sha256 : bytes → bytes) {Context : Type}.
(** The id tables the client decodes with. *)
Context (registry : BlockIds Context → Prop).
Implicit Types (s t : SubChunk Context) (ids : BlockIds Context).

(** The same layers with the same block in every cell. *)
Definition same_blocks s t : Prop :=
  length (storages s) = length (storages t) ∧
  ∀ layer a b i, storages s !! layer = Some a → storages t !! layer = Some b →
    (i < BLOCKS_PER_SUB_CHUNK)%nat → cell_value a i = cell_value b i.

#[global] Instance same_blocks_equiv : Equivalence same_blocks.
Proof using Type.
  split.
  - intros s. split; [done|]. intros layer a b i -> [= ->]. done.
  - intros s t [Hl Hc]. split; [done|]. intros layer a b i Ha Hb Hi. symmetry. by eapply Hc.
  - intros s t u [Hl1 H1] [Hl2 H2]. split; [congruence|]. intros layer a b i Ha Hb Hi.
    destruct (lookup_lt_is_Some_2 (storages t) layer) as [c Hc]; [rewrite <-Hl1; by eapply lookup_lt_Some|].
    rewrite (H1 layer a c i), (H2 layer c b i); done.
Qed.

Lemma same_blocks_storages s t : storages s = storages t → same_blocks s t.
Proof using Type. intros Hs. split; [by rewrite Hs|]. intros layer a b i. rewrite Hs. by intros -> [= ->]. Qed.

Lemma same_blocks_empty s t : same_blocks s t → has_no_storages s = has_no_storages t.
Proof using Type.
  intros [Hl _]. unfold has_no_storages. apply bool_decide_ext. by rewrite <-!length_zero_iff_nil, Hl.
Qed.

(** The wire identity a section holds stands for the bytes [wire]: every decoder with a matching context
    reads from them a section with these blocks, and stops where they end. *)
Record identity_for s (p : InlinePayload Context) (wire : bytes) : Prop := {
  id_layers : storages s ≠ [];
  id_length : il_length p = Z.of_nat (length wire);
  id_hash : il_hash p = sha256 wire;
  id_reads ids pos ext f : registry ids → inline_cache_context_matches ids (il_context p) = true →
    ∃ fresh, sub_chunk_read sha256 ids (mk_reader pos (wire ++ ext) f) = (Some fresh, mk_reader (pos + il_length p) ext f) ∧
      y_index fresh = il_y_index p ∧ same_blocks fresh s;
}.

Definition identity_ok (known : bytes → Prop) s : Prop :=
  ∀ p, inline_payload s = Some p → ∃ wire, known wire ∧ identity_for s p wire.

(** No two of the byte strings at hand collide. *)
Definition collision_free (known : bytes → Prop) : Prop :=
  ∀ a b, known a → known b → sha256 a = sha256 b → a = b.

Definition segment_of (payload segment : bytes) : Prop := ∃ before after, payload = before ++ segment ++ after.

(** What publishing and matching a context promises of the client's tables. *)
Definition contexts_agree : Prop := ∀ ids ids' context, registry ids → registry ids' →
  inline_cache_context ids = Some context → inline_cache_context_matches ids' context = true → ContextContract ids ids'.

(** ** Reading and reusing a section *)

Lemma read_inline_spec ids context r :
  Forall is_byte (remaining r) →
  ∃ section r', read_inline sha256 ids context r = (Some section, r') ∧ advances r r' ∧
    Forall storage_ok (storages section) ∧
    (∃ fresh, sub_chunk_read sha256 ids r = (Some fresh, r') ∧
       y_index section = y_index fresh ∧ storages section = storages fresh) ∧
    (inline_payload section ≠ None → failed_read r' = false).
Proof using Type.
  intros Hb. unfold read_inline. destruct (sub_chunk_read sha256 ids r) as [o r'] eqn:E.
  destruct (sub_chunk_read_ok sha256 ids r o r' Hb E) as (fresh & -> & Hok & _ & Hnone).
  apply stable_sub_chunk_read in E as [Ha _]. cbn [mbind option_bind]. eexists _, r'. split; [done|]. split; [done|].
  destruct context as [context|]; [destruct (_ && _) eqn:Hif|]; cbn [storages y_index inline_payload].
  - split; [done|]. split; [by exists fresh|]. intros _. by apply andb_prop in Hif as [?%negb_true_iff _].
  - split; [done|]. split; [by exists fresh|]. by rewrite Hnone.
  - split; [done|]. split; [by exists fresh|]. by rewrite Hnone.
Qed.

(** A section publishes a genuine identity, for a segment of the input. *)
Lemma read_inline_identity ids r section r' p :
  contexts_agree → registry ids → Forall is_byte (remaining r) →
  read_inline sha256 ids (inline_cache_context ids) r = (Some section, r') → inline_payload section = Some p →
  ∃ wire, remaining r = wire ++ remaining r' ∧ identity_for section p wire.
Proof using Type.
  intros Hagree Hids Hb Hread Hp. unfold read_inline in Hread.
  destruct (sub_chunk_read sha256 ids r) as [o r3] eqn:Hr.
  destruct (sub_chunk_read_ok sha256 ids r o r3 Hb Hr) as (sec & -> & _ & _ & Hnone).
  destruct (stable_sub_chunk_read sha256 ids _ _ _ Hr) as [[_ (wire & Hw & Hpos)] Hst].
  cbn [mbind option_bind] in Hread. injection Hread as Hsec <-. exists wire. split; [done|].
  destruct (inline_cache_context ids) as [context|] eqn:Hctx; [|congruence].
  destruct (negb (failed_read r3) && negb (bool_decide (storages sec = []))) eqn:Hcond; subst section; [|congruence].
  apply andb_prop in Hcond as [Hfail%negb_true_iff Hlayers%negb_true_iff%bool_decide_eq_false_1].
  simpl in Hp. injection Hp as <-. replace (r_position r3 - r_position r) with (Z.of_nat (length wire)) by lia. split.
  - done.
  - done.
  - simpl. by rewrite Nat2Z.id, Hw, take_app_length.
  - cbn [il_context il_length il_y_index storages]. intros ids' pos ext f Hids' Hm.
    pose proof (Hagree _ _ _ Hids Hids' Hctx Hm) as Hcontract.
    exists sec. split; [|split; [done|by apply same_blocks_storages]].
    rewrite <-(sub_chunk_read_contract sha256 ids ids'). by rewrite (Hst Hfail wire Hw).
Qed.

(** Reusing a resident with a genuine identity stands for decoding. *)
Lemma reuse_inline_spec known ids s y r :
  registry ids → identity_ok known s → collision_free (λ b, known b ∨ segment_of (remaining r) b) →
  match reuse_inline sha256 ids s y r with
  | (true, r') =>
      ∃ fresh, sub_chunk_read sha256 ids r = (Some fresh, r') ∧ keeps_slot y fresh = true ∧ same_blocks fresh s
  | (false, r') => r' = r
  end.
Proof using Type.
  intros Hids Hid Hfree. unfold reuse_inline. destruct (inline_payload s) as [p|] eqn:Hp; [|done].
  destruct (Hid p Hp) as (wire & Hknown & [Hlayers Hlen Hhash Hreads]).
  destruct (_ || _) eqn:Hor; [done|]. apply orb_false_iff in Hor as [Hy Hm%negb_false_iff].
  destruct (Z.ltb_spec (Z.of_nat (length (remaining r))) (il_length p)) as [|Hge]; [done|].
  destruct (negb _) eqn:Hneq; [done|]. apply negb_false_iff, bool_decide_eq_true_1 in Hneq.
  rewrite Hlen, Nat2Z.id in Hneq. rewrite Hhash in Hneq.
  assert (take (length wire) (remaining r) = wire) as Hw.
  { apply Hfree; [right|by left|done]. exists [], (drop (length wire) (remaining r)). simpl. by rewrite take_drop. }
  assert (remaining r = wire ++ drop (length wire) (remaining r)) as Hsplit by (rewrite <-(take_drop (length wire) (remaining r)) at 1; by rewrite Hw).
  destruct r as [pos l f]. cbn [remaining] in *. unfold read_exact. cbn [remaining r_position failed_read].
  destruct (Z.ltb_spec (Z.of_nat (length l)) (il_length p)); [lia|].
  destruct (Hreads ids pos (drop (length wire) l) f Hids Hm) as (fresh & Hf & Hyf & Hsame). exists fresh.
  rewrite <-Hsplit in Hf. rewrite Hf. cbn [snd]. rewrite Hlen, Nat2Z.id. split; [done|]. split; [|done].
  unfold keeps_slot. rewrite Hyf, Hy, (same_blocks_empty _ _ Hsame). unfold has_no_storages.
  by rewrite bool_decide_eq_false_2.
Qed.

(** ** The section loop *)

Lemma identity_ok_mono (known known' : bytes → Prop) s :
  (∀ b, known b → known' b) → identity_ok known s → identity_ok known' s.
Proof using Type. intros Hk Hs p Hp. destruct (Hs p Hp) as (wire & ? & ?). exists wire. auto. Qed.

(** What the decoder keeps of a section, and what it asks of a resident one. *)
Definition section_ok (known : bytes → Prop) s : Prop :=
  Forall storage_ok (storages s) ∧ storages s ≠ [] ∧ identity_ok known s.

Definition slot_of (slots : DimensionSlots) (y : Z) : Prop :=
  ∃ slot, 0 ≤ slot ≤ SLOT_INDEX_MASK ∧ slot < slots_count slots ∧ y = slot_y slots slot.

(** The same columns, by section. *)
Definition same_sections (m m' : gmap Z (SubChunk Context)) : Prop :=
  ∀ y, option_Forall2 same_blocks (m !! y) (m' !! y).

Section loop.
Context (known : bytes → Prop) (ids : BlockIds Context) (slots : DimensionSlots) (payload : bytes).
Context (Hagree : contexts_agree) (Hids : registry ids) (Hbytes : Forall is_byte payload).
Context (Hsegments : ∀ b, segment_of payload b → known b) (Hfree : collision_free known).

(** A loop state that has read [payload] up to its reader, and the one of a decoder without residents. *)
Record loop_related (st st' : slots_state Context) : Prop := {
  lr_reader : ss_reader st = ss_reader st';
  lr_read : ∃ before, payload = before ++ remaining (ss_reader st) ∧ r_position (ss_reader st) = Z.of_nat (length before);
  lr_same : same_sections (ss_sections st) (ss_sections st');
  lr_ok : map_Forall (λ y s, section_ok known s ∧ slot_of slots y) (ss_sections st);
  lr_work : decoded_sections (ss_work st) + reused_sections (ss_work st) = decoded_sections (ss_work st');
  lr_none : reused_sections (ss_work st') = 0;
}.

Lemma same_sections_insert m m' y s s' :
  same_sections m m' → same_blocks s s' → same_sections (<[y := s]> m) (<[y := s']> m').
Proof using Type.
  intros Hm Hs y'. destruct (decide (y = y')) as [Hy|Hne]; [subst y'; rewrite !lookup_insert_eq; by constructor|].
  by rewrite !lookup_insert_ne.
Qed.

Lemma same_sections_delete m m' y : same_sections m m' → same_sections (delete y m) (delete y m').
Proof using Type.
  intros Hm y'. destruct (decide (y = y')) as [Hy|Hne]; [subst y'; rewrite !lookup_delete_eq; by constructor|].
  by rewrite !lookup_delete_ne.
Qed.

Lemma loop_bytes st st' : loop_related st st' → Forall is_byte (remaining (ss_reader st)).
Proof using Hbytes. intros H. destruct (lr_read _ _ H) as (before & Hp & _). rewrite Hp in Hbytes. by apply Forall_app in Hbytes as [_ ?]. Qed.

Lemma loop_segment st st' b : loop_related st st' → segment_of (remaining (ss_reader st)) b → known b.
Proof using Hsegments.
  intros H (before & after & Hb). destruct (lr_read _ _ H) as (prefix & Hp & _). apply Hsegments.
  exists (prefix ++ before), after. by rewrite Hp, Hb, app_assoc.
Qed.

Lemma loop_advance st st' r :
  loop_related st st' → advances (ss_reader st) r →
  ∃ before, payload = before ++ remaining r ∧ r_position r = Z.of_nat (length before).
Proof using Type.
  intros H [_ (p & Hp & Hpos)]. destruct (lr_read _ _ H) as (before & Hb & Hpb). exists (before ++ p).
  rewrite <-app_assoc, <-Hp, length_app. split; [done|lia].
Qed.

Lemma keeps_slot_layers y s : keeps_slot y s = true → storages s ≠ [].
Proof using Type. unfold keeps_slot, has_no_storages. rewrite negb_true_iff, orb_false_iff, bool_decide_eq_false. by intros [_ ?]. Qed.

Lemma keeps_slot_ext y s t : y_index s = y_index t → storages s = storages t → keeps_slot y s = keeps_slot y t.
Proof using Type. intros Hy Hs. unfold keeps_slot, has_no_storages. by rewrite Hy, Hs. Qed.

(** Two decoders read the same section from the same input. *)
Lemma decode_slot_related y st st' :
  loop_related st st' → slot_of slots y →
  ∃ u u', decode_slot_section sha256 ids y (ss_reader st) st = Some u ∧
    decode_slot_section sha256 ids y (ss_reader st') st' = Some u' ∧ loop_related u u'.
Proof using Hagree Hids Hbytes Hsegments.
  intros H Hy. unfold decode_slot_section. rewrite <-(lr_reader _ _ H).
  destruct (read_inline_spec ids (inline_cache_context ids) (ss_reader st) (loop_bytes _ _ H))
    as (section & r & Hread & Ha & Hok & _). rewrite Hread. cbn [mbind option_bind].
  do 2 eexists. split; [done|]. split; [done|].
  assert (∃ before, payload = before ++ remaining r ∧ r_position r = Z.of_nat (length before)) as Hb by by eapply loop_advance.
  destruct (keeps_slot y section) eqn:Hkeep; (split; [done|done|..]; cbn [ss_sections ss_work decoded_sections reused_sections]).
  - apply same_sections_insert; [apply (lr_same _ _ H)|done].
  - apply map_Forall_insert_2; [|apply (lr_ok _ _ H)]. split; [|done].
    split; [done|]. split; [by eapply keeps_slot_layers|]. intros p Hp.
    destruct (read_inline_identity ids _ section r p Hagree Hids (loop_bytes _ _ H) Hread Hp) as (wire & Hw & Hid).
    exists wire. split; [|done]. eapply loop_segment; [exact H|]. by exists [], (remaining r).
  - rewrite <-(lr_work _ _ H). lia.
  - apply (lr_none _ _ H).
  - by apply same_sections_delete, (lr_same _ _ H).
  - apply map_Forall_delete, (lr_ok _ _ H).
  - rewrite <-(lr_work _ _ H). lia.
  - apply (lr_none _ _ H).
Qed.
(** A resident that is reused stands for the section the other decoder reads. *)
Lemma read_slot_related resident y st st' :
  loop_related st st' → slot_of slots y → (∀ s, resident = Some s → section_ok known s) →
  ∃ u u', read_slot_section sha256 ids resident y st = Some u ∧
    read_slot_section sha256 ids None y st' = Some u' ∧ loop_related u u'.
Proof using Hagree Hids Hbytes Hsegments Hfree.
  intros H Hy Hres. unfold read_slot_section. destruct resident as [s|]; [|by apply decode_slot_related].
  destruct (Hres s eq_refl) as (Hok & Hlayers & Hid).
  assert (collision_free (λ b, known b ∨ segment_of (remaining (ss_reader st)) b)) as Hfree'.
  { intros a b [Ha|Ha] [Hb|Hb]; apply Hfree; try done; by eapply loop_segment. }
  pose proof (reuse_inline_spec known ids s y (ss_reader st) Hids Hid Hfree') as Hreuse.
  destruct (reuse_inline sha256 ids s y (ss_reader st)) as [[|] r] eqn:E; [|subst r; by apply decode_slot_related].
  destruct Hreuse as (fresh & Hfresh & Hkeep & Hsame). unfold decode_slot_section. rewrite <-(lr_reader _ _ H).
  destruct (read_inline_spec ids (inline_cache_context ids) (ss_reader st) (loop_bytes _ _ H))
    as (section & r' & Hread & Ha & _ & (fresh' & Hfresh' & Hyi & Hst) & _).
  rewrite Hfresh in Hfresh'. injection Hfresh' as <- <-. rewrite Hread. cbn [mbind option_bind].
  rewrite (keeps_slot_ext y section fresh Hyi Hst), Hkeep. do 2 eexists. split; [done|]. split; [done|].
  split; cbn [ss_reader ss_sections ss_work decoded_sections reused_sections].
  - done.
  - by eapply loop_advance.
  - apply same_sections_insert; [apply (lr_same _ _ H)|]. rewrite <-Hsame. symmetry. by apply same_blocks_storages.
  - apply map_Forall_insert_2; [|apply (lr_ok _ _ H)]. done.
  - rewrite <-(lr_work _ _ H). lia.
  - apply (lr_none _ _ H).
Qed.

Lemma clear_slots_related index remaining m m' :
  same_sections m m' → same_sections (clear_slots slots index remaining m) (clear_slots slots index remaining m').
Proof using Type.
  unfold clear_slots. generalize (seqZ 0 (Z.min remaining (SLOT_INDEX_MASK + 1))). intros l. revert m m'.
  induction l as [|offset l IH]; intros m m' Hm; [done|]. simpl. apply IH.
  destruct (_ <? _); [by apply same_sections_delete|done].
Qed.

Lemma clear_slots_forall (P : Z → SubChunk Context → Prop) index remaining m :
  map_Forall P m → map_Forall P (clear_slots slots index remaining m).
Proof using Type.
  unfold clear_slots. generalize (seqZ 0 (Z.min remaining (SLOT_INDEX_MASK + 1))). intros l. revert m.
  induction l as [|offset l IH]; intros m Hm; [done|]. simpl. apply IH.
  destruct (_ <? _); [by apply map_Forall_delete|done].
Qed.

Lemma slot_index_range index : 0 ≤ Z.land index SLOT_INDEX_MASK ≤ SLOT_INDEX_MASK.
Proof using Type. unfold SLOT_INDEX_MASK. change 255 with (Z.ones 8). rewrite Z.land_ones by lia. change (Z.ones 8) with 255. pose proof (Z.mod_pos_bound index (2 ^ 8)). lia. Qed.

Lemma slots_loop_related previous n index st st' :
  loop_related st st' → (∀ m, previous = Some m → map_Forall (λ _ s, section_ok known s) m) →
  ∃ u u', slots_loop sha256 ids slots previous index n st = Some u ∧
    slots_loop sha256 ids slots None index n st' = Some u' ∧ loop_related u u'.
Proof using Hagree Hids Hbytes Hsegments Hfree.
  intros H Hprev. revert index st st' H. induction n as [|n IH]; intros index st st' H; [by exists st, st'|].
  cbn [slots_loop]. rewrite <-(lr_reader _ _ H). destruct (is_at_end (ss_reader st)).
  { do 2 eexists. split; [done|]. split; [done|]. split; cbn [ss_reader ss_sections ss_work]; try apply H.
    - done.
    - apply clear_slots_related, (lr_same _ _ H).
    - apply clear_slots_forall, (lr_ok _ _ H). }
  destruct (Z.leb_spec (slots_count slots) (Z.land index SLOT_INDEX_MASK)) as [|Hslot]; [by apply IH|].
  set (y := slot_y slots (Z.land index SLOT_INDEX_MASK)).
  destruct (read_slot_related (previous ≫= λ m, m !! y) y st st' H) as (u & u' & -> & Hu' & Hrel).
  - exists (Z.land index SLOT_INDEX_MASK). pose proof (slot_index_range index). done.
  - intros s Hs. destruct previous as [m|]; [|done]. by apply (Hprev m eq_refl y s).
  - cbn [mbind option_bind]. rewrite Hu'. cbn [mbind option_bind]. by apply IH.
Qed.

Lemma read_sub_chunks_related previous n :
  (∀ m, previous = Some m → map_Forall (λ _ s, section_ok known s) m) →
  ∃ u u', read_sub_chunks sha256 ids slots n previous (reader_new payload) = Some u ∧
    read_sub_chunks sha256 ids slots n None (reader_new payload) = Some u' ∧ loop_related u u'.
Proof using Hagree Hids Hbytes Hsegments Hfree.
  intros Hprev. unfold read_sub_chunks. set (st := mk_slots_state (reader_new payload) ∅ (mk_work 0 0)).
  assert (loop_related st st) as H.
  { split; try done; [by exists []|]. intros y. simpl. rewrite lookup_empty. constructor. }
  destruct (_ =? _); [by exists st, st|]. by apply slots_loop_related.
Qed.
End loop.
End spec.

(** ** Properties *)

Section properties.
Context (sha256 : bytes → bytes) {Context : Type} (registry : BlockIds Context → Prop).

(** C39: Decoding an inline level chunk with resident sections gives what decoding it without them gives:
    the same section indexes with the same blocks in every layer, the same biomes, block entities and
    byte positions, one counted read per section; it never panics, every section it keeps belongs to a
    slot of the dimension, has layers and may itself be reused later, and the block bytes it reports are
    what it read of the payload. This needs the residents' identities to be genuine and the hash not to
    collide on the byte strings compared. *)
Theorem reuse_equals_decoding (ids : BlockIds Context) biomes known chunk slots n payload previous :
  contexts_agree registry → registry ids → Forall is_byte payload →
  (∀ b, segment_of payload b → known b) → collision_free sha256 known →
  (∀ m, previous = Some m → map_Forall (λ _ s, section_ok sha256 registry known s) m) →
  ∃ d d', decode_inline_reusing sha256 ids chunk slots n payload biomes previous = Some d ∧
    decode_inline sha256 ids chunk slots n payload biomes = Some d' ∧
    same_sections (lc_sub_chunks d) (lc_sub_chunks d') ∧
    lc_biomes d = lc_biomes d' ∧ lc_block_entities d = lc_block_entities d' ∧
    lc_block_bytes_consumed d = lc_block_bytes_consumed d' ∧ lc_bytes_consumed d = lc_bytes_consumed d' ∧
    decoded_sections (lc_work d) + reused_sections (lc_work d) = decoded_sections (lc_work d') ∧
    reused_sections (lc_work d') = 0 ∧
    map_Forall (λ y s, section_ok sha256 registry known s ∧ slot_of slots y) (lc_sub_chunks d) ∧
    0 ≤ lc_block_bytes_consumed d ≤ lc_bytes_consumed d.
Proof using Type.
  intros Hagree Hids Hb Hseg Hfree Hprev. unfold decode_inline, decode_inline_reusing.
  destruct (read_sub_chunks_related sha256 registry known ids slots payload Hagree Hids Hb Hseg Hfree previous n Hprev)
    as (u & u' & -> & -> & [Hr (before & Hp & Hpos) Hsame Hok Hwork Hnone]). cbn [mbind option_bind].
  rewrite <-Hr. unfold decode_column_tail.
  destruct (column_decode_Some biomes (slots_base slots) (Z.to_nat (slots_count slots)) (remaining (ss_reader u))) as [column ->].
  { rewrite Hp in Hb. by apply Forall_app in Hb as [_ ?]. }
  cbn [mbind option_bind]. do 2 eexists. split; [done|]. split; [done|].
  cbn [lc_sub_chunks lc_biomes lc_block_entities lc_block_bytes_consumed lc_bytes_consumed lc_work].
  split_and!; try done; [lia|]. rewrite Hpos. apply (f_equal length) in Hp. rewrite length_app in Hp. lia.
Qed.
End properties.

(** ** Witnesses *)

Definition raw_registry (ids : BlockIds Z) : Prop := ∃ air, ids = raw_block_ids air.

Lemma raw_contexts_agree : contexts_agree raw_registry.
Proof.
  intros ids ids' context [a ->] [b ->]. simpl. intros [= ->] Heq%Z.eqb_eq. subst context. by split.
Qed.

(** A column is decoded once, and the same payload then reuses its section instead of decoding it. *)
Lemma reuse_equals_decoding_witness :
  let chunk := mk_chunk_key 0 0 0 in let payload := [9; 1; 0; 1; 14] in
  ∃ d0 d, decode_inline id (raw_block_ids 0) chunk (mk_slots 0 1) 1 payload (raw_biome_ids 1) = Some d0 ∧
    decode_inline_reusing id (raw_block_ids 0) chunk (mk_slots 0 1) 1 payload (raw_biome_ids 1) (Some (lc_sub_chunks d0)) = Some d ∧
    reused_sections (lc_work d) = 1 ∧ same_sections (lc_sub_chunks d) (lc_sub_chunks d0).
Proof.
  intros chunk payload. set (known := segment_of payload).
  assert (raw_registry (raw_block_ids 0)) as Hids by by exists 0.
  assert (Forall is_byte payload) as Hb by (repeat constructor; lia).
  assert (collision_free id known) as Hfree by (intros a b _ _ Hab; exact Hab).
  destruct (reuse_equals_decoding id raw_registry (raw_block_ids 0) (raw_biome_ids 1) known chunk (mk_slots 0 1) 1 payload None)
    as (d0 & d0' & H0 & H0' & _ & _ & _ & _ & _ & _ & _ & Hok & _); try done; [apply raw_contexts_agree|].
  destruct (reuse_equals_decoding id raw_registry (raw_block_ids 0) (raw_biome_ids 1) known chunk (mk_slots 0 1) 1 payload
      (Some (lc_sub_chunks d0))) as (d & d1 & H1 & H1' & Hsame & _); try done; [apply raw_contexts_agree| |].
  { intros m [= <-]. intros y s Hs. by apply (Hok y s). }
  change (decode_inline id (raw_block_ids 0) chunk (mk_slots 0 1) 1 payload (raw_biome_ids 1) = Some d0) in H0.
  rewrite H0 in H1'. injection H1' as <-. exists d0, d. split; [done|]. split; [done|]. split; [|done].
  assert (option_map (λ d, reused_sections (lc_work d))
    (decode_inline_reusing id (raw_block_ids 0) chunk (mk_slots 0 1) 1 payload (raw_biome_ids 1)
       (lc_sub_chunks <$> decode_inline id (raw_block_ids 0) chunk (mk_slots 0 1) 1 payload (raw_biome_ids 1))) = Some 1) as Hc
    by (vm_compute; reflexivity).
  rewrite H0 in Hc. cbn [fmap option_fmap option_map] in Hc. rewrite H1 in Hc. by injection Hc.
Defined.
