(* ===== verification/Store.v ===== *)
(** * The chunk store

    [crates/world/src/store.rs] with [store/helpers.rs], [store/collision_snapshot.rs],
    [store/shape_revisions.rs] and [Chunk] of [chunk.rs]. Operations run in a monad over the store
    whose outer [None] is a panic and whose [Err] keeps the state reached so far. A shared handle is its
    value, and pointer equality after equal handles have been reused is equality of the values. *)
From stdpp Require Import base numbers list gmap sorting.
From S2P Require Import Prelude Packed Palette Bytes NbtTree NbtScan Keys Wire SubChunk Revisions Entities Biome LevelChunk.
#[local] Open Scope Z_scope.

(** ** Data *)

Record ChunkCollisionRevision := mk_revision { cr_chunk : ChunkKey; cr_revision : Z }.

Inductive DecodeError :=
  | DecodeCollisionRevision (e : CollisionRevisionError)
  | DecodeBlockEntity (e : BlockEntityError).

Record ApplyLevelChunk := mk_apply {
  al_changed : list SubChunkKey;
  al_dirty : list SubChunkKey;
  al_bytes_consumed : Z;
  al_block_bytes_consumed : Z;
}.

#[export] Instance shape_actor_eq_dec : EqDecision ShapeActor.
Proof. solve_decision. Defined.

Definition expand_mesh_dependents (changed : gset SubChunkKey) : gset SubChunkKey :=
  list_to_set (elements changed ≫= mesh_dependents).
Definition expand_biome_mesh_dependents (changed : gset SubChunkKey) : gset SubChunkKey :=
  list_to_set (elements changed ≫= biome_mesh_dependents).

Definition ensure_chunk_block_entity_bytes (bytes : Z) : result BlockEntityError unit :=
  if MAX_BLOCK_ENTITY_BYTES_PER_CHUNK <? bytes
  then Err (ChunkEntityBytesTooLarge bytes MAX_BLOCK_ENTITY_BYTES_PER_CHUNK) else Ok ().

(** [usize] arithmetic on 64 bits. *)
Definition usize_checked_sub (a b : Z) : option Z := if b <=? a then Some (a - b) else None.
Definition usize_saturating_add (a b : Z) : Z := Z.min (a + b) (2 ^ 64 - 1).

(** ** Block-entity maps *)

(** [BlockEntityNbt::eq]. *)
Definition nbt_eqb (a b : BlockEntityNbt) : bool := bool_decide (nbt_bytes a = nbt_bytes b).

(** Records equal to their predecessor keep its handle. *)
Definition reuse_equal_entities (previous replacement : gmap BlockEntityKey BlockEntityNbt) : gmap BlockEntityKey BlockEntityNbt :=
  map_imap (λ key nbt, Some (match previous !! key with
                             | Some p => if nbt_eqb p nbt then p else nbt
                             | None => nbt
                             end)) replacement.

(** [iter().map(|nbt| nbt.bytes().len()).sum()], and the same with [saturating_add]. *)
Definition sum_bytes (m : gmap BlockEntityKey BlockEntityNbt) : Z := map_fold (λ _ nbt acc, acc + nbt_len nbt) 0 m.
Definition saturating_bytes (m : gmap BlockEntityKey BlockEntityNbt) : Z :=
  map_fold (λ _ nbt acc, usize_saturating_add acc (nbt_len nbt)) 0 m.

Definition in_sub_chunk (key : SubChunkKey) (e : BlockEntityKey * BlockEntityNbt) : Prop := bk_sub_chunk (fst e) = key.
#[export] Instance in_sub_chunk_dec key e : Decision (in_sub_chunk key e) := decide (bk_sub_chunk (fst e) = key).

(** The geometry-bearing facts of a map of block entities. *)
Definition shape_actors (m : gmap BlockEntityKey BlockEntityNbt) : gmap BlockEntityKey ShapeActor :=
  omap (λ nbt, if decide (shape_actor nbt = NoActor) then None else Some (shape_actor nbt)) m.

(** ** Biome columns *)

(** [(0..len).filter_map(|offset| base.checked_add(i32::try_from(offset).ok()?))] *)
Definition column_ys (column : DecodedBiomeColumn) : list Z :=
  omap (λ offset, offset ← checked_i32 (Z.of_nat offset); checked_add (base_sub_chunk_y column) offset)
    (seq 0 (length (column_storages column))).

Definition reuse_equal_storage (base : Z) (previous : DecodedBiomeColumn) (offset : nat) (storage : PalettedStorage) : option PalettedStorage :=
  offset ← checked_i32 (Z.of_nat offset);
  match checked_add base offset ≫= column_storage previous with
  | None => Some storage
  | Some p => e ← storage_eqb p storage; Some (if (e : bool) then p else storage)
  end.

Definition reuse_equal_biome_arcs (replacement : DecodedBiomeColumn) (previous : option DecodedBiomeColumn) : option DecodedBiomeColumn :=
  match previous with
  | None => Some replacement
  | Some previous =>
      storages ← mapM (λ '(offset, storage), reuse_equal_storage (base_sub_chunk_y replacement) previous offset storage)
        (imap pair (column_storages replacement));
      Some (mk_column (base_sub_chunk_y replacement) storages (column_consumed replacement))
  end.

Definition biome_changed_at (previous replacement : option DecodedBiomeColumn) (y : Z) : option bool :=
  match previous ≫= λ c, column_storage c y, replacement ≫= λ c, column_storage c y with
  | Some before, Some after => negb <$> storage_eqb before after
  | None, None => Some false
  | _, _ => Some true
  end.

Definition changed_biome_ys (previous replacement : option DecodedBiomeColumn) : option (gset Z) :=
  foldM (λ (acc : gset Z) y, changed ← biome_changed_at previous replacement y; Some (if (changed : bool) then {[y]} ∪ acc else acc))
    ∅ (from_option column_ys [] previous ++ from_option column_ys [] replacement).

Section store.
Context {Context : Type}.

Record Chunk := mk_chunk {
  sub_chunks : gmap Z (SubChunk Context);
  biomes : option DecodedBiomeColumn;
  block_entities : gmap BlockEntityKey BlockEntityNbt;
  block_entity_bytes : Z;
}.

(** What queries read; a collision snapshot is such a value too. *)
Record Columns := mk_columns {
  chunks : gmap ChunkKey Chunk;
  loaded_chunks : gset ChunkKey;
  authoritative_sub_chunks : gmap ChunkKey (gset Z);
  collision_revisions : gmap ChunkKey ChunkCollisionRevision;
}.

(** The process-wide allocator's counter is [next_revision]. *)
Record ChunkStore := mk_store {
  columns : Columns;
  next_revision : Z;
  cached_snapshot : option Columns;
}.

Definition chunk_default : Chunk := mk_chunk ∅ None ∅ 0.
Definition store_new (next : Z) : ChunkStore := mk_store (mk_columns ∅ ∅ ∅ ∅) next None.

(** ** Queries *)

Definition contains_column (c : Columns) (key : ChunkKey) : bool :=
  bool_decide (key ∈ loaded_chunks c) || bool_decide (is_Some (chunks c !! key))
  || bool_decide (is_Some (authoritative_sub_chunks c !! key)).
Definition is_chunk_loaded (c : Columns) (key : ChunkKey) : bool := bool_decide (key ∈ loaded_chunks c).
Definition is_sub_chunk_loaded (c : Columns) (key : SubChunkKey) : bool :=
  bool_decide (sk_chunk key ∈ loaded_chunks c)
  || match authoritative_sub_chunks c !! sk_chunk key with Some ys => bool_decide (sk_y key ∈ ys) | None => false end.
Definition collision_revision (c : Columns) (key : ChunkKey) : option ChunkCollisionRevision := collision_revisions c !! key.
Definition sub_chunk (c : Columns) (key : SubChunkKey) : option (SubChunk Context) :=
  chunk ← chunks c !! sk_chunk key; sub_chunks chunk !! sk_y key.
Definition contains_sub_chunk (c : Columns) (key : SubChunkKey) : bool := bool_decide (is_Some (sub_chunk c key)).
Definition biome_storage (c : Columns) (key : SubChunkKey) : option PalettedStorage :=
  chunk ← chunks c !! sk_chunk key; column ← biomes chunk; column_storage column (sk_y key).
Definition store_biome_id (c : Columns) (key : SubChunkKey) (x y z : nat) : option Z :=
  storage ← biome_storage c key; biome_id storage x y z.
Definition block_entity (c : Columns) (key : BlockEntityKey) : option BlockEntityNbt :=
  chunk ← chunks c !! bk_chunk key; block_entities chunk !! key.

(** [SubChunk::eq]. *)
Definition sub_chunk_eqb (a b : SubChunk Context) : option bool :=
  if bool_decide (version a = version b) && bool_decide (y_index a = y_index b)
  then storages_eqb (storages a) (storages b) else Some false.

Definition chunk_is_empty (c : Chunk) : bool :=
  (size (sub_chunks c) =? 0)%nat && bool_decide (biomes c = None) && (size (block_entities c) =? 0)%nat.

(** ** The monad *)

Definition M (E A : Type) : Type := ChunkStore → option (result E A * ChunkStore).

#[export] Instance store_ret E : MRet (M E) := λ A a s, Some (Ok a, s).
#[export] Instance store_bind E : MBind (M E) := λ A B f m s,
  match m s with
  | None => None
  | Some (Ok a, s) => f a s
  | Some (Err e, s) => Some (Err e, s)
  end.

Definition gets {E A} (f : Columns → A) : M E A := λ s, Some (Ok (f (columns s)), s).
Definition modify {E} (f : Columns → Columns) : M E unit := λ s,
  Some (Ok (), mk_store (f (columns s)) (next_revision s) (cached_snapshot s)).
Definition of_result {E A} (r : result E A) : M E A := λ s, Some (r, s).
(** [expect], and a computation that may panic. *)
Definition expect {E A} (o : option A) : M E A := λ s, a ← o; Some (Ok a, s).
(** [?] with a [From] conversion. *)
Definition map_err {E E' A} (f : E → E') (m : M E A) : M E' A := λ s,
  '(r, s) ← m s; Some (match r with Ok a => Ok a | Err e => Err (f e) end, s).

Definition alloc_batch (count : nat) : M CollisionRevisionError (list Z) := λ s,
  let '(r, next) := allocate_batch (next_revision s) (Z.of_nat count) in
  Some (r, mk_store (columns s) next (cached_snapshot s)).
Definition alloc : M CollisionRevisionError Z := λ s,
  let '(r, next) := allocate (next_revision s) in Some (r, mk_store (columns s) next (cached_snapshot s)).

Definition invalidate_collision_snapshot {E} : M E unit := λ s, Some (Ok (), mk_store (columns s) (next_revision s) None).

(** ** Changing one part of the columns *)

Definition on_chunks (f : gmap ChunkKey Chunk → gmap ChunkKey Chunk) (c : Columns) : Columns :=
  mk_columns (f (chunks c)) (loaded_chunks c) (authoritative_sub_chunks c) (collision_revisions c).
Definition on_loaded (f : gset ChunkKey → gset ChunkKey) (c : Columns) : Columns :=
  mk_columns (chunks c) (f (loaded_chunks c)) (authoritative_sub_chunks c) (collision_revisions c).
Definition on_authoritative (f : gmap ChunkKey (gset Z) → gmap ChunkKey (gset Z)) (c : Columns) : Columns :=
  mk_columns (chunks c) (loaded_chunks c) (f (authoritative_sub_chunks c)) (collision_revisions c).
Definition on_revisions (f : gmap ChunkKey ChunkCollisionRevision → gmap ChunkKey ChunkCollisionRevision) (c : Columns) : Columns :=
  mk_columns (chunks c) (loaded_chunks c) (authoritative_sub_chunks c) (f (collision_revisions c)).

(** [chunks.entry(key).or_default()], then [f]. *)
Definition update_entry (key : ChunkKey) (f : Chunk → Chunk) (m : gmap ChunkKey Chunk) : gmap ChunkKey Chunk :=
  <[key := f (default chunk_default (m !! key))]> m.
(** The column is removed when nothing is left of it. *)
Definition drop_empty (key : ChunkKey) (m : gmap ChunkKey Chunk) : gmap ChunkKey Chunk :=
  match m !! key with Some c => if chunk_is_empty c then delete key m else m | None => m end.

Definition on_sub_chunks (f : gmap Z (SubChunk Context) → gmap Z (SubChunk Context)) (c : Chunk) : Chunk :=
  mk_chunk (f (sub_chunks c)) (biomes c) (block_entities c) (block_entity_bytes c).
Definition with_biomes (b : option DecodedBiomeColumn) (c : Chunk) : Chunk :=
  mk_chunk (sub_chunks c) b (block_entities c) (block_entity_bytes c).
Definition with_entities (m : gmap BlockEntityKey BlockEntityNbt) (bytes : Z) (c : Chunk) : Chunk :=
  mk_chunk (sub_chunks c) (biomes c) m bytes.
End store.

(** ** Operations of the chunk store

    The methods of [ChunkStore] in [crates/world/src/store.rs], [store/shape_revisions.rs] and
    [store/collision_snapshot.rs], except for whole level chunks (StoreCommits). *)

Section ops.
Context {Context : Type}.
#[local] Notation M := (M (Context := Context)).
#[local] Notation Chunk := (Chunk (Context := Context)).

(** ** Revisions *)

Definition set_collision_revision {E} (key : ChunkKey) (revision : Z) : M E unit :=
  _ ← invalidate_collision_snapshot;
  modify (on_revisions (insert key (mk_revision key revision))).

Definition apply_reserved_revision {E} (key : ChunkKey) (revision : option Z) : M E unit :=
  match revision with
  | None => mret ()
  | Some revision =>
      current ← gets (λ c, collision_revisions c !! key);
      set_collision_revision key (match current with Some r => Z.max (cr_revision r) revision | None => revision end)
  end.

(** [then(|| allocate()).transpose()] *)
Definition reserve_if (b : bool) : M CollisionRevisionError (option Z) :=
  if b then r ← alloc; mret (Some r) else mret None.

Definition reserve_loaded_change (key : SubChunkKey) : M CollisionRevisionError (option Z) :=
  loaded ← gets (λ c, is_sub_chunk_loaded c key); reserve_if loaded.

Definition reserve_actor_change (chunk : ChunkKey) (changed : bool) : M CollisionRevisionError (option Z) :=
  known ← gets (λ c, bool_decide (is_Some (collision_revisions c !! chunk)));
  reserve_if (changed && known).

Definition stored_entities (c : Columns) (key : ChunkKey) : gmap BlockEntityKey BlockEntityNbt :=
  default ∅ (block_entities <$> chunks (Context := Context) c !! key).

(** The entities a replacement takes the place of. *)
Definition scoped_entities (scope : option SubChunkKey) (m : gmap BlockEntityKey BlockEntityNbt) : gmap BlockEntityKey BlockEntityNbt :=
  match scope with None => m | Some key => filter (in_sub_chunk key) m end.

Definition reserve_actor_replacement (chunk : ChunkKey) (scope : option SubChunkKey)
    (replacement : gmap BlockEntityKey BlockEntityNbt) : M CollisionRevisionError (option Z) :=
  previous ← gets (λ c, shape_actors (scoped_entities scope (stored_entities c chunk)));
  reserve_actor_change chunk (bool_decide (previous ≠ shape_actors replacement)).

(** ** Authority *)

Definition mark_chunk_loaded (key : ChunkKey) : M CollisionRevisionError bool :=
  loaded ← gets (λ c, is_chunk_loaded c key);
  if (loaded : bool) then mret false
  else
    revision ← alloc;
    _ ← modify (on_loaded (λ l, {[key]} ∪ l));
    _ ← modify (on_authoritative (delete key));
    _ ← set_collision_revision key revision;
    mret true.

Definition mark_sub_chunk_loaded (key : SubChunkKey) : M CollisionRevisionError bool :=
  loaded ← gets (λ c, is_sub_chunk_loaded c key);
  if (loaded : bool) then mret false
  else
    revision ← alloc;
    _ ← modify (on_authoritative (λ m, <[sk_chunk key := {[sk_y key]} ∪ default ∅ (m !! sk_chunk key)]> m));
    _ ← set_collision_revision (sk_chunk key) revision;
    mret true.

(** ** Sections *)

Definition remove_sub_chunk_without_revision {E} (key : SubChunkKey) : M E (option SubChunkKey) :=
  _ ← invalidate_collision_snapshot;
  chunk ← gets (λ c, chunks c !! sk_chunk key);
  match chunk with
  | None => mret None
  | Some chunk =>
      let removed := bool_decide (is_Some (sub_chunks chunk !! sk_y key)) in
      _ ← modify (on_chunks (update_entry (sk_chunk key) (on_sub_chunks (delete (sk_y key)))));
      _ ← modify (on_chunks (drop_empty (sk_chunk key)));
      mret (if removed then Some key else None)
  end.

Definition remove_sub_chunk (key : SubChunkKey) : M CollisionRevisionError (option SubChunkKey) :=
  present ← gets (λ c, contains_sub_chunk c key);
  if negb present then mret None
  else
    revision ← reserve_loaded_change key;
    removed ← remove_sub_chunk_without_revision key;
    _ ← apply_reserved_revision (sk_chunk key) revision;
    mret removed.

Definition commit_sub_chunk (key : SubChunkKey) (decoded : SubChunk Context) : M DecodeError (option SubChunkKey) :=
  if has_no_storages decoded then map_err DecodeCollisionRevision (remove_sub_chunk key)
  else
    current ← gets (λ c, sub_chunk c key);
    same ← expect (match current with Some current => sub_chunk_eqb current decoded | None => Some false end);
    if (same : bool) then mret None
    else
      revision ← map_err DecodeCollisionRevision (reserve_loaded_change key);
      _ ← invalidate_collision_snapshot;
      _ ← modify (on_chunks (update_entry (sk_chunk key) (on_sub_chunks (insert (sk_y key) decoded))));
      _ ← apply_reserved_revision (sk_chunk key) revision;
      mret (Some key).

Definition apply_sub_chunk (sha256 : bytes → bytes) (ids : BlockIds Context) (key : SubChunkKey) (payload : bytes)
    : M DecodeError (option SubChunkKey) :=
  decoded ← expect (sub_chunk_decode sha256 ids payload); commit_sub_chunk key decoded.

Definition apply_request_mode_air (key : SubChunkKey) : M CollisionRevisionError (option SubChunkKey) := remove_sub_chunk key.

(** ** Block entities *)

Definition validate_sub_chunk_block_entity_replacement (key : SubChunkKey) (replacement : gmap BlockEntityKey BlockEntityNbt)
    : M BlockEntityError Z :=
  chunk ← gets (λ c, default chunk_default (chunks c !! sk_chunk key));
  let removed := filter (in_sub_chunk key) (block_entities chunk) in
  kept_count ← expect (usize_checked_sub (Z.of_nat (size (block_entities chunk))) (Z.of_nat (size removed)));
  if MAX_BLOCK_ENTITIES_PER_CHUNK <? kept_count + Z.of_nat (size replacement)
  then of_result (Err (TooManyEntities MAX_BLOCK_ENTITIES_PER_CHUNK))
  else
    kept_bytes ← expect (usize_checked_sub (block_entity_bytes chunk) (sum_bytes removed));
    let proposed := usize_saturating_add kept_bytes (saturating_bytes replacement) in
    _ ← of_result (ensure_chunk_block_entity_bytes proposed);
    mret proposed.

Definition replace_sub_chunk_block_entities {E} (key : SubChunkKey) (replacement : gmap BlockEntityKey BlockEntityNbt)
    (replacement_bytes : Z) : M E unit :=
  previous ← gets (λ c, stored_entities c (sk_chunk key));
  let replacement := reuse_equal_entities previous replacement in
  if (size replacement =? 0)%nat && (size (filter (in_sub_chunk key) previous) =? 0)%nat then mret ()
  else
    _ ← modify (on_chunks (update_entry (sk_chunk key) (λ chunk,
          with_entities (replacement ∪ filter (λ e, ¬ in_sub_chunk key e) (block_entities chunk)) replacement_bytes chunk)));
    modify (on_chunks (drop_empty (sk_chunk key))).

Definition clear_sub_chunk_block_entities {E} (key : SubChunkKey) : M E unit :=
  chunk ← gets (λ c, chunks c !! sk_chunk key);
  match chunk with
  | None => mret ()
  | Some chunk =>
      let removed_bytes := saturating_bytes (filter (in_sub_chunk key) (block_entities chunk)) in
      kept ← expect (usize_checked_sub (block_entity_bytes chunk) removed_bytes);
      _ ← modify (on_chunks (update_entry (sk_chunk key)
            (with_entities (filter (λ e, ¬ in_sub_chunk key e) (block_entities chunk)) kept)));
      modify (on_chunks (drop_empty (sk_chunk key)))
  end.

Definition commit_decoded_sub_chunk (key : SubChunkKey) (decoded : DecodedSubChunk Context) : M DecodeError (option SubChunkKey) :=
  let block_entities := entities (d_block_entities decoded) in
  replacement_bytes ← map_err DecodeBlockEntity (validate_sub_chunk_block_entity_replacement key block_entities);
  actor_revision ← map_err DecodeCollisionRevision (reserve_actor_replacement (sk_chunk key) (Some key) block_entities);
  changed ← commit_sub_chunk key (d_sub_chunk decoded);
  _ ← replace_sub_chunk_block_entities key block_entities replacement_bytes;
  _ ← apply_reserved_revision (sk_chunk key) actor_revision;
  mret changed.

Definition commit_block_entity_update (key : BlockEntityKey) (nbt : BlockEntityNbt) : M BlockEntityError bool :=
  if (match embedded_position nbt with Some actual => negb (bool_decide (actual = bk_position key)) | None => false end)
  then of_result (Err (PositionMismatch (bk_position key) (default (0, 0, 0) (embedded_position nbt))))
  else
    replacing ← gets (λ c, block_entity c key);
    if (match replacing with Some current => nbt_eqb current nbt | None => false end) then mret false
    else
      previous ← gets (λ c, default chunk_default (chunks c !! bk_chunk key));
      if bool_decide (replacing = None) && (Z.of_nat (size (block_entities previous)) =? MAX_BLOCK_ENTITIES_PER_CHUNK)
      then of_result (Err (TooManyEntities MAX_BLOCK_ENTITIES_PER_CHUNK))
      else
        retained ← expect (usize_checked_sub (block_entity_bytes previous) (from_option nbt_len 0 replacing));
        let replacement_bytes := usize_saturating_add retained (nbt_len nbt) in
        _ ← of_result (ensure_chunk_block_entity_bytes replacement_bytes);
        actor_revision ← map_err CollisionRevision (reserve_actor_change (bk_chunk key)
          (bool_decide (from_option shape_actor NoActor replacing ≠ shape_actor nbt)));
        _ ← modify (on_chunks (update_entry (bk_chunk key) (λ chunk,
              with_entities (<[key := nbt]> (block_entities chunk)) replacement_bytes chunk)));
        _ ← apply_reserved_revision (bk_chunk key) actor_revision;
        mret true.

Definition commit_chunk_block_entities (key : ChunkKey) (replacement : DecodedBlockEntities) : M CollisionRevisionError unit :=
  actor_revision ← reserve_actor_replacement key None (entities replacement);
  present ← gets (λ c, bool_decide (is_Some (chunks c !! key)));
  previous ← gets (λ c, stored_entities c key);
  let replacement := reuse_equal_entities previous (entities replacement) in
  if (size replacement =? 0)%nat && negb present then mret ()
  else
    _ ← modify (on_chunks (update_entry key (with_entities replacement (sum_bytes replacement))));
    _ ← modify (on_chunks (drop_empty key));
    apply_reserved_revision key actor_revision.

Definition apply_all_air (key : SubChunkKey) : M CollisionRevisionError (option SubChunkKey) :=
  actor_revision ← reserve_actor_replacement (sk_chunk key) (Some key) ∅;
  changed ← remove_sub_chunk key;
  _ ← clear_sub_chunk_block_entities key;
  _ ← apply_reserved_revision (sk_chunk key) actor_revision;
  mret changed.
End ops.
