(* ===== verification/StoreCommits.v ===== *)
(** * Batches, evictions, snapshots and whole columns

    The rest of [ChunkStore]: prepared block updates, eviction, the shared collision snapshot, biome
    columns and [commit_level_chunk]. *)
From stdpp Require Import base numbers list gmap.
From S2P Require Import Prelude Packed Palette Bytes NbtTree NbtScan Keys Revisions Wire SubChunk Biome Entities LevelChunk Store.
#[local] Open Scope Z_scope.

Section commits.
Context {Context : Type}.
#[local] Notation M := (M (Context := Context)).
#[local] Notation Chunk := (Chunk (Context := Context)).
#[local] Notation Columns := (Columns (Context := Context)).
#[local] Notation ChunkStore := (ChunkStore (Context := Context)).

(** ** Block updates *)

Record PreparedSubChunkMutation := mk_prepared {
  p_key : SubChunkKey;
  p_replacement : option (SubChunk Context);
  p_changed : bool;
  p_reach : NeighbourReach;
  p_cells : list (Z * Z * Z);
}.

(** [wrapping_add] and [wrapping_mul] of [i32]. *)
Definition wrap_i32 (v : Z) : Z := to_signed 32 (to_unsigned 32 v).

Definition changed_positions (p : PreparedSubChunkMutation) : list (Z * Z * Z) :=
  (λ '(x, y, z), (wrap_i32 (wrap_i32 (sk_x (p_key p) * 16) + x), wrap_i32 (wrap_i32 (sk_y (p_key p) * 16) + y),
                  wrap_i32 (wrap_i32 (sk_z (p_key p) * 16) + z))) <$> p_cells p.

Fixpoint validate_all (updates : list BlockUpdate) : result MutationError unit :=
  match updates with [] => Ok () | u :: us => _ ← validate u; validate_all us end.

Definition prepare_sub_chunk_blocks (key : SubChunkKey) (previous : option (SubChunk Context)) (updates : list BlockUpdate)
    (air_runtime_id : Z) : option (result MutationError PreparedSubChunkMutation) :=
  match validate_all updates with
  | Err e => Some (Err e)
  | Ok _ =>
      match updates with
      | [] => Some (Ok (mk_prepared key previous false (of_updates updates) []))
      | _ =>
          '(changed, replacement) ← apply_block_updates (default (for_block_updates (sk_y key)) previous) updates air_runtime_id;
          let replacement := if has_no_storages replacement then None else Some replacement in
          let changed := match previous, replacement with
                         | Some _, Some _ => changed
                         | None, None => false
                         | _, _ => true
                         end in
          Some (Ok (mk_prepared key replacement changed (of_updates updates) ((λ u, (u_x u, u_y u, u_z u)) <$> updates)))
      end
  end.

(** The body of the loop over the prepared mutations. *)
Definition commit_mutation {E} (changed : list SubChunkKey) (m : PreparedSubChunkMutation) : M E (list SubChunkKey) :=
  if negb (p_changed m) then mret changed
  else
    _ ← (match p_replacement m with
         | Some replacement => modify (on_chunks (update_entry (sk_chunk (p_key m)) (on_sub_chunks (insert (sk_y (p_key m)) replacement))))
         | None => _ ← remove_sub_chunk_without_revision (p_key m); mret ()
         end);
    mret (changed ++ [p_key m]).

Fixpoint commit_mutations {E} (changed : list SubChunkKey) (ms : list PreparedSubChunkMutation) : M E (list SubChunkKey) :=
  match ms with [] => mret changed | m :: ms => changed ← commit_mutation changed m; commit_mutations changed ms end.

Fixpoint set_collision_revisions {E} (revisions : list (ChunkKey * Z)) : M E unit :=
  match revisions with
  | [] => mret ()
  | (chunk, revision) :: l => _ ← set_collision_revision chunk revision; set_collision_revisions l
  end.

(** The columns whose loaded content the batch changes. *)
Definition changed_columns (prepared : list PreparedSubChunkMutation) (c : Columns) : gset ChunkKey :=
  list_to_set (sk_chunk ∘ p_key <$> filter (λ m, Is_true (p_changed m && is_sub_chunk_loaded c (p_key m))) prepared).

Definition commit_prepared_block_updates (prepared : list PreparedSubChunkMutation) : M MutationError (list SubChunkKey) :=
  columns ← gets (λ c, sorted_chunks (changed_columns prepared c));
  allocated ← map_err (λ _, CollisionRevisionExhausted) (alloc_batch (length columns));
  changed ← commit_mutations [] prepared;
  _ ← (match changed with [] => mret () | _ => invalidate_collision_snapshot end);
  _ ← set_collision_revisions (zip columns allocated);
  mret changed.

Definition update_sub_chunk_blocks (key : SubChunkKey) (updates : list BlockUpdate) (air_runtime_id : Z)
    : M MutationError (list SubChunkKey) :=
  previous ← gets (λ c, sub_chunk c key);
  prepared ← expect (prepare_sub_chunk_blocks key previous updates air_runtime_id);
  prepared ← of_result prepared;
  commit_prepared_block_updates [prepared].

Definition update_block (key : SubChunkKey) (update : BlockUpdate) (air_runtime_id : Z) : M MutationError (option SubChunkKey) :=
  changed ← update_sub_chunk_blocks key [update] air_runtime_id; mret (head changed).

(** ** Eviction *)

(** One key of [detach_chunks]: the sections of the column and the column itself. *)
Definition detach_chunk {E} (key : ChunkKey) : M E (list SubChunkKey * list Chunk) :=
  _ ← modify (on_authoritative (delete key));
  _ ← modify (on_loaded (λ l, l ∖ {[key]}));
  _ ← modify (on_revisions (delete key));
  chunk ← gets (λ c, chunks c !! key);
  match chunk with
  | None => mret ([], [])
  | Some chunk =>
      _ ← modify (on_chunks (delete key));
      mret (sorted_keys (set_map (from_chunk key) (dom (sub_chunks chunk))), [chunk])
  end.

Fixpoint detach_each {E} (keys : list ChunkKey) : M E (list SubChunkKey * list Chunk) :=
  match keys with
  | [] => mret ([], [])
  | key :: keys =>
      '(removed, retired) ← detach_chunk key;
      '(removed', retired') ← detach_each keys;
      mret (removed ++ removed', retired ++ retired')
  end.

Definition detach_chunks {E} (keys : gset ChunkKey) : M E (list SubChunkKey * list Chunk) :=
  _ ← (if (size keys =? 0)%nat then mret () else invalidate_collision_snapshot);
  detach_each (sorted_chunks keys).

Definition evict_chunk {E} (key : ChunkKey) : M E (list SubChunkKey) :=
  '(removed, _) ← detach_chunks {[key]}; mret removed.

(** ** The collision snapshot *)

(** [Chunk { sub_chunks, block_entities, block_entity_bytes, ..default }] of every column. *)
Definition snapshot_columns (c : Columns) : Columns := on_chunks (fmap (with_biomes None)) c.

(** [alive]: some frame still holds the cached snapshot, so its weak handle upgrades. *)
Definition take_collision_snapshot (alive : bool) (s : ChunkStore) : Columns * ChunkStore :=
  match cached_snapshot s with
  | Some snapshot => if alive then (snapshot, s)
                     else (snapshot_columns (columns s), mk_store (columns s) (next_revision s) (Some (snapshot_columns (columns s))))
  | None => (snapshot_columns (columns s), mk_store (columns s) (next_revision s) (Some (snapshot_columns (columns s))))
  end.

(** ** Biome columns *)

Definition commit_biome_column {E} (key : ChunkKey) (replacement : DecodedBiomeColumn) : M E (list SubChunkKey) :=
  previous ← gets (λ c, chunks c !! key ≫= biomes);
  replacement ← expect (reuse_equal_biome_arcs replacement previous);
  ys ← expect (changed_biome_ys previous (Some replacement));
  _ ← modify (on_chunks (update_entry key (with_biomes (Some replacement))));
  mret (sorted_keys (expand_biome_mesh_dependents (set_map (from_chunk key) ys))).

(** [DecodedBiomeColumn::eq], storages from left to right. *)
Definition biome_column_eqb (a b : DecodedBiomeColumn) : option bool :=
  if negb (base_sub_chunk_y a =? base_sub_chunk_y b) then Some false
  else e ← storages_eqb (column_storages a) (column_storages b); Some (e && (column_consumed a =? column_consumed b)).

Definition biome_column_matches (c : Columns) (key : ChunkKey) (replacement : DecodedBiomeColumn) : option bool :=
  match chunks c !! key ≫= biomes with None => Some false | Some column => biome_column_eqb column replacement end.

(** ** Level chunks *)

Definition old_sections (c : Columns) (key : ChunkKey) : gmap Z (SubChunk Context) :=
  default ∅ (sub_chunks <$> chunks c !! key).

(** Whether the resident section at [y] has the blocks of its replacement. *)
Definition match_section (old : gmap Z (SubChunk Context)) (acc : gset Z) (e : Z * SubChunk Context) : option (gset Z) :=
  match old !! fst e with
  | None => Some acc
  | Some previous => matches ← blocks_match previous (snd e); Some (if (matches : bool) then {[fst e]} ∪ acc else acc)
  end.

(** The Ys whose resident section is kept. *)
Definition matched_sections (old replacement : gmap Z (SubChunk Context)) : option (gset Z) :=
  foldM (match_section old) ∅ (map_to_list replacement).

(** A kept section takes over the wire identity of its replacement, in every handle to it. *)
Definition retain_identities (matched : gset Z) (replacement old : gmap Z (SubChunk Context)) : gmap Z (SubChunk Context) :=
  map_imap (λ y previous, Some (match replacement !! y with
                                | Some section => if decide (y ∈ matched) then retain_inline_identity_from previous section else previous
                                | None => previous
                                end)) old.

Definition keep_matched (matched : gset Z) (residents replacement : gmap Z (SubChunk Context)) : gmap Z (SubChunk Context) :=
  map_imap (λ y section, if decide (y ∈ matched) then residents !! y else Some section) replacement.

(** Neither pointer-equal nor absent on both sides. *)
Definition block_changed_ys (matched : gset Z) (old replacement : gmap Z (SubChunk Context)) : gset Z :=
  (dom old ∪ dom replacement) ∖ matched.

(** The one revision of a commit: for the blocks or the new column, else for the actors. *)
Definition reserve_column (key : ChunkKey) (newly_loaded collision_changed : bool) (block_entities : gmap BlockEntityKey BlockEntityNbt)
    : M DecodeError (option Z) :=
  if newly_loaded || collision_changed then map_err DecodeCollisionRevision (reserve_if true)
  else map_err DecodeCollisionRevision (reserve_actor_replacement key None block_entities).

(** The writes after the reservation. *)
Definition replace_column {E} (key : ChunkKey) (newly_loaded collision_changed : bool) (residents sub_chunks : gmap Z (SubChunk Context))
    (biomes : option DecodedBiomeColumn) (block_entities : gmap BlockEntityKey BlockEntityNbt) (revision : option Z) : M E unit :=
  _ ← modify (on_chunks (λ m,
        if (size sub_chunks =? 0)%nat && bool_decide (biomes = None) && (size block_entities =? 0)%nat then delete key m
        else <[key := mk_chunk (if collision_changed then sub_chunks else if bool_decide (is_Some (m !! key)) then residents else sub_chunks)
                        biomes block_entities (sum_bytes block_entities)]> m));
  _ ← (if newly_loaded then
         _ ← modify (on_loaded (λ l, {[key]} ∪ l)); modify (on_authoritative (delete key))
       else mret ());
  apply_reserved_revision key revision.

Definition commit_level_chunk (key : ChunkKey) (decoded : DecodedLevelChunk Context) : M DecodeError ApplyLevelChunk :=
  newly_loaded ← gets (λ c, negb (is_chunk_loaded c key));
  old ← gets (λ c, old_sections c key);
  matched ← expect (matched_sections old (lc_sub_chunks decoded));
  let residents := retain_identities matched (lc_sub_chunks decoded) old in
  _ ← modify (on_chunks (alter (on_sub_chunks (λ _, residents)) key));
  let sub_chunks := keep_matched matched residents (lc_sub_chunks decoded) in
  old_biomes ← gets (λ c, chunks c !! key ≫= biomes);
  biomes ← expect (match lc_biomes decoded with
                   | None => Some old_biomes
                   | Some replacement => Some <$> reuse_equal_biome_arcs replacement old_biomes
                   end);
  previous ← gets (λ c, stored_entities c key);
  let block_entities := reuse_equal_entities previous
        (match lc_block_entities decoded with Some d => entities d | None => previous end) in
  let block_changed : gset SubChunkKey := set_map (from_chunk key) (block_changed_ys matched old (lc_sub_chunks decoded)) in
  biome_ys ← expect (changed_biome_ys old_biomes biomes);
  let biome_changed : gset SubChunkKey := set_map (from_chunk key) biome_ys in
  let collision_changed := negb (size block_changed =? 0)%nat in
  revision ← reserve_column key newly_loaded collision_changed block_entities;
  _ ← replace_column key newly_loaded collision_changed residents sub_chunks biomes block_entities revision;
  let changed := block_changed ∪ biome_changed in
  let dirty := expand_mesh_dependents changed ∪ expand_biome_mesh_dependents biome_changed in
  mret (mk_apply (sorted_keys changed) (sorted_keys dirty) (lc_bytes_consumed decoded) (lc_block_bytes_consumed decoded)).

Definition apply_level_chunk (sha256 : bytes → bytes) (ids : BlockIds Context) (key : ChunkKey) (first_sub_chunk_y : Z)
    (sub_chunk_count : nat) (payload : bytes) : M DecodeError ApplyLevelChunk :=
  decoded ← expect (level_chunk_decode sha256 ids first_sub_chunk_y sub_chunk_count payload);
  commit_level_chunk key decoded.
End commits.
