(* ===== verification/StoreInv.v ===== *)
(** * What every operation of the chunk store maintains

    A total-correctness rule for the store monad, the invariant of a store, and the relation between the
    stores before and after an operation: a column that keeps its collision revision keeps everything a
    collision query reads, and a cached snapshot stays current or is dropped. *)
From stdpp Require Import base numbers list gmap fin_maps.
From S2P Require Import Prelude Packed Palette PaletteSpec Bytes NbtTree NbtScan Keys Revisions Wire SubChunk Biome Entities EntityTheorems.
From S2P Require Import LevelChunk Store StoreCommits.
#[local] Open Scope Z_scope.

#[export] Instance root_byte_candidate_eq_dec : EqDecision RootByteCandidate.
Proof. solve_decision. Defined.
#[export] Instance block_entity_nbt_eq_dec : EqDecision BlockEntityNbt.
Proof. solve_decision. Defined.

(** ** Total correctness *)

Section wp.
Context {Context : Type}.
Implicit Types s : ChunkStore (Context := Context).
#[local] Notation M := (M (Context := Context)).

(** The run does not panic and ends in [Q]. *)
Definition wp {E A} (m : M E A) s (Q : result E A → ChunkStore (Context := Context) → Prop) : Prop := ∃ r s', m s = Some (r, s') ∧ Q r s'.

Lemma wp_mono {E A} (m : M E A) s (P Q : result E A → ChunkStore → Prop) :
  wp m s P → (∀ r s', P r s' → Q r s') → wp m s Q.
Proof using Type. intros (r & s' & Hm & HP) H. exists r, s'. auto. Qed.

Lemma wp_ret {E A} (a : A) s (Q : result E A → ChunkStore → Prop) : Q (Ok a) s → wp (mret a) s Q.
Proof using Type. intros H. by exists (Ok a), s. Qed.

Lemma wp_bind {E A B} (m : M E A) (f : A → M E B) s (Q : result E B → ChunkStore → Prop) :
  wp m s (λ r s', match r with Ok a => wp (f a) s' Q | Err e => Q (Err e) s' end) → wp (m ≫= f) s Q.
Proof using Type.
  intros ([a|e] & s' & Hm & H); unfold wp, mbind, store_bind; rewrite Hm; [done|]. by exists (Err e), s'.
Qed.

Lemma wp_gets {E A} (f : Columns → A) s (Q : result E A → ChunkStore → Prop) : Q (Ok (f (columns s))) s → wp (gets f) s Q.
Proof using Type. intros H. by eexists _, s. Qed.

Lemma wp_modify {E} f s (Q : result E unit → ChunkStore → Prop) :
  Q (Ok ()) (mk_store (f (columns s)) (next_revision s) (cached_snapshot s)) → wp (modify f) s Q.
Proof using Type. intros H. by eexists _, _. Qed.

Lemma wp_of_result {E A} (r : result E A) s (Q : result E A → ChunkStore → Prop) : Q r s → wp (of_result r) s Q.
Proof using Type. intros H. by eexists _, s. Qed.

Lemma wp_expect {E A} (o : option A) a s (Q : result E A → ChunkStore → Prop) : o = Some a → Q (Ok a) s → wp (expect o) s Q.
Proof using Type. intros -> H. by eexists _, s. Qed.

Lemma wp_map_err {E E' A} (g : E → E') (m : M E A) s (Q : result E' A → ChunkStore → Prop) :
  wp m s (λ r s', Q (match r with Ok a => Ok a | Err e => Err (g e) end) s') → wp (map_err g m) s Q.
Proof using Type. intros (r & s' & Hm & H). unfold wp, map_err. rewrite Hm. by eexists _, s'. Qed.

Lemma wp_invalidate {E} s (Q : result E unit → ChunkStore → Prop) :
  Q (Ok ()) (mk_store (columns s) (next_revision s) None) → wp invalidate_collision_snapshot s Q.
Proof using Type. intros H. by eexists _, _. Qed.
End wp.

(** One step of a run. *)
Ltac wp_step :=
  lazymatch goal with
  | |- wp (mbind _ _) _ _ => apply wp_bind
  | |- wp (mret _) _ _ => apply wp_ret
  | |- wp (gets _) _ _ => apply wp_gets
  | |- wp (modify _) _ _ => apply wp_modify
  | |- wp (of_result _) _ _ => apply wp_of_result
  | |- wp (map_err _ _) _ _ => apply wp_map_err
  | |- wp invalidate_collision_snapshot _ _ => apply wp_invalidate
  end; cbv beta.
Ltac wp_steps := repeat (wp_step; cbn [columns next_revision cached_snapshot]).

(** ** Reservations *)

(** All identities handed out so far are below it. *)
Definition bound (next : Z) : Z := if next =? 0 then 2 ^ 64 else next.
Definition next_ok (next : Z) : Prop := 0 ≤ next < 2 ^ 64.

Lemma allocate_batch_spec next count :
  next_ok next → 0 < count →
  match allocate_batch next count with
  | (Ok l, next') => next ≠ 0 ∧ l = seqZ next count ∧ next_ok next' ∧ bound next' = next + count
  | (Err _, next') => next' = next
  end.
Proof.
  unfold next_ok. intros Hn Hc. unfold allocate_batch. destruct (Z.eqb_spec count 0); [lia|]. unfold try_batch.
  destruct (Z.eqb_spec next 0); [done|]. unfold U64_MAX. destruct (Z.ltb_spec (2 ^ 64 - 1) (next + (count - 1))); [done|].
  split; [done|]. unfold revisions, bound. replace (next + (count - 1) - next + 1) with count by lia. split; [done|].
  destruct (Z.eqb_spec (next + (count - 1)) (2 ^ 64 - 1)).
  - rewrite Z.eqb_refl. lia.
  - destruct (Z.eqb_spec (next + (count - 1) + 1) 0); lia.
Qed.

Section reservations.
Context {Context : Type}.
Implicit Types s : ChunkStore (Context := Context).

(** [s] with the counter moved on. *)
Definition with_next (next : Z) s : ChunkStore := mk_store (columns s) next (cached_snapshot s).

Lemma wp_alloc s (Q : result CollisionRevisionError Z → ChunkStore → Prop) :
  next_ok (next_revision s) → Q (Err Exhausted) s →
  (∀ r next, 1 ≤ r → bound (next_revision s) ≤ r < bound next → next_ok next → Q (Ok r) (with_next next s)) →
  wp alloc s Q.
Proof using Type.
  intros Hn He Hr. unfold wp, alloc, allocate.
  pose proof (allocate_batch_spec (next_revision s) 1 Hn ltac:(lia)) as H.
  destruct (allocate_batch (next_revision s) 1) as [[l|[]] next].
  - destruct H as (H0 & -> & Hok & Hb). change (seqZ (next_revision s) 1) with [next_revision s].
    eexists _, _. split; [done|]. apply (Hr (next_revision s) next); try done.
    + unfold next_ok in Hn. lia.
    + unfold bound at 1. destruct (Z.eqb_spec (next_revision s) 0); lia.
  - subst next. eexists _, _. split; [done|]. destruct s. by apply He.
Qed.

(** Reserving one identity, or none. *)
Lemma wp_reserve b s (Q : result CollisionRevisionError (option Z) → ChunkStore → Prop) :
  next_ok (next_revision s) →
  (b = false → Q (Ok None) s) →
  (b = true → Q (Err Exhausted) s) →
  (∀ r next, b = true → 1 ≤ r → bound (next_revision s) ≤ r < bound next → next_ok next → Q (Ok (Some r)) (with_next next s)) →
  wp (reserve_if b) s Q.
Proof using Type.
  intros Hn Hf He Hr. unfold reserve_if. destruct b; [|apply wp_ret; by apply Hf]. wp_step.
  apply wp_alloc; [done|by apply He|]. intros r next H1 H2 H3. wp_step. by apply Hr.
Qed.

Lemma wp_reserve_loaded key s (Q : result CollisionRevisionError (option Z) → ChunkStore → Prop) :
  wp (reserve_if (is_sub_chunk_loaded (columns s) key)) s Q → wp (reserve_loaded_change key) s Q.
Proof using Type. intros H. unfold reserve_loaded_change. wp_steps. done. Qed.

Lemma wp_reserve_actor chunk changed s (Q : result CollisionRevisionError (option Z) → ChunkStore → Prop) :
  wp (reserve_if (changed && bool_decide (is_Some (collision_revisions (columns s) !! chunk)))) s Q →
  wp (reserve_actor_change chunk changed) s Q.
Proof using Type. intros H. unfold reserve_actor_change. wp_steps. done. Qed.

Lemma wp_reserve_replacement chunk scope m s (Q : result CollisionRevisionError (option Z) → ChunkStore → Prop) :
  wp (reserve_if (bool_decide (shape_actors (scoped_entities scope (stored_entities (columns s) chunk)) ≠ shape_actors m)
        && bool_decide (is_Some (collision_revisions (columns s) !! chunk)))) s Q →
  wp (reserve_actor_replacement chunk scope m) s Q.
Proof using Type. intros H. unfold reserve_actor_replacement. wp_steps. by apply wp_reserve_actor. Qed.

(** Publishing a reservation. *)
Definition published (key : ChunkKey) (revision : option Z) s : ChunkStore :=
  match revision with
  | None => s
  | Some r => mk_store (on_revisions (insert key (mk_revision key
      (match collision_revisions (columns s) !! key with Some c => Z.max (cr_revision c) r | None => r end))) (columns s))
      (next_revision s) None
  end.

Lemma wp_apply_reserved {E} key revision s (Q : result E unit → ChunkStore → Prop) :
  Q (Ok ()) (published key revision s) → wp (apply_reserved_revision key revision) s Q.
Proof using Type.
  intros H. unfold apply_reserved_revision. destruct revision as [r|]; cbv iota; [|by wp_step]. unfold set_collision_revision.
  wp_steps. done.
Qed.
End reservations.

(** ** What collision queries read *)

Section views.
Context {Context : Type}.
#[local] Notation Chunk := (Chunk (Context := Context)).
#[local] Notation Columns := (Columns (Context := Context)).
#[local] Notation ChunkStore := (ChunkStore (Context := Context)).

(** A section without its wire identity. *)
Definition section_view (s : SubChunk Context) : Z * option Z * list PalettedStorage := (version s, y_index s, storages s).
Definition chunk_sections (o : option Chunk) : gmap Z (Z * option Z * list PalettedStorage) :=
  section_view <$> default ∅ (sub_chunks <$> o).
Definition chunk_entities (o : option Chunk) : gmap BlockEntityKey BlockEntityNbt := default ∅ (block_entities <$> o).

(** Whether the section at [y] is known, for a column loaded as a whole or section by section. *)
Definition knows (loaded : bool) (ys : option (gset Z)) (y : Z) : bool :=
  loaded || match ys with Some ys => bool_decide (y ∈ ys) | None => false end.

Definition column_view (loaded : bool) (ys : option (gset Z)) (o : option Chunk) :=
  (loaded, ys, filter (λ e, Is_true (knows loaded ys (fst e))) (chunk_sections o), shape_actors (chunk_entities o)).

(** The collision-relevant contents of a column: authority, the sections it covers and the actors. *)
Definition collision_view (c : Columns) (key : ChunkKey) :=
  column_view (is_chunk_loaded c key) (authoritative_sub_chunks c !! key) (chunks c !! key).

Definition revision_at (c : Columns) (key : ChunkKey) : option Z := cr_revision <$> collision_revisions c !! key.

(** ** Invariant *)

Context (sha256 : bytes → bytes).

(** A record the scanner built. *)
Definition nbt_genuine (nbt : BlockEntityNbt) : Prop := ∃ e, scan_prefix sha256 (nbt_bytes nbt) = Ok (nbt, nbt_len nbt, e).

Lemma genuine_eq a b : nbt_genuine a → nbt_genuine b → nbt_bytes a = nbt_bytes b → a = b.
Proof using Type. intros [e Ha] [e' Hb] Heq. rewrite Heq in Ha. congruence. Qed.

Definition section_sound (s : SubChunk Context) : Prop := Forall storage_ok (storages s) ∧ storages s ≠ [].

Record column_sound (c : DecodedBiomeColumn) : Prop := {
  cs_storages : Forall storage_ok (column_storages c);
  cs_length : Z.of_nat (length (column_storages c)) < 2 ^ 31;
}.

(** Block entities within the limits of one chunk. *)
Record entities_ok (key : ChunkKey) (m : gmap BlockEntityKey BlockEntityNbt) : Prop := {
  eo_entities : map_Forall (λ k nbt, bk_chunk k = key ∧ nbt_genuine nbt) m;
  eo_count : Z.of_nat (size m) ≤ MAX_BLOCK_ENTITIES_PER_CHUNK;
  eo_budget : total_bytes m ≤ MAX_BLOCK_ENTITY_BYTES_PER_CHUNK;
}.

Record chunk_sound (key : ChunkKey) (c : Chunk) : Prop := {
  co_sections : map_Forall (λ _ s, section_sound s) (sub_chunks c);
  co_biomes b : biomes c = Some b → column_sound b;
  co_entities : entities_ok key (block_entities c);
  co_bytes : block_entity_bytes c = total_bytes (block_entities c);
}.
(** A stored chunk holds something. *)
Definition chunk_ok (key : ChunkKey) (c : Chunk) : Prop := chunk_sound key c ∧ chunk_is_empty c = false.

Record columns_ok (c : Columns) (next : Z) : Prop := {
  ok_chunks : map_Forall chunk_ok (chunks c);
  ok_disjoint k : k ∈ loaded_chunks c → authoritative_sub_chunks c !! k = None;
  ok_known k : is_Some (collision_revisions c !! k) ↔ k ∈ loaded_chunks c ∨ is_Some (authoritative_sub_chunks c !! k);
  ok_revision k r : collision_revisions c !! k = Some r → cr_chunk r = k ∧ 1 ≤ cr_revision r < bound next;
}.

(** [snap] answers collision queries as [c] does. *)
Record agrees (snap c : Columns) : Prop := {
  ag_loaded : loaded_chunks snap = loaded_chunks c;
  ag_authority : authoritative_sub_chunks snap = authoritative_sub_chunks c;
  ag_revisions : collision_revisions snap = collision_revisions c;
  ag_sections k : chunk_sections (chunks snap !! k) = chunk_sections (chunks c !! k);
  ag_view k : is_Some (collision_revisions c !! k) → collision_view snap k = collision_view c k;
}.

Record store_ok (s : ChunkStore) : Prop := {
  so_next : next_ok (next_revision s);
  so_columns : columns_ok (columns s) (next_revision s);
  so_snapshot snap : cached_snapshot s = Some snap → agrees snap (columns s);
}.

(** ** Before and after *)

(** Same authority, revisions and sections. *)
Record same_index (c c' : Columns) : Prop := {
  si_loaded : loaded_chunks c' = loaded_chunks c;
  si_authority : authoritative_sub_chunks c' = authoritative_sub_chunks c;
  si_revisions : collision_revisions c' = collision_revisions c;
  si_sections k : chunk_sections (chunks c' !! k) = chunk_sections (chunks c !! k);
}.

Record evolves (s s' : ChunkStore) : Prop := {
  ev_next : bound (next_revision s) ≤ bound (next_revision s');
  ev_view k r : revision_at (columns s') k = Some r →
    (revision_at (columns s) k = Some r ∧ collision_view (columns s') k = collision_view (columns s) k) ∨
    bound (next_revision s) ≤ r;
  ev_cache : cached_snapshot s' = None ∨
    (cached_snapshot s' = cached_snapshot s ∧ same_index (columns s) (columns s'));
}.

Lemma evolves_refl s : evolves s s.
Proof using Type. split; [lia|by left|]. right. split; [done|]. by split. Qed.

Lemma evolves_trans s1 s2 s3 : evolves s1 s2 → evolves s2 s3 → evolves s1 s3.
Proof using Type.
  intros [N1 V1 C1] [N2 V2 C2]. split; [lia| |].
  - intros k r [[Hr Hv]|Hr]%V2; [|right; lia]. apply V1 in Hr as [[Hr Hv']|Hr]; [left|by right].
    split; [done|]. by rewrite Hv.
  - destruct C2 as [->|[-> [L2 A2 R2 S2]]]; [by left|]. destruct C1 as [->|[-> [L1 A1 R1 S1]]]; [by left|right].
    split; [done|]. split; congruence.
Qed.

(** A snapshot that stays cached is still current. *)
Lemma evolves_snapshot s s' :
  store_ok s → evolves s s' → ∀ snap, cached_snapshot s' = Some snap → agrees snap (columns s').
Proof using Type.
  intros Hok [_ HV [Hc|[Hc [HL HA HR HS]]]] snap Hsnap; [congruence|].
  rewrite Hc in Hsnap. destruct (so_snapshot _ Hok _ Hsnap) as [L A R S V]. split; [congruence..|].
  intros k Hk. rewrite HR in Hk. rewrite V by done. destruct Hk as [r Hr].
  destruct (HV k (cr_revision r)) as [[_ ->]|Hge]; [|done|].
  - unfold revision_at. by rewrite HR, Hr.
  - destruct (ok_revision _ _ (so_columns _ Hok) k r Hr). lia.
Qed.

(** ** Changing one column *)

(** The columns with [o] in the place of [key]. *)
Definition put (key : ChunkKey) (o : option Chunk) (c : Columns) : Columns := on_chunks (partial_alter (λ _, o) key) c.
Definition prune (c : Chunk) : option Chunk := if chunk_is_empty c then None else Some c.

Lemma put_lookup key o c : chunks (put key o c) !! key = o.
Proof using Type. apply lookup_partial_alter_eq. Qed.
Lemma put_lookup_ne key o c k : k ≠ key → chunks (put key o c) !! k = chunks c !! k.
Proof using Type. intros H. by apply lookup_partial_alter_ne. Qed.

Lemma update_entry_put key f c : on_chunks (update_entry key f) c = put key (Some (f (default chunk_default (chunks c !! key)))) c.
Proof using Type. done. Qed.

Lemma drop_empty_put key ch c : on_chunks (drop_empty key) (put key (Some ch) c) = put key (prune ch) c.
Proof using Type.
  unfold put, on_chunks, drop_empty, prune. cbn [chunks loaded_chunks authoritative_sub_chunks collision_revisions]. f_equal.
  rewrite lookup_partial_alter_eq. destruct (chunk_is_empty ch); [|done].
  apply map_eq. intros k. destruct (decide (k = key)) as [Hk|Hk].
  - subst k. by rewrite lookup_delete_eq, lookup_partial_alter_eq.
  - by rewrite lookup_delete_ne, !lookup_partial_alter_ne.
Qed.

Lemma collision_view_put key o c k :
  collision_view (put key o c) k =
  if decide (k = key) then column_view (is_chunk_loaded c key) (authoritative_sub_chunks c !! key) o else collision_view c k.
Proof using Type.
  unfold collision_view. case_decide as Hk; [subst k; by rewrite put_lookup|by rewrite put_lookup_ne].
Qed.

Lemma with_next_ok next s :
  store_ok s → next_ok next → bound (next_revision s) ≤ bound next → store_ok (with_next next s) ∧ evolves s (with_next next s).
Proof using Type.
  intros [Hn [Hc Hd Hk Hr] Hs] Hok Hb. split.
  - split; [done| |done]. split; try done. intros k r Hkr. destruct (Hr k r Hkr). simpl. split; [done|lia].
  - split; [done|by left|]. right. split; [done|]. by split.
Qed.

(** [s1] is [s] after a reservation made when [b] holds. *)
Record reserved (s : ChunkStore) (b : bool) (rev : option Z) (s1 : ChunkStore) : Prop := {
  rs_ok : store_ok s1;
  rs_evolves : evolves s s1;
  rs_columns : columns s1 = columns s;
  rs_cached : cached_snapshot s1 = cached_snapshot s;
  rs_none : rev = None → b = false;
  rs_some r : rev = Some r → b = true ∧ 1 ≤ r ∧ bound (next_revision s) ≤ r < bound (next_revision s1);
}.

Lemma wp_reserved b s (Q : result CollisionRevisionError (option Z) → ChunkStore → Prop) :
  store_ok s → Q (Err Exhausted) s → (∀ rev s1, reserved s b rev s1 → Q (Ok rev) s1) → wp (reserve_if b) s Q.
Proof using Type.
  intros Hs He HQ. apply wp_reserve; [apply (so_next _ Hs)| |done|].
  - intros ->. apply HQ. split; try done. apply evolves_refl.
  - intros r next -> Hr1 Hr2 Hn. destruct (with_next_ok next s Hs Hn ltac:(lia)) as [H1 H2]. apply HQ. split; try done.
    by intros r' [= <-].
Qed.

(** [s1] is the store when a column is written, [s0] the one before the reservation. *)
Lemma put_ok s0 s1 key o rev cache :
  store_ok s0 → store_ok s1 → evolves s0 s1 →
  (∀ c, o = Some c → chunk_ok key c) →
  (rev = None → revision_at (columns s1) key = None ∨
     column_view (is_chunk_loaded (columns s1) key) (authoritative_sub_chunks (columns s1) !! key) o = collision_view (columns s1) key) →
  (∀ r, rev = Some r → 1 ≤ r ∧ bound (next_revision s0) ≤ r < bound (next_revision s1) ∧ is_Some (collision_revisions (columns s1) !! key)) →
  (cache = None ∨ cache = cached_snapshot s1 ∧ (rev = None → chunk_sections o = chunk_sections (chunks (columns s1) !! key))) →
  let s' := published key rev (mk_store (put key o (columns s1)) (next_revision s1) cache) in
  store_ok s' ∧ evolves s0 s'.
Proof using Type.
  intros H0 H1 Hev Hchunk Hnone Hsome Hcache s'.
  assert (Hcols : columns_ok (columns s') (next_revision s')).
  { destruct (so_columns _ H1) as [Hc Hd Hk Hr].
    assert (Hchunks : map_Forall chunk_ok (chunks (put key o (columns s1)))).
    { intros k c. destruct (decide (k = key)) as [Heq|Hne]; [subst k; rewrite put_lookup; apply Hchunk|].
      rewrite put_lookup_ne by done. apply Hc. }
    subst s'. destruct rev as [r|]; [|by split]. destruct (Hsome r eq_refl) as (Hr1 & Hr2 & [old Hold]).
    unfold published. cbn [columns collision_revisions put on_chunks next_revision]. split; try done; cbn [collision_revisions on_revisions].
    - intros k. cbn. rewrite <-Hk. destruct (decide (k = key)) as [Heq|Hne].
      + subst k. rewrite lookup_insert_eq, Hold. split; by eexists.
      + by rewrite lookup_insert_ne.
    - intros k r'. cbn. destruct (decide (k = key)) as [Heq|Hne].
      + subst k. rewrite lookup_insert_eq, Hold. intros [= <-]. destruct (Hr _ _ Hold). simpl. split; [done|lia].
      + rewrite lookup_insert_ne by done. apply Hr. }
  assert (evolves s0 s') as Hev'.
  { destruct Hev as [Hn Hv Hca]. split.
    - by destruct rev.
    - intros k r. destruct rev as [r0|]; subst s'; unfold published; cbn [columns].
      + destruct (Hsome r0 eq_refl) as (_ & Hr2 & [old Hold]). unfold revision_at.
        cbn [collision_revisions put on_chunks on_revisions]. rewrite Hold. destruct (decide (k = key)) as [Heq|Hne].
        * subst k. rewrite lookup_insert_eq. simpl. intros [= <-]. right. lia.
        * rewrite lookup_insert_ne by done. intros [[Hr Hw]|?]%Hv; [left|by right]. split; [done|]. rewrite <-Hw.
          change (collision_view (put key o (columns s1)) k = collision_view (columns s1) k).
          rewrite collision_view_put. by rewrite decide_False.
      + intros Hr. change (revision_at (columns s1) k = Some r) in Hr.
        rewrite collision_view_put. destruct (decide (k = key)) as [Heq|Hne]; [subst k|by apply Hv].
        destruct (Hnone eq_refl) as [?|Hsame]; [congruence|]. rewrite Hsame. by apply Hv.
    - destruct rev as [r0|]; [by left|]. subst s'. unfold published. cbn [cached_snapshot columns].
      destruct Hcache as [->|[-> Hsec]]; [by left|]. destruct Hca as [->|[-> [HL HA HR HS]]]; [by left|right].
      split; [done|]. split; try done. intros k. destruct (decide (k = key)) as [Heq|Hne].
      + subst k. rewrite put_lookup, <-HS. by apply Hsec.
      + rewrite put_lookup_ne by done. apply HS. }
  split; [|done]. split; [|done|].
  - subst s'. destruct rev; apply (so_next _ H1).
  - by apply (evolves_snapshot s0).
Qed.

(** ** Parts of a chunk *)

Lemma total_bytes_sum m : sum_bytes m = total_bytes m.
Proof using Type.
  unfold sum_bytes, total_bytes. induction m as [|k nbt m Hk IH] using map_ind; [by rewrite !map_fold_empty|].
  rewrite !map_fold_insert_L by (done || (intros; lia)). rewrite IH. lia.
Qed.

Lemma saturating_bytes_total m : saturating_bytes m = Z.min (total_bytes m) (2 ^ 64 - 1).
Proof using Type.
  unfold saturating_bytes, total_bytes, usize_saturating_add. induction m as [|k nbt m Hk IH] using map_ind; [by rewrite !map_fold_empty|].
  rewrite !map_fold_insert_L; try done; [|intros; lia|intros; pose proof (nbt_len_nonneg z1); pose proof (nbt_len_nonneg z2); lia].
  rewrite IH. pose proof (nbt_len_nonneg nbt). lia.
Qed.

Lemma total_bytes_filter (P : BlockEntityKey * BlockEntityNbt → Prop) `{!∀ e, Decision (P e)} (m : gmap BlockEntityKey BlockEntityNbt) :
  total_bytes m = total_bytes (filter P m) + total_bytes (filter (λ e, ¬ P e) m).
Proof using Type.
  induction m as [|k nbt m Hk IH] using map_ind; [by rewrite !map_filter_empty, total_bytes_empty|].
  rewrite total_bytes_insert, IH by done. destruct (decide (P (k, nbt))) as [Hp|Hp].
  - rewrite map_filter_insert_True by done. rewrite map_filter_insert_False by (intros Hnp; by apply Hnp).
    rewrite (delete_id m) by done. rewrite total_bytes_insert; [lia|]. rewrite map_lookup_filter_None. by left.
  - rewrite map_filter_insert_False by done. rewrite map_filter_insert_True by done.
    rewrite (delete_id m) by done. rewrite total_bytes_insert; [lia|]. rewrite map_lookup_filter_None. by left.
Qed.

Lemma size_filter (P : BlockEntityKey * BlockEntityNbt → Prop) `{!∀ e, Decision (P e)} (m : gmap BlockEntityKey BlockEntityNbt) :
  size m = (size (filter P m) + size (filter (λ e, ¬ P e) m))%nat.
Proof using Type.
  induction m as [|k nbt m Hk IH] using map_ind; [by rewrite !map_filter_empty, map_size_empty|].
  rewrite map_size_insert_None, IH by done. destruct (decide (P (k, nbt))) as [Hp|Hp].
  - rewrite map_filter_insert_True by done. rewrite map_filter_insert_False by (intros Hnp; by apply Hnp).
    rewrite (delete_id m) by done. rewrite map_size_insert_None; [lia|]. rewrite map_lookup_filter_None. by left.
  - rewrite map_filter_insert_False by done. rewrite map_filter_insert_True by done.
    rewrite (delete_id m) by done. rewrite map_size_insert_None; [lia|]. rewrite map_lookup_filter_None. by left.
Qed.

Lemma total_bytes_union (m m' : gmap BlockEntityKey BlockEntityNbt) :
  m ##ₘ m' → total_bytes (m ∪ m') = total_bytes m + total_bytes m'.
Proof using Type.
  induction m as [|k nbt m Hk IH] using map_ind; intros Hd; [by rewrite (left_id ∅ (∪)), total_bytes_empty|].
  apply map_disjoint_insert_l in Hd as [Hk' Hd]. rewrite <-insert_union_l, !total_bytes_insert, IH by (done || by apply lookup_union_None). lia.
Qed.

(** Keeping the handles of equal records changes nothing. *)
Lemma reuse_genuine (previous m : gmap BlockEntityKey BlockEntityNbt) :
  map_Forall (λ _ nbt, nbt_genuine nbt) previous → map_Forall (λ _ nbt, nbt_genuine nbt) m →
  reuse_equal_entities previous m = m.
Proof using Type.
  intros Hp Hm. apply map_eq. intros k. unfold reuse_equal_entities. rewrite map_lookup_imap.
  destruct (m !! k) as [nbt|] eqn:E; [|done]. cbn [mbind option_bind]. destruct (previous !! k) as [p|] eqn:E'; [|done].
  unfold nbt_eqb. case_bool_decide as Heq; [|done]. f_equal. apply genuine_eq; [by eapply Hp|by eapply Hm|done].
Qed.

Lemma total_bytes_empty_map (m : gmap BlockEntityKey BlockEntityNbt) : size m = 0%nat → total_bytes m = 0.
Proof using Type. intros ->%map_size_empty_inv. apply total_bytes_empty. Qed.

Lemma entities_ok_empty key : entities_ok key ∅.
Proof using Type. split; [apply map_Forall_empty|by rewrite map_size_empty|by rewrite total_bytes_empty]. Qed.

Lemma chunk_default_sound key : chunk_sound key chunk_default.
Proof using Type.
  split; [apply map_Forall_empty|done|apply entities_ok_empty|]. simpl. by rewrite total_bytes_empty.
Qed.

Lemma stored_sound s key : store_ok s → chunk_sound key (default chunk_default (chunks (columns s) !! key)).
Proof using Type.
  intros Hs. destruct (chunks (columns s) !! key) as [c|] eqn:E; simpl; [|apply chunk_default_sound].
  by destruct (ok_chunks _ _ (so_columns _ Hs) key c E).
Qed.

Lemma on_sub_chunks_sound key f c :
  chunk_sound key c → map_Forall (λ _ s, section_sound s) (f (sub_chunks c)) → chunk_sound key (on_sub_chunks f c).
Proof using Type. intros [H1 H2 H3 H4] Hf. by split. Qed.

Lemma with_entities_sound key m c :
  chunk_sound key c → entities_ok key m → chunk_sound key (with_entities m (total_bytes m) c).
Proof using Type. intros [H1 H2 H3 H4] Hm. by split. Qed.

Lemma with_biomes_sound key b c : chunk_sound key c → column_sound b → chunk_sound key (with_biomes (Some b) c).
Proof using Type. intros [H1 H2 H3 H4] Hb. split; try done. by intros b' [= <-]. Qed.

Lemma prune_ok key c : chunk_sound key c → ∀ c', prune c = Some c' → chunk_ok key c'.
Proof using Type. unfold prune. intros Hc c'. destruct (chunk_is_empty c) eqn:E; [done|]. by intros [= <-]. Qed.

Lemma chunk_is_empty_iff (c : Chunk) : chunk_is_empty c = true ↔ sub_chunks c = ∅ ∧ biomes c = None ∧ block_entities c = ∅.
Proof using Type.
  unfold chunk_is_empty. rewrite !andb_true_iff, !Nat.eqb_eq, !map_size_empty_iff, bool_decide_eq_true. tauto.
Qed.

(** The parts of a chunk that may be absent. *)
Definition sections_of (o : option Chunk) : gmap Z (SubChunk Context) := default ∅ (sub_chunks <$> o).
Definition biomes_of (o : option Chunk) : option DecodedBiomeColumn := o ≫= biomes.

Lemma sections_of_prune (c : Chunk) : sections_of (prune c) = sub_chunks c.
Proof using Type. unfold prune. destruct (chunk_is_empty c) eqn:E; [|done]. by apply chunk_is_empty_iff in E as (-> & _ & _). Qed.
Lemma biomes_of_prune (c : Chunk) : biomes_of (prune c) = biomes c.
Proof using Type. unfold prune. destruct (chunk_is_empty c) eqn:E; [|done]. by apply chunk_is_empty_iff in E as (_ & -> & _). Qed.

Lemma chunk_sections_prune (c : Chunk) : chunk_sections (prune c) = section_view <$> sub_chunks c.
Proof using Type.
  unfold prune, chunk_sections. destruct (chunk_is_empty c) eqn:E; [|done]. apply chunk_is_empty_iff in E as (-> & _ & _).
  simpl. done.
Qed.

Lemma chunk_entities_prune (c : Chunk) : chunk_entities (prune c) = block_entities c.
Proof using Type.
  unfold prune, chunk_entities. destruct (chunk_is_empty c) eqn:E; [|done]. by apply chunk_is_empty_iff in E as (_ & _ & ->).
Qed.

Lemma sections_default (o : option Chunk) : sub_chunks (default chunk_default o) = default ∅ (sub_chunks <$> o).
Proof using Type. by destruct o. Qed.
Lemma entities_default (o : option Chunk) : block_entities (default chunk_default o) = chunk_entities o.
Proof using Type. by destruct o. Qed.

(** Views agree when the known sections and the actors do. *)
Lemma column_view_eq loaded ys (o o' : option Chunk) :
  (∀ y, knows loaded ys y = true → chunk_sections o !! y = chunk_sections o' !! y) →
  shape_actors (chunk_entities o) = shape_actors (chunk_entities o') →
  column_view loaded ys o = column_view loaded ys o'.
Proof using Type.
  intros Hs Ha. unfold column_view. rewrite Ha. f_equal. f_equal. apply map_eq. intros y.
  apply option_eq. intros v. rewrite !map_lookup_filter_Some. simpl. split.
  - intros [Hy Hk]. split; [|done]. rewrite <-Hs; [done|]. by apply Is_true_eq_true.
  - intros [Hy Hk]. split; [|done]. rewrite Hs; [done|]. by apply Is_true_eq_true.
Qed.

Lemma is_sub_chunk_loaded_knows (c : Columns) key :
  is_sub_chunk_loaded c key = knows (is_chunk_loaded c (sk_chunk key)) (authoritative_sub_chunks c !! sk_chunk key) (sk_y key).
Proof using Type. done. Qed.

(** A known section belongs to a column with a revision. *)
Lemma loaded_has_revision c next key :
  columns_ok c next → is_sub_chunk_loaded c key = true → is_Some (collision_revisions c !! sk_chunk key).
Proof using Type.
  intros Hc H. apply (ok_known _ _ Hc). unfold is_sub_chunk_loaded in H. apply orb_prop in H as [H%bool_decide_eq_true_1|H].
  - by left.
  - right. destruct (authoritative_sub_chunks c !! sk_chunk key); [by eexists|done].
Qed.

Lemma revision_at_None (c : Columns) key : revision_at c key = None ↔ collision_revisions c !! key = None.
Proof using Type. unfold revision_at. destruct (collision_revisions c !! key); by split. Qed.
End views.
