(* ===== verification/StoreOpsSpec.v ===== *)
(** * The store's operations keep its invariant

    For each operation on sections and block entities: it does not panic, keeps the invariant, evolves
    the store, says which column it writes and changes nothing when it fails. *)
From stdpp Require Import base numbers list gmap fin_maps.
From S2P Require Import Prelude Packed Palette PaletteSpec Bytes NbtTree NbtScan Keys Revisions Wire SubChunk SubChunkSpec SubChunkTheorems Biome Entities EntityTheorems.
From S2P Require Import LevelChunk Store StoreCommits StoreInv.
#[local] Open Scope Z_scope.

Section spec.
Context {Context : Type} (sha256 : bytes → bytes).
#[local] Notation Chunk := (Chunk (Context := Context)).
#[local] Notation Columns := (Columns (Context := Context)).
#[local] Notation ChunkStore := (ChunkStore (Context := Context)).
#[local] Notation store_ok := (store_ok (Context := Context) sha256).
Implicit Types (s : ChunkStore) (c : Columns) (decoded : SubChunk Context).

(** [c'] is [c] with [o] for the chunk of [key], and perhaps another revision there. *)
Record writes (key : ChunkKey) (o : option Chunk) c c' : Prop := {
  wr_chunks : chunks c' = chunks (put key o c);
  wr_loaded : loaded_chunks c' = loaded_chunks c;
  wr_authority : authoritative_sub_chunks c' = authoritative_sub_chunks c;
  wr_revisions k : k ≠ key → collision_revisions c' !! k = collision_revisions c !! k;
}.

Lemma writes_trans key o o' c c' c'' : writes key o c c' → writes key o' c' c'' → writes key o' c c''.
Proof using Type.
  intros [H1 H2 H3 H4] [K1 K2 K3 K4]. split; [|congruence|congruence|].
  - rewrite K1. apply map_eq. intros k. destruct (decide (k = key)) as [Hk|Hk]; [subst k; by rewrite !put_lookup|].
    rewrite !put_lookup_ne, H1, put_lookup_ne by done. done.
  - intros k Hk. by rewrite K4, H4.
Qed.

Lemma writes_same key c : writes key (chunks c !! key) c c.
Proof using Type.
  split; try done. apply map_eq. intros k. destruct (decide (k = key)) as [Hk|Hk]; [subst k; by rewrite put_lookup|by rewrite put_lookup_ne].
Qed.

Lemma published_writes key rev o c next cache : writes key o c (columns (published key rev (mk_store (put key o c) next cache))).
Proof using Type. destruct rev as [r|]; (split; [done|done|done|]); intros k Hk; [|done]. simpl. by rewrite lookup_insert_ne. Qed.

(** The outcome of an operation that started in [s]. *)
Definition outcome {E A} s (Q : A → Columns → Prop) (r : result E A) (s' : ChunkStore) : Prop :=
  store_ok s' ∧ evolves s s' ∧ match r with Ok a => Q a (columns s') | Err _ => columns s' = columns s end.

Lemma outcome_refl {E A} s (Q : A → Columns → Prop) (r : result E A) :
  store_ok s → match r with Ok a => Q a (columns s) | Err _ => True end → outcome s Q r s.
Proof using Type. intros Hs HQ. split; [done|]. split; [apply evolves_refl|]. by destruct r. Qed.

Lemma outcome_mono {E A} s (P Q : A → Columns → Prop) (r : result E A) s' :
  (∀ a c, P a c → Q a c) → outcome s P r s' → outcome s Q r s'.
Proof using Type. intros H (H1 & H2 & H3). split; [done|]. split; [done|]. destruct r; auto. Qed.

(** ** Authority *)

(** The columns once [key] is loaded as a whole, under a fresh revision. *)
Definition loaded_columns (key : ChunkKey) (r : Z) c : Columns :=
  mk_columns (chunks c) ({[key]} ∪ loaded_chunks c) (delete key (authoritative_sub_chunks c))
    (<[key := mk_revision key r]> (collision_revisions c)).

Lemma loaded_ok s key r next :
  store_ok s → 1 ≤ r → bound (next_revision s) ≤ r < bound next → next_ok next →
  let s' := mk_store (loaded_columns key r (columns s)) next None in
  store_ok s' ∧ evolves s s'.
Proof using Type.
  intros Hs H1 [H2 H3] H4. destruct (so_columns _ _ Hs) as [Oc Od Ok_ Or]. split.
  - split; [done| |done]. split; [done|..]; cbn; intros k.
    + intros [Hk|Hk]%elem_of_union; [apply elem_of_singleton in Hk as ->; by rewrite lookup_delete_eq|].
      destruct (decide (k = key)) as [->|Hne]; [by rewrite lookup_delete_eq|]. rewrite lookup_delete_ne by done. by apply Od.
    + destruct (decide (k = key)) as [->|Hne].
      * rewrite lookup_insert_eq. split; [intros _; left; apply elem_of_union_l, elem_of_singleton_2; done|by eexists].
      * rewrite lookup_insert_ne, lookup_delete_ne, Ok_, elem_of_union, elem_of_singleton by done. tauto.
    + intros k'. destruct (decide (k = key)) as [->|Hne].
      * rewrite lookup_insert_eq. intros [= <-]. simpl. split; [done|lia].
      * rewrite lookup_insert_ne by done. intros Hk. destruct (Or _ _ Hk). split; [done|lia].
  - split; [simpl; lia| |by left]. intros k r'. unfold revision_at, collision_view, is_chunk_loaded. cbn.
    destruct (decide (k = key)) as [->|Hne]; [rewrite lookup_insert_eq; intros [= <-]; by right|].
    rewrite lookup_insert_ne, lookup_delete_ne by done. intros Hr. left. split; [done|].
    by rewrite (bool_decide_ext (k ∈ {[key]} ∪ loaded_chunks (columns s)) (k ∈ loaded_chunks (columns s)))
      by (rewrite elem_of_union, elem_of_singleton; tauto).
Qed.

Lemma mark_chunk_loaded_spec key s :
  store_ok s →
  wp (mark_chunk_loaded key) s (outcome s (λ (fresh : bool) c',
    is_chunk_loaded c' key = true ∧ chunks c' = chunks (columns s) ∧ fresh = negb (is_chunk_loaded (columns s) key))).
Proof using Type.
  intros Hs. unfold mark_chunk_loaded. wp_steps. destruct (is_chunk_loaded (columns s) key) eqn:Hl.
  { wp_step. apply outcome_refl; [done|]. by rewrite Hl. }
  wp_step. apply wp_alloc; [apply (so_next _ _ Hs)|by apply outcome_refl|].
  intros r next H1 H2 H4. unfold set_collision_revision. wp_steps. unfold with_next. cbn [columns next_revision cached_snapshot].
  destruct (loaded_ok s key r next Hs H1 H2 H4) as [K1 K2]. split; [exact K1|]. split; [exact K2|].
  split_and!; [|done|done]. unfold is_chunk_loaded. cbn. apply bool_decide_eq_true_2, elem_of_union_l, elem_of_singleton_2. done.
Qed.

Lemma mark_sub_chunk_loaded_spec key s :
  store_ok s →
  wp (mark_sub_chunk_loaded key) s (outcome s (λ (fresh : bool) c',
    is_sub_chunk_loaded c' key = true ∧ chunks c' = chunks (columns s) ∧ fresh = negb (is_sub_chunk_loaded (columns s) key))).
Proof using Type.
  intros Hs. unfold mark_sub_chunk_loaded. wp_steps. destruct (is_sub_chunk_loaded (columns s) key) eqn:Hl.
  { wp_step. apply outcome_refl; [done|]. by rewrite Hl. }
  wp_step. apply wp_alloc; [apply (so_next _ _ Hs)|by apply outcome_refl|].
  intros r next H1 [H2 H3] H4. unfold set_collision_revision. wp_steps. unfold with_next. cbn [columns next_revision cached_snapshot].
  destruct (so_columns _ _ Hs) as [Oc Od Ok_ Or]. pose proof Hl as Hl'.
  unfold is_sub_chunk_loaded in Hl'. apply orb_false_iff in Hl' as [Hnl%bool_decide_eq_false_1 _]. split; [split|split].
  - done.
  - split; [done|..]; cbn; intros k.
    + intros Hk. rewrite lookup_insert_ne by (intros Heq; subst k; done). by apply Od.
    + destruct (decide (k = sk_chunk key)) as [->|Hne].
      * rewrite !lookup_insert_eq. split; [intros _; right; by eexists|by eexists].
      * by rewrite !lookup_insert_ne.
    + intros k'. destruct (decide (k = sk_chunk key)) as [->|Hne].
      * rewrite lookup_insert_eq. intros [= <-]. simpl. split; [done|lia].
      * rewrite lookup_insert_ne by done. intros Hk. destruct (Or _ _ Hk). split; [done|lia].
  - done.
  - split; [simpl; lia| |by left]. intros k r'. unfold revision_at, collision_view. cbn.
    destruct (decide (k = sk_chunk key)) as [->|Hne]; [rewrite lookup_insert_eq; intros [= <-]; by right|].
    rewrite !lookup_insert_ne by done. intros Hr. by left.
  - split_and!; [|done|done]. unfold is_sub_chunk_loaded. cbn. rewrite lookup_insert_eq. apply orb_true_iff. right.
    apply bool_decide_eq_true_2, elem_of_union_l, elem_of_singleton_2. done.
Qed.

(** ** Sections *)

(** [o'] is [o] with other sections. *)
Definition with_sections (o : option Chunk) (f : gmap Z (SubChunk Context) → gmap Z (SubChunk Context)) (o' : option Chunk) : Prop :=
  sections_of o' = f (sections_of o) ∧ biomes_of o' = biomes_of o ∧ chunk_entities o' = chunk_entities o.

Lemma with_sections_default o f : with_sections o f (Some (on_sub_chunks f (default chunk_default o))).
Proof using Type. by destruct o. Qed.
Lemma with_sections_prune o f : with_sections o f (prune (on_sub_chunks f (default chunk_default o))).
Proof using Type.
  destruct (with_sections_default o f) as (H1 & H2 & H3). split_and!.
  - by rewrite sections_of_prune.
  - by rewrite biomes_of_prune.
  - by rewrite chunk_entities_prune.
Qed.

(** Changing the section at an unknown Y is invisible. *)
Lemma with_sections_view o f o' loaded ys y :
  with_sections o f o' → knows loaded ys y = false → (∀ m y', y' ≠ y → f m !! y' = m !! y') →
  column_view loaded ys o' = column_view loaded ys o.
Proof using Type.
  intros (H1 & _ & H3) Hy Hf. apply column_view_eq; [|by rewrite H3]. intros y' Hk. unfold chunk_sections.
  change (default ∅ (sub_chunks <$> o')) with (sections_of o'). change (default ∅ (sub_chunks <$> o)) with (sections_of o).
  rewrite H1, !lookup_fmap, Hf; [done|]. intros ->. congruence.
Qed.

(** Writing one section of a column, with the revision [reserve_loaded_change] reserved for it. *)
Lemma section_written s s1 key f (o : option Chunk) rev :
  store_ok s → reserved sha256 s (is_sub_chunk_loaded (columns s) key) rev s1 →
  with_sections (chunks (columns s) !! sk_chunk key) f o → (∀ m y, y ≠ sk_y key → f m !! y = m !! y) →
  (∀ ch, o = Some ch → chunk_ok sha256 (sk_chunk key) ch) →
  let s' := published (sk_chunk key) rev (mk_store (put (sk_chunk key) o (columns s1)) (next_revision s1) None) in
  store_ok s' ∧ evolves s s' ∧ writes (sk_chunk key) o (columns s) (columns s').
Proof using Type.
  intros Hs [Hs1 Hev Hcols _ Hnone Hsome] Hsec Hf Hok s'.
  destruct (put_ok sha256 s s1 (sk_chunk key) o rev None Hs Hs1 Hev Hok) as [H1 H2].
  - intros Hr. right. rewrite Hcols. apply (with_sections_view _ f o _ _ (sk_y key)); [done| |done].
    rewrite <-is_sub_chunk_loaded_knows. by apply Hnone.
  - intros r Hr. destruct (Hsome r Hr) as (Hl & Hr1 & Hr2). split_and!; try done; try lia.
    rewrite Hcols. by eapply loaded_has_revision; [apply (so_columns _ _ Hs)|].
  - by left.
  - split; [done|]. split; [done|]. rewrite <-Hcols. apply published_writes.
Qed.

Definition removed_from (key : SubChunkKey) c c' : Prop :=
  ∃ o, writes (sk_chunk key) o c c' ∧ with_sections (chunks c !! sk_chunk key) (delete (sk_y key)) o.

Lemma contains_sub_chunk_iff c key : contains_sub_chunk c key = true ↔ ∃ chunk, chunks c !! sk_chunk key = Some chunk ∧ is_Some (sub_chunks chunk !! sk_y key).
Proof using Type.
  unfold contains_sub_chunk, sub_chunk. rewrite bool_decide_eq_true. destruct (chunks c !! sk_chunk key) as [chunk|]; simpl.
  - split; [by exists chunk|]. by intros (chunk' & [= <-] & ?).
  - split; [by intros [? ?]|by intros (? & ? & _)].
Qed.

Lemma wp_remove_without {E} key s chunk (Q : result E (option SubChunkKey) → ChunkStore → Prop) :
  chunks (columns s) !! sk_chunk key = Some chunk → is_Some (sub_chunks chunk !! sk_y key) →
  Q (Ok (Some key)) (mk_store (put (sk_chunk key) (prune (on_sub_chunks (delete (sk_y key)) chunk)) (columns s)) (next_revision s) None) →
  wp (remove_sub_chunk_without_revision key) s Q.
Proof using Type.
  intros Hc Hs HQ. unfold remove_sub_chunk_without_revision. wp_steps. rewrite Hc. wp_steps.
  rewrite update_entry_put, drop_empty_put, Hc. by rewrite bool_decide_eq_true_2.
Qed.

Lemma removed_ok s key chunk :
  store_ok s → chunks (columns s) !! sk_chunk key = Some chunk →
  ∀ ch, prune (on_sub_chunks (delete (sk_y key)) chunk) = Some ch → chunk_ok sha256 (sk_chunk key) ch.
Proof using Type.
  intros Hs Hc. apply prune_ok. destruct (ok_chunks _ _ _ (so_columns _ _ Hs) _ _ Hc) as [Hsound _].
  apply on_sub_chunks_sound; [done|]. apply map_Forall_delete, (co_sections _ _ _ Hsound).
Qed.

Lemma remove_sub_chunk_spec key s :
  store_ok s →
  wp (remove_sub_chunk key) s (outcome s (λ removed c',
    removed = (if contains_sub_chunk (columns s) key then Some key else None) ∧ removed_from key (columns s) c')).
Proof using Type.
  intros Hs. unfold remove_sub_chunk. wp_steps. destruct (contains_sub_chunk (columns s) key) eqn:Hc; cbn [negb].
  2:{ wp_step. apply outcome_refl; [done|]. split; [done|]. exists (chunks (columns s) !! sk_chunk key).
      split; [apply writes_same|]. split; [|done]. rewrite delete_id; [done|].
      unfold contains_sub_chunk, sub_chunk in Hc. apply bool_decide_eq_false_1 in Hc.
      destruct (chunks (columns s) !! sk_chunk key) as [chunk|] eqn:E; [|done]. simpl in *. by apply eq_None_not_Some. }
  pose proof Hc as (chunk & Hchunk & Hy)%contains_sub_chunk_iff. wp_step.
  apply wp_reserve_loaded, (wp_reserved sha256); [done|by apply outcome_refl|].
  intros rev s1 Hres. wp_step. pose proof (rs_columns _ _ _ _ _ Hres) as Hcols.
  eapply wp_remove_without; [by rewrite Hcols|done|]. wp_step. apply wp_apply_reserved. wp_step.
  destruct (section_written s s1 key (delete (sk_y key)) (prune (on_sub_chunks (delete (sk_y key)) chunk)) rev Hs Hres)
    as (H1 & H2 & H3).
  - rewrite Hchunk. exact (with_sections_prune (Some chunk) _).
  - intros m y Hne. by apply lookup_delete_ne.
  - by apply (removed_ok s).
  - split; [done|]. split; [done|]. split; [done|]. eexists. split; [done|]. rewrite Hchunk.
    exact (with_sections_prune (Some chunk) _).
Qed.

Definition inserted_into (key : SubChunkKey) (section : SubChunk Context) c c' : Prop :=
  ∃ o, writes (sk_chunk key) o c c' ∧ with_sections (chunks c !! sk_chunk key) (insert (sk_y key) section) o.

Lemma sub_chunk_eqb_total (a b : SubChunk Context) :
  Forall storage_ok (storages a) → Forall storage_ok (storages b) → is_Some (sub_chunk_eqb a b).
Proof using Type.
  intros Ha Hb. unfold sub_chunk_eqb. destruct (_ && _); [|by eexists].
  destruct (storages_eqb_sound _ _ Ha Hb) as (e & -> & _). by eexists.
Qed.

Lemma stored_section_sound s key section :
  store_ok s → sub_chunk (columns s) key = Some section → section_sound section.
Proof using Type.
  intros Hs. unfold sub_chunk. destruct (chunks (columns s) !! sk_chunk key) as [chunk|] eqn:E; [|done].
  destruct (ok_chunks _ _ _ (so_columns _ _ Hs) _ _ E) as [Hsound _]. apply (co_sections _ _ _ Hsound).
Qed.

Lemma commit_sub_chunk_spec key decoded s :
  store_ok s → Forall storage_ok (storages decoded) →
  wp (commit_sub_chunk key decoded) s (outcome s (λ changed c',
    if has_no_storages decoded then removed_from key (columns s) c' ∧ changed = (if contains_sub_chunk (columns s) key then Some key else None)
    else if decide ((current ← sub_chunk (columns s) key; sub_chunk_eqb current decoded) = Some true)
    then changed = None ∧ c' = columns s
    else changed = Some key ∧ inserted_into key decoded (columns s) c')).
Proof using Type.
  intros Hs Hd. unfold commit_sub_chunk. destruct (has_no_storages decoded) eqn:Hempty.
  { wp_step. eapply wp_mono; [by apply remove_sub_chunk_spec|]. intros r s' (H1 & H2 & H3). split; [done|]. split; [done|].
    destruct r as [a|e]; [|done]. by destruct H3. }
  wp_steps. set (same := match sub_chunk (columns s) key with Some current => sub_chunk_eqb current decoded | None => Some false end).
  assert (∃ b, same = Some b ∧ (b = true ↔ (current ← sub_chunk (columns s) key; sub_chunk_eqb current decoded) = Some true)) as (b & Hb & Hbt).
  { subst same. destruct (sub_chunk (columns s) key) as [current|] eqn:E; [|by exists false].
    destruct (sub_chunk_eqb_total current decoded) as [b Hb]; [|done|exists b; simpl; rewrite Hb; split; [done|]; split; congruence].
    by destruct (stored_section_sound s key current Hs E). }
  apply (wp_expect _ b); [done|]. destruct b.
  { wp_step. apply outcome_refl; [done|]. rewrite decide_True by by apply Hbt. done. }
  wp_step. wp_step. apply wp_reserve_loaded, (wp_reserved sha256); [done|by apply outcome_refl|].
  intros rev s1 Hres. wp_steps. apply wp_apply_reserved. wp_step. rewrite update_entry_put.
  pose proof (rs_columns _ _ _ _ _ Hres) as Hcols.
  destruct (section_written s s1 key (insert (sk_y key) decoded)
    (Some (on_sub_chunks (insert (sk_y key) decoded) (default chunk_default (chunks (columns s1) !! sk_chunk key)))) rev Hs Hres)
    as (H1 & H2 & H3).
  - rewrite Hcols. apply with_sections_default.
  - intros m y Hne. by apply lookup_insert_ne.
  - intros c [= <-]. rewrite Hcols. pose proof (stored_sound sha256 s (sk_chunk key) Hs) as Hsound. split.
    + apply on_sub_chunks_sound; [done|]. apply map_Forall_insert_2; [|apply (co_sections _ _ _ Hsound)].
      split; [done|]. unfold has_no_storages in Hempty. by apply bool_decide_eq_false_1 in Hempty.
    + apply not_true_iff_false. rewrite chunk_is_empty_iff. simpl. intros [H _]. by apply insert_non_empty in H.
  - split; [done|]. split; [done|]. rewrite decide_False by (rewrite <-Hbt; done). split; [done|].
    eexists. split; [done|]. rewrite Hcols. apply with_sections_default.
Qed.

(** What a commit makes of the sections of its column. *)
Definition section_after (key : SubChunkKey) decoded c : gmap Z (SubChunk Context) → gmap Z (SubChunk Context) :=
  if has_no_storages decoded then delete (sk_y key)
  else if decide ((current ← sub_chunk c key; sub_chunk_eqb current decoded) = Some true) then id
  else insert (sk_y key) decoded.

Lemma commit_sub_chunk_writes key decoded s :
  store_ok s → Forall storage_ok (storages decoded) →
  wp (commit_sub_chunk key decoded) s (outcome s (λ _ c',
    ∃ o, writes (sk_chunk key) o (columns s) c' ∧
      with_sections (chunks (columns s) !! sk_chunk key) (section_after key decoded (columns s)) o)).
Proof using Type.
  intros Hs Hd. eapply wp_mono; [by apply commit_sub_chunk_spec|]. intros r s' (H1 & H2 & H3). split; [done|]. split; [done|].
  destruct r as [changed|e]; [|done]. unfold section_after. destruct (has_no_storages decoded); [by destruct H3|].
  case_decide; [|by destruct H3]. destruct H3 as [_ ->]. exists (chunks (columns s) !! sk_chunk key). split; [apply writes_same|done].
Qed.

(** ** Block entities *)

Definition with_entities_of (o : option Chunk) (m : gmap BlockEntityKey BlockEntityNbt) (o' : option Chunk) : Prop :=
  sections_of o' = sections_of o ∧ biomes_of o' = biomes_of o ∧ chunk_entities o' = m.

Lemma with_entities_default (o : option Chunk) m n : with_entities_of o m (Some (with_entities m n (default chunk_default o))).
Proof using Type. by destruct o. Qed.
Lemma with_entities_prune (o : option Chunk) m n : with_entities_of o m (prune (with_entities m n (default chunk_default o))).
Proof using Type.
  destruct (with_entities_default o m n) as (H1 & H2 & H3). split_and!.
  - by rewrite sections_of_prune.
  - by rewrite biomes_of_prune.
  - by rewrite chunk_entities_prune.
Qed.

Lemma put_self key c : put key (chunks c !! key) c = c.
Proof using Type. destruct c. unfold put, on_chunks. cbn. by rewrite partial_alter_self. Qed.

(** Writing the entities of a column, with the revision reserved for its actors. *)
Lemma entities_written s0 s1 key m (o : option Chunk) rev :
  store_ok s0 → store_ok s1 → evolves s0 s1 →
  with_entities_of (chunks (columns s1) !! key) m o →
  (∀ ch, o = Some ch → chunk_ok sha256 key ch) →
  (rev = None → collision_revisions (columns s1) !! key = None ∨ shape_actors m = shape_actors (chunk_entities (chunks (columns s1) !! key))) →
  (∀ r, rev = Some r → 1 ≤ r ∧ bound (next_revision s0) ≤ r < bound (next_revision s1) ∧ is_Some (collision_revisions (columns s1) !! key)) →
  let s' := published key rev (mk_store (put key o (columns s1)) (next_revision s1) (cached_snapshot s1)) in
  store_ok s' ∧ evolves s0 s' ∧ writes key o (columns s1) (columns s').
Proof using Type.
  intros H0 H1 Hev (Hw1 & Hw2 & Hw3) Hok Hnone Hsome s'.
  destruct (put_ok sha256 s0 s1 key o rev (cached_snapshot s1) H0 H1 Hev Hok) as [K1 K2].
  - intros Hr. destruct (Hnone Hr) as [Hn|Hsame]; [left; by apply revision_at_None|right].
    apply column_view_eq; [|by rewrite Hw3]. intros y _. unfold chunk_sections.
    change (default ∅ (sub_chunks <$> o)) with (sections_of o). by rewrite Hw1.
  - intros r Hr. destruct (Hsome r Hr) as (? & ? & ?). done.
  - right. split; [done|]. intros _. unfold chunk_sections. change (default ∅ (sub_chunks <$> o)) with (sections_of o). by rewrite Hw1.
  - split; [done|]. split; [done|]. apply published_writes.
Qed.

(** Entities of one section, and the column's entities with them in the place of the section's own. *)
Definition scope_ok (key : SubChunkKey) (m : gmap BlockEntityKey BlockEntityNbt) : Prop :=
  map_Forall (λ k nbt, bk_sub_chunk k = key ∧ nbt_genuine sha256 nbt) m.
Definition replaced (key : SubChunkKey) (m old : gmap BlockEntityKey BlockEntityNbt) : gmap BlockEntityKey BlockEntityNbt :=
  m ∪ filter (λ e, ¬ in_sub_chunk key e) old.

Lemma replaced_disjoint key m old : scope_ok key m → m ##ₘ filter (λ e, ¬ in_sub_chunk key e) old.
Proof using Type.
  intros Hm. apply map_disjoint_spec. intros k a b Ha (_ & Hb)%map_lookup_filter_Some. apply Hb. by apply (Hm k a Ha).
Qed.

Lemma replaced_total key m old : scope_ok key m → total_bytes (replaced key m old) = total_bytes m + total_bytes (filter (λ e, ¬ in_sub_chunk key e) old).
Proof using Type. intros Hm. by apply total_bytes_union, replaced_disjoint. Qed.

Lemma replaced_size key m old : scope_ok key m → size (replaced key m old) = (size m + size (filter (λ e, ¬ in_sub_chunk key e) old))%nat.
Proof using Type. intros Hm. by apply map_size_disj_union, replaced_disjoint. Qed.

Lemma bk_chunk_sub_chunk k : bk_chunk k = sk_chunk (bk_sub_chunk k).
Proof using Type. done. Qed.

Lemma replaced_ok key m old :
  scope_ok key m → entities_ok sha256 (sk_chunk key) old →
  Z.of_nat (size (replaced key m old)) ≤ MAX_BLOCK_ENTITIES_PER_CHUNK →
  total_bytes (replaced key m old) ≤ MAX_BLOCK_ENTITY_BYTES_PER_CHUNK → entities_ok sha256 (sk_chunk key) (replaced key m old).
Proof using Type.
  intros Hm [Ho _ _] Hc Hb. split; [|done|done]. apply map_Forall_union_2.
  - intros k nbt Hk. destruct (Hm k nbt Hk) as [<- ?]. done.
  - intros k nbt [Hk _]%map_lookup_filter_Some. by apply Ho.
Qed.

Lemma validate_spec key m s :
  store_ok s → scope_ok key m →
  let new := replaced key m (chunk_entities (chunks (columns s) !! sk_chunk key)) in
  wp (validate_sub_chunk_block_entity_replacement key m) s (λ r s', s' = s ∧
    match r with
    | Ok n => n = total_bytes new ∧ entities_ok sha256 (sk_chunk key) new
    | Err _ => ¬ (Z.of_nat (size new) ≤ MAX_BLOCK_ENTITIES_PER_CHUNK ∧ total_bytes new ≤ MAX_BLOCK_ENTITY_BYTES_PER_CHUNK)
    end).
Proof using Type.
  intros Hs Hm new. pose proof (stored_sound sha256 s (sk_chunk key) Hs) as [_ _ Hent Hbytes].
  unfold validate_sub_chunk_block_entity_replacement. wp_steps. rewrite Hbytes, entities_default in *.
  set (old := chunk_entities (chunks (columns s) !! sk_chunk key)) in *.
  pose proof (size_filter (in_sub_chunk key) old) as Hsize. pose proof (total_bytes_filter (in_sub_chunk key) old) as Htotal.
  pose proof (replaced_size key m old Hm) as Hnsize. pose proof (replaced_total key m old Hm) as Hntotal.
  pose proof (total_bytes_nonneg (filter (λ e, ¬ in_sub_chunk key e) old)) as Hpos.
  apply (wp_expect _ (Z.of_nat (size (filter (λ e, ¬ in_sub_chunk key e) old)))).
  { unfold usize_checked_sub. destruct (Z.leb_spec (Z.of_nat (size (filter (in_sub_chunk key) old))) (Z.of_nat (size old))); [f_equal|]; lia. }
  replace (Z.of_nat (size (filter (λ e, ¬ in_sub_chunk key e) old)) + Z.of_nat (size m)) with (Z.of_nat (size new)) by (subst new; lia).
  destruct (Z.ltb_spec MAX_BLOCK_ENTITIES_PER_CHUNK (Z.of_nat (size new))) as [Hmany|Hcount].
  { wp_step. split; [done|]. intros [? _]. lia. }
  wp_step. apply (wp_expect _ (total_bytes (filter (λ e, ¬ in_sub_chunk key e) old))).
  { rewrite total_bytes_sum. unfold usize_checked_sub.
    destruct (Z.leb_spec (total_bytes (filter (in_sub_chunk key) old)) (total_bytes old)); [f_equal|]; lia. }
  rewrite saturating_bytes_total. unfold usize_saturating_add, ensure_chunk_block_entity_bytes. wp_step. wp_step.
  assert (MAX_BLOCK_ENTITY_BYTES_PER_CHUNK < 2 ^ 64 - 1) as Hmax by done.
  destruct (Z.ltb_spec MAX_BLOCK_ENTITY_BYTES_PER_CHUNK (Z.min (total_bytes (filter (λ e, ¬ in_sub_chunk key e) old) + Z.min (total_bytes m) (2 ^ 64 - 1)) (2 ^ 64 - 1))) as [Hbig|Hfit].
  - split; [done|]. intros [_ ?]. subst new. lia.
  - wp_step. split; [done|]. subst new. split; [lia|]. apply replaced_ok; try done. lia.
Qed.

Lemma shape_actors_replaced key m old :
  scope_ok key m → shape_actors (filter (in_sub_chunk key) old) = shape_actors m →
  shape_actors (replaced key m old) = shape_actors old.
Proof using Type.
  intros Hm Heq. apply map_eq. intros k. unfold shape_actors in *. rewrite !lookup_omap. unfold replaced.
  destruct (decide (bk_sub_chunk k = key)) as [Hin|Hout].
  - assert (filter (λ e, ¬ in_sub_chunk key e) old !! k = None) as Hf by (apply map_lookup_filter_None_2; right; intros v _ Hn; by apply Hn).
    rewrite lookup_union, Hf, (right_id None (∪)), <-lookup_omap, <-Heq, lookup_omap. f_equal.
    destruct (old !! k) as [v|] eqn:E; [by apply map_lookup_filter_Some_2|]. apply map_lookup_filter_None_2. by left.
  - assert (m !! k = None) as Hmk by (destruct (m !! k) as [v|] eqn:E; [by destruct (Hm k v E)|done]).
    rewrite lookup_union, Hmk, (left_id None (∪)). f_equal.
    destruct (old !! k) as [v|] eqn:E; [by apply map_lookup_filter_Some_2|]. apply map_lookup_filter_None_2. by left.
Qed.

Lemma genuine_scope key m : scope_ok key m → map_Forall (λ _ nbt, nbt_genuine sha256 nbt) m.
Proof using Type. intros Hm k nbt Hk. by destruct (Hm k nbt Hk). Qed.
Lemma genuine_entities key m : entities_ok sha256 key m → map_Forall (λ _ nbt, nbt_genuine sha256 nbt) m.
Proof using Type. intros [Hm _ _] k nbt Hk. by destruct (Hm k nbt Hk). Qed.

Lemma stored_entities_ok s key : store_ok s → entities_ok sha256 key (chunk_entities (chunks (columns s) !! key)).
Proof using Type. intros Hs. rewrite <-entities_default. apply (co_entities _ _ _ (stored_sound sha256 s key Hs)). Qed.

Lemma store_eta s : mk_store (columns s) (next_revision s) (cached_snapshot s) = s.
Proof using Type. by destruct s. Qed.

Lemma entities_chunk_ok s key m :
  store_ok s → entities_ok sha256 key m →
  chunk_sound sha256 key (with_entities m (total_bytes m) (default chunk_default (chunks (columns s) !! key))).
Proof using Type. intros Hs Hm. apply with_entities_sound; [by apply stored_sound|done]. Qed.

Lemma wp_replace {E} key m s (Q : result E unit → ChunkStore → Prop) :
  let new := replaced key m (chunk_entities (chunks (columns s) !! sk_chunk key)) in
  store_ok s → scope_ok key m → entities_ok sha256 (sk_chunk key) new →
  (∀ o, with_entities_of (chunks (columns s) !! sk_chunk key) new o → (∀ ch, o = Some ch → chunk_ok sha256 (sk_chunk key) ch) →
     Q (Ok ()) (mk_store (put (sk_chunk key) o (columns s)) (next_revision s) (cached_snapshot s))) →
  wp (replace_sub_chunk_block_entities key m (total_bytes new)) s Q.
Proof using Type.
  intros new Hs Hm Hnew HQ. unfold replace_sub_chunk_block_entities. wp_steps.
  change (stored_entities (columns s) (sk_chunk key)) with (chunk_entities (chunks (columns s) !! sk_chunk key)).
  rewrite reuse_genuine with (sha256 := sha256) by (by eapply genuine_entities, stored_entities_ok || by eapply genuine_scope).
  destruct (_ && _) eqn:Hempty.
  - apply andb_prop in Hempty as [Hm0%Nat.eqb_eq%map_size_empty_inv Hf0%Nat.eqb_eq%map_size_empty_inv].
    wp_step. rewrite <-store_eta, <-(put_self (sk_chunk key) (columns s)). apply HQ; [|by apply (ok_chunks _ _ _ (so_columns _ _ Hs))].
    split_and!; [done..|]. subst new m. unfold replaced. rewrite (left_id ∅ (∪)). symmetry. apply map_filter_id.
    intros k nbt Hk Hin. assert (filter (in_sub_chunk key) (chunk_entities (chunks (columns s) !! sk_chunk key)) !! k = Some nbt) as Hx
      by by apply map_lookup_filter_Some_2. by rewrite Hf0 in Hx.
  - wp_steps. rewrite update_entry_put, drop_empty_put, entities_default. apply HQ; [apply with_entities_prune|].
    apply prune_ok. by apply entities_chunk_ok.
Qed.

Lemma wp_clear {E} key s (Q : result E unit → ChunkStore → Prop) :
  let new := replaced key ∅ (chunk_entities (chunks (columns s) !! sk_chunk key)) in
  store_ok s →
  (∀ o, with_entities_of (chunks (columns s) !! sk_chunk key) new o → (∀ ch, o = Some ch → chunk_ok sha256 (sk_chunk key) ch) →
     Q (Ok ()) (mk_store (put (sk_chunk key) o (columns s)) (next_revision s) (cached_snapshot s))) →
  wp (clear_sub_chunk_block_entities key) s Q.
Proof using Type.
  intros new Hs HQ. unfold clear_sub_chunk_block_entities. wp_steps.
  destruct (chunks (columns s) !! sk_chunk key) as [chunk|] eqn:Hc.
  - pose proof (stored_entities_ok s (sk_chunk key) Hs) as Hent. rewrite Hc in Hent.
    change (chunk_entities (Some chunk)) with (block_entities chunk) in Hent.
    pose proof (stored_sound sha256 s (sk_chunk key) Hs) as Hsound. rewrite Hc in Hsound. simpl in Hsound.
    pose proof (total_bytes_filter (in_sub_chunk key) (block_entities chunk)) as Htotal.
    pose proof (total_bytes_nonneg (filter (in_sub_chunk key) (block_entities chunk))) as Hn1.
    pose proof (total_bytes_nonneg (filter (λ e, ¬ in_sub_chunk key e) (block_entities chunk))) as Hn2.
    assert (new = filter (λ e, ¬ in_sub_chunk key e) (block_entities chunk)) as Hnew by apply (left_id ∅ (∪)).
    pose proof (size_filter (in_sub_chunk key) (block_entities chunk)) as Hsize.
    assert (entities_ok sha256 (sk_chunk key) new) as Hnok.
    { apply replaced_ok; [by intros ? ?|done|..].
      - change (replaced key ∅ (chunk_entities (Some chunk))) with new. rewrite Hnew. pose proof (eo_count _ _ _ Hent). lia.
      - change (replaced key ∅ (chunk_entities (Some chunk))) with new. rewrite Hnew. pose proof (eo_budget _ _ _ Hent). lia. }
    wp_step. apply (wp_expect _ (total_bytes new)).
    { rewrite saturating_bytes_total, (co_bytes _ _ _ Hsound), Hnew. unfold usize_checked_sub.
      pose proof (eo_budget _ _ _ Hent). assert (MAX_BLOCK_ENTITY_BYTES_PER_CHUNK < 2 ^ 64 - 1) by done.
      destruct (Z.leb_spec (Z.min (total_bytes (filter (in_sub_chunk key) (block_entities chunk))) (2 ^ 64 - 1)) (total_bytes (block_entities chunk)));
        [f_equal|]; lia. }
    wp_steps. rewrite update_entry_put, drop_empty_put, <-Hnew, Hc. apply HQ.
    + exact (with_entities_prune (Some chunk) new (total_bytes new)).
    + apply prune_ok, with_entities_sound; done.
  - wp_step. rewrite <-store_eta, <-(put_self (sk_chunk key) (columns s)). apply HQ; rewrite Hc; [|done].
    split_and!; [done..|]. symmetry. apply (left_id ∅ (∪)).
Qed.

(** Reserving for the actors of a scope. *)
Lemma actor_change_seen s rev s1 s2 key m :
  store_ok s → store_ok s2 → scope_ok key m →
  reserved sha256 s (bool_decide (shape_actors (scoped_entities (Some key) (stored_entities (columns s) (sk_chunk key))) ≠ shape_actors m)
    && bool_decide (is_Some (collision_revisions (columns s) !! sk_chunk key))) rev s1 →
  evolves s1 s2 → loaded_chunks (columns s2) = loaded_chunks (columns s) →
  authoritative_sub_chunks (columns s2) = authoritative_sub_chunks (columns s) →
  chunk_entities (chunks (columns s2) !! sk_chunk key) = chunk_entities (chunks (columns s) !! sk_chunk key) →
  (rev = None → collision_revisions (columns s2) !! sk_chunk key = None ∨
     shape_actors (replaced key m (chunk_entities (chunks (columns s2) !! sk_chunk key))) =
     shape_actors (chunk_entities (chunks (columns s2) !! sk_chunk key))) ∧
  (∀ r, rev = Some r → 1 ≤ r ∧ bound (next_revision s) ≤ r < bound (next_revision s2) ∧
     is_Some (collision_revisions (columns s2) !! sk_chunk key)).
Proof using Type.
  intros Hs Hs2 Hm [Hs1 Hev Hcols _ Hnone Hsome] Hev2 Hl Ha He.
  assert (is_Some (collision_revisions (columns s2) !! sk_chunk key) ↔ is_Some (collision_revisions (columns s) !! sk_chunk key)) as Hk.
  { rewrite (ok_known _ _ _ (so_columns _ _ Hs2)), (ok_known _ _ _ (so_columns _ _ Hs)), Hl, Ha. done. }
  split.
  - intros Hr. apply andb_false_iff in Hnone as [Hsame|Hunknown]; [right|left|done].
    + apply bool_decide_eq_false_1, dec_stable in Hsame. rewrite He. by apply shape_actors_replaced.
    + apply bool_decide_eq_false_1 in Hunknown. rewrite <-Hk in Hunknown. by apply eq_None_not_Some.
  - intros r Hr. destruct (Hsome r Hr) as (Hb & Hr1 & Hr2 & Hr3). apply andb_prop in Hb as [_ Hb%bool_decide_eq_true_1].
    pose proof (ev_next _ _ Hev2). split_and!; [done|done|lia|by apply Hk].
Qed.

(** A column whose sections and whose entities of one section are replaced. *)
Definition column_replaced (key : SubChunkKey) (f : gmap Z (SubChunk Context) → gmap Z (SubChunk Context))
    (m : gmap BlockEntityKey BlockEntityNbt) c c' : Prop :=
  ∃ o, writes (sk_chunk key) o c c' ∧ sections_of o = f (sections_of (chunks c !! sk_chunk key)) ∧
    biomes_of o = biomes_of (chunks c !! sk_chunk key) ∧
    chunk_entities o = replaced key m (chunk_entities (chunks c !! sk_chunk key)).

(** The entities of a section after its blocks: [s1] follows the reservation, [s2] the block change. *)
Lemma entities_after_sections s rev s1 s2 key f m (o o' : option Chunk) :
  store_ok s → scope_ok key m →
  reserved sha256 s (bool_decide (shape_actors (scoped_entities (Some key) (stored_entities (columns s) (sk_chunk key))) ≠ shape_actors m)
    && bool_decide (is_Some (collision_revisions (columns s) !! sk_chunk key))) rev s1 →
  store_ok s2 → evolves s1 s2 →
  writes (sk_chunk key) o (columns s1) (columns s2) → with_sections (chunks (columns s1) !! sk_chunk key) f o →
  with_entities_of (chunks (columns s2) !! sk_chunk key) (replaced key m (chunk_entities (chunks (columns s2) !! sk_chunk key))) o' →
  (∀ ch, o' = Some ch → chunk_ok sha256 (sk_chunk key) ch) →
  let s' := published (sk_chunk key) rev (mk_store (put (sk_chunk key) o' (columns s2)) (next_revision s2) (cached_snapshot s2)) in
  store_ok s' ∧ evolves s s' ∧ column_replaced key f m (columns s) (columns s').
Proof using Type.
  intros Hs Hm Hres Hs2 Hev2 Hwr (Hsec1 & Hsec2 & Hsec3) Hent Hok s'. pose proof (rs_columns _ _ _ _ _ Hres) as Hcols.
  pose proof Hwr as [Hwc Hwl Hwa _]. rewrite Hcols in *.
  assert (chunks (columns s2) !! sk_chunk key = o) as Ho by by rewrite Hwc, put_lookup.
  destruct (actor_change_seen s rev s1 s2 key m Hs Hs2 Hm Hres Hev2) as [Hnone Hsome]; [done|done|by rewrite Ho|].
  destruct (entities_written s s2 (sk_chunk key) (replaced key m (chunk_entities (chunks (columns s2) !! sk_chunk key))) o' rev)
    as (H1 & H2 & H3); try done.
  { eapply evolves_trans; [apply (rs_evolves _ _ _ _ _ Hres)|done]. }
  split; [done|]. split; [done|]. exists o'. destruct Hent as (He1 & He2 & He3). rewrite Ho in He1, He2, He3. split_and!.
  - by eapply writes_trans.
  - by rewrite He1.
  - by rewrite He2.
  - by rewrite He3, Hsec3.
Qed.

Lemma commit_decoded_sub_chunk_spec key (decoded : DecodedSubChunk Context) s :
  store_ok s → Forall storage_ok (storages (d_sub_chunk decoded)) → scope_ok key (entities (d_block_entities decoded)) →
  wp (commit_decoded_sub_chunk key decoded) s (outcome s (λ _ c',
    column_replaced key (section_after key (d_sub_chunk decoded) (columns s)) (entities (d_block_entities decoded)) (columns s) c')).
Proof using Type.
  intros Hs Hd Hm. set (m := entities (d_block_entities decoded)) in *. unfold commit_decoded_sub_chunk. fold m.
  wp_step. wp_step. eapply wp_mono; [by apply (validate_spec key m)|]. intros r s0 [-> Hr].
  destruct r as [n|e]; [|by apply outcome_refl]. destruct Hr as [-> Hnew].
  wp_step. wp_step. apply wp_reserve_replacement, (wp_reserved sha256); [done|by apply outcome_refl|]. intros rev s1 Hres.
  pose proof (rs_columns _ _ _ _ _ Hres) as Hcols. pose proof (rs_ok _ _ _ _ _ Hres) as Hs1.
  wp_step. eapply wp_mono; [by apply commit_sub_chunk_writes|]. intros r s2 (Hs2 & Hev2 & Hr).
  destruct r as [changed|e]; [|split; [done|]; split; [by eapply evolves_trans; [apply Hres|]|congruence]].
  destruct Hr as (o & Hwr & Hsec). pose proof (wr_chunks _ _ _ _ Hwr) as Hwc.
  assert (chunk_entities (chunks (columns s2) !! sk_chunk key) = chunk_entities (chunks (columns s) !! sk_chunk key)) as Hsame.
  { rewrite Hwc, put_lookup. destruct Hsec as (_ & _ & ->). by rewrite Hcols. }
  rewrite <-Hsame. wp_step. apply wp_replace; [done|done|by rewrite Hsame|]. intros o' Ho' Hok.
  wp_step. apply wp_apply_reserved. wp_step. rewrite Hcols in Hsec at 2.
  exact (entities_after_sections s rev s1 s2 key _ m o o' Hs Hm Hres Hs2 Hev2 Hwr Hsec Ho' Hok).
Qed.

Lemma apply_all_air_spec key s :
  store_ok s →
  wp (apply_all_air key) s (outcome s (λ changed c',
    changed = (if contains_sub_chunk (columns s) key then Some key else None) ∧
    column_replaced key (delete (sk_y key)) ∅ (columns s) c')).
Proof using Type.
  intros Hs. assert (scope_ok key ∅) as Hm by by intros ? ?. unfold apply_all_air.
  wp_step. apply wp_reserve_replacement, (wp_reserved sha256); [done|by apply outcome_refl|]. intros rev s1 Hres.
  pose proof (rs_columns _ _ _ _ _ Hres) as Hcols.
  wp_step. eapply wp_mono; [apply remove_sub_chunk_spec, (rs_ok _ _ _ _ _ Hres)|]. intros r s2 (Hs2 & Hev2 & Hr).
  destruct r as [changed|e]; [|split; [done|]; split; [by eapply evolves_trans; [apply Hres|]|congruence]].
  destruct Hr as (-> & o & Hwr & Hsec).
  wp_step. apply wp_clear; [done|]. intros o' Ho' Hok. wp_step. apply wp_apply_reserved. wp_step.
  destruct (entities_after_sections s rev s1 s2 key (delete (sk_y key)) ∅ o o' Hs Hm Hres Hs2 Hev2 Hwr Hsec Ho' Hok) as (H1 & H2 & H3).
  split; [done|]. split; [done|]. by rewrite Hcols.
Qed.

Lemma shape_actors_insert key nbt (m : gmap BlockEntityKey BlockEntityNbt) :
  from_option shape_actor NoActor (m !! key) = shape_actor nbt → shape_actors (<[key := nbt]> m) = shape_actors m.
Proof using Type.
  intros Heq. apply map_eq. intros k. unfold shape_actors. rewrite !lookup_omap.
  destruct (decide (k = key)) as [Hk|Hk]; [subst k|by rewrite lookup_insert_ne]. rewrite lookup_insert_eq. cbn [mbind option_bind].
  destruct (m !! key) as [old|]; simpl in *; rewrite <-Heq; [done|]. by rewrite decide_True.
Qed.

Lemma block_entity_stored c key : block_entity c key = chunk_entities (chunks c !! bk_chunk key) !! key.
Proof using Type. unfold block_entity, chunk_entities. by destruct (chunks c !! bk_chunk key). Qed.

Lemma entity_insert_ok key nbt m :
  entities_ok sha256 (bk_chunk key) m → nbt_genuine sha256 nbt →
  (m !! key = None → Z.of_nat (size m) ≠ MAX_BLOCK_ENTITIES_PER_CHUNK) →
  total_bytes m - from_option nbt_len 0 (m !! key) + nbt_len nbt ≤ MAX_BLOCK_ENTITY_BYTES_PER_CHUNK →
  total_bytes (<[key := nbt]> m) = total_bytes m - from_option nbt_len 0 (m !! key) + nbt_len nbt ∧
  entities_ok sha256 (bk_chunk key) (<[key := nbt]> m).
Proof using Type.
  intros [Ho Hc Hb] Hn Hfull Hfit.
  assert (total_bytes (<[key := nbt]> m) = total_bytes m - from_option nbt_len 0 (m !! key) + nbt_len nbt) as Ht.
  { destruct (m !! key) as [old|] eqn:E; simpl.
    - rewrite <-insert_delete_eq, total_bytes_insert, (total_bytes_delete m key old) by (done || apply lookup_delete_eq). lia.
    - rewrite total_bytes_insert by done. lia. }
  split; [done|]. split; [by apply map_Forall_insert_2| |lia].
  rewrite map_size_insert. destruct (m !! key) eqn:E; [done|]. specialize (Hfull eq_refl). lia.
Qed.

Lemma commit_block_entity_update_spec key nbt s :
  store_ok s → nbt_genuine sha256 nbt →
  wp (commit_block_entity_update key nbt) s (outcome s (λ changed c',
    if decide (block_entity (columns s) key = Some nbt) then changed = false ∧ c' = columns s
    else changed = true ∧ ∃ o, writes (bk_chunk key) o (columns s) c' ∧
      with_entities_of (chunks (columns s) !! bk_chunk key) (<[key := nbt]> (chunk_entities (chunks (columns s) !! bk_chunk key))) o)).
Proof using Type.
  intros Hs Hn. unfold commit_block_entity_update.
  destruct (match embedded_position nbt with Some _ => _ | None => false end); [wp_step; by apply outcome_refl|].
  wp_steps. pose proof (stored_entities_ok s (bk_chunk key) Hs) as Hent.
  pose proof (stored_sound sha256 s (bk_chunk key) Hs) as Hsound. rewrite block_entity_stored.
  set (old := chunk_entities (chunks (columns s) !! bk_chunk key)) in *.
  destruct (match old !! key with Some current => nbt_eqb current nbt | None => false end) eqn:Hsame.
  { wp_step. apply outcome_refl; [done|]. destruct (old !! key) as [current|] eqn:E; [|done].
    unfold nbt_eqb in Hsame. apply bool_decide_eq_true_1, (genuine_eq sha256) in Hsame; [|by apply (genuine_entities _ _ Hent key)|done].
    subst current. by rewrite decide_True. }
  assert (old !! key ≠ Some nbt) as Hne.
  { intros E. rewrite E in Hsame. unfold nbt_eqb in Hsame. by rewrite bool_decide_eq_true_2 in Hsame. }
  wp_steps. rewrite (co_bytes _ _ _ Hsound), entities_default. fold old.
  destruct (bool_decide (old !! key = None) && _) eqn:Hfull; [wp_step; by apply outcome_refl|].
  assert (old !! key = None → Z.of_nat (size old) ≠ MAX_BLOCK_ENTITIES_PER_CHUNK) as Hroom.
  { intros E. rewrite bool_decide_eq_true_2 in Hfull by done. by apply Z.eqb_neq in Hfull. }
  assert (from_option nbt_len 0 (old !! key) ≤ total_bytes old) as Hle.
  { destruct (old !! key) as [p|] eqn:E; simpl; [|apply total_bytes_nonneg]. rewrite (total_bytes_delete _ _ _ E).
    pose proof (total_bytes_nonneg (delete key old)). lia. }
  wp_step. apply (wp_expect _ (total_bytes old - from_option nbt_len 0 (old !! key))).
  { unfold usize_checked_sub. by rewrite (proj2 (Z.leb_le _ _)). }
  wp_steps. unfold ensure_chunk_block_entity_bytes, usize_saturating_add.
  destruct (Z.ltb_spec MAX_BLOCK_ENTITY_BYTES_PER_CHUNK (Z.min (total_bytes old - from_option nbt_len 0 (old !! key) + nbt_len nbt) (2 ^ 64 - 1)))
    as [|Hfit]; [by apply outcome_refl|].
  assert (MAX_BLOCK_ENTITY_BYTES_PER_CHUNK < 2 ^ 64 - 1) as Hmax by done. rewrite Z.min_l in Hfit |- * by lia.
  destruct (entity_insert_ok key nbt old Hent Hn Hroom Hfit) as [Htotal Hok].
  wp_step. wp_step. apply wp_reserve_actor, (wp_reserved sha256); [done|by apply outcome_refl|]. intros rev s1 Hres.
  pose proof (rs_columns _ _ _ _ _ Hres) as Hcols. wp_steps. apply wp_apply_reserved. wp_step. rewrite update_entry_put, entities_default, Hcols, <-Htotal.
  fold old. set (o := Some (with_entities (<[key := nbt]> old) _ _)).
  assert (with_entities_of (chunks (columns s) !! bk_chunk key) (<[key := nbt]> old) o) as Ho by apply with_entities_default.
  rewrite <-Hcols in Ho.
  destruct (entities_written s s1 (bk_chunk key) (<[key := nbt]> old) o rev Hs (rs_ok _ _ _ _ _ Hres) (rs_evolves _ _ _ _ _ Hres) Ho)
    as (H1 & H2 & H3).
  - intros ch [= <-]. split; [apply with_entities_sound; done|]. apply not_true_iff_false. rewrite chunk_is_empty_iff. simpl.
    intros (_ & _ & H). by apply insert_non_empty in H.
  - rewrite Hcols. fold old. intros Hr. apply (rs_none _ _ _ _ _ Hres) in Hr. apply andb_false_iff in Hr as [Hr|Hr].
    + right. apply bool_decide_eq_false_1, dec_stable in Hr. by apply shape_actors_insert.
    + left. apply bool_decide_eq_false_1 in Hr. by apply eq_None_not_Some.
  - rewrite Hcols. intros r Hr. destruct (rs_some _ _ _ _ _ Hres r Hr) as (Hb & Hr1 & Hr2). apply andb_prop in Hb as [_ Hb%bool_decide_eq_true_1].
    done.
  - rewrite Hcols in H1, H2, H3, Ho. split; [done|]. split; [done|]. rewrite decide_False by done. split; [done|]. by exists o.
Qed.

Lemma commit_chunk_block_entities_spec key (replacement : DecodedBlockEntities) s :
  store_ok s → entities_ok sha256 key (entities replacement) →
  wp (commit_chunk_block_entities key replacement) s (outcome s (λ _ c',
    ∃ o, writes key o (columns s) c' ∧ with_entities_of (chunks (columns s) !! key) (entities replacement) o)).
Proof using Type.
  intros Hs Hm. set (m := entities replacement) in *. unfold commit_chunk_block_entities. fold m.
  wp_step. apply wp_reserve_replacement, (wp_reserved sha256); [done|by apply outcome_refl|]. intros rev s1 Hres.
  pose proof (rs_columns _ _ _ _ _ Hres) as Hcols. pose proof (stored_entities_ok s key Hs) as Hent. wp_steps. rewrite Hcols.
  change (stored_entities (columns s) key) with (chunk_entities (chunks (columns s) !! key)).
  rewrite reuse_genuine with (sha256 := sha256) by by eapply genuine_entities.
  destruct ((size m =? 0)%nat && _) eqn:Hempty.
  { apply andb_prop in Hempty as [Hm0%Nat.eqb_eq%map_size_empty_inv Habsent]. apply negb_true_iff, bool_decide_eq_false_1 in Habsent.
    wp_step. split; [apply Hres|]. split; [apply Hres|]. rewrite Hcols. exists (chunks (columns s) !! key). split; [apply writes_same|].
    split_and!; [done..|]. apply eq_None_not_Some in Habsent. by rewrite Habsent, Hm0. }
  wp_steps. apply wp_apply_reserved. rewrite update_entry_put, drop_empty_put, total_bytes_sum.
  set (o := prune _).
  assert (with_entities_of (chunks (columns s1) !! key) m o) as Ho by apply with_entities_prune.
  destruct (entities_written s s1 key m o rev Hs (rs_ok _ _ _ _ _ Hres) (rs_evolves _ _ _ _ _ Hres) Ho) as (H1 & H2 & H3).
  - apply prune_ok, with_entities_sound; [|done]. apply stored_sound, (rs_ok _ _ _ _ _ Hres).
  - rewrite Hcols. intros Hr. apply (rs_none _ _ _ _ _ Hres) in Hr. apply andb_false_iff in Hr as [Hr|Hr].
    + right. apply bool_decide_eq_false_1, dec_stable in Hr. by symmetry.
    + left. apply bool_decide_eq_false_1 in Hr. by apply eq_None_not_Some.
  - rewrite Hcols. intros r Hr. destruct (rs_some _ _ _ _ _ Hres r Hr) as (Hb & Hr1 & Hr2).
    by apply andb_prop in Hb as [_ Hb%bool_decide_eq_true_1].
  - split; [done|]. split; [done|]. rewrite <-Hcols. by exists o.
Qed.
End spec.
