(* ===== verification/StoreBatchSpec.v ===== *)
(** * Block-update batches, evictions and snapshots keep the store's invariant *)
From stdpp Require Import base numbers list gmap fin_maps sorting.
From S2P Require Import Prelude Packed Palette PaletteSpec Bytes NbtTree NbtScan Keys Revisions Wire SubChunk SubChunkSpec SubChunkTheorems Biome Entities EntityTheorems.
From S2P Require Import LevelChunk Store StoreCommits StoreInv StoreOpsSpec.
#[local] Open Scope Z_scope.

Section spec.
Context {Context : Type} (sha256 : bytes → bytes).
#[local] Notation Chunk := (Chunk (Context := Context)).
#[local] Notation Columns := (Columns (Context := Context)).
#[local] Notation ChunkStore := (ChunkStore (Context := Context)).
#[local] Notation store_ok := (store_ok (Context := Context) sha256).
#[local] Notation outcome := (outcome (Context := Context) sha256).
Implicit Types (s : ChunkStore) (c : Columns) (m : PreparedSubChunkMutation (Context := Context)).

(** ** One mutation *)

(** What the loop of [commit_prepared_block_updates] does to the columns. *)
Definition mutate c m : Columns :=
  if negb (p_changed m) then c
  else match p_replacement m with
       | Some section =>
           put (sk_chunk (p_key m)) (Some (on_sub_chunks (insert (sk_y (p_key m)) section) (default chunk_default (chunks c !! sk_chunk (p_key m))))) c
       | None =>
           put (sk_chunk (p_key m)) (ch ← chunks c !! sk_chunk (p_key m); prune (on_sub_chunks (delete (sk_y (p_key m))) ch)) c
       end.

Lemma wp_commit_mutation {E} changed m s (Q : result E (list SubChunkKey) → ChunkStore → Prop) :
  (∀ cache, (p_changed m = false → cache = cached_snapshot s) →
     Q (Ok (if p_changed m then changed ++ [p_key m] else changed)) (mk_store (mutate (columns s) m) (next_revision s) cache)) →
  wp (commit_mutation changed m) s Q.
Proof using Type.
  intros HQ. unfold commit_mutation, mutate in *. destruct (p_changed m); cbn [negb] in *.
  2:{ wp_step. rewrite <-(store_eta s). by apply HQ. }
  destruct (p_replacement m) as [section|].
  - wp_steps. rewrite update_entry_put. by apply HQ.
  - wp_step. wp_step. unfold remove_sub_chunk_without_revision. wp_steps. destruct (chunks (columns s) !! sk_chunk (p_key m)) as [ch|] eqn:Ech.
    + wp_steps. rewrite update_entry_put, drop_empty_put, Ech. by apply HQ.
    + wp_steps. specialize (HQ None). simpl in HQ. rewrite <-Ech, put_self in HQ. by apply HQ.
Qed.

(** The keys whose sections a batch sets. *)
Definition changed_keys (ms : list PreparedSubChunkMutation) : list SubChunkKey :=
  p_key (Context := Context) <$> filter (λ m, Is_true (p_changed m)) ms.

Lemma wp_commit_mutations {E} changed ms s (Q : result E (list SubChunkKey) → ChunkStore → Prop) :
  (∀ cache, (changed_keys ms = [] → cache = cached_snapshot s) →
     Q (Ok (changed ++ changed_keys ms)) (mk_store (foldl mutate (columns s) ms) (next_revision s) cache)) →
  wp (commit_mutations changed ms) s Q.
Proof using Type.
  revert changed s. induction ms as [|m ms IH]; intros changed s HQ.
  - simpl. wp_step. specialize (HQ (cached_snapshot s) ltac:(done)). simpl in HQ. by rewrite app_nil_r, store_eta in HQ.
  - cbn [commit_mutations]. wp_step. apply wp_commit_mutation. intros cache Hcache. apply IH. intros cache' Hcache'.
    cbn [columns next_revision cached_snapshot] in *. unfold changed_keys in *. rewrite filter_cons in HQ.
    destruct (p_changed m) eqn:Em.
    + rewrite decide_True in HQ by done. rewrite fmap_cons in HQ. rewrite <-app_assoc. by apply HQ.
    + rewrite decide_False in HQ by (by intros ?). apply HQ. intros H. rewrite Hcache' by done. by apply Hcache.
Qed.

Definition mutation_ok m : Prop := ∀ section, p_replacement m = Some section → section_sound section.

Lemma mutate_index c m :
  loaded_chunks (mutate c m) = loaded_chunks c ∧ authoritative_sub_chunks (mutate c m) = authoritative_sub_chunks c ∧
  collision_revisions (mutate c m) = collision_revisions c.
Proof using Type. unfold mutate. destruct (negb _); [done|]. by destruct (p_replacement m). Qed.

Lemma mutate_chunks c m :
  mutation_ok m → map_Forall (chunk_ok sha256) (chunks c) → map_Forall (chunk_ok sha256) (chunks (mutate c m)).
Proof using Type.
  intros Hm Hc. unfold mutate. destruct (negb _); [done|].
  assert (∀ (o : option Chunk) k, (∀ ch, o = Some ch → chunk_ok sha256 k ch) → map_Forall (chunk_ok sha256) (chunks (put k o c))) as Hput.
  { intros o k Ho k' ch. destruct (decide (k' = k)) as [Hk|Hk]; [subst k'; rewrite put_lookup; apply Ho|].
    rewrite put_lookup_ne by done. apply Hc. }
  destruct (p_replacement m) as [section|] eqn:E; apply Hput.
  - intros ch [= <-]. split.
    + assert (chunk_sound sha256 (sk_chunk (p_key m)) (default chunk_default (chunks c !! sk_chunk (p_key m)))) as Hsound.
      { destruct (chunks c !! sk_chunk (p_key m)) as [ch|] eqn:Ech; [by apply Hc in Ech as [? _]|apply chunk_default_sound]. }
      apply on_sub_chunks_sound; [done|]. apply map_Forall_insert_2; [by apply Hm|apply (co_sections _ _ _ Hsound)].
    + apply not_true_iff_false. rewrite chunk_is_empty_iff. simpl. intros [H _]. by apply insert_non_empty in H.
  - intros ch. destruct (chunks c !! sk_chunk (p_key m)) as [ch'|] eqn:Ech; [|done]. cbn [mbind option_bind]. revert ch. apply prune_ok.
    apply Hc in Ech as [Hsound _]. apply on_sub_chunks_sound; [done|]. apply map_Forall_delete, (co_sections _ _ _ Hsound).
Qed.

(** A mutation of an unknown section, or of another column, is invisible at [k]. *)
Lemma mutate_view c m k :
  (p_changed m = true → sk_chunk (p_key m) = k → is_sub_chunk_loaded c (p_key m) = false) →
  collision_view (mutate c m) k = collision_view c k.
Proof using Type.
  intros Hm. unfold mutate. destruct (p_changed m); cbn [negb]; [|done].
  destruct (p_replacement m) as [section|]; rewrite collision_view_put; case_decide as Hk; try done; subst k;
    specialize (Hm eq_refl eq_refl); rewrite is_sub_chunk_loaded_knows in Hm.
  - eapply with_sections_view; [apply with_sections_default|done|]. intros ss y Hy. by apply lookup_insert_ne.
  - unfold collision_view. destruct (chunks c !! sk_chunk (p_key m)) as [ch|] eqn:E; [|done]. cbn [mbind option_bind].
    eapply (with_sections_view (Some ch)); [apply (with_sections_prune (Some ch))|done|]. intros ss y Hy. by apply lookup_delete_ne.
Qed.

Lemma mutations_index ms c :
  loaded_chunks (foldl mutate c ms) = loaded_chunks c ∧ authoritative_sub_chunks (foldl mutate c ms) = authoritative_sub_chunks c ∧
  collision_revisions (foldl mutate c ms) = collision_revisions c.
Proof using Type.
  revert c. induction ms as [|m ms IH]; intros c; [done|]. simpl. destruct (IH (mutate c m)) as (-> & -> & ->). apply mutate_index.
Qed.

Lemma mutations_chunks ms c :
  Forall mutation_ok ms → map_Forall (chunk_ok sha256) (chunks c) → map_Forall (chunk_ok sha256) (chunks (foldl mutate c ms)).
Proof using Type.
  revert c. induction ms as [|m ms IH]; intros c Hms Hc; [done|]. simpl. apply Forall_cons in Hms as [Hm Hms].
  apply IH; [done|]. by apply mutate_chunks.
Qed.

Lemma is_sub_chunk_loaded_index c c' key :
  loaded_chunks c' = loaded_chunks c → authoritative_sub_chunks c' = authoritative_sub_chunks c →
  is_sub_chunk_loaded c' key = is_sub_chunk_loaded c key.
Proof using Type. unfold is_sub_chunk_loaded. by intros -> ->. Qed.

Lemma mutations_view ms c k :
  k ∉ changed_columns ms c → collision_view (foldl mutate c ms) k = collision_view c k.
Proof using Type.
  revert c. induction ms as [|m ms IH]; intros c Hk; [done|]. simpl. destruct (mutate_index c m) as (Hl & Ha & _).
  unfold changed_columns in *. rewrite filter_cons in Hk.
  rewrite IH.
  - apply mutate_view. intros Hc <-. apply not_true_iff_false. intros Hload. apply Hk.
    rewrite decide_True by (by rewrite Hc, Hload). rewrite fmap_cons. simpl. apply elem_of_union_l. by apply elem_of_singleton_2.
  - intros Hin. apply Hk. replace (filter (λ m0, Is_true (p_changed m0 && is_sub_chunk_loaded c (p_key m0))) ms)
      with (filter (λ m0, Is_true (p_changed m0 && is_sub_chunk_loaded (mutate c m) (p_key m0))) ms).
    + case_decide; [|done]. rewrite fmap_cons. simpl. by apply elem_of_union_r.
    + apply list_filter_iff. intros m'. by rewrite (is_sub_chunk_loaded_index c).
Qed.

(** ** Publishing a batch of revisions *)

Definition publish_all (l : list (ChunkKey * Z)) (revs : gmap ChunkKey ChunkCollisionRevision) : gmap ChunkKey ChunkCollisionRevision :=
  foldl (λ revs '(k, r), <[k := mk_revision k r]> revs) revs l.

Lemma wp_set_revisions {E} l s (Q : result E unit → ChunkStore → Prop) :
  (∀ cache, (l = [] → cache = cached_snapshot s) → (l ≠ [] → cache = None) →
     Q (Ok ()) (mk_store (on_revisions (publish_all l) (columns s)) (next_revision s) cache)) →
  wp (set_collision_revisions l) s Q.
Proof using Type.
  revert s. induction l as [|[k r] l IH]; intros s HQ.
  - simpl. wp_step. specialize (HQ (cached_snapshot s) ltac:(done) ltac:(done)). destruct s as [c n ca]. by destruct c.
  - cbn [set_collision_revisions]. unfold set_collision_revision. wp_steps. apply IH. intros cache H1 H2.
    specialize (HQ cache ltac:(done)). apply HQ. intros _. cbn [cached_snapshot] in *.
    destruct l; [by apply H1|by apply H2].
Qed.

Lemma publish_all_spec ks rs revs k :
  length ks = length rs →
  if decide (k ∈ ks) then ∃ r, r ∈ rs ∧ publish_all (zip ks rs) revs !! k = Some (mk_revision k r)
  else publish_all (zip ks rs) revs !! k = revs !! k.
Proof using Type.
  revert rs revs. induction ks as [|k0 ks IH]; intros [|r rs] revs Hl; simpl in *; try done.
  specialize (IH rs (<[k0 := mk_revision k0 r]> revs) ltac:(lia)). destruct (decide (k ∈ ks)) as [Hin|Hout].
  - rewrite decide_True by by right. destruct IH as (r' & Hr' & IH). exists r'. split; [by right|]. exact IH.
  - case_decide as Hk.
    + apply elem_of_cons in Hk as [->|?]; [|done]. exists r. split; [by left|]. unfold publish_all in *. simpl.
      rewrite IH. apply lookup_insert_eq.
    + unfold publish_all in *. simpl. rewrite IH. apply lookup_insert_ne. intros ->. apply Hk. by left.
Qed.

(** [s1] is [s] with as many identities reserved as the batch has columns. *)
Record batch_reserved s (n : nat) (l : list Z) (s1 : ChunkStore) : Prop := {
  br_columns : columns s1 = columns s;
  br_cached : cached_snapshot s1 = cached_snapshot s;
  br_next : next_ok (next_revision s1);
  br_bound : bound (next_revision s) ≤ bound (next_revision s1);
  br_length : n = length l;
  br_fresh r : r ∈ l → 1 ≤ r ∧ bound (next_revision s) ≤ r < bound (next_revision s1);
}.

Lemma wp_alloc_batch n s (Q : result CollisionRevisionError (list Z) → ChunkStore → Prop) :
  next_ok (next_revision s) → Q (Err Exhausted) s → (∀ l s1, batch_reserved s n l s1 → Q (Ok l) s1) → wp (alloc_batch n) s Q.
Proof using Type.
  intros Hn He HQ. unfold wp, alloc_batch. destruct (decide (n = 0%nat)) as [H0|H0].
  - subst n. do 2 eexists. split; [done|]. cbn. rewrite store_eta. apply HQ. split; try done.
    intros r Hr. by apply not_elem_of_nil in Hr.
  - pose proof (allocate_batch_spec (next_revision s) (Z.of_nat n) Hn ltac:(lia)) as H.
    destruct (allocate_batch (next_revision s) (Z.of_nat n)) as [[l|[]] next]; (do 2 eexists; split; [done|]).
    + destruct H as (Hne & -> & Hok & Hb). apply HQ.
      assert (bound (next_revision s) = next_revision s) as Hbs by (unfold bound; by rewrite (proj2 (Z.eqb_neq _ _) Hne)).
      destruct Hn as [? ?]. split; cbn [columns cached_snapshot next_revision]; try done; [lia|by rewrite length_seqZ, Nat2Z.id|].
      intros r Hr%elem_of_seqZ. lia.
    + subst next. by rewrite store_eta.
Qed.

(** ** Prepared block updates *)

Lemma changed_columns_known ms c next k :
  columns_ok sha256 c next → k ∈ changed_columns ms c → is_Some (collision_revisions c !! k).
Proof using Type.
  intros Hc Hk. unfold changed_columns in Hk. apply elem_of_list_to_set, list_elem_of_fmap in Hk as (m & -> & Hm).
  apply list_elem_of_filter in Hm as [Hm _]. apply andb_prop_elim in Hm as [_ Hm]. by eapply loaded_has_revision, Is_true_eq_true.
Qed.

Lemma no_changes ms c :
  changed_keys ms = [] → foldl mutate c ms = c ∧ sorted_chunks (changed_columns ms c) = [].
Proof using Type.
  intros Hnil. assert (∀ m, m ∈ ms → p_changed m = false) as Hf.
  { intros m Hm. destruct (p_changed m) eqn:E; [|done]. exfalso. apply (not_elem_of_nil (A := SubChunkKey) (p_key m)).
    rewrite <-Hnil. apply list_elem_of_fmap. exists m. split; [done|]. apply list_elem_of_filter. by rewrite E. }
  split.
  - clear Hnil. revert c. induction ms as [|m ms IH]; intros c; [done|]. simpl.
    replace (mutate c m) with c; [apply IH; intros; apply Hf; by right|]. unfold mutate. by rewrite Hf by by left.
  - destruct (sorted_chunks (changed_columns ms c)) as [|k ks] eqn:E; [done|]. exfalso.
    assert (k ∈ sorted_chunks (changed_columns ms c)) as Hk by (rewrite E; by left).
    apply elem_of_sorted_chunks, elem_of_list_to_set, list_elem_of_fmap in Hk as (m & -> & Hm).
    apply list_elem_of_filter in Hm as [Hm1 Hm2]. by rewrite Hf in Hm1.
Qed.

(** The store once the batch has written its sections and published its revisions. *)
Lemma batch_published ms s s1 l cache :
  store_ok s → Forall mutation_ok ms →
  let ks := sorted_chunks (changed_columns ms (columns s)) in
  batch_reserved s (length ks) l s1 → (changed_keys ms = [] ∧ cache = cached_snapshot s1 ∨ cache = None) →
  let s' := mk_store (on_revisions (publish_all (zip ks l)) (foldl mutate (columns s) ms)) (next_revision s1) cache in
  store_ok s' ∧ evolves s s'.
Proof using Type.
  intros Hs Hms ks [Hcols Hcached Hnext Hbound Hlen Hl] Hcache s'. destruct (so_columns _ _ Hs) as [Oc Od Ok_ Or].
  destruct (mutations_index ms (columns s)) as (Hml & Hma & Hmr).
  assert (Hlook : ∀ k, if decide (k ∈ ks) then ∃ r, r ∈ l ∧ collision_revisions (columns s') !! k = Some (mk_revision k r)
                       else collision_revisions (columns s') !! k = collision_revisions (columns s) !! k).
  { intros k. rewrite <-Hmr. exact (publish_all_spec ks l (collision_revisions (foldl mutate (columns s) ms)) k Hlen). }
  assert (Hks : ∀ k, k ∈ ks ↔ k ∈ changed_columns ms (columns s)) by (intros; apply elem_of_sorted_chunks).
  assert (evolves s s') as Hev.
  { split; [done| |].
    - intros k r. unfold revision_at. specialize (Hlook k). destruct (decide (k ∈ ks)) as [Hin|Hout].
      + destruct Hlook as (r' & Hr' & ->). simpl. intros [= <-]. right. by apply Hl.
      + rewrite Hlook. intros Hr. left. split; [done|].
        change (collision_view (foldl mutate (columns s) ms) k = collision_view (columns s) k).
        apply mutations_view. by rewrite <-Hks.
    - destruct Hcache as [[Hnil Hc]|Hc]; [right|by left]. subst cache. split; [done|].
      destruct (no_changes ms (columns s) Hnil) as [Hid Hks0]. subst s'. cbn [columns]. fold ks in Hks0. rewrite Hks0, Hid. split; done. }
  split; [|done]. split; [done| |by apply (evolves_snapshot sha256 s)]. split.
  - apply mutations_chunks; done.
  - intros k. cbn. rewrite Hml, Hma. apply Od.
  - intros k. change (loaded_chunks (columns s')) with (loaded_chunks (foldl mutate (columns s) ms)).
    change (authoritative_sub_chunks (columns s')) with (authoritative_sub_chunks (foldl mutate (columns s) ms)).
    rewrite Hml, Hma, <-Ok_. specialize (Hlook k). destruct (decide (k ∈ ks)) as [Hin|Hout]; [|by rewrite Hlook].
    destruct Hlook as (r & _ & Hk). rewrite Hk. split; [intros _|intros _; by eexists]. by eapply changed_columns_known, Hks.
  - intros k r Hr. specialize (Hlook k). destruct (decide (k ∈ ks)) as [Hin|Hout].
    + destruct Hlook as (r' & Hr' & Hk). rewrite Hk in Hr. injection Hr as <-. split; [done|]. destruct (Hl _ Hr'). simpl. lia.
    + rewrite Hlook in Hr. destruct (Or k r Hr). split; [done|]. simpl. lia.
Qed.

Lemma commit_prepared_spec ms s :
  store_ok s → Forall mutation_ok ms →
  wp (commit_prepared_block_updates ms) s (λ r s', outcome s (λ changed c',
    changed = changed_keys ms ∧ chunks c' = chunks (foldl mutate (columns s) ms) ∧
    loaded_chunks c' = loaded_chunks (columns s) ∧ authoritative_sub_chunks c' = authoritative_sub_chunks (columns s)) r s' ∧
    ∀ e, r = Err e → e = CollisionRevisionExhausted).
Proof using Type.
  intros Hs Hms. unfold commit_prepared_block_updates. wp_steps.
  apply wp_alloc_batch; [apply (so_next _ _ Hs)|split; [by apply outcome_refl|congruence]|].
  intros l s1 Hres. pose proof (br_columns _ _ _ _ Hres) as Hcols.
  wp_step. apply wp_commit_mutations. intros cache Hc1. rewrite Hcols in *. simpl app.
  assert (Hfinal : ∀ cache', (changed_keys ms = [] ∧ cache' = cached_snapshot s1 ∨ cache' = None) → outcome s (λ changed c',
      changed = changed_keys ms ∧ chunks c' = chunks (foldl mutate (columns s) ms) ∧
      loaded_chunks c' = loaded_chunks (columns s) ∧ authoritative_sub_chunks c' = authoritative_sub_chunks (columns s))
    (Ok (changed_keys ms) : result MutationError _)
    (mk_store (on_revisions (publish_all (zip (sorted_chunks (changed_columns ms (columns s))) l)) (foldl mutate (columns s) ms))
      (next_revision s1) cache')).
  { intros cache' Hcache'. destruct (batch_published ms s s1 l cache' Hs Hms Hres Hcache') as [H1 H2]. split; [exact H1|].
    split; [exact H2|]. destruct (mutations_index ms (columns s)) as (Hml & Hma & _).
    split_and!; [reflexivity|reflexivity|exact Hml|exact Hma]. }
  destruct (changed_keys ms) as [|k0 kl] eqn:Hck;
    (wp_step; wp_step; wp_step; apply wp_set_revisions; intros cache' H1 H2; wp_step; cbn [columns next_revision cached_snapshot] in *;
     split; [apply Hfinal|done]).
  - destruct (zip _ l); [left|right; by apply H2]. split; [done|]. rewrite H1, Hc1; done.
  - right. destruct (zip _ l); [by apply H1|by apply H2].
Qed.

(** ** One section's block updates *)

Lemma sub_chunk_sections c key : sub_chunk c key = sections_of (chunks c !! sk_chunk key) !! sk_y key.
Proof using Type. unfold sub_chunk, sections_of. by destruct (chunks c !! sk_chunk key). Qed.

Lemma sub_chunk_key_split (k key : SubChunkKey) : sk_chunk k = sk_chunk key → sk_y k = sk_y key → k = key.
Proof using Type. destruct k, key. unfold sk_chunk. simpl. by intros [= -> -> ->] ->. Qed.

Lemma sub_chunk_with_sections c c' key f (o : option Chunk) k :
  chunks c' = chunks (put (sk_chunk key) o c) → with_sections (chunks c !! sk_chunk key) f o →
  (∀ ss y, y ≠ sk_y key → f ss !! y = ss !! y) →
  sub_chunk c' k = if decide (k = key) then f (sections_of (chunks c !! sk_chunk key)) !! sk_y key else sub_chunk c k.
Proof using Type.
  intros Hc' (H1 & _ & _) Hf. rewrite !sub_chunk_sections, Hc'. case_decide as Hk.
  - subst k. by rewrite put_lookup, H1.
  - destruct (decide (sk_chunk k = sk_chunk key)) as [Heq|Hne].
    + rewrite Heq, put_lookup, H1, Hf; [done|]. intros Hy. apply Hk. by apply sub_chunk_key_split.
    + by rewrite put_lookup_ne.
Qed.

Lemma sub_chunk_mutate c m k :
  sub_chunk (mutate c m) k = if decide (k = p_key m ∧ p_changed m = true) then p_replacement m else sub_chunk c k.
Proof using Type.
  unfold mutate. destruct (p_changed m); cbn [negb]; [|rewrite decide_False by (by intros [_ ?]); done].
  rewrite (decide_ext _ (k = p_key m)) by tauto. destruct (p_replacement m) as [section|].
  - erewrite sub_chunk_with_sections; [|reflexivity|apply with_sections_default|intros; by apply lookup_insert_ne].
    case_decide; [|done]. apply lookup_insert_eq.
  - destruct (chunks c !! sk_chunk (p_key m)) as [ch|] eqn:E; cbn [mbind option_bind].
    + erewrite sub_chunk_with_sections; [|reflexivity|rewrite E; apply (with_sections_prune (Some ch))|intros; by apply lookup_delete_ne].
      case_decide; [|done]. apply lookup_delete_eq.
    + rewrite <-E, put_self. case_decide; [subst k|done]. by rewrite sub_chunk_sections, E.
Qed.

(** Entities and biomes are not touched. *)
Lemma mutate_rest c m k :
  chunk_entities (chunks (mutate c m) !! k) = chunk_entities (chunks c !! k) ∧ biomes_of (chunks (mutate c m) !! k) = biomes_of (chunks c !! k).
Proof using Type.
  unfold mutate. destruct (negb _); [done|].
  destruct (p_replacement m) as [section|]; (destruct (decide (k = sk_chunk (p_key m))) as [Hk|Hk]; [subst k; rewrite put_lookup|by rewrite put_lookup_ne]).
  - by destruct (with_sections_default (chunks c !! sk_chunk (p_key m)) (insert (sk_y (p_key m)) section)) as (_ & -> & ->).
  - destruct (chunks c !! sk_chunk (p_key m)) as [ch|]; [|done]. cbn [mbind option_bind].
    destruct (with_sections_prune (Some ch) (delete (sk_y (p_key m)))) as (_ & H2 & H3). split; [exact H3|exact H2].
Qed.

(** Fields of a [BlockUpdate] are unsigned. *)
Definition update_unsigned (u : BlockUpdate) : Prop := 0 ≤ u_x u ∧ 0 ≤ u_y u ∧ 0 ≤ u_z u ∧ 0 ≤ u_layer u.

Lemma validate_all_Ok us : Forall update_unsigned us → validate_all us = Ok () ↔ Forall update_valid us.
Proof using Type.
  induction us as [|u us IH]; intros Hu; [by split|]. apply Forall_cons in Hu as [[Hx [Hy [Hz Hl]]] Hus]. specialize (IH Hus).
  simpl. unfold validate, update_valid, update_ok.
  destruct (Z.leb_spec 16 (u_x u)), (Z.leb_spec 16 (u_y u)), (Z.leb_spec 16 (u_z u)), (Z.leb_spec MAX_STORAGE_COUNT (u_layer u)); cbn;
    try (split; [done|]; intros Hf%Forall_cons; destruct Hf as [[? ?] _]; lia).
  rewrite IH. split; [intros; constructor; [lia|done]|]. by intros [_ ?]%Forall_cons.
Qed.

Definition layers (o : option (SubChunk Context)) : list PalettedStorage := from_option storages [] o.

(** The section [o'] is [o] after [us]; the flag says whether anything changed. *)
Record section_updated (air : Z) (us : list BlockUpdate) (o : option (SubChunk Context)) (changed : bool) (o' : option (SubChunk Context)) : Prop := {
  su_cells layer i : (i < BLOCKS_PER_SUB_CHUNK)%nat →
    layer_cell air (layers o') layer i = write_blocks (layer_cell air (layers o)) us layer i;
  su_changed : changed = true ↔ length (layers o') ≠ length (layers o) ∨
    ∃ layer i, (i < BLOCKS_PER_SUB_CHUNK)%nat ∧ layer_cell air (layers o') layer i ≠ layer_cell air (layers o) layer i;
  su_sound section : o' = Some section → section_sound section;
}.

Lemma unchanged_flag air (o : option (SubChunk Context)) :
  false = true ↔ length (layers o) ≠ length (layers o) ∨
    ∃ layer i, (i < BLOCKS_PER_SUB_CHUNK)%nat ∧ layer_cell air (layers o) layer i ≠ layer_cell air (layers o) layer i.
Proof using Type. split; [done|]. by intros [?|(? & ? & ? & ?)]. Qed.

Lemma prepare_spec key previous us air :
  (∀ section, previous = Some section → section_sound section) → Forall update_unsigned us →
  ∃ r, prepare_sub_chunk_blocks key previous us air = Some r ∧
    match r with
    | Err e => validate_all us = Err e
    | Ok p => Forall update_valid us ∧ p_key p = key ∧ mutation_ok p ∧
        section_updated air us previous (p_changed p) (if p_changed p then p_replacement p else previous)
    end.
Proof using Type.
  intros Hprev Hus. unfold prepare_sub_chunk_blocks. destruct (validate_all us) as [[]|e] eqn:Hv; [|by eexists].
  apply validate_all_Ok in Hv; [|done]. destruct us as [|u us'] eqn:Hcase.
  { eexists. split; [done|]. split_and!; [done|done| |]; cbn [p_changed p_replacement]; [exact Hprev|].
    split; [done|apply unchanged_flag|exact Hprev]. }
  rewrite <-Hcase in *. clear Hcase.
  set (start := default (for_block_updates (sk_y key)) previous).
  assert (Forall storage_ok (storages start) ∧ storages start = layers previous) as [Hok Hlayers].
  { subst start. destruct previous as [section|]; simpl; [|done]. split; [|done]. by apply Hprev. }
  destruct (apply_block_updates_spec start us air Hok Hv) as (c & section' & -> & [U1 U2 U3 U4 U5]). cbn [mbind option_bind].
  rewrite Hlayers in *.
  assert (layers (if has_no_storages section' then None else Some section') = storages section') as Hrep.
  { unfold has_no_storages. by case_bool_decide. }
  eexists. split; [done|]. split; [done|]. split; [done|]. cbn [p_changed p_replacement p_key].
  set (replacement := if has_no_storages section' then None else Some section') in *.
  assert (∀ section, replacement = Some section → section_sound section) as Hsound.
  { subst replacement. unfold has_no_storages. case_bool_decide; [done|]. intros section [= <-]. done. }
  split; [exact Hsound|].
  assert (∀ layer i, (i < BLOCKS_PER_SUB_CHUNK)%nat → layer_cell air (layers replacement) layer i = write_blocks (layer_cell air (layers previous)) us layer i) as Hcells.
  { by rewrite Hrep. }
  assert (c = true ↔ length (layers replacement) ≠ length (layers previous) ∨
    ∃ layer i, (i < BLOCKS_PER_SUB_CHUNK)%nat ∧ layer_cell air (layers replacement) layer i ≠ layer_cell air (layers previous) layer i) as Hc.
  { rewrite U4, Hrep. split; (intros [?|(layer & i & Hi & ?)]; [by left|right; exists layer, i; split; [done|]]); [by rewrite U2|by rewrite <-U2]. }
  destruct previous as [section|] eqn:Ep, replacement as [section''|] eqn:Er.
  - destruct c; [by split|]. split; [|apply unchanged_flag|exact Hprev].
    intros layer i Hi. rewrite <-Hcells by done.
    destruct (decide (layer_cell air (layers (Some section'')) layer i = layer_cell air (layers (Some section)) layer i)) as [->|Hne]; [done|].
    exfalso. assert (false = true); [|done]. apply Hc. right. by exists layer, i.
  - split; [done| |done]. split; [intros _; left|done]. simpl. destruct (Hprev section eq_refl) as [_ Hne].
    by destruct (storages section).
  - split; [done| |done]. split; [intros _; left|done]. simpl. destruct (Hsound section'' eq_refl) as [_ Hne].
    by destruct (storages section'').
  - split; [|apply unchanged_flag|done]. intros layer i Hi. by rewrite <-Hcells.
Qed.

(** Same authority, entities and biomes. *)
Record only_sections c c' : Prop := {
  os_loaded : loaded_chunks c' = loaded_chunks c;
  os_authority : authoritative_sub_chunks c' = authoritative_sub_chunks c;
  os_entities k : chunk_entities (chunks c' !! k) = chunk_entities (chunks c !! k);
  os_biomes k : biomes_of (chunks c' !! k) = biomes_of (chunks c !! k);
}.

Lemma update_sub_chunk_blocks_spec key us air s :
  store_ok s → Forall update_unsigned us →
  wp (update_sub_chunk_blocks key us air) s (λ r s', outcome s (λ changed c',
    Forall update_valid us ∧ ∃ b : bool, changed = (if b then [key] else []) ∧
      section_updated air us (sub_chunk (columns s) key) b (sub_chunk c' key) ∧
      (∀ k, k ≠ key → sub_chunk c' k = sub_chunk (columns s) k) ∧ only_sections (columns s) c') r s' ∧
    match r with Err e => e = CollisionRevisionExhausted ∨ validate_all us = Err e | Ok _ => True end).
Proof using Type.
  intros Hs Hus. unfold update_sub_chunk_blocks. wp_steps.
  destruct (prepare_spec key (sub_chunk (columns s) key) us air) as (r & Hr & Hpost); [intros; by eapply stored_section_sound|done|].
  apply (wp_expect _ r); [done|]. wp_steps. destruct r as [p|e]; [|split; [by apply outcome_refl|by right]].
  destruct Hpost as (Hvalid & Hkey & Hok & Hup). eapply wp_mono; [apply commit_prepared_spec; [done|by apply Forall_singleton]|].
  intros r s' [Hout Herr]. pose proof Hout as (H1 & H2 & H3). destruct r as [changed|e]; [|split; [done|]].
  - destruct H3 as (-> & Hchunks & Hl & Ha). simpl in Hchunks. split; [|done]. split; [done|]. split; [done|]. split; [done|].
    assert (∀ k, sub_chunk (columns s') k = sub_chunk (mutate (columns s) p) k) as Hsub by (intros k; rewrite !sub_chunk_sections; by rewrite Hchunks).
    exists (p_changed p). split_and!.
    + unfold changed_keys. rewrite filter_cons. destruct (p_changed p); [by rewrite decide_True, <-Hkey|by rewrite decide_False by (by intros ?)].
    + rewrite Hsub, sub_chunk_mutate, (decide_ext _ (p_changed p = true)) by naive_solver.
      destruct (p_changed p); [rewrite decide_True by done|rewrite decide_False by done]; exact Hup.
    + intros k Hk. rewrite Hsub, sub_chunk_mutate, decide_False; [done|]. intros [-> _]. done.
    + split; [done|done|..]; intros k; rewrite Hchunks; apply mutate_rest.
  - left. by apply Herr.
Qed.
End spec.
