(* ===== verification/StoreColumnSpec.v ===== *)
(** * Whole columns: what level chunks and biome columns leave in the store *)
From stdpp Require Import base numbers list gmap fin_maps sorting.
From S2P Require Import Prelude Packed Palette PaletteSpec PaletteViews Bytes NbtTree NbtScan Keys Revisions Wire SubChunk SubChunkSpec SubChunkTheorems Biome Entities EntityTheorems.
From S2P Require Import LevelChunk LevelChunkSpec Store StoreCommits StoreInv StoreOpsSpec StoreBatchSpec.
#[local] Open Scope Z_scope.

(** ** Biome columns *)

(** The biomes of two columns read alike everywhere. *)
Definition same_storage (a b : PalettedStorage) : Prop :=
  ∀ i, (i < BLOCKS_PER_SUB_CHUNK)%nat → cell_value a i = cell_value b i.

Lemma reuse_equal_storage_spec base previous offset storage :
  column_sound previous → storage_ok storage → Z.of_nat offset < 2 ^ 31 →
  ∃ s, reuse_equal_storage base previous offset storage = Some s ∧ storage_ok s ∧ same_storage s storage.
Proof.
  intros [Hp _] Hs Ho. unfold reuse_equal_storage, checked_i32 at 1, i32_ok.
  destruct (Z.leb_spec (- 2 ^ 31) (Z.of_nat offset)), (Z.ltb_spec (Z.of_nat offset) (2 ^ 31)); try lia. cbn [andb mbind option_bind].
  destruct (checked_add base (Z.of_nat offset) ≫= column_storage previous) as [p|] eqn:E; [|by exists storage].
  assert (storage_ok p) as Hpok.
  { apply bind_Some in E as (y & _ & E). unfold column_storage in E. apply bind_Some in E as (o & _ & E).
    destruct (o <? 0); [done|]. by eapply Forall_lookup_1. }
  destruct (storage_eqb_sound p storage Hpok Hs) as (b & -> & Hb). cbn [mbind option_bind].
  destruct b; [exists p|exists storage]; split_and!; try done. intros i Hi. by apply Hb.
Qed.

(** The same storages, up to their packing. *)
Definition same_column (a b : DecodedBiomeColumn) : Prop :=
  base_sub_chunk_y a = base_sub_chunk_y b ∧ Forall2 same_storage (column_storages a) (column_storages b).

Lemma reuse_equal_biomes_spec replacement previous :
  column_sound replacement → (∀ p, previous = Some p → column_sound p) →
  ∃ c, reuse_equal_biome_arcs replacement previous = Some c ∧ column_sound c ∧ same_column c replacement.
Proof.
  intros [Hs Hl] Hp. unfold reuse_equal_biome_arcs. destruct previous as [previous|].
  2:{ exists replacement. split; [done|]. split; [done|]. split; [done|]. apply Forall_Forall2_diag, Forall_true. by intros s i. }
  specialize (Hp previous eq_refl).
  assert (∀ n l, Forall storage_ok l → Z.of_nat (n + length l) ≤ 2 ^ 31 →
    ∃ l', mapM (λ '(offset, storage), reuse_equal_storage (base_sub_chunk_y replacement) previous offset storage)
      (imap (λ i s, (n + i, s)%nat) l) = Some l' ∧ Forall storage_ok l' ∧ Forall2 same_storage l' l) as Hmap.
  { intros n l. revert n. induction l as [|s l IH]; intros n Hl' Hn; [by exists []|].
    apply Forall_cons in Hl' as [Hso Hl']. rewrite imap_cons. cbn [length] in Hn. simpl mapM.
    destruct (reuse_equal_storage_spec (base_sub_chunk_y replacement) previous (n + 0) s Hp Hso ltac:(lia)) as (s' & -> & Hso' & Hsame).
    destruct (IH (S n) Hl' ltac:(lia)) as (l' & Hm & Hok & H2). cbn [mbind option_bind].
    replace (imap ((λ i s, ((n + i)%nat, s)) ∘ S) l) with (imap (λ i s, ((S n + i)%nat, s)) l)
      by (apply imap_ext; intros i x _; simpl; f_equal; lia).
    rewrite Hm. exists (s' :: l'). split; [done|]. split; by constructor. }
  destruct (Hmap 0%nat (column_storages replacement) Hs ltac:(simpl; lia)) as (l' & Hm & Hok & H2). simpl in Hm.
  change (imap pair (column_storages replacement)) with (imap (λ i s, (i, s)) (column_storages replacement)).
  rewrite Hm. eexists. split; [done|]. split; [split; [done|]|by split]. simpl. by rewrite (Forall2_length _ _ _ H2).
Qed.

Lemma column_storage_ok c y s : column_sound c → column_storage c y = Some s → storage_ok s.
Proof.
  intros [Hs _] H. unfold column_storage in H. apply bind_Some in H as (o & _ & H). destruct (o <? 0); [done|]. by eapply Forall_lookup_1.
Qed.

(** The biomes at a section Y, if the column has it. *)
Definition storage_at (c : option DecodedBiomeColumn) (y : Z) : option PalettedStorage := c ≫= λ c, column_storage c y.

(** The storages at a Y are not the same packed storage: one is missing, or [PalettedStorage::eq] tells them apart. *)
Definition repacked (previous replacement : option DecodedBiomeColumn) (y : Z) : Prop :=
  match storage_at previous y, storage_at replacement y with
  | Some a, Some b => storage_eqb a b = Some false
  | None, None => False
  | _, _ => True
  end.
Lemma storage_eqb_refl s : storage_ok s → storage_eqb s s = Some true.
Proof. intros Hs. unfold storage_eqb. destruct (words_spec s Hs) as (w & s' & -> & _). simpl. by rewrite bool_decide_eq_true_2. Qed.
Lemma repacked_same c y : (∀ p, c = Some p → column_sound p) → ¬ repacked c c y.
Proof.
  intros Hc. unfold repacked. destruct (storage_at c y) as [s|] eqn:E; [|tauto]. apply bind_Some in E as (p & Hp & E).
  rewrite storage_eqb_refl; [done|]. by eapply column_storage_ok; [apply Hc|].
Qed.
Lemma not_repacked previous replacement y : (∀ p, previous = Some p → column_sound p) → (∀ p, replacement = Some p → column_sound p) →
  ¬ repacked previous replacement y → option_Forall2 same_storage (storage_at previous y) (storage_at replacement y).
Proof.
  intros Hp Hr. unfold repacked. destruct (storage_at previous y) as [a|] eqn:Ea, (storage_at replacement y) as [b|] eqn:Eb; try (intros []; done); [|constructor].
  apply bind_Some in Ea as (pa & Hpa & Ea), Eb as (pb & Hpb & Eb).
  destruct (storage_eqb_sound a b) as (e & -> & He); [by eapply column_storage_ok; [apply Hp|]|by eapply column_storage_ok; [apply Hr|]|].
  destruct e; [|done]. intros _. constructor. intros i Hi. by apply He.
Qed.

Lemma biome_changed_at_spec previous replacement y :
  (∀ p, previous = Some p → column_sound p) → (∀ p, replacement = Some p → column_sound p) →
  ∃ b, biome_changed_at previous replacement y = Some b ∧ (b = true ↔ repacked previous replacement y).
Proof.
  intros Hp Hr. unfold biome_changed_at, repacked, storage_at.
  destruct (previous ≫= λ c, column_storage c y) as [a|] eqn:Ea, (replacement ≫= λ c, column_storage c y) as [b|] eqn:Eb; try by eexists.
  apply bind_Some in Ea as (pa & Hpa & Ea), Eb as (pb & Hpb & Eb).
  destruct (storage_eqb_sound a b) as (e & -> & _); [by eapply column_storage_ok; [apply Hp|]|by eapply column_storage_ok; [apply Hr|]|].
  exists (negb e). split; [done|]. by destruct e.
Qed.

Lemma column_ys_elem c y s : i32_ok y = true → column_sound c → column_storage c y = Some s → y ∈ column_ys c.
Proof.
  intros Hy [_ Hl] H. unfold column_storage, checked_sub in H. apply bind_Some in H as (o & Ho & H). apply checked_i32_Some in Ho as [-> Ho].
  destruct (Z.ltb_spec (y - base_sub_chunk_y c) 0) as [|Hge]; [done|]. pose proof (lookup_lt_Some _ _ _ H) as Hlt.
  apply list_elem_of_omap. exists (Z.to_nat (y - base_sub_chunk_y c)). split; [apply elem_of_seq; lia|]. rewrite Z2Nat.id by lia.
  unfold checked_add, checked_i32. rewrite Ho. cbn [mbind option_bind].
  replace (base_sub_chunk_y c + (y - base_sub_chunk_y c)) with y by lia. by rewrite Hy.
Qed.

Lemma column_ys_ok c y : y ∈ column_ys c → i32_ok y = true.
Proof. intros (o & _ & (v & _ & [-> Hy]%checked_i32_Some)%bind_Some)%list_elem_of_omap. done. Qed.

(** The Ys reported as changed: exactly those whose storage is another one. *)
Lemma changed_biome_ys_spec previous replacement :
  (∀ p, previous = Some p → column_sound p) → (∀ p, replacement = Some p → column_sound p) →
  ∃ X, changed_biome_ys previous replacement = Some X ∧ ∀ y, y ∈ X ↔ i32_ok y = true ∧ repacked previous replacement y.
Proof.
  intros Hp Hr. unfold changed_biome_ys. set (l := from_option column_ys [] previous ++ from_option column_ys [] replacement).
  destruct (foldM_inv (λ (acc : gset Z) y, changed ← biome_changed_at previous replacement y; Some (if (changed : bool) then {[y]} ∪ acc else acc))
    (λ pre (acc : gset Z), ∀ y, y ∈ acc ↔ y ∈ pre ∧ repacked previous replacement y) ∅ l) as (X & HX & Hinv).
  - intros y. split; [by intros ?%not_elem_of_empty|by intros [?%not_elem_of_nil _]].
  - intros pre y post acc _ Hacc. destruct (biome_changed_at_spec previous replacement y Hp Hr) as (b & Hb & Hiff). rewrite Hb. cbn [mbind option_bind].
    eexists. split; [done|]. intros y'. rewrite elem_of_app, list_elem_of_singleton. destruct b.
    + rewrite elem_of_union, elem_of_singleton, Hacc. naive_solver.
    + rewrite Hacc. split; [naive_solver|]. intros [[?| ->] Hy]; [done|]. by apply Hiff in Hy.
  - exists X. split; [done|]. intros y. rewrite Hinv. split; intros [Hy Hd]; (split; [|done]).
    + apply elem_of_app in Hy as [Hy|Hy]; [destruct previous|destruct replacement]; simpl in Hy; try (by eapply column_ys_ok); by apply not_elem_of_nil in Hy.
    + assert (Hsome : ∀ o s, (∀ p, o = Some p → column_sound p) → storage_at o y = Some s → y ∈ from_option column_ys [] o).
      { intros o s Ho (c & -> & E)%bind_Some. simpl. eapply column_ys_elem; [done|by apply Ho|done]. }
      unfold repacked in Hd. apply elem_of_app. destruct (storage_at previous y) eqn:E; [left; by eapply Hsome|].
      destruct (storage_at replacement y) eqn:E'; [right; by eapply Hsome|done].
Qed.

(** Reusing equal storages does not hide a change. *)
Lemma reuse_storage_at replacement previous c y : column_sound replacement → (∀ p, previous = Some p → column_sound p) → i32_ok y = true →
  reuse_equal_biome_arcs replacement previous = Some c → repacked previous (Some c) y ↔ repacked previous (Some replacement) y.
Proof.
  intros [Hs Hl] Hp Hy Hc. unfold reuse_equal_biome_arcs in Hc. destruct previous as [previous|]; [|by injection Hc as <-].
  apply bind_Some in Hc as (l & Hm & [= <-]). unfold repacked, storage_at. cbn [mbind option_bind]. destruct (column_storage previous y) as [p|] eqn:Ep.
  2:{ unfold column_storage. cbn [base_sub_chunk_y column_storages]. apply mapM_Some, Forall2_length in Hm. rewrite length_imap in Hm.
      destruct (checked_sub y _) as [o|]; [|done]. cbn [mbind option_bind]. destruct (o <? 0); [done|].
      destruct (l !! Z.to_nat o) eqn:E1, (column_storages replacement !! Z.to_nat o) eqn:E2; try done; [apply lookup_lt_Some in E1; apply lookup_ge_None in E2|apply lookup_ge_None in E1; apply lookup_lt_Some in E2]; lia. }
  unfold column_storage at 1 2. cbn [base_sub_chunk_y column_storages]. destruct (checked_sub y _) as [o|] eqn:Eo; [|done]. cbn [mbind option_bind].
  destruct (Z.ltb_spec o 0); [done|]. unfold checked_sub in Eo. apply checked_i32_Some in Eo as [-> Ho].
  apply mapM_Some in Hm. destruct (column_storages replacement !! Z.to_nat (y - base_sub_chunk_y replacement)) as [s|] eqn:Es.
  - destruct (Forall2_lookup_l _ _ _ (Z.to_nat (y - base_sub_chunk_y replacement)) (Z.to_nat (y - base_sub_chunk_y replacement), s) Hm) as (s' & Hs' & Hr); [by rewrite list_lookup_imap, Es|].
    rewrite Hs'. unfold reuse_equal_storage in Hr. rewrite Z2Nat.id in Hr by done. unfold checked_i32 in Hr at 1. rewrite Ho in Hr. cbn [mbind option_bind] in Hr.
    unfold checked_add, checked_i32 in Hr. rewrite Zplus_minus, Hy in Hr. cbn [mbind option_bind] in Hr. rewrite Ep in Hr.
    apply bind_Some in Hr as (e & He & [= <-]). destruct e; [|done]. rewrite He, storage_eqb_refl; [done|]. eapply column_storage_ok; [by apply Hp|done].
  - assert (l !! Z.to_nat (y - base_sub_chunk_y replacement) = None) as ->; [|done]. apply lookup_ge_None in Es. apply lookup_ge_None.
    apply Forall2_length in Hm. rewrite length_imap in Hm. lia.
Qed.

Section spec.
Context {Context : Type} (sha256 : bytes → bytes).
#[local] Notation Chunk := (Chunk (Context := Context)).
#[local] Notation Columns := (Columns (Context := Context)).
#[local] Notation ChunkStore := (ChunkStore (Context := Context)).
#[local] Notation store_ok := (store_ok (Context := Context) sha256).
#[local] Notation outcome := (outcome (Context := Context) sha256).
#[local] Notation Sections := (gmap Z (SubChunk Context)).
Implicit Types (s : ChunkStore) (c : Columns) (old rep : Sections).

Definition sections_sound (m : Sections) : Prop := map_Forall (λ _ x, section_sound x) m.

(** ** Matching sections *)

Lemma matched_sections_spec old rep :
  sections_sound old → sections_sound rep →
  ∃ X, matched_sections old rep = Some X ∧
    ∀ y, y ∈ X ↔ ∃ p r, old !! y = Some p ∧ rep !! y = Some r ∧ same_blocks p r.
Proof using Type.
  intros Hold Hrep. unfold matched_sections.
  destruct (foldM_inv (match_section old) (λ pre (acc : gset Z), ∀ y, y ∈ acc ↔ ∃ p r, old !! y = Some p ∧ (y, r) ∈ pre ∧ same_blocks p r)
    ∅ (map_to_list rep)) as (X & HX & Hinv).
  - intros y. split; [by intros ?%not_elem_of_empty|]. by intros (p & r & _ & ?%not_elem_of_nil & _).
  - intros pre [y section] post acc Hl Hacc.
    assert (rep !! y = Some section) as Hy by (apply elem_of_map_to_list; rewrite Hl; apply elem_of_app; right; by left).
    unfold match_section. cbn [fst snd]. destruct (old !! y) as [p|] eqn:Ep.
    + destruct (blocks_match_spec p section) as (e & -> & He); [by apply (Hold y)|by apply (Hrep y)|]. cbn [mbind option_bind].
      eexists. split; [done|]. intros y'. destruct (decide (y' = y)) as [Hyy|Hyy].
      * subst y'. split.
        -- intros Hin. destruct e; [exists p, section; split; [done|]; split; [apply elem_of_app; right; by left|by apply He]|].
           apply Hacc in Hin as (p' & r & ? & ? & ?). exists p', r. split_and!; try done. apply elem_of_app. by left.
        -- intros (p' & r & Hp' & Hin & Hsame). assert (e = true) as ->; [|by apply elem_of_union_l, elem_of_singleton_2].
           apply He. rewrite Ep in Hp'. injection Hp' as <-.
           assert (rep !! y = Some r) as Hr by (apply elem_of_map_to_list; rewrite Hl; apply elem_of_app in Hin as [?|Heq%list_elem_of_singleton];
             apply elem_of_app; [by left|right; rewrite Heq; by left]).
           rewrite Hy in Hr. by injection Hr as ->.
      * assert (y' ∈ (if e then {[y]} ∪ acc else acc) ↔ y' ∈ acc) as -> by (destruct e; [rewrite elem_of_union, elem_of_singleton; tauto|done]).
        rewrite Hacc. split; intros (p' & r & ? & Hin & ?); exists p', r; split_and!; try done; [apply elem_of_app; by left|].
        apply elem_of_app in Hin as [?|?%list_elem_of_singleton]; [done|congruence].
    + exists acc. split; [done|]. intros y'. rewrite Hacc. split; intros (p' & r & ? & Hin & ?); exists p', r; split_and!; try done.
      * apply elem_of_app; by left.
      * apply elem_of_app in Hin as [?|Heq%list_elem_of_singleton]; [done|]. injection Heq as -> ->. congruence.
  - exists X. split; [done|]. intros y. rewrite Hinv. split; intros (p & r & ? & Hr & ?); exists p, r; split_and!; try done; by apply elem_of_map_to_list.
Qed.

Lemma retain_view X rep old : section_view <$> retain_identities X rep old = section_view <$> old.
Proof using Type.
  apply map_eq. intros y. unfold retain_identities. rewrite !lookup_fmap, map_lookup_imap. destruct (old !! y) as [p|]; [|done].
  simpl. destruct (rep !! y); [|done]. by destruct (decide (y ∈ X)).
Qed.

Lemma retain_lookup X rep old y : option_Forall2 (λ p q, section_view p = section_view q) (retain_identities X rep old !! y) (old !! y).
Proof using Type.
  unfold retain_identities. rewrite map_lookup_imap. destruct (old !! y) as [p|]; [|constructor]. simpl. constructor.
  destruct (rep !! y); [|done]. by destruct (decide (y ∈ X)).
Qed.

Lemma section_view_sound (p q : SubChunk Context) : section_view p = section_view q → section_sound q → section_sound p.
Proof using Type. unfold section_view, section_sound. by intros [= _ _ ->]. Qed.

Lemma retain_sound X rep old : sections_sound old → sections_sound (retain_identities X rep old).
Proof using Type.
  intros Hold y p Hp. pose proof (retain_lookup X rep old y) as H. rewrite Hp in H. inversion H as [? q Hv E1 E2|]; subst.
  eapply section_view_sound; [done|]. by apply (Hold y).
Qed.

(** A column keeps the sections that match and takes the others. *)
Lemma keep_matched_spec X old rep y :
  (∀ y, y ∈ X ↔ ∃ p r, old !! y = Some p ∧ rep !! y = Some r ∧ same_blocks p r) →
  let kept := keep_matched X (retain_identities X rep old) rep !! y in
  option_Forall2 same_blocks kept (rep !! y) ∧
  (y ∈ X → option_Forall2 (λ p q, section_view p = section_view q) kept (old !! y)).
Proof using Type.
  intros HX kept. subst kept. unfold keep_matched. rewrite map_lookup_imap. destruct (rep !! y) as [r|] eqn:Er; cbn [mbind option_bind].
  - destruct (decide (y ∈ X)) as [Hin|Hout].
    + pose proof Hin as Hin'. apply HX in Hin' as (p & r' & Hp & Hr & Hsame). rewrite Er in Hr. injection Hr as <-.
      pose proof (retain_lookup X rep old y) as H. split; [|done]. rewrite Hp in H. inversion H as [q ? Hv E1 E2|]; subst. constructor.
      rewrite <-Hsame. apply same_blocks_storages. unfold section_view in Hv. congruence.
    + split; [by constructor|done].
  - split; [constructor|]. intros Hin. apply HX in Hin as (p & r & _ & Hr & _). congruence.
Qed.

Lemma keep_matched_sound X old rep :
  (∀ y, y ∈ X ↔ ∃ p r, old !! y = Some p ∧ rep !! y = Some r ∧ same_blocks p r) →
  sections_sound old → sections_sound rep → sections_sound (keep_matched X (retain_identities X rep old) rep).
Proof using Type.
  intros HX Hold Hrep y s. unfold keep_matched. rewrite map_lookup_imap. destruct (rep !! y) as [r|] eqn:Er; [|done]. cbn [mbind option_bind].
  destruct (decide (y ∈ X)) as [Hin|Hout]; [|intros [= <-]; by apply (Hrep y)]. intros Hs. by apply (retain_sound X rep old Hold y).
Qed.

(** Nothing changed: the residents are kept as they are. *)
Lemma keep_matched_id X old rep :
  (∀ y, y ∈ X ↔ ∃ p r, old !! y = Some p ∧ rep !! y = Some r ∧ same_blocks p r) →
  block_changed_ys X old rep = ∅ → keep_matched X (retain_identities X rep old) rep = retain_identities X rep old.
Proof using Type.
  intros HX Hnone. assert (∀ y, is_Some (old !! y) ∨ is_Some (rep !! y) → y ∈ X) as Hin.
  { intros y Hy. destruct (decide (y ∈ X)) as [?|Hn]; [done|]. exfalso. apply (not_elem_of_empty (C := gset Z) y). rewrite <-Hnone.
    unfold block_changed_ys. apply elem_of_difference. split; [|done]. apply elem_of_union. by rewrite !elem_of_dom. }
  apply map_eq. intros y. unfold keep_matched. rewrite map_lookup_imap. destruct (rep !! y) as [r|] eqn:Er; cbn [mbind option_bind].
  - rewrite decide_True; [done|]. apply Hin. right. by eexists.
  - unfold retain_identities. rewrite map_lookup_imap. destruct (old !! y) as [p|] eqn:Ep; [|done]. exfalso.
    destruct (proj1 (HX y)) as (_ & r & _ & Hr & _); [apply Hin; left; by eexists|congruence].
Qed.

Lemma block_changed_iff X old rep y :
  (∀ y, y ∈ X ↔ ∃ p r, old !! y = Some p ∧ rep !! y = Some r ∧ same_blocks p r) →
  y ∈ block_changed_ys X old rep ↔ ¬ option_Forall2 same_blocks (old !! y) (rep !! y).
Proof using Type.
  intros HX. unfold block_changed_ys. rewrite elem_of_difference, elem_of_union, !elem_of_dom, HX. split.
  - intros [Hsome Hnot] H. inversion H as [p r Hsame Ep Er|Ep Er].
    + apply Hnot. by exists p, r.
    + rewrite <-Ep, <-Er in Hsome. by destruct Hsome as [[? ?]|[? ?]].
  - intros Hne. split.
    + destruct (old !! y), (rep !! y); [left|left|right|exfalso; apply Hne; constructor]; by eexists.
    + intros (p & r & Hp & Hr & Hsame). apply Hne. rewrite Hp, Hr. by constructor.
Qed.

(** ** The residents take over the wire identities *)

Definition retained_columns (key : ChunkKey) X rep c : Columns :=
  put key (on_sub_chunks (λ _, retain_identities X rep (old_sections c key)) <$> chunks c !! key) c.

Lemma alter_put key f c : on_chunks (alter f key) c = put key (f <$> chunks c !! key) c.
Proof using Type.
  unfold put, on_chunks. f_equal. apply map_eq. intros k. destruct (decide (k = key)) as [Hk|Hk].
  - subst k. by rewrite lookup_alter_eq, lookup_partial_alter_eq.
  - by rewrite lookup_alter_ne, lookup_partial_alter_ne.
Qed.

Lemma retained_parts key X rep c :
  chunk_sections (chunks (retained_columns key X rep c) !! key) = chunk_sections (chunks c !! key) ∧
  biomes_of (chunks (retained_columns key X rep c) !! key) = biomes_of (chunks c !! key) ∧
  chunk_entities (chunks (retained_columns key X rep c) !! key) = chunk_entities (chunks c !! key).
Proof using Type.
  unfold retained_columns. rewrite put_lookup. unfold chunk_sections, old_sections. destruct (chunks c !! key) as [ch|]; [|done].
  simpl. split_and!; try done. apply retain_view.
Qed.

Lemma stored_sections_sound s key : store_ok s → sections_sound (old_sections (columns s) key).
Proof using Type.
  intros Hs. unfold old_sections. rewrite <-sections_default. apply (co_sections _ _ _ (stored_sound sha256 s key Hs)).
Qed.

Definition retained key X rep s : ChunkStore := mk_store (retained_columns key X rep (columns s)) (next_revision s) (cached_snapshot s).

Lemma retained_ok key X rep s : store_ok s → store_ok (retained key X rep s) ∧ evolves s (retained key X rep s).
Proof using Type.
  intros Hs. destruct (retained_parts key X rep (columns s)) as (Hsec & _ & Hent). unfold retained_columns in Hsec, Hent.
  rewrite put_lookup in Hsec, Hent.
  destruct (put_ok sha256 s s key (on_sub_chunks (λ _, retain_identities X rep (old_sections (columns s) key)) <$> chunks (columns s) !! key)
    None (cached_snapshot s) Hs Hs (evolves_refl s)) as [H1 H2]; [| |done|by right|by split].
  - intros ch. destruct (chunks (columns s) !! key) as [ch'|] eqn:E; [|done]. simpl. intros [= <-].
    destruct (ok_chunks _ _ _ (so_columns _ _ Hs) _ _ E) as [Hsound Hne]. split.
    + apply on_sub_chunks_sound; [done|]. apply retain_sound. by apply stored_sections_sound.
    + apply not_true_iff_false. rewrite chunk_is_empty_iff. simpl. intros (Hss & Hb & He).
      assert (sub_chunks ch' = ∅) as Hempty.
      { assert (section_view <$> sub_chunks ch' = ∅) as Hv by by (rewrite <-(retain_view X rep); unfold old_sections in Hss; rewrite E in Hss; simpl in Hss; rewrite Hss, fmap_empty).
        by apply fmap_empty_inv in Hv. }
      apply (not_true_iff_false _) in Hne. apply Hne, chunk_is_empty_iff. done.
  - intros _. right. apply column_view_eq; [by rewrite Hsec|by rewrite Hent].
Qed.

(** The columns but for the wire identities. *)
Record same_content c c' : Prop := {
  sc_index : same_index c c';
  sc_biomes k : biomes_of (chunks c' !! k) = biomes_of (chunks c !! k);
  sc_entities k : chunk_entities (chunks c' !! k) = chunk_entities (chunks c !! k);
}.

Lemma retained_content key X rep c : same_content c (retained_columns key X rep c).
Proof using Type.
  destruct (retained_parts key X rep c) as (Hsec & Hb & He).
  assert (∀ k, k ≠ key → chunks (retained_columns key X rep c) !! k = chunks c !! k) as Hne by (intros; by apply put_lookup_ne).
  split; [split; try done|..]; intros k; (destruct (decide (k = key)) as [Hk|Hk]; [by subst k|by rewrite Hne]).
Qed.

(** ** The commit *)

Record decoded_ok (key : ChunkKey) (d : DecodedLevelChunk Context) : Prop := {
  do_sections : sections_sound (lc_sub_chunks d);
  do_biomes b : lc_biomes d = Some b → column_sound b;
  do_entities e : lc_block_entities d = Some e → entities_ok sha256 key (entities e);
}.

(** The packet has other packed biomes at [y] than the column. *)
Definition biomes_replaced (key : ChunkKey) (d : DecodedLevelChunk Context) c (y : Z) : Prop :=
  i32_ok y = true ∧ match lc_biomes d with Some b => repacked (biomes_of (chunks c !! key)) (Some b) y | None => False end.

(** What the store holds once [d] is committed, and what the commit reports. *)
Record level_committed (key : ChunkKey) (d : DecodedLevelChunk Context) c c' (a : ApplyLevelChunk) : Prop := {
  lv_loaded : loaded_chunks c' = {[key]} ∪ loaded_chunks c;
  lv_authority : authoritative_sub_chunks c' = if is_chunk_loaded c key then authoritative_sub_chunks c else delete key (authoritative_sub_chunks c);
  lv_others k : k ≠ key → chunks c' !! k = chunks c !! k;
  lv_blocks y : option_Forall2 same_blocks (sections_of (chunks c' !! key) !! y) (lc_sub_chunks d !! y);
  lv_entities : chunk_entities (chunks c' !! key) =
    match lc_block_entities d with Some e => entities e | None => chunk_entities (chunks c !! key) end;
  lv_biomes : match lc_biomes d with
              | Some b => ∃ b', biomes_of (chunks c' !! key) = Some b' ∧ same_column b' b
              | None => biomes_of (chunks c' !! key) = biomes_of (chunks c !! key)
              end;
  lv_changed k : k ∈ al_changed a ↔ ∃ y, k = from_chunk key y ∧
    (¬ option_Forall2 same_blocks (old_sections c key !! y) (lc_sub_chunks d !! y) ∨ biomes_replaced key d c y);
  lv_dirty k : k ∈ al_dirty a ↔ (∃ k', k' ∈ al_changed a ∧ (k = k' ∨ shares_face k' k)) ∨
    ∃ y, biomes_replaced key d c y ∧ around (from_chunk key y) k;
  lv_biomes_read y : i32_ok y = true → ¬ biomes_replaced key d c y →
    option_Forall2 same_storage (storage_at (biomes_of (chunks c !! key)) y) (storage_at (biomes_of (chunks c' !! key)) y);
  lv_bytes : al_bytes_consumed a = lc_bytes_consumed d ∧ al_block_bytes_consumed a = lc_block_bytes_consumed d;
}.

Lemma elem_of_expand (f : SubChunkKey → list SubChunkKey) (X : gset SubChunkKey) k :
  k ∈ (list_to_set (elements X ≫= f) : gset SubChunkKey) ↔ ∃ k', k' ∈ X ∧ k ∈ f k'.
Proof using Type.
  rewrite elem_of_list_to_set, list_elem_of_bind. split; intros (k' & H1 & H2); exists k'; rewrite elem_of_elements in *; done.
Qed.

(** Writing the new chunk of a column that is already loaded. *)
Lemma column_replaced_ok s s1 b rev key (ch : Chunk) :
  store_ok s → reserved sha256 s b rev s1 → chunk_sound sha256 key ch → is_chunk_loaded (columns s) key = true →
  (b = false → section_view <$> sub_chunks ch = chunk_sections (chunks (columns s) !! key) ∧
     shape_actors (block_entities ch) = shape_actors (chunk_entities (chunks (columns s) !! key))) →
  let s' := published key rev (mk_store (put key (prune ch) (columns s)) (next_revision s1) (cached_snapshot s1)) in
  store_ok s' ∧ evolves s s'.
Proof using Type.
  intros Hs [Hs1 Hev Hcols Hcached Hnone Hsome] Hch Hload Hsame s'. subst s'. rewrite <-Hcols in *.
  apply (put_ok sha256 s s1); try done.
  - by apply prune_ok.
  - intros Hr. right. destruct (Hsame (Hnone Hr)) as [H1 H2].
    apply column_view_eq; [by rewrite chunk_sections_prune, H1|by rewrite chunk_entities_prune, H2].
  - intros r Hr. destruct (Hsome r Hr) as (_ & ? & ? & ?). split_and!; try done.
    apply (ok_known _ _ _ (so_columns _ _ Hs1)). left. unfold is_chunk_loaded in Hload. by apply bool_decide_eq_true_1 in Hload.
  - right. split; [done|]. intros Hr. rewrite chunk_sections_prune. by apply Hsame, Hnone.
Qed.

(** Writing the first chunk of a column and its authority. *)
Lemma column_loaded_ok s r next key (ch : Chunk) :
  store_ok s → 1 ≤ r → bound (next_revision s) ≤ r < bound next → next_ok next → chunk_sound sha256 key ch →
  let s' := mk_store (loaded_columns key r (put key (prune ch) (columns s))) next None in
  store_ok s' ∧ evolves s s'.
Proof using Type.
  intros Hs H1 H2 H3 Hch s'. destruct (loaded_ok sha256 s key r next Hs H1 H2 H3) as [Hs1 Hev1].
  set (s1 := mk_store (loaded_columns key r (columns s)) next None) in *.
  assert (collision_revisions (columns s1) !! key = Some (mk_revision key r)) as Hrev by apply lookup_insert_eq.
  destruct (put_ok sha256 s s1 key (prune ch) (Some r) None Hs Hs1 Hev1) as [K1 K2]; [by apply prune_ok|done| |by left|].
  { intros r' [= <-]. rewrite Hrev. split; [done|]. split; [exact H2|by eexists]. }
  assert (s' = published key (Some r) (mk_store (put key (prune ch) (columns s1)) (next_revision s1) None)) as ->; [|by split].
  unfold s', published. cbn [columns]. change (collision_revisions (put key (prune ch) (columns s1))) with (collision_revisions (columns s1)).
  rewrite Hrev. cbn [cr_revision]. rewrite Z.max_id. unfold s1, loaded_columns, on_revisions, put, on_chunks. cbn. by rewrite insert_insert_eq.
Qed.

(** The chunk a commit builds. *)
Definition committed_chunk (X : gset Z) (old rep : Sections) (b : option DecodedBiomeColumn) (m : gmap BlockEntityKey BlockEntityNbt) : Chunk :=
  mk_chunk (keep_matched X (retain_identities X rep old) rep) b m (total_bytes m).

(** The last writes of [commit_level_chunk], as one change of the column. *)
Lemma committed_put key X old rep b m (changed : bool) c :
  (∀ y, y ∈ X ↔ ∃ p r, old !! y = Some p ∧ rep !! y = Some r ∧ same_blocks p r) →
  (changed = false → block_changed_ys X old rep = ∅) →
  let residents := retain_identities X rep old in let ss := keep_matched X residents rep in
  on_chunks (λ m', if (size ss =? 0)%nat && bool_decide (b = None) && (size m =? 0)%nat then delete key m'
      else <[key := mk_chunk (if changed then ss else if bool_decide (is_Some (m' !! key)) then residents else ss) b m (sum_bytes m)]> m') c
  = put key (prune (committed_chunk X old rep b m)) c.
Proof using Type.
  intros HX Hch residents ss. unfold put, on_chunks, prune, committed_chunk, chunk_is_empty. cbn [sub_chunks biomes block_entities].
  fold residents ss. f_equal. destruct (_ && _); [done|]. rewrite total_bytes_sum. unfold insert, map_insert.
  replace (if changed then ss else if bool_decide (is_Some (chunks c !! key)) then residents else ss) with ss; [done|].
  destruct changed; [done|]. assert (ss = residents) as -> by (apply keep_matched_id; auto). by destruct (bool_decide _).
Qed.

Lemma dirty_spec changed biome_changed k :
  k ∈ sorted_keys (expand_mesh_dependents changed ∪ expand_biome_mesh_dependents biome_changed) ↔
  (∃ k', k' ∈ changed ∧ k ∈ mesh_dependents k') ∨ (∃ k', k' ∈ biome_changed ∧ k ∈ biome_mesh_dependents k').
Proof using Type.
  rewrite elem_of_sorted_keys, elem_of_union. unfold expand_mesh_dependents, expand_biome_mesh_dependents. by rewrite !elem_of_expand.
Qed.

Lemma committed_sound key X d old b m :
  (∀ y, y ∈ X ↔ ∃ p r, old !! y = Some p ∧ lc_sub_chunks d !! y = Some r ∧ same_blocks p r) →
  sections_sound old → sections_sound (lc_sub_chunks d) → (∀ b', b = Some b' → column_sound b') → entities_ok sha256 key m →
  chunk_sound sha256 key (committed_chunk X old (lc_sub_chunks d) b m).
Proof using Type. intros HX Hold Hrep Hb Hm. split; [by apply keep_matched_sound|done|done|done]. Qed.

(** What the columns hold after the commit, from the parts that were computed. *)
Lemma committed_post key X d c c' old_b b (m : gmap BlockEntityKey BlockEntityNbt) (biome_ys : gset Z) :
  let old := old_sections c key in let rep := lc_sub_chunks d in
  (∀ y, y ∈ X ↔ ∃ p r, old !! y = Some p ∧ rep !! y = Some r ∧ same_blocks p r) →
  old_b = biomes_of (chunks c !! key) →
  (∀ y, y ∈ biome_ys ↔ biomes_replaced key d c y) →
  (∀ y, i32_ok y = true → ¬ biomes_replaced key d c y → option_Forall2 same_storage (storage_at old_b y) (storage_at b y)) →
  match lc_biomes d with Some r => ∃ b', b = Some b' ∧ same_column b' r | None => b = old_b end →
  m = match lc_block_entities d with Some e => entities e | None => chunk_entities (chunks c !! key) end →
  loaded_chunks c' = {[key]} ∪ loaded_chunks c →
  authoritative_sub_chunks c' = (if is_chunk_loaded c key then authoritative_sub_chunks c else delete key (authoritative_sub_chunks c)) →
  chunks c' = chunks (put key (prune (committed_chunk X old rep b m)) c) →
  let changed : gset SubChunkKey := set_map (from_chunk key) (block_changed_ys X old rep) ∪ set_map (from_chunk key) biome_ys in
  let dirty := expand_mesh_dependents changed ∪ expand_biome_mesh_dependents (set_map (from_chunk key) biome_ys) in
  level_committed key d c c' (mk_apply (sorted_keys changed) (sorted_keys dirty) (lc_bytes_consumed d) (lc_block_bytes_consumed d)).
Proof using Type.
  intros old rep HX -> Hys Hread Hb Hm Hl Ha Hc changed dirty.
  assert (∀ (Y : gset Z) k, k ∈ (set_map (from_chunk key) Y : gset SubChunkKey) ↔ ∃ y, k = from_chunk key y ∧ y ∈ Y) as Hmap
    by (intros; apply elem_of_map).
  split; try done.
  - intros k Hk. rewrite Hc. by apply put_lookup_ne.
  - intros y. rewrite Hc, put_lookup, sections_of_prune. by apply keep_matched_spec.
  - by rewrite Hc, put_lookup, chunk_entities_prune.
  - rewrite Hc, put_lookup, biomes_of_prune. cbn [committed_chunk biomes]. by destruct (lc_biomes d).
  - intros k. cbn [al_changed]. rewrite elem_of_sorted_keys. unfold changed. rewrite elem_of_union, !Hmap. split.
    + intros [(y & -> & Hy)|(y & -> & Hy)]; exists y; (split; [done|]); [left; by apply (block_changed_iff X)|right; by apply Hys].
    + intros (y & -> & [Hy|Hy]); [left|right]; exists y; (split; [done|]); [by apply (block_changed_iff X)|by apply Hys].
  - intros k. cbn [al_changed al_dirty]. unfold dirty. rewrite dirty_spec. setoid_rewrite elem_of_sorted_keys. setoid_rewrite mesh_dependents_iff.
    split; (intros [?|H]; [by left|right]).
    + destruct H as (k' & (y & -> & Hy)%Hmap & Hk). exists y. split; [by apply Hys|]. by apply (proj2 (dependents_inverse _ _)).
    + destruct H as (y & Hy & Hk). exists (from_chunk key y). split; [apply Hmap; exists y; split; [done|by apply Hys]|by apply (proj2 (dependents_inverse _ _))].
  - intros y Hy Hn. rewrite Hc, put_lookup, biomes_of_prune. by apply Hread.
Qed.

Lemma stored_biomes_sound s key b : store_ok s → biomes_of (chunks (columns s) !! key) = Some b → column_sound b.
Proof using Type.
  intros Hs Hb. unfold biomes_of in Hb. apply bind_Some in Hb as (ch & Hch & Hb).
  destruct (ok_chunks _ _ _ (so_columns _ _ Hs) _ _ Hch) as [Hsound _]. by apply (co_biomes _ _ _ Hsound).
Qed.

(** The biomes a commit leaves. *)
Lemma committed_biomes d old_b :
  (∀ b, lc_biomes d = Some b → column_sound b) → (∀ b, old_b = Some b → column_sound b) →
  ∃ b, match lc_biomes (Context := Context) d with
       | None => Some old_b
       | Some replacement => Some <$> reuse_equal_biome_arcs replacement old_b
       end = Some b ∧ (∀ b', b = Some b' → column_sound b') ∧
    match lc_biomes d with Some r => ∃ b', b = Some b' ∧ same_column b' r | None => b = old_b end ∧
    ∀ y, i32_ok y = true → repacked old_b b y ↔ match lc_biomes d with Some r => repacked old_b (Some r) y | None => False end.
Proof using Type.
  intros Hd Ho. destruct (lc_biomes d) as [r|].
  2:{ exists old_b. split; [done|]. split; [done|]. split; [done|]. intros y _. split; [|done]. by apply repacked_same. }
  destruct (reuse_equal_biomes_spec r old_b (Hd r eq_refl) Ho) as (b & Heq & Hb & Hsame). exists (Some b). split; [by rewrite Heq|].
  split; [by intros b' [= <-]|]. split; [by exists b|]. intros y Hy. by apply (reuse_storage_at r old_b b y (Hd r eq_refl)).
Qed.

(** What [replace_column] leaves, for the two kinds of commit. *)
Definition column_state (key : ChunkKey) (newly_loaded : bool) (ch : Chunk) (rev : option Z) s : ChunkStore :=
  published key rev (mk_store
    (let c := put key (prune ch) (columns s) in
     if newly_loaded then on_authoritative (delete key) (on_loaded (λ l, {[key]} ∪ l) c) else c)
    (next_revision s) (cached_snapshot s)).

Lemma wp_replace_column {E} key (newly : bool) changed X old rep b m rev s (Q : result E unit → ChunkStore → Prop) :
  (∀ y, y ∈ X ↔ ∃ p r, old !! y = Some p ∧ rep !! y = Some r ∧ same_blocks p r) →
  (changed = false → block_changed_ys X old rep = ∅) →
  Q (Ok ()) (column_state key newly (committed_chunk X old rep b m) rev s) →
  wp (replace_column key newly changed (retain_identities X rep old) (keep_matched X (retain_identities X rep old) rep) b m rev) s Q.
Proof using Type.
  intros HX Hch HQ. unfold replace_column. wp_step. wp_step. rewrite (committed_put key X old rep b m changed _ HX Hch).
  unfold column_state in HQ. wp_step. destruct newly.
  - wp_step. wp_step. wp_step. apply wp_apply_reserved. exact HQ.
  - wp_step. apply wp_apply_reserved. exact HQ.
Qed.

(** The revision of a commit, and the store it leads to. *)
Lemma wp_reserve_column key newly changed m s (Q : result DecodeError (option Z) → ChunkStore → Prop) :
  store_ok s → newly = negb (is_chunk_loaded (columns s) key) →
  Q (Err (DecodeCollisionRevision Exhausted)) s →
  (∀ rev s1, (newly = true → ∃ r, rev = Some r ∧ 1 ≤ r ∧ bound (next_revision s) ≤ r < bound (next_revision s1)) →
     (∀ ch, chunk_sound sha256 key ch → block_entities ch = m →
        (changed = false → section_view <$> sub_chunks ch = chunk_sections (chunks (columns s) !! key)) →
        let s' := column_state key newly ch rev s1 in store_ok s' ∧ evolves s s') →
     columns s1 = columns s → Q (Ok rev) s1) →
  wp (reserve_column key newly changed m) s Q.
Proof using Type.
  intros Hs Hnew He HQ. unfold reserve_column. destruct newly; cbn [orb].
  - wp_step. apply (wp_reserved sha256); [done|done|]. intros rev s1 Hres.
    destruct rev as [r|]; [|by pose proof (rs_none _ _ _ _ _ Hres eq_refl)].
    destruct (rs_some _ _ _ _ _ Hres r eq_refl) as (_ & Hr1 & Hr2). apply HQ; [intros _; by exists r| |apply Hres].
    intros ch Hch _ _ s'. assert (s' = mk_store (loaded_columns key r (put key (prune ch) (columns s))) (next_revision s1) None) as ->.
    { unfold s', column_state, published. cbn [columns]. rewrite (rs_columns _ _ _ _ _ Hres). unfold loaded_columns, on_revisions. cbn.
      destruct (collision_revisions (columns s) !! key) as [old|] eqn:E; [|done].
      destruct (ok_revision _ _ _ (so_columns _ _ Hs) _ _ E). by rewrite Z.max_r by lia. }
    apply column_loaded_ok; try done. apply (so_next _ _ (rs_ok _ _ _ _ _ Hres)).
  - symmetry in Hnew. apply negb_false_iff in Hnew.
    assert (∀ rev s1 b, reserved sha256 s b rev s1 →
      (b = false → changed = false ∧ (shape_actors (chunk_entities (chunks (columns s) !! key)) = shape_actors m)) → Q (Ok rev) s1) as Hfin.
    { intros rev s1 b Hres Hb. apply HQ; [done| |apply Hres]. intros ch Hch Hm Hsec s'.
      unfold s', column_state. rewrite (rs_columns _ _ _ _ _ Hres).
      apply (column_replaced_ok s s1 b); [done|done|done|done|]. intros Hb'. destruct (Hb Hb') as [Hc Ha]. split; [by apply Hsec|by rewrite Hm]. }
    destruct changed.
    + wp_step. apply (wp_reserved sha256); [done|done|]. intros rev s1 Hres. by apply (Hfin rev s1 true).
    + wp_step. apply wp_reserve_replacement, (wp_reserved sha256); [done|done|]. intros rev s1 Hres. apply (Hfin _ _ _ Hres).
      intros Hb. split; [done|]. apply andb_false_iff in Hb as [Hb|Hb]; [by apply bool_decide_eq_false_1, dec_stable in Hb|].
      apply bool_decide_eq_false_1 in Hb. exfalso. apply Hb. apply (ok_known _ _ _ (so_columns _ _ Hs)). left.
      unfold is_chunk_loaded in Hnew. by apply bool_decide_eq_true_1 in Hnew.
Qed.

Lemma column_state_parts key (newly : bool) (ch : Chunk) rev s :
  let c' := columns (column_state key newly ch rev s) in
  chunks c' = chunks (put key (prune ch) (columns s)) ∧
  loaded_chunks c' = (if newly then {[key]} ∪ loaded_chunks (columns s) else loaded_chunks (columns s)) ∧
  authoritative_sub_chunks c' = (if newly then delete key (authoritative_sub_chunks (columns s)) else authoritative_sub_chunks (columns s)).
Proof using Type. by destruct newly, rev. Qed.

Lemma put_retained key X rep c (o : option Chunk) : chunks (put key o (retained_columns key X rep c)) = chunks (put key o c).
Proof using Type.
  apply map_eq. intros k. destruct (decide (k = key)) as [Hk|Hk]; [subst k; by rewrite !put_lookup|].
  unfold retained_columns. by rewrite !put_lookup_ne.
Qed.

Lemma commit_level_chunk_spec key d s :
  store_ok s → decoded_ok key d →
  wp (commit_level_chunk key d) s (λ r s', store_ok s' ∧ evolves s s' ∧
    match r with
    | Ok a => level_committed key d (columns s) (columns s') a
    | Err e => e = DecodeCollisionRevision Exhausted ∧ same_content (columns s) (columns s')
    end).
Proof using Type.
  intros Hs [Hrep Hbd Hed]. set (c := columns s). set (old := old_sections c key). set (rep := lc_sub_chunks d) in *.
  pose proof (stored_sections_sound s key Hs) as Hold. fold c old in Hold.
  destruct (matched_sections_spec old rep Hold Hrep) as (X & Hmatch & HX).
  destruct (retained_ok key X rep s Hs) as [Hsa Heva]. destruct (retained_parts key X rep c) as (Hpsec & Hpb & Hpe).
  assert (∀ b, biomes_of (chunks c !! key) = Some b → column_sound b) as Hob
    by (intros b; apply (stored_biomes_sound s key b Hs)).
  destruct (committed_biomes d (biomes_of (chunks c !! key)) Hbd Hob) as (b & Hb & Hbok & Hbpost & Hbrep).
  destruct (changed_biome_ys_spec (biomes_of (chunks c !! key)) b Hob Hbok) as (ys & Hys & Hyiff).
  assert (∀ y, i32_ok y = true → repacked (biomes_of (chunks c !! key)) b y ↔ biomes_replaced key d c y) as Hrepl
    by (intros y Hy; unfold biomes_replaced; rewrite Hbrep by done; tauto).
  pose proof (stored_entities_ok sha256 s key Hs) as Hoe. fold c in Hoe.
  set (m := match lc_block_entities d with Some e => entities e | None => chunk_entities (chunks c !! key) end).
  assert (entities_ok sha256 key m) as Hm by (subst m; destruct (lc_block_entities d) as [e|]; [by apply Hed|done]).
  assert (reuse_equal_entities (chunk_entities (chunks c !! key)) m = m) as Hreuse
    by (apply (reuse_genuine sha256); by eapply genuine_entities).
  unfold commit_level_chunk. wp_step. wp_step. wp_step. wp_step. wp_step. fold c old rep. apply (wp_expect _ X); [done|].
  wp_step. wp_step. rewrite alter_put. change (put key _ (columns s)) with (retained_columns key X rep c).
  wp_step. wp_step. wp_step. cbn [columns]. fold rep.
  change (chunks (retained_columns key X rep c) !! key ≫= biomes) with (biomes_of (chunks (retained_columns key X rep c) !! key)).
  rewrite Hpb. apply (wp_expect _ b); [exact Hb|]. wp_step. wp_step. cbn [columns].
  change (stored_entities (retained_columns key X rep c) key) with (chunk_entities (chunks (retained_columns key X rep c) !! key)).
  rewrite Hpe. fold m. rewrite Hreuse. wp_step. apply (wp_expect _ ys); [done|].
  set (changed := negb (size (set_map (from_chunk key) (block_changed_ys X old rep) : gset SubChunkKey) =? 0)%nat).
  assert (changed = false → block_changed_ys X old rep = ∅) as Hch.
  { intros H. apply negb_false_iff, Nat.eqb_eq, size_empty_inv in H. apply set_eq. intros y. split; [|by intros ?%not_elem_of_empty].
    intros Hy. exfalso. apply (not_elem_of_empty (C := gset SubChunkKey) (from_chunk key y)). apply (H (from_chunk key y)), elem_of_map. by exists y. }
  wp_step. apply wp_reserve_column; [exact Hsa|done|split; [done|]; split; [done|]; split; [done|apply retained_content]|].
  intros rev s1 Hnew Hfin Hcols. wp_step. apply (wp_replace_column _ _ _ X old rep b m); [done|done|]. wp_step.
  destruct (Hfin (committed_chunk X old rep b m)) as [H1 H2]; [by apply (committed_sound key X d)|done| |].
  { intros Hc. cbn [columns committed_chunk sub_chunks]. rewrite Hpsec, (keep_matched_id X old rep HX (Hch Hc)). apply retain_view. }
  split; [exact H1|]. split; [by eapply evolves_trans|].
  destruct (column_state_parts key (negb (is_chunk_loaded c key)) (committed_chunk X old rep b m) rev s1) as (H3 & H4 & H5).
  rewrite Hcols in H3, H4, H5. apply (committed_post key X d c _ (biomes_of (chunks c !! key)) b m ys); try done.
  - intros y. rewrite Hyiff. split; [intros [Hy ?]; by apply Hrepl|intros Hy; split; [apply Hy|]; apply Hrepl; [apply Hy|done]].
  - intros y Hy Hn. apply not_repacked; [done|done|]. by rewrite Hrepl.
  - rewrite H4. change (loaded_chunks (retained_columns key X rep c)) with (loaded_chunks c). unfold is_chunk_loaded.
    case_bool_decide; cbn [negb]; [|done]. apply set_eq. intros k. rewrite elem_of_union, elem_of_singleton. split; [by right|by intros [-> | ?]].
  - rewrite H5. change (authoritative_sub_chunks (retained_columns key X rep c)) with (authoritative_sub_chunks c).
    by destruct (is_chunk_loaded c key).
  - rewrite H3. cbn [columns]. by rewrite put_retained.
Qed.

(** ** Biome columns of request-mode chunks *)

(** Only the biomes of [key] change, to those of [replacement]; [dirty] are the meshes that see it. *)
Definition biomes_committed (key : ChunkKey) (replacement : DecodedBiomeColumn) c c' (dirty : list SubChunkKey) : Prop :=
  ∃ (o : option Chunk) b (ys : gset Z), writes key o c c' ∧ sections_of o = sections_of (chunks c !! key) ∧
    chunk_entities o = chunk_entities (chunks c !! key) ∧ biomes_of o = Some b ∧ same_column b replacement ∧
    (∀ y, y ∈ ys ↔ i32_ok y = true ∧ repacked (biomes_of (chunks c !! key)) (Some replacement) y) ∧
    (∀ y, i32_ok y = true → y ∉ ys → option_Forall2 same_storage (storage_at (biomes_of (chunks c !! key)) y) (storage_at (Some b) y)) ∧
    ∀ k, k ∈ dirty ↔ ∃ y, y ∈ ys ∧ k ∈ biome_mesh_dependents (from_chunk key y).

Lemma commit_biome_column_spec {E} key replacement s :
  store_ok s → column_sound replacement →
  wp (E := E) (commit_biome_column key replacement) s (outcome s (λ dirty c', biomes_committed key replacement (columns s) c' dirty)).
Proof using Type.
  intros Hs Hr. set (c := columns s). assert (∀ b, biomes_of (chunks c !! key) = Some b → column_sound b) as Hob
    by (intros b; apply (stored_biomes_sound s key b Hs)).
  destruct (reuse_equal_biomes_spec replacement (biomes_of (chunks c !! key)) Hr Hob) as (b & Hb & Hbs & Hsame).
  destruct (changed_biome_ys_spec (biomes_of (chunks c !! key)) (Some b) Hob) as (ys & Hys & Hyiff); [by intros ? [= <-]|].
  unfold commit_biome_column. wp_step. wp_step. wp_step. fold c. apply (wp_expect _ b); [done|]. wp_step. apply (wp_expect _ ys); [done|].
  wp_step. wp_step. wp_step. rewrite update_entry_put. fold c. set (o := Some _).
  assert (sections_of o = sections_of (chunks c !! key) ∧ chunk_entities o = chunk_entities (chunks c !! key) ∧ biomes_of o = Some b) as (Ho1 & Ho2 & Ho3).
  { subst o. by destruct (chunks c !! key). }
  assert (chunk_sections o = chunk_sections (chunks c !! key)) as Hsec by (unfold chunk_sections; by f_equal).
  destruct (put_ok sha256 s s key o None (cached_snapshot s) Hs Hs (evolves_refl s)) as [H1 H2].
  - intros ch [= <-]. split; [apply with_biomes_sound; [by apply stored_sound|done]|].
    apply not_true_iff_false. rewrite chunk_is_empty_iff. by intros (_ & ? & _).
  - intros _. right. by apply column_view_eq; [rewrite Hsec|rewrite Ho2].
  - done.
  - by right.
  - split; [exact H1|]. split; [exact H2|]. exists o, b, ys. split_and!; try done.
    + intros y. rewrite Hyiff. split; (intros [Hy Hd]; split; [done|]; by apply (reuse_storage_at replacement _ b y Hr Hob Hy Hb)).
    + intros y Hy Hn. apply not_repacked; [done|by intros ? [= <-]|]. intros Hd. by apply Hn, Hyiff.
    + intros k. rewrite elem_of_sorted_keys. unfold expand_biome_mesh_dependents. rewrite elem_of_expand. split.
      * intros (k' & Hk' & Hk). apply elem_of_map in Hk' as (y & -> & Hy). by exists y.
      * intros (y & Hy & Hk). exists (from_chunk key y). split; [|done]. apply elem_of_map. by exists y.
Qed.
End spec.
