(* ===== verification/StoreTraces.v ===== *)
(** * Evictions and the shared collision snapshot *)
From stdpp Require Import base numbers list gmap fin_maps sorting.
From S2P Require Import Prelude Packed Palette PaletteSpec Bytes NbtTree NbtScan NbtRoot Keys Wire SubChunk SubChunkSpec Revisions Entities.
From S2P Require Import EntityTheorems Biome LevelChunk LevelChunkSpec Store StoreCommits StoreInv StoreOpsSpec StoreBatchSpec StoreColumnSpec.
#[local] Open Scope Z_scope.

Section spec.
Context {Context : Type} (sha256 : bytes → bytes).
#[local] Notation Chunk := (Chunk (Context := Context)).
#[local] Notation Columns := (Columns (Context := Context)).
#[local] Notation ChunkStore := (ChunkStore (Context := Context)).
#[local] Notation store_ok := (store_ok (Context := Context) sha256).
Implicit Types (s : ChunkStore) (c : Columns).

(** ** Evictions *)

(** [c'] is [c] without the columns of [gone]. *)
Record detached (gone : ChunkKey → Prop) c c' : Prop := {
  dt_gone k : gone k → chunks c' !! k = None ∧ (k ∉ loaded_chunks c') ∧ authoritative_sub_chunks c' !! k = None ∧ collision_revisions c' !! k = None;
  dt_kept k : ¬ gone k → chunks c' !! k = chunks c !! k ∧ (k ∈ loaded_chunks c' ↔ k ∈ loaded_chunks c) ∧
    authoritative_sub_chunks c' !! k = authoritative_sub_chunks c !! k ∧ collision_revisions c' !! k = collision_revisions c !! k;
}.

Definition detach_column (key : ChunkKey) c : Columns :=
  mk_columns (delete key (chunks c)) (loaded_chunks c ∖ {[key]}) (delete key (authoritative_sub_chunks c)) (delete key (collision_revisions c)).

Lemma detach_column_spec key c : detached (λ k, k = key) c (detach_column key c).
Proof using Type.
  split; intros k Hk; simpl.
  - subst k. rewrite !lookup_delete_eq. split_and!; try done. by intros [_ ?%not_elem_of_singleton]%elem_of_difference.
  - rewrite !lookup_delete_ne by done. split_and!; try done. rewrite elem_of_difference, elem_of_singleton. tauto.
Qed.

Lemma wp_detach_chunk {E} key s (Q : result E (list SubChunkKey * list Chunk) → ChunkStore → Prop) :
  (∀ c', c' = detach_column key (columns s) →
     Q (Ok (sorted_keys (set_map (from_chunk key) (dom (sections_of (chunks (columns s) !! key)))), option_list (chunks (columns s) !! key)))
       (mk_store c' (next_revision s) (cached_snapshot s))) →
  wp (detach_chunk key) s Q.
Proof using Type.
  intros HQ. unfold detach_chunk. wp_steps. cbn [on_revisions on_loaded on_authoritative chunks].
  destruct (chunks (columns s) !! key) as [ch|] eqn:E'.
  - wp_step. wp_step. wp_step. by apply HQ.
  - wp_step. specialize (HQ _ eq_refl). simpl in HQ.
    assert (detach_column key (columns s) = on_revisions (delete key) (on_loaded (λ l, l ∖ {[key]}) (on_authoritative (delete key) (columns s)))) as Heq
      by (unfold detach_column; by rewrite (delete_id (chunks (columns s)))).
    rewrite Heq in HQ. exact HQ.
Qed.

(** The keys of the sections the columns of [keys] hold. *)
Fixpoint stored_keys (keys : list ChunkKey) c : list SubChunkKey :=
  match keys with
  | [] => []
  | key :: keys => sorted_keys (set_map (from_chunk key) (dom (sections_of (chunks c !! key)))) ++ stored_keys keys (detach_column key c)
  end.

Lemma wp_detach_each {E} keys s (Q : result E (list SubChunkKey * list Chunk) → ChunkStore → Prop) :
  (∀ retired, Q (Ok (stored_keys keys (columns s), retired)) (mk_store (foldl (flip detach_column) (columns s) keys) (next_revision s) (cached_snapshot s))) →
  wp (detach_each keys) s Q.
Proof using Type.
  revert s Q. induction keys as [|key keys IH]; intros s Q HQ; simpl.
  - wp_step. specialize (HQ []). cbn in HQ. by destruct s.
  - wp_step. apply wp_detach_chunk. intros c' ->. wp_step. apply IH. intros retired. cbn [columns next_revision cached_snapshot].
    wp_step. apply HQ.
Qed.

Lemma detached_fold keys c : detached (λ k, k ∈ keys) c (foldl (flip detach_column) c keys).
Proof using Type.
  revert c. induction keys as [|key keys IH]; intros c; simpl.
  - split; intros k Hk; [by apply not_elem_of_nil in Hk|done].
  - destruct (IH (detach_column key c)) as [G1 K1], (detach_column_spec key c) as [G2 K2]. split; intros k Hk.
    + destruct (decide (k ∈ keys)) as [Hin|Hout]; [by apply G1|]. apply elem_of_cons in Hk as [->|?]; [|done].
      destruct (K1 key Hout) as (-> & -> & -> & ->). by apply G2.
    + rewrite elem_of_cons in Hk. destruct (K1 k) as (-> & -> & -> & ->); [tauto|]. apply K2. tauto.
Qed.

Lemma elem_of_stored_keys keys c k :
  k ∈ stored_keys keys c ↔ sk_chunk k ∈ keys ∧ is_Some (sub_chunk c k).
Proof using Type.
  revert c. induction keys as [|key keys IH]; intros c; simpl.
  - split; [by intros ?%not_elem_of_nil|by intros [?%not_elem_of_nil _]].
  - rewrite elem_of_app, elem_of_sorted_keys, elem_of_map, IH, elem_of_cons, !sub_chunk_sections.
    destruct (detach_column_spec key c) as [G K]. split.
    + intros [(y & -> & Hy%elem_of_dom)|[Hin Hs]].
      * rewrite sk_chunk_from_chunk, sk_y_from_chunk. split; [by left|done].
      * destruct (decide (sk_chunk k = key)) as [Heq|Hne]; [|by destruct (K _ Hne) as (<- & _); split; [right|]].
        destruct (G _ Heq) as (Hnone & _). rewrite Hnone in Hs. by destruct Hs.
    + intros [[<-|Hin] Hs]; [left|].
      * exists (sk_y k). rewrite from_sk_chunk. split; [done|]. by apply elem_of_dom.
      * destruct (decide (sk_chunk k = key)) as [<-|Hne]; [left; exists (sk_y k); rewrite from_sk_chunk; split; [done|by apply elem_of_dom]|right].
        split; [done|]. by destruct (K _ Hne) as (-> & _).
Qed.

(** No section is listed twice. *)
Lemma stored_keys_nodup keys c : NoDup (stored_keys keys c).
Proof using Type.
  revert c. induction keys as [|key keys IH]; intros c; simpl; [constructor|]. apply NoDup_app. split; [apply sorted_keys_nodup|].
  split; [|apply IH]. intros k (y & -> & _)%elem_of_sorted_keys%elem_of_map [_ Hs]%elem_of_stored_keys.
  rewrite sub_chunk_sections, sk_chunk_from_chunk in Hs. destruct (detach_column_spec key c) as [G _].
  destruct (G key eq_refl) as (Hnone & _). rewrite Hnone in Hs. by destruct Hs.
Qed.

Lemma detached_ok gone s c' :
  store_ok s → (∀ k, gone k ∨ ¬ gone k) → detached gone (columns s) c' →
  let s' := mk_store c' (next_revision s) None in store_ok s' ∧ evolves s s'.
Proof using Type.
  intros Hs Hdec [G K] s'. destruct (so_columns _ _ Hs) as [Oc Od Ok_ Or]. split.
  - split; [apply (so_next _ _ Hs)| |done]. split; intros k; cbn [columns s'].
    + destruct (Hdec k) as [Hk|Hk]; [destruct (G k Hk) as (-> & _); done|destruct (K k Hk) as (-> & _); apply Oc].
    + destruct (Hdec k) as [Hk|Hk]; [by destruct (G k Hk) as (_ & ? & _)|]. destruct (K k Hk) as (_ & -> & -> & _). apply Od.
    + destruct (Hdec k) as [Hk|Hk].
      * destruct (G k Hk) as (_ & Hl & -> & ->). split; [by intros []|by intros [?|[]]].
      * destruct (K k Hk) as (_ & -> & -> & ->). apply Ok_.
    + destruct (Hdec k) as [Hk|Hk]; [by destruct (G k Hk) as (_ & _ & _ & ->)|]. destruct (K k Hk) as (_ & _ & _ & ->). apply Or.
  - split; [done| |by left]. intros k r. unfold revision_at, collision_view, is_chunk_loaded. cbn [columns s'].
    destruct (Hdec k) as [Hk|Hk]; [by destruct (G k Hk) as (_ & _ & _ & ->)|]. destruct (K k Hk) as (-> & Hl & -> & ->).
    intros Hr. left. split; [done|]. by rewrite (bool_decide_ext _ _ Hl).
Qed.

Lemma detach_chunks_spec {E} keys s :
  store_ok s →
  wp (E := E) (detach_chunks keys) s (λ r s', store_ok s' ∧ evolves s s' ∧ ∃ retired,
    r = Ok (stored_keys (sorted_chunks keys) (columns s), retired) ∧ detached (λ k, k ∈ keys) (columns s) (columns s')).
Proof using Type.
  intros Hs. unfold detach_chunks. wp_step.
  assert (∀ c', detached (λ k, k ∈ sorted_chunks keys) (columns s) c' → detached (λ k, k ∈ keys) (columns s) c') as Hsorted.
  { intros c' [G K]. split; intros k Hk; [apply G|apply K]; by rewrite elem_of_sorted_chunks. }
  destruct (size keys =? 0)%nat eqn:Hsize.
  - wp_step. apply wp_detach_each. intros retired. apply Nat.eqb_eq, size_empty_inv in Hsize. apply leibniz_equiv in Hsize as ->.
    assert (sorted_chunks ∅ = []) as -> by done. cbn [foldl columns]. rewrite store_eta. split; [done|]. split; [apply evolves_refl|]. exists retired. split; [done|].
    split; intros k Hk; [by apply not_elem_of_empty in Hk|done].
  - wp_step. apply wp_detach_each. intros retired. cbn [columns next_revision cached_snapshot].
    assert (∀ k, k ∈ sorted_chunks keys ∨ k ∉ sorted_chunks keys) as Hdec by (intros k; destruct (decide (k ∈ sorted_chunks keys)); auto).
    destruct (detached_ok (λ k, k ∈ sorted_chunks keys) s _ Hs Hdec (detached_fold (sorted_chunks keys) (columns s))) as [H1 H2].
    split; [done|]. split; [done|]. exists retired. split; [done|]. apply Hsorted, detached_fold.
Qed.

(** ** The collision snapshot *)

Lemma snapshot_agrees c : agrees (snapshot_columns c) c.
Proof using Type.
  assert (∀ k, chunk_sections (chunks (snapshot_columns c) !! k) = chunk_sections (chunks c !! k) ∧
    chunk_entities (chunks (snapshot_columns c) !! k) = chunk_entities (chunks c !! k)) as Hparts.
  { intros k. unfold snapshot_columns, on_chunks. cbn [chunks]. rewrite lookup_fmap. by destruct (chunks c !! k). }
  split; try done; intros k; [apply Hparts|]. intros _. unfold collision_view. apply column_view_eq; [by rewrite (proj1 (Hparts k))|by rewrite (proj2 (Hparts k))].
Qed.

Lemma take_collision_snapshot_spec alive s :
  store_ok s →
  let '(snapshot, s') := take_collision_snapshot alive s in
  store_ok s' ∧ agrees snapshot (columns s) ∧ columns s' = columns s ∧ next_revision s' = next_revision s.
Proof using Type.
  intros Hs. unfold take_collision_snapshot. pose proof (snapshot_agrees (columns s)) as Hag.
  assert (store_ok (mk_store (columns s) (next_revision s) (Some (snapshot_columns (columns s))))) as Hok.
  { split; [apply Hs|apply Hs|]. by intros ? [= <-]. }
  destruct (cached_snapshot s) as [snapshot|] eqn:E; [|done]. destruct alive; [|done].
  split; [done|]. split; [by apply (so_snapshot _ _ Hs)|done].
Qed.
End spec.

(** ** Decoded values are fit for the store

    Whatever bytes a packet carries, what the decoders return for it satisfies the hypotheses under which
    the store's operations keep their invariant. *)

Section decode.
Context {Context : Type} (sha256 : bytes → bytes) (ids : BlockIds Context).
Implicit Types (st : slots_state Context).

(** ** Block entities *)

(** Scanning is local to the bytes of the record. *)
Lemma scanned_genuine input nbt n e : scan_prefix sha256 input = Ok (nbt, n, e) → nbt_genuine sha256 nbt.
Proof using Type.
  intros H. destruct (scan_prefix_frame _ _ _ _ _ H) as (Hn & _ & Hb & Hf). exists e. specialize (Hf []).
  rewrite app_nil_r, <-Hb in Hf. rewrite Hf. unfold nbt_len. rewrite Hb, length_take. do 3 f_equal. lia.
Qed.

Lemma payload_root_genuine payload nbt : nbt ∈ fst <$> payload_roots sha256 payload → nbt_genuine sha256 nbt.
Proof using Type.
  intros ([n suffix] & -> & Hin)%list_elem_of_fmap. apply roots_sound in Hin as [_ [used Hs]]. by eapply scanned_genuine.
Qed.

Lemma decode_live_genuine key payload nbt : decode_live sha256 key payload = Ok nbt → nbt_genuine sha256 nbt.
Proof using Type.
  unfold decode_live. destruct (scan_prefix sha256 payload) as [[[nbt' n] sem]|] eqn:H; [|done].
  apply scanned_genuine in H. destruct (negb _); [done|]. destruct sem; [done|].
  destruct (embedded_position nbt') as [a|]; [case_bool_decide|]; by intros [= <-].
Qed.

Lemma decoded_entities_ok key scope max payload :
  0 ≤ max ≤ MAX_BLOCK_ENTITIES_PER_CHUNK → (∀ k, scope_accepts scope k → bk_chunk k = key) →
  entities_ok sha256 key (entities (decode_scoped_entities sha256 scope payload max)).
Proof using Type.
  intros Hmax Hscope. destruct (decoded_kept_ok sha256 scope max payload ltac:(lia)) as [He Hc Hb _]. split; [|lia|done].
  intros k nbt Hk. destruct (He _ _ Hk) as (Hacc & _ & Hin). split; [by apply Hscope|by eapply payload_root_genuine].
Qed.

Lemma level_chunk_tail_ok chunk y_start y_end payload :
  entities_ok sha256 chunk (entities (decode_level_chunk_tail sha256 chunk y_start y_end payload)).
Proof using Type.
  unfold decode_level_chunk_tail. destruct (Wire.read_u8 _) as [border r]. destruct (Wire.read_exact _ _) as [o r'].
  cbn [entities]. by apply decoded_entities_ok; [|intros k [? _]].
Qed.

Lemma sub_chunk_tail_ok key payload : scope_ok sha256 key (entities (decode_sub_chunk_tail sha256 key payload)).
Proof using Type.
  intros k nbt Hk. destruct (decoded_kept_ok sha256 (ScopeSubChunk key) MAX_BLOCK_ENTITIES_PER_SUB_CHUNK payload ltac:(done)) as [He _ _ _].
  destruct (He _ _ Hk) as (Hacc & _ & Hin). split; [done|by eapply payload_root_genuine].
Qed.

Lemma decode_entry_ok key payload entry :
  Forall is_byte payload → decode_entry sha256 key payload ids = Some entry →
  Forall storage_ok (storages (d_sub_chunk entry)) ∧ scope_ok sha256 key (entities (d_block_entities entry)).
Proof using Type.
  intros Hb. unfold decode_entry, sub_chunk_decode_prefix.
  destruct (sub_chunk_read sha256 ids (reader_new payload)) as [o r] eqn:E.
  destruct (sub_chunk_read_ok sha256 ids (reader_new payload) o r Hb E) as (section & -> & Hok & _).
  intros [= <-]. split; [done|apply sub_chunk_tail_ok].
Qed.

Lemma sub_chunk_decode_entry_total key payload : Forall is_byte payload → is_Some (decode_entry sha256 key payload ids).
Proof using Type.
  intros Hb. unfold decode_entry, sub_chunk_decode_prefix.
  destruct (sub_chunk_read sha256 ids (reader_new payload)) as [o r] eqn:E.
  destruct (sub_chunk_read_ok sha256 ids (reader_new payload) o r Hb E) as (section & -> & _). by eexists.
Qed.

(** ** Biome columns *)

Lemma column_decode_sound (biomes : BiomeIds) base n payload column :
  Z.of_nat n < 2 ^ 31 → Forall is_byte payload → column_decode biomes base n payload = Some column → column_sound column.
Proof using Type.
  intros Hn Hb. unfold column_decode. destruct (read_slots biomes n (reader_new payload)) as [o r] eqn:E.
  destruct (read_slots_ok biomes n (reader_new payload) o r Hb E) as (_ & slots & -> & Hl & Hok).
  destruct (fill_slots_spec biomes slots Hok) as (ss & Hss & Hlen & Hshow). cbn [mbind option_bind]. rewrite Hss. intros [= <-].
  split; cbn [column_storages]; [|lia]. apply Forall_lookup. intros i s Hs. by apply (Hshow i).
Qed.

(** ** Level chunks *)

(** A loop state over bytes, whose sections are well formed. *)
Definition loop_ok st : Prop := Forall is_byte (remaining (ss_reader st)) ∧ sections_sound (ss_sections st).

Lemma decode_slot_ok y r st :
  Forall is_byte (remaining r) → sections_sound (ss_sections st) → ∃ u, decode_slot_section sha256 ids y r st = Some u ∧ loop_ok u.
Proof using Type.
  intros Hr Hs. unfold decode_slot_section.
  destruct (read_inline_spec sha256 ids (inline_cache_context ids) r Hr) as (section & r' & -> & Ha & Hok & _).
  cbn [mbind option_bind]. eexists. split; [done|]. split; cbn [ss_reader ss_sections]; [by eapply advances_bytes|].
  destruct (keeps_slot y section) eqn:Hk; [|by apply map_Forall_delete]. apply map_Forall_insert_2; [|done].
  split; [done|by eapply keeps_slot_layers].
Qed.

Lemma reuse_inline_bytes s y r hit r' :
  reuse_inline sha256 ids s y r = (hit, r') → Forall is_byte (remaining r) → Forall is_byte (remaining r').
Proof using Type.
  unfold reuse_inline. destruct (inline_payload s) as [p|]; [|congruence]. 
  destruct (_ || _); [congruence|]. destruct (_ <? _); [congruence|]. cbv zeta. destruct (negb _); [congruence|].
  intros [= _ <-] Hb. unfold Wire.read_exact, skip_to_end, fail_read. destruct (_ <? _); cbn [snd remaining]; [done|]. by apply Forall_drop.
Qed.

Lemma read_slot_section_ok resident y st :
  loop_ok st → (∀ s, resident = Some s → section_sound s) → ∃ u, read_slot_section sha256 ids resident y st = Some u ∧ loop_ok u.
Proof using Type.
  intros [Hb Hs] Hres. unfold read_slot_section. destruct resident as [s|]; [|by apply decode_slot_ok].
  destruct (reuse_inline sha256 ids s y (ss_reader st)) as [[|] r] eqn:E.
  - eexists. split; [done|]. split; cbn [ss_reader ss_sections]; [by eapply reuse_inline_bytes|].
    apply map_Forall_insert_2; [by apply Hres|done].
  - apply decode_slot_ok; [by eapply reuse_inline_bytes|done].
Qed.

Lemma slots_loop_ok slots previous n index st :
  loop_ok st → (∀ m, previous = Some m → sections_sound m) → ∃ u, slots_loop sha256 ids slots previous index n st = Some u ∧ loop_ok u.
Proof using Type.
  intros H Hprev. revert index st H. induction n as [|n IH]; intros index st H; [by exists st|]. cbn [slots_loop].
  destruct (is_at_end (ss_reader st)).
  { eexists. split; [done|]. split; [apply H|]. cbn [ss_sections]. apply clear_slots_forall, H. }
  destruct (_ <=? _); [by apply IH|].
  destruct (read_slot_section_ok (previous ≫= λ m, m !! slot_y slots (Z.land index SLOT_INDEX_MASK)) (slot_y slots (Z.land index SLOT_INDEX_MASK)) st H)
    as (u & -> & Hu); [|by apply IH].
  intros s Hs. destruct previous as [m|]; [|done]. by eapply (Hprev m eq_refl).
Qed.

Lemma read_sub_chunks_ok slots previous n payload :
  Forall is_byte payload → (∀ m, previous = Some m → sections_sound m) →
  ∃ u, read_sub_chunks sha256 ids slots n previous (reader_new payload) = Some u ∧ loop_ok u.
Proof using Type.
  intros Hb Hprev. unfold read_sub_chunks. assert (loop_ok (mk_slots_state (reader_new payload) ∅ (mk_work 0 0))) as H by done.
  destruct (_ =? _); [by eexists|]. by apply slots_loop_ok.
Qed.

(** A whole column decoded inline, with or without resident sections. *)
Lemma decode_inline_ok biomes chunk slots n payload previous :
  Forall is_byte payload → slots_count slots < 2 ^ 31 → (∀ m, previous = Some m → sections_sound m) →
  ∃ d, decode_inline_reusing sha256 ids chunk slots n payload biomes previous = Some d ∧ decoded_ok sha256 chunk d.
Proof using Type.
  intros Hb Hslots Hprev. unfold decode_inline_reusing. destruct (read_sub_chunks_ok slots previous n payload Hb Hprev) as (u & -> & Hr & Hs).
  cbn [mbind option_bind]. unfold decode_column_tail.
  destruct (column_decode_Some biomes (slots_base slots) (Z.to_nat (slots_count slots)) (remaining (ss_reader u)) Hr) as [column Hc].
  rewrite Hc. cbn [mbind option_bind]. eexists. split; [done|]. split; cbn [lc_sub_chunks lc_biomes lc_block_entities]; [done| |].
  - intros b [= <-]. eapply column_decode_sound; [|exact Hr|exact Hc]. lia.
  - intros e [= <-]. apply level_chunk_tail_ok.
Qed.

Lemma level_chunk_decode_ok first n payload key :
  Forall is_byte payload → ∃ d, level_chunk_decode sha256 ids first n payload = Some d ∧ decoded_ok sha256 key d.
Proof using Type.
  intros Hb. unfold level_chunk_decode.
  destruct (read_sub_chunks_ok (mk_slots first (Z.of_nat n)) None n payload Hb) as (u & -> & _ & Hs); [done|].
  cbn [mbind option_bind]. eexists. split; [done|]. by split.
Qed.
End decode.

(** ** Runs of the chunk store

    Every public operation of the store as one step of a run, what each asks of its arguments, and what
    a run of any length maintains. *)

Section traces.
Context {Context : Type} (sha256 : bytes → bytes).
#[local] Notation M := (M (Context := Context)).
#[local] Notation Columns := (Columns (Context := Context)).
#[local] Notation ChunkStore := (ChunkStore (Context := Context)).
#[local] Notation store_ok := (store_ok (Context := Context) sha256).
Implicit Types (s : ChunkStore) (c : Columns).

(** ** Operations *)

Inductive store_op :=
  | MarkChunkLoaded (key : ChunkKey)
  | MarkSubChunkLoaded (key : SubChunkKey)
  | CommitSubChunk (key : SubChunkKey) (decoded : SubChunk Context)
  | ApplyRequestModeAir (key : SubChunkKey)
  | ApplyAllAir (key : SubChunkKey)
  | CommitDecodedSubChunk (key : SubChunkKey) (decoded : DecodedSubChunk Context)
  | CommitBlockEntityUpdate (key : BlockEntityKey) (nbt : BlockEntityNbt)
  | CommitChunkBlockEntities (key : ChunkKey) (replacement : DecodedBlockEntities)
  | UpdateSubChunkBlocks (key : SubChunkKey) (updates : list BlockUpdate) (air_runtime_id : Z)
  | CommitPrepared (prepared : list (PreparedSubChunkMutation (Context := Context)))
  | DetachChunks (keys : gset ChunkKey)
  | CommitBiomeColumn (key : ChunkKey) (replacement : DecodedBiomeColumn)
  | CommitLevelChunk (key : ChunkKey) (decoded : DecodedLevelChunk Context)
  | CollisionSnapshot (alive : bool)
  (** another store of the process draws from the shared allocator *)
  | ForeignAllocation (count : nat).

(** Whether a call returned [Ok]. *)
Definition succeeds {E A} (m : M E A) s : option (bool * ChunkStore) :=
  match m s with
  | None => None
  | Some (Ok _, s) => Some (true, s)
  | Some (Err _, s) => Some (false, s)
  end.

Definition run_op (op : store_op) s : option (bool * ChunkStore) :=
  match op with
  | MarkChunkLoaded key => succeeds (mark_chunk_loaded key) s
  | MarkSubChunkLoaded key => succeeds (mark_sub_chunk_loaded key) s
  | CommitSubChunk key decoded => succeeds (commit_sub_chunk key decoded) s
  | ApplyRequestModeAir key => succeeds (apply_request_mode_air key) s
  | ApplyAllAir key => succeeds (apply_all_air key) s
  | CommitDecodedSubChunk key decoded => succeeds (commit_decoded_sub_chunk key decoded) s
  | CommitBlockEntityUpdate key nbt => succeeds (commit_block_entity_update key nbt) s
  | CommitChunkBlockEntities key replacement => succeeds (commit_chunk_block_entities key replacement) s
  | UpdateSubChunkBlocks key updates air => succeeds (update_sub_chunk_blocks key updates air) s
  | CommitPrepared prepared => succeeds (commit_prepared_block_updates prepared) s
  | DetachChunks keys => succeeds (E := unit) (detach_chunks keys) s
  | CommitBiomeColumn key replacement => succeeds (E := unit) (commit_biome_column key replacement) s
  | CommitLevelChunk key decoded => succeeds (commit_level_chunk key decoded) s
  | CollisionSnapshot alive => Some (true, snd (take_collision_snapshot alive s))
  | ForeignAllocation count => Some (true, with_next (snd (allocate_batch (next_revision s) (Z.of_nat count))) s)
  end.

Fixpoint run_ops (ops : list store_op) s : option ChunkStore :=
  match ops with
  | [] => Some s
  | op :: ops => '(_, s) ← run_op op s; run_ops ops s
  end.

(** What a caller owes: decoded values as the decoders return them, coordinates of their unsigned types. *)
Definition valid_op (op : store_op) : Prop :=
  match op with
  | CommitSubChunk _ decoded => Forall storage_ok (storages decoded)
  | CommitDecodedSubChunk key decoded =>
      Forall storage_ok (storages (d_sub_chunk decoded)) ∧ scope_ok sha256 key (entities (d_block_entities decoded))
  | CommitBlockEntityUpdate _ nbt => nbt_genuine sha256 nbt
  | CommitChunkBlockEntities key replacement => entities_ok sha256 key (entities replacement)
  | UpdateSubChunkBlocks _ updates _ => Forall update_unsigned updates
  | CommitPrepared prepared => Forall mutation_ok prepared
  | CommitBiomeColumn _ replacement => column_sound replacement
  | CommitLevelChunk key decoded => decoded_ok sha256 key decoded
  | _ => True
  end.

(** ** One step *)

(** What holds of an earlier and a later store: identities are not reused. *)
Record follows s s' : Prop := {
  fo_next : bound (next_revision s) ≤ bound (next_revision s');
  fo_view k r : revision_at (columns s') k = Some r →
    (revision_at (columns s) k = Some r ∧ collision_view (columns s') k = collision_view (columns s) k) ∨
    bound (next_revision s) ≤ r;
}.

Lemma evolves_follows s s' : evolves s s' → follows s s'.
Proof using Type. by intros []. Qed.

Lemma follows_refl s : follows s s.
Proof using Type. apply evolves_follows, evolves_refl. Qed.

Lemma follows_trans s1 s2 s3 : follows s1 s2 → follows s2 s3 → follows s1 s3.
Proof using Type.
  intros [N1 V1] [N2 V2]. split; [lia|]. intros k r [[Hr Hv]|?]%V2; [|right; lia].
  destruct (V1 k r Hr) as [[Hr' Hv']|?]; [left|by right]. split; [done|congruence].
Qed.

Lemma same_content_refl c : same_content c c.
Proof using Type. by split. Qed.

(** What a step ends in. *)
Definition step_post s (o : option (bool * ChunkStore)) : Prop :=
  ∃ ok s', o = Some (ok, s') ∧ store_ok s' ∧ follows s s' ∧ (ok = false → same_content (columns s) (columns s')).

Lemma succeeds_post {E A} (m : M E A) s (Q : result E A → ChunkStore → Prop) :
  wp m s Q →
  (∀ r s', Q r s' → store_ok s' ∧ evolves s s' ∧ match r with Ok _ => True | Err _ => same_content (columns s) (columns s') end) →
  step_post s (succeeds m s).
Proof using Type.
  intros (r & s' & Hm & HQ) H. destruct (H r s' HQ) as (H1 & H2 & H3). unfold succeeds. rewrite Hm.
  destruct r; eexists _, s'; (split; [done|]); (split; [done|]); (split; [by apply evolves_follows|]); done.
Qed.

Lemma succeeds_outcome {E A} (m : M E A) s (Q : A → Columns → Prop) : wp m s (outcome sha256 s Q) → step_post s (succeeds m s).
Proof using Type.
  intros H. apply (succeeds_post m s _ H). intros r s' (H1 & H2 & H3). split; [done|]. split; [done|].
  destruct r; [done|]. rewrite H3. apply same_content_refl.
Qed.

Lemma quiet_step s s' : store_ok s' → columns s' = columns s → bound (next_revision s) ≤ bound (next_revision s') → step_post s (Some (true, s')).
Proof using Type.
  intros Hs Hc Hn. exists true, s'. split; [done|]. split; [done|]. split; [|done]. split; [done|]. rewrite Hc. intros k r Hr. by left.
Qed.

Lemma run_op_spec op s : store_ok s → valid_op op → step_post s (run_op op s).
Proof using Type.
  intros Hs Hv. destruct op; cbn [run_op valid_op] in *.
  - by eapply succeeds_outcome, mark_chunk_loaded_spec.
  - by eapply succeeds_outcome, mark_sub_chunk_loaded_spec.
  - by eapply succeeds_outcome, commit_sub_chunk_spec.
  - by eapply succeeds_outcome, remove_sub_chunk_spec.
  - by eapply succeeds_outcome, apply_all_air_spec.
  - destruct Hv. by eapply succeeds_outcome, commit_decoded_sub_chunk_spec.
  - by eapply succeeds_outcome, commit_block_entity_update_spec.
  - by eapply succeeds_outcome, commit_chunk_block_entities_spec.
  - eapply succeeds_outcome, wp_mono; [by apply (update_sub_chunk_blocks_spec sha256)|]. intros r s' [H _]. exact H.
  - eapply succeeds_outcome, wp_mono; [by apply (commit_prepared_spec sha256)|]. intros r s' [H _]. exact H.
  - eapply succeeds_post; [by apply detach_chunks_spec|]. intros r s' (H1 & H2 & retired & -> & _). done.
  - by eapply succeeds_outcome, commit_biome_column_spec.
  - eapply succeeds_post; [by apply (commit_level_chunk_spec sha256)|]. intros r s' (H1 & H2 & H3). split; [done|]. split; [done|].
    destruct r; [done|]. apply H3.
  - pose proof (take_collision_snapshot_spec sha256 alive s Hs) as H. destruct (take_collision_snapshot alive s) as [snapshot s'].
    destruct H as (H1 & _ & H2 & H3). apply quiet_step; [done|done|]. cbn [snd]. by rewrite H3.
  - assert (next_ok (snd (allocate_batch (next_revision s) (Z.of_nat count))) ∧
      bound (next_revision s) ≤ bound (snd (allocate_batch (next_revision s) (Z.of_nat count)))) as [Hn Hb].
    { pose proof (so_next _ _ Hs) as Hn. destruct (decide (count = 0%nat)) as [->|Hc]; [done|].
      pose proof (allocate_batch_spec (next_revision s) (Z.of_nat count) Hn ltac:(lia)) as H.
      destruct (allocate_batch _ _) as [[l|e] next']; cbn [snd]; [|subst next'; done]. destruct H as (Hnz & _ & ? & Hb).
      split; [done|]. rewrite Hb. unfold bound. destruct (Z.eqb_spec (next_revision s) 0); [done|lia]. }
    apply quiet_step; [by apply with_next_ok|done..].
Qed.

(** ** Runs *)

Lemma run_ops_spec ops s :
  store_ok s → Forall valid_op ops → ∃ s', run_ops ops s = Some s' ∧ store_ok s' ∧ follows s s'.
Proof using Type.
  intros Hs Hops. revert s Hs. induction Hops as [|op ops Hop Hops IH]; intros s Hs; simpl.
  - exists s. split; [done|]. split; [done|apply follows_refl].
  - destruct (run_op_spec op s Hs Hop) as (ok & s1 & -> & H1 & F1 & _). destruct (IH s1 H1) as (s2 & H2 & ? & F2).
    exists s2. split; [exact H2|]. split; [done|]. by eapply follows_trans.
Qed.

Lemma run_ops_ok ops s s' : store_ok s → Forall valid_op ops → run_ops ops s = Some s' → store_ok s' ∧ follows s s'.
Proof using Type.
  intros Hs Hops Hrun. destruct (run_ops_spec ops s Hs Hops) as (s2 & H2 & ? & ?). rewrite Hrun in H2. by injection H2 as <-.
Qed.

Lemma store_new_ok next : next_ok next → store_ok (store_new next).
Proof using Type.
  intros Hn. split; [done| |done]. split; cbn.
  - done.
  - by intros k ?%not_elem_of_empty.
  - intros k. split; [by intros [? ?]|]. by intros [?%not_elem_of_empty|[? ?]].
  - done.
Qed.
End traces.
Arguments store_op : clear implicits.
