(* ===== verification/StoreTheorems.v ===== *)
(** * What the chunk store guarantees

    Panic freedom and the store invariant along every run, collision revisions as identities of collision
    content, current snapshots, failed calls without effect, and what each commit leaves behind. *)
From stdpp Require Import base numbers list gmap fin_maps.
From S2P Require Import Prelude Packed Palette PaletteSpec PaletteTheorems Bytes NbtTree NbtScan Keys Revisions Wire SubChunk SubChunkSpec SubChunkTheorems Biome.
From S2P Require Import Entities EntityTheorems LevelChunk LevelChunkSpec Store StoreCommits StoreInv StoreOpsSpec StoreBatchSpec StoreColumnSpec.
From S2P Require Import StoreTraces.
#[local] Open Scope Z_scope.

(** ** Reading a written column *)

Section reads.
Context {Context : Type} (sha256 : bytes → bytes).
#[local] Notation Chunk := (Chunk (Context := Context)).
#[local] Notation Columns := (Columns (Context := Context)).
Implicit Types (c : Columns) (o : option Chunk).

Lemma writes_lookup key o c c' k : writes key o c c' → chunks c' !! k = if decide (k = key) then o else chunks c !! k.
Proof using Type.
  intros [H _ _ _]. rewrite H. case_decide as Hk; [subst k; apply put_lookup|by apply put_lookup_ne].
Qed.

Lemma writes_sub_chunk key o c c' f k :
  writes (sk_chunk key) o c c' → sections_of o = f (sections_of (chunks c !! sk_chunk key)) → (∀ m y, y ≠ sk_y key → f m !! y = m !! y) →
  sub_chunk c' k = if decide (k = key) then f (sections_of (chunks c !! sk_chunk key)) !! sk_y key else sub_chunk c k.
Proof using Type.
  intros Hw Ho Hf. rewrite !sub_chunk_sections, (writes_lookup _ _ _ _ _ Hw). case_decide as Hk.
  - rewrite Ho, Hk. case_decide as Heq; [by rewrite Heq|]. apply Hf. intros Hy. by apply Heq, sub_chunk_key_split.
  - rewrite decide_False; [done|]. by intros ->.
Qed.

Lemma writes_block_entity key o c c' k :
  writes key o c c' → block_entity c' k = if decide (bk_chunk k = key) then chunk_entities o !! k else block_entity c k.
Proof using Type. intros Hw. rewrite !block_entity_stored, (writes_lookup _ _ _ _ _ Hw). by case_decide. Qed.

Lemma writes_biome_storage key o c c' k :
  writes key o c c' → biomes_of o = biomes_of (chunks c !! key) → biome_storage c' k = biome_storage c k.
Proof using Type.
  intros Hw Ho. assert (∀ c : Columns, biome_storage c k = b ← biomes_of (chunks c !! sk_chunk k); column_storage b (sk_y k)) as Hb.
  { intros d. unfold biome_storage, biomes_of. by destruct (chunks d !! sk_chunk k). }
  rewrite !Hb, (writes_lookup _ _ _ _ _ Hw). case_decide as Hk; [|done]. by rewrite Ho, Hk.
Qed.

Lemma replaced_lookup key m old k :
  scope_ok sha256 key m → replaced key m old !! k = if decide (bk_sub_chunk k = key) then m !! k else old !! k.
Proof using Type.
  intros Hm. unfold replaced. case_decide as Hk.
  - rewrite lookup_union_l; [done|]. apply map_lookup_filter_None_2. right. intros x _ Hx. by apply Hx.
  - rewrite lookup_union_r; [rewrite map_lookup_filter; destruct (old !! k); cbn; [by rewrite option_guard_True|done]|].
    destruct (m !! k) as [x|] eqn:E; [|done]. by destruct (Hm _ _ E).
Qed.

(** The resident section an equal decode leaves in place has its blocks. *)
Lemma section_after_spec key (decoded : SubChunk Context) c m :
  (∀ s, sub_chunk c key = Some s → section_sound s) → Forall storage_ok (storages decoded) → m = sections_of (chunks c !! sk_chunk key) →
  if has_no_storages decoded then section_after key decoded c m !! sk_y key = None
  else ∃ s, section_after key decoded c m !! sk_y key = Some s ∧ same_blocks s decoded.
Proof using Type.
  intros Hsound Hd ->. unfold section_after. destruct (has_no_storages decoded); [apply lookup_delete_eq|].
  case_decide as Heq; [|exists decoded; split; [apply lookup_insert_eq|reflexivity]].
  destruct (sub_chunk c key) as [s|] eqn:Es; [|done]. cbn [mbind option_bind] in Heq.
  exists s. split; [by rewrite <-Es, sub_chunk_sections|]. unfold sub_chunk_eqb in Heq. destruct (_ && _); [|done].
  destruct (storages_eqb_sound (storages s) (storages decoded)) as (e & He & Hcells); [by apply Hsound|done|].
  rewrite He in Heq. injection Heq as ->. destruct (Hcells eq_refl) as [Hl Hz]. split; [done|].
  intros layer a b i Ha Hb Hi. rewrite Forall_lookup in Hz.
  apply (cells_eqb_iff a b); [|done]. apply (Hz layer (a, b)). apply lookup_zip_Some. by split.
Qed.

Lemma section_after_other key (decoded : SubChunk Context) c m y : y ≠ sk_y key → section_after key decoded c m !! y = m !! y.
Proof using Type.
  intros Hy. unfold section_after. destruct (has_no_storages decoded); [by apply lookup_delete_ne|].
  case_decide; [done|by apply lookup_insert_ne].
Qed.
End reads.

(** ** Properties *)

Section properties.
Context {Context : Type} (sha256 : bytes → bytes).
#[local] Notation Columns := (Columns (Context := Context)).
#[local] Notation ChunkStore := (ChunkStore (Context := Context)).
#[local] Notation store_ok := (store_ok (Context := Context) sha256).
#[local] Notation valid_op := (valid_op (Context := Context) sha256).
Implicit Types (s : ChunkStore) (c : Columns).

(** C3: No run of store operations panics: each call returns, with a value or an error, and leaves a
    well-formed store, where no empty column is kept, the byte totals of block entities are exact and
    within their limits, a column is known either whole or by sections and exactly then has a revision
    that was handed out before, and a cached snapshot is current. *)
Theorem store_operations_safe ops s :
  store_ok s → Forall valid_op ops → ∃ s', run_ops ops s = Some s' ∧ store_ok s'.
Proof using Type. intros Hs Hops. destruct (run_ops_spec sha256 ops s Hs Hops) as (s' & ? & ? & _). by exists s'. Qed.

(** C4: A collision revision identifies collision content: at any two moments of a run the revision of a
    column never decreases, and when it is the same, so are the column's authority, its known sections
    and its geometry-bearing block entities, even if it was evicted and loaded again in between. *)
Theorem revision_identifies_content next ops ops' s1 s2 key r1 r2 :
  next_ok next → Forall valid_op ops → Forall valid_op ops' →
  run_ops ops (store_new next) = Some s1 → run_ops ops' s1 = Some s2 →
  revision_at (columns s1) key = Some r1 → revision_at (columns s2) key = Some r2 →
  r1 ≤ r2 ∧ (r1 = r2 → collision_view (columns s1) key = collision_view (columns s2) key).
Proof using Type.
  intros Hn Hops Hops' Hrun Hrun' Hr1 Hr2.
  destruct (run_ops_ok sha256 ops _ _ (store_new_ok sha256 next Hn) Hops Hrun) as [H1 _].
  destruct (run_ops_ok sha256 ops' _ _ H1 Hops' Hrun') as [_ [_ Hview]].
  assert (r1 < bound (next_revision s1)) as Hlt.
  { unfold revision_at in Hr1. apply fmap_Some in Hr1 as (r & Hr & ->). apply (ok_revision _ _ _ (so_columns _ _ H1) key r Hr). }
  destruct (Hview key r2 Hr2) as [[Hr Hv]|]; [|lia]. rewrite Hr1 in Hr. injection Hr as ->. done.
Qed.

(** C37: A call that fails has no effect: authority, revisions, sections, biomes and block entities are what
    they were before. *)
Theorem failed_operation_has_no_effect op s s' :
  store_ok s → valid_op op → run_op op s = Some (false, s') → same_content (columns s) (columns s').
Proof using Type.
  intros Hs Hop Hrun. destruct (run_op_spec sha256 op s Hs Hop) as (ok & s1 & Hrun1 & _ & _ & H).
  rewrite Hrun in Hrun1. injection Hrun1 as <- <-. by apply H.
Qed.

(** C34: A collision snapshot is current whenever it is taken, cached or built: it has the authority, the
    revisions and the sections of the store and reads like the store in every known column, and taking
    it changes no column. *)
Theorem collision_snapshot_current next ops s alive :
  next_ok next → Forall valid_op ops → run_ops ops (store_new next) = Some s →
  let '(snapshot, s') := take_collision_snapshot alive s in
  columns s' = columns s ∧ next_revision s' = next_revision s ∧
  loaded_chunks snapshot = loaded_chunks (columns s) ∧ authoritative_sub_chunks snapshot = authoritative_sub_chunks (columns s) ∧
  (∀ key, collision_revision snapshot key = collision_revision (columns s) key) ∧
  (∀ key, section_view <$> sub_chunk snapshot key = section_view <$> sub_chunk (columns s) key) ∧
  ∀ key, is_Some (collision_revision (columns s) key) → collision_view snapshot key = collision_view (columns s) key.
Proof using Type.
  intros Hn Hops Hrun. destruct (run_ops_ok sha256 ops _ _ (store_new_ok sha256 next Hn) Hops Hrun) as [Hs _].
  pose proof (take_collision_snapshot_spec sha256 alive s Hs) as H. destruct (take_collision_snapshot alive s) as [snapshot s'].
  destruct H as (_ & [L A R S V] & H2 & H3). split_and!; try done; [by intros key; unfold collision_revision; rewrite R|].
  intros key. specialize (S (sk_chunk key)). rewrite !sub_chunk_sections.
  apply (f_equal (.!! sk_y key)) in S. unfold chunk_sections in S. by rewrite !lookup_fmap in S.
Qed.

(** C5: A level-chunk packet of any bytes, decoded beside the sections of some earlier store and committed,
    replaces exactly its column: it is loaded afterwards, its sections have the decoded blocks, its block
    entities and biomes are the decoded ones, or the old ones when the packet has none. The reported keys are
    exactly the sections whose blocks differ or for which the packet has another packed biome storage, and
    sections not reported read the biomes they read before. The dirty meshes are exactly the reported sections,
    those that share a face with one, and around each section with other biomes all those at most one away on
    every axis. The only error is exhaustion of the revisions, and it leaves the content unchanged. *)
Theorem level_chunk_packet_exact (ids : BlockIds Context) biomes key slots n payload s0 s :
  store_ok s0 → store_ok s → Forall is_byte payload → slots_count slots < 2 ^ 31 →
  ∃ d r s', decode_inline_reusing sha256 ids key slots n payload biomes (Some (old_sections (columns s0) key)) = Some d ∧
    commit_level_chunk key d s = Some (r, s') ∧ store_ok s' ∧
    match r with
    | Ok a => level_committed key d (columns s) (columns s') a
    | Err e => e = DecodeCollisionRevision Exhausted ∧ same_content (columns s) (columns s')
    end.
Proof using Type.
  intros Hs0 Hs Hb Hslots.
  destruct (decode_inline_ok sha256 ids biomes key slots n payload (Some (old_sections (columns s0) key)) Hb Hslots) as (d & Hd & Hok).
  { intros m [= <-]. by apply (stored_sections_sound sha256). }
  destruct (commit_level_chunk_spec sha256 key d s Hs Hok) as (r & s' & Hrun & H1 & _ & H3). by exists d, r, s'.
Qed.

(** A sub-chunk packet entry of any bytes replaces exactly its section: the section then has the
    decoded blocks, or is gone when none were sent, the block entities within it are the decoded ones,
    and every other section, block entity and biome is untouched. An error changes nothing. *)
Theorem sub_chunk_packet_exact (ids : BlockIds Context) key payload s :
  store_ok s → Forall is_byte payload →
  ∃ d r s', decode_entry sha256 key payload ids = Some d ∧ commit_decoded_sub_chunk key d s = Some (r, s') ∧ store_ok s' ∧
    let c := columns s in let c' := columns s' in
    match r with
    | Ok _ =>
        (if has_no_storages (d_sub_chunk d) then sub_chunk c' key = None
         else ∃ section, sub_chunk c' key = Some section ∧ same_blocks section (d_sub_chunk d)) ∧
        (∀ k, k ≠ key → sub_chunk c' k = sub_chunk c k) ∧
        (∀ k, block_entity c' k = if decide (bk_sub_chunk k = key) then entities (d_block_entities d) !! k else block_entity c k) ∧
        (∀ k, biome_storage c' k = biome_storage c k) ∧
        loaded_chunks c' = loaded_chunks c ∧ authoritative_sub_chunks c' = authoritative_sub_chunks c
    | Err _ => c' = c
    end.
Proof using Type.
  intros Hs Hb. destruct (sub_chunk_decode_entry_total sha256 ids key payload Hb) as (d & Hd).
  destruct (decode_entry_ok sha256 ids key payload d Hb Hd) as [Hst Hsc].
  destruct (commit_decoded_sub_chunk_spec sha256 key d s Hs Hst Hsc) as (r & s' & Hrun & H1 & _ & H3).
  exists d, r, s'. split; [done|]. split; [done|]. split; [done|]. cbv zeta. destruct r as [changed|e]; [|done].
  destruct H3 as (o & Hw & Ho1 & Ho2 & Ho3). split_and!.
  - rewrite (writes_sub_chunk key o _ _ _ key Hw Ho1) by apply section_after_other. rewrite decide_True by done.
    apply section_after_spec; [|done..]. intros section. by apply (stored_section_sound sha256).
  - intros k Hk. rewrite (writes_sub_chunk key o _ _ _ k Hw Ho1) by apply section_after_other. by rewrite decide_False.
  - intros k. rewrite (writes_block_entity _ _ _ _ _ Hw), Ho3, (replaced_lookup sha256) by done.
    destruct (decide (bk_sub_chunk k = key)) as [Hk|Hk].
    + by rewrite decide_True by by rewrite bk_chunk_sub_chunk, Hk.
    + case_decide as H2; [by rewrite block_entity_stored, H2|done].
  - intros k. by apply (writes_biome_storage _ _ _ _ _ Hw).
  - apply Hw.
  - apply Hw.
Qed.

(** C36: Block updates on a section of the store write the blocks one after the other, absent layers read as
    air, in that section only; the section's key is reported exactly when a block or the number of its
    layers changes. The errors are an invalid coordinate and exhaustion of the revisions, and they
    change nothing. *)
Theorem block_updates_exact key us air s :
  store_ok s → Forall update_unsigned us →
  ∃ r s', update_sub_chunk_blocks key us air s = Some (r, s') ∧ store_ok s' ∧
    match r with
    | Ok changed =>
        Forall update_valid us ∧
        (∃ b : bool, changed = (if b then [key] else []) ∧
           section_updated air us (sub_chunk (columns s) key) b (sub_chunk (columns s') key)) ∧
        (∀ k, k ≠ key → sub_chunk (columns s') k = sub_chunk (columns s) k) ∧ only_sections (columns s) (columns s')
    | Err e => (e = CollisionRevisionExhausted ∨ validate_all us = Err e) ∧ columns s' = columns s
    end.
Proof using Type.
  intros Hs Hus. destruct (update_sub_chunk_blocks_spec sha256 key us air s Hs Hus) as (r & s' & Hrun & (H1 & _ & H3) & H4).
  exists r, s'. split; [done|]. split; [done|]. destruct r as [changed|e]; [|done].
  destruct H3 as (Hv & b & Hb & Hsec & Hother & Honly). split; [done|]. split; [by exists b|]. done.
Qed.

(** A block-entity update stores exactly that record: no other block entity, section or biome changes,
    [true] is returned exactly when the stored bytes were different, and an error (wrong position, too
    many records, too many bytes, no revision left) changes nothing. *)
Theorem block_entity_update_exact key payload nbt s :
  store_ok s → decode_live sha256 key payload = Ok nbt →
  ∃ r s', commit_block_entity_update key nbt s = Some (r, s') ∧ store_ok s' ∧
    let c := columns s in let c' := columns s' in
    match r with
    | Ok changed =>
        (∀ k, block_entity c' k = if decide (k = key) then Some nbt else block_entity c k) ∧
        (∀ k, sub_chunk c' k = sub_chunk c k) ∧ (∀ k, biome_storage c' k = biome_storage c k) ∧
        (changed = true ↔ block_entity c key ≠ Some nbt)
    | Err _ => c' = c
    end.
Proof using Type.
  intros Hs Hlive. apply decode_live_genuine in Hlive.
  destruct (commit_block_entity_update_spec sha256 key nbt s Hs Hlive) as (r & s' & Hrun & H1 & _ & H3).
  exists r, s'. split; [done|]. split; [done|]. cbv zeta. destruct r as [changed|e]; [|done]. case_decide as Hsame.
  - destruct H3 as [-> ->]. split_and!; [|done..]. intros k. case_decide as Hk; [by subst k|done].
  - destruct H3 as [-> (o & Hw & Ho1 & Ho2 & Ho3)]. split_and!.
    + intros k. rewrite (writes_block_entity _ _ _ _ _ Hw), Ho3. case_decide as H2; case_decide as Hk; subst; try done.
      * apply lookup_insert_eq.
      * by rewrite lookup_insert_ne, block_entity_stored, H2.
    + intros k. rewrite !sub_chunk_sections, (writes_lookup _ _ _ _ _ Hw). case_decide as Hk; [by rewrite Ho1, Hk|done].
    + intros k. by apply (writes_biome_storage _ _ _ _ _ Hw).
    + done.
Qed.

(** Detaching columns removes exactly what the store holds of them: their sections, block entities,
    biomes, authority and revisions; it reports each section removed once, and leaves every other
    column as it was. *)
Theorem detach_exact keys s :
  store_ok s →
  ∃ removed retired s', detach_chunks (E := unit) keys s = Some (Ok (removed, retired), s') ∧ store_ok s' ∧
    NoDup removed ∧ (∀ k, k ∈ removed ↔ sk_chunk k ∈ keys ∧ is_Some (sub_chunk (columns s) k)) ∧
    (∀ key, key ∈ keys → contains_column (columns s') key = false ∧ collision_revision (columns s') key = None) ∧
    ∀ key, key ∉ keys → chunks (columns s') !! key = chunks (columns s) !! key ∧
      contains_column (columns s') key = contains_column (columns s) key ∧
      collision_revision (columns s') key = collision_revision (columns s) key.
Proof using Type.
  intros Hs. destruct (detach_chunks_spec sha256 (E := unit) keys s Hs) as (r & s' & Hrun & H1 & _ & retired & -> & [G K]).
  eexists _, retired, s'. split; [exact Hrun|]. split; [done|]. split; [apply stored_keys_nodup|]. split_and!.
  - intros k. by rewrite elem_of_stored_keys, elem_of_sorted_chunks.
  - intros key Hk. destruct (G key Hk) as (Hc & Hl & Ha & Hr). split; [|done]. unfold contains_column. rewrite Hc, Ha.
    by rewrite !bool_decide_eq_false_2 by (done || by intros [? ?]).
  - intros key Hk. destruct (K key Hk) as (Hc & Hl & Ha & Hr). split; [done|]. split; [|done]. unfold contains_column.
    by rewrite Hc, Ha, (bool_decide_ext _ _ Hl).
Qed.
End properties.

(** ** Witnesses *)

Definition overworld (x z : Z) : ChunkKey := mk_chunk_key 0 x z.
Definition new_store (next : Z) : ChunkStore (Context := Z) := store_new next.

Lemma new_store_ok next : next_ok next → store_ok id (new_store next).
Proof. apply store_new_ok. Qed.

(** A column is loaded, gets a block, is snapshotted and evicted. *)
Lemma store_operations_safe_witness :
  let ops := [MarkChunkLoaded (overworld 0 0); UpdateSubChunkBlocks (mk_sub_chunk_key 0 0 4 0) [mk_update 1 2 3 0 7] 0; CollisionSnapshot false;
              ApplyAllAir (mk_sub_chunk_key 0 0 4 0); DetachChunks {[overworld 0 0]}] in
  ∃ s', run_ops ops (new_store 1) = Some s' ∧ store_ok id s'.
Proof.
  intros ops. apply (store_operations_safe id ops); [by apply new_store_ok|].
  apply Forall_cons; split; [exact I|]. apply Forall_cons; split; [|by repeat constructor].
  apply Forall_singleton. unfold update_unsigned. cbn. lia.
Defined.

(** The revision of a loaded column survives a snapshot and the loading of another column. *)
Lemma revision_identifies_content_witness :
  ∃ s1 s2, run_ops [MarkChunkLoaded (overworld 0 0)] (new_store 1) = Some s1 ∧
    run_ops [CollisionSnapshot false; ForeignAllocation 3; MarkChunkLoaded (overworld 0 1)] s1 = Some s2 ∧
    1 ≤ 1 ∧ (1 = 1 → collision_view (columns s1) (overworld 0 0) = collision_view (columns s2) (overworld 0 0)).
Proof.
  eexists _, _. split; [vm_compute; reflexivity|]. split; [vm_compute; reflexivity|].
  eapply (revision_identifies_content id 1 [MarkChunkLoaded (overworld 0 0)] [CollisionSnapshot false; ForeignAllocation 3; MarkChunkLoaded (overworld 0 1)]).
  - done.
  - by repeat constructor.
  - by repeat constructor.
  - vm_compute; reflexivity.
  - vm_compute; reflexivity.
  - vm_compute; reflexivity.
  - vm_compute; reflexivity.
Defined.

(** The last revision was handed out: the column cannot be loaded. *)
Lemma failed_operation_has_no_effect_witness :
  ∃ s', run_op (MarkChunkLoaded (overworld 0 0)) (new_store 0) = Some (false, s') ∧ same_content (columns (new_store 0)) (columns s').
Proof.
  eexists. split; [vm_compute; reflexivity|].
  apply (failed_operation_has_no_effect id (MarkChunkLoaded (overworld 0 0)) (new_store 0)); [by apply new_store_ok|done|vm_compute; reflexivity].
Defined.

Lemma collision_snapshot_current_witness :
  ∃ s, run_ops [MarkChunkLoaded (overworld 0 0)] (new_store 1) = Some s ∧
    let '(snapshot, s') := take_collision_snapshot false s in
    columns s' = columns s ∧ next_revision s' = next_revision s ∧
    loaded_chunks snapshot = loaded_chunks (columns s) ∧ authoritative_sub_chunks snapshot = authoritative_sub_chunks (columns s) ∧
    (∀ key, collision_revision snapshot key = collision_revision (columns s) key) ∧
    (∀ key, section_view <$> sub_chunk snapshot key = section_view <$> sub_chunk (columns s) key) ∧
    ∀ key, is_Some (collision_revision (columns s) key) → collision_view snapshot key = collision_view (columns s) key.
Proof.
  eexists. split; [vm_compute; reflexivity|].
  apply (collision_snapshot_current id 1 [MarkChunkLoaded (overworld 0 0)]); [done|by repeat constructor|vm_compute; reflexivity].
Defined.

(** A column with one uniform section. *)
Lemma level_chunk_packet_exact_witness :
  let payload := [9; 1; 0; 1; 14] in let s := new_store 1 in
  ∃ d r s', decode_inline_reusing id (raw_block_ids 0) (overworld 0 0) (mk_slots 0 1) 1 payload (raw_biome_ids 1)
      (Some (old_sections (columns s) (overworld 0 0))) = Some d ∧
    commit_level_chunk (overworld 0 0) d s = Some (r, s') ∧ store_ok id s' ∧
    match r with
    | Ok a => level_committed (overworld 0 0) d (columns s) (columns s') a
    | Err e => e = DecodeCollisionRevision Exhausted ∧ same_content (columns s) (columns s')
    end.
Proof.
  intros payload s. apply (level_chunk_packet_exact id (raw_block_ids 0) (raw_biome_ids 1) (overworld 0 0) (mk_slots 0 1) 1 payload s s);
    [by apply new_store_ok|by apply new_store_ok|unfold payload, is_byte; repeat constructor; lia|done].
Defined.

Lemma sub_chunk_packet_exact_witness :
  let payload := [9; 1; 0; 1; 14] in let s := new_store 1 in let key := mk_sub_chunk_key 0 0 0 0 in
  ∃ d r s', decode_entry id key payload (raw_block_ids 0) = Some d ∧ commit_decoded_sub_chunk key d s = Some (r, s') ∧ store_ok id s' ∧
    let c := columns s in let c' := columns s' in
    match r with
    | Ok _ =>
        (if has_no_storages (d_sub_chunk d) then sub_chunk c' key = None
         else ∃ section, sub_chunk c' key = Some section ∧ same_blocks section (d_sub_chunk d)) ∧
        (∀ k, k ≠ key → sub_chunk c' k = sub_chunk c k) ∧
        (∀ k, block_entity c' k = if decide (bk_sub_chunk k = key) then entities (d_block_entities d) !! k else block_entity c k) ∧
        (∀ k, biome_storage c' k = biome_storage c k) ∧
        loaded_chunks c' = loaded_chunks c ∧ authoritative_sub_chunks c' = authoritative_sub_chunks c
    | Err _ => c' = c
    end.
Proof.
  intros payload s key. apply (sub_chunk_packet_exact id (raw_block_ids 0) key payload s);
    [by apply new_store_ok|unfold payload, is_byte; repeat constructor; lia].
Defined.

Lemma block_updates_exact_witness :
  let s := new_store 1 in let key := mk_sub_chunk_key 0 0 4 0 in let us := [mk_update 1 2 3 0 7] in
  ∃ r s', update_sub_chunk_blocks key us 0 s = Some (r, s') ∧ store_ok id s' ∧
    match r with
    | Ok changed =>
        Forall update_valid us ∧
        (∃ b : bool, changed = (if b then [key] else []) ∧
           section_updated 0 us (sub_chunk (columns s) key) b (sub_chunk (columns s') key)) ∧
        (∀ k, k ≠ key → sub_chunk (columns s') k = sub_chunk (columns s) k) ∧ only_sections (columns s) (columns s')
    | Err e => (e = CollisionRevisionExhausted ∨ validate_all us = Err e) ∧ columns s' = columns s
    end.
Proof.
  intros s key us. apply (block_updates_exact id key us 0 s); [by apply new_store_ok|].
  apply Forall_singleton. unfold update_unsigned. cbn. lia.
Defined.

Lemma block_entity_update_exact_witness :
  let s := new_store 1 in let key := mk_entity_key 0 1 2 3 in
  ∃ nbt, decode_live no_hash key sample_root = Ok nbt ∧
  ∃ r s', commit_block_entity_update key nbt s = Some (r, s') ∧ store_ok no_hash s' ∧
    let c := columns s in let c' := columns s' in
    match r with
    | Ok changed =>
        (∀ k, block_entity c' k = if decide (k = key) then Some nbt else block_entity c k) ∧
        (∀ k, sub_chunk c' k = sub_chunk c k) ∧ (∀ k, biome_storage c' k = biome_storage c k) ∧
        (changed = true ↔ block_entity c key ≠ Some nbt)
    | Err _ => c' = c
    end.
Proof.
  intros s key. eexists. split; [vm_compute; reflexivity|].
  apply (block_entity_update_exact no_hash key sample_root _ s); [by apply store_new_ok|vm_compute; reflexivity].
Defined.

Lemma detach_exact_witness :
  let keys : gset ChunkKey := {[overworld 0 0]} in let s := new_store 1 in
  ∃ removed retired s', detach_chunks (E := unit) keys s = Some (Ok (removed, retired), s') ∧ store_ok id s' ∧
    NoDup removed ∧ (∀ k, k ∈ removed ↔ sk_chunk k ∈ keys ∧ is_Some (sub_chunk (columns s) k)) ∧
    (∀ key, key ∈ keys → contains_column (columns s') key = false ∧ collision_revision (columns s') key = None) ∧
    ∀ key, key ∉ keys → chunks (columns s') !! key = chunks (columns s) !! key ∧
      contains_column (columns s') key = contains_column (columns s) key ∧
      collision_revision (columns s') key = collision_revision (columns s) key.
Proof. intros keys s. apply (detach_exact id keys s). by apply new_store_ok. Defined.
