(* ===== verification/Light.v ===== *)
(** * Light storage

    [crates/world/src/light.rs]: nibble channels that are uniform or packed, the two channels of a
    sub-chunk, and the sparse light store with its snapshots. A packed channel holds [PACKED_LIGHT_BYTES]
    bytes, as its array type says. Then the data of [light_solver/types.rs]. *)
From stdpp Require Import base numbers list gmap.
From S2P Require Import Prelude Packed Palette Bytes Keys Snapshot.
#[local] Open Scope Z_scope.

Definition LIGHT_SAMPLES_PER_SUB_CHUNK : nat := 16 * 16 * 16.
Definition PACKED_LIGHT_BYTES : nat := LIGHT_SAMPLES_PER_SUB_CHUNK / 2.

Inductive LightStorageError :=
  | ValueOutOfRange (value : Z)
  | IndexOutOfRange (index : nat).

(** ** One channel *)

Inductive LightNibbleStorage :=
  | UniformLight (value : Z)
  | PackedLight (bytes : list Z).

#[export] Instance light_nibble_storage_eq_dec : EqDecision LightNibbleStorage.
Proof. solve_decision. Defined.

Definition validate_light (value : Z) : result LightStorageError unit :=
  if value <=? 15 then Ok () else Err (ValueOutOfRange value).

(** [value << 4] of a [u8]. *)
Definition high_nibble (value : Z) : Z := to_unsigned 8 (Z.shiftl value 4).
Definition repeated (value : Z) : Z := Z.lor value (high_nibble value).

(** Both constructors of a channel from bytes make it uniform when every nibble is the first one. *)
Definition first_nibble (bytes : list Z) : Z := Z.land (default 0 (head bytes)) 15.
Definition all_repeat (bytes : list Z) : bool := forallb (λ byte, byte =? repeated (first_nibble bytes)) bytes.

Definition light_from_packed (bytes : list Z) : LightNibbleStorage :=
  if all_repeat bytes then UniformLight (first_nibble bytes) else PackedLight bytes.

Definition light_uniform (value : Z) : result LightStorageError LightNibbleStorage :=
  _ ← validate_light value; Ok (UniformLight value).

Definition light_get (s : LightNibbleStorage) (index : nat) : option Z :=
  if (LIGHT_SAMPLES_PER_SUB_CHUNK <=? index)%nat then None
  else match s with
       | UniformLight value => Some value
       | PackedLight bytes =>
           byte ← bytes !! (index / 2)%nat;
           Some (if Nat.even index then Z.land byte 15 else Z.shiftr byte 4)
       end.

(** The byte after a write to one of its nibbles. *)
Definition set_nibble (index : nat) (value slot : Z) : Z :=
  if Nat.even index then Z.lor (Z.land slot 240) value else Z.lor (Z.land slot 15) (high_nibble value).

Definition light_set_without_collapse (s : LightNibbleStorage) (index : nat) (value : Z)
    : result LightStorageError (bool * LightNibbleStorage) :=
  _ ← validate_light value;
  if (LIGHT_SAMPLES_PER_SUB_CHUNK <=? index)%nat then Err (IndexOutOfRange index)
  else if bool_decide (light_get s index = Some value) then Ok (false, s)
  else
    let bytes := match s with
                 | UniformLight uniform => replicate PACKED_LIGHT_BYTES (repeated uniform)
                 | PackedLight bytes => bytes
                 end in
    Ok (true, PackedLight (alter (set_nibble index value) (index / 2)%nat bytes)).

Definition collapse_if_uniform (s : LightNibbleStorage) : LightNibbleStorage :=
  match s with
  | UniformLight _ => s
  | PackedLight bytes => if all_repeat bytes then UniformLight (first_nibble bytes) else s
  end.

Definition light_set (s : LightNibbleStorage) (index : nat) (value : Z) : result LightStorageError (bool * LightNibbleStorage) :=
  '(changed, s) ← light_set_without_collapse s index value;
  Ok (changed, if (changed : bool) then collapse_if_uniform s else s).

Definition light_fill (value : Z) : result LightStorageError LightNibbleStorage :=
  _ ← validate_light value; Ok (UniformLight value).

Definition light_is_uniform (s : LightNibbleStorage) : bool := match s with UniformLight _ => true | PackedLight _ => false end.
Definition light_allocated_bytes (s : LightNibbleStorage) : nat :=
  match s with UniformLight _ => 0 | PackedLight _ => PACKED_LIGHT_BYTES end.

(** ** The channels of a sub-chunk *)

Inductive LightChannel := BlockLight | SkyLight.
#[export] Instance light_channel_eq_dec : EqDecision LightChannel.
Proof. solve_decision. Defined.

Record SubChunkLight := mk_light { l_block : LightNibbleStorage; l_sky : LightNibbleStorage; l_generation : Z }.

Definition sub_chunk_light_from_packed (block sky : list Z) (generation : Z) : SubChunkLight :=
  mk_light (light_from_packed block) (light_from_packed sky) generation.

Definition sub_chunk_light_uniform (block sky generation : Z) : result LightStorageError SubChunkLight :=
  block ← light_uniform block; sky ← light_uniform sky; Ok (mk_light block sky generation).

Definition dark (generation : Z) : SubChunkLight := mk_light (UniformLight 0) (UniformLight 0) generation.
Definition with_generation (l : SubChunkLight) (generation : Z) : SubChunkLight := mk_light (l_block l) (l_sky l) generation.

Definition channel (l : SubChunkLight) (c : LightChannel) : LightNibbleStorage :=
  match c with BlockLight => l_block l | SkyLight => l_sky l end.
(** A write through [channel_mut]. *)
Definition on_channel (l : SubChunkLight) (c : LightChannel) (s : LightNibbleStorage) : SubChunkLight :=
  match c with
  | BlockLight => mk_light s (l_sky l) (l_generation l)
  | SkyLight => mk_light (l_block l) s (l_generation l)
  end.

(** The expression of [linear_index] in [palette.rs]. *)
Definition local_index (x y z : nat) : option nat :=
  if (16 <=? x)%nat || (16 <=? y)%nat || (16 <=? z)%nat then None
  else Some (linear_index x y z).

Definition sub_chunk_light_get (l : SubChunkLight) (c : LightChannel) (x y z : nat) : option Z :=
  index ← local_index x y z; light_get (channel l c) index.

Definition sub_chunk_light_set (l : SubChunkLight) (c : LightChannel) (x y z : nat) (value : Z)
    : result LightStorageError (bool * SubChunkLight) :=
  match local_index x y z with
  | None => Err (IndexOutOfRange LIGHT_SAMPLES_PER_SUB_CHUNK)
  | Some index => '(changed, s) ← light_set (channel l c) index value; Ok (changed, on_channel l c s)
  end.

(** ** The light store *)

Inductive LightSubChunkKind := UnknownLight | KnownAirLight | ResidentLight.
#[export] Instance light_sub_chunk_kind_eq_dec : EqDecision LightSubChunkKind.
Proof. solve_decision. Defined.

Record StoredSubChunkLight := mk_stored_light { sl_kind : LightSubChunkKind; sl_light : SubChunkLight }.

Definition LightStoreSnapshot : Type := SectionSnapshot (T := StoredSubChunkLight).

Definition snapshot_kind (s : LightStoreSnapshot) (key : SubChunkKey) : LightSubChunkKind :=
  from_option sl_kind UnknownLight (snapshot_get s key).
Definition snapshot_light (s : LightStoreSnapshot) (key : SubChunkKey) : option SubChunkLight := sl_light <$> snapshot_get s key.

Definition replace_known_light (s : LightStoreSnapshot) (key : SubChunkKey) (light : SubChunkLight) : bool * LightStoreSnapshot :=
  match snapshot_get s key with
  | None => (false, s)
  | Some _ => (true, snapshot_update s key (λ entry, mk_stored_light (sl_kind entry) light))
  end.

Definition light_snapshot_extend (s other : LightStoreSnapshot) : LightStoreSnapshot := snapshot_extend s (snapshot_entries other).

Notation LightStore := (gmap SubChunkKey StoredSubChunkLight).
Implicit Types (s : LightStore) (key : SubChunkKey).

Definition light_store_kind s key : LightSubChunkKind := from_option sl_kind UnknownLight (s !! key).
Definition light_store_light s key : option SubChunkLight := sl_light <$> s !! key.
Definition light_store_entry s key : option (LightSubChunkKind * SubChunkLight) := (λ e, (sl_kind e, sl_light e)) <$> s !! key.

Definition light_store_insert s key (kind : LightSubChunkKind) (light : SubChunkLight) : LightStore :=
  <[key := mk_stored_light kind light]> s.
Definition insert_known_air s key light : LightStore := light_store_insert s key KnownAirLight light.
Definition insert_resident s key light : LightStore := light_store_insert s key ResidentLight light.

Definition commit_if_generation s key (expected : option Z) (replacement : SubChunkLight) : bool * LightStore :=
  if negb (bool_decide ((l_generation <$> light_store_light s key) = expected)) then (false, s)
  else
    let kind := light_store_kind s key in
    if bool_decide (kind = UnknownLight) then (false, s)
    else (true, light_store_insert s key kind replacement).

(** The map iterates in some order of its own; no two entries share a key. *)
Definition light_store_snapshot s : LightStoreSnapshot := snapshot_from_entries (map_to_list s).
Definition light_store_snapshot_keys s (keys : list SubChunkKey) : LightStoreSnapshot :=
  snapshot_from_entries (omap (λ key, pair key <$> s !! key) keys).

Definition light_store_remove s key : bool * LightStore := (bool_decide (is_Some (s !! key)), delete key s).

Definition light_store_evict_chunk s (chunk : ChunkKey) : list SubChunkKey * LightStore :=
  let removed := sorted_keys (filter (λ key, sk_chunk key = chunk) (dom s)) in
  (removed, foldl (λ s key, delete key s) s removed).

(** ** Data of the light solver

    [crates/world/src/light_solver/types.rs]: positions, bounds with their dense order, block samples,
    halo light, limits, and the two interfaces the solver reads through. *)

(** ** Positions *)

Record BlockPos := mk_pos { bp_x : Z; bp_y : Z; bp_z : Z }.
#[export] Instance block_pos_eq_dec : EqDecision BlockPos.
Proof. solve_decision. Defined.

Definition pos_checked_offset (p : BlockPos) (offset : Z * Z * Z) : option BlockPos :=
  x ← checked_add (bp_x p) (offset.1.1); y ← checked_add (bp_y p) (offset.1.2); z ← checked_add (bp_z p) (offset.2);
  Some (mk_pos x y z).

(** [NEIGHBOURS] of [solve.rs]. *)
Definition NEIGHBOURS : list (Z * Z * Z) := [(-1, 0, 0); (1, 0, 0); (0, -1, 0); (0, 1, 0); (0, 0, -1); (0, 0, 1)].

Definition split_position (dimension : Z) (p : BlockPos) : SubChunkKey * (nat * nat * nat) :=
  (mk_sub_chunk_key dimension (bp_x p / 16) (bp_y p / 16) (bp_z p / 16),
   (Z.to_nat (bp_x p mod 16), Z.to_nat (bp_y p mod 16), Z.to_nat (bp_z p mod 16))).

(** ** Blocks *)

Record LightProperties := mk_properties { lp_emission : Z; lp_filter : Z }.
#[export] Instance light_properties_eq_dec : EqDecision LightProperties.
Proof. solve_decision. Defined.

Definition light_properties_new (emission filter : Z) : result LightStorageError LightProperties :=
  if 15 <? emission then Err (ValueOutOfRange emission)
  else if 15 <? filter then Err (ValueOutOfRange filter)
  else Ok (mk_properties emission filter).

Inductive LightBlockSample := UnknownBlock | KnownAir | Resident (properties : LightProperties).
#[export] Instance light_block_sample_eq_dec : EqDecision LightBlockSample.
Proof. solve_decision. Defined.

Definition sample_filter (s : LightBlockSample) : option Z :=
  match s with UnknownBlock => None | KnownAir => Some 0 | Resident properties => Some (lp_filter properties) end.
Definition sample_emission (s : LightBlockSample) : Z :=
  match s with Resident properties => lp_emission properties | UnknownBlock | KnownAir => 0 end.

(** [trait LightBlockAccess]; [sample_section] returns the samples it writes, or nothing. *)
Record LightBlockAccess := mk_block_access {
  ba_sample : BlockPos → LightBlockSample;
  ba_is_known : BlockPos → bool;
  ba_sky_seed : BlockPos → Z;
  ba_sample_section : SubChunkKey → option (list LightBlockSample);
}.

Inductive DimensionLightProfile := Overworld (direct_sky_down : bool) | Nether | TheEnd.

Definition allows_sky (p : DimensionLightProfile) : bool := match p with Overworld _ => true | _ => false end.
Definition direct_sky_down (p : DimensionLightProfile) : bool := match p with Overworld b => b | _ => false end.

(** ** Errors and limits *)

Inductive LightSolveError :=
  | InvalidBounds
  | VoxelLimitExceeded (requested max : Z)
  | QueueLimitExceeded (max : Z)
  | LightValueOutOfRange (value : Z).

Record SolverLimits := mk_limits { max_voxels : Z; max_queue_entries : Z }.

Record LightSolveStats := mk_stats { darken_seeded : Z; darken_dequeued : Z; increase_dequeued : Z; queue_peak : Z }.
Definition stats_default : LightSolveStats := mk_stats 0 0 0 0.

(** ** Bounds *)

Record LightBounds := mk_bounds { lb_dimension : Z; lb_min : BlockPos; lb_max : BlockPos }.

Definition light_bounds_new (dimension : Z) (min max : BlockPos) : result LightSolveError LightBounds :=
  if (bp_x max <? bp_x min) || (bp_y max <? bp_y min) || (bp_z max <? bp_z min) then Err InvalidBounds
  else Ok (mk_bounds dimension min max).

Implicit Types (b : LightBounds) (p : BlockPos).

Definition bounds_contains b p : bool :=
  (bp_x (lb_min b) <=? bp_x p) && (bp_x p <=? bp_x (lb_max b)) && (bp_y (lb_min b) <=? bp_y p) && (bp_y p <=? bp_y (lb_max b))
  && (bp_z (lb_min b) <=? bp_z p) && (bp_z p <=? bp_z (lb_max b)).

(** [i64::checked_mul]. *)
Definition checked_mul_i64 (a b : Z) : option Z := if (- 2 ^ 63 <=? a * b) && (a * b <? 2 ^ 63) then Some (a * b) else None.

Definition bounds_volume b : option Z :=
  let x := bp_x (lb_max b) - bp_x (lb_min b) + 1 in
  let y := bp_y (lb_max b) - bp_y (lb_min b) + 1 in
  let z := bp_z (lb_max b) - bp_z (lb_min b) + 1 in
  xy ← checked_mul_i64 x y; v ← checked_mul_i64 xy z;
  if 0 <=? v then Some v else None.

Definition light_axis_len (min max : Z) : Z := max - min + 1.
Definition bounds_y_len b : Z := light_axis_len (bp_y (lb_min b)) (bp_y (lb_max b)).
Definition bounds_z_len b : Z := light_axis_len (bp_z (lb_min b)) (bp_z (lb_max b)).

(** [usize::checked_mul] and [checked_add]. *)
Definition usize_checked (v : Z) : option Z := if v <? 2 ^ 64 then Some v else None.

Definition light_dense_index b (y_len z_len : Z) p : option nat :=
  if negb (bounds_contains b p) then None
  else
    let x := bp_x p - bp_x (lb_min b) in let y := bp_y p - bp_y (lb_min b) in let z := bp_z p - bp_z (lb_min b) in
    xy ← usize_checked (x * y_len); xy ← usize_checked (xy + y); xyz ← usize_checked (xy * z_len); i ← usize_checked (xyz + z);
    Some (Z.to_nat i).

(** [Iterator for Positions]: the position after [current], in dense order. *)
Definition next_position b (surface_only : bool) (current : BlockPos) : option BlockPos :=
  let '(mk_pos x0 y0 z0) := lb_min b in let '(mk_pos x1 y1 z1) := lb_max b in let '(mk_pos x y z) := current in
  let interior_row := surface_only && negb (x =? x0) && negb (x =? x1) && negb (y =? y0) && negb (y =? y1) in
  if z <? z1 then Some (mk_pos x y (if interior_row then z1 else z + 1))
  else if y <? y1 then Some (mk_pos x (y + 1) z0)
  else if x <? x1 then Some (mk_pos (x + 1) y0 z0)
  else None.

(** Everything the iterator yields; the fuel is the number of positions. *)
Fixpoint walk_positions b (surface_only : bool) (fuel : nat) (next : option BlockPos) : list BlockPos :=
  match fuel, next with
  | S fuel, Some current => current :: walk_positions b surface_only fuel (next_position b surface_only current)
  | _, _ => []
  end.

Definition volume_of b : nat :=
  Z.to_nat ((bp_x (lb_max b) - bp_x (lb_min b) + 1) * bounds_y_len b * bounds_z_len b).
Definition positions b : list BlockPos := walk_positions b false (volume_of b) (Some (lb_min b)).
Definition surface_positions b : list BlockPos := walk_positions b true (volume_of b) (Some (lb_min b)).

(** ** Light around and before a solve *)

Inductive BoundaryLightSample := BoundaryUnknown | BoundaryUntrusted | BoundaryTrusted (level : Z) (direct_sky : bool).

Definition boundary_trusted (level : Z) (direct_sky : bool) : result LightStorageError BoundaryLightSample :=
  if 15 <? level then Err (ValueOutOfRange level) else Ok (BoundaryTrusted level direct_sky).

Definition trusted_parts (s : BoundaryLightSample) : option (Z * bool) :=
  match s with BoundaryTrusted level direct_sky => Some (level, direct_sky) | BoundaryUnknown | BoundaryUntrusted => None end.

(** [trait LightReadAccess]. *)
Record LightReadAccess := mk_read_access {
  ra_read_light : Z → BlockPos → LightChannel → Z;
  ra_direct_sky : Z → BlockPos → bool;
  ra_boundary_light : Z → BlockPos → LightChannel → BoundaryLightSample;
}.

(** The defaults of the trait. *)
Definition no_provenance : Z → BlockPos → bool := λ _ _, false.
Definition no_boundary : Z → BlockPos → LightChannel → BoundaryLightSample := λ _ _ _, BoundaryUnknown.

Definition EmptyLight : LightReadAccess := mk_read_access (λ _ _ _, 0) no_provenance no_boundary.

Definition snapshot_read_access (s : LightStoreSnapshot) : LightReadAccess :=
  mk_read_access
    (λ dimension p c, let '(key, (x, y, z)) := split_position dimension p in
       default 0 (l ← snapshot_light s key; sub_chunk_light_get l c x y z))
    no_provenance no_boundary.
