(* ===== verification/LightSpec.v ===== *)
(** * What light storage guarantees

    A channel in canonical form is determined by its samples; writes change one sample and keep the form.
    The light store commits against generations, and its snapshots read like it. *)
From stdpp Require Import base numbers list gmap fin_maps sorting.
From S2P Require Import Prelude Packed Palette PaletteSpec Bytes Keys Wire SubChunk SubChunkSpec SubChunkTheorems Biome Snapshot Light.
#[local] Open Scope Z_scope.
#[local] Ltac Zify.zify_post_hook ::= Z.to_euclidean_division_equations.

(** ** Nibbles *)

Definition read_nibble (index : nat) (byte : Z) : Z := if Nat.even index then Z.land byte 15 else Z.shiftr byte 4.

Lemma land_15 b : Z.land b 15 = b mod 16.
Proof. change 15 with (Z.ones 4). by rewrite Z.land_ones. Qed.

Lemma shiftr_4 b : Z.shiftr b 4 = b / 16.
Proof. by rewrite Z.shiftr_div_pow2. Qed.

Lemma land_240 b : is_byte b → Z.land b 240 = 16 * (b / 16).
Proof.
  unfold is_byte. intros Hb. change 240 with (Z.shiftl 15 4).
  assert (Z.land b (Z.shiftl 15 4) = Z.shiftl (Z.land (Z.shiftr b 4) 15) 4) as ->.
  { apply Z.bits_inj'. intros n Hn. rewrite Z.land_spec, !Z.shiftl_spec by done.
    destruct (Z.leb_spec 4 n); [|by rewrite !(Z.testbit_neg_r _ (n - 4)) by lia; rewrite andb_false_r].
    rewrite Z.land_spec, Z.shiftr_spec by lia. by replace (n - 4 + 4) with n by lia. }
  rewrite Z.shiftl_mul_pow2 by done. change (2 ^ 4) with 16. rewrite land_15, shiftr_4. lia.
Qed.

Lemma high_nibble_small v : 0 ≤ v ≤ 15 → high_nibble v = 16 * v.
Proof. intros Hv. unfold high_nibble, to_unsigned. rewrite Z.shiftl_mul_pow2 by done. change (2 ^ 4) with 16. change (2 ^ 8) with 256. rewrite Z.mod_small; lia. Qed.

Lemma lor_nibbles lo hi : 0 ≤ lo ≤ 15 → 0 ≤ hi → Z.lor lo (16 * hi) = lo + 16 * hi.
Proof. intros Hlo Hhi. replace (16 * hi) with (Z.shiftl hi 4) by (rewrite Z.shiftl_mul_pow2; lia).
  rewrite Z.lor_comm, lor_shiftl_add, Z.shiftl_mul_pow2; change (2 ^ 4) with 16; lia. Qed.

Lemma repeated_small v : 0 ≤ v ≤ 15 → repeated v = 17 * v.
Proof. intros Hv. unfold repeated. rewrite high_nibble_small, lor_nibbles by lia. lia. Qed.

Lemma read_nibble_range index b : is_byte b → 0 ≤ read_nibble index b ≤ 15.
Proof. unfold is_byte, read_nibble. intros Hb. rewrite land_15, shiftr_4. destruct (Nat.even index); lia. Qed.

Lemma set_nibble_value index v b :
  is_byte b → 0 ≤ v ≤ 15 → set_nibble index v b = if Nat.even index then v + 16 * (b / 16) else b mod 16 + 16 * v.
Proof.
  intros Hb Hv. unfold set_nibble. destruct (Nat.even index).
  - rewrite land_240, Z.lor_comm, lor_nibbles by (done || unfold is_byte in Hb; lia). done.
  - rewrite land_15, high_nibble_small, lor_nibbles by lia. done.
Qed.

Lemma set_nibble_byte index v b : is_byte b → 0 ≤ v ≤ 15 → is_byte (set_nibble index v b).
Proof. intros Hb Hv. rewrite set_nibble_value by done. unfold is_byte in *. destruct (Nat.even index); lia. Qed.

Lemma read_set_nibble i j v b :
  is_byte b → 0 ≤ v ≤ 15 → read_nibble j (set_nibble i v b) = if Bool.eqb (Nat.even i) (Nat.even j) then v else read_nibble j b.
Proof.
  intros Hb Hv. rewrite set_nibble_value by done. unfold read_nibble, is_byte in *. rewrite !land_15, !shiftr_4.
  destruct (Nat.even i), (Nat.even j); simpl; lia.
Qed.

(** ** Channels *)

Definition bytes_ok (bytes : list Z) : Prop := length bytes = PACKED_LIGHT_BYTES ∧ Forall is_byte bytes.

(** Canonical form: packed bytes never hold the same nibble throughout. *)
Definition nibble_ok (s : LightNibbleStorage) : Prop :=
  match s with
  | UniformLight v => 0 ≤ v ≤ 15
  | PackedLight bytes => bytes_ok bytes ∧ all_repeat bytes = false
  end.

#[local] Notation sample_index i := (i < LIGHT_SAMPLES_PER_SUB_CHUNK)%nat.

Lemma packed_length : LIGHT_SAMPLES_PER_SUB_CHUNK = (2 * PACKED_LIGHT_BYTES)%nat.
Proof. done. Qed.
Lemma samples_blocks : LIGHT_SAMPLES_PER_SUB_CHUNK = BLOCKS_PER_SUB_CHUNK.
Proof. reflexivity. Qed.
Lemma sample_index_0 : sample_index 0.
Proof. apply Nat.ltb_lt. reflexivity. Qed.
#[local] Opaque LIGHT_SAMPLES_PER_SUB_CHUNK PACKED_LIGHT_BYTES.

Lemma half_lt i : sample_index i → (i / 2 < PACKED_LIGHT_BYTES)%nat.
Proof. rewrite packed_length. intros Hi. apply Nat.Div0.div_lt_upper_bound. lia. Qed.

Lemma bytes_lookup bytes i : bytes_ok bytes → sample_index i → ∃ b, bytes !! (i / 2)%nat = Some b ∧ is_byte b.
Proof.
  intros [Hl Hb] Hi. destruct (lookup_lt_is_Some_2 bytes (i / 2)%nat) as [b E]; [rewrite Hl; by apply half_lt|].
  exists b. split; [done|]. by eapply Forall_lookup_1.
Qed.

(** The sample at an index, of either form. *)
Lemma light_get_packed bytes i :
  bytes_ok bytes → sample_index i → ∃ b, bytes !! (i / 2)%nat = Some b ∧ light_get (PackedLight bytes) i = Some (read_nibble i b).
Proof.
  intros Hok Hi. destruct (bytes_lookup bytes i Hok Hi) as (b & E & _). exists b. split; [done|].
  unfold light_get, read_nibble. destruct (Nat.leb_spec LIGHT_SAMPLES_PER_SUB_CHUNK i); [lia|]. by rewrite E.
Qed.

Lemma light_get_uniform v i : sample_index i → light_get (UniformLight v) i = Some v.
Proof. intros Hi. unfold light_get. by destruct (Nat.leb_spec LIGHT_SAMPLES_PER_SUB_CHUNK i); [lia|]. Qed.

Lemma light_get_None s i : ¬ sample_index i → light_get s i = None.
Proof. intros Hi. unfold light_get. by destruct (Nat.leb_spec LIGHT_SAMPLES_PER_SUB_CHUNK i); [|lia]. Qed.

Lemma first_nibble_range bytes : bytes_ok bytes → 0 ≤ first_nibble bytes ≤ 15.
Proof. intros [_ Hb]. unfold first_nibble. rewrite land_15. lia. Qed.

Lemma byte_repeats v b : is_byte b → 0 ≤ v ≤ 15 → b = repeated v ↔ read_nibble 0 b = v ∧ read_nibble 1 b = v.
Proof. intros Hb Hv. rewrite repeated_small by done. unfold read_nibble, is_byte in *. simpl. rewrite land_15, shiftr_4. lia. Qed.

Lemma read_nibble_parity i b : read_nibble i b = if Nat.even i then read_nibble 0 b else read_nibble 1 b.
Proof. done. Qed.

(** Bytes repeat one nibble exactly when every sample is the first. *)
Lemma all_repeat_iff bytes :
  bytes_ok bytes → all_repeat bytes = true ↔ ∀ i, sample_index i → light_get (PackedLight bytes) i = Some (first_nibble bytes).
Proof.
  intros Hok. pose proof (first_nibble_range bytes Hok) as Hf. unfold all_repeat. rewrite <-Is_true_true, forallb_True, Forall_lookup. split.
  - intros H i Hi. destruct (light_get_packed bytes i Hok Hi) as (b & E & ->). f_equal.
    pose proof (bytes_lookup bytes i Hok Hi) as (b' & E' & Hb). rewrite E in E'. injection E' as <-.
    specialize (H _ _ E). apply Is_true_true, Z.eqb_eq, byte_repeats in H as [H0 H1]; [|done..].
    rewrite read_nibble_parity. by destruct (Nat.even i).
  - intros H j b E. apply Is_true_true, Z.eqb_eq. assert (is_byte b) as Hb by (eapply Forall_lookup_1; [apply Hok|done]).
    assert (j < PACKED_LIGHT_BYTES)%nat as Hj by (rewrite <-(proj1 Hok); by eapply lookup_lt_Some).
    apply byte_repeats; [done..|].
    assert (∀ k, (k < 2)%nat → read_nibble (2 * j + k) b = first_nibble bytes) as Hk.
    { intros k Hk. assert (sample_index (2 * j + k)%nat) as Hi by (rewrite packed_length; lia).
      destruct (light_get_packed bytes (2 * j + k) Hok Hi) as (b' & E' & Hget). rewrite H in Hget by done.
      assert ((2 * j + k) / 2 = j)%nat as Hdiv by (rewrite Nat.mul_comm, Nat.div_add_l, Nat.div_small by lia; lia). rewrite Hdiv in E'. congruence. }
    pose proof (Hk 0%nat ltac:(lia)) as H0. pose proof (Hk 1%nat ltac:(lia)) as H1. rewrite read_nibble_parity in H0, H1.
    rewrite Nat.add_0_r, Nat.even_mul in H0. rewrite Nat.even_add, Nat.even_mul in H1. simpl in H0, H1. done.
Qed.

Lemma get_default_head bytes : bytes_ok bytes → light_get (PackedLight bytes) 0 = Some (first_nibble bytes).
Proof.
  intros Hok. destruct (light_get_packed bytes 0 Hok sample_index_0) as (b & E & ->). unfold first_nibble. destruct bytes; [done|]. by injection E as ->.
Qed.

(** A channel is uniform exactly when its samples are equal. *)
Lemma canonical_uniform s :
  nibble_ok s → light_is_uniform s = true ↔ ∀ i, sample_index i → light_get s i = light_get s 0.
Proof.
  intros Hs. destruct s as [v|bytes]; cbn [light_is_uniform nibble_ok] in *.
  - split; [|done]. intros _ i Hi. by rewrite !light_get_uniform by (done || apply sample_index_0).
  - destruct Hs as [Hok Hr]. split; [done|]. rewrite get_default_head by done. intros H.
    by rewrite (proj2 (all_repeat_iff bytes Hok)) in Hr.
Qed.

Lemma light_get_range s i : nibble_ok s → sample_index i → ∃ v, light_get s i = Some v ∧ 0 ≤ v ≤ 15.
Proof.
  intros Hs Hi. destruct s as [v|bytes]; [exists v; by rewrite light_get_uniform|]. destruct Hs as [Hok _].
  destruct (light_get_packed bytes i Hok Hi) as (b & E & Hget). exists (read_nibble i b). split; [done|].
  apply read_nibble_range. by eapply Forall_lookup_1; [apply Hok|].
Qed.

(** Any packed bytes, brought to canonical form. *)
Lemma from_packed_ok bytes :
  bytes_ok bytes → nibble_ok (light_from_packed bytes) ∧ ∀ i, light_get (light_from_packed bytes) i = light_get (PackedLight bytes) i.
Proof.
  intros Hok. unfold light_from_packed. destruct (all_repeat bytes) eqn:Hr; [|done]. split; [by apply first_nibble_range|].
  intros i. destruct (decide (sample_index i)) as [Hi|Hi]; [|by rewrite !light_get_None].
  rewrite light_get_uniform by done. symmetry. by apply all_repeat_iff.
Qed.

Lemma repeated_byte v : 0 ≤ v ≤ 15 → is_byte (repeated v).
Proof. intros Hv. rewrite repeated_small by done. unfold is_byte. lia. Qed.

Lemma replicate_ok v : 0 ≤ v ≤ 15 → bytes_ok (replicate PACKED_LIGHT_BYTES (repeated v)) ∧
  ∀ i, sample_index i → light_get (PackedLight (replicate PACKED_LIGHT_BYTES (repeated v))) i = Some v.
Proof.
  intros Hv. assert (bytes_ok (replicate PACKED_LIGHT_BYTES (repeated v))) as Hok.
  { split; [apply length_replicate|]. apply Forall_replicate. by apply repeated_byte. }
  split; [done|]. intros i Hi. destruct (light_get_packed _ i Hok Hi) as (b & E & ->). apply lookup_replicate in E as [-> _].
  pose proof (proj1 (byte_repeats v (repeated v) (repeated_byte v Hv) Hv) eq_refl) as [H0 H1].
  rewrite read_nibble_parity. by destruct (Nat.even i); f_equal.
Qed.

Lemma same_half i j : Nat.even i = Nat.even j → (i / 2 = j / 2)%nat → i = j.
Proof.
  intros He Hd. rewrite (Nat.div_mod_eq i 2), (Nat.div_mod_eq j 2), Hd. f_equal.
  rewrite <-!Nat.bit0_mod. unfold Nat.b2n. rewrite !Nat.bit0_odd, <-!Nat.negb_even, He. done.
Qed.

(** A write to one nibble of well-formed bytes. *)
Lemma write_nibble_ok bytes index v :
  bytes_ok bytes → sample_index index → 0 ≤ v ≤ 15 →
  let bytes' := alter (set_nibble index v) (index / 2)%nat bytes in
  bytes_ok bytes' ∧ ∀ i, sample_index i →
    light_get (PackedLight bytes') i = if decide (i = index) then Some v else light_get (PackedLight bytes) i.
Proof.
  intros Hok Hindex Hv bytes'. destruct (bytes_lookup bytes index Hok Hindex) as (b & E & Hb).
  assert (bytes' = <[(index / 2)%nat := set_nibble index v b]> bytes) as Hins.
  { apply list_eq. intros j. subst bytes'. destruct (decide (j = index / 2)%nat) as [->|Hj].
    - rewrite list_lookup_alter_eq, E, list_lookup_insert_eq; [done|by eapply lookup_lt_Some].
    - by rewrite list_lookup_alter_ne, list_lookup_insert_ne. }
  assert (bytes_ok bytes') as Hok'.
  { destruct Hok as [Hl Hf]. split; subst bytes'; [by rewrite length_alter|]. rewrite Hins. apply Forall_insert; [done|].
    by apply set_nibble_byte. }
  split; [done|]. intros i Hi. destruct (light_get_packed bytes' i Hok' Hi) as (b' & E' & ->).
  destruct (light_get_packed bytes i Hok Hi) as (b0 & E0 & ->). rewrite Hins in E'.
  destruct (decide (i / 2 = index / 2)%nat) as [Hd|Hd].
  - rewrite Hd, list_lookup_insert_eq in E' by (by eapply lookup_lt_Some). injection E' as <-.
    rewrite Hd, E in E0. injection E0 as <-. rewrite read_set_nibble by done.
    destruct (Bool.eqb_spec (Nat.even index) (Nat.even i)) as [He|He]; case_decide as Hii; subst; try done.
    destruct Hii. by apply same_half.
  - rewrite list_lookup_insert_ne in E' by done. rewrite E0 in E'. injection E' as <-.
    rewrite decide_False; [done|]. by intros ->.
Qed.

(** A write to a channel. *)
Lemma light_set_spec s index v :
  nibble_ok s → sample_index index → 0 ≤ v ≤ 15 →
  ∃ s', light_set s index v = Ok (negb (bool_decide (light_get s index = Some v)), s') ∧ nibble_ok s' ∧
    ∀ i, sample_index i → light_get s' i = if decide (i = index) then Some v else light_get s i.
Proof.
  intros Hs Hi Hv. unfold light_set, light_set_without_collapse, validate_light.
  destruct (Z.leb_spec v 15); [|lia]. destruct (Nat.leb_spec LIGHT_SAMPLES_PER_SUB_CHUNK index); [lia|]. cbn [mbind result_bind].
  case_bool_decide as Hsame; cbn [mbind result_bind negb].
  - exists s. split; [done|]. split; [done|]. intros i _. by case_decide; [subst i|].
  - eexists. split; [done|]. cbn [collapse_if_uniform].
    set (bytes := match s with UniformLight u => replicate PACKED_LIGHT_BYTES (repeated u) | PackedLight b => b end).
    assert (bytes_ok bytes ∧ ∀ i, sample_index i → light_get (PackedLight bytes) i = light_get s i) as [Hok Hget].
    { subst bytes. destruct s as [u|b]; [|split; [apply Hs|done]]. destruct (replicate_ok u Hs) as [H1 H2].
      split; [done|]. intros i Hii. by rewrite H2, light_get_uniform. }
    destruct (write_nibble_ok bytes index v Hok Hi Hv) as [Hok' Hget']. destruct (from_packed_ok _ Hok') as [H1 H2].
    split; [exact H1|]. intros i Hii. unfold light_from_packed in H2. rewrite H2, Hget', Hget by done. done.
Qed.

Lemma nibble_ext a b : nibble_ok a → nibble_ok b → (∀ i, sample_index i → light_get a i = light_get b i) → a = b.
Proof.
  intros Ha Hb Hget. assert (light_is_uniform a = light_is_uniform b) as Hu.
  { apply eq_true_iff_eq. rewrite !canonical_uniform by done. split; intros H i Hi.
    - by rewrite <-!Hget, H by (done || apply sample_index_0).
    - by rewrite !Hget, H by (done || apply sample_index_0). }
  destruct a as [v|x], b as [w|y]; try done.
  - pose proof (Hget 0%nat sample_index_0) as H. rewrite !light_get_uniform in H by apply sample_index_0. congruence.
  - destruct Ha as [[Hlx Hbx] _], Hb as [[Hly Hby] _]. f_equal. apply list_eq. intros j.
    destruct (decide (j < PACKED_LIGHT_BYTES)%nat) as [Hj|Hj]; [|by rewrite !lookup_ge_None_2 by lia].
    destruct (lookup_lt_is_Some_2 x j) as [p Ep]; [lia|]. destruct (lookup_lt_is_Some_2 y j) as [q Eq]; [lia|]. rewrite Ep, Eq. f_equal.
    assert (∀ k, (k < 2)%nat → read_nibble k p = read_nibble k q) as Hk.
    { intros k Hk. assert (sample_index (2 * j + k)%nat) as Hi by (rewrite packed_length; lia). specialize (Hget _ Hi).
      destruct (light_get_packed x _ (conj Hlx Hbx) Hi) as (p' & Ep' & Hp), (light_get_packed y _ (conj Hly Hby) Hi) as (q' & Eq' & Hq).
      assert ((2 * j + k) / 2 = j)%nat as Hdiv by (rewrite Nat.mul_comm, Nat.div_add_l, Nat.div_small by lia; lia).
      rewrite Hdiv in Ep', Eq'. rewrite Hp, Hq in Hget. injection Hget as Hget.
      rewrite !(read_nibble_parity (2 * j + k)), Nat.even_add, Nat.even_mul in Hget. rewrite !(read_nibble_parity k).
      replace p' with p in Hget by congruence. replace q' with q in Hget by congruence. simpl in Hget. by destruct (Nat.even k). }
    pose proof (Hk 0%nat ltac:(lia)) as H0. pose proof (Hk 1%nat ltac:(lia)) as H1. unfold read_nibble in H0, H1. simpl in H0, H1.
    rewrite !land_15, !shiftr_4 in *. lia.
Qed.

(** ** Sub-chunk light *)

Record light_ok (l : SubChunkLight) : Prop := { lo_block : nibble_ok (l_block l); lo_sky : nibble_ok (l_sky l) }.

Lemma channel_ok l c : light_ok l → nibble_ok (channel l c).
Proof. intros []. by destruct c. Qed.

Lemma on_channel_ok l c s : light_ok l → nibble_ok s → light_ok (on_channel l c s).
Proof. intros [] ?. by destruct c; split. Qed.

Lemma channel_on_channel l c s c' : channel (on_channel l c s) c' = if decide (c' = c) then s else channel l c'.
Proof. by destruct c, c'. Qed.

#[local] Notation local x y z := (x < 16 ∧ y < 16 ∧ z < 16)%nat.

Lemma local_index_Some x y z : local x y z → local_index x y z = Some (linear_index x y z) ∧ sample_index (linear_index x y z).
Proof.
  intros H. unfold local_index. destruct (Nat.leb_spec 16 x), (Nat.leb_spec 16 y), (Nat.leb_spec 16 z); try lia.
  split; [done|]. rewrite samples_blocks. by apply linear_index_lt.
Qed.

Lemma local_index_None x y z : ¬ local x y z → local_index x y z = None.
Proof. intros H. unfold local_index. by destruct (Nat.leb_spec 16 x), (Nat.leb_spec 16 y), (Nat.leb_spec 16 z); try lia. Qed.

Lemma light_get_local l c x y z : local x y z → sub_chunk_light_get l c x y z = light_get (channel l c) (linear_index x y z).
Proof. intros H. unfold sub_chunk_light_get. by rewrite (proj1 (local_index_Some x y z H)). Qed.

Lemma dark_ok generation : light_ok (dark generation).
Proof. by split; cbn. Qed.

(** A channel allocates nothing exactly when its samples are all the same. *)
Lemma uniform_channel l c :
  light_ok l → light_allocated_bytes (channel l c) = 0%nat ↔
    ∀ x y z, local x y z → sub_chunk_light_get l c x y z = sub_chunk_light_get l c 0 0 0.
Proof.
  intros Hl. assert (light_allocated_bytes (channel l c) = 0%nat ↔ light_is_uniform (channel l c) = true) as ->.
  { by destruct (channel l c); split. }
  rewrite canonical_uniform by by apply channel_ok. split.
  - intros H x y z Hxyz. rewrite !light_get_local by (done || lia). by apply H, local_index_Some.
  - intros H i Hi. rewrite samples_blocks in Hi. destruct (linear_split i Hi) as (x & y & z & Hxyz & ->).
    specialize (H x y z Hxyz). by rewrite !light_get_local in H by (done || lia).
Qed.

(** ** The store *)

Lemma snapshot_from_entries_ok {T} (es : list (SubChunkKey * T)) :
  snapshot_ok (snapshot_from_entries es) ∧ view (snapshot_from_entries es) = extend_map ∅ es.
Proof.
  unfold snapshot_from_entries, snapshot_extend, extend_map. destruct (default_ok (T := T)) as [Hok Hv]. rewrite <-Hv.
  generalize (snapshot_default (T := T)) Hok. induction es as [|[k v] es IH]; intros s Hs; simpl; [done|].
  destruct (insert_refines s k v Hs) as [H1 <-]. by apply IH.
Qed.

Lemma snapshot_get_entries {T} (es : list (SubChunkKey * T)) k : snapshot_get (snapshot_from_entries es) k = extend_map ∅ es !! k.
Proof. destruct (snapshot_from_entries_ok es) as [Hok Hv]. by rewrite get_refines, Hv. Qed.

Lemma store_snapshot_get (s : LightStore) k : snapshot_get (light_store_snapshot s) k = s !! k.
Proof.
  unfold light_store_snapshot. rewrite snapshot_get_entries, extend_map_nodup by apply NoDup_fst_map_to_list.
  rewrite (right_id_L ∅ (∪)). exact (f_equal (.!! k) (list_to_map_to_list (M := gmap SubChunkKey) s)).
Qed.

(** Requested keys may repeat: every entry of a key is the store's. *)
Lemma extend_keys (s : LightStore) keys m k :
  extend_map m (omap (λ key, pair key <$> s !! key) keys) !! k =
  if decide (k ∈ keys) then match s !! k with Some e => Some e | None => m !! k end else m !! k.
Proof.
  revert m. induction keys as [|key keys IH]; intros m; [done|].
  assert (extend_map m (omap (λ key, pair key <$> s !! key) (key :: keys)) =
    extend_map (match s !! key with Some e => <[key := e]> m | None => m end) (omap (λ key, pair key <$> s !! key) keys)) as Heq.
  { cbn [omap list_omap]. by destruct (s !! key). }
  rewrite Heq, IH. clear Heq IH. destruct (decide (k = key)) as [->|Hk].
  - rewrite (decide_True (P := key ∈ key :: keys)) by by left. destruct (s !! key); [|by destruct (decide (key ∈ keys))].
    rewrite lookup_insert_eq. by destruct (decide (key ∈ keys)).
  - assert (k ∈ key :: keys ↔ k ∈ keys) as Hin by (rewrite elem_of_cons; tauto).
    rewrite (decide_ext (k ∈ key :: keys) (k ∈ keys)) by done.
    destruct (s !! key); [|done]. by rewrite !lookup_insert_ne.
Qed.

Lemma store_snapshot_keys_get (s : LightStore) keys k :
  snapshot_get (light_store_snapshot_keys s keys) k = if decide (k ∈ keys) then s !! k else None.
Proof.
  unfold light_store_snapshot_keys. rewrite snapshot_get_entries, extend_keys, lookup_empty.
  case_decide; [|done]. by destruct (s !! k).
Qed.

Lemma foldl_delete {T} (removed : list SubChunkKey) (s : gmap SubChunkKey T) k :
  foldl (λ s key, delete key s) s removed !! k = if decide (k ∈ removed) then None else s !! k.
Proof.
  revert s. induction removed as [|key removed IH]; intros s; simpl; [done|]. rewrite IH.
  destruct (decide (k = key)) as [->|Hk].
  - rewrite (decide_True (P := key ∈ key :: removed)) by by left. rewrite lookup_delete_eq. by destruct (decide (key ∈ removed)).
  - rewrite lookup_delete_ne by done. assert (k ∈ key :: removed ↔ k ∈ removed) as Hin by (rewrite elem_of_cons; tauto).
    by rewrite (decide_ext (k ∈ key :: removed) (k ∈ removed)).
Qed.

Lemma light_store_insert_lookup s key kind light k :
  light_store_insert s key kind light !! k = if decide (k = key) then Some (mk_stored_light kind light) else s !! k.
Proof. unfold light_store_insert. case_decide as Hk; [subst k; apply lookup_insert_eq|by apply lookup_insert_ne]. Qed.

(** ** Properties *)

(** A write to a sub-chunk's light changes that sample of that channel and nothing else, reports whether
    the sample was different, and frees the packed bytes exactly when the channel becomes uniform. Its
    errors are a coordinate outside the section and a value above fifteen. *)
Theorem light_write_exact l c x y z v :
  light_ok l → 0 ≤ v →
  match sub_chunk_light_set l c x y z v with
  | Ok (changed, l') =>
      local x y z ∧ v ≤ 15 ∧ light_ok l' ∧ l_generation l' = l_generation l ∧
      (changed = true ↔ sub_chunk_light_get l c x y z ≠ Some v) ∧
      (∀ c' x' y' z', local x' y' z' → sub_chunk_light_get l' c' x' y' z' =
         if decide (c' = c ∧ x' = x ∧ y' = y ∧ z' = z) then Some v else sub_chunk_light_get l c' x' y' z') ∧
      ∀ c', light_allocated_bytes (channel l' c') = 0%nat ↔
        ∀ x' y' z', local x' y' z' → sub_chunk_light_get l' c' x' y' z' = sub_chunk_light_get l' c' 0 0 0
  | Err (IndexOutOfRange _) => ¬ local x y z
  | Err (ValueOutOfRange w) => w = v ∧ 15 < v
  end.
Proof.
  intros Hl Hv. unfold sub_chunk_light_set. destruct (decide (local x y z)) as [Hxyz|Hxyz]; [|by rewrite local_index_None].
  destruct (local_index_Some x y z Hxyz) as [-> Hi]. destruct (Z.leb_spec v 15) as [Hv15|Hv15].
  2: { unfold light_set, light_set_without_collapse, validate_light. destruct (Z.leb_spec v 15); [lia|done]. }
  destruct (light_set_spec (channel l c) (linear_index x y z) v (channel_ok l c Hl) Hi ltac:(lia)) as (s' & -> & Hs' & Hget).
  cbn [mbind result_bind]. assert (light_ok (on_channel l c s')) as Hl' by by apply on_channel_ok.
  split; [done|]. split; [done|]. split; [done|]. split; [by destruct c|]. split; [|split].
  - rewrite light_get_local by done. by case_bool_decide.
  - intros c' x' y' z' H'. rewrite !light_get_local by done. rewrite channel_on_channel.
    destruct (decide (c' = c)) as [->|Hc]; [|rewrite decide_False by tauto; done].
    rewrite Hget by by apply local_index_Some. destruct (decide (linear_index x' y' z' = linear_index x y z)) as [E|E].
    + apply linear_index_inj in E as (-> & -> & ->); [|done..]. by rewrite decide_True.
    + rewrite decide_False; [done|]. intros (_ & -> & -> & ->). done.
  - intros c'. by apply uniform_channel.
Qed.

(** Light is determined by its samples: light assembled from packed bytes is the same value, also under
    the derived equality of the code, as any light with these samples and generation, however that was
    written sample by sample. *)
Theorem light_determined_by_samples block sky generation l :
  bytes_ok block → bytes_ok sky → light_ok l →
  light_ok (sub_chunk_light_from_packed block sky generation) ∧
  (l = sub_chunk_light_from_packed block sky generation ↔
   l_generation l = generation ∧ ∀ x y z, local x y z →
     sub_chunk_light_get l BlockLight x y z = light_get (PackedLight block) (linear_index x y z) ∧
     sub_chunk_light_get l SkyLight x y z = light_get (PackedLight sky) (linear_index x y z)).
Proof.
  intros Hb Hs Hl. destruct (from_packed_ok block Hb) as [Ob Gb], (from_packed_ok sky Hs) as [Os Gs].
  split; [by split|]. split.
  - intros ->. split; [done|]. intros x y z H. by rewrite !light_get_local, <-Gb, <-Gs by done.
  - intros [Hg H]. destruct l as [lb ls g], Hl as [Hlb Hls]. cbn [l_block l_sky l_generation] in *. unfold sub_chunk_light_from_packed.
    rewrite Hg. f_equal; apply nibble_ext; try done; intros i Hi; rewrite samples_blocks in Hi;
      destruct (linear_split i Hi) as (x & y & z & Hxyz & ->); destruct (H x y z Hxyz) as [H1 H2];
      rewrite light_get_local in H1, H2 by done; [by rewrite Gb|by rewrite Gs].
Qed.

(** A light commit is a compare-and-swap on generations: it succeeds exactly when the boundary is known
    and still has the generation the job started from, and then replaces that light, keeping the kind;
    nothing else changes, and a failed commit changes nothing. *)
Theorem light_commit_exact s key expected replacement :
  let '(committed, s') := commit_if_generation s key expected replacement in
  (committed = true ↔ ∃ kind light, light_store_entry s key = Some (kind, light) ∧ kind ≠ UnknownLight ∧
     expected = Some (l_generation light)) ∧
  ∀ k, light_store_entry s' k =
    if decide (committed = true ∧ k = key) then (λ e, (fst e, replacement)) <$> light_store_entry s k else light_store_entry s k.
Proof.
  unfold commit_if_generation, light_store_light, light_store_kind, light_store_entry.
  destruct (s !! key) as [[kind light]|] eqn:E; simpl.
  2: { destruct (negb _); [|simpl]; (split; [split; [done|by intros (? & ? & ? & _)]|]); intros k; repeat case_decide; (reflexivity || intuition congruence). }
  case_bool_decide as Hg; simpl; [|split; [split; [done|intros (? & ? & [= <- <-] & _ & ->); done]|intros k; repeat case_decide; (reflexivity || intuition congruence)]].
  case_bool_decide as Hk; simpl; [split; [split; [done|intros (? & ? & [= <- <-] & ? & _); done]|intros k; repeat case_decide; (reflexivity || intuition congruence)]|].
  split; [split; [by intros _; exists kind, light|done]|]. intros k. rewrite light_store_insert_lookup.
  destruct (decide (k = key)) as [->|Hne]; [rewrite decide_True by done; by rewrite E|]. by rewrite decide_False by tauto.
Qed.

(** A light snapshot answers for the keys it was taken of as the store did, and says nothing about other
    keys; replacing a known light in it changes that entry's light only. *)
Theorem light_snapshot_exact s keys k key light :
  let snapshot := light_store_snapshot_keys s keys in
  snapshot_kind (light_store_snapshot s) k = light_store_kind s k ∧ snapshot_light (light_store_snapshot s) k = light_store_light s k ∧
  snapshot_kind snapshot k = (if decide (k ∈ keys) then light_store_kind s k else UnknownLight) ∧
  snapshot_light snapshot k = (if decide (k ∈ keys) then light_store_light s k else None) ∧
  let '(known, snapshot') := replace_known_light snapshot key light in
  (known = true ↔ key ∈ keys ∧ is_Some (light_store_light s key)) ∧
  snapshot_kind snapshot' k = snapshot_kind snapshot k ∧
  snapshot_light snapshot' k = if decide (k = key ∧ known = true) then Some light else snapshot_light snapshot k.
Proof.
  intros snapshot. unfold snapshot_kind, snapshot_light, light_store_kind, light_store_light.
  rewrite store_snapshot_get. subst snapshot. rewrite store_snapshot_keys_get.
  split; [done|]. split; [done|]. split; [by case_decide|]. split; [by case_decide|].
  unfold replace_known_light. rewrite store_snapshot_keys_get.
  assert (snapshot_ok (light_store_snapshot_keys s keys)) as Hok by apply snapshot_from_entries_ok.
  destruct (if decide (key ∈ keys) then s !! key else None) as [e|] eqn:E; simpl.
  - destruct (update_refines _ key (λ e, mk_stored_light (sl_kind e) light) Hok) as [Hok' Hv].
    assert (snapshot_get (snapshot_update (light_store_snapshot_keys s keys) key (λ e, mk_stored_light (sl_kind e) light)) k =
      if decide (k = key) then Some (mk_stored_light (sl_kind e) light) else if decide (k ∈ keys) then s !! k else None) as ->.
    { rewrite get_refines, Hv by done. rewrite <-!store_snapshot_keys_get, get_refines in E |- * by done.
      case_decide as Hk; [subst k; rewrite lookup_alter_eq; by rewrite E|by apply lookup_alter_ne]. }
    split; [|destruct (decide (k = key)) as [->|Hk]; [rewrite E, decide_True by done; done|split; [done|]; rewrite (decide_False (P := k = key ∧ true = true)) by tauto; done]].
    case_decide; [|done]. rewrite E. split; [by intros _|done].
  - rewrite store_snapshot_keys_get. split; [|split; [done|repeat case_decide; (reflexivity || intuition congruence)]].
    split; [done|]. intros [Hin [l Hl]]. rewrite decide_True in E by done. by rewrite E in Hl.
Qed.

(** Evicting a column removes its light and lists what it removed in ascending order. *)
Lemma light_evict_exact s chunk :
  let '(removed, s') := light_store_evict_chunk s chunk in
  StronglySorted sub_chunk_key_le removed ∧ NoDup removed ∧
  (∀ k, k ∈ removed ↔ sk_chunk k = chunk ∧ is_Some (light_store_light s k)) ∧
  ∀ k, light_store_entry s' k = if decide (sk_chunk k = chunk) then None else light_store_entry s k.
Proof.
  unfold light_store_evict_chunk. split; [apply sub_chunk_keys_sorted|]. split; [apply sorted_keys_nodup|].
  assert (∀ k, k ∈ sorted_keys (filter (λ key, sk_chunk key = chunk) (dom s)) ↔
    sk_chunk k = chunk ∧ is_Some (light_store_light s k)) as Hin.
  { intros k. rewrite elem_of_sorted_keys, elem_of_filter, elem_of_dom. unfold light_store_light. by rewrite fmap_is_Some. }
  split; [done|]. intros k. unfold light_store_entry. rewrite foldl_delete. destruct (decide (sk_chunk k = chunk)) as [Hk|Hk].
  - case_decide as Hd; [done|]. rewrite Hin in Hd. destruct (s !! k) eqn:E; [|done]. destruct Hd. split; [done|].
    unfold light_store_light. rewrite E. by eexists.
  - rewrite decide_False; [done|]. rewrite Hin. tauto.
Qed.

(** ** Witnesses *)

(** The first write to dark light packs the channel. *)
Lemma light_write_exact_witness :
  match sub_chunk_light_set (dark 7) SkyLight 1 2 3 15 with
  | Ok (changed, l') =>
      local 1 2 3 ∧ 15 ≤ 15 ∧ light_ok l' ∧ l_generation l' = 7 ∧
      (changed = true ↔ sub_chunk_light_get (dark 7) SkyLight 1 2 3 ≠ Some 15) ∧
      (∀ c' x' y' z', local x' y' z' → sub_chunk_light_get l' c' x' y' z' =
         if decide (c' = SkyLight ∧ x' = 1%nat ∧ y' = 2%nat ∧ z' = 3%nat) then Some 15 else sub_chunk_light_get (dark 7) c' x' y' z') ∧
      ∀ c', light_allocated_bytes (channel l' c') = 0%nat ↔
        ∀ x' y' z', local x' y' z' → sub_chunk_light_get l' c' x' y' z' = sub_chunk_light_get l' c' 0 0 0
  | Err (IndexOutOfRange _) => ¬ local 1 2 3
  | Err (ValueOutOfRange w) => w = 15 ∧ 15 < 15
  end.
Proof. apply (light_write_exact (dark 7) SkyLight 1 2 3 15); [apply dark_ok|done]. Defined.

Lemma zero_bytes_ok : bytes_ok (replicate PACKED_LIGHT_BYTES 0).
Proof. split; [apply length_replicate|]. apply Forall_replicate. by unfold is_byte. Qed.

Lemma light_determined_by_samples_witness :
  let bytes := replicate PACKED_LIGHT_BYTES 0 in
  light_ok (sub_chunk_light_from_packed bytes bytes 7) ∧
  (dark 7 = sub_chunk_light_from_packed bytes bytes 7 ↔
   l_generation (dark 7) = 7 ∧ ∀ x y z, local x y z →
     sub_chunk_light_get (dark 7) BlockLight x y z = light_get (PackedLight bytes) (linear_index x y z) ∧
     sub_chunk_light_get (dark 7) SkyLight x y z = light_get (PackedLight bytes) (linear_index x y z)).
Proof. intros bytes. apply (light_determined_by_samples bytes bytes 7 (dark 7)); [apply zero_bytes_ok..|apply dark_ok]. Defined.
