(* ===== verification/Effects.v ===== *)
(** * Code with mutable state, errors and panics

    A state monad for functions that change local buffers: the outer [None] is a panic (an index out of
    range, [expect], [assert!]) or a loop that ran out of fuel; [Err] keeps the state reached so far, as
    buffers that outlive a failed call do. [wp] is total correctness: no panic, loops end, and the
    postcondition holds of the result, errors included. *)
From stdpp Require Import base numbers list sets.
From S2P Require Import Prelude.

Definition Eff (St Er A : Type) : Type := St → option (result Er A * St).

#[export] Instance eff_ret St Er : MRet (Eff St Er) := λ A a s, Some (Ok a, s).
#[export] Instance eff_bind St Er : MBind (Eff St Er) := λ A B f m s,
  match m s with
  | None => None
  | Some (Ok a, s) => f a s
  | Some (Err e, s) => Some (Err e, s)
  end.

Section ops.
Context {St Er : Type}.

Definition eff_gets {A} (f : St → A) : Eff St Er A := λ s, Some (Ok (f s), s).
Definition eff_modify (f : St → St) : Eff St Er unit := λ s, Some (Ok tt, f s).
(** [expect], an index, or any computation that may panic. *)
Definition eff_expect {A} (o : option A) : Eff St Er A := λ s, match o with Some a => Some (Ok a, s) | None => None end.
Definition eff_throw {A} (e : Er) : Eff St Er A := λ s, Some (Err e, s).
(** A change of the state that may panic. *)
Definition eff_update (f : St → option St) : Eff St Er unit := λ s, match f s with Some s => Some (Ok tt, s) | None => None end.

(** [for x in l { f(x)? }] *)
Fixpoint for_each {A} (f : A → Eff St Er unit) (l : list A) : Eff St Er unit :=
  match l with [] => mret tt | x :: l => _ ← f x; for_each f l end.

(** [for x in l { if f(x)? { return Ok(true) } } Ok(false)] *)
Fixpoint any_of {A} (f : A → Eff St Er bool) (l : list A) : Eff St Er bool :=
  match l with [] => mret false | x :: l => found ← f x; if (found : bool) then mret true else any_of f l end.

(** [while let Some(x) = pop() { f(x)? }] *)
Fixpoint drain {A} (pop : Eff St Er (option A)) (f : A → Eff St Er unit) (fuel : nat) : Eff St Er unit :=
  match fuel with
  | 0 => λ _, None
  | S fuel => next ← pop; match next with None => mret tt | Some x => _ ← f x; drain pop f fuel end
  end.
End ops.

(** ** Total correctness *)
Section wp.
Context {St Er : Type}.

Definition ewp {A} (m : Eff St Er A) (s : St) (Q : A → St → Prop) (E : Er → St → Prop) : Prop :=
  match m s with None => False | Some (Ok a, s') => Q a s' | Some (Err e, s') => E e s' end.

Implicit Types (s : St) (E : Er → St → Prop).

Lemma ewp_mono {A} (m : Eff St Er A) s (P Q : A → St → Prop) E F :
  ewp m s P E → (∀ a s', P a s' → Q a s') → (∀ e s', E e s' → F e s') → ewp m s Q F.
Proof. unfold ewp. intros H HQ HE. destruct (m s) as [[[a|e] s']|]; auto. Qed.

Lemma ewp_ret {A} (a : A) s Q E : Q a s → ewp (mret a) s Q E.
Proof. done. Qed.

Lemma ewp_bind {A B} (m : Eff St Er A) (f : A → Eff St Er B) s Q E :
  ewp m s (λ a s', ewp (f a) s' Q E) E → ewp (m ≫= f) s Q E.
Proof. unfold ewp, mbind, eff_bind. destruct (m s) as [[[a|e] s']|]; auto. Qed.

Lemma ewp_gets {A} (f : St → A) s Q E : Q (f s) s → ewp (eff_gets f) s Q E.
Proof. done. Qed.

Lemma ewp_modify f s Q E : Q tt (f s) → ewp (eff_modify f) s Q E.
Proof. done. Qed.

Lemma ewp_expect {A} (o : option A) a s (Q : A → St → Prop) E : o = Some a → Q a s → ewp (eff_expect o) s Q E.
Proof. intros ->. done. Qed.

Lemma ewp_throw {A} e s (Q : A → St → Prop) E : E e s → ewp (eff_throw e) s Q E.
Proof. done. Qed.

Lemma ewp_update f s s' Q E : f s = Some s' → Q tt s' → ewp (eff_update f) s Q E.
Proof. unfold ewp, eff_update. intros ->. done. Qed.

Lemma ewp_each {A} (f : A → Eff St Er unit) (I : list A → St → Prop) l s Q E :
  I [] s →
  (∀ pre x post s, l = pre ++ x :: post → I pre s → ewp (f x) s (λ _ s', I (pre ++ [x]) s') E) →
  (∀ s, I l s → Q tt s) →
  ewp (for_each f l) s Q E.
Proof.
  intros H0 Hstep HQ.
  cut (∀ suf pre s, l = pre ++ suf → I pre s → ewp (for_each f suf) s Q E); [intros H; by apply (H l [])|].
  induction suf as [|x suf IH]; intros pre s' Hl Hs; simpl.
  - rewrite app_nil_r in Hl. subst pre. by apply ewp_ret, HQ.
  - apply ewp_bind. eapply ewp_mono; [by eapply Hstep| |done].
    intros [] s2 Hs2. apply (IH (pre ++ [x])); [|done]. by rewrite <-app_assoc.
Qed.

(** A search whose tests leave the state alone and decide [P]. *)
Lemma ewp_any_of {A} (f : A → Eff St Er bool) (P : A → Prop) l s (Q : bool → St → Prop) E :
  (∀ x (R : bool → St → Prop), x ∈ l → (∀ r : bool, (r = true ↔ P x) → R r s) → ewp (f x) s R E) →
  (∀ r : bool, (r = true ↔ ∃ x, x ∈ l ∧ P x) → Q r s) →
  ewp (any_of f l) s Q E.
Proof.
  induction l as [|x l IH]; intros Hf HQ; simpl.
  { apply ewp_ret, HQ. split; [done|]. intros (? & H & _). by apply elem_of_nil in H. }
  apply ewp_bind, Hf; [set_solver|]. intros [] Hr.
  - apply ewp_ret, HQ. split; [|done]. intros _. exists x. split; [set_solver|by apply Hr].
  - apply IH; [intros; apply Hf; [set_solver|done]|].
    intros r Hr'. apply HQ. rewrite Hr'. split; intros (y & Hy & HP); exists y; (split; [|done]).
    + set_solver.
    + apply elem_of_cons in Hy as [->|]; [|done]. by apply Hr in HP.
Qed.

(** The measure counts the turns left: a turn that pops must decrease it. *)
Lemma ewp_drain {A} (pop : Eff St Er (option A)) (f : A → Eff St Er unit) (I : St → Prop) (measure : St → nat) fuel s Q E :
  I s → measure s < fuel →
  (∀ s, I s → ewp pop s (λ r s', match r with
     | None => Q tt s'
     | Some x => ewp (f x) s' (λ _ s2, I s2 ∧ measure s2 < measure s) E end) E) →
  ewp (drain pop f fuel) s Q E.
Proof.
  intros HI Hm Hstep. revert s HI Hm. induction fuel as [|fuel IH]; intros s HI Hm; [lia|]. simpl.
  apply ewp_bind. eapply ewp_mono; [by apply Hstep| |done].
  intros [x|] s1 H1; [|by apply ewp_ret].
  apply ewp_bind. eapply ewp_mono; [exact H1| |done]. intros [] s2 [HI2 Hm2]. apply IH; [done|lia].
Qed.
End wp.

(** One step of the code in front: the head operation is taken apart. *)
Ltac ewp_step :=
  match goal with
  | |- ewp (mbind _ _) _ _ _ => apply ewp_bind
  | |- ewp (mret _) _ _ _ => apply ewp_ret
  | |- ewp (eff_gets _) _ _ _ => apply ewp_gets
  | |- ewp (eff_modify _) _ _ _ => apply ewp_modify
  | |- ewp (eff_throw _) _ _ _ => apply ewp_throw
  end.
Ltac ewp_steps := repeat (ewp_step; cbv beta).
