(* ===== verification/LightGrid.v ===== *)
(** * The dense order of a solve region

    Lemmas on bounds: dense indices number the cells of a region, [positions] walks them in that order and
    [surface_positions] walks the faces. *)
From stdpp Require Import base numbers list gmap sets sorting.
From S2P Require Import Prelude Packed Bytes Keys Snapshot Light.
#[local] Open Scope Z_scope.

Implicit Types (b : LightBounds) (p q : BlockPos) (o : Z * Z * Z).

(** A region the solver accepts: [LightBounds::new] checked its corners and its volume fits. *)
Record grid_ok b : Prop := {
  go_x : bp_x (lb_min b) ≤ bp_x (lb_max b); go_y : bp_y (lb_min b) ≤ bp_y (lb_max b); go_z : bp_z (lb_min b) ≤ bp_z (lb_max b);
  go_min : i32_ok (bp_x (lb_min b)) = true ∧ i32_ok (bp_y (lb_min b)) = true ∧ i32_ok (bp_z (lb_min b)) = true;
  go_max : i32_ok (bp_x (lb_max b)) = true ∧ i32_ok (bp_y (lb_max b)) = true ∧ i32_ok (bp_z (lb_max b)) = true;
  go_volume : (bp_x (lb_max b) - bp_x (lb_min b) + 1) * bounds_y_len b * bounds_z_len b < 2 ^ 63;
}.

Definition inside b p : Prop := bounds_contains b p = true.
#[export] Instance inside_dec b p : Decision (inside b p) := decide (bounds_contains b p = true).

Lemma inside_iff b p :
  inside b p ↔ (bp_x (lb_min b) ≤ bp_x p ≤ bp_x (lb_max b)) ∧ (bp_y (lb_min b) ≤ bp_y p ≤ bp_y (lb_max b)) ∧
    (bp_z (lb_min b) ≤ bp_z p ≤ bp_z (lb_max b)).
Proof. unfold inside, bounds_contains. rewrite !andb_true_iff, !Z.leb_le. tauto. Qed.

(** An equation between naturals as one between integers. *)
Ltac nat_as_Z :=
  apply Nat2Z.inj; rewrite ?Z2Nat.id by (repeat (apply Z.mul_nonneg_nonneg || (apply Z.add_nonneg_nonneg; [apply Z.mul_nonneg_nonneg|])); lia);
  repeat first [rewrite Nat2Z.inj_mul|rewrite Nat2Z.inj_add]; rewrite ?Z2Nat.id by lia.

(** The dense number of a cell. *)
Definition dense_z b p : Z :=
  ((bp_x p - bp_x (lb_min b)) * bounds_y_len b + (bp_y p - bp_y (lb_min b))) * bounds_z_len b + (bp_z p - bp_z (lb_min b)).
Definition dense b p : nat := Z.to_nat (dense_z b p).
Definition volume_z b : Z := (bp_x (lb_max b) - bp_x (lb_min b) + 1) * bounds_y_len b * bounds_z_len b.

Ltac grid_unfold :=
  unfold dense_z, volume_z, bounds_y_len, bounds_z_len, light_axis_len in *.

Lemma row_bound a n z m : 0 ≤ a < n → 0 ≤ z < m → 0 ≤ a * m + z < n * m.
Proof. nia. Qed.

Lemma dense_z_range b p : inside b p → 0 ≤ dense_z b p < volume_z b.
Proof.
  rewrite inside_iff. intros (Hx & Hy & Hz). grid_unfold. apply row_bound; [|lia].
  apply row_bound; lia.
Qed.

Lemma dense_lt b p : inside b p → (dense b p < volume_of b)%nat.
Proof. intros H%dense_z_range. unfold dense, volume_of. fold (volume_z b). lia. Qed.

Lemma row_lex a z a' z' m : 0 ≤ z < m → 0 ≤ z' < m → a * m + z < a' * m + z' ↔ a < a' ∨ a = a' ∧ z < z'.
Proof. intros. split; [|nia]. intros. destruct (Z.lt_trichotomy a a') as [?|[?|?]]; [by left|right; nia|nia]. Qed.

Lemma row_eq a z a' z' m : 0 ≤ z < m → 0 ≤ z' < m → a * m + z = a' * m + z' ↔ a = a' ∧ z = z'.
Proof. intros. split; [|by intros [-> ->]]. intros. destruct (Z.lt_trichotomy a a') as [?|[?|?]]; [nia|nia|nia]. Qed.

Lemma dense_lex b p q : inside b p → inside b q →
  (dense b p < dense b q)%nat ↔
    bp_x p < bp_x q ∨ bp_x p = bp_x q ∧ (bp_y p < bp_y q ∨ bp_y p = bp_y q ∧ bp_z p < bp_z q).
Proof.
  intros Hp Hq. unfold dense. rewrite <-Z2Nat.inj_lt by (by apply dense_z_range).
  apply inside_iff in Hp, Hq. grid_unfold. rewrite row_lex, row_lex, row_eq by lia. lia.
Qed.

Lemma pos_ext p q : bp_x p = bp_x q → bp_y p = bp_y q → bp_z p = bp_z q → p = q.
Proof. destruct p, q; simpl; congruence. Qed.

Lemma dense_inj b p q : inside b p → inside b q → dense b p = dense b q → p = q.
Proof.
  intros Hp Hq H. pose proof (dense_lex b p q Hp Hq). pose proof (dense_lex b q p Hq Hp).
  apply pos_ext; lia.
Qed.

Lemma light_dense_index_spec b p : grid_ok b →
  light_dense_index b (bounds_y_len b) (bounds_z_len b) p = if decide (inside b p) then Some (dense b p) else None.
Proof.
  intros Hb. unfold light_dense_index. case_decide as Hin; unfold inside in Hin; [rewrite Hin|by apply not_true_is_false in Hin as ->].
  cbn [negb]. change (inside b p) in Hin. pose proof (dense_z_range b p Hin) as Hr.
  pose proof (go_volume _ Hb) as Hv. apply inside_iff in Hin. destruct Hin as (Hx & Hy & Hz).
  fold (volume_z b) in Hv. unfold dense. unfold dense_z in *.
  set (yl := bounds_y_len b) in *. set (zl := bounds_z_len b) in *.
  assert (1 ≤ yl ∧ 1 ≤ zl) by (unfold yl, zl; grid_unfold; lia).
  set (x := bp_x p - _) in *. set (y := bp_y p - _) in *. set (z := bp_z p - _) in *.
  assert (0 ≤ x ∧ 0 ≤ y ∧ 0 ≤ z) by (unfold x, y, z; lia).
  change (2 ^ 63) with 9223372036854775808 in *.
  assert (Hc : ∀ v, 0 ≤ v < volume_z b → usize_checked v = Some v).
  { intros v Hv'. unfold usize_checked. by rewrite (proj2 (Z.ltb_lt v (2 ^ 64))) by lia. }
  assert (0 ≤ x * yl) by nia. assert (x * yl + y ≤ (x * yl + y) * zl) by nia.
  rewrite (Hc (x * yl)) by lia. simpl. rewrite (Hc (x * yl + y)) by lia. simpl.
  rewrite (Hc ((x * yl + y) * zl)) by lia. simpl. by rewrite Hc by lia.
Qed.

Lemma bounds_volume_spec b v :
  bp_x (lb_min b) ≤ bp_x (lb_max b) → bp_y (lb_min b) ≤ bp_y (lb_max b) → bp_z (lb_min b) ≤ bp_z (lb_max b) →
  bounds_volume b = Some v → v = volume_z b ∧ v < 2 ^ 63.
Proof.
  intros Hx Hy Hz. unfold bounds_volume, checked_mul_i64. repeat (case_match; simpl; [|done]). intros [= <-].
  apply andb_true_iff in H as [_ H%Z.ltb_lt]. apply andb_true_iff in H0 as [_ H0%Z.ltb_lt]. by grid_unfold.
Qed.

Lemma min_inside b : grid_ok b → inside b (lb_min b).
Proof. intros Hb. pose proof (go_x _ Hb). pose proof (go_y _ Hb). pose proof (go_z _ Hb). apply inside_iff. lia. Qed.

Lemma dense_min b : dense b (lb_min b) = 0%nat.
Proof. unfold dense, dense_z. by rewrite !Z.sub_diag. Qed.

(** ** The walks *)

Definition on_face b p : Prop :=
  bp_x p = bp_x (lb_min b) ∨ bp_x p = bp_x (lb_max b) ∨ bp_y p = bp_y (lb_min b) ∨ bp_y p = bp_y (lb_max b) ∨
  bp_z p = bp_z (lb_min b) ∨ bp_z p = bp_z (lb_max b).

(** One step of the iterator: the next cell of the walk, and none of its cells between. *)
Lemma next_position_step b surface p : inside b p →
  match next_position b surface p with
  | Some p' => inside b p' ∧ (dense b p < dense b p')%nat ∧
      ∀ q, inside b q → surface = false ∨ on_face b q → (dense b p < dense b q)%nat → (dense b p' ≤ dense b q)%nat
  | None => ∀ q, inside b q → (dense b q ≤ dense b p)%nat
  end.
Proof.
  intros Hp. assert (Hle : ∀ p', inside b p' → ∀ q, inside b q → ¬ (dense b q < dense b p')%nat → (dense b p' ≤ dense b q)%nat) by lia.
  pose proof Hp as Hp'. apply inside_iff in Hp'. unfold next_position. destruct b as [d [x0 y0 z0] [x1 y1 z1]]. destruct p as [x y z].
  set (b := mk_bounds d (mk_pos x0 y0 z0) (mk_pos x1 y1 z1)) in *. simpl in Hp'.
  cbn [lb_min lb_max b].
  set (jump := surface && negb (x =? x0) && negb (x =? x1) && negb (y =? y0) && negb (y =? y1)).
  destruct (Z.ltb_spec z z1) as [Hz|Hz]; [|destruct (Z.ltb_spec y y1) as [Hy|Hy]; [|destruct (Z.ltb_spec x x1) as [Hx|Hx]]].
  - assert (Hin : inside b (mk_pos x y (if jump then z1 else z + 1))) by (apply inside_iff; simpl; destruct jump; lia).
    split_and!; [done|apply dense_lex; [done..|]; simpl; destruct jump; lia|].
    intros q Hq Hs Hlt. apply Hle; [done..|]. rewrite dense_lex in Hlt |- * by done. apply inside_iff in Hq. simpl in *.
    destruct jump eqn:Ej; [|lia]. unfold jump in Ej. rewrite !andb_true_iff, !negb_true_iff, !Z.eqb_neq in Ej.
    destruct Ej as [[[[Es ?] ?] ?] ?]. destruct Hs as [Hs|Hs]; [congruence|]. unfold on_face in Hs. simpl in *. lia.
  - assert (Hin : inside b (mk_pos x (y + 1) z0)) by (apply inside_iff; simpl; lia).
    split_and!; [done|apply dense_lex; [done..|]; simpl; lia|].
    intros q Hq _ Hlt. apply Hle; [done..|]. rewrite dense_lex in Hlt |- * by done. apply inside_iff in Hq. simpl in *. lia.
  - assert (Hin : inside b (mk_pos (x + 1) y0 z0)) by (apply inside_iff; simpl; lia).
    split_and!; [done|apply dense_lex; [done..|]; simpl; lia|].
    intros q Hq _ Hlt. apply Hle; [done..|]. rewrite dense_lex in Hlt |- * by done. apply inside_iff in Hq. simpl in *. lia.
  - intros q Hq. apply Hle; [done..|]. rewrite dense_lex by done. apply inside_iff in Hq. simpl in *. lia.
Qed.

(** The fuel left is enough when it covers the cells from [p] on. *)
Lemma walk_spec b surface fuel p : inside b p → (volume_of b ≤ fuel + dense b p)%nat →
  let l := walk_positions b surface fuel (Some p) in
  Forall (λ q, inside b q ∧ (dense b p ≤ dense b q)%nat) l ∧
  (∀ q, inside b q → (dense b p ≤ dense b q)%nat → surface = false ∨ on_face b q → q ∈ l) ∧
  StronglySorted (λ q r, dense b q < dense b r)%nat l.
Proof.
  revert p. induction fuel as [|fuel IH]; intros p Hp Hf; simpl.
  { pose proof (dense_lt b p Hp). lia. }
  pose proof (next_position_step b surface p Hp) as Hstep. destruct (next_position b surface p) as [p'|].
  - destruct Hstep as (Hp' & Hlt & Hmin). destruct (IH p' Hp' ltac:(lia)) as (Hall & Hin & Hsort).
    rewrite Forall_forall in Hall. split_and!.
    + constructor; [done|]. apply Forall_forall. intros q Hq. destruct (Hall q Hq). split; [done|lia].
    + intros q Hq Hle Hs. destruct (decide (dense b p = dense b q)) as [He|Hne].
      * apply (dense_inj b) in He; [|done..]. subst q. set_solver.
      * apply elem_of_cons. right. apply Hin; [done|apply Hmin; [done..|lia]|done].
    + constructor; [done|]. apply Forall_forall. intros q Hq. destruct (Hall q Hq). lia.
  - assert (He : walk_positions b surface fuel None = []) by (by destruct fuel). rewrite He. split_and!.
    + by constructor.
    + intros q Hq Hle _. specialize (Hstep q Hq). assert (dense b p = dense b q) as E%(dense_inj b) by lia; [|done..]. set_solver.
    + repeat constructor.
Qed.

Lemma walk_all b surface : grid_ok b →
  let l := walk_positions b surface (volume_of b) (Some (lb_min b)) in
  (∀ q, q ∈ l → inside b q) ∧ (∀ q, inside b q → surface = false ∨ on_face b q → q ∈ l) ∧
  StronglySorted (λ q r, dense b q < dense b r)%nat l.
Proof.
  intros Hb. destruct (walk_spec b surface (volume_of b) (lb_min b)) as (Hall & Hin & Hsort); [by apply min_inside|lia|].
  rewrite Forall_forall in Hall. split_and!; [|intros q Hq Hs; apply Hin; [done|rewrite dense_min; lia|done]|done].
  intros q Hq. by destruct (Hall q Hq).
Qed.

Lemma elem_of_positions b p : grid_ok b → p ∈ positions b ↔ inside b p.
Proof. intros Hb. destruct (walk_all b false Hb) as (H1 & H2 & _). split; [apply H1|]. intros H. apply H2; auto. Qed.

Lemma surface_inside b p : grid_ok b → p ∈ surface_positions b → inside b p.
Proof. intros Hb. apply (walk_all b true Hb). Qed.

Lemma elem_of_surface b p : grid_ok b → inside b p → on_face b p → p ∈ surface_positions b.
Proof. intros Hb Hp Hf. apply (walk_all b true Hb); auto. Qed.

Lemma next_dense b p : inside b p →
  match next_position b false p with
  | Some p' => dense_z b p' = dense_z b p + 1
  | None => dense_z b p = volume_z b - 1
  end.
Proof.
  intros Hp%inside_iff. unfold next_position. destruct b as [d [x0 y0 z0] [x1 y1 z1]]. destruct p as [x y z]. simpl in Hp.
  cbn [lb_min lb_max andb].
  destruct (Z.ltb_spec z z1) as [Hz|Hz]; [|destruct (Z.ltb_spec y y1) as [Hy|Hy]; [|destruct (Z.ltb_spec x x1) as [Hx|Hx]]];
    grid_unfold; simpl; [lia|..].
  - replace z with z1 by lia. ring.
  - replace z with z1 by lia. replace y with y1 by lia. ring.
  - replace z with z1 by lia. replace y with y1 by lia. replace x with x1 by lia. ring.
Qed.

Lemma walk_lookup b fuel p k q : inside b p → walk_positions b false fuel (Some p) !! k = Some q → dense b q = (dense b p + k)%nat.
Proof.
  revert p k. induction fuel as [|fuel IH]; intros p k Hp; simpl; [done|].
  destruct k as [|k]; simpl; [intros [= ->]; lia|].
  pose proof (next_dense b p Hp) as Hd. pose proof (next_position_step b false p Hp) as Hs.
  destruct (next_position b false p) as [p'|]; [|by destruct fuel].
  destruct Hs as (Hp' & _). intros H. apply IH in H; [|done]. rewrite H. unfold dense. rewrite Hd.
  pose proof (dense_z_range b p Hp). lia.
Qed.

Lemma walk_length b fuel p : inside b p → (fuel + dense b p = volume_of b)%nat → length (walk_positions b false fuel (Some p)) = fuel.
Proof.
  revert p. induction fuel as [|fuel IH]; intros p Hp Hf; simpl; [done|]. f_equal.
  pose proof (next_dense b p Hp) as Hd. pose proof (next_position_step b false p Hp) as Hs.
  pose proof (dense_z_range b p Hp). destruct (next_position b false p) as [p'|].
  - destruct Hs as (Hp' & _). apply IH; [done|]. unfold dense in *. rewrite Hd. lia.
  - assert (fuel = 0%nat) as ->; [|done]. unfold dense, volume_of in Hf. fold (volume_z b) in Hf. lia.
Qed.

Lemma positions_length b : grid_ok b → length (positions b) = volume_of b.
Proof. intros Hb. apply walk_length; [by apply min_inside|]. rewrite dense_min. lia. Qed.

Lemma positions_lookup b i p : grid_ok b → positions b !! i = Some p ↔ inside b p ∧ i = dense b p.
Proof.
  intros Hb. assert (Hf : ∀ i p, positions b !! i = Some p → inside b p ∧ i = dense b p).
  { intros j q H. split; [apply (elem_of_positions b q Hb); by apply list_elem_of_lookup_2 in H|].
    apply walk_lookup in H; [|by apply min_inside]. by rewrite dense_min in H. }
  split; [apply Hf|]. intros [Hp ->]. pose proof (dense_lt b p Hp) as Hlt. rewrite <-(positions_length b Hb) in Hlt.
  apply lookup_lt_is_Some in Hlt as [q Hq]. destruct (Hf _ _ Hq) as [Hq' He]. apply dense_inj in He; [|done..]. by subst.
Qed.

(** [bounds.positions().enumerate()] *)
Definition enumerate {A} (l : list A) : list (nat * A) := imap pair l.

Lemma elem_of_enumerate {A} (l : list A) i x : (i, x) ∈ enumerate l ↔ l !! i = Some x.
Proof.
  unfold enumerate. rewrite list_elem_of_lookup. split.
  - intros (j & H). rewrite list_lookup_imap in H. destruct (l !! j) eqn:E; simplify_eq/=. done.
  - intros H. exists i. by rewrite list_lookup_imap, H.
Qed.

Lemma enumerate_nodup {A} (l : list A) : NoDup (enumerate l).
Proof.
  apply (NoDup_fmap_1 fst). assert (fst <$> enumerate l = seq 0 (length l)) as ->; [|apply NoDup_seq].
  apply list_eq. intros i. rewrite list_lookup_fmap. unfold enumerate. rewrite list_lookup_imap.
  destruct (l !! i) as [x|] eqn:E; simpl.
  - symmetry. apply lookup_seq. split; [done|]. by apply lookup_lt_Some in E.
  - symmetry. apply lookup_seq_ge. by apply lookup_ge_None in E.
Qed.

Lemma elem_of_cells b i p : grid_ok b → (i, p) ∈ enumerate (positions b) ↔ inside b p ∧ i = dense b p.
Proof. intros Hb. rewrite elem_of_enumerate. by apply positions_lookup. Qed.

(** Case analysis on a decision of the goal, whatever the hypotheses hold. *)
Tactic Notation "goal_decide" "as" ident(H) :=
  match goal with |- context [@decide ?P ?d] => destruct (@decide P d) as [H|H] end.

(** ** Neighbours *)

Definition shift p o : BlockPos := mk_pos (bp_x p + o.1.1) (bp_y p + o.1.2) (bp_z p + o.2).
Definition i32_pos p : Prop := i32_ok (bp_x p) = true ∧ i32_ok (bp_y p) = true ∧ i32_ok (bp_z p) = true.
#[export] Instance i32_pos_dec p : Decision (i32_pos p).
Proof. apply _. Defined.

Lemma checked_offset_spec p o : pos_checked_offset p o = if decide (i32_pos (shift p o)) then Some (shift p o) else None.
Proof.
  unfold pos_checked_offset, checked_add, checked_i32. destruct o as [[x y] z]. case_decide as H; unfold i32_pos, shift in H; simpl in *.
  - destruct H as (-> & -> & ->). done.
  - destruct (i32_ok (bp_x p + x)), (i32_ok (bp_y p + y)), (i32_ok (bp_z p + z)); simpl; try done. by destruct H.
Qed.

Lemma inside_i32 b p : grid_ok b → inside b p → i32_pos p.
Proof.
  intros Hb (Hx & Hy & Hz)%inside_iff. destruct (go_min _ Hb) as (? & ? & ?), (go_max _ Hb) as (? & ? & ?).
  unfold i32_pos, i32_ok in *. rewrite !andb_true_iff, !Z.leb_le, !Z.ltb_lt in *. lia.
Qed.

Definition opposite o : Z * Z * Z := (- o.1.1, - o.1.2, - o.2).
Definition adjacent p q : Prop := ∃ o, o ∈ NEIGHBOURS ∧ q = shift p o.

Lemma opposite_neighbour o : o ∈ NEIGHBOURS → opposite o ∈ NEIGHBOURS.
Proof. unfold NEIGHBOURS. rewrite !elem_of_cons, elem_of_nil. intros H. destruct_or!; subst; cbn; set_solver. Qed.

Lemma shift_opposite p o : shift (shift p o) (opposite o) = p.
Proof. apply pos_ext; simpl; lia. Qed.

Lemma shift_down_up p : shift (shift p (0, -1, 0)) (0, 1, 0) = p.
Proof. apply pos_ext; simpl; lia. Qed.

Lemma shift_ne p o : o ∈ NEIGHBOURS → shift p o ≠ p.
Proof.
  intros Ho He. pose proof (f_equal bp_x He). pose proof (f_equal bp_y He). pose proof (f_equal bp_z He).
  unfold NEIGHBOURS in Ho. rewrite !elem_of_cons, elem_of_nil in Ho. destruct_or!; subst; simpl in *; lia.
Qed.

(** A cell with a neighbour outside lies on a face. *)
Lemma outside_on_face b p o : inside b p → o ∈ NEIGHBOURS → ¬ inside b (shift p o) → on_face b p.
Proof.
  rewrite !inside_iff. unfold on_face, NEIGHBOURS. rewrite !elem_of_cons, elem_of_nil. intros Hp Ho Hq.
  destruct_or!; subst; simpl in Hq; lia.
Qed.
