(* ===== verification/LightState.v ===== *)
(** * Buffers of the light solver

    [light_solver/cache.rs], [output.rs] and [queue.rs]. A dense buffer is a list; a lazily filled cell of the
    prior cache is the read it would make. An index out of range is [None]. *)
From stdpp Require Import base numbers list gmap.
From S2P Require Import Prelude Packed Bytes Keys Snapshot Light Effects.
#[local] Open Scope Z_scope.

Implicit Types (b : LightBounds) (p : BlockPos) (c : LightChannel).

(** [buffer[i] = v]. *)
Definition set_slot {A} (l : list A) (i : nat) (v : A) : option (list A) :=
  if decide (i < length l)%nat then Some (<[i := v]> l) else None.

(** ** [DensePositionSet] *)

Notation DensePositionSet := (list bool).

Definition dense_set_new (volume : nat) : DensePositionSet := replicate volume false.
Definition contains_at_index (present : DensePositionSet) (index : nat) : option bool := present !! index.
Definition insert_at_index (present : DensePositionSet) (index : nat) : option DensePositionSet := set_slot present index true.
Definition dense_index_of b p : option nat := light_dense_index b (bounds_y_len b) (bounds_z_len b) p.
Definition dense_set_contains b (present : DensePositionSet) p : option bool :=
  match dense_index_of b p with Some index => contains_at_index present index | None => Some false end.
Definition dense_set_insert b (present : DensePositionSet) p : option DensePositionSet :=
  index ← dense_index_of b p; insert_at_index present index.

(** ** Cached inputs *)

Record BlockCache := mk_block_cache { cb_samples : list LightBlockSample; cb_seeds : list Z }.

Definition block_cache_new (source : LightBlockAccess) b : BlockCache :=
  mk_block_cache (ba_sample source <$> positions b) (ba_sky_seed source <$> positions b).
Definition sample_at_index (cache : BlockCache) (index : nat) : option LightBlockSample := cb_samples cache !! index.
Definition sky_seed_at_index (cache : BlockCache) (index : nat) : option Z := cb_seeds cache !! index.

(** [LightBlockAccess for CachedLightBlockAccess]. *)
Definition cached_sample (source : LightBlockAccess) b (cache : BlockCache) p : option LightBlockSample :=
  match dense_index_of b p with Some index => sample_at_index cache index | None => Some (ba_sample source p) end.

(** [CachedLightReadAccess::read_at_index] and [direct_sky_at_index]: the cell is filled on its first read,
    always with the position of its index. *)
Definition read_at_index (prior : LightReadAccess) b (volume index : nat) p c : option Z :=
  if decide (index < volume)%nat then Some (ra_read_light prior (lb_dimension b) p c) else None.
Definition direct_sky_at_index (prior : LightReadAccess) b (volume index : nat) p : option bool :=
  if decide (index < volume)%nat then Some (ra_direct_sky prior (lb_dimension b) p) else None.

(** ** [MutableOutput] *)

Record MutableOutput := mk_output { mo_values : list (Z * Z); mo_known : list bool }.

Definition output_new (volume : nat) : MutableOutput := mk_output (replicate volume (0, 0)) (replicate volume false).

(** [values[..][light_channel_index(channel)]] *)
Definition pair_channel c (v : Z * Z) : Z := match c with BlockLight => v.1 | SkyLight => v.2 end.
Definition set_pair_channel c (value : Z) (v : Z * Z) : Z * Z := match c with BlockLight => (value, v.2) | SkyLight => (v.1, value) end.

(** The neighbour in a direction with its dense index; the outer [None] is an underflow. *)
Definition neighbour b p (index direction : nat) : option (option (BlockPos * nat)) :=
  let '(mk_pos x y z) := p in
  let y_len := bounds_y_len b in let z_len := bounds_z_len b in let x_stride := y_len * z_len in
  let below (stride : Z) (next : BlockPos) :=
    if stride <=? Z.of_nat index then Some (Some (next, Z.to_nat (Z.of_nat index - stride))) else None in
  let above (stride : Z) (next : BlockPos) := Some (Some (next, Z.to_nat (Z.of_nat index + stride))) in
  match direction with
  | 0%nat => if bp_x (lb_min b) <? x then below x_stride (mk_pos (x - 1) y z) else Some None
  | 1%nat => if x <? bp_x (lb_max b) then above x_stride (mk_pos (x + 1) y z) else Some None
  | 2%nat => if bp_y (lb_min b) <? y then below z_len (mk_pos x (y - 1) z) else Some None
  | 3%nat => if y <? bp_y (lb_max b) then above z_len (mk_pos x (y + 1) z) else Some None
  | 4%nat => if bp_z (lb_min b) <? z then below 1 (mk_pos x y (z - 1)) else Some None
  | _ => if z <? bp_z (lb_max b) then above 1 (mk_pos x y (z + 1)) else Some None
  end.

Definition get_at_index (out : MutableOutput) (index : nat) c : option Z := pair_channel c <$> mo_values out !! index.
Definition set_at_index (out : MutableOutput) (index : nat) c (value : Z) : option MutableOutput :=
  v ← mo_values out !! index;
  values ← set_slot (mo_values out) index (set_pair_channel c value v);
  known ← set_slot (mo_known out) index true;
  Some (mk_output values known).

(** ** [LightSolveOutput] *)

Record LightSolveOutput := mk_solve_output {
  so_dimension : Z; so_bounds : LightBounds; so_sub_chunks : gmap SubChunkKey SubChunkLight; so_direct : DensePositionSet;
  so_stats : LightSolveStats }.

Definition output_read_light (o : LightSolveOutput) (dimension : Z) p c : Z :=
  if negb (bool_decide (dimension = so_dimension o)) || negb (bounds_contains (so_bounds o) p) then 0
  else let '(key, (x, y, z)) := split_position dimension p in
       default 0 (l ← so_sub_chunks o !! key; sub_chunk_light_get l c x y z).
Definition light_at (o : LightSolveOutput) p c : Z := output_read_light o (so_dimension o) p c.
Definition output_direct_sky (o : LightSolveOutput) (dimension : Z) p : bool :=
  bool_decide (dimension = so_dimension o) && bounds_contains (so_bounds o) p && default false (dense_set_contains (so_bounds o) (so_direct o) p).
Definition output_boundary_light (o : LightSolveOutput) (dimension : Z) p c : BoundaryLightSample :=
  if negb (bool_decide (dimension = so_dimension o)) || negb (bounds_contains (so_bounds o) p) then BoundaryUnknown
  else if output_read_light o dimension p c =? 0 then BoundaryUnknown else BoundaryUntrusted.
(** [impl LightReadAccess for LightSolveOutput]. *)
Definition output_read_access (o : LightSolveOutput) : LightReadAccess :=
  mk_read_access (output_read_light o) (output_direct_sky o) (output_boundary_light o).

(** [lo..=hi] *)
Definition range_incl (lo hi : Z) : list Z := (λ i, lo + Z.of_nat i) <$> seq 0 (Z.to_nat (hi - lo + 1)).

(** ** Walking the direct sky of a section *)

(** The clipped positions of [for_each_within] with the index each reads, row by row. *)
Definition clipped_rows b (min max : BlockPos) : list (BlockPos * nat) :=
  let low := lb_min b in let high := lb_max b in
  x ← range_incl (Z.max (bp_x min) (bp_x low)) (Z.min (bp_x max) (bp_x high));
  y ← range_incl (Z.max (bp_y min) (bp_y low)) (Z.min (bp_y max) (bp_y high));
  let row := ((Z.to_nat (x - bp_x low) * Z.to_nat (bounds_y_len b) + Z.to_nat (y - bp_y low)) * Z.to_nat (bounds_z_len b))%nat in
  z ← range_incl (Z.max (bp_z min) (bp_z low)) (Z.min (bp_z max) (bp_z high));
  [(mk_pos x y z, (row + Z.to_nat (z - bp_z low))%nat)].
(** The positions given to [visit], in order. *)
Definition for_each_within b (present : DensePositionSet) (min max : BlockPos) : option (list BlockPos) :=
  foldM (λ visited '(p, index), here ← contains_at_index present index; Some (if here : bool then visited ++ [p] else visited))
    [] (clipped_rows b min max).
Definition for_each_direct_sky_in (o : LightSolveOutput) (key : SubChunkKey) : option (list (nat * nat * nat)) :=
  if negb (bool_decide (sk_dimension key = so_dimension o)) then Some []
  else
    let side := 16 in
    let origin := mk_pos (sk_x key * side) (sk_y key * side) (sk_z key * side) in
    let last := mk_pos (bp_x origin + side - 1) (bp_y origin + side - 1) (bp_z origin + side - 1) in
    (λ visited : list BlockPos, (λ p, (split_position (so_dimension o) p).2) <$> visited) <$> for_each_within (so_bounds o) (so_direct o) origin last.

(** One cell of [pack_section]'s inner loop: it reads the dense index [index] and writes the nibble at [packed_index]. *)
Definition pack_cell (out : MutableOutput) (shift : Z) (st : list Z * list Z * bool) (cell : nat * nat) : option (list Z * list Z * bool) :=
  let '(block, sky, any_known) := st in let '(index, packed_index) := cell in
  known ← mo_known out !! index;
  if negb known then Some st
  else
    '(block_value, sky_value) ← mo_values out !! index;
    old_block ← block !! packed_index; old_sky ← sky !! packed_index;
    Some (<[packed_index := Z.lor old_block (to_unsigned 8 (Z.shiftl block_value shift))]> block,
          <[packed_index := Z.lor old_sky (to_unsigned 8 (Z.shiftl sky_value shift))]> sky, true).

(** One row of [pack_section]: the cells with the given [x] and [y]. *)
Definition pack_row b (out : MutableOutput) (origin : BlockPos) (z_min z_max : Z) (st : list Z * list Z * bool) (xy : Z * Z)
    : option (list Z * list Z * bool) :=
  let '(x, y) := xy in
  start ← dense_index_of b (mk_pos x y z_min);
  let local_y := y - bp_y origin in
  let row := Z.lor (Z.shiftl (x - bp_x origin) 7) (Z.shiftr local_y 1) in
  let shift := Z.land local_y 1 * 4 in
  foldM (pack_cell out shift) st
    ((λ '(offset, z), ((start + offset)%nat, Z.to_nat (Z.lor row (Z.shiftl (z - bp_z origin) 3)))) <$> imap pair (range_incl z_min z_max)).

Definition pack_section b (out : MutableOutput) (generation : Z) (key : SubChunkKey) : option (option SubChunkLight) :=
  let side := 16 in let extent := side - 1 in
  let origin := mk_pos (sk_x key * side) (sk_y key * side) (sk_z key * side) in
  let lo := mk_pos (Z.max (bp_x (lb_min b)) (bp_x origin)) (Z.max (bp_y (lb_min b)) (bp_y origin)) (Z.max (bp_z (lb_min b)) (bp_z origin)) in
  let hi := mk_pos (Z.min (bp_x (lb_max b)) (bp_x origin + extent)) (Z.min (bp_y (lb_max b)) (bp_y origin + extent))
              (Z.min (bp_z (lb_max b)) (bp_z origin + extent)) in
  '(block, sky, any_known) ← foldM (pack_row b out origin (bp_z lo) (bp_z hi))
    (replicate PACKED_LIGHT_BYTES 0, replicate PACKED_LIGHT_BYTES 0, false)
    (x ← range_incl (bp_x lo) (bp_x hi); y ← range_incl (bp_y lo) (bp_y hi); [(x, y)]);
  Some (if any_known : bool then Some (sub_chunk_light_from_packed block sky generation) else None).

(** The sections a region meets, in the order of [freeze]'s loops. *)
Definition section_keys b : list SubChunkKey :=
  let lo := (split_position (lb_dimension b) (lb_min b)).1 in let hi := (split_position (lb_dimension b) (lb_max b)).1 in
  x ← range_incl (sk_x lo) (sk_x hi); y ← range_incl (sk_y lo) (sk_y hi); z ← range_incl (sk_z lo) (sk_z hi);
  [mk_sub_chunk_key (lb_dimension b) x y z].

Definition freeze b (out : MutableOutput) (generation : Z) (direct_sky : DensePositionSet) (stats : LightSolveStats)
    : option LightSolveOutput :=
  sub_chunks ← foldM (λ m key, light ← pack_section b out generation key;
                        Some (match light with Some light => <[key := light]> m | None => m end)) ∅ (section_keys b);
  Some (mk_solve_output (lb_dimension b) b sub_chunks direct_sky stats).

(** ** [IncreaseQueue] *)

Definition PENDING : Z := 1.
Definition DIRECT_SKY : Z := 2.

Record IncreaseEntry := mk_increase { ie_position : BlockPos; ie_index : nat; ie_direct_sky : bool }.
Record IncreaseQueue := mk_queue { iq_entries : list (BlockPos * nat); iq_pending : list Z }.
Definition queue_default : IncreaseQueue := mk_queue [] [].

Definition pop_front (q : IncreaseQueue) : option (option IncreaseEntry * IncreaseQueue) :=
  match iq_entries q with
  | [] => Some (None, q)
  | (position, index) :: entries =>
    flags ← iq_pending q !! index;
    pending ← set_slot (iq_pending q) index 0;
    Some (Some (mk_increase position index (negb (Z.land flags DIRECT_SKY =? 0))), mk_queue entries pending)
  end.

(** [while self.pop_front().is_some() {}]: a turn per entry. *)
Fixpoint pop_all (fuel : nat) (q : IncreaseQueue) : option IncreaseQueue :=
  match fuel with
  | O => None
  | S fuel => '(entry, q) ← pop_front q; match entry with None => Some q | Some _ => pop_all fuel q end
  end.
Definition queue_clear (q : IncreaseQueue) : option IncreaseQueue := pop_all (S (length (iq_entries q))) q.

(** [Vec::resize]. *)
Definition resize_with {A} (n : nat) (v : A) (l : list A) : list A := take n l ++ replicate (n - length l) v.

Definition queue_reset (volume : nat) (q : IncreaseQueue) : option IncreaseQueue :=
  _ ← Prelude.assert (Z.of_nat volume <=? 2 ^ 32 - 1);
  q ← queue_clear q;
  Some (mk_queue (iq_entries q) (resize_with volume 0 (iq_pending q))).

(** [enqueue_counted] of [solve.rs]; [saturating_add] on [usize]. *)
Definition enqueue_counted (total amount max : Z) : result LightSolveError Z :=
  let total := Z.min (total + amount) (2 ^ 64 - 1) in
  if max <? total then Err (QueueLimitExceeded max) else Ok total.
