(* ===== verification/LightSolve.v ===== *)
(** * The light solver

    [light_solver/solve.rs] with the reused buffers of [scratch.rs]. Darkening takes a [note] that the whole solve
    leaves empty and [changes.rs] uses to record the cells it darkens. *)
From stdpp Require Import base numbers list gmap.
From S2P Require Import Prelude Packed Bytes Keys Snapshot Light LightGrid LightState Effects.
#[local] Open Scope Z_scope.

Record DarkenEntry := mk_darken { de_position : BlockPos; de_channel : LightChannel; de_old_level : Z; de_direct_sky : bool }.

(** Everything a solve changes: its scratch buffers, its locals, and the cells recorded by [changes.rs]. *)
Record SolveState := mk_solve {
  s_output : MutableOutput; s_darken : list DarkenEntry; s_block : IncreaseQueue; s_sky : IncreaseQueue;
  s_direct : DensePositionSet; s_total : Z; s_stats : LightSolveStats; s_darkened : list (nat * BlockPos) }.

Definition S : Type → Type := Eff SolveState LightSolveError.

Definition with_output (o : MutableOutput) (s : SolveState) : SolveState :=
  mk_solve o (s_darken s) (s_block s) (s_sky s) (s_direct s) (s_total s) (s_stats s) (s_darkened s).
Definition with_darken (d : list DarkenEntry) (s : SolveState) : SolveState :=
  mk_solve (s_output s) d (s_block s) (s_sky s) (s_direct s) (s_total s) (s_stats s) (s_darkened s).
Definition queue_of (c : LightChannel) (s : SolveState) : IncreaseQueue := match c with BlockLight => s_block s | SkyLight => s_sky s end.
Definition with_queue (c : LightChannel) (q : IncreaseQueue) (s : SolveState) : SolveState :=
  match c with
  | BlockLight => mk_solve (s_output s) (s_darken s) q (s_sky s) (s_direct s) (s_total s) (s_stats s) (s_darkened s)
  | SkyLight => mk_solve (s_output s) (s_darken s) (s_block s) q (s_direct s) (s_total s) (s_stats s) (s_darkened s)
  end.
Definition with_direct (d : DensePositionSet) (s : SolveState) : SolveState :=
  mk_solve (s_output s) (s_darken s) (s_block s) (s_sky s) d (s_total s) (s_stats s) (s_darkened s).
Definition with_total (t : Z) (s : SolveState) : SolveState :=
  mk_solve (s_output s) (s_darken s) (s_block s) (s_sky s) (s_direct s) t (s_stats s) (s_darkened s).
Definition on_stats (f : LightSolveStats → LightSolveStats) (s : SolveState) : SolveState :=
  mk_solve (s_output s) (s_darken s) (s_block s) (s_sky s) (s_direct s) (s_total s) (f (s_stats s)) (s_darkened s).
Definition with_darkened (l : list (nat * BlockPos)) (s : SolveState) : SolveState :=
  mk_solve (s_output s) (s_darken s) (s_block s) (s_sky s) (s_direct s) (s_total s) (s_stats s) l.

(** The buffers that outlive a solve. *)
Record LightSolverScratch := mk_scratch {
  sc_output : MutableOutput; sc_darken : list DarkenEntry; sc_block : IncreaseQueue; sc_sky : IncreaseQueue }.
Definition scratch_default : LightSolverScratch := mk_scratch (mk_output [] []) [] queue_default queue_default.
Definition scratch_of (s : SolveState) : LightSolverScratch := mk_scratch (s_output s) (s_darken s) (s_block s) (s_sky s).

(** ** Small steps *)

Definition load (index : nat) (c : LightChannel) : S Z :=
  out ← eff_gets s_output; eff_expect (get_at_index out index c).
Definition store (index : nat) (c : LightChannel) (value : Z) : S unit :=
  eff_update (λ s, (λ o, with_output o s) <$> set_at_index (s_output s) index c value).
Definition direct_contains (index : nat) : S bool :=
  present ← eff_gets s_direct; eff_expect (contains_at_index present index).
Definition direct_insert (index : nat) : S unit :=
  eff_update (λ s, (λ d, with_direct d s) <$> insert_at_index (s_direct s) index).
Definition enqueue (amount max : Z) : S unit :=
  total ← eff_gets s_total;
  match enqueue_counted total amount max with
  | Ok total => eff_modify (with_total total)
  | Err e => eff_throw e
  end.

(** [IncreaseQueue::push_back] on the queue of a channel. *)
Definition push_back (c : LightChannel) (entry : IncreaseEntry) (max : Z) : S unit :=
  q ← eff_gets (queue_of c);
  flags ← eff_expect (iq_pending q !! ie_index entry);
  _ ← (if flags =? 0 then
         _ ← enqueue 1 max;
         eff_modify (with_queue c (mk_queue
           (iq_entries q ++ [(ie_position entry, Z.to_nat (to_unsigned 32 (Z.of_nat (ie_index entry))))]) (iq_pending q)))
       else mret tt);
  eff_update (λ s, (λ pending, with_queue c (mk_queue (iq_entries (queue_of c s)) pending) s) <$>
    set_slot (iq_pending (queue_of c s)) (ie_index entry)
      (Z.lor flags (Z.lor PENDING (if ie_direct_sky entry then DIRECT_SKY else 0)))).
Definition queue_pop (c : LightChannel) : S (option IncreaseEntry) :=
  q ← eff_gets (queue_of c);
  '(entry, q) ← eff_expect (pop_front q);
  _ ← eff_modify (with_queue c q); mret entry.
Definition queue_len (c : LightChannel) (s : SolveState) : Z := Z.of_nat (length (iq_entries (queue_of c s))).

(** [darken.clear()] and [reset] of both increase queues. *)
Definition reset_queue (c : LightChannel) (volume : nat) : S unit :=
  eff_update (λ s, (λ q, with_queue c q s) <$> queue_reset volume (queue_of c s)).
Definition reset_queues (volume : nat) : S unit :=
  _ ← eff_modify (with_darken []); _ ← reset_queue BlockLight volume; reset_queue SkyLight volume.

Definition raise_peak (len : SolveState → Z) : S unit :=
  eff_modify (λ s, on_stats (λ st, mk_stats (darken_seeded st) (darken_dequeued st) (increase_dequeued st) (Z.max (queue_peak st) (len s))) s).
Definition count_seeded : S unit :=
  eff_modify (on_stats (λ st, mk_stats (darken_seeded st + 1) (darken_dequeued st) (increase_dequeued st) (queue_peak st))).
Definition count_darkened : S unit :=
  eff_modify (on_stats (λ st, mk_stats (darken_seeded st) (darken_dequeued st + 1) (increase_dequeued st) (queue_peak st))).
Definition count_increased : S unit :=
  eff_modify (on_stats (λ st, mk_stats (darken_seeded st) (darken_dequeued st) (increase_dequeued st + 1) (queue_peak st))).

Definition push_darken (entry : DarkenEntry) : S unit := eff_modify (λ s, with_darken (s_darken s ++ [entry]) s).
Definition pop_darken : S (option DarkenEntry) := λ s,
  match s_darken s with [] => Some (Ok None, s) | entry :: rest => Some (Ok (Some entry), with_darken rest s) end.
Definition darken_len (s : SolveState) : Z := Z.of_nat (length (s_darken s)).

Definition is_sky (c : LightChannel) : bool := match c with SkyLight => true | BlockLight => false end.
(** [u8::saturating_sub] *)
Definition saturating_sub (a b : Z) : Z := Z.max 0 (a - b).
Definition up : Z * Z * Z := (0, 1, 0).
Definition down : Z * Z * Z := (0, -1, 0).
Definition CHANNELS : list LightChannel := [BlockLight; SkyLight].

Section code.
Context (blocks : LightBlockAccess) (prior : LightReadAccess) (b : LightBounds) (profile : DimensionLightProfile).
Context (max_queue : Z) (volume : nat) (cache : BlockCache).
Implicit Types (p : BlockPos) (c : LightChannel).

Definition filter_at (index : nat) : S (option Z) := eff_expect (sample_filter <$> sample_at_index cache index).
Definition direct_at (c : LightChannel) (index : nat) (p : BlockPos) : S bool :=
  if is_sky c then eff_expect (direct_sky_at_index prior b volume index p) else mret false.

Definition read_prior (index : nat) p c : S Z :=
  value ← eff_expect (read_at_index prior b volume index p c);
  if 15 <? value then eff_throw (LightValueOutOfRange value) else mret value.

Definition local_base (index : nat) c : S Z :=
  sample ← eff_expect (sample_at_index cache index);
  match sample_filter sample with
  | None => mret 0
  | Some filter =>
    match c with
    | BlockLight => mret (sample_emission sample)
    | SkyLight =>
      seed ← eff_expect (sky_seed_at_index cache index);
      if 15 <? seed then eff_throw (LightValueOutOfRange seed)
      else mret (if allows_sky profile then saturating_sub seed filter else 0)
    end
  end.

Definition incoming_level (source destination_filter : Z) c (destination_to_source : Z * Z * Z) (source_is_direct_sky : bool) : Z :=
  if is_sky c && direct_sky_down profile && bool_decide (destination_to_source = up) && (source =? 15) && source_is_direct_sky
     && (destination_filter =? 0)
  then 15
  else saturating_sub source (Z.max destination_filter 1).

(** The loop body of [prior_supports_level]: whether the neighbour at an offset supports the level. *)
Definition neighbour_supports p (filter : Z) c (required : Z) (offset : Z * Z * Z) : S bool :=
  match pos_checked_offset p offset with
  | None => mret false
  | Some q =>
    let index := dense_index_of b q in
    sample ← eff_expect (match index with None => Some (ba_sample blocks q) | Some index => sample_at_index cache index end);
    match sample_filter sample with
    | None => mret false
    | Some _ =>
      source ← match index with
        | Some index => level ← read_prior index q c; direct_sky ← direct_at c index q; mret (Some (level, direct_sky))
        | None => mret (trusted_parts (ra_boundary_light prior (lb_dimension b) q c))
        end;
      match source with
      | None => mret false
      | Some (level, direct_sky) => mret (required <=? incoming_level level filter c offset direct_sky)
      end
    end
  end.

Definition support_order c : list (Z * Z * Z) :=
  if is_sky c then [up; (-1, 0, 0); (1, 0, 0); down; (0, 0, -1); (0, 0, 1)] else NEIGHBOURS.

Definition prior_supports_level p (index : nat) c (required : Z) : S bool :=
  filter ← filter_at index;
  match filter with
  | None => mret false
  | Some filter =>
    base ← local_base index c;
    if required <=? base then mret true
    else if is_sky c && negb (allows_sky profile) then mret false
    else any_of (neighbour_supports p filter c required) (support_order c)
  end.

(** ** Loading and darkening *)

Definition load_prior (cell : nat * BlockPos) : S unit :=
  let '(index, p) := cell in
  filter ← filter_at index;
  match filter with
  | None => mret tt
  | Some _ => for_each (λ c, old ← read_prior index p c; store index c old) CHANNELS
  end.

(** A cell that loses its light goes back to its own source and is queued with its old level. *)
Definition darken_cell (note : nat * BlockPos → S unit) (index : nat) p c (base old : Z) : S unit :=
  _ ← store index c base;
  _ ← note (index, p);
  _ ← enqueue 1 max_queue;
  direct_sky ← direct_at c index p;
  push_darken (mk_darken p c old direct_sky).

Definition seed_darken_channel (note : nat * BlockPos → S unit) (cell : nat * BlockPos) c : S unit :=
  let '(index, p) := cell in
  old ← load index c;
  base ← local_base index c;
  supported ← (if old =? 0 then mret true else prior_supports_level p index c old);
  if supported : bool then mret tt
  else _ ← darken_cell note index p c base old; count_seeded.

Definition seed_darken (note : nat * BlockPos → S unit) (cell : nat * BlockPos) : S unit :=
  filter ← filter_at cell.1;
  match filter with None => mret tt | Some _ => for_each (seed_darken_channel note cell) CHANNELS end.

Definition depends_on_removed (entry : DarkenEntry) (offset : Z * Z * Z) (current : Z) : bool :=
  (current <? de_old_level entry)
  || (is_sky (de_channel entry) && direct_sky_down profile && de_direct_sky entry && bool_decide (offset = down)
      && (current =? 15) && (de_old_level entry =? 15)).

Definition darken_neighbour (note : nat * BlockPos → S unit) (entry : DarkenEntry) (entry_index : nat) (direction : nat * (Z * Z * Z)) : S unit :=
  next ← eff_expect (neighbour b (de_position entry) entry_index direction.1);
  match next with
  | None => mret tt
  | Some (next, index) =>
    filter ← filter_at index;
    match filter with
    | None => mret tt
    | Some _ =>
      current ← load index (de_channel entry);
      base ← local_base index (de_channel entry);
      if (base <? current) && depends_on_removed entry direction.2 current then
        _ ← darken_cell note index next (de_channel entry) base current;
        raise_peak darken_len
      else mret tt
    end
  end.

Definition darken_entry (note : nat * BlockPos → S unit) (entry : DarkenEntry) : S unit :=
  _ ← count_darkened;
  entry_index ← eff_expect (dense_index_of b (de_position entry));
  for_each (darken_neighbour note entry entry_index) (enumerate NEIGHBOURS).

(** A turn per entry; an entry is counted before it is queued, so [max_queue] bounds the turns. *)
Definition fuel : nat := Datatypes.S (Z.to_nat max_queue).
Definition darken_all (note : nat * BlockPos → S unit) (cells : list (nat * BlockPos)) : S unit :=
  _ ← for_each (seed_darken note) cells;
  _ ← raise_peak darken_len;
  drain pop_darken (darken_entry note) fuel.

Definition raise_to_base (index : nat) : S unit :=
  filter ← filter_at index;
  match filter with
  | None => mret tt
  | Some _ => for_each (λ c,
      base ← local_base index c; level ← load index c;
      if level <? base then store index c base else mret tt) CHANNELS
  end.

(** ** Increasing *)

Definition seed_increase_channel (spreads : nat → S bool) (cell : nat * BlockPos) (filter : Z) c : S unit :=
  let '(index, p) := cell in
  level ← load index c;
  if level =? 0 then mret tt
  else
    is_direct ← (if is_sky c && direct_sky_down profile && (level =? 15) && (filter =? 0) then
                   base ← local_base index c;
                   if base =? 15 then mret true else eff_expect (direct_sky_at_index prior b volume index p)
                 else mret false);
    _ ← (if is_direct : bool then direct_insert index else mret tt);
    spreading ← spreads index;
    if spreading : bool then push_back c (mk_increase p index is_direct) max_queue else mret tt.

Definition seed_increase (spreads : nat → S bool) (cell : nat * BlockPos) : S unit :=
  filter ← filter_at cell.1;
  match filter with None => mret tt | Some filter => for_each (seed_increase_channel spreads cell filter) CHANNELS end.

(** The strongest light a halo cell at [offset] sends into the face cell [p]. *)
Definition halo_candidate p (filter : Z) c (best : Z * bool) (offset : Z * Z * Z) : option (Z * bool) :=
  match pos_checked_offset p offset with
  | None => Some best
  | Some q =>
    if bounds_contains b q then Some best
    else
      sample ← cached_sample blocks b cache q;
      match sample_filter sample, trusted_parts (ra_boundary_light prior (lb_dimension b) q c) with
      | Some _, Some (level, boundary_is_direct) =>
        if level =? 0 then Some best
        else
          let direct := is_sky c && direct_sky_down profile && bool_decide (offset = up) && (level =? 15) && boundary_is_direct && (filter =? 0) in
          let incoming := if direct then 15 else saturating_sub level (Z.max filter 1) in
          Some (if (best.1 <? incoming) || ((incoming =? best.1) && direct) then (incoming, direct) else best)
      | _, _ => Some best
      end
  end.

Definition seed_halo_cell c p : S unit :=
  sample ← eff_expect (cached_sample blocks b cache p);
  match sample_filter sample with
  | None => mret tt
  | Some filter =>
    '(candidate, is_direct) ← eff_expect (foldM (halo_candidate p filter c) (0, false) NEIGHBOURS);
    index ← eff_expect (dense_index_of b p);
    current ← load index c;
    gains_direct ← (if is_direct : bool then
                      present ← eff_gets s_direct;
                      contained ← eff_expect (dense_set_contains b present p); mret (negb contained)
                    else mret false);
    if (current <? candidate) || ((candidate =? current) && negb (candidate =? 0) && gains_direct) then
      _ ← (if current <? candidate then store index c candidate else mret tt);
      _ ← (if is_direct : bool then eff_update (λ s, (λ d, with_direct d s) <$> dense_set_insert b (s_direct s) p) else mret tt);
      push_back c (mk_increase p index is_direct) max_queue
    else mret tt
  end.

Definition seed_boundary_from_halo c : S unit :=
  if is_sky c && negb (allows_sky profile) then mret tt
  else for_each (seed_halo_cell c) (surface_positions b).

Definition increase_neighbour c (entry : IncreaseEntry) (source : Z) (direction : nat * (Z * Z * Z)) : S unit :=
  next ← eff_expect (neighbour b (ie_position entry) (ie_index entry) direction.1);
  match next with
  | None => mret tt
  | Some (next, index) =>
    filter ← filter_at index;
    match filter with
    | None => mret tt
    | Some filter =>
      let continues_direct := is_sky c && direct_sky_down profile && ie_direct_sky entry && bool_decide (direction.2 = down)
                              && (source =? 15) && (filter =? 0) in
      let candidate := if continues_direct then 15 else saturating_sub source (Z.max filter 1) in
      current ← load index c;
      gains_direct ← (if continues_direct then contained ← direct_contains index; mret (negb contained) else mret false);
      if (current <? candidate) || ((candidate =? current) && gains_direct) then
        _ ← (if current <? candidate then store index c candidate else mret tt);
        _ ← (if continues_direct then direct_insert index else mret tt);
        _ ← push_back c (mk_increase next index continues_direct) max_queue;
        raise_peak (queue_len c)
      else mret tt
    end
  end.

Definition increase_entry c (entry : IncreaseEntry) : S unit :=
  _ ← count_increased;
  source ← load (ie_index entry) c;
  for_each (increase_neighbour c entry source) (enumerate NEIGHBOURS).

Definition propagate c : S unit :=
  _ ← seed_boundary_from_halo c;
  _ ← raise_peak (queue_len c);
  drain (queue_pop c) (increase_entry c) fuel.

Definition solve_body : S unit :=
  let cells := enumerate (positions b) in
  _ ← reset_queues volume;
  _ ← for_each load_prior cells;
  _ ← darken_all (λ _, mret tt) cells;
  _ ← for_each raise_to_base (seq 0 volume);
  _ ← eff_modify (with_direct (dense_set_new volume));
  _ ← for_each (seed_increase (λ _, mret true)) cells;
  _ ← propagate BlockLight;
  propagate SkyLight.
End code.

(** The buffers a solve starts with: a cleared output, and queues as the last solve left them. *)
Definition solve_start (volume : nat) (scratch : LightSolverScratch) : SolveState :=
  mk_solve (output_new volume) (sc_darken scratch) (sc_block scratch) (sc_sky scratch) [] 0 stats_default [].

(** [volume] against [limits]. *)
Definition checked_volume (b : LightBounds) (limits : SolverLimits) : result LightSolveError Z :=
  match bounds_volume b with
  | None => Err (VoxelLimitExceeded (2 ^ 64 - 1) (max_voxels limits))
  | Some volume => if max_voxels limits <? volume then Err (VoxelLimitExceeded volume (max_voxels limits)) else Ok volume
  end.

Definition solve_light_with_scratch (blocks : LightBlockAccess) (prior : LightReadAccess) (b : LightBounds) (generation : Z)
    (profile : DimensionLightProfile) (limits : SolverLimits) (scratch : LightSolverScratch)
    : option (result LightSolveError LightSolveOutput * LightSolverScratch) :=
  match checked_volume b limits with
  | Err e => Some (Err e, scratch)
  | Ok v =>
    let volume := Z.to_nat v in
    '(r, s) ← solve_body blocks prior b profile (max_queue_entries limits) volume (block_cache_new blocks b) (solve_start volume scratch);
    match r with
    | Err e => Some (Err e, scratch_of s)
    | Ok _ => out ← freeze b (s_output s) generation (s_direct s) (s_stats s); Some (Ok out, scratch_of s)
    end
  end.

Definition solve_light (blocks : LightBlockAccess) (prior : LightReadAccess) (b : LightBounds) (generation : Z)
    (profile : DimensionLightProfile) (limits : SolverLimits) : option (result LightSolveError LightSolveOutput) :=
  fst <$> solve_light_with_scratch blocks prior b generation profile limits scratch_default.
