(* ===== verification/LightField.v ===== *)
(** * What light is

    The specification of the light solver, free of queues, order and history: which levels reach a cell, and
    which cells the sky reaches straight down. A solved field has the brightest of those levels everywhere. *)
From stdpp Require Import base numbers list gmap sets.
From S2P Require Import Prelude Packed Bytes Keys Snapshot Light LightGrid LightState LightSolve.
#[local] Open Scope Z_scope.

(** What the solver may assume of its inputs: the ranges their types enforce ([LightProperties::new],
    [BoundaryLightSample::trusted], [u8]). *)
Class LightInputs (blocks : LightBlockAccess) (prior : LightReadAccess) : Prop := {
  sample_ok p properties : ba_sample blocks p = Resident properties → 0 ≤ lp_emission properties ≤ 15 ∧ 0 ≤ lp_filter properties ≤ 15;
  seed_nonneg p : 0 ≤ ba_sky_seed blocks p;
  read_nonneg d p c : 0 ≤ ra_read_light prior d p c;
  boundary_ok d p c level direct : trusted_parts (ra_boundary_light prior d p c) = Some (level, direct) → 0 ≤ level ≤ 15;
}.

Definition attenuate (level filter : Z) : Z := saturating_sub level (Z.max filter 1).

Section field.
Context (blocks : LightBlockAccess) (prior : LightReadAccess) (b : LightBounds) (profile : DimensionLightProfile).
Implicit Types (p q : BlockPos) (c : LightChannel) (o : Z * Z * Z).

Definition filter_of p : option Z := sample_filter (ba_sample blocks p).
(** A cell's own light. *)
Definition source_level c p : Z :=
  match filter_of p with
  | None => 0
  | Some filter =>
    match c with
    | BlockLight => sample_emission (ba_sample blocks p)
    | SkyLight => if allows_sky profile then saturating_sub (ba_sky_seed blocks p) filter else 0
    end
  end.
(** Trusted light of a known cell outside the region. *)
Definition halo c q : option (Z * bool) :=
  if decide (i32_pos q ∧ ¬ inside b q) then filter_of q ≫= λ _, trusted_parts (ra_boundary_light prior (lb_dimension b) q c) else None.
Definition spreads c : Prop := c = SkyLight → allows_sky profile = true.

(** Cells the sky reaches straight down. *)
Inductive direct : BlockPos → Prop :=
  | direct_source p : inside b p → direct_sky_down profile = true → filter_of p = Some 0 → source_level SkyLight p = 15 → direct p
  | direct_halo p : inside b p → direct_sky_down profile = true → filter_of p = Some 0 → halo SkyLight (shift p up) = Some (15, true) → direct p
  | direct_below p : inside b p → direct_sky_down profile = true → filter_of p = Some 0 → direct (shift p up) → direct p.

(** The levels that reach a cell. *)
Inductive lit c : BlockPos → Z → Prop :=
  | lit_source p filter : inside b p → filter_of p = Some filter → lit c p (source_level c p)
  | lit_halo p filter o level d : inside b p → filter_of p = Some filter → o ∈ NEIGHBOURS → spreads c →
      halo c (shift p o) = Some (level, d) → lit c p (attenuate level filter)
  | lit_step p filter o level : inside b p → filter_of p = Some filter → o ∈ NEIGHBOURS → lit c (shift p o) level → lit c p (attenuate level filter)
  | lit_direct p : c = SkyLight → direct p → lit c p 15.

Definition brightest c p (v : Z) : Prop :=
  match filter_of p with None => v = 0 | Some _ => lit c p v ∧ ∀ w, lit c p w → w ≤ v end.

(** [L] and [D] are the light of the region and its direct-sky provenance. *)
Definition solved (L : LightChannel → BlockPos → Z) (D : BlockPos → bool) : Prop :=
  ∀ p, inside b p → (∀ c, brightest c p (L c p)) ∧ (D p = true ↔ direct p).

Definition seeds_ok : Prop := ∀ p, inside b p → filter_of p ≠ None → ba_sky_seed blocks p ≤ 15.

(** ** Facts *)

Lemma solved_unique L D L' D' p c : inside b p → solved L D → solved L' D' → L c p = L' c p ∧ D p = D' p.
Proof.
  intros Hp H H'. destruct (H p Hp) as [Hl Hd], (H' p Hp) as [Hl' Hd']. split.
  - specialize (Hl c). specialize (Hl' c). unfold brightest in *. destruct (filter_of p); [|congruence].
    destruct Hl as [H1 H2], Hl' as [H3 H4]. specialize (H2 _ H3). specialize (H4 _ H1). lia.
  - apply eq_true_iff_eq. by rewrite Hd, Hd'.
Qed.

Lemma down_allows : direct_sky_down profile = true → allows_sky profile = true.
Proof. by destruct profile. Qed.

Lemma direct_facts p : direct p → inside b p ∧ direct_sky_down profile = true ∧ filter_of p = Some 0.
Proof. by destruct 1. Qed.

Lemma lit_inside c p v : lit c p v → inside b p ∧ ∃ filter, filter_of p = Some filter.
Proof. destruct 1; eauto. subst. destruct (direct_facts p) as (? & _ & ?); eauto. Qed.

Lemma lit_spreads c p v : lit c p v → 0 < v → spreads c.
Proof.
  induction 1 as [p f Hp Hf|p f o l d Hp Hf Ho Hs Hh|p f o l Hp Hf Ho Hl IH|p ? Hd]; intros Hv.
  - intros ->. unfold source_level in Hv. rewrite Hf in Hv. by destruct (allows_sky profile).
  - done.
  - apply IH. unfold attenuate, saturating_sub in Hv. lia.
  - intros _. apply down_allows. by destruct (direct_facts _ Hd) as (_ & ? & _).
Qed.

Context `{Inputs : !LightInputs blocks prior}.

Lemma filter_range p filter : filter_of p = Some filter → 0 ≤ filter ≤ 15.
Proof using Inputs.
  unfold filter_of, sample_filter. destruct (ba_sample blocks p) eqn:E; [done|intros [= <-]; lia|].
  intros [= <-]. apply (sample_ok p _ E).
Qed.

Lemma source_range c p : (filter_of p ≠ None → ba_sky_seed blocks p ≤ 15) → 0 ≤ source_level c p ≤ 15.
Proof using Inputs.
  intros Hs. unfold source_level. destruct (filter_of p) as [f|] eqn:E; [|lia]. specialize (Hs ltac:(done)).
  pose proof (filter_range p f E). pose proof (seed_nonneg (prior := prior) p).
  unfold filter_of in E. destruct c; [unfold sample_emission; destruct (ba_sample blocks p) eqn:E'; try lia; by apply (sample_ok p)|].
  unfold saturating_sub. destruct (allows_sky profile); lia.
Qed.

Lemma halo_range c q level d : halo c q = Some (level, d) → 0 ≤ level ≤ 15.
Proof using Inputs.
  unfold halo. case_decide; [|done]. destruct (filter_of q); simpl; [|done]. apply boundary_ok.
Qed.

Lemma attenuate_range level filter : 0 ≤ level ≤ 15 → 0 ≤ attenuate level filter ≤ 14.
Proof. unfold attenuate, saturating_sub. lia. Qed.

Context (Seeds : seeds_ok).

Lemma source_range_inside c p : inside b p → 0 ≤ source_level c p ≤ 15.
Proof using Inputs Seeds. intros Hp. apply source_range. by apply Seeds. Qed.

Lemma lit_range c p v : lit c p v → 0 ≤ v ≤ 15.
Proof using Inputs Seeds.
  induction 1 as [p f Hp Hf|p f o l d Hp Hf Ho Hs Hh|p f o l Hp Hf Ho _ IH|p]; [by apply source_range_inside|..|lia].
  - apply halo_range in Hh. pose proof (attenuate_range l f). lia.
  - pose proof (attenuate_range l f). lia.
Qed.

(** Full sky light comes only straight down, where the profile has direct sky. *)
Lemma full_sky_direct p : direct_sky_down profile = true → lit SkyLight p 15 → direct p.
Proof using Inputs Seeds.
  intros Hd Hlit. remember 15 as v eqn:Hv.
  destruct Hlit as [p f Hp Hf|p f o l d Hp Hf Ho Hs Hh|p f o l Hp Hf Ho Hl|p _ Hdir]; [|exfalso..|done].
  - apply direct_source; [done..| |done]. pose proof (filter_range p f Hf) as Hr. pose proof (Seeds p Hp ltac:(congruence)).
    unfold source_level in Hv. rewrite Hf, (down_allows Hd) in Hv. unfold saturating_sub in Hv. rewrite Hf. f_equal. lia.
  - apply halo_range in Hh. pose proof (attenuate_range l f Hh). lia.
  - apply lit_range in Hl. pose proof (attenuate_range l f Hl). lia.
Qed.

(** A field closed under the rules is at least as bright as the light. *)
Section closed.
Context (L : LightChannel → BlockPos → Z) (D : BlockPos → bool).
Record closed c : Prop := {
  cl_source p filter : inside b p → filter_of p = Some filter → source_level c p ≤ L c p;
  cl_halo p filter o level d : inside b p → filter_of p = Some filter → o ∈ NEIGHBOURS → spreads c →
    halo c (shift p o) = Some (level, d) → attenuate level filter ≤ L c p;
  cl_step p filter o : inside b p → filter_of p = Some filter → o ∈ NEIGHBOURS → inside b (shift p o) → filter_of (shift p o) ≠ None →
    attenuate (L c (shift p o)) filter ≤ L c p;
}.
Record closed_direct : Prop := {
  cd_source p : inside b p → direct_sky_down profile = true → filter_of p = Some 0 → source_level SkyLight p = 15 → D p = true;
  cd_halo p : inside b p → direct_sky_down profile = true → filter_of p = Some 0 → halo SkyLight (shift p up) = Some (15, true) → D p = true;
  cd_below p : inside b p → direct_sky_down profile = true → filter_of p = Some 0 → inside b (shift p up) → D (shift p up) = true → D p = true;
  cd_level p : inside b p → D p = true → L SkyLight p = 15;
}.

Lemma closed_direct_complete p : closed_direct → direct p → D p = true.
Proof using Type.
  intros Hc. induction 1 as [p Hp Hd Hf Hs|p Hp Hd Hf Hh|p Hp Hd Hf Hdir IH].
  - by apply (cd_source Hc).
  - by apply (cd_halo Hc).
  - apply (cd_below Hc); [done..| |done]. by destruct (direct_facts _ Hdir).
Qed.

Lemma closed_complete c p v : closed c → (c = SkyLight → closed_direct) → lit c p v → v ≤ L c p.
Proof using Type.
  intros Hc Hd. induction 1 as [p f Hp Hf|p f o l d Hp Hf Ho Hs Hh|p f o l Hp Hf Ho Hl IH|p ? Hdir].
  - by eapply cl_source.
  - by eapply cl_halo.
  - destruct (lit_inside _ _ _ Hl) as (Hq & f' & Hf'). etransitivity; [|eapply cl_step; [done..|by rewrite Hf']].
    unfold attenuate, saturating_sub. lia.
  - subst c. rewrite (cd_level (Hd eq_refl)); [lia| |]; [by destruct (direct_facts p Hdir)|]. apply closed_direct_complete; auto.
Qed.

(** Light that some level reaches, and no more. *)
Definition sound c : Prop := ∀ p, inside b p →
  match filter_of p with None => L c p = 0 | Some _ => ∃ v, lit c p v ∧ L c p ≤ v end.

Lemma closed_sound_solved : (∀ c, closed c) → closed_direct → (∀ c, sound c) →
  (∀ p, inside b p → D p = true → direct p) → solved L D.
Proof using Type.
  intros Hc Hd Hs Hds p Hp. split.
  - intros c. unfold brightest. specialize (Hs c p Hp). destruct (filter_of p) as [f|]; [|done].
    destruct Hs as (v & Hv & Hle). assert (Hmax : ∀ w, lit c p w → w ≤ L c p) by (intros w; apply closed_complete; auto).
    split; [|done]. assert (L c p = v) as -> by (apply Z.le_antisymm; [done|by apply Hmax]). done.
  - split; [by apply Hds|]. by apply closed_direct_complete.
Qed.
End closed.

(** ** Support in the light before a solve *)

Definition prior_level c p : Z := ra_read_light prior (lb_dimension b) p c.
Definition prior_direct p : bool := ra_direct_sky prior (lb_dimension b) p.
Definition priors_ok : Prop := ∀ c p, inside b p → filter_of p ≠ None → prior_level c p ≤ 15.

(** The level and provenance a neighbour offers before the solve. *)
Definition offered c q : option (Z * bool) :=
  if decide (inside b q) then filter_of q ≫= λ _, Some (prior_level c q, is_sky c && prior_direct q) else halo c q.
Definition supported c p (v : Z) : Prop := ∃ filter, filter_of p = Some filter ∧
  (v ≤ source_level c p ∨
   spreads c ∧ ∃ o level d, o ∈ NEIGHBOURS ∧ offered c (shift p o) = Some (level, d) ∧ v ≤ incoming_level profile level filter c o d).

Lemma incoming_cases level filter c o d :
  incoming_level profile level filter c o d =
    (if decide (c = SkyLight ∧ direct_sky_down profile = true ∧ o = up ∧ level = 15 ∧ d = true ∧ filter = 0) then 15 else attenuate level filter).
Proof using Type.
  unfold incoming_level, attenuate. destruct (decide (_ ∧ _)) as [H|H].
  - destruct H as (-> & -> & -> & -> & -> & ->). done.
  - destruct (is_sky c && _ && _ && _ && _ && _) eqn:E; [|done]. destruct H. rewrite !andb_true_iff in E.
    destruct E as [[[[[E1 E2] E3%bool_decide_eq_true] E4%Z.eqb_eq] E5] E6%Z.eqb_eq]. by destruct c; [|split_and!].
Qed.

(** Cells whose light was supported, by cells of which the same holds, show light that is really there. *)
Section kept.
Context (kept : LightChannel → BlockPos → Prop) (Priors : priors_ok).
Hypothesis kept_supported : ∀ c p, inside b p → filter_of p ≠ None → kept c p → 0 < prior_level c p → supported c p (prior_level c p).
Hypothesis kept_supporter : ∀ c p o filter, inside b p → filter_of p = Some filter → kept c p → o ∈ NEIGHBOURS →
  inside b (shift p o) → filter_of (shift p o) ≠ None → source_level c p < prior_level c p →
  prior_level c p ≤ incoming_level profile (prior_level c (shift p o)) filter c o (is_sky c && prior_direct (shift p o)) → kept c (shift p o).

Definition rank c p : nat := Z.to_nat ((15 - prior_level c p) * bounds_y_len b + (bp_y (lb_max b) - bp_y p)).

Lemma kept_lit c p : inside b p → filter_of p ≠ None → kept c p → ∃ v, lit c p v ∧ prior_level c p ≤ v.
Proof using All.
  remember (rank c p) as n eqn:Hn. revert p Hn. induction n as [n IH] using lt_wf_ind. intros p -> Hp Hf Hk.
  assert (Hsource : ∀ v, v ≤ source_level c p → ∃ w, lit c p w ∧ v ≤ w).
  { intros v Hv. exists (source_level c p). destruct (filter_of p) as [f|] eqn:E; [|done]. split; [by eapply lit_source|done]. }
  destruct (decide (prior_level c p ≤ source_level c p)) as [Hs|Hs]; [by apply Hsource|].
  destruct (decide (0 < prior_level c p)) as [Hpos|Hz].
  2:{ apply Hsource. pose proof (source_range_inside c p Hp). lia. }
  destruct (kept_supported c p Hp Hf Hk Hpos) as (f & Ef & [?|(Hsp & o & l & d & Ho & Hoff & Hle)]); [lia|].
  unfold offered in Hoff. case_decide as Hq.
  - destruct (filter_of (shift p o)) as [f'|] eqn:Ef'; simplify_eq/=.
    set (q := shift p o) in *. pose proof (Priors c q Hq ltac:(congruence)). pose proof (Priors c p Hp ltac:(congruence)).
    assert (Hrank : (rank c q < rank c p)%nat).
    { unfold rank. pose proof Hp as Hp'. pose proof Hq as Hq'. apply inside_iff in Hp', Hq'. unfold bounds_y_len, light_axis_len.
      rewrite incoming_cases in Hle. apply Z2Nat.inj_lt; [nia..|].
      case_decide as Hd; [destruct Hd as (-> & _ & -> & ? & _); unfold q in *; simpl in *; destruct (decide (prior_level SkyLight p = 15)); nia|].
      unfold attenuate, saturating_sub in Hle. nia. }
    destruct (IH _ Hrank q eq_refl Hq ltac:(congruence)) as (v & Hv & Hvle).
    { eapply kept_supporter; [done..|by change (filter_of q ≠ None); rewrite Ef'|lia|done]. }
    rewrite incoming_cases in Hle. case_decide as Hd.
    + destruct Hd as (-> & Hd & -> & Hl & _ & ->). pose proof (lit_range _ _ _ Hv). assert (v = 15) as -> by lia.
      exists 15. split; [|lia]. apply lit_direct; [done|]. apply direct_below; [done..|]. by apply full_sky_direct.
    + exists (attenuate v f). split; [by eapply lit_step|]. unfold attenuate, saturating_sub in *. lia.
  - rewrite incoming_cases in Hle. case_decide as Hd.
    + destruct Hd as (-> & Hd & -> & -> & -> & ->). exists 15. split; [|lia]. apply lit_direct; [done|]. by apply direct_halo.
    + exists (attenuate l f). split; [by eapply lit_halo|done].
Qed.
End kept.
End field.

(** The light before a solve reaches the result through the halo only. *)
Section same_halo.
Context (blocks : LightBlockAccess) (prior prior' : LightReadAccess) (b : LightBounds) (profile : DimensionLightProfile).
Definition same_halo : Prop := ∀ p c, trusted_parts (ra_boundary_light prior (lb_dimension b) p c) = trusted_parts (ra_boundary_light prior' (lb_dimension b) p c).
Context (Same : same_halo).

Lemma halo_same c q : halo blocks prior b c q = halo blocks prior' b c q.
Proof using Same. unfold halo. destruct (decide _); [|done]. by rewrite Same. Qed.

Lemma direct_same p : direct blocks prior b profile p → direct blocks prior' b profile p.
Proof using Same.
  induction 1 as [p ? ? ? ?|p ? ? ? Hh|p ? ? ? ? IH]; [by apply direct_source|apply direct_halo; [done..|by rewrite <-halo_same]|by apply direct_below].
Qed.

Lemma lit_same c p v : lit blocks prior b profile c p v → lit blocks prior' b profile c p v.
Proof using Same.
  induction 1 as [p f ? ?|p f o l d ? ? ? ? Hh|p f o l ? ? ? ? IH|p ? Hd].
  - by eapply lit_source.
  - eapply lit_halo; [done..|]. by rewrite <-halo_same.
  - by eapply lit_step.
  - apply lit_direct; [done|]. by apply direct_same.
Qed.
End same_halo.

Lemma same_halo_sym prior prior' b : same_halo prior prior' b → same_halo prior' prior b.
Proof. intros H p c. by rewrite H. Qed.

Lemma solved_same_halo blocks prior prior' b profile L D : same_halo prior prior' b →
  solved blocks prior b profile L D → solved blocks prior' b profile L D.
Proof.
  intros H Hs p Hp. destruct (Hs p Hp) as [Hl Hd]. pose proof (same_halo_sym _ _ _ H) as H'. split.
  - intros c. specialize (Hl c). unfold brightest in *. destruct (filter_of blocks p); [|done]. destruct Hl as [H1 H2].
    split; [by eapply lit_same|]. intros w Hw. apply H2. by eapply lit_same.
  - rewrite Hd. split; intros ?; by eapply direct_same.
Qed.

(** A solved field is its levels and provenance inside the region. *)
Lemma solved_ext blocks prior b profile L D L' D' : (∀ p, inside b p → (∀ c, L c p = L' c p) ∧ D p = D' p) →
  solved blocks prior b profile L D → solved blocks prior b profile L' D'.
Proof.
  intros He Hs p Hp. destruct (He p Hp) as [Hl <-], (Hs p Hp) as [Hb Hd]. split; [|done]. intros c. by rewrite <-Hl.
Qed.
