(* ===== verification/LightRules.v ===== *)
(** * Rules for the solver's steps

    What each small step of the solver does to the levels, the provenance and the queues, seen by position
    instead of by dense index. *)
From stdpp Require Import base numbers list gmap sets.
From S2P Require Import Prelude Packed Bytes Keys Snapshot Light LightGrid LightState Effects LightSolve LightField.
#[local] Open Scope Z_scope.

Section rules.
Context (blocks : LightBlockAccess) (prior : LightReadAccess) (b : LightBounds) (profile : DimensionLightProfile) (max_queue : Z).
Context (Grid : grid_ok b).
Notation volume := (volume_of b).
Notation cache := (block_cache_new blocks b).
Notation filter_of := (filter_of blocks).
Notation source_level := (source_level blocks profile).
Notation prior_level := (prior_level prior b).
Notation prior_direct := (prior_direct prior b).
Notation inside := (inside b).
Notation dense := (dense b).
Implicit Types (p q : BlockPos) (c : LightChannel) (s : SolveState).

(** ** Observations *)

Definition lvl s c p : Z := default 0 (get_at_index (s_output s) (dense p) c).
Definition shown s p : bool := default false (mo_known (s_output s) !! dense p).
Definition dir s p : bool := default false (s_direct s !! dense p).
Definition flag s c p : Z := default 0 (iq_pending (queue_of c s) !! dense p).
Definition pending s c : list BlockPos := (iq_entries (queue_of c s)).*1.

Record output_ok (o : MutableOutput) : Prop := {
  oo_values : length (mo_values o) = volume;
  oo_known : length (mo_known o) = volume;
}.

(** A queue holds cells of the region, each once, and its flags mark exactly those. *)
Record queue_wf (q : IncreaseQueue) : Prop := {
  qw_length : length (iq_pending q) = volume;
  qw_entries : Forall (λ e, inside e.1 ∧ e.2 = dense e.1) (iq_entries q);
  qw_nodup : NoDup (iq_entries q).*1;
  qw_flags i f : iq_pending q !! i = Some f → f = 0 ∨ (f = 1 ∨ f = 3) ∧ ∃ p, p ∈ (iq_entries q).*1 ∧ i = dense p;
  qw_marked p : p ∈ (iq_entries q).*1 → ∃ f, iq_pending q !! dense p = Some f ∧ f ≠ 0;
}.

Record shape s : Prop := {
  sh_output : output_ok (s_output s);
  sh_direct : length (s_direct s) = volume ∨ s_direct s = [];
  sh_queue c : queue_wf (queue_of c s);
  sh_total : 0 ≤ s_total s ≤ max_queue;
  sh_counted : Z.of_nat (length (s_darken s) + length (iq_entries (s_block s)) + length (iq_entries (s_sky s))) ≤ s_total s;
}.

(** ** Levels *)

Definition put_level s c p (v : Z) : SolveState :=
  with_output (default (s_output s) (set_at_index (s_output s) (dense p) c v)) s.

Section on_output.
Context (s : SolveState) (Out : output_ok (s_output s)).

Lemma values_lookup p : inside p → ∃ v, mo_values (s_output s) !! dense p = Some v ∧ ∀ c, lvl s c p = pair_channel c v.
Proof using Out.
  intros Hp. pose proof (dense_lt b p Hp) as Hl. rewrite <-(oo_values _ Out) in Hl.
  apply lookup_lt_is_Some in Hl as [v Hv]. exists v. split; [done|]. intros c. unfold lvl, get_at_index. by rewrite Hv.
Qed.

Lemma set_at_index_spec c p v : inside p → ∃ o, set_at_index (s_output s) (dense p) c v = Some o ∧ output_ok o ∧
  (∀ c' q, inside q → pair_channel c' <$> mo_values o !! dense q = if decide (c' = c ∧ q = p) then Some v else get_at_index (s_output s) (dense q) c') ∧
  (∀ q, inside q → mo_known o !! dense q = if decide (q = p) then Some true else mo_known (s_output s) !! dense q).
Proof using Out.
  intros Hp. destruct (values_lookup p Hp) as (w & Hw & _). pose proof (dense_lt b p Hp) as Hl.
  destruct Out as [Hv Hk]. unfold set_at_index, set_slot. rewrite Hw. simpl.
  rewrite !decide_True by lia. simpl. eexists. split; [done|]. split_and!.
  - split; simpl; by rewrite length_insert.
  - intros c' q Hq. simpl. unfold get_at_index. destruct (decide (q = p)) as [->|Hne].
    + rewrite list_lookup_insert_eq by lia. simpl. rewrite Hw. simpl. destruct (decide (c' = c)) as [->|Hc].
      * rewrite decide_True by done. by destruct c.
      * rewrite decide_False by tauto. by destruct c, c'.
    + rewrite list_lookup_insert_ne by (intros E%(dense_inj b); [by subst|done..]). by rewrite decide_False by tauto.
  - intros q Hq. simpl. case_decide as E; [subst; by rewrite list_lookup_insert_eq by lia|].
    rewrite list_lookup_insert_ne by (intros E'%(dense_inj b); [by subst|done..]). done.
Qed.

Lemma put_level_output c p v : inside p → output_ok (s_output (put_level s c p v)).
Proof using Out. intros Hp. destruct (set_at_index_spec c p v Hp) as (o & Ho & Hok & _). unfold put_level. by rewrite Ho. Qed.

Lemma put_level_lvl c p v c' q : inside p → inside q → lvl (put_level s c p v) c' q = if decide (c' = c ∧ q = p) then v else lvl s c' q.
Proof using Out.
  intros Hp Hq. destruct (set_at_index_spec c p v Hp) as (o & Ho & _ & Hv & _).
  unfold lvl at 1, put_level. rewrite Ho. unfold get_at_index. simpl. rewrite Hv by done. by case_decide.
Qed.

Lemma put_level_shown c p v q : inside p → inside q → shown (put_level s c p v) q = if decide (q = p) then true else shown s q.
Proof using Out.
  intros Hp Hq. destruct (set_at_index_spec c p v Hp) as (o & Ho & _ & _ & Hk).
  unfold shown at 1, put_level. rewrite Ho. simpl. rewrite Hk by done. by case_decide.
Qed.

Lemma ewp_set c p v Q E : inside p → Q tt (put_level s c p v) → ewp (store (dense p) c v) s Q E.
Proof using Out.
  intros Hp HQ. destruct (set_at_index_spec c p v Hp) as (o & Ho & _). unfold store, put_level in *.
  rewrite Ho in HQ. eapply ewp_update; [by rewrite Ho|done].
Qed.
End on_output.

Lemma lvl_put s c p v c' q : shape s → inside p → inside q → lvl (put_level s c p v) c' q = if decide (c' = c ∧ q = p) then v else lvl s c' q.
Proof using Type. intros Hs. apply put_level_lvl, Hs. Qed.

Lemma shown_put s c p v q : shape s → inside p → inside q → shown (put_level s c p v) q = if decide (q = p) then true else shown s q.
Proof using Type. intros Hs. apply put_level_shown, Hs. Qed.

Lemma shape_put s c p v : shape s → inside p → shape (put_level s c p v).
Proof using Type. intros Hs Hp. pose proof (put_level_output s (sh_output _ Hs) c p v Hp). destruct Hs. by split. Qed.

Lemma ewp_load s c p (Q : Z → SolveState → Prop) E : shape s → inside p → Q (lvl s c p) s → ewp (load (dense p) c) s Q E.
Proof using Type.
  intros Hs Hp HQ. destruct (values_lookup s (sh_output _ Hs) p Hp) as (v & Hv & Hl). unfold load. ewp_steps.
  apply (ewp_expect _ (pair_channel c v)); [unfold get_at_index; by rewrite Hv|by rewrite <-Hl].
Qed.

Lemma ewp_store s c p v Q E : shape s → inside p → Q tt (put_level s c p v) → ewp (store (dense p) c v) s Q E.
Proof using Type. intros Hs. apply ewp_set, Hs. Qed.

(** ** Blocks, neighbours and the light before the solve *)

Lemma sample_at p : inside p → sample_at_index cache (dense p) = Some (ba_sample blocks p).
Proof using Grid.
  intros Hp. unfold sample_at_index. simpl. rewrite list_lookup_fmap. by rewrite (proj2 (positions_lookup b _ _ Grid) (conj Hp eq_refl)).
Qed.

Lemma seed_at p : inside p → sky_seed_at_index cache (dense p) = Some (ba_sky_seed blocks p).
Proof using Grid.
  intros Hp. unfold sky_seed_at_index. simpl. rewrite list_lookup_fmap. by rewrite (proj2 (positions_lookup b _ _ Grid) (conj Hp eq_refl)).
Qed.

Lemma dense_index_of_spec p : dense_index_of b p = if decide (inside p) then Some (dense p) else None.
Proof using Grid. by apply light_dense_index_spec. Qed.

Lemma cached_sample_spec p : cached_sample blocks b cache p = Some (ba_sample blocks p).
Proof using Grid. unfold cached_sample. rewrite dense_index_of_spec. case_decide; [by apply sample_at|done]. Qed.

Lemma ewp_filter_at s p (Q : option Z → SolveState → Prop) E : inside p → Q (filter_of p) s → ewp (filter_at cache (dense p)) s Q E.
Proof using Grid. intros Hp HQ. unfold filter_at. eapply ewp_expect; [by rewrite sample_at|done]. Qed.

Lemma ewp_direct_at s c p (Q : bool → SolveState → Prop) E : inside p → Q (is_sky c && prior_direct p) s → ewp (direct_at prior b volume c (dense p) p) s Q E.
Proof using Type.
  intros Hp. unfold direct_at. destruct (is_sky c); intros HQ; [|by ewp_steps]. eapply ewp_expect; [|done].
  unfold direct_sky_at_index. by rewrite decide_True by by apply dense_lt.
Qed.

Lemma ewp_read_prior s c p (Q : Z → SolveState → Prop) (E : LightSolveError → SolveState → Prop) : inside p →
  (15 < prior_level c p → E (LightValueOutOfRange (prior_level c p)) s) → (prior_level c p ≤ 15 → Q (prior_level c p) s) →
  ewp (read_prior prior b volume (dense p) p c) s Q E.
Proof using Type.
  intros Hp HE HQ. unfold read_prior. ewp_step. apply (ewp_expect _ (prior_level c p)).
  { unfold read_at_index. by rewrite decide_True by by apply dense_lt. }
  destruct (Z.ltb_spec 15 (prior_level c p)); ewp_step; auto.
Qed.

Lemma ewp_local_base s c p (Q : Z → SolveState → Prop) (E : LightSolveError → SolveState → Prop) : inside p →
  (c = SkyLight → 15 < ba_sky_seed blocks p → filter_of p ≠ None → E (LightValueOutOfRange (ba_sky_seed blocks p)) s) →
  ((c = SkyLight → filter_of p ≠ None → ba_sky_seed blocks p ≤ 15) → Q (source_level c p) s) →
  ewp (local_base profile cache (dense p) c) s Q E.
Proof using Grid.
  intros Hp HE HQ. unfold local_base. ewp_step. eapply ewp_expect; [by apply sample_at|].
  unfold LightField.source_level in HQ. unfold LightField.filter_of in HE, HQ.
  destruct (sample_filter (ba_sample blocks p)) as [f|] eqn:Ef; [|apply HQ; by intros _ []].
  destruct c; [apply HQ; done|]. ewp_step. eapply ewp_expect; [by apply seed_at|]. cbv beta.
  destruct (Z.ltb_spec 15 (ba_sky_seed blocks p)); ewp_step; [by apply HE|by apply HQ].
Qed.

(** Full tables of the six directions. *)
Lemma elem_of_directions d o : (d, o) ∈ enumerate NEIGHBOURS ↔
  (d = 0%nat ∧ o = (-1, 0, 0)) ∨ (d = 1%nat ∧ o = (1, 0, 0)) ∨ (d = 2%nat ∧ o = (0, -1, 0)) ∨ (d = 3%nat ∧ o = (0, 1, 0)) ∨
  (d = 4%nat ∧ o = (0, 0, -1)) ∨ (d = 5%nat ∧ o = (0, 0, 1)).
Proof using Type. unfold enumerate, NEIGHBOURS. cbn. rewrite !elem_of_cons, elem_of_nil. naive_solver. Qed.

Lemma direction_offset d o : (d, o) ∈ enumerate NEIGHBOURS → o ∈ NEIGHBOURS.
Proof using Type. rewrite elem_of_directions. unfold NEIGHBOURS. rewrite !elem_of_cons. naive_solver. Qed.

Lemma offset_direction o : o ∈ NEIGHBOURS → ∃ d, (d, o) ∈ enumerate NEIGHBOURS.
Proof using Type. intros (d & Hd)%list_elem_of_lookup. exists d. by apply elem_of_enumerate. Qed.

Lemma dense_shift p o :
  dense_z b (shift p o) = dense_z b p + (o.1.1 * (bounds_y_len b * bounds_z_len b) + o.1.2 * bounds_z_len b + o.2).
Proof using Type. unfold dense_z, shift. cbn [bp_x bp_y bp_z]. ring. Qed.

Lemma neighbour_spec p d o : inside p → (d, o) ∈ enumerate NEIGHBOURS →
  neighbour b p (dense p) d = Some (if decide (inside (shift p o)) then Some (shift p o, dense (shift p o)) else None).
Proof using Type.
  intros Hp Hd%elem_of_directions. pose proof (dense_z_range b p Hp) as Hr. pose proof (proj1 (inside_iff b p) Hp) as (Hx & Hy & Hz).
  assert (Hq : inside (shift p o) → 0 ≤ dense_z b (shift p o)) by (intros Hq; apply (dense_z_range b _ Hq)).
  rewrite dense_shift in Hq. unfold LightGrid.dense. rewrite dense_shift. unfold neighbour. destruct p as [x y z] eqn:Ep. rewrite <-Ep in *.
  rewrite Z2Nat.id by lia. cbv zeta.
  destruct_or!; destruct Hd as [-> ->]; cbn [fst snd] in *; rewrite ?Z.mul_0_l, ?Z.add_0_l, ?Z.add_0_r in *;
    (destruct (decide (inside (shift p _))) as [Hi|Hi];
      [specialize (Hq Hi); rewrite (proj2 (Z.ltb_lt _ _)) by (apply inside_iff in Hi; subst p; simpl in *; lia)
      |rewrite (proj2 (Z.ltb_ge _ _)); [done|rewrite inside_iff in Hi; subst p; simpl in *; lia]]).
  all: try (rewrite (proj2 (Z.leb_le _ _)) by lia).
  all: match goal with |- Some (Some (?q, Z.to_nat ?m)) = Some (Some (?r, Z.to_nat ?n)) =>
         let H1 := fresh in let H2 := fresh in assert (H1 : q = r) by (subst p; apply pos_ext; simpl; lia); assert (H2 : m = n) by lia;
         exact (f_equal2 (λ a k, Some (Some (a, Z.to_nat k))) H1 H2) end.
Qed.

(** ** Support before the solve *)
Context `{Inputs : !LightInputs blocks prior}.
Notation offered := (offered blocks prior b).
Notation supported := (supported blocks prior b profile).

Lemma elem_of_support_order c o : o ∈ support_order c ↔ o ∈ NEIGHBOURS.
Proof using Type. destruct c; [done|]. unfold support_order, NEIGHBOURS, up, down. simpl. rewrite !elem_of_cons. tauto. Qed.

Lemma ewp_neighbour_supports s p filter c required o (Q : bool → SolveState → Prop) E : inside p → o ∈ NEIGHBOURS → priors_ok blocks prior b →
  (∀ r : bool, (r = true ↔ ∃ level d, offered c (shift p o) = Some (level, d) ∧ required ≤ incoming_level profile level filter c o d) → Q r s) →
  ewp (neighbour_supports blocks prior b profile volume cache p filter c required o) s Q E.
Proof using Grid.
  intros Hp Ho Hpri HQ. unfold neighbour_supports. rewrite checked_offset_spec.
  assert (Hnone : offered c (shift p o) = None → Q false s).
  { intros Hoff. apply HQ. rewrite Hoff. split; [done|]. by intros (? & ? & ? & _). }
  assert (Hsome : ∀ level d, offered c (shift p o) = Some (level, d) → Q (required <=? incoming_level profile level filter c o d) s).
  { intros level d Hoff. apply HQ. rewrite Z.leb_le, Hoff. split; [eauto|]. by intros (? & ? & [= <- <-] & ?). }
  unfold LightField.offered, halo in Hnone, Hsome. destruct (decide (i32_pos (shift p o))) as [Hi|Hi].
  2:{ ewp_step. apply Hnone. rewrite decide_False by (intros H; apply Hi; by eapply inside_i32). by rewrite decide_False by tauto. }
  rewrite dense_index_of_spec. ewp_step. destruct (decide (inside (shift p o))) as [Hq|Hq].
  - eapply ewp_expect; [by apply sample_at|]. fold (filter_of (shift p o)).
    destruct (filter_of (shift p o)) as [f|] eqn:Ef; simpl in *; [|ewp_step; by apply Hnone].
    ewp_step. ewp_step. apply ewp_read_prior; [done| |].
    { intros H. specialize (Hpri c (shift p o) Hq ltac:(by rewrite Ef)). lia. }
    intros _. ewp_step. apply ewp_direct_at; [done|]. ewp_steps. by apply Hsome.
  - eapply ewp_expect; [done|]. fold (filter_of (shift p o)). rewrite decide_True in Hnone, Hsome by done.
    destruct (filter_of (shift p o)) as [f|] eqn:Ef; simpl in *; [|ewp_step; by apply Hnone].
    ewp_steps. destruct (trusted_parts _) as [[level d]|]; ewp_step; [by apply Hsome|by apply Hnone].
Qed.

Lemma ewp_prior_supports s p c v (Q : bool → SolveState → Prop) E : inside p → filter_of p ≠ None → priors_ok blocks prior b →
  (c = SkyLight → ba_sky_seed blocks p ≤ 15) → (∀ r : bool, (r = true ↔ supported c p v) → Q r s) →
  ewp (prior_supports_level blocks prior b profile volume cache p (dense p) c v) s Q E.
Proof using Grid.
  intros Hp Hf Hpri Hs HQ. unfold prior_supports_level. ewp_step. apply ewp_filter_at; [done|].
  destruct (filter_of p) as [f|] eqn:Ef; [|done]. ewp_step. 
  assert (Hl : ∀ (Q : Z → SolveState → Prop), Q (source_level c p) s → ewp (local_base profile cache (dense p) c) s Q E).
  { intros Q' HQ'. apply ewp_local_base; [done| |done]. intros Hc ? _. specialize (Hs Hc). lia. }
  apply Hl. destruct (Z.leb_spec v (source_level c p)) as [Hv|Hv].
  { ewp_step. apply HQ. split; [|done]. intros _. exists f. auto. }
  destruct (is_sky c && negb (allows_sky profile)) eqn:Esky.
  { ewp_step. apply HQ. split; [done|]. intros (f' & _ & [?|(Hsp & _)]); [lia|].
    apply andb_true_iff in Esky as [Ec Ea]. destruct c; [done|]. rewrite Hsp in Ea; done. }
  eapply (ewp_any_of _ (λ o, ∃ level d, offered c (shift p o) = Some (level, d) ∧ v ≤ incoming_level profile level f c o d)).
  - intros o R Ho HR. apply ewp_neighbour_supports; [done|by apply elem_of_support_order in Ho|done|done].
  - intros r Hr. apply HQ. rewrite Hr. unfold LightField.supported. setoid_rewrite elem_of_support_order. split.
    + intros (o & Ho & level & d & Hoff & Hle). exists f. split; [done|]. right. split; [|by eauto 10].
      intros ->. simpl in Esky. by destruct (allows_sky profile).
    + intros (f' & Hf' & [?|(_ & o & level & d & Ho & Hoff & Hle)]); [lia|]. simplify_eq. eauto 10.
Qed.

(** ** Queues *)

Lemma ewp_enqueue s Q (E : LightSolveError → SolveState → Prop) : s_total s < 2 ^ 63 →
  (max_queue < s_total s + 1 → E (QueueLimitExceeded max_queue) s) →
  (s_total s + 1 ≤ max_queue → Q tt (with_total (s_total s + 1) s)) → ewp (enqueue 1 max_queue) s Q E.
Proof using Type.
  intros Ht HE HQ. unfold enqueue, enqueue_counted. ewp_steps. change (2 ^ 63) with 9223372036854775808 in Ht.
  rewrite Z.min_l by (change (2 ^ 64) with 18446744073709551616; lia). destruct (Z.ltb_spec max_queue (s_total s + 1)); ewp_step; auto.
Qed.

Context (Volume : Z.of_nat volume ≤ 2 ^ 32 - 1).

Definition pushed s c p (d : bool) : SolveState :=
  let flags := Z.lor (flag s c p) (Z.lor PENDING (if d then DIRECT_SKY else 0)) in
  let q := queue_of c s in
  with_queue c (mk_queue (if flag s c p =? 0 then iq_entries q ++ [(p, dense p)] else iq_entries q) (<[dense p := flags]> (iq_pending q)))
    (with_total (if flag s c p =? 0 then s_total s + 1 else s_total s) s).

Lemma flag_lookup s c p : shape s → inside p → iq_pending (queue_of c s) !! dense p = Some (flag s c p).
Proof using Type.
  intros Hs Hp. pose proof (dense_lt b p Hp) as Hl. rewrite <-(qw_length _ (sh_queue _ Hs c)) in Hl.
  apply lookup_lt_is_Some in Hl as [v Hv]. unfold flag. by rewrite Hv.
Qed.

Lemma queue_of_with c c' (iq : IncreaseQueue) s : queue_of c' (with_queue c iq s) = if decide (c' = c) then iq else queue_of c' s.
Proof using Type. by destruct c, c'. Qed.

Lemma queue_of_total c t s : queue_of c (with_total t s) = queue_of c s.
Proof using Type. by destruct c. Qed.

Lemma index_u32 p : inside p → Z.to_nat (to_unsigned 32 (Z.of_nat (dense p))) = dense p.
Proof using Volume.
  intros Hp. pose proof (dense_lt b p Hp). unfold to_unsigned. rewrite Z.mod_small by lia. lia.
Qed.

Lemma ewp_push_back s c p d Q (E : LightSolveError → SolveState → Prop) : shape s → inside p → s_total s < 2 ^ 63 →
  (flag s c p = 0 → max_queue < s_total s + 1 → E (QueueLimitExceeded max_queue) s) →
  ((flag s c p = 0 → s_total s + 1 ≤ max_queue) → Q tt (pushed s c p d)) → ewp (push_back c (mk_increase p (dense p) d) max_queue) s Q E.
Proof using Volume.
  intros Hs Hp Ht HE HQ. pose proof (dense_lt b p Hp) as Hl. pose proof (qw_length _ (sh_queue _ Hs c)) as Hlen.
  unfold push_back. ewp_steps. cbn [ie_index ie_position ie_direct_sky]. eapply ewp_expect; [by apply flag_lookup|]. ewp_step.
  unfold pushed in HQ. destruct (Z.eqb_spec (flag s c p) 0) as [Hf|Hf].
  - ewp_step. apply ewp_enqueue; [done|auto|]. intros Hm. ewp_step. rewrite index_u32 by done.
    eapply ewp_update; [|apply HQ; auto].
    unfold set_slot. rewrite !queue_of_with, decide_True by done. cbn [iq_pending iq_entries]. rewrite decide_True by lia.
    simpl. by destruct c.
  - ewp_step. eapply ewp_update; [|apply HQ; tauto]. unfold set_slot. rewrite decide_True by lia. simpl. by destruct c, s.
Qed.

Definition dflag s c p : bool := negb (Z.land (flag s c p) DIRECT_SKY =? 0).

Lemma flag_cases s c p : shape s → inside p →
  (flag s c p = 0 ∧ p ∉ pending s c) ∨ ((flag s c p = 1 ∨ flag s c p = 3) ∧ p ∈ pending s c).
Proof using Type.
  intros Hs Hp. pose proof (sh_queue _ Hs c) as Hq. pose proof (flag_lookup s c p Hs Hp) as Hf.
  destruct (qw_flags _ Hq _ _ Hf) as [H0|(H1 & q & Hin & He)].
  - left. split; [done|]. intros Hin. destruct (qw_marked _ Hq p Hin) as (f & Hf' & ?). congruence.
  - right. split; [done|]. apply (dense_inj b) in He; [by subst|done|].
    apply list_elem_of_fmap in Hin as ([q' i] & -> & Hin). pose proof (qw_entries _ Hq) as Hall. rewrite Forall_forall in Hall.
    by destruct (Hall _ Hin).
Qed.

Lemma pending_inside s c p : shape s → p ∈ pending s c → inside p.
Proof using Type.
  intros Hs Hin. apply list_elem_of_fmap in Hin as ([q' i] & -> & Hin). pose proof (qw_entries _ (sh_queue _ Hs c)) as Hall.
  rewrite Forall_forall in Hall. by destruct (Hall _ Hin).
Qed.

Lemma flag_pushed s c p d c' q : shape s → inside p → inside q →
  flag (pushed s c p d) c' q = if decide (c' = c ∧ q = p) then Z.lor (flag s c p) (Z.lor PENDING (if d then DIRECT_SKY else 0)) else flag s c' q.
Proof using Type.
  intros Hs Hp Hq. pose proof (dense_lt b p Hp) as Hl. rewrite <-(qw_length _ (sh_queue _ Hs c)) in Hl.
  unfold flag at 1, pushed. rewrite queue_of_with. destruct (decide (c' = c)) as [->|]; [|by rewrite decide_False by tauto; destruct c, c'].
  cbn [iq_pending]. destruct (decide (q = p)) as [->|Hne].
  - by rewrite list_lookup_insert_eq, decide_True by done.
  - rewrite list_lookup_insert_ne by (intros E%(dense_inj b); [by subst|done..]). by rewrite decide_False by tauto.
Qed.

Lemma pending_pushed s c p d c' : shape s → inside p →
  pending (pushed s c p d) c' = if decide (c' = c ∧ p ∉ pending s c) then pending s c ++ [p] else pending s c'.
Proof using Type.
  intros Hs Hp. unfold pending at 1, pushed. rewrite queue_of_with. destruct (decide (c' = c)) as [->|]; [|by rewrite decide_False by tauto; destruct c, c'].
  cbn [iq_entries]. destruct (flag_cases s c p Hs Hp) as [[Hf Hn]|[Hf Hn]].
  - rewrite (proj2 (Z.eqb_eq _ _) Hf), decide_True by done. by rewrite fmap_app.
  - rewrite (proj2 (Z.eqb_neq _ _)), decide_False by (intuition lia). done.
Qed.

Lemma dflag_pushed s c p d c' q : shape s → inside p → inside q →
  dflag (pushed s c p d) c' q = if decide (c' = c ∧ q = p) then dflag s c p || d else dflag s c' q.
Proof using Type.
  intros Hs Hp Hq. unfold dflag. rewrite flag_pushed by done. case_decide; [|done].
  destruct (flag_cases s c p Hs Hp) as [[-> _]|[[-> | ->] _]]; by destruct d.
Qed.

Lemma total_pushed s c p d : s_total (pushed s c p d) = s_total s + (if flag s c p =? 0 then 1 else 0).
Proof using Type. unfold pushed. destruct c; simpl; destruct (flag s _ p =? 0); lia. Qed.

Lemma shape_pushed s c p d : shape s → inside p → (flag s c p = 0 → s_total s + 1 ≤ max_queue) → shape (pushed s c p d).
Proof using All.
  intros Hs Hp Ht. pose proof (dense_lt b p Hp) as Hl. pose proof (sh_total _ Hs) as Htot. pose proof (sh_counted _ Hs) as Hc.
  destruct (sh_queue _ Hs c) as [Hlen Hall Hnd Hflags Hmark]. split.
  - destruct c; apply (sh_output _ Hs).
  - destruct c; apply (sh_direct _ Hs).
  - intros c'. unfold pushed. rewrite queue_of_with. destruct (decide (c' = c)) as [->|]; [|rewrite queue_of_total; by apply (sh_queue _ Hs)].
    destruct (flag_cases s c p Hs Hp) as [[Hf Hn]|[Hf Hn]].
    + rewrite (proj2 (Z.eqb_eq _ _) Hf). split; cbn [iq_entries iq_pending].
      * by rewrite length_insert.
      * apply Forall_app. split; [done|]. by repeat constructor.
      * rewrite fmap_app. apply NoDup_app. split_and!; [done| |apply NoDup_singleton]. simpl. set_solver.
      * intros i f. rewrite fmap_app. destruct (decide (i = dense p)) as [->|Hne].
        -- rewrite list_lookup_insert_eq by lia. intros [= <-]. right. split; [rewrite Hf; destruct d; simpl; auto|].
           exists p. split; [set_solver|done].
        -- rewrite list_lookup_insert_ne by done. intros Hi. destruct (Hflags i f Hi) as [?|(? & q & ? & ?)]; [by left|right].
           split; [done|]. exists q. set_solver.
      * intros q. rewrite fmap_app. intros Hin. assert (Hq : inside q).
        { apply elem_of_app in Hin as [Hin|Hin]; [by eapply pending_inside|]. simpl in Hin. assert (q = p) as -> by set_solver. done. }
        destruct (decide (q = p)) as [->|Hne].
        -- rewrite list_lookup_insert_eq by lia. eexists. split; [done|]. rewrite Hf. by destruct d.
        -- rewrite list_lookup_insert_ne by (intros E%(dense_inj b); [by subst|done..]). apply Hmark. set_solver.
    + rewrite (proj2 (Z.eqb_neq _ _)) by lia. split; cbn [iq_entries iq_pending]; [by rewrite length_insert|done..| |].
      * intros i f. destruct (decide (i = dense p)) as [->|Hne].
        -- rewrite list_lookup_insert_eq by lia. intros [= <-]. right. split; [destruct Hf as [-> | ->], d; simpl; auto|]. by exists p.
        -- rewrite list_lookup_insert_ne by done. apply Hflags.
      * intros q Hin. destruct (decide (q = p)) as [->|Hne].
        -- rewrite list_lookup_insert_eq by lia. eexists. split; [done|]. by destruct Hf as [-> | ->], d.
        -- rewrite list_lookup_insert_ne by (intros E%(dense_inj b); [by subst|done|by eapply pending_inside]). by apply Hmark.
  - rewrite total_pushed. destruct (Z.eqb_spec (flag s c p) 0); [specialize (Ht ltac:(done))|]; lia.
  - rewrite total_pushed. destruct c; simpl in *; destruct (flag s _ p =? 0); rewrite ?length_app; simpl; lia.
Qed.

Definition popped s c p (rest : list (BlockPos * nat)) : SolveState :=
  with_queue c (mk_queue rest (<[dense p := 0]> (iq_pending (queue_of c s)))) s.

Lemma ewp_queue_pop s c (Q : option IncreaseEntry → SolveState → Prop) E : shape s →
  match iq_entries (queue_of c s) with
  | [] => Q None s
  | (p, _) :: rest => inside p → Q (Some (mk_increase p (dense p) (dflag s c p))) (popped s c p rest)
  end → ewp (queue_pop c) s Q E.
Proof using Type.
  intros Hs HQ. unfold queue_pop. ewp_steps. unfold pop_front. pose proof (qw_entries _ (sh_queue _ Hs c)) as Hall.
  destruct (iq_entries (queue_of c s)) as [|[p i] rest] eqn:He.
  - eapply ewp_expect; [done|]. ewp_steps. by destruct c, s.
  - apply Forall_cons in Hall as [[Hp Hi] _]. cbn [fst snd] in Hp, Hi. subst i. rewrite (flag_lookup s c p Hs Hp). simpl.
    unfold set_slot. rewrite decide_True by (rewrite (qw_length _ (sh_queue _ Hs c)); by apply dense_lt).
    eapply ewp_expect; [done|]. ewp_steps. by apply HQ.
Qed.

Lemma flag_popped s c p rest c' q : shape s → inside p → inside q →
  flag (popped s c p rest) c' q = if decide (c' = c ∧ q = p) then 0 else flag s c' q.
Proof using Type.
  intros Hs Hp Hq. pose proof (dense_lt b p Hp) as Hl. rewrite <-(qw_length _ (sh_queue _ Hs c)) in Hl.
  unfold flag at 1, popped. rewrite queue_of_with. destruct (decide (c' = c)) as [->|]; [|by rewrite decide_False by tauto].
  cbn [iq_pending]. destruct (decide (q = p)) as [->|Hne].
  - by rewrite list_lookup_insert_eq, decide_True by done.
  - rewrite list_lookup_insert_ne by (intros E%(dense_inj b); [by subst|done..]). by rewrite decide_False by tauto.
Qed.

Lemma shape_popped s c p i rest : shape s → iq_entries (queue_of c s) = (p, i) :: rest → shape (popped s c p rest).
Proof using All.
  intros Hs He. destruct (sh_queue _ Hs c) as [Hlen Hall Hnd Hflags Hmark]. rewrite He in Hall, Hnd, Hflags, Hmark.
  apply Forall_cons in Hall as [[Hp Hi] Hall]. cbn [fst snd fmap list_fmap] in *. subst i. apply NoDup_cons in Hnd as [Hnin Hnd].
  assert (Hrest : ∀ q, q ∈ rest.*1 → inside q).
  { intros q Hin. apply list_elem_of_fmap in Hin as ([q' j] & -> & Hin). rewrite Forall_forall in Hall. by destruct (Hall _ Hin). }
  pose proof (sh_total _ Hs). pose proof (sh_counted _ Hs) as Hc.
  assert (Hlt : (dense p < length (iq_pending (queue_of c s)))%nat) by (rewrite Hlen; by apply dense_lt).
  split; [destruct c; apply Hs..| |by destruct c|].
  - intros c'. unfold popped. rewrite queue_of_with. destruct (decide (c' = c)) as [->|]; [|by apply Hs].
    split; cbn [iq_entries iq_pending]; [by rewrite length_insert|done..| |].
    + intros j f. destruct (decide (j = dense p)) as [->|Hne].
      * rewrite list_lookup_insert_eq by done. intros [= <-]. by left.
      * rewrite list_lookup_insert_ne by done. intros Hj. destruct (Hflags j f Hj) as [?|(? & q & Hin & ->)]; [by left|right].
        split; [done|]. exists q. split; [|done]. apply elem_of_cons in Hin as [->|]; [by destruct Hne|done].
    + intros q Hin. assert (q ≠ p) by (intros ->; done).
      rewrite list_lookup_insert_ne by (intros E%(dense_inj b); [by subst|done|by apply Hrest]). apply Hmark. set_solver.
  - destruct c; simpl in *; rewrite He in Hc; simpl in *; lia.
Qed.
End rules.
