(* ===== verification/LightDarken.v ===== *)
(** * Loading and darkening

    The first half of a solve: light that nothing supports any more goes back to its source, together with
    everything that depended on it. What is left is supported by light that is left. *)
From stdpp Require Import base numbers list gmap sets.
From S2P Require Import Prelude Packed Bytes Keys Snapshot Light LightGrid LightState Effects LightSolve LightField LightRules.
#[local] Open Scope Z_scope.

(** ** A weight over the cells of a region *)

Definition weight (b : LightBounds) (w : BlockPos → nat) : nat := sum_list_with w (positions b).

Lemma sum_list_with_le {A} (f g : A → nat) l : (∀ x, x ∈ l → (f x ≤ g x)%nat) → (sum_list_with f l ≤ sum_list_with g l)%nat.
Proof.
  induction l as [|x l IH]; intros H; simpl; [lia|]. pose proof (H x ltac:(set_solver)).
  specialize (IH ltac:(intros; apply H; set_solver)). lia.
Qed.

Lemma sum_list_with_drop {A} (f g : A → nat) l a k :
  (∀ x, x ∈ l → (f x ≤ g x)%nat) → a ∈ l → (f a + k ≤ g a)%nat → (sum_list_with f l + k ≤ sum_list_with g l)%nat.
Proof.
  intros H (l1 & l2 & ->)%list_elem_of_split Ha. rewrite !sum_list_with_app. simpl.
  pose proof (sum_list_with_le f g l1 ltac:(intros; apply H; set_solver)).
  pose proof (sum_list_with_le f g l2 ltac:(intros; apply H; set_solver)). lia.
Qed.

Section weight.
Context (b : LightBounds) (Grid : grid_ok b).

Lemma weight_le (w w' : BlockPos → nat) : (∀ q, inside b q → (w' q ≤ w q)%nat) → (weight b w' ≤ weight b w)%nat.
Proof using Grid. intros H. apply sum_list_with_le. intros q Hq. apply H. by apply (elem_of_positions b q Grid). Qed.

Lemma weight_drop (w w' : BlockPos → nat) p k : (∀ q, inside b q → (w' q ≤ w q)%nat) → inside b p → (w' p + k ≤ w p)%nat →
  (weight b w' + k ≤ weight b w)%nat.
Proof using Grid.
  intros H Hp Hk. apply (sum_list_with_drop _ _ _ p k); [|by apply (elem_of_positions b p Grid)|done].
  intros q Hq. apply H. by apply (elem_of_positions b q Grid).
Qed.

Lemma volume_z_of : Z.of_nat (volume_of b) = volume_z b.
Proof using Grid.
  unfold volume_of. fold (volume_z b). pose proof (dense_z_range b _ (min_inside b Grid)). lia.
Qed.

Lemma weight_bound (w : BlockPos → nat) k : (∀ q, inside b q → (w q ≤ k)%nat) → Z.of_nat (weight b w) ≤ Z.of_nat k * volume_z b.
Proof using Grid.
  intros H. rewrite <-volume_z_of, <-(positions_length b Grid). unfold weight.
  assert (Hl : ∀ q, q ∈ positions b → (w q ≤ k)%nat) by (intros q Hq; apply H; by apply (elem_of_positions b q Grid)).
  induction (positions b) as [|x l IH]; simpl; [lia|]. specialize (IH ltac:(intros; apply Hl; set_solver)).
  pose proof (Hl x ltac:(set_solver)). lia.
Qed.
End weight.

Section darken.
Context (blocks : LightBlockAccess) (prior : LightReadAccess) (b : LightBounds) (profile : DimensionLightProfile) (max_queue : Z).
Context `{Inputs : !LightInputs blocks prior} (Grid : grid_ok b).
Context (Volume : Z.of_nat (volume_of b) ≤ 2 ^ 32 - 1).
Notation volume := (volume_of b).
Notation cache := (block_cache_new blocks b).
Notation filter_of := (filter_of blocks).
Notation source_level := (source_level blocks profile).
Notation prior_level := (prior_level prior b).
Notation prior_direct := (prior_direct prior b).
Notation inside := (inside b).
Notation dense := (dense b).
Notation shape := (shape b max_queue).
Notation lvl := (lvl b).
Notation shown := (shown b).
Notation supported := (supported blocks prior b profile).
Implicit Types (p q : BlockPos) (c : LightChannel) (s : SolveState).

(** Why a solve may fail: a value out of range that was really read, or a queue limit below the work a region
    can need. *)
Definition explained (e : LightSolveError) : Prop :=
  match e with
  | LightValueOutOfRange v => 15 < v ∧ ∃ p, inside p ∧ filter_of p ≠ None ∧ ((∃ c, v = prior_level c p) ∨ v = ba_sky_seed blocks p)
  | QueueLimitExceeded m => m = max_queue ∧ max_queue < 35 * volume_z b
  | _ => False
  end.

(** ** Loading the light before the solve *)

(** Every known cell holds its level from before. *)
Definition loaded s : Prop :=
  (∀ c p, inside p → lvl s c p = match filter_of p with Some _ => prior_level c p | None => 0 end) ∧
  (∀ p, inside p → shown s p = true ↔ filter_of p ≠ None).

Section load.
Context (E : LightSolveError → SolveState → Prop) (s0 : SolveState).
Context (HE : ∀ e o, explained e → output_ok b o → E e (with_output o s0)).

Record loading (pre : list (nat * BlockPos)) s : Prop := {
  ld_state : s = with_output (s_output s) s0;
  ld_output : output_ok b (s_output s);
  ld_level c p : inside p → lvl s c p = if decide (filter_of p ≠ None ∧ (dense p, p) ∈ pre) then prior_level c p else 0;
  ld_shown p : inside p → shown s p = true ↔ filter_of p ≠ None ∧ (dense p, p) ∈ pre;
  ld_range c p : inside p → filter_of p ≠ None → (dense p, p) ∈ pre → prior_level c p ≤ 15;
}.

Lemma put_level_state s c p v : s = with_output (s_output s) s0 → put_level b s c p v = with_output (s_output (put_level b s c p v)) s0.
Proof using Type. intros ->. done. Qed.

Lemma ewp_load_cell pre s p Q : loading pre s → inside p → (∀ s', loading (pre ++ [(dense p, p)]) s' → Q tt s') →
  ewp (load_prior prior b volume cache (dense p, p)) s Q E.
Proof using All.
  intros Hs Hp HQ. unfold load_prior. ewp_step. apply ewp_filter_at; [done..|].
  assert (Hin : ∀ q, inside q → filter_of q ≠ None → (dense q, q) ∈ pre ++ [(dense p, p)] ↔ (dense q, q) ∈ pre ∨ q = p).
  { intros q Hq _. rewrite elem_of_app, list_elem_of_singleton. split; [intros [?|?]; [by left|right; by simplify_eq]|].
    intros [?| ->]; [by left|by right]. }
  destruct (filter_of p) as [f|] eqn:Ef.
  2:{ ewp_step. apply HQ. destruct Hs as [H1 H3 H4 H5 H6]. split; [done..| | |].
    - intros c q Hq. rewrite H4 by done. destruct (decide (filter_of q = None)) as [Hn|Hn]; [by rewrite !decide_False by tauto|].
      assert (q ≠ p) by (intros ->; done). apply decide_ext. rewrite Hin by done. tauto.
    - intros q Hq. rewrite H5 by done. destruct (decide (filter_of q = None)) as [Hn|Hn]; [tauto|].
      assert (q ≠ p) by (intros ->; done). rewrite Hin by done. tauto.
    - intros c q Hq Hn Hin'. assert (q ≠ p) by (intros ->; done). apply Hin in Hin' as [?|?]; [by apply H6|done..]. }
  assert (Hf : filter_of p ≠ None) by by rewrite Ef.
  assert (Hv : ∀ c s', 15 < prior_level c p → s' = with_output (s_output s') s0 → output_ok b (s_output s') →
    E (LightValueOutOfRange (prior_level c p)) s').
  { intros c s' H Hst Ho. rewrite Hst. apply HE; [|done]. split; [done|]. exists p. eauto. }
  pose proof (ld_state _ _ Hs) as Hst. pose proof (ld_output _ _ Hs) as Ho.
  unfold CHANNELS. cbn [for_each]. ewp_steps. apply (ewp_read_prior prior b); [done|auto|]. intros Hb.
  apply (ewp_set b); [done..|]. set (s1 := put_level b s _ p _).
  assert (Hst1 : s1 = with_output (s_output s1) s0) by (by apply put_level_state).
  assert (Ho1 : output_ok b (s_output s1)) by (by apply put_level_output).
  ewp_steps. apply (ewp_read_prior prior b); [done|auto|]. intros Hsk.
  apply (ewp_set b); [done..|]. set (s2 := put_level b s1 _ p _). ewp_step. apply HQ.
  assert (Hl2 : ∀ c q, inside q → lvl s2 c q = if decide (q = p) then prior_level c p else lvl s c q).
  { intros c q Hq. unfold s2, s1. rewrite !(put_level_lvl b) by done. destruct c; repeat case_decide; intuition congruence. }
  split; [by apply put_level_state|by apply put_level_output| | |].
  - intros c q Hq. rewrite Hl2 by done. destruct (decide (q = p)) as [->|Hne].
    + rewrite decide_True; [done|]. split; [done|]. apply Hin; auto.
    + rewrite (ld_level _ _ Hs) by done. destruct (decide (filter_of q = None)) as [Hn|Hn]; [by rewrite !decide_False by tauto|].
      apply decide_ext. rewrite Hin by done. tauto.
  - intros q Hq. unfold s2, s1. rewrite !(put_level_shown b) by done.
    destruct (decide (q = p)) as [->|Hne]; [split; [|done]; intros _; split; [done|apply Hin; auto]|].
    rewrite (ld_shown _ _ Hs) by done. destruct (decide (filter_of q = None)) as [Hn|Hn]; [tauto|]. rewrite Hin by done. tauto.
  - intros c q Hq Hn Hin'. apply Hin in Hin' as [?| ->]; [by apply (ld_range _ _ Hs)| |done..]. by destruct c.
Qed.

(** An output nothing has been written to. *)
Definition blank (o : MutableOutput) : Prop := output_ok b o ∧ ∀ p, inside p →
  (∀ c, get_at_index o (dense p) c = Some 0) ∧ mo_known o !! dense p = Some false.

Lemma ewp_load_prior Q : blank (s_output s0) →
  (∀ o, output_ok b o → loaded (with_output o s0) → priors_ok blocks prior b → Q tt (with_output o s0)) →
  ewp (for_each (load_prior prior b volume cache) (enumerate (positions b))) s0 Q E.
Proof using All.
  intros [Ho Hb] HQ. apply (ewp_each _ loading).
  - split; [by destruct s0|done| | |by intros c p _ _ H; apply elem_of_nil in H].
    + intros c p Hp. destruct (Hb p Hp) as [Hv _]. unfold LightRules.lvl. rewrite Hv, decide_False; [done|]. intros [_ H]. by apply elem_of_nil in H.
    + intros p Hp. destruct (Hb p Hp) as [_ Hk]. unfold LightRules.shown. rewrite Hk. simpl. split; [done|]. intros [_ H]. by apply elem_of_nil in H.
  - intros pre [i p] post s' Hl Hs'. destruct (proj1 (elem_of_cells b i p Grid)) as [Hp ->]; [rewrite Hl; set_solver|].
    by apply (ewp_load_cell pre).
  - intros s Hs. assert (Hin : ∀ p, inside p → (dense p, p) ∈ enumerate (positions b)) by (intros p Hp; by apply elem_of_cells).
    pose proof (ld_state _ _ Hs) as Hst. assert (Hl : loaded s).
    { split.
      - intros c p Hp. rewrite (ld_level _ _ Hs) by done. destruct (filter_of p) as [f|] eqn:Ef.
        + rewrite decide_True; [done|]. by split; [|apply Hin].
        + by rewrite decide_False by tauto.
      - intros p Hp. rewrite (ld_shown _ _ Hs) by done. pose proof (Hin p Hp). tauto. }
    rewrite Hst in Hl |- *. apply HQ; [apply (ld_output _ _ Hs)|done|]. intros c p Hp Hf. apply (ld_range _ _ Hs); auto.
Qed.
End load.

Context (E : LightSolveError → SolveState → Prop) (HE : ∀ e s, explained e → shape s → E e s).
(** ** Raising cells to their sources *)

Definition raised (l : list nat) s s' : Prop := ∃ o, output_ok b o ∧ s' = with_output o s ∧
  (∀ c p, inside p → lvl s' c p = if decide (filter_of p ≠ None ∧ dense p ∈ l) then Z.max (lvl s c p) (source_level c p) else lvl s c p) ∧
  (∀ p, inside p → filter_of p ≠ None → shown s p = true → shown s' p = true) ∧ (∀ p, inside p → filter_of p = None → shown s' p = shown s p).

Lemma with_output_shape o s : shape s → output_ok b o → shape (with_output o s).
Proof using Type. intros [] ?. by split. Qed.

Lemma ewp_raise_cell c p s (Q : unit → SolveState → Prop) : shape s → inside p → filter_of p ≠ None →
  (∀ s', shape s' → (∃ o, output_ok b o ∧ s' = with_output o s) →
    (∀ c' q, inside q → lvl s' c' q = if decide (c' = c ∧ q = p) then Z.max (lvl s c p) (source_level c p) else lvl s c' q) →
    (∀ q, inside q → shown s q = true → shown s' q = true) → (∀ q, inside q → filter_of q = None → shown s' q = shown s q) → Q tt s') →
  ewp (base ← local_base profile cache (dense p) c; level ← load (dense p) c;
       if level <? base then store (dense p) c base else mret tt) s Q E.
Proof using All.
  intros Hs Hp Hf HQ. ewp_step. apply ewp_local_base; [done..| |].
  { intros _ H _. apply HE; [|done]. split; [lia|]. exists p. auto. }
  intros _. ewp_step. apply (ewp_load b max_queue); [done..|].
  destruct (Z.ltb_spec (lvl s c p) (source_level c p)) as [Hlt|Hge].
  - apply (ewp_store b max_queue); [done..|]. apply HQ; [by apply shape_put| | | |].
    + destruct (set_at_index_spec b s (sh_output _ _ _ Hs) c p (source_level c p)) as (o & Ho & Hok & _); [done..|]. exists o. split; [done|].
      unfold put_level. by rewrite Ho.
    + intros c' q Hq. rewrite (lvl_put b max_queue) by done. case_decide as Hcq; [|done]. lia.
    + intros q Hq Hsh. rewrite (shown_put b max_queue) by done. by case_decide.
    + intros q Hq Hn. rewrite (shown_put b max_queue) by done. case_decide; [by subst|done].
  - ewp_step. apply HQ; [done| |intros c' q Hq; case_decide as Hcq; [destruct Hcq as [-> ->]; lia|done]|done..].
    exists (s_output s). split; [apply Hs|by destruct s].
Qed.

Lemma ewp_raise s (l : list nat) Q : shape s → (∀ i, i ∈ l → ∃ p, inside p ∧ i = dense p) →
  (∀ s', shape s' → raised l s s' → Q tt s') → ewp (for_each (raise_to_base profile cache) l) s Q E.
Proof using All.
  intros Hs Hl HQ. apply (ewp_each _ (λ pre s', shape s' ∧ raised pre s s')); [|clear HQ|intros s' [??]; auto].
  { split; [done|]. exists (s_output s). split; [apply Hs|]. split; [by destruct s|]. split; [|done].
    intros c p Hp. rewrite decide_False; [done|]. intros [_ H]. by apply elem_of_nil in H. }
  intros pre i post s0 -> [Hs0 (o0 & Ho0 & -> & Hl0 & Hk0 & Hu0)]. destruct (Hl i) as (p & Hp & ->); [set_solver|].
  assert (Hin : ∀ q, inside q → dense q ∈ pre ++ [dense p] ↔ dense q ∈ pre ∨ q = p).
  { intros q Hq. rewrite elem_of_app, list_elem_of_singleton. split; [|intros [?| ->]; auto].
    intros [?|He%(dense_inj b)]; auto. }
  unfold raise_to_base. ewp_step. apply ewp_filter_at; [done..|]. destruct (filter_of p) as [f|] eqn:Ef.
  2:{ ewp_step. split; [done|]. exists o0. split_and!; [done..| |done|done]. intros c q Hq. rewrite Hl0 by done.
      destruct (decide (filter_of q = None)) as [Hn|Hn]; [by rewrite !decide_False by tauto|].
      apply decide_ext. rewrite Hin by done. assert (q ≠ p) by (intros ->; done). tauto. }
  assert (Hf : filter_of p ≠ None) by by rewrite Ef. unfold CHANNELS. simpl.
  ewp_step. apply ewp_raise_cell; [done..|]. intros s1 Hs1 (o1 & Ho1 & ->) Hl1 Hk1 Hu1.
  ewp_step. apply ewp_raise_cell; [done..|]. intros s2 Hs2 (o2 & Ho2 & ->) Hl2 Hk2 Hu2. ewp_step. split; [done|].
  exists o2. split_and!; [done..| | |].
  - intros c q Hq. rewrite Hl2, !Hl1, !Hl0 by done. rewrite (decide_ext (filter_of q ≠ None ∧ dense q ∈ pre ++ [dense p]) (filter_of q ≠ None ∧ (dense q ∈ pre ∨ q = p)))
      by (by rewrite Hin).
    destruct c; repeat case_decide; destruct_and?; subst; try tauto; try lia; intuition (try congruence; lia).
  - intros q Hq Hn H. apply Hk2, Hk1, Hk0; done.
  - intros q Hq Hn. by rewrite Hu2, Hu1, Hu0.
Qed.
(** ** Darkening one cell *)

(** [note] records darkened cells when [noting]. *)
Context (note : nat * BlockPos → S unit) (noting : bool).
Definition noted (x : nat * BlockPos) s : SolveState := if noting then with_darkened (s_darkened s ++ [x]) s else s.
Hypothesis note_spec : ∀ x s (Q : unit → SolveState → Prop), Q tt (noted x s) → ewp (note x) s Q E.

(** A known cell. *)
Definition cell p : Prop := inside p ∧ filter_of p ≠ None.
Definition dark s c p : Prop := lvl s c p ≠ prior_level c p.
#[local] Instance dark_dec s c p : Decision (dark s c p).
Proof. unfold dark. apply _. Defined.

Definition entry_ok s (e : DarkenEntry) : Prop :=
  cell (de_position e) ∧ dark s (de_channel e) (de_position e) ∧ de_old_level e = prior_level (de_channel e) (de_position e) ∧
  de_direct_sky e = is_sky (de_channel e) && prior_direct (de_position e).
Definition undark s p : nat := (if decide (dark s BlockLight p) then 0 else 1) + (if decide (dark s SkyLight p) then 0 else 1).

(** The state while cells are darkened. *)
Record dk s : Prop := {
  dk_shape : shape s;
  dk_fresh c : iq_entries (queue_of c s) = [];
  dk_level c p : cell p → lvl s c p = prior_level c p ∨ lvl s c p = source_level c p ∧ source_level c p < prior_level c p;
  dk_unknown c p : inside p → filter_of p = None → lvl s c p = 0;
  dk_shown p : inside p → shown s p = true ↔ filter_of p ≠ None;
  dk_entries : Forall (entry_ok s) (s_darken s);
  dk_noted_in c p : noting = true → cell p → dark s c p → (dense p, p) ∈ s_darkened s;
  dk_noted x : x ∈ s_darkened s → cell x.2 ∧ x.1 = dense x.2;
  dk_budget : s_total s + Z.of_nat (weight b (undark s)) ≤ 2 * volume_z b;
}.

Definition entry_for c p : DarkenEntry := mk_darken p c (prior_level c p) (is_sky c && prior_direct p).

(** The state after [darken_cell]. *)
Record darkened_step s s' c p : Prop := {
  ds_dk : dk s';
  ds_darken : s_darken s' = s_darken s ++ [entry_for c p];
  ds_dark c' q : inside q → dark s' c' q ↔ (c' = c ∧ q = p) ∨ dark s c' q;
  ds_total : s_total s' = s_total s + 1;
}.

Lemma ewp_darken_cell s c p Q : dk s → cell p → ¬ dark s c p → source_level c p < prior_level c p →
  (∀ s', darkened_step s s' c p → Q tt s') →
  ewp (darken_cell prior b max_queue volume note (dense p) p c (source_level c p) (prior_level c p)) s Q E.
Proof using All.
  intros Hs Hp Hd Hlt HQ. pose proof (dk_shape _ Hs) as Hsh. destruct Hp as [Hp Hf]. unfold darken_cell.
  ewp_step. apply (ewp_store b max_queue); [done..|]. set (s1 := put_level b s c p (source_level c p)).
  assert (Hsh1 : shape s1) by by apply shape_put.
  assert (Hl1 : ∀ c' q, inside q → lvl s1 c' q = if decide (c' = c ∧ q = p) then source_level c p else lvl s c' q)
    by (intros; by apply (lvl_put b max_queue)).
  assert (Hk1 : ∀ q, inside q → shown s1 q = if decide (q = p) then true else shown s q)
    by (intros; by apply (shown_put b max_queue)).
  assert (Hd1 : ∀ c' q, inside q → dark s1 c' q ↔ (c' = c ∧ q = p) ∨ dark s c' q).
  { intros c' q Hq. unfold dark. rewrite Hl1 by done. case_decide as Hcq; [destruct Hcq as [-> ->]|tauto].
    split; [auto|]. intros _. lia. }
  ewp_step. apply note_spec. set (s2 := noted (dense p, p) s1).
  assert (Ho2 : s_output s2 = s_output s1 ∧ s_darken s2 = s_darken s ∧ s_total s2 = s_total s ∧ ∀ c', queue_of c' s2 = queue_of c' s).
  { unfold s2, noted. destruct noting; repeat split; by intros []. }
  destruct Ho2 as (Ho2 & Hda2 & Ht2 & Hq2).
  assert (Hsh2 : shape s2) by (unfold s2, noted; destruct noting; [by destruct Hsh1|done]).
  assert (Hw : (weight b (undark s1) + 1 ≤ weight b (undark s))%nat).
  { apply (weight_drop b Grid _ _ p); [|done|].
    - intros q Hq. unfold undark. repeat case_decide; rewrite ?Hd1 in * by done; tauto || lia.
    - unfold undark. destruct c; repeat case_decide; rewrite ?Hd1 in * by done; tauto || lia. }
  pose proof (dk_budget _ Hs) as Hb. pose proof (volume_z_of b Grid) as Hv.
  ewp_step. apply (ewp_enqueue max_queue).
  { rewrite Ht2. change (2 ^ 63) with 9223372036854775808. lia. }
  { intros Hm. rewrite Ht2 in Hm. apply HE; [|done]. split; [done|lia]. }
  intros Hm. ewp_step. apply (ewp_direct_at prior b); [done|]. unfold push_darken. ewp_steps. apply HQ.
  set (s3 := with_darken _ _).
  assert (Hd3 : ∀ c' q, inside q → dark s3 c' q ↔ (c' = c ∧ q = p) ∨ dark s c' q).
  { intros c' q Hq. rewrite <-Hd1 by done. unfold dark, LightRules.lvl. simpl. by rewrite Ho2. }
  assert (Hl3 : ∀ c' q, lvl s3 c' q = lvl s1 c' q) by (intros; unfold LightRules.lvl; simpl; by rewrite Ho2).
  split; [|by simpl; rewrite Hda2|done|by simpl; rewrite Ht2].
  split.
  - destruct Hsh2 as [H1 H2 H3 H4 H5]. split; [done|done|intros c'; specialize (H3 c'); by destruct c'| |]; simpl; [lia|]. rewrite length_app. simpl. lia.
  - intros c'. pose proof (dk_fresh _ Hs c') as Hfr. rewrite <-Hq2 in Hfr. by destruct c'.
  - intros c' q Hq. rewrite Hl3, Hl1 by apply Hq. case_decide as Hcq; [destruct Hcq as [-> ->]; by right|by apply Hs].
  - intros c' q Hq Hfq. rewrite Hl3, Hl1 by done. rewrite decide_False by (intros [_ ->]; done). by apply Hs.
  - intros q Hq. unfold LightRules.shown. simpl. rewrite Ho2. fold (shown s1 q). rewrite Hk1 by done.
    case_decide; [subst; done|by apply Hs].
  - simpl. rewrite Hda2. apply Forall_app. split.
    + eapply Forall_impl; [apply Hs|]. intros e (He1 & He2 & He3). split; [done|]. split; [|done]. apply Hd3; [apply He1|by right].
    + repeat constructor; try done. apply Hd3; [done|by left].
  - intros c' q Hn Hq Hdq. apply Hd3 in Hdq; [|apply Hq]. simpl. unfold s2, noted. rewrite Hn. simpl. apply elem_of_app.
    destruct Hdq as [[-> ->]|Hdq]; [right; set_solver|left; by eapply dk_noted_in].
  - intros x. simpl. unfold s2, noted. destruct noting; [|apply Hs]. simpl. rewrite elem_of_app. intros [Hx|Hx]; [by apply Hs|].
    apply list_elem_of_singleton in Hx as ->. done.
  - assert (Hu : (weight b (undark s3) ≤ weight b (undark s1))%nat).
    { apply weight_le; [done|]. intros q Hq. unfold undark. repeat case_decide; rewrite ?Hd3, ?Hd1 in * by done; tauto || lia. }
    simpl. lia.
Qed.

(** ** Seeding *)

Definition queued s c p : Prop := ∃ e, e ∈ s_darken s ∧ de_position e = p ∧ de_channel e = c.
Definition grows s s' : Prop := ∀ c p, inside p → dark s c p → dark s' c p.
(** A cell whose light stays has support, or none to lose. *)
Definition justified s p : Prop := ∀ c, ¬ dark s c p → prior_level c p = 0 ∨ supported c p (prior_level c p).

Lemma grows_refl s : grows s s.
Proof using Type. by intros ? ?. Qed.
Lemma grows_step s s' c p : darkened_step s s' c p → grows s s'.
Proof using Type. intros H c' q Hq Hd. apply (ds_dark _ _ _ _ H); auto. Qed.
Lemma grows_trans s1 s2 s3 : grows s1 s2 → grows s2 s3 → grows s1 s3.
Proof using Type. intros H1 H2 c p Hp Hd. auto. Qed.
Lemma justified_grows s s' p : inside p → grows s s' → justified s p → justified s' p.
Proof using Type. intros Hp Hg Hj c Hd. apply Hj. intros Hd'. by apply Hd, Hg. Qed.

Lemma queued_step s s' c p c' q : darkened_step s s' c p → queued s' c' q ↔ queued s c' q ∨ (c' = c ∧ q = p).
Proof using Type.
  intros H. unfold queued. rewrite (ds_darken _ _ _ _ H). setoid_rewrite elem_of_app. setoid_rewrite list_elem_of_singleton. split.
  - intros (e & [He| ->] & <- & <-); [left; eauto|by right].
  - intros [(e & ? & ? & ?)|[-> ->]]; [eauto 6|]. exists (entry_for c p). auto.
Qed.

Definition all_queued s : Prop := ∀ c p, cell p → dark s c p → queued s c p.

(** A solve's own source never exceeds the light it supports. *)
Lemma dark_source s c p : dk s → cell p → dark s c p → lvl s c p = source_level c p ∧ source_level c p < prior_level c p.
Proof using Type. intros Hs Hp Hd. destruct (dk_level _ Hs c p Hp); [done|auto]. Qed.

Lemma on_stats_dk f s : dk s → dk (on_stats f s).
Proof using Type. intros []. split; try done. by destruct dk_shape0. Qed.

Record seeding_step s s' c p : Prop := {
  ss_dk : dk s';
  ss_queued : all_queued s';
  ss_grows : grows s s';
  ss_support : ¬ dark s' c p → prior_level c p = 0 ∨ supported c p (prior_level c p);
  ss_seed : c = SkyLight → ba_sky_seed blocks p ≤ 15;
}.

Lemma ewp_seed_darken_channel s c p Q : dk s → all_queued s → cell p → priors_ok blocks prior b →
  (∀ s', seeding_step s s' c p → Q tt s') →
  ewp (seed_darken_channel blocks prior b profile max_queue volume cache note (dense p, p) c) s Q E.
Proof using All.
  intros Hs Hall Hp Hpri HQ. pose proof (dk_shape _ Hs) as Hsh. destruct Hp as [Hp Hf]. unfold seed_darken_channel.
  ewp_step. apply (ewp_load b max_queue); [done..|]. ewp_step. apply ewp_local_base; [done..| |].
  { intros _ H _. apply HE; [|done]. split; [lia|]. exists p. auto. }
  intros Hseed. ewp_step.
  assert (Hstay : ewp (mret tt) s Q E ↔ Q tt s) by done.
  assert (Hkeep : prior_level c p = 0 ∨ supported c p (prior_level c p) ∨ dark s c p → Q tt s).
  { intros H. apply HQ. split; [done..| | |by auto]; [apply grows_refl|]. intros Hd. tauto. }
  assert (Hcase : ∀ supp : bool, (supp = true ↔ lvl s c p = 0 ∨ supported c p (lvl s c p)) →
    ewp (if supp then mret tt else
      _ ← darken_cell prior b max_queue volume note (dense p) p c (source_level c p) (lvl s c p); count_seeded) s Q E).
  { intros supp Hsupp. destruct (decide (dark s c p)) as [Hd|Hd].
    - destruct (dark_source s c p Hs (conj Hp Hf) Hd) as [Hl _].
      assert (supp = true) as ->; [|apply Hkeep; auto]. apply Hsupp. right.
      destruct (filter_of p) as [f|] eqn:Ef; [|done]. exists f. split; [done|]. left. lia.
    - assert (lvl s c p = prior_level c p) as Hl by (apply dec_stable; done). rewrite Hl in Hsupp |- *.
      destruct supp; [apply Hkeep; tauto|]. assert (Hno : ¬ (prior_level c p = 0 ∨ supported c p (prior_level c p))) by (intros ?%Hsupp; done).
      ewp_step. apply ewp_darken_cell; [done..| |].
      { destruct (Z.lt_ge_cases (source_level c p) (prior_level c p)) as [?|Hge]; [done|]. exfalso. apply Hno. right.
        destruct (filter_of p) as [f|] eqn:Ef; [|done]. exists f. split; [done|]. by left. }
      intros s' Hs'. unfold count_seeded. ewp_steps. apply HQ. split.
      + apply on_stats_dk, Hs'.
      + intros c' q Hq Hdq. apply (queued_step _ _ _ _ c' q Hs'). apply (ds_dark _ _ _ _ Hs') in Hdq; [|apply Hq].
        destruct Hdq; [by right|left; by apply Hall].
      + exact (grows_step _ _ _ _ Hs').
      + intros Hd'. exfalso. apply Hd'. apply (ds_dark _ _ _ _ Hs'); auto.
      + auto. }
  destruct (Z.eqb_spec (lvl s c p) 0) as [Hz|Hz].
  - apply ewp_ret, (Hcase true). split; auto.
  - apply ewp_prior_supports; [done..|by auto|]. intros r Hr. apply Hcase. rewrite Hr. split; [auto|]. by intros [?|?].
Qed.

(** After the seeding loop over [cells]: the seeds are in range and every cell of the loop is justified. *)
Record seeded (cells : list (nat * BlockPos)) s : Prop := {
  se_dk : dk s;
  se_queued : all_queued s;
  se_cells x : x ∈ cells → filter_of x.2 ≠ None → justified s x.2 ∧ ba_sky_seed blocks x.2 ≤ 15;
}.

Lemma ewp_seed_darken s (cells : list (nat * BlockPos)) Q : dk s → all_queued s → priors_ok blocks prior b →
  (∀ x, x ∈ cells → inside x.2 ∧ x.1 = dense x.2) → (∀ s', seeded cells s' → Q tt s') →
  ewp (for_each (seed_darken blocks prior b profile max_queue volume cache note) cells) s Q E.
Proof using All.
  intros Hs Hall Hpri Hcells HQ. apply (ewp_each _ seeded); [|clear s Hs Hall|done].
  { split; [done..|]. intros x H. by apply elem_of_nil in H. }
  intros pre [i p] post s -> Hs. destruct (Hcells (i, p)) as [Hp Hi]; [set_solver|]. simpl in Hp, Hi. subst i.
  unfold seed_darken. ewp_step. apply ewp_filter_at; [done..|].
  assert (Hcells' : ∀ s', dk s' → all_queued s' → grows s s' → (filter_of p ≠ None → justified s' p ∧ ba_sky_seed blocks p ≤ 15) →
    seeded (pre ++ [(dense p, p)]) s').
  { intros s' H1 H2 H3 H4. split; [done..|]. intros x [Hx| ->%list_elem_of_singleton]%elem_of_app Hfx; [|by apply H4].
    destruct (se_cells _ _ Hs x Hx Hfx) as [Hj ?]. split; [|done]. eapply justified_grows; [|done..]. apply Hcells. set_solver. }
  destruct (filter_of p) as [f|] eqn:Ef.
  2:{ ewp_step. apply Hcells'; [apply Hs..|apply grows_refl|done]. }
  assert (Hc : cell p) by (split; [done|by rewrite Ef]). unfold CHANNELS. simpl.
  ewp_step. apply ewp_seed_darken_channel; [apply Hs..|done|done|]. intros s1 H1.
  ewp_step. apply ewp_seed_darken_channel; [apply H1..|done|done|]. intros s2 H2. ewp_step.
  apply Hcells'; [apply H2..|eapply grows_trans; [apply H1|apply H2]|]. intros _. split; [|by apply H2].
  intros [] Hd; [|by apply H2]. apply H1. intros Hd1. by apply Hd, H2.
Qed.

(** ** The loop *)

(** [shift p o] lost its light with [p]: it was dimmer, or hung below it in a shaft of direct sky. *)
Definition depended c p o : Prop := prior_level c (shift p o) < prior_level c p ∨
  (c = SkyLight ∧ direct_sky_down profile = true ∧ prior_direct p = true ∧ o = down ∧ prior_level c (shift p o) = 15 ∧ prior_level c p = 15).
Definition spared s c p o : Prop := cell (shift p o) → ¬ dark s c (shift p o) →
  source_level c (shift p o) < prior_level c (shift p o) → ¬ depended c p o.
Definition settled_dark s c p : Prop := ∀ o, o ∈ NEIGHBOURS → spared s c p o.

Lemma depends_on_removed_spec c p o : depends_on_removed profile (entry_for c p) o (prior_level c (shift p o)) = true ↔ depended c p o.
Proof using Type.
  unfold depends_on_removed, depended, entry_for. cbn [de_channel de_old_level de_direct_sky].
  rewrite orb_true_iff, !andb_true_iff, Z.ltb_lt, !Z.eqb_eq, bool_decide_eq_true. destruct c; simpl; intuition congruence.
Qed.

Lemma spared_grows s s' c p o : grows s s' → spared s c p o → spared s' c p o.
Proof using Type. intros Hg Hs Hc Hd. apply Hs; [done|]. intros Hd'. apply Hd. apply Hg; [apply Hc|done]. Qed.

Definition waiting s : Z := s_total s - Z.of_nat (length (s_darken s)).

(** Some steps of the loop after [s1]. *)
Record darkening s1 s : Prop := {
  dn_dk : dk s;
  dn_grows : grows s1 s;
  dn_new c q : cell q → dark s c q → dark s1 c q ∨ queued s c q;
  dn_queued c q : queued s1 c q → queued s c q;
  dn_waiting : waiting s = waiting s1;
}.

Lemma darkening_refl s : dk s → darkening s s.
Proof using Type. intros Hs. split; [done|apply grows_refl|by left|done|done]. Qed.

Lemma darkening_step s1 s s' c p : darkening s1 s → darkened_step s s' c p → darkening s1 s'.
Proof using Type.
  intros H Hs. split; [apply Hs|eapply grows_trans; [apply H|by eapply grows_step]| | |].
  - intros c' q Hq Hd. rewrite (queued_step _ _ _ _ _ _ Hs). apply (ds_dark _ _ _ _ Hs) in Hd; [|apply Hq].
    destruct Hd as [?|Hd]; [by right; right|]. destruct (dn_new _ _ H c' q Hq Hd); auto.
  - intros c' q Hq. apply (queued_step _ _ _ _ _ _ Hs). left. by apply H.
  - rewrite <-(dn_waiting _ _ H). unfold waiting. rewrite (ds_total _ _ _ _ Hs), (ds_darken _ _ _ _ Hs), length_app. simpl. lia.
Qed.

Lemma darkening_stats f s1 s : darkening s1 s → darkening s1 (on_stats f s).
Proof using Type. intros H. split; [apply on_stats_dk, H|apply H..]. Qed.

Lemma ewp_darken_neighbour s1 s c p d o Q : darkening s1 s → cell p → (d, o) ∈ enumerate NEIGHBOURS →
  (∀ s', darkening s1 s' → grows s s' → spared s' c p o → Q tt s') →
  ewp (darken_neighbour prior b profile max_queue volume cache note (entry_for c p) (dense p) (d, o)) s Q E.
Proof using All.
  intros Hs Hp Hd HQ. pose proof (dn_dk _ _ Hs) as Hdk. pose proof (dk_shape _ Hdk) as Hsh. unfold darken_neighbour, entry_for.
  cbn [fst snd de_position de_channel]. ewp_step. eapply ewp_expect; [apply neighbour_spec; [apply Hp|done]|].
  assert (Hskip : (cell (shift p o) → dark s c (shift p o) ∨ prior_level c (shift p o) ≤ source_level c (shift p o) ∨ ¬ depended c p o) → Q tt s).
  { intros H. apply HQ; [done|apply grows_refl|]. intros Hc Hnd Hlt Hdep. destruct (H Hc) as [?|[?|?]]; [done|lia|done]. }
  destruct (decide (inside (shift p o))) as [Hq|Hq]; [|ewp_step; apply Hskip; by intros [??]].
  ewp_step. apply ewp_filter_at; [done..|]. destruct (filter_of (shift p o)) as [f|] eqn:Ef; [|ewp_step; apply Hskip; by intros [_ []]].
  assert (Hc : cell (shift p o)) by (split; [done|by rewrite Ef]).
  ewp_step. apply (ewp_load b max_queue); [done..|]. ewp_step. apply ewp_local_base; [done..| |].
  { intros _ H _. apply HE; [|done]. split; [lia|]. exists (shift p o). split; [done|]. split; [by rewrite Ef|auto]. }
  intros _. destruct (decide (dark s c (shift p o))) as [Hdq|Hdq].
  - destruct (dark_source s c _ Hdk Hc Hdq) as [-> _]. rewrite Z.ltb_irrefl. cbn [andb]. ewp_step. apply Hskip. auto.
  - assert (lvl s c (shift p o) = prior_level c (shift p o)) as -> by (apply dec_stable; done).
    fold (entry_for c p). destruct (_ && _) eqn:Eb.
    + apply andb_true_iff in Eb as [Hlt%Z.ltb_lt Hdep]. ewp_step. apply ewp_darken_cell; [done..|]. intros s' Hs'.
      unfold raise_peak. ewp_step. apply HQ.
      * apply darkening_stats. by eapply darkening_step.
      * exact (grows_step _ _ _ _ Hs').
      * intros _ Hnd. exfalso. apply Hnd. apply (ds_dark _ _ _ _ Hs'); auto.
    + ewp_step. apply Hskip. intros _. apply andb_false_iff in Eb as [Hge%Z.ltb_ge|Hdep]; [auto|]. right. right.
      intros H%depends_on_removed_spec. congruence.
Qed.

Lemma ewp_darken_entry s c p Q : dk s → cell p → (∀ s', darkening s s' → settled_dark s' c p → Q tt s') →
  ewp (darken_entry prior b profile max_queue volume cache note (entry_for c p)) s Q E.
Proof using All.
  intros Hs Hp HQ. unfold darken_entry, count_darkened. ewp_steps.
  eapply ewp_expect; [by rewrite (dense_index_of_spec b Grid), decide_True by apply Hp|].
  apply (ewp_each _ (λ pre s', darkening s s' ∧ ∀ d o, (d, o) ∈ pre → spared s' c p o)).
  - split; [apply darkening_stats, darkening_refl; done|]. intros d o H. by apply elem_of_nil in H.
  - intros pre [d o] post s' Hl [H1 H2]. apply (ewp_darken_neighbour s); [done..|rewrite Hl; set_solver|].
    intros s2 Hs2 Hg Hsp. split; [done|]. intros d' o' [Hin|Hin]%elem_of_app.
    + eapply spared_grows; [done|by eapply H2].
    + apply list_elem_of_singleton in Hin. by simplify_eq.
  - intros s' [H1 H2]. apply HQ; [done|]. intros o (d & Hd)%offset_direction. by eapply H2.
Qed.

Lemma ewp_pop_darken s (Q : option DarkenEntry → SolveState → Prop) :
  match s_darken s with [] => Q None s | e :: rest => Q (Some e) (with_darken rest s) end → ewp pop_darken s Q E.
Proof using Type. unfold ewp, pop_darken. by destruct (s_darken s). Qed.

Lemma dk_pop s e rest : dk s → s_darken s = e :: rest → dk (with_darken rest s).
Proof using Type.
  intros Hs He. destruct Hs as [[H1 H2 H3 H4 H5] Hfr Hlv Hun Hsw Hen Hni Hno Hbu]. rewrite He in *. apply Forall_cons in Hen as [_ Hen].
  simpl in H5. split; try done. split; try done. simpl; lia.
Qed.

(** What darkening leaves: cells keep light only where it is justified, and what depended on lost light is lost. *)
Record darkened (cells : list (nat * BlockPos)) s : Prop := {
  dd_dk : dk s;
  dd_empty : s_darken s = [];
  dd_settled c p : cell p → dark s c p → settled_dark s c p;
  dd_cells x : x ∈ cells → filter_of x.2 ≠ None → justified s x.2 ∧ ba_sky_seed blocks x.2 ≤ 15;
}.

Lemma ewp_darken_all s (cells : list (nat * BlockPos)) Q : dk s → all_queued s → priors_ok blocks prior b →
  (∀ x, x ∈ cells → inside x.2 ∧ x.1 = dense x.2) → (∀ s', darkened cells s' → Q tt s') →
  ewp (darken_all blocks prior b profile max_queue volume cache note cells) s Q E.
Proof using All.
  intros Hs Hall Hpri Hcells HQ. unfold darken_all. ewp_step. apply ewp_seed_darken; [done..|]. clear s Hs Hall. intros s0 [Hs0 Hq0 Hc0].
  unfold raise_peak. ewp_steps.
  apply (ewp_drain _ _ (λ s, dk s ∧ grows s0 s ∧ ∀ c p, cell p → dark s c p → settled_dark s c p ∨ queued s c p)
    (λ s, Z.to_nat (max_queue - waiting s))).
  - split_and!; [by apply on_stats_dk|by intros ????|]. intros c p Hp Hd. right. by apply Hq0.
  - unfold fuel, waiting. simpl. pose proof (sh_counted _ _ _ (dk_shape _ Hs0)). lia.
  - intros s (Hs & Hg & Hw). apply ewp_pop_darken. destruct (s_darken s) as [|e rest] eqn:He.
    + apply HQ. split; [done..| |].
      * intros c p Hp Hd. destruct (Hw c p Hp Hd) as [?|(e & Hin & _)]; [done|]. rewrite He in Hin. by apply elem_of_nil in Hin.
      * intros x Hx Hf. destruct (Hc0 x Hx Hf) as [Hj ?]. split; [|done]. eapply justified_grows; [by apply Hcells|done..].
    + pose proof (dk_entries _ Hs) as Hen. rewrite He in Hen. apply Forall_cons in Hen as [(Hp & Hd & Hold & Hdir) _].
      set (c := de_channel e) in *. set (p := de_position e) in *. assert (e = entry_for c p) as Heq.
      { destruct e. unfold entry_for, c, p in *. simpl in *. by subst. }
      rewrite Heq. apply ewp_darken_entry; [by eapply dk_pop|done|]. intros s' H' Hset. split; [split_and!|].
      * apply H'.
      * eapply grows_trans; [exact Hg|apply (dn_grows _ _ H')].
      * intros c' q Hq Hdq. destruct (dn_new _ _ H' c' q Hq Hdq) as [Hold'|?]; [|by right].
        destruct (Hw c' q Hq Hold') as [Hse|(e' & Hin & <- & <-)].
        -- left. intros o Ho. eapply spared_grows; [apply (dn_grows _ _ H')|by apply Hse].
        -- rewrite He in Hin. apply elem_of_cons in Hin as [->|Hin]; [by left|]. right. apply H'. exists e'. auto.
      * pose proof (dn_waiting _ _ H') as Hwt. pose proof (sh_counted _ _ _ (dk_shape _ Hs)) as Hct. pose proof (sh_total _ _ _ (dk_shape _ Hs)).
        unfold waiting in *. simpl in Hwt. rewrite He in *. simpl in *. lia.
Qed.

(** ** From loaded to darkening *)

Lemma loaded_dk s : shape s → (∀ c, iq_entries (queue_of c s) = []) → s_darken s = [] → s_darkened s = [] → s_total s = 0 →
  loaded s → dk s ∧ all_queued s ∧ ∀ c p, cell p → lvl s c p = prior_level c p.
Proof using Grid.
  intros Hsh Hq He1 He2 He3 [Hlv Hsw].
  assert (Hl : ∀ c p, cell p → lvl s c p = prior_level c p).
  { intros c p [Hp Hf]. specialize (Hlv c p Hp). by destruct (filter_of p). }
  split; [|split; [intros c p Hp Hd; by destruct (Hd (Hl c p Hp))|done]].
  split; [done|done|auto| |done|by rewrite He1| | |].
  - intros c p Hp Hf. specialize (Hlv c p Hp). by rewrite Hf in Hlv.
  - intros c p _ Hp Hd. by destruct (Hd (Hl c p Hp)).
  - rewrite He2. intros x H. by apply elem_of_nil in H.
  - rewrite He3. pose proof (weight_bound b Grid (undark s) 2) as Hw. forward Hw; [|lia]. intros q _. unfold undark. repeat case_decide; lia.
Qed.
End darken.
