(* ===== verification/LightIncrease.v ===== *)
(** * Increasing

    The second half of a solve: cells that show light push it to their neighbours until no cell can rise. *)
From stdpp Require Import base numbers list gmap sets.
From S2P Require Import Prelude Packed Bytes Keys Snapshot Light LightGrid LightState Effects LightSolve LightField LightRules LightDarken.
#[local] Open Scope Z_scope.

Section increase.
Context (blocks : LightBlockAccess) (prior : LightReadAccess) (b : LightBounds) (profile : DimensionLightProfile) (max_queue : Z).
Context `{Inputs : !LightInputs blocks prior} (Grid : grid_ok b).
Context (Volume : Z.of_nat (volume_of b) ≤ 2 ^ 32 - 1) (Seeds : seeds_ok blocks b).
Notation volume := (volume_of b).
Notation cache := (block_cache_new blocks b).
Notation filter_of := (filter_of blocks).
Notation source_level := (source_level blocks profile).
Notation prior_level := (prior_level prior b).
Notation prior_direct := (prior_direct prior b).
Notation inside := (inside b).
Notation dense := (dense b).
Notation shape := (shape b max_queue).
Notation lvl := (lvl b).
Notation dir := (dir b).
Notation dflag := (dflag b).
Notation shown := (shown b).
Notation cell := (cell blocks b).
Notation lit := (lit blocks prior b profile).
Notation direct := (direct blocks prior b profile).
Notation halo := (halo blocks prior b).
Notation spreads := (LightField.spreads profile).
Implicit Types (p q : BlockPos) (c : LightChannel) (s : SolveState).

Context (E : LightSolveError → SolveState → Prop) (HE : ∀ e s, explained blocks prior b max_queue e → shape s → E e s).

(** Room left to rise: every entry that is counted uses some. *)
Definition slack s p : nat :=
  Z.to_nat (15 - lvl s BlockLight p) + Z.to_nat (15 - lvl s SkyLight p) + (if dir s p then 0 else 1).

(** The state while light spreads. *)
Record lit_ok s : Prop := {
  li_shape : shape s;
  li_direct : length (s_direct s) = volume;
  li_sound c p : cell p → ∃ v, lit c p v ∧ lvl s c p ≤ v;
  li_unknown c p : inside p → filter_of p = None → lvl s c p = 0;
  li_source c p : cell p → source_level c p ≤ lvl s c p;
  li_shown p : inside p → shown s p = true ↔ filter_of p ≠ None;
  li_dir p : inside p → dir s p = true → direct p ∧ lvl s SkyLight p = 15;
  li_dir_source p : inside p → direct_sky_down profile = true → filter_of p = Some 0 → source_level SkyLight p = 15 → dir s p = true;
  li_flag c p : inside p → dflag s c p = true → c = SkyLight ∧ dir s p = true;
  li_pending_direct p : inside p → dir s p = true → p ∈ pending s SkyLight → dflag s SkyLight p = true;
  li_pending c p : p ∈ pending s c → cell p;
  li_budget : s_total s + Z.of_nat (weight b (slack s)) ≤ 35 * volume_z b;
}.

(** The light [p] sends to [shift p o] has arrived. *)
Definition arrived s c p o : Prop := ∀ filter, inside (shift p o) → filter_of (shift p o) = Some filter →
  attenuate (lvl s c p) filter ≤ lvl s c (shift p o) ∧
  (c = SkyLight → direct_sky_down profile = true → dir s p = true → o = down → filter = 0 → dir s (shift p o) = true).
Definition settled s c p : Prop := ∀ o, o ∈ NEIGHBOURS → arrived s c p o.
Definition worked s c p : Prop := p ∈ pending s c ∨ settled s c p.

(** What a channel's spreading leaves alone. *)
Record frame c s s' : Prop := {
  fr_lvl c' p : c' ≠ c → inside p → lvl s' c' p = lvl s c' p;
  fr_queue c' : c' ≠ c → queue_of c' s' = queue_of c' s;
  fr_dir p : c = BlockLight → inside p → dir s' p = dir s p;
  fr_rise c' p : inside p → lvl s c' p ≤ lvl s' c' p;
  fr_dir_rise p : inside p → dir s p = true → dir s' p = true;
}.

Lemma frame_refl c s : frame c s s.
Proof using Type. by split. Qed.

Lemma frame_trans c s1 s2 s3 : frame c s1 s2 → frame c s2 s3 → frame c s1 s3.
Proof using Type.
  intros [A1 A2 A3 A4 A5] [B1 B2 B3 B4 B5]. split.
  - intros c' p Hc Hp. by rewrite B1, A1.
  - intros c' Hc. by rewrite B2, A2.
  - intros p Hc Hp. by rewrite B3, A3.
  - intros c' p Hp. etransitivity; [by apply A4|by apply B4].
  - auto.
Qed.

Lemma sound_range s c p : lit_ok s → cell p → 0 ≤ lvl s c p ≤ 15.
Proof using Inputs Seeds.
  intros Hs Hp. destruct (li_sound _ Hs c p Hp) as (v & Hv & Hle). apply lit_range in Hv; [|done..].
  pose proof (li_source _ Hs c p Hp). assert (0 ≤ source_level c p ≤ 15) by (eapply source_range_inside; [done..|apply Hp]). lia.
Qed.

Definition stalled c s : Z := s_total s - Z.of_nat (length (iq_entries (queue_of c s))).

(** One cell rises to [v] and is queued. *)
Record rise c p (v : Z) (d : bool) s s' : Prop := {
  ri_ok : lit_ok s';
  ri_lvl c' q : inside q → lvl s' c' q = if decide (c' = c ∧ q = p) then Z.max (lvl s c p) v else lvl s c' q;
  ri_dir q : inside q → dir s' q = if decide (q = p) then dir s p || d else dir s q;
  ri_pending c' q : q ∈ pending s' c' ↔ q ∈ pending s c' ∨ (c' = c ∧ q = p);
  ri_frame : frame c s s';
  ri_stalled : stalled c s' = stalled c s;
}.

Lemma explained_queue s : s_total s + 1 ≤ 35 * volume_z b → max_queue < s_total s + 1 → shape s → E (QueueLimitExceeded max_queue) s.
Proof using HE. intros H1 H2 Hs. apply HE; [|done]. split; [done|]. lia. Qed.

(** The level after the optional store. *)
Lemma ewp_store_max s c p v Q : shape s → inside p →
  (∀ s1, shape s1 → (∃ o, s1 = with_output o s) →
     (∀ c' q, inside q → lvl s1 c' q = if decide (c' = c ∧ q = p) then Z.max (lvl s c p) v else lvl s c' q) →
     (∀ q, inside q → shown s1 q = if decide (q = p ∧ lvl s c p < v) then true else shown s q) → Q tt s1) →
  ewp (if lvl s c p <? v then store (dense p) c v else mret tt) s Q E.
Proof using Type.
  intros Hs Hp HQ. destruct (Z.ltb_spec (lvl s c p) v) as [Hlt|Hge].
  - apply (ewp_store b max_queue); [done..|]. apply HQ; [by apply shape_put| | |].
    + unfold put_level. eauto.
    + intros c' q Hq. rewrite (lvl_put b max_queue) by done. goal_decide as Hcq; [|done]. lia.
    + intros q Hq. rewrite (shown_put b max_queue) by done. repeat (let H := fresh in goal_decide as H); tauto.
  - ewp_step. apply HQ; [done|exists (s_output s); by destruct s| |].
    + intros c' q Hq. goal_decide as Hcq; [destruct Hcq as [-> ->]; lia|done].
    + intros q Hq. rewrite decide_False by lia. done.
Qed.

Lemma dir_insert s p q : length (s_direct s) = volume → inside p → inside q →
  dir (with_direct (<[dense p := true]> (s_direct s)) s) q = if decide (q = p) then true else dir s q.
Proof using Type.
  intros Hl Hp Hq. unfold LightRules.dir. simpl. pose proof (dense_lt b p Hp). goal_decide as He.
  - subst. by rewrite list_lookup_insert_eq by lia.
  - by rewrite list_lookup_insert_ne by (intros E'%(dense_inj b); [by subst|done..]).
Qed.

Lemma ewp_rise s c p v d X Q : lit_ok s → cell p →
  lvl s c p < v ∨ (v = lvl s c p ∧ d = true ∧ dir s p = false) →
  (∃ w, lit c p w ∧ v ≤ w) → (d = true → c = SkyLight ∧ direct p ∧ v = 15) →
  (∀ s (Q : unit → SolveState → Prop), length (s_direct s) = volume →
     Q tt (if d then with_direct (<[dense p := true]> (s_direct s)) s else s) → ewp X s Q E) →
  (∀ s', rise c p v d s s' → Q tt s') →
  ewp (_ ← (if lvl s c p <? v then store (dense p) c v else mret tt); _ ← X; push_back c (mk_increase p (dense p) d) max_queue) s Q E.
Proof using All.
  intros Hs Hc Hcond (w & Hw & Hvw) Hd HX HQ. pose proof (li_shape _ Hs) as Hsh. destruct Hc as [Hp Hf].
  assert (Hw15 : w ≤ 15) by (apply lit_range in Hw; [lia|done..]).
  ewp_step. apply ewp_store_max; [done..|]. intros s1 Hsh1 (o & ->) Hl1 Hk1. set (s1 := with_output o s) in *.
  ewp_step. apply HX; [apply Hs|]. set (s2 := if d then _ else s1).
  assert (Ho2 : s_output s2 = s_output s1 ∧ s_darken s2 = s_darken s ∧ s_total s2 = s_total s ∧ length (s_direct s2) = volume ∧
    ∀ c', queue_of c' s2 = queue_of c' s).
  { unfold s2. destruct d; simpl; rewrite ?length_insert; repeat split; try apply Hs; by intros []. }
  destruct Ho2 as (Ho2 & Hda2 & Ht2 & Hld2 & Hq2).
  assert (Hdir2 : ∀ q, inside q → dir s2 q = if decide (q = p) then dir s p || d else dir s q).
  { intros q Hq. unfold s2. destruct d.
    - change (dir s1) with (dir s). rewrite dir_insert by (done || apply Hs). (let H := fresh in goal_decide as H); [by rewrite orb_true_r|done].
    - rewrite orb_false_r. change (dir s1 q) with (dir s q). by (let H := fresh in goal_decide as H); subst. }
  assert (Hsh2 : shape s2).
  { destruct Hsh1 as [H1 H2 H3 H4 H5]. split; [by rewrite Ho2|by left|intros c'; rewrite Hq2; apply H3|by rewrite Ht2|].
    rewrite Ht2, Hda2. pose proof (Hq2 BlockLight) as E1. pose proof (Hq2 SkyLight) as E2. simpl in E1, E2. rewrite E1, E2. apply Hsh. }
  assert (Hl2 : ∀ c' q, inside q → lvl s2 c' q = if decide (c' = c ∧ q = p) then Z.max (lvl s c p) v else lvl s c' q).
  { intros c' q Hq. rewrite <-Hl1 by done. unfold LightRules.lvl. by rewrite Ho2. }
  assert (Hw2 : (weight b (slack s2) + 1 ≤ weight b (slack s))%nat).
  { assert (Hcase : ∀ q, inside q → ∀ c', lvl s c' q ≤ lvl s2 c' q) by (intros q Hq c'; rewrite Hl2 by done; goal_decide as E'; [destruct E' as [-> ->]|]; lia).
    apply (weight_drop b Grid _ _ p); [|done|].
    - intros q Hq. unfold slack. pose proof (Hcase q Hq BlockLight). pose proof (Hcase q Hq SkyLight). rewrite Hdir2 by done.
      destruct (decide (q = p)) as [->|]; [|lia]. destruct (dir s p), d; simpl; lia.
    - unfold slack. rewrite Hdir2, decide_True by done. pose proof (Hcase p Hp BlockLight). pose proof (Hcase p Hp SkyLight).
      destruct Hcond as [Hlt|(-> & -> & ->)]; [|simpl; lia].
      assert (lvl s c p < lvl s2 c p ≤ 15) by (rewrite Hl2, decide_True by done; lia).
      destruct c, (dir s p), d; simpl; lia. }
  pose proof (li_budget _ Hs) as Hb. pose proof (volume_z_of b Grid) as Hvz.
  assert (Hflag2 : ∀ c' q, flag b s2 c' q = flag b s c' q) by (intros; unfold flag; by rewrite Hq2).
  assert (Hdf2 : ∀ c' q, dflag s2 c' q = dflag s c' q) by (intros; unfold LightRules.dflag; by rewrite Hflag2).
  assert (Hpe2 : ∀ c', pending s2 c' = pending s c') by (intros; unfold pending; by rewrite Hq2).
  apply (ewp_push_back b max_queue); [done..| | |].
  { rewrite Ht2. change (2 ^ 63) with 9223372036854775808. lia. }
  { intros _ Hm. rewrite Ht2 in Hm. apply explained_queue; [rewrite Ht2; lia|by rewrite Ht2|done]. }
  intros Hm. apply HQ. set (s3 := pushed b s2 c p d).
  assert (Hsh3 : shape s3) by (eapply shape_pushed; done).
  assert (Hl3 : ∀ c' q, lvl s3 c' q = lvl s2 c' q) by (intros; unfold LightRules.lvl, s3, pushed; by destruct c).
  assert (Hdi3 : ∀ q, dir s3 q = dir s2 q) by (intros; unfold LightRules.dir, s3, pushed; by destruct c).
  assert (Hpe3 : ∀ c' q, q ∈ pending s3 c' ↔ q ∈ pending s c' ∨ (c' = c ∧ q = p)).
  { intros c' q. unfold s3. rewrite (pending_pushed b max_queue), !Hpe2 by done. goal_decide as Hcp.
    - rewrite elem_of_app, list_elem_of_singleton. destruct Hcp as [-> _]. naive_solver.
    - split; [by left|]. intros [?|[-> ->]]; [done|]. destruct (decide (p ∈ pending s c)); [done|]. tauto. }
  assert (Hdf3 : ∀ c' q, inside q → dflag s3 c' q = if decide (c' = c ∧ q = p) then dflag s c p || d else dflag s c' q).
  { intros c' q Hq. unfold s3. rewrite (dflag_pushed b max_queue) by done. by rewrite !Hdf2. }
  assert (Hlow : ∀ c' q, inside q → lvl s c' q ≤ lvl s3 c' q).
  { intros c' q Hq. rewrite Hl3, Hl2 by done. goal_decide as E'; [destruct E' as [-> ->]|]; lia. }
  assert (Hok : lit_ok s3).
  { split; [done|..].
    - unfold s3, pushed. by destruct c.
    - intros c' q Hq. rewrite Hl3, Hl2 by apply Hq. goal_decide as Hcq; [|by apply Hs]. destruct Hcq as [-> ->].
      destruct (li_sound _ Hs c p (conj Hp Hf)) as (u & Hu & Hule). destruct (Z.max_spec (lvl s c p) v) as [[_ ->]|[_ ->]]; eauto.
    - intros c' q Hq Hn. rewrite Hl3, Hl2, decide_False by (done || by intros [_ ->]). by apply Hs.
    - intros c' q Hq. etransitivity; [by apply Hs|]. apply Hlow, Hq.
    - intros q Hq. assert (shown s3 q = shown s1 q) as -> by (unfold LightRules.shown, s3, pushed; rewrite <-Ho2; by destruct c).
      rewrite Hk1 by done. goal_decide as E'; [destruct E' as [-> _]; by split|by apply Hs].
    - intros q Hq. rewrite Hdi3, Hdir2 by done. intros Hdq. rewrite Hl3, Hl2 by done. destruct (decide (q = p)) as [->|Hne].
      + destruct (dir s p) eqn:Edp.
        * destruct (li_dir _ Hs p Hp Edp) as [? Hl15]. split; [done|]. goal_decide as E'; [|done]. destruct E' as [<- _]. lia.
        * simpl in Hdq. destruct (Hd Hdq) as (-> & ? & ->). split; [done|]. rewrite decide_True by done. 
          pose proof (sound_range s SkyLight p Hs (conj Hp Hf)). lia.
      + rewrite decide_False by tauto. by apply Hs.
    - intros q Hq H1 H2 H3. rewrite Hdi3, Hdir2 by done. pose proof (li_dir_source _ Hs q Hq H1 H2 H3). (let H := fresh in goal_decide as H); [subst; by rewrite H|done].
    - intros c' q Hq. rewrite Hdf3, Hdi3, Hdir2 by done. goal_decide as Hcq.
      + destruct Hcq as [-> ->]. rewrite decide_True by done. intros [Hdf|Hdd]%orb_true_iff.
        * destruct (li_flag _ Hs c p Hp Hdf) as [? ->]. done.
        * destruct (Hd Hdd) as (-> & _). split; [done|]. by rewrite Hdd, orb_true_r.
      + intros Hdf. destruct (li_flag _ Hs c' q Hq Hdf) as [? Hdq]. split; [done|]. (let H := fresh in goal_decide as H); [subst; by rewrite Hdq|done].
    - intros q Hq. rewrite Hdi3, Hdir2, Hpe3, Hdf3 by done. intros Hdq Hin. destruct (decide (SkyLight = c ∧ q = p)) as [[<- ->]|Hne].
      + rewrite decide_True in Hdq by done. apply orb_true_iff. destruct d; [by right|left]. rewrite orb_false_r in Hdq.
        destruct (li_dir _ Hs p Hp Hdq) as [_ Hl15]. exfalso. destruct Hcond as [?|(_ & ? & _)]; [lia|done].
      + assert (Hdq' : dir s q = true).
        { destruct (decide (q = p)) as [->|]; [|done]. destruct d; [|by rewrite orb_false_r in Hdq]. destruct (Hd eq_refl) as (-> & _). tauto. }
        apply Hs; [done..|]. destruct Hin as [?|[? ?]]; [done|]. subst. tauto.
    - intros c' q Hin. apply Hpe3 in Hin as [?|[-> ->]]; [by eapply li_pending|done].
    - unfold s3. rewrite total_pushed, Ht2. assert (Hw3 : (weight b (slack (pushed b s2 c p d)) ≤ weight b (slack s2))%nat).
      { apply weight_le; [done|]. intros q Hq. fold s3. unfold slack. by rewrite !Hl3, Hdi3. }
      destruct (flag b s2 c p =? 0); lia. }
  split; [done| | |done| |].
  - intros c' q Hq. rewrite Hl3. by apply Hl2.
  - intros q Hq. rewrite Hdi3. by apply Hdir2.
  - split.
    + intros c' q Hne Hq. rewrite Hl3, Hl2 by done. by rewrite decide_False by tauto.
    + intros c' Hne. unfold s3, pushed. rewrite queue_of_with, decide_False, queue_of_total by done. apply Hq2.
    + intros q Hb' Hq. rewrite Hdi3, Hdir2 by done. destruct d; [destruct (Hd eq_refl); congruence|]. rewrite orb_false_r. by (let H := fresh in goal_decide as H); subst.
    + done.
    + intros q Hq Hdq. rewrite Hdi3, Hdir2 by done. (let H := fresh in goal_decide as H); [subst; by rewrite Hdq|done].
  - unfold stalled, s3. rewrite total_pushed, Ht2. unfold pushed. rewrite queue_of_with, decide_True by done. cbn [iq_entries]. rewrite Hq2.
    destruct (flag b s2 c p =? 0); [rewrite length_app; simpl|]; lia.
Qed.

Lemma rise_worked c p v d s s' c' q : rise c p v d s s' → cell p → inside q → worked s c' q → worked s' c' q.
Proof using Type.
  intros H [Hp _] Hq [Hin|Hset]; [left; apply (ri_pending _ _ _ _ _ _ H); auto|].
  destruct (decide (c' = c ∧ q = p)) as [[-> ->]|Hne]; [left; apply (ri_pending _ _ _ _ _ _ H); auto|]. right.
  intros o Ho f Hi Hf. destruct (Hset o Ho f Hi Hf) as [H1 H2]. pose proof (ri_frame _ _ _ _ _ _ H) as Hfr. split.
  - rewrite (ri_lvl _ _ _ _ _ _ H c' q), decide_False by done. etransitivity; [exact H1|]. by apply (fr_rise _ _ _ Hfr).
  - intros -> Hd Hdq -> ->. apply (fr_dir_rise _ _ _ Hfr); [done|]. apply H2; try done.
    rewrite (ri_dir _ _ _ _ _ _ H) in Hdq by done. destruct (decide (q = p)) as [->|]; [|done].
    assert (c ≠ SkyLight) as Hc by (intros ->; tauto). rewrite <-(fr_dir _ _ _ Hfr p); [|by destruct c|done].
    by rewrite (ri_dir _ _ _ _ _ _ H), decide_True by done.
Qed.

Lemma lit_ok_stats f s : lit_ok s → lit_ok (on_stats f s).
Proof using Type. intros []. split; try done. by destruct li_shape0. Qed.

Lemma frame_stats c f s s' : frame c s s' → frame c s (on_stats f s').
Proof using Type. intros []. by split. Qed.

(** ** The six neighbours of an entry *)

(** The loop over the neighbours of [p], started in [s1]. *)
Record spreading s1 c p (pre : list (nat * (Z * Z * Z))) s : Prop := {
  sp_ok : lit_ok s;
  sp_frame : frame c s1 s;
  sp_self : lvl s c p = lvl s1 c p ∧ dir s p = dir s1 p;
  sp_others q : cell q → q ≠ p → worked s c q;
  sp_arrived d o : (d, o) ∈ pre → arrived s c p o;
  sp_stalled : stalled c s = stalled c s1;
}.

Lemma arrived_rise s s' c p q v d o : rise c q v d s s' → cell q → inside p → q ≠ p → arrived s c p o → arrived s' c p o.
Proof using Type.
  intros H Hq Hp Hne Ha f Hi Hf. destruct (Ha f Hi Hf) as [H1 H2]. pose proof (ri_frame _ _ _ _ _ _ H) as Hfr. split.
  - rewrite (ri_lvl _ _ _ _ _ _ H c p), decide_False by (done || (intros [_ ?]; congruence)). etransitivity; [exact H1|]. by apply (fr_rise _ _ _ Hfr).
  - intros -> Hd Hdp -> ->. apply (fr_dir_rise _ _ _ Hfr); [done|]. apply H2; try done.
    by rewrite (ri_dir _ _ _ _ _ _ H), decide_False in Hdp by (done || congruence).
Qed.

Lemma ewp_direct_insert s p Q : length (s_direct s) = volume → inside p → Q tt (with_direct (<[dense p := true]> (s_direct s)) s) →
  ewp (direct_insert (dense p)) s Q E.
Proof using Type.
  intros Hl Hp HQ. eapply ewp_update; [|exact HQ]. unfold insert_at_index, set_slot.
  rewrite decide_True; [done|]. rewrite Hl. by apply dense_lt.
Qed.

Lemma ewp_direct_contains s p (Q : bool → SolveState → Prop) : length (s_direct s) = volume → inside p → Q (dir s p) s →
  ewp (direct_contains (dense p)) s Q E.
Proof using Type.
  intros Hl Hp HQ. unfold direct_contains, contains_at_index. ewp_steps. eapply ewp_expect; [|exact HQ].
  pose proof (dense_lt b p Hp) as Hlt. rewrite <-Hl in Hlt. apply lookup_lt_is_Some in Hlt as [v Hv]. unfold LightRules.dir. by rewrite Hv.
Qed.

(** What an entry of [p] offers a neighbour is light that reaches it. *)
Lemma offer_lit s c p o f : lit_ok s → cell p → o ∈ NEIGHBOURS → inside (shift p o) → filter_of (shift p o) = Some f →
  ∃ w, lit c (shift p o) w ∧ attenuate (lvl s c p) f ≤ w.
Proof using Inputs.
  intros Hs Hp Ho Hi Hf. destruct (li_sound _ Hs c p Hp) as (v & Hv & Hle). exists (attenuate v f). split.
  - eapply (lit_step _ _ _ _ _ _ _ (opposite o)); [done..|by apply opposite_neighbour|]. by rewrite shift_opposite.
  - unfold attenuate, saturating_sub. lia.
Qed.

Lemma ewp_increase_neighbour s1 c p pre s d o Q : spreading s1 c p pre s → cell p → (d, o) ∈ enumerate NEIGHBOURS →
  (∀ s', spreading s1 c p (pre ++ [(d, o)]) s' → Q tt s') →
  ewp (increase_neighbour b profile max_queue cache c (mk_increase p (dense p) (is_sky c && dir s1 p)) (lvl s1 c p) (d, o)) s Q E.
Proof using All.
  intros Hs Hp Hd HQ. pose proof (sp_ok _ _ _ _ _ Hs) as Hok. pose proof (li_shape _ Hok) as Hsh.
  destruct (sp_self _ _ _ _ _ Hs) as [Hl1 Hd1]. pose proof (direction_offset _ _ Hd) as Ho.
  assert (Hdone : ∀ s', lit_ok s' → frame c s1 s' → lvl s' c p = lvl s1 c p → dir s' p = dir s1 p → (∀ q, cell q → q ≠ p → worked s' c q) →
    (∀ o', arrived s c p o' → arrived s' c p o') → arrived s' c p o → stalled c s' = stalled c s1 → Q tt s').
  { intros s' H1 H2 H3 H4 H5 H6 H7 H8. apply HQ. split; [done..| |done]. intros d' o' [Hin|Hin]%elem_of_app.
    - apply H6. by eapply sp_arrived.
    - apply list_elem_of_singleton in Hin. by simplify_eq. }
  assert (Hskip : arrived s c p o → Q tt s) by (intros H; apply Hdone; try done; apply Hs).
  unfold increase_neighbour. cbn [fst snd ie_position ie_index ie_direct_sky]. ewp_step.
  eapply ewp_expect; [apply neighbour_spec; [apply Hp|done]|]. destruct (decide (inside (shift p o))) as [Hi|Hi]; [|ewp_step; apply Hskip; by intros ???].
  ewp_step. apply ewp_filter_at; [done..|]. destruct (filter_of (shift p o)) as [f|] eqn:Ef; [|ewp_step; apply Hskip; intros ? _ ?; congruence].
  assert (Hq : cell (shift p o)) by (split; [done|by rewrite Ef]). rewrite <-Hl1.
  set (cont := is_sky c && _ && _ && _ && _ && _).
  assert (Hcont : cont = true ↔ c = SkyLight ∧ direct_sky_down profile = true ∧ dir s p = true ∧ o = down ∧ lvl s c p = 15 ∧ f = 0).
  { unfold cont. rewrite !andb_true_iff, !Z.eqb_eq, bool_decide_eq_true, Hd1. destruct c; simpl; intuition congruence. }
  set (v := if cont then 15 else saturating_sub (lvl s c p) (Z.max f 1)).
  assert (Hv : attenuate (lvl s c p) f ≤ v).
  { unfold v. destruct cont; [|done]. pose proof (sound_range s c p Hok Hp). pose proof (attenuate_range (lvl s c p) f). lia. }
  ewp_step. apply (ewp_load b max_queue); [done..|]. ewp_step.
  assert (Hgain : ∀ gains : bool, gains = cont && negb (dir s (shift p o)) →
    ewp (if (lvl s c (shift p o) <? v) || ((v =? lvl s c (shift p o)) && gains) then
        _ ← (if lvl s c (shift p o) <? v then store (dense (shift p o)) c v else mret tt);
        _ ← (if cont then direct_insert (dense (shift p o)) else mret tt);
        _ ← push_back c (mk_increase (shift p o) (dense (shift p o)) cont) max_queue;
        raise_peak (queue_len c)
      else mret tt) s Q E).
  { intros gains ->. destruct (_ || _) eqn:Eb.
    - assert (Hcond : lvl s c (shift p o) < v ∨ (v = lvl s c (shift p o) ∧ cont = true ∧ dir s (shift p o) = false)).
      { rewrite orb_true_iff, !andb_true_iff, Z.ltb_lt, Z.eqb_eq, negb_true_iff in Eb. tauto. }
      pose proof (ewp_rise s c (shift p o) v cont (if cont then direct_insert (dense (shift p o)) else mret tt)
        (λ _ s', ewp (raise_peak (queue_len c)) s' Q E)) as Hr.
      forward Hr; [done|]. specialize (Hr Hq Hcond). forward Hr.
      { unfold v. destruct cont eqn:Ec; [|by apply offer_lit]. destruct (proj1 Hcont eq_refl) as (-> & H2 & H3 & -> & H5 & ->).
        exists 15. split; [|lia]. apply lit_direct; [done|]. apply direct_below; [done..|]. rewrite shift_down_up. by apply (li_dir _ Hok p); [apply Hp|]. }
      forward Hr.
      { intros Ec. destruct (proj1 Hcont Ec) as (-> & H2 & H3 & -> & H5 & ->). split; [done|]. split; [|unfold v; by rewrite Ec].
        apply direct_below; [done..|]. rewrite shift_down_up. by apply (li_dir _ Hok p); [apply Hp|]. }
      forward Hr.
      { intros s2 Q2 Hl2 HQ2. destruct cont; [by apply ewp_direct_insert|done]. }
      assert (Hassoc : ∀ (A B C D : S unit), ewp (_ ← A; _ ← B; C) s (λ _ s', ewp D s' Q E) E → ewp (_ ← A; _ ← B; _ ← C; D) s Q E).
      { intros A B C D. unfold ewp, mbind, eff_bind. destruct (A s) as [[[[]|] s2]|]; [|done..]. destruct (B s2) as [[[[]|] s3]|]; [|done..].
        by destruct (C s3) as [[[[]|] s4]|]. }
      apply Hassoc, Hr. clear Hr Hassoc. intros s' Hs'. unfold raise_peak. ewp_step.
      assert (Hne : shift p o ≠ p) by by apply shift_ne.
      apply Hdone; [apply lit_ok_stats, Hs'|apply frame_stats; eapply frame_trans; [apply Hs|exact (ri_frame _ _ _ _ _ _ Hs')]|..].
      + change (lvl s' c p = lvl s1 c p). rewrite (ri_lvl _ _ _ _ _ _ Hs'), decide_False by (apply Hp || naive_solver). done.
      + change (dir s' p = dir s1 p). rewrite (ri_dir _ _ _ _ _ _ Hs'), decide_False by (apply Hp || naive_solver). done.
      + intros q Hcq Hneq. change (worked s' c q). eapply rise_worked; [done..|apply Hcq|]. by apply (sp_others _ _ _ _ _ Hs).
      + intros o' Ha. change (arrived s' c p o'). eapply arrived_rise; [done..|apply Hp|done|done].
      + change (arrived s' c p o). intros f' _ Hf'. rewrite Ef in Hf'. injection Hf' as <-.
        rewrite !(ri_lvl _ _ _ _ _ _ Hs') by (done || apply Hp). rewrite decide_False by naive_solver. rewrite decide_True by done. split; [lia|].
        intros Hc H2 H3 H4 H5. rewrite (ri_dir _ _ _ _ _ _ Hs'), decide_True by done. apply orb_true_iff. right. apply Hcont.
        rewrite (ri_dir _ _ _ _ _ _ Hs'), decide_False in H3 by (apply Hp || naive_solver). split_and!; try done.
        subst c. apply (li_dir _ Hok p); [apply Hp|done].
      + exact (eq_trans (ri_stalled _ _ _ _ _ _ Hs') (sp_stalled _ _ _ _ _ Hs)).
    - ewp_step. apply Hskip. rewrite orb_false_iff, andb_false_iff, Z.ltb_ge, Z.eqb_neq in Eb. destruct Eb as [Hle Hor].
      intros f' _ Hf'. rewrite Ef in Hf'. injection Hf' as <-. split; [lia|]. intros -> H2 H3 -> ->.
      assert (Hl15 : lvl s SkyLight p = 15) by (apply (li_dir _ Hok p); [apply Hp|done]).
      assert (Hc : cont = true) by (by apply Hcont). assert (v = 15) as Hv15 by (unfold v; by rewrite Hc).
      pose proof (sound_range s SkyLight (shift p down) Hok Hq). destruct Hor as [?|Hor]; [lia|].
      rewrite Hc in Hor. simpl in Hor. by apply negb_false_iff in Hor. }
  destruct cont eqn:Ec.
  - ewp_step. apply ewp_direct_contains; [apply Hok|done|]. ewp_step. by apply Hgain.
  - ewp_step. by apply Hgain.
Qed.

(** ** The loop *)

Lemma lit_ok_popped s c p i rest : lit_ok s → iq_entries (queue_of c s) = (p, i) :: rest →
  lit_ok (popped b s c p rest) ∧ frame c s (popped b s c p rest) ∧ cell p ∧
  (∀ q, q ∈ pending s c → q = p ∨ q ∈ pending (popped b s c p rest) c).
Proof using All.
  intros Hs He. set (s1 := popped b s c p rest). pose proof (li_shape _ Hs) as Hsh.
  assert (Hpe : pending s c = p :: rest.*1) by (unfold pending; by rewrite He).
  assert (Hp : cell p) by (eapply li_pending; [done|rewrite Hpe; set_solver]).
  assert (Hpe1 : pending s1 c = rest.*1) by (unfold pending, s1, popped; by rewrite queue_of_with, decide_True).
  assert (Hpo : ∀ c', c' ≠ c → queue_of c' s1 = queue_of c' s) by (intros c' Hne; unfold s1, popped; by rewrite queue_of_with, decide_False).
  assert (Hsub : ∀ c' q, q ∈ pending s1 c' → q ∈ pending s c').
  { intros c' q. destruct (decide (c' = c)) as [->|Hne]; [rewrite Hpe, Hpe1; set_solver|]. unfold pending. by rewrite Hpo. }
  assert (Hd : ∀ c' q, inside q → dflag s1 c' q = if decide (c' = c ∧ q = p) then false else dflag s c' q).
  { intros c' q Hq. unfold LightRules.dflag, s1. rewrite (flag_popped b max_queue) by (done || apply Hp). by goal_decide as Hx. }
  assert (Hout : s_output s1 = s_output s ∧ s_direct s1 = s_direct s ∧ s_total s1 = s_total s) by (unfold s1, popped; by destruct c).
  destruct Hout as (Ho & Hdi & Ht).
  assert (Hl : ∀ c' q, lvl s1 c' q = lvl s c' q) by (intros; unfold LightRules.lvl; by rewrite Ho).
  assert (Hdir : ∀ q, dir s1 q = dir s q) by (intros; unfold LightRules.dir; by rewrite Hdi).
  split; [|split; [|split; [done|]]].
  - split; try (intros; rewrite ?Hl, ?Hdir; by apply Hs).
    + by eapply shape_popped.
    + rewrite Hdi. apply Hs.
    + intros q Hq. unfold LightRules.shown. rewrite Ho. by apply Hs.
    + intros q Hq. rewrite Hdir, Hl. by apply Hs.
    + intros c' q Hq. rewrite Hd, Hdir by done. goal_decide as Hx; [done|]. by apply Hs.
    + intros q Hq. rewrite Hdir, Hd by done. intros Hdq Hin. goal_decide as Hx.
      * destruct Hx as [<- ->]. exfalso. rewrite Hpe1 in Hin. pose proof (qw_nodup _ _ (sh_queue _ _ _ Hsh SkyLight)) as Hnd.
        unfold pending in Hpe. rewrite Hpe in Hnd. apply NoDup_cons in Hnd as [? _]. done.
      * apply Hs; [done..|]. by apply Hsub.
    + intros c' q Hin. eapply li_pending; [done|by apply Hsub].
    + rewrite Ht. assert (Hw : (weight b (slack s1) ≤ weight b (slack s))%nat); [|pose proof (li_budget _ Hs); lia].
      apply weight_le; [done|]. intros q Hq. unfold slack. by rewrite !Hl, Hdir.
  - split; intros; rewrite ?Hl, ?Hdir; auto; lia.
  - intros q. rewrite Hpe, Hpe1. set_solver.
Qed.

Lemma worked_transfer s s' c q : (∀ r, inside r → lvl s' c r = lvl s c r) → (∀ r, inside r → dir s' r = dir s r) → inside q →
  settled s c q → settled s' c q.
Proof using Type.
  intros Hl Hd Hq H o Ho f Hi Hf. destruct (H o Ho f Hi Hf) as [H1 H2]. rewrite !Hl, !Hd by done. done.
Qed.

Lemma ewp_increase_entry s1 c p Q : lit_ok s1 → cell p → (∀ q, cell q → q ≠ p → worked s1 c q) →
  (∀ s', lit_ok s' → frame c s1 s' → (∀ q, cell q → worked s' c q) → stalled c s' = stalled c s1 → Q tt s') →
  ewp (increase_entry b profile max_queue cache c (mk_increase p (dense p) (is_sky c && dir s1 p))) s1 Q E.
Proof using All.
  intros Hs Hp Hw HQ. unfold increase_entry, count_increased. ewp_steps. apply (ewp_load b max_queue); [apply lit_ok_stats, Hs|apply Hp|].
  match goal with |- ewp _ ?s _ _ => set (s2 := s) end.
  change (lvl s2 c p) with (lvl s1 c p).
  apply (ewp_each _ (spreading s1 c p)).
  - split; [by apply lit_ok_stats|apply frame_stats, frame_refl|done|intros q Hq Hne; exact (Hw q Hq Hne)|intros d o H; by apply elem_of_nil in H|done].
  - intros pre [d o] post s Hl Hsp. eapply ewp_increase_neighbour; [done..|rewrite Hl; set_solver|auto].
  - intros s' Hsp. apply HQ; [apply Hsp..| |apply Hsp]. intros q Hq. destruct (decide (q = p)) as [->|Hne]; [|by apply (sp_others _ _ _ _ _ Hsp)].
    right. intros o (d & Hd)%offset_direction. by eapply sp_arrived.
Qed.

Lemma ewp_increase_all s0 c Q : lit_ok s0 → (∀ q, cell q → worked s0 c q) →
  (∀ s', lit_ok s' → frame c s0 s' → iq_entries (queue_of c s') = [] → (∀ q, cell q → settled s' c q) → Q tt s') →
  ewp (drain (queue_pop c) (increase_entry b profile max_queue cache c) (fuel max_queue)) s0 Q E.
Proof using All.
  intros Hs0 Hw0 HQ. apply (ewp_drain _ _ (λ s, lit_ok s ∧ frame c s0 s ∧ ∀ q, cell q → worked s c q) (λ s, Z.to_nat (max_queue - stalled c s))).
  - split_and!; [done|apply frame_refl|done].
  - pose proof (sh_counted _ _ _ (li_shape _ Hs0)). unfold fuel, stalled. destruct c; simpl; lia.
  - intros s (Hs & Hf & Hw). apply (ewp_queue_pop b max_queue); [apply Hs|]. destruct (iq_entries (queue_of c s)) as [|[p i] rest] eqn:He.
    + apply HQ; [done..|]. intros q Hq. destruct (Hw q Hq) as [Hin|?]; [|done]. unfold pending in Hin. rewrite He in Hin. by apply elem_of_nil in Hin.
    + intros Hp. destruct (lit_ok_popped s c p i rest Hs He) as (Hs1 & Hf1 & Hc & Hpe). set (s1 := popped b s c p rest) in *.
      assert (Hdf : dflag s c p = is_sky c && dir s1 p).
      { assert (dir s1 p = dir s p) as -> by (unfold LightRules.dir, s1, popped; by destruct c).
        assert (Hin : p ∈ pending s c) by (unfold pending; rewrite He; set_solver).
        destruct (dflag s c p) eqn:Ed; [destruct (li_flag _ Hs c p Hp Ed) as [-> ->]; done|].
        symmetry. apply andb_false_iff. destruct c; [by left|right]. apply not_true_is_false. intros Hd.
        rewrite (li_pending_direct _ Hs p Hp Hd Hin) in Ed. done. }
      rewrite Hdf. apply ewp_increase_entry; [done..| |].
      * intros q Hq Hne. destruct (Hw q Hq) as [Hin|Hset]; [left; by destruct (Hpe q Hin)|right].
        apply (worked_transfer s); [..|apply Hq|done]; intros r _; unfold s1, popped, LightRules.lvl, LightRules.dir; by destruct c.
      * intros s' Hs' Hf' Hw' Hst. split; [split_and!; [done|by eapply frame_trans, frame_trans|done]|].
        rewrite Hst. pose proof (sh_counted _ _ _ (li_shape _ Hs)) as Hct. pose proof (sh_total _ _ _ (li_shape _ Hs)).
        unfold stalled, s1, popped. rewrite queue_of_with, decide_True by done. cbn [iq_entries]. rewrite He.
        destruct c; simpl in *; rewrite He in Hct; simpl in *; lia.
Qed.

(** ** Light from the halo *)

Definition halo_direct c o level (d : bool) f : Prop :=
  c = SkyLight ∧ direct_sky_down profile = true ∧ o = up ∧ level = 15 ∧ d = true ∧ f = 0.

(** The best candidate over some offsets. *)
Record candidate c p f (offsets : list (Z * Z * Z)) (best : Z * bool) : Prop := {
  ca_reach o level d : o ∈ offsets → halo c (shift p o) = Some (level, d) →
    attenuate level f ≤ best.1 ∧ (halo_direct c o level d f → best = (15, true));
  ca_lit : best.1 = 0 ∨ lit c p best.1;
  ca_range : 0 ≤ best.1 ≤ 15;
  ca_direct : best.2 = true → c = SkyLight ∧ direct p ∧ best.1 = 15;
}.

Lemma halo_candidate_spec c p f offsets best o : inside p → filter_of p = Some f → spreads c → o ∈ NEIGHBOURS → candidate c p f offsets best →
  ∃ best', halo_candidate blocks prior b profile cache p f c best o = Some best' ∧ candidate c p f (offsets ++ [o]) best'.
Proof using Inputs Grid Seeds.
  intros Hp Hf Hsp Ho Hb.
  assert (Hskip : (∀ level d, halo c (shift p o) = Some (level, d) → level = 0) → candidate c p f (offsets ++ [o]) best).
  { intros H0. destruct Hb as [H1 H2 H3 H4]. split; [|done..]. intros o' level d [Hin| ->%list_elem_of_singleton]%elem_of_app Hh; [by eapply H1|].
    rewrite (H0 _ _ Hh). split; [unfold attenuate, saturating_sub; lia|]. intros (_ & _ & _ & ? & _). lia. }
  unfold halo_candidate. rewrite checked_offset_spec. unfold LightField.halo in Hskip.
  destruct (decide (i32_pos (shift p o))) as [Hi|Hi]; [|eexists; split; [done|apply Hskip]; by rewrite decide_False by tauto].
  destruct (decide (inside (shift p o))) as [Hin|Hin].
  { unfold LightGrid.inside in Hin. rewrite Hin. eexists. split; [done|apply Hskip]. rewrite decide_False; [done|]. unfold LightGrid.inside. tauto. }
  assert (bounds_contains b (shift p o) = false) as -> by (by apply not_true_is_false).
  rewrite cached_sample_spec by done. simpl. fold (filter_of (shift p o)).
  destruct (filter_of (shift p o)) as [f'|] eqn:Ef'; [|eexists; split; [done|apply Hskip]; by case_decide].
  destruct (trusted_parts _) as [[level d]|] eqn:Et; [|eexists; split; [done|apply Hskip]; by case_decide].
  assert (Hh : halo c (shift p o) = Some (level, d)) by (unfold LightField.halo; rewrite decide_True by done; by rewrite Ef').
  rewrite decide_True in Hskip by done. simpl in Hskip.
  destruct (Z.eqb_spec level 0) as [Hz|Hz]; [eexists; split; [done|apply Hskip]; by intros ? ? [= <- <-]|].
  pose proof (halo_range _ _ _ _ _ _ _ Hh) as Hlr. pose proof (attenuate_range level f Hlr) as Hal.
  set (dd := is_sky c && _ && _ && _ && _ && _). set (v := if dd then 15 else saturating_sub level (Z.max f 1)).
  assert (Hdd : dd = true ↔ halo_direct c o level d f).
  { unfold dd, halo_direct. rewrite !andb_true_iff, !Z.eqb_eq, bool_decide_eq_true. destruct c; simpl; intuition congruence. }
  assert (Hv : attenuate level f ≤ v ≤ 15 ∧ 0 ≤ v) by (unfold v, attenuate in *; destruct dd; lia).
  assert (Hlit : lit c p v).
  { unfold v. destruct dd eqn:Edd; [|by eapply lit_halo]. destruct (proj1 Hdd eq_refl) as (-> & H2 & -> & -> & -> & ->).
    apply lit_direct; [done|]. by apply direct_halo. }
  assert (Hdir : dd = true → c = SkyLight ∧ direct p ∧ v = 15).
  { intros Edd. destruct (proj1 Hdd Edd) as (-> & H2 & -> & -> & -> & ->). split; [done|]. split; [by apply direct_halo|]. unfold v. by rewrite Edd. }
  eexists. split; [done|]. destruct Hb as [H1 H2 H3 H4]. destruct (_ || _) eqn:Eb.
  - assert (best.1 ≤ v ∧ (best.1 < v ∨ dd = true)) as [Hle Hor].
    { rewrite orb_true_iff, andb_true_iff, Z.ltb_lt, Z.eqb_eq in Eb. destruct Eb as [?|[-> ?]]; [lia|]. split; [lia|by right]. }
    split; [|by right|simpl; lia|done]. intros o' level' d' [Hin'| ->%list_elem_of_singleton]%elem_of_app Hh'.
    + destruct (H1 _ _ _ Hin' Hh') as [? Hd']. split; [simpl; lia|]. intros Hhd. specialize (Hd' Hhd). subst best. simpl in *.
      destruct Hor as [?| ->]; [lia|]. by f_equal.
    + rewrite Hh in Hh'. injection Hh' as <- <-. split; [simpl; lia|]. intros Hhd%Hdd. rewrite Hhd. f_equal. by apply Hdir.
  - rewrite orb_false_iff, andb_false_iff, Z.ltb_ge, Z.eqb_neq in Eb. destruct Eb as [Hge Hor].
    split; [|done..]. intros o' level' d' [Hin'| ->%list_elem_of_singleton]%elem_of_app Hh'; [by eapply H1|].
    rewrite Hh in Hh'. injection Hh' as <- <-. split; [lia|]. intros Hhd%Hdd. destruct (Hdir Hhd) as (_ & _ & Hv15). destruct Hor as [?|?]; [lia|congruence].
Qed.

Definition halo_done s c p : Prop := ∀ o f level d, o ∈ NEIGHBOURS → filter_of p = Some f → spreads c → halo c (shift p o) = Some (level, d) →
  attenuate level f ≤ lvl s c p ∧ (halo_direct c o level d f → dir s p = true).

Lemma halo_done_frame c' s s' c p : frame c' s s' → inside p → halo_done s c p → halo_done s' c p.
Proof using Type.
  intros Hf Hp H o f level d Ho Hff Hs Hh. destruct (H o f level d Ho Hff Hs Hh) as [H1 H2]. split.
  - etransitivity; [exact H1|]. by apply (fr_rise _ _ _ Hf).
  - intros Hd. by apply (fr_dir_rise _ _ _ Hf), H2.
Qed.

Lemma ewp_seed_halo_cell s c p Q : lit_ok s → inside p → spreads c → (∀ q, cell q → worked s c q) →
  (∀ s', lit_ok s' → frame c s s' → (∀ q, cell q → worked s' c q) → halo_done s' c p → Q tt s') →
  ewp (seed_halo_cell blocks prior b profile max_queue cache c p) s Q E.
Proof using All.
  intros Hs Hp Hsp Hw HQ. pose proof (li_shape _ Hs) as Hsh. unfold seed_halo_cell.
  ewp_step. eapply ewp_expect; [by apply cached_sample_spec|]. fold (filter_of p).
  destruct (filter_of p) as [f|] eqn:Ef.
  2:{ ewp_step. apply HQ; [done|apply frame_refl|done|]. intros o f level d _ ?. congruence. }
  assert (Hc : cell p) by (split; [done|by rewrite Ef]).
  destruct (foldM_inv (halo_candidate blocks prior b profile cache p f c) (candidate c p f) (0, false) NEIGHBOURS) as ([v d] & Hfold & Hcand).
  { split; [intros o level d H; by apply elem_of_nil in H|by left|done|done]. }
  { intros pre o post best Hl Hb. apply halo_candidate_spec; [done..|rewrite Hl; set_solver|done]. }
  ewp_step. eapply ewp_expect; [exact Hfold|]. cbv beta iota. ewp_step. eapply ewp_expect; [by rewrite (dense_index_of_spec b Grid), decide_True|].
  ewp_step. apply (ewp_load b max_queue); [done..|]. ewp_step. destruct Hcand as [H1 H2 H3 H4]. cbn [fst snd] in *.
  pose proof (sound_range s c p Hs Hc) as Hr.
  assert (Hgain : ∀ gains : bool, gains = d && negb (dir s p) →
    ewp (if (lvl s c p <? v) || ((v =? lvl s c p) && negb (v =? 0) && gains) then
        _ ← (if lvl s c p <? v then store (dense p) c v else mret tt);
        _ ← (if d then eff_update (λ s, (λ d, with_direct d s) <$> dense_set_insert b (s_direct s) p) else mret tt);
        push_back c (mk_increase p (dense p) d) max_queue
      else mret tt) s Q E).
  { intros gains ->. destruct (_ || _) eqn:Eb.
    - assert (Hcond : lvl s c p < v ∨ (v = lvl s c p ∧ d = true ∧ dir s p = false)).
      { rewrite orb_true_iff, !andb_true_iff, Z.ltb_lt, Z.eqb_eq, !negb_true_iff in Eb. tauto. }
      apply ewp_rise; [done..| |done| |].
      + exists v. split; [|done]. destruct H2 as [Hz|?]; [|done]. destruct Hcond as [?|(? & Hd & _)]; [lia|]. destruct (H4 Hd) as (_ & _ & ?). lia.
      + intros s2 Q2 Hl2 HQ2. destruct d; [|done]. eapply ewp_update; [|exact HQ2]. unfold dense_set_insert.
        rewrite (dense_index_of_spec b Grid), decide_True by done. simpl. unfold insert_at_index, set_slot.
        rewrite decide_True; [done|]. rewrite Hl2. by apply dense_lt.
      + intros s' Hs'. apply HQ; [apply Hs'|apply Hs'|intros q Hq; eapply rise_worked; [done..|apply Hq|by apply Hw]|].
        intros o f' level d' Ho Hf' _ Hh. rewrite Ef in Hf'. injection Hf' as <-. destruct (H1 o level d' Ho Hh) as [Hle Hd].
        rewrite (ri_lvl _ _ _ _ _ _ Hs'), (ri_dir _ _ _ _ _ _ Hs') by done. rewrite !decide_True by done. split; [lia|].
        intros Hhd. specialize (Hd Hhd). simplify_eq. by rewrite orb_true_r.
    - ewp_step. apply HQ; [done|apply frame_refl|done|]. rewrite orb_false_iff, !andb_false_iff, Z.ltb_ge, Z.eqb_neq, negb_false_iff, Z.eqb_eq in Eb.
      destruct Eb as [Hle Hor]. intros o f' level d' Ho Hf' _ Hh. rewrite Ef in Hf'. injection Hf' as <-. destruct (H1 o level d' Ho Hh) as [Hle' Hd].
      split; [lia|]. intros Hhd. specialize (Hd Hhd). simplify_eq. simpl in Hor. destruct Hor as [[?|?]|Hor]; [lia|lia|]. destruct Hor as [?|Hor]; [done|]. by apply negb_false_iff in Hor. }
  destruct d.
  - ewp_steps. eapply (ewp_expect _ (dir s p)); [|by apply Hgain]. unfold dense_set_contains.
    rewrite (dense_index_of_spec b Grid), decide_True by done. unfold contains_at_index, LightRules.dir.
    pose proof (dense_lt b p Hp) as Hlt. rewrite <-(li_direct _ Hs) in Hlt. apply lookup_lt_is_Some in Hlt as [x Hx]. by rewrite Hx.
  - ewp_step. by apply Hgain.
Qed.

Lemma ewp_seed_boundary s c Q : lit_ok s → (∀ q, cell q → worked s c q) →
  (∀ s', lit_ok s' → frame c s s' → (∀ q, cell q → worked s' c q) → (∀ p, inside p → halo_done s' c p) → Q tt s') →
  ewp (seed_boundary_from_halo blocks prior b profile max_queue cache c) s Q E.
Proof using All.
  intros Hs Hw HQ. unfold seed_boundary_from_halo. destruct (is_sky c && negb (allows_sky profile)) eqn:Eb.
  { ewp_step. apply HQ; [done|apply frame_refl|done|]. intros p _ o f level d _ _ Hsp _. apply andb_true_iff in Eb as [Hc Ha].
    destruct c; [done|]. rewrite Hsp in Ha; done. }
  assert (Hsp : spreads c) by (intros ->; simpl in Eb; by destruct (allows_sky profile)).
  apply (ewp_each _ (λ pre s', lit_ok s' ∧ frame c s s' ∧ (∀ q, cell q → worked s' c q) ∧ ∀ p, p ∈ pre → halo_done s' c p)).
  - split_and!; [done|apply frame_refl|done|]. intros p H. by apply elem_of_nil in H.
  - intros pre p post s1 Hl (H1 & H2 & H3 & H4). assert (Hp : inside p) by (apply (surface_inside b p Grid); rewrite Hl; set_solver).
    apply ewp_seed_halo_cell; [done..|]. intros s2 A1 A2 A3 A4. split_and!; [done|by eapply frame_trans|done|].
    intros q [Hin| ->%list_elem_of_singleton]%elem_of_app; [|done]. eapply halo_done_frame; [done| |by apply H4].
    apply (surface_inside b q Grid). rewrite Hl. set_solver.
  - intros s1 (H1 & H2 & H3 & H4). apply HQ; [done..|]. intros p Hp. intros o f level d Ho Hf Hs' Hh.
    assert (Hout : ¬ inside (shift p o)) by (unfold LightField.halo in Hh; case_decide as Hd; [tauto|done]).
    eapply H4; [|done..]. apply elem_of_surface; [done..|]. by eapply outside_on_face.
Qed.

Record propagated c s s' : Prop := {
  pr_ok : lit_ok s';
  pr_frame : frame c s s';
  pr_empty : iq_entries (queue_of c s') = [];
  pr_settled q : cell q → settled s' c q;
  pr_halo q : inside q → halo_done s' c q;
}.

Lemma ewp_propagate s c Q : lit_ok s → (∀ q, cell q → worked s c q) → (∀ s', propagated c s s' → Q tt s') →
  ewp (propagate blocks prior b profile max_queue cache c) s Q E.
Proof using All.
  intros Hs Hw HQ. unfold propagate. ewp_step. apply ewp_seed_boundary; [done..|]. intros s1 H1 H2 H3 H4.
  unfold raise_peak. ewp_steps. apply ewp_increase_all; [by apply lit_ok_stats|exact H3|]. intros s2 A1 A2 A3 A4. apply HQ.
  split; [done|eapply frame_trans; [exact H2|]|done..|].
  - destruct A2 as [B1 B2 B3 B4 B5]. by split.
  - intros q Hq. eapply halo_done_frame; [exact A2|done|]. exact (H4 q Hq).
Qed.

(** ** The first entries *)

(** The field after darkening and raising: sound, and no dimmer than the sources. *)
Record ready s : Prop := {
  rd_shape : shape s;
  rd_queue c : iq_entries (queue_of c s) = [];
  rd_direct : length (s_direct s) = volume ∧ ∀ p, inside p → dir s p = false;
  rd_sound c p : cell p → ∃ v, lit c p v ∧ lvl s c p ≤ v;
  rd_unknown c p : inside p → filter_of p = None → lvl s c p = 0;
  rd_source c p : cell p → source_level c p ≤ lvl s c p;
  rd_shown p : inside p → shown s p = true ↔ filter_of p ≠ None;
  rd_total : s_total s ≤ 2 * volume_z b;
}.

Definition starts_direct s c p : Prop := c = SkyLight ∧ direct_sky_down profile = true ∧ lvl s SkyLight p = 15 ∧ filter_of p = Some 0 ∧
  (source_level SkyLight p = 15 ∨ prior_direct p = true).

Context (spreads_at : nat → S bool) (spr : BlockPos → bool).
Hypothesis spreads_at_spec : ∀ p s (Q : bool → SolveState → Prop), inside p → Q (spr p) s → ewp (spreads_at (dense p)) s Q E.

(** The loop in progress: only provenance and queues change. *)
Record entering s0 (t : Z) s : Prop := {
  en_shape : shape s;
  en_direct : length (s_direct s) = volume;
  en_lvl c p : lvl s c p = lvl s0 c p;
  en_shown p : shown s p = shown s0 p;
  en_dir p : inside p → dir s p = true → direct p ∧ lvl s0 SkyLight p = 15;
  en_flag c p : inside p → dflag s c p = true → c = SkyLight ∧ dir s p = true;
  en_pending_direct p : inside p → dir s p = true → p ∈ pending s SkyLight → dflag s SkyLight p = true;
  en_pending c p : p ∈ pending s c → cell p;
  en_total : s_total s ≤ t;
}.

Record entered c p s0 s s' : Prop := {
  et_dir q : inside q → dir s' q = true ↔ dir s q = true ∨ (q = p ∧ starts_direct s0 c p);
  et_pending c' q : q ∈ pending s' c' ↔ q ∈ pending s c' ∨ (c' = c ∧ q = p ∧ 0 < lvl s0 c p ∧ spr p = true);
}.

Lemma ewp_starts_direct s c p f (Q : bool → SolveState → Prop) : inside p → filter_of p = Some f →
  (∀ d : bool, (d = true ↔ starts_direct s c p) → Q d s) →
  ewp (if is_sky c && direct_sky_down profile && (lvl s c p =? 15) && (f =? 0) then
         base ← local_base profile cache (dense p) c;
         if base =? 15 then mret true else eff_expect (direct_sky_at_index prior b volume (dense p) p)
       else mret false) s Q E.
Proof using All.
  intros Hp Hf HQ. destruct (_ && _) eqn:Eb.
  - rewrite !andb_true_iff, !Z.eqb_eq in Eb. destruct Eb as [[[Hc Hd] Hl] ->]. destruct c; [done|].
    ewp_step. apply ewp_local_base; [done..| |].
    { intros _ H _. pose proof (Seeds p Hp ltac:(congruence)). lia. }
    intros _. destruct (Z.eqb_spec (source_level SkyLight p) 15) as [He|He].
    + ewp_step. apply HQ. unfold starts_direct. tauto.
    + eapply ewp_expect; [unfold direct_sky_at_index; rewrite decide_True by (by apply dense_lt); done|]. apply HQ.
      unfold starts_direct. fold (prior_direct p). tauto.
  - ewp_step. apply HQ. split; [done|]. intros (-> & H2 & H3 & H4 & _). rewrite Hf in H4. injection H4 as ->. simpl in Eb. rewrite H2, H3 in Eb. done.
Qed.

Lemma ewp_seed_increase_channel s0 t s c p f Q : ready s0 → entering s0 t s → cell p → filter_of p = Some f → dir s p = false → p ∉ pending s c → t < 35 * volume_z b →
  (∀ s', entering s0 (t + 1) s' → entered c p s0 s s' → Q tt s') →
  ewp (seed_increase_channel prior b profile max_queue volume cache spreads_at (dense p, p) f c) s Q E.
Proof using All.
  intros H0 Hs Hc Hf Hdp Hnp Ht HQ. pose proof (en_shape _ _ _ Hs) as Hsh. destruct Hc as [Hp Hf']. unfold seed_increase_channel.
  ewp_step. apply (ewp_load b max_queue); [done..|]. destruct (Z.eqb_spec (lvl s c p) 0) as [Hz|Hz].
  { ewp_step. rewrite (en_lvl _ _ _ Hs) in Hz. apply HQ.
    - destruct Hs. split; try done. lia.
    - split.
      + intros q Hq. split; [by left|]. intros [?|(-> & -> & _ & H15 & _)]; [done|]. lia.
      + intros c' q. split; [by left|]. intros [?|(_ & _ & ? & _)]; [done|]. lia. }
  assert (Hpos : 0 < lvl s c p).
  { rewrite (en_lvl _ _ _ Hs) in *. pose proof (rd_source _ H0 c p (conj Hp Hf')). assert (0 ≤ source_level c p ≤ 15) by (by eapply source_range_inside). lia. }
  ewp_step. eapply ewp_starts_direct; [done..|]. intros d Hd.
  assert (Hd0 : d = true ↔ starts_direct s0 c p) by (rewrite Hd; unfold starts_direct; by rewrite (en_lvl _ _ _ Hs)).
  clear Hd. rewrite (en_lvl _ _ _ Hs) in Hpos.
  assert (Hdir : d = true → c = SkyLight ∧ direct p ∧ lvl s0 SkyLight p = 15).
  { intros (-> & H2 & H3 & H4 & _)%Hd0. split; [done|]. split; [|done]. eapply full_sky_direct; [done..|].
    destruct (rd_sound _ H0 SkyLight p (conj Hp Hf')) as (v & Hv & Hle). pose proof (lit_range _ _ _ _ Seeds _ _ _ Hv). by assert (v = 15) as -> by lia. }
  ewp_step. set (s1 := if d then with_direct (<[dense p := true]> (s_direct s)) s else s).
  assert (Hins : ∀ Q', Q' tt s1 → ewp (if d then direct_insert (dense p) else mret tt) s Q' E).
  { intros Q' HQ'. destruct d; [|done]. apply ewp_direct_insert; [apply Hs|done|done]. }
  apply Hins. clear Hins.
  assert (Hd1 : ∀ q, inside q → dir s1 q = true ↔ dir s q = true ∨ (q = p ∧ d = true)).
  { intros q Hq. unfold s1. destruct d; [|naive_solver]. rewrite dir_insert by (done || apply Hs). goal_decide as Hx; [subst; naive_solver|naive_solver]. }
  assert (Hother : s_output s1 = s_output s ∧ s_total s1 = s_total s ∧ s_darken s1 = s_darken s ∧ length (s_direct s1) = volume ∧ ∀ c', queue_of c' s1 = queue_of c' s).
  { unfold s1. destruct d; simpl; rewrite ?length_insert; repeat split; try apply Hs; by intros []. }
  destruct Hother as (Ho1 & Ht1 & Hda1 & Hlen1 & Hq1).
  assert (Hsh1 : shape s1).
  { destruct Hsh as [A1 A2 A3 A4 A5]. split; [by rewrite Ho1|by left|intros c'; rewrite Hq1; apply A3|by rewrite Ht1|].
    rewrite Ht1, Hda1. pose proof (Hq1 BlockLight) as E1. pose proof (Hq1 SkyLight) as E2. simpl in E1, E2. by rewrite E1, E2. }
  assert (Hdf1 : ∀ c' q, dflag s1 c' q = dflag s c' q) by (intros; unfold LightRules.dflag, flag; by rewrite Hq1).
  assert (Hpe1 : ∀ c', pending s1 c' = pending s c') by (intros; unfold pending; by rewrite Hq1).
  assert (Hflag0 : dflag s c p = false).
  { apply not_true_is_false. intros Hdf. destruct (en_flag _ _ _ Hs c p Hp Hdf) as [_ ?]. congruence. }
  ewp_step. apply spreads_at_spec; [done|]. destruct (spr p) eqn:Es.
  2:{ ewp_step. apply HQ.
    - destruct Hs as [A1 A2 A3 A4 A5 A6 A7 A8 A9]. split; [done|done|..].
      + intros. rewrite <-A3. unfold LightRules.lvl. by rewrite Ho1.
      + intros. rewrite <-A4. unfold LightRules.shown. by rewrite Ho1.
      + intros q Hq [?|[-> Hdd]]%Hd1; [by apply A5|by destruct (Hdir Hdd)|done].
      + intros c' q Hq. rewrite Hdf1. intros Hdf. destruct (A6 c' q Hq Hdf). split; [done|]. apply Hd1; auto.
      + intros q Hq [?|[-> Hdd]]%Hd1; [rewrite Hpe1, Hdf1; by apply A7| |done].
        rewrite Hpe1. intros Hin. by destruct (Hdir Hdd) as (-> & _).
      + intros c' q. rewrite Hpe1. apply A8.
      + rewrite Ht1. lia.
    - split.
      + intros q Hq. rewrite Hd1, Hd0 by done. done.
      + intros c' q. rewrite Hpe1. split; [by left|]. intros [?|(_ & _ & _ & ?)]; [done|congruence]. }
  assert (Hfl : flag b s1 c p = 0).
  { destruct (flag_cases b max_queue s1 c p Hsh1 Hp) as [[? _]|[_ Hin]]; [done|]. rewrite Hpe1 in Hin. done. }
  pose proof (en_total _ _ _ Hs) as Htt. pose proof (volume_z_of b Grid) as Hvz.
  apply (ewp_push_back b max_queue); [done..| | |].
  { rewrite Ht1. change (2 ^ 63) with 9223372036854775808. lia. }
  { intros _ Hm. rewrite Ht1 in Hm. apply explained_queue; [rewrite Ht1; lia|by rewrite Ht1|done]. }
  intros Hm. set (s2 := pushed b s1 c p d).
  assert (Hdir2 : ∀ q, dir s2 q = dir s1 q) by (intros; unfold LightRules.dir, s2, pushed; by destruct c).
  assert (Hpe2 : ∀ c' q, q ∈ pending s2 c' ↔ q ∈ pending s c' ∨ (c' = c ∧ q = p)).
  { intros c' q. unfold s2. rewrite (pending_pushed b max_queue), !Hpe1 by done. goal_decide as Hcp.
    - rewrite elem_of_app, list_elem_of_singleton. destruct Hcp as [-> _]. naive_solver.
    - split; [by left|]. intros [?|[-> ->]]; [done|]. tauto. }
  assert (Hdf2 : ∀ c' q, inside q → dflag s2 c' q = if decide (c' = c ∧ q = p) then d else dflag s c' q).
  { intros c' q Hq. unfold s2. rewrite (dflag_pushed b max_queue), !Hdf1, Hflag0 by done. done. }
  apply HQ.
  - split.
    + by eapply shape_pushed.
    + unfold s2, pushed. by destruct c.
    + intros c' q. rewrite <-(en_lvl _ _ _ Hs). unfold LightRules.lvl. rewrite <-Ho1. unfold s2, pushed. by destruct c.
    + intros q. rewrite <-(en_shown _ _ _ Hs). unfold LightRules.shown. rewrite <-Ho1. unfold s2, pushed. by destruct c.
    + intros q Hq. rewrite Hdir2. intros [?|[-> Hdd]]%Hd1; [by apply (en_dir _ _ _ Hs)|by destruct (Hdir Hdd)|done].
    + intros c' q Hq. rewrite Hdf2, Hdir2 by done. goal_decide as Hcq.
      * destruct Hcq as [-> ->]. intros Hdd. destruct (Hdir Hdd) as (-> & _). split; [done|]. apply Hd1; auto.
      * intros Hdf. destruct (en_flag _ _ _ Hs c' q Hq Hdf). split; [done|]. apply Hd1; auto.
    + intros q Hq. rewrite Hdir2, Hpe2, Hdf2 by done. intros [Hdq|[-> Hdd]]%Hd1 Hin; [| |done].
      * goal_decide as Hcq; [destruct Hcq as [_ ->]; congruence|]. destruct Hin as [?|[-> ->]]; [by apply (en_pending_direct _ _ _ Hs)|congruence].
      * destruct (Hdir Hdd) as (-> & _). by rewrite decide_True.
    + intros c' q [?|[-> ->]]%Hpe2; [by eapply en_pending|done].
    + unfold s2. rewrite total_pushed, Hfl, Ht1. simpl. lia.
  - split.
    + intros q Hq. rewrite Hdir2, Hd1, Hd0 by done. done.
    + intros c' q. rewrite Hpe2. tauto.
Qed.

(** The loop over the region's cells. *)
Record entry_loop s0 (pre : list (nat * BlockPos)) s : Prop := {
  el_entering : entering s0 (2 * volume_z b + 2 * Z.of_nat (length pre)) s;
  el_dir p : inside p → dir s p = true ↔ (dense p, p) ∈ pre ∧ starts_direct s0 SkyLight p;
  el_pending c p : p ∈ pending s c ↔ cell p ∧ (dense p, p) ∈ pre ∧ 0 < lvl s0 c p ∧ spr p = true;
}.

Lemma ewp_seed_increase_cell s0 pre p post s Q : ready s0 → enumerate (positions b) = pre ++ (dense p, p) :: post → inside p → entry_loop s0 pre s →
  (∀ s', entry_loop s0 (pre ++ [(dense p, p)]) s' → Q tt s') →
  ewp (seed_increase prior b profile max_queue volume cache spreads_at (dense p, p)) s Q E.
Proof using All.
  intros H0 Hl Hp [Hs Hdir Hpend] HQ. unfold seed_increase. cbn [fst]. ewp_step. apply ewp_filter_at; [done..|].
  assert (Hnew : (dense p, p) ∉ pre).
  { pose proof (enumerate_nodup (positions b)) as Hnd. rewrite Hl in Hnd. apply NoDup_app in Hnd as (_ & Hnd & _). intros Hin. by apply (Hnd _ Hin), list_elem_of_here. }
  assert (Hlen : Z.of_nat (length pre) + 1 ≤ volume_z b).
  { pose proof (f_equal length Hl) as Hll. unfold enumerate in Hll. rewrite length_imap, positions_length, length_app in Hll by done. simpl in Hll.
    pose proof (volume_z_of b Grid). lia. }
  assert (Hin : ∀ q, (dense q, q) ∈ pre ++ [(dense p, p)] ↔ (dense q, q) ∈ pre ∨ q = p).
  { intros q. rewrite elem_of_app, list_elem_of_singleton. split; [intros [?|?]; [by left|right; by simplify_eq]|intros [?| ->]; auto]. }
  assert (Hpe : ∀ t t' s1, t ≤ t' → entering s0 t s1 → entering s0 t' s1) by (intros t t' s1 ? []; split; try done; lia).
  destruct (filter_of p) as [f|] eqn:Ef.
  2:{ ewp_step. apply HQ. split.
      - eapply Hpe; [|exact Hs]. rewrite length_app. simpl. lia.
      - intros q Hq. rewrite Hdir, Hin by done. split; [tauto|]. intros [[?| ->] Hst]; [done|]. destruct Hst as (_ & _ & _ & ? & _). congruence.
      - intros c q. rewrite Hpend, Hin. split; [tauto|]. intros (? & [?| ->] & ?); [done|]. by destruct H as [_ []]. }
  assert (Hc : cell p) by (split; [done|by rewrite Ef]).
  assert (Hnd : dir s p = false) by (apply not_true_is_false; rewrite Hdir by done; tauto).
  assert (Hnp : ∀ c, p ∉ pending s c) by (intros c; rewrite Hpend; tauto).
  unfold CHANNELS. cbn [for_each]. ewp_step. eapply (ewp_seed_increase_channel s0); [done..|lia|]. intros s1 Hs1 [Hd1 Hp1].
  ewp_step. eapply (ewp_seed_increase_channel s0); [done..| | |lia|].
  { apply not_true_is_false. rewrite Hd1 by done. intros [?|[_ (? & _)]]; congruence. }
  { rewrite Hp1. intros [?|(? & _)]; [by eapply Hnp|done]. }
  intros s2 Hs2 [Hd2 Hp2]. ewp_step. apply HQ. split.
  - eapply Hpe; [|exact Hs2]. rewrite length_app. simpl. lia.
  - intros q Hq. rewrite Hd2, Hd1, Hdir, Hin by done. split.
    + intros [[?|[_ (? & _)]]|[-> ?]]; [tauto|done|tauto].
    + intros [[?| ->] ?]; [left; left; done|by right].
  - intros c q. rewrite Hp2, Hp1, Hpend, Hin. split.
    + intros [[?|(-> & -> & ? & ?)]|(-> & -> & ? & ?)]; [tauto|auto|auto].
    + intros (? & [?| ->] & ? & ?); [tauto|]. destruct c; [left; right; auto|right; auto].
Qed.

(** The state in which spreading starts. *)
Record entered_all s0 s : Prop := {
  ea_ok : lit_ok s;
  ea_lvl c p : lvl s c p = lvl s0 c p;
  ea_dir p : inside p → dir s p = true ↔ starts_direct s0 SkyLight p;
  ea_pending c p : cell p → 0 < lvl s c p → spr p = true → p ∈ pending s c;
}.

Lemma ewp_seed_increase s0 Q : ready s0 → (∀ s', entered_all s0 s' → Q tt s') →
  ewp (for_each (seed_increase prior b profile max_queue volume cache spreads_at) (enumerate (positions b))) s0 Q E.
Proof using All.
  intros H0 HQ. pose proof (rd_direct _ H0) as [Hlen Hno].
  assert (Hnop : ∀ c, pending s0 c = []) by (intros c; unfold pending; by rewrite (rd_queue _ H0 c)).
  assert (Hnof : ∀ c p, inside p → dflag s0 c p = false).
  { intros c p Hp. destruct (flag_cases b max_queue s0 c p (rd_shape _ H0) Hp) as [[Hf _]|[_ Hin]]; [unfold LightRules.dflag; by rewrite Hf|].
    rewrite Hnop in Hin. by apply elem_of_nil in Hin. }
  apply (ewp_each _ (entry_loop s0)).
  - split.
    + split; try done; [apply H0|by intros p Hp; rewrite Hno|by intros c p Hp; rewrite Hnof|by intros p Hp; rewrite Hno| |pose proof (rd_total _ H0); simpl; lia].
      intros c p. rewrite Hnop. intros H. by apply elem_of_nil in H.
    + intros p Hp. rewrite Hno by done. split; [done|]. intros [H _]. by apply elem_of_nil in H.
    + intros c p. rewrite Hnop. split; [intros H; by apply elem_of_nil in H|]. intros (_ & H & _). by apply elem_of_nil in H.
  - intros pre [i p] post s Hl Hs. destruct (proj1 (elem_of_cells b i p Grid)) as [Hp ->]; [rewrite Hl; set_solver|].
    by apply (ewp_seed_increase_cell s0 pre p post).
  - intros s [Hs Hdir Hpend]. apply HQ. assert (Hin : ∀ p, inside p → (dense p, p) ∈ enumerate (positions b)) by (intros p Hp; by apply elem_of_cells).
    split; [|apply Hs| |].
    + destruct Hs as [A1 A2 A3 A4 A5 A6 A7 A8 A9]. split; try done; try (intros; rewrite ?A3, ?A4; by apply H0).
      * intros p Hp. rewrite A3. by apply A5.
      * intros p Hp H1 H2 H3. apply Hdir; [done|]. split; [by apply Hin|]. split; [done|]. split; [done|].
        assert (Hc : cell p) by (split; [done|congruence]). destruct (rd_sound _ H0 SkyLight p Hc) as (v & Hv & Hle).
        apply lit_range in Hv; [|done..]. pose proof (rd_source _ H0 SkyLight p Hc). split; [lia|auto].
      * unfold enumerate in A9. rewrite length_imap, positions_length in A9 by done. rewrite volume_z_of in A9 by done.
        assert (Hw : Z.of_nat (weight b (slack s)) ≤ 31 * volume_z b); [|lia]. apply (weight_bound b Grid _ 31).
        intros q Hq. unfold slack. assert (Hnn : ∀ c, 0 ≤ lvl s c q).
        { intros c. rewrite A3. destruct (decide (filter_of q = None)) as [Hn|Hn]; [by rewrite (rd_unknown _ H0)|].
          pose proof (rd_source _ H0 c q (conj Hq Hn)). assert (0 ≤ source_level c q ≤ 15) by (by eapply source_range_inside). lia. }
        pose proof (Hnn BlockLight). pose proof (Hnn SkyLight). destruct (dir s q); lia.
    + intros p Hp. rewrite Hdir by done. split; [by intros [_ ?]|]. intros ?. split; [by apply Hin|done].
    + intros c p Hp. rewrite (en_lvl _ _ _ Hs). intros Hpos Hs'. apply Hpend. split_and!; [done|apply Hin, Hp|done|done].
Qed.
End increase.
