(* ===== verification/LightSolveSpec.v ===== *)
(** * Buffers between solves

    [scratch.rs] keeps the buffers of one solve for the next. However a solve ends, its increase queues have flags
    for queued cells only, so [reset] restores the state every solve relies on. *)
From stdpp Require Import base numbers list gmap sets.
From S2P Require Import Prelude Packed Bytes Keys Snapshot Light Effects LightGrid LightState LightSolve LightField LightRules LightDarken.
From S2P Require Import LightIncrease.
#[local] Open Scope Z_scope.

Implicit Types (b : LightBounds) (scratch : LightSolverScratch) (s : SolveState).

(** A queue whose flags are set for queued cells only, as every solve leaves it, finished or not. *)
Record queue_ok (q : IncreaseQueue) : Prop := {
  qo_flags i f : iq_pending q !! i = Some f → f ≠ 0 → ∃ p, (p, i) ∈ iq_entries q;
  qo_entries : Forall (λ e, (e.2 < length (iq_pending q))%nat) (iq_entries q);
}.
Definition scratch_ok scratch : Prop := queue_ok (sc_block scratch) ∧ queue_ok (sc_sky scratch).

Lemma pop_all_spec entries flags : Forall (λ e : BlockPos * nat, (e.2 < length flags)%nat) entries →
  ∃ flags', pop_all (Datatypes.S (length entries)) (mk_queue entries flags) = Some (mk_queue [] flags') ∧ length flags' = length flags ∧
    ∀ i f, flags' !! i = Some f → f = 0 ∨ (flags !! i = Some f ∧ i ∉ entries.*2).
Proof.
  revert flags. induction entries as [|[p i] entries IH]; intros flags Hall.
  { exists flags. split; [done|]. split; [done|]. intros j f Hf. right. split; [done|]. apply not_elem_of_nil. }
  apply Forall_cons in Hall as [Hi Hall]. cbn [snd] in Hi. destruct (lookup_lt_is_Some_2 flags i Hi) as [fl Hfl].
  destruct (IH (<[i := 0]> flags)) as (flags' & Hp & Hlen & Hf); [by rewrite length_insert|]. rewrite length_insert in Hlen.
  exists flags'. split; [|split; [done|]].
  - cbn [length pop_all pop_front iq_entries iq_pending mbind option_bind]. rewrite Hfl. cbn [mbind option_bind]. unfold set_slot.
    rewrite decide_True by done. cbn [mbind option_bind]. exact Hp.
  - intros j f Hj. destruct (Hf j f Hj) as [?|[Hj' Hn]]; [by left|]. destruct (decide (j = i)) as [->|Hne].
    + rewrite list_lookup_insert_eq in Hj' by done. left. congruence.
    + rewrite list_lookup_insert_ne in Hj' by done. right. split; [done|]. cbn. by apply not_elem_of_cons.
Qed.

(** [reset] forgets whatever an earlier solve left. *)
Lemma queue_reset_spec volume q : queue_ok q → Z.of_nat volume ≤ 2 ^ 32 - 1 →
  queue_reset volume q = Some (mk_queue [] (replicate volume 0)).
Proof.
  intros [Hfl Hen] Hv. unfold queue_reset, Prelude.assert. rewrite (proj2 (Z.leb_le _ _)) by done. cbn [mbind option_bind].
  destruct q as [entries flags]. cbn [iq_entries iq_pending] in *. unfold queue_clear. cbn [iq_entries].
  destruct (pop_all_spec entries flags Hen) as (flags' & -> & Hlen & Hf). cbn [mbind option_bind iq_entries iq_pending].
  assert (Hz : ∀ i f, flags' !! i = Some f → f = 0).
  { intros i f Hi. destruct (Hf i f Hi) as [?|[Hi' Hn]]; [done|]. destruct (decide (f = 0)) as [|Hne]; [done|].
    destruct (Hfl i f Hi' Hne) as (p & Hin). destruct Hn. apply list_elem_of_fmap. by exists (p, i). }
  do 2 f_equal. assert (flags' = replicate (length flags') 0) as Hr.
  { apply list_eq. intros i. destruct (flags' !! i) as [f|] eqn:Ei.
    - rewrite (Hz i f Ei) in *. symmetry. apply lookup_replicate_2. by eapply lookup_lt_Some.
    - symmetry. apply lookup_ge_None. rewrite length_replicate. by apply lookup_ge_None. }
  unfold resize_with. rewrite Hr, take_replicate, length_replicate, <-replicate_add. f_equal. lia.
Qed.

Lemma queue_wf_ok b q : queue_wf b q → queue_ok q.
Proof.
  intros [H1 H2 H3 H4 H5]. split.
  - intros i f Hi Hf. destruct (H4 i f Hi) as [?|(_ & p & Hp & ->)]; [done|]. apply list_elem_of_fmap in Hp as ([q' j] & -> & Hin).
    rewrite Forall_forall in H2. destruct (H2 _ Hin) as [_ Hj]. cbn [fst snd] in *. subst j. eauto.
  - rewrite Forall_forall in H2 |- *. intros [p i] Hin. destruct (H2 _ Hin) as [Hp Hi]. cbn [fst snd] in *. subst i. rewrite H1. by apply dense_lt.
Qed.

Lemma shape_scratch b max s : shape b max s → scratch_ok (scratch_of s).
Proof. intros Hs. split; [apply (queue_wf_ok b), (sh_queue _ _ _ Hs BlockLight)|apply (queue_wf_ok b), (sh_queue _ _ _ Hs SkyLight)]. Qed.

Lemma scratch_default_ok : scratch_ok scratch_default.
Proof. split; split; simpl; try done; by intros i f H. Qed.

Lemma empty_queue_wf b : queue_wf b (mk_queue [] (replicate (volume_of b) 0)).
Proof.
  split; cbn [iq_entries iq_pending]; [apply length_replicate|constructor|constructor| |].
  - intros i f Hi. apply lookup_replicate in Hi as [-> _]. by left.
  - intros p Hp. by apply elem_of_nil in Hp.
Qed.

Definition empty_queue volume : IncreaseQueue := mk_queue [] (replicate volume 0).
Definition emptied volume s : SolveState := with_queue SkyLight (empty_queue volume) (with_queue BlockLight (empty_queue volume) (with_darken [] s)).

Lemma ewp_reset_queues volume s (Q : unit → SolveState → Prop) E : scratch_ok (scratch_of s) → Z.of_nat volume ≤ 2 ^ 32 - 1 →
  Q tt (emptied volume s) → ewp (reset_queues volume) s Q E.
Proof.
  intros [H1 H2] Hv HQ. unfold reset_queues, reset_queue. ewp_steps.
  eapply ewp_update; [by cbn [queue_of with_darken s_block]; rewrite (queue_reset_spec volume (s_block s) H1 Hv)|].
  eapply ewp_update; [by cbn [queue_of with_queue with_darken s_sky]; rewrite (queue_reset_spec volume (s_sky s) H2 Hv)|]. exact HQ.
Qed.

(** The state a solve starts from, its queues emptied. *)
Lemma emptied_shape b max s : output_ok b (s_output s) → s_direct s = [] → s_total s = 0 → 0 ≤ max → shape b max (emptied (volume_of b) s).
Proof. intros Ho Hd Ht Hm. split; simpl; [done|by right|intros []; apply empty_queue_wf|lia|lia]. Qed.

Lemma blank_start b scratch : blank b (s_output (solve_start (volume_of b) scratch)).
Proof.
  split; [split; apply length_replicate|]. intros p Hp. pose proof (dense_lt b p Hp).
  split; [intros c; unfold get_at_index|]; simpl; rewrite lookup_replicate_2 by done; [by destruct c|done].
Qed.

(** ** A solve computes the light

    The phases of [solve.rs] put together: whatever the light before it, a solve that succeeds leaves the
    field [LightField.solved] describes; it fails only for a value out of range or too low a queue limit. *)

Section solve.
Context (blocks : LightBlockAccess) (prior : LightReadAccess) (b : LightBounds) (profile : DimensionLightProfile) (max_queue : Z).
Context `{Inputs : !LightInputs blocks prior} (Grid : grid_ok b).
Context (Volume : Z.of_nat (volume_of b) ≤ 2 ^ 32 - 1).
Notation volume := (volume_of b).
Notation cache := (block_cache_new blocks b).
Notation filter_of := (filter_of blocks).
Notation source_level := (source_level blocks profile).
Notation prior_level := (prior_level prior b).
Notation inside := (inside b).
Notation dense := (dense b).
Notation shape := (shape b max_queue).
Notation lvl := (lvl b).
Notation dir := (dir b).
Notation cell := (cell blocks b).
Notation lit := (lit blocks prior b profile).
Notation lit_ok := (lit_ok blocks prior b profile max_queue).
Notation solved := (solved blocks prior b profile).
Notation dark := (dark prior b).
Implicit Types (p q : BlockPos) (c : LightChannel).

(** An error with its reason; the buffers stay usable. *)
Definition failed (e : LightSolveError) s : Prop := explained blocks prior b max_queue e ∧ scratch_ok (scratch_of s).

Lemma failed_shape e s : explained blocks prior b max_queue e → shape s → failed e s.
Proof using Type. intros He Hs. split; [done|by eapply shape_scratch]. Qed.

Record finished s : Prop := {
  fi_ok : lit_ok s;
  fi_solved : solved (lvl s) (dir s);
  fi_seeds : seeds_ok blocks b;
}.

Section spread.
Context (Seeds : seeds_ok blocks b).

Lemma settled_zero s c p : lit_ok s → cell p → lvl s c p = 0 → settled blocks b profile s c p.
Proof using All.
  intros Hs Hp Hz o Ho f Hi Hf. assert (Hq : cell (shift p o)) by (split; [done|congruence]).
  pose proof (sound_range blocks prior b profile max_queue Seeds s c (shift p o) Hs Hq). split.
  - rewrite Hz. unfold attenuate, saturating_sub. lia.
  - intros -> _ Hd _ _. destruct (li_dir _ _ _ _ _ _ Hs p (proj1 Hp) Hd). lia.
Qed.

Lemma worked_frame s s' q : frame b BlockLight s s' → cell q → worked blocks b profile s SkyLight q → worked blocks b profile s' SkyLight q.
Proof using All.
  intros Hf Hq [Hin|Hset]; [left|right].
  - unfold pending. by rewrite (fr_queue _ _ _ _ Hf).
  - eapply worked_transfer; [..|apply Hq|done]; intros r Hr; [by apply (fr_lvl _ _ _ _ Hf)|by apply (fr_dir _ _ _ _ Hf)].
Qed.

Lemma settled_frame s s' q : frame b SkyLight s s' → cell q → settled blocks b profile s BlockLight q → settled blocks b profile s' BlockLight q.
Proof using All.
  intros Hf Hq Hset o Ho f Hi Hff. destruct (Hset o Ho f Hi Hff) as [H _]. split; [|done].
  rewrite !(fr_lvl _ _ _ _ Hf) by (done || apply Hq). done.
Qed.

Lemma settled_closed s c : lit_ok s → (∀ q, cell q → settled blocks b profile s c q) → (∀ q, inside q → halo_done blocks prior b profile s c q) →
  closed blocks prior b profile (lvl s) c.
Proof using All.
  intros Hs Hset Hh. split.
  - intros p f Hp Hf. apply (li_source _ _ _ _ _ _ Hs). split; [done|congruence].
  - intros p f o level d Hp Hf Ho Hsp Hhalo. by eapply (Hh p Hp).
  - intros p f o Hp Hf Ho Hq Hfq. destruct (Hset (shift p o) (conj Hq Hfq) (opposite o) ltac:(by apply opposite_neighbour) f) as [H _];
      rewrite ?shift_opposite in *; done.
Qed.

Lemma settled_closed_direct s : lit_ok s → (∀ q, cell q → settled blocks b profile s SkyLight q) →
  (∀ q, inside q → halo_done blocks prior b profile s SkyLight q) → closed_direct blocks prior b profile (lvl s) (dir s).
Proof using All.
  intros Hs Hset Hh. split.
  - intros p Hp Hd Hf Hsrc. by eapply li_dir_source.
  - intros p Hp Hd Hf Hhalo. destruct (Hh p Hp up 0 15 true) as [_ H]; [unfold NEIGHBOURS, up; set_solver|done|by intros _; apply down_allows|done|].
    by apply H.
  - intros p Hp Hd Hf Hq Hdq. assert (Hcq : cell (shift p up)).
    { split; [done|]. destruct (li_dir _ _ _ _ _ _ Hs _ Hq Hdq) as [Hdir _]. destruct (direct_facts _ _ _ _ _ Hdir) as (_ & _ & ?). congruence. }
    assert (He : shift (shift p up) down = p) by (apply pos_ext; simpl; lia).
    destruct (Hset _ Hcq down ltac:(unfold NEIGHBOURS, down; set_solver) 0) as [_ H]; rewrite ?He; [done..|]. rewrite He in H. by apply H.
  - intros p Hp Hdp. by apply (li_dir _ _ _ _ _ _ Hs).
Qed.

Lemma ewp_finish spreads_at spr s0 Q :
  (∀ p s (Q : bool → SolveState → Prop), inside p → Q (spr p) s → ewp (spreads_at (dense p)) s Q failed) →
  ready blocks prior b profile max_queue s0 →
  (∀ s c q, entered_all blocks prior b profile max_queue spr s0 s → cell q → worked blocks b profile s c q) →
  (∀ s, finished s → Q tt s) →
  ewp (_ ← for_each (seed_increase prior b profile max_queue volume cache spreads_at) (enumerate (positions b));
       _ ← propagate blocks prior b profile max_queue cache BlockLight; propagate blocks prior b profile max_queue cache SkyLight) s0 Q failed.
Proof using All.
  intros Hspr H0 Hw HQ. pose proof failed_shape as HE.
  ewp_step. eapply ewp_seed_increase; [done..|]. intros s4 H4.
  ewp_step. apply ewp_propagate; [done..|apply H4|by intros; apply Hw|]. intros s5 H5.
  apply ewp_propagate; [done..|apply H5| |].
  { intros q Hq. eapply worked_frame; [apply H5|done|by apply Hw]. }
  intros s6 H6. apply HQ. split; [apply H6| |exact Seeds].
  assert (HB : ∀ q, cell q → settled blocks b profile s6 BlockLight q).
  { intros q Hq. eapply settled_frame; [apply H6|done|by apply H5]. }
  assert (HhB : ∀ q, inside q → halo_done blocks prior b profile s6 BlockLight q).
  { intros q Hq. eapply halo_done_frame; [apply H6|done|by apply H5]. }
  apply closed_sound_solved; [done..| | | |].
  - intros []; apply settled_closed; try apply H6; done.
  - apply settled_closed_direct; apply H6.
  - intros c p Hp. destruct (filter_of p) as [f|] eqn:Ef; [|by apply H6]. apply H6. split; [done|congruence].
  - intros p Hp Hd. by apply (li_dir _ _ _ _ _ _ (pr_ok _ _ _ _ _ _ _ _ H6)).
Qed.
End spread.

(** ** From darkened to ready *)

Section ready.
Context (noting : bool) (Seeds : seeds_ok blocks b) (Priors : priors_ok blocks prior b).
Notation dk := (dk blocks prior b profile max_queue noting).

(** Light that darkening leaves is real: it is supported by light that is also left. *)
Lemma darkened_sound s : dk s → (∀ p, cell p → justified blocks prior b profile s p) →
  (∀ c p, cell p → dark s c p → settled_dark blocks prior b profile s c p) →
  ∀ c p, cell p → ∃ v, lit c p v ∧ lvl s c p ≤ v.
Proof using All.
  intros Hs Hj Hset c p Hp. assert (Hf : ∃ f, filter_of p = Some f) by (destruct Hp as [_ Hf]; destruct (filter_of p); eauto; done).
  destruct Hf as [f Ef]. destruct (decide (lvl s c p = prior_level c p)) as [He|Hd].
  2:{ destruct (dark_source _ _ _ _ _ _ _ _ _ Hs Hp Hd) as [-> _]. exists (source_level c p). split; [|done]. eapply lit_source; [apply Hp|done]. }
  rewrite He. apply (kept_lit blocks prior b profile Seeds (λ c p, ¬ dark s c p)); [done| | |apply Hp..|intros Hn; by apply Hn].
  - intros c' q Hq Hfq Hk Hpos. destruct (Hj q (conj Hq Hfq) c' Hk); [lia|done].
  - intros c' q o f' Hq Hfq Hk Ho Hqo Hfo Hlt Hle Hdq.
    apply (Hset c' (shift q o) (conj Hqo Hfo) Hdq (opposite o)); [by apply opposite_neighbour|rewrite shift_opposite..|]; [split; [done|congruence]|done|done|].
    unfold depended. rewrite shift_opposite. rewrite incoming_cases in Hle. destruct (decide (_ ∧ _)) as [Hd|Hd].
    + destruct Hd as (-> & H2 & -> & H4 & H5 & _). pose proof (Priors SkyLight q Hq ltac:(congruence)).
      destruct (decide (prior_level SkyLight q = 15)) as [H15|Hne]; [right|left; lia]. simpl in H5. done.
    + left. pose proof (source_range_inside blocks prior b profile Seeds c' q Hq) as Hsr. unfold attenuate, saturating_sub in Hle. lia.
Qed.

Lemma darkened_ready s l s' d : dk s → (∀ p, cell p → justified blocks prior b profile s p) →
  (∀ c p, cell p → dark s c p → settled_dark blocks prior b profile s c p) → s_darken s = [] →
  (∀ c p, cell p → source_level c p ≤ lvl s c p ∨ dense p ∈ l) →
  shape s' → raised blocks b profile l s s' → d = dense_set_new volume →
  ready blocks prior b profile max_queue (with_direct d s').
Proof using All.
  intros Hs Hj Hset He Hl Hs' (o & Ho & -> & Hlv & Hk & Hu) ->.
  pose proof (dk_budget _ _ _ _ _ _ _ Hs) as Hb.
  split.
  - destruct Hs' as [A1 A2 A3 A4 A5]. split; try done. left. simpl. apply length_replicate.
  - intros c. pose proof (dk_fresh _ _ _ _ _ _ _ Hs c) as Hf. by destruct c.
  - split; [simpl; apply length_replicate|]. intros p Hp. unfold LightRules.dir. simpl. unfold dense_set_new.
    rewrite lookup_replicate_2; [done|]. by apply dense_lt.
  - intros c p Hp. change (lvl (with_direct _ _) c p) with (lvl (with_output o s) c p). rewrite Hlv by apply Hp.
    destruct (darkened_sound s Hs Hj Hset c p Hp) as (v & Hv & Hle). goal_decide as Hx; [|eauto].
    destruct (Z.max_spec (lvl s c p) (source_level c p)) as [[_ ->]|[_ ->]]; [|eauto].
    destruct (filter_of p) as [f|] eqn:Ef; [|by destruct Hx]. exists (source_level c p). split; [|done]. eapply lit_source; [apply Hp|done].
  - intros c p Hp Hf. change (lvl (with_direct _ _) c p) with (lvl (with_output o s) c p). rewrite Hlv, decide_False by (done || tauto).
    by apply (dk_unknown _ _ _ _ _ _ _ Hs).
  - intros c p Hp. change (lvl (with_direct _ _) c p) with (lvl (with_output o s) c p). rewrite Hlv by apply Hp.
    goal_decide as Hx; [lia|]. destruct (Hl c p Hp) as [?|Hin]; [done|]. destruct Hx. split; [apply Hp|done].
  - intros p Hp. change (shown b (with_direct _ _) p) with (shown b (with_output o s) p).
    pose proof (dk_shown _ _ _ _ _ _ _ Hs p Hp) as Hsh. destruct (decide (filter_of p = None)) as [Hn|Hn]; [by rewrite Hu|].
    split; [done|]. intros _. apply Hk; [done..|]. by apply Hsh.
  - simpl. lia.
Qed.
End ready.

(** ** The whole body *)

Lemma ewp_note_nothing x s (Q : unit → SolveState → Prop) : Q tt (noted false x s) → ewp (mret tt : S unit) s Q failed.
Proof using Type. done. Qed.

Lemma ewp_solve_body scratch Q : scratch_ok scratch → 0 ≤ max_queue → (∀ s, finished s → Q tt s) →
  ewp (solve_body blocks prior b profile max_queue volume cache) (solve_start volume scratch) Q failed.
Proof using All.
  intros Hsc Hmax HQ. pose proof failed_shape as HE. pose proof ewp_note_nothing as Hnote.
  unfold solve_body. ewp_step. apply ewp_reset_queues; [done..|]. set (s0 := emptied _ _).
  assert (Hs0 : shape s0) by (by apply emptied_shape; [apply blank_start|..]).
  ewp_step. eapply (ewp_load_prior blocks prior b profile max_queue Grid Volume failed s0); [|apply blank_start|].
  { intros e o He Ho. apply HE; [done|]. by apply with_output_shape. }
  intros o Ho Hl Hpri. destruct (loaded_dk blocks prior b profile max_queue Grid false (with_output o s0)) as (Hdk & Hq & _);
    [by apply with_output_shape|by intros []|done..|].
  clear Hl. revert Hdk Hq. generalize (with_output o s0). intros s1 Hdk Hq.
  ewp_step. eapply (ewp_darken_all blocks prior b profile max_queue Grid Volume failed HE (λ _, mret tt) false Hnote); [done..| |].
  { intros [i p] Hin. by apply elem_of_cells in Hin. }
  clear s1 Hdk Hq. intros s2 H2.
  assert (Hin : ∀ p, inside p → (dense p, p) ∈ enumerate (positions b)) by (intros p Hp; by apply elem_of_cells).
  assert (Seeds : seeds_ok blocks b) by (intros p Hp Hf; by apply (dd_cells _ _ _ _ _ _ _ _ H2 _ (Hin p Hp))).
  ewp_step. eapply ewp_raise; [done..|apply H2| |].
  { intros i Hi%elem_of_seq. assert (Hlt : (i < length (positions b))%nat) by (rewrite positions_length by done; lia).
    apply lookup_lt_is_Some in Hlt as [p Hp]. apply positions_lookup in Hp as [Hp ->]; [eauto|done]. }
  intros s3 Hs3 Hr. ewp_step. ewp_step. eapply (ewp_finish Seeds _ (λ _, true)); [by intros|..|done].
  - eapply (darkened_ready false Seeds Hpri s2); [apply H2|..|exact Hr|done].
    + intros p Hp. apply (dd_cells _ _ _ _ _ _ _ _ H2 _ (Hin p (proj1 Hp))), Hp.
    + apply H2.
    + apply H2.
    + intros c p Hp. right. apply elem_of_seq. pose proof (dense_lt b p (proj1 Hp)). lia.
    + done.
  - intros s c q Hs Hq. pose proof (sound_range blocks prior b profile max_queue Seeds s c q (ea_ok _ _ _ _ _ _ _ _ Hs) Hq) as Hrange.
    destruct (decide (lvl s c q = 0)) as [Hz|Hz].
    + right. apply settled_zero; [done|apply Hs|done..].
    + left. eapply ea_pending; [done..| |done]. lia.
Qed.
End solve.
