(* ===== verification/LightOutput.v ===== *)
(** * The frozen result

    [pack_section] and [freeze] of [output.rs] keep exactly the levels of the dense buffers: reading the frozen
    light gives back what was written, section by section. Then the walk of a section's direct sky. *)
From stdpp Require Import base numbers list gmap sets.
From S2P Require Import Prelude Packed Palette PaletteViews Bytes Keys Biome Snapshot Light LightSpec Effects LightGrid LightState LightSolve.
From S2P Require Import LightRules.
#[local] Open Scope Z_scope.
#[local] Ltac Zify.zify_post_hook ::= Z.to_euclidean_division_equations.

(** ** Nibbles *)

Lemma land_255 v : is_byte v → Z.land v 255 = v.
Proof. unfold is_byte. intros H. change 255 with (Z.ones 8). rewrite Z.land_ones by done. change (2 ^ 8) with 256. apply Z.mod_small. lia. Qed.

(** Or-ing a shifted level into a byte sets the bits of one nibble. *)
Lemma lor_nibble index v old : is_byte old → 0 ≤ v ≤ 15 →
  Z.lor old (to_unsigned 8 (Z.shiftl v (if Nat.even index then 0 else 4))) = set_nibble index (Z.lor (read_nibble index old) v) old.
Proof.
  intros Ho Hv. unfold set_nibble, read_nibble. destruct (Nat.even index).
  - rewrite Z.shiftl_0_r, Z.lor_assoc, <-Z.land_lor_distr_r. change (Z.lor 240 15) with 255. rewrite land_255 by done.
    unfold to_unsigned. change (2 ^ 8) with 256. by rewrite Z.mod_small by lia.
  - assert (Hs : ∀ x, 0 ≤ x ≤ 15 → to_unsigned 8 (Z.shiftl x 4) = Z.shiftl x 4).
    { intros x Hx. unfold to_unsigned. rewrite Z.shiftl_mul_pow2 by done. change (2 ^ 4) with 16. change (2 ^ 8) with 256. apply Z.mod_small. lia. }
    assert (Hsh : 0 ≤ Z.shiftr old 4 ≤ 15) by (rewrite shiftr_4; unfold is_byte in Ho; lia).
    assert (Hl : 0 ≤ Z.lor (Z.shiftr old 4) v ≤ 15).
    { assert (Hm : Z.land (Z.lor (Z.shiftr old 4) v) 15 = Z.lor (Z.shiftr old 4) v).
      { rewrite Z.land_lor_distr_l, !land_15, !Z.mod_small by lia. done. }
      rewrite <-Hm, land_15. lia. }
    unfold high_nibble. rewrite !Hs by done. rewrite Z.shiftl_lor, Z.lor_assoc. f_equal.
    rewrite <-(land_255 old) at 1 by done. change 255 with (Z.lor 15 240). rewrite Z.land_lor_distr_r. f_equal.
    rewrite land_240 by done. rewrite shiftr_4, Z.shiftl_mul_pow2 by done. lia.
Qed.

Section output.
Context (b : LightBounds) (Grid : grid_ok b) (out : MutableOutput) (Out : output_ok b out).
Notation inside := (inside b).
Notation dense := (dense b).
Implicit Types (p q : BlockPos) (c : LightChannel).

(** What the dense buffers hold. *)
Definition held c p : Z := default 0 (get_at_index out (dense p) c).
Definition known_at p : bool := default false (mo_known out !! dense p).
Context (Nibbles : ∀ c p, inside p → 0 ≤ held c p ≤ 15).

(** Sections and the numbers of their cells. *)
Definition section_of p : SubChunkKey := (split_position (lb_dimension b) p).1.
Definition number p : nat := Z.to_nat (256 * (bp_x p mod 16) + 16 * (bp_z p mod 16) + bp_y p mod 16).

Lemma number_lt p : (number p < LIGHT_SAMPLES_PER_SUB_CHUNK)%nat.
Proof using Type.
  unfold number. rewrite samples_blocks. pose proof (linear_index_lt (Z.to_nat (bp_x p mod 16)) (Z.to_nat (bp_y p mod 16)) (Z.to_nat (bp_z p mod 16)) ltac:(lia)) as H.
  rewrite linear_index_eq in H by lia. lia.
Qed.

Lemma number_inj p q : section_of p = section_of q → number p = number q → p = q.
Proof using Type. unfold section_of, number, split_position. simpl. intros [= H1 H2 H3] Hn. apply pos_ext; lia. Qed.

Lemma split_number p : (split_position (lb_dimension b) p) = (section_of p, (Z.to_nat (bp_x p mod 16), Z.to_nat (bp_y p mod 16), Z.to_nat (bp_z p mod 16))) ∧
  linear_index (Z.to_nat (bp_x p mod 16)) (Z.to_nat (bp_y p mod 16)) (Z.to_nat (bp_z p mod 16)) = number p.
Proof using Type. split; [done|]. rewrite linear_index_eq by lia. unfold number. lia. Qed.

(** ** One section *)

(** The bytes after the cells [D] of a section have been packed. *)
Record packed (key : SubChunkKey) (D : list BlockPos) (st : list Z * list Z * bool) : Prop := {
  pk_block : bytes_ok st.1.1;
  pk_sky : bytes_ok st.1.2;
  pk_held c p : inside p → section_of p = key →
    light_get (PackedLight (match c with BlockLight => st.1.1 | SkyLight => st.1.2 end)) (number p) =
      Some (if decide (p ∈ D ∧ known_at p = true) then held c p else 0);
  pk_any : st.2 = true ↔ ∃ p, p ∈ D ∧ known_at p = true;
}.

Lemma or_nibble bytes i v : bytes_ok bytes → (i < LIGHT_SAMPLES_PER_SUB_CHUNK)%nat → 0 ≤ v ≤ 15 →
  (light_get (PackedLight bytes) i = Some 0 ∨ light_get (PackedLight bytes) i = Some v) →
  ∃ old, bytes !! (i / 2)%nat = Some old ∧
    let bytes' := <[(i / 2)%nat := Z.lor old (to_unsigned 8 (Z.shiftl v (if Nat.even i then 0 else 4)))]> bytes in
    bytes_ok bytes' ∧ ∀ j, (j < LIGHT_SAMPLES_PER_SUB_CHUNK)%nat →
      light_get (PackedLight bytes') j = if decide (j = i) then Some v else light_get (PackedLight bytes) j.
Proof using Type.
  intros Hok Hi Hv Hold. destruct (light_get_packed bytes i Hok Hi) as (old & Ho & Hg). exists old. split; [done|].
  destruct (bytes_lookup bytes i Hok Hi) as (old' & Ho' & Hb). rewrite Ho in Ho'. injection Ho' as <-.
  rewrite lor_nibble by done. assert (Z.lor (read_nibble i old) v = v) as ->.
  { rewrite Hg in Hold. destruct Hold as [[= ->]|[= ->]]; [done|apply Z.lor_diag]. }
  pose proof (write_nibble_ok bytes i v Hok Hi Hv) as Hw. cbv zeta in Hw.
  assert (<[(i / 2)%nat := set_nibble i v old]> bytes = alter (set_nibble i v) (i / 2)%nat bytes) as ->; [|exact Hw].
  apply list_eq. intros j. destruct (decide (j = (i / 2)%nat)) as [->|Hj].
  - rewrite list_lookup_alter_eq, list_lookup_insert_eq by (by eapply lookup_lt_Some). by rewrite Ho.
  - rewrite list_lookup_alter_ne, list_lookup_insert_ne by done. done.
Qed.

Lemma held_lookup p : inside p → ∃ v, mo_values out !! dense p = Some v ∧ ∀ c, held c p = pair_channel c v.
Proof using Out.
  intros Hp. pose proof (dense_lt b p Hp) as Hl. rewrite <-(oo_values _ _ Out) in Hl. apply lookup_lt_is_Some in Hl as [v Hv].
  exists v. split; [done|]. intros c. unfold held, get_at_index. by rewrite Hv.
Qed.

Lemma known_lookup p : inside p → mo_known out !! dense p = Some (known_at p).
Proof using Out.
  intros Hp. pose proof (dense_lt b p Hp) as Hl. rewrite <-(oo_known _ _ Out) in Hl. apply lookup_lt_is_Some in Hl as [v Hv].
  unfold known_at. by rewrite Hv.
Qed.

Lemma pack_cell_spec key D st p : packed key D st → inside p → section_of p = key →
  ∃ st', pack_cell out (if Nat.even (number p) then 0 else 4) st (dense p, (number p / 2)%nat) = Some st' ∧ packed key (D ++ [p]) st'.
Proof using Out Nibbles.
  intros [H1 H2 H3 H4] Hp Hk. destruct st as [[block sky] any]. cbn [fst snd] in *. unfold pack_cell. rewrite known_lookup by done. cbn [mbind option_bind].
  assert (Hmem : ∀ q, q ∈ D ++ [p] ↔ q ∈ D ∨ q = p) by (intros q; by rewrite elem_of_app, list_elem_of_singleton).
  destruct (known_at p) eqn:Ek; cbn [negb].
  2:{ eexists. split; [done|]. split; try done; cbn [fst snd].
      - intros c q Hq Hkq. rewrite H3 by done. f_equal. apply decide_ext. rewrite Hmem. split; [tauto|]. intros [[?| ->] ?]; [done|congruence].
      - rewrite H4. setoid_rewrite Hmem. split; [naive_solver|]. intros (q & [?| ->] & ?); [eauto|congruence]. }
  destruct (held_lookup p Hp) as ([bv sv] & Hv & Hh). rewrite Hv. cbn [mbind option_bind]. pose proof (Hh BlockLight) as Hb. pose proof (Hh SkyLight) as Hs. simpl in Hb, Hs.
  pose proof (Nibbles BlockLight p Hp) as Nb. pose proof (Nibbles SkyLight p Hp) as Ns. rewrite Hb in Nb. rewrite Hs in Ns.
  pose proof (number_lt p) as Hn.
  destruct (or_nibble block (number p) bv H1 Hn Nb) as (ob & Hob & Hokb & Hgb).
  { pose proof (H3 BlockLight p Hp Hk) as Hg. simpl in Hg. rewrite Hg, Hb. case_decide; auto. }
  destruct (or_nibble sky (number p) sv H2 Hn Ns) as (os & Hos & Hoks & Hgs).
  { pose proof (H3 SkyLight p Hp Hk) as Hg. simpl in Hg. rewrite Hg, Hs. case_decide; auto. }
  rewrite Hob. cbn [mbind option_bind]. rewrite Hos. cbn [mbind option_bind]. eexists. split; [done|]. split; cbn [fst snd]; [done..| |].
  - intros c q Hq Hkq. assert (Hnum : number q = number p ↔ q = p) by (split; [apply number_inj; congruence|by intros ->]).
    pose proof (H3 c q Hq Hkq) as Hg. destruct c; [rewrite Hgb by apply number_lt|rewrite Hgs by apply number_lt].
    all: destruct (decide (number q = number p)) as [Hx|Hx]; [apply Hnum in Hx; subst q; rewrite decide_True by (rewrite Hmem; auto); congruence|].
    all: rewrite Hg; f_equal; apply decide_ext; rewrite Hmem; naive_solver.
  - split; [|done]. intros _. exists p. rewrite Hmem. auto.
Qed.

Lemma elem_of_range lo hi z : z ∈ range_incl lo hi ↔ lo ≤ z ≤ hi.
Proof using Type.
  unfold range_incl. rewrite list_elem_of_fmap. setoid_rewrite elem_of_seq. split.
  - intros (i & -> & H). lia.
  - intros H. exists (Z.to_nat (z - lo)). lia.
Qed.

Lemma range_lookup lo hi i z : range_incl lo hi !! i = Some z → z = lo + Z.of_nat i.
Proof using Type.
  unfold range_incl. rewrite list_lookup_fmap. destruct (seq _ _ !! i) as [j|] eqn:E; simpl; [|done]. intros [= <-].
  apply lookup_seq in E as [-> _]. simpl. done.
Qed.

Definition row_cells (x y z0 z1 : Z) : list BlockPos := (λ z, mk_pos x y z) <$> range_incl z0 z1.

Section one_section.
Context (key : SubChunkKey) (Key : sk_dimension key = lb_dimension b).
Definition origin : BlockPos := mk_pos (sk_x key * 16) (sk_y key * 16) (sk_z key * 16).
(** The part of the region in the section. *)
Definition lo : BlockPos := mk_pos (Z.max (bp_x (lb_min b)) (bp_x origin)) (Z.max (bp_y (lb_min b)) (bp_y origin)) (Z.max (bp_z (lb_min b)) (bp_z origin)).
Definition hi : BlockPos := mk_pos (Z.min (bp_x (lb_max b)) (bp_x origin + 15)) (Z.min (bp_y (lb_max b)) (bp_y origin + 15)) (Z.min (bp_z (lb_max b)) (bp_z origin + 15)).
Definition clipped p : Prop := bp_x lo ≤ bp_x p ≤ bp_x hi ∧ bp_y lo ≤ bp_y p ≤ bp_y hi ∧ bp_z lo ≤ bp_z p ≤ bp_z hi.

Lemma clipped_iff p : clipped p ↔ inside p ∧ section_of p = key.
Proof using Key.
  unfold clipped, lo, hi, origin, section_of, split_position. rewrite inside_iff. destruct key as [d kx ky kz]. simpl in *. subst d. split.
  - intros. split; [lia|]. f_equal; lia.
  - intros (? & [= <- <- <-]). lia.
Qed.

Lemma clipped_number p : clipped p →
  Z.to_nat (Z.lor (Z.lor (Z.shiftl (bp_x p - bp_x origin) 7) (Z.shiftr (bp_y p - bp_y origin) 1)) (Z.shiftl (bp_z p - bp_z origin) 3)) = (number p / 2)%nat ∧
  Z.land (bp_y p - bp_y origin) 1 * 4 = (if Nat.even (number p) then 0 else 4).
Proof using Key.
  intros Hc. pose proof (proj1 (clipped_iff p) Hc) as [_ Hk]. unfold section_of, split_position in Hk. simpl in Hk.
  assert (bp_x p - bp_x origin = bp_x p mod 16 ∧ bp_y p - bp_y origin = bp_y p mod 16 ∧ bp_z p - bp_z origin = bp_z p mod 16) as (-> & -> & ->).
  { pose proof (f_equal sk_x Hk). pose proof (f_equal sk_y Hk). pose proof (f_equal sk_z Hk). unfold origin. simpl in *. lia. }
  set (x := bp_x p mod 16). set (y := bp_y p mod 16). set (z := bp_z p mod 16).
  assert (Hr : 0 ≤ x < 16 ∧ 0 ≤ y < 16 ∧ 0 ≤ z < 16) by (unfold x, y, z; lia).
  assert (Hn : number p = Z.to_nat (256 * x + 16 * z + y)) by done. rewrite Hn. split.
  - rewrite <-Z.lor_assoc, (Z.lor_comm (Z.shiftr y 1)). rewrite Z.shiftr_div_pow2 by done. change (2 ^ 1) with 2.
    rewrite (lor_shiftl_add z 3) by (try (change (2 ^ 3) with 8); lia). rewrite lor_shiftl_add by (try (change (2 ^ 3) with 8; change (2 ^ 7) with 128); lia).
    change (2 ^ 3) with 8. change (2 ^ 7) with 128. clearbody x y z. apply Nat2Z.inj. rewrite Nat2Z.inj_div, !Z2Nat.id by lia.
    change (Z.of_nat 2) with 2. lia.
  - change 1 with (Z.ones 1). rewrite Z.land_ones by done. change (2 ^ 1) with 2.
    destruct (Nat.even _) eqn:Ee; [apply Nat.even_spec in Ee as [k Hk']|rewrite <-Nat.negb_odd, negb_false_iff in Ee; apply Nat.odd_spec in Ee as [k Hk']]; lia.
Qed.

Lemma pack_row_spec D st x y : packed key D st → bp_x lo ≤ x ≤ bp_x hi → bp_y lo ≤ y ≤ bp_y hi → bp_z lo ≤ bp_z hi →
  ∃ st', pack_row b out origin (bp_z lo) (bp_z hi) st (x, y) = Some st' ∧ packed key (D ++ row_cells x y (bp_z lo) (bp_z hi)) st'.
Proof using All.
  intros Hst Hx Hy Hz. assert (Hcl : ∀ z, bp_z lo ≤ z ≤ bp_z hi → clipped (mk_pos x y z)) by (intros z Hz'; done).
  revert Hz Hcl. generalize (bp_z lo) as z0. intros z0. generalize (bp_z hi) as z1. intros z1 Hz Hcl.
  unfold pack_row. rewrite (dense_index_of_spec b Grid), decide_True by (apply clipped_iff, Hcl; lia). simpl.
  destruct (foldM_inv (pack_cell out (Z.land (y - bp_y origin) 1 * 4)) (λ pre st', packed key (D ++ take (length pre) (row_cells x y z0 z1)) st') st
    ((λ '(offset, z), ((dense (mk_pos x y z0) + offset)%nat,
        Z.to_nat (Z.lor (Z.lor (Z.shiftl (x - bp_x origin) 7) (Z.shiftr (y - bp_y origin) 1)) (Z.shiftl (z - bp_z origin) 3)))) <$>
      imap pair (range_incl z0 z1))) as (st' & Hf & Hst').
  - simpl. by rewrite app_nil_r.
  - intros pre [i j] post st1 Hl Hst1.
    assert (Hlk : ((λ '(offset, z), ((dense (mk_pos x y z0) + offset)%nat,
        Z.to_nat (Z.lor (Z.lor (Z.shiftl (x - bp_x origin) 7) (Z.shiftr (y - bp_y origin) 1)) (Z.shiftl (z - bp_z origin) 3)))) <$>
      imap pair (range_incl z0 z1)) !! length pre = Some (i, j)) by (rewrite Hl; by apply list_lookup_middle).
    rewrite list_lookup_fmap, list_lookup_imap in Hlk. destruct (range_incl _ _ !! length pre) as [z|] eqn:Ez; cbn [fmap option_fmap option_map] in Hlk; [|done].
    injection Hlk as <- <-.
    pose proof (range_lookup _ _ _ _ Ez) as Hzv. assert (Hzr : z0 ≤ z ≤ z1) by (apply elem_of_range; by eapply list_elem_of_lookup_2).
    set (p := mk_pos x y z). pose proof (Hcl z Hzr) as Hp. fold p in Hp. pose proof (clipped_number p Hp) as [Hn He]. cbn [bp_x bp_y bp_z p] in Hn, He.
    assert (Hd : (dense (mk_pos x y z0) + length pre)%nat = dense p).
    { pose proof (proj1 (clipped_iff p) Hp) as [Hpi _]. pose proof (dense_z_range b p Hpi).
      pose proof (dense_z_range b _ (proj1 (proj1 (clipped_iff _) (Hcl z0 ltac:(lia))))).
      unfold LightGrid.dense. subst z. unfold dense_z in *. cbn [bp_x bp_y bp_z p] in *. lia. }
    unfold origin in Hn, He |- *. cbn [bp_x bp_y bp_z] in Hn, He |- *. rewrite Hd, Hn, He. destruct (pack_cell_spec key _ st1 p Hst1) as (st2 & Hc & Hst2); [by apply clipped_iff..|].
    exists st2. split; [done|]. rewrite length_app. simpl. rewrite Nat.add_1_r.
    rewrite (take_S_r _ _ p); [by rewrite app_assoc|]. unfold row_cells. rewrite list_lookup_fmap, Ez. done.
  - exists st'. split; [done|]. rewrite length_fmap, length_imap in Hst'. unfold row_cells in Hst' |- *.
    rewrite take_ge in Hst' by (by rewrite length_fmap). done.
Qed.

Context (generation : Z).

(** What a packed section is: nothing when no cell of it is known, and otherwise its cells' levels. *)
Definition section_good (light : option SubChunkLight) : Prop :=
  match light with
  | None => ∀ p, inside p → section_of p = key → known_at p = false
  | Some l => light_ok l ∧ l_generation l = generation ∧ (∃ p, inside p ∧ section_of p = key ∧ known_at p = true) ∧
      ∀ c p, inside p → section_of p = key → light_get (channel l c) (number p) = Some (if known_at p then held c p else 0)
  end.

Lemma elem_of_box x0 x1 y0 y1 (z0 z1 : Z) p :
  p ∈ ((x ← range_incl x0 x1; y ← range_incl y0 y1; [(x, y)]) ≫= λ '(x, y), row_cells x y z0 z1) ↔
  x0 ≤ bp_x p ≤ x1 ∧ y0 ≤ bp_y p ≤ y1 ∧ z0 ≤ bp_z p ≤ z1.
Proof using All.
  rewrite list_elem_of_bind. split.
  - intros ([x y] & Hp & Hxy). apply list_elem_of_bind in Hxy as (x' & Hxy & Hx). apply list_elem_of_bind in Hxy as (y' & Hxy & Hy).
    apply list_elem_of_singleton in Hxy. injection Hxy as -> ->. unfold row_cells in Hp. apply list_elem_of_fmap in Hp as (z & -> & Hz).
    rewrite elem_of_range in *. simpl. done.
  - intros (Hx & Hy & Hz). exists (bp_x p, bp_y p). split.
    + unfold row_cells. apply list_elem_of_fmap. exists (bp_z p). rewrite elem_of_range. split; [by destruct p|done].
    + apply list_elem_of_bind. exists (bp_x p). split; [|by apply elem_of_range]. apply list_elem_of_bind. exists (bp_y p).
      split; [set_solver|by apply elem_of_range].
Qed.

Lemma packed_init : packed key [] (replicate PACKED_LIGHT_BYTES 0, replicate PACKED_LIGHT_BYTES 0, false).
Proof using Type.
  destruct (replicate_ok 0 ltac:(lia)) as [Hok Hg]. change (repeated 0) with 0 in *. split; cbn [fst snd]; [done..| |].
  - intros c p _ _. rewrite decide_False by (intros [H _]; by apply elem_of_nil in H). destruct c; by apply Hg, number_lt.
  - split; [done|]. intros (p & H & _). by apply elem_of_nil in H.
Qed.

Lemma pack_section_spec : bp_z lo ≤ bp_z hi → ∃ light, pack_section b out generation key = Some light ∧ section_good light.
Proof using All.
  intros Hz. unfold pack_section. change (16 - 1) with 15. fold origin.
  set (rows := x ← range_incl _ _; y ← range_incl _ _; [(x, y)]).
  assert (Hrows : ∀ x y, (x, y) ∈ rows → bp_x lo ≤ x ≤ bp_x hi ∧ bp_y lo ≤ y ≤ bp_y hi).
  { intros x y H. unfold rows in H. apply list_elem_of_bind in H as (x' & H & Hx). apply list_elem_of_bind in H as (y' & H & Hy).
    apply list_elem_of_singleton in H. injection H as -> ->. rewrite elem_of_range in Hx, Hy. done. }
  destruct (foldM_inv (pack_row b out origin (bp_z lo) (bp_z hi))
    (λ pre st, packed key (pre ≫= λ '(x, y), row_cells x y (bp_z lo) (bp_z hi)) st)
    (replicate PACKED_LIGHT_BYTES 0, replicate PACKED_LIGHT_BYTES 0, false) rows) as ([[block sky] any] & Hf & [H1 H2 H3 H4]).
  - apply packed_init.
  - intros pre [x y] post st Hl Hst. destruct (Hrows x y) as [Hx Hy]; [rewrite Hl; set_solver|].
    destruct (pack_row_spec _ st x y Hst Hx Hy Hz) as (st' & Hp & Hst'). exists st'. split; [done|].
    rewrite bind_app. simpl. by rewrite app_nil_r.
  - assert (HD : ∀ p, p ∈ (rows ≫= λ '(x, y), row_cells x y (bp_z lo) (bp_z hi)) ↔ inside p ∧ section_of p = key).
    { intros p. rewrite <-clipped_iff. unfold rows. by rewrite elem_of_box. }
    unfold lo, hi in Hf. cbn [bp_x bp_y bp_z] in Hf |- *. rewrite Hf. cbn [mbind option_bind]. eexists. split; [done|].
    cbn [fst snd] in *. destruct any; cbn [section_good].
    + destruct (from_packed_ok block H1) as [Hb1 Hb2], (from_packed_ok sky H2) as [Hs1 Hs2].
      split; [by split|]. split; [done|]. split.
      * destruct (proj1 H4 eq_refl) as (p & Hp & Hk). exists p. apply HD in Hp. tauto.
      * intros c p Hp Hk. pose proof (H3 c p Hp Hk) as Hg. destruct c; simpl; [rewrite Hb2|rewrite Hs2]; rewrite Hg; f_equal.
        all: destruct (known_at p); [rewrite decide_True by (rewrite HD; auto)|rewrite decide_False by (intros [_ ?]; done)]; done.
    + intros p Hp Hk. apply not_true_is_false. intros Hkn. assert (false = true); [|done]. apply H4. exists p. rewrite HD. auto.
Qed.
End one_section.

Lemma elem_of_section_keys key : key ∈ section_keys b ↔ sk_dimension key = lb_dimension b ∧
  bp_x (lb_min b) / 16 ≤ sk_x key ≤ bp_x (lb_max b) / 16 ∧ bp_y (lb_min b) / 16 ≤ sk_y key ≤ bp_y (lb_max b) / 16 ∧
  bp_z (lb_min b) / 16 ≤ sk_z key ≤ bp_z (lb_max b) / 16.
Proof using Type.
  unfold section_keys, split_position. simpl. rewrite list_elem_of_bind. setoid_rewrite list_elem_of_bind. setoid_rewrite list_elem_of_bind.
  setoid_rewrite list_elem_of_singleton. setoid_rewrite elem_of_range. split.
  - intros (x & (y & (z & -> & Hz) & Hy) & Hx). done.
  - intros (Hd & Hx & Hy & Hz). exists (sk_x key). split; [|done]. exists (sk_y key). split; [|done]. exists (sk_z key). split; [|done].
    destruct key. simpl in *. by subst.
Qed.

Lemma section_of_key p : inside p → section_of p ∈ section_keys b.
Proof using Type. intros (Hx & Hy & Hz)%inside_iff. apply elem_of_section_keys. unfold section_of, split_position. simpl. lia. Qed.

(** Freezing loses nothing. *)
Record frozen (generation : Z) (d : DensePositionSet) (stats : LightSolveStats) (o : LightSolveOutput) : Prop := {
  fz_fields : so_dimension o = lb_dimension b ∧ so_bounds o = b ∧ so_direct o = d ∧ so_stats o = stats;
  fz_section key : key ∈ section_keys b → section_good key generation (so_sub_chunks o !! key);
  fz_other key : key ∉ section_keys b → so_sub_chunks o !! key = None;
}.

Lemma freeze_spec generation d stats : ∃ o, freeze b out generation d stats = Some o ∧ frozen generation d stats o.
Proof using All.
  unfold freeze.
  destruct (foldM_inv (λ m key, light ← pack_section b out generation key; Some (match light with Some light => <[key := light]> m | None => m end))
    (λ pre (m : gmap SubChunkKey SubChunkLight), (∀ key, key ∈ pre → section_good key generation (m !! key)) ∧ (∀ key, key ∉ pre → m !! key = None))
    ∅ (section_keys b)) as (m & Hf & Hg & Hn).
  - split; [intros key H; by apply elem_of_nil in H|]. intros. apply lookup_empty.
  - intros pre key post m Hl [Hg Hn]. assert (Hk : key ∈ section_keys b) by (rewrite Hl; set_solver).
    apply elem_of_section_keys in Hk as (Hd & Hx & Hy & Hz).
    destruct (pack_section_spec key Hd generation) as (light & Hp & Hgood).
    { unfold lo, hi, origin. simpl. pose proof (go_z _ Grid). lia. }
    rewrite Hp. simpl. eexists. split; [done|]. split.
    + intros k [Hin| ->%list_elem_of_singleton]%elem_of_app.
      * destruct light as [l|]; [|by apply Hg]. destruct (decide (k = key)) as [->|Hne]; [by rewrite lookup_insert_eq|].
        rewrite lookup_insert_ne by done. by apply Hg.
      * destruct light as [l|]; [by rewrite lookup_insert_eq|]. destruct (decide (key ∈ pre)) as [Hin|Hin]; [by apply Hg|]. by rewrite Hn.
    + intros k Hk. assert (k ∉ pre ∧ k ≠ key) as [? ?] by (rewrite elem_of_app, list_elem_of_singleton in Hk; tauto).
      destruct light as [l|]; [rewrite lookup_insert_ne by done|]; by apply Hn.
  - rewrite Hf. simpl. eexists. split; [done|]. by split.
Qed.

(** Reading the frozen light gives back the buffers. *)
Lemma frozen_light generation d stats o p c : frozen generation d stats o → inside p → light_at o p c = if known_at p then held c p else 0.
Proof using Type.
  intros [(Hd & Hb & _ & _) Hg _] Hp. unfold light_at, output_read_light. rewrite bool_decide_eq_true_2 by done. rewrite Hb, Hd.
  unfold LightGrid.inside in Hp. rewrite Hp. cbn [negb orb]. fold (inside p) in Hp. destruct (split_number p) as [Hs Hnum]. rewrite Hs.
  specialize (Hg _ (section_of_key p Hp)). unfold section_good in Hg. destruct (so_sub_chunks o !! section_of p) as [l|]; simpl.
  - destruct Hg as (_ & _ & _ & Hget). rewrite light_get_local, Hnum by lia. by rewrite Hget.
  - by rewrite (Hg p Hp eq_refl).
Qed.

Lemma frozen_direct generation d stats o p : frozen generation d stats o → inside p →
  output_direct_sky o (lb_dimension b) p = default false (d !! dense p).
Proof using Grid.
  intros [(Hd & Hb & Hdir & _) _ _] Hp. unfold output_direct_sky. rewrite Hd, Hb, Hdir, bool_decide_eq_true_2 by done.
  unfold LightGrid.inside in Hp. rewrite Hp. simpl. unfold dense_set_contains. rewrite (dense_index_of_spec b Grid), decide_True by done. done.
Qed.
End output.

(** ** The direct sky of a section

    [LightSolveOutput::for_each_direct_sky_in] walks the provenance bits of one section row by row: it visits the
    cells that [has_direct_sky_provenance] reports, each once. *)

Lemma range_nodup lo hi : NoDup (range_incl lo hi).
Proof. apply NoDup_fmap_2; [intros i j; lia|apply NoDup_seq]. Qed.

Section walk.
Context (b : LightBounds) (Grid : grid_ok b) (present : DensePositionSet) (Size : length present = volume_of b).
Implicit Types (p min max : BlockPos).

Definition within min max p : Prop :=
  bp_x min ≤ bp_x p ≤ bp_x max ∧ bp_y min ≤ bp_y p ≤ bp_y max ∧ bp_z min ≤ bp_z p ≤ bp_z max.

Lemma elem_of_rows min max p i : (p, i) ∈ clipped_rows b min max ↔ within min max p ∧ inside b p ∧ i = dense b p.
Proof using All.
  pose proof (go_x _ Grid). pose proof (go_y _ Grid). pose proof (go_z _ Grid).
  assert (Hi : ∀ q, inside b q → dense b q = ((Z.to_nat (bp_x q - bp_x (lb_min b)) * Z.to_nat (bounds_y_len b) + Z.to_nat (bp_y q - bp_y (lb_min b))) * Z.to_nat (bounds_z_len b) + Z.to_nat (bp_z q - bp_z (lb_min b)))%nat).
  { intros q (Hx & Hy & Hz)%inside_iff. unfold dense, dense_z, bounds_y_len, bounds_z_len, light_axis_len in *.
    nat_as_Z. ring. }
  unfold clipped_rows. rewrite list_elem_of_bind. setoid_rewrite list_elem_of_bind. setoid_rewrite list_elem_of_bind.
  setoid_rewrite list_elem_of_singleton. setoid_rewrite elem_of_range. unfold within. split.
  - intros (x & (y & (z & [= -> ->] & Hz) & Hy) & Hx). assert (Hin : inside b (mk_pos x y z)) by (apply inside_iff; simpl; lia).
    split; [simpl; lia|]. split; [done|]. by rewrite Hi.
  - intros (Hw & Hin & ->). rewrite Hi by done. apply inside_iff in Hin. exists (bp_x p). split; [|lia]. exists (bp_y p). split; [|lia]. exists (bp_z p).
    split; [by destruct p|lia].
Qed.

Lemma rows_nodup min max : NoDup (clipped_rows b min max).
Proof using Type.
  unfold clipped_rows. cbv zeta. apply NoDup_bind; [| |apply range_nodup].
  - intros x x' [q i] _ _ (y & (z & [= -> _]%list_elem_of_singleton & _)%list_elem_of_bind & _)%list_elem_of_bind
      (y' & (z' & [= ? _]%list_elem_of_singleton & _)%list_elem_of_bind & _)%list_elem_of_bind. congruence.
  - intros x _. apply NoDup_bind; [| |apply range_nodup].
    + intros y y' [q i] _ _ (z & [= -> _]%list_elem_of_singleton & _)%list_elem_of_bind (z' & [= ? _]%list_elem_of_singleton & _)%list_elem_of_bind. congruence.
    + intros y _. apply NoDup_bind; [| |apply range_nodup].
      * intros z z' [q i] _ _ [= -> _]%list_elem_of_singleton [= ? _]%list_elem_of_singleton. congruence.
      * intros z _. apply NoDup_singleton.
Qed.

(** The walk visits exactly the present positions between the corners. *)
Lemma for_each_within_spec min max : ∃ visited, for_each_within b present min max = Some visited ∧ NoDup visited ∧
  ∀ p, p ∈ visited ↔ within min max p ∧ inside b p ∧ present !! dense b p = Some true.
Proof using Grid Size.
  unfold for_each_within.
  destruct (foldM_inv (λ visited '(p, index), here ← contains_at_index present index; Some (if here : bool then visited ++ [p] else visited))
    (λ pre visited, NoDup visited ∧ ∀ p, p ∈ visited ↔ ∃ i, (p, i) ∈ pre ∧ present !! i = Some true) [] (clipped_rows b min max))
    as (visited & Hf & Hnd & Hv).
  - split; [apply NoDup_nil_2|]. intros p. split; [intros H; by apply elem_of_nil in H|intros (i & H & _); by apply elem_of_nil in H].
  - intros pre [p i] post visited Hl [Hnd Hv]. assert (Hm : (p, i) ∈ clipped_rows b min max) by (rewrite Hl; set_solver).
    apply elem_of_rows in Hm as (_ & Hin & ->). pose proof (dense_lt b p Hin) as Hlt. rewrite <-Size in Hlt.
    destruct (lookup_lt_is_Some_2 _ _ Hlt) as [here Hh]. unfold contains_at_index. rewrite Hh. cbn [mbind option_bind]. eexists. split; [done|].
    pose proof (rows_nodup min max) as Hrows. rewrite Hl in Hrows. apply NoDup_app in Hrows as (_ & Hdis & _).
    destruct here; [|split; [done|]; intros q; rewrite Hv; setoid_rewrite elem_of_app; setoid_rewrite list_elem_of_singleton; naive_solver].
    split.
    + apply NoDup_app. split; [done|]. split; [|apply NoDup_singleton]. intros q (j & Hj & _)%Hv ->%list_elem_of_singleton.
      assert (Hr : (p, j) ∈ clipped_rows b min max) by (rewrite Hl; set_solver). apply elem_of_rows in Hr as (_ & _ & ->).
      apply (Hdis _ Hj). by left.
    + intros q. rewrite elem_of_app, Hv, list_elem_of_singleton. setoid_rewrite elem_of_app. setoid_rewrite list_elem_of_singleton. naive_solver.
  - exists visited. split; [done|]. split; [done|]. intros p. rewrite Hv. setoid_rewrite elem_of_rows. naive_solver.
Qed.
End walk.

(** Walking a section's direct sky visits, each once, the local coordinates of the cells that the provenance test reports;
    no bit outside the region is read. *)
Theorem direct_sky_walk_exact o key : grid_ok (so_bounds o) → length (so_direct o) = volume_of (so_bounds o) →
  ∃ visited, for_each_direct_sky_in o key = Some visited ∧ NoDup visited ∧
    ∀ x y z, (x, y, z) ∈ visited ↔ (x < 16 ∧ y < 16 ∧ z < 16)%nat ∧
      output_direct_sky o (sk_dimension key) (mk_pos (sk_x key * 16 + Z.of_nat x) (sk_y key * 16 + Z.of_nat y) (sk_z key * 16 + Z.of_nat z)) = true.
Proof.
  intros Hb Hl. unfold for_each_direct_sky_in, output_direct_sky. case_bool_decide as Hd; cbn [negb andb].
  2:{ exists []. split; [done|]. split; [apply NoDup_nil_2|]. intros x y z. split; [intros H; by apply elem_of_nil in H|by intros [_ ?]]. }
  cbv zeta. set (origin := mk_pos _ _ _) at 1. set (last := mk_pos _ _ _).
  destruct (for_each_within_spec (so_bounds o) Hb (so_direct o) Hl origin last) as (visited & -> & Hnd & Hv). cbn [fmap option_fmap option_map].
  eexists. split; [done|].
  assert (Hw : ∀ p, within origin last p ↔ (sk_x key = bp_x p / 16 ∧ sk_y key = bp_y p / 16 ∧ sk_z key = bp_z p / 16)).
  { intros p. unfold within, last, origin. cbn [bp_x bp_y bp_z]. lia. }
  split.
  - apply (NoDup_fmap_2_strong (λ p, (split_position (so_dimension o) p).2)); [|done]. intros p q Hp%Hv Hq%Hv. destruct Hp as (Hp%Hw & _), Hq as (Hq%Hw & _).
    unfold split_position. cbn [snd]. intros [= H1 H2 H3]. apply pos_ext; lia.
  - intros x y z. set (p := mk_pos (sk_x key * 16 + _) _ _).
    assert (Hbit : bounds_contains (so_bounds o) p && default false (dense_set_contains (so_bounds o) (so_direct o) p) = true ↔
      inside (so_bounds o) p ∧ so_direct o !! dense (so_bounds o) p = Some true).
    { rewrite andb_true_iff. fold (inside (so_bounds o) p). unfold dense_set_contains. rewrite (dense_index_of_spec (so_bounds o) Hb).
      case_decide as Hi; [|tauto]. unfold contains_at_index. destruct (so_direct o !! _) as [[]|]; naive_solver. }
    rewrite Hbit, list_elem_of_fmap. split.
    + intros (q & Hs & Hq%Hv). destruct Hq as (Hq%Hw & Hi & Hp). unfold split_position in Hs. cbn [snd] in Hs. injection Hs as -> -> ->.
      split; [lia|]. assert (p = q) as ->; [|done]. unfold p. apply pos_ext; cbn [bp_x bp_y bp_z]; lia.
    + intros (Hlt & Hi & Hp). exists p. split; [|apply Hv; split; [apply Hw; unfold p; cbn [bp_x bp_y bp_z]; lia|done]].
      unfold p, split_position. cbn [snd bp_x bp_y bp_z]. repeat f_equal; lia.
Qed.

(** A column of two cells, the upper one under open sky. *)
Definition demo_walk : LightSolveOutput := mk_solve_output 0 (mk_bounds 0 (mk_pos 0 14 0) (mk_pos 0 17 0)) ∅ [false; true; true; false] stats_default.

Example demo_walk_visits : for_each_direct_sky_in demo_walk (mk_sub_chunk_key 0 0 1 0) = Some [(0%nat, 0%nat, 0%nat)].
Proof. vm_compute. reflexivity. Qed.

Lemma direct_sky_walk_exact_witness : ∃ visited, for_each_direct_sky_in demo_walk (mk_sub_chunk_key 0 0 0 0) = Some visited ∧ NoDup visited ∧
  ∀ x y z, (x, y, z) ∈ visited ↔ (x < 16 ∧ y < 16 ∧ z < 16)%nat ∧
    output_direct_sky demo_walk 0 (mk_pos (0 * 16 + Z.of_nat x) (0 * 16 + Z.of_nat y) (0 * 16 + Z.of_nat z)) = true.
Proof. exact (direct_sky_walk_exact demo_walk (mk_sub_chunk_key 0 0 0 0) ltac:(by split) eq_refl). Defined.
