(* ===== verification/LightChanges.v ===== *)
(** * Relighting a few changed cells

    [light_solver/changes.rs]: a solve that starts from the solved light of the same blocks except at some cells.
    It shares the steps of [solve.rs] and visits only what the changes can reach. *)
From stdpp Require Import base numbers list gmap.
From S2P Require Import Prelude Packed Bytes Keys Snapshot Light LightGrid LightState Effects LightSolve.
#[local] Open Scope Z_scope.

Section code.
Context (blocks : LightBlockAccess) (prior : LightReadAccess) (b : LightBounds) (profile : DimensionLightProfile).
Context (max_queue : Z) (volume : nat) (cache : BlockCache).
Implicit Types (p : BlockPos) (cells : list (nat * BlockPos)) (present : DensePositionSet).

(** A changed cell or one of its neighbours, once. *)
Definition add_candidate (acc : DensePositionSet * list (nat * BlockPos)) (cell : BlockPos * (Z * Z * Z)) : option (DensePositionSet * list (nat * BlockPos)) :=
  match pos_checked_offset cell.1 cell.2 with
  | None => Some acc
  | Some q =>
    match dense_index_of b q with
    | None => Some acc
    | Some index =>
      seen ← contains_at_index acc.1 index;
      if seen : bool then Some acc
      else present ← insert_at_index acc.1 index; Some (present, acc.2 ++ [(index, q)])
    end
  end.
Definition around p : list (BlockPos * (Z * Z * Z)) := pair p <$> (0, 0, 0) :: NEIGHBOURS.
Definition candidates_of (changed : list BlockPos) : option (list (nat * BlockPos)) :=
  snd <$> foldM add_candidate (dense_set_new volume, []) (changed ≫= around).

(** The cells new light can spread from. *)
Definition mark_index present (index : nat) : option DensePositionSet := insert_at_index present index.
Definition mark_neighbour present (cell : BlockPos * (Z * Z * Z)) : option DensePositionSet :=
  match pos_checked_offset cell.1 cell.2 ≫= dense_index_of b with None => Some present | Some index => mark_index present index end.
Definition mark_darkened present (cell : nat * BlockPos) : option DensePositionSet :=
  present ← mark_index present cell.1; foldM mark_neighbour present (pair cell.2 <$> NEIGHBOURS).
Definition spreading_of cells (darkened : list (nat * BlockPos)) : option DensePositionSet :=
  present ← foldM mark_index (dense_set_new volume) cells.*1; foldM mark_darkened present darkened.

Definition record_darkened (cell : nat * BlockPos) : S unit := eff_modify (λ s, with_darkened (s_darkened s ++ [cell]) s).

Definition changes_body (changed : list BlockPos) : S unit :=
  let cells := enumerate (positions b) in
  _ ← for_each (load_prior prior b volume cache) cells;
  candidates ← eff_expect (candidates_of changed);
  _ ← reset_queues volume;
  _ ← darken_all blocks prior b profile max_queue volume cache record_darkened candidates;
  darkened ← eff_gets s_darkened;
  _ ← for_each (raise_to_base profile cache) (candidates ++ darkened).*1;
  spreading ← eff_expect (spreading_of candidates darkened);
  _ ← eff_modify (with_direct (dense_set_new volume));
  _ ← for_each (seed_increase prior b profile max_queue volume cache (λ index, eff_expect (contains_at_index spreading index))) cells;
  _ ← propagate blocks prior b profile max_queue cache BlockLight;
  propagate blocks prior b profile max_queue cache SkyLight.
End code.

Definition solve_light_changes_with_scratch (blocks : LightBlockAccess) (prior : LightReadAccess) (b : LightBounds) (generation : Z)
    (profile : DimensionLightProfile) (limits : SolverLimits) (scratch : LightSolverScratch) (changed : list BlockPos)
    : option (result LightSolveError LightSolveOutput * LightSolverScratch) :=
  match checked_volume b limits with
  | Err e => Some (Err e, scratch)
  | Ok v =>
    let volume := Z.to_nat v in
    '(r, s) ← changes_body blocks prior b profile (max_queue_entries limits) volume (block_cache_new blocks b) changed (solve_start volume scratch);
    match r with
    | Err e => Some (Err e, scratch_of s)
    | Ok _ => out ← freeze b (s_output s) generation (s_direct s) (s_stats s); Some (Ok out, scratch_of s)
    end
  end.

(** ** The candidates and the cells light spreads from *)

Section sets.
Context (b : LightBounds) (Grid : grid_ok b).
Notation volume := (volume_of b).
Notation inside := (inside b).
Notation dense := (dense b).
Implicit Types (p q : BlockPos).

Lemma offset_index p o : pos_checked_offset p o ≫= dense_index_of b = if decide (inside (shift p o)) then Some (dense (shift p o)) else None.
Proof using Grid.
  rewrite checked_offset_spec. goal_decide as Hi; cbn [mbind option_bind].
  - by apply light_dense_index_spec.
  - rewrite decide_False; [done|]. intros H. apply Hi. by eapply inside_i32.
Qed.

Definition near (changed : list BlockPos) q : Prop := q ∈ changed ∨ ∃ o, o ∈ NEIGHBOURS ∧ shift q o ∈ changed.

Record found (pre : list (BlockPos * (Z * Z * Z))) (acc : DensePositionSet * list (nat * BlockPos)) : Prop := {
  fo_length : length acc.1 = volume;
  fo_cells i q : (i, q) ∈ acc.2 → inside q ∧ i = dense q;
  fo_seen q : inside q → acc.1 !! dense q = Some true → (dense q, q) ∈ acc.2;
  fo_all p o : (p, o) ∈ pre → inside (shift p o) → (dense (shift p o), shift p o) ∈ acc.2;
}.

Lemma add_candidate_spec pre acc p o : found pre acc → ∃ acc', add_candidate b acc (p, o) = Some acc' ∧ found (pre ++ [(p, o)]) acc'.
Proof using Grid.
  intros H. pose proof (offset_index p o) as Hidx. unfold add_candidate. cbn [fst snd].
  assert (Hsame : (inside (shift p o) → (dense (shift p o), shift p o) ∈ acc.2) → found (pre ++ [(p, o)]) acc).
  { intros Hin. split; [apply H..|]. intros p' o' [Hx|Hx]%elem_of_app; [by apply H|]. apply list_elem_of_singleton in Hx. by simplify_eq. }
  rewrite checked_offset_spec in *. destruct (decide (i32_pos (shift p o))) as [Hi|Hi]; cbn [mbind option_bind] in Hidx.
  2:{ exists acc. split; [done|]. apply Hsame. intros Hin. destruct Hi. by eapply inside_i32. }
  rewrite Hidx. destruct (decide (inside (shift p o))) as [Hin|Hin].
  2:{ exists acc. split; [done|]. by apply Hsame. }
  pose proof (dense_lt b _ Hin) as Hlt. rewrite <-(fo_length _ _ H) in Hlt.
  destruct (lookup_lt_is_Some_2 _ _ Hlt) as [seen Hseen]. unfold contains_at_index. rewrite Hseen. cbn [mbind option_bind].
  destruct seen. { exists acc. split; [done|]. apply Hsame. intros _. by apply H. }
  unfold insert_at_index, set_slot. rewrite decide_True by done. cbn [mbind option_bind]. eexists. split; [done|]. split; cbn [fst snd].
  - rewrite length_insert. apply H.
  - intros i q [Hx|Hx]%elem_of_app; [by apply H|]. apply list_elem_of_singleton in Hx. by simplify_eq.
  - intros q Hq Hl. apply elem_of_app. destruct (decide (q = shift p o)) as [->|Hne]; [right; set_solver|left].
    apply H; [done|]. rewrite list_lookup_insert_ne in Hl; [done|]. intros E%(dense_inj b); [by subst|done..].
  - intros p' o' [Hx|Hx]%elem_of_app Hin'; apply elem_of_app; [left; by apply (fo_all _ _ H)|]. apply list_elem_of_singleton in Hx. simplify_eq. right. set_solver.
Qed.

Lemma candidates_spec changed : ∃ l, candidates_of b volume changed = Some l ∧
  (∀ x, x ∈ l → inside x.2 ∧ x.1 = dense x.2) ∧ (∀ q, inside q → near changed q → (dense q, q) ∈ l).
Proof using Grid.
  destruct (foldM_inv (add_candidate b) found (dense_set_new volume, []) (changed ≫= around)) as (acc & Hf & H).
  - split; cbn [fst snd]; [apply length_replicate|intros i q Hx; by apply elem_of_nil in Hx| |intros p o Hx; by apply elem_of_nil in Hx].
    intros q Hq Hx. by apply lookup_replicate in Hx as [? _].
  - intros pre [p o] post acc _ Hacc. by apply add_candidate_spec.
  - exists acc.2. unfold candidates_of. rewrite Hf. split; [done|]. split; [intros [i q]; apply H|].
    intros q Hq [Hc|(o & Ho & Hc)].
    + pose proof (fo_all _ _ H q (0, 0, 0)) as Ha. assert (shift q (0, 0, 0) = q) as He by (apply pos_ext; simpl; lia). rewrite He in Ha.
      apply Ha; [|done]. apply list_elem_of_bind. exists q. split; [|done]. unfold around. set_solver.
    + pose proof (fo_all _ _ H (shift q o) (opposite o)) as Ha. rewrite shift_opposite in Ha. apply Ha; [|done].
      apply list_elem_of_bind. exists (shift q o). split; [|done]. unfold around. apply list_elem_of_fmap. eexists. split; [done|].
      apply elem_of_cons. right. by apply opposite_neighbour.
Qed.

(** ** Marks *)

Definition marks (present : DensePositionSet) (l : list nat) : Prop := length present = volume ∧ ∀ i, i ∈ l → present !! i = Some true.

Lemma mark_index_spec present l i : marks present l → (i < volume)%nat → ∃ present', mark_index present i = Some present' ∧ marks present' (l ++ [i]).
Proof using Type.
  intros [Hl Hm] Hi. unfold mark_index, insert_at_index, set_slot. rewrite decide_True by lia. eexists. split; [done|].
  split; [by rewrite length_insert|]. intros j [Hj|Hj]%elem_of_app.
  - destruct (decide (j = i)) as [->|Hne]; [by rewrite list_lookup_insert_eq by lia|]. rewrite list_lookup_insert_ne by done. by apply Hm.
  - apply list_elem_of_singleton in Hj as ->. by rewrite list_lookup_insert_eq by lia.
Qed.

Lemma marks_mono present l l' : marks present l → (∀ i, i ∈ l' → i ∈ l) → marks present l'.
Proof using Type. intros [? H] Hl. split; [done|auto]. Qed.

(** The indices a darkened cell marks. *)
Definition darkened_marks (p : BlockPos) : list nat :=
  dense p :: (o ← NEIGHBOURS; if decide (inside (shift p o)) then [dense (shift p o)] else []).

Lemma mark_darkened_spec present l p : marks present l → inside p →
  ∃ present', mark_darkened b present (dense p, p) = Some present' ∧ marks present' (l ++ darkened_marks p).
Proof using Grid.
  intros H Hp. unfold mark_darkened. cbn [fst snd]. destruct (mark_index_spec present l (dense p) H) as (p1 & -> & H1); [by apply dense_lt|].
  cbn [mbind option_bind]. set (extra o := if decide (inside (shift p o)) then [dense (shift p o)] else []).
  destruct (foldM_inv (mark_neighbour b) (λ pre acc, marks acc (l ++ dense p :: (x ← pre; extra x.2))) p1 (pair p <$> NEIGHBOURS)) as (p2 & Hf & H2).
  - eapply marks_mono; [exact H1|]. set_solver.
  - intros pre [p' o] post acc Hl Hacc. assert (p' = p) as ->.
    { assert ((p', o) ∈ pair p <$> NEIGHBOURS) as (o' & [= -> ->] & _)%list_elem_of_fmap by (rewrite Hl; set_solver). done. }
    unfold mark_neighbour. cbn [fst snd]. rewrite offset_index. destruct (decide (inside (shift p o))) as [Hin|Hin] eqn:Ed.
    + destruct (mark_index_spec _ _ (dense (shift p o)) Hacc) as (acc' & -> & H'); [by apply dense_lt|]. exists acc'. split; [done|].
      eapply marks_mono; [exact H'|]. rewrite bind_app. cbn. unfold extra at 2. rewrite Ed. set_solver.
    + exists acc. split; [done|]. eapply marks_mono; [exact Hacc|]. rewrite bind_app. cbn. unfold extra at 2. rewrite Ed. set_solver.
  - exists p2. split; [done|]. eapply marks_mono; [exact H2|]. unfold darkened_marks. intros i. rewrite !elem_of_app, !elem_of_cons.
    intros [?|[?|Hi]]; [auto|auto|]. right. right. apply list_elem_of_bind in Hi as (o & Hi & Ho). apply list_elem_of_bind.
    exists (p, o). split; [done|]. apply list_elem_of_fmap. eauto.
Qed.

Lemma spreading_spec cells darkened : (∀ x, x ∈ cells → inside x.2 ∧ x.1 = dense x.2) → (∀ x, x ∈ darkened → inside x.2 ∧ x.1 = dense x.2) →
  ∃ present, spreading_of b volume cells darkened = Some present ∧ length present = volume ∧
    (∀ x, x ∈ cells → present !! x.1 = Some true) ∧
    (∀ x, x ∈ darkened → present !! x.1 = Some true ∧ ∀ o, o ∈ NEIGHBOURS → inside (shift x.2 o) → present !! dense (shift x.2 o) = Some true).
Proof using Grid.
  intros Hc Hd. unfold spreading_of.
  destruct (foldM_inv mark_index (λ pre acc, marks acc pre) (dense_set_new volume) cells.*1) as (p1 & -> & H1).
  { split; [apply length_replicate|intros i Hx; by apply elem_of_nil in Hx]. }
  { intros pre i post acc Hl Hacc. apply mark_index_spec; [done|]. assert (Hi : i ∈ cells.*1) by (rewrite Hl; set_solver).
    apply list_elem_of_fmap in Hi as (x & -> & Hx). destruct (Hc x Hx) as [Hin ->]. by apply dense_lt. }
  cbn [mbind option_bind].
  destruct (foldM_inv (mark_darkened b) (λ pre acc, marks acc (cells.*1 ++ (x ← pre; darkened_marks x.2))) p1 darkened) as (p2 & Hf & [Hl2 H2]).
  { eapply marks_mono; [exact H1|]. intros i. cbn. by rewrite app_nil_r. }
  { intros pre [i p] post acc Hl Hacc. destruct (Hd (i, p)) as [Hp Hi]; [rewrite Hl; set_solver|]. cbn [fst snd] in Hp, Hi. subst i.
    destruct (mark_darkened_spec _ _ p Hacc Hp) as (acc' & -> & H'). exists acc'. split; [done|]. eapply marks_mono; [exact H'|].
    rewrite bind_app. cbn. rewrite app_nil_r, <-app_assoc. done. }
  exists p2. split; [done|]. split; [done|]. split.
  - intros x Hx. apply H2. apply elem_of_app. left. by apply list_elem_of_fmap_2.
  - intros x Hx. destruct (Hd x Hx) as [Hin Hi].
    assert (Hm : ∀ i, i ∈ darkened_marks x.2 → p2 !! i = Some true).
    { intros i Hi'. apply H2, elem_of_app. right. apply list_elem_of_bind. eauto. }
    unfold darkened_marks in Hm. split.
    + rewrite Hi. apply Hm. set_solver.
    + intros o Ho Hio. apply Hm, elem_of_cons. right. apply list_elem_of_bind. exists o. split; [|done]. rewrite decide_True by done. set_solver.
Qed.
End sets.
