(* ===== verification/LightChangesSpec.v ===== *)
(** * Relighting changed cells gives the light of a whole solve

    The light of the blocks before the change keeps every cell that is not near a change supported and, unless
    light around it was lost, done spreading. *)
From stdpp Require Import base numbers list gmap sets.
From S2P Require Import Prelude Packed Bytes Keys Snapshot Light LightGrid LightState Effects LightSolve LightField LightRules LightDarken LightIncrease LightSolveSpec LightChanges.
#[local] Open Scope Z_scope.

(** [prior] is the solved light of blocks that agree with [blocks] outside [changed]. *)
Record relit (blocks old : LightBlockAccess) (prior : LightReadAccess) (b : LightBounds) (profile : DimensionLightProfile)
    (changed : list BlockPos) : Prop := {
  rl_sample p : p ∉ changed → ba_sample blocks p = ba_sample old p;
  rl_seed p : p ∉ changed → ba_sky_seed blocks p = ba_sky_seed old p;
  rl_solved : solved old prior b profile (prior_level prior b) (prior_direct prior b);
  rl_seeds : seeds_ok old b;
}.

Section changes.
Context (blocks old : LightBlockAccess) (prior : LightReadAccess) (b : LightBounds) (profile : DimensionLightProfile) (max_queue : Z).
Context `{Inputs : !LightInputs blocks prior} (Grid : grid_ok b).
Context (Volume : Z.of_nat (volume_of b) ≤ 2 ^ 32 - 1).
Context (changed : list BlockPos) (Relit : relit blocks old prior b profile changed).
Notation volume := (volume_of b).
Notation cache := (block_cache_new blocks b).
Notation filter_of := (filter_of blocks).
Notation source_level := (source_level blocks profile).
Notation prior_level := (prior_level prior b).
Notation prior_direct := (prior_direct prior b).
Notation inside := (inside b).
Notation dense := (dense b).
Notation shape := (shape b max_queue).
Notation lvl := (lvl b).
Notation dir := (dir b).
Notation cell := (cell blocks b).
Notation dark := (dark prior b).
Notation supported := (supported blocks prior b profile).
Notation failed := (failed blocks prior b max_queue).
Implicit Types (p q : BlockPos) (c : LightChannel) (s : SolveState).

Section unchanged.
Context (p : BlockPos) (Far : ¬ near changed p).

Lemma far_filter : filter_of p = LightField.filter_of old p.
Proof using All. unfold LightField.filter_of. rewrite (rl_sample _ _ _ _ _ _ Relit); [done|]. intros H. apply Far. by left. Qed.

Lemma far_source c : source_level c p = LightField.source_level old profile c p.
Proof using All.
  assert (p ∉ changed) as H by (intros H; apply Far; by left). unfold LightField.source_level, LightField.filter_of.
  by rewrite (rl_sample _ _ _ _ _ _ Relit), (rl_seed _ _ _ _ _ _ Relit).
Qed.

Lemma far_neighbour o : o ∈ NEIGHBOURS → filter_of (shift p o) = LightField.filter_of old (shift p o).
Proof using All.
  intros Ho. unfold LightField.filter_of. rewrite (rl_sample _ _ _ _ _ _ Relit); [done|]. intros H. apply Far. right. eauto.
Qed.

Lemma far_neighbour_source c o : o ∈ NEIGHBOURS → source_level c (shift p o) = LightField.source_level old profile c (shift p o).
Proof using All.
  intros Ho. assert (shift p o ∉ changed) as H by (intros H; apply Far; right; eauto). unfold LightField.source_level, LightField.filter_of.
  by rewrite (rl_sample _ _ _ _ _ _ Relit), (rl_seed _ _ _ _ _ _ Relit).
Qed.

Lemma far_halo c o : o ∈ NEIGHBOURS → halo blocks prior b c (shift p o) = halo old prior b c (shift p o).
Proof using All. intros Ho. unfold halo. by rewrite far_neighbour. Qed.
End unchanged.

(** ** The light before the change *)

Lemma before_level c p v : lit old prior b profile c p v → v ≤ prior_level c p.
Proof using Relit.
  intros H. destruct (lit_inside _ _ _ _ _ _ _ H) as (Hp & f & Hf). destruct (rl_solved _ _ _ _ _ _ Relit p Hp) as [Hb _].
  specialize (Hb c). unfold brightest in Hb. rewrite Hf in Hb. by apply Hb.
Qed.

Lemma before_lit c p : inside p → LightField.filter_of old p ≠ None → lit old prior b profile c p (prior_level c p).
Proof using Relit.
  intros Hp Hf. destruct (rl_solved _ _ _ _ _ _ Relit p Hp) as [Hb _]. specialize (Hb c). unfold brightest in Hb.
  destruct (LightField.filter_of old p); [apply Hb|done].
Qed.

Lemma before_direct p : direct old prior b profile p ↔ inside p ∧ prior_direct p = true.
Proof using Relit.
  split.
  - intros Hd. destruct (direct_facts _ _ _ _ _ Hd) as [Hp _]. split; [done|]. by apply (rl_solved _ _ _ _ _ _ Relit p Hp).
  - intros [Hp Hd]. by apply (rl_solved _ _ _ _ _ _ Relit p Hp).
Qed.

Lemma before_direct_level p : direct old prior b profile p → 15 ≤ prior_level SkyLight p.
Proof using Relit. intros H. apply before_level. by apply lit_direct. Qed.

Lemma offered_inside c q : inside q → filter_of q ≠ None → offered blocks prior b c q = Some (prior_level c q, is_sky c && prior_direct q).
Proof using Type. intros Hq Hf. unfold offered. rewrite decide_True by done. by destruct (filter_of q). Qed.

Lemma offered_outside c q : ¬ inside q → offered blocks prior b c q = halo blocks prior b c q.
Proof using Type. intros Hq. unfold offered. by rewrite decide_False. Qed.

Lemma halo_outside c q x : halo old prior b c q = Some x → ¬ inside q.
Proof using Type. unfold halo. case_decide as H; [|done]. by destruct H. Qed.

Lemma incoming_attenuate level filter c o d : level ≤ 15 → 0 ≤ filter → attenuate level filter ≤ incoming_level profile level filter c o d.
Proof using All. intros Hl Hf. rewrite incoming_cases. goal_decide as H; [|lia]. unfold attenuate, saturating_sub. lia. Qed.

(** A cell away from the changes keeps its support. *)
Lemma far_supported c p : priors_ok blocks prior b → cell p → ¬ near changed p → 0 < prior_level c p → supported c p (prior_level c p).
Proof using All.
  intros Hpri [Hp Hf] Hfar Hpos. pose proof Hf as Hf'. rewrite (far_filter p Hfar) in Hf'. pose proof (before_lit c p Hp Hf') as Hlit.
  destruct (filter_of p) as [f|] eqn:Ef; [|done]. exists f. split; [done|]. rewrite (far_source p Hfar). rewrite (far_filter p Hfar) in Ef.
  pose proof (lit_spreads _ _ _ _ _ _ _ Hlit Hpos) as Hsp. pose proof (filter_range blocks prior p f ltac:(by rewrite far_filter)) as Hfr.
  remember (prior_level c p) as v eqn:Hv. destruct Hlit as [p f' _ Hf1|p f' o l d _ Hf1 Ho _ Hh|p f' o l _ Hf1 Ho Hl|p -> Hd]; simplify_eq; [by left|right; split; [done|]..|].
  - exists o, l, d. split; [done|]. rewrite offered_outside by (by eapply halo_outside). rewrite far_halo by done. split; [done|].
    rewrite <-far_halo in Hh by done. pose proof (halo_range _ _ _ _ _ _ _ Hh). apply incoming_attenuate; lia.
  - destruct (lit_inside _ _ _ _ _ _ _ Hl) as (Hq & fq & Hfq). rewrite <-far_neighbour in Hfq by done. exists o, (prior_level c (shift p o)), (is_sky c && prior_direct (shift p o)).
    split; [done|]. split; [by apply offered_inside; [|rewrite Hfq]|]. pose proof (before_level _ _ _ Hl) as Hle.
    etransitivity; [|apply incoming_attenuate; [by apply Hpri; [|rewrite Hfq]|lia]]. unfold attenuate, saturating_sub. lia.
  - pose proof (before_direct_level p Hd) as Hl15. assert (Hf15 := Hpri SkyLight p Hp ltac:(by rewrite far_filter, Ef)).
    assert (Hin : ∀ l, l ≤ 15 → 15 ≤ l → incoming_level profile l 0 SkyLight up true = 15).
    { intros l H1 H2. rewrite incoming_cases, decide_True; [done|]. destruct (direct_facts _ _ _ _ _ Hd) as (_ & ? & _). split_and!; [done..|lia|done|done]. }
    assert (Hup : up ∈ NEIGHBOURS) by (unfold NEIGHBOURS, up; set_solver).
    destruct Hd as [p _ Hdd Hf0 Hs|p _ Hdd Hf0 Hh|p _ Hdd Hf0 Hd]; rewrite Hf0 in Ef; injection Ef as <-.
    + left. lia.
    + right. split; [done|]. exists up, 15, true. split; [done|]. rewrite offered_outside by (by eapply halo_outside). rewrite far_halo by done. split; [done|]. rewrite Hin by lia. lia.
    + right. split; [done|]. destruct (direct_facts _ _ _ _ _ Hd) as (Hq & _ & Hfq). rewrite <-far_neighbour in Hfq by done.
      exists up, (prior_level SkyLight (shift p up)), (is_sky SkyLight && prior_direct (shift p up)).
      split; [done|]. split; [by apply offered_inside; [|rewrite Hfq]|]. pose proof (before_direct_level _ Hd). pose proof (proj1 (before_direct _) Hd) as [_ ->].
      simpl. rewrite Hin; [lia| |done]. apply Hpri; [done|by rewrite Hfq].
Qed.

Lemma far_source_le c p : cell p → ¬ near changed p → source_level c p ≤ prior_level c p.
Proof using All.
  intros [Hp Hf] Hfar. rewrite (far_source p Hfar). rewrite (far_filter p Hfar) in Hf. apply before_level.
  destruct (LightField.filter_of old p) as [f|] eqn:Ef; [|done]. by eapply lit_source.
Qed.

(** ** The phases *)

Notation dk := (dk blocks prior b profile max_queue true).
Notation settled := (settled blocks b profile).
Notation raised := (raised blocks b profile).
Notation starts_direct := (starts_direct blocks prior b profile).

(** A known cell that darkening spared shows its level from before, if its source was no brighter. *)
Lemma spared_level l s2 s3 c q : dk s2 → raised l s2 s3 → cell q → ¬ dark s2 c q → source_level c q ≤ prior_level c q → lvl s3 c q = prior_level c q.
Proof using Type.
  intros Hs (o & _ & _ & Hl & _) [Hq Hf] Hd Hsrc. assert (lvl s2 c q = prior_level c q) as He by (apply dec_stable; done).
  rewrite Hl, He by done. goal_decide as H; lia.
Qed.

Lemma far_settled l s2 s3 s c q : priors_ok blocks prior b → dk s2 → raised l s2 s3 →
  (∀ c p, lvl s c p = lvl s3 c p) → (∀ p, inside p → dir s p = true ↔ starts_direct s3 SkyLight p) →
  cell q → ¬ near changed q → ¬ dark s2 c q → (∀ o, o ∈ NEIGHBOURS → cell (shift q o) → ¬ dark s2 c (shift q o)) → settled s c q.
Proof using All.
  intros Hpri Hdk Hr Hlv Hdir Hq Hfar Hd Hnd o Ho f Hi Hf. set (r := shift q o) in *.
  assert (Hr' : cell r) by (split; [done|by rewrite Hf]). pose proof Hf as Hf'. unfold r in Hf'. rewrite far_neighbour in Hf' by done. fold r in Hf'.
  assert (Hqo : LightField.filter_of old q ≠ None) by (rewrite <-far_filter by done; apply Hq).
  assert (Hlq : lvl s c q = prior_level c q).
  { rewrite Hlv. eapply spared_level; [done..|]. by apply far_source_le. }
  assert (Hlr : ∀ c', ¬ dark s2 c' r → lvl s c' r = prior_level c' r).
  { intros c' Hd'. rewrite Hlv. eapply spared_level; [done..|]. unfold r. rewrite (far_neighbour_source q Hfar) by done. apply before_level.
    eapply lit_source; done. }
  assert (Hback : shift r (opposite o) = q) by apply shift_opposite.
  split.
  - rewrite Hlq, Hlr by (by apply Hnd). apply before_level. eapply lit_step; [done..|by apply opposite_neighbour|]. rewrite Hback. by apply before_lit; [apply Hq|].
  - intros -> Hdsd Hdq -> ->. apply Hdir in Hdq; [|apply Hq]. destruct Hdq as (_ & _ & _ & Hf0 & Hsrc).
    assert (Hdo : direct old prior b profile q).
    { destruct Hsrc as [Hsrc|Hsrc]; [|apply before_direct; split; [apply Hq|done]]. rewrite (far_filter q Hfar) in Hf0. rewrite (far_source q Hfar) in Hsrc.
      apply direct_source; [apply Hq|done..]. }
    assert (Hdr : direct old prior b profile r).
    { apply direct_below; [done..|]. assert (shift r up = q) as -> by (unfold r; apply shift_down_up). done. }
    pose proof (before_direct_level r Hdr) as H15. pose proof (Hpri SkyLight r Hi ltac:(by rewrite Hf)) as Hle.
    apply Hdir; [done|]. split; [done|]. split; [done|]. split; [|split; [done|right; by apply before_direct]].
    rewrite <-Hlv, Hlr by (by apply Hnd). lia.
Qed.

Lemma ewp_record_darkened x s (Q : unit → SolveState → Prop) : Q tt (noted true x s) → ewp (record_darkened x) s Q failed.
Proof using Type. done. Qed.

Lemma far_seeds (l : list (nat * BlockPos)) : (∀ q, inside q → near changed q → (dense q, q) ∈ l) →
  (∀ x, x ∈ l → filter_of x.2 ≠ None → ba_sky_seed blocks x.2 ≤ 15) → seeds_ok blocks b.
Proof using Relit.
  intros Hall Hl p Hp Hf. destruct (decide (p ∈ changed)) as [Hc|Hc].
  - apply (Hl (dense p, p)); [|done]. apply Hall; [done|by left].
  - rewrite (rl_seed _ _ _ _ _ _ Relit) by done. apply (rl_seeds _ _ _ _ _ _ Relit); [done|].
    unfold LightField.filter_of in *. by rewrite <-(rl_sample _ _ _ _ _ _ Relit).
Qed.

Lemma near_dec p : Decision (near changed p).
Proof using Type.
  destruct (decide (p ∈ changed ∨ Exists (λ o, shift p o ∈ changed) NEIGHBOURS)) as [H|H]; [left|right]; unfold near; by rewrite Exists_exists in H.
Qed.

Lemma ewp_changes_body scratch Q : scratch_ok scratch → 0 ≤ max_queue → (∀ s, finished blocks prior b profile max_queue s → Q tt s) →
  ewp (changes_body blocks prior b profile max_queue volume cache changed) (solve_start volume scratch) Q failed.
Proof using All.
  intros Hsc Hmax HQ. pose proof (failed_shape blocks prior b max_queue) as HE.
  unfold changes_body. ewp_step. eapply (ewp_load_prior blocks prior b profile max_queue Grid Volume failed); [by intros|apply blank_start|].
  intros o Ho Hl Hpri. destruct (candidates_spec b Grid changed) as (cands & Hcands & Hin & Hnear).
  ewp_step. eapply ewp_expect; [done|]. ewp_step. apply ewp_reset_queues; [done..|]. set (s1 := emptied _ _).
  destruct (loaded_dk blocks prior b profile max_queue Grid true s1) as (Hdk & Hq & _); [by apply emptied_shape|by intros []|done..|].
  ewp_step. eapply (ewp_darken_all blocks prior b profile max_queue Grid Volume failed HE _ true ewp_record_darkened); [done..|].
  clear s1 Hl Hdk Hq. intros s2 H2. ewp_step. ewp_step.
  assert (Hdin : ∀ x, x ∈ s_darkened s2 → inside x.2 ∧ x.1 = dense x.2).
  { intros x Hx. destruct (dk_noted _ _ _ _ _ _ _ (dd_dk _ _ _ _ _ _ _ _ H2) x Hx) as [[? _] ?]. done. }
  assert (Seeds : seeds_ok blocks b) by (eapply far_seeds; [exact Hnear|intros x Hx Hf; by apply (dd_cells _ _ _ _ _ _ _ _ H2)]).
  ewp_step. eapply ewp_raise; [done..|apply H2| |].
  { intros i (x & -> & Hx)%list_elem_of_fmap. exists x.2. apply elem_of_app in Hx as [Hx|Hx]; auto. }
  intros s3 Hs3 Hr. destruct (spreading_spec b Grid cands (s_darkened s2) Hin Hdin) as (spread & Hspread & Hlen & Hsc1 & Hsc2).
  ewp_step. eapply ewp_expect; [done|]. ewp_step. ewp_step.
  assert (Hjust : ∀ p, cell p → justified blocks prior b profile s2 p).
  { intros p Hp. destruct (near_dec p) as [Hn|Hn].
    - apply (dd_cells _ _ _ _ _ _ _ _ H2 (dense p, p)); [apply Hnear; [apply Hp|done]|apply Hp].
    - intros c _. destruct (decide (0 < prior_level c p)) as [Hpos|Hz]; [right; by apply far_supported|left].
      pose proof (read_nonneg (blocks := blocks) (prior := prior) (lb_dimension b) p c). unfold LightField.prior_level in *. lia. }
  eapply (ewp_finish _ _ _ _ _ Grid Volume Seeds _ (λ p, default false (spread !! dense p))); [..|exact HQ].
  - intros p s Q' Hp HQ'. pose proof (dense_lt b p Hp) as Hlt. rewrite <-Hlen in Hlt. destruct (lookup_lt_is_Some_2 _ _ Hlt) as [v Hv].
    eapply ewp_expect; [exact Hv|]. by rewrite Hv in HQ'.
  - eapply (darkened_ready blocks prior b profile max_queue Grid Volume true Seeds Hpri s2); [apply H2|exact Hjust|apply H2|apply H2| |exact Hs3|exact Hr|done].
    intros c p Hp. destruct (near_dec p) as [Hn|Hn].
    + right. apply list_elem_of_fmap. exists (dense p, p). split; [done|]. apply elem_of_app. left. apply Hnear; [apply Hp|done].
    + left. destruct (dk_level _ _ _ _ _ _ _ (dd_dk _ _ _ _ _ _ _ _ H2) c p Hp) as [-> |[-> _]]; [|done]. by apply far_source_le.
  - intros s c q Hs Hq. pose proof (sound_range blocks prior b profile max_queue Seeds s c q (ea_ok _ _ _ _ _ _ _ _ Hs) Hq) as Hrange.
    destruct (decide (lvl s c q = 0)) as [Hz|Hz]; [right; eapply (settled_zero blocks prior b profile max_queue); [done..|apply Hs|done|done]|].
    destruct (default false (spread !! dense q)) eqn:Espr; [left; eapply ea_pending; [done..|lia|done]|right].
    assert (Hmark : ∀ x, x ∈ s_darkened s2 → x.1 = dense q → False).
    { intros x Hx He. destruct (Hsc2 x Hx) as [Hm _]. rewrite He in Hm. by rewrite Hm in Espr. }
    assert (Hdark : ∀ p, cell p → dark s2 c p → (dense p, p) ∈ s_darkened s2).
    { intros p Hp Hd. eapply dk_noted_in; [apply H2|done..]. }
    eapply (far_settled _ s2 s3); [exact Hpri|apply H2|exact Hr|apply Hs|apply Hs|exact Hq|..].
    + intros Hn. specialize (Hsc1 _ (Hnear q (proj1 Hq) Hn)). cbn [fst] in Hsc1. by rewrite Hsc1 in Espr.
    + intros Hd. by eapply (Hmark _ (Hdark q Hq Hd)).
    + intros r Hro Hrc Hd. destruct (Hsc2 _ (Hdark _ Hrc Hd)) as [_ Hm]. specialize (Hm (opposite r) (opposite_neighbour r Hro)).
      cbn [snd] in Hm. rewrite shift_opposite in Hm. rewrite Hm in Espr by apply Hq. done.
Qed.
End changes.
