(* ===== verification/LightResults.v ===== *)
(** * Properties of the light solver *)
From stdpp Require Import base numbers list gmap sets.
From S2P Require Import Prelude Packed Palette Bytes Keys Snapshot Light LightSpec Effects LightGrid LightState LightSolve LightField.
From S2P Require Import LightRules LightDarken LightIncrease LightSolveSpec LightOutput LightChanges LightChangesSpec.
#[local] Open Scope Z_scope.

Implicit Types (b : LightBounds) (p : BlockPos) (c : LightChannel) (limits : SolverLimits) (scratch : LightSolverScratch).

(** ** Bounds and limits *)

(** Bounds that [LightBounds::new] made of [i32] corners. *)
Definition valid_bounds b : Prop := light_bounds_new (lb_dimension b) (lb_min b) (lb_max b) = Ok b ∧ i32_pos (lb_min b) ∧ i32_pos (lb_max b).

Lemma valid_bounds_order b : valid_bounds b →
  bp_x (lb_min b) ≤ bp_x (lb_max b) ∧ bp_y (lb_min b) ≤ bp_y (lb_max b) ∧ bp_z (lb_min b) ≤ bp_z (lb_max b).
Proof.
  intros [H _]. unfold light_bounds_new in H. destruct (_ || _) eqn:E; [done|]. rewrite !orb_false_iff, !Z.ltb_ge in E. tauto.
Qed.

Lemma checked_volume_ok b limits v : valid_bounds b → checked_volume b limits = Ok v →
  grid_ok b ∧ v = volume_z b ∧ Z.to_nat v = volume_of b ∧ v ≤ max_voxels limits.
Proof.
  intros Hb. pose proof (valid_bounds_order b Hb) as (Hx & Hy & Hz). destruct Hb as (_ & Hmin & Hmax). unfold checked_volume.
  destruct (bounds_volume b) as [w|] eqn:E; [|done]. destruct (Z.ltb_spec (max_voxels limits) w); [done|]. intros [= <-].
  apply bounds_volume_spec in E as [-> Hw]; [|done..]. split; [by split|done].
Qed.

(** A region that passes the limits has at most [u32::MAX] cells: [reset] panics otherwise. *)
Definition indexable b limits : bool := match checked_volume b limits with Ok v => v <=? 2 ^ 32 - 1 | Err _ => true end.
Lemma indexable_ok b limits v : checked_volume b limits = Ok v → indexable b limits = true → v ≤ 2 ^ 32 - 1.
Proof. unfold indexable. intros ->. apply Z.leb_le. Qed.

(** ** What a solve promises *)

(** Why a call may return an error. *)
Definition solve_error (blocks : LightBlockAccess) (prior : LightReadAccess) b limits (e : LightSolveError) : Prop :=
  match e with
  | VoxelLimitExceeded requested max => max = max_voxels limits ∧
      (bounds_volume b = None ∧ requested = 2 ^ 64 - 1 ∨ bounds_volume b = Some requested ∧ max < requested)
  | _ => explained blocks prior b (max_queue_entries limits) e
  end.

(** The light of a result. *)
Definition output_solved (blocks : LightBlockAccess) (prior : LightReadAccess) b (profile : DimensionLightProfile) (o : LightSolveOutput) : Prop :=
  so_dimension o = lb_dimension b ∧ so_bounds o = b ∧ seeds_ok blocks b ∧
  solved blocks prior b profile (λ c p, light_at o p c) (output_direct_sky o (lb_dimension b)).

(** Freezing buffers that hold a solved field. *)
Lemma output_of_field blocks prior b profile generation stats out d (L : LightChannel → BlockPos → Z) (D : BlockPos → bool) :
  grid_ok b → output_ok b out → seeds_ok blocks b → solved blocks prior b profile L D →
  (∀ c p, inside b p → held b out c p = L c p ∧ 0 ≤ L c p ≤ 15) → (∀ p, inside b p → known_at b out p = true ↔ filter_of blocks p ≠ None) →
  (∀ p, inside b p → default false (d !! dense b p) = D p) →
  ∃ o, freeze b out generation d stats = Some o ∧ output_solved blocks prior b profile o.
Proof.
  intros Hb Hout Hseeds Hsol Hheld Hknown Hdir.
  destruct (freeze_spec b Hb out Hout) with (generation := generation) (d := d) (stats := stats) as (o & Hf & Hfr).
  { intros c p Hp. destruct (Hheld c p Hp) as [-> ?]. done. }
  exists o. split; [done|]. pose proof (fz_fields _ _ _ _ _ _ Hfr) as (H1 & H2 & _ & _). split; [done|]. split; [done|]. split; [done|].
  intros p Hp. destruct (Hsol p Hp) as [Hl Hd]. split.
  - intros c. specialize (Hl c). rewrite (frozen_light b out generation d stats o p c Hfr Hp). destruct (Hheld c p Hp) as [-> _]. specialize (Hknown p Hp).
    unfold brightest in *. destruct (filter_of blocks p) as [f|]; [by rewrite (proj2 Hknown)|]. by destruct (known_at b out p).
  - rewrite (frozen_direct b Hb out generation _ _ _ p Hfr Hp), Hdir by done. exact Hd.
Qed.

Lemma output_of_finished blocks prior b profile max generation s : LightInputs blocks prior → grid_ok b →
  finished blocks prior b profile max s →
  ∃ o, freeze b (s_output s) generation (s_direct s) (s_stats s) = Some o ∧ output_solved blocks prior b profile o.
Proof.
  intros HI Hb [Hok Hsol Hseeds]. apply (output_of_field blocks prior b profile _ _ _ _ (lvl b s) (dir b s)); [done| |done..| | |].
  - apply (sh_output _ _ _ (li_shape _ _ _ _ _ _ Hok)).
  - intros c p Hp. split; [done|]. destruct (decide (filter_of blocks p = None)) as [Hn|Hn].
    + by rewrite (li_unknown _ _ _ _ _ _ Hok).
    + eapply sound_range; [done..|by split].
  - intros p Hp. by apply (li_shown _ _ _ _ _ _ Hok).
  - done.
Qed.

Section solver.
Context (blocks : LightBlockAccess) (prior : LightReadAccess) `{Inputs : !LightInputs blocks prior}.
Context (b : LightBounds) (profile : DimensionLightProfile) (limits : SolverLimits).

(** What every solver call returns: the light of the region, or an error with its reason; and scratch buffers
    that the next call can start from. *)
Definition solver_result (call : option (result LightSolveError LightSolveOutput * LightSolverScratch)) : Prop :=
  ∃ r scratch', call = Some (r, scratch') ∧ scratch_ok scratch' ∧
    match r with Ok o => output_solved blocks prior b profile o | Err e => solve_error blocks prior b limits e end.

(** From a correct body to a correct call. *)
Lemma solver_call generation scratch (body : nat → BlockCache → S unit) :
  valid_bounds b → indexable b limits = true → scratch_ok scratch →
  (grid_ok b → Z.of_nat (volume_of b) ≤ 2 ^ 32 - 1 → ∀ Q, 
     (∀ s, finished blocks prior b profile (max_queue_entries limits) s → Q tt s) →
     ewp (body (volume_of b) (block_cache_new blocks b)) (solve_start (volume_of b) scratch) Q (failed blocks prior b (max_queue_entries limits))) →
  solver_result
    (match checked_volume b limits with
     | Err e => Some (Err e, scratch)
     | Ok v =>
       let volume := Z.to_nat v in
       '(r, s) ← body volume (block_cache_new blocks b) (solve_start volume scratch);
       match r with
       | Err e => Some (Err e, scratch_of s)
       | Ok _ => out ← freeze b (s_output s) generation (s_direct s) (s_stats s); Some (Ok out, scratch_of s)
       end
     end).
Proof using All.
  intros Hb Hv Hsc Hbody. destruct (checked_volume b limits) as [v|e] eqn:Ev.
  2:{ exists (Err e), scratch. split; [done|]. split; [done|]. revert Ev. unfold checked_volume.
      destruct (bounds_volume b) as [w|] eqn:Eb.
      - destruct (Z.ltb_spec (max_voxels limits) w); [|done]. intros [= <-]. simpl. auto.
      - intros [= <-]. simpl. auto. }
  destruct (checked_volume_ok b limits v Hb Ev) as (Hgrid & -> & Hvol & Hmax). cbv zeta. rewrite Hvol.
  assert (Hv32 : Z.of_nat (volume_of b) ≤ 2 ^ 32 - 1) by (rewrite volume_z_of by done; by eapply indexable_ok).
  pose proof (Hbody Hgrid Hv32 (λ _ s, finished blocks prior b profile (max_queue_entries limits) s)) as Hw.
  forward Hw; [done|]. unfold ewp in Hw.
  destruct (body _ _ _) as [[[[]|e] s]|]; [| |done]; cbn [mbind option_bind].
  - destruct (output_of_finished _ _ _ _ _ generation s Inputs Hgrid Hw) as (o & -> & Ho). cbn [mbind option_bind].
    exists (Ok o), (scratch_of s). split; [done|]. split; [|done]. eapply shape_scratch. apply (li_shape _ _ _ _ _ _ (fi_ok _ _ _ _ _ _ Hw)).
  - exists (Err e), (scratch_of s). split; [done|]. destruct Hw as [He Hs]. split; [done|]. by destruct e.
Qed.

Lemma solve_light_result generation scratch :
  valid_bounds b → 0 ≤ max_queue_entries limits → indexable b limits = true → scratch_ok scratch →
  solver_result (solve_light_with_scratch blocks prior b generation profile limits scratch).
Proof using All. intros. apply solver_call; [done..|]. intros. by apply ewp_solve_body. Qed.

Lemma solve_changes_result old generation scratch changed :
  valid_bounds b → 0 ≤ max_queue_entries limits → indexable b limits = true → scratch_ok scratch →
  relit blocks old prior b profile changed →
  solver_result (solve_light_changes_with_scratch blocks prior b generation profile limits scratch changed).
Proof using All.
  intros. apply (solver_call generation scratch (λ volume cache, changes_body blocks prior b profile (max_queue_entries limits) volume cache changed)); [done..|].
  intros. by eapply ewp_changes_body.
Qed.

(** [reset] panics before anything is read. *)
Lemma solve_light_panics generation scratch : valid_bounds b → indexable b limits = false →
  solve_light_with_scratch blocks prior b generation profile limits scratch = None.
Proof using Type.
  intros Hb Hn. unfold indexable in Hn. unfold solve_light_with_scratch. destruct (checked_volume b limits) as [v|e] eqn:Ev; [|done].
  destruct (checked_volume_ok b limits v Hb Ev) as (_ & -> & Hvol & _). cbv zeta. unfold solve_body, reset_queues, reset_queue, queue_reset, Prelude.assert.
  apply Z.leb_gt in Hn. by rewrite (proj2 (Z.leb_gt (Z.of_nat _) _)) by lia.
Qed.
Lemma solve_light_indexable generation scratch o s limits' : valid_bounds b →
  solve_light_with_scratch blocks prior b generation profile limits scratch = Some (Ok o, s) → indexable b limits' = true.
Proof using Type.
  intros Hb Hr. destruct (indexable b limits) eqn:Hi; [|by rewrite solve_light_panics in Hr]. unfold solve_light_with_scratch in Hr.
  destruct (checked_volume b limits) as [v|] eqn:Ev; [|done]. unfold indexable. destruct (checked_volume b limits') as [v'|] eqn:Ev'; [|done].
  destruct (checked_volume_ok b limits v Hb Ev) as (_ & -> & _). destruct (checked_volume_ok b limits' v' Hb Ev') as (_ & -> & _).
  apply Z.leb_le. exact (indexable_ok _ _ _ Ev Hi).
Qed.

(** With values in range and room for the work a region can need there is nothing to fail for. *)
Lemma no_solve_error e : seeds_ok blocks b → priors_ok blocks prior b →
  checked_volume b limits = Ok (volume_z b) → 35 * volume_z b ≤ max_queue_entries limits → ¬ solve_error blocks prior b limits e.
Proof using Type.
  intros Hs Hp Hv Hq Hr. destruct e as [|requested max|max|value]; simpl in Hr; [done| | |].
  - destruct Hr as (-> & Hr). unfold checked_volume in Hv. destruct (bounds_volume b) as [w|]; [|done].
    destruct Hr as [[? _]|[[= <-] Hlt]]; [done|]. by rewrite (proj2 (Z.ltb_lt _ _)) in Hv.
  - lia.
  - destruct Hr as (H15 & p & Hi & Hf & [[c ->]| ->]); [specialize (Hp c p Hi Hf)|specialize (Hs p Hi Hf)]; lia.
Qed.

Lemma solver_result_ok call : solver_result call → seeds_ok blocks b → priors_ok blocks prior b →
  checked_volume b limits = Ok (volume_z b) → 35 * volume_z b ≤ max_queue_entries limits →
  ∃ o scratch', call = Some (Ok o, scratch') ∧ output_solved blocks prior b profile o ∧ scratch_ok scratch'.
Proof using Type. intros (r & sc & -> & Hsc & Hr) ? ? ? ?. destruct r as [o|e]; [by exists o, sc|by destruct (no_solve_error e)]. Qed.
End solver.

(** Two solves of the same blocks with the same halo show the same light. *)
Lemma output_solved_agree blocks prior prior' b profile o o' p : same_halo prior prior' b → inside b p →
  output_solved blocks prior b profile o → output_solved blocks prior' b profile o' →
  (∀ c, light_at o p c = light_at o' p c) ∧ output_direct_sky o (lb_dimension b) p = output_direct_sky o' (lb_dimension b) p.
Proof.
  intros Hh Hp (_ & _ & _ & H) (_ & _ & _ & H'). apply (solved_same_halo _ _ _ _ _ _ _ Hh) in H.
  split; [intros c; by apply (solved_unique _ _ _ _ _ _ _ _ p c Hp H H')|].
  exact (proj2 (solved_unique _ _ _ _ _ _ _ _ p BlockLight Hp H H')).
Qed.

(** [prior] shows the light of [o] inside its bounds. *)
Definition shows (prior : LightReadAccess) (o : LightSolveOutput) : Prop := ∀ p, inside (so_bounds o) p →
  (∀ c, ra_read_light prior (so_dimension o) p c = light_at o p c) ∧ ra_direct_sky prior (so_dimension o) p = output_direct_sky o (so_dimension o) p.

Lemma shows_relit blocks old prior prior' b profile o changed : output_solved old prior b profile o → shows prior' o → same_halo prior prior' b →
  (∀ p, p ∉ changed → ba_sample blocks p = ba_sample old p ∧ ba_sky_seed blocks p = ba_sky_seed old p) →
  relit blocks old prior' b profile changed.
Proof.
  intros (Hd & Hb & Hseeds & Hs) Hshow Hh Hsame. split; [by intros; apply Hsame|by intros; apply Hsame| |done].
  eapply solved_ext; [|by eapply solved_same_halo]. intros p Hp. destruct (Hshow p) as [H1 H2]; [by rewrite Hb|].
  rewrite Hd in *. split; [intros c; symmetry; apply H1|symmetry; exact H2].
Qed.

(** A result is a level, wherever it is read. *)
Lemma output_read_range blocks prior b profile o d p c : LightInputs blocks prior → output_solved blocks prior b profile o → 0 ≤ output_read_light o d p c ≤ 15.
Proof.
  intros HI (Hd & Hb & Hseeds & Hs). destruct (decide (d = so_dimension o ∧ inside b p)) as [[-> Hp]|Hn].
  - destruct (Hs p Hp) as [Hl _]. specialize (Hl c). unfold brightest in Hl. change (0 ≤ light_at o p c ≤ 15).
    destruct (filter_of blocks p); [|rewrite Hl; lia]. destruct Hl as [Hl _]. apply lit_range in Hl; done.
  - unfold output_read_light. rewrite Hb. destruct (decide (d = so_dimension o)) as [->|Hne].
    + rewrite (bool_decide_eq_true_2 _ eq_refl). destruct (bounds_contains b p) eqn:E; [tauto|simpl; lia].
    + rewrite (bool_decide_eq_false_2 _ Hne). simpl. lia.
Qed.

(** ** What the light solver promises

    The properties of [solve_light_with_scratch] and [solve_light_changes_with_scratch], each on a region of two
    cells: a torch under open air with full sky. *)


(** What a caller of the solver sees to. *)
Record callable b limits scratch : Prop := {
  ca_bounds : valid_bounds b;
  ca_queue : 0 ≤ max_queue_entries limits;
  ca_scratch : scratch_ok scratch;
}.

(** ** The example *)

Definition demo_bounds : LightBounds := mk_bounds 0 (mk_pos 0 0 0) (mk_pos 0 1 0).
Definition demo_profile : DimensionLightProfile := Overworld true.
Definition demo_limits : SolverLimits := mk_limits 4 100.
(** The block at the origin under open air with full sky. *)
Definition demo_blocks (block : LightBlockSample) : LightBlockAccess :=
  let sample p := if decide (p = mk_pos 0 0 0) then block else if decide (p = mk_pos 0 1 0) then KnownAir else UnknownBlock in
  mk_block_access sample (λ p, negb (bool_decide (sample p = UnknownBlock))) (λ p, if decide (p = mk_pos 0 1 0) then 15 else 0) (λ _, None).
Definition torch : LightBlockSample := Resident (mk_properties 14 1).
Definition demo_torch : LightBlockAccess := demo_blocks torch.
Definition demo_air : LightBlockAccess := demo_blocks KnownAir.

Lemma demo_inputs block prior : (block = torch ∨ block = KnownAir) → (∀ d p c, 0 ≤ ra_read_light prior d p c) →
  (∀ d p c, trusted_parts (ra_boundary_light prior d p c) = None) → LightInputs (demo_blocks block) prior.
Proof.
  intros Hb Hr Ht. split; [|simpl; intros p; case_decide; lia|done|intros d p c level direct; by rewrite Ht].
  simpl. intros p properties. destruct (decide (p = mk_pos 0 0 0)).
  - destruct Hb as [-> | ->]; [|done]. intros [= <-]. simpl. lia.
  - by case_decide.
Qed.

Lemma demo_air_inputs : LightInputs demo_air EmptyLight.
Proof. apply demo_inputs; [by right|done..]. Qed.
Lemma demo_torch_inputs : LightInputs demo_torch EmptyLight.
Proof. apply demo_inputs; [by left|done..]. Qed.

Lemma demo_callable : callable demo_bounds demo_limits scratch_default.
Proof. split; [by split_and!|done|apply scratch_default_ok]. Qed.

Lemma demo_seeds block : seeds_ok (demo_blocks block) demo_bounds.
Proof. intros p _ _. simpl. case_decide; lia. Qed.

(** The levels a state holds, block light and sky light, in dense order. *)
Definition levels_of (r : option (result LightSolveError unit * SolveState)) : option (list (Z * Z)) :=
  '(_, s) ← r; Some (mo_values (s_output s)).

Example demo_levels :
  levels_of (solve_body demo_torch EmptyLight demo_bounds demo_profile 100 2 (block_cache_new demo_torch demo_bounds) (solve_start 2 scratch_default))
    = Some [(14, 14); (13, 15)].
Proof. vm_compute. reflexivity. Qed.

(** ** The whole solve *)

(** C6: a whole solve returns the light of its region, a field with the brightest level that reaches each cell and
    the cells the sky reaches straight down, whatever light was there before; or it fails for a value out of range
    that it read, a region over the voxel limit, or a queue limit under 35 entries a cell. It panics exactly for a
    region within the voxel limit that has more cells than a u32 counts; otherwise its loops end, and the buffers it
    leaves are ready for the next call. *)
Theorem solve_light_correct blocks prior b generation profile limits scratch : LightInputs blocks prior → callable b limits scratch →
  let call := solve_light_with_scratch blocks prior b generation profile limits scratch in
  if indexable b limits then solver_result blocks prior b profile limits call else call = None.
Proof. intros ? []. cbv zeta. destruct (indexable b limits) eqn:Hi; [by apply solve_light_result|by apply solve_light_panics]. Qed.

Lemma solve_light_correct_witness : callable demo_bounds demo_limits scratch_default ∧
  solver_result demo_torch EmptyLight demo_bounds demo_profile demo_limits
    (solve_light_with_scratch demo_torch EmptyLight demo_bounds 1 demo_profile demo_limits scratch_default).
Proof. split; [apply demo_callable|]. exact (solve_light_correct _ _ _ _ _ _ _ demo_torch_inputs demo_callable). Defined.

(** C35: with values in range, a region within the voxel limit and of at most 2^32 - 1 cells, and room for 35 queue
    entries a cell, a whole solve returns light. *)
Theorem solve_light_succeeds blocks prior b generation profile limits scratch : LightInputs blocks prior → callable b limits scratch →
  seeds_ok blocks b → priors_ok blocks prior b → checked_volume b limits = Ok (volume_z b) → volume_z b ≤ 2 ^ 32 - 1 →
  35 * volume_z b ≤ max_queue_entries limits →
  ∃ o scratch', solve_light_with_scratch blocks prior b generation profile limits scratch = Some (Ok o, scratch') ∧ output_solved blocks prior b profile o.
Proof.
  intros ? [] ? ? Hv Hi ?. assert (indexable b limits = true) by (unfold indexable; rewrite Hv; by apply Z.leb_le).
  edestruct (solver_result_ok blocks prior b profile limits) as (o & s & Ho & ? & _); [by apply solve_light_result|done..|by exists o, s].
Qed.

Lemma solve_light_succeeds_witness : ∃ o scratch',
  solve_light_with_scratch demo_torch EmptyLight demo_bounds 1 demo_profile demo_limits scratch_default = Some (Ok o, scratch') ∧
  output_solved demo_torch EmptyLight demo_bounds demo_profile o.
Proof.
  apply solve_light_succeeds; [exact demo_torch_inputs|exact demo_callable|apply demo_seeds|by intros ??|reflexivity|by vm_compute|by vm_compute].
Defined.

(** The light a whole solve returns depends on the blocks and the trusted light around the region only: neither
    the light before it, the generation, the limits nor the buffers an earlier solve left change it. *)
Theorem solve_light_history_free blocks prior prior' b profile generation generation' limits limits' scratch scratch' o o' next next' :
  LightInputs blocks prior → LightInputs blocks prior' → callable b limits scratch → callable b limits' scratch' → same_halo prior prior' b →
  solve_light_with_scratch blocks prior b generation profile limits scratch = Some (Ok o, next) →
  solve_light_with_scratch blocks prior' b generation' profile limits' scratch' = Some (Ok o', next') →
  ∀ p, inside b p → (∀ c, light_at o p c = light_at o' p c) ∧ output_direct_sky o (lb_dimension b) p = output_direct_sky o' (lb_dimension b) p.
Proof.
  intros HI HI' [] [] Hh Hr Hr' p Hp.
  destruct (solve_light_result blocks prior b profile limits generation scratch) as (r & s & Hc & _ & Ho); [eauto using solve_light_indexable..|].
  destruct (solve_light_result blocks prior' b profile limits' generation' scratch') as (r' & s' & Hc' & _ & Ho'); [eauto using solve_light_indexable..|].
  rewrite Hr in Hc. rewrite Hr' in Hc'. simplify_eq. by eapply output_solved_agree.
Qed.

(** Stale light everywhere. *)
Definition bright_prior : LightReadAccess := mk_read_access (λ _ _ _, 15) (λ _ _, true) no_boundary.

Lemma solve_light_history_free_witness : ∃ o o' s s',
  solve_light_with_scratch demo_torch EmptyLight demo_bounds 1 demo_profile demo_limits scratch_default = Some (Ok o, s) ∧
  solve_light_with_scratch demo_torch bright_prior demo_bounds 2 demo_profile demo_limits scratch_default = Some (Ok o', s') ∧
  ∀ p, inside demo_bounds p → (∀ c, light_at o p c = light_at o' p c) ∧ output_direct_sky o 0 p = output_direct_sky o' 0 p.
Proof.
  assert (HI : LightInputs demo_torch bright_prior) by (apply demo_inputs; [by left|done..]). destruct demo_callable.
  destruct (solver_result_ok demo_torch EmptyLight demo_bounds demo_profile demo_limits _
    (solve_light_result demo_torch EmptyLight (Inputs := demo_torch_inputs) demo_bounds demo_profile demo_limits 1 scratch_default
      ltac:(done) ltac:(done) ltac:(done) ltac:(done))) as (o & s & Ho & _); [apply demo_seeds|by intros ??|reflexivity|by vm_compute|].
  destruct (solver_result_ok demo_torch bright_prior demo_bounds demo_profile demo_limits _
    (solve_light_result demo_torch bright_prior (Inputs := HI) demo_bounds demo_profile demo_limits 2 scratch_default
      ltac:(done) ltac:(done) ltac:(done) ltac:(done))) as (o' & s' & Ho' & _); [apply demo_seeds|by intros ??|reflexivity|by vm_compute|].
  exists o, o', s, s'. split; [done|]. split; [done|].
  exact (solve_light_history_free demo_torch EmptyLight bright_prior demo_bounds demo_profile 1 2 demo_limits demo_limits scratch_default scratch_default
    o o' s s' demo_torch_inputs HI demo_callable demo_callable (λ p c, eq_refl) Ho Ho').
Defined.

(** ** Relighting changed cells *)

(** A relight from the solved light of blocks that agree outside the changed cells returns the light of the new
    blocks, or fails as a whole solve may; for a region of at most 2^32 - 1 cells it does not panic; its loops end, and its buffers stay usable. *)
Theorem solve_changes_correct blocks old prior b generation profile limits scratch changed : LightInputs blocks prior → callable b limits scratch →
  indexable b limits = true → relit blocks old prior b profile changed →
  solver_result blocks prior b profile limits (solve_light_changes_with_scratch blocks prior b generation profile limits scratch changed).
Proof. intros ? [] ? ?. by eapply solve_changes_result. Qed.

(** The light before the torch, and the read access of its result. *)
Lemma demo_before : ∃ o scratch', solve_light_with_scratch demo_air EmptyLight demo_bounds 1 demo_profile demo_limits scratch_default = Some (Ok o, scratch') ∧
  output_solved demo_air EmptyLight demo_bounds demo_profile o ∧ scratch_ok scratch'.
Proof.
  destruct demo_callable. apply (solver_result_ok demo_air EmptyLight demo_bounds demo_profile demo_limits);
    [|apply demo_seeds|by intros ??|reflexivity|by vm_compute]. by apply (solve_light_result _ _ (Inputs := demo_air_inputs)).
Qed.

Lemma output_same_halo o b : same_halo EmptyLight (output_read_access o) b.
Proof. intros p c. simpl. unfold output_boundary_light. destruct (_ || _); [done|]. by destruct (_ =? 0). Qed.

Lemma output_shows o : shows (output_read_access o) o.
Proof. intros p _. done. Qed.

Lemma demo_torch_agrees p : p ∉ [mk_pos 0 0 0] → ba_sample demo_torch p = ba_sample demo_air p ∧ ba_sky_seed demo_torch p = ba_sky_seed demo_air p.
Proof. intros Hp%not_elem_of_cons. split; [|done]. simpl. rewrite !(decide_False (P := p = mk_pos 0 0 0)) by tauto. done. Qed.

Lemma demo_output_inputs o : output_solved demo_air EmptyLight demo_bounds demo_profile o → LightInputs demo_torch (output_read_access o).
Proof.
  intros Ho. apply demo_inputs; [by left| |].
  - intros d p c. exact (proj1 (output_read_range _ _ _ _ o d p c demo_air_inputs Ho)).
  - intros d p c. simpl. unfold output_boundary_light. destruct (_ || _); [done|]. by destruct (_ =? 0).
Qed.

Lemma demo_relit o : output_solved demo_air EmptyLight demo_bounds demo_profile o →
  relit demo_torch demo_air (output_read_access o) demo_bounds demo_profile [mk_pos 0 0 0].
Proof. intros Ho. eapply shows_relit; [done|apply output_shows|apply output_same_halo|exact demo_torch_agrees]. Qed.

Lemma solve_changes_correct_witness : ∃ o, relit demo_torch demo_air (output_read_access o) demo_bounds demo_profile [mk_pos 0 0 0] ∧
  solver_result demo_torch (output_read_access o) demo_bounds demo_profile demo_limits
    (solve_light_changes_with_scratch demo_torch (output_read_access o) demo_bounds 2 demo_profile demo_limits scratch_default [mk_pos 0 0 0]).
Proof.
  destruct demo_before as (o & s & _ & Ho & _). exists o. pose proof (demo_relit o Ho) as Hr. split; [done|].
  exact (solve_changes_correct _ _ _ _ _ _ _ _ _ (demo_output_inputs o Ho) demo_callable eq_refl Hr).
Defined.

(** C7: relighting the changed cells of a solved region gives the light that solving the new blocks afresh gives,
    in every cell and both channels, and the same direct-sky provenance. *)
Theorem relight_equals_resolve blocks old prior prior' prior'' b profile changed
    generation limits scratch o next generation' limits' scratch' o' next' generation'' limits'' scratch'' o'' next'' :
  LightInputs old prior → LightInputs blocks prior' → LightInputs blocks prior'' →
  callable b limits scratch → callable b limits' scratch' → callable b limits'' scratch'' →
  solve_light_with_scratch old prior b generation profile limits scratch = Some (Ok o, next) →
  shows prior' o → same_halo prior prior' b → same_halo prior' prior'' b →
  (∀ p, p ∉ changed → ba_sample blocks p = ba_sample old p ∧ ba_sky_seed blocks p = ba_sky_seed old p) →
  solve_light_changes_with_scratch blocks prior' b generation' profile limits' scratch' changed = Some (Ok o', next') →
  solve_light_with_scratch blocks prior'' b generation'' profile limits'' scratch'' = Some (Ok o'', next'') →
  ∀ p, inside b p → (∀ c, light_at o' p c = light_at o'' p c) ∧ output_direct_sky o' (lb_dimension b) p = output_direct_sky o'' (lb_dimension b) p.
Proof.
  intros HI HI' HI'' [] [] [] Hr Hshow Hh Hh' Hsame Hr' Hr'' p Hp.
  destruct (solve_light_result old prior b profile limits generation scratch) as (r & s & Hc & _ & Ho); [eauto using solve_light_indexable..|].
  rewrite Hr in Hc. injection Hc as <- <-. pose proof (shows_relit _ _ _ _ _ _ _ _ Ho Hshow Hh Hsame) as Hrelit.
  destruct (solve_changes_result blocks prior' b profile limits' old generation' scratch' changed) as (r' & s' & Hc' & _ & Ho'); [eauto using solve_light_indexable..|].
  destruct (solve_light_result blocks prior'' b profile limits'' generation'' scratch'') as (r'' & s'' & Hc'' & _ & Ho''); [eauto using solve_light_indexable..|].
  rewrite Hr' in Hc'. rewrite Hr'' in Hc''. injection Hc' as <- <-. injection Hc'' as <- <-. by eapply output_solved_agree.
Qed.

Lemma relight_equals_resolve_witness : ∃ o o' o'' s s' s'',
  solve_light_with_scratch demo_air EmptyLight demo_bounds 1 demo_profile demo_limits scratch_default = Some (Ok o, s) ∧
  solve_light_changes_with_scratch demo_torch (output_read_access o) demo_bounds 2 demo_profile demo_limits scratch_default [mk_pos 0 0 0] = Some (Ok o', s') ∧
  solve_light_with_scratch demo_torch EmptyLight demo_bounds 3 demo_profile demo_limits scratch_default = Some (Ok o'', s'') ∧
  ∀ p, inside demo_bounds p → (∀ c, light_at o' p c = light_at o'' p c) ∧ output_direct_sky o' 0 p = output_direct_sky o'' 0 p.
Proof.
  destruct demo_before as (o & s & Hr & Ho & _). pose proof (demo_output_inputs o Ho) as HI'. pose proof demo_callable as Hcall. destruct demo_callable.
  destruct (solver_result_ok demo_torch (output_read_access o) demo_bounds demo_profile demo_limits _
    (solve_changes_result demo_torch (output_read_access o) demo_bounds demo_profile demo_limits demo_air 2 scratch_default [mk_pos 0 0 0]
      ltac:(done) ltac:(done) ltac:(done) ltac:(done) (demo_relit o Ho))) as (o' & s' & Hr' & _); [apply demo_seeds| |reflexivity|by vm_compute|].
  { intros c p Hp Hf. exact (proj2 (output_read_range _ _ _ _ o _ p c demo_air_inputs Ho)). }
  destruct (solver_result_ok demo_torch EmptyLight demo_bounds demo_profile demo_limits _
    (solve_light_result demo_torch EmptyLight (Inputs := demo_torch_inputs) demo_bounds demo_profile demo_limits 3 scratch_default
      ltac:(done) ltac:(done) ltac:(done) ltac:(done))) as (o'' & s'' & Hr'' & _); [apply demo_seeds|by intros ??|reflexivity|by vm_compute|].
  exists o, o', o'', s, s', s''. split; [done|]. split; [done|]. split; [done|].
  exact (relight_equals_resolve demo_torch demo_air EmptyLight (output_read_access o) EmptyLight demo_bounds demo_profile [mk_pos 0 0 0]
    1 demo_limits scratch_default o s 2 demo_limits scratch_default o' s' 3 demo_limits scratch_default o'' s''
    demo_air_inputs HI' demo_torch_inputs Hcall Hcall Hcall Hr (output_shows o) (output_same_halo o _) (same_halo_sym _ _ _ (output_same_halo o _))
    demo_torch_agrees Hr' Hr'').
Defined.
