(* ===== verification/LightFull.v ===== *)
(** * The full solve

    [light_solver/full.rs]: light computed from the blocks and the halo alone, on a dense grid with a margin of one
    blocked cell, direct sky column by column and the rest through buckets per level. A bucket is a stack, its last
    element first; a [usize] index is a [nat]. *)
From stdpp Require Import base numbers list gmap.
From S2P Require Import Prelude Packed Bytes Keys Snapshot Light LightGrid LightState Effects LightSolve.
#[local] Open Scope Z_scope.

Definition BLOCKED : Z := 255.
Definition LEVELS : nat := 16.

Record FullSolveScratch := mk_full {
  fu_filter : list Z; fu_block : list Z; fu_sky : list Z; fu_direct : list bool; fu_direct_above : list bool; fu_buckets : list (list nat) }.
Definition full_default : FullSolveScratch := mk_full [] [] [] [] [] (replicate LEVELS []).

(** What a full solve changes: its grids and the locals [queued_total], [pending] and [stats]. *)
Record FullState := mk_full_state { fs_full : FullSolveScratch; fs_total : Z; fs_pending : Z; fs_stats : LightSolveStats }.
Definition F : Type → Type := Eff FullState LightSolveError.

(** ** The padded grid *)

Record Grid := mk_grid { x_len : nat; y_len : nat; z_len : nat; x_step : nat; y_step : nat }.

Definition grid_new (b : LightBounds) : Grid :=
  let x_len := Z.to_nat (light_axis_len (bp_x (lb_min b)) (bp_x (lb_max b))) in
  let y_len := Z.to_nat (light_axis_len (bp_y (lb_min b)) (bp_y (lb_max b))) in
  let z_len := Z.to_nat (light_axis_len (bp_z (lb_min b)) (bp_z (lb_max b))) in
  let y_step := (z_len + 2)%nat in
  mk_grid x_len y_len z_len ((y_len + 2) * y_step)%nat y_step.
Definition grid_volume (g : Grid) : nat := ((x_len g + 2) * x_step g)%nat.
Definition grid_index (g : Grid) (x y z : nat) : nat := ((x + 1) * x_step g + (y + 1) * y_step g + z + 1)%nat.
(** [i32::wrapping_add] *)
Definition wrapping_add (a b : Z) : Z := to_signed 32 (to_unsigned 32 (a + b)).
Definition grid_position (b : LightBounds) (x y z : nat) : BlockPos :=
  mk_pos (wrapping_add (bp_x (lb_min b)) (Z.of_nat x)) (wrapping_add (bp_y (lb_min b)) (Z.of_nat y)) (wrapping_add (bp_z (lb_min b)) (Z.of_nat z)).
Definition grid_steps (g : Grid) : list Z :=
  let x := Z.of_nat (x_step g) in let y := Z.of_nat (y_step g) in [- x; x; - y; y; -1; 1].
(** [usize::wrapping_add_signed] *)
Definition wrapping_add_signed (cell : nat) (step : Z) : nat := Z.to_nat (to_unsigned 64 (Z.of_nat cell + step)).

(** ** Reads and writes *)

Definition on_full (f : FullSolveScratch → option FullSolveScratch) : F unit :=
  eff_update (λ s, (λ full, mk_full_state full (fs_total s) (fs_pending s) (fs_stats s)) <$> f (fs_full s)).
Definition values (c : LightChannel) (full : FullSolveScratch) : list Z := match c with BlockLight => fu_block full | SkyLight => fu_sky full end.
Definition with_values (c : LightChannel) (l : list Z) (full : FullSolveScratch) : FullSolveScratch :=
  match c with
  | BlockLight => mk_full (fu_filter full) l (fu_sky full) (fu_direct full) (fu_direct_above full) (fu_buckets full)
  | SkyLight => mk_full (fu_filter full) (fu_block full) l (fu_direct full) (fu_direct_above full) (fu_buckets full)
  end.
Definition with_buckets (l : list (list nat)) (full : FullSolveScratch) : FullSolveScratch :=
  mk_full (fu_filter full) (fu_block full) (fu_sky full) (fu_direct full) (fu_direct_above full) l.

Definition get_filter (cell : nat) : F Z := full ← eff_gets fs_full; eff_expect (fu_filter full !! cell).
Definition get_value (c : LightChannel) (cell : nat) : F Z := full ← eff_gets fs_full; eff_expect (values c full !! cell).
Definition set_filter (cell : nat) (v : Z) : F unit :=
  on_full (λ full, (λ l, mk_full l (fu_block full) (fu_sky full) (fu_direct full) (fu_direct_above full) (fu_buckets full)) <$> set_slot (fu_filter full) cell v).
Definition set_value (c : LightChannel) (cell : nat) (v : Z) : F unit :=
  on_full (λ full, (λ l, with_values c l full) <$> set_slot (values c full) cell v).
Definition set_direct (cell : nat) : F unit :=
  on_full (λ full, (λ l, mk_full (fu_filter full) (fu_block full) (fu_sky full) l (fu_direct_above full) (fu_buckets full)) <$> set_slot (fu_direct full) cell true).
Definition set_direct_above (column : nat) : F unit :=
  on_full (λ full, (λ l, mk_full (fu_filter full) (fu_block full) (fu_sky full) (fu_direct full) l (fu_buckets full)) <$> set_slot (fu_direct_above full) column true).

Definition count_queued (max : Z) : F unit := λ s,
  match enqueue_counted (fs_total s) 1 max with
  | Ok total => Some (Ok tt, mk_full_state (fs_full s) total (fs_pending s) (fs_stats s))
  | Err e => Some (Err e, s)
  end.
(** [buckets[level].push(cell as u32); pending += 1] *)
Definition push_bucket (level : Z) (cell : nat) : F unit :=
  eff_update (λ s,
    bucket ← fu_buckets (fs_full s) !! Z.to_nat level;
    Some (mk_full_state (with_buckets (<[Z.to_nat level := Z.to_nat (to_unsigned 32 (Z.of_nat cell)) :: bucket]> (fu_buckets (fs_full s))) (fs_full s))
            (fs_total s) (fs_pending s + 1) (fs_stats s))).
Definition pop_bucket (level : Z) : F (option nat) := λ s,
  bucket ← fu_buckets (fs_full s) !! Z.to_nat level;
  match bucket with
  | [] => Some (Ok None, s)
  | cell :: rest => Some (Ok (Some cell),
      mk_full_state (with_buckets (<[Z.to_nat level := rest]> (fu_buckets (fs_full s))) (fs_full s)) (fs_total s) (fs_pending s) (fs_stats s))
  end.
(** [pending -= 1] *)
Definition drop_pending : F unit :=
  eff_update (λ s, if fs_pending s =? 0 then None else Some (mk_full_state (fs_full s) (fs_total s) (fs_pending s - 1) (fs_stats s))).
Definition on_full_stats (f : Z → LightSolveStats → LightSolveStats) : F unit :=
  eff_modify (λ s, mk_full_state (fs_full s) (fs_total s) (fs_pending s) (f (fs_pending s) (fs_stats s))).
Definition peak_pending : F unit :=
  on_full_stats (λ pending st, mk_stats (darken_seeded st) (darken_dequeued st) (increase_dequeued st) (Z.max (queue_peak st) pending)).
Definition count_spread : F unit :=
  on_full_stats (λ _ st, mk_stats (darken_seeded st) (darken_dequeued st) (increase_dequeued st + 1) (queue_peak st)).

Section code.
Context (blocks : LightBlockAccess) (prior : LightReadAccess) (b : LightBounds) (profile : DimensionLightProfile) (max_queue : Z).
Notation grid := (grid_new b).

(** ** Reading the blocks *)

Definition read_section_sample (section : option (list LightBlockSample)) (origin p : BlockPos) : option LightBlockSample :=
  match section with
  | Some l => l !! Z.to_nat (Z.lor (Z.lor (Z.shiftl (bp_x p - bp_x origin) 8) (Z.shiftl (bp_z p - bp_z origin) 4)) (bp_y p - bp_y origin))
  | None => Some (ba_sample blocks p)
  end.

Definition cell_of (p : BlockPos) : nat :=
  grid_index grid (Z.to_nat (bp_x p - bp_x (lb_min b))) (Z.to_nat (bp_y p - bp_y (lb_min b))) (Z.to_nat (bp_z p - bp_z (lb_min b))).

Definition read_cell (section : option (list LightBlockSample)) (origin p : BlockPos) : F unit :=
  sample ← eff_expect (read_section_sample section origin p);
  match sample_filter sample with
  | None => mret tt
  | Some filter =>
    let cell := cell_of p in
    _ ← set_filter cell filter;
    _ ← set_value BlockLight cell (sample_emission sample);
    let seed := ba_sky_seed blocks p in
    if 15 <? seed then eff_throw (LightValueOutOfRange seed)
    else if allows_sky profile then set_value SkyLight cell (saturating_sub seed filter) else mret tt
  end.

(** The blocks of a section inside the bounds. *)
Definition section_cells (origin : BlockPos) : list BlockPos :=
  let side := 16 in
  x ← range_incl (Z.max (bp_x (lb_min b)) (bp_x origin)) (Z.min (bp_x (lb_max b)) (bp_x origin + side - 1));
  y ← range_incl (Z.max (bp_y (lb_min b)) (bp_y origin)) (Z.min (bp_y (lb_max b)) (bp_y origin + side - 1));
  z ← range_incl (Z.max (bp_z (lb_min b)) (bp_z origin)) (Z.min (bp_z (lb_max b)) (bp_z origin + side - 1));
  [mk_pos x y z].
Definition read_section (key : SubChunkKey) : F unit :=
  let origin := mk_pos (sk_x key * 16) (sk_y key * 16) (sk_z key * 16) in
  for_each (read_cell (ba_sample_section blocks key) origin) (section_cells origin).
Definition read_blocks : F unit :=
  for_each read_section
    (x ← range_incl (bp_x (lb_min b) / 16) (bp_x (lb_max b) / 16); y ← range_incl (bp_y (lb_min b) / 16) (bp_y (lb_max b) / 16);
     z ← range_incl (bp_z (lb_min b) / 16) (bp_z (lb_max b) / 16); [mk_sub_chunk_key (lb_dimension b) x y z]).

(** ** The halo *)

Definition face_ranges (direction : nat) : list nat * list nat * list nat :=
  let all n := seq 0 n in let last n := [(n - 1)%nat] in
  match direction with
  | 0%nat => ([0%nat], all (y_len grid), all (z_len grid))
  | 1%nat => (last (x_len grid), all (y_len grid), all (z_len grid))
  | 2%nat => (all (x_len grid), [0%nat], all (z_len grid))
  | 3%nat => (all (x_len grid), last (y_len grid), all (z_len grid))
  | 4%nat => (all (x_len grid), all (y_len grid), [0%nat])
  | _ => (all (x_len grid), all (y_len grid), last (z_len grid))
  end.
Definition face_cells (direction : nat) : list (nat * nat * nat) :=
  let '(xs, ys, zs) := face_ranges direction in x ← xs; y ← ys; z ← zs; [(x, y, z)].

(** One channel of a halo neighbour: the face cell rises to what it sends in. *)
Definition seed_halo_channel (direction x z cell : nat) (filter : Z) (neighbour : BlockPos) (c : LightChannel) : F unit :=
  if is_sky c && negb (allows_sky profile) then mret tt
  else
    match trusted_parts (ra_boundary_light prior (lb_dimension b) neighbour c) with
    | None => mret tt
    | Some (level, direct) =>
      if level =? 0 then mret tt
      else
        let incoming := saturating_sub level (Z.max filter 1) in
        value ← get_value c cell;
        _ ← set_value c cell (Z.max value incoming);
        if is_sky c && (direction =? 3)%nat && direct_sky_down profile && (level =? 15) && direct && (filter =? 0)
        then set_direct_above (x * z_len grid + z)%nat else mret tt
    end.

Definition seed_full_halo_cell (direction : nat) (offset : Z * Z * Z) (local : nat * nat * nat) : F unit :=
  let '(x, y, z) := local in
  let cell := grid_index grid x y z in
  filter ← get_filter cell;
  if filter =? BLOCKED then mret tt
  else
    match pos_checked_offset (grid_position b x y z) offset with
    | None => mret tt
    | Some neighbour =>
      _ ← eff_expect (Prelude.assert (negb (bounds_contains b neighbour)));
      if negb (ba_is_known blocks neighbour) then mret tt
      else for_each (seed_halo_channel direction x z cell filter neighbour) CHANNELS
    end.
Definition seed_halo : F unit :=
  for_each (λ '(direction, offset), for_each (seed_full_halo_cell direction offset) (face_cells direction)) (enumerate NEIGHBOURS).

(** ** Direct sky *)

Definition fill_direct_cell (x z y : nat) (lit_from_above : bool) : F bool :=
  let cell := grid_index grid x y z in
  filter ← get_filter cell;
  sky ← get_value SkyLight cell;
  let direct := (filter =? 0) && (lit_from_above || (sky =? 15)) in
  _ ← (if direct then _ ← set_value SkyLight cell 15; set_direct cell else mret tt);
  mret direct.
Fixpoint fill_direct_down (x z : nat) (ys : list nat) (lit_from_above : bool) : F unit :=
  match ys with [] => mret tt | y :: ys => direct ← fill_direct_cell x z y lit_from_above; fill_direct_down x z ys direct end.
Definition fill_direct_column (column : nat * nat) : F unit :=
  let '(x, z) := column in
  full ← eff_gets fs_full;
  lit_from_above ← eff_expect (fu_direct_above full !! (x * z_len grid + z)%nat);
  fill_direct_down x z (reverse (seq 0 (y_len grid))) lit_from_above.
Definition fill_direct_sky : F unit :=
  for_each fill_direct_column (x ← seq 0 (x_len grid); z ← seq 0 (z_len grid); [(x, z)]).

(** ** Spreading *)

Definition could_raise (c : LightChannel) (level : Z) (cell : nat) (step : Z) : F bool :=
  let next := wrapping_add_signed cell step in
  next_filter ← get_filter next;
  if next_filter =? BLOCKED then mret false
  else value ← get_value c next; mret (value <? saturating_sub level (Z.max next_filter 1)).

Definition seed_spread (c : LightChannel) (local : nat * nat * nat) : F unit :=
  let '(x, y, z) := local in
  let cell := (grid_index grid x y 0 + z)%nat in
  level ← get_value c cell;
  filter ← get_filter cell;
  raises ← (if (1 <? level) && negb (filter =? BLOCKED) then any_of (could_raise c level cell) (grid_steps grid) else mret false);
  if raises : bool then _ ← count_queued max_queue; push_bucket level cell else mret tt.

Definition spread_step (c : LightChannel) (level : Z) (cell : nat) (step : Z) : F unit :=
  let next := wrapping_add_signed cell step in
  next_filter ← get_filter next;
  if next_filter =? BLOCKED then mret tt
  else
    let candidate := saturating_sub level (Z.max next_filter 1) in
    value ← get_value c next;
    if value <? candidate then
      _ ← set_value c next candidate;
      if 1 <? candidate then _ ← count_queued max_queue; _ ← push_bucket candidate next; peak_pending else mret tt
    else mret tt.

Definition spread_cell (c : LightChannel) (level : Z) (cell : nat) : F unit :=
  _ ← drop_pending;
  value ← get_value c cell;
  if negb (value =? level) then mret tt
  else _ ← count_spread; for_each (spread_step c level cell) (grid_steps grid).

Definition local_cells : list (nat * nat * nat) := x ← seq 0 (x_len grid); y ← seq 0 (y_len grid); z ← seq 0 (z_len grid); [(x, y, z)].
Definition clear_buckets : F unit :=
  eff_modify (λ s, mk_full_state (with_buckets ((λ _, []) <$> fu_buckets (fs_full s)) (fs_full s)) (fs_total s) 0 (fs_stats s)).
(** A turn per queued cell; a bucket loses one each turn, and what it holds was counted. *)
Definition spread (c : LightChannel) : F unit :=
  _ ← clear_buckets;
  _ ← for_each (seed_spread c) local_cells;
  _ ← peak_pending;
  for_each (λ level, drain (pop_bucket (Z.of_nat level)) (spread_cell c (Z.of_nat level)) (fuel max_queue)) (reverse (seq 2 (LEVELS - 2))).

Definition full_body : F unit :=
  _ ← read_blocks;
  _ ← seed_halo;
  _ ← (if direct_sky_down profile then fill_direct_sky else mret tt);
  _ ← spread BlockLight;
  if allows_sky profile then spread SkyLight else mret tt.

(** ** The result *)

Definition copy_cell (full : FullSolveScratch) (acc : MutableOutput * DensePositionSet) (cells : nat * nat) : option (MutableOutput * DensePositionSet) :=
  let '(dense, cell) := cells in
  filter ← fu_filter full !! cell;
  if filter =? BLOCKED then Some acc
  else
    block ← fu_block full !! cell; out ← set_at_index acc.1 dense BlockLight block;
    sky ← fu_sky full !! cell; out ← set_at_index out dense SkyLight sky;
    direct ← fu_direct full !! cell;
    present ← (if direct : bool then insert_at_index acc.2 dense else Some acc.2);
    Some (out, present).
Definition copy_out (volume : nat) (full : FullSolveScratch) : option (MutableOutput * DensePositionSet) :=
  foldM (copy_cell full) (output_new volume, dense_set_new volume)
    (enumerate ((λ '(x, y, z), (grid_index grid x y 0 + z)%nat) <$> local_cells)).

Definition full_reset (full : FullSolveScratch) : FullSolveScratch :=
  mk_full (replicate (grid_volume grid) BLOCKED) (replicate (grid_volume grid) 0) (replicate (grid_volume grid) 0)
    (replicate (grid_volume grid) false) (replicate (x_len grid * z_len grid) false) (fu_buckets full).
End code.

Definition solve_light_full_with_scratch (blocks : LightBlockAccess) (prior : LightReadAccess) (b : LightBounds) (generation : Z)
    (profile : DimensionLightProfile) (limits : SolverLimits) (full : FullSolveScratch) : option (result LightSolveError LightSolveOutput * FullSolveScratch) :=
  match checked_volume b limits with
  | Err e => Some (Err e, full)
  | Ok v =>
    let volume := Z.to_nat v in
    '(r, s) ← full_body blocks prior b profile (max_queue_entries limits) (mk_full_state (full_reset b full) 0 0 stats_default);
    match r with
    | Err e => Some (Err e, fs_full s)
    | Ok _ => '(out, direct_sky) ← copy_out b volume (fs_full s);
              o ← freeze b out generation direct_sky (fs_stats s); Some (Ok o, fs_full s)
    end
  end.
