(* ===== verification/LightFullGrid.v ===== *)
(** * The padded grid of the full solve

    A cell's padded index is its dense index in the bounds grown by one on every side, so a step along an axis is
    the constant [Grid::steps] gives it, and no step leaves the grid. *)
From stdpp Require Import base numbers list gmap sets.
From S2P Require Import Prelude Packed Bytes Keys Snapshot Light Effects LightGrid LightState LightSolve LightField LightRules LightFull.
#[local] Open Scope Z_scope.

(** [seq 0 (n * m)] in rows of [m]. *)
Lemma seq_rows {A} (g : A → nat) (row : nat → list A) n m :
  (∀ x, (x < n)%nat → g <$> row x = seq (x * m) m) → g <$> (seq 0 n ≫= row) = seq 0 (n * m).
Proof.
  induction n as [|n IH]; intros H; [done|]. rewrite seq_S, bind_app, fmap_app. cbn [mbind list_bind]. rewrite app_nil_r, IH by auto.
  rewrite H by lia. rewrite <-seq_app. f_equal. lia.
Qed.

Lemma for_each_fmap {St Er A B} (f : B → Eff St Er unit) (g : A → B) l : for_each f (g <$> l) = for_each (λ x, f (g x)) l.
Proof. induction l as [|x l IH]; [done|]. cbn [fmap list_fmap for_each]. by rewrite IH. Qed.

Lemma any_of_fmap {St Er A B} (f : B → Eff St Er bool) (g : A → B) l : any_of f (g <$> l) = any_of (λ x, f (g x)) l.
Proof. induction l as [|x l IH]; [done|]. cbn [fmap list_fmap any_of]. by rewrite IH. Qed.

Section grid.
Context (b : LightBounds) (Grid : grid_ok b).
Notation grid := (grid_new b).
Notation inside := (inside b).
Implicit Types (p q : BlockPos) (o : Z * Z * Z) (x y z : nat).

Definition padded : LightBounds :=
  mk_bounds (lb_dimension b) (mk_pos (bp_x (lb_min b) - 1) (bp_y (lb_min b) - 1) (bp_z (lb_min b) - 1))
    (mk_pos (bp_x (lb_max b) + 1) (bp_y (lb_max b) + 1) (bp_z (lb_max b) + 1)).
Definition pad p : nat := dense padded p.

Lemma inside_padded p : inside p → LightGrid.inside padded p.
Proof using Type. rewrite !inside_iff. simpl. lia. Qed.

Lemma shift_padded p o : inside p → o ∈ NEIGHBOURS → LightGrid.inside padded (shift p o).
Proof using Type.
  rewrite !inside_iff. unfold NEIGHBOURS. rewrite !elem_of_cons, elem_of_nil. intros Hp Ho. destruct_or!; subst; simpl; lia.
Qed.

Lemma pad_inj p q : LightGrid.inside padded p → LightGrid.inside padded q → pad p = pad q → p = q.
Proof using Type. apply dense_inj. Qed.

Lemma pad_lt p : LightGrid.inside padded p → (pad p < volume_of padded)%nat.
Proof using Type. apply dense_lt. Qed.

Lemma grid_volume_padded : grid_volume grid = volume_of padded.
Proof using Grid.
  pose proof (go_x _ Grid). pose proof (go_y _ Grid). pose proof (go_z _ Grid).
  unfold grid_volume, grid_new, volume_of, bounds_y_len, bounds_z_len, light_axis_len. cbn [x_len x_step lb_min lb_max padded bp_x bp_y bp_z].
  nat_as_Z. ring.
Qed.

(** The cell at local coordinates. *)
Definition at_local (local : nat * nat * nat) : BlockPos :=
  let '(x, y, z) := local in mk_pos (bp_x (lb_min b) + Z.of_nat x) (bp_y (lb_min b) + Z.of_nat y) (bp_z (lb_min b) + Z.of_nat z).
Definition in_grid (local : nat * nat * nat) : Prop := let '(x, y, z) := local in (x < x_len grid ∧ y < y_len grid ∧ z < z_len grid)%nat.

Lemma at_local_inside x y z : in_grid (x, y, z) ↔ inside (at_local (x, y, z)).
Proof using Grid.
  pose proof (go_x _ Grid). pose proof (go_y _ Grid). pose proof (go_z _ Grid).
  rewrite inside_iff. unfold in_grid, at_local, grid_new, light_axis_len. cbn [x_len y_len z_len bp_x bp_y bp_z]. lia.
Qed.

Lemma grid_index_pad x y z : grid_index grid x y z = pad (at_local (x, y, z)).
Proof using Grid.
  pose proof (go_x _ Grid). pose proof (go_y _ Grid). pose proof (go_z _ Grid).
  unfold grid_index, pad, dense, dense_z, grid_new, at_local, bounds_y_len, bounds_z_len, light_axis_len.
  cbn [x_step y_step lb_min lb_max padded bp_x bp_y bp_z]. nat_as_Z. ring.
Qed.

Lemma row_index x y z : (grid_index grid x y 0 + z)%nat = grid_index grid x y z.
Proof using Type. unfold grid_index. lia. Qed.

Lemma local_of p : inside p → ∃ x y z, in_grid (x, y, z) ∧ p = at_local (x, y, z) ∧ cell_of b p = pad p ∧
  x = Z.to_nat (bp_x p - bp_x (lb_min b)) ∧ y = Z.to_nat (bp_y p - bp_y (lb_min b)) ∧ z = Z.to_nat (bp_z p - bp_z (lb_min b)).
Proof using Grid.
  intros Hp. pose proof Hp as Hp'. apply inside_iff in Hp'. exists (Z.to_nat (bp_x p - bp_x (lb_min b))), (Z.to_nat (bp_y p - bp_y (lb_min b))), (Z.to_nat (bp_z p - bp_z (lb_min b))).
  assert (He : p = at_local (Z.to_nat (bp_x p - bp_x (lb_min b)), Z.to_nat (bp_y p - bp_y (lb_min b)), Z.to_nat (bp_z p - bp_z (lb_min b)))).
  { apply pos_ext; simpl; lia. }
  split; [by rewrite at_local_inside, <-He|]. split; [done|]. split; [|done]. unfold cell_of. rewrite grid_index_pad. by rewrite <-He.
Qed.

Lemma grid_position_local x y z : in_grid (x, y, z) → grid_position b x y z = at_local (x, y, z).
Proof using Grid.
  intros H%at_local_inside. apply (inside_i32 b _ Grid) in H. unfold i32_pos, i32_ok in H. rewrite !andb_true_iff, !Z.leb_le, !Z.ltb_lt in H.
  unfold grid_position, wrapping_add. cbn [at_local bp_x bp_y bp_z] in *. unfold at_local.
  f_equal; apply to_signed_unsigned; lia.
Qed.

(** ** Steps *)

Definition step_of o : Z := o.1.1 * Z.of_nat (x_step grid) + o.1.2 * Z.of_nat (y_step grid) + o.2.

Lemma grid_steps_offsets : grid_steps grid = step_of <$> NEIGHBOURS.
Proof using Type. unfold grid_steps, NEIGHBOURS, step_of. cbn [fmap list_fmap fst snd]. repeat f_equal; lia. Qed.

Lemma step_pad p o : inside p → o ∈ NEIGHBOURS → Z.of_nat (volume_of padded) ≤ 2 ^ 32 → wrapping_add_signed (pad p) (step_of o) = pad (shift p o).
Proof using Grid.
  intros Hp Ho Hv. pose proof (go_x _ Grid). pose proof (go_y _ Grid). pose proof (go_z _ Grid).
  pose proof (dense_z_range padded p (inside_padded p Hp)) as Hr1. pose proof (dense_z_range padded _ (shift_padded p o Hp Ho)) as Hr2.
  assert (volume_z padded < 2 ^ 64).
  { unfold volume_of in Hv. fold (volume_z padded) in Hv. change (2 ^ 32) with 4294967296 in Hv. change (2 ^ 64) with 18446744073709551616. lia. }
  unfold wrapping_add_signed, pad, dense. rewrite Z2Nat.id by lia.
  assert (dense_z padded p + step_of o = dense_z padded (shift p o)) as ->.
  { rewrite dense_shift. unfold step_of, grid_new, bounds_y_len, bounds_z_len, light_axis_len. cbn [x_step y_step lb_min lb_max padded bp_x bp_y bp_z]. nia. }
  unfold to_unsigned. by rewrite Z.mod_small by lia.
Qed.

(** ** The cells in dense order *)

Lemma dense_at_local x y z : dense b (at_local (x, y, z)) = ((x * y_len grid + y) * z_len grid + z)%nat.
Proof using Grid.
  pose proof (go_x _ Grid). pose proof (go_y _ Grid). pose proof (go_z _ Grid).
  unfold dense, dense_z, at_local, grid_new, bounds_y_len, bounds_z_len, light_axis_len. cbn [x_len y_len z_len bp_x bp_y bp_z].
  nat_as_Z. ring.
Qed.

Lemma local_cells_dense : (λ local, dense b (at_local local)) <$> local_cells b = seq 0 (volume_of b).
Proof using Grid.
  assert (volume_of b = x_len grid * (y_len grid * z_len grid))%nat as ->.
  { pose proof (go_x _ Grid). pose proof (go_y _ Grid). pose proof (go_z _ Grid). unfold volume_of, grid_new, bounds_y_len, bounds_z_len, light_axis_len.
    cbn [x_len y_len z_len]. nat_as_Z. ring. }
  apply seq_rows. intros x Hx. 
  assert (Hrow : ∀ y, (y < y_len grid)%nat → (λ local, (dense b (at_local local) - x * (y_len grid * z_len grid))%nat) <$> (z ← seq 0 (z_len grid); [(x, y, z)]) = seq (y * z_len grid) (z_len grid)).
  { intros y Hy. apply list_eq. intros i. rewrite list_lookup_fmap. 
    assert (He : ∀ n, (z ← seq 0 n; [(x, y, z)]) = (λ z, (x, y, z)) <$> seq 0 n) by (intros n; generalize 0%nat; induction n as [|n IH]; intros k; simpl; [done|by rewrite IH]).
    rewrite He, list_lookup_fmap. destruct (decide (i < z_len grid)%nat) as [Hi|Hi].
    - rewrite !lookup_seq_lt by done. cbn [fmap option_fmap option_map]. f_equal. rewrite dense_at_local. lia.
    - by rewrite !lookup_seq_ge by lia. }
  pose proof (seq_rows _ _ _ _ Hrow) as Hs.
  apply (f_equal (fmap (M := list) (Nat.add (x * (y_len grid * z_len grid))))) in Hs. rewrite <-list_fmap_compose in Hs.
  etransitivity; [etransitivity; [|exact Hs]|].
  - apply list_fmap_ext. intros i [[x' y] z] Hl. unfold compose. apply list_elem_of_lookup_2 in Hl.
    apply list_elem_of_bind in Hl as (y' & Hl & _). apply list_elem_of_bind in Hl as (z' & Hl & _). apply list_elem_of_singleton in Hl as [= -> -> ->].
    rewrite dense_at_local. lia.
  - rewrite fmap_add_seq. f_equal; lia.
Qed.
End grid.

(** ** Rules for the full solve's steps

    The grids seen by position, and what each read and write does to them. *)

(** What whole-section reads and knowledge tests promise ([LightBlockAccess]'s comments): the answers of [sample]. *)
Class LightSections (blocks : LightBlockAccess) (b : LightBounds) : Prop := {
  known_ok p : ba_is_known blocks p = true ↔ filter_of blocks p ≠ None;
  section_ok key l x y z : sk_dimension key = lb_dimension b → ba_sample_section blocks key = Some l → 0 ≤ x < 16 → 0 ≤ y < 16 → 0 ≤ z < 16 →
    l !! Z.to_nat (Z.lor (Z.lor (Z.shiftl x 8) (Z.shiftl z 4)) y) = Some (ba_sample blocks (mk_pos (sk_x key * 16 + x) (sk_y key * 16 + y) (sk_z key * 16 + z)));
}.

Section rules.
Context (b : LightBounds) (Grid : grid_ok b).
Notation pinside := (LightGrid.inside (padded b)).
Notation pad := (pad b).
Notation size := (volume_of (padded b)).
Implicit Types (p q : BlockPos) (c : LightChannel) (s : FullState).

Definition fval s p : Z := default BLOCKED (fu_filter (fs_full s) !! pad p).
Definition val s c p : Z := default 0 (values c (fs_full s) !! pad p).
Definition fdir s p : bool := default false (fu_direct (fs_full s) !! pad p).
Definition above s (column : nat) : bool := default false (fu_direct_above (fs_full s) !! column).
Definition bucket s (level : nat) : list nat := default [] (fu_buckets (fs_full s) !! level).

Record full_shape s : Prop := {
  fs_filter : length (fu_filter (fs_full s)) = size;
  fs_values c : length (values c (fs_full s)) = size;
  fs_direct : length (fu_direct (fs_full s)) = size;
  fs_above : length (fu_direct_above (fs_full s)) = (x_len (grid_new b) * z_len (grid_new b))%nat;
  fs_buckets : length (fu_buckets (fs_full s)) = LEVELS;
}.

(** A lookup inside the grid succeeds. *)
Lemma pad_lookup {A} (l : list A) p d : length l = size → pinside p → l !! pad p = Some (default d (l !! pad p)).
Proof using Type.
  intros Hl Hp. pose proof (pad_lt b p Hp) as Hlt. rewrite <-Hl in Hlt. by destruct (lookup_lt_is_Some_2 _ _ Hlt) as [x ->].
Qed.

Lemma pad_insert {A} (l : list A) p q v d : length l = size → pinside p → pinside q →
  default d (<[pad p := v]> l !! pad q) = if decide (q = p) then v else default d (l !! pad q).
Proof using Type.
  intros Hl Hp Hq. pose proof (pad_lt b p Hp) as Hlt. goal_decide as H.
  - subst. by rewrite list_lookup_insert_eq by lia.
  - rewrite list_lookup_insert_ne; [done|]. intros E%pad_inj; [by subst|done..].
Qed.

Lemma set_slot_pad {A} (l : list A) p v : length l = size → pinside p → set_slot l (pad p) v = Some (<[pad p := v]> l).
Proof using Type. intros Hl Hp. unfold set_slot. rewrite decide_True; [done|]. rewrite Hl. by apply pad_lt. Qed.

Definition on_grids (f : FullSolveScratch → FullSolveScratch) s : FullState := mk_full_state (f (fs_full s)) (fs_total s) (fs_pending s) (fs_stats s).
Definition put_filter p v s := on_grids (λ full, mk_full (<[pad p := v]> (fu_filter full)) (fu_block full) (fu_sky full) (fu_direct full) (fu_direct_above full) (fu_buckets full)) s.
Definition put_value c p v s := on_grids (λ full, with_values c (<[pad p := v]> (values c full)) full) s.
Definition put_direct p s := on_grids (λ full, mk_full (fu_filter full) (fu_block full) (fu_sky full) (<[pad p := true]> (fu_direct full)) (fu_direct_above full) (fu_buckets full)) s.
Definition put_above column s := on_grids (λ full, mk_full (fu_filter full) (fu_block full) (fu_sky full) (fu_direct full) (<[column := true]> (fu_direct_above full)) (fu_buckets full)) s.

(** ** What the writes do *)
Section writes.
Context (s : FullState) (Shape : full_shape s).

Lemma shape_put_filter p v : full_shape (put_filter p v s).
Proof using Shape. destruct Shape. split; try done. simpl. by rewrite length_insert. Qed.
Lemma shape_put_value c p v : full_shape (put_value c p v s).
Proof using Shape.
  destruct Shape. split; try (by destruct c). intros c'. pose proof (fs_values0 c) as H. pose proof (fs_values0 c') as H'.
  destruct c, c'; simpl in *; by rewrite ?length_insert.
Qed.
Lemma shape_put_direct p : full_shape (put_direct p s).
Proof using Shape. destruct Shape. split; try done. simpl. by rewrite length_insert. Qed.
Lemma shape_put_above column : full_shape (put_above column s).
Proof using Shape. destruct Shape. split; try done. simpl. by rewrite length_insert. Qed.

Lemma fval_put_filter p v q : pinside p → pinside q → fval (put_filter p v s) q = if decide (q = p) then v else fval s q.
Proof using Shape. intros. apply pad_insert; [apply Shape|done..]. Qed.
Lemma val_put_value c p v c' q : pinside p → pinside q → val (put_value c p v s) c' q = if decide (c' = c ∧ q = p) then v else val s c' q.
Proof using Shape.
  intros Hp Hq. unfold val. destruct (decide (c' = c)) as [->|Hc].
  - transitivity (default 0 (<[pad p := v]> (values c (fs_full s)) !! pad q)); [by destruct c|]. rewrite pad_insert by (done || apply Shape).
    by repeat (let H := fresh in goal_decide as H); tauto.
  - rewrite decide_False by tauto. by destruct c, c'.
Qed.
Lemma fdir_put_direct p q : pinside p → pinside q → fdir (put_direct p s) q = if decide (q = p) then true else fdir s q.
Proof using Shape. intros. apply pad_insert; [apply Shape|done..]. Qed.
Lemma above_put column column' : (column < x_len (grid_new b) * z_len (grid_new b))%nat →
  above (put_above column s) column' = if decide (column' = column) then true else above s column'.
Proof using Shape.
  intros Hc. unfold above. simpl. goal_decide as H; [subst; by rewrite list_lookup_insert_eq by (by rewrite (fs_above _ Shape))|by rewrite list_lookup_insert_ne].
Qed.

(** Other observations are untouched. *)
Lemma fval_put_value c p v q : fval (put_value c p v s) q = fval s q.
Proof using Type. by destruct c. Qed.
Lemma fdir_put_value c p v q : fdir (put_value c p v s) q = fdir s q.
Proof using Type. by destruct c. Qed.
Lemma above_put_value c p v column : above (put_value c p v s) column = above s column.
Proof using Type. by destruct c. Qed.
Lemma bucket_put_value c p v level : bucket (put_value c p v s) level = bucket s level.
Proof using Type. by destruct c. Qed.

(** ** Rules *)
Context (E : LightSolveError → FullState → Prop).

Lemma ewp_get_filter p (Q : Z → FullState → Prop) : pinside p → Q (fval s p) s → ewp (get_filter (pad p)) s Q E.
Proof using Shape. intros Hp HQ. unfold get_filter. ewp_step. ewp_step. eapply ewp_expect; [apply pad_lookup; [apply Shape|done]|done]. Qed.
Lemma ewp_get_value c p (Q : Z → FullState → Prop) : pinside p → Q (val s c p) s → ewp (get_value c (pad p)) s Q E.
Proof using Shape. intros Hp HQ. unfold get_value. ewp_step. ewp_step. eapply ewp_expect; [apply pad_lookup; [apply Shape|done]|done]. Qed.

Lemma ewp_on_full f g (Q : unit → FullState → Prop) : f (fs_full s) = Some (g (fs_full s)) → Q tt (on_grids g s) → ewp (on_full f) s Q E.
Proof using Type. intros Hf HQ. unfold on_full. eapply ewp_update; [by rewrite Hf|done]. Qed.

Lemma ewp_set_filter p v (Q : unit → FullState → Prop) : pinside p → Q tt (put_filter p v s) → ewp (set_filter (pad p) v) s Q E.
Proof using Shape. intros Hp HQ. eapply ewp_on_full; [|exact HQ]. by rewrite set_slot_pad by (done || apply Shape). Qed.
Lemma ewp_set_value c p v (Q : unit → FullState → Prop) : pinside p → Q tt (put_value c p v s) → ewp (set_value c (pad p) v) s Q E.
Proof using Shape. intros Hp HQ. eapply ewp_on_full; [|exact HQ]. by rewrite set_slot_pad by (done || apply Shape). Qed.
Lemma ewp_set_direct p (Q : unit → FullState → Prop) : pinside p → Q tt (put_direct p s) → ewp (set_direct (pad p)) s Q E.
Proof using Shape. intros Hp HQ. eapply ewp_on_full; [|exact HQ]. by rewrite set_slot_pad by (done || apply Shape). Qed.
Lemma ewp_set_direct_above column (Q : unit → FullState → Prop) : (column < x_len (grid_new b) * z_len (grid_new b))%nat →
  Q tt (put_above column s) → ewp (set_direct_above column) s Q E.
Proof using Shape.
  intros Hc HQ. eapply ewp_on_full; [|exact HQ]. unfold set_slot. by rewrite decide_True by (by rewrite (fs_above _ Shape)).
Qed.
End writes.
End rules.
