(* ===== verification/LightFullSeed.v ===== *)
(** * The full solve before it spreads

    What its first three phases leave in the grid: the blocks, the halo's light and direct sky. *)
From stdpp Require Import base numbers list gmap sets.
From S2P Require Import Prelude Packed Bytes Keys Snapshot Light Effects LightGrid LightState LightSolve LightField LightRules LightDarken.
From S2P Require Import LightOutput LightFull LightFullGrid.

(** ** Reading the blocks into the grid

    After [read_blocks] every known cell of the region shows its filter and its own light, and nothing else is open. *)
#[local] Open Scope Z_scope.
#[local] Ltac Zify.zify_post_hook ::= Z.to_euclidean_division_equations.

Section read.
Context (blocks : LightBlockAccess) (prior : LightReadAccess) (b : LightBounds) (profile : DimensionLightProfile) (max_queue : Z).
Context `{Inputs : !LightInputs blocks prior} `{Sections : !LightSections blocks b} (Grid : grid_ok b).
Notation pinside := (LightGrid.inside (padded b)).
Notation inside := (inside b).
Notation pad := (pad b).
Notation filter_of := (filter_of blocks).
Notation source_level := (source_level blocks profile).
Notation fval := (fval b).
Notation val := (val b).
Notation fdir := (fdir b).
Implicit Types (p q : BlockPos) (c : LightChannel) (s : FullState).

(** An error with its reason; the buckets stay sixteen. *)
Definition full_error (e : LightSolveError) s : Prop := explained blocks prior b max_queue e ∧ length (fu_buckets (fs_full s)) = LEVELS.

(** The grid with the cells of [D] read. *)
Record reading (D : list BlockPos) s : Prop := {
  rd_shape : full_shape b s;
  rd_filter p : pinside p → fval s p = if decide (p ∈ D) then default BLOCKED (filter_of p) else BLOCKED;
  rd_value c p : pinside p → val s c p = if decide (p ∈ D) then source_level c p else 0;
  rd_seeds p : p ∈ D → filter_of p ≠ None → ba_sky_seed blocks p ≤ 15;
  rd_direct p : pinside p → fdir s p = false;
  rd_above column : above s column = false;
  rd_total : fs_total s = 0;
}.

Lemma reading_start full stats : length (fu_buckets full) = LEVELS → reading [] (mk_full_state (full_reset b full) 0 0 stats).
Proof using Grid.
  intros Hb. pose proof (grid_volume_padded b Grid) as Hv.
  assert (Hr : ∀ A (v : A) p, pinside p → replicate (grid_volume (grid_new b)) v !! pad p = Some v).
  { intros A v p Hp. rewrite Hv. apply lookup_replicate_2. by apply pad_lt. }
  split; [split; simpl; try done|..|done].
  - by rewrite length_replicate.
  - intros []; simpl; by rewrite length_replicate.
  - by rewrite length_replicate.
  - by rewrite length_replicate.
  - intros p Hp. rewrite (decide_False (P := p ∈ [])) by apply not_elem_of_nil. unfold LightFullGrid.fval. cbn [fs_full full_reset fu_filter]. by rewrite Hr.
  - intros c p Hp. rewrite (decide_False (P := p ∈ [])) by apply not_elem_of_nil. unfold LightFullGrid.val.
    destruct c; cbn [fs_full full_reset values fu_block fu_sky]; by rewrite Hr.
  - intros p H. by apply elem_of_nil in H.
  - intros p Hp. unfold LightFullGrid.fdir. cbn [fs_full full_reset fu_direct]. by rewrite Hr.
  - intros column. unfold above. cbn [fs_full full_reset fu_direct_above]. destruct (_ !! column) as [v|] eqn:El; [|done].
    by apply lookup_replicate in El as [-> _].
Qed.

Definition reads (section : option (list LightBlockSample)) (origin : BlockPos) p : Prop := read_section_sample blocks section origin p = Some (ba_sample blocks p).

Lemma ewp_read_cell section origin D p s Q : reads section origin p → reading D s → inside p →
  (∀ s', reading (D ++ [p]) s' → Q tt s') → ewp (read_cell blocks b profile section origin p) s Q full_error.
Proof using All.
  intros Hread Hs Hp HQ. pose proof (inside_padded b p Hp) as Hpp. pose proof (rd_shape _ _ Hs) as Hsh.
  assert (Hmem : ∀ q, q ∈ D ++ [p] ↔ q ∈ D ∨ q = p) by (intros q; by rewrite elem_of_app, list_elem_of_singleton).
  unfold read_cell. ewp_step. eapply ewp_expect; [exact Hread|]. fold (filter_of p). destruct (filter_of p) as [f|] eqn:Ef.
  2:{ ewp_step. apply HQ. destruct Hs. split; try done.
      - intros q Hq. rewrite rd_filter0 by done. repeat (let H := fresh in goal_decide as H); rewrite Hmem in *; try done; [tauto|].
        destruct_or?; [done|]. subst. by rewrite Ef.
      - intros c q Hq. rewrite rd_value0 by done. repeat (let H := fresh in goal_decide as H); rewrite Hmem in *; try done; [tauto|].
        destruct_or?; [done|]. subst. unfold LightField.source_level. by rewrite Ef.
      - intros q [?| ->]%Hmem ?; [auto|congruence]. }
  destruct (local_of b Grid p Hp) as (x & y & z & _ & _ & -> & _). cbv zeta.
  ewp_step. apply (ewp_set_filter b s Hsh); [done|]. set (s1 := put_filter b p f s).
  assert (Hsh1 : full_shape b s1) by by apply shape_put_filter.
  ewp_step. apply (ewp_set_value b s1 Hsh1); [done|]. set (s2 := put_value b BlockLight p _ s1).
  assert (Hsh2 : full_shape b s2) by by apply shape_put_value.
  destruct (Z.ltb_spec 15 (ba_sky_seed blocks p)) as [Hbig|Hseed].
  { ewp_step. split; [|apply Hsh2]. split; [done|]. exists p. split; [done|]. split; [by rewrite Ef|]. by right. }
  assert (Hsrc : source_level BlockLight p = sample_emission (ba_sample blocks p)).
  { unfold LightField.source_level, LightField.filter_of in *. by rewrite Ef. }
  assert (Hsky : source_level SkyLight p = if allows_sky profile then saturating_sub (ba_sky_seed blocks p) f else 0).
  { unfold LightField.source_level. by rewrite Ef. }
  assert (Hdone : ∀ s3, full_shape b s3 → (∀ q, fval s3 q = fval s1 q) → (∀ q, fdir s3 q = fdir s q) → (∀ i, above s3 i = above s i) → fs_total s3 = fs_total s →
    (∀ c q, pinside q → val s3 c q = if decide (q = p) then source_level c p else val s c q) → Q tt s3).
  { intros s3 Hsh3 Hf3 Hd3 Ha3 Ht3 Hv3. apply HQ. split; [done|..].
    - intros q Hq. rewrite Hf3. unfold s1. rewrite fval_put_filter, (rd_filter _ _ Hs) by done.
      destruct (decide (q = p)) as [->|Hne]; [rewrite decide_True, Ef by (apply Hmem; auto); done|]. apply decide_ext. rewrite Hmem. tauto.
    - intros c q Hq. rewrite Hv3, (rd_value _ _ Hs) by done. destruct (decide (q = p)) as [->|Hne]; [by rewrite decide_True by (apply Hmem; auto)|].
      apply decide_ext. rewrite Hmem. tauto.
    - intros q [?| ->]%Hmem ?; [by apply (rd_seeds _ _ Hs)|done].
    - intros q Hq. rewrite Hd3. by apply Hs.
    - intros i. rewrite Ha3. apply Hs.
    - rewrite Ht3. apply Hs. }
  assert (Hv2 : ∀ c q, pinside q → val s2 c q = if decide (c = BlockLight ∧ q = p) then source_level c p else val s c q).
  { intros c q Hq. unfold s2. rewrite (val_put_value b s1 Hsh1) by done. goal_decide as H; [destruct H as [-> ->]; done|done]. }
  destruct (allows_sky profile) eqn:Esky.
  - apply (ewp_set_value b s2 Hsh2); [done|]. apply Hdone; [by apply shape_put_value|done..|].
    intros c q Hq. rewrite (val_put_value b s2 Hsh2), Hv2 by done. destruct c; repeat (let H := fresh in goal_decide as H); destruct_and?; subst; try done; tauto.
  - ewp_step. apply Hdone; [done..|]. intros c q Hq. rewrite Hv2 by done.
    destruct c; repeat (let H := fresh in goal_decide as H); destruct_and?; subst; try done; try tauto.
    rewrite (rd_value _ _ Hs) by done. rewrite Hsky. by goal_decide as H'.
Qed.

(** ** Sections *)

Lemma elem_of_section_cells origin p : p ∈ section_cells b origin ↔ inside p ∧
  bp_x origin ≤ bp_x p < bp_x origin + 16 ∧ bp_y origin ≤ bp_y p < bp_y origin + 16 ∧ bp_z origin ≤ bp_z p < bp_z origin + 16.
Proof using Type.
  rewrite inside_iff. unfold section_cells. rewrite list_elem_of_bind. split.
  - intros (x & (y & (z & ->%list_elem_of_singleton & Hz%elem_of_range)%list_elem_of_bind & Hy%elem_of_range)%list_elem_of_bind & Hx%elem_of_range).
    cbn [bp_x bp_y bp_z]. lia.
  - intros H. exists (bp_x p). split; [|apply elem_of_range; lia]. apply list_elem_of_bind. exists (bp_y p). split; [|apply elem_of_range; lia].
    apply list_elem_of_bind. exists (bp_z p). split; [|apply elem_of_range; lia]. apply list_elem_of_singleton. by destruct p.
Qed.

Definition key_origin (key : SubChunkKey) : BlockPos := mk_pos (sk_x key * 16) (sk_y key * 16) (sk_z key * 16).

Lemma ewp_read_section key D s Q : sk_dimension key = lb_dimension b → reading D s →
  (∀ s', reading (D ++ section_cells b (key_origin key)) s' → Q tt s') → ewp (read_section blocks b profile key) s Q full_error.
Proof using All.
  intros Hkey Hs HQ. unfold read_section. fold (key_origin key). apply (ewp_each _ (λ pre, reading (D ++ pre))); [by rewrite app_nil_r| |done].
  intros pre p post s' Hl Hs'. assert (Hin : p ∈ section_cells b (key_origin key)) by (rewrite Hl; set_solver).
  apply elem_of_section_cells in Hin as [Hp Hr]. apply (ewp_read_cell _ _ (D ++ pre)); [|done..|by rewrite app_assoc].
  unfold reads, read_section_sample. destruct (ba_sample_section blocks key) as [l|] eqn:El; [|done]. cbn [key_origin bp_x bp_y bp_z] in *.
  rewrite (section_ok key l) by (done || lia). f_equal. f_equal. apply pos_ext; simpl; lia.
Qed.

Lemma ewp_read_blocks s Q : reading [] s → (∀ D s', (∀ p, p ∈ D ↔ inside p) → reading D s' → Q tt s') → ewp (read_blocks blocks b profile) s Q full_error.
Proof using All.
  intros Hs HQ. unfold read_blocks. set (keys := x ← range_incl _ _; _).
  assert (Hkeys : ∀ key, key ∈ keys ↔ sk_dimension key = lb_dimension b ∧ bp_x (lb_min b) / 16 ≤ sk_x key ≤ bp_x (lb_max b) / 16 ∧
    bp_y (lb_min b) / 16 ≤ sk_y key ≤ bp_y (lb_max b) / 16 ∧ bp_z (lb_min b) / 16 ≤ sk_z key ≤ bp_z (lb_max b) / 16).
  { intros key. unfold keys. rewrite list_elem_of_bind. split.
    - intros (x & (y & (z & ->%list_elem_of_singleton & Hz%elem_of_range)%list_elem_of_bind & Hy%elem_of_range)%list_elem_of_bind & Hx%elem_of_range). done.
    - intros (Hd & Hx & Hy & Hz). exists (sk_x key). split; [|by apply elem_of_range]. apply list_elem_of_bind. exists (sk_y key). split; [|by apply elem_of_range].
      apply list_elem_of_bind. exists (sk_z key). split; [|by apply elem_of_range]. apply list_elem_of_singleton. destruct key. simpl in *. by subst. }
  apply (ewp_each _ (λ pre, reading (key ← pre; section_cells b (key_origin key)))); [done| |].
  - intros pre key post s' Hl Hs'. apply (ewp_read_section key (key ← pre; section_cells b (key_origin key))); [|done|].
    + apply Hkeys. rewrite Hl. set_solver.
    + intros s2 Hs2. rewrite bind_app. cbn [mbind list_bind]. by rewrite app_nil_r.
  - intros s' Hs'. eapply HQ; [|exact Hs']. intros p. rewrite list_elem_of_bind. split.
    + intros (key & Hin & _). by apply elem_of_section_cells in Hin as [? _].
    + intros Hp. exists (mk_sub_chunk_key (lb_dimension b) (bp_x p / 16) (bp_y p / 16) (bp_z p / 16)). split.
      * apply elem_of_section_cells. split; [done|]. cbn [key_origin sk_x sk_y sk_z bp_x bp_y bp_z]. lia.
      * apply Hkeys. apply inside_iff in Hp. cbn [sk_dimension sk_x sk_y sk_z]. split; [done|]. lia.
Qed.
End read.

(** ** Seeding the full solve from its halo

    Each face cell rises to what its trusted neighbours outside send in; columns that direct sky enters from above
    are recorded. *)

Section halo.
Context (blocks : LightBlockAccess) (prior : LightReadAccess) (b : LightBounds) (profile : DimensionLightProfile) (max_queue : Z).
Context `{Inputs : !LightInputs blocks prior} `{Sections : !LightSections blocks b} (Grid : grid_ok b) (Seeds : seeds_ok blocks b).
Notation pinside := (LightGrid.inside (padded b)).
Notation inside := (inside b).
Notation pad := (pad b).
Notation grid := (grid_new b).
Notation at_local := (at_local b).
Notation filter_of := (filter_of blocks).
Notation source_level := (source_level blocks profile).
Notation fval := (fval b).
Notation val := (val b).
Notation fdir := (fdir b).
Notation cell := (cell blocks b).
Notation lit := (lit blocks prior b profile).
Notation halo := (halo blocks prior b).
Notation spreads := (LightField.spreads profile).
Notation full_error := (full_error blocks prior b max_queue).
Implicit Types (p q : BlockPos) (c : LightChannel) (s : FullState) (o : Z * Z * Z).

(** ** Faces *)

Lemma elem_of_face_cells d o x y z : (d, o) ∈ enumerate NEIGHBOURS →
  (x, y, z) ∈ face_cells b d ↔ in_grid b (x, y, z) ∧ ¬ inside (shift (at_local (x, y, z)) o).
Proof using Grid.
  intros Hd%elem_of_directions. rewrite inside_iff.
  pose proof (go_x _ Grid). pose proof (go_y _ Grid). pose proof (go_z _ Grid).
  assert (Hlen : Z.of_nat (x_len grid) = bp_x (lb_max b) - bp_x (lb_min b) + 1 ∧ Z.of_nat (y_len grid) = bp_y (lb_max b) - bp_y (lb_min b) + 1 ∧
    Z.of_nat (z_len grid) = bp_z (lb_max b) - bp_z (lb_min b) + 1).
  { unfold grid_new, light_axis_len. cbn [x_len y_len z_len]. lia. }
  destruct Hlen as (Hx & Hy & Hz).
  assert (Hbox : ∀ xs ys zs : list nat, (x, y, z) ∈ (x ← xs; y ← ys; z ← zs; [(x, y, z)]) ↔ x ∈ xs ∧ y ∈ ys ∧ z ∈ zs).
  { intros xs ys zs. rewrite list_elem_of_bind. split.
    - intros (x' & (y' & (z' & Heq%list_elem_of_singleton & ?)%list_elem_of_bind & ?)%list_elem_of_bind & ?). by simplify_eq.
    - intros (? & ? & ?). exists x. split; [|done]. apply list_elem_of_bind. exists y. split; [|done]. apply list_elem_of_bind. exists z.
      split; [by apply list_elem_of_singleton|done]. }
  unfold face_cells, face_ranges, in_grid. destruct_or! Hd; destruct Hd as [-> ->];
    rewrite Hbox, ?elem_of_seq, ?list_elem_of_singleton; unfold LightFullGrid.at_local; cbn [shift fst snd bp_x bp_y bp_z]; lia.
Qed.

(** ** The loop *)

(** Direct sky enters the region at [p]. *)
Definition enters_above p : Prop := direct_sky_down profile = true ∧ filter_of p = Some 0 ∧ halo SkyLight (shift p up) = Some (15, true).
Definition top (x z : nat) : BlockPos := at_local (x, (y_len grid - 1)%nat, z).
Definition column (x z : nat) : nat := (x * z_len grid + z)%nat.

(** The grid shows the region's filters. *)
Definition grounded s : Prop := full_shape b s ∧ ∀ p, pinside p → fval s p = if decide (inside p) then default BLOCKED (filter_of p) else BLOCKED.

Record haloed (D : list ((Z * Z * Z) * BlockPos)) s : Prop := {
  ha_ground : grounded s;
  ha_sound c p : cell p → ∃ v, lit c p v ∧ val s c p ≤ v;
  ha_source c p : cell p → source_level c p ≤ val s c p;
  ha_closed c p : pinside p → ¬ cell p → val s c p = 0;
  ha_halo c o p f level d : (o, p) ∈ D → inside p → filter_of p = Some f → spreads c → halo c (shift p o) = Some (level, d) → attenuate level f ≤ val s c p;
  ha_above x z : (x < x_len grid)%nat → (z < z_len grid)%nat → above s (column x z) = true → enters_above (top x z);
  ha_above_all x z : (x < x_len grid)%nat → (z < z_len grid)%nat → (up, top x z) ∈ D → enters_above (top x z) → above s (column x z) = true;
  ha_direct p : pinside p → fdir s p = false;
  ha_total : fs_total s = 0;
}.

Lemma grounded_blocked s p : grounded s → pinside p → fval s p = BLOCKED ↔ ¬ cell p.
Proof using Inputs.
  intros [_ Hf] Hp. rewrite Hf by done. unfold LightDarken.cell. destruct (decide (inside p)) as [Hi|Hi]; [|split; [tauto|done]].
  destruct (filter_of p) as [f|] eqn:Ef; simpl; [|tauto]. pose proof (filter_range blocks prior p f Ef). unfold BLOCKED. split; [lia|intros []; auto].
Qed.

Lemma grounded_filter s p f : grounded s → inside p → filter_of p = Some f → fval s p = f.
Proof using Type. intros [_ Hf] Hp Ef. rewrite Hf by (by apply inside_padded). rewrite decide_True by done. by rewrite Ef. Qed.

Lemma reading_haloed D s : (∀ p, p ∈ D ↔ inside p) → reading blocks b profile D s → haloed [] s.
Proof using Inputs Seeds.
  intros HD Hs. split.
  - split; [apply Hs|]. intros p Hp. rewrite (rd_filter _ _ _ _ _ Hs) by done. by apply decide_ext.
  - intros c p [Hp Hf]. rewrite (rd_value _ _ _ _ _ Hs) by by apply inside_padded. rewrite decide_True by by apply HD.
    destruct (filter_of p) as [f|] eqn:Ef; [|done]. exists (source_level c p). split; [by eapply lit_source|done].
  - intros c p [Hp Hf]. rewrite (rd_value _ _ _ _ _ Hs) by by apply inside_padded. by rewrite decide_True by by apply HD.
  - intros c p Hpp Hn. rewrite (rd_value _ _ _ _ _ Hs) by done. goal_decide as Hin; [|done]. apply HD in Hin. unfold LightField.source_level.
    destruct (filter_of p) as [f|] eqn:Ef; [|done]. destruct Hn. split; [done|congruence].
  - intros c o p f level d H. by apply elem_of_nil in H.
  - intros x z _ _. by rewrite (rd_above _ _ _ _ _ Hs).
  - intros x z _ _ H. by apply elem_of_nil in H.
  - apply Hs.
  - apply Hs.
Qed.

Lemma haloed_range D s c p : haloed D s → pinside p → 0 ≤ val s c p ≤ 15.
Proof using Inputs Seeds.
  intros Hs Hp. destruct (decide (inside p ∧ filter_of p ≠ None)) as [Hc|Hc]; [|rewrite (ha_closed _ _ Hs) by done; lia].
  destruct (ha_sound _ _ Hs c p Hc) as (v & Hv & Hle). apply lit_range in Hv; [|done..]. pose proof (ha_source _ _ Hs c p Hc).
  assert (0 ≤ source_level c p ≤ 15) by (eapply source_range_inside; [done..|apply Hc]). lia.
Qed.

(** One cell of a face and one channel of its neighbour. *)
Record halo_step c o p D s s' : Prop := {
  hs_ok : haloed D s';
  hs_rise c' q : pinside q → val s c' q ≤ val s' c' q;
  hs_halo f level d : filter_of p = Some f → spreads c → halo c (shift p o) = Some (level, d) → attenuate level f ≤ val s' c p;
  hs_above i : above s i = true → above s' i = true;
  hs_enters x z : c = SkyLight → o = up → p = top x z → enters_above p → above s' (column x z) = true;
}.

Lemma column_lt x z : (x < x_len grid)%nat → (z < z_len grid)%nat → (column x z < x_len grid * z_len grid)%nat.
Proof using Type. unfold column. nia. Qed.

Lemma column_inj x z x' z' : (z < z_len grid)%nat → (z' < z_len grid)%nat → column x z = column x' z' → x = x' ∧ z = z'.
Proof using Type. unfold column. intros. assert (x = x') by nia. subst. lia. Qed.

Lemma haloed_raise c p v D s : haloed D s → cell p → (∃ w, lit c p w ∧ v ≤ w) → haloed D (put_value b c p (Z.max (val s c p) v) s).
Proof using Inputs Seeds.
  intros Hs Hp (w & Hw & Hvw). set (s' := put_value b c p _ s). pose proof (inside_padded b p (proj1 Hp)) as Hpp.
  pose proof (proj1 (ha_ground _ _ Hs)) as Hsh.
  assert (Hval : ∀ c' q, pinside q → val s' c' q = if decide (c' = c ∧ q = p) then Z.max (val s c p) v else val s c' q)
    by (intros; by apply val_put_value).
  assert (Hrise : ∀ c' q, pinside q → val s c' q ≤ val s' c' q) by (intros c' q Hq; rewrite Hval by done; goal_decide as H; [destruct H as [-> ->]|]; lia).
  assert (Hoth : ∀ q, fval s' q = fval s q) by (intros; by apply fval_put_value).
  split.
  - split; [by apply shape_put_value|]. intros q Hq. rewrite Hoth. by apply (ha_ground _ _ Hs).
  - intros c' q Hq. rewrite Hval by (by apply inside_padded, Hq). goal_decide as H; [|by apply Hs]. destruct H as [-> ->].
    destruct (ha_sound _ _ Hs c p Hp) as (u & Hu & Hle). destruct (Z.max_spec (val s c p) v) as [[_ ->]|[_ ->]]; eauto.
  - intros c' q Hq. etransitivity; [by apply Hs|]. apply Hrise. by apply inside_padded, Hq.
  - intros c' q Hq Hn. rewrite Hval by done. rewrite decide_False by (intros [_ ->]; done). by apply Hs.
  - intros c' o q f level d Hin Hq Hf Hsp Hh. etransitivity; [by eapply ha_halo|]. apply Hrise. by apply inside_padded.
  - intros x z Hx Hz. unfold s'. rewrite above_put_value. by apply Hs.
  - intros x z Hx Hz. unfold s'. rewrite above_put_value. by apply Hs.
  - intros q Hq. unfold s'. rewrite fdir_put_value. by apply Hs.
  - apply Hs.
Qed.

Lemma haloed_above x z D s : haloed D s → (x < x_len grid)%nat → (z < z_len grid)%nat → enters_above (top x z) → haloed D (put_above (column x z) s).
Proof using Type.
  intros Hs Hx Hz He. pose proof (proj1 (ha_ground _ _ Hs)) as Hsh.
  assert (Hab : ∀ i, above (put_above (column x z) s) i = if decide (i = column x z) then true else above s i) by (intros; apply (above_put b); [done|by apply column_lt]).
  destruct Hs. split; try done.
  - split; [by apply shape_put_above|apply ha_ground0].
  - intros x' z' Hx' Hz'. rewrite Hab. goal_decide as H; [|by apply ha_above0]. intros _. apply column_inj in H as [-> ->]; done.
  - intros x' z' Hx' Hz' Hin He'. rewrite Hab. goal_decide as H; [done|by apply ha_above_all0].
Qed.

Lemma ewp_seed_halo_channel d o x y z f D s c Q : (d, o) ∈ enumerate NEIGHBOURS → (x, y, z) ∈ face_cells b d → haloed D s →
  filter_of (at_local (x, y, z)) = Some f → i32_pos (shift (at_local (x, y, z)) o) → filter_of (shift (at_local (x, y, z)) o) ≠ None →
  (∀ s', halo_step c o (at_local (x, y, z)) D s s' → Q tt s') →
  ewp (seed_halo_channel prior b profile d x z (pad (at_local (x, y, z))) f (shift (at_local (x, y, z)) o) c) s Q full_error.
Proof using Inputs Seeds Grid.
  intros Hd Hface Hs Hf Hi Hk HQ. pose proof (proj1 (elem_of_face_cells d o x y z Hd) Hface) as [Hin Hout]. set (p := at_local (x, y, z)) in *.
  assert (Hp : inside p) by by apply at_local_inside. assert (Hc : cell p) by (split; [done|congruence]). pose proof (inside_padded b p Hp) as Hpp.
  assert (Ho : o ∈ NEIGHBOURS) by by eapply direction_offset.
  assert (Hhalo : ∀ c, halo c (shift p o) = trusted_parts (ra_boundary_light prior (lb_dimension b) (shift p o) c)).
  { intros c'. unfold LightField.halo. rewrite decide_True by done. by destruct (filter_of (shift p o)). }
  assert (Hskip : (∀ level dd, spreads c → halo c (shift p o) = Some (level, dd) → level = 0) → Q tt s).
  { intros H. apply HQ. split; [done|done| |done|].
    - intros f' level dd Hf' Hsp Hh. rewrite (H _ _ Hsp Hh). pose proof (haloed_range D s c p Hs Hpp). unfold attenuate, saturating_sub. lia.
    - intros x' z' -> -> _ (Hdsd & _ & Hh). assert (15 = 0); [|done]. apply (H 15 true); [by intros _; apply down_allows|done]. }
  unfold seed_halo_channel. destruct (is_sky c && negb (allows_sky profile)) eqn:Esky.
  { ewp_step. apply Hskip. intros level dd Hsp _. apply andb_true_iff in Esky as [E1 E2%negb_true_iff]. destruct c; [done|]. rewrite Hsp in E2; done. }
  rewrite <-Hhalo. destruct (halo c (shift p o)) as [[level dd]|] eqn:Eh; [|ewp_step; by apply Hskip].
  destruct (Z.eqb_spec level 0) as [->|Hl]; [ewp_step; apply Hskip; intros; congruence|].
  ewp_step. apply (ewp_get_value b s (proj1 (ha_ground _ _ Hs))); [done|].
  ewp_step. apply (ewp_set_value b s (proj1 (ha_ground _ _ Hs))); [done|]. fold (attenuate level f).
  assert (Hsp : spreads c) by (intros ->; simpl in Esky; by apply negb_false_iff in Esky).
  assert (Hlit : lit c p (attenuate level f)) by (eapply lit_halo; done).
  pose proof (haloed_raise c p (attenuate level f) D s Hs Hc (ex_intro _ _ (conj Hlit (Z.le_refl _)))) as Hs1. set (s1 := put_value b c p _ s) in *.
  assert (Hval : ∀ c' q, pinside q → val s1 c' q = if decide (c' = c ∧ q = p) then Z.max (val s c p) (attenuate level f) else val s c' q)
    by (intros; apply val_put_value; [apply (ha_ground _ _ Hs)|done..]).
  assert (Hab1 : ∀ i, above s1 i = above s i) by (intros; apply above_put_value).
  assert (Hstep : ∀ s2, haloed D s2 → (∀ c' q, val s2 c' q = val s1 c' q) → (∀ i, above s1 i = true → above s2 i = true) →
    (∀ x' z', c = SkyLight → o = up → p = top x' z' → enters_above p → above s2 (column x' z') = true) → Q tt s2).
  { intros s2 Hs2 Hv2 Ha2 He2. apply HQ. split; [done| | | |done].
    - intros c' q Hq. rewrite Hv2, Hval by done. goal_decide as H; [destruct H as [-> ->]|]; lia.
    - intros f' level' dd' Hf' _ Hh. rewrite Hv2, Hval, decide_True by done. simplify_eq. lia.
    - intros i Hi'. apply Ha2. by rewrite Hab1. }
  destruct (is_sky c && _ && _ && _ && _ && _) eqn:Eup.
  - rewrite !andb_true_iff in Eup. destruct Eup as [[[[[E1 ->%Nat.eqb_eq] E3] ->%Z.eqb_eq] ->] ->%Z.eqb_eq]. destruct c; [done|].
    assert (o = up) as -> by (apply elem_of_directions in Hd; unfold up; naive_solver).
    assert (y = (y_len grid - 1)%nat) as Hy.
    { unfold face_cells, face_ranges in Hface. apply list_elem_of_bind in Hface as (? & Hface & _). apply list_elem_of_bind in Hface as (y' & Hface & Hy').
      apply list_elem_of_bind in Hface as (? & Heq & _). apply list_elem_of_singleton in Heq. apply list_elem_of_singleton in Hy'. by simplify_eq. }
    assert (Htop : p = top x z) by (unfold p, top; by rewrite Hy). destruct Hin as (Hx & _ & Hz).
    assert (Hent : enters_above (top x z)) by (rewrite <-Htop; done). fold (column x z).
    apply (ewp_set_direct_above b s1 (proj1 (ha_ground _ _ Hs1))); [by apply column_lt|].
    apply Hstep; [by apply haloed_above|done| |].
    + intros i Hi'. rewrite (above_put b s1) by (by apply column_lt || apply Hs1). by goal_decide as H.
    + intros x' z' _ _ He _. assert (x' = x ∧ z' = z) as [-> ->].
      { unfold p, top, LightFullGrid.at_local in He. simplify_eq/=. lia. }
      rewrite (above_put b s1) by (by apply column_lt || apply Hs1). by rewrite decide_True.
  - ewp_step. apply Hstep; [done..|]. intros x' z' -> -> _ (H1 & H2 & H3). exfalso.
    assert (d = 3%nat) as -> by (apply elem_of_directions in Hd; unfold up in Hd; naive_solver). simplify_eq. simpl in Eup. by rewrite H1 in Eup.
Qed.

Lemma haloed_extend D o p s : haloed D s →
  (∀ c f level d, inside p → filter_of p = Some f → spreads c → halo c (shift p o) = Some (level, d) → attenuate level f ≤ val s c p) →
  (∀ x z, (x < x_len grid)%nat → (z < z_len grid)%nat → o = up → p = top x z → enters_above p → above s (column x z) = true) → haloed (D ++ [(o, p)]) s.
Proof using Type.
  intros Hs Hh Ha. destruct Hs. split; try done.
  - intros c o' q f level d [Hin|Hin]%elem_of_app; [by apply (ha_halo0 c o' q f level d)|]. apply list_elem_of_singleton in Hin. simplify_eq. by apply Hh.
  - intros x z Hx Hz [Hin|Hin]%elem_of_app He; [by apply ha_above_all0|]. apply list_elem_of_singleton in Hin. simplify_eq. by apply Ha.
Qed.

(** A neighbour that sends nothing in. *)
Lemma haloed_quiet D o p s : haloed D s → (∀ c, inside p → filter_of p ≠ None → halo c (shift p o) = None) → haloed (D ++ [(o, p)]) s.
Proof using Grid.
  intros Hs Hn. apply haloed_extend; [done| |].
  - intros c f level d Hp Hf _ Hh. rewrite Hn in Hh; [done..|congruence].
  - intros x z Hx Hz -> -> (_ & Hf & Hh). rewrite Hn in Hh; [done| |congruence]. apply at_local_inside; [done|].
    pose proof (go_y _ Grid). split_and!; [done| |done]. unfold grid_new, light_axis_len. cbn [y_len]. lia.
Qed.

Lemma ewp_seed_full_halo_cell d o local D s Q : (d, o) ∈ enumerate NEIGHBOURS → local ∈ face_cells b d → haloed D s →
  (∀ s', haloed (D ++ [(o, at_local local)]) s' → Q tt s') → ewp (seed_full_halo_cell blocks prior b profile d o local) s Q full_error.
Proof using Inputs Sections Seeds Grid.
  destruct local as [[x y] z]. intros Hd Hface Hs HQ. pose proof (proj1 (elem_of_face_cells d o x y z Hd) Hface) as [Hin Hout].
  unfold seed_full_halo_cell. rewrite (grid_index_pad b Grid), (grid_position_local b Grid) by done. set (p := at_local (x, y, z)) in *.
  assert (Hp : inside p) by by apply at_local_inside. pose proof (inside_padded b p Hp) as Hpp.
  ewp_step. apply (ewp_get_filter b s (proj1 (ha_ground _ _ Hs))); [done|].
  destruct (filter_of p) as [f|] eqn:Ef.
  2:{ rewrite (proj2 (grounded_blocked s p (ha_ground _ _ Hs) Hpp)) by (by intros [_ []]). rewrite Z.eqb_refl. ewp_step. apply HQ, haloed_quiet; [done|]. by intros. }
  rewrite (grounded_filter s p f (ha_ground _ _ Hs) Hp Ef). pose proof (filter_range blocks prior p f Ef) as Hfr.
  rewrite (proj2 (Z.eqb_neq f BLOCKED)) by (unfold BLOCKED; lia). rewrite checked_offset_spec.
  destruct (decide (i32_pos (shift p o))) as [Hi|Hi].
  2:{ ewp_step. apply HQ, haloed_quiet; [done|]. intros c _ _. unfold LightField.halo. by rewrite decide_False by tauto. }
  ewp_step. eapply ewp_expect; [unfold LightGrid.inside in Hout; apply not_true_is_false in Hout; by rewrite Hout|].
  destruct (ba_is_known blocks (shift p o)) eqn:Ek; cbn [negb].
  2:{ ewp_step. apply HQ, haloed_quiet; [done|]. intros c _ _. unfold LightField.halo. destruct (decide _); [|done].
      destruct (filter_of (shift p o)) as [f'|] eqn:Ef'; [|done]. assert (ba_is_known blocks (shift p o) = true) by (apply (known_ok (b := b)); congruence). congruence. }
  apply (known_ok (b := b)) in Ek. unfold CHANNELS. cbn [for_each].
  ewp_step. apply (ewp_seed_halo_channel d o x y z f D); [done..|]. fold p. intros s1 [H1 Hr1 Hh1 Ha1 He1].
  ewp_step. apply (ewp_seed_halo_channel d o x y z f D); [done..|]. fold p. intros s2 [H2 Hr2 Hh2 Ha2 He2]. ewp_step. apply HQ.
  apply haloed_extend; [done| |].
  - intros c f' level dd _ Hf' Hsp Hh. destruct c; [|by eapply Hh2]. etransitivity; [by eapply Hh1|by apply Hr2].
  - intros x' z' _ _ Ho' Ht He. by apply He2.
Qed.

Lemma ewp_seed_halo s Q : haloed [] s →
  (∀ D s', (∀ o p, o ∈ NEIGHBOURS → inside p → ¬ inside (shift p o) → (o, p) ∈ D) → haloed D s' → Q tt s') →
  ewp (seed_halo blocks prior b profile) s Q full_error.
Proof using All.
  intros Hs HQ. set (faces (x : nat * (Z * Z * Z)) := pair x.2 <$> (at_local <$> face_cells b x.1)).
  unfold seed_halo. apply (ewp_each _ (λ pre, haloed (pre ≫= faces))); [done| |].
  - intros pre [d o] post s' Hl Hs'. assert (Hd : (d, o) ∈ enumerate NEIGHBOURS) by (rewrite Hl; set_solver).
    apply (ewp_each _ (λ done, haloed ((pre ≫= faces) ++ (pair o <$> (at_local <$> done))))); [by rewrite app_nil_r| |].
    + intros pre' local post' s2 Hl' Hs2. eapply (ewp_seed_full_halo_cell d o local); [done|rewrite Hl'; set_solver|exact Hs2|].
      intros s3 Hs3. rewrite !fmap_app. by rewrite app_assoc.
    + intros s2 Hs2. rewrite bind_app. cbn [mbind list_bind]. by rewrite app_nil_r.
  - intros s' Hs'. eapply HQ; [|exact Hs']. intros o p Ho Hp Hout. destruct (offset_direction o Ho) as (d & Hd).
    apply list_elem_of_bind. exists (d, o). split; [|done]. destruct (local_of b Grid p Hp) as (x & y & z & Hin & -> & _).
    apply list_elem_of_fmap. eexists. split; [done|]. apply list_elem_of_fmap. eexists. split; [done|]. by apply (elem_of_face_cells d o).
Qed.
End halo.

(** ** Direct sky, column by column

    Top-down, [fill_direct_sky] marks exactly the cells [LightField.direct] reaches, and lifts them to 15. *)

Section fill.
Context (blocks : LightBlockAccess) (prior : LightReadAccess) (b : LightBounds) (profile : DimensionLightProfile) (max_queue : Z).
Context `{Inputs : !LightInputs blocks prior} (Grid : grid_ok b) (Seeds : seeds_ok blocks b) (Down : direct_sky_down profile = true).
Notation pinside := (LightGrid.inside (padded b)).
Notation inside := (inside b).
Notation pad := (pad b).
Notation grid := (grid_new b).
Notation at_local := (at_local b).
Notation in_grid := (in_grid b).
Notation filter_of := (filter_of blocks).
Notation fval := (fval b).
Notation val := (val b).
Notation fdir := (fdir b).
Notation cell := (cell blocks b).
Notation direct := (direct blocks prior b profile).
Notation grounded := (grounded blocks b).
Notation haloed := (haloed blocks prior b profile).
Notation enters_above := (enters_above blocks prior b profile).
Notation full_error := (full_error blocks prior b max_queue).
Implicit Types (p q : BlockPos) (s : FullState).

Context (D : list ((Z * Z * Z) * BlockPos)) (s0 : FullState) (Start : haloed D s0).
Context (All : ∀ o p, o ∈ NEIGHBOURS → inside p → ¬ inside (shift p o) → (o, p) ∈ D).

(** Direct sky comes from above [p]. *)
Definition sky_above p : Prop := enters_above p ∨ direct (shift p up).

Lemma full_value_direct p : inside p → val s0 SkyLight p = 15 → filter_of p ≠ None → direct p.
Proof using All Down Grid Inputs Seeds Start.
  intros Hp Hv Hf. destruct (ha_sound _ _ _ _ _ _ Start SkyLight p (conj Hp Hf)) as (v & Hlit & Hle).
  pose proof (lit_range _ _ _ _ Seeds _ _ _ Hlit). assert (v = 15) as -> by lia. by eapply full_sky_direct.
Qed.

Lemma direct_cases p : inside p → direct p ↔ filter_of p = Some 0 ∧ (sky_above p ∨ val s0 SkyLight p = 15).
Proof using All Down Grid Inputs Seeds Start.
  intros Hp. split.
  - intros Hd. destruct (direct_facts _ _ _ _ _ Hd) as (_ & _ & Hf). split; [done|]. destruct Hd as [p _ _ _ Hs|p _ _ _ Hh|p _ _ _ Hd].
    + right. assert (Hc : cell p) by (split; [done|congruence]). pose proof (ha_source _ _ _ _ _ _ Start SkyLight p Hc).
      pose proof (haloed_range blocks prior b profile Seeds D s0 SkyLight p Start (inside_padded b p Hp)). lia.
    + left. left. done.
    + left. by right.
  - intros [Hf [[(_ & _ & Hh)|Hd]|Hv]]; [by apply direct_halo|by apply direct_below|apply full_value_direct; [done..|congruence]].
Qed.

(** The grid with the cells of [P] decided. *)
Record filled (P : nat * nat * nat → Prop) s : Prop := {
  fi_ground : grounded s;
  fi_block p : pinside p → val s BlockLight p = val s0 BlockLight p;
  fi_sky p : pinside p → val s SkyLight p = if fdir s p then 15 else val s0 SkyLight p;
  fi_dir local : in_grid local → fdir s (at_local local) = true ↔ P local ∧ direct (at_local local);
  fi_margin p : pinside p → ¬ inside p → fdir s p = false;
  fi_above i : above s i = above s0 i;
  fi_total : fs_total s = 0;
}.

Lemma filled_ext P P' s : (∀ local, in_grid local → P local ↔ P' local) → filled P s → filled P' s.
Proof using Type. intros HP []. split; try done. intros local Hl. by rewrite <-HP, fi_dir0. Qed.

Lemma filled_start : filled (λ _, False) s0.
Proof using Start Grid.
  split; [apply Start|done| |intros local Hl|by intros; apply Start|done|apply Start].
  - intros p Hp. by rewrite (ha_direct _ _ _ _ _ _ Start).
  - destruct local as [[x y] z]. rewrite (ha_direct _ _ _ _ _ _ Start); [split; [done|tauto]|]. by apply inside_padded, at_local_inside.
Qed.

Lemma at_local_inj l l' : at_local l = at_local l' → l = l'.
Proof using Type. destruct l as [[x y] z], l' as [[x' y'] z']. unfold LightFullGrid.at_local. intros [= ? ? ?]. repeat f_equal; lia. Qed.

Lemma filled_mark P s x y z : filled P s → in_grid (x, y, z) → direct (at_local (x, y, z)) →
  filled (λ local, P local ∨ local = (x, y, z)) (put_direct b (at_local (x, y, z)) (put_value b SkyLight (at_local (x, y, z)) 15 s)).
Proof using Grid.
  intros Hs Hin Hd. set (p := at_local (x, y, z)) in *. set (s1 := put_value b SkyLight p 15 s). set (s2 := put_direct b p s1).
  pose proof (proj1 (fi_ground _ _ Hs)) as Hsh. assert (Hp : pinside p) by by apply inside_padded, at_local_inside.
  assert (Hsh1 : full_shape b s1) by by apply shape_put_value.
  assert (Hval : ∀ c q, pinside q → val s2 c q = if decide (c = SkyLight ∧ q = p) then 15 else val s c q) by (intros; by apply (val_put_value b s Hsh)).
  assert (Hdir : ∀ q, pinside q → fdir s2 q = if decide (q = p) then true else fdir s q) by (intros; by apply (fdir_put_direct b s1 Hsh1)).
  split.
  - split; [by apply shape_put_direct|]. intros q Hq. transitivity (fval s q); [done|]. by apply (fi_ground _ _ Hs).
  - intros q Hq. rewrite Hval by done. rewrite decide_False by by intros [? _]. by apply Hs.
  - intros q Hq. rewrite Hval, Hdir by done. destruct (decide (q = p)) as [->|Hne]; [by rewrite decide_True|].
    rewrite decide_False by by intros [_ ?]. by apply Hs.
  - intros [[x' y'] z'] Hl. rewrite Hdir by by apply inside_padded, at_local_inside. goal_decide as H.
    + apply at_local_inj in H. rewrite H. split; [auto|done].
    + rewrite (fi_dir _ _ Hs) by done. split; [tauto|]. intros [[?|Heq] ?]; [done|]. rewrite Heq in H. done.
  - intros q Hq Hout. rewrite Hdir, decide_False by (done || (intros ->; apply Hout; by apply at_local_inside)). by apply Hs.
  - apply Hs.
  - apply Hs.
Qed.

Lemma filled_skip P s x y z : filled P s → ¬ direct (at_local (x, y, z)) → filled (λ local, P local ∨ local = (x, y, z)) s.
Proof using Type.
  intros Hs Hd. destruct Hs. split; try done. intros local Hl. rewrite fi_dir0 by done. split; [tauto|]. intros [[?| ->] ?]; done.
Qed.

Lemma ewp_fill_direct_cell P s x y z (lit : bool) (Q : bool → FullState → Prop) : filled P s → in_grid (x, y, z) → ¬ P (x, y, z) →
  (lit = true ↔ sky_above (at_local (x, y, z))) →
  (∀ (r : bool) s', (r = true ↔ direct (at_local (x, y, z))) → filled (λ local, P local ∨ local = (x, y, z)) s' → Q r s') →
  ewp (fill_direct_cell b x z y lit) s Q full_error.
Proof using All Down Grid Inputs Seeds Start.
  intros Hs Hin HP Hlit HQ. unfold fill_direct_cell. rewrite (grid_index_pad b Grid).
  assert (Hp : inside (at_local (x, y, z))) by by apply at_local_inside. pose proof (inside_padded b _ Hp) as Hpp.
  pose proof (direct_cases _ Hp) as Hcase. pose proof (proj1 (fi_ground _ _ Hs)) as Hsh. set (p := at_local (x, y, z)) in *.
  ewp_step. apply (ewp_get_filter b s Hsh); [done|]. ewp_step. apply (ewp_get_value b s Hsh); [done|].
  assert (Hnd : fdir s p = false) by (apply not_true_is_false; unfold p; rewrite (fi_dir _ _ Hs) by done; tauto).
  assert (Hsky : val s SkyLight p = val s0 SkyLight p) by (rewrite (fi_sky _ _ Hs) by done; by rewrite Hnd).
  assert (Hr : (fval s p =? 0) && (lit || (val s SkyLight p =? 15)) = true ↔ direct p).
  { rewrite andb_true_iff, orb_true_iff, !Z.eqb_eq, Hsky, Hlit, Hcase. rewrite (proj2 (fi_ground _ _ Hs)), decide_True by done.
    destruct (filter_of p) as [f|]; simpl; [|by intuition]. split; [intros [-> ?]|intros [[= ->] ?]]; done. }
  destruct (_ && _).
  - assert (direct p) as Hd by by apply Hr. ewp_step. ewp_step. apply (ewp_set_value b s Hsh); [done|].
    apply (ewp_set_direct b); [by apply shape_put_value|done|]. ewp_step. apply HQ; [done|]. by apply filled_mark.
  - ewp_step. ewp_step. ewp_step. apply HQ; [done|]. apply filled_skip; [done|]. intros Hd%Hr. done.
Qed.

(** ** Columns *)

Lemma shift_up_local x y z : shift (at_local (x, y, z)) up = at_local (x, Datatypes.S y, z).
Proof using Type. apply pos_ext; simpl; lia. Qed.

Lemma enters_outside p : enters_above p → ¬ inside (shift p up).
Proof using Type. intros (_ & _ & Hh). unfold halo in Hh. case_decide as H; [by destruct H|done]. Qed.

(** Rows at or above [n] of the column, and the columns of [P]. *)
Definition rows (P : nat * nat * nat → Prop) (x z n : nat) (local : nat * nat * nat) : Prop := P local ∨ ∃ y, local = (x, y, z) ∧ (n ≤ y)%nat.

Lemma ewp_fill_direct_down P x z n s (lit : bool) Q : (x < x_len grid)%nat → (z < z_len grid)%nat → (n ≤ y_len grid)%nat → (∀ y, ¬ P (x, y, z)) →
  filled (rows P x z n) s → (n ≠ 0%nat → lit = true ↔ sky_above (at_local (x, (n - 1)%nat, z))) →
  (∀ s', filled (rows P x z 0) s' → Q tt s') → ewp (fill_direct_down b x z (reverse (seq 0 n)) lit) s Q full_error.
Proof using All Down Grid Inputs Seeds Start.
  intros Hx Hz Hn HP. revert s lit. induction n as [|n IH]; intros s lit Hs Hlit HQ.
  { cbn [seq]. rewrite reverse_nil. cbn [fill_direct_down]. ewp_step. by apply HQ. }
  rewrite seq_S, reverse_snoc. cbn [fill_direct_down Nat.add]. specialize (Hlit ltac:(done)). rewrite Nat.sub_succ, Nat.sub_0_r in Hlit.
  ewp_step. apply (ewp_fill_direct_cell (rows P x z (Datatypes.S n))); [done|split_and!; lia| |done|].
  { intros [H|(y & H & Hle)]; [by eapply HP|]. simplify_eq. lia. }
  intros r s' Hr Hs'. apply IH; [lia| | |done].
  - eapply filled_ext; [|exact Hs']. intros local _. unfold rows. split.
    + intros [[?|(y & -> & ?)]| ->]; [by left|right; exists y; split; [done|lia]|right; exists n; done].
    + intros [?|(y & -> & ?)]; [by left; left|]. destruct (decide (y = n)) as [->|]; [by right|left; right; exists y; split; [done|lia]].
  - intros Hn0. rewrite Hr. unfold sky_above. rewrite shift_up_local. assert (Datatypes.S (n - 1) = n) as -> by lia. split; [by right|].
    intros [He|?]; [|done]. destruct (enters_outside _ He). rewrite shift_up_local. apply at_local_inside; [done|]. split_and!; lia.
Qed.

Lemma ewp_fill_direct_sky s Q : s = s0 → (∀ s', filled (λ _, True) s' → Q tt s') → ewp (fill_direct_sky b) s Q full_error.
Proof using All Down Grid Inputs Seeds Start.
  intros -> HQ. unfold fill_direct_sky. set (columns := x ← seq 0 (x_len grid); _).
  assert (Hcol : ∀ x z, (x, z) ∈ columns ↔ (x < x_len grid)%nat ∧ (z < z_len grid)%nat).
  { intros x z. unfold columns. rewrite list_elem_of_bind. split.
    - intros (x' & (z' & Heq%list_elem_of_singleton & Hz%elem_of_seq)%list_elem_of_bind & Hx%elem_of_seq). simplify_eq. lia.
    - intros [Hx Hz]. exists x. split; [|apply elem_of_seq; lia]. apply list_elem_of_bind. exists z. split; [set_solver|apply elem_of_seq; lia]. }
  assert (Hnd : NoDup columns).
  { apply NoDup_bind; [| |apply NoDup_seq].
    - intros x1 x2 [x z] _ _ (z1 & [= -> ->]%list_elem_of_singleton & _)%list_elem_of_bind (z2 & [= -> ->]%list_elem_of_singleton & _)%list_elem_of_bind. done.
    - intros x _. apply NoDup_bind; [| |apply NoDup_seq].
      + intros z1 z2 [x' z'] _ _ [= -> ->]%list_elem_of_singleton [= ->]%list_elem_of_singleton. done.
      + intros z _. apply NoDup_singleton. }
  apply (ewp_each _ (λ pre, filled (λ '(x, y, z), (x, z) ∈ pre))).
  - eapply filled_ext; [|exact filled_start]. intros [[x y] z] _. split; [done|]. intros H. by apply elem_of_nil in H.
  - intros pre [x z] post s Hl Hs. assert ((x, z) ∈ columns) as [Hx Hz]%Hcol by (rewrite Hl; set_solver).
    assert (Hnew : (x, z) ∉ pre). { rewrite Hl in Hnd. apply NoDup_app in Hnd as (_ & Hnd & _). intros Hin. by apply (Hnd _ Hin), list_elem_of_here. }
    unfold fill_direct_column. ewp_steps. pose proof (fs_above _ _ (proj1 (fi_ground _ _ Hs))) as Hlen. fold (column b x z).
    pose proof (column_lt b x z Hx Hz) as Hlt. rewrite <-Hlen in Hlt. destruct (lookup_lt_is_Some_2 _ _ Hlt) as [lit Elit].
    eapply ewp_expect; [exact Elit|]. apply (ewp_fill_direct_down (λ '(x, y, z), (x, z) ∈ pre)); [done..| | |].
    + eapply filled_ext; [|exact Hs]. intros [[x' y'] z'] (_ & Hy' & _). unfold rows. split; [by left|]. intros [?|(y & [= -> -> ->] & Hy)]; [done|lia].
    + intros Hn0. fold (top b x z). assert (lit = true ↔ above s (column b x z) = true) as -> by (unfold above; by rewrite Elit).
      rewrite (fi_above _ _ Hs). unfold sky_above. split.
      * intros Ha. left. by apply (ha_above _ _ _ _ _ _ Start).
      * intros [He|Hd].
        -- apply (ha_above_all _ _ _ _ _ _ Start); [done..| |done]. apply All; [unfold NEIGHBOURS, up; set_solver| |by apply enters_outside].
           apply at_local_inside; [done|]. split_and!; lia.
        -- exfalso. destruct (direct_facts _ _ _ _ _ Hd) as (Hin & _). unfold top in Hin. rewrite shift_up_local in Hin.
           apply at_local_inside in Hin; [|done]. destruct Hin as (_ & Hy & _). lia.
    + intros s' Hs'. eapply filled_ext; [|exact Hs']. intros [[x' y'] z'] _. unfold rows. rewrite elem_of_app, list_elem_of_singleton. split.
      * intros [?|(y & [= -> -> ->] & _)]; auto.
      * intros [?|[= -> ->]]; [by left|]. right. exists y'. split; [done|lia].
  - intros s Hs. apply HQ. eapply filled_ext; [|exact Hs]. intros [[x y] z] (Hx & _ & Hz). split; [done|]. intros _. by apply Hcol.
Qed.
End fill.
