(* ===== verification/LightFullSpread.v ===== *)
(** * Spreading through buckets

    From level 15 down, a cell is spread when it is popped at the level it holds; what it raises goes to lower
    buckets, so no bucket is visited twice and no cell can rise once the lowest is empty. *)
From stdpp Require Import base numbers list gmap sets.
From S2P Require Import Prelude Packed Bytes Keys Snapshot Light LightGrid LightState Effects LightSolve LightField LightRules LightDarken LightFull LightFullGrid LightFullSeed.
#[local] Open Scope Z_scope.

(** Entries in all buckets. *)
Definition entries (l : list (list nat)) : nat := sum_list_with length l.

Lemma entries_insert l i x y : l !! i = Some x → (entries (<[i := y]> l) + length x = entries l + length y)%nat.
Proof. revert i. induction l as [|z l IH]; intros [|i]; simpl; intros H; simplify_eq; [lia|]. specialize (IH i H). unfold entries in *. lia. Qed.

Lemma entries_lookup l i x : l !! i = Some x → (length x ≤ entries l)%nat.
Proof. intros H. pose proof (entries_insert l i x [] H). simpl in *. lia. Qed.

Section spread.
Context (blocks : LightBlockAccess) (prior : LightReadAccess) (b : LightBounds) (profile : DimensionLightProfile) (max_queue : Z).
Context `{Inputs : !LightInputs blocks prior} (Grid : grid_ok b) (Seeds : seeds_ok blocks b).
Context (Size : Z.of_nat (volume_of (padded b)) ≤ 2 ^ 32).
Notation pinside := (LightGrid.inside (padded b)).
Notation inside := (inside b).
Notation pad := (pad b).
Notation grid := (grid_new b).
Notation at_local := (at_local b).
Notation filter_of := (filter_of blocks).
Notation fval := (fval b).
Notation val := (val b).
Notation fdir := (fdir b).
Notation cell := (cell blocks b).
Notation lit := (lit blocks prior b profile).
Notation grounded := (grounded blocks b).
Notation full_error := (full_error blocks prior b max_queue).
Implicit Types (p q : BlockPos) (s : FullState) (o : Z * Z * Z).

Context (c : LightChannel) (s0 : FullState) (T : Z) (Room : T ≤ 35 * volume_z b).

Definition slack s p : nat := Z.to_nat (15 - val s c p).

Record spread_ok (T : Z) s : Prop := {
  sp_ground : grounded s;
  sp_sound p : cell p → ∃ v, lit c p v ∧ val s c p ≤ v;
  sp_rise p : pinside p → val s0 c p ≤ val s c p;
  sp_nonneg p : pinside p → 0 ≤ val s c p;
  sp_blocked p : pinside p → ¬ cell p → val s c p = 0;
  sp_other c' p : c' ≠ c → val s c' p = val s0 c' p;
  sp_dir p : fdir s p = fdir s0 p;
  sp_bucket level i : i ∈ bucket s level → (2 ≤ level < LEVELS)%nat ∧ ∃ p, cell p ∧ i = pad p;
  sp_pending : fs_pending s = Z.of_nat (entries (fu_buckets (fs_full s)));
  sp_total : fs_pending s ≤ fs_total s ≤ max_queue;
  sp_budget : fs_total s + Z.of_nat (weight b (slack s)) ≤ T;
}.

Definition queued_at s p : Prop := pad p ∈ bucket s (Z.to_nat (val s c p)).
Definition arrived_at s p o : Prop := ∀ f, inside (shift p o) → filter_of (shift p o) = Some f → attenuate (val s c p) f ≤ val s c (shift p o).
Definition settled_at s p : Prop := ∀ o, o ∈ NEIGHBOURS → arrived_at s p o.
Definition worked_at s p : Prop := queued_at s p ∨ settled_at s p.

Lemma spread_range T' s p : spread_ok T' s → cell p → 0 ≤ val s c p ≤ 15.
Proof using Inputs Seeds.
  intros Hs Hp. destruct (sp_sound _ _ Hs p Hp) as (v & Hv & Hle). apply lit_range in Hv; [|done..].
  pose proof (sp_nonneg _ _ Hs p (inside_padded b p (proj1 Hp))). lia.
Qed.

(** Dim light reaches no neighbour. *)
Lemma dim_settled T' s p : spread_ok T' s → val s c p ≤ 1 → settled_at s p.
Proof using Type.
  intros Hs Hv o Ho f Hi Hf. pose proof (sp_nonneg _ _ Hs _ (inside_padded b _ Hi)). unfold attenuate, saturating_sub. lia.
Qed.

Lemma spread_ok_stats T' st s : spread_ok T' s → spread_ok T' (mk_full_state (fs_full s) (fs_total s) (fs_pending s) st).
Proof using Type. intros []. destruct sp_ground0 as [[] ?]. split; [split; [by split|done]|done..]. Qed.

Lemma spread_ok_weaken T1 T2 s : T1 ≤ T2 → spread_ok T1 s → spread_ok T2 s.
Proof using Type. intros ? []. split; try done. lia. Qed.

(** ** Queueing *)

Definition pushed_at s p (level : Z) : FullState :=
  mk_full_state (with_buckets (<[Z.to_nat level := pad p :: bucket s (Z.to_nat level)]> (fu_buckets (fs_full s))) (fs_full s)) (fs_total s + 1) (fs_pending s + 1) (fs_stats s).

Lemma bucket_lookup s level : full_shape b s → (level < LEVELS)%nat → fu_buckets (fs_full s) !! level = Some (bucket s level).
Proof using Type.
  intros Hs Hl. unfold bucket. rewrite <-(fs_buckets _ _ Hs) in Hl. by destruct (lookup_lt_is_Some_2 _ _ Hl) as [l ->].
Qed.

Lemma bucket_pushed s p level l : full_shape b s → 2 ≤ level ≤ 15 →
  bucket (pushed_at s p level) l = if decide (l = Z.to_nat level) then pad p :: bucket s (Z.to_nat level) else bucket s l.
Proof using Type.
  intros Hs Hl. unfold bucket at 1. simpl. goal_decide as H; [subst; by rewrite list_lookup_insert_eq by (rewrite (fs_buckets _ _ Hs); unfold LEVELS; lia)|].
  by rewrite list_lookup_insert_ne.
Qed.

(** Counting a cell, then pushing it. *)
Definition counted s : FullState := mk_full_state (fs_full s) (fs_total s + 1) (fs_pending s) (fs_stats s).

Lemma ewp_count_queued s Q : spread_ok (T - 1) s → (fs_total s + 1 ≤ max_queue → Q tt (counted s)) → ewp (count_queued max_queue) s Q full_error.
Proof using Grid Room Size.
  intros Hs HQ. pose proof (sp_budget _ _ Hs) as Hb. pose proof (volume_z_of b Grid) as Hvz.
  assert (Hvol : (volume_of b ≤ volume_of (padded b))%nat).
  { pose proof (go_x _ Grid). pose proof (go_y _ Grid). pose proof (go_z _ Grid). unfold volume_of, bounds_y_len, bounds_z_len, light_axis_len.
    cbn [padded lb_min lb_max bp_x bp_y bp_z]. apply Z2Nat.inj_le; [repeat apply Z.mul_nonneg_nonneg; lia..|].
    apply Z.mul_le_mono_nonneg; [apply Z.mul_nonneg_nonneg; lia|apply Z.mul_le_mono_nonneg; lia|lia|lia]. }
  unfold ewp, count_queued, enqueue_counted. change (2 ^ 32) with 4294967296 in Size. change (2 ^ 64) with 18446744073709551616.
  rewrite Z.min_l by lia. destruct (Z.ltb_spec max_queue (fs_total s + 1)) as [Hm|Hm]; [|by apply HQ].
  split; [split; [done|lia]|apply (sp_ground _ _ Hs)].
Qed.

Lemma ewp_push_bucket s p level (Q : unit → FullState → Prop) : full_shape b s → inside p → 2 ≤ level ≤ 15 → Q tt (pushed_at s p level) →
  ewp (push_bucket level (pad p)) (counted s) Q full_error.
Proof using Size.
  intros Hs Hp Hl HQ. pose proof (pad_lt b p (inside_padded b p Hp)) as Hlt. unfold push_bucket. eapply ewp_update; [|exact HQ].
  cbn [fs_full counted]. rewrite (bucket_lookup s) by (done || (unfold LEVELS; lia)). cbn [mbind option_bind fs_total fs_pending fs_stats counted].
  unfold to_unsigned. rewrite Z.mod_small by lia. by rewrite Nat2Z.id.
Qed.

Lemma pushed_ok s p level : spread_ok (T - 1) s → cell p → 2 ≤ level ≤ 15 → fs_total s + 1 ≤ max_queue → spread_ok T (pushed_at s p level).
Proof using Type.
  intros Hs Hp Hl Hm. pose proof (proj1 (sp_ground _ _ Hs)) as Hsh.
  pose proof (entries_insert (fu_buckets (fs_full s)) (Z.to_nat level) _ (pad p :: bucket s (Z.to_nat level)) (bucket_lookup s (Z.to_nat level) Hsh ltac:(unfold LEVELS; lia))) as He.
  cbn [length] in He. destruct Hs. split; try done.
  - split; [|apply sp_ground0]. destruct Hsh. split; try done. simpl. by rewrite length_insert.
  - intros l i. rewrite (bucket_pushed s p level l Hsh Hl). goal_decide as H; [|by apply sp_bucket0]. subst.
    intros [->|Hin]%elem_of_cons; [|by apply sp_bucket0]. split; [unfold LEVELS; lia|eauto].
  - simpl. lia.
  - simpl. lia.
  - change (slack (pushed_at s p level)) with (slack s). cbn [pushed_at fs_total]. lia.
Qed.

Lemma pushed_queued s p level q : full_shape b s → 2 ≤ level ≤ 15 → queued_at s q → queued_at (pushed_at s p level) q.
Proof using Type.
  intros Hs Hl. unfold queued_at. rewrite bucket_pushed by done. change (val (pushed_at s p level) c q) with (val s c q). goal_decide as H; [|done].
  rewrite H. intros Hin. by apply list_elem_of_further.
Qed.

Lemma pushed_queues s p level : full_shape b s → 2 ≤ level ≤ 15 → val s c p = level → queued_at (pushed_at s p level) p.
Proof using Type.
  intros Hs Hl Hv. unfold queued_at. rewrite bucket_pushed by done. change (val (pushed_at s p level) c p) with (val s c p). rewrite Hv.
  rewrite decide_True by done. apply list_elem_of_here.
Qed.

(** ** Seeding *)

Definition raises s level q : Prop := cell q ∧ ∃ f, filter_of q = Some f ∧ val s c q < attenuate level f.

Lemma ewp_could_raise T' s p o level (Q : bool → FullState → Prop) : spread_ok T' s → inside p → o ∈ NEIGHBOURS →
  (∀ r : bool, (r = true ↔ raises s level (shift p o)) → Q r s) → ewp (could_raise c level (pad p) (step_of b o)) s Q full_error.
Proof using Inputs Grid Size.
  intros Hs Hp Ho HQ. pose proof (proj1 (sp_ground _ _ Hs)) as Hsh. pose proof (shift_padded b p o Hp Ho) as Hq. unfold could_raise.
  rewrite (step_pad b Grid p o Hp Ho Size). ewp_step. apply (ewp_get_filter b s Hsh); [done|].
  destruct (Z.eqb_spec (fval s (shift p o)) BLOCKED) as [Hb|Hb].
  { ewp_step. apply HQ. split; [done|]. intros [Hc _]. by apply (grounded_blocked blocks prior b s _ (sp_ground _ _ Hs) Hq) in Hb. }
  assert (Hc : cell (shift p o)).
  { apply dec_stable. intros Hn. by apply Hb, (grounded_blocked blocks prior b s _ (sp_ground _ _ Hs) Hq). }
  ewp_step. apply (ewp_get_value b s Hsh); [done|]. ewp_step. apply HQ. rewrite Z.ltb_lt.
  destruct (filter_of (shift p o)) as [f|] eqn:Ef; [|by destruct Hc].
  rewrite (grounded_filter blocks b s _ f (sp_ground _ _ Hs) (proj1 Hc) Ef). fold (attenuate level f). split; [intros ?; split; [done|eauto]|]. intros [_ (f' & Hf' & ?)]. by simplify_eq.
Qed.

Lemma ewp_seed_spread s local Q : spread_ok (T - 1) s → in_grid b local →
  (∀ s', spread_ok T s' → (∀ q, cell q → worked_at s q → worked_at s' q) → (cell (at_local local) → worked_at s' (at_local local)) → Q tt s') →
  ewp (seed_spread b max_queue c local) s Q full_error.
Proof using Inputs Seeds Grid Size Room.
  destruct local as [[x y] z]. intros Hs Hin HQ. pose proof (proj1 (sp_ground _ _ Hs)) as Hsh. unfold seed_spread.
  rewrite row_index, (grid_index_pad b Grid). set (p := at_local (x, y, z)) in *. assert (Hp : inside p) by by apply at_local_inside.
  pose proof (inside_padded b p Hp) as Hpp. ewp_step. apply (ewp_get_value b s Hsh); [done|]. ewp_step. apply (ewp_get_filter b s Hsh); [done|].
  assert (Hskip : (cell p → settled_at s p) → Q tt s).
  { intros H. apply HQ; [|done|by right; apply H]. eapply spread_ok_weaken; [|exact Hs]. lia. }
  ewp_step. destruct (Z.ltb_spec 1 (val s c p)) as [Hv|Hv]; cbn [andb].
  2:{ ewp_step. cbv beta iota. ewp_step. apply Hskip. intros _. by eapply dim_settled. }
  destruct (Z.eqb_spec (fval s p) BLOCKED) as [Hb|Hb]; cbn [negb].
  { ewp_step. cbv beta iota. ewp_step. apply Hskip. intros Hc. by apply (grounded_blocked blocks prior b s p (sp_ground _ _ Hs) Hpp) in Hb. }
  assert (Hc : cell p). { apply dec_stable. intros Hn. by apply Hb, (grounded_blocked blocks prior b s p (sp_ground _ _ Hs) Hpp). }
  pose proof (spread_range _ s p Hs Hc) as Hrange. rewrite grid_steps_offsets, any_of_fmap.
  apply (ewp_any_of _ (λ o, raises s (val s c p) (shift p o))).
  { intros o R Ho HR. by apply (ewp_could_raise (T - 1)). }
  intros [] Hr.
  - ewp_step. apply ewp_count_queued; [done|]. intros Hm. apply ewp_push_bucket; [done|done|lia|]. apply HQ; [apply pushed_ok; [done|done|lia|done]| |].
    + intros q Hq [Hqu|Hset]; [left; by apply pushed_queued; [|lia|]|by right].
    + intros _. left. apply pushed_queues; [done|lia|done].
  - ewp_step. apply Hskip. intros _ o Ho f Hi Hf. apply Z.nlt_ge. intros Hlt. assert (false = true); [|done]. apply Hr.
    exists o. split; [done|]. split; [split; [done|congruence]|eauto].
Qed.

(** ** One step *)

Record stepped (level : Z) p o s s' : Prop := {
  st_ok : spread_ok T s';
  st_level : val s' c p = level;
  st_rise q : pinside q → val s c q ≤ val s' c q;
  st_arrived : arrived_at s' p o;
  st_worked q : cell q → q ≠ p → worked_at s q → worked_at s' q;
  st_bucket l : (Z.to_nat level ≤ l)%nat → bucket s' l = bucket s l;
}.

Definition raised_value s n v : FullState := put_value b c n v s.

(** A neighbour raised to [v], before it is queued. *)
Lemma spread_raise s n v : spread_ok T s → cell n → val s c n < v → (∃ w, lit c n w ∧ v ≤ w) → spread_ok (T - 1) (put_value b c n v s).
Proof using Inputs Seeds Grid.
  intros Hs Hn Hlt (w & Hw & Hvw). set (s' := put_value b c n v s). pose proof (proj1 (sp_ground _ _ Hs)) as Hsh. pose proof (inside_padded b n (proj1 Hn)) as Hnp.
  assert (Hw15 : w ≤ 15) by (apply lit_range in Hw; [lia|done..]).
  assert (Hval : ∀ c' q, pinside q → val s' c' q = if decide (c' = c ∧ q = n) then v else val s c' q) by (intros; by apply (val_put_value b s Hsh)).
  assert (Hbk : ∀ l, bucket s' l = bucket s l) by (intros; by apply bucket_put_value).
  assert (Hbs : fu_buckets (fs_full s') = fu_buckets (fs_full s)) by (by destruct c).
  split.
  - split; [by apply shape_put_value|]. intros q Hq. unfold s'. rewrite fval_put_value. by apply (sp_ground _ _ Hs).
  - intros q Hq. rewrite Hval by by apply inside_padded, Hq. goal_decide as H; [destruct H as [_ ->]; eauto|by apply Hs].
  - intros q Hq. rewrite Hval by done. pose proof (sp_rise _ _ Hs q Hq) as Hr. goal_decide as H; [destruct H as [_ ->]; lia|done].
  - intros q Hq. rewrite Hval by done. pose proof (sp_nonneg _ _ Hs q Hq) as Hr. goal_decide as H; [destruct H as [_ ->]; lia|done].
  - intros q Hq Hnc. rewrite Hval by done. rewrite decide_False by by intros [_ ->]. by apply Hs.
  - intros c' q Hc. rewrite <-(sp_other _ _ Hs) by done. unfold s', put_value, LightFullGrid.val. by destruct c, c'.
  - intros q. unfold s'. rewrite fdir_put_value. by apply Hs.
  - intros l i. rewrite Hbk. by apply Hs.
  - rewrite Hbs. apply Hs.
  - apply Hs.
  - assert (Hdrop : (weight b (slack s') + 1 ≤ weight b (slack s))%nat).
    { apply (weight_drop b Grid _ _ n); [|apply Hn|].
      - intros q Hq. unfold slack. rewrite Hval by by apply inside_padded. goal_decide as H; [destruct H as [_ ->]; lia|lia].
      - unfold slack. rewrite Hval by done. rewrite decide_True by done. lia. }
    pose proof (sp_budget _ _ Hs). change (fs_total s') with (fs_total s). lia.
Qed.

Lemma put_worked s n v q : spread_ok T s → pinside n → val s c n < v → cell q → q ≠ n → worked_at s q → worked_at (put_value b c n v s) q.
Proof using Type.
  intros Hs Hn Hlt Hq Hne. pose proof (proj1 (sp_ground _ _ Hs)) as Hsh. pose proof (inside_padded b q (proj1 Hq)) as Hqp.
  assert (Hvq : val (put_value b c n v s) c q = val s c q) by (rewrite (val_put_value b s Hsh) by done; by rewrite decide_False by by intros [_ ?]).
  intros [Hqu|Hset]; [left|right].
  - unfold queued_at. by rewrite Hvq, bucket_put_value.
  - intros o Ho f Hi Hf. rewrite Hvq. etransitivity; [by apply Hset|]. rewrite (val_put_value b s Hsh) by (done || by apply inside_padded).
    goal_decide as H; [destruct H as [_ ->]; lia|done].
Qed.

Lemma ewp_spread_step s level p o Q : spread_ok T s → cell p → val s c p = level → 2 ≤ level ≤ 15 → o ∈ NEIGHBOURS → (c = SkyLight → allows_sky profile = true) →
  (∀ s', stepped level p o s s' → Q tt s') → ewp (spread_step max_queue c level (pad p) (step_of b o)) s Q full_error.
Proof using Inputs Seeds Grid Size Room.
  intros Hs Hp Hv Hl Ho Hsky HQ. pose proof (proj1 (sp_ground _ _ Hs)) as Hsh. pose proof (shift_padded b p o (proj1 Hp) Ho) as Hnp.
  unfold spread_step. rewrite (step_pad b Grid p o (proj1 Hp) Ho Size). set (n := shift p o) in *.
  assert (Hskip : arrived_at s p o → Q tt s) by (intros H; by apply HQ).
  ewp_step. apply (ewp_get_filter b s Hsh); [done|]. destruct (Z.eqb_spec (fval s n) BLOCKED) as [Hb|Hb].
  { ewp_step. apply Hskip. intros f Hi Hf. apply (grounded_blocked blocks prior b s n (sp_ground _ _ Hs) Hnp) in Hb. destruct Hb. split; [done|]. fold n in Hf. congruence. }
  assert (Hn : cell n). { apply dec_stable. intros Hn. by apply Hb, (grounded_blocked blocks prior b s n (sp_ground _ _ Hs) Hnp). }
  destruct (filter_of n) as [f|] eqn:Ef; [|by destruct Hn]. rewrite (grounded_filter blocks b s n f (sp_ground _ _ Hs) (proj1 Hn) Ef). fold (attenuate level f).
  ewp_step. apply (ewp_get_value b s Hsh); [done|]. destruct (Z.ltb_spec (val s c n) (attenuate level f)) as [Hlt|Hge].
  2:{ ewp_step. apply Hskip. intros f' Hi Hf'. fold n in Hf' |- *. assert (f' = f) as -> by congruence. by rewrite Hv. }
  ewp_step. apply (ewp_set_value b s Hsh); [done|]. set (v := attenuate level f) in *. set (s1 := put_value b c n v s).
  assert (Hlit : ∃ w, lit c n w ∧ v ≤ w).
  { destruct (sp_sound _ _ Hs p Hp) as (u & Hu & Hle). exists (attenuate u f). split; [|unfold v, attenuate, saturating_sub in *; lia].
    eapply lit_step; [apply Hn|exact Ef|by apply opposite_neighbour|]. unfold n. by rewrite shift_opposite. }
  assert (Hs1 : spread_ok (T - 1) s1) by by apply spread_raise.
  assert (Hval : ∀ q, pinside q → val s1 c q = if decide (q = n) then v else val s c q).
  { intros q Hq. unfold s1. rewrite (val_put_value b s Hsh) by done. repeat (let H := fresh in goal_decide as H); tauto. }
  assert (Hpn : p ≠ n) by (unfold n; intros He; by apply (shift_ne p o Ho)).
  assert (Hv1 : val s1 c p = level) by (rewrite Hval by (by apply inside_padded, Hp); by rewrite decide_False).
  assert (Hvn : val s1 c n = v) by (rewrite Hval by done; by rewrite decide_True).
  assert (Hvl : v ≤ level - 1) by (unfold v, attenuate, saturating_sub; lia).
  assert (Hdone : ∀ s2, spread_ok T s2 → (∀ q, val s2 c q = val s1 c q) → (∀ q, cell q → q ≠ p → worked_at s q → worked_at s2 q) →
    (∀ l, (Z.to_nat level ≤ l)%nat → bucket s2 l = bucket s l) → Q tt s2).
  { intros s2 Hs2 Hv2 Hw2 Hb2. apply HQ. split; [done|by rewrite Hv2| | |done|done].
    - intros q Hq. rewrite Hv2, Hval by done. goal_decide as H; [subst; lia|done].
    - intros f' Hi Hf'. fold n in Hf' |- *. rewrite !Hv2, Hv1, Hvn. assert (f' = f) as -> by congruence. done. }
  destruct (Z.ltb_spec 1 v) as [H1|H1].
  - ewp_step. apply ewp_count_queued; [done|]. intros Hm. pose proof (proj1 (sp_ground _ _ Hs1)) as Hsh1.
    ewp_step. apply ewp_push_bucket; [done|apply Hn|lia|]. unfold peak_pending, on_full_stats. ewp_step. apply Hdone.
    + apply spread_ok_stats. apply pushed_ok; [done|done|lia|done].
    + intros q. done.
    + intros q Hq Hne Hw. destruct (decide (q = n)) as [->|Hqn]; [left; apply (pushed_queues s1); [done|lia|done]|].
      destruct (put_worked s n v q Hs Hnp Hlt Hq Hqn Hw) as [Hqu|Hset]; [left; apply (pushed_queued s1); [done|lia|done]|right; exact Hset].
    + intros l Hll. transitivity (bucket s1 l); [|apply bucket_put_value]. transitivity (bucket (pushed_at s1 n v) l); [done|].
      rewrite (bucket_pushed s1 n v l Hsh1) by lia. by rewrite decide_False by lia.
  - ewp_step. apply Hdone; [eapply spread_ok_weaken; [|exact Hs1]; lia|done| |by intros; apply bucket_put_value].
    intros q Hq Hne Hw. destruct (decide (q = n)) as [->|Hqn]; [right; eapply dim_settled; [done|lia]|by apply put_worked].
Qed.

(** ** A popped cell *)

Definition popped (level : nat) (rest : list nat) (pending : Z) s : FullState :=
  mk_full_state (with_buckets (<[level := rest]> (fu_buckets (fs_full s))) (fs_full s)) (fs_total s) pending (fs_stats s).

Lemma ewp_pop_bucket s level (Q : option nat → FullState → Prop) : full_shape b s → (level < LEVELS)%nat →
  match bucket s level with [] => Q None s | i :: rest => Q (Some i) (popped level rest (fs_pending s) s) end →
  ewp (pop_bucket (Z.of_nat level)) s Q full_error.
Proof using Type.
  intros Hs Hl HQ. unfold ewp, pop_bucket. rewrite Nat2Z.id, (bucket_lookup s level Hs Hl). cbn [mbind option_bind]. by destruct (bucket s level).
Qed.

Lemma bucket_popped s level rest pending l : full_shape b s → (level < LEVELS)%nat →
  bucket (popped level rest pending s) l = if decide (l = level) then rest else bucket s l.
Proof using Type.
  intros Hs Hl. unfold bucket at 1. simpl. goal_decide as H; [subst; by rewrite list_lookup_insert_eq by (by rewrite (fs_buckets _ _ Hs))|].
  by rewrite list_lookup_insert_ne.
Qed.

Lemma popped_ok s level i rest : spread_ok T s → (level < LEVELS)%nat → bucket s level = i :: rest →
  0 < fs_pending s ∧ spread_ok T (popped level rest (fs_pending s - 1) s).
Proof using Type.
  intros Hs Hl Hb. pose proof (proj1 (sp_ground _ _ Hs)) as Hsh. pose proof (bucket_lookup s level Hsh Hl) as Hlk. rewrite Hb in Hlk.
  pose proof (entries_insert _ _ _ rest Hlk) as He. cbn [length] in He. pose proof (sp_pending _ _ Hs) as Hp. split; [lia|].
  pose proof (λ l, bucket_popped s level rest (fs_pending s - 1) l Hsh Hl) as Hbp. destruct Hs. split; try done.
  - split; [|apply sp_ground0]. destruct Hsh. split; try done. simpl. by rewrite length_insert.
  - intros l j. rewrite Hbp. goal_decide as H; [|by apply sp_bucket0]. subst. intros Hin. apply sp_bucket0. rewrite Hb. by apply list_elem_of_further.
  - simpl. lia.
  - simpl. lia.
Qed.

Definition all_worked s : Prop := ∀ q, cell q → worked_at s q.

(** After a turn of the loop at [level]. *)
Record turned (level : nat) (rest : list nat) s s' : Prop := {
  tu_ok : spread_ok T s';
  tu_worked : all_worked s';
  tu_rest : bucket s' level = rest;
  tu_above l : (level < l)%nat → bucket s' l = bucket s l;
}.

Lemma ewp_spread_cell s level i rest Q : spread_ok T s → all_worked s → (2 ≤ level < LEVELS)%nat → bucket s level = i :: rest →
  (c = SkyLight → allows_sky profile = true) → (∀ s', turned level rest s s' → Q tt s') →
  ewp (spread_cell b max_queue c (Z.of_nat level) i) (popped level rest (fs_pending s) s) Q full_error.
Proof using Inputs Seeds Grid Size Room.
  intros Hs Hall Hl Hb Hsky HQ. pose proof (proj1 (sp_ground _ _ Hs)) as Hsh. destruct (popped_ok s level i rest Hs (proj2 Hl) Hb) as [Hpos Hs1].
  destruct (sp_bucket _ _ Hs level i) as (_ & p & Hp & ->); [rewrite Hb; apply list_elem_of_here|]. set (s1 := popped level rest (fs_pending s - 1) s) in *.
  pose proof (inside_padded b p (proj1 Hp)) as Hpp. assert (Hlz : 2 ≤ Z.of_nat level ≤ 15) by (unfold LEVELS in Hl; lia).
  assert (Hbk : ∀ l, bucket s1 l = if decide (l = level) then rest else bucket s l) by (intros; apply bucket_popped; [done|lia]).
  assert (Hw1 : ∀ q, cell q → q ≠ p ∨ val s c p ≠ Z.of_nat level → worked_at s1 q).
  { intros q Hq Hor. destruct (Hall q Hq) as [Hqu|Hset]; [|by right]. left. unfold queued_at in *. change (val s1 c q) with (val s c q). rewrite Hbk.
    goal_decide as H; [|done]. rewrite H, Hb in Hqu. apply elem_of_cons in Hqu as [He|?]; [|done].
    apply (pad_inj b) in He; [|by apply inside_padded, Hq|done]. subst q. destruct Hor as [?|Hv]; [done|]. exfalso. pose proof (sp_nonneg _ _ Hs p Hpp). lia. }
  unfold spread_cell, drop_pending. ewp_step. eapply (ewp_update _ _ s1).
  { cbn [popped fs_pending]. rewrite (proj2 (Z.eqb_neq _ _)) by lia. done. }
  ewp_step. apply (ewp_get_value b s1 (proj1 (sp_ground _ _ Hs1))); [done|]. change (val s1 c p) with (val s c p).
  destruct (Z.eqb_spec (val s c p) (Z.of_nat level)) as [Hv|Hv]; cbn [negb].
  2:{ ewp_step. apply HQ. split; [done|intros q Hq; by apply Hw1; auto| |].
      - rewrite Hbk. by rewrite decide_True.
      - intros l Hll. rewrite Hbk. by rewrite decide_False by lia. }
  unfold count_spread, on_full_stats. ewp_step. ewp_step. set (s2 := mk_full_state _ _ _ _).
  assert (Hs2 : spread_ok T s2) by by apply (spread_ok_stats T _ s1). rewrite grid_steps_offsets, for_each_fmap.
  apply (ewp_each _ (λ pre s', spread_ok T s' ∧ val s' c p = Z.of_nat level ∧ (∀ q, cell q → q ≠ p → worked_at s' q) ∧ (∀ o, o ∈ pre → arrived_at s' p o) ∧
    ∀ l, (level ≤ l)%nat → bucket s' l = bucket s2 l)).
  - split_and!; [done|done| |by intros o Ho; apply elem_of_nil in Ho|done]. intros q Hq Hne. apply (Hw1 q Hq). by left.
  - intros pre o post s' Hsplit (Hs' & Hv' & Hw' & Ha' & Hb'). apply (ewp_spread_step s'); [done..|rewrite Hsplit; set_solver|done|].
    intros s3 [H1 H2 H3 H4 H5 H6]. split_and!; [done|done|by intros q Hq Hne; apply H5; auto| |].
    + intros o' [Ho'|Ho']%elem_of_app; [|apply list_elem_of_singleton in Ho' as ->; exact H4].
      intros f Hi Hf. rewrite H2, <-Hv'. etransitivity; [by apply (Ha' o' Ho')|]. by apply H3, inside_padded.
    + intros l Hll. rewrite H6 by lia. by apply Hb'.
  - intros s' (Hs' & Hv' & Hw' & Ha' & Hb'). apply HQ. split; [done| | |].
    + intros q Hq. destruct (decide (q = p)) as [->|Hne]; [by right|by apply Hw'].
    + rewrite Hb' by lia. change (bucket s2 level) with (bucket s1 level). rewrite Hbk. by rewrite decide_True.
    + intros l Hll. rewrite Hb' by lia. change (bucket s2 l) with (bucket s1 l). rewrite Hbk. by rewrite decide_False by lia.
Qed.

(** ** The loops *)

Lemma ewp_spread_level s level Q : spread_ok T s → all_worked s → (2 ≤ level < LEVELS)%nat → (c = SkyLight → allows_sky profile = true) →
  (∀ s', spread_ok T s' → all_worked s' → bucket s' level = [] → (∀ l, (level < l)%nat → bucket s' l = bucket s l) → Q tt s') →
  ewp (drain (pop_bucket (Z.of_nat level)) (spread_cell b max_queue c (Z.of_nat level)) (fuel max_queue)) s Q full_error.
Proof using Inputs Seeds Grid Size Room.
  intros Hs Hall Hl Hsky HQ.
  apply (ewp_drain _ _ (λ s', spread_ok T s' ∧ all_worked s' ∧ ∀ l, (level < l)%nat → bucket s' l = bucket s l) (λ s', length (bucket s' level))).
  - done.
  - pose proof (entries_lookup _ _ _ (bucket_lookup s level (proj1 (sp_ground _ _ Hs)) (proj2 Hl))) as He.
    pose proof (sp_pending _ _ Hs). pose proof (sp_total _ _ Hs). unfold fuel. lia.
  - intros s' (Hs' & Hall' & Hb'). apply ewp_pop_bucket; [apply Hs'|lia|]. destruct (bucket s' level) as [|i rest] eqn:Eb; [by apply HQ|].
    apply ewp_spread_cell; [done..|]. intros s2 [H1 H2 H3 H4]. split; [split_and!; [done|done|]|rewrite H3; simpl; lia].
    intros l Hll. rewrite H4 by done. by apply Hb'.
Qed.

Lemma elem_of_local_cells local : local ∈ local_cells b ↔ in_grid b local.
Proof using Type.
  destruct local as [[x y] z]. unfold local_cells. rewrite list_elem_of_bind. split.
  - intros (x' & (y' & (z' & Heq%list_elem_of_singleton & Hz%elem_of_seq)%list_elem_of_bind & Hy%elem_of_seq)%list_elem_of_bind & Hx%elem_of_seq).
    simplify_eq. split_and!; lia.
  - intros (Hx & Hy & Hz). exists x. split; [|apply elem_of_seq; lia]. apply list_elem_of_bind. exists y. split; [|apply elem_of_seq; lia].
    apply list_elem_of_bind. exists z. split; [by apply list_elem_of_singleton|apply elem_of_seq; lia].
Qed.
End spread.

Lemma level_order k level : reverse (seq 2 (LEVELS - 2)) !! k = Some level → (level = 15 - k ∧ k < 14)%nat.
Proof.
  change (reverse (seq 2 (LEVELS - 2))) with [15; 14; 13; 12; 11; 10; 9; 8; 7; 6; 5; 4; 3; 2]%nat. intros H.
  assert (k < 14)%nat as Hk by (by apply lookup_lt_Some in H). do 14 (destruct k as [|k]; [cbn in H; simplify_eq; lia|]). lia.
Qed.

Section all.
Context (blocks : LightBlockAccess) (prior : LightReadAccess) (b : LightBounds) (profile : DimensionLightProfile) (max_queue : Z).
Context `{Inputs : !LightInputs blocks prior} (Grid : grid_ok b) (Seeds : seeds_ok blocks b).
Context (Size : Z.of_nat (volume_of (padded b)) ≤ 2 ^ 32) (c : LightChannel) (Sky : c = SkyLight → allows_sky profile = true).
Notation cell := (cell blocks b).
Notation spread_ok := (spread_ok blocks prior b profile max_queue c).
Notation val := (val b).
Notation full_error := (full_error blocks prior b max_queue).
Implicit Types (p q : BlockPos) (s : FullState).

(** A grid ready to spread. *)
Record spreadable s : Prop := {
  sa_ground : grounded blocks b s;
  sa_sound p : cell p → ∃ v, lit blocks prior b profile c p v ∧ val s c p ≤ v;
  sa_nonneg p : LightGrid.inside (padded b) p → 0 ≤ val s c p;
  sa_blocked p : LightGrid.inside (padded b) p → ¬ cell p → val s c p = 0;
  sa_total : 0 ≤ fs_total s ≤ max_queue;
}.

Definition cleared s : FullState :=
  mk_full_state (with_buckets ((λ _, []) <$> fu_buckets (fs_full s)) (fs_full s)) (fs_total s) 0 (fs_stats s).

Lemma entries_cleared l : entries ((λ _ : list nat, []) <$> l) = 0%nat.
Proof using Type. induction l as [|x l IH]; [done|]. exact IH. Qed.

Lemma bucket_cleared s level : bucket (cleared s) level = [].
Proof using Type. unfold bucket. simpl. rewrite list_lookup_fmap. by destruct (_ !! level). Qed.

Lemma cleared_ok s : spreadable s → spread_ok s (fs_total s + 15 * volume_z b) (cleared s).
Proof using Grid.
  intros [[H1 H2] Hs Hn Hbl Ht]. split; try done.
  - split; [|done]. destruct H1. split; try done. simpl. by rewrite length_fmap.
  - intros level i. rewrite bucket_cleared. intros Hin. by apply elem_of_nil in Hin.
  - simpl. by rewrite entries_cleared.
  - assert (Hw : Z.of_nat (weight b (slack b c (cleared s))) ≤ 15 * volume_z b); [|simpl; lia]. apply (weight_bound b Grid _ 15).
    intros q Hq. unfold slack. pose proof (Hn q (inside_padded b q Hq)) as Hq0. change (val (cleared s) c q) with (val s c q). lia.
Qed.

(** Spread to the end. *)
Record spread_done s s' : Prop := {
  sd_ok : spread_ok s (fs_total s + 16 * volume_z b) s';
  sd_settled p : cell p → settled_at blocks b c s' p;
}.

Lemma ewp_seed_all s Q : spreadable s → fs_total s + 16 * volume_z b ≤ 35 * volume_z b →
  (∀ s', spread_ok s (fs_total s + 16 * volume_z b) s' → all_worked blocks b c s' → Q tt s') →
  ewp (for_each (seed_spread b max_queue c) (local_cells b)) (cleared s) Q full_error.
Proof using All.
  intros Hs Hroom HQ. pose proof (volume_z_of b Grid) as Hvz.
  assert (Hlen : length (local_cells b) = volume_of b) by (by rewrite <-(length_fmap (λ local, dense b (at_local b local))), (local_cells_dense b Grid), length_seq).
  apply (ewp_each _ (λ pre s', spread_ok s (fs_total s + 15 * volume_z b + Z.of_nat (length pre)) s' ∧
    ∀ local, local ∈ pre → cell (at_local b local) → worked_at blocks b c s' (at_local b local))).
  - split; [|by intros ? ?%elem_of_nil]. rewrite Z.add_0_r. by apply cleared_ok.
  - intros pre local post s' Hl [Hs' Hw]. assert (Hlocal : in_grid b local) by (apply elem_of_local_cells; rewrite Hl; set_solver).
    assert (Hcount : (length pre < volume_of b)%nat) by (rewrite <-Hlen, Hl, length_app; simpl; lia).
    eapply (ewp_seed_spread blocks prior b profile max_queue Grid Seeds Size c s (fs_total s + 15 * volume_z b + Z.of_nat (length pre) + 1)); [lia| |done|].
    { by rewrite Z.add_simpl_r. }
    intros s2 Hs2 Hmono Hnew. split.
    + rewrite length_app. cbn [length]. rewrite Nat2Z.inj_add, Z.add_assoc. exact Hs2.
    + intros local' [Hin|Hin]%elem_of_app Hc; [apply Hmono; [done|by apply Hw]|]. apply list_elem_of_singleton in Hin as ->. by apply Hnew.
  - intros s' [Hs' Hw]. rewrite Hlen, Hvz in Hs'. apply HQ.
    + eapply spread_ok_weaken; [|exact Hs']. lia.
    + intros q Hq. destruct (local_of b Grid q (proj1 Hq)) as (x & y & z & Hin & -> & _). apply Hw; [|done]. by apply elem_of_local_cells.
Qed.

Lemma ewp_spread s Q : spreadable s → fs_total s + 16 * volume_z b ≤ 35 * volume_z b → (∀ s', spread_done s s' → Q tt s') →
  ewp (spread b max_queue c) s Q full_error.
Proof using Inputs Grid Seeds Size Sky.
  intros Hs Hroom HQ. unfold spread, clear_buckets. ewp_step. ewp_step. fold (cleared s). ewp_step. apply ewp_seed_all; [done..|].
  intros s1 Hs1 Hw1. ewp_step. unfold peak_pending, on_full_stats. ewp_step. set (s2 := mk_full_state _ _ _ _).
  assert (Hs2 : spread_ok s (fs_total s + 16 * volume_z b) s2) by by apply spread_ok_stats.
  apply (ewp_each _ (λ pre s', spread_ok s (fs_total s + 16 * volume_z b) s' ∧ all_worked blocks b c s' ∧
    ∀ l, (16 - length pre ≤ l)%nat → bucket s' l = [])).
  - split_and!; [done|exact Hw1|]. intros l Hl. destruct (bucket s2 l) as [|i rest] eqn:Eb; [done|].
    destruct (sp_bucket _ _ _ _ _ _ _ _ _ Hs2 l i) as [Hr _]; [rewrite Eb; apply list_elem_of_here|]. simpl in Hl. unfold LEVELS in Hr. lia.
  - intros pre level post s' Hl (Hs' & Hw' & Hb'). assert (Hk : reverse (seq 2 (LEVELS - 2)) !! length pre = Some level) by (rewrite Hl; by apply list_lookup_middle).
    apply level_order in Hk as [Hlev Hk]. eapply (ewp_spread_level blocks prior b profile max_queue Grid Seeds Size c s); [exact Hroom|done|done|unfold LEVELS; lia|done|].
    intros s3 H1 H2 H3 H4. split_and!; [done|done|]. rewrite length_app. cbn [length]. intros l Hll. destruct (decide (l = level)) as [->|Hne]; [done|].
    rewrite H4 by lia. apply Hb'. lia.
  - intros s' (Hs' & Hw' & Hb'). apply HQ. split; [done|]. intros p Hp. destruct (Hw' p Hp) as [Hq|?]; [|done]. exfalso. unfold queued_at in Hq.
    destruct (sp_bucket _ _ _ _ _ _ _ _ _ Hs' _ _ Hq) as [Hr _]. rewrite Hb' in Hq; [by apply elem_of_nil in Hq|].
    change (length (reverse (seq 2 (LEVELS - 2)))) with 14%nat. lia.
Qed.
End all.
