(* ===== verification/LightFullResults.v ===== *)
(** * The full solve computes the light

    The phases of [full.rs] put together: the grid it ends with shows the solved field, and so does its result. *)
From stdpp Require Import base numbers list gmap sets.
From S2P Require Import Prelude Packed Palette Bytes Keys Snapshot Light LightSpec Effects LightGrid LightState LightSolve LightField.
From S2P Require Import LightRules LightDarken LightSolveSpec LightOutput LightResults LightFull LightFullGrid LightFullSeed.
From S2P Require Import LightFullSpread.
#[local] Open Scope Z_scope.

Section full.
Context (blocks : LightBlockAccess) (prior : LightReadAccess) (b : LightBounds) (profile : DimensionLightProfile) (max_queue : Z).
Context `{Inputs : !LightInputs blocks prior} `{Sections : !LightSections blocks b} (Grid : grid_ok b).
Context (Size : Z.of_nat (volume_of (padded b)) ≤ 2 ^ 32) (Queue : 0 ≤ max_queue).
Notation pinside := (LightGrid.inside (padded b)).
Notation inside := (inside b).
Notation filter_of := (filter_of blocks).
Notation source_level := (source_level blocks profile).
Notation val := (val b).
Notation fdir := (fdir b).
Notation cell := (cell blocks b).
Notation lit := (lit blocks prior b profile).
Notation direct := (direct blocks prior b profile).
Notation halo := (halo blocks prior b).
Notation spreads := (LightField.spreads profile).
Notation full_error := (full_error blocks prior b max_queue).
Implicit Types (p q : BlockPos) (c : LightChannel) (s : FullState).

(** Seeded from the blocks, the halo and the sky, ready to spread. *)
Record prepared s : Prop := {
  pp_ground : grounded blocks b s;
  pp_sound c p : cell p → ∃ v, lit c p v ∧ val s c p ≤ v;
  pp_source c p : cell p → source_level c p ≤ val s c p;
  pp_blocked c p : pinside p → ¬ cell p → val s c p = 0;
  pp_nonneg c p : pinside p → 0 ≤ val s c p;
  pp_halo c p f o level d : inside p → filter_of p = Some f → o ∈ NEIGHBOURS → spreads c → halo c (shift p o) = Some (level, d) → attenuate level f ≤ val s c p;
  pp_dir p : inside p → fdir s p = true ↔ direct p;
  pp_dir_level p : inside p → direct p → val s SkyLight p = 15;
  pp_total : fs_total s = 0;
}.

Section seeded.
Context (Seeds : seeds_ok blocks b) (D : list ((Z * Z * Z) * BlockPos)) (s0 : FullState) (Start : haloed blocks prior b profile D s0).
Context (Done : ∀ o p, o ∈ NEIGHBOURS → inside p → ¬ inside (shift p o) → (o, p) ∈ D).

Lemma halo_listed c p o x : inside p → o ∈ NEIGHBOURS → halo c (shift p o) = Some x → (o, p) ∈ D.
Proof using Done. intros Hp Ho Hh. apply Done; [done..|]. unfold LightField.halo in Hh. case_decide as H; [by destruct H|done]. Qed.

Lemma haloed_prepared : direct_sky_down profile = false → prepared s0.
Proof using All.
  intros Hd. assert (Hno : ∀ p, ¬ direct p) by (intros p Hdir; destruct (direct_facts _ _ _ _ _ Hdir) as (_ & ? & _); congruence).
  split; try apply Start.
  - intros c p Hp. by apply (haloed_range blocks prior b profile Seeds D s0 c p Start).
  - intros c p f o level d Hp Hf Ho Hsp Hh. eapply (ha_halo _ _ _ _ _ _ Start); [by eapply halo_listed|done..].
  - intros p Hp. rewrite (ha_direct _ _ _ _ _ _ Start) by by apply inside_padded. split; [done|]. by intros ?%Hno.
  - intros p _ ?%Hno. done.
Qed.

Lemma filled_prepared s : filled blocks prior b profile s0 (λ _, True) s → prepared s.
Proof using All.
  intros Hs. pose proof (λ c p, haloed_range blocks prior b profile Seeds D s0 c p Start) as Hrange.
  assert (Hdir : ∀ p, inside p → fdir s p = true ↔ direct p).
  { intros p Hp. destruct (local_of b Grid p Hp) as (x & y & z & Hin & -> & _). rewrite (fi_dir _ _ _ _ _ _ _ Hs) by done. tauto. }
  assert (Hval : ∀ c p, pinside p → val s c p = val s0 c p ∨ c = SkyLight ∧ fdir s p = true ∧ val s c p = 15).
  { intros [] p Hp; [left; by apply Hs|]. rewrite (fi_sky _ _ _ _ _ _ _ Hs) by done. destruct (fdir s p); [by right|by left]. }
  assert (Hge : ∀ c p, pinside p → val s0 c p ≤ val s c p).
  { intros c p Hp. specialize (Hrange c p Hp). destruct (Hval c p Hp) as [->|(_ & _ & ->)]; lia. }
  split.
  - apply Hs.
  - intros c p Hp. destruct (Hval c p (inside_padded b p (proj1 Hp))) as [->|(-> & Hd & ->)]; [by apply Start|].
    exists 15. split; [|done]. apply lit_direct; [done|]. by apply Hdir; [apply Hp|].
  - intros c p Hp. etransitivity; [by apply Start|]. apply Hge. by apply inside_padded, Hp.
  - intros c p Hp Hn. destruct (Hval c p Hp) as [->|(-> & Hd & _)]; [by apply Start|]. exfalso. destruct (decide (inside p)) as [Hi|Hi].
    + apply Hn. apply Hdir in Hd; [|done]. destruct (direct_facts _ _ _ _ _ Hd) as (_ & _ & Hf). split; [done|congruence].
    + rewrite (fi_margin _ _ _ _ _ _ _ Hs) in Hd; done.
  - intros c p Hp. specialize (Hge c p Hp). specialize (Hrange c p Hp). lia.
  - intros c p f o level d Hp Hf Ho Hsp Hh. etransitivity; [eapply (ha_halo _ _ _ _ _ _ Start); [by eapply halo_listed|done..]|].
    apply Hge. by apply inside_padded.
  - exact Hdir.
  - intros p Hp Hd. rewrite (fi_sky _ _ _ _ _ _ _ Hs) by by apply inside_padded. by rewrite (proj2 (Hdir p Hp) Hd).
  - apply Hs.
Qed.
End seeded.

(** ** The body *)

(** What the grid shows in the end. *)
Record full_done s : Prop := {
  fd_ground : grounded blocks b s;
  fd_solved : solved blocks prior b profile (val s) (fdir s);
  fd_range c p : inside p → 0 ≤ val s c p ≤ 15;
  fd_seeds : seeds_ok blocks b;
}.

Lemma ewp_prepare full stats (k : F unit) Q : length (fu_buckets full) = LEVELS →
  (∀ s, seeds_ok blocks b → prepared s → ewp k s Q full_error) →
  ewp (_ ← read_blocks blocks b profile; _ ← seed_halo blocks prior b profile; _ ← (if direct_sky_down profile then fill_direct_sky b else mret tt); k)
    (mk_full_state (full_reset b full) 0 0 stats) Q full_error.
Proof using All.
  intros Hb HQ. ewp_step. apply (ewp_read_blocks blocks prior b profile max_queue Grid); [by apply reading_start|]. intros D1 s1 HD1 Hs1.
  assert (Seeds : seeds_ok blocks b) by (intros p Hp Hf; apply (rd_seeds _ _ _ _ _ Hs1); [by apply HD1|done]).
  ewp_step. apply (ewp_seed_halo blocks prior b profile max_queue Grid Seeds); [by apply (reading_haloed blocks prior b profile Seeds D1)|].
  intros D2 s2 HD2 Hs2. ewp_step. destruct (direct_sky_down profile) eqn:Ed.
  - eapply (ewp_fill_direct_sky blocks prior b profile max_queue Grid Seeds Ed D2 s2 Hs2 HD2); [done|]. intros s3 Hs3. apply HQ; [done|].
    by apply (filled_prepared Seeds D2 s2).
  - ewp_step. apply HQ; [done|]. by apply (haloed_prepared Seeds D2).
Qed.

Lemma prepared_spreadable c s : prepared s → spreadable blocks prior b profile max_queue c s.
Proof using Queue. intros []. split; try done; auto. lia. Qed.

(** The grid after the last channel has spread. *)
Lemma spread_solved s0 s : seeds_ok blocks b → prepared s0 → grounded blocks b s →
  (∀ c p, cell p → ∃ v, lit c p v ∧ val s c p ≤ v) → (∀ c p, pinside p → val s0 c p ≤ val s c p) → (∀ c p, pinside p → ¬ cell p → val s c p = 0) →
  (∀ p, fdir s p = fdir s0 p) → (∀ c p, cell p → settled_at blocks b c s p) → full_done s.
Proof using Grid Inputs.
  intros Seeds Hs0 Hg Hsound Hrise Hblk Hdir Hset.
  assert (Hrange : ∀ c p, inside p → 0 ≤ val s c p ≤ 15).
  { intros c p Hp. pose proof (Hrise c p (inside_padded b p Hp)). pose proof (pp_nonneg _ Hs0 c p (inside_padded b p Hp)).
    destruct (decide (filter_of p = None)) as [Hn|Hn]; [rewrite Hblk; [lia|by apply inside_padded|by intros [_ []]]|].
    destruct (Hsound c p (conj Hp Hn)) as (v & Hv & Hle). apply lit_range in Hv; [lia|done..]. }
  split; [done| |done|done]. apply closed_sound_solved.
  - intros c. split.
    + intros p f Hp Hf. etransitivity; [apply (pp_source _ Hs0); split; [done|congruence]|]. by apply Hrise, inside_padded.
    + intros p f o level d Hp Hf Ho Hsp Hh. etransitivity; [by eapply (pp_halo _ Hs0)|]. by apply Hrise, inside_padded.
    + intros p f o Hp Hf Ho Hq Hfq. pose proof (Hset c (shift p o) (conj Hq Hfq) (opposite o) (opposite_neighbour o Ho) f) as Ha.
      rewrite shift_opposite in Ha. by apply Ha.
  - split.
    + intros p Hp Hd Hf Hsrc. rewrite Hdir. apply Hs0; [done|]. by apply direct_source.
    + intros p Hp Hd Hf Hh. rewrite Hdir. apply Hs0; [done|]. by apply direct_halo.
    + intros p Hp Hd Hf Hq Hdq. rewrite Hdir in Hdq |- *. apply Hs0; [done|]. apply direct_below; [done..|]. by apply Hs0.
    + intros p Hp Hdp. rewrite Hdir in Hdp. apply Hs0 in Hdp; [|done]. pose proof (pp_dir_level _ Hs0 p Hp Hdp).
      pose proof (Hrise SkyLight p (inside_padded b p Hp)). specialize (Hrange SkyLight p Hp). lia.
  - intros c p Hp. destruct (filter_of p) as [f|] eqn:Ef; [apply Hsound; split; [done|congruence]|].
    apply Hblk; [by apply inside_padded|]. by intros [_ []].
  - intros p Hp. rewrite Hdir. by apply Hs0.
Qed.

(** Without sky light the sky channel is dark, and done. *)
Lemma dark_sky_settled s p : prepared s → allows_sky profile = false → cell p → settled_at blocks b SkyLight s p.
Proof using Type.
  intros Hs Hn Hp. assert (Hz : val s SkyLight p ≤ 0).
  { destruct (pp_sound _ Hs SkyLight p Hp) as (v & Hv & Hle). destruct (Z.le_gt_cases v 0) as [?|Hpos]; [lia|]. apply lit_spreads in Hv; [|lia].
    rewrite Hv in Hn; done. }
  intros o Ho f Hi Hf. pose proof (pp_nonneg _ Hs SkyLight _ (inside_padded b _ Hi)). unfold attenuate, saturating_sub. lia.
Qed.

(** A channel that a spread leaves alone keeps what is known of it. *)
Lemma settled_same c s s' p : (∀ q, val s' c q = val s c q) → settled_at blocks b c s p → settled_at blocks b c s' p.
Proof using Type. intros Hv Hs o Ho f Hi Hf. rewrite !Hv. by apply Hs. Qed.

Lemma ewp_full_body full stats Q : length (fu_buckets full) = LEVELS → (∀ s, full_done s → Q tt s) →
  ewp (full_body blocks prior b profile max_queue) (mk_full_state (full_reset b full) 0 0 stats) Q full_error.
Proof using All.
  intros Hb HQ. apply ewp_prepare; [done|]. intros s Seeds Hs. pose proof (volume_z_of b Grid) as Hvz. pose proof (pp_total _ Hs) as Ht.
  ewp_step. apply (ewp_spread blocks prior b profile max_queue Grid Seeds Size BlockLight ltac:(done)); [by apply prepared_spreadable|lia|].
  intros s1 [Hs1 Hset1]. assert (Hsky : ∀ p, val s1 SkyLight p = val s SkyLight p) by (intros; by apply Hs1).
  destruct (allows_sky profile) eqn:Esky.
  - apply (ewp_spread blocks prior b profile max_queue Grid Seeds Size SkyLight ltac:(done)).
    + split; [apply Hs1|intros p Hp; rewrite Hsky; by apply Hs|intros p Hp; rewrite Hsky; by apply Hs|intros p Hp Hn; rewrite Hsky; by apply Hs|].
      pose proof (sp_total _ _ _ _ _ _ _ _ _ Hs1). pose proof (sp_pending _ _ _ _ _ _ _ _ _ Hs1). lia.
    + pose proof (sp_budget _ _ _ _ _ _ _ _ _ Hs1). lia.
    + intros s2 [Hs2 Hset2]. apply HQ. assert (Hblk : ∀ p, val s2 BlockLight p = val s1 BlockLight p) by (intros; by apply Hs2).
      apply (spread_solved s); [done|done|apply Hs2|..].
      * intros [] p Hp; [rewrite Hblk; by apply Hs1|by apply Hs2].
      * intros [] p Hp; [rewrite Hblk; by apply Hs1|rewrite <-Hsky; by apply Hs2].
      * intros [] p Hp Hn; [rewrite Hblk; by apply Hs1|by apply Hs2].
      * intros p. rewrite (sp_dir _ _ _ _ _ _ _ _ _ Hs2). apply Hs1.
      * intros [] p Hp; [eapply settled_same; [exact Hblk|by apply Hset1]|by apply Hset2].
  - ewp_step. apply HQ. apply (spread_solved s); [done|done|apply Hs1|..].
    + intros [] p Hp; [by apply Hs1|rewrite Hsky; by apply Hs].
    + intros [] p Hp; [by apply Hs1|by rewrite Hsky].
    + intros [] p Hp Hn; [by apply Hs1|rewrite Hsky; by apply Hs].
    + apply Hs1.
    + intros [] p Hp; [by apply Hset1|]. eapply settled_same; [exact Hsky|by apply dark_sky_settled].
Qed.
End full.

(** ** The result of the full solve

    The copy-out loop visits the grid's cells in dense order and keeps what each open cell holds, so the frozen
    result shows the solved field of [LightFullSpec]. *)

Section output.
Context (blocks : LightBlockAccess) (prior : LightReadAccess) (b : LightBounds) (profile : DimensionLightProfile).
Context `{Inputs : !LightInputs blocks prior} (Grid : grid_ok b).
Notation inside := (inside b).
Notation dense := (dense b).
Notation val := (val b).
Notation fdir := (fdir b).
Notation cell := (cell blocks b).
Implicit Types (p q : BlockPos) (c : LightChannel) (s : FullState).

(** ** The visited cells *)

Definition visited : list (nat * nat) := enumerate ((λ '(x, y, z), (grid_index (grid_new b) x y 0 + z)%nat) <$> local_cells b).

(** The loop's counter is the dense index of the cell it visits. *)
Lemma visited_lookup i index cell : visited !! i = Some (index, cell) → index = i ∧ ∃ p, inside p ∧ dense p = i ∧ cell = pad b p.
Proof using Grid.
  unfold visited, enumerate. rewrite list_lookup_imap, list_lookup_fmap. destruct (local_cells b !! i) as [[[x y] z]|] eqn:El; [|done].
  cbn [fmap option_fmap option_map]. rewrite row_index, (grid_index_pad b Grid). intros [= <- <-]. split; [done|].
  exists (at_local b (x, y, z)). split; [|split; [|done]].
  - apply (at_local_inside b Grid). apply list_elem_of_lookup_2 in El.
    apply list_elem_of_bind in El as (x' & El & Hx). apply list_elem_of_bind in El as (y' & El & Hy). apply list_elem_of_bind in El as (z' & El & Hz).
    apply list_elem_of_singleton in El as [= -> -> ->]. apply elem_of_seq in Hx, Hy, Hz. unfold in_grid. lia.
  - pose proof (f_equal (.!! i) (local_cells_dense b Grid)) as Hd. rewrite list_lookup_fmap, El in Hd. symmetry in Hd. by apply lookup_seq in Hd as [-> _].
Qed.

Lemma visited_length : length visited = volume_of b.
Proof using Grid.
  unfold visited, enumerate. rewrite length_imap, length_fmap. pose proof (f_equal length (local_cells_dense b Grid)) as Hd.
  by rewrite length_fmap, length_seq in Hd.
Qed.

(** ** One cell *)

Lemma output_set out c p v : output_ok b out → inside p → ∃ out', set_at_index out (dense p) c v = Some out' ∧ output_ok b out' ∧
  (∀ c' q, inside q → get_at_index out' (dense q) c' = if decide (c' = c ∧ q = p) then Some v else get_at_index out (dense q) c') ∧
  (∀ q, inside q → mo_known out' !! dense q = if decide (q = p) then Some true else mo_known out !! dense q).
Proof using Type. intros Hout Hp. exact (set_at_index_spec b (with_output out (solve_start 0 scratch_default)) Hout c p v Hp). Qed.

(** The buffers after the first [n] cells. *)
Record copied s (n : nat) (acc : MutableOutput * DensePositionSet) : Prop := {
  cp_output : output_ok b acc.1;
  cp_length : length acc.2 = volume_of b;
  cp_light c p : inside p → get_at_index acc.1 (dense p) c = Some (if decide ((dense p < n)%nat ∧ cell p) then val s c p else 0);
  cp_known p : inside p → mo_known acc.1 !! dense p = Some (bool_decide ((dense p < n)%nat ∧ cell p));
  cp_direct p : inside p → acc.2 !! dense p = Some (bool_decide ((dense p < n)%nat ∧ cell p) && fdir s p);
}.

Lemma copied_start s : copied s 0 (output_new (volume_of b), dense_set_new (volume_of b)).
Proof using Type.
  assert (Hr : ∀ A (v : A) p, inside p → replicate (volume_of b) v !! dense p = Some v) by (intros; by apply lookup_replicate_2, dense_lt).
  unfold output_new, dense_set_new. split; cbn [fst snd].
  - split; cbn [mo_values mo_known]; by rewrite length_replicate.
  - by rewrite length_replicate.
  - intros c p Hp. rewrite decide_False by lia. unfold get_at_index. cbn [mo_values]. rewrite Hr by done. by destruct c.
  - intros p Hp. rewrite bool_decide_eq_false_2 by lia. cbn [mo_known]. by apply Hr.
  - intros p Hp. rewrite bool_decide_eq_false_2 by lia. by apply Hr.
Qed.

(** One more cell is visited. *)
Lemma visit_next p q : inside p → inside q → (dense q < Datatypes.S (dense p))%nat ↔ (dense q < dense p)%nat ∨ q = p.
Proof using Type. intros Hp Hq. rewrite Nat.lt_succ_r, Nat.le_lteq. split; intros [?|H]; auto; right; [by apply (dense_inj b)|by subst]. Qed.

Lemma copy_cell_spec s p acc : grounded blocks b s → inside p → copied s (dense p) acc →
  ∃ acc', copy_cell (fs_full s) acc (dense p, pad b p) = Some acc' ∧ copied s (Datatypes.S (dense p)) acc'.
Proof using Inputs.
  intros Hg Hp [H1 H2 H3 H4 H5]. pose proof (inside_padded b p Hp) as Hpp. destruct (proj1 Hg).
  assert (Hold : ∀ q, inside q → q ≠ p → (dense q < Datatypes.S (dense p))%nat ∧ cell q ↔ (dense q < dense p)%nat ∧ cell q).
  { intros q Hq Hne. rewrite (visit_next p q) by done. tauto. }
  unfold copy_cell. rewrite (pad_lookup b (fu_filter (fs_full s)) p BLOCKED) by done. cbn [mbind option_bind]. change (default BLOCKED _) with (fval b s p).
  destruct (Z.eqb_spec (fval b s p) BLOCKED) as [Hb|Hb].
  { apply (grounded_blocked blocks prior b s p Hg Hpp) in Hb. exists acc. split; [done|].
    assert (Hn : ∀ q, inside q → (dense q < Datatypes.S (dense p))%nat ∧ cell q ↔ (dense q < dense p)%nat ∧ cell q).
    { intros q Hq. destruct (decide (q = p)) as [->|]; [tauto|by apply Hold]. }
    split; [done|done|intros c q Hq; rewrite H3 by done; f_equal; apply decide_ext; symmetry; by apply Hn|..]; intros q Hq;
      rewrite (bool_decide_ext _ _ (Hn q Hq)); auto. }
  assert (Hc : cell p) by (apply dec_stable; intros Hn; by apply Hb, (grounded_blocked blocks prior b s p Hg Hpp)).
  assert (Hv : ∀ c, values c (fs_full s) !! pad b p = Some (val s c p)) by (intros c; by apply (pad_lookup b)).
  pose proof (Hv BlockLight) as Hvb. pose proof (Hv SkyLight) as Hvs. cbn [values] in Hvb, Hvs. rewrite Hvb. cbn [mbind option_bind].
  destruct (output_set acc.1 BlockLight p (val s BlockLight p) H1 Hp) as (o1 & -> & Ho1 & Hl1 & Hk1). cbn [mbind option_bind]. rewrite Hvs. cbn [mbind option_bind].
  destruct (output_set o1 SkyLight p (val s SkyLight p) Ho1 Hp) as (o2 & -> & Ho2 & Hl2 & Hk2). cbn [mbind option_bind].
  rewrite (pad_lookup b (fu_direct (fs_full s)) p false) by done. cbn [mbind option_bind]. change (default false _) with (fdir s p).
  set (present := if fdir s p then <[dense p := true]> acc.2 else acc.2).
  assert ((if fdir s p then insert_at_index acc.2 (dense p) else Some acc.2) = Some present) as ->.
  { unfold present, insert_at_index, set_slot. destruct (fdir s p); [|done]. rewrite decide_True; [done|]. rewrite H2. by apply dense_lt. }
  cbn [mbind option_bind]. eexists. split; [done|].
  assert (Hself : (dense p < Datatypes.S (dense p))%nat ∧ cell p) by (split; [lia|done]).
  split; cbn [fst snd]; [done|unfold present; destruct (fdir s p); by rewrite ?length_insert|..].
  - intros c q Hq. rewrite Hl2, Hl1, H3 by done. destruct (decide (q = p)) as [->|Hne].
    + rewrite (decide_True (P := (dense p < Datatypes.S (dense p))%nat ∧ cell p)) by done. destruct c; [rewrite decide_False by (by intros [? _]); by rewrite decide_True|by rewrite decide_True].
    + rewrite !(decide_False (P := _ ∧ q = p)) by tauto. f_equal. apply decide_ext. symmetry. by apply Hold.
  - intros q Hq. rewrite Hk2, Hk1, H4 by done. destruct (decide (q = p)) as [->|Hne]; [by rewrite bool_decide_eq_true_2|].
    by rewrite (bool_decide_ext _ _ (Hold q Hq Hne)).
  - intros q Hq. unfold present. destruct (decide (q = p)) as [->|Hne].
    + rewrite bool_decide_eq_true_2 by done. destruct (fdir s p) eqn:Ed; [rewrite list_lookup_insert_eq; [done|]; rewrite H2; by apply dense_lt|].
      rewrite H5 by done. by rewrite Ed, andb_false_r.
    + rewrite (bool_decide_ext _ _ (Hold q Hq Hne)). destruct (fdir s p); [|by apply H5].
      rewrite list_lookup_insert_ne by (intros E%(dense_inj b); [by subst|done..]). by apply H5.
Qed.

Lemma copy_out_spec s : grounded blocks b s → ∃ acc, copy_out b (volume_of b) (fs_full s) = Some acc ∧ copied s (volume_of b) acc.
Proof using Grid Inputs.
  intros Hg. unfold copy_out. fold visited.
  destruct (foldM_inv (copy_cell (fs_full s)) (λ pre acc, copied s (length pre) acc) (output_new (volume_of b), dense_set_new (volume_of b)) visited)
    as (acc & -> & Hacc); [apply copied_start| |exists acc; by rewrite <-visited_length].
  intros pre [index cell] post acc Hl Hacc. rewrite length_app. cbn [length].
  destruct (visited_lookup (length pre) index cell) as (-> & p & Hp & Hd & ->); [by rewrite Hl, list_lookup_middle|].
  rewrite Nat.add_1_r, <-Hd in *. by apply copy_cell_spec.
Qed.
End output.

(** ** What the full solve promises

    [solve_light_full_with_scratch] computes the solved light of its region, the light that
    [solve_light_with_scratch] computes, from buffers of any history. *)

Implicit Types (b : LightBounds) (p : BlockPos) (c : LightChannel) (limits : SolverLimits) (full : FullSolveScratch).

(** What a caller of the full solve sees to: a region that passes the limits has a padded grid of at most [2 ^ 32] cells, so
    that [cell as u32] loses nothing; the code does not look. *)
Record full_callable b limits full : Prop := {
  fc_bounds : valid_bounds b;
  fc_queue : 0 ≤ max_queue_entries limits;
  fc_cells v : checked_volume b limits = Ok v → Z.of_nat (volume_of (padded b)) ≤ 2 ^ 32;
  fc_buckets : length (fu_buckets full) = LEVELS;
}.

(** What a call returns: the light of the region, or an error with its reason; and buffers for the next call. *)
Definition full_result blocks prior b profile limits (call : option (result LightSolveError LightSolveOutput * FullSolveScratch)) : Prop :=
  ∃ r full', call = Some (r, full') ∧ length (fu_buckets full') = LEVELS ∧
    match r with Ok o => output_solved blocks prior b profile o | Err e => solve_error blocks prior b limits e end.

Section full.
Context (blocks : LightBlockAccess) (prior : LightReadAccess) (b : LightBounds) (profile : DimensionLightProfile).
Context `{Inputs : !LightInputs blocks prior}.

(** The grid at the end of the body, frozen. *)
Lemma full_output_solved s generation : grid_ok b → full_done blocks prior b profile s → ∃ acc o,
  copy_out b (volume_of b) (fs_full s) = Some acc ∧ freeze b acc.1 generation acc.2 (fs_stats s) = Some o ∧ output_solved blocks prior b profile o.
Proof using Inputs.
  intros Hb [Hg Hsol Hrange Hseeds]. destruct (copy_out_spec blocks prior b Hb s Hg) as (acc & Hc & Hacc). exists acc.
  assert (Hlt : ∀ p P, inside b p → (dense b p < volume_of b)%nat ∧ P ↔ P) by (intros p P Hp; pose proof (dense_lt b p Hp); tauto).
  destruct (output_of_field blocks prior b profile generation (fs_stats s) acc.1 acc.2 (val b s) (fdir b s)) as (o & Ho & ?);
    [done|apply Hacc|done|done| | | |by exists o].
  - intros c p Hp. split; [|by apply Hrange]. unfold held. rewrite (cp_light _ _ _ _ _ Hacc) by done. cbn [from_option id].
    rewrite (decide_ext _ (cell blocks b p)) by by apply Hlt. case_decide as Hd; [done|].
    destruct (Hsol p Hp) as [Hl _]. specialize (Hl c). unfold brightest in Hl. destruct (filter_of blocks p) as [f|] eqn:Ef; [|done].
    destruct Hd. split; [done|]. congruence.
  - intros p Hp. unfold known_at. rewrite (cp_known _ _ _ _ _ Hacc) by done. cbn [from_option id]. rewrite bool_decide_eq_true, Hlt by done. split; [by intros []|by split].
  - intros p Hp. rewrite (cp_direct _ _ _ _ _ Hacc) by done. cbn [from_option id]. case_bool_decide as Hd; [done|]. rewrite Hlt in Hd by done.
    destruct (fdir b s p) eqn:Ed; [|done]. destruct Hd. split; [done|]. destruct (Hsol p Hp) as [_ Hdir]. apply Hdir in Ed.
    destruct (direct_facts _ _ _ _ _ Ed) as (_ & _ & Hf). unfold LightField.filter_of in *. congruence.
Qed.
End full.

Lemma full_solve_result blocks prior b generation profile limits full : LightInputs blocks prior → LightSections blocks b → full_callable b limits full →
  full_result blocks prior b profile limits (solve_light_full_with_scratch blocks prior b generation profile limits full).
Proof.
  intros HI HS []. unfold full_result, solve_light_full_with_scratch. destruct (checked_volume b limits) as [v|e] eqn:Ev.
  2:{ exists (Err e), full. split; [done|]. split; [done|]. revert Ev. unfold checked_volume.
      destruct (bounds_volume b) as [w|] eqn:Eb.
      - destruct (Z.ltb_spec (max_voxels limits) w); [|done]. intros [= <-]. simpl. auto.
      - intros [= <-]. simpl. auto. }
  destruct (checked_volume_ok b limits v fc_bounds0 Ev) as (Hgrid & -> & Hvol & _). cbv zeta. rewrite Hvol.
  pose proof (ewp_full_body blocks prior b profile (max_queue_entries limits) Hgrid (fc_cells0 _ eq_refl) fc_queue0 full stats_default
    (λ _ s, full_done blocks prior b profile s ∧ length (fu_buckets (fs_full s)) = LEVELS) fc_buckets0) as Hw.
  forward Hw; [intros s Hs; split; [done|apply (fd_ground _ _ _ _ _ Hs)]|]. unfold ewp in Hw.
  destruct (full_body _ _ _ _ _ _) as [[[[]|e] s]|]; [| |done]; cbn [mbind option_bind].
  - destruct Hw as [Hdone Hlen]. destruct (full_output_solved blocks prior b profile s generation Hgrid Hdone) as ([out d] & o & -> & Hf & Ho). cbn [mbind option_bind].
    cbn [fst snd] in Hf. rewrite Hf. cbn [mbind option_bind]. by exists (Ok o), (fs_full s).
  - exists (Err e), (fs_full s). split; [done|]. destruct Hw as [He Hs]. split; [done|]. by destruct e.
Qed.


(** The example of [LightResults]. *)
Lemma demo_sections block : LightSections (demo_blocks block) demo_bounds.
Proof.
  split; [|done]. intros p. unfold filter_of. simpl. rewrite negb_true_iff, bool_decide_eq_false.
  destruct (decide (p = mk_pos 0 0 0)); [by destruct block|]. by destruct (decide (p = mk_pos 0 1 0)).
Qed.
Lemma demo_full_callable : full_callable demo_bounds demo_limits full_default.
Proof. split; [by split_and!|done|by intros _ _; vm_compute|done]. Qed.

Example demo_full_levels : match solve_light_full_with_scratch demo_torch EmptyLight demo_bounds 1 demo_profile demo_limits full_default with
  | Some (Ok o, _) => (λ p, (light_at o p BlockLight, light_at o p SkyLight)) <$> [mk_pos 0 0 0; mk_pos 0 1 0] = [(14, 14); (13, 15)] | _ => False end.
Proof. vm_compute. reflexivity. Qed.

(** ** Properties *)

(** C8: for a region that is over the voxel limit, or whose grid, padded by one cell on every side, has at most 2^32
    cells (the code truncates cell numbers to u32 without a check), a full solve returns the light of the region, the
    field with the brightest level that reaches each cell and the cells the sky reaches straight down, computed from
    the blocks and the halo alone; or it fails for a value out of range that it read, a region over the voxel limit,
    or a queue limit under 35 entries a cell. It does not panic, its loops end, and its buffers serve the next call. *)
Theorem full_solve_correct blocks prior b generation profile limits full : LightInputs blocks prior → LightSections blocks b → full_callable b limits full →
  full_result blocks prior b profile limits (solve_light_full_with_scratch blocks prior b generation profile limits full).
Proof. intros. by apply full_solve_result. Qed.

Lemma full_solve_correct_witness : full_callable demo_bounds demo_limits full_default ∧
  full_result demo_torch EmptyLight demo_bounds demo_profile demo_limits
    (solve_light_full_with_scratch demo_torch EmptyLight demo_bounds 1 demo_profile demo_limits full_default).
Proof. split; [apply demo_full_callable|]. exact (full_solve_correct _ _ _ _ _ _ _ demo_torch_inputs (demo_sections _) demo_full_callable). Defined.


