(* ===== verification/BlobStore.v ===== *)
(** * The client blob cache

    [protocol/src/blob_cache.rs]: the content-addressed cache of chunk bodies, with pins for bodies that pending packets
    need, byte accounts and an eviction of the least recently used bodies. [xxh64] is a parameter. An [Arc<[u8]>] is
    its bytes; the optional disk tier is told about bodies and accesses and answers through [admit] only. *)
From stdpp Require Import base numbers list gmap sets sorting.
From S2P Require Import Prelude Counting Effects.
#[local] Open Scope Z_scope.

Definition MAX_CLIENT_BLOB_CACHE_ENTRIES : Z := 65536.
Definition CLIENT_BLOB_CACHE_TRIM_TRIGGER_BYTES : Z := 100 * 1024 * 1024.
Definition CLIENT_BLOB_CACHE_TRIM_FLOOR_BYTES : Z := 80 * 1024 * 1024.
Definition MAX_CLIENT_BLOB_PENDING_BYTES : Z := 64 * 1024 * 1024.
Definition MAX_CLIENT_BLOB_PINNED_BYTES : Z := MAX_CLIENT_BLOB_PENDING_BYTES.

Record BlobCacheLimits := mk_blob_limits { trim_trigger_bytes : Z; trim_floor_bytes : Z }.
Definition blob_limits_default : BlobCacheLimits := mk_blob_limits CLIENT_BLOB_CACHE_TRIM_TRIGGER_BYTES CLIENT_BLOB_CACHE_TRIM_FLOOR_BYTES.

Inductive BlobCacheError :=
  | InvalidLevelChunkHashCount (actual expected : Z) | InvalidLevelChunkCount (count : Z) | NotCachedPacket | UnsolicitedBlob (hash : Z)
  | HashMismatch (claimed actual : Z) | ConflictingDuplicate (hash : Z) | MissingResolvedBlob (hash : Z) | PinnedPayloadPressure
  | CacheEntryPressure | ByteCountOverflow | OrdinaryLaneFull (events bytes max_events max_bytes : Z).

Notation Blob := (list Z).
Definition blob_len (payload : Blob) : Z := Z.of_nat (length payload).

Record CacheEntry := mk_cache_entry { ce_payload : Blob; ce_last_used : Z }.
Record CacheStore := mk_cache_store {
  cs_entries : gmap Z CacheEntry; cs_pins : gmap Z Z; cs_total_bytes : Z; cs_pinned_bytes : Z; cs_trim_pending : bool; cs_clock : Z }.
Definition cache_default : CacheStore := mk_cache_store ∅ ∅ 0 0 false 0.

Definition C : Type → Type := Eff CacheStore BlobCacheError.

Definition entry_count (s : CacheStore) : Z := Z.of_nat (size (cs_entries s)).
(** [get(&hash).map_or(0, |entry| entry.payload.len())] *)
Definition entry_len (hash : Z) (s : CacheStore) : Z := from_option (λ entry, blob_len (ce_payload entry)) 0 (cs_entries s !! hash).
Definition is_pinned (hash : Z) (s : CacheStore) : bool := bool_decide (is_Some (cs_pins s !! hash)).
Definition contains (hash : Z) (s : CacheStore) : bool := bool_decide (is_Some (cs_entries s !! hash)).

(** [ok_or(error)] on a computation that may overflow *)
Definition ok_or {St A} (o : option A) (e : BlobCacheError) : Eff St BlobCacheError A := match o with Some a => mret a | None => eff_throw e end.

(** ** Access *)

(** The clock advances and stamps a present entry. *)
Definition stamp (hash : Z) (entry : CacheEntry) (s : CacheStore) : CacheStore :=
  let clock := sat_add (cs_clock s) 1 in
  mk_cache_store (<[hash := mk_cache_entry (ce_payload entry) clock]> (cs_entries s)) (cs_pins s) (cs_total_bytes s) (cs_pinned_bytes s) (cs_trim_pending s) clock.

(** [ClientBlobCache::get]: the clock advances for an absent hash too. *)
Definition get (hash : Z) : C (option Blob) := λ s,
  match cs_entries s !! hash with
  | Some entry => Some (Ok (Some (ce_payload entry)), stamp hash entry s)
  | None => Some (Ok None, mk_cache_store (cs_entries s) (cs_pins s) (cs_total_bytes s) (cs_pinned_bytes s) (cs_trim_pending s) (sat_add (cs_clock s) 1))
  end.

(** The count is a usize in the source; between calls of the resolver it is at most the number of pending transactions
    (theorem [resolver_runs]), so the increment does not overflow. *)
Definition pin (hash : Z) (s : CacheStore) : CacheStore :=
  mk_cache_store (cs_entries s) (<[hash := from_option id 0 (cs_pins s !! hash) + 1]> (cs_pins s)) (cs_total_bytes s)
    (if is_pinned hash s then cs_pinned_bytes s else sat_add (cs_pinned_bytes s) (entry_len hash s)) (cs_trim_pending s) (cs_clock s).

Definition classify_one (pin_it : bool) (acc : list Z * list Z * Z * CacheStore) (hash : Z) : list Z * list Z * Z * CacheStore :=
  let '(have, missing, staged_bytes, s) := acc in
  let '(have, missing, staged_bytes, s) :=
    match cs_entries s !! hash with
    | Some entry => (have ++ [hash], missing, sat_add staged_bytes (blob_len (ce_payload entry)), stamp hash entry s)
    | None => (have, missing ++ [hash], staged_bytes, s)
    end in
  (have, missing, staged_bytes, if pin_it then pin hash s else s).
(** [ClientBlobCache::classify] *)
Definition classify (hashes : list Z) (pin_them : bool) : C (list Z * list Z * Z) := λ s,
  let '(have, missing, staged_bytes, s) := foldl (classify_one pin_them) ([], [], 0, s) hashes in Some (Ok (have, missing, staged_bytes), s).

Definition unpin (limits : BlobCacheLimits) (s : CacheStore) (hash : Z) : CacheStore :=
  match cs_pins s !! hash with
  | None => s
  | Some count =>
    let count := sat_sub count 1 in
    if negb (count =? 0) then
      mk_cache_store (cs_entries s) (<[hash := count]> (cs_pins s)) (cs_total_bytes s) (cs_pinned_bytes s) (cs_trim_pending s) (cs_clock s)
    else
      let payload_len := entry_len hash s in
      let pins := delete hash (cs_pins s) in
      let pinned_bytes := sat_sub (cs_pinned_bytes s) payload_len in
      if cs_trim_pending s then
        let entries := delete hash (cs_entries s) in
        let total_bytes := sat_sub (cs_total_bytes s) payload_len in
        let floor := Z.min (trim_floor_bytes limits) (trim_trigger_bytes limits) in
        mk_cache_store entries pins total_bytes pinned_bytes
          ((floor <? total_bytes) || (MAX_CLIENT_BLOB_CACHE_ENTRIES / 2 <? Z.of_nat (size entries))) (cs_clock s)
      else mk_cache_store (cs_entries s) pins (cs_total_bytes s) pinned_bytes false (cs_clock s)
  end.
(** [ClientBlobCache::unpin_all] *)
Definition unpin_all (limits : BlobCacheLimits) (hashes : list Z) (s : CacheStore) : CacheStore := foldl (unpin limits) s hashes.

(** ** Eviction *)

Definition victim_le (a b : Z * Z) : Prop := a.1 < b.1 ∨ a.1 = b.1 ∧ a.2 ≤ b.2.
#[export] Instance victim_le_dec : RelDecision victim_le.
Proof. intros a b. unfold victim_le. apply _. Defined.

(** The candidates, oldest first. *)
Definition victims (inserted_hash : Z) (s : CacheStore) : list (Z * Z) :=
  merge_sort victim_le
    ((λ '(candidate, entry), (ce_last_used entry, candidate)) <$>
      filter (λ '(candidate, _), candidate ≠ inserted_hash ∧ is_pinned candidate s = false) (map_to_list (cs_entries s))).

Definition remove_entry (hash : Z) (removed : CacheEntry) (s : CacheStore) : CacheStore :=
  mk_cache_store (delete hash (cs_entries s)) (cs_pins s) (sat_sub (cs_total_bytes s) (blob_len (ce_payload removed))) (cs_pinned_bytes s)
    (cs_trim_pending s) (cs_clock s).
Fixpoint evict (floor entry_floor : Z) (victims : list (Z * Z)) (s : CacheStore) : option CacheStore :=
  match victims with
  | [] => Some s
  | (_, hash) :: victims =>
    if (cs_total_bytes s <=? floor) && (entry_count s <=? entry_floor) then Some s
    else removed ← cs_entries s !! hash; evict floor entry_floor victims (remove_entry hash removed s)
  end.

Definition set_trim_pending (pending : bool) (s : CacheStore) : CacheStore :=
  mk_cache_store (cs_entries s) (cs_pins s) (cs_total_bytes s) (cs_pinned_bytes s) pending (cs_clock s).
Definition trim_if_needed (limits : BlobCacheLimits) (inserted_hash : Z) : C Z := λ s,
  let entry_pressure := MAX_CLIENT_BLOB_CACHE_ENTRIES <=? entry_count s in
  let byte_pressure := trim_trigger_bytes limits <? cs_total_bytes s in
  if negb entry_pressure && negb byte_pressure then Some (Ok 0, s)
  else
    let floor := if byte_pressure then Z.min (trim_floor_bytes limits) (trim_trigger_bytes limits) else cs_total_bytes s in
    let entry_floor := if entry_pressure then MAX_CLIENT_BLOB_CACHE_ENTRIES / 2 else entry_count s in
    let examined := entry_count s in
    s ← evict floor entry_floor (victims inserted_hash s) s;
    Some (Ok examined,
      set_trim_pending ((trim_trigger_bytes limits <? cs_total_bytes s) || (MAX_CLIENT_BLOB_CACHE_ENTRIES <=? entry_count s)) s).

(** ** Insertion *)

Definition insert_entry (hash : Z) (payload : Blob) (total_bytes pinned_bytes : Z) (s : CacheStore) : CacheStore :=
  let clock := sat_add (cs_clock s) 1 in
  mk_cache_store (<[hash := mk_cache_entry payload clock]> (cs_entries s)) (cs_pins s) total_bytes pinned_bytes (cs_trim_pending s) clock.

Definition make_room (limits : BlobCacheLimits) (hash : Z) : C unit :=
  s ← eff_gets id;
  if MAX_CLIENT_BLOB_CACHE_ENTRIES <=? entry_count s then
    _ ← trim_if_needed limits hash;
    s ← eff_gets id;
    if MAX_CLIENT_BLOB_CACHE_ENTRIES <=? entry_count s then eff_throw CacheEntryPressure else mret tt
  else mret tt.

Definition projected_pins (hash : Z) (payload : Blob) (s : CacheStore) : C Z :=
  if is_pinned hash s then
    let projected := sat_add (cs_pinned_bytes s) (blob_len payload) in
    if MAX_CLIENT_BLOB_PINNED_BYTES <? projected then eff_throw PinnedPayloadPressure else mret projected
  else mret (cs_pinned_bytes s).

Definition insert_shared (limits : BlobCacheLimits) (hash : Z) (payload : Blob) : C unit :=
  s ← eff_gets id;
  match cs_entries s !! hash with
  | Some existing => if bool_decide (ce_payload existing = payload) then mret tt else eff_throw (ConflictingDuplicate hash)
  | None =>
    _ ← make_room limits hash;
    s ← eff_gets id;
    total_bytes ← ok_or (checked_add (cs_total_bytes s) (blob_len payload)) ByteCountOverflow;
    pinned_bytes ← projected_pins hash payload s;
    _ ← eff_modify (insert_entry hash payload total_bytes pinned_bytes);
    _ ← trim_if_needed limits hash;
    mret tt
  end.

Definition insert_verified (limits : BlobCacheLimits) (hash : Z) (payload : Blob) : C unit :=
  s ← eff_gets id;
  match cs_entries s !! hash with
  | Some existing => if bool_decide (ce_payload existing = payload) then mret tt else eff_throw (ConflictingDuplicate hash)
  | None => insert_shared limits hash payload
  end.

Section hashed.
Context (xxh64 : Blob → Z).
Definition client_blob_hash (payload : Blob) : Z := xxh64 payload.

(** [ClientBlobCache::insert] *)
Definition cache_insert (limits : BlobCacheLimits) (payload : Blob) : C Z :=
  let hash := client_blob_hash payload in
  _ ← insert_verified limits hash payload;
  mret hash.

(** [WeakClientBlobCache::admit], the cache being alive *)
Definition admit_blob (limits : BlobCacheLimits) (hash : Z) (payload : Blob) : C bool :=
  let actual := client_blob_hash payload in
  if negb (actual =? hash) then eff_throw (HashMismatch hash actual)
  else
    s ← eff_gets id;
    if contains hash s || is_pinned hash s then mret false
    else if trim_trigger_bytes limits <? blob_len payload then mret false
    else _ ← insert_shared limits hash payload; mret true.
End hashed.

(** ** A response's delta *)

Definition validate_one (s : CacheStore) (acc : Z * Z * Z) (blob : Z * Blob) : result BlobCacheError (Z * Z * Z) :=
  let '(total_bytes, pinned_bytes, new_entries) := acc in let '(hash, payload) := blob in
  match cs_entries s !! hash with
  | Some existing => if bool_decide (ce_payload existing = payload) then Ok acc else Err (ConflictingDuplicate hash)
  | None =>
    match checked_add total_bytes (blob_len payload) with
    | None => Err ByteCountOverflow
    | Some total_bytes =>
      if is_pinned hash s then
        let pinned_bytes := sat_add pinned_bytes (blob_len payload) in
        if MAX_CLIENT_BLOB_PINNED_BYTES <? pinned_bytes then Err PinnedPayloadPressure else Ok (total_bytes, pinned_bytes, new_entries + 1)
      else Ok (total_bytes, pinned_bytes, new_entries + 1)
    end
  end.
Fixpoint validate_all (s : CacheStore) (acc : Z * Z * Z) (unique : list (Z * Blob)) : result BlobCacheError (Z * Z * Z) :=
  match unique with [] => Ok acc | blob :: unique => acc ← validate_one s acc blob; validate_all s acc unique end.

Definition pinned_entries (s : CacheStore) : gset Z := dom (cs_entries s) ∩ dom (cs_pins s).
(** [validate_delta] of [resolver/miss_response.rs] *)
Definition validate_delta (s : CacheStore) (unique : list (Z * Blob)) : result BlobCacheError Z :=
  '(_, _, new_entries) ← validate_all s (cs_total_bytes s, cs_pinned_bytes s, 0) unique;
  if (MAX_CLIENT_BLOB_CACHE_ENTRIES <? sat_add (Z.of_nat (size (cs_pins s))) new_entries)
     && (MAX_CLIENT_BLOB_CACHE_ENTRIES <? sat_add (Z.of_nat (size (pinned_entries s))) new_entries)
  then Err CacheEntryPressure else Ok new_entries.
