(* ===== verification/BlobStoreSpec.v ===== *)
(** * The blob cache keeps its accounts

    The invariant of [BlobStore]: byte totals are the sums they stand for, the cache stays within its trigger or holds
    pinned bodies only, and eviction takes the least recently used bodies that nothing pins. *)
From stdpp Require Import base numbers list gmap sets sorting.
From Stdlib Require Import Sorted.
From S2P Require Import Prelude Effects Counting BlobStore.
#[local] Open Scope Z_scope.

Implicit Types (s : CacheStore) (m : gmap Z CacheEntry) (pins : gmap Z Z) (hash k : Z) (limits : BlobCacheLimits) (payload : Blob).

Definition body_len (_ : Z) (entry : CacheEntry) : Z := blob_len (ce_payload entry).
Definition bytes_of m : Z := map_sum body_len m.
Definition pinned_len pins (hash : Z) (entry : CacheEntry) : Z := if decide (is_Some (pins !! hash)) then blob_len (ce_payload entry) else 0.
Definition pinned_of pins m : Z := map_sum (pinned_len pins) m.

Lemma blob_len_nonneg payload : 0 ≤ blob_len payload.
Proof. unfold blob_len. lia. Qed.
Lemma body_len_nonneg k e : 0 ≤ body_len k e.
Proof. apply blob_len_nonneg. Qed.
Lemma pinned_len_range pins k e : 0 ≤ pinned_len pins k e ≤ body_len k e.
Proof. unfold pinned_len, body_len. pose proof (blob_len_nonneg (ce_payload e)). case_decide; lia. Qed.
Create HintDb blob.
#[export] Hint Resolve blob_len_nonneg body_len_nonneg : blob.

Lemma bytes_of_nonneg m : 0 ≤ bytes_of m.
Proof. apply map_sum_nonneg. intros. apply body_len_nonneg. Qed.
Lemma pinned_le_bytes pins m : 0 ≤ pinned_of pins m ≤ bytes_of m.
Proof. split; [apply map_sum_nonneg|apply map_sum_le]; intros; apply pinned_len_range. Qed.

Lemma is_pinned_true hash s : is_pinned hash s = true ↔ is_Some (cs_pins s !! hash).
Proof. apply bool_decide_eq_true. Qed.
Lemma is_pinned_false hash s : is_pinned hash s = false ↔ cs_pins s !! hash = None.
Proof. unfold is_pinned. rewrite bool_decide_eq_false. symmetry. apply eq_None_not_Some. Qed.

(** Limits are sizes. *)
Record limits_ok limits : Prop := { lo_trigger : 0 ≤ trim_trigger_bytes limits; lo_floor : 0 ≤ trim_floor_bytes limits }.

(** The accounts agree with the bodies. *)
Record accounts s : Prop := {
  ac_total : cs_total_bytes s = bytes_of (cs_entries s);
  ac_max : cs_total_bytes s ≤ USIZE_MAX;
  ac_pinned : cs_pinned_bytes s = pinned_of (cs_pins s) (cs_entries s);
  ac_pins k n : cs_pins s !! k = Some n → 1 ≤ n;
  ac_clock : 0 ≤ cs_clock s ≤ USIZE_MAX;
  ac_stamps k e : cs_entries s !! k = Some e → ce_last_used e ≤ cs_clock s;
}.

(** Every body is pinned, but perhaps one. *)
Definition all_pinned_but s hash : Prop := ∀ k e, cs_entries s !! k = Some e → is_Some (cs_pins s !! k) ∨ k = hash.
Definition within limits s : Prop := cs_total_bytes s ≤ trim_trigger_bytes limits ∧ entry_count s < MAX_CLIENT_BLOB_CACHE_ENTRIES.

Record store_ok limits s : Prop := {
  so_accounts : accounts s;
  so_size : entry_count s ≤ MAX_CLIENT_BLOB_CACHE_ENTRIES;
  so_bound : within limits s ∨ cs_trim_pending s = true ∧ ∃ hash, all_pinned_but s hash;
}.

Lemma cache_default_ok limits : limits_ok limits → store_ok limits cache_default.
Proof.
  intros []. split; [split; simpl|done|]; try done.
  left. split; [simpl; lia|done].
Qed.

(** ** Access *)

Lemma sat_add_small a b : a + b ≤ USIZE_MAX → sat_add a b = a + b.
Proof. unfold sat_add. lia. Qed.
Lemma sat_sub_small a b : b ≤ a → sat_sub a b = a - b.
Proof. unfold sat_sub. lia. Qed.

Lemma clock_step s : 0 ≤ cs_clock s ≤ USIZE_MAX → 0 ≤ sat_add (cs_clock s) 1 ≤ USIZE_MAX ∧ cs_clock s ≤ sat_add (cs_clock s) 1.
Proof. unfold sat_add, USIZE_MAX. lia. Qed.

(** A touched entry weighs what it did. *)
Lemma stamp_accounts hash entry s : accounts s → cs_entries s !! hash = Some entry → accounts (stamp hash entry s).
Proof.
  intros [Ht Hm Hp Hn Hc Hs] He. pose proof (clock_step s Hc) as [Hc' Hc'']. split; simpl; [| |rewrite Hp| |done|].
  - rewrite Ht. unfold bytes_of. rewrite (map_sum_update _ _ _ _ _ He). unfold body_len. simpl. lia.
  - done.
  - unfold pinned_of. rewrite (map_sum_update _ _ _ _ _ He). unfold pinned_len. simpl. lia.
  - done.
  - intros k e [[<- <-]|[_ Hk]]%lookup_insert_Some; [simpl; lia|]. specialize (Hs k e Hk). lia.
Qed.

Lemma stamp_count hash entry s : cs_entries s !! hash = Some entry → entry_count (stamp hash entry s) = entry_count s.
Proof. intros He. unfold entry_count. simpl. by rewrite map_size_insert_Some by (by exists entry || done). Qed.

Lemma stamp_ok limits hash entry s : store_ok limits s → cs_entries s !! hash = Some entry → store_ok limits (stamp hash entry s).
Proof.
  intros [Ha Hs Hb] He. split; [by apply stamp_accounts|by rewrite stamp_count|]. unfold within. rewrite stamp_count by done.
  destruct Hb as [?|(Hp & h & Hh)]; [by left|right]. split; [done|]. exists h. intros k e. simpl. intros [[<- _]|[_ Hk]]%lookup_insert_Some; [by apply (Hh _ _ He)|by apply (Hh _ _ Hk)].
Qed.

Lemma get_ok limits hash s : store_ok limits s → ∃ s', get hash s = Some (Ok (ce_payload <$> cs_entries s !! hash), s') ∧ store_ok limits s' ∧
  cs_pins s' = cs_pins s ∧ (∀ k, ce_payload <$> cs_entries s' !! k = ce_payload <$> cs_entries s !! k).
Proof.
  intros Hs. unfold get. destruct (cs_entries s !! hash) as [entry|] eqn:He; simpl; eexists; (split; [done|]).
  - split; [by apply stamp_ok|]. split; [done|]. intros k. simpl. destruct (decide (k = hash)) as [->|]; [by rewrite lookup_insert_eq, He|by rewrite lookup_insert_ne].
  - split; [|done]. destruct Hs as [[Ht Hm Hp Hn Hc Hst] Hs Hb]. pose proof (clock_step s Hc) as [? ?]. split; [split|done|done]; try done.
    intros k e Hk. specialize (Hst k e Hk). simpl. lia.
Qed.

(** ** Pins *)

Lemma pinned_of_pin pins m hash n : pins !! hash = None → pinned_of (<[hash := n]> pins) m = pinned_of pins m + from_option (body_len hash) 0 (m !! hash).
Proof.
  intros Hn. assert (Hother : ∀ m', m' !! hash = None → pinned_of (<[hash := n]> pins) m' = pinned_of pins m').
  { intros m' Hm'. apply map_sum_ext. intros k e Hk. unfold pinned_len. rewrite lookup_insert_ne by congruence. done. }
  destruct (m !! hash) as [e|] eqn:He; simpl; [|rewrite Hother by done; lia].
  unfold pinned_of in *. rewrite !(map_sum_delete _ m hash e) by done. rewrite Hother by apply lookup_delete_eq.
  unfold pinned_len at 1 3, body_len. rewrite decide_True by (rewrite lookup_insert_eq; by eexists). rewrite decide_False by (rewrite Hn; apply is_Some_None). lia.
Qed.

Lemma pinned_of_repin pins m hash n n' : pins !! hash = Some n → pinned_of (<[hash := n']> pins) m = pinned_of pins m.
Proof.
  intros Hn. apply map_sum_ext. intros k e Hk. unfold pinned_len. destruct (decide (k = hash)) as [->|]; [|by rewrite lookup_insert_ne].
  rewrite lookup_insert_eq, Hn. by rewrite !decide_True.
Qed.

Lemma entry_len_eq hash s : entry_len hash s = from_option (body_len hash) 0 (cs_entries s !! hash).
Proof. done. Qed.

Lemma pin_ok limits hash s : store_ok limits s → store_ok limits (pin hash s).
Proof.
  intros [[Ht Hm Hp Hn Hc Hst] Hs Hb]. split; [split|done|]; simpl; try done.
  - destruct (is_pinned hash s) eqn:E.
    + apply is_pinned_true in E as [n E]. by rewrite (pinned_of_repin _ _ _ n).
    + apply is_pinned_false in E. rewrite pinned_of_pin, <-Hp, entry_len_eq by done. apply sat_add_small.
      rewrite Hp, <-(pinned_of_pin _ _ _ 1) by done. pose proof (pinned_le_bytes (<[hash := 1]> (cs_pins s)) (cs_entries s)). lia.
  - intros k n [[<- <-]|[_ Hk]]%lookup_insert_Some; [|by eapply Hn]. destruct (cs_pins s !! hash) as [n|] eqn:E; simpl; [|lia]. specialize (Hn _ _ E). lia.
  - destruct Hb as [?|(? & h & Hh)]; [by left|right]. split; [done|]. exists h. intros k e Hk. specialize (Hh k e Hk). simpl.
    destruct (decide (k = hash)) as [->|]; [left; rewrite lookup_insert_eq; by eexists|by rewrite lookup_insert_ne].
Qed.

Lemma pin_payloads (b : bool) hash s k : ce_payload <$> cs_entries (if b then pin hash s else s) !! k = ce_payload <$> cs_entries s !! k.
Proof. by destruct b. Qed.

(** How many holders a hash has. *)
Definition pin_count s hash : Z := from_option id 0 (cs_pins s !! hash).

Lemma pin_pin_count hash s k : pin_count (pin hash s) k = pin_count s k + (if decide (k = hash) then 1 else 0).
Proof. unfold pin_count. simpl. case_decide as E; [subst; by rewrite lookup_insert_eq|rewrite lookup_insert_ne by done; lia]. Qed.

Lemma same_payloads_present s s' k : (∀ k, ce_payload <$> cs_entries s' !! k = ce_payload <$> cs_entries s !! k) →
  is_Some (cs_entries s' !! k) ↔ is_Some (cs_entries s !! k).
Proof. intros H. specialize (H k). destruct (cs_entries s' !! k), (cs_entries s !! k); simpl in H; try done; by split. Qed.

(** What classification reports: the present and the absent hashes in order. It pins each hash once. *)
Record classified (pin_them : bool) s (hashes have missing : list Z) s' : Prop := {
  cl_have h : h ∈ have ↔ h ∈ hashes ∧ is_Some (cs_entries s !! h);
  cl_missing h : h ∈ missing ↔ h ∈ hashes ∧ cs_entries s !! h = None;
  cl_length : (length have + length missing = length hashes)%nat;
  cl_payloads k : ce_payload <$> cs_entries s' !! k = ce_payload <$> cs_entries s !! k;
  cl_nodup : NoDup hashes → NoDup missing;
  cl_pins k : NoDup hashes → pin_count s' k = pin_count s k + (if decide (pin_them = true ∧ k ∈ hashes) then 1 else 0);
}.

Lemma classify_ok limits hashes (pin_them : bool) s : store_ok limits s → ∃ have missing staged_bytes s',
  classify hashes pin_them s = Some (Ok (have, missing, staged_bytes), s') ∧ store_ok limits s' ∧ classified pin_them s hashes have missing s'.
Proof.
  intros Hs. unfold classify.
  assert (∃ have missing staged_bytes s', foldl (classify_one pin_them) ([], [], 0, s) hashes = (have, missing, staged_bytes, s') ∧
    store_ok limits s' ∧ classified pin_them s hashes have missing s') as (have & missing & staged & s' & -> & ? & ?); [|by eauto 10].
  induction hashes as [|hash hashes IH] using rev_ind.
  { exists [], [], 0, s. split; [done|]. split; [done|]. split; try done.
    - intros h. split; [intros H; by apply elem_of_nil in H|intros [H _]; by apply elem_of_nil in H].
    - intros h. split; [intros H; by apply elem_of_nil in H|intros [H _]; by apply elem_of_nil in H].
    - intros k _. rewrite decide_False; [lia|]. intros [_ H]. by apply elem_of_nil in H. }
  destruct IH as (have & missing & staged & s1 & Hf & Hok & [Hh Hm Hl Hp Hnd Hc]). rewrite foldl_app, Hf. cbn [foldl classify_one].
  pose proof (same_payloads_present s s1 hash Hp) as Hpres.
  assert (Hpins : ∀ k s2, NoDup (hashes ++ [hash]) → cs_pins s2 = cs_pins s1 →
    pin_count (if pin_them then pin hash s2 else s2) k = pin_count s k + (if decide (pin_them = true ∧ k ∈ hashes ++ [hash]) then 1 else 0)).
  { intros k s2 Hn Hs2. apply NoDup_app in Hn as (Hn1 & Hd & _). assert (Hnot : hash ∉ hashes) by (intros Hin; apply (Hd _ Hin); by left).
    assert (He : pin_count s2 k = pin_count s1 k) by (unfold pin_count; by rewrite Hs2). specialize (Hc k Hn1).
    destruct pin_them; [rewrite pin_pin_count, He, Hc|rewrite He, Hc; rewrite !decide_False by (by intros [? _]); done].
    destruct (decide (k = hash)) as [->|Hne].
    - rewrite decide_False by (by intros [_ ?]). rewrite decide_True; [lia|]. split; [done|]. apply elem_of_app. right. by apply list_elem_of_singleton.
    - rewrite Z.add_0_r. f_equal. apply decide_ext. rewrite elem_of_app, list_elem_of_singleton. tauto. }
  assert (Hnodup : NoDup (hashes ++ [hash]) → NoDup hashes ∧ hash ∉ hashes).
  { intros (Hn1 & Hd & _)%NoDup_app. split; [done|]. intros Hin. apply (Hd _ Hin). by left. }
  destruct (cs_entries s1 !! hash) as [entry|] eqn:He.
  - assert (is_Some (cs_entries s !! hash)) as Hsome by (apply Hpres; by eexists). do 4 eexists. split; [done|]. split; [destruct pin_them; [apply pin_ok|]; by apply stamp_ok|].
    split.
    + intros h. rewrite !elem_of_app, !list_elem_of_singleton, Hh. naive_solver.
    + intros h. rewrite elem_of_app, list_elem_of_singleton, Hm. split; [tauto|]. intros [[?| ->] Hn]; [done|]. rewrite Hn in Hsome. by destruct Hsome.
    + rewrite !length_app. simpl. lia.
    + intros k. rewrite pin_payloads, <-Hp. simpl. destruct (decide (k = hash)) as [->|]; [by rewrite lookup_insert_eq, He|by rewrite lookup_insert_ne].
    + intros Hn. by apply Hnd, Hnodup.
    + intros k Hn. by apply Hpins.
  - assert (cs_entries s !! hash = None) as Hnone by (apply eq_None_not_Some; rewrite <-Hpres; by intros [? ?]). do 4 eexists. split; [done|].
    split; [destruct pin_them; [by apply pin_ok|done]|]. split.
    + intros h. rewrite elem_of_app, list_elem_of_singleton, Hh. split; [tauto|]. intros [[?| ->] Hn]; [done|]. rewrite Hnone in Hn. by destruct Hn.
    + intros h. rewrite !elem_of_app, !list_elem_of_singleton, Hm. naive_solver.
    + rewrite !length_app. simpl. lia.
    + intros k. by rewrite pin_payloads, Hp.
    + intros Hn. destruct (Hnodup Hn) as [Hn1 Hni]. apply NoDup_app. split; [by apply Hnd|]. split; [|apply NoDup_singleton].
      intros h Hin ->%list_elem_of_singleton. by apply Hm in Hin as [? _].
    + intros k Hn. by apply Hpins.
Qed.

(** ** Unpinning *)

Lemma pinned_of_unpin pins m hash n : pins !! hash = Some n → pinned_of (delete hash pins) m = pinned_of pins m - from_option (body_len hash) 0 (m !! hash).
Proof.
  intros Hn. rewrite <-(insert_delete_id pins hash n) at 2 by done. rewrite pinned_of_pin by apply lookup_delete_eq. lia.
Qed.

Lemma pinned_of_drop pins m hash e : pins !! hash = None → m !! hash = Some e → pinned_of pins (delete hash m) = pinned_of pins m.
Proof.
  intros Hn He. unfold pinned_of. rewrite (map_sum_delete _ m hash e) by done. unfold pinned_len at 2. rewrite decide_False; [lia|]. rewrite Hn. apply is_Some_None.
Qed.

Lemma bytes_of_drop m hash : bytes_of (delete hash m) = bytes_of m - from_option (body_len hash) 0 (m !! hash).
Proof.
  unfold bytes_of. destruct (m !! hash) as [e|] eqn:He; simpl; [rewrite (map_sum_delete _ m hash e) by done; lia|]. rewrite delete_id by done. lia.
Qed.

Lemma entry_len_le hash s : from_option (body_len hash) 0 (cs_entries s !! hash) ≤ bytes_of (cs_entries s).
Proof.
  destruct (cs_entries s !! hash) as [e|] eqn:He; simpl; [|apply bytes_of_nonneg]. apply (map_sum_lookup_le body_len _ hash e); [intros; apply body_len_nonneg|done].
Qed.

Lemma unpin_ok limits hash s : limits_ok limits → store_ok limits s → store_ok limits (unpin limits s hash).
Proof.
  intros Hl Hok. pose proof Hok as [[Ht Hm Hp Hn Hc Hst] Hs Hb]. unfold unpin. destruct (cs_pins s !! hash) as [n|] eqn:E; [|done].
  pose proof (Hn _ _ E) as Hn1. rewrite (sat_sub_small n 1) by lia.
  destruct (Z.eqb_spec (n - 1) 0) as [Hz|Hz]; cbn [negb].
  2:{ split; [split|done|]; simpl; try done.
      - by rewrite (pinned_of_repin _ _ _ n).
      - intros k v [[<- <-]|[_ Hk]]%lookup_insert_Some; [lia|by eapply Hn].
      - destruct Hb as [?|(? & h & Hh)]; [by left|right]. split; [done|]. exists h. intros k e Hk. simpl. destruct (decide (k = hash)) as [->|];
          [left; rewrite lookup_insert_eq; by eexists|rewrite lookup_insert_ne by done; by apply (Hh k e)]. }
  assert (Hsub : sat_sub (cs_pinned_bytes s) (entry_len hash s) = pinned_of (delete hash (cs_pins s)) (cs_entries s)).
  { rewrite (pinned_of_unpin _ _ _ _ E), entry_len_eq, Hp. apply sat_sub_small. rewrite <-(insert_delete_id (cs_pins s) hash n) by done.
    rewrite pinned_of_pin by apply lookup_delete_eq. pose proof (pinned_le_bytes (delete hash (cs_pins s)) (cs_entries s)). lia. }
  rewrite Hsub. assert (Hpins : ∀ k v, delete hash (cs_pins s) !! k = Some v → 1 ≤ v) by (intros k v [_ Hk]%lookup_delete_Some; by eapply Hn).
  destruct (cs_trim_pending s) eqn:Etp.
  2:{ split; [by split|done|]. destruct Hb as [?|[? _]]; [by left|done]. }
  pose proof (entry_len_le hash s) as Hle. pose proof (bytes_of_nonneg (delete hash (cs_entries s))) as Hge. rewrite bytes_of_drop in Hge.
  assert (Htot : sat_sub (cs_total_bytes s) (entry_len hash s) = bytes_of (delete hash (cs_entries s))).
  { rewrite bytes_of_drop, <-Ht, entry_len_eq. apply sat_sub_small. lia. }
  rewrite Htot. assert (Hsize : (size (delete hash (cs_entries s)) ≤ size (cs_entries s))%nat) by (apply map_subseteq_size, delete_subseteq).
  split; [split|unfold entry_count in *; simpl; lia|]; simpl.
  - done.
  - rewrite bytes_of_drop. destruct (cs_entries s !! hash); simpl in *; [pose proof (body_len_nonneg hash c)|]; lia.
  - destruct (cs_entries s !! hash) as [e|] eqn:He; [by rewrite (pinned_of_drop _ _ _ e) by (done || apply lookup_delete_eq)|by rewrite (delete_id _ _ He)].
  - done.
  - done.
  - intros k e [_ Hk]%lookup_delete_Some. by eapply Hst.
  - destruct Hl. destruct Hb as [[Hb1 Hb2]|(_ & h & Hh)].
    + left. split; [simpl; rewrite bytes_of_drop; destruct (cs_entries s !! hash); simpl in *; [pose proof (body_len_nonneg hash c)|]; lia|].
      unfold entry_count in *. simpl. lia.
    + destruct (Z.ltb_spec (Z.min (trim_floor_bytes limits) (trim_trigger_bytes limits)) (bytes_of (delete hash (cs_entries s)))) as [?|Hfl]; simpl.
      * right. split; [done|]. exists h. intros k e. simpl. intros [Hne Hk]%lookup_delete_Some. rewrite lookup_delete_ne by done. by eapply Hh.
      * destruct (Z.ltb_spec (MAX_CLIENT_BLOB_CACHE_ENTRIES / 2) (Z.of_nat (size (delete hash (cs_entries s))))) as [?|Hsz].
        -- right. split; [done|]. exists h. intros k e. simpl. intros [Hne Hk]%lookup_delete_Some. rewrite lookup_delete_ne by done. by eapply Hh.
        -- left. split; simpl; [lia|]. unfold entry_count. simpl. unfold MAX_CLIENT_BLOB_CACHE_ENTRIES in *. change (65536 / 2) with 32768 in Hsz. lia.
Qed.

(** Unpinning takes one holder of the hash away, and with it, while a trim is pending, perhaps its body. *)
Record unpinned (hashes : list Z) s s' : Prop := {
  up_pins k : pin_count s' k = Z.max 0 (pin_count s k - Z.of_nat (count_occ Z.eq_dec hashes k));
  up_sub k e : cs_entries s' !! k = Some e → cs_entries s !! k = Some e;
  up_kept k : k ∉ hashes ∨ is_Some (cs_pins s' !! k) ∨ cs_trim_pending s = false → cs_entries s' !! k = cs_entries s !! k;
  up_pending : cs_trim_pending s = false → cs_trim_pending s' = false;
}.

Lemma unpin_spec limits hash s : (∀ k n, cs_pins s !! k = Some n → 1 ≤ n) → unpinned [hash] s (unpin limits s hash).
Proof.
  intros Hn. assert (Hcount : ∀ k, 0 ≤ pin_count s k).
  { intros k. unfold pin_count. destruct (cs_pins s !! k) as [n|] eqn:E; simpl; [specialize (Hn _ _ E); lia|lia]. }
  unfold unpin. destruct (cs_pins s !! hash) as [n|] eqn:E.
  2:{ split; try done. intros k. simpl. specialize (Hcount k). destruct (Z.eq_dec hash k) as [->|]; [|lia]. unfold pin_count in *. rewrite E in *. simpl in *. lia. }
  pose proof (Hn _ _ E) as Hn1. rewrite (sat_sub_small n 1) by lia.
  assert (Hpc : ∀ s', (cs_pins s' = if n - 1 =? 0 then delete hash (cs_pins s) else <[hash := n - 1]> (cs_pins s)) →
    ∀ k, pin_count s' k = Z.max 0 (pin_count s k - Z.of_nat (count_occ Z.eq_dec [hash] k))).
  { intros s' Hs' k. specialize (Hcount k). unfold pin_count in *. rewrite Hs'. simpl. destruct (Z.eq_dec hash k) as [->|Hne].
    - rewrite E in *. simpl in *. destruct (Z.eqb_spec (n - 1) 0); [rewrite lookup_delete_eq|rewrite lookup_insert_eq]; simpl; lia.
    - destruct (n - 1 =? 0); [rewrite lookup_delete_ne by done|rewrite lookup_insert_ne by done]; lia. }
  destruct (Z.eqb_spec (n - 1) 0) as [Hz|Hz]; cbn [negb]; [|split; [by apply Hpc|done..]].
  destruct (cs_trim_pending s) eqn:Etp; [|split; [by apply Hpc|done..]]. split; [by apply Hpc|..]; simpl.
  - by intros k e [_ ?]%lookup_delete_Some.
  - intros k Hk. apply lookup_delete_ne. intros <-. destruct Hk as [Hk|[[v Hk]|?]]; [by apply not_elem_of_cons in Hk as []|by rewrite lookup_delete_eq in Hk|congruence].
  - congruence.
Qed.

Lemma unpin_all_ok limits hashes s : limits_ok limits → store_ok limits s →
  store_ok limits (unpin_all limits hashes s) ∧ unpinned hashes s (unpin_all limits hashes s).
Proof.
  intros Hl. unfold unpin_all. revert s. induction hashes as [|hash hashes IH]; intros s Hs; simpl.
  { split; [done|]. split; try done. intros k. simpl. unfold pin_count. destruct (cs_pins s !! k) as [n|] eqn:E; simpl; [|lia].
    pose proof (ac_pins _ (so_accounts _ _ Hs) _ _ E). lia. }
  pose proof (unpin_spec limits hash s (ac_pins _ (so_accounts _ _ Hs))) as [H1 H2 H3 H4]. pose proof (unpin_ok limits hash s Hl Hs) as Hs1.
  destruct (IH _ Hs1) as [Hok [H1' H2' H3' H4']]. split; [done|]. split.
  - intros k. rewrite H1', H1. simpl. destruct (Z.eq_dec hash k); lia.
  - auto.
  - intros k Hk. assert (is_Some (cs_pins (foldl (unpin limits) (unpin limits s hash) hashes) !! k) → is_Some (cs_pins (unpin limits s hash) !! k)) as Hmono.
    { intros [n Hn]. specialize (H1' k). unfold pin_count in H1'. rewrite Hn in H1'. simpl in H1'. pose proof (ac_pins _ (so_accounts _ _ Hok) _ _ Hn).
      destruct (cs_pins (unpin limits s hash) !! k); [by eexists|simpl in H1'; lia]. }
    assert (k ∉ hash :: hashes → k ∉ [hash] ∧ k ∉ hashes) as Hnot by set_solver.
    rewrite H3', H3; [done|..]; naive_solver.
  - auto.
Qed.

(** ** Eviction and insertion

    [trim_if_needed] drops the least recently used unpinned bodies until the cache is at its floor; an insertion keeps the
    invariant, never drops a pinned body and reports what it refuses. *)


(** ** The candidates *)

#[export] Instance victim_le_trans : Transitive victim_le.
Proof. intros [a a'] [b b'] [c c']. unfold victim_le. simpl. lia. Qed.
#[export] Instance victim_le_total : Total victim_le.
Proof. intros [a a'] [b b']. unfold victim_le. simpl. lia. Qed.

Lemma elem_of_victims hash s t k : (t, k) ∈ victims hash s ↔
  ∃ e, cs_entries s !! k = Some e ∧ t = ce_last_used e ∧ k ≠ hash ∧ cs_pins s !! k = None.
Proof.
  unfold victims. rewrite merge_sort_Permutation, list_elem_of_fmap. split.
  - intros ([k' e] & [= -> ->] & [[? ?%is_pinned_false] ?%elem_of_map_to_list]%list_elem_of_filter). eauto 10.
  - intros (e & He & -> & Hne & Hp). exists (k, e). split; [done|]. apply list_elem_of_filter. split; [split; [done|by apply is_pinned_false]|by apply elem_of_map_to_list].
Qed.

Lemma victims_nodup hash s : NoDup (victims hash s).*2.
Proof.
  unfold victims. rewrite merge_sort_Permutation. rewrite <-list_fmap_compose.
  assert (∀ (P : Z * CacheEntry → Prop) `{∀ x, Decision (P x)} l, NoDup l.*1 → NoDup (compose snd (λ '(candidate, entry), (ce_last_used entry, candidate)) <$> filter P l)) as H.
  { intros P ? l. induction l as [|[k e] l IH]; intros Hl; [apply NoDup_nil_2|]. apply NoDup_cons in Hl as [Hk Hl].
    rewrite filter_cons. case_decide; [|by apply IH]. cbn [fmap list_fmap]. apply NoDup_cons. split; [|by apply IH].
    intros ([k' e'] & Hkk & [_ Hin]%list_elem_of_filter)%list_elem_of_fmap. unfold compose in Hkk. simpl in Hkk. subst k'. apply Hk. by apply list_elem_of_fmap; exists (k, e'). }
  apply H, NoDup_fst_map_to_list.
Qed.

Lemma victims_sorted hash s : StronglySorted victim_le (victims hash s).
Proof. apply StronglySorted_merge_sort; apply _. Qed.

Lemma sorted_split {A} (R : A → A → Prop) l1 l2 x y : StronglySorted R (l1 ++ l2) → x ∈ l1 → y ∈ l2 → R x y.
Proof.
  induction l1 as [|a l1 IH]; intros Hs Hx Hy; [by apply elem_of_nil in Hx|]. apply StronglySorted_inv in Hs as [Hs Ha].
  apply elem_of_cons in Hx as [->|Hx]; [|by apply IH]. rewrite Forall_forall in Ha. apply Ha, elem_of_app. by right.
Qed.

(** ** The eviction loop *)

Lemma remove_accounts hash e s : accounts s → cs_entries s !! hash = Some e → cs_pins s !! hash = None → accounts (remove_entry hash e s).
Proof.
  intros [Ht Hm Hp Hn Hc Hst] He Hpin. pose proof (bytes_of_drop (cs_entries s) hash) as Hd. rewrite He in Hd. simpl in Hd. unfold body_len in Hd.
  pose proof (bytes_of_nonneg (delete hash (cs_entries s))). pose proof (blob_len_nonneg (ce_payload e)).
  assert (Hsub : sat_sub (cs_total_bytes s) (blob_len (ce_payload e)) = bytes_of (delete hash (cs_entries s))) by (rewrite sat_sub_small; lia).
  split; simpl; try done.
  - lia.
  - by rewrite (pinned_of_drop _ _ _ e).
  - intros k e' [_ ?]%lookup_delete_Some. by eapply Hst.
Qed.

(** What an eviction leaves: the candidates [gone] are dropped. *)
Record evicted (gone : list Z) s s' : Prop := {
  ev_accounts : accounts s';
  ev_pins : cs_pins s' = cs_pins s;
  ev_clock : cs_clock s' = cs_clock s;
  ev_entries k : cs_entries s' !! k = if decide (k ∈ gone) then None else cs_entries s !! k;
}.

Lemma evict_spec floor entry_floor vs s : accounts s → NoDup vs.*2 → (∀ k, k ∈ vs.*2 → is_Some (cs_entries s !! k) ∧ cs_pins s !! k = None) →
  ∃ s' gone kept, vs = gone ++ kept ∧ evict floor entry_floor vs s = Some s' ∧ evicted gone.*2 s s' ∧
    (kept = [] ∨ cs_total_bytes s' ≤ floor ∧ entry_count s' ≤ entry_floor).
Proof.
  revert s. induction vs as [|[t hash] vs IH]; intros s Ha Hnd Hvs; simpl.
  { exists s, [], []. split; [done|]. split; [done|]. split; [|by left]. split; [done..|]. intros k. by rewrite decide_False by apply not_elem_of_nil. }
  destruct ((cs_total_bytes s <=? floor) && (entry_count s <=? entry_floor)) eqn:Estop.
  { apply andb_true_iff in Estop as [? ?]. exists s, [], ((t, hash) :: vs). split; [done|]. split; [done|]. split; [|right; lia].
    split; [done..|]. intros k. by rewrite decide_False by apply not_elem_of_nil. }
  destruct (Hvs hash) as [[e He] Hpin]; [by left|]. rewrite He. cbn [mbind option_bind]. cbn [fmap list_fmap] in Hnd. apply NoDup_cons in Hnd as [Hni Hnd].
  destruct (IH (remove_entry hash e s)) as (s' & gone & kept & -> & Hev & [H1 H2 H3 H4] & Hend); [by apply remove_accounts|done| |].
  { intros k Hk. simpl in *. destruct (Hvs k) as [? ?]; [by right|]. rewrite lookup_delete_ne; [done|]. by intros ->. }
  exists s', ((t, hash) :: gone), kept. split; [done|]. split; [done|]. split; [|done]. split; [done..|]. intros k. rewrite H4. simpl.
  destruct (decide (k = hash)) as [->|Hne].
  - rewrite (decide_True (P := hash ∈ _ :: _)) by by left. case_decide; [done|]. apply lookup_delete_eq.
  - rewrite lookup_delete_ne by done. apply decide_ext. rewrite elem_of_cons. tauto.
Qed.

(** ** Trimming *)

Lemma count_sub s s' : (∀ k e, cs_entries s' !! k = Some e → cs_entries s !! k = Some e) → entry_count s' ≤ entry_count s.
Proof. intros H. unfold entry_count. apply Nat2Z.inj_le, map_subseteq_size. by apply map_subseteq_spec. Qed.

Lemma bytes_sub s s' : accounts s → accounts s' → (∀ k e, cs_entries s' !! k = Some e → cs_entries s !! k = Some e) → cs_total_bytes s' ≤ cs_total_bytes s.
Proof.
  intros [Ht _ _ _ _ _] [Ht' _ _ _ _ _] H. rewrite Ht, Ht'. apply map_sum_sub; [intros; apply body_len_nonneg|done].
Qed.

Lemma victim_le_used a b : victim_le a b → a.1 ≤ b.1.
Proof. unfold victim_le. lia. Qed.

(** Only unpinned bodies other than [hash] go, the least recently used first. *)
Record dropped hash s s' : Prop := {
  dr_accounts : accounts s';
  dr_pins : cs_pins s' = cs_pins s;
  dr_clock : cs_clock s' = cs_clock s;
  dr_sub k e : cs_entries s' !! k = Some e → cs_entries s !! k = Some e;
  dr_kept k : k = hash ∨ is_Some (cs_pins s !! k) → cs_entries s' !! k = cs_entries s !! k;
  dr_lru k e k' e' : cs_entries s !! k = Some e → cs_entries s' !! k = None → cs_entries s' !! k' = Some e' → k' ≠ hash → cs_pins s !! k' = None →
    ce_last_used e ≤ ce_last_used e';
}.

Lemma dropped_refl hash s : accounts s → dropped hash s s.
Proof. intros Ha. split; try done. intros k e k' e' H1 H2. congruence. Qed.

Lemma evict_victims floor entry_floor hash s : accounts s → ∃ s', evict floor entry_floor (victims hash s) s = Some s' ∧ dropped hash s s' ∧
  (all_pinned_but s' hash ∨ cs_total_bytes s' ≤ floor ∧ entry_count s' ≤ entry_floor).
Proof.
  intros Ha. destruct (evict_spec floor entry_floor (victims hash s) s Ha (victims_nodup hash s)) as (s' & gone & kept & Hvs & Hev & [H1 H2 H3 H4] & Hend).
  { intros k ([t k'] & -> & (e & He & _ & _ & Hp)%elem_of_victims)%list_elem_of_fmap. by split; [eexists|]. }
  assert (Hgone : ∀ k, k ∈ gone.*2 → ∃ e, cs_entries s !! k = Some e ∧ (ce_last_used e, k) ∈ gone ∧ k ≠ hash ∧ cs_pins s !! k = None).
  { intros k ([t k'] & -> & Hg)%list_elem_of_fmap. assert ((t, k') ∈ victims hash s) as (e & ? & -> & ? & ?)%elem_of_victims by (rewrite Hvs; apply elem_of_app; by left).
    by exists e. }
  exists s'. split; [done|]. split; [split|].
  - done.
  - done.
  - done.
  - intros k e. rewrite H4. by case_decide.
  - intros k Hk. rewrite H4. case_decide as Hg; [|done]. destruct (Hgone k Hg) as (e & _ & _ & Hne & Hp). rewrite Hp in Hk. destruct Hk as [?|Hk]; [done|by destruct Hk].
  - intros k e k' e' He Hn He' Hne Hp. rewrite H4 in Hn, He'. destruct (decide (k ∈ gone.*2)) as [Hg|]; [|congruence]. destruct (decide (k' ∈ gone.*2)) as [|Hg']; [done|].
    destruct (Hgone k Hg) as (e0 & He0 & Hin & _). assert (e0 = e) as -> by congruence. apply (victim_le_used (_, k) (_, k')), (sorted_split _ gone kept); [rewrite <-Hvs; apply victims_sorted|done|].
    assert ((ce_last_used e', k') ∈ victims hash s) as Hv by (apply elem_of_victims; eauto 10). rewrite Hvs in Hv. apply elem_of_app in Hv as [Hv|Hv]; [|done].
    destruct Hg'. apply list_elem_of_fmap. by exists (ce_last_used e', k').
  - destruct Hend as [->|?]; [left|by right]. rewrite app_nil_r in Hvs. intros k e. rewrite H4, H2. case_decide as Hg; [done|]. intros He.
    destruct (cs_pins s !! k) eqn:Ek; [left; by eexists|right]. apply dec_stable. intros Hne. apply Hg, list_elem_of_fmap. exists (ce_last_used e, k).
    split; [done|]. rewrite <-Hvs. apply elem_of_victims. eauto 10.
Qed.

Lemma dropped_pending hash s s' (pending : bool) : dropped hash s s' → dropped hash s (set_trim_pending pending s').
Proof. intros [[] ? ? ? ? ?]. by split. Qed.

Record trimmed limits hash s s' : Prop := {
  tm_dropped : dropped hash s s';
  tm_quiet : within limits s → s' = s;
  tm_floor : ¬ within limits s → all_pinned_but s' hash ∨
    (trim_trigger_bytes limits < cs_total_bytes s → cs_total_bytes s' ≤ trim_floor_bytes limits `min` trim_trigger_bytes limits) ∧
    (MAX_CLIENT_BLOB_CACHE_ENTRIES ≤ entry_count s → entry_count s' ≤ MAX_CLIENT_BLOB_CACHE_ENTRIES / 2);
  tm_bound : within limits s' ∨ cs_trim_pending s' = true ∧ all_pinned_but s' hash;
}.

Lemma trim_spec limits hash s : limits_ok limits → accounts s → ∃ n s', trim_if_needed limits hash s = Some (Ok n, s') ∧ trimmed limits hash s s'.
Proof.
  intros [Ht Hf] Ha. unfold trim_if_needed. set (ep := _ <=? entry_count s). set (bp := _ <? cs_total_bytes s).
  destruct (negb ep && negb bp) eqn:Equiet.
  { apply andb_true_iff in Equiet as [Hep%negb_true_iff%Z.leb_gt Hbp%negb_true_iff%Z.ltb_ge]. exists 0, s. split; [done|]. assert (within limits s) by by split.
    split; [by apply dropped_refl|done|done|by left]. }
  destruct (evict_victims (if bp then trim_floor_bytes limits `min` trim_trigger_bytes limits else cs_total_bytes s)
    (if ep then MAX_CLIENT_BLOB_CACHE_ENTRIES / 2 else entry_count s) hash s Ha) as (s1 & -> & Hd & Hend).
  cbn [mbind option_bind]. do 2 eexists. split; [done|].
  assert (¬ within limits s) as Hnw by (intros [?%Z.ltb_ge ?%Z.leb_gt]; unfold ep, bp in Equiet; by rewrite H, H0 in Equiet).
  assert (MAX_CLIENT_BLOB_CACHE_ENTRIES / 2 < MAX_CLIENT_BLOB_CACHE_ENTRIES) as Hhalf by done.
  assert (Hpart : all_pinned_but s1 hash ∨ (trim_trigger_bytes limits < cs_total_bytes s → cs_total_bytes s1 ≤ trim_floor_bytes limits `min` trim_trigger_bytes limits) ∧
    (MAX_CLIENT_BLOB_CACHE_ENTRIES ≤ entry_count s → entry_count s1 ≤ MAX_CLIENT_BLOB_CACHE_ENTRIES / 2)).
  { destruct Hend as [?|[He1 He2]]; [by left|right]. unfold bp in He1. unfold ep in He2.
    destruct (Z.ltb_spec (trim_trigger_bytes limits) (cs_total_bytes s)), (Z.leb_spec MAX_CLIENT_BLOB_CACHE_ENTRIES (entry_count s)); split; intros; lia. }
  split; [by apply dropped_pending|done|by intros _|].
  pose proof (count_sub s s1 (dr_sub _ _ _ Hd)) as Hcs. pose proof (bytes_sub s s1 Ha (dr_accounts _ _ _ Hd) (dr_sub _ _ _ Hd)) as Hbs.
  unfold within, set_trim_pending, entry_count in *. cbn [cs_trim_pending cs_entries cs_total_bytes].
  match goal with |- context [(?a <? ?b) || (?c <=? ?d)] => destruct (Z.ltb_spec a b), (Z.leb_spec c d); cbn [orb] end.
  4:{ left. by split. }
  all: right; split; [done|]; destruct Hpart as [?|[Hp1 Hp2]]; [done|exfalso].
  all: destruct (Z.lt_ge_cases (trim_trigger_bytes limits) (cs_total_bytes s)) as [Hx|Hx]; [specialize (Hp1 Hx)|].
  all: destruct (Z.le_gt_cases MAX_CLIENT_BLOB_CACHE_ENTRIES (Z.of_nat (size (cs_entries s)))) as [Hy|Hy]; [specialize (Hp2 Hy)|]; lia.
Qed.

(** ** Insertion *)

Lemma dropped_store_ok limits hash s s' : store_ok limits s → trimmed limits hash s s' → store_ok limits s'.
Proof.
  intros [Ha Hs Hb] [Hd Hq _ Ht]. split; [apply Hd|pose proof (count_sub s s' (dr_sub _ _ _ Hd)); lia|].
  destruct Ht as [?|[? ?]]; [by left|right; eauto].
Qed.

(** An insertion that succeeds: the body is there, and room was made among older unpinned bodies only. *)
Record inserted hash payload s s' : Prop := {
  in_pins : cs_pins s' = cs_pins s;
  in_present : cs_entries s !! hash ≠ None → s' = s;
  in_body : ce_payload <$> cs_entries s' !! hash = Some payload;
  in_sub k e : k ≠ hash → cs_entries s' !! k = Some e → cs_entries s !! k = Some e;
  in_kept k : k ≠ hash → is_Some (cs_pins s !! k) → cs_entries s' !! k = cs_entries s !! k;
  in_lru k e k' e' : cs_entries s !! k = Some e → cs_entries s' !! k = None → cs_entries s' !! k' = Some e' → k' ≠ hash → cs_pins s !! k' = None →
    ce_last_used e ≤ ce_last_used e';
}.

(** The reasons to refuse one, each true of the store it leaves. *)
Definition refusal hash payload s (e : BlobCacheError) s' : Prop :=
  match e with
  | ConflictingDuplicate h => h = hash ∧ s' = s ∧ ∃ existing, cs_entries s !! hash = Some existing ∧ ce_payload existing ≠ payload
  | CacheEntryPressure => cs_entries s !! hash = None ∧ dropped hash s s' ∧ MAX_CLIENT_BLOB_CACHE_ENTRIES ≤ entry_count s' ∧ all_pinned_but s' hash
  | PinnedPayloadPressure => cs_entries s !! hash = None ∧ dropped hash s s' ∧ is_Some (cs_pins s !! hash) ∧ MAX_CLIENT_BLOB_PINNED_BYTES < cs_pinned_bytes s' + blob_len payload
  | ByteCountOverflow => cs_entries s !! hash = None ∧ dropped hash s s' ∧ USIZE_MAX < cs_total_bytes s' + blob_len payload
  | _ => False
  end.

Section insertion.
Context (limits : BlobCacheLimits) (Limits : limits_ok limits).

Lemma ewp_trim hash s (Q : Z → CacheStore → Prop) E : accounts s → (∀ n s', trimmed limits hash s s' → Q n s') → ewp (trim_if_needed limits hash) s Q E.
Proof using Limits. intros Ha HQ. destruct (trim_spec limits hash s Limits Ha) as (n & s' & Ht & ?). unfold ewp. rewrite Ht. by apply (HQ n). Qed.

Lemma ewp_make_room hash s (Q : unit → CacheStore → Prop) (E : BlobCacheError → CacheStore → Prop) : store_ok limits s →
  (∀ s', store_ok limits s' → dropped hash s s' → entry_count s' < MAX_CLIENT_BLOB_CACHE_ENTRIES → Q tt s') →
  (∀ s', store_ok limits s' → dropped hash s s' → MAX_CLIENT_BLOB_CACHE_ENTRIES ≤ entry_count s' → all_pinned_but s' hash → E CacheEntryPressure s') →
  ewp (make_room limits hash) s Q E.
Proof using Limits.
  intros Hs HQ HE. unfold make_room. ewp_step. ewp_step. simpl. destruct (Z.leb_spec MAX_CLIENT_BLOB_CACHE_ENTRIES (entry_count s)) as [Hfull|Hroom].
  2:{ ewp_step. apply HQ; [done| |done]. by apply dropped_refl, Hs. }
  ewp_step. apply ewp_trim; [apply Hs|]. intros n s' Ht. pose proof (dropped_store_ok _ _ _ _ Hs Ht) as Hs'. ewp_step. ewp_step. simpl.
  destruct (Z.leb_spec MAX_CLIENT_BLOB_CACHE_ENTRIES (entry_count s')) as [Hfull'|Hroom']; ewp_step; [apply HE|apply HQ]; try done; try apply Ht.
  destruct (tm_floor _ _ _ _ Ht) as [?|[_ Hf]]; [intros [_ ?]; lia|done|]. specialize (Hf Hfull). unfold MAX_CLIENT_BLOB_CACHE_ENTRIES in *.
  change (65536 / 2) with 32768 in Hf. lia.
Qed.

(** The entry itself goes in. *)
Lemma insert_entry_accounts hash payload s pinned : accounts s → cs_entries s !! hash = None → cs_total_bytes s + blob_len payload ≤ USIZE_MAX →
  pinned = cs_pinned_bytes s + pinned_len (cs_pins s) hash (mk_cache_entry payload 0) →
  accounts (insert_entry hash payload (cs_total_bytes s + blob_len payload) pinned s).
Proof using Type.
  intros [Ht Hm Hp Hn Hc Hst] Hnone Hmax ->. pose proof (clock_step s Hc) as [Hc1 Hc2]. split; simpl; try done.
  - unfold bytes_of. rewrite map_sum_insert by done. unfold body_len at 1. simpl. fold (bytes_of (cs_entries s)). lia.
  - unfold pinned_of. rewrite map_sum_insert by done. fold (pinned_of (cs_pins s) (cs_entries s)). unfold pinned_len. simpl. lia.
  - intros k e [[<- <-]|[_ Hk]]%lookup_insert_Some; [simpl; lia|]. specialize (Hst k e Hk). lia.
Qed.

Lemma ewp_projected_pins hash payload s (Q : Z → CacheStore → Prop) (E : BlobCacheError → CacheStore → Prop) : accounts s →
  Q (cs_pinned_bytes s + pinned_len (cs_pins s) hash (mk_cache_entry payload 0)) s →
  (is_Some (cs_pins s !! hash) → MAX_CLIENT_BLOB_PINNED_BYTES < cs_pinned_bytes s + blob_len payload → E PinnedPayloadPressure s) →
  ewp (projected_pins hash payload s) s Q E.
Proof using Type.
  intros Ha HQ HE. unfold projected_pins, pinned_len in *. destruct (is_pinned hash s) eqn:Ep.
  - apply is_pinned_true in Ep. rewrite decide_True in HQ by done. simpl in HQ. destruct (Z.ltb_spec MAX_CLIENT_BLOB_PINNED_BYTES (sat_add (cs_pinned_bytes s) (blob_len payload))) as [Hlt|Hge]; ewp_step.
    + apply HE; [done|]. unfold sat_add in Hlt. lia.
    + rewrite sat_add_small; [done|]. unfold sat_add, MAX_CLIENT_BLOB_PINNED_BYTES, MAX_CLIENT_BLOB_PENDING_BYTES, USIZE_MAX in *. lia.
  - apply is_pinned_false in Ep. ewp_step. rewrite decide_False, Z.add_0_r in HQ by (rewrite Ep; apply is_Some_None). done.
Qed.

Lemma inserted_dropped hash payload s s1 s2 s3 : cs_entries s !! hash = None → dropped hash s s1 → cs_pins s2 = cs_pins s1 →
  (∃ e, ce_payload e = payload ∧ cs_entries s2 = <[hash := e]> (cs_entries s1)) → dropped hash s2 s3 → inserted hash payload s s3.
Proof using Type.
  intros Hnone [_ Hp1 _ Hsub1 Hkept1 Hlru1] Hp2 (e0 & He0 & He) [_ Hp3 _ Hsub3 Hkept3 Hlru3]. split.
  - congruence.
  - by intros [].
  - rewrite Hkept3, He, lookup_insert_eq by by left. by rewrite <-He0.
  - intros k e Hne Hk%Hsub3. rewrite He, lookup_insert_ne in Hk by done. by apply Hsub1.
  - intros k Hne Hk. rewrite Hkept3, He, lookup_insert_ne by (done || (right; by rewrite Hp2, Hp1)). apply Hkept1. by right.
  - intros k e k' e' Hk Hn Hk' Hne Hnp. pose proof (Hsub3 _ _ Hk') as Hk1'. rewrite He, lookup_insert_ne in Hk1' by done.
    destruct (cs_entries s1 !! k) as [e1|] eqn:Hk1; [|by eapply Hlru1]. assert (k ≠ hash) by congruence. pose proof (Hsub1 _ _ Hk1). simplify_eq.
    apply (Hlru3 k e k' e'); [by rewrite He, lookup_insert_ne|done|done|done|]. congruence.
Qed.

Lemma ewp_insert_shared hash payload s (Q : unit → CacheStore → Prop) (E : BlobCacheError → CacheStore → Prop) : store_ok limits s →
  (∀ s', store_ok limits s' → inserted hash payload s s' → Q tt s') → (∀ e s', store_ok limits s' → refusal hash payload s e s' → E e s') →
  ewp (insert_shared limits hash payload) s Q E.
Proof using Limits.
  intros Hs HQ HE. unfold insert_shared. ewp_step. ewp_step. simpl. destruct (cs_entries s !! hash) as [existing|] eqn:He.
  { case_bool_decide as Heq; ewp_step; [apply HQ|apply HE]; [done| |done|].
    - split; try done; [by rewrite He; simpl; rewrite Heq|]. intros k e k' e' H1 H2. congruence.
    - simpl. eauto. }
  ewp_step. apply ewp_make_room; [done| |].
  2:{ intros s' Hs' Hd Hf Hp. by apply HE. }
  intros s1 Hs1 Hd1 Hroom. assert (Hnone : cs_entries s1 !! hash = None) by (by rewrite (dr_kept _ _ _ Hd1); [|left]).
  ewp_step. ewp_step. simpl. ewp_step. unfold ok_or. destruct (checked_add (cs_total_bytes s1) (blob_len payload)) as [total|] eqn:Et; ewp_step.
  2:{ apply HE; [done|]. simpl. split; [done|]. split; [done|]. unfold checked_add in Et. destruct (Z.leb_spec (cs_total_bytes s1 + blob_len payload) USIZE_MAX); [done|lia]. }
  apply checked_add_Some in Et as [-> Hmax].
  ewp_step. apply ewp_projected_pins; [apply Hs1| |].
  2:{ intros Hp Hlt. apply HE; [done|]. simpl. split; [done|]. split; [done|]. split; [|done]. by rewrite <-(dr_pins _ _ _ Hd1). }
  ewp_step. ewp_step. pose proof (insert_entry_accounts hash payload s1 _ (so_accounts _ _ Hs1) Hnone Hmax eq_refl) as Ha2.
  ewp_step. apply ewp_trim; [done|]. intros n s3 Ht. ewp_step. apply HQ.
  - split; [apply Ht| |destruct (tm_bound _ _ _ _ Ht) as [?|[? ?]]; [by left|right; eauto]].
    pose proof (count_sub _ _ (dr_sub _ _ _ (tm_dropped _ _ _ _ Ht))) as Hc. unfold entry_count in *. cbn [insert_entry cs_entries] in Hc.
    rewrite map_size_insert_None in Hc by done. lia.
  - refine (inserted_dropped hash payload s s1 _ s3 He Hd1 _ _ (tm_dropped _ _ _ _ Ht)); [done|]. eexists. by split; [|reflexivity].
Qed.

Lemma ewp_insert_verified hash payload s (Q : unit → CacheStore → Prop) (E : BlobCacheError → CacheStore → Prop) : store_ok limits s →
  (∀ s', store_ok limits s' → inserted hash payload s s' → Q tt s') → (∀ e s', store_ok limits s' → refusal hash payload s e s' → E e s') →
  ewp (insert_verified limits hash payload) s Q E.
Proof using Limits.
  intros Hs HQ HE. pose proof (ewp_insert_shared hash payload s Q E Hs HQ HE) as H. unfold insert_verified. ewp_step. ewp_step. simpl.
  destruct (cs_entries s !! hash) as [existing|] eqn:He; [|done]. unfold ewp, insert_shared, mbind, eff_bind, eff_gets in H. simpl in H. by rewrite He in H.
Qed.
End insertion.
