(* ===== verification/BlobStoreTheorems.v ===== *)
(** * Properties of the client blob cache *)
From stdpp Require Import base numbers list gmap sets sorting.
From S2P Require Import Prelude Counting Effects BlobStore BlobStoreSpec.
#[local] Open Scope Z_scope.

Implicit Types (s : CacheStore) (hash k : Z) (limits : BlobCacheLimits) (payload : Blob).

(** ** Runs *)

Inductive CacheOp :=
  | OpInsert (payload : Blob) | OpFromDisk (hash : Z) (payload : Blob) | OpGet (hash : Z) | OpClassify (hashes : list Z) (pin_them : bool) | OpUnpin (hashes : list Z).

(** The store after an operation, whatever it returned. *)
Definition run_op (xxh64 : Blob → Z) limits (op : CacheOp) (s : CacheStore) : option CacheStore :=
  match op with
  | OpInsert payload => snd <$> cache_insert xxh64 limits payload s
  | OpFromDisk hash payload => snd <$> admit_blob xxh64 limits hash payload s
  | OpGet hash => snd <$> get hash s
  | OpClassify hashes pin_them => snd <$> classify hashes pin_them s
  | OpUnpin hashes => Some (unpin_all limits hashes s)
  end.
Definition run_ops (xxh64 : Blob → Z) limits (ops : list CacheOp) (s : CacheStore) : option CacheStore := foldM (λ s op, run_op xxh64 limits op s) s ops.

(** Every body lies under its own hash. *)
Definition addressed (xxh64 : Blob → Z) s : Prop := ∀ k e, cs_entries s !! k = Some e → xxh64 (ce_payload e) = k.

Section runs.
Context (xxh64 : Blob → Z) (limits : BlobCacheLimits) (Limits : limits_ok limits).
Notation addressed := (addressed xxh64).

Lemma addressed_payloads s s' : addressed s → (∀ k, ce_payload <$> cs_entries s' !! k = ce_payload <$> cs_entries s !! k) → addressed s'.
Proof using Type.
  intros Ha Hp k e He. specialize (Hp k). rewrite He in Hp. destruct (cs_entries s !! k) as [e'|] eqn:He'; simplify_eq/=. rewrite Hp. by apply Ha.
Qed.

Lemma addressed_inserted hash payload s s' : addressed s → xxh64 payload = hash → inserted hash payload s s' → addressed s'.
Proof using Type.
  intros Ha Hh Hi k e He. destruct (decide (k = hash)) as [->|Hne]; [|by eapply Ha, (in_sub _ _ _ _ Hi)].
  pose proof (in_body _ _ _ _ Hi) as Hb. rewrite He in Hb. simplify_eq/=. done.
Qed.

Lemma addressed_refused hash payload s e s' : addressed s → refusal hash payload s e s' → addressed s'.
Proof using Type.
  intros Ha. destruct e; simpl; try done; [by intros (_ & -> & _)|..]; intros (_ & Hd & _) k e He; eapply Ha, (dr_sub _ _ _ Hd _ _ He).
Qed.

Lemma insert_verified_run hash payload s : store_ok limits s → addressed s → xxh64 payload = hash →
  ewp (insert_verified limits hash payload) s (λ _ s', store_ok limits s' ∧ addressed s') (λ _ s', store_ok limits s' ∧ addressed s').
Proof using Limits.
  intros Hs Ha Hh. apply (ewp_insert_verified limits Limits); [done|..].
  - intros s' Hs' Hi. split; [done|by eapply addressed_inserted].
  - intros e s' Hs' Hr. split; [done|by eapply addressed_refused].
Qed.

Lemma ewp_state {A} (m : C A) s (P : CacheStore → Prop) : ewp m s (λ _ s', P s') (λ _ s', P s') → ∃ s', snd <$> m s = Some s' ∧ P s'.
Proof using Type. unfold ewp. destruct (m s) as [[[] s']|]; [by exists s'..|done]. Qed.

Lemma run_op_ok op s : store_ok limits s → addressed s → ∃ s', run_op xxh64 limits op s = Some s' ∧ store_ok limits s' ∧ addressed s'.
Proof using Limits.
  intros Hs Ha. destruct op as [payload|hash payload|hash|hashes pin_them|hashes]; simpl.
  - apply (ewp_state _ _ (λ s', store_ok limits s' ∧ addressed s')). unfold cache_insert. ewp_step.
    eapply ewp_mono; [by apply insert_verified_run| |done]. intros [] s' H. by ewp_step.
  - apply (ewp_state _ _ (λ s', store_ok limits s' ∧ addressed s')). unfold admit_blob, client_blob_hash. destruct (Z.eqb_spec (xxh64 payload) hash) as [Hh|Hh]; cbn [negb]; [|by ewp_step].
    ewp_step. ewp_step. simpl. destruct (contains hash s || is_pinned hash s); [by ewp_step|]. destruct (_ <? _); [by ewp_step|].
    ewp_step. apply (ewp_insert_shared limits Limits); [done|..].
    + intros s' Hs' Hi. ewp_step. split; [done|by eapply addressed_inserted].
    + intros e s' Hs' Hr. split; [done|by eapply addressed_refused].
  - destruct (get_ok limits hash s Hs) as (s' & -> & Hs' & _ & Hp). exists s'. split; [done|]. split; [done|by eapply addressed_payloads].
  - destruct (classify_ok limits hashes pin_them s Hs) as (? & ? & ? & s' & -> & Hs' & Hc). exists s'. split; [done|]. split; [done|]. by eapply addressed_payloads, Hc.
  - destruct (unpin_all_ok limits hashes s Limits Hs) as [Hs' Hu]. eexists. split; [done|]. split; [done|]. intros k e He%(up_sub _ _ _ Hu). by apply Ha.
Qed.
End runs.

(** C10: no run of cache operations panics, and after any run the byte totals are exactly the bytes of the bodies and of
    the pinned bodies, there are at most 65536 bodies, each under the hash of its content, and either they fit the trim
    trigger or all of them but one are pinned and a trim is pending. *)
Theorem blob_cache_runs xxh64 limits ops : limits_ok limits → ∃ s, run_ops xxh64 limits ops cache_default = Some s ∧ store_ok limits s ∧ addressed xxh64 s.
Proof.
  intros Hl. unfold run_ops.
  destruct (foldM_inv (λ s op, run_op xxh64 limits op s) (λ _ s, store_ok limits s ∧ addressed xxh64 s) cache_default ops) as (s & ? & ? & ?); [| |by exists s].
  - split; [by apply cache_default_ok|done].
  - intros _ op _ s _ [? ?]. destruct (run_op_ok xxh64 limits Hl op s) as (s' & ? & ?); [done..|by exists s'].
Qed.

(** A toy hash: the length and the bytes. *)
Definition demo_hash (payload : Blob) : Z := foldl (λ h v, h * 256 + v) 1 payload.
Definition demo_limits : BlobCacheLimits := mk_blob_limits 5 3.
Definition demo_ops : list CacheOp :=
  [OpInsert [1; 2]; OpInsert [3; 4]; OpGet (demo_hash [1; 2]); OpClassify [demo_hash [3; 4]] true; OpInsert [5; 6]; OpFromDisk (demo_hash [7]) [7]].

Example demo_blob_bodies : (λ s, (cs_total_bytes s, cs_pinned_bytes s, (ce_payload ∘ snd) <$> map_to_list (cs_entries s))) <$>
  run_ops demo_hash demo_limits demo_ops cache_default = Some (5, 2, [[7]; [5; 6]; [3; 4]]).
Proof. vm_compute. reflexivity. Qed.

Lemma blob_cache_runs_witness : ∃ s, run_ops demo_hash demo_limits demo_ops cache_default = Some s ∧ store_ok demo_limits s ∧ addressed demo_hash s.
Proof. apply blob_cache_runs. by split. Defined.

(** ** One insertion *)

(** An insertion either stores the body, evicting at most bodies that are unpinned and less recently used than every
    unpinned body that stays, or refuses it for a conflicting body, a full cache of pinned bodies, the pinned-byte ceiling
    or an overflow, each with that reason true; the cache stays well formed in every case. *)
Theorem blob_insertion_exact limits hash payload s : limits_ok limits → store_ok limits s →
  ∃ r s', insert_shared limits hash payload s = Some (r, s') ∧ store_ok limits s' ∧
    match r with Ok _ => inserted hash payload s s' | Err e => refusal hash payload s e s' end.
Proof.
  intros Hl Hs. pose proof (ewp_insert_shared limits Hl hash payload s (λ _ s', store_ok limits s' ∧ inserted hash payload s s')
    (λ e s', store_ok limits s' ∧ refusal hash payload s e s') Hs) as H.
  forward H; [by auto|]. forward H; [by auto|]. unfold ewp in H. destruct (insert_shared limits hash payload s) as [[[[]|e] s']|]; [| |done]; destruct H; by do 2 eexists.
Qed.

Lemma blob_insertion_exact_witness : ∃ r s', insert_shared demo_limits 7 [1; 2] cache_default = Some (r, s') ∧ store_ok demo_limits s' ∧
  match r with Ok _ => inserted 7 [1; 2] cache_default s' | Err e => refusal 7 [1; 2] cache_default e s' end.
Proof. apply blob_insertion_exact; [by split|]. by apply cache_default_ok. Defined.

(** ** Publishing a delta *)

(** What an insertion adds to the accounts, and to the pinned bodies. *)
Lemma inserted_accounts hash payload s s' : accounts s → accounts s' → cs_entries s !! hash = None → inserted hash payload s s' →
  cs_pinned_bytes s' ≤ cs_pinned_bytes s + pinned_len (cs_pins s) hash (mk_cache_entry payload 0) ∧ cs_total_bytes s' ≤ cs_total_bytes s + blob_len payload ∧
  pinned_entries s' ⊆ {[hash]} ∪ pinned_entries s.
Proof.
  intros Ha Ha' Hnone Hi. rewrite (ac_pinned _ Ha'), (ac_pinned _ Ha), (ac_total _ Ha'), (ac_total _ Ha), (in_pins _ _ _ _ Hi).
  assert (Hle : ∀ f : Z → CacheEntry → Z, (∀ k e, 0 ≤ f k e) → (∀ k e e', ce_payload e = ce_payload e' → f k e = f k e') →
    map_sum f (cs_entries s') ≤ map_sum f (cs_entries s) + f hash (mk_cache_entry payload 0)).
  { intros f Hf Hext. pose proof (in_body _ _ _ _ Hi) as Hb. destruct (cs_entries s' !! hash) as [e|] eqn:He; [|done]. simpl in Hb. injection Hb as Hb.
    rewrite (map_sum_delete f _ hash e), (Hext hash e (mk_cache_entry payload 0)) by done.
    assert (map_sum f (delete hash (cs_entries s')) ≤ map_sum f (cs_entries s)); [|lia].
    apply map_sum_sub; [done|]. intros k e0 [Hne Hk]%lookup_delete_Some. by apply (in_sub _ _ _ _ Hi). }
  split; [apply Hle; [intros; apply pinned_len_range|intros k e e' He; unfold pinned_len; by rewrite He]|].
  split; [apply Hle; [intros; apply body_len_nonneg|intros k e e' He; unfold body_len; by rewrite He]|].
  intros k. unfold pinned_entries. rewrite elem_of_union, !elem_of_intersection, !elem_of_dom, elem_of_singleton, (in_pins _ _ _ _ Hi).
  intros [[e He] Hp]. destruct (decide (k = hash)) as [->|Hne]; [by left|right]. split; [|done]. exists e. by apply (in_sub _ _ _ _ Hi).
Qed.

Lemma all_pinned_size s : (∀ k e, cs_entries s !! k = Some e → is_Some (cs_pins s !! k)) → entry_count s = Z.of_nat (size (pinned_entries s)).
Proof.
  intros H. unfold entry_count, pinned_entries. rewrite <-(size_dom (D := gset Z)). do 2 f_equal. apply set_eq. intros k.
  rewrite elem_of_intersection, !elem_of_dom. split; [|by intros []]. intros [e He]. split; [by eexists|by eapply H].
Qed.

Lemma dropped_pinned_entries hash s s' : dropped hash s s' → pinned_entries s' ⊆ pinned_entries s.
Proof.
  intros [_ Hp _ Hsub _ _] k. unfold pinned_entries. rewrite !elem_of_intersection, !elem_of_dom, Hp. intros [[e He] ?]. split; [|done]. exists e. by apply Hsub.
Qed.

(** Publishing one body of a validated delta: [total], [pinned] and [new] are the validation's sums so far. *)
Section delta.
Context (limits : BlobCacheLimits) (Limits : limits_ok limits) (s0 : CacheStore).

Record publishing (total pinned new : Z) s : Prop := {
  pu_ok : store_ok limits s;
  pu_pins : cs_pins s = cs_pins s0;
  pu_total : cs_total_bytes s ≤ total;
  pu_pinned : cs_pinned_bytes s ≤ pinned;
  pu_new : Z.of_nat (size (pinned_entries s)) ≤ Z.of_nat (size (pinned_entries s0)) + new;
}.

Lemma publish_one hash payload total pinned new total' pinned' new' s (Q : unit → CacheStore → Prop) :
  validate_one s0 (total, pinned, new) (hash, payload) = Ok (total', pinned', new') → publishing total pinned new s →
  Z.of_nat (size (pinned_entries s0)) + new' ≤ MAX_CLIENT_BLOB_CACHE_ENTRIES → ce_payload <$> cs_entries s !! hash = ce_payload <$> cs_entries s0 !! hash →
  (∀ s', publishing total' pinned' new' s' → inserted hash payload s s' → Q tt s') →
  ewp (insert_verified limits hash payload) s Q (λ _ _, False).
Proof using Limits.
  intros Hv [Hok Hpins Ht Hp Hn] Hcap Hsame HQ. simpl in Hv. destruct (cs_entries s0 !! hash) as [existing|] eqn:He0.
  { case_bool_decide as Heq; [|done]. injection Hv as <- <- <-. apply (ewp_insert_verified limits Limits); [done|..].
    - intros s' Hs' Hi. assert (s' = s) as ->; [|by apply HQ]. apply (in_present _ _ _ _ Hi). intros Hx. by rewrite Hx in Hsame.
    - assert (Hsome : ce_payload <$> cs_entries s !! hash = Some payload) by (rewrite Hsame; simpl; by rewrite Heq).
      intros [] s' _ Hr; simpl in Hr; try done; try (destruct Hr as (Hr & _); by rewrite Hr in Hsome).
      destruct Hr as (_ & _ & e & He & Hne). rewrite He in Hsome. simplify_eq/=. }
  assert (Hnone : cs_entries s !! hash = None) by (by destruct (cs_entries s !! hash)).
  destruct (checked_add total (blob_len payload)) as [t|] eqn:Et; [|done]. apply checked_add_Some in Et as [-> Hmax]. pose proof (blob_len_nonneg payload) as Hlen.
  assert (Hv' : total' = total + blob_len payload ∧ new' = new + 1 ∧
    (if decide (is_Some (cs_pins s0 !! hash)) then pinned' = pinned + blob_len payload ∧ pinned' ≤ MAX_CLIENT_BLOB_PINNED_BYTES else pinned' = pinned)).
  { destruct (is_pinned hash s0) eqn:Ep; [apply is_pinned_true in Ep; rewrite decide_True by done|apply is_pinned_false in Ep; rewrite decide_False by (rewrite Ep; apply is_Some_None)];
      [|by injection Hv as <- <- <-]. revert Hv. unfold sat_add, MAX_CLIENT_BLOB_PINNED_BYTES, MAX_CLIENT_BLOB_PENDING_BYTES, USIZE_MAX in *. case_match eqn:El; [done|]. apply Z.ltb_ge in El. intros [= <- <- <-]. lia. }
  clear Hv. destruct Hv' as (-> & -> & Hpin). apply (ewp_insert_verified limits Limits); [done|..].
  - intros s' Hs' Hi. apply HQ; [|done]. destruct (inserted_accounts hash payload s s') as (Hp' & Ht' & Hpe); [apply Hok|apply Hs'|done|done|]. split.
    + done.
    + by rewrite (in_pins _ _ _ _ Hi).
    + lia.
    + unfold pinned_len in Hp'. rewrite Hpins in Hp'. simpl in Hp'. case_decide; lia.
    + apply subseteq_size in Hpe. pose proof (size_union_alt {[hash]} (pinned_entries s)) as Hu. pose proof (size_singleton (C := gset Z) hash) as H1.
      assert (size (pinned_entries s ∖ {[hash]}) ≤ size (pinned_entries s))%nat by (apply subseteq_size; set_solver). lia.
  - intros [] s' Hs' Hr; simpl in Hr; try done.
    + destruct Hr as (_ & _ & e & He & _). congruence.
    + destruct Hr as (_ & Hd & Hsp & Hlt). pose proof (dr_accounts _ _ _ Hd) as Ha'.
      assert (cs_pinned_bytes s' ≤ cs_pinned_bytes s) as Hle.
      { rewrite (ac_pinned _ Ha'), (ac_pinned _ (so_accounts _ _ Hok)), (dr_pins _ _ _ Hd). apply map_sum_sub; [intros; apply pinned_len_range|apply Hd]. }
      rewrite <-Hpins in Hpin. case_decide as Hx; [lia|done].
    + destruct Hr as (_ & Hd & Hfull & Hall). assert (cs_entries s' !! hash = None) as Hgone by (rewrite (dr_kept _ _ _ Hd) by (by left); done).
      assert (Hsz : entry_count s' = Z.of_nat (size (pinned_entries s'))) by (apply all_pinned_size; intros k e He; destruct (Hall k e He) as [?| ->]; [done|congruence]).
      pose proof (dropped_pinned_entries _ _ _ Hd) as Hsub%subseteq_size. lia.
    + destruct Hr as (_ & Hd & Hlt). pose proof (bytes_sub _ _ (so_accounts _ _ Hok) (dr_accounts _ _ _ Hd) (dr_sub _ _ _ Hd)). lia.
Qed.

Lemma validate_new acc hash payload acc' : validate_one s0 acc (hash, payload) = Ok acc' → acc.2 ≤ acc'.2.
Proof using Type.
  destruct acc as [[t p] n]. simpl. repeat (case_match; try done); intros; simplify_eq/=; lia.
Qed.

Lemma validate_all_new unique acc acc' : validate_all s0 acc unique = Ok acc' → acc.2 ≤ acc'.2.
Proof using Type.
  revert acc. induction unique as [|[hash payload] unique IH]; intros acc; simpl; [by intros [= <-]|].
  intros (acc1 & Hv%validate_new & H%IH)%result_bind_Ok. lia.
Qed.

(** The bodies a pinned hash names after publishing. *)
Record published (unique : list (Z * Blob)) s s' : Prop := {
  pb_ok : store_ok limits s';
  pb_pins : cs_pins s' = cs_pins s;
  pb_bodies hash payload : (hash, payload) ∈ unique → is_Some (cs_pins s !! hash) → ce_payload <$> cs_entries s' !! hash = Some payload;
  pb_kept k : k ∉ unique.*1 → is_Some (cs_pins s !! k) → cs_entries s' !! k = cs_entries s !! k;
  pb_sub k e : k ∉ unique.*1 → cs_entries s' !! k = Some e → cs_entries s !! k = Some e;
}.

(** A body that pins keep, or that is not there yet, is not touched by publishing another. *)
Lemma inserted_other hash payload s s' k : inserted hash payload s s' → k ≠ hash → (is_Some (cs_entries s0 !! k) → is_Some (cs_pins s !! k)) →
  ce_payload <$> cs_entries s !! k = ce_payload <$> cs_entries s0 !! k → ce_payload <$> cs_entries s' !! k = ce_payload <$> cs_entries s0 !! k.
Proof using Type.
  intros Hi Hne Hpin Hs. destruct (cs_entries s0 !! k) as [e0|] eqn:He0; [rewrite (in_kept _ _ _ _ Hi) by auto; done|].
  destruct (cs_entries s' !! k) as [e|] eqn:He; [|done]. apply (in_sub _ _ _ _ Hi) in He; [|done]. by rewrite He in Hs.
Qed.

Lemma publish_all unique total pinned new total' pinned' new' s : validate_all s0 (total, pinned, new) unique = Ok (total', pinned', new') → publishing total pinned new s →
  Z.of_nat (size (pinned_entries s0)) + new' ≤ MAX_CLIENT_BLOB_CACHE_ENTRIES → NoDup unique.*1 →
  (∀ hash, hash ∈ unique.*1 → ce_payload <$> cs_entries s !! hash = ce_payload <$> cs_entries s0 !! hash) →
  (∀ hash, hash ∈ unique.*1 → is_Some (cs_entries s0 !! hash) → is_Some (cs_pins s0 !! hash)) →
  ewp (for_each (λ '(hash, payload), insert_verified limits hash payload) unique) s (λ _ s', published unique s s') (λ _ _, False).
Proof using Limits.
  revert total pinned new s. induction unique as [|[hash payload] unique IH]; intros total pinned new s Hv Hp Hcap Hnd Hsame Hpin.
  { simpl. ewp_step. split; [apply Hp|done|intros ?? H; by apply elem_of_nil in H|done|done]. }
  cbn [validate_all] in Hv. apply result_bind_Ok in Hv as ([[t1 p1] n1] & Hv1 & Hv). cbn [fmap list_fmap fst] in *. apply NoDup_cons in Hnd as [Hni Hnd].
  pose proof (validate_all_new _ _ _ Hv) as Hn1. cbn [snd] in Hn1. cbn [for_each]. ewp_step.
  eapply (publish_one hash payload total pinned new t1 p1 n1); [done|done|lia|apply Hsame; by left|]. intros s1 Hp1 Hi.
  pose proof (in_pins _ _ _ _ Hi) as Hps. pose proof (pu_pins _ _ _ _ Hp) as Hps0.
  assert (Hother : ∀ k, k ∈ unique.*1 → k ≠ hash) by (by intros k Hk ->).
  eapply ewp_mono; [apply (IH t1 p1 n1 s1); try done| |done].
  - intros k Hk. apply (inserted_other hash payload s); [done|by apply Hother| |apply Hsame; by right].
    intros Hx. rewrite Hps0. apply Hpin; [by right|done].
  - intros k Hk. apply Hpin. by right.
  - intros [] s' [H1 H2 H3 H4 H5]. split.
    + done.
    + congruence.
    + intros h p [[= -> ->]|Hin]%elem_of_cons Hx; [|apply H3; [done|by rewrite Hps]].
      rewrite H4 by (done || by rewrite Hps). by apply (in_body _ _ _ _ Hi).
    + intros k [Hne Hk]%not_elem_of_cons Hx. rewrite H4 by (done || by rewrite Hps). by apply (in_kept _ _ _ _ Hi).
    + intros k e [Hne Hk]%not_elem_of_cons He. apply (in_sub _ _ _ _ Hi); [done|]. by apply H5.
Qed.
End delta.

(** C11: a response's delta is published whole or not at all: once [validate_delta] accepts bodies with distinct hashes
    that are new or pinned, inserting them one after another cannot fail, keeps every pinned body, and leaves every body
    that a pending packet pins in the cache. *)
Theorem delta_published_whole limits s unique new : limits_ok limits → store_ok limits s → validate_delta s unique = Ok new → NoDup unique.*1 →
  (∀ hash, hash ∈ unique.*1 → is_Some (cs_entries s !! hash) → is_Some (cs_pins s !! hash)) →
  ∃ s', for_each (λ '(hash, payload), insert_verified limits hash payload) unique s = Some (Ok tt, s') ∧ published limits unique s s'.
Proof.
  intros Hl Hs Hv Hnd Hpin. unfold validate_delta in Hv. apply result_bind_Ok in Hv as ([[t p] n] & Hv & Hcap).
  assert (Z.of_nat (size (pinned_entries s)) + n ≤ MAX_CLIENT_BLOB_CACHE_ENTRIES) as Hfit.
  { assert (size (pinned_entries s) ≤ size (cs_pins s))%nat by (rewrite <-(size_dom (D := gset Z)); apply subseteq_size; unfold pinned_entries; set_solver).
    revert Hcap. unfold sat_add, MAX_CLIENT_BLOB_CACHE_ENTRIES, USIZE_MAX. case_match eqn:E; [done|]. intros _. apply andb_false_iff in E as [E|E]; apply Z.ltb_ge in E; lia. }
  pose proof (publish_all limits Hl s unique _ _ _ t p n s Hv) as H. forward H; [split; [done|done|lia|lia|lia]|]. specialize (H Hfit Hnd (λ _ _, eq_refl) Hpin).
  unfold ewp in H. destruct (for_each _ unique s) as [[[[]|e] s']|]; [by exists s'|done|done].
Qed.

Definition demo_pinned : CacheStore := pin 7 cache_default.
Lemma delta_published_whole_witness : ∃ s', for_each (λ '(hash, payload), insert_verified demo_limits hash payload) [(7, [1; 2]); (8, [3; 4; 5; 6])] demo_pinned = Some (Ok tt, s') ∧
  published demo_limits [(7, [1; 2]); (8, [3; 4; 5; 6])] demo_pinned s'.
Proof.
  apply (delta_published_whole demo_limits demo_pinned _ 2); [by split| |reflexivity| |].
  - apply pin_ok, cache_default_ok. by split.
  - apply NoDup_cons. split; [by intros [?|?%elem_of_nil]%elem_of_cons|apply NoDup_singleton].
  - intros hash _ [e He]. done.
Defined.
