(* ===== verification/BlobPackets.v ===== *)
(** * Packets of the blob cache resolver

    The parts of chunk packets that [protocol/src/blob_cache/resolver] reads and writes: the columns a packet names, its
    blob hashes, the recoveries that replace it, and its reconstruction from cached bodies. Fields that are only carried
    along (height maps, the contents of other world events) are left out. *)
From stdpp Require Import base numbers list gmap sets sorting.
From S2P Require Import Prelude Counting Effects BlobStore.
#[local] Open Scope Z_scope.

(** ** Data *)

Record ColumnKey := mk_column { ck_dimension : Z; ck_x : Z; ck_z : Z }.
#[export] Instance column_eq_dec : EqDecision ColumnKey.
Proof. solve_decision. Defined.
#[export] Instance column_countable : Countable ColumnKey.
Proof. refine (inj_countable' (λ c, (ck_dimension c, ck_x c, ck_z c)) (λ '(d, x, z), mk_column d x z) _). by intros []. Defined.

Record LevelChunk := mk_level_chunk_packet {
  lc_dimension : Z; lc_x : Z; lc_z : Z; lc_sub_chunks_count : Z; lc_request_limit : option Z; lc_cache_enabled : bool; lc_metadata : list Z; lc_data : Blob }.

Inductive SubChunkRequestResult :=
  | Success | Levelchunkdoesntexist | Wrongdimension | Playerdoesntexist | Indexoutofbounds | Successallair | UnknownResult (code : Z).
Definition is_success (r : SubChunkRequestResult) : bool := match r with Success => true | _ => false end.

Record SubChunkData := mk_sub_chunk_data {
  sd_offset : Z * Z * Z; sd_result : SubChunkRequestResult; sd_payload : option Blob; sd_blob_id : option Z }.
Record SubChunk := mk_sub_chunk_packet { sp_cache_enabled : bool; sp_dimension : Z; sp_center : Z * Z * Z; sp_entries : list SubChunkData }.

Inductive PendingPacket := PendingLevelChunk (packet : LevelChunk) | PendingSubChunk (packet : SubChunk).
Inductive Packet := PacketLevelChunk (packet : LevelChunk) | PacketSubChunk (packet : SubChunk) | PacketOther (id : Z).

Record ChunkResyncEvent := mk_resync { cr_dimension : Z; cr_x : Z; cr_z : Z; cr_requested_sub_chunks : option Z; cr_requested_ys : option (list Z) }.
Record SubChunkReplyAdmissionEvent := mk_reply_admission { ra_dimension : Z; ra_positions : list (Z * Z * Z) }.

(** World events by what they say of columns. *)
Inductive WorldEvent :=
  | EventLevelChunk (column : ColumnKey)
  | EventSubChunks (dimension : Z) (positions : list (Z * Z * Z))
  | EventBlockUpdates (updates : list (Z * (Z * Z * Z)))
  | EventSyncedBlockUpdates (updates : list (Z * (Z * Z * Z)))
  | EventBlockEntityUpdate (dimension : Z) (position : Z * Z * Z)
  | EventChunkResync (event : ChunkResyncEvent)
  | EventOther (id : Z).

Inductive ResolverReady := ReadyPacket (packet : Packet) | ReadyEvent (event : WorldEvent) | ReadyLevelChunkBytes (column : ColumnKey) (payload : Blob).

(** Sizes that the compiler chooses, and the answers of [capacity()] in the order the code asks: what a container holds
    ready is up to the allocator and to its history. *)
Record Layout := mk_layout {
  size_level_chunk : Z; size_sub_chunk : Z; size_sub_chunk_data : Z; size_missing_blob : Z;
  size_pending : Z; size_hash_set : Z; size_ready : Z; size_immediate : Z; size_recovery : Z; size_prefetch : Z; size_packet_data : Z;
  capacity : nat → Z;
}.

(** ** Hashes and columns *)

(** Keeps the first of equal elements. *)
Fixpoint unique_from `{Countable A} (seen : gset A) (l : list A) : list A :=
  match l with
  | [] => []
  | x :: l => if decide (x ∈ seen) then unique_from seen l else x :: unique_from ({[x]} ∪ seen) l
  end.
Definition stable_unique (hashes : list Z) : list Z := unique_from ∅ hashes.
Definition stable_unique_columns (columns : list ColumnKey) : list ColumnKey := unique_from ∅ columns.

(** [i32::saturating_add] *)
Definition sat_i32 (a b : Z) : Z := Z.max (- 2 ^ 31) (Z.min (a + b) (2 ^ 31 - 1)).

Definition subchunk_hashes (entries : list SubChunkData) : list Z :=
  omap (λ entry, if is_success (sd_result entry) then sd_blob_id entry else None) entries.
Definition subchunk_referenced_blob_hashes (packet : SubChunk) : list Z :=
  if sp_cache_enabled packet then subchunk_hashes (sp_entries packet) else [].
Definition referenced_blob_hashes (packet : Packet) : list Z :=
  match packet with
  | PacketLevelChunk packet => lc_metadata packet
  | PacketSubChunk packet => subchunk_referenced_blob_hashes packet
  | PacketOther _ => []
  end.
Definition pending_referenced_blob_hashes (packet : PendingPacket) : list Z :=
  match packet with PendingLevelChunk packet => lc_metadata packet | PendingSubChunk packet => subchunk_referenced_blob_hashes packet end.

Definition level_chunk_column (packet : LevelChunk) : ColumnKey := mk_column (lc_dimension packet) (lc_x packet) (lc_z packet).
(** The absolute position of an entry. *)
Definition entry_position (packet : SubChunk) (entry : SubChunkData) : Z * Z * Z :=
  let '(x, y, z) := sp_center packet in let '(dx, dy, dz) := sd_offset entry in (sat_i32 x dx, sat_i32 y dy, sat_i32 z dz).
Definition pending_sub_chunk_column (packet : SubChunk) (entry : SubChunkData) : ColumnKey :=
  let '(x, _, z) := entry_position packet entry in mk_column (sp_dimension packet) x z.
Definition pending_packet_columns (packet : PendingPacket) : list ColumnKey :=
  match packet with
  | PendingLevelChunk packet => [level_chunk_column packet]
  | PendingSubChunk packet => if sp_cache_enabled packet then stable_unique_columns (pending_sub_chunk_column packet <$> sp_entries packet) else []
  end.

(** [div_euclid(16)] *)
Definition block_column (dimension : Z) (position : Z * Z * Z) : ColumnKey :=
  let '(x, _, z) := position in mk_column dimension (x / 16) (z / 16).
Definition ready_value_columns (value : ResolverReady) : list ColumnKey :=
  match value with
  | ReadyLevelChunkBytes column _ => [column]
  | ReadyPacket _ => []
  | ReadyEvent event =>
    match event with
    | EventLevelChunk column => [column]
    | EventSubChunks dimension positions => stable_unique_columns ((λ '(x, _, z), mk_column dimension x z) <$> positions)
    | EventBlockUpdates updates | EventSyncedBlockUpdates updates => stable_unique_columns ((λ '(dimension, position), block_column dimension position) <$> updates)
    | EventBlockEntityUpdate dimension position => [block_column dimension position]
    | EventChunkResync _ | EventOther _ => []
    end
  end.

(** ** Recoveries *)

Definition column_recovery (column : ColumnKey) (ys : option (list Z)) : ChunkResyncEvent :=
  mk_resync (ck_dimension column) (ck_x column) (ck_z column) None ys.
Definition level_chunk_recovery (packet : LevelChunk) : ChunkResyncEvent := column_recovery (level_chunk_column packet) None.
Definition chunk_recovery (packet : Packet) : option ChunkResyncEvent :=
  match packet with PacketLevelChunk packet => Some (level_chunk_recovery packet) | _ => None end.
Definition unadmitted_packet_recovery (packet : PendingPacket) : list ChunkResyncEvent :=
  match packet with PendingLevelChunk packet => [level_chunk_recovery packet] | PendingSubChunk _ => [] end.

(** A [BTreeMap] in key order. *)
Definition pair_le (a b : Z * Z) : Prop := a.1 < b.1 ∨ a.1 = b.1 ∧ a.2 ≤ b.2.
#[export] Instance pair_le_dec : RelDecision pair_le.
Proof. intros a b. unfold pair_le. apply _. Defined.
Definition sorted_ys (ys : gset Z) : list Z := merge_sort Z.le (elements ys).
Definition by_column (positions : list (Z * Z * Z)) : gmap (Z * Z) (gset Z) :=
  foldl (λ m '(x, y, z), <[(x, z) := {[y]} ∪ default ∅ (m !! (x, z))]> m) ∅ positions.
Definition sub_chunk_recoveries (dimension : Z) (positions : list (Z * Z * Z)) : list ChunkResyncEvent :=
  (λ '((x, z), ys), mk_resync dimension x z None (Some (sorted_ys ys))) <$>
    merge_sort (λ a b : (Z * Z) * gset Z, pair_le a.1 b.1) (map_to_list (by_column positions)).
Definition pending_packet_recovery (packet : PendingPacket) : list ChunkResyncEvent :=
  match packet with
  | PendingLevelChunk packet => [level_chunk_recovery packet]
  | PendingSubChunk packet =>
    if sp_cache_enabled packet then sub_chunk_recoveries (sp_dimension packet) (entry_position packet <$> sp_entries packet) else []
  end.
Definition ready_value_recovery (value : ResolverReady) : list ChunkResyncEvent :=
  match value with
  | ReadyPacket (PacketLevelChunk packet) => [level_chunk_recovery packet]
  | ReadyPacket (PacketSubChunk packet) => sub_chunk_recoveries (sp_dimension packet) (entry_position packet <$> sp_entries packet)
  | _ => []
  end.
Definition cached_sub_chunk_admission (packet : PendingPacket) : option SubChunkReplyAdmissionEvent :=
  match packet with
  | PendingLevelChunk _ => None
  | PendingSubChunk packet =>
    if negb (sp_cache_enabled packet) then None
    else match sp_entries packet with [] => None | _ => Some (mk_reply_admission (sp_dimension packet) (entry_position packet <$> sp_entries packet)) end
  end.

(** ** Byte accounts *)

Definition option_len (payload : option Blob) : Z := from_option blob_len 0 payload.
(** [try_fold] of [checked_add] *)
Definition checked_sum (start : Z) (l : list Z) : option Z := foldM checked_add start l.

Section layout.
Context (layout : Layout).

(** [SubChunk]'s containers and inline bodies; [capacity] is that of its entries. *)
Definition sub_chunk_bytes (capacity : Z) (entries : list SubChunkData) : option Z :=
  containers ← checked_mul capacity (size_sub_chunk_data layout);
  bytes ← checked_add containers (size_sub_chunk layout);
  checked_sum bytes ((λ entry, option_len (sd_payload entry)) <$> entries).
(** [capacity] is that of the cache metadata. *)
Definition level_chunk_bytes (capacity : Z) (packet : LevelChunk) : option Z :=
  hash_bytes ← checked_mul capacity 8;
  bytes ← checked_add (size_level_chunk layout) (blob_len (lc_data packet));
  checked_add bytes hash_bytes.
Definition or_overflow (bytes : option Z) : result BlobCacheError Z := match bytes with Some bytes => Ok bytes | None => Err ByteCountOverflow end.
Definition cached_packet_retained_bytes (capacity : Z) (packet : Packet) : result BlobCacheError Z :=
  match packet with
  | PacketLevelChunk packet => or_overflow (level_chunk_bytes capacity packet)
  | PacketSubChunk packet => or_overflow (sub_chunk_bytes capacity (sp_entries packet))
  | PacketOther _ => Err NotCachedPacket
  end.
Definition ready_value_accounted_bytes (capacity : Z) (value : ResolverReady) : result BlobCacheError Z :=
  match value with
  | ReadyPacket (PacketLevelChunk packet) => or_overflow (level_chunk_bytes capacity packet)
  | ReadyPacket (PacketSubChunk packet) => if sp_cache_enabled packet then Err NotCachedPacket else or_overflow (sub_chunk_bytes capacity (sp_entries packet))
  | _ => Err NotCachedPacket
  end.
End layout.

(** ** Reconstruction *)

(** [Ok(None)] while a referenced body is absent. *)
Fixpoint level_chunk_projection (s : CacheStore) (bytes : Z) (hashes : list Z) : result BlobCacheError (option Z) :=
  match hashes with
  | [] => Ok (Some bytes)
  | hash :: hashes =>
    match cs_entries s !! hash with
    | None => Ok None
    | Some entry => bytes ← or_overflow (checked_add bytes (blob_len (ce_payload entry))); level_chunk_projection s bytes hashes
    end
  end.
Fixpoint sub_chunk_projection (s : CacheStore) (bytes : Z) (entries : list SubChunkData) : result BlobCacheError (option Z) :=
  match entries with
  | [] => Ok (Some bytes)
  | entry :: entries =>
    match (if is_success (sd_result entry) then sd_blob_id entry else None) with
    | None => sub_chunk_projection s bytes entries
    | Some blob_id =>
      match cs_entries s !! blob_id with
      | None => Ok None
      | Some blob =>
        bytes ← or_overflow (bytes ← checked_add bytes (blob_len (ce_payload blob)); checked_add bytes (option_len (sd_payload entry)));
        sub_chunk_projection s bytes entries
      end
    end
  end.
Definition projected_reconstruction_bytes (s : CacheStore) (packet : PendingPacket) (hashes : list Z) : result BlobCacheError (option Z) :=
  match packet with
  | PendingLevelChunk packet => level_chunk_projection s (blob_len (lc_data packet)) hashes
  | PendingSubChunk packet => if negb (sp_cache_enabled packet) then Err NotCachedPacket else sub_chunk_projection s 0 (sp_entries packet)
  end.

(** [cache.get(hash).ok_or(MissingResolvedBlob(hash))] *)
Definition get_resolved (hash : Z) : C Blob := blob ← get hash; ok_or blob (MissingResolvedBlob hash).

Fixpoint sum_bodies (bytes : Z) (hashes : list Z) : C Z :=
  match hashes with
  | [] => mret bytes
  | hash :: hashes => blob ← get_resolved hash; bytes ← ok_or (checked_add bytes (blob_len blob)) ByteCountOverflow; sum_bodies bytes hashes
  end.
Fixpoint collect_bodies (payload : Blob) (hashes : list Z) : C Blob :=
  match hashes with [] => mret payload | hash :: hashes => blob ← get_resolved hash; collect_bodies (payload ++ blob) hashes end.

Definition resolve_entry (entry : SubChunkData) : C SubChunkData :=
  let tail := default [] (sd_payload entry) in
  resolved ← match (if is_success (sd_result entry) then sd_blob_id entry else None) with
    | Some blob_id =>
      blob ← get_resolved blob_id;
      _ ← ok_or (checked_add (blob_len blob) (blob_len tail)) ByteCountOverflow;
      mret (blob ++ tail)
    | None => mret tail
    end;
  mret (mk_sub_chunk_data (sd_offset entry) (sd_result entry) (Some resolved) None).
Fixpoint resolve_entries (entries : list SubChunkData) : C (list SubChunkData) :=
  match entries with [] => mret [] | entry :: entries => resolved ← resolve_entry entry; rest ← resolve_entries entries; mret (resolved :: rest) end.

(** [reconstruct]; its caller counts the result. *)
Definition reconstruct (packet : PendingPacket) (hashes : list Z) : C ResolverReady :=
  match packet with
  | PendingLevelChunk packet =>
    _ ← sum_bodies (blob_len (lc_data packet)) hashes;
    payload ← collect_bodies [] hashes;
    mret (ReadyPacket (PacketLevelChunk (mk_level_chunk_packet (lc_dimension packet) (lc_x packet) (lc_z packet) (lc_sub_chunks_count packet)
      (lc_request_limit packet) false [] (payload ++ lc_data packet))))
  | PendingSubChunk packet =>
    if negb (sp_cache_enabled packet) then eff_throw NotCachedPacket
    else
      entries ← resolve_entries (sp_entries packet);
      mret (ReadyPacket (PacketSubChunk (mk_sub_chunk_packet false (sp_dimension packet) (sp_center packet) entries)))
  end.
