(* ===== verification/BlobPacketsSpec.v ===== *)
(** * Packets of the resolver: reconstruction, columns and recoveries

    Reconstruction puts the bodies with the named hashes in front of what the packet carries; a packet needs as many
    recovery slots as it has columns. *)
From stdpp Require Import base numbers list gmap sets sorting.
From S2P Require Import Prelude Counting Effects BlobStore BlobStoreSpec BlobStoreTheorems BlobPackets.
#[local] Open Scope Z_scope.

Implicit Types (s : CacheStore) (hash k : Z) (packet : PendingPacket).

(** ** Unique elements *)

Section unique.
Context `{Countable A}.

Lemma elem_of_unique_from (seen : gset A) l x : x ∈ unique_from seen l ↔ x ∈ l ∧ x ∉ seen.
Proof.
  revert seen. induction l as [|y l IH]; intros seen; simpl.
  { split; [intros Hx; by apply elem_of_nil in Hx|intros [Hx _]; by apply elem_of_nil in Hx]. }
  case_decide as Hy; [rewrite IH|rewrite elem_of_cons, IH]; destruct (decide (x = y)) as [->|]; set_solver.
Qed.

Lemma unique_from_nodup (seen : gset A) l : NoDup (unique_from seen l).
Proof.
  revert seen. induction l as [|y l IH]; intros seen; simpl; [apply NoDup_nil_2|]. case_decide as Hy; [done|].
  apply NoDup_cons. split; [|done]. rewrite elem_of_unique_from. set_solver.
Qed.
End unique.

Lemma elem_of_stable_unique hashes hash : hash ∈ stable_unique hashes ↔ hash ∈ hashes.
Proof. unfold stable_unique. rewrite elem_of_unique_from. set_solver. Qed.
Lemma stable_unique_nodup hashes : NoDup (stable_unique hashes).
Proof. apply unique_from_nodup. Qed.

(** ** Cached packets *)

Definition packet_cached packet : Prop :=
  match packet with PendingLevelChunk p => lc_cache_enabled p = true | PendingSubChunk p => sp_cache_enabled p = true end.
Definition packet_hashes packet : list Z :=
  match packet with PendingLevelChunk p => lc_metadata p | PendingSubChunk p => subchunk_hashes (sp_entries p) end.

Lemma packet_hashes_eq packet : packet_cached packet → pending_referenced_blob_hashes packet = packet_hashes packet.
Proof. destruct packet; simpl; [done|]. unfold subchunk_referenced_blob_hashes. by intros ->. Qed.

Definition blob_id_of (entry : SubChunkData) : option Z := if is_success (sd_result entry) then sd_blob_id entry else None.
Lemma subchunk_hashes_eq entries : subchunk_hashes entries = omap blob_id_of entries.
Proof. done. Qed.

(** ** Reconstruction *)

(** The bodies of the cache, touched or not. *)
Definition body s hash : option Blob := ce_payload <$> cs_entries s !! hash.
Definition same_bodies s s' : Prop := cs_pins s' = cs_pins s ∧ ∀ k, body s' k = body s k.

Lemma same_bodies_refl s : same_bodies s s.
Proof. done. Qed.
Lemma same_bodies_trans s1 s2 s3 : same_bodies s1 s2 → same_bodies s2 s3 → same_bodies s1 s3.
Proof. intros [Hp Hb] [Hp' Hb']. split; [congruence|]. intros k. by rewrite Hb'. Qed.

Definition rebuilt_entry (bodies : Z → option Blob) (entry entry' : SubChunkData) : Prop :=
  ∃ blob, (match blob_id_of entry with Some id => bodies id = Some blob | None => blob = [] end) ∧
    entry' = mk_sub_chunk_data (sd_offset entry) (sd_result entry) (Some (blob ++ default [] (sd_payload entry))) None.
(** The packet with its bodies inline. *)
Definition rebuilt (bodies : Z → option Blob) packet (value : ResolverReady) : Prop :=
  match packet with
  | PendingLevelChunk p => ∃ blobs, mapM bodies (lc_metadata p) = Some blobs ∧
    value = ReadyPacket (PacketLevelChunk (mk_level_chunk_packet (lc_dimension p) (lc_x p) (lc_z p) (lc_sub_chunks_count p)
      (lc_request_limit p) false [] (concat blobs ++ lc_data p)))
  | PendingSubChunk p => ∃ entries, Forall2 (rebuilt_entry bodies) (sp_entries p) entries ∧
    value = ReadyPacket (PacketSubChunk (mk_sub_chunk_packet false (sp_dimension p) (sp_center p) entries))
  end.

Section reconstruct.
Context (limits : BlobCacheLimits).

Lemma ewp_get_resolved hash s blob (Q : Blob → CacheStore → Prop) E : store_ok limits s → body s hash = Some blob →
  (∀ s', store_ok limits s' → same_bodies s s' → Q blob s') → ewp (get_resolved hash) s Q E.
Proof.
  intros Hs Hb HQ. unfold get_resolved. ewp_step. destruct (get_ok limits hash s Hs) as (s' & Hg & Hs' & Hp & Hpay).
  unfold ewp. rewrite Hg. unfold body in Hb. rewrite Hb. simpl. apply HQ; [done|]. split; [done|]. intros k. apply Hpay.
Qed.

Lemma mapM_cons_Some {A B} (f : A → option B) x l ys : mapM f (x :: l) = Some ys → ∃ y ys', f x = Some y ∧ mapM f l = Some ys' ∧ ys = y :: ys'.
Proof using Type. rewrite mapM_Some. intros (y & ys' & ? & ? & ->)%Forall2_cons_inv_l. exists y, ys'. by rewrite mapM_Some. Qed.

Definition bodies_len (blobs : list Blob) : Z := blob_len (concat blobs).
#[local] Arguments bodies_len : simpl never.
Lemma blob_len_app (a b : Blob) : blob_len (a ++ b) = blob_len a + blob_len b.
Proof using Type. unfold blob_len. rewrite length_app. lia. Qed.
Lemma bodies_len_cons blob blobs : bodies_len (blob :: blobs) = blob_len blob + bodies_len blobs.
Proof using Type. apply blob_len_app. Qed.

Lemma body_same s s' hash blob : same_bodies s s' → body s hash = Some blob → body s' hash = Some blob.
Proof using Type. intros [_ H] Hb. by rewrite H. Qed.
Lemma bodies_same s s' hashes blobs : same_bodies s s' → mapM (body s) hashes = Some blobs → mapM (body s') hashes = Some blobs.
Proof using Type. intros [_ H]. rewrite !mapM_Some. intros Hf. eapply Forall2_impl; [exact Hf|]. simpl. intros h b. by rewrite H. Qed.

Lemma ewp_sum_bodies bytes hashes s blobs (Q : Z → CacheStore → Prop) (E : BlobCacheError → CacheStore → Prop) : store_ok limits s →
  mapM (body s) hashes = Some blobs → bytes + bodies_len blobs ≤ USIZE_MAX →
  (∀ s', store_ok limits s' → same_bodies s s' → Q (bytes + bodies_len blobs) s') → ewp (sum_bodies bytes hashes) s Q E.
Proof using Type.
  revert bytes s blobs. induction hashes as [|hash hashes IH]; intros bytes s blobs Hs Hb Hle HQ; simpl.
  { injection Hb as <-. ewp_step. rewrite <-(Z.add_0_r bytes). by apply HQ. }
  apply mapM_cons_Some in Hb as (blob & blobs' & Hh & Hm & ->).
  rewrite bodies_len_cons in Hle, HQ. pose proof (blob_len_nonneg (concat blobs')).
  ewp_step. apply (ewp_get_resolved hash s blob); [done..|]. intros s1 Hs1 Hsame. unfold checked_add, bodies_len in *. rewrite (proj2 (Z.leb_le _ _)) by lia.
  simpl. ewp_steps. apply (IH _ _ blobs'); [done|by eapply bodies_same|unfold bodies_len; lia|].
  intros s2 Hs2 Hsame2. unfold bodies_len. rewrite <-Z.add_assoc. apply HQ; [done|by eapply same_bodies_trans].
Qed.

Lemma ewp_collect_bodies payload hashes s blobs (Q : Blob → CacheStore → Prop) E : store_ok limits s → mapM (body s) hashes = Some blobs →
  (∀ s', store_ok limits s' → same_bodies s s' → Q (payload ++ concat blobs) s') → ewp (collect_bodies payload hashes) s Q E.
Proof using Type.
  revert payload s blobs. induction hashes as [|hash hashes IH]; intros payload s blobs Hs Hb HQ; simpl.
  { injection Hb as <-. ewp_step. rewrite <-(app_nil_r payload). by apply HQ. }
  apply mapM_cons_Some in Hb as (blob & blobs' & Hh & Hm & ->).
  ewp_step. apply (ewp_get_resolved hash s blob); [done..|]. intros s1 Hs1 Hsame. apply (IH _ _ blobs'); [done|by eapply bodies_same|].
  intros s2 Hs2 Hsame2. rewrite <-app_assoc. apply HQ; [done|by eapply same_bodies_trans].
Qed.

Definition entry_len (s : CacheStore) (entry : SubChunkData) : Z :=
  from_option (λ id, from_option blob_len 0 (body s id) + option_len (sd_payload entry)) 0 (blob_id_of entry).

Lemma ewp_resolve_entry entry s (Q : SubChunkData → CacheStore → Prop) E : store_ok limits s →
  (∀ id, blob_id_of entry = Some id → is_Some (body s id)) → entry_len s entry ≤ USIZE_MAX →
  (∀ entry' s', rebuilt_entry (body s) entry entry' → store_ok limits s' → same_bodies s s' → Q entry' s') → ewp (resolve_entry entry) s Q E.
Proof using Type.
  intros Hs Hb Hle HQ. unfold resolve_entry, entry_len in *. fold (blob_id_of entry) in *. destruct (blob_id_of entry) as [id|] eqn:Hid.
  - destruct (Hb id eq_refl) as [blob Hblob]. simpl in Hle. rewrite Hblob in Hle. simpl in Hle. ewp_steps.
    apply (ewp_get_resolved id s blob); [done..|]. intros s1 Hs1 Hsame. unfold checked_add. rewrite (proj2 (Z.leb_le _ _)) by (unfold option_len, blob_len in *; destruct (sd_payload entry); simpl in *; lia).
    simpl. ewp_steps. apply HQ; [|done..]. exists blob. by rewrite Hid.
  - ewp_steps. apply HQ; [|done|apply same_bodies_refl]. exists []. by rewrite Hid.
Qed.

Lemma rebuilt_entry_same s s' entry entry' : same_bodies s s' → rebuilt_entry (body s') entry entry' → rebuilt_entry (body s) entry entry'.
Proof using Type. intros [_ H] (blob & Hb & ->). exists blob. split; [|done]. destruct (blob_id_of entry); [by rewrite <-H|done]. Qed.
Lemma entry_len_same s s' entry : same_bodies s s' → entry_len s' entry = entry_len s entry.
Proof using Type. intros [_ H]. unfold entry_len. destruct (blob_id_of entry); simpl; [by rewrite H|done]. Qed.

Lemma ewp_resolve_entries entries s (Q : list SubChunkData → CacheStore → Prop) E : store_ok limits s →
  (∀ id, id ∈ subchunk_hashes entries → is_Some (body s id)) → (∀ entry, entry ∈ entries → entry_len s entry ≤ USIZE_MAX) →
  (∀ entries' s', Forall2 (rebuilt_entry (body s)) entries entries' → store_ok limits s' → same_bodies s s' → Q entries' s') → ewp (resolve_entries entries) s Q E.
Proof using Type.
  revert s Q. induction entries as [|entry entries IH]; intros s Q Hs Hb Hle HQ; simpl.
  { ewp_step. by apply HQ. }
  ewp_step. apply ewp_resolve_entry; [done|intros id Hid; apply Hb; rewrite subchunk_hashes_eq; simpl; rewrite Hid; by left|apply Hle; by left|].
  intros entry' s1 He Hs1 Hsame. ewp_step. apply IH; [done|..].
  - intros id Hid. rewrite (proj2 Hsame). apply Hb. rewrite subchunk_hashes_eq in *. simpl. destruct (blob_id_of entry); [by right|done].
  - intros x Hx. rewrite (entry_len_same s) by done. apply Hle. by right.
  - intros entries' s2 Hf Hs2 Hsame2. ewp_steps. apply HQ; [|done|by eapply same_bodies_trans]. constructor; [done|].
    eapply Forall2_impl; [exact Hf|]. intros ??. by apply rebuilt_entry_same.
Qed.

(** ** The projection of the size *)

(** The sum of checked additions fails exactly when it is too large. *)
Definition checked_total (n : Z) : result BlobCacheError (option Z) := if n <=? USIZE_MAX then Ok (Some n) else Err ByteCountOverflow.

Lemma level_chunk_projection_spec s bytes hashes blobs : bytes ≤ USIZE_MAX → mapM (body s) hashes = Some blobs →
  level_chunk_projection s bytes hashes = checked_total (bytes + bodies_len blobs).
Proof using Type.
  revert bytes blobs. induction hashes as [|hash hashes IH]; intros bytes blobs Hle; simpl.
  { intros [= <-]. unfold bodies_len, blob_len. simpl. rewrite Z.add_0_r. unfold checked_total. by rewrite (proj2 (Z.leb_le _ _)). }
  intros (blob & blobs' & Hh & Hm & ->)%mapM_cons_Some. unfold body in Hh. destruct (cs_entries s !! hash) as [entry|] eqn:He; simplify_eq/=. rewrite bodies_len_cons. pose proof (blob_len_nonneg (concat blobs')) as Hnn. unfold or_overflow, checked_add, bodies_len in *.
  destruct (Z.leb_spec (bytes + blob_len (ce_payload entry)) USIZE_MAX) as [Hl|Hl]; simpl.
  - rewrite (IH _ blobs'); [|done..]. f_equal. lia.
  - unfold checked_total. by rewrite (proj2 (Z.leb_gt _ _)) by lia.
Qed.

Definition entries_len (s : CacheStore) (entries : list SubChunkData) : Z := foldr (λ entry acc, entry_len s entry + acc) 0 entries.
Lemma entry_len_nonneg s entry : 0 ≤ entry_len s entry.
Proof using Type.
  unfold entry_len. destruct (blob_id_of entry) as [id|]; simpl; [|lia]. unfold option_len.
  destruct (body s id), (sd_payload entry); simpl; repeat match goal with |- context [blob_len ?b] => pose proof (blob_len_nonneg b); generalize dependent (blob_len b); intros end; lia.
Qed.
Lemma entries_len_nonneg s entries : 0 ≤ entries_len s entries.
Proof using Type. induction entries as [|entry entries IH]; simpl; [done|]. pose proof (entry_len_nonneg s entry). lia. Qed.
Lemma entry_len_le_entries s entries entry : entry ∈ entries → entry_len s entry ≤ entries_len s entries.
Proof using Type.
  induction entries as [|x entries IH]; intros Hin; [by apply elem_of_nil in Hin|]. simpl. pose proof (entry_len_nonneg s x). pose proof (entries_len_nonneg s entries).
  apply elem_of_cons in Hin as [->|Hin]; [lia|]. specialize (IH Hin). lia.
Qed.

Lemma sub_chunk_projection_spec s bytes entries : bytes ≤ USIZE_MAX → (∀ id, id ∈ subchunk_hashes entries → is_Some (body s id)) →
  sub_chunk_projection s bytes entries = checked_total (bytes + entries_len s entries).
Proof using Type.
  revert bytes. induction entries as [|entry entries IH]; intros bytes Hle Hb; simpl.
  { rewrite Z.add_0_r. unfold checked_total. by rewrite (proj2 (Z.leb_le _ _)). }
  assert (Hb' : ∀ id, id ∈ subchunk_hashes entries → is_Some (body s id)).
  { intros id Hid. apply Hb. rewrite subchunk_hashes_eq in *. simpl. destruct (blob_id_of entry); [by right|done]. }
  unfold entry_len. fold (blob_id_of entry). pose proof (entries_len_nonneg s entries) as Hnn. destruct (blob_id_of entry) as [id|] eqn:Hid; simpl; [|by apply IH].
  destruct (Hb id) as [blob Hblob]; [rewrite subchunk_hashes_eq; simpl; rewrite Hid; by left|]. rewrite Hblob. unfold body in Hblob.
  destruct (cs_entries s !! id) as [e|]; simplify_eq/=. assert (0 ≤ option_len (sd_payload entry)) by (unfold option_len; destruct (sd_payload entry); simpl; [apply blob_len_nonneg|done]).
  unfold or_overflow, checked_add at 2. destruct (Z.leb_spec (bytes + blob_len (ce_payload e)) USIZE_MAX) as [H1|H1]; simpl.
  - unfold checked_add. destruct (Z.leb_spec (bytes + blob_len (ce_payload e) + option_len (sd_payload entry)) USIZE_MAX) as [H2|H2]; simpl.
    + rewrite IH by done. f_equal. lia.
    + unfold checked_total. by rewrite (proj2 (Z.leb_gt _ _)) by lia.
  - unfold checked_total. by rewrite (proj2 (Z.leb_gt _ _)) by lia.
Qed.

(** Bodies of the whole reconstruction. *)
Definition reconstruction_len s packet : Z :=
  match packet with
  | PendingLevelChunk p => blob_len (lc_data p) + from_option bodies_len 0 (mapM (body s) (lc_metadata p))
  | PendingSubChunk p => entries_len s (sp_entries p)
  end.
Lemma projected_spec s packet : packet_cached packet → (∀ hash, hash ∈ packet_hashes packet → is_Some (body s hash)) →
  blob_len (from_option lc_data [] (match packet with PendingLevelChunk p => Some p | _ => None end)) ≤ USIZE_MAX →
  projected_reconstruction_bytes s packet (packet_hashes packet) = checked_total (reconstruction_len s packet).
Proof using Type.
  destruct packet as [p|p]; simpl; intros Hc Hb Hle.
  - destruct (mapM (body s) (lc_metadata p)) as [blobs|] eqn:Hm; [by rewrite (level_chunk_projection_spec _ _ _ blobs)|].
    apply mapM_None_1, Exists_exists in Hm as (hash & Hin & Hn). destruct (Hb hash Hin) as [? Hx]. congruence.
  - rewrite Hc. simpl. by apply sub_chunk_projection_spec.
Qed.

Lemma ewp_reconstruct packet s (Q : ResolverReady → CacheStore → Prop) E : store_ok limits s → packet_cached packet →
  (∀ hash, hash ∈ packet_hashes packet → is_Some (body s hash)) → reconstruction_len s packet ≤ USIZE_MAX →
  (∀ value s', rebuilt (body s) packet value → store_ok limits s' → same_bodies s s' → Q value s') → ewp (reconstruct packet (packet_hashes packet)) s Q E.
Proof using Type.
  intros Hs Hc Hb Hle HQ. destruct packet as [p|p]; simpl in *.
  - destruct (mapM (body s) (lc_metadata p)) as [blobs|] eqn:Hm.
    2:{ apply mapM_None_1, Exists_exists in Hm as (hash & Hin & Hn). destruct (Hb hash Hin) as [? Hx]. congruence. }
    simpl in Hle. ewp_step. apply (ewp_sum_bodies _ _ _ blobs); [done..|]. intros s1 Hs1 Hsame. ewp_step.
    apply (ewp_collect_bodies _ _ _ blobs); [done|by eapply bodies_same|]. intros s2 Hs2 Hsame2. ewp_step. apply HQ; [|done|by eapply same_bodies_trans].
    exists blobs. split; [done|]. by rewrite app_nil_l.
  - rewrite Hc. simpl. ewp_step. apply ewp_resolve_entries; [done|done|intros entry Hin; pose proof (entry_len_le_entries s _ _ Hin); lia|].
    intros entries' s' Hf Hs' Hsame. ewp_step. apply HQ; [|done..]. by exists entries'.
Qed.
End reconstruct.

(** ** Columns and recoveries *)

Lemma entry_position_rebuilt p p' bodies entries : sp_center p' = sp_center p → Forall2 (rebuilt_entry bodies) (sp_entries p) entries →
  entry_position p' <$> entries = entry_position p <$> sp_entries p.
Proof.
  intros Hc Hf. induction Hf as [|x y l k (blob & _ & ->) Hf IH]; simpl; [done|]. f_equal; [|done]. unfold entry_position. by rewrite Hc.
Qed.

(** A reconstructed packet is recovered like the packet it stands for. *)
Lemma rebuilt_recovery bodies packet value : packet_cached packet → rebuilt bodies packet value → ready_value_recovery value = pending_packet_recovery packet.
Proof.
  destruct packet as [p|p]; simpl; [by intros _ (blobs & _ & ->)|]. intros -> (entries & Hf & ->). simpl. f_equal. by eapply entry_position_rebuilt.
Qed.

Lemma by_column_lookup positions x z y : y ∈ default ∅ (by_column positions !! (x, z)) ↔ (x, y, z) ∈ positions.
Proof.
  unfold by_column. induction positions as [|[[x' y'] z'] positions IH] using rev_ind; simpl.
  { split; [intros H; by apply elem_of_empty in H|intros H; by apply elem_of_nil in H]. }
  rewrite foldl_app. simpl. rewrite elem_of_app, list_elem_of_singleton. destruct (decide ((x, z) = (x', z'))) as [[= -> ->]|Hne].
  - rewrite lookup_insert_eq. simpl. rewrite elem_of_union, elem_of_singleton, IH. naive_solver.
  - rewrite lookup_insert_ne by congruence. rewrite IH. naive_solver.
Qed.
Lemma by_column_dom positions x z : (x, z) ∈ dom (by_column positions) ↔ ∃ y, (x, y, z) ∈ positions.
Proof.
  unfold by_column. induction positions as [|[[x' y'] z'] positions IH] using rev_ind; simpl.
  { rewrite dom_empty. split; [intros H; by apply elem_of_empty in H|intros (y & H); by apply elem_of_nil in H]. }
  rewrite foldl_app. simpl. rewrite dom_insert, elem_of_union, elem_of_singleton, IH. setoid_rewrite elem_of_app. setoid_rewrite list_elem_of_singleton. naive_solver.
Qed.

Lemma length_sub_chunk_recoveries dimension positions : length (sub_chunk_recoveries dimension positions) = size (dom (by_column positions)).
Proof. unfold sub_chunk_recoveries. rewrite length_fmap, (Permutation_length (merge_sort_Permutation _ _)), length_map_to_list. by rewrite size_dom. Qed.

Lemma unique_from_size `{Countable A} (l : list A) : length (unique_from ∅ l) = size (list_to_set l : gset A).
Proof.
  rewrite <-(size_list_to_set (C := gset A) (unique_from ∅ l)) by apply unique_from_nodup. f_equal. apply set_eq. intros x.
  rewrite !elem_of_list_to_set, elem_of_unique_from. set_solver.
Qed.

(** A packet holds a slot for each recovery it may turn into. *)
Lemma recovery_slots packet : packet_cached packet → length (pending_packet_recovery packet) = length (pending_packet_columns packet).
Proof.
  destruct packet as [p|p]; simpl; [done|]. intros ->. rewrite length_sub_chunk_recoveries. unfold stable_unique_columns. rewrite unique_from_size.
  set (f := λ c : Z * Z, mk_column (sp_dimension p) c.1 c.2).
  assert (list_to_set (pending_sub_chunk_column p <$> sp_entries p) = set_map (D := gset ColumnKey) f (dom (by_column (entry_position p <$> sp_entries p)))) as ->.
  { apply set_eq. intros c. rewrite elem_of_list_to_set, elem_of_map, list_elem_of_fmap. split.
    - intros (entry & -> & Hin). unfold pending_sub_chunk_column. destruct (entry_position p entry) as [[x y] z] eqn:He. exists (x, z). split; [done|].
      apply by_column_dom. exists y. apply list_elem_of_fmap. by exists entry.
    - intros ([x z] & -> & (y & (entry & He & Hin)%list_elem_of_fmap)%by_column_dom). exists entry. split; [|done]. unfold pending_sub_chunk_column. by rewrite <-He. }
  unfold set_map. rewrite size_list_to_set, length_fmap; [done|]. apply NoDup_fmap_2; [|apply NoDup_elements]. by intros [??] [??] [= -> ->].
Qed.
