(* ===== verification/BlobResolver.v ===== *)
(** * The blob cache resolver

    [protocol/src/blob_cache/resolver.rs] and its modules: cached packets wait as transactions until every body they name
    is in the cache, become ready packets in arrival order per column, and are replaced by recoveries under pressure. A
    sequence is the item's number in arrival order. [HashMap] and [HashSet] iteration is in some fixed order. The
    latency trace and the disk tier are left out. Byte totals are [usize] sums; [capacity()] answers come from [Layout]. *)
From stdpp Require Import base numbers list gmap sets sorting.
From S2P Require Import Prelude Counting Effects BlobStore BlobPackets.
#[local] Open Scope Z_scope.

Definition MAX_CLIENT_BLOB_PENDING_TRANSACTIONS : Z := 2048.
Definition MAX_CLIENT_BLOB_RECOVERY_READY_EVENTS : Z := 2048.
Definition MAX_CLIENT_BLOB_ORDINARY_READY_EVENTS : Z := 64.
Definition MAX_CLIENT_BLOB_ORDINARY_READY_BYTES : Z := 32 * 1024 * 1024.
Definition MAX_CLIENT_BLOB_RECONSTRUCTED_BYTES : Z := 32 * 1024 * 1024.
Definition MAX_CLIENT_BLOB_STAGED_BYTES_PER_TRANSACTION : Z := 32 * 1024 * 1024.
Definition MAX_CLIENT_BLOB_READY_BYTES : Z := 32 * 1024 * 1024.

(** ** State *)

(** The counters and gauges of [BlobCacheStats] that the resolver writes. *)
Inductive Stat :=
  | hashes_classified | hits | misses | redundant_missing_requests | admitted_blobs | rejected_blobs | evictions
  | pending_transactions | pending_bytes | miss_response_peak_bytes | retained_cached_transactions
  | ordinary_ready_events | ordinary_ready_bytes | recovery_ready_events | recovery_ready_bytes
  | pending_resets | skipped_cached_packets | skipped_miss_responses | empty_miss_responses
  | cached_packet_semantic_shape | cached_packet_transaction_pressure | cached_packet_pending_pressure | cached_packet_reconstruction_pressure
  | cached_packet_staged_pressure | cached_packet_ready_pressure
  | miss_response_unsolicited | miss_response_integrity_rejection | miss_response_cache_pressure
  | abandoned_cached_transactions | recovery_requests | ordinary_backpressure | ordinary_lane_stalls
  | reconstructed_level_chunks | reconstructed_sub_chunks.
#[export] Instance stat_eq_dec : EqDecision Stat.
Proof. solve_decision. Defined.

Record PendingTransaction := mk_pending {
  pt_packet : PendingPacket; pt_hashes : list Z; pt_unique_hashes : list Z; pt_owned_hashes : list Z; pt_owned_capacity : Z;
  pt_unresolved_hashes : Z; pt_staged_bytes : Z; pt_columns : list ColumnKey; pt_accounted_bytes : Z }.
(** [ReadyTransaction] and [ImmediateReady]; the sequence is also the key. *)
Record ReadyItem := mk_ready { rd_value : ResolverReady; rd_columns : list ColumnKey; rd_accounted_bytes : Z; rd_sequence : Z }.
Record RecoveryReady := mk_recovery {
  rr_dimension : Z; rr_x : Z; rr_z : Z; rr_requested_sub_chunks : option Z; rr_requested_ys : option (gset Z) }.

(** [rs_readings] counts the answers of [capacity()] so far. *)
Record Resolver := mk_resolver {
  rs_cache : CacheStore;
  rs_pending : gmap Z PendingTransaction;
  rs_pending_order : gset Z;
  rs_pending_by_hash : gmap Z (gset Z);
  rs_resolved_pending : gset Z;
  rs_ready : gmap Z ReadyItem;
  rs_immediate : gmap Z ReadyItem;
  rs_recovery : gmap ColumnKey RecoveryReady;
  rs_reset_armed : bool;
  rs_lane_stalled : bool;
  rs_next_sequence : Z;
  rs_pending_bytes : Z;
  rs_ready_bytes : Z;
  rs_column_slots : Z;
  rs_stats : Stat → Z;
  rs_readings : nat;
}.
Definition resolver_new (cache : CacheStore) : Resolver := mk_resolver cache ∅ ∅ ∅ ∅ ∅ ∅ ∅ false false 0 0 0 0 (λ _, 0) 0.

Definition R : Type → Type := Eff Resolver BlobCacheError.

Definition with_cache (v : CacheStore) (s : Resolver) : Resolver :=
  mk_resolver v (rs_pending s) (rs_pending_order s) (rs_pending_by_hash s) (rs_resolved_pending s) (rs_ready s) (rs_immediate s) (rs_recovery s) (rs_reset_armed s) (rs_lane_stalled s) (rs_next_sequence s) (rs_pending_bytes s) (rs_ready_bytes s) (rs_column_slots s) (rs_stats s) (rs_readings s).
Definition with_pending (v : gmap Z PendingTransaction) (s : Resolver) : Resolver :=
  mk_resolver (rs_cache s) v (rs_pending_order s) (rs_pending_by_hash s) (rs_resolved_pending s) (rs_ready s) (rs_immediate s) (rs_recovery s) (rs_reset_armed s) (rs_lane_stalled s) (rs_next_sequence s) (rs_pending_bytes s) (rs_ready_bytes s) (rs_column_slots s) (rs_stats s) (rs_readings s).
Definition with_order (v : gset Z) (s : Resolver) : Resolver :=
  mk_resolver (rs_cache s) (rs_pending s) v (rs_pending_by_hash s) (rs_resolved_pending s) (rs_ready s) (rs_immediate s) (rs_recovery s) (rs_reset_armed s) (rs_lane_stalled s) (rs_next_sequence s) (rs_pending_bytes s) (rs_ready_bytes s) (rs_column_slots s) (rs_stats s) (rs_readings s).
Definition with_by_hash (v : gmap Z (gset Z)) (s : Resolver) : Resolver :=
  mk_resolver (rs_cache s) (rs_pending s) (rs_pending_order s) v (rs_resolved_pending s) (rs_ready s) (rs_immediate s) (rs_recovery s) (rs_reset_armed s) (rs_lane_stalled s) (rs_next_sequence s) (rs_pending_bytes s) (rs_ready_bytes s) (rs_column_slots s) (rs_stats s) (rs_readings s).
Definition with_resolved (v : gset Z) (s : Resolver) : Resolver :=
  mk_resolver (rs_cache s) (rs_pending s) (rs_pending_order s) (rs_pending_by_hash s) v (rs_ready s) (rs_immediate s) (rs_recovery s) (rs_reset_armed s) (rs_lane_stalled s) (rs_next_sequence s) (rs_pending_bytes s) (rs_ready_bytes s) (rs_column_slots s) (rs_stats s) (rs_readings s).
Definition with_ready (v : gmap Z ReadyItem) (s : Resolver) : Resolver :=
  mk_resolver (rs_cache s) (rs_pending s) (rs_pending_order s) (rs_pending_by_hash s) (rs_resolved_pending s) v (rs_immediate s) (rs_recovery s) (rs_reset_armed s) (rs_lane_stalled s) (rs_next_sequence s) (rs_pending_bytes s) (rs_ready_bytes s) (rs_column_slots s) (rs_stats s) (rs_readings s).
Definition with_immediate (v : gmap Z ReadyItem) (s : Resolver) : Resolver :=
  mk_resolver (rs_cache s) (rs_pending s) (rs_pending_order s) (rs_pending_by_hash s) (rs_resolved_pending s) (rs_ready s) v (rs_recovery s) (rs_reset_armed s) (rs_lane_stalled s) (rs_next_sequence s) (rs_pending_bytes s) (rs_ready_bytes s) (rs_column_slots s) (rs_stats s) (rs_readings s).
Definition with_recovery (v : gmap ColumnKey RecoveryReady) (s : Resolver) : Resolver :=
  mk_resolver (rs_cache s) (rs_pending s) (rs_pending_order s) (rs_pending_by_hash s) (rs_resolved_pending s) (rs_ready s) (rs_immediate s) v (rs_reset_armed s) (rs_lane_stalled s) (rs_next_sequence s) (rs_pending_bytes s) (rs_ready_bytes s) (rs_column_slots s) (rs_stats s) (rs_readings s).
Definition with_flags (armed stalled : bool) (s : Resolver) : Resolver :=
  mk_resolver (rs_cache s) (rs_pending s) (rs_pending_order s) (rs_pending_by_hash s) (rs_resolved_pending s) (rs_ready s) (rs_immediate s) (rs_recovery s) armed stalled (rs_next_sequence s) (rs_pending_bytes s) (rs_ready_bytes s) (rs_column_slots s) (rs_stats s) (rs_readings s).
Definition with_sequence (v : Z) (s : Resolver) : Resolver :=
  mk_resolver (rs_cache s) (rs_pending s) (rs_pending_order s) (rs_pending_by_hash s) (rs_resolved_pending s) (rs_ready s) (rs_immediate s) (rs_recovery s) (rs_reset_armed s) (rs_lane_stalled s) v (rs_pending_bytes s) (rs_ready_bytes s) (rs_column_slots s) (rs_stats s) (rs_readings s).
Definition with_pending_bytes (v : Z) (s : Resolver) : Resolver :=
  mk_resolver (rs_cache s) (rs_pending s) (rs_pending_order s) (rs_pending_by_hash s) (rs_resolved_pending s) (rs_ready s) (rs_immediate s) (rs_recovery s) (rs_reset_armed s) (rs_lane_stalled s) (rs_next_sequence s) v (rs_ready_bytes s) (rs_column_slots s) (rs_stats s) (rs_readings s).
Definition with_ready_bytes (v : Z) (s : Resolver) : Resolver :=
  mk_resolver (rs_cache s) (rs_pending s) (rs_pending_order s) (rs_pending_by_hash s) (rs_resolved_pending s) (rs_ready s) (rs_immediate s) (rs_recovery s) (rs_reset_armed s) (rs_lane_stalled s) (rs_next_sequence s) (rs_pending_bytes s) v (rs_column_slots s) (rs_stats s) (rs_readings s).
Definition with_slots (v : Z) (s : Resolver) : Resolver :=
  mk_resolver (rs_cache s) (rs_pending s) (rs_pending_order s) (rs_pending_by_hash s) (rs_resolved_pending s) (rs_ready s) (rs_immediate s) (rs_recovery s) (rs_reset_armed s) (rs_lane_stalled s) (rs_next_sequence s) (rs_pending_bytes s) (rs_ready_bytes s) v (rs_stats s) (rs_readings s).
Definition with_stats (v : Stat → Z) (s : Resolver) : Resolver :=
  mk_resolver (rs_cache s) (rs_pending s) (rs_pending_order s) (rs_pending_by_hash s) (rs_resolved_pending s) (rs_ready s) (rs_immediate s) (rs_recovery s) (rs_reset_armed s) (rs_lane_stalled s) (rs_next_sequence s) (rs_pending_bytes s) (rs_ready_bytes s) (rs_column_slots s) v (rs_readings s).
Definition with_readings (v : nat) (s : Resolver) : Resolver :=
  mk_resolver (rs_cache s) (rs_pending s) (rs_pending_order s) (rs_pending_by_hash s) (rs_resolved_pending s) (rs_ready s) (rs_immediate s) (rs_recovery s) (rs_reset_armed s) (rs_lane_stalled s) (rs_next_sequence s) (rs_pending_bytes s) (rs_ready_bytes s) (rs_column_slots s) (rs_stats s) v.

(** A step on the cache, under its lock. *)
Definition on_cache {A} (m : C A) : R A := λ s, match m (rs_cache s) with None => None | Some (r, cache) => Some (r, with_cache cache s) end.
Definition of_result {A} (r : result BlobCacheError A) : R A := match r with Ok a => mret a | Err e => eff_throw e end.

Definition set_stat (stat : Stat) (v : Z) : R unit := eff_modify (λ s, with_stats (λ stat', if decide (stat' = stat) then v else rs_stats s stat') s).
(** [self.stats.x = self.stats.x.saturating_add(n)] *)
Definition bump (stat : Stat) (n : Z) : R unit := s ← eff_gets id; set_stat stat (sat_add (rs_stats s stat) n).

(** ** Ordered iteration *)

(** [BTreeSet::first] *)
Definition first_of (set : gset Z) : option Z := head (merge_sort Z.le (elements set)).
Definition column_le (a b : ColumnKey) : Prop :=
  ck_dimension a < ck_dimension b ∨ ck_dimension a = ck_dimension b ∧ (ck_x a < ck_x b ∨ ck_x a = ck_x b ∧ ck_z a ≤ ck_z b).
#[export] Instance column_le_dec : RelDecision column_le.
Proof. intros a b. unfold column_le. apply _. Defined.
Definition by_column_le (a b : ColumnKey * RecoveryReady) : Prop := column_le a.1 b.1.
#[export] Instance by_column_le_dec : RelDecision by_column_le.
Proof. intros a b. unfold by_column_le. apply _. Defined.

(** [a += b] and [a -= b] on [usize], which panic in debug builds. *)
Definition add_assign (a b : Z) : R Z := eff_expect (checked_add a b).
Definition sub_assign (a b : Z) : R Z := eff_expect (checked_sub a b).

Section resolver.
Context (layout : Layout) (limits : BlobCacheLimits).

(** ** Accounting *)

(** The next answer of [capacity()]. *)
Definition read_capacity : R Z := λ s, Some (Ok (capacity layout (rs_readings s)), with_readings (Datatypes.S (rs_readings s)) s).

Definition accounted_total (m : gmap Z PendingTransaction) : Z := map_sum (λ _ t, pt_accounted_bytes t) m.
Definition ready_total (m : gmap Z ReadyItem) : Z := map_sum (λ _ r, rd_accounted_bytes r) m.
Definition slots_total (pending : gmap Z PendingTransaction) (ready : gmap Z ReadyItem) : Z :=
  map_sum (λ _ t, Z.of_nat (length (pt_columns t))) pending + map_sum (λ _ r, Z.of_nat (length (rd_columns r))) ready.
(** The running totals equal a walk of their collections. The first assertion, on the sum of set capacities, compares two
    answers of the allocator and is not modelled. *)
Definition totals_agree (s : Resolver) : bool :=
  (rs_pending_bytes s =? accounted_total (rs_pending s)) && (rs_ready_bytes s =? ready_total (rs_ready s)) &&
  (rs_column_slots s =? slots_total (rs_pending s) (rs_ready s)).
Definition debug_assert (holds : bool) : R unit := if holds then mret tt else λ _, None.
Definition debug_assert_running_totals : R unit := s ← eff_gets id; debug_assert (totals_agree s).

Definition retained_cached_bytes : R Z :=
  _ ← debug_assert_running_totals;
  pending_capacity ← read_capacity;
  index_capacity ← read_capacity;
  hash_set_capacity ← read_capacity;
  s ← eff_gets id;
  ok_or (bytes ← checked_mul pending_capacity (size_pending layout);
         ready ← checked_mul (Z.of_nat (size (rs_ready s))) (size_ready layout);
         order ← checked_mul (Z.of_nat (size (rs_pending_order s))) 8;
         resolved ← checked_mul (Z.of_nat (size (rs_resolved_pending s))) 8;
         index ← checked_mul index_capacity (size_hash_set layout);
         sets ← checked_mul hash_set_capacity 8;
         checked_sum bytes [ready; order; resolved; index; sets; rs_pending_bytes s; rs_ready_bytes s]) ByteCountOverflow.
Definition retained_ordinary_bytes (s : Resolver) : option Z :=
  start ← checked_mul (Z.of_nat (size (rs_immediate s))) (size_immediate layout);
  checked_sum start ((λ '(_, item), rd_accounted_bytes item) <$> ordered (rs_immediate s)).
Definition retained_reconstructed_bytes : R Z := _ ← debug_assert_running_totals; eff_gets rs_ready_bytes.
Definition recovery_bytes (recovery : RecoveryReady) : Z := sat_mul (from_option (λ ys : gset Z, Z.of_nat (size ys)) 0 (rr_requested_ys recovery)) 4.
Definition retained_recovery_bytes (s : Resolver) : option Z :=
  foldM (λ bytes recovery, bytes ← checked_add bytes (size_recovery layout); checked_add bytes (recovery_bytes recovery)) 0
    (snd <$> map_to_list (rs_recovery s)).
Definition retained_cached_transaction_count (s : Resolver) : Z := sat_add (Z.of_nat (size (rs_pending s))) (Z.of_nat (size (rs_ready s))).
Definition retained_recovery_slot_count : R Z :=
  _ ← debug_assert_running_totals;
  eff_gets (λ s, sat_add (Z.of_nat (size (rs_recovery s))) (rs_column_slots s)).

(** The index collections are emptied with the transactions they index. *)
Definition drop_empty (s : Resolver) : Resolver :=
  if bool_decide (rs_pending s = ∅) then with_resolved ∅ (with_order ∅ s) else s.
Definition refresh_pending_accounting : R unit :=
  _ ← eff_modify drop_empty;
  bytes ← retained_cached_bytes;
  _ ← set_stat pending_bytes bytes;
  s ← eff_gets id;
  _ ← set_stat pending_transactions (Z.of_nat (size (rs_pending s)));
  _ ← set_stat retained_cached_transactions (retained_cached_transaction_count s);
  _ ← set_stat ordinary_ready_events (Z.of_nat (size (rs_immediate s)));
  ordinary ← ok_or (retained_ordinary_bytes s) ByteCountOverflow;
  _ ← set_stat ordinary_ready_bytes ordinary;
  _ ← set_stat recovery_ready_events (Z.of_nat (size (rs_recovery s)));
  recovery ← ok_or (retained_recovery_bytes s) ByteCountOverflow;
  set_stat recovery_ready_bytes recovery.
(** [Packet] and its raw size could be kept until it is accepted. *)
Definition can_prefetch (packet : Packet) (raw_bytes : Z) : R bool :=
  s ← eff_gets id;
  if MAX_CLIENT_BLOB_PENDING_TRANSACTIONS <=? retained_cached_transaction_count s then mret false
  else
    retained ← (if rs_stats s pending_bytes =? 0 then (λ s, match retained_cached_bytes s with
        | Some (Ok bytes, s) => Some (Ok bytes, s) | Some (Err _, s) => Some (Ok USIZE_MAX, s) | None => None end)
      else mret (rs_stats s pending_bytes));
    packet_capacity ← read_capacity;
    mret (match cached_packet_retained_bytes layout packet_capacity packet with
      | Err _ => false
      | Ok bytes => default false (
          bytes ← checked_add (Z.max bytes raw_bytes) (size_prefetch layout);
          bytes ← checked_add bytes (size_packet_data layout);
          bytes ← checked_add retained bytes;
          Some (bytes <=? MAX_CLIENT_BLOB_PENDING_BYTES))
      end).

Definition record_skip (pressure : Stat) : R unit := _ ← bump skipped_cached_packets 1; bump pressure 1.
Definition record_staged_skip : R unit := record_skip cached_packet_staged_pressure.
Definition record_pending_skip : R unit := record_skip cached_packet_pending_pressure.
Definition record_ready_skip : R unit := record_skip cached_packet_ready_pressure.
Definition record_reconstruction_skip : R unit := record_skip cached_packet_reconstruction_pressure.

(** ** Recoveries *)

Definition recovery_from_event (event : ChunkResyncEvent) : ColumnKey * RecoveryReady :=
  (mk_column (cr_dimension event) (cr_x event) (cr_z event),
   mk_recovery (cr_dimension event) (cr_x event) (cr_z event) (cr_requested_sub_chunks event) (list_to_set <$> cr_requested_ys event)).
Definition recovery_into_event (recovery : RecoveryReady) : ChunkResyncEvent :=
  mk_resync (rr_dimension recovery) (rr_x recovery) (rr_z recovery) (rr_requested_sub_chunks recovery) (sorted_ys <$> rr_requested_ys recovery).

(** An absent set of heights asks for the whole column. *)
Definition merge_recovery (existing incoming : RecoveryReady) : RecoveryReady :=
  mk_recovery (rr_dimension existing) (rr_x existing) (rr_z existing)
    (match rr_requested_ys incoming with None => rr_requested_sub_chunks incoming | Some _ => rr_requested_sub_chunks existing end)
    (match rr_requested_ys existing, rr_requested_ys incoming with
     | Some existing_ys, Some incoming_ys => Some (existing_ys ∪ incoming_ys)
     | Some _, None => None
     | None, _ => None
     end).
Definition merge_into (lane : gmap ColumnKey RecoveryReady) (recovery : ChunkResyncEvent) : gmap ColumnKey RecoveryReady :=
  let '(key, incoming) := recovery_from_event recovery in
  <[key := match lane !! key with None => incoming | Some existing => merge_recovery existing incoming end]> lane.
(** [true] when the column had no recovery *)
Definition enqueue_recovery_inner (recovery : ChunkResyncEvent) (count_new : bool) : R bool :=
  s ← eff_gets id;
  let '(key, _) := recovery_from_event recovery in
  _ ← eff_modify (λ s, with_recovery (merge_into (rs_recovery s) recovery) s);
  match rs_recovery s !! key with
  | None => _ ← (if count_new then bump recovery_requests 1 else mret tt); mret true
  | Some _ => mret false
  end.
Definition enqueue_recovery (recovery : ChunkResyncEvent) : R unit := _ ← enqueue_recovery_inner recovery true; mret tt.
Definition enqueue_recoveries (recoveries : list ChunkResyncEvent) : R unit := for_each enqueue_recovery recoveries.
Definition enqueue_precounted_recovery (recovery : ChunkResyncEvent) : R unit :=
  fresh ← enqueue_recovery_inner recovery false;
  if fresh : bool then mret tt
  else s ← eff_gets id; set_stat recovery_requests (sat_sub (rs_stats s recovery_requests) 1).
(** The first goes out with the status. *)
Definition prepare_recovery (recoveries : list ChunkResyncEvent) : R (option ChunkResyncEvent) :=
  match recoveries with
  | [] => mret None
  | first :: recoveries => _ ← enqueue_recoveries recoveries; _ ← bump recovery_requests 1; mret (Some first)
  end.

(** ** Transactions *)

(** One hash of [remove_pending_transaction]. *)
Definition unindex (sequence : Z) (index : gmap Z (gset Z)) (hash : Z) : gmap Z (gset Z) :=
  match index !! hash with
  | None => index
  | Some transactions =>
    let transactions := transactions ∖ {[sequence]} in
    if bool_decide (transactions = ∅) then delete hash index else <[hash := transactions]> index
  end.
Definition remove_pending_transaction (sequence : Z) : R (option PendingTransaction) :=
  _ ← eff_modify (λ s, with_order (rs_pending_order s ∖ {[sequence]}) s);
  _ ← eff_modify (λ s, with_resolved (rs_resolved_pending s ∖ {[sequence]}) s);
  s ← eff_gets id;
  match rs_pending s !! sequence with
  | None => mret None
  | Some transaction =>
    _ ← eff_modify (with_pending (delete sequence (rs_pending s)));
    bytes ← sub_assign (rs_pending_bytes s) (pt_accounted_bytes transaction);
    _ ← eff_modify (with_pending_bytes bytes);
    slots ← sub_assign (rs_column_slots s) (Z.of_nat (length (pt_columns transaction)));
    _ ← eff_modify (with_slots slots);
    _ ← eff_modify (λ s, with_by_hash (foldl (unindex sequence) (rs_pending_by_hash s) (pt_unique_hashes transaction)) s);
    mret (Some transaction)
  end.

(** [Vec::try_reserve]: a reservation past [isize::MAX] bytes is refused. [grown] is the capacity that holds one more. *)
Definition try_reserve (grown : Z) : option unit := if grown * 8 <=? 2 ^ 63 - 1 then Some tt else None.
Definition add_owned_hash (sequence hash : Z) : R unit :=
  s ← eff_gets id;
  match rs_pending s !! sequence with
  | None => mret tt
  | Some transaction =>
    if bool_decide (hash ∈ pt_owned_hashes transaction) then mret tt
    else
      answer ← read_capacity;
      let grown := Z.max (pt_owned_capacity transaction) answer in
      _ ← ok_or (try_reserve grown) ByteCountOverflow;
      let added_capacity := sat_sub grown (pt_owned_capacity transaction) in
      added_bytes ← ok_or (checked_mul added_capacity 8) ByteCountOverflow;
      accounted_bytes ← ok_or (checked_add (pt_accounted_bytes transaction) added_bytes) ByteCountOverflow;
      let transaction := mk_pending (pt_packet transaction) (pt_hashes transaction) (pt_unique_hashes transaction)
        (pt_owned_hashes transaction ++ [hash]) grown (pt_unresolved_hashes transaction) (pt_staged_bytes transaction)
        (pt_columns transaction) accounted_bytes in
      _ ← eff_modify (with_pending (<[sequence := transaction]> (rs_pending s)));
      bytes ← add_assign (rs_pending_bytes s) added_bytes;
      eff_modify (with_pending_bytes bytes)
  end.
(** The oldest other transaction that waits for each hash [owner] asked for. *)
Definition promotions (owner : Z) (s : Resolver) : list (Z * Z) :=
  omap (λ hash, transactions ← rs_pending_by_hash s !! hash; waiter ← first_of (transactions ∖ {[owner]}); Some (hash, waiter))
    (from_option pt_owned_hashes [] (rs_pending s !! owner)).
Definition promote_waiters (owner : Z) : R unit :=
  s ← eff_gets id; for_each (λ '(hash, waiter), add_owned_hash waiter hash) (promotions owner s).

Definition unpin_transaction (transaction : PendingTransaction) : R unit :=
  eff_modify (λ s, with_cache (unpin_all limits (pt_unique_hashes transaction) (rs_cache s)) s).

Definition abandon_pending_transaction_with_recovery (sequence : Z) (return_first : bool) : R (option ChunkResyncEvent) :=
  _ ← promote_waiters sequence;
  removed ← remove_pending_transaction sequence;
  match removed with
  | None => mret None
  | Some transaction =>
    _ ← unpin_transaction transaction;
    _ ← bump abandoned_cached_transactions 1;
    let recoveries := pending_packet_recovery (pt_packet transaction) in
    if return_first then prepare_recovery recoveries else _ ← enqueue_recoveries recoveries; mret None
  end.
Definition abandon_pending_transaction (sequence : Z) : R unit := _ ← abandon_pending_transaction_with_recovery sequence false; mret tt.

Definition rotate_oldest_pending_transaction : R (option ChunkResyncEvent) :=
  s ← eff_gets id;
  match first_of (rs_pending_order s) with
  | None => mret None
  | Some sequence => abandon_pending_transaction_with_recovery sequence true
  end.

Definition take_ready_sequence : R Z :=
  s ← eff_gets id;
  next ← ok_or (checked_add (rs_next_sequence s) 1) ByteCountOverflow;
  _ ← eff_modify (with_sequence next);
  mret (rs_next_sequence s).

(** ** Pressure *)

Definition shares_column (a b : list ColumnKey) : bool := existsb (λ column, bool_decide (column ∈ b)) a.
(** The pending transactions that hold back a reconstructed packet. *)
Definition ready_blockers (s : Resolver) : list Z :=
  fst <$> filter (λ '(pending_sequence, pending), existsb (λ '(_, ready),
    (pending_sequence <? rd_sequence ready) && shares_column (pt_columns pending) (rd_columns ready)) (ordered (rs_ready s)) = true)
    (map_to_list (rs_pending s)).
Definition unblock_cached_ready_lane : R bool :=
  s ← eff_gets id;
  let blockers := ready_blockers s in
  _ ← for_each abandon_pending_transaction blockers;
  _ ← refresh_pending_accounting;
  mret (negb (bool_decide (blockers = []))).
Definition relieve_cached_ready_pressure : R bool :=
  s ← eff_gets id;
  if retained_cached_transaction_count s <? MAX_CLIENT_BLOB_PENDING_TRANSACTIONS then mret false else unblock_cached_ready_lane.

(** Work is held back by earlier cached work that shares a column with it. *)
Definition sequence_is_unblocked (s : Resolver) (sequence : Z) (columns : list ColumnKey) : bool :=
  match columns with
  | [] => true
  | _ =>
    let conflicts := λ (earlier_sequence : Z) (earlier_columns : list ColumnKey), (earlier_sequence <? sequence) && shares_column earlier_columns columns in
    negb (existsb (λ '(earlier, transaction), conflicts earlier (pt_columns transaction)) (map_to_list (rs_pending s))) &&
    negb (existsb (λ '(earlier, transaction), conflicts earlier (rd_columns transaction)) (ordered (rs_ready s)))
  end.

Definition raise_bound (sequence : Z) (bounds : gmap ColumnKey Z) (column : ColumnKey) : gmap ColumnKey Z :=
  <[column := Z.max (default 0 (bounds !! column)) sequence]> bounds.
Definition is_bounded (bounds : gmap ColumnKey Z) (sequence : Z) (columns : list ColumnKey) : bool :=
  existsb (λ column, from_option (λ bound, sequence <? bound) false (bounds !! column)) columns.
(** For each column, the sequences before which cached work holds back ordinary work, directly or through ready work. *)
Definition blocked_before (s : Resolver) : gmap ColumnKey Z :=
  let direct := foldl (λ bounds '(_, ready), foldl (raise_bound (rd_sequence ready)) bounds (rd_columns ready)) ∅ (ordered (rs_immediate s)) in
  foldl (λ bounds '(_, ready),
    if is_bounded bounds (rd_sequence ready) (rd_columns ready) then foldl (raise_bound (rd_sequence ready)) bounds (rd_columns ready) else bounds)
    direct (reverse (ordered (rs_ready s))).
Definition lane_blockers (s : Resolver) : list Z :=
  fst <$> filter (λ '(sequence, transaction), is_bounded (blocked_before s) sequence (pt_columns transaction) = true) (map_to_list (rs_pending s)).
Definition ordinary_lane_needs_drain (s : Resolver) : bool := negb (bool_decide (rs_immediate s = ∅)).
Definition unblock_ordinary_lane : R bool :=
  s ← eff_gets id;
  let blockers := lane_blockers s in
  _ ← for_each abandon_pending_transaction blockers;
  _ ← (if bool_decide (blockers = []) then
         s ← eff_gets id;
         _ ← eff_modify (λ s, with_flags (rs_reset_armed s) true s);
         if rs_lane_stalled s then mret tt else bump ordinary_lane_stalls 1
       else eff_modify (λ s, with_flags (rs_reset_armed s) false s));
  _ ← refresh_pending_accounting;
  mret (negb (bool_decide (blockers = []))).

(** ** From pending to ready *)

Definition reconstruct_stat (packet : PendingPacket) : Stat :=
  match packet with PendingLevelChunk _ => reconstructed_level_chunks | PendingSubChunk _ => reconstructed_sub_chunks end.
Definition expect_pending (sequence : Z) : R PendingTransaction := s ← eff_gets id; eff_expect (rs_pending s !! sequence).
(** The transaction's place is taken by a packet. *)
Definition publish_ready (sequence : Z) (packet : ResolverReady) (ready_bytes : Z) : R unit :=
  removed ← remove_pending_transaction sequence;
  transaction ← eff_expect removed;
  _ ← unpin_transaction transaction;
  s ← eff_gets id;
  slots ← add_assign (rs_column_slots s) (Z.of_nat (length (pt_columns transaction)));
  _ ← eff_modify (with_slots slots);
  _ ← eff_modify (λ s, with_ready (<[sequence := mk_ready packet (pt_columns transaction) ready_bytes sequence]> (rs_ready s)) s);
  bytes ← add_assign (rs_ready_bytes s) ready_bytes;
  _ ← eff_modify (with_ready_bytes bytes);
  _ ← relieve_cached_ready_pressure;
  refresh_pending_accounting.
Definition abandon_and_refresh (sequence : Z) : R unit := _ ← abandon_pending_transaction sequence; refresh_pending_accounting.
Definition move_pending_to_ready (sequence : Z) : R unit :=
  transaction ← expect_pending sequence;
  s ← eff_gets id;
  projected ← of_result (projected_reconstruction_bytes (rs_cache s) (pt_packet transaction) (pt_hashes transaction));
  projected_bytes ← eff_expect projected;
  if MAX_CLIENT_BLOB_RECONSTRUCTED_BYTES <? projected_bytes then
    _ ← record_reconstruction_skip; abandon_and_refresh sequence
  else
    transaction ← expect_pending sequence;
    packet ← on_cache (reconstruct (pt_packet transaction) (pt_hashes transaction));
    _ ← bump (reconstruct_stat (pt_packet transaction)) 1;
    packet_capacity ← read_capacity;
    ready_bytes ← of_result (ready_value_accounted_bytes layout packet_capacity packet);
    reconstructed ← retained_reconstructed_bytes;
    if from_option (λ bytes, MAX_CLIENT_BLOB_READY_BYTES <? bytes) true (checked_add reconstructed ready_bytes) then
      _ ← record_ready_skip; abandon_and_refresh sequence
    else
      retained ← retained_cached_bytes;
      transaction ← expect_pending sequence;
      projected_retained_bytes ← ok_or (
        bytes ← checked_sub retained (pt_accounted_bytes transaction);
        bytes ← checked_add bytes ready_bytes;
        checked_add bytes (size_ready layout)) ByteCountOverflow;
      if MAX_CLIENT_BLOB_PENDING_BYTES <? projected_retained_bytes then
        _ ← record_pending_skip; abandon_and_refresh sequence
      else publish_ready sequence packet ready_bytes.

(** Every turn takes a sequence out of [resolved_pending]. *)
Definition next_resolved : R (option Z) := s ← eff_gets id; mret (first_of (rs_resolved_pending s)).
Definition drain_ready : R unit :=
  s ← eff_gets id;
  _ ← drain next_resolved move_pending_to_ready (Datatypes.S (size (rs_resolved_pending s)));
  refresh_pending_accounting.

(** One transaction of [resolve_hash]. *)
Definition resolve_one (s : Resolver) (sequence : Z) : Resolver :=
  match rs_pending s !! sequence with
  | None => s
  | Some t =>
    let unresolved := sat_sub (pt_unresolved_hashes t) 1 in
    let s := with_pending (<[sequence := mk_pending (pt_packet t) (pt_hashes t) (pt_unique_hashes t) (pt_owned_hashes t) (pt_owned_capacity t)
      unresolved (pt_staged_bytes t) (pt_columns t) (pt_accounted_bytes t)]> (rs_pending s)) s in
    if unresolved =? 0 then with_resolved ({[sequence]} ∪ rs_resolved_pending s) s else s
  end.
Definition resolve_hash (hash : Z) : R unit :=
  s ← eff_gets id;
  match rs_pending_by_hash s !! hash with
  | None => mret tt
  | Some transactions =>
    _ ← eff_modify (with_by_hash (delete hash (rs_pending_by_hash s)));
    _ ← eff_modify (λ s, foldl resolve_one s (elements transactions));
    drain_ready
  end.
End resolver.
