(* ===== verification/BlobResolverInv.v ===== *)
(** * The resolver's invariant

    Every pending transaction waits exactly for the bodies that are absent, is indexed under each of them, and pins all of
    its bodies once; running totals are the sums they stand for; queues stay within their bounds. Small steps keep it. *)
From stdpp Require Import base numbers list gmap sets sorting.
From S2P Require Import Prelude Counting Effects BlobStore BlobStoreSpec BlobStoreTheorems BlobPackets BlobPacketsSpec BlobResolver.
#[local] Open Scope Z_scope.

Implicit Types (s : Resolver) (q hash : Z) (t : PendingTransaction) (r : ReadyItem).

(** ** Sizes *)

(** What a process can hold: counts and sizes stay far below [usize]. *)
Definition COUNT_BOUND : Z := 2 ^ 32.
Definition TX_BYTES : Z := 2 ^ 49.
Definition small_size (n : Z) : Prop := 0 ≤ n ≤ 2 ^ 16.
Record layout_ok (layout : Layout) : Prop := {
  ly_level_chunk : small_size (size_level_chunk layout);
  ly_sub_chunk : small_size (size_sub_chunk layout);
  ly_sub_chunk_data : small_size (size_sub_chunk_data layout);
  ly_missing_blob : small_size (size_missing_blob layout);
  ly_pending : small_size (size_pending layout);
  ly_hash_set : small_size (size_hash_set layout);
  ly_ready : small_size (size_ready layout);
  ly_immediate : small_size (size_immediate layout);
  ly_recovery : small_size (size_recovery layout);
  ly_capacity n : 0 ≤ capacity layout n ≤ COUNT_BOUND;
}.
Definition tails_len (entries : list SubChunkData) : Z := foldr (λ entry acc, option_len (sd_payload entry) + acc) 0 entries.
Definition packet_small (packet : PendingPacket) : Prop :=
  match packet with PendingLevelChunk p => blob_len (lc_data p) ≤ 2 ^ 40 | PendingSubChunk p => tails_len (sp_entries p) ≤ 2 ^ 40 end.

(** ** The invariant *)

Definition waiters (index : gmap Z (gset Z)) hash : gset Z := default ∅ (index !! hash).

Record tx_ok t : Prop := {
  tk_cached : packet_cached (pt_packet t);
  tk_small : packet_small (pt_packet t);
  tk_hashes : pt_hashes t = packet_hashes (pt_packet t);
  tk_unique : pt_unique_hashes t = stable_unique (pt_hashes t);
  tk_columns : pt_columns t = pending_packet_columns (pt_packet t);
  tk_bytes : 0 ≤ pt_accounted_bytes t ≤ TX_BYTES + 8 * pt_owned_capacity t;
  tk_owned : 0 ≤ pt_owned_capacity t ≤ COUNT_BOUND;
  tk_staged : 0 ≤ pt_staged_bytes t ≤ MAX_CLIENT_BLOB_STAGED_BYTES_PER_TRANSACTION;
}.

Section invariant.
Context (layout : Layout) (limits : BlobCacheLimits) (xxh64 : Blob → Z).

(** A ready item is the packet with bodies that hash to the ids it named. *)
Definition verified_body (hash : Z) : Blob → Prop := λ blob, xxh64 blob = hash.
Definition stands_for (packet : PendingPacket) (value : ResolverReady) : Prop :=
  packet_cached packet ∧ ∃ bodies, (∀ hash blob, bodies hash = Some blob → verified_body hash blob) ∧ rebuilt bodies packet value.
Lemma stands_recovery packet value : stands_for packet value → ready_value_recovery value = pending_packet_recovery packet.
Proof using Type. intros (Hc & bodies & _ & Hr). by eapply rebuilt_recovery. Qed.
Record ready_ok q r : Prop := {
  rk_sequence : rd_sequence r = q;
  rk_bytes : 0 ≤ rd_accounted_bytes r;
  rk_packet : ∃ packet, stands_for packet (rd_value r) ∧ rd_columns r = pending_packet_columns packet;
}.
Definition in_i32 (y : Z) : Prop := - 2 ^ 31 ≤ y ≤ 2 ^ 31 - 1.
Record recovery_ok (column : ColumnKey) (recovery : RecoveryReady) : Prop := {
  rv_column : mk_column (rr_dimension recovery) (rr_x recovery) (rr_z recovery) = column;
  rv_ys ys : rr_requested_ys recovery = Some ys → ∀ y, y ∈ ys → in_i32 y;
}.

Definition load s : Z := Z.of_nat (size (rs_recovery s)) + rs_column_slots s.
Definition cached_count s : Z := Z.of_nat (size (rs_pending s)) + Z.of_nat (size (rs_ready s)).

(** [exempt]: transactions just inserted that may already have every body. *)
Record resolver_ok (exempt : gset Z) s : Prop := {
  ro_cache : store_ok limits (rs_cache s);
  ro_addressed : addressed xxh64 (rs_cache s);
  ro_txs q t : rs_pending s !! q = Some t → tx_ok t ∧ 0 ≤ q < rs_next_sequence s;
  ro_order : rs_pending_order s = dom (rs_pending s);
  ro_nonempty hash W : rs_pending_by_hash s !! hash = Some W → W ≠ ∅;
  ro_index q hash : q ∈ waiters (rs_pending_by_hash s) hash → ∃ t, rs_pending s !! q = Some t ∧ hash ∈ pt_unique_hashes t;
  ro_bodies q t hash : rs_pending s !! q = Some t → hash ∈ pt_unique_hashes t → is_Some (body (rs_cache s) hash) ∨ q ∈ waiters (rs_pending_by_hash s) hash;
  ro_unresolved q t : rs_pending s !! q = Some t →
    pt_unresolved_hashes t = Z.of_nat (length (filter (λ hash, q ∈ waiters (rs_pending_by_hash s) hash) (pt_unique_hashes t)));
  ro_owner hash W : rs_pending_by_hash s !! hash = Some W → ∃ q t, q ∈ W ∧ rs_pending s !! q = Some t ∧ hash ∈ pt_owned_hashes t;
  ro_resolved q : q ∈ rs_resolved_pending s → is_Some (rs_pending s !! q) ∧ ∀ hash, q ∉ waiters (rs_pending_by_hash s) hash;
  ro_progress q : is_Some (rs_pending s !! q) → q ∈ exempt ∨ q ∈ rs_resolved_pending s ∨ ∃ hash, q ∈ waiters (rs_pending_by_hash s) hash;
  ro_ready q r : rs_ready s !! q = Some r → ready_ok q r ∧ 0 ≤ q < rs_next_sequence s ∧ rs_pending s !! q = None;
  ro_immediate q r : rs_immediate s !! q = Some r →
    rd_sequence r = q ∧ 0 ≤ rd_accounted_bytes r ∧ 0 ≤ q < rs_next_sequence s ∧ rs_pending s !! q = None ∧ rs_ready s !! q = None;
  ro_recovery column recovery : rs_recovery s !! column = Some recovery → recovery_ok column recovery;
  ro_totals : totals_agree s = true;
  ro_ready_bytes : rs_ready_bytes s ≤ MAX_CLIENT_BLOB_READY_BYTES;
  ro_immediate_bytes : ready_total (rs_immediate s) ≤ MAX_CLIENT_BLOB_ORDINARY_READY_BYTES;
  ro_immediate_count : Z.of_nat (size (rs_immediate s)) ≤ MAX_CLIENT_BLOB_ORDINARY_READY_EVENTS;
  ro_next : 0 ≤ rs_next_sequence s ≤ USIZE_MAX;
  ro_count : cached_count s ≤ MAX_CLIENT_BLOB_PENDING_TRANSACTIONS;
  ro_load : load s ≤ MAX_CLIENT_BLOB_RECOVERY_READY_EVENTS;
}.

(** How many pending transactions name a hash. *)
Definition holders (m : gmap Z PendingTransaction) hash : Z := map_sum (λ _ t, if decide (hash ∈ pt_unique_hashes t) then 1 else 0) m.
(** Each transaction pins its bodies once; [extra] hashes belong to a packet under classification. *)
Definition pins_exact (extra : list Z) s : Prop :=
  ∀ hash, pin_count (rs_cache s) hash = holders (rs_pending s) hash + (if decide (hash ∈ extra) then 1 else 0).

(** Statistics, capacity readings and flags are not part of it. *)
Lemma resolver_ok_stats exempt v n armed stalled s : resolver_ok exempt s → resolver_ok exempt (with_readings n (with_stats v (with_flags armed stalled s))).
Proof using Type. intros []. by split. Qed.

(** ** Sums *)

Lemma totals_agree_spec s : totals_agree s = true ↔
  rs_pending_bytes s = accounted_total (rs_pending s) ∧ rs_ready_bytes s = ready_total (rs_ready s) ∧ rs_column_slots s = slots_total (rs_pending s) (rs_ready s).
Proof using Type. unfold totals_agree. rewrite !andb_true_iff, !Z.eqb_eq. tauto. Qed.

Lemma map_sum_bound {A} (f : Z → A → Z) (m : gmap Z A) B : 0 ≤ B → (∀ k x, m !! k = Some x → 0 ≤ f k x ≤ B) → 0 ≤ map_sum f m ≤ B * Z.of_nat (size m).
Proof using Type.
  intros HB. induction m as [|k x m Hk IH] using map_ind; intros Hf; [rewrite map_sum_empty, map_size_empty; lia|].
  rewrite map_sum_insert, map_size_insert_None by done. specialize (Hf k x (lookup_insert_eq _ _ _)) as Hx.
  assert (0 ≤ map_sum f m ≤ B * Z.of_nat (size m)) by (apply IH; intros j y Hj; apply (Hf j); rewrite lookup_insert_ne by congruence; done). lia.
Qed.

Lemma accounted_total_bound exempt s : resolver_ok exempt s → 0 ≤ accounted_total (rs_pending s) ≤ 2 ^ 50 * Z.of_nat (size (rs_pending s)).
Proof using Type.
  intros Hok. apply map_sum_bound; [done|]. intros q t Hq. destruct (ro_txs _ _ Hok q t Hq) as [[] _]. unfold TX_BYTES, COUNT_BOUND in *. lia.
Qed.
Lemma ready_total_nonneg exempt s : resolver_ok exempt s → 0 ≤ ready_total (rs_ready s).
Proof using Type. intros Hok. apply map_sum_nonneg. intros q r Hq. by destruct (ro_ready _ _ Hok q r Hq) as [[] _]. Qed.
Lemma immediate_total_nonneg exempt s : resolver_ok exempt s → 0 ≤ ready_total (rs_immediate s).
Proof using Type. intros Hok. apply map_sum_nonneg. intros q r Hq. by destruct (ro_immediate _ _ Hok q r Hq) as (? & ? & _). Qed.
Lemma map_sum_of_nonneg {K} `{Countable K} {A} (f : K → A → Z) (m : gmap K A) : (∀ k x, 0 ≤ f k x) → 0 ≤ map_sum f m.
Proof using Type. intros Hf. apply map_sum_nonneg. intros. apply Hf. Qed.
Lemma slots_nonneg pending ready : 0 ≤ slots_total pending ready.
Proof using Type. unfold slots_total. apply Z.add_nonneg_nonneg; apply map_sum_of_nonneg; intros; lia. Qed.

Fixpoint sum_Z (l : list Z) : Z := match l with [] => 0 | x :: l => x + sum_Z l end.
Lemma sum_Z_perm l l' : l ≡ₚ l' → sum_Z l = sum_Z l'.
Proof using Type. induction 1; simpl; lia. Qed.
Lemma sum_Z_nonneg l : (∀ x, x ∈ l → 0 ≤ x) → 0 ≤ sum_Z l.
Proof using Type.
  induction l as [|x l IH]; intros Hl; simpl; [done|]. specialize (Hl x (list_elem_of_here _ _)) as Hx. assert (0 ≤ sum_Z l); [|lia].
  apply IH. intros y Hy. apply Hl. by right.
Qed.
Lemma sum_Z_map {K} `{Countable K} {A} (f : A → Z) (m : gmap K A) : sum_Z (f <$> (map_to_list m).*2) = map_sum (λ _ x, f x) m.
Proof using Type.
  induction m as [|k x m Hk IH] using map_ind; [done|]. rewrite map_sum_insert by done.
  rewrite (sum_Z_perm _ (f <$> ((k, x) :: map_to_list m).*2)); [rewrite !fmap_cons; cbn [sum_Z snd]; by rewrite IH|]. by rewrite map_to_list_insert.
Qed.

Lemma checked_add_fits a b : a + b ≤ USIZE_MAX → checked_add a b = Some (a + b).
Proof using Type. intros H. by apply checked_add_Some. Qed.
Lemma checked_sum_fits start l : 0 ≤ start → (∀ x, x ∈ l → 0 ≤ x) → start + sum_Z l ≤ USIZE_MAX → checked_sum start l = Some (start + sum_Z l).
Proof using Type.
  unfold checked_sum. revert start. induction l as [|x l IH]; intros start Hs Hl Hle; simpl in *; [f_equal; lia|].
  assert (Hx : 0 ≤ x) by (apply Hl; by left). assert (Hl' : ∀ y, y ∈ l → 0 ≤ y) by (intros; apply Hl; by right). pose proof (sum_Z_nonneg l Hl').
  rewrite checked_add_fits by lia. simpl. rewrite IH by (done || lia). f_equal. lia.
Qed.

Lemma checked_mul_fits a b : a * b ≤ USIZE_MAX → checked_mul a b = Some (a * b).
Proof using Type. intros H. unfold checked_mul. by rewrite (proj2 (Z.leb_le _ _)). Qed.
Lemma checked_sub_fits a b : b ≤ a → checked_sub a b = Some (a - b).
Proof using Type. intros H. by apply checked_sub_Some. Qed.

Lemma ordered_snd (m : gmap Z ReadyItem) : (ordered m).*2 ≡ₚ (map_to_list m).*2.
Proof using Type. unfold ordered. by rewrite merge_sort_Permutation. Qed.

(** ** Bytes never overflow *)

Lemma small_product a b : 0 ≤ a ≤ COUNT_BOUND → small_size b → 0 ≤ a * b ≤ 2 ^ 48.
Proof using Type. unfold small_size, COUNT_BOUND. nia. Qed.

Lemma recovery_bytes_bound column recovery : recovery_ok column recovery → 0 ≤ recovery_bytes recovery ≤ 2 ^ 34.
Proof using Type.
  intros [_ Hys]. unfold recovery_bytes, sat_mul. destruct (rr_requested_ys recovery) as [ys|]; simpl; [|unfold USIZE_MAX; lia].
  assert (Hsize : (size ys ≤ Z.to_nat (2 ^ 32))%nat).
  { etrans; [apply (subseteq_size ys (list_to_set (seqZ (- 2 ^ 31) (2 ^ 32))))|].
    - intros y Hy. apply elem_of_list_to_set, elem_of_seqZ. specialize (Hys ys eq_refl y Hy). unfold in_i32 in Hys. lia.
    - by rewrite size_list_to_set, length_seqZ by apply NoDup_seqZ. }
  apply Nat2Z.inj_le in Hsize. rewrite Z2Nat.id in Hsize by lia. unfold USIZE_MAX. lia.
Qed.

(** ** Rules for the small steps *)

Section rules.
Context (Layout_ok : layout_ok layout).
Implicit Types (E : BlobCacheError → Resolver → Prop).

Lemma ewp_bump stat n s (Q : unit → Resolver → Prop) E : (∀ v, Q tt (with_stats v s)) → ewp (bump stat n) s Q E.
Proof using Type. intros HQ. unfold bump. ewp_steps. apply HQ. Qed.
Lemma ewp_set_stat stat n s (Q : unit → Resolver → Prop) E : (∀ v, v stat = n → Q tt (with_stats v s)) → ewp (set_stat stat n) s Q E.
Proof using Type. intros HQ. unfold set_stat. ewp_steps. apply HQ. by rewrite decide_True. Qed.
Lemma ewp_record_skip stat s (Q : unit → Resolver → Prop) E : (∀ v, Q tt (with_stats v s)) → ewp (record_skip stat) s Q E.
Proof using Type. intros HQ. unfold record_skip. ewp_step. apply ewp_bump. intros v. apply ewp_bump. intros v'. apply (HQ v'). Qed.
Lemma ewp_read_capacity s (Q : Z → Resolver → Prop) E : (∀ c n, 0 ≤ c ≤ COUNT_BOUND → Q c (with_readings n s)) → ewp (read_capacity layout) s Q E.
Proof using Layout_ok. intros HQ. apply HQ, (ly_capacity _ Layout_ok). Qed.
Lemma ewp_ok_or {A} (o : option A) e s (Q : A → Resolver → Prop) E a : o = Some a → Q a s → ewp (ok_or o e) s Q E.
Proof using Type. intros -> HQ. exact HQ. Qed.
Lemma ewp_ok_or_case {A} (o : option A) e s (Q : A → Resolver → Prop) E : (∀ a, o = Some a → Q a s) → (o = None → E e s) → ewp (ok_or o e) s Q E.
Proof using Type. intros HQ HE. destruct o; [by apply HQ|by apply HE]. Qed.
Lemma ewp_add_assign a b s (Q : Z → Resolver → Prop) E : a + b ≤ USIZE_MAX → Q (a + b) s → ewp (add_assign a b) s Q E.
Proof using Type. intros H HQ. eapply ewp_expect; [by apply checked_add_fits|done]. Qed.
Lemma ewp_sub_assign a b s (Q : Z → Resolver → Prop) E : b ≤ a → Q (a - b) s → ewp (sub_assign a b) s Q E.
Proof using Type. intros H HQ. eapply ewp_expect; [by apply checked_sub_fits|done]. Qed.
Lemma ewp_totals exempt s (Q : unit → Resolver → Prop) E : resolver_ok exempt s → Q tt s → ewp debug_assert_running_totals s Q E.
Proof using Type. intros Hok HQ. unfold debug_assert_running_totals. ewp_steps. simpl. rewrite (ro_totals _ _ Hok). exact HQ. Qed.

Lemma size_bounds exempt s : resolver_ok exempt s → Z.of_nat (size (rs_pending s)) ≤ 2048 ∧ Z.of_nat (size (rs_ready s)) ≤ 2048 ∧
  Z.of_nat (size (rs_recovery s)) ≤ 2048 ∧ 0 ≤ rs_column_slots s ≤ 2048 ∧ Z.of_nat (size (rs_immediate s)) ≤ 64.
Proof using Type.
  intros Hok. pose proof (ro_count _ _ Hok) as Hc. pose proof (ro_load _ _ Hok) as Hl. pose proof (ro_immediate_count _ _ Hok).
  pose proof (ro_totals _ _ Hok) as (_ & _ & Hs)%totals_agree_spec. pose proof (slots_nonneg (rs_pending s) (rs_ready s)).
  unfold cached_count, load, MAX_CLIENT_BLOB_PENDING_TRANSACTIONS, MAX_CLIENT_BLOB_RECOVERY_READY_EVENTS, MAX_CLIENT_BLOB_ORDINARY_READY_EVENTS in *. lia.
Qed.

Lemma resolved_size exempt s : resolver_ok exempt s → Z.of_nat (size (rs_resolved_pending s)) ≤ Z.of_nat (size (rs_pending s)).
Proof using Type.
  intros Hok. rewrite <-(size_dom (D := gset Z) (rs_pending s)). apply Nat2Z.inj_le, subseteq_size. intros q Hq. apply elem_of_dom, (ro_resolved _ _ Hok q Hq).
Qed.

Lemma ewp_retained exempt s (Q : Z → Resolver → Prop) E : resolver_ok exempt s →
  (∀ n m, rs_pending_bytes s ≤ n ≤ 2 ^ 62 → Q n (with_readings m s)) → ewp (retained_cached_bytes layout) s Q E.
Proof using Layout_ok.
  intros Hok HQ. unfold retained_cached_bytes. ewp_step. eapply ewp_totals; [done|]. ewp_step. apply ewp_read_capacity. intros c1 n1 H1.
  ewp_step. apply ewp_read_capacity. intros c2 n2 H2. ewp_step. apply ewp_read_capacity. intros c3 n3 H3. ewp_step. ewp_step. simpl.
  pose proof (size_bounds _ _ Hok) as (Hp & Hr & _ & _ & _). pose proof (resolved_size _ _ Hok) as Hrs. pose proof (ro_ready_bytes _ _ Hok) as Hrb.
  pose proof (accounted_total_bound _ _ Hok) as Ha. pose proof (ready_total_nonneg _ _ Hok) as Hrn.
  pose proof (ro_totals _ _ Hok) as (Hpb & Hrb' & _)%totals_agree_spec. rewrite <-Hpb in Ha. rewrite <-Hrb' in Hrn.
  assert (Ho : Z.of_nat (size (rs_pending_order s)) = Z.of_nat (size (rs_pending s))) by (rewrite (ro_order _ _ Hok), size_dom; done).
  pose proof (small_product c1 _ H1 (ly_pending _ Layout_ok)) as B1. pose proof (small_product c2 _ H2 (ly_hash_set _ Layout_ok)) as B2.
  assert (B3 : 0 ≤ Z.of_nat (size (rs_ready s)) * size_ready layout ≤ 2 ^ 48) by (apply small_product; [unfold COUNT_BOUND; lia|apply Layout_ok]).
  unfold COUNT_BOUND, MAX_CLIENT_BLOB_READY_BYTES in *.
  rewrite !checked_mul_fits by (unfold USIZE_MAX; lia). simpl.
  rewrite checked_sum_fits; [|lia| |].
  - simpl. ewp_step. apply (HQ _ n3). lia.
  - intros x. rewrite !elem_of_cons, elem_of_nil. intros [-> | [-> | [-> | [-> | [-> | [-> | [-> | []]]]]]]]; lia.
  - simpl. unfold USIZE_MAX. lia.
Qed.

Lemma ordinary_fits exempt s : resolver_ok exempt s →
  retained_ordinary_bytes layout s = Some (Z.of_nat (size (rs_immediate s)) * size_immediate layout + ready_total (rs_immediate s)).
Proof using Layout_ok.
  intros Hok. unfold retained_ordinary_bytes. pose proof (size_bounds _ _ Hok) as (_ & _ & _ & _ & Hi). pose proof (ro_immediate_bytes _ _ Hok) as Hb.
  pose proof (immediate_total_nonneg _ _ Hok) as Hn. unfold MAX_CLIENT_BLOB_ORDINARY_READY_BYTES in Hb.
  assert (B : 0 ≤ Z.of_nat (size (rs_immediate s)) * size_immediate layout ≤ 2 ^ 48) by (apply small_product; [unfold COUNT_BOUND; lia|apply Layout_ok]).
  rewrite checked_mul_fits by (unfold USIZE_MAX; lia). simpl.
  assert (Hsum : sum_Z ((λ '(_, item), rd_accounted_bytes item) <$> ordered (rs_immediate s)) = ready_total (rs_immediate s)).
  { transitivity (sum_Z (rd_accounted_bytes <$> (ordered (rs_immediate s)).*2)).
    - rewrite <-list_fmap_compose. f_equal. apply list_fmap_ext. by intros ? [].
    - rewrite (sum_Z_perm _ (rd_accounted_bytes <$> (map_to_list (rs_immediate s)).*2)); [apply sum_Z_map|apply fmap_Permutation, ordered_snd]. }
  rewrite checked_sum_fits; rewrite ?Hsum; [done|lia| |unfold USIZE_MAX; lia].
  intros x ([q r] & -> & Hin)%list_elem_of_fmap. unfold ordered in Hin. rewrite merge_sort_Permutation in Hin. apply elem_of_map_to_list in Hin.
  by destruct (ro_immediate _ _ Hok q r Hin) as (_ & ? & _).
Qed.

Lemma recovery_fits exempt s : resolver_ok exempt s → is_Some (retained_recovery_bytes layout s).
Proof using Layout_ok.
  intros Hok. unfold retained_recovery_bytes. pose proof (size_bounds _ _ Hok) as (_ & _ & Hsize & _).
  assert (Hall : ∀ rec, rec ∈ (map_to_list (rs_recovery s)).*2 → 0 ≤ recovery_bytes rec ≤ 2 ^ 34).
  { intros rec ([c rec'] & -> & Hin)%list_elem_of_fmap. apply elem_of_map_to_list in Hin. eapply recovery_bytes_bound, (ro_recovery _ _ Hok), Hin. }
  assert (Hlen : Z.of_nat (length (map_to_list (rs_recovery s)).*2) ≤ 2048) by (by rewrite length_fmap, length_map_to_list).
  revert Hall Hlen. generalize (map_to_list (rs_recovery s)).*2. intros l Hall Hlen. pose proof (ly_recovery _ Layout_ok) as Hsz. unfold small_size in Hsz.
  cut (∀ start, 0 ≤ start ≤ 2 ^ 60 - 2 ^ 35 * Z.of_nat (length l) → is_Some (foldM (λ bytes recovery, bytes ← checked_add bytes (size_recovery layout); checked_add bytes (recovery_bytes recovery)) start l)); [intros H; apply H; lia|].
  clear Hlen. induction l as [|rec l IH]; intros start Hstart; [by eexists|]. simpl.
  assert (0 ≤ recovery_bytes rec ≤ 2 ^ 34) by (apply Hall; by left). cbn [length] in Hstart. rewrite checked_add_fits by (unfold USIZE_MAX; lia). simpl.
  rewrite checked_add_fits by (unfold USIZE_MAX; lia). simpl. apply IH; [intros; apply Hall; by right|lia].
Qed.

Lemma drop_empty_id exempt s : resolver_ok exempt s → drop_empty s = s.
Proof using Type.
  clear Layout_ok.
  intros Hok. unfold drop_empty. case_bool_decide as Hp; [|done]. pose proof (ro_order _ _ Hok) as Ho. rewrite Hp, dom_empty_L in Ho.
  assert (rs_resolved_pending s = ∅) as Hr.
  { apply set_eq. intros q. split; [|set_solver]. intros Hq. destruct (ro_resolved _ _ Hok q Hq) as [Hs _]. rewrite Hp in Hs. by destruct Hs. }
  destruct s. simpl in *. subst. done.
Qed.

(** Accounting never fails and touches statistics only. *)
Lemma ewp_refresh exempt s (Q : unit → Resolver → Prop) E : resolver_ok exempt s → (∀ v n, Q tt (with_readings n (with_stats v s))) →
  ewp (refresh_pending_accounting layout) s Q E.
Proof using Layout_ok.
  intros Hok HQ. unfold refresh_pending_accounting. ewp_step. ewp_step. rewrite (drop_empty_id _ _ Hok). ewp_step. eapply ewp_retained; [done|]. intros bytes m Hb.
  ewp_step. apply ewp_set_stat. intros v1 _. ewp_step. ewp_step. ewp_step. apply ewp_set_stat. intros v2 _. ewp_step. apply ewp_set_stat. intros v3 _.
  ewp_step. apply ewp_set_stat. intros v4 _. ewp_step. eapply ewp_ok_or; [apply (ordinary_fits exempt s Hok)|]. ewp_step. apply ewp_set_stat. intros v5 _.
  ewp_step. apply ewp_set_stat. intros v6 _. ewp_step. destruct (recovery_fits _ _ Hok) as [rb Hrb]. eapply ewp_ok_or; [exact Hrb|].
  apply ewp_set_stat. intros v7 _. apply (HQ v7 m).
Qed.

Lemma ewp_slot_count exempt s (Q : Z → Resolver → Prop) E : resolver_ok exempt s → Q (load s) s → ewp retained_recovery_slot_count s Q E.
Proof using Type.
  intros Hok HQ. unfold retained_recovery_slot_count. ewp_step. eapply ewp_totals; [done|]. ewp_step.
  pose proof (size_bounds _ _ Hok). rewrite sat_add_small by (unfold USIZE_MAX; lia). done.
Qed.
Lemma cached_count_eq exempt s : resolver_ok exempt s → retained_cached_transaction_count s = cached_count s.
Proof using Type. intros Hok. unfold retained_cached_transaction_count. pose proof (size_bounds _ _ Hok). apply sat_add_small. unfold USIZE_MAX. lia. Qed.
End rules.
End invariant.
