(* ===== verification/BlobResolverSpec.v ===== *)
(** * Abandoning pending transactions

    What removing a transaction from the resolver does: its waiting, its pins and its bytes go, others inherit the hashes
    it had asked for, and its columns are covered by recoveries. *)
From stdpp Require Import base numbers list gmap sets sorting.
From S2P Require Import Prelude Counting Effects BlobStore BlobStoreSpec BlobStoreTheorems BlobPackets BlobPacketsSpec BlobResolver BlobResolverInv.
#[local] Open Scope Z_scope.

Implicit Types (s : Resolver) (q hash : Z) (t : PendingTransaction) (r : ReadyItem) (ev : ChunkResyncEvent).

(** ** Recoveries *)

Definition event_column ev : ColumnKey := mk_column (cr_dimension ev) (cr_x ev) (cr_z ev).
(** The lane asks at least for what [ev] asks for. *)
Definition covers (lane : gmap ColumnKey RecoveryReady) ev : Prop :=
  ∃ recovery, lane !! event_column ev = Some recovery ∧
    match rr_requested_ys recovery with None => True | Some ys => ∃ l, cr_requested_ys ev = Some l ∧ ∀ y, y ∈ l → y ∈ ys end.

Lemma merge_into_lookup lane ev c : merge_into lane ev !! c =
  if decide (c = event_column ev)
  then Some (match lane !! c with None => (recovery_from_event ev).2 | Some existing => merge_recovery existing (recovery_from_event ev).2 end)
  else lane !! c.
Proof. unfold merge_into, event_column. simpl. case_decide as H; [subst; by rewrite lookup_insert_eq|by rewrite lookup_insert_ne]. Qed.

Lemma merge_covers lane ev : covers (merge_into lane ev) ev.
Proof.
  unfold covers. rewrite merge_into_lookup, decide_True by done. eexists. split; [done|].
  destruct (lane !! event_column ev) as [existing|]; simpl.
  - destruct (rr_requested_ys existing), (cr_requested_ys ev) as [l|]; simpl; try done. exists l. split; [done|]. intros y Hy. apply elem_of_union. right. by apply elem_of_list_to_set.
  - destruct (cr_requested_ys ev) as [l|]; simpl; [|done]. exists l. split; [done|]. intros y Hy. by apply elem_of_list_to_set.
Qed.
Lemma merge_keeps lane ev ev' : covers lane ev' → covers (merge_into lane ev) ev'.
Proof.
  intros (recovery & Hl & Hys). unfold covers. rewrite merge_into_lookup. case_decide as Hc; [|eauto]. eexists. split; [done|]. rewrite Hl. simpl.
  destruct (rr_requested_ys recovery) as [ys|]; simpl; [|done]. destruct (cr_requested_ys ev); simpl; [|done].
  destruct Hys as (l' & ? & Hin). exists l'. split; [done|]. intros y Hy. apply elem_of_union. left. auto.
Qed.

(** Heights that a packet can name. *)
Definition event_ok ev : Prop := ∀ l, cr_requested_ys ev = Some l → ∀ y, y ∈ l → in_i32 y.
Lemma no_event ev : ev ∈ @nil ChunkResyncEvent → event_ok ev.
Proof. intros H. by apply elem_of_nil in H. Qed.
#[export] Hint Extern 0 (event_ok _) => solve [eapply no_event; eassumption] : core.
Lemma merge_recovery_ok lane ev c recovery : event_ok ev → (∀ c recovery, lane !! c = Some recovery → recovery_ok c recovery) →
  merge_into lane ev !! c = Some recovery → recovery_ok c recovery.
Proof.
  intros Hev Hlane. rewrite merge_into_lookup. case_decide as Hc; [|by apply Hlane]. subst c. intros [= <-].
  destruct (lane !! event_column ev) as [existing|] eqn:Hl; [destruct (Hlane _ _ Hl) as [Hcol Hys]|]; (split; [done|]); intros ys; simpl.
  - destruct (rr_requested_ys existing) as [ys0|], (cr_requested_ys ev) as [l|] eqn:Hr; simpl; intros [= <-] y; try done.
    rewrite elem_of_union, elem_of_list_to_set. intros [?|?]; [by eapply Hys|by eapply Hev].
  - destruct (cr_requested_ys ev) as [l|] eqn:Hr; simpl; intros [= <-] y. rewrite elem_of_list_to_set. by apply Hev.
Qed.
Lemma merge_size lane ev : (size (merge_into lane ev) ≤ S (size lane))%nat.
Proof. unfold merge_into. simpl. rewrite map_size_insert. case_match; simpl; lia. Qed.

Lemma sat_i32_range a b : in_i32 (sat_i32 a b).
Proof. unfold in_i32, sat_i32. lia. Qed.
Lemma packet_recovery_ok packet ev : ev ∈ pending_packet_recovery packet → event_ok ev.
Proof.
  destruct packet as [p|p]; simpl; [intros ->%list_elem_of_singleton; done|]. destruct (sp_cache_enabled p); [|intros H; by apply elem_of_nil in H].
  unfold sub_chunk_recoveries. intros ([[x z] ys] & -> & Hin)%list_elem_of_fmap. rewrite merge_sort_Permutation in Hin. apply elem_of_map_to_list in Hin.
  intros l [= <-] y. unfold sorted_ys. rewrite merge_sort_Permutation, elem_of_elements. intros Hy.
  assert ((x, y, z) ∈ entry_position p <$> sp_entries p) as Hp by (apply by_column_lookup; by rewrite Hin).
  apply list_elem_of_fmap in Hp as (entry & He & _). unfold entry_position in He. destruct (sp_center p) as [[??]?], (sd_offset entry) as [[??]?]. injection He as _ -> _. apply sat_i32_range.
Qed.

(** ** The index of waiting transactions *)

Lemma unindex_lookup q l index hash : foldl (unindex q) index l !! hash =
  if decide (hash ∈ l) then W ← index !! hash; if decide (W ∖ {[q]} = ∅) then None else Some (W ∖ {[q]}) else index !! hash.
Proof.
  revert index. induction l as [|h l IH]; intros index; [by rewrite decide_False by apply not_elem_of_nil|]. cbn [foldl]. rewrite IH. clear IH.
  assert (Hone : unindex q index h !! hash = if decide (hash = h) then W ← index !! hash; if decide (W ∖ {[q]} = ∅) then None else Some (W ∖ {[q]}) else index !! hash).
  { unfold unindex. destruct (decide (hash = h)) as [->|Hne].
    - destruct (index !! h) as [W|] eqn:HW; simpl; [|done]. case_bool_decide; [rewrite decide_True by done; apply lookup_delete_eq|rewrite decide_False by done; apply lookup_insert_eq].
    - destruct (index !! h) as [W|]; [|done]. case_bool_decide; [by rewrite lookup_delete_ne|by rewrite lookup_insert_ne]. }
  rewrite Hone. destruct (decide (hash = h)) as [->|Hne].
  - rewrite (decide_True (P := h ∈ h :: l)) by by left. case_decide; [|done]. destruct (index !! h) as [W|]; simpl; [|done].
    destruct (decide (W ∖ {[q]} = ∅)) as [|Hn]; simpl; [done|]. replace (W ∖ {[q]} ∖ {[q]}) with (W ∖ {[q]} : gset Z) by set_solver. by rewrite decide_False.
  - destruct (decide (hash ∈ l)) as [Hl|Hl]; [by rewrite (decide_True (P := hash ∈ h :: l)) by by right|]. rewrite (decide_False (P := hash ∈ h :: l)); [done|]. by apply not_elem_of_cons.
Qed.

Section spec.
Context (layout : Layout) (limits : BlobCacheLimits) (xxh64 : Blob → Z).
Notation resolver_ok := (resolver_ok limits xxh64).
Notation stands_for := (stands_for xxh64).
Implicit Types (E : BlobCacheError → Resolver → Prop).

Definition with_lane (v : Stat → Z) (lane : gmap ColumnKey RecoveryReady) (s : Resolver) : Resolver := with_stats v (with_recovery lane s).
Lemma with_lane_stats v v' lane s : with_lane v' lane (with_stats v s) = with_lane v' lane s.
Proof using Type. done. Qed.
Lemma pins_lane extra v lane s : pins_exact extra s → pins_exact extra (with_lane v lane s).
Proof using Type. done. Qed.
Lemma pins_stats extra v s : pins_exact extra s → pins_exact extra (with_stats v s).
Proof using Type. done. Qed.
Lemma with_same_lane s : with_lane (rs_stats s) (rs_recovery s) s = s.
Proof using Type. by destruct s. Qed.

(** ** Recoveries join the lane *)

Record lane_grown (recoveries : list ChunkResyncEvent) (lane lane' : gmap ColumnKey RecoveryReady) : Prop := {
  lg_kept ev : covers lane ev → covers lane' ev;
  lg_new ev : ev ∈ recoveries → covers lane' ev;
}.

Lemma resolver_ok_lane exempt ev s : resolver_ok exempt s → event_ok ev → load s < MAX_CLIENT_BLOB_RECOVERY_READY_EVENTS →
  resolver_ok exempt (with_recovery (merge_into (rs_recovery s) ev) s).
Proof using Type.
  intros [] Hev Hl. split; try done; simpl.
  - intros c recovery. by apply merge_recovery_ok.
  - pose proof (merge_size (rs_recovery s) ev). unfold load in *. simpl. lia.
Qed.

Lemma ewp_enqueue_inner exempt ev (count_new : bool) s (Q : bool → Resolver → Prop) E : resolver_ok exempt s → event_ok ev → load s < MAX_CLIENT_BLOB_RECOVERY_READY_EVENTS →
  (∀ b v, resolver_ok exempt (with_stats v (with_recovery (merge_into (rs_recovery s) ev) s)) → Q b (with_stats v (with_recovery (merge_into (rs_recovery s) ev) s))) →
  ewp (enqueue_recovery_inner ev count_new) s Q E.
Proof using Type.
  intros Hok Hev Hl HQ. pose proof (resolver_ok_lane _ _ _ Hok Hev Hl) as Hok'. unfold enqueue_recovery_inner. ewp_step. ewp_step. simpl. ewp_step. ewp_step.
  assert (H : ∀ v, resolver_ok exempt (with_stats v (with_recovery (merge_into (rs_recovery s) ev) s))) by (intros v; by destruct Hok').
  destruct (rs_recovery s !! _); [ewp_step; by apply (HQ _ (rs_stats s)), H|]. ewp_step. destruct count_new; [apply ewp_bump; intros v; ewp_step; apply HQ, H|].
  ewp_step. ewp_step. by apply (HQ _ (rs_stats s)), H.
Qed.

Lemma ewp_enqueue_all exempt recoveries s (Q : unit → Resolver → Prop) E : resolver_ok exempt s → (∀ ev, ev ∈ recoveries → event_ok ev) →
  load s + Z.of_nat (length recoveries) ≤ MAX_CLIENT_BLOB_RECOVERY_READY_EVENTS →
  (∀ v lane, resolver_ok exempt (with_lane v lane s) → lane_grown recoveries (rs_recovery s) lane →
    load (with_lane v lane s) ≤ load s + Z.of_nat (length recoveries) → Q tt (with_lane v lane s)) →
  ewp (enqueue_recoveries recoveries) s Q E.
Proof using Type.
  unfold enqueue_recoveries. revert s. induction recoveries as [|ev recoveries IH]; intros s Hok Hev Hl HQ; cbn [for_each length] in *.
  { ewp_step. specialize (HQ (rs_stats s) (rs_recovery s)). rewrite with_same_lane in HQ. apply HQ; [done|split; [done|intros ? H; by apply elem_of_nil in H]|lia]. }
  ewp_step. unfold enqueue_recovery. ewp_step. eapply ewp_enqueue_inner; [done|apply Hev; by left|lia|]. intros b v Hok1. ewp_step.
  pose proof (merge_size (rs_recovery s) ev) as Hsize. assert (Hl1 : load (with_stats v (with_recovery (merge_into (rs_recovery s) ev) s)) ≤ load s + 1) by (unfold load; simpl; lia).
  apply IH; [done|intros; apply Hev; by right|lia|]. intros v' lane Hok' [Hk Hr] Hl'. apply (HQ v' lane); [done| |change (with_lane v' lane s) with (with_lane v' lane (with_stats v (with_recovery (merge_into (rs_recovery s) ev) s))); lia]. simpl in Hk, Hr. split.
  - intros ev' H. by apply Hk, merge_keeps.
  - intros ev' [->|H]%elem_of_cons; [apply Hk, merge_covers|by apply Hr].
Qed.

Lemma ewp_prepare_recovery exempt recoveries s (Q : option ChunkResyncEvent → Resolver → Prop) E : resolver_ok exempt s → (∀ ev, ev ∈ recoveries → event_ok ev) →
  load s + Z.of_nat (length recoveries) ≤ MAX_CLIENT_BLOB_RECOVERY_READY_EVENTS →
  (∀ v lane, resolver_ok exempt (with_lane v lane s) → lane_grown (tail recoveries) (rs_recovery s) lane →
    load (with_lane v lane s) + Z.of_nat (length (option_list (head recoveries))) ≤ load s + Z.of_nat (length recoveries) →
    Q (head recoveries) (with_lane v lane s)) →
  ewp (prepare_recovery recoveries) s Q E.
Proof using Type.
  intros Hok Hev Hl HQ. destruct recoveries as [|ev recoveries]; simpl in *.
  { ewp_step. specialize (HQ (rs_stats s) (rs_recovery s)). rewrite with_same_lane in HQ. apply HQ; [done|split; [done|intros ? H; by apply elem_of_nil in H]|lia]. }
  ewp_step. apply (ewp_enqueue_all exempt); [done|intros; apply Hev; by right|lia|]. intros v lane Hok' Hg Hl'. ewp_step. apply ewp_bump. intros v'. ewp_step.
  apply (HQ v' lane); [by destruct Hok'|done|]. unfold load in *. simpl in *. lia.
Qed.

(** ** Changes of one transaction *)

(** The same transaction, with perhaps more hashes it has asked for and other byte counts. *)
Record tx_like t t' : Prop := {
  ts_packet : pt_packet t' = pt_packet t;
  ts_hashes : pt_hashes t' = pt_hashes t;
  ts_unique : pt_unique_hashes t' = pt_unique_hashes t;
  ts_columns : pt_columns t' = pt_columns t;
  ts_unresolved : pt_unresolved_hashes t' = pt_unresolved_hashes t;
  ts_owned hash : hash ∈ pt_owned_hashes t → hash ∈ pt_owned_hashes t';
}.
Record tx_same t t' : Prop := { ts_like :> tx_like t t'; ts_staged : pt_staged_bytes t' = pt_staged_bytes t }.
Lemma tx_like_refl t : tx_like t t.
Proof using Type. by split. Qed.
Lemma tx_same_refl t : tx_same t t.
Proof using Type. split; [apply tx_like_refl|done]. Qed.
Lemma tx_same_trans t1 t2 t3 : tx_same t1 t2 → tx_same t2 t3 → tx_same t1 t3.
Proof using Type. intros [[] ?] [[] ?]. split; [split|]; try congruence. auto. Qed.

Definition txs_rel (Rel : PendingTransaction → PendingTransaction → Prop) (m m' : gmap Z PendingTransaction) : Prop :=
  (∀ q t, m !! q = Some t → ∃ t', m' !! q = Some t' ∧ Rel t t') ∧ (∀ q t', m' !! q = Some t' → ∃ t, m !! q = Some t ∧ Rel t t').
Notation txs_same := (txs_rel tx_same).
Notation txs_like := (txs_rel tx_like).
Lemma txs_same_refl m : txs_same m m.
Proof using Type. split; intros q t Hq; exists t; (split; [done|apply tx_same_refl]). Qed.
Lemma txs_same_trans m1 m2 m3 : txs_same m1 m2 → txs_same m2 m3 → txs_same m1 m3.
Proof using Type.
  intros [H1 B1] [H2 B2]. split.
  - intros q t (t1 & Ht1 & S1)%H1. destruct (H2 _ _ Ht1) as (t2 & ? & ?). exists t2. split; [done|by eapply tx_same_trans].
  - intros q t (t1 & Ht1 & S1)%B2. destruct (B1 _ _ Ht1) as (t2 & ? & ?). exists t2. split; [done|by eapply tx_same_trans].
Qed.
Lemma txs_rel_update (Rel : PendingTransaction → PendingTransaction → Prop) m q t t' : (∀ t, Rel t t) → m !! q = Some t → Rel t t' → txs_rel Rel m (<[q := t']> m).
Proof using Type.
  intros Hrefl Hq Hs. split; intros q0 t0.
  - intros H0. destruct (decide (q0 = q)) as [->|Hne]; [rewrite lookup_insert_eq; simplify_eq; eauto|rewrite lookup_insert_ne by done; eauto].
  - intros [[<- <-]|[Hne H0]]%lookup_insert_Some; eauto.
Qed.
Lemma txs_rel_some Rel m m' q : txs_rel Rel m m' → is_Some (m' !! q) ↔ is_Some (m !! q).
Proof using Type. intros [H B]. split; intros [t Ht]; [destruct (B _ _ Ht) as (t' & ? & _)|destruct (H _ _ Ht) as (t' & ? & _)]; by exists t'. Qed.
Lemma txs_rel_dom Rel m m' : txs_rel Rel m m' → dom m' = dom m.
Proof using Type. intros H. apply set_eq. intros q. rewrite !elem_of_dom. by eapply txs_rel_some. Qed.
Lemma txs_rel_none Rel m m' q : txs_rel Rel m m' → m' !! q = None ↔ m !! q = None.
Proof using Type. intros H. rewrite !eq_None_not_Some, (txs_rel_some _ _ _ _ H). done. Qed.
Lemma txs_same_like m m' : txs_same m m' → txs_like m m'.
Proof using Type. intros [H B]. split; intros q t Hq; [destruct (H q t Hq) as (t' & ? & [])|destruct (B q t Hq) as (t' & ? & [])]; eauto. Qed.

Definition with_txs (m : gmap Z PendingTransaction) (bytes : Z) (s : Resolver) : Resolver := with_pending_bytes bytes (with_pending m s).

Lemma resolver_ok_txs exempt s m bytes : resolver_ok exempt s → txs_like (rs_pending s) m → (∀ q t, m !! q = Some t → tx_ok t) →
  bytes = accounted_total m → slots_total m (rs_ready s) = slots_total (rs_pending s) (rs_ready s) → resolver_ok exempt (with_txs m bytes s).
Proof using Type.
  intros [] Hm Htx Hbytes Hslots. pose proof Hm as [Hf Hb]. pose proof (txs_rel_dom _ _ _ Hm) as Hdom.
  assert (Hsize : size m = size (rs_pending s)) by (by rewrite <-!(size_dom (D := gset Z)), Hdom).
  split; simpl; try done.
  - intros q t Hq. split; [by eapply Htx|]. destruct (Hb _ _ Hq) as (t0 & Ht0 & _). by eapply ro_txs.
  - congruence.
  - intros q hash (t & Ht & Hin)%ro_index. destruct (Hf _ _ Ht) as (t' & Ht' & []). exists t'. split; [done|congruence].
  - intros q t hash Hq Hin. destruct (Hb _ _ Hq) as (t0 & Ht0 & []). eapply ro_bodies; [done|congruence].
  - intros q t Hq. destruct (Hb _ _ Hq) as (t0 & Ht0 & []). by rewrite ts_unresolved0, ts_unique0, (ro_unresolved _ _ Ht0).
  - intros hash W (q & t & Hq & Ht & Hin)%ro_owner. destruct (Hf _ _ Ht) as (t' & Ht' & []). exists q, t'. eauto.
  - intros q (? & ?)%ro_resolved. by rewrite (txs_rel_some _ _ _ _ Hm).
  - intros q. rewrite (txs_rel_some _ _ _ _ Hm). apply ro_progress.
  - intros q r (? & ? & ?)%ro_ready. by rewrite (txs_rel_none _ _ _ _ Hm).
  - intros q r (? & ? & ? & ? & ?)%ro_immediate. by rewrite (txs_rel_none _ _ _ _ Hm).
  - apply totals_agree_spec. apply totals_agree_spec in ro_totals as (? & ? & ?). simpl. split; [done|]. split; [done|congruence].
  - unfold cached_count in *. simpl. lia.
Qed.

Lemma slots_update m ready q t t' : m !! q = Some t → pt_columns t' = pt_columns t → slots_total (<[q := t']> m) ready = slots_total m ready.
Proof using Type. intros Hq Hc. unfold slots_total. rewrite (map_sum_update _ _ _ _ _ Hq), Hc. lia. Qed.
Lemma holders_update m q t t' hash : m !! q = Some t → pt_unique_hashes t' = pt_unique_hashes t → holders (<[q := t']> m) hash = holders m hash.
Proof using Type. intros Hq Hu. unfold holders. rewrite (map_sum_update _ _ _ _ _ Hq), Hu. lia. Qed.
Lemma accounted_update m q t t' : m !! q = Some t → accounted_total (<[q := t']> m) = accounted_total m - pt_accounted_bytes t + pt_accounted_bytes t'.
Proof using Type. intros Hq. unfold accounted_total. by rewrite (map_sum_update _ _ _ _ _ Hq). Qed.
Lemma resolver_ok_update exempt s q t t' bytes : resolver_ok exempt s → rs_pending s !! q = Some t → tx_like t t' → tx_ok t' →
  bytes = rs_pending_bytes s - pt_accounted_bytes t + pt_accounted_bytes t' → resolver_ok exempt (with_txs (<[q := t']> (rs_pending s)) bytes s).
Proof using Type.
  intros Hok Hq Hs Htx ->. pose proof (ro_totals _ _ _ _ Hok) as (Hb & _ & _)%totals_agree_spec.
  apply resolver_ok_txs; [done|eapply txs_rel_update; [apply tx_like_refl|done|done]| |by rewrite (accounted_update _ _ _ _ Hq), Hb|eapply slots_update; [done|apply Hs]].
  intros q0 t0 [[_ <-]|[_ H0]]%lookup_insert_Some; [done|]. by destruct (ro_txs _ _ _ _ Hok _ _ H0).
Qed.
Lemma pins_update extra s q t t' bytes : pins_exact extra s → rs_pending s !! q = Some t → pt_unique_hashes t' = pt_unique_hashes t →
  pins_exact extra (with_txs (<[q := t']> (rs_pending s)) bytes s).
Proof using Type. intros Hp Hq Hu hash. simpl. by rewrite (holders_update _ _ _ _ _ Hq Hu). Qed.

(** ** Inheriting the hashes asked for *)

Lemma first_of_Some (X : gset Z) q : first_of X = Some q → q ∈ X.
Proof using Type.
  unfold first_of. intros H. assert (q ∈ merge_sort Z.le (elements X)) as Hin by (destruct (merge_sort Z.le (elements X)); simplify_eq/=; by left).
  by rewrite merge_sort_Permutation, elem_of_elements in Hin.
Qed.
Lemma first_of_None (X : gset Z) : first_of X = None → X = ∅.
Proof using Type.
  unfold first_of. intros H. destruct (merge_sort Z.le (elements X)) eqn:Hs; [|done].
  assert (elements X = []) as He by (apply Permutation_nil_r; rewrite <-(merge_sort_Permutation Z.le (elements X)); by rewrite Hs).
  by apply leibniz_equiv, elements_empty_iff.
Qed.

Definition with_promoted (m : gmap Z PendingTransaction) (bytes : Z) (n : nat) (s : Resolver) : Resolver := with_readings n (with_txs m bytes s).
Lemma with_promoted_same s : with_promoted (rs_pending s) (rs_pending_bytes s) (rs_readings s) s = s.
Proof using Type. by destruct s. Qed.

Section promotion.
Context (Layout_ok : layout_ok layout) (exempt : gset Z) (extra : list Z).

Lemma ewp_add_owned q hash s (Q : unit → Resolver → Prop) E : resolver_ok exempt s → pins_exact extra s →
  (∀ m b n, resolver_ok exempt (with_promoted m b n s) → pins_exact extra (with_promoted m b n s) → txs_same (rs_pending s) m →
    (∀ t, m !! q = Some t → hash ∈ pt_owned_hashes t) → Q tt (with_promoted m b n s)) →
  ewp (add_owned_hash layout q hash) s Q E.
Proof using Layout_ok.
  intros Hok Hp HQ. unfold add_owned_hash. ewp_step. ewp_step. simpl. pose proof (HQ (rs_pending s) (rs_pending_bytes s) (rs_readings s)) as HQ0. rewrite with_promoted_same in HQ0.
  destruct (rs_pending s !! q) as [t|] eqn:Hq; [|ewp_step; apply HQ0; [done|done|apply txs_same_refl|congruence]].
  case_bool_decide as Hin; [ewp_step; apply HQ0; [done|done|apply txs_same_refl|congruence]|]. clear HQ0.
  destruct (ro_txs _ _ _ _ Hok q t Hq) as [[H1 H2 H3 H4 H5 H6 H7 H8] _]. unfold TX_BYTES, COUNT_BOUND in *.
  pose proof (ro_totals _ _ _ _ Hok) as (Hb & _ & _)%totals_agree_spec. pose proof (accounted_total_bound _ _ _ _ Hok) as Hbound. pose proof (size_bounds _ _ _ _ Hok) as (Hsz & _).
  ewp_step. apply (ewp_read_capacity _ Layout_ok). intros c n Hc. unfold COUNT_BOUND in Hc. ewp_step. rewrite sat_sub_small by lia.
  eapply ewp_ok_or; [unfold try_reserve; by rewrite (proj2 (Z.leb_le _ _)) by lia|]. ewp_step.
  eapply ewp_ok_or; [apply checked_mul_fits; unfold USIZE_MAX; lia|]. ewp_step. eapply ewp_ok_or; [apply checked_add_fits; unfold USIZE_MAX; lia|].
  ewp_step. ewp_step. ewp_step. apply ewp_add_assign; [rewrite Hb; unfold USIZE_MAX; lia|]. ewp_step.
  set (t' := mk_pending _ _ _ _ _ _ _ _ _). assert (Hsame : tx_same t t') by (split; [split|]; try done; intros h Hh; apply elem_of_app; by left).
  eapply (HQ (<[q := t']> (rs_pending s)) _ n).
  - assert (resolver_ok exempt (with_txs (<[q := t']> (rs_pending s)) (rs_pending_bytes s + (pt_owned_capacity t `max` c - pt_owned_capacity t) * 8) s)) as [].
    { eapply resolver_ok_update; [done|done|apply Hsame| |simpl; lia]. split; simpl; try done; unfold TX_BYTES, COUNT_BOUND; lia. }
    by split.
  - by apply (pins_update _ s q t).
  - eapply txs_rel_update; [apply tx_same_refl|done|done].
  - intros t0. rewrite lookup_insert_eq. intros [= <-]. apply elem_of_app. right. by left.
Qed.

Lemma ewp_promote_all l s (Q : unit → Resolver → Prop) E : resolver_ok exempt s → pins_exact extra s →
  (∀ m b n, resolver_ok exempt (with_promoted m b n s) → pins_exact extra (with_promoted m b n s) → txs_same (rs_pending s) m →
    (∀ hash w t, (hash, w) ∈ l → m !! w = Some t → hash ∈ pt_owned_hashes t) → Q tt (with_promoted m b n s)) →
  ewp (for_each (λ '(hash, w), add_owned_hash layout w hash) l) s Q E.
Proof using Layout_ok.
  revert s. induction l as [|[hash w] l IH]; intros s Hok Hp HQ; cbn [for_each].
  { ewp_step. specialize (HQ (rs_pending s) (rs_pending_bytes s) (rs_readings s)). rewrite with_promoted_same in HQ. apply HQ; [done|done|apply txs_same_refl|].
    intros ??? H. by apply elem_of_nil in H. }
  ewp_step. apply ewp_add_owned; [done|done|]. intros m b n Hok1 Hp1 Hs1 Ho1. apply IH; [done|done|]. intros m' b' n' Hok2 Hp2 Hs2 Ho2.
  apply (HQ m' b' n'); [done|done|by eapply txs_same_trans|]. intros h w0 t [[= -> ->]|Hin]%elem_of_cons Ht; [|by eapply Ho2].
  destruct (proj2 Hs2 _ _ Ht) as (t0 & Ht0 & Hsame). by apply (ts_owned _ _ Hsame), Ho1.
Qed.

(** Every hash that others wait for too has an owner among them. *)
Definition heirs q s : Prop := ∀ hash W, rs_pending_by_hash s !! hash = Some W → W ∖ {[q]} ≠ ∅ →
  ∃ w t, w ∈ W ∖ {[q]} ∧ rs_pending s !! w = Some t ∧ hash ∈ pt_owned_hashes t.

Lemma elem_of_promotions q s hash w : (hash, w) ∈ promotions q s ↔
  ∃ t W, rs_pending s !! q = Some t ∧ hash ∈ pt_owned_hashes t ∧ rs_pending_by_hash s !! hash = Some W ∧ first_of (W ∖ {[q]}) = Some w.
Proof using Type.
  unfold promotions. rewrite list_elem_of_omap. split.
  - intros (h & Hin & Hb). destruct (rs_pending s !! q) as [t|]; [|by apply elem_of_nil in Hin]. destruct (rs_pending_by_hash s !! h) as [W|] eqn:HW; [|done]. simpl in Hb.
    destruct (first_of (W ∖ {[q]})) as [w'|] eqn:Hf; simplify_eq/=. eauto 10.
  - intros (t & W & -> & Hin & HW & Hf). exists hash. split; [done|]. by rewrite HW; simpl; rewrite Hf.
Qed.

Lemma ewp_promote q s (Q : unit → Resolver → Prop) E : resolver_ok exempt s → pins_exact extra s →
  (∀ m b n, resolver_ok exempt (with_promoted m b n s) → pins_exact extra (with_promoted m b n s) → txs_same (rs_pending s) m →
    heirs q (with_promoted m b n s) → Q tt (with_promoted m b n s)) →
  ewp (promote_waiters layout q) s Q E.
Proof using Layout_ok.
  intros Hok Hp HQ. unfold promote_waiters. ewp_step. ewp_step. apply ewp_promote_all; [done|done|]. intros m b n Hok' Hp' Hs Ho. apply HQ; [done..|].
  intros hash W HW Hne. simpl in HW |- *. destruct (ro_owner _ _ _ _ Hok _ _ HW) as (q0 & t0 & Hq0 & Ht0 & Hin0). destruct (decide (q0 = q)) as [->|Hneq].
  - destruct (first_of (W ∖ {[q]})) as [w|] eqn:Hf; [|by apply first_of_None in Hf]. pose proof (first_of_Some _ _ Hf) as Hw.
    destruct (ro_index _ _ _ _ Hok w hash) as (tw & Htw & _); [unfold waiters; rewrite HW; simpl; set_solver|].
    destruct (proj1 Hs _ _ Htw) as (tw' & Htw' & _). exists w, tw'. split; [done|]. split; [done|]. eapply Ho; [|done]. apply elem_of_promotions. eauto 10.
  - destruct (proj1 Hs _ _ Ht0) as (t0' & Ht0' & Hsame). exists q0, t0'. split; [set_solver|]. split; [done|]. by apply (ts_owned _ _ Hsame).
Qed.
End promotion.

(** ** Removal *)

Definition removed q t (s : Resolver) : Resolver :=
  with_by_hash (foldl (unindex q) (rs_pending_by_hash s) (pt_unique_hashes t))
    (with_slots (rs_column_slots s - Z.of_nat (length (pt_columns t)))
      (with_pending_bytes (rs_pending_bytes s - pt_accounted_bytes t)
        (with_pending (delete q (rs_pending s)) (with_resolved (rs_resolved_pending s ∖ {[q]}) (with_order (rs_pending_order s ∖ {[q]}) s))))).

Lemma waiters_removed exempt q t s hash : resolver_ok exempt s → rs_pending s !! q = Some t →
  waiters (rs_pending_by_hash (removed q t s)) hash = waiters (rs_pending_by_hash s) hash ∖ {[q]}.
Proof using Type.
  intros Hok Hq. unfold waiters. simpl. rewrite unindex_lookup. case_decide as Hin.
  - destruct (rs_pending_by_hash s !! hash) as [W|]; simpl; [|set_solver]. case_decide as He; simpl; [by rewrite He|done].
  - destruct (rs_pending_by_hash s !! hash) as [W|] eqn:HW; simpl; [|set_solver]. assert (q ∉ W); [|set_solver]. intros Hqw.
    destruct (ro_index _ _ _ _ Hok q hash) as (t' & Ht' & Hin'); [unfold waiters; by rewrite HW|]. congruence.
Qed.
Lemma removed_index exempt q t s hash W : resolver_ok exempt s → rs_pending s !! q = Some t → rs_pending_by_hash (removed q t s) !! hash = Some W →
  ∃ W0, rs_pending_by_hash s !! hash = Some W0 ∧ W = W0 ∖ {[q]} ∧ W ≠ ∅.
Proof using Type.
  intros Hok Hq. simpl. rewrite unindex_lookup. case_decide as Hin.
  - destruct (rs_pending_by_hash s !! hash) as [W0|]; simpl; [|done]. case_decide; [done|]. intros [= <-]. eauto.
  - intros HW. exists W. split; [done|]. split; [|by eapply ro_nonempty]. assert (q ∉ W); [|set_solver]. intros Hqw.
    destruct (ro_index _ _ _ _ Hok q hash) as (t' & Ht' & Hin'); [unfold waiters; by rewrite HW|]. congruence.
Qed.

Lemma slots_delete m ready q t : m !! q = Some t → slots_total (delete q m) ready = slots_total m ready - Z.of_nat (length (pt_columns t)).
Proof using Type. intros Hq. unfold slots_total. rewrite (map_sum_delete (λ _ t, Z.of_nat (length (pt_columns t))) m q t Hq). lia. Qed.
Lemma holders_delete m q t hash : m !! q = Some t → holders (delete q m) hash = holders m hash - (if decide (hash ∈ pt_unique_hashes t) then 1 else 0).
Proof using Type. intros Hq. unfold holders. rewrite (map_sum_delete _ m q t Hq). lia. Qed.
Lemma accounted_delete m q t : m !! q = Some t → accounted_total (delete q m) = accounted_total m - pt_accounted_bytes t.
Proof using Type. intros Hq. unfold accounted_total. rewrite (map_sum_delete _ m q t Hq). lia. Qed.
Lemma holders_nonneg m hash : 0 ≤ holders m hash.
Proof using Type. apply map_sum_of_nonneg. intros. case_decide; lia. Qed.
Lemma pins_bounded exempt s hash : resolver_ok exempt s → pins_exact [] s → 0 ≤ pin_count (rs_cache s) hash ≤ MAX_CLIENT_BLOB_PENDING_TRANSACTIONS.
Proof using Type.
  intros Hok Hp. rewrite Hp, decide_False by apply not_elem_of_nil. pose proof (size_bounds _ _ _ _ Hok) as Hsize. pose proof (ro_count _ _ _ _ Hok) as Hc. unfold cached_count in Hc.
  pose proof (map_sum_bound (λ _ t, if decide (hash ∈ pt_unique_hashes t) then 1 else 0) (rs_pending s) 1) as Hb. fold (holders (rs_pending s) hash) in Hb.
  assert (0 ≤ holders (rs_pending s) hash ≤ 1 * Z.of_nat (size (rs_pending s))); [apply Hb; [lia|intros; case_decide; lia]|lia].
Qed.
Lemma holders_lookup m q t hash : m !! q = Some t → hash ∈ pt_unique_hashes t → 1 ≤ holders m hash.
Proof using Type. intros Hq Hin. rewrite <-(holders_update m q t t) by done. unfold holders. rewrite (map_sum_delete _ _ q t) by apply lookup_insert_eq. rewrite decide_True by done.
  pose proof (holders_nonneg (delete q (<[q := t]> m)) hash). unfold holders in *. lia.
Qed.

Lemma delete_size (m : gmap Z PendingTransaction) q t : m !! q = Some t → Z.of_nat (size (delete q m)) = Z.of_nat (size m) - 1.
Proof using Type. intros Hq. rewrite map_size_delete_Some by by eexists. assert (size m ≠ 0%nat); [|lia]. intros H0%map_size_empty_inv. by subst. Qed.

(** Accounts that a transaction's own totals never exceed. *)
Lemma own_totals exempt s q t : resolver_ok exempt s → rs_pending s !! q = Some t →
  0 ≤ pt_accounted_bytes t ≤ rs_pending_bytes s ∧ Z.of_nat (length (pt_columns t)) ≤ rs_column_slots s.
Proof using Type.
  intros Hok Hq. pose proof (ro_totals _ _ _ _ Hok) as (Hb & _ & Hs)%totals_agree_spec. destruct (ro_txs _ _ _ _ Hok q t Hq) as [[] _].
  assert (0 ≤ accounted_total (delete q (rs_pending s))). { apply map_sum_nonneg. intros q0 t0 [_ H0]%lookup_delete_Some. destruct (ro_txs _ _ _ _ Hok q0 t0 H0) as [[] _]. lia. }
  pose proof (accounted_delete _ _ _ Hq). pose proof (slots_delete _ (rs_ready s) _ _ Hq). pose proof (slots_nonneg (delete q (rs_pending s)) (rs_ready s)). lia.
Qed.

Lemma ewp_remove exempt q s (Q : option PendingTransaction → Resolver → Prop) E : resolver_ok exempt s →
  (rs_pending s !! q = None → Q None s) → (∀ t, rs_pending s !! q = Some t → Q (Some t) (removed q t s)) →
  ewp (remove_pending_transaction q) s Q E.
Proof using Type.
  intros Hok H0 H1. unfold remove_pending_transaction. do 2 (ewp_step; ewp_step). ewp_step. ewp_step. simpl. destruct (rs_pending s !! q) as [t|] eqn:Hq.
  - pose proof (own_totals _ _ _ _ Hok Hq) as [Hb Hs]. ewp_step. ewp_step. ewp_step. apply ewp_sub_assign; [simpl; lia|]. ewp_step. ewp_step. ewp_step.
    apply ewp_sub_assign; [simpl; lia|]. ewp_step. ewp_step. ewp_step. ewp_step. ewp_step. by apply H1.
  - ewp_step. assert (with_resolved (rs_resolved_pending s ∖ {[q]}) (with_order (rs_pending_order s ∖ {[q]}) s) = s) as Heq; [|simpl; rewrite Heq; by apply H0].
    assert (rs_resolved_pending s ∖ {[q]} = rs_resolved_pending s) as ->.
    { assert (q ∉ rs_resolved_pending s); [|set_solver]. intros Hin. destruct (ro_resolved _ _ _ _ Hok q Hin) as [[? ?] _]. congruence. }
    assert (rs_pending_order s ∖ {[q]} = rs_pending_order s) as ->; [|by destruct s].
    assert (q ∉ rs_pending_order s); [|set_solver]. rewrite (ro_order _ _ _ _ Hok), elem_of_dom, Hq. by intros [].
Qed.

(** After its bodies are released the rest is in order again. *)
Definition released q t (s : Resolver) : Resolver := with_cache (unpin_all limits (pt_unique_hashes t) (rs_cache s)) (removed q t s).

Section release.
Context (Limits : limits_ok limits) (exempt : gset Z).

Lemma pins_none s hash : pins_exact [] s → pin_count (rs_cache s) hash = holders (rs_pending s) hash.
Proof using Type. intros Hp. rewrite (Hp hash), decide_False by apply not_elem_of_nil. apply Z.add_0_r. Qed.

Lemma released_pins q t s : resolver_ok exempt s → pins_exact [] s → rs_pending s !! q = Some t → pins_exact [] (released q t s).
Proof using Limits.
  intros Hok Hp Hq hash. simpl. destruct (unpin_all_ok limits (pt_unique_hashes t) (rs_cache s) Limits (ro_cache _ _ _ _ Hok)) as [_ Hu].
  rewrite (up_pins _ _ _ Hu), (holders_delete _ _ _ _ Hq), (Hp hash). rewrite decide_False by apply not_elem_of_nil.
  destruct (ro_txs _ _ _ _ Hok q t Hq) as [[] _]. assert (NoDup (pt_unique_hashes t)) as Hnd by (rewrite tk_unique; apply stable_unique_nodup).
  pose proof (holders_nonneg (rs_pending s) hash) as Hn. case_decide as Hin.
  - pose proof (holders_lookup _ _ _ _ Hq Hin). assert (count_occ Z.eq_dec (pt_unique_hashes t) hash = 1%nat) as ->; [|lia].
    apply NoDup_count_occ'; [by apply NoDup_ListNoDup|by apply list_elem_of_In].
  - assert (count_occ Z.eq_dec (pt_unique_hashes t) hash = 0%nat) as ->; [|lia]. apply count_occ_not_In. by rewrite <-list_elem_of_In.
Qed.

Lemma released_body q t s q' t' hash : resolver_ok exempt s → pins_exact [] s → rs_pending s !! q = Some t → q' ≠ q → rs_pending s !! q' = Some t' →
  hash ∈ pt_unique_hashes t' → body (rs_cache (released q t s)) hash = body (rs_cache s) hash.
Proof using Limits.
  intros Hok Hp Hq Hne Hq' Hin. destruct (unpin_all_ok limits (pt_unique_hashes t) (rs_cache s) Limits (ro_cache _ _ _ _ Hok)) as [Hs Hu].
  unfold body. simpl. rewrite (up_kept _ _ _ Hu); [done|]. right. left. pose proof (pins_none _ hash (released_pins q t s Hok Hp Hq)) as Hpc. change (rs_pending (released q t s)) with (delete q (rs_pending s)) in Hpc.
  assert (1 ≤ holders (delete q (rs_pending s)) hash) as Hh by (eapply (holders_lookup _ q' t'); [by rewrite lookup_delete_ne|done]).
  unfold pin_count in Hpc. simpl in Hpc. destruct (cs_pins _ !! hash); [by eexists|]. simpl in Hpc. lia.
Qed.

Lemma released_absent q t s hash : resolver_ok exempt s → body (rs_cache s) hash = None → body (rs_cache (released q t s)) hash = None.
Proof using Limits.
  intros Hok. unfold body. rewrite !fmap_None, !eq_None_not_Some. intros Hn [e He]. apply Hn. exists e.
  destruct (unpin_all_ok limits (pt_unique_hashes t) (rs_cache s) Limits (ro_cache _ _ _ _ Hok)) as [_ Hu]. exact (up_sub _ _ _ Hu _ _ He).
Qed.

Lemma released_ok q t s : resolver_ok exempt s → pins_exact [] s → rs_pending s !! q = Some t → heirs q s → resolver_ok exempt (released q t s).
Proof using Limits.
  intros Hok Hp Hq Hheirs. pose proof (λ hash, waiters_removed exempt q t s hash Hok Hq) as Hw.
  destruct (unpin_all_ok limits (pt_unique_hashes t) (rs_cache s) Limits (ro_cache _ _ _ _ Hok)) as [Hcs Hu].
  pose proof (ro_totals _ _ _ _ Hok) as (Hb & Hrb & Hsl)%totals_agree_spec. pose proof (delete_size _ _ _ Hq) as Hsize.
  assert (Hwait : ∀ q0 hash, q0 ∈ waiters (rs_pending_by_hash (released q t s)) hash ↔ q0 ∈ waiters (rs_pending_by_hash s) hash ∧ q0 ≠ q).
  { intros q0 hash. change (rs_pending_by_hash (released q t s)) with (rs_pending_by_hash (removed q t s)). rewrite Hw. set_solver. }
  split.
  - done.
  - intros k e He%(up_sub _ _ _ Hu). by eapply (ro_addressed _ _ _ _ Hok).
  - intros q0 t0. simpl. intros [_ H0]%lookup_delete_Some. by apply (ro_txs _ _ _ _ Hok).
  - simpl. by rewrite (ro_order _ _ _ _ Hok), dom_delete_L.
  - intros hash W (W0 & _ & _ & ?)%(removed_index exempt q t); done.
  - intros q0 hash [Hin Hne]%Hwait. destruct (ro_index _ _ _ _ Hok _ _ Hin) as (t0 & Ht0 & ?). exists t0. split; [|done]. simpl. by rewrite lookup_delete_ne.
  - intros q0 t0 hash H0 Hin. apply (lookup_delete_Some (rs_pending s)) in H0 as [Hne H0]. rewrite (released_body q t s q0 t0), Hwait by done.
    destruct (ro_bodies _ _ _ _ Hok q0 t0 hash H0 Hin); [by left|right; done].
  - intros q0 t0 H0. apply (lookup_delete_Some (rs_pending s)) in H0 as [Hne H0]. rewrite (ro_unresolved _ _ _ _ Hok q0 t0 H0). do 2 f_equal.
    apply list_filter_iff. intros hash. rewrite Hwait. naive_solver.
  - intros hash W (W0 & HW0 & -> & Hne)%(removed_index exempt q t); [|done..].
    destruct (Hheirs hash W0 HW0 Hne) as (w & tw & Hwin & Htw & Hown). exists w, tw. split; [done|]. split; [|done]. simpl. rewrite lookup_delete_ne by set_solver. done.
  - intros q0. simpl. intros [Hin Hne]%elem_of_difference. destruct (ro_resolved _ _ _ _ Hok q0 Hin) as [Hs Hn]. split; [by rewrite lookup_delete_ne by set_solver|].
    intros hash [Hx _]%Hwait. by eapply Hn.
  - intros q0. simpl. intros [t0 [Hne H0]%lookup_delete_Some]. destruct (ro_progress _ _ _ _ Hok q0) as [?|[?|[hash ?]]]; [by eexists|by left|right; left; set_solver|].
    right. right. exists hash. by apply Hwait.
  - intros q0 r0. simpl. intros (? & ? & H0)%(ro_ready _ _ _ _ Hok). split; [done|]. split; [done|]. apply lookup_delete_None. by right.
  - intros q0 r0. simpl. intros (? & ? & ? & H0 & ?)%(ro_immediate _ _ _ _ Hok). do 3 (split; [done|]). split; [|done]. apply lookup_delete_None. by right.
  - apply (ro_recovery _ _ _ _ Hok).
  - apply totals_agree_spec. simpl. rewrite (accounted_delete _ _ _ Hq), (slots_delete _ _ _ _ Hq). repeat split; [lia|done|lia].
  - apply (ro_ready_bytes _ _ _ _ Hok).
  - apply (ro_immediate_bytes _ _ _ _ Hok).
  - apply (ro_immediate_count _ _ _ _ Hok).
  - apply (ro_next _ _ _ _ Hok).
  - pose proof (ro_count _ _ _ _ Hok) as Hc. unfold cached_count in *. simpl. lia.
  - pose proof (ro_load _ _ _ _ Hok) as Hl. unfold load in *. simpl. lia.
Qed.
End release.

(** ** How the resolver evolves *)

(** Nothing retained is lost: a pending transaction stays, becomes ready with its bodies inline, or is covered by
    recoveries, in the lane or in [out]; so is what is ready. *)
Record kept (out : list ChunkResyncEvent) s s' : Prop := {
  kp_pending q t : rs_pending s !! q = Some t →
    (∃ t', rs_pending s' !! q = Some t' ∧ pt_packet t' = pt_packet t) ∨
    (∃ r, rs_ready s' !! q = Some r ∧ stands_for (pt_packet t) (rd_value r)) ∨
    (∀ ev, ev ∈ pending_packet_recovery (pt_packet t) → covers (rs_recovery s') ev ∨ ev ∈ out);
  kp_ready q r : rs_ready s !! q = Some r →
    rs_ready s' !! q = Some r ∨ (∀ ev, ev ∈ ready_value_recovery (rd_value r) → covers (rs_recovery s') ev ∨ ev ∈ out);
  kp_lane ev : covers (rs_recovery s) ev → covers (rs_recovery s') ev;
}.
Record evolves (out : list ChunkResyncEvent) s s' : Prop := {
  ev_kept :> kept out s s';
  ev_back q t' : rs_pending s' !! q = Some t' → ∃ t, rs_pending s !! q = Some t ∧ pt_packet t' = pt_packet t ∧ pt_staged_bytes t' = pt_staged_bytes t;
  ev_bodies q t' hash : rs_pending s' !! q = Some t' → hash ∈ packet_hashes (pt_packet t') → is_Some (body (rs_cache s) hash) → is_Some (body (rs_cache s') hash);
  ev_absent hash : body (rs_cache s) hash = None → body (rs_cache s') hash = None;
  ev_ready q r : rs_ready s' !! q = Some r → rs_ready s !! q = Some r ∨ ∃ t, rs_pending s !! q = Some t ∧ stands_for (pt_packet t) (rd_value r);
  ev_immediate : rs_immediate s' = rs_immediate s;
  ev_next : rs_next_sequence s' = rs_next_sequence s;
  ev_waiters q hash : q ∈ waiters (rs_pending_by_hash s') hash → q ∈ waiters (rs_pending_by_hash s) hash;
  ev_out ev : ev ∈ out → event_ok ev;
  ev_load : load s' + Z.of_nat (length out) ≤ load s;
  ev_count : cached_count s' ≤ cached_count s;
}.

Lemma kept_core s s' : rs_pending s' = rs_pending s → rs_ready s' = rs_ready s → rs_recovery s' = rs_recovery s → kept [] s s'.
Proof using Type. intros H1 H2 H3. split; rewrite ?H1, ?H2, ?H3; eauto. Qed.
Lemma kept_trans out1 out2 s1 s2 s3 : kept out1 s1 s2 → kept out2 s2 s3 → kept (out1 ++ out2) s1 s3.
Proof using Type.
  intros [P1 R1 L1] [P2 R2 L2]. split; eauto.
  - intros q t Hq. destruct (P1 q t Hq) as [(t1 & Ht1 & Hp1)|[(r & Hr & Hst)|Hcov]].
    + destruct (P2 q t1 Ht1) as [(t2 & ? & ?)|[(r & ? & ?)|Hcov]].
      * left. exists t2. split; [done|congruence].
      * right. left. exists r. split; [done|congruence].
      * right. right. intros ev Hev. rewrite <-Hp1 in Hev. destruct (Hcov ev Hev); [by left|right; apply elem_of_app; by right].
    + destruct (R2 q r Hr) as [?|Hcov]; [right; left; eauto|right; right]. rewrite (stands_recovery _ _ _ Hst) in Hcov.
      intros ev Hev. destruct (Hcov ev Hev); [by left|right; apply elem_of_app; by right].
    + right. right. intros ev Hev. destruct (Hcov ev Hev); [left; auto|right; apply elem_of_app; by left].
  - intros q r Hr. destruct (R1 q r Hr) as [Hr1|Hcov].
    + destruct (R2 q r Hr1) as [?|Hcov]; [by left|right]. intros ev Hev. destruct (Hcov ev Hev); [by left|right; apply elem_of_app; by right].
    + right. intros ev Hev. destruct (Hcov ev Hev); [left; auto|right; apply elem_of_app; by left].
Qed.
Lemma evolves_core s s' : rs_cache s' = rs_cache s → rs_pending s' = rs_pending s → rs_ready s' = rs_ready s → rs_immediate s' = rs_immediate s → rs_recovery s' = rs_recovery s →
  rs_next_sequence s' = rs_next_sequence s → rs_pending_by_hash s' = rs_pending_by_hash s → rs_column_slots s' = rs_column_slots s → evolves [] s s'.
Proof using Type.
  intros H1 H2 H3 H4 H5 H6 H7 H8. split; [by apply kept_core|..]; unfold load, cached_count; rewrite ?H1, ?H2, ?H3, ?H4, ?H5, ?H6, ?H7, ?H8; simpl; try done; eauto. lia.
Qed.
Lemma evolves_stats v n armed stalled s : evolves [] s (with_readings n (with_stats v (with_flags armed stalled s))).
Proof using Type. by apply evolves_core. Qed.
Lemma run_evolves_refl s : evolves [] s s.
Proof using Type. by apply evolves_core. Qed.
Lemma run_evolves_trans out1 out2 s1 s2 s3 : evolves out1 s1 s2 → evolves out2 s2 s3 → evolves (out1 ++ out2) s1 s3.
Proof using Type.
  intros [K1 B1 D1 A1 F1 I1 N1 W1 V1 O1 C1] [K2 B2 D2 A2 F2 I2 N2 W2 V2 O2 C2]. split; [by eapply kept_trans|..]; try congruence; eauto.
  - intros q t (t2 & Ht2 & Hp2 & Hs2)%B2. destruct (B1 q t2 Ht2) as (t1 & ? & ? & ?). exists t1. split; [done|]. split; congruence.
  - intros q t hash Hq Hin Hb. eapply D2; [done..|]. destruct (B2 q t Hq) as (t2 & Ht2 & Hp2 & _). eapply D1; [done|by rewrite <-Hp2|done].
  - intros q r [Hr|(t & Ht & Hst)]%F2; [by apply F1|right]. destruct (B1 q t Ht) as (t1 & ? & Hpk & _). exists t1. by rewrite <-Hpk.
  - intros ev [?|?]%elem_of_app; eauto.
  - rewrite length_app. lia.
  - lia.
Qed.
(** Outputs can only be forgotten by name. *)
Lemma evolves_nil_r out s1 s2 s3 : evolves out s1 s2 → evolves [] s2 s3 → evolves out s1 s3.
Proof using Type. intros H1 H2. rewrite <-(app_nil_r out). by eapply run_evolves_trans. Qed.
Lemma evolves_nil_l out s1 s2 s3 : evolves [] s1 s2 → evolves out s2 s3 → evolves out s1 s3.
Proof using Type. intros H1 H2. by apply (run_evolves_trans [] out _ s2). Qed.

Section abandon.
Context (Limits : limits_ok limits) (Layout_ok : layout_ok layout) (exempt : gset Z).

Lemma released_load exempt' q t s : resolver_ok exempt' s → rs_pending s !! q = Some t →
  load (released q t s) + Z.of_nat (length (pending_packet_recovery (pt_packet t))) = load s ∧ cached_count (released q t s) = cached_count s - 1.
Proof using Type.
  intros Hok Hq. destruct (ro_txs _ _ _ _ Hok q t Hq) as [[] _]. rewrite recovery_slots, <-tk_columns by done. unfold load, cached_count. simpl.
  rewrite (delete_size _ _ _ Hq). lia.
Qed.

(** A transaction is abandoned in favour of recoveries [recoveries ++ out]. *)
Lemma evolves_released q t t' m b n v lane out s : resolver_ok exempt s → txs_same (rs_pending s) m → m !! q = Some t' → rs_pending s !! q = Some t →
  resolver_ok exempt (with_promoted m b n s) → pins_exact [] (with_promoted m b n s) →
  (∀ ev, covers (rs_recovery s) ev → covers lane ev) → (∀ ev, ev ∈ pending_packet_recovery (pt_packet t) → covers lane ev ∨ ev ∈ out) →
  (∀ ev, ev ∈ out → event_ok ev) → load (with_lane v lane (released q t' (with_promoted m b n s))) + Z.of_nat (length out) ≤ load s →
  evolves out s (with_lane v lane (released q t' (with_promoted m b n s))).
Proof using Limits.
  clear Layout_ok.
  intros Hok Hm Hq' Hq Hok1 Hp1 Hlane Hout Hevs Hload. split; [split|..]; simpl; try done.
  - intros q0 t0 H0. destruct (decide (q0 = q)) as [->|Hne]; [right; right; simplify_eq; auto|left].
    destruct (proj1 Hm _ _ H0) as (t0' & Ht0' & Hs). exists t0'. rewrite lookup_delete_ne by done. split; [done|apply Hs].
  - intros q0 r0 Hr. by left.
  - intros q0 t0 [Hne H0]%lookup_delete_Some. destruct (proj2 Hm _ _ H0) as (t1 & ? & Hs). exists t1. split; [done|]. split; [apply Hs|by apply ts_staged].
  - intros q0 t0 hash [Hne H0]%lookup_delete_Some Hin Hb. destruct (ro_txs _ _ _ _ Hok1 q0 t0 H0) as [[] _].
    pose proof (released_body Limits exempt q t' _ q0 t0 hash Hok1 Hp1 Hq' (not_eq_sym Hne) H0) as Hbody. simpl in Hbody. rewrite Hbody; [done|]. by rewrite tk_unique, tk_hashes, elem_of_stable_unique.
  - intros hash. by apply (released_absent Limits exempt q t' (with_promoted m b n s)).
  - by left.
  - intros q0 hash Hin. pose proof (waiters_removed exempt q t' (with_promoted m b n s) hash Hok1 Hq') as Hw. simpl in Hw. rewrite Hw in Hin. set_solver.
  - pose proof (released_load exempt q t' (with_promoted m b n s) Hok1 Hq') as [_ Hc]. unfold cached_count in *. simpl in *.
    assert (size m = size (rs_pending s)) as Hsz; [|lia]. by rewrite <-!(size_dom (D := gset Z)), (txs_rel_dom _ _ _ Hm).
Qed.

Lemma ewp_abandon q (return_first : bool) s (Q : option ChunkResyncEvent → Resolver → Prop) E : resolver_ok exempt s → pins_exact [] s →
  (∀ out s', resolver_ok exempt s' → pins_exact [] s' → evolves (option_list out) s s' → dom (rs_pending s') = dom (rs_pending s) ∖ {[q]} → rs_resolved_pending s' = rs_resolved_pending s ∖ {[q]} → rs_ready s' = rs_ready s →
    (return_first = false → out = None) → Q out s') →
  ewp (abandon_pending_transaction_with_recovery layout limits q return_first) s Q E.
Proof using Limits Layout_ok.
  intros Hok Hp HQ. unfold abandon_pending_transaction_with_recovery. ewp_step. eapply (ewp_promote Layout_ok exempt []); [done..|].
  intros m b n Hok1 Hp1 Hm Hheirs. ewp_step. eapply (ewp_remove exempt); [done|..].
  { intros Hn. ewp_step. simpl in Hn. apply HQ; [done|done| |simpl; rewrite (txs_rel_dom _ _ _ Hm); apply (txs_rel_none _ _ _ q Hm), not_elem_of_dom in Hn; set_solver| |done|done].
    2:{ assert (q ∉ rs_resolved_pending s); [|simpl; set_solver]. intros [Hx _]%(ro_resolved _ _ _ _ Hok). apply (txs_rel_none _ _ _ q Hm) in Hn. rewrite Hn in Hx. by destruct Hx. }
    split; [split|..]; simpl; try done; eauto.
    - intros q0 t0 H0. left. destruct (proj1 Hm _ _ H0) as (t' & ? & [[] ?]). eauto.
    - intros q0 t0 H0. destruct (proj2 Hm _ _ H0) as (t' & ? & [[] ?]). eauto.
    - unfold load. simpl. lia.
    - unfold cached_count. simpl. by rewrite <-!(size_dom (D := gset Z)), (txs_rel_dom _ _ _ Hm). }
  intros t Hq. ewp_step. unfold unpin_transaction. ewp_step. change (with_cache _ _) with (released q t (with_promoted m b n s)).
  pose proof (released_ok Limits _ _ _ _ Hok1 Hp1 Hq Hheirs) as Hok2. pose proof (released_pins Limits _ _ _ _ Hok1 Hp1 Hq) as Hp2.
  destruct (released_load exempt _ _ _ Hok1 Hq) as [Hl _]. change (load (with_promoted m b n s)) with (load s) in Hl. ewp_step. apply ewp_bump. intros v.
  pose proof (resolver_ok_stats limits xxh64 exempt v (rs_readings (released q t (with_promoted m b n s))) (rs_reset_armed s) (rs_lane_stalled s) _ Hok2) as Hok3.
  change (with_readings _ _) with (with_stats v (released q t (with_promoted m b n s))) in Hok3. set (s3 := with_stats v _) in *.
  assert (Hl3 : load s3 + Z.of_nat (length (pending_packet_recovery (pt_packet t))) = load s) by done.
  pose proof (ro_load _ _ _ _ Hok) as Hbound. destruct (proj2 Hm _ _ Hq) as (t0 & Ht0 & Hs0).
  assert (Hp3 : ∀ v' lane, pins_exact [] (with_lane v' lane s3)) by (intros; by apply pins_lane, pins_stats).
  assert (Hdom : ∀ v' lane, dom (rs_pending (with_lane v' lane s3)) = dom (rs_pending s) ∖ {[q]}) by (intros; simpl; by rewrite dom_delete_L, (txs_rel_dom _ _ _ Hm)).
  assert (Hres : ∀ v' lane, rs_resolved_pending (with_lane v' lane s3) = rs_resolved_pending s ∖ {[q]}) by done.
  assert (Hrd : ∀ v' lane, rs_ready (with_lane v' lane s3) = rs_ready s) by done.
  assert (Hev : ∀ v' lane out, (∀ ev, covers (rs_recovery s) ev → covers lane ev) → (∀ ev, ev ∈ pending_packet_recovery (pt_packet t) → covers lane ev ∨ ev ∈ out) →
    (∀ ev, ev ∈ out → event_ok ev) → load (with_lane v' lane s3) + Z.of_nat (length out) ≤ load s → evolves out s (with_lane v' lane s3)).
  { intros v' lane out Hk Hr Hvs Hld. subst s3. rewrite with_lane_stats in *.
    apply (evolves_released q t0 t m b n v' lane out s); [done|done|done|done|done|done|done| |done|done]. by rewrite <-(ts_packet _ _ Hs0). }
  assert (Hlane : rs_recovery s3 = rs_recovery s) by done. clearbody s3. destruct return_first.
  - apply (ewp_prepare_recovery exempt); [exact Hok3|intros ev; apply packet_recovery_ok|lia|]. intros v' lane Hok' [Hkeep Hnew] Hload. rewrite Hlane in Hkeep.
    apply HQ; [done|done| |done|done|done|done]. apply Hev; [done| | |lia].
    2:{ intros ev. destruct (pending_packet_recovery (pt_packet t)) as [|first rest] eqn:Hrec; [intros H; by apply elem_of_nil in H|]. simpl. intros ->%list_elem_of_singleton.
      apply (packet_recovery_ok (pt_packet t)). rewrite Hrec. by left. }
    intros ev Hin. destruct (pending_packet_recovery (pt_packet t)) as [|first rest]; [by apply elem_of_nil in Hin|].
    simpl. apply elem_of_cons in Hin as [->|Hin]; [right; by left|left; by apply Hnew].
  - ewp_step. apply (ewp_enqueue_all exempt); [exact Hok3|intros ev; apply packet_recovery_ok|lia|]. intros v' lane Hok' [Hkeep Hnew] Hload. rewrite Hlane in Hkeep.
    ewp_step. apply HQ; [done|done| |done|done|done|done]. apply Hev; [done| |done|simpl; lia]. intros ev Hin. left. by apply Hnew.
Qed.

Lemma ewp_abandon_all l s (Q : unit → Resolver → Prop) E : resolver_ok exempt s → pins_exact [] s →
  (∀ s', resolver_ok exempt s' → pins_exact [] s' → evolves [] s s' → dom (rs_pending s') = dom (rs_pending s) ∖ list_to_set l →
    rs_resolved_pending s' = rs_resolved_pending s ∖ list_to_set l → rs_ready s' = rs_ready s → Q tt s') →
  ewp (for_each (abandon_pending_transaction layout limits) l) s Q E.
Proof using Limits Layout_ok.
  revert s. induction l as [|q l IH]; intros s Hok Hp HQ; cbn [for_each].
  { ewp_step. apply HQ; [done|done|apply run_evolves_refl|simpl; set_solver|simpl; set_solver|done]. }
  ewp_step. unfold abandon_pending_transaction. ewp_step. apply ewp_abandon; [done|done|]. intros out s1 Hok1 Hp1 He1 Hn Hrs Hr Hout. rewrite (Hout eq_refl) in He1. ewp_step.
  apply IH; [done|done|]. intros s2 Hok2 Hp2 He2 Hn2 Hrs2 Hr2. apply HQ; [done|done|by eapply evolves_nil_l| | |congruence].
  - rewrite Hn2, Hn. simpl. set_solver.
  - rewrite Hrs2, Hrs. simpl. set_solver.
Qed.

(** What internal steps guarantee. *)
Record steady out s s' : Prop := {
  sd_ok : resolver_ok exempt s';
  sd_pins : pins_exact [] s';
  sd_evolves : evolves out s s';
  sd_resolved : rs_resolved_pending s' ⊆ rs_resolved_pending s;
}.
Lemma steady_refl s : resolver_ok exempt s → pins_exact [] s → steady [] s s.
Proof using Type. clear Limits Layout_ok. intros Hok Hp. split; [done|done|apply run_evolves_refl|done]. Qed.
Lemma steady_stats out v n armed stalled s s' : steady out s s' → steady out s (with_readings n (with_stats v (with_flags armed stalled s'))).
Proof using Type.
  clear Limits Layout_ok.
  intros [Hok Hp He Hr]. split; [by apply resolver_ok_stats|done| |done]. eapply evolves_nil_r; [done|apply evolves_stats].
Qed.
Lemma steady_trans out1 out2 s1 s2 s3 : steady out1 s1 s2 → steady out2 s2 s3 → steady (out1 ++ out2) s1 s3.
Proof using Type. clear Limits Layout_ok. intros [_ _ E1 R1] [Ok Hp E2 R2]. split; [done|done|by eapply run_evolves_trans|set_solver]. Qed.
Lemma steady_nil_r out s1 s2 s3 : steady out s1 s2 → steady [] s2 s3 → steady out s1 s3.
Proof using Type. clear Limits Layout_ok. intros H1 H2. rewrite <-(app_nil_r out). by eapply steady_trans. Qed.
Lemma steady_nil_l out s1 s2 s3 : steady [] s1 s2 → steady out s2 s3 → steady out s1 s3.
Proof using Type. clear Limits Layout_ok. intros H1 H2. by apply (steady_trans [] out _ s2). Qed.

Lemma with_same_flags s : with_flags (rs_reset_armed s) (rs_lane_stalled s) s = s.
Proof using Type. clear Limits Layout_ok. by destruct s. Qed.
Lemma with_same_readings s : with_readings (rs_readings s) s = s.
Proof using Type. clear Limits Layout_ok. by destruct s. Qed.
Lemma steady_counted out v n s s' : steady out s s' → steady out s (with_readings n (with_stats v s')).
Proof using Type. clear Limits Layout_ok. intros H. rewrite <-(with_same_flags s'). by apply steady_stats. Qed.
Lemma steady_bump out v s s' : steady out s s' → steady out s (with_stats v s').
Proof using Type. clear Limits Layout_ok. intros H. apply (steady_counted out v (rs_readings s')) in H. by rewrite <-(with_same_readings (with_stats v s')). Qed.

Lemma ewp_refresh_steady out s s0 (Q : unit → Resolver → Prop) E : steady out s0 s → (∀ v n, steady out s0 (with_readings n (with_stats v s)) → Q tt (with_readings n (with_stats v s))) →
  ewp (refresh_pending_accounting layout) s Q E.
Proof using Layout_ok.
  intros Hs HQ. apply (ewp_refresh layout limits xxh64 Layout_ok exempt); [apply Hs|]. intros v n. apply HQ. by apply steady_counted.
Qed.

Lemma ewp_abandon_steady q s (Q : unit → Resolver → Prop) E : resolver_ok exempt s → pins_exact [] s →
  (∀ s', steady [] s s' → dom (rs_pending s') = dom (rs_pending s) ∖ {[q]} → Q tt s') → ewp (abandon_pending_transaction layout limits q) s Q E.
Proof using Limits Layout_ok.
  intros Hok Hp HQ. unfold abandon_pending_transaction. ewp_step. apply ewp_abandon; [done|done|]. intros out s' Ho Hpp He Hd Hr _ Hout. rewrite (Hout eq_refl) in He.
  ewp_step. apply HQ; [|done]. split; [done..|]. rewrite Hr. set_solver.
Qed.
Lemma ewp_abandon_refresh q s (Q : unit → Resolver → Prop) E : resolver_ok exempt s → pins_exact [] s →
  (∀ s', steady [] s s' → dom (rs_pending s') = dom (rs_pending s) ∖ {[q]} → Q tt s') → ewp (abandon_and_refresh layout limits q) s Q E.
Proof using Limits Layout_ok.
  intros Hok Hp HQ. unfold abandon_and_refresh. ewp_step. apply ewp_abandon_steady; [done|done|]. intros s1 Hs1 Hd.
  apply (ewp_refresh_steady [] s1 s); [done|]. intros v n Hs2. by apply HQ.
Qed.

Lemma ewp_unblock_ready s (Q : bool → Resolver → Prop) E : resolver_ok exempt s → pins_exact [] s →
  (∀ b s', steady [] s s' → dom (rs_pending s') = dom (rs_pending s) ∖ list_to_set (ready_blockers s) → rs_ready s' = rs_ready s → Q b s') →
  ewp (unblock_cached_ready_lane layout limits) s Q E.
Proof using Limits Layout_ok.
  intros Hok Hp HQ. unfold unblock_cached_ready_lane. ewp_step. ewp_step. ewp_step. apply ewp_abandon_all; [done|done|]. intros s1 Hok1 Hp1 He1 Hn Hrs Hr. ewp_step.
  apply (ewp_refresh_steady [] s1 s); [split; [done..|]; rewrite Hrs; set_solver|]. intros v n Hs2. ewp_step. by apply HQ.
Qed.
Lemma ewp_relieve s (Q : bool → Resolver → Prop) E : resolver_ok exempt s → pins_exact [] s →
  (∀ b s', steady [] s s' → dom (rs_pending s) ∖ list_to_set (ready_blockers s) ⊆ dom (rs_pending s') → rs_ready s' = rs_ready s → Q b s') →
  ewp (relieve_cached_ready_pressure layout limits) s Q E.
Proof using Limits Layout_ok.
  intros Hok Hp HQ. unfold relieve_cached_ready_pressure. ewp_step. ewp_step. simpl. case_match.
  - ewp_step. apply HQ; [by apply steady_refl|set_solver|done].
  - apply ewp_unblock_ready; [done|done|]. intros b s' Hs Hd Hr. apply HQ; [done|by rewrite Hd|done].
Qed.

Lemma ewp_rotate s (Q : option ChunkResyncEvent → Resolver → Prop) E : resolver_ok exempt s → pins_exact [] s →
  (∀ out s', steady (option_list out) s s' → Q out s') → ewp (rotate_oldest_pending_transaction layout limits) s Q E.
Proof using Limits Layout_ok.
  intros Hok Hp HQ. unfold rotate_oldest_pending_transaction. ewp_step. ewp_step. simpl. destruct (first_of _) as [q|].
  - apply ewp_abandon; [done|done|]. intros out s' ? ? ? _ Hr _ _. apply HQ. split; [done..|]. rewrite Hr. set_solver.
  - ewp_step. apply HQ. by apply steady_refl.
Qed.
End abandon.
End spec.
