(* ===== verification/BlobIntake.v ===== *)
(** * The resolver's entry points

    [protocol/src/blob_cache/resolver.rs] and its modules: what the session calls. Cached packets are classified and
    admitted, miss responses publish bodies and resolve transactions, ready items leave in order, and resets turn retained
    work into recoveries. *)
From stdpp Require Import base numbers list gmap sets sorting.
From S2P Require Import Prelude Counting Effects BlobStore BlobPackets BlobResolver.
#[local] Open Scope Z_scope.

(** ** Status *)

Record BlobCacheStatus := mk_status {
  st_missing : list Z; st_have : list Z; st_outstanding : list Z; st_recovery : option ChunkResyncEvent;
  st_admission : option SubChunkReplyAdmissionEvent; st_classified_hashes : Z; st_staged_bytes : Z; st_accepted : bool }.
Definition set_recovery (recovery : option ChunkResyncEvent) (status : BlobCacheStatus) : BlobCacheStatus :=
  mk_status (st_missing status) (st_have status) (st_outstanding status) recovery (st_admission status)
    (st_classified_hashes status) (st_staged_bytes status) (st_accepted status).
(** The admission is set only on acceptance. *)
Definition set_accepted (accepted : bool) (admission : option SubChunkReplyAdmissionEvent) (status : BlobCacheStatus) : BlobCacheStatus :=
  mk_status (st_missing status) (st_have status) (st_outstanding status) (st_recovery status)
    (match admission with Some _ => if accepted then admission else st_admission status | None => st_admission status end)
    (st_classified_hashes status) (st_staged_bytes status) accepted.

(** [BlobCacheStatus::classify]; [hashes] is the packet's reference set. *)
Definition status_classify (hashes : list Z) (recovery : option ChunkResyncEvent) (pin : bool) : R BlobCacheStatus :=
  let referenced_hashes := stable_unique hashes in
  '(have, missing, staged_bytes) ← on_cache (classify referenced_hashes pin);
  let classified_hashes := Z.of_nat (length have) + Z.of_nat (length missing) in
  _ ← debug_assert (classified_hashes =? Z.of_nat (length referenced_hashes));
  mret (mk_status missing have [] recovery None classified_hashes staged_bytes false).
Definition omit_outstanding (index : gmap Z (gset Z)) (status : BlobCacheStatus) : BlobCacheStatus :=
  mk_status (filter (λ hash, index !! hash = None) (st_missing status)) (st_have status)
    (filter (λ hash, is_Some (index !! hash)) (st_missing status)) (st_recovery status) (st_admission status)
    (st_classified_hashes status) (st_staged_bytes status) (st_accepted status).
Definition classify_status (hashes : list Z) (recovery : option ChunkResyncEvent) (pin : bool) : R BlobCacheStatus :=
  status ← status_classify hashes recovery pin;
  s ← eff_gets id;
  let status := omit_outstanding (rs_pending_by_hash s) status in
  let count := λ l : list Z, Z.of_nat (length l) in
  _ ← bump hashes_classified (st_classified_hashes status);
  _ ← bump hits (count (st_have status));
  _ ← bump misses (sat_add (count (st_missing status)) (count (st_outstanding status)));
  _ ← bump redundant_missing_requests (count (st_outstanding status));
  mret status.

Section intake.
Context (layout : Layout) (limits : BlobCacheLimits) (xxh64 : Blob → Z).

(** ** Immediate work *)

(** The counter of [stats] is what the last refresh wrote. *)
Definition accept_immediate (value : ResolverReady) (accounted_bytes : Z) : R unit :=
  s ← eff_gets id;
  retained ← ok_or (retained_ordinary_bytes layout s) ByteCountOverflow;
  retained_bytes ← ok_or (bytes ← checked_add retained accounted_bytes; checked_add bytes (size_immediate layout)) ByteCountOverflow;
  if (MAX_CLIENT_BLOB_ORDINARY_READY_EVENTS <=? Z.of_nat (size (rs_immediate s))) || (MAX_CLIENT_BLOB_ORDINARY_READY_BYTES <? retained_bytes) then
    _ ← bump ordinary_backpressure 1;
    eff_throw (OrdinaryLaneFull (Z.of_nat (size (rs_immediate s))) (rs_stats s ordinary_ready_bytes)
      MAX_CLIENT_BLOB_ORDINARY_READY_EVENTS MAX_CLIENT_BLOB_ORDINARY_READY_BYTES)
  else
    let columns := ready_value_columns value in
    sequence ← take_ready_sequence;
    _ ← eff_modify (λ s, with_immediate (<[sequence := mk_ready value columns accounted_bytes sequence]> (rs_immediate s)) s);
    refresh_pending_accounting layout.
Definition accept_passthrough (packet : Packet) (accounted_bytes : Z) : R unit := accept_immediate (ReadyPacket packet) accounted_bytes.
Definition accept_world_event (event : WorldEvent) (accounted_bytes : Z) : R unit := accept_immediate (ReadyEvent event) accounted_bytes.
Definition accept_level_chunk_bytes (column : ColumnKey) (payload : Blob) (accounted_bytes : Z) : R unit :=
  accept_immediate (ReadyLevelChunkBytes column payload) accounted_bytes.

(** ** Resets *)

Definition unpin_pending : R unit := s ← eff_gets id; for_each (unpin_transaction limits) (snd <$> map_to_list (rs_pending s)).
(** The collections of cached work and their totals. *)
Definition clear_cached (s : Resolver) : Resolver :=
  with_slots 0 (with_ready_bytes 0 (with_pending_bytes 0 (with_ready ∅ (with_resolved ∅ (with_by_hash ∅ (with_order ∅ (with_pending ∅ s))))))).
Definition has_cached (s : Resolver) : bool := negb (bool_decide (rs_pending s = ∅)) || negb (bool_decide (rs_ready s = ∅)).
Definition retained_recoveries (s : Resolver) : list ChunkResyncEvent :=
  ((snd <$> map_to_list (rs_pending s)) ≫= (λ transaction, pending_packet_recovery (pt_packet transaction))) ++
  ((snd <$> ordered (rs_ready s)) ≫= (λ transaction, ready_value_recovery (rd_value transaction))).
Definition recover_retained_cached_transactions : R unit :=
  s ← eff_gets id;
  let recoveries := retained_recoveries s in
  _ ← unpin_pending;
  _ ← eff_modify clear_cached;
  _ ← enqueue_recoveries recoveries;
  refresh_pending_accounting layout.
Definition recover_pending : R unit :=
  s ← eff_gets id;
  _ ← (if has_cached s then _ ← bump pending_resets 1; recover_retained_cached_transactions else mret tt);
  _ ← eff_modify (with_immediate ∅);
  _ ← set_stat ordinary_ready_events 0;
  set_stat ordinary_ready_bytes 0.
Definition reset_pending : R unit :=
  s ← eff_gets id;
  _ ← (if has_cached s then bump pending_resets 1 else mret tt);
  _ ← unpin_pending;
  _ ← eff_modify (λ s, with_sequence 0 (with_flags false false (with_recovery ∅ (with_immediate ∅ (clear_cached s)))));
  for_each (λ stat, set_stat stat 0)
    [pending_transactions; pending_bytes; retained_cached_transactions; ordinary_ready_events; ordinary_ready_bytes; recovery_ready_events; recovery_ready_bytes].
Definition arm_fast_transfer_reset : R unit := eff_modify (λ s, with_flags true (rs_lane_stalled s) s).
Definition reset_pending_for_fast_transfer_candidate : R bool :=
  s ← eff_gets id;
  _ ← eff_modify (λ s, with_flags false (rs_lane_stalled s) s);
  if negb (rs_reset_armed s) then mret false
  else
    _ ← (if has_cached s then _ ← bump pending_resets 1; recover_retained_cached_transactions else mret tt);
    mret true.

(** ** Cached packets *)

(** The packet and its hashes in order, with the shape checks. *)
Definition cached_parts (packet : Packet) : result BlobCacheError (PendingPacket * list Z) :=
  match packet with
  | PacketLevelChunk packet =>
    if negb (lc_cache_enabled packet) then Err NotCachedPacket
    else
      let hashes := lc_metadata packet in
      expected ← or_overflow (if 0 <=? lc_sub_chunks_count packet then checked_add (lc_sub_chunks_count packet) 1 else None);
      if negb (Z.of_nat (length hashes) =? expected) then Err (InvalidLevelChunkHashCount (Z.of_nat (length hashes)) expected)
      else Ok (PendingLevelChunk packet, hashes)
  | PacketSubChunk packet =>
    if negb (sp_cache_enabled packet) then Err NotCachedPacket
    else Ok (PendingSubChunk packet, subchunk_hashes (sp_entries packet))
  | PacketOther _ => Err NotCachedPacket
  end.

Definition read_retained_bytes (packet : Packet) : R Z :=
  packet_capacity ← read_capacity layout; of_result (cached_packet_retained_bytes layout packet_capacity packet).
(** The packet with its vectors of hashes. *)
Definition transaction_bytes (packet_retained_bytes : Z) : R Z :=
  hashes_capacity ← read_capacity layout;
  unique_capacity ← read_capacity layout;
  ok_or (hash_bytes ← checked_mul hashes_capacity 8;
         bytes ← checked_add packet_retained_bytes hash_bytes;
         unique_bytes ← checked_mul unique_capacity 8;
         checked_add bytes unique_bytes) ByteCountOverflow.

Definition count_abandoned : R unit := bump abandoned_cached_transactions 1.
(** A packet that is not admitted leaves its recovery and an unpinned status. *)
Definition refuse_packet (packet : PendingPacket) : R BlobCacheStatus :=
  _ ← count_abandoned;
  recovery ← prepare_recovery (unadmitted_packet_recovery packet);
  classify_status (pending_referenced_blob_hashes packet) recovery false.

Definition transactions_full (s : Resolver) : bool := MAX_CLIENT_BLOB_PENDING_TRANSACTIONS <=? retained_cached_transaction_count s.
(** [columns] more recovery slots would exceed the lane. *)
Definition slots_full (columns : list ColumnKey) : R bool :=
  slots ← retained_recovery_slot_count; mret (MAX_CLIENT_BLOB_RECOVERY_READY_EVENTS <? sat_add slots (Z.of_nat (length columns))).
(** Under pressure the oldest transaction gives way. *)
Definition rotate_under_pressure (pressure : bool) : R (option ChunkResyncEvent) :=
  if pressure then
    _ ← bump cached_packet_transaction_pressure 1;
    s ← eff_gets id;
    if Z.of_nat (size (rs_recovery s)) <? MAX_CLIENT_BLOB_RECOVERY_READY_EVENTS then rotate_oldest_pending_transaction layout limits else mret None
  else mret None.
Definition is_sub_chunk (packet : PendingPacket) : bool := match packet with PendingSubChunk _ => true | _ => false end.
(** The rotated transaction's recovery goes out instead of the packet. *)
Definition refuse_after_rotation (packet : PendingPacket) (recovery : ChunkResyncEvent) : R BlobCacheStatus :=
  _ ← bump skipped_cached_packets 1;
  _ ← count_abandoned;
  _ ← enqueue_recoveries (unadmitted_packet_recovery packet);
  _ ← refresh_pending_accounting layout;
  classify_status (pending_referenced_blob_hashes packet) (Some recovery) false.
Definition refuse_under_pressure (packet : PendingPacket) (pressure : bool) : R BlobCacheStatus :=
  _ ← bump skipped_cached_packets 1;
  _ ← (if negb pressure then bump cached_packet_transaction_pressure 1 else mret tt);
  refuse_packet packet.

(** [merge_status_recovery]: the status keeps the recovery it has. *)
Definition merge_status_recovery (status : BlobCacheStatus) (recovery : option ChunkResyncEvent) : R BlobCacheStatus :=
  match st_recovery status, recovery with
  | Some retained, Some recovery => _ ← enqueue_precounted_recovery recovery; mret (set_recovery (Some retained) status)
  | Some retained, None => mret (set_recovery (Some retained) status)
  | None, recovery => mret (set_recovery recovery status)
  end.
Definition refuse_staged (packet : PendingPacket) (unique_hashes : list Z) (status : BlobCacheStatus) : R BlobCacheStatus :=
  _ ← eff_modify (λ s, with_cache (unpin_all limits unique_hashes (rs_cache s)) s);
  _ ← record_staged_skip;
  _ ← count_abandoned;
  recovery ← prepare_recovery (unadmitted_packet_recovery packet);
  status ← merge_status_recovery status recovery;
  _ ← refresh_pending_accounting layout;
  mret status.

Definition index_hash (sequence : Z) (index : gmap Z (gset Z)) (hash : Z) : gmap Z (gset Z) := <[hash := {[sequence]} ∪ default ∅ (index !! hash)]> index.
Definition insert_pending (sequence : Z) (transaction : PendingTransaction) (hashes : list Z) : R unit :=
  _ ← eff_modify (λ s, with_pending (<[sequence := transaction]> (rs_pending s)) s);
  s ← eff_gets id;
  bytes ← add_assign (rs_pending_bytes s) (pt_accounted_bytes transaction);
  _ ← eff_modify (with_pending_bytes bytes);
  slots ← add_assign (rs_column_slots s) (Z.of_nat (length (pt_columns transaction)));
  _ ← eff_modify (with_slots slots);
  _ ← eff_modify (λ s, with_order ({[sequence]} ∪ rs_pending_order s) s);
  eff_modify (λ s, with_by_hash (foldl (index_hash sequence) (rs_pending_by_hash s) hashes) s).

(** After insertion: pressure, the byte ceiling, and packets that wait for nothing. *)
Definition settle_admitted (sequence unresolved_hashes : Z) (admission : option SubChunkReplyAdmissionEvent) (status : BlobCacheStatus) : R BlobCacheStatus :=
  _ ← relieve_cached_ready_pressure layout limits;
  _ ← refresh_pending_accounting layout;
  s ← eff_gets id;
  if MAX_CLIENT_BLOB_PENDING_BYTES <? rs_stats s pending_bytes then
    _ ← record_pending_skip;
    recovery ← abandon_pending_transaction_with_recovery layout limits sequence true;
    status ← merge_status_recovery status recovery;
    _ ← refresh_pending_accounting layout;
    mret status
  else
    _ ← (if unresolved_hashes =? 0 then
           _ ← eff_modify (λ s, with_resolved ({[sequence]} ∪ rs_resolved_pending s) s); drain_ready layout limits
         else mret tt);
    s ← eff_gets id;
    mret (set_accepted (bool_decide (is_Some (rs_pending s !! sequence)) || bool_decide (is_Some (rs_ready s !! sequence))) admission status).
Definition admit_packet (packet : PendingPacket) (hashes unique_hashes : list Z) (columns : list ColumnKey) (accounted_bytes : Z) (status : BlobCacheStatus) : R BlobCacheStatus :=
  let missing := st_missing status in
  let unresolved_hashes := sat_add (Z.of_nat (length missing)) (Z.of_nat (length (st_outstanding status))) in
  missing_capacity ← read_capacity layout;
  accounted_bytes ← ok_or (bytes ← checked_mul missing_capacity 8; checked_add accounted_bytes bytes) ByteCountOverflow;
  full ← slots_full columns;
  _ ← debug_assert (negb full);
  let admission := cached_sub_chunk_admission packet in
  sequence ← take_ready_sequence;
  _ ← insert_pending sequence
    (mk_pending packet hashes unique_hashes missing missing_capacity unresolved_hashes (st_staged_bytes status) columns accounted_bytes)
    (missing ++ st_outstanding status);
  settle_admitted sequence unresolved_hashes admission status.

(** Classification pins the packet's bodies; those of a refused packet are released. *)
Definition classify_and_admit (packet : PendingPacket) (hashes unique_hashes : list Z) (columns : list ColumnKey) (accounted_bytes : Z)
    (pressure_recovery : option ChunkResyncEvent) : R BlobCacheStatus :=
  status ← classify_status (pending_referenced_blob_hashes packet) pressure_recovery true;
  s ← eff_gets id;
  if (MAX_CLIENT_BLOB_STAGED_BYTES_PER_TRANSACTION <? st_staged_bytes status) || (MAX_CLIENT_BLOB_PINNED_BYTES <? cs_pinned_bytes (rs_cache s)) then
    refuse_staged packet unique_hashes status
  else admit_packet packet hashes unique_hashes columns accounted_bytes status.

Definition admit_unless_full (packet : PendingPacket) (hashes unique_hashes : list Z) (columns : list ColumnKey) (accounted_bytes : Z)
    (pressure : bool) (pressure_recovery : option ChunkResyncEvent) : R BlobCacheStatus :=
  s ← eff_gets id;
  full ← (if transactions_full s || (MAX_CLIENT_BLOB_RECOVERY_READY_EVENTS <=? Z.of_nat (size (rs_recovery s))) then mret true else slots_full columns);
  if (full : bool) then refuse_under_pressure packet pressure
  else classify_and_admit packet hashes unique_hashes columns accounted_bytes pressure_recovery.

Definition admit_under_pressure (packet : PendingPacket) (hashes unique_hashes : list Z) (accounted_bytes : Z) : R BlobCacheStatus :=
  let columns := pending_packet_columns packet in
  s ← eff_gets id;
  recovery_slot_pressure ← slots_full columns;
  let pressure := transactions_full s || recovery_slot_pressure in
  pressure_recovery ← rotate_under_pressure pressure;
  s ← eff_gets id;
  pressure_remains ← (if transactions_full s then mret true else slots_full columns);
  match pressure_recovery with
  | Some recovery =>
    if pressure_remains || is_sub_chunk packet then refuse_after_rotation packet recovery
    else admit_unless_full packet hashes unique_hashes columns accounted_bytes pressure pressure_recovery
  | None => admit_unless_full packet hashes unique_hashes columns accounted_bytes pressure None
  end.

Definition accept_cached_packet_inner (packet : Packet) (raw_packet_bytes : option Z) : R BlobCacheStatus :=
  packet_retained_bytes ← read_retained_bytes packet;
  '(packet, hashes) ← of_result (cached_parts packet);
  let unique_hashes := stable_unique hashes in
  accounted_bytes ← transaction_bytes (from_option (λ raw, Z.max raw packet_retained_bytes) packet_retained_bytes raw_packet_bytes);
  s ← eff_gets id;
  projected ← of_result (projected_reconstruction_bytes (rs_cache s) packet hashes);
  if from_option (λ bytes, MAX_CLIENT_BLOB_RECONSTRUCTED_BYTES <? bytes) false projected then
    _ ← record_reconstruction_skip; refuse_packet packet
  else admit_under_pressure packet hashes unique_hashes accounted_bytes.

(** [m] with its error handled *)
Definition catch {A} (m : R A) (handler : BlobCacheError → R A) : R A := λ s,
  match m s with Some (Err e, s) => handler e s | r => r end.
(** [accept_cached_packet], [accept_cached_packet_with_size] *)
Definition accept_cached_packet (packet : Packet) (raw_packet_bytes : option Z) : R BlobCacheStatus :=
  catch (accept_cached_packet_inner packet raw_packet_bytes) (λ error,
    match error with
    | InvalidLevelChunkCount _ | InvalidLevelChunkHashCount _ _ =>
      _ ← bump skipped_cached_packets 1;
      _ ← bump cached_packet_semantic_shape 1;
      classify_status (referenced_blob_hashes packet) (chunk_recovery packet) false
    | _ => _ ← reset_pending; eff_throw error
    end).

(** ** Miss responses *)

(** The known bodies of a response once each, and the last unsolicited hash. *)
Fixpoint scan_blobs (s : Resolver) (unique : list (Z * Blob)) (unsolicited : option Z) (blobs : list (Z * Blob)) :
    result BlobCacheError (list (Z * Blob) * option Z) :=
  match blobs with
  | [] => Ok (unique, unsolicited)
  | (blob_id, blob_data) :: blobs =>
    if bool_decide (rs_pending_by_hash s !! blob_id = None) && negb (contains blob_id (rs_cache s)) then scan_blobs s unique (Some blob_id) blobs
    else
      match list_find (λ blob : Z * Blob, blob.1 = blob_id) unique with
      | Some (_, (_, first)) => if bool_decide (first = blob_data) then scan_blobs s unique unsolicited blobs else Err (ConflictingDuplicate blob_id)
      | None =>
        let actual := client_blob_hash xxh64 blob_data in
        if negb (actual =? blob_id) then Err (HashMismatch blob_id actual)
        else scan_blobs s (unique ++ [(blob_id, blob_data)]) unsolicited blobs
      end
  end.

Definition stage_addition (payload_len : Z) (additions : gmap Z Z) (sequence : Z) : gmap Z Z :=
  <[sequence := sat_add (default 0 (additions !! sequence)) payload_len]> additions.
Definition staged_additions (s : Resolver) (unique : list (Z * Blob)) : gmap Z Z :=
  foldl (λ additions '(hash, payload), foldl (stage_addition (blob_len payload)) additions (elements (default ∅ (rs_pending_by_hash s !! hash)))) ∅ unique.
Definition exceeds_staged (s : Resolver) (addition : Z * Z) : bool :=
  match rs_pending s !! addition.1 with
  | Some transaction => MAX_CLIENT_BLOB_STAGED_BYTES_PER_TRANSACTION <? sat_add (pt_staged_bytes transaction) addition.2
  | None => false
  end.
Definition staged_excess (s : Resolver) (additions : gmap Z Z) : list Z := fst <$> filter (λ addition, exceeds_staged s addition = true) (map_to_list additions).
Definition add_staged (addition : Z * Z) : R unit :=
  let '(sequence, addition) := addition in
  s ← eff_gets id;
  match rs_pending s !! sequence with
  | None => mret tt
  | Some t =>
    let staged := sat_add (pt_staged_bytes t) addition in
    _ ← eff_modify (with_pending (<[sequence := mk_pending (pt_packet t) (pt_hashes t) (pt_unique_hashes t) (pt_owned_hashes t) (pt_owned_capacity t)
      (pt_unresolved_hashes t) staged (pt_columns t) (pt_accounted_bytes t)]> (rs_pending s)));
    debug_assert (staged <=? MAX_CLIENT_BLOB_STAGED_BYTES_PER_TRANSACTION)
  end.

(** Validation and insertion under one lock; the evictions are counted. *)
Definition publish_delta (unique : list (Z * Blob)) : C Z :=
  store ← eff_gets id;
  newly_admitted ← (λ store, match validate_delta store unique with Ok n => Some (Ok n, store) | Err e => Some (Err e, store) end);
  let before := entry_count store in
  _ ← for_each (λ '(hash, payload), insert_verified limits hash payload) unique;
  store ← eff_gets id;
  mret (sat_sub (sat_add before newly_admitted) (entry_count store)).

Definition check_solicited (unique : list (Z * Blob)) (unsolicited : option Z) : R unit :=
  match unsolicited with
  | Some hash => if bool_decide (unique = []) then eff_throw (UnsolicitedBlob hash) else bump miss_response_unsolicited 1
  | None => mret tt
  end.
Definition stage_unique (unique : list (Z * Blob)) : R unit :=
  s ← eff_gets id;
  let additions := staged_additions s unique in
  _ ← for_each (λ sequence, _ ← record_staged_skip; abandon_pending_transaction layout limits sequence) (staged_excess s additions);
  for_each add_staged (map_to_list additions).
Definition accept_miss_response_inner (missing_blobs : list (Z * Blob)) : R unit :=
  s ← eff_gets id;
  '(unique, unsolicited) ← of_result (scan_blobs s [] None missing_blobs);
  _ ← check_solicited unique unsolicited;
  _ ← stage_unique unique;
  evicted ← on_cache (publish_delta unique);
  _ ← bump admitted_blobs (Z.of_nat (length unique));
  _ ← bump evictions evicted;
  _ ← for_each (resolve_hash layout limits) unique.*1;
  refresh_pending_accounting layout.

(** The transactions that wait for one of the hashes, oldest first. *)
Definition waiting_for (s : Resolver) (hashes : list Z) : list Z :=
  merge_sort Z.le (elements (union_list ((λ hash, default ∅ (rs_pending_by_hash s !! hash)) <$> hashes))).
Definition recover_skipped_miss_response (hashes : list Z) : R unit :=
  _ ← bump skipped_miss_responses 1;
  s ← eff_gets id;
  _ ← for_each (abandon_pending_transaction layout limits) (waiting_for s hashes);
  refresh_pending_accounting layout.
Definition skip_response (reason : R unit) (hashes : list Z) : R bool := _ ← reason; _ ← recover_skipped_miss_response hashes; mret false.
Definition accept_miss_response (missing_blobs : list (Z * Blob)) : R bool :=
  if bool_decide (missing_blobs = []) then _ ← bump empty_miss_responses 1; mret true
  else
    response_capacity ← read_capacity layout;
    container_bytes ← eff_expect (checked_mul response_capacity (size_missing_blob layout));
    let response_bytes := foldl (λ bytes '(_, data), sat_add bytes (blob_len data)) container_bytes missing_blobs in
    s ← eff_gets id;
    _ ← set_stat miss_response_peak_bytes (Z.max (rs_stats s miss_response_peak_bytes) response_bytes);
    let response_hashes := missing_blobs.*1 in
    let rejected := Z.max (Z.of_nat (length missing_blobs)) 1 in
    catch (_ ← accept_miss_response_inner missing_blobs; mret true) (λ error,
      match error with
      | UnsolicitedBlob _ => skip_response (bump miss_response_unsolicited 1) response_hashes
      | HashMismatch _ _ | ConflictingDuplicate _ =>
        skip_response (_ ← bump miss_response_integrity_rejection 1; bump rejected_blobs rejected) response_hashes
      | PinnedPayloadPressure | CacheEntryPressure => skip_response (bump miss_response_cache_pressure 1) response_hashes
      | error => _ ← bump rejected_blobs rejected; _ ← reset_pending; eff_throw error
      end).

(** ** Output *)

(** An error here is a panic: [expect]. *)
Definition expect_ok {A} (m : R A) : R A := λ s, match m s with Some (Err _, _) => None | r => r end.
Definition pop_recovery_ready : R (option ChunkResyncEvent) :=
  s ← eff_gets id;
  match head (merge_sort by_column_le (map_to_list (rs_recovery s))) with
  | None => mret None
  | Some (key, _) =>
    recovery ← eff_expect (rs_recovery s !! key);
    _ ← eff_modify (with_recovery (delete key (rs_recovery s)));
    _ ← expect_ok (refresh_pending_accounting layout);
    mret (Some (recovery_into_event recovery))
  end.
Definition first_unblocked (s : Resolver) (items : gmap Z ReadyItem) : option Z :=
  fst <$> head (filter (λ '(_, ready), sequence_is_unblocked s (rd_sequence ready) (rd_columns ready) = true) (ordered items)).
Definition min_sequence (a b : option Z) : option Z :=
  match a, b with Some a, Some b => Some (Z.min a b) | Some a, None => Some a | None, b => b end.
Definition pop_cached (sequence : Z) : R ResolverReady :=
  s ← eff_gets id;
  ready ← eff_expect (rs_ready s !! sequence);
  _ ← eff_modify (with_ready (delete sequence (rs_ready s)));
  bytes ← sub_assign (rs_ready_bytes s) (rd_accounted_bytes ready);
  _ ← eff_modify (with_ready_bytes bytes);
  slots ← sub_assign (rs_column_slots s) (Z.of_nat (length (rd_columns ready)));
  _ ← eff_modify (with_slots slots);
  _ ← expect_ok (refresh_pending_accounting layout);
  mret (rd_value ready).
Definition pop_immediate (sequence : Z) : R ResolverReady :=
  s ← eff_gets id;
  ready ← eff_expect (rs_immediate s !! sequence);
  _ ← eff_modify (with_immediate (delete sequence (rs_immediate s)));
  _ ← eff_modify (λ s, with_flags (rs_reset_armed s) false s);
  _ ← expect_ok (refresh_pending_accounting layout);
  mret (rd_value ready).
Definition pop_ready_ingress : R (option ResolverReady) :=
  recovery ← pop_recovery_ready;
  match recovery with
  | Some recovery => mret (Some (ReadyEvent (EventChunkResync recovery)))
  | None =>
    s ← eff_gets id;
    let cached_sequence := first_unblocked s (rs_ready s) in
    let immediate_sequence := first_unblocked s (rs_immediate s) in
    match min_sequence cached_sequence immediate_sequence with
    | None => mret None
    | Some sequence =>
      if bool_decide (cached_sequence = Some sequence) then value ← pop_cached sequence; mret (Some value)
      else if bool_decide (immediate_sequence = Some sequence) then value ← pop_immediate sequence; mret (Some value)
      else mret None
    end
  end.
End intake.
