(* ===== verification/BlobIntakeSpec.v ===== *)
(** * From waiting to ready

    A transaction whose last body arrived is rebuilt and takes its place among the ready packets, or is given up for
    recoveries where a byte ceiling would be passed; resolving a hash drains all transactions it completes. *)
From stdpp Require Import base numbers list gmap sets sorting.
From S2P Require Import Prelude Effects Counting BlobStore BlobStoreSpec BlobStoreTheorems BlobPackets BlobPacketsSpec BlobResolver BlobResolverInv.
From S2P Require Import BlobResolverSpec BlobIntake.
#[local] Open Scope Z_scope.

Implicit Types (s : Resolver) (q hash : Z) (t : PendingTransaction) (r : ReadyItem) (cache : CacheStore).

(** ** One hash less to wait for *)

Definition fewer t : PendingTransaction := mk_pending (pt_packet t) (pt_hashes t) (pt_unique_hashes t) (pt_owned_hashes t) (pt_owned_capacity t)
  (sat_sub (pt_unresolved_hashes t) 1) (pt_staged_bytes t) (pt_columns t) (pt_accounted_bytes t).

Lemma resolve_all_spec l s : NoDup l → ∃ m R, foldl resolve_one s l = with_resolved R (with_pending m s) ∧
  (∀ q, m !! q = (if decide (q ∈ l) then fewer else id) <$> rs_pending s !! q) ∧
  (∀ q, q ∈ R ↔ q ∈ rs_resolved_pending s ∨ q ∈ l ∧ ∃ t, rs_pending s !! q = Some t ∧ sat_sub (pt_unresolved_hashes t) 1 = 0).
Proof.
  induction l as [|q0 l IH] using rev_ind; intros Hnd.
  { exists (rs_pending s), (rs_resolved_pending s). split; [by destruct s|]. split.
    - intros q. rewrite decide_False by apply not_elem_of_nil. by destruct (rs_pending s !! q).
    - intros q. split; [by left|]. intros [?|[H _]]; [done|by apply elem_of_nil in H]. }
  apply NoDup_app in Hnd as (Hnd & Hd & _). destruct (IH Hnd) as (m & R & Hf & Hm & HR). rewrite foldl_app, Hf. simpl.
  assert (Hq0 : q0 ∉ l) by (intros Hin; apply (Hd _ Hin); by left). pose proof (Hm q0) as Hm0. rewrite decide_False in Hm0 by done.
  unfold resolve_one. simpl. destruct (m !! q0) as [t|] eqn:Ht.
  2:{ exists m, R. split; [done|]. symmetry in Hm0. apply fmap_None in Hm0. split.
      - intros q. rewrite Hm. destruct (decide (q = q0)) as [->|Hne]; [by rewrite Hm0|]. f_equal. destruct (decide (q ∈ l)) as [Hl|Hl].
        + rewrite decide_True; [done|]. apply elem_of_app. by left.
        + rewrite decide_False; [done|]. rewrite elem_of_app, list_elem_of_singleton. tauto.
      - intros q. rewrite HR, elem_of_app, list_elem_of_singleton. split; [tauto|]. intros [?|[[?| ->] (t & Ht' & Hu)]]; [by left|right; split; [done|by exists t]|congruence]. }
  destruct (rs_pending s !! q0) as [t0|] eqn:Ht0; simplify_eq/=.
  assert (Hins : ∀ q, <[q0 := fewer t0]> m !! q = (if decide (q ∈ l ++ [q0]) then fewer else id) <$> rs_pending s !! q).
  { intros q. destruct (decide (q = q0)) as [->|Hne].
    - rewrite lookup_insert_eq, Ht0, decide_True; [done|]. apply elem_of_app. right. by left.
    - rewrite lookup_insert_ne, Hm by done. f_equal. destruct (decide (q ∈ l)) as [Hl|Hl].
      + rewrite decide_True; [done|]. apply elem_of_app. by left.
      + rewrite decide_False; [done|]. rewrite elem_of_app, list_elem_of_singleton. tauto. }
  destruct (Z.eqb_spec (sat_sub (pt_unresolved_hashes t0) 1) 0) as [Hz|Hz].
  - exists (<[q0 := fewer t0]> m), ({[q0]} ∪ R). split; [done|]. split; [done|]. intros q. rewrite elem_of_union, elem_of_singleton, HR, elem_of_app, list_elem_of_singleton.
    split; [|naive_solver]. intros [->|[?|[? ?]]]; [right; split; [by right|by exists t0]|by left|right; split; [by left|done]].
  - exists (<[q0 := fewer t0]> m), R. split; [done|]. split; [done|]. intros q. rewrite HR, elem_of_app, list_elem_of_singleton.
    split; [intros [?|[? ?]]; [by left|right; split; [by left|done]]|]. intros [?|[[?| ->] (t & Ht' & Hu)]]; [by left|right; split; [done|by exists t]|]. rewrite Ht0 in Ht'. by injection Ht' as <-.
Qed.

Lemma filter_without (P : Z → Prop) `{∀ x, Decision (P x)} (Q : Z → Prop) `{∀ x, Decision (Q x)} l x : NoDup l → x ∈ l → P x →
  (∀ y, Q y ↔ P y ∧ y ≠ x) → length (filter P l) = S (length (filter Q l)).
Proof.
  intros Hnd Hin Hx HQ. apply elem_of_Permutation in Hin as [k Hk]. rewrite Hk in Hnd. apply NoDup_cons in Hnd as [Hni _].
  rewrite (Permutation_length (filter_Permutation P l (x :: k) Hk)), (Permutation_length (filter_Permutation Q l (x :: k) Hk)).
  rewrite filter_cons_True, filter_cons_False by (done || (rewrite HQ; tauto)). simpl. f_equal. f_equal.
  clear Hk. induction k as [|y k IH]; [done|]. apply not_elem_of_cons in Hni as [Hne Hni]. rewrite !filter_cons, IH by done.
  f_equal. destruct (decide (P y)), (decide (Q y)); try done; naive_solver.
Qed.
Lemma waiters_delete index hash q h : q ∈ waiters (delete hash index) h ↔ q ∈ waiters index h ∧ h ≠ hash.
Proof.
  unfold waiters. destruct (decide (h = hash)) as [->|Hne]; [rewrite lookup_delete_eq; simpl; split; [intros H; by apply elem_of_empty in H|naive_solver]|].
  rewrite lookup_delete_ne by done. naive_solver.
Qed.

Section drain.
Context (layout : Layout) (limits : BlobCacheLimits) (xxh64 : Blob → Z) (Limits : limits_ok limits) (Layout_ok : layout_ok layout).
Notation resolver_ok := (resolver_ok limits xxh64).
Notation steady := (steady limits xxh64).
Implicit Types (E : BlobCacheError → Resolver → Prop).

(** ** Steps on the cache *)

Lemma ewp_on_cache {A} (m : C A) s (Q : A → Resolver → Prop) E :
  ewp m (rs_cache s) (λ a cache, Q a (with_cache cache s)) (λ e cache, E e (with_cache cache s)) → ewp (on_cache m) s Q E.
Proof using Type. unfold ewp, on_cache. intros H. by destruct (m (rs_cache s)) as [[[] ?]|]. Qed.

Lemma body_present cache hash : is_Some (body cache hash) ↔ is_Some (cs_entries cache !! hash).
Proof using Type. unfold body. by rewrite fmap_is_Some. Qed.

Lemma resolver_ok_cache exempt cache s : resolver_ok exempt s → store_ok limits cache → addressed xxh64 cache →
  (∀ q t hash, rs_pending s !! q = Some t → hash ∈ pt_unique_hashes t → is_Some (body (rs_cache s) hash) → is_Some (body cache hash)) →
  resolver_ok exempt (with_cache cache s).
Proof using Type.
  intros [] Hc Ha Hb. split; try done. simpl. intros q t hash Hq Hin. destruct (ro_bodies q t hash Hq Hin); [left|by right]. by eapply Hb.
Qed.
Lemma same_bodies_addressed cache cache' : addressed xxh64 cache → same_bodies cache cache' → addressed xxh64 cache'.
Proof using Type. intros Ha [_ Hb]. eapply addressed_payloads; [done|]. apply Hb. Qed.
Lemma steady_cache exempt cache s : resolver_ok exempt s → pins_exact [] s → store_ok limits cache → same_bodies (rs_cache s) cache → steady exempt [] s (with_cache cache s).
Proof using Type.
  intros Hok Hp Hc Hsame. split; [apply resolver_ok_cache; [done|done|by eapply same_bodies_addressed, Hsame; eapply ro_addressed|]|..|done].
  - intros q t hash _ _. by rewrite (proj2 Hsame).
  - intros hash. specialize (Hp hash). unfold pin_count in *. change (rs_cache (with_cache cache s)) with cache. rewrite (proj1 Hsame). exact Hp.
  - split; [by apply kept_core|..]; simpl; try done; eauto; [| |unfold load; simpl; lia]; intros; by rewrite (proj2 Hsame).
Qed.

(** ** A rebuilt packet is small *)

Lemma rebuilt_bytes cache packet value capacity : packet_cached packet → packet_small packet → rebuilt (body cache) packet value →
  reconstruction_len cache packet ≤ MAX_CLIENT_BLOB_RECONSTRUCTED_BYTES → 0 ≤ capacity ≤ COUNT_BOUND →
  ∃ bytes, ready_value_accounted_bytes layout capacity value = Ok bytes ∧ 0 ≤ bytes ≤ 2 ^ 50.
Proof using Layout_ok.
  intros Hc Hsmall Hr Hlen Hcap. unfold MAX_CLIENT_BLOB_RECONSTRUCTED_BYTES in Hlen. destruct packet as [p|p]; simpl in *.
  - destruct Hr as (blobs & Hm & ->). rewrite Hm in Hlen. simpl in *. unfold level_chunk_bytes, or_overflow. simpl.
    pose proof (ly_level_chunk _ Layout_ok) as Hs. unfold small_size, COUNT_BOUND in *.
    rewrite blob_len_app. unfold bodies_len in Hlen. pose proof (blob_len_nonneg (concat blobs)). pose proof (blob_len_nonneg (lc_data p)).
    rewrite checked_mul_fits by (unfold USIZE_MAX; lia). simpl. rewrite checked_add_fits by (unfold USIZE_MAX; lia). simpl.
    rewrite checked_add_fits by (unfold USIZE_MAX; lia). eexists. split; [done|]. lia.
  - destruct Hr as (entries & Hf & ->). simpl. unfold sub_chunk_bytes, or_overflow.
    pose proof (small_product capacity _ Hcap (ly_sub_chunk_data _ Layout_ok)) as Hp. pose proof (ly_sub_chunk _ Layout_ok) as Hs. unfold small_size in Hs.
    assert (Hsum : 0 ≤ sum_Z ((λ entry, option_len (sd_payload entry)) <$> entries) ≤ entries_len cache (sp_entries p) + tails_len (sp_entries p) ∧
      ∀ x, x ∈ (λ entry, option_len (sd_payload entry)) <$> entries → 0 ≤ x).
    { clear - Hf. induction Hf as [|x y l k (blob & Hb & ->) Hf IH]; simpl; [split; [lia|]; intros ? H; by apply elem_of_nil in H|]. destruct IH as [IH IHn].
      assert (0 ≤ option_len (Some (blob ++ default [] (sd_payload x))) ≤ entry_len cache x + option_len (sd_payload x)) as Hx.
      { unfold option_len, entry_len. simpl. rewrite blob_len_app. pose proof (blob_len_nonneg blob). assert (0 ≤ blob_len (default [] (sd_payload x))) by apply blob_len_nonneg.
        assert (Hd : from_option blob_len 0 (sd_payload x) = blob_len (default [] (sd_payload x))) by (by destruct (sd_payload x)).
        destruct (blob_id_of x) as [id|]; simpl; [rewrite Hb; simpl; unfold option_len; lia|subst blob; change (blob_len []) with 0 in *; unfold option_len; lia]. }
      split; [unfold fmap in IH; cbn [option_len from_option] in Hx; lia|]. intros z [->|Hz]%elem_of_cons; [apply Hx|by apply IHn]. }
    destruct Hsum as [Hsum Hnn]. rewrite checked_mul_fits by (unfold USIZE_MAX; lia). simpl. rewrite checked_add_fits by (unfold USIZE_MAX; lia). simpl.
    rewrite checked_sum_fits; [|lia|done|unfold USIZE_MAX; lia]. eexists. split; [done|]. lia.
Qed.

(** ** Publication *)

Definition add_ready q r (s : Resolver) : Resolver :=
  with_ready_bytes (rs_ready_bytes s + rd_accounted_bytes r) (with_ready (<[q := r]> (rs_ready s)) (with_slots (rs_column_slots s + Z.of_nat (length (rd_columns r))) s)).

Lemma resolver_ok_add_ready exempt q r s : resolver_ok exempt s → ready_ok xxh64 q r → 0 ≤ q < rs_next_sequence s → rs_pending s !! q = None →
  rs_ready s !! q = None → rs_immediate s !! q = None → rs_ready_bytes s + rd_accounted_bytes r ≤ MAX_CLIENT_BLOB_READY_BYTES →
  cached_count s < MAX_CLIENT_BLOB_PENDING_TRANSACTIONS → load s + Z.of_nat (length (rd_columns r)) ≤ MAX_CLIENT_BLOB_RECOVERY_READY_EVENTS →
  resolver_ok exempt (add_ready q r s).
Proof using Type.
  intros Hok Hr Hq Hp Hn Hi Hb Hc Hl. split.
  - exact (ro_cache _ _ _ _ Hok).
  - exact (ro_addressed _ _ _ _ Hok).
  - exact (ro_txs _ _ _ _ Hok).
  - exact (ro_order _ _ _ _ Hok).
  - exact (ro_nonempty _ _ _ _ Hok).
  - exact (ro_index _ _ _ _ Hok).
  - exact (ro_bodies _ _ _ _ Hok).
  - exact (ro_unresolved _ _ _ _ Hok).
  - exact (ro_owner _ _ _ _ Hok).
  - exact (ro_resolved _ _ _ _ Hok).
  - exact (ro_progress _ _ _ _ Hok).
  - simpl. intros q0 r0 [[<- <-]|[_ H0]]%lookup_insert_Some; [by split|by apply (ro_ready _ _ _ _ Hok)].
  - simpl. intros q0 r0 H0. destruct (ro_immediate _ _ _ _ Hok q0 r0 H0) as (? & ? & ? & ? & ?). do 4 (split; [done|]). rewrite lookup_insert_ne; [done|]. congruence.
  - exact (ro_recovery _ _ _ _ Hok).
  - pose proof (ro_totals _ _ _ _ Hok) as (H1 & H2 & H3)%totals_agree_spec. apply totals_agree_spec. simpl. unfold ready_total, slots_total in *. rewrite !map_sum_insert by done. lia.
  - exact Hb.
  - exact (ro_immediate_bytes _ _ _ _ Hok).
  - exact (ro_immediate_count _ _ _ _ Hok).
  - exact (ro_next _ _ _ _ Hok).
  - unfold cached_count in *. simpl. rewrite map_size_insert_None by done. lia.
  - unfold load in *. simpl. lia.
Qed.

Lemma evolves_add_ready q t r s s1 : rs_pending s !! q = Some t → rs_pending s1 = delete q (rs_pending s) → rs_ready s1 = rs_ready s → rs_ready s !! q = None →
  rs_recovery s1 = rs_recovery s → rs_immediate s1 = rs_immediate s → rs_next_sequence s1 = rs_next_sequence s →
  (∀ q' hash, q' ∈ waiters (rs_pending_by_hash s1) hash → q' ∈ waiters (rs_pending_by_hash s) hash) → load s1 + Z.of_nat (length (rd_columns r)) ≤ load s →
  (∀ q' t' hash, q' ≠ q → rs_pending s !! q' = Some t' → hash ∈ packet_hashes (pt_packet t') → is_Some (body (rs_cache s) hash) → is_Some (body (rs_cache s1) hash)) →
  (∀ hash, body (rs_cache s) hash = None → body (rs_cache s1) hash = None) →
  stands_for xxh64 (pt_packet t) (rd_value r) → evolves xxh64 [] s (add_ready q r s1).
Proof using Type.
  intros Hq Hp1 Hr1 Hrq Hrec Hi Hn Hw Hl Hbody Habs Hst. pose proof (delete_size _ _ _ Hq) as Hsz. split; [split|..]; simpl; try done.
  - intros q0 t0 H0. rewrite Hp1, Hr1. destruct (decide (q0 = q)) as [->|Hne]; [right; left; simplify_eq; exists r; by rewrite lookup_insert_eq|left].
    exists t0. by rewrite lookup_delete_ne.
  - intros q0 r0 H0. left. rewrite Hr1, lookup_insert_ne; [done|]. congruence.
  - intros ev. by rewrite Hrec.
  - intros q0 t0. rewrite Hp1. intros [_ H0]%lookup_delete_Some. eauto.
  - intros q0 t0 hash. rewrite Hp1. intros [Hne H0]%lookup_delete_Some. by apply (Hbody q0 t0).
  - intros q0 r0 [[<- <-]|[_ H0]]%lookup_insert_Some; [right; eauto|left; by rewrite <-Hr1].
  - unfold load in *. simpl. lia.
  - unfold cached_count. simpl. rewrite Hr1, Hp1, map_size_insert_None by done. lia.
Qed.

Lemma no_waits_heirs exempt q s : resolver_ok exempt s → q ∈ rs_resolved_pending s → heirs q s.
Proof using Type.
  intros Hok Hq hash W HW _. destruct (ro_owner _ _ _ _ Hok _ _ HW) as (w & t & Hw & Ht & Ho). exists w, t. split; [|done].
  apply elem_of_difference. split; [done|]. intros ->%elem_of_singleton. destruct (ro_resolved _ _ _ _ Hok q Hq) as [_ Hn]. apply (Hn hash). unfold waiters. by rewrite HW.
Qed.

Lemma published_steady exempt q t value bytes s : resolver_ok exempt s → pins_exact [] s → q ∈ rs_resolved_pending s → rs_pending s !! q = Some t →
  stands_for xxh64 (pt_packet t) value → 0 ≤ bytes → rs_ready_bytes s + bytes ≤ MAX_CLIENT_BLOB_READY_BYTES →
  steady exempt [] s (add_ready q (mk_ready value (pt_columns t) bytes q) (released limits q t s)).
Proof using Limits.
  intros Hok Hp Hr Hq Hst Hb Hmax. pose proof (released_ok limits xxh64 Limits _ _ _ _ Hok Hp Hq (no_waits_heirs _ _ _ Hok Hr)) as Hok1.
  pose proof (released_pins limits xxh64 Limits _ _ _ _ Hok Hp Hq) as Hp1. destruct (ro_txs _ _ _ _ Hok q t Hq) as [[] Hqn].
  assert (Hrq : rs_ready s !! q = None). { destruct (rs_ready s !! q) as [r|] eqn:E; [|done]. destruct (ro_ready _ _ _ _ Hok q r E) as (_ & _ & ?). congruence. }
  assert (Hiq : rs_immediate s !! q = None). { destruct (rs_immediate s !! q) as [r|] eqn:E; [|done]. destruct (ro_immediate _ _ _ _ Hok q r E) as (_ & _ & _ & ? & _). congruence. }
  pose proof (released_load limits xxh64 _ _ _ _ Hok Hq) as [Hl1 Hc1]. rewrite recovery_slots, <-tk_columns in Hl1 by done.
  assert (Hw : ∀ q' hash, q' ∈ waiters (rs_pending_by_hash (released limits q t s)) hash → q' ∈ waiters (rs_pending_by_hash s) hash).
  { intros q' hash. change (rs_pending_by_hash (released limits q t s)) with (rs_pending_by_hash (removed q t s)).
    rewrite (waiters_removed limits xxh64 _ _ _ _ hash Hok Hq). clear. set_solver. }
  assert (Hrs : rs_resolved_pending (released limits q t s) ⊆ rs_resolved_pending s) by (simpl; clear; set_solver).
  assert (Hd : rs_pending (released limits q t s) = delete q (rs_pending s)) by done.
  assert (Hsame : rs_ready (released limits q t s) = rs_ready s ∧ rs_recovery (released limits q t s) = rs_recovery s ∧ rs_immediate (released limits q t s) = rs_immediate s ∧
    rs_next_sequence (released limits q t s) = rs_next_sequence s ∧ rs_ready_bytes (released limits q t s) = rs_ready_bytes s) by done.
  pose proof (ro_load _ _ _ _ Hok) as Hload. pose proof (ro_count _ _ _ _ Hok) as Hcount.
  assert (Hbody : ∀ q' t' hash, q' ≠ q → rs_pending s !! q' = Some t' → hash ∈ packet_hashes (pt_packet t') → is_Some (body (rs_cache s) hash) → is_Some (body (rs_cache (released limits q t s)) hash)).
  { intros q' t' hash Hne Hq' Hin Hb'. rewrite (released_body limits xxh64 Limits exempt q t s q' t'); try done. destruct (ro_txs _ _ _ _ Hok q' t' Hq') as [Htx' _].
    by rewrite (BlobResolverInv.tk_unique _ Htx'), (BlobResolverInv.tk_hashes _ Htx'), elem_of_stable_unique. }
  assert (Habs : ∀ hash, body (rs_cache s) hash = None → body (rs_cache (released limits q t s)) hash = None).
  { intros hash. by apply (released_absent limits xxh64 Limits exempt). }
  revert Hok1 Hp1 Hl1 Hc1 Hw Hrs Hd Hsame Hbody Habs. generalize (released limits q t s). intros s1 Hok1 Hp1 Hl1 Hc1 Hw Hrs Hd (Hs1 & Hs2 & Hs3 & Hs4 & Hs5) Hbody Habs.
  split; [|done| |done].
  - apply resolver_ok_add_ready; [done|..]; simpl; rewrite ?Hs1, ?Hs3, ?Hs4, ?Hs5, ?Hd; try done; [|by apply lookup_delete_eq|lia|lia].
    split; [done|done|]. exists (pt_packet t). done.
  - eapply evolves_add_ready; try done. simpl. lia.
Qed.

Lemma ewp_publish_ready exempt q t value bytes s (Q : unit → Resolver → Prop) E : resolver_ok exempt s → pins_exact [] s → q ∈ rs_resolved_pending s →
  rs_pending s !! q = Some t → stands_for xxh64 (pt_packet t) value → 0 ≤ bytes → rs_ready_bytes s + bytes ≤ MAX_CLIENT_BLOB_READY_BYTES →
  (∀ s', steady exempt [] s s' → rs_pending s' !! q = None → Q tt s') → ewp (publish_ready layout limits q value bytes) s Q E.
Proof using Limits Layout_ok.
  intros Hok Hp Hr Hq Hst Hb Hmax HQ. pose proof (published_steady exempt q t value bytes s Hok Hp Hr Hq Hst Hb Hmax) as Hsteady.
  pose proof (own_totals _ _ _ _ _ _ Hok Hq) as [_ Hsl]. pose proof (size_bounds _ _ _ _ Hok) as (_ & _ & _ & Hslots & _).
  unfold publish_ready. ewp_step. eapply (ewp_remove limits xxh64 exempt); [done|congruence|]. intros t' Ht'. assert (t' = t) as -> by congruence. ewp_step. eapply ewp_expect; [done|].
  ewp_step. unfold unpin_transaction. ewp_step. change (with_cache _ _) with (released limits q t s). assert (Hpn : rs_pending (released limits q t s) !! q = None) by apply lookup_delete_eq.
  assert (Hcs : rs_column_slots (released limits q t s) = rs_column_slots s - Z.of_nat (length (pt_columns t))) by done.
  assert (Hrb : rs_ready_bytes (released limits q t s) = rs_ready_bytes s) by done.
  revert Hsteady Hpn Hcs Hrb. generalize (released limits q t s). intros s1 Hsteady Hpn Hcs Hrb.
  ewp_step. ewp_step. ewp_step. apply ewp_add_assign; [unfold USIZE_MAX; simpl; lia|]. do 4 ewp_step. ewp_step.
  apply ewp_add_assign; [simpl; unfold MAX_CLIENT_BLOB_READY_BYTES, USIZE_MAX in *; lia|]. ewp_step. ewp_step. ewp_step.
  change (ewp (relieve_cached_ready_pressure layout limits) (add_ready q (mk_ready value (pt_columns t) bytes q) s1)
    (λ _ s', ewp (refresh_pending_accounting layout) s' Q E) E).
  apply (ewp_relieve layout limits xxh64 Limits Layout_ok exempt); [apply Hsteady|apply Hsteady|]. intros b s2 Hs2 _ _.
  apply (ewp_refresh_steady layout limits xxh64 Layout_ok exempt [] s2 s); [by eapply steady_nil_l|]. intros v n Hs3. apply HQ; [done|].
  simpl. destruct (rs_pending s2 !! q) eqn:E1; [|done]. destruct (ev_back _ _ _ _ (sd_evolves _ _ _ _ _ _ Hs2) _ _ E1) as (t0 & Ht0 & _).
  simpl in Ht0. congruence.
Qed.

(** ** Moving one transaction *)

Lemma resolved_bodies exempt q t s : resolver_ok exempt s → q ∈ rs_resolved_pending s → rs_pending s !! q = Some t →
  ∀ hash, hash ∈ packet_hashes (pt_packet t) → is_Some (body (rs_cache s) hash).
Proof using Type.
  intros Hok Hr Hq hash Hin. destruct (ro_txs _ _ _ _ Hok q t Hq) as [[] _]. destruct (ro_resolved _ _ _ _ Hok q Hr) as [_ Hn].
  destruct (ro_bodies _ _ _ _ Hok q t hash Hq) as [?|Hw]; [|done|by destruct (Hn hash)]. by rewrite tk_unique, tk_hashes, elem_of_stable_unique.
Qed.

Lemma small_tail packet : packet_small packet → blob_len (from_option lc_data [] (match packet with PendingLevelChunk p => Some p | _ => None end)) ≤ USIZE_MAX.
Proof using Type. unfold USIZE_MAX. destruct packet as [p|p]; simpl; [lia|unfold blob_len; simpl; lia]. Qed.

Lemma verified_bodies exempt s packet value : resolver_ok exempt s → packet_cached packet → rebuilt (body (rs_cache s)) packet value → stands_for xxh64 packet value.
Proof using Type.
  intros Hok Hc Hr. split; [done|]. exists (body (rs_cache s)). split; [|done]. unfold body, verified_body. intros hash blob Hb.
  destruct (cs_entries (rs_cache s) !! hash) as [e|] eqn:He; simplify_eq/=. by apply (ro_addressed _ _ _ _ Hok).
Qed.

Definition moved exempt q s s' : Prop := steady exempt [] s s' ∧ rs_pending s' !! q = None.

Lemma ewp_give_up exempt q stat s s0 (Q : unit → Resolver → Prop) E : steady exempt [] s0 s → (∀ s', moved exempt q s0 s' → Q tt s') →
  ewp (record_skip stat ≫= λ _, abandon_and_refresh layout limits q) s Q E.
Proof using Limits Layout_ok.
  intros Hs HQ. ewp_step. apply ewp_record_skip. intros v. pose proof (steady_bump _ _ _ _ v _ _ Hs) as Hs1.
  apply (ewp_abandon_refresh layout limits xxh64 Limits Layout_ok exempt); [apply Hs1|apply Hs1|]. intros s' Hs' Hd. apply HQ. split; [by eapply steady_nil_l|].
  apply not_elem_of_dom. rewrite Hd. clear. set_solver.
Qed.

Lemma ewp_expect_pending q t s (Q : PendingTransaction → Resolver → Prop) E : rs_pending s !! q = Some t → Q t s → ewp (expect_pending q) s Q E.
Proof using Type. intros Hq HQ. unfold expect_pending. ewp_step. ewp_step. by eapply ewp_expect. Qed.

Lemma ewp_move exempt q s (Q : unit → Resolver → Prop) E : resolver_ok exempt s → pins_exact [] s → q ∈ rs_resolved_pending s →
  (∀ s', moved exempt q s s' → Q tt s') → E ByteCountOverflow s → ewp (move_pending_to_ready layout limits q) s Q E.
Proof using Limits Layout_ok.
  intros Hok Hp Hr HQ HE. destruct (ro_resolved _ _ _ _ Hok q Hr) as [[t Hq] _]. destruct (ro_txs _ _ _ _ Hok q t Hq) as [Htx _].
  pose proof (resolved_bodies _ _ _ _ Hok Hr Hq) as Hbodies. unfold move_pending_to_ready. ewp_step. eapply ewp_expect_pending; [done|]. ewp_step. ewp_step. ewp_step. simpl.
  rewrite (tk_hashes _ Htx), projected_spec; [|apply Htx|done|by apply small_tail, Htx]. unfold checked_total.
  destruct (Z.leb_spec (reconstruction_len (rs_cache s) (pt_packet t)) USIZE_MAX) as [Hfit|Hbig]; [|exact HE].
  simpl. ewp_step. ewp_step. eapply ewp_expect; [done|]. destruct (Z.ltb_spec MAX_CLIENT_BLOB_RECONSTRUCTED_BYTES (reconstruction_len (rs_cache s) (pt_packet t))) as [?|Hlen].
  { apply (ewp_give_up exempt q _ s s); [by apply steady_refl|done]. }
  ewp_step. eapply ewp_expect_pending; [done|]. ewp_step. apply ewp_on_cache. rewrite (tk_hashes _ Htx).
  apply (ewp_reconstruct limits); [apply (ro_cache _ _ _ _ Hok)|apply Htx|done|done|]. intros value cache Hreb Hc Hsame.
  pose proof (steady_cache exempt cache s Hok Hp Hc Hsame) as Hs1. ewp_step. apply ewp_bump. intros v. ewp_step. apply (ewp_read_capacity _ Layout_ok). intros c n Hcap.
  pose proof (steady_counted _ _ _ _ v n _ _ Hs1) as Hs2. destruct (rebuilt_bytes _ _ _ c (tk_cached _ Htx) (tk_small _ Htx) Hreb Hlen Hcap) as (bytes & Hbytes & Hbr).
  ewp_step. rewrite Hbytes. cbn [of_result]. ewp_step. set (s2 := with_readings n _) in *. assert (Hq2 : rs_pending s2 !! q = Some t) by done. assert (Hr2 : q ∈ rs_resolved_pending s2) by done.
  assert (Hrb : rs_ready_bytes s2 = rs_ready_bytes s) by done. clearbody s2.
  ewp_step. unfold retained_reconstructed_bytes. ewp_step. eapply ewp_totals; [apply Hs2|]. ewp_step.
  pose proof (ro_ready_bytes _ _ _ _ Hok) as Hmax. unfold MAX_CLIENT_BLOB_READY_BYTES in Hmax.
  rewrite checked_add_fits by (rewrite Hrb; unfold USIZE_MAX; lia). simpl. destruct (Z.ltb_spec MAX_CLIENT_BLOB_READY_BYTES (rs_ready_bytes s2 + bytes)) as [?|Hready].
  { by apply (ewp_give_up exempt q _ s2 s). }
  ewp_step. eapply (ewp_retained _ _ _ Layout_ok); [apply Hs2|]. intros retained n2 Hret. pose proof (steady_counted _ _ _ _ (rs_stats s2) n2 _ _ Hs2) as Hs3.
  assert (Heq : with_readings n2 (with_stats (rs_stats s2) s2) = with_readings n2 s2) by done. rewrite Heq in Hs3.
  ewp_step. eapply ewp_expect_pending; [done|]. pose proof (own_totals _ _ _ _ _ _ (sd_ok _ _ _ _ _ _ Hs2) Hq2) as [Hacc _].
  pose proof (ly_ready _ Layout_ok) as Hsz. unfold small_size in Hsz. ewp_step.
  eapply ewp_ok_or; [rewrite checked_sub_fits by lia; simpl; rewrite checked_add_fits by (unfold USIZE_MAX; lia); simpl; apply checked_add_fits; unfold USIZE_MAX; lia|].
  case_match; [by apply (ewp_give_up exempt q _ _ s)|].
  apply (ewp_publish_ready exempt q t); [apply Hs3|apply Hs3|done|done|eapply verified_bodies; [done|apply Htx|done]|lia|done|]. intros s' Hs' Hn. apply HQ. split; [by eapply steady_nil_l|done].
Qed.

(** ** Draining *)

Lemma ewp_drain_ready exempt s s0 (Q : unit → Resolver → Prop) E : steady exempt [] s0 s → (∀ s', steady exempt [] s0 s' → rs_resolved_pending s' = ∅ → Q tt s') →
  (∀ s', steady exempt [] s0 s' → E ByteCountOverflow s') → ewp (drain_ready layout limits) s Q E.
Proof using Limits Layout_ok.
  intros Hs HQ HE. unfold drain_ready. ewp_step. ewp_step. change (id s) with s. ewp_step.
  eapply (ewp_drain _ _ (steady exempt [] s0) (λ s, size (rs_resolved_pending s))); [done|lia|]. clear s Hs. intros s Hs. unfold next_resolved. ewp_step. ewp_step. ewp_step. simpl.
  destruct (first_of (rs_resolved_pending s)) as [q|] eqn:Hf.
  - apply first_of_Some in Hf. apply (ewp_move exempt); [apply Hs|apply Hs|done| |by apply HE]. intros s' [Hs' Hn]. split; [by eapply steady_nil_l|].
    apply subset_size. split; [apply Hs'|]. intros Hsub. specialize (Hsub q Hf). destruct (ro_resolved _ _ _ _ (sd_ok _ _ _ _ _ _ Hs') q Hsub) as [Hx _]. rewrite Hn in Hx. by destruct Hx.
  - apply first_of_None in Hf. apply (ewp_refresh_steady layout limits xxh64 Layout_ok exempt [] s s0); [done|]. intros v n Hs'. by apply HQ.
Qed.


(** ** Resolving a hash *)

Definition resolved_state (m : gmap Z PendingTransaction) (R : gset Z) hash (s : Resolver) : Resolver :=
  with_resolved R (with_pending m (with_by_hash (delete hash (rs_pending_by_hash s)) s)).

Section resolve.
Context (exempt : gset Z) (hash : Z) (W : gset Z) (s : Resolver) (m : gmap Z PendingTransaction) (R : gset Z).
Context (Hok : resolver_ok exempt s) (HW : rs_pending_by_hash s !! hash = Some W) (Hbody : is_Some (body (rs_cache s) hash)).
Context (Hm : ∀ q, m !! q = (if decide (q ∈ W) then fewer else id) <$> rs_pending s !! q).
Context (HR : ∀ q, q ∈ R ↔ q ∈ rs_resolved_pending s ∨ q ∈ W ∧ ∃ t, rs_pending s !! q = Some t ∧ sat_sub (pt_unresolved_hashes t) 1 = 0).
Let s1 := resolved_state m R hash s.

Lemma waiters_here q : q ∈ waiters (rs_pending_by_hash s) hash ↔ q ∈ W.
Proof using HW. unfold waiters. by rewrite HW. Qed.

Lemma fewer_lookup q t' : m !! q = Some t' → ∃ t, rs_pending s !! q = Some t ∧ t' = (if decide (q ∈ W) then fewer t else t).
Proof using Hm. rewrite Hm. intros (t & -> & Ht)%fmap_Some. exists t. split; [done|]. by case_decide. Qed.
Lemma fewer_lookup_of q t : rs_pending s !! q = Some t → m !! q = Some (if decide (q ∈ W) then fewer t else t).
Proof using Hm. intros Ht. rewrite Hm, Ht. by case_decide. Qed.
Lemma fewer_is_Some q : is_Some (m !! q) ↔ is_Some (rs_pending s !! q).
Proof using Hm. rewrite Hm. apply fmap_is_Some. Qed.
Lemma fewer_none q : m !! q = None ↔ rs_pending s !! q = None.
Proof using Hm. rewrite Hm. apply fmap_None. Qed.

Lemma fewer_sum f : (∀ q t, f q (fewer t) = f q t) → map_sum f m = map_sum f (rs_pending s).
Proof using Hm.
  intros Hf. apply map_sum_related. intros q. rewrite Hm. destruct (rs_pending s !! q) as [t|]; simpl; [|done]. case_decide; [apply Hf|done].
Qed.
Lemma fewer_dom : dom m = dom (rs_pending s).
Proof using Hm. apply set_eq. intros q. rewrite !elem_of_dom. apply fewer_is_Some. Qed.

(** Who waits for the hash has one to wait for less. *)
Lemma fewer_unresolved q t : rs_pending s !! q = Some t → q ∈ W →
  pt_unresolved_hashes t = Z.of_nat (length (filter (λ h, q ∈ waiters (delete hash (rs_pending_by_hash s)) h) (pt_unique_hashes t))) + 1.
Proof using HW Hok.
  intros Hq HqW. rewrite (ro_unresolved _ _ _ _ Hok q t Hq). destruct (ro_txs _ _ _ _ Hok q t Hq) as [[] _].
  rewrite (filter_without _ (λ h, q ∈ waiters (delete hash (rs_pending_by_hash s)) h) _ hash).
  - lia.
  - rewrite tk_unique. apply stable_unique_nodup.
  - destruct (ro_index _ _ _ _ Hok q hash) as (t' & Ht' & ?); [by apply waiters_here|]. congruence.
  - by apply waiters_here.
  - intros h. apply waiters_delete.
Qed.

Lemma resolved_ok : resolver_ok exempt s1.
Proof using Hok HW Hbody Hm HR.
  assert (Hsize : size m = size (rs_pending s)) by (by rewrite <-!(size_dom (D := gset Z)), fewer_dom).
  pose proof (ro_totals _ _ _ _ Hok) as (H1 & H2 & H3)%totals_agree_spec.
  split; simpl.
  - exact (ro_cache _ _ _ _ Hok).
  - exact (ro_addressed _ _ _ _ Hok).
  - intros q t' (t & Hq & ->)%fewer_lookup. destruct (ro_txs _ _ _ _ Hok q t Hq) as [[] ?]. split; [|done]. by case_decide; split.
  - by rewrite (ro_order _ _ _ _ Hok), fewer_dom.
  - intros h V [_ HV]%lookup_delete_Some. exact (ro_nonempty _ _ _ _ Hok h V HV).
  - intros q h [Hin _]%waiters_delete. destruct (ro_index _ _ _ _ Hok q h Hin) as (t & Ht & ?). rewrite (fewer_lookup_of _ _ Ht). eexists. split; [done|]. by case_decide.
  - intros q t' h (t & Hq & ->)%fewer_lookup Hin. assert (Hin' : h ∈ pt_unique_hashes t) by (by case_decide). rewrite waiters_delete.
    destruct (ro_bodies _ _ _ _ Hok q t h Hq Hin') as [?|Hw]; [by left|]. destruct (decide (h = hash)) as [->|]; [by left|by right].
  - intros q t' (t & Hq & ->)%fewer_lookup. case_decide as HqW; simpl.
    + rewrite (fewer_unresolved q t Hq HqW). rewrite sat_sub_small by lia. lia.
    + rewrite (ro_unresolved _ _ _ _ Hok q t Hq). do 2 f_equal. apply list_filter_iff. intros h. rewrite waiters_delete. split; [|tauto]. intros Hw. split; [done|]. intros ->. by apply HqW, waiters_here.
  - intros h V [_ HV]%lookup_delete_Some. destruct (ro_owner _ _ _ _ Hok h V HV) as (q & t & ? & Ht & ?). exists q. rewrite (fewer_lookup_of _ _ Ht). eexists. split; [done|]. split; [done|]. by case_decide.
  - intros q [Hq|(HqW & t & Hq & Hz)]%HR.
    + destruct (ro_resolved _ _ _ _ Hok q Hq) as [? Hn]. split; [by apply fewer_is_Some|]. intros h [Hin _]%waiters_delete. by apply (Hn h).
    + split; [apply fewer_is_Some; by eexists|]. intros h Hin. pose proof (fewer_unresolved q t Hq HqW) as Hu. rewrite sat_sub_small in Hz by lia.
      destruct (ro_index _ _ _ _ Hok q h) as (t' & Ht' & Hin'); [by apply waiters_delete in Hin as [? _]|]. assert (t' = t) as -> by congruence.
      assert (h ∈ filter (λ h, q ∈ waiters (delete hash (rs_pending_by_hash s)) h) (pt_unique_hashes t)) as Hf by (by apply list_elem_of_filter).
      destruct (filter _ (pt_unique_hashes t)); [by apply elem_of_nil in Hf|simpl in Hu; lia].
  - intros q Hq%fewer_is_Some. destruct (ro_progress _ _ _ _ Hok q Hq) as [?|[?|[h Hh]]]; [by left|right; left; apply HR; by left|right].
    destruct (decide (h = hash)) as [->|Hne]; [|right; exists h; by apply waiters_delete]. apply waiters_here in Hh. destruct Hq as [t Hq].
    pose proof (fewer_unresolved q t Hq Hh) as Hu. destruct (filter _ (pt_unique_hashes t)) as [|h' l] eqn:Hf.
    + left. apply HR. right. split; [done|]. exists t. split; [done|]. rewrite Hu. simpl. done.
    + right. exists h'. assert (h' ∈ h' :: l) as Hin by left. rewrite <-Hf in Hin. by apply list_elem_of_filter in Hin as [? _].
  - intros q r Hr. rewrite fewer_none. exact (ro_ready _ _ _ _ Hok q r Hr).
  - intros q r Hr. rewrite fewer_none. exact (ro_immediate _ _ _ _ Hok q r Hr).
  - exact (ro_recovery _ _ _ _ Hok).
  - apply totals_agree_spec. simpl. unfold accounted_total, slots_total in *. rewrite !fewer_sum by done. done.
  - exact (ro_ready_bytes _ _ _ _ Hok).
  - exact (ro_immediate_bytes _ _ _ _ Hok).
  - exact (ro_immediate_count _ _ _ _ Hok).
  - exact (ro_next _ _ _ _ Hok).
  - pose proof (ro_count _ _ _ _ Hok) as Hc. unfold cached_count in *. simpl. lia.
  - exact (ro_load _ _ _ _ Hok).
Qed.
Lemma resolved_pins extra : pins_exact extra s → pins_exact extra s1.
Proof using Hm. intros Hp h. specialize (Hp h). unfold holders in *. simpl. by rewrite fewer_sum. Qed.
Lemma resolved_evolves : evolves xxh64 [] s s1.
Proof using Hm.
  split; [split|..]; simpl; try done.
  - intros q t Ht. left. rewrite (fewer_lookup_of _ _ Ht). eexists. split; [done|]. by case_decide.
  - intros q r Hr. by left.
  - intros q t' (t & Ht & ->)%fewer_lookup. exists t. split; [done|]. by case_decide.
  - by left.
  - intros q h [? _]%waiters_delete. done.
  - unfold load. simpl. lia.
  - unfold cached_count. simpl. rewrite <-!(size_dom (D := gset Z)), fewer_dom. done.
Qed.
End resolve.

(** Sound steps that may end earlier waiting. *)
Record sound exempt out s s' : Prop := {
  sn_ok : resolver_ok exempt s';
  sn_pins : pins_exact [] s';
  sn_evolves : evolves xxh64 out s s';
}.
Lemma steady_sound exempt out s s' : steady exempt out s s' → sound exempt out s s'.
Proof using Type. intros [? ? ? _]. by split. Qed.
Lemma sound_trans exempt out1 out2 s1 s2 s3 : sound exempt out1 s1 s2 → sound exempt out2 s2 s3 → sound exempt (out1 ++ out2) s1 s3.
Proof using Type. clear Limits Layout_ok. intros [_ _ H1] [? ? H2]. split; [done|done|by eapply run_evolves_trans]. Qed.
Lemma sound_nil exempt out s1 s2 s3 : sound exempt [] s1 s2 → sound exempt out s2 s3 → sound exempt out s1 s3.
Proof using Type. clear Limits Layout_ok. intros H1 H2. by apply (sound_trans exempt [] out _ s2). Qed.

Lemma ewp_resolve_hash exempt hash s (Q : unit → Resolver → Prop) E : resolver_ok exempt s → pins_exact [] s →
  (is_Some (rs_pending_by_hash s !! hash) → is_Some (body (rs_cache s) hash)) →
  (∀ s', sound exempt [] s s' → (rs_resolved_pending s = ∅ → rs_resolved_pending s' = ∅) → (∀ q, q ∉ waiters (rs_pending_by_hash s') hash) → Q tt s') →
  (∀ s', sound exempt [] s s' → E ByteCountOverflow s') → ewp (resolve_hash layout limits hash) s Q E.
Proof using Limits Layout_ok.
  intros Hok Hp Hb HQ HE. unfold resolve_hash. ewp_step. ewp_step. change (id s) with s. destruct (rs_pending_by_hash s !! hash) as [W|] eqn:HW.
  2:{ ewp_step. apply HQ; [split; [done|done|apply run_evolves_refl]|done|]. intros q. unfold waiters. rewrite HW. apply not_elem_of_empty. }
  specialize (Hb (mk_is_Some _ _ eq_refl)). ewp_step. ewp_step. ewp_step. ewp_step.
  destruct (resolve_all_spec (elements W) (with_by_hash (delete hash (rs_pending_by_hash s)) s) (NoDup_elements W)) as (m & R & -> & Hm & HR). simpl in Hm, HR.
  setoid_rewrite elem_of_elements in HR. assert (Hm' : ∀ q, m !! q = (if decide (q ∈ W) then fewer else id) <$> rs_pending s !! q).
  { intros q. rewrite Hm. f_equal. destruct (decide (q ∈ W)) as [Hq|Hq]; [by rewrite decide_True by by apply elem_of_elements|by rewrite decide_False by by rewrite elem_of_elements]. }
  change (with_resolved R (with_pending m (with_by_hash (delete hash (rs_pending_by_hash s)) s))) with (resolved_state m R hash s).
  pose proof (resolved_ok _ _ _ _ _ _ Hok HW Hb Hm' HR) as Hok1. pose proof (resolved_pins hash W s m R Hm' [] Hp) as Hp1. pose proof (resolved_evolves hash W s m R Hm') as He1.
  assert (Hnone : ∀ q, q ∉ waiters (rs_pending_by_hash (resolved_state m R hash s)) hash) by (intros q [_ ?]%waiters_delete; done).
  revert Hok1 Hp1 He1 Hnone. generalize (resolved_state m R hash s). intros s1 Hok1 Hp1 He1 Hnone.
  apply (ewp_drain_ready exempt s1 s1); [by apply steady_refl|..].
  - intros s' Hs' Hr. apply HQ; [|done|].
    + eapply sound_nil; [by split|by apply steady_sound].
    + intros q Hin. apply (Hnone q). eapply ev_waiters; [apply Hs'|done].
  - intros s' Hs'. apply HE. eapply sound_nil; [by split|by apply steady_sound].
Qed.
End drain.

(** ** What the resolver's entry points do, step by step

    Classification partitions and pins a packet's hashes; resets leave nothing behind but recoveries; immediate work joins
    its bounded lane. *)

Implicit Types (status : BlobCacheStatus) (ev : ChunkResyncEvent).

(** ** Classification *)

(** The unique hashes, by what the session must ask for. *)
Record classified_as (hashes : list Z) s status : Prop := {
  ca_have hash : hash ∈ st_have status ↔ hash ∈ hashes ∧ is_Some (body (rs_cache s) hash);
  ca_missing hash : hash ∈ st_missing status ↔ hash ∈ hashes ∧ body (rs_cache s) hash = None ∧ rs_pending_by_hash s !! hash = None;
  ca_outstanding hash : hash ∈ st_outstanding status ↔ hash ∈ hashes ∧ body (rs_cache s) hash = None ∧ is_Some (rs_pending_by_hash s !! hash);
  ca_nodup : NoDup (st_missing status ++ st_outstanding status);
  ca_staged : 0 ≤ st_staged_bytes status;
  ca_refused : st_accepted status = false;
  ca_admission : st_admission status = None;
}.

Section intake.
Context (layout : Layout) (limits : BlobCacheLimits) (xxh64 : Blob → Z) (Limits : limits_ok limits) (Layout_ok : layout_ok layout).
Notation resolver_ok := (resolver_ok limits xxh64).
Notation steady := (steady limits xxh64).
Notation sound := (sound limits xxh64).
Notation kept := (kept xxh64).
Notation evolves := (evolves xxh64).
Implicit Types (E : BlobCacheError → Resolver → Prop).

Lemma staged_nonneg pin_them hashes acc : 0 ≤ acc.1.2 → 0 ≤ (foldl (classify_one pin_them) acc hashes).1.2.
Proof using Type.
  clear Limits Layout_ok. revert acc. induction hashes as [|hash hashes IH]; intros [[[have missing] staged] cache]; simpl; [done|]. intros Hs. apply IH.
  destruct (cs_entries cache !! hash) as [e|]; simpl; [|done]. unfold sat_add, USIZE_MAX. pose proof (blob_len_nonneg (ce_payload e)). lia.
Qed.

Lemma body_none_iff cache hash : body cache hash = None ↔ cs_entries cache !! hash = None.
Proof using Type. unfold body. by rewrite fmap_None. Qed.

(** What classification adds to the pins. *)
Definition pinned_for (pin : bool) (hashes : list Z) : list Z := if pin then stable_unique hashes else [].

Lemma ewp_classify exempt hashes recovery pin s (Q : BlobCacheStatus → Resolver → Prop) E : resolver_ok exempt s → pins_exact [] s →
  (∀ status v cache, store_ok limits cache → (∀ k, body cache k = body (rs_cache s) k) → pins_exact (pinned_for pin hashes) (with_stats v (with_cache cache s)) →
    resolver_ok exempt (with_stats v (with_cache cache s)) → classified_as hashes s status → st_recovery status = recovery → Q status (with_stats v (with_cache cache s))) →
  ewp (classify_status hashes recovery pin) s Q E.
Proof using Type.
  clear Limits Layout_ok. intros Hok Hp HQ. destruct (classify_ok limits (stable_unique hashes) pin (rs_cache s) (ro_cache _ _ _ _ Hok)) as (have & missing & staged & cache & Hcl & Hc & [H1 H2 H3 H4 H5 H6]).
  assert (Hbody : ∀ k, body cache k = body (rs_cache s) k) by exact H4. assert (Hstaged : 0 ≤ staged).
  { pose proof (staged_nonneg pin (stable_unique hashes) ([], [], 0, rs_cache s) (Z.le_refl 0)) as Hn. unfold classify in Hcl.
    destruct (foldl (classify_one pin) ([], [], 0, rs_cache s) (stable_unique hashes)) as [[[have' missing'] staged'] cache'] eqn:Hf. by injection Hcl as <- <- <- <-. }
  unfold classify_status. ewp_step. unfold status_classify. ewp_step. apply ewp_on_cache. unfold ewp at 1. rewrite Hcl. ewp_step. unfold debug_assert.
  assert (Hlen : (Z.of_nat (length have) + Z.of_nat (length missing) =? Z.of_nat (length (stable_unique hashes))) = true) by (apply Z.eqb_eq; lia).
  rewrite Hlen. ewp_step. ewp_step. ewp_step. ewp_step. do 4 (ewp_step; apply ewp_bump; intros ?). ewp_step.
  match goal with |- Q ?st (with_stats ?v _) => apply (HQ st v cache) end; [done|done| | | |done].
  - intros k. pose proof (H6 k (stable_unique_nodup hashes)) as Hk. rewrite (pins_none _ k Hp) in Hk.
    change (rs_cache (with_stats _ (with_cache cache s))) with cache. rewrite Hk. simpl. f_equal. unfold pinned_for. destruct pin.
    + apply decide_ext. split; [by intros []|done].
    + rewrite !decide_False; [done|apply not_elem_of_nil|by intros []].
  - pose proof (resolver_ok_cache limits xxh64 exempt cache s Hok Hc) as Hok1. forward Hok1; [|forward Hok1].
    + eapply addressed_payloads; [eapply ro_addressed; done|]. exact H4.
    + intros q t h _ _. by rewrite Hbody.
    + pose proof (resolver_ok_stats limits xxh64 exempt (rs_stats s) (rs_readings s) (rs_reset_armed s) (rs_lane_stalled s) _ Hok1) as Hok2. destruct Hok2. by split.
  - split; simpl; try done.
    + intros h. by rewrite H1, elem_of_stable_unique, body_present.
    + intros h. rewrite list_elem_of_filter, H2, elem_of_stable_unique, body_none_iff. tauto.
    + intros h. rewrite list_elem_of_filter, H2, elem_of_stable_unique, body_none_iff. tauto.
    + apply NoDup_app. pose proof (H5 (stable_unique_nodup hashes)) as Hnd. split; [by apply NoDup_filter|]. split; [|by apply NoDup_filter].
      intros h [Hn _]%list_elem_of_filter [Hs _]%list_elem_of_filter. rewrite Hn in Hs. by destruct Hs.
Qed.

(** A classification changes neither work nor lane. *)
Lemma kept_counted v cache s : kept [] s (with_stats v (with_cache cache s)).
Proof using Type. by apply kept_core. Qed.

(** ** Resets *)

Definition names (hash : Z) (l : list PendingTransaction) : Z := sum_Z ((λ t, if decide (hash ∈ pt_unique_hashes t) then 1 else 0) <$> l).

Lemma count_occ_nodup (l : list Z) hash : NoDup l → Z.of_nat (count_occ Z.eq_dec l hash) = if decide (hash ∈ l) then 1 else 0.
Proof using Type.
  clear Limits Layout_ok. intros Hnd. case_decide as Hin.
  - assert (count_occ Z.eq_dec l hash = 1%nat) as ->; [|done]. apply NoDup_count_occ'; [by apply NoDup_ListNoDup|by apply list_elem_of_In].
  - assert (count_occ Z.eq_dec l hash = 0%nat) as ->; [|done]. apply count_occ_not_In. by rewrite <-list_elem_of_In.
Qed.

Lemma ewp_unpin_list l s (Q : unit → Resolver → Prop) E : store_ok limits (rs_cache s) → addressed xxh64 (rs_cache s) → (∀ t, t ∈ l → NoDup (pt_unique_hashes t)) →
  (∀ hash, names hash l ≤ pin_count (rs_cache s) hash) →
  (∀ cache, store_ok limits cache → addressed xxh64 cache → (∀ hash, pin_count cache hash = pin_count (rs_cache s) hash - names hash l) → Q tt (with_cache cache s)) →
  ewp (for_each (unpin_transaction limits) l) s Q E.
Proof using Limits.
  revert s. induction l as [|t l IH]; intros s Hs Ha Hnd Hle HQ; cbn [for_each].
  { ewp_step. specialize (HQ (rs_cache s) Hs Ha). assert (with_cache (rs_cache s) s = s) as Heq by (by destruct s). rewrite Heq in HQ. apply HQ. intros. unfold names. simpl. lia. }
  ewp_step. unfold unpin_transaction at 1. ewp_step. destruct (unpin_all_ok limits (pt_unique_hashes t) (rs_cache s) Limits Hs) as [Hok Hu].
  assert (Hnn : ∀ hash, 0 ≤ names hash l). { intros h. apply sum_Z_nonneg. intros x (t' & -> & _)%list_elem_of_fmap. case_decide; lia. }
  assert (Hpin : ∀ hash, pin_count (unpin_all limits (pt_unique_hashes t) (rs_cache s)) hash = pin_count (rs_cache s) hash - (if decide (hash ∈ pt_unique_hashes t) then 1 else 0)).
  { intros h. rewrite (up_pins _ _ _ Hu), count_occ_nodup by (apply Hnd; by left). specialize (Hle h). specialize (Hnn h). unfold names in Hle. rewrite fmap_cons in Hle. cbn [sum_Z] in Hle.
    fold (names h l) in Hle. revert Hle. case_decide; lia. }
  apply IH; simpl.
  - done.
  - intros k e He%(up_sub _ _ _ Hu). by apply Ha.
  - intros t' Ht'. apply Hnd. by right.
  - intros h. rewrite Hpin. specialize (Hle h). unfold names in Hle |- *. rewrite fmap_cons in Hle. cbn [sum_Z] in Hle. lia.
  - intros cache Hc Hac Hpc. apply (HQ cache Hc Hac). intros h. rewrite Hpc, Hpin. unfold names. rewrite fmap_cons. cbn [sum_Z]. lia.
Qed.

Lemma ewp_unpin_pending exempt s (Q : unit → Resolver → Prop) E : resolver_ok exempt s → pins_exact [] s →
  (∀ cache, store_ok limits cache → addressed xxh64 cache → (∀ hash, pin_count cache hash = 0) → Q tt (with_cache cache s)) → ewp (unpin_pending limits) s Q E.
Proof using Limits.
  intros Hok Hp HQ. unfold unpin_pending. ewp_step. ewp_step. assert (Hn : ∀ hash, names hash (snd <$> map_to_list (rs_pending s)) = pin_count (rs_cache s) hash).
  { intros h. rewrite (pins_none _ h Hp). unfold names, holders. by rewrite <-sum_Z_map. }
  apply ewp_unpin_list; [apply Hok|apply Hok| |intros h; change (id s) with s; rewrite Hn; done|].
  - intros t ([q t'] & -> & Hin)%list_elem_of_fmap. apply elem_of_map_to_list in Hin. destruct (ro_txs _ _ _ _ Hok q t' Hin) as [Htx _].
    simpl. rewrite (tk_unique _ Htx). apply stable_unique_nodup.
  - intros cache Hc Ha Hpc. apply HQ; [done|done|]. intros h. rewrite Hpc. change (id s) with s. rewrite Hn. lia.
Qed.

Definition clear_all (cache : CacheStore) (s : Resolver) : Resolver := clear_cached (with_cache cache s).

(** Without cached work the cache alone is left to be in order. *)
Lemma cleared_idle cache s exempt : resolver_ok exempt s → store_ok limits cache → addressed xxh64 cache → (∀ hash, pin_count cache hash = 0) →
  resolver_ok ∅ (clear_all cache s) ∧ pins_exact [] (clear_all cache s) ∧ load (clear_all cache s) ≤ load s.
Proof using Type.
  clear Limits Layout_ok. intros Hok Hc Ha Hpc. pose proof (size_bounds _ _ _ _ Hok) as (_ & _ & _ & Hs & _). pose proof (ro_load _ _ _ _ Hok) as Hl.
  assert (Hload : load (clear_all cache s) ≤ load s) by (unfold load; simpl; lia). split; [|split; [|done]].
  - split; simpl.
    + done.
    + done.
    + intros q t Hq. by rewrite lookup_empty in Hq.
    + by rewrite dom_empty_L.
    + intros hash W HW. by rewrite lookup_empty in HW.
    + intros q hash Hq. unfold waiters in Hq. rewrite lookup_empty in Hq. by apply elem_of_empty in Hq.
    + intros q t hash Hq. by rewrite lookup_empty in Hq.
    + intros q t Hq. by rewrite lookup_empty in Hq.
    + intros hash W HW. by rewrite lookup_empty in HW.
    + intros q Hq. by apply elem_of_empty in Hq.
    + intros q [t Hq]. by rewrite lookup_empty in Hq.
    + intros q r Hr. by rewrite lookup_empty in Hr.
    + intros q r Hr. destruct (ro_immediate _ _ _ _ Hok q r Hr) as (? & ? & ? & _ & _). by rewrite !lookup_empty.
    + exact (ro_recovery _ _ _ _ Hok).
    + done.
    + done.
    + exact (ro_immediate_bytes _ _ _ _ Hok).
    + exact (ro_immediate_count _ _ _ _ Hok).
    + exact (ro_next _ _ _ _ Hok).
    + done.
    + lia.
  - intros h. change (rs_cache (clear_all cache s)) with cache. rewrite Hpc, decide_False by apply not_elem_of_nil. done.
Qed.

(** What a full reset leaves. *)
Record blank s : Prop := {
  bl_ok : resolver_ok ∅ s;
  bl_pins : pins_exact [] s;
  bl_pending : rs_pending s = ∅;
  bl_ready : rs_ready s = ∅;
  bl_immediate : rs_immediate s = ∅;
  bl_recovery : rs_recovery s = ∅;
  bl_resolved : rs_resolved_pending s = ∅;
  bl_next : rs_next_sequence s = 0;
}.

Lemma with_same_stats s : with_stats (rs_stats s) s = s.
Proof using Type. by destruct s. Qed.
Lemma ewp_set_stats l v0 s (Q : unit → Resolver → Prop) E : (∀ v, Q tt (with_stats v s)) → ewp (for_each (λ stat, set_stat stat v0) l) s Q E.
Proof using Type.
  clear Limits Layout_ok. intros HQ. cut (∀ v, ewp (for_each (λ stat, set_stat stat v0) l) (with_stats v s) Q E); [intros H; specialize (H (rs_stats s)); by rewrite with_same_stats in H|].
  induction l as [|stat l IH]; intros v; cbn [for_each]; [ewp_step; apply HQ|]. ewp_step. apply ewp_set_stat. intros v' _. apply (IH v').
Qed.

Lemma ewp_reset exempt s (Q : unit → Resolver → Prop) E : resolver_ok exempt s → pins_exact [] s → (∀ s', blank s' → Q tt s') → ewp (reset_pending limits) s Q E.
Proof using Limits.
  intros Hok Hp HQ. unfold reset_pending. ewp_step. ewp_step. change (id s) with s. ewp_step.
  assert (Hrest : ∀ v, ewp (unpin_pending limits ≫= λ _, eff_modify (λ s, with_sequence 0 (with_flags false false (with_recovery ∅ (with_immediate ∅ (clear_cached s))))) ≫=
    λ _, for_each (λ stat, set_stat stat 0) [pending_transactions; pending_bytes; retained_cached_transactions; ordinary_ready_events; ordinary_ready_bytes; recovery_ready_events; recovery_ready_bytes])
    (with_stats v s) Q E).
  { intros v. ewp_step. apply (ewp_unpin_pending exempt); [destruct Hok; by split|done|]. intros cache Hc Ha Hpc. ewp_step. ewp_step.
    destruct (cleared_idle cache s exempt Hok Hc Ha Hpc) as ([] & Hpins & _).
    apply ewp_set_stats. intros v'. apply HQ. by split. }
  destruct (has_cached s); [apply ewp_bump; intros v; apply Hrest|]. ewp_step. rewrite <-(with_same_stats s). apply Hrest.
Qed.

Lemma resolver_ok_counted exempt v n s : resolver_ok exempt s → resolver_ok exempt (with_readings n (with_stats v s)).
Proof using Type. intros []. by split. Qed.

(** ** Recovering retained work *)

Lemma length_bind {A B} (f : A → list B) l : Z.of_nat (length (l ≫= f)) = sum_Z ((λ x, Z.of_nat (length (f x))) <$> l).
Proof using Type. clear Limits Layout_ok. induction l as [|x l IH]; [done|]. rewrite bind_cons, length_app, fmap_cons. cbn [sum_Z]. lia. Qed.

Lemma retained_recoveries_length exempt s : resolver_ok exempt s → Z.of_nat (length (retained_recoveries s)) = rs_column_slots s.
Proof using Type.
  clear Limits Layout_ok. intros Hok. pose proof (ro_totals _ _ _ _ Hok) as (_ & _ & Hs)%totals_agree_spec. unfold retained_recoveries. rewrite length_app, Nat2Z.inj_add, !length_bind, Hs.
  unfold slots_total. f_equal.
  - rewrite (sum_Z_map (λ t, Z.of_nat (length (pending_packet_recovery (pt_packet t))))). apply map_sum_ext. intros q t Hq.
    destruct (ro_txs _ _ _ _ Hok q t Hq) as [[] _]. by rewrite recovery_slots, tk_columns.
  - transitivity (sum_Z ((λ r, Z.of_nat (length (ready_value_recovery (rd_value r)))) <$> (map_to_list (rs_ready s)).*2)); [apply sum_Z_perm, fmap_Permutation, ordered_snd|].
    rewrite (sum_Z_map (λ r, Z.of_nat (length (ready_value_recovery (rd_value r))))). apply map_sum_ext. intros q r Hq.
    destruct (ro_ready _ _ _ _ Hok q r Hq) as [[_ _ (packet & Hst & Hcol)] _]. rewrite (stands_recovery _ _ _ Hst), Hcol, recovery_slots; [done|apply Hst].
Qed.
Lemma elem_of_retained s ev : ev ∈ retained_recoveries s ↔
  (∃ q t, rs_pending s !! q = Some t ∧ ev ∈ pending_packet_recovery (pt_packet t)) ∨ (∃ q r, rs_ready s !! q = Some r ∧ ev ∈ ready_value_recovery (rd_value r)).
Proof using Type.
  clear Limits Layout_ok. unfold retained_recoveries. rewrite elem_of_app, !list_elem_of_bind. split.
  - intros [(t & Hev & ([q t'] & -> & Hin)%list_elem_of_fmap)|(r & Hev & ([q r'] & -> & Hin)%list_elem_of_fmap)].
    + apply elem_of_map_to_list in Hin. left. eauto.
    + unfold ordered in Hin. rewrite merge_sort_Permutation in Hin. apply elem_of_map_to_list in Hin. right. eauto.
  - intros [(q & t & Hin & Hev)|(q & r & Hin & Hev)].
    + left. exists t. split; [done|]. apply list_elem_of_fmap. exists (q, t). split; [done|]. by apply elem_of_map_to_list.
    + right. exists r. split; [done|]. apply list_elem_of_fmap. exists (q, r). split; [done|]. unfold ordered. rewrite merge_sort_Permutation. by apply elem_of_map_to_list.
Qed.

(** Retained work has turned into recoveries. *)
Record recovered s s' : Prop := {
  rc_ok : resolver_ok ∅ s';
  rc_pins : pins_exact [] s';
  rc_kept : kept [] s s';
  rc_pending : rs_pending s' = ∅;
  rc_ready : rs_ready s' = ∅;
  rc_immediate : rs_immediate s' = rs_immediate s;
  rc_resolved : rs_resolved_pending s' = ∅;
  rc_next : rs_next_sequence s' = rs_next_sequence s;
}.

Lemma ewp_recover_retained exempt s (Q : unit → Resolver → Prop) E : resolver_ok exempt s → pins_exact [] s → (∀ s', recovered s s' → Q tt s') →
  ewp (recover_retained_cached_transactions layout limits) s Q E.
Proof using Limits Layout_ok.
  intros Hok Hp HQ. unfold recover_retained_cached_transactions. ewp_step. ewp_step. change (id s) with s. ewp_step. apply (ewp_unpin_pending exempt); [done|done|].
  intros cache Hc Ha Hpc. ewp_step. ewp_step. change (clear_cached (with_cache cache s)) with (clear_all cache s).
  destruct (cleared_idle cache s exempt Hok Hc Ha Hpc) as (Hok1 & Hp1 & _). pose proof (retained_recoveries_length _ _ Hok) as Hlen. pose proof (ro_load _ _ _ _ Hok) as Hl.
  assert (Hl1 : load (clear_all cache s) = Z.of_nat (size (rs_recovery s))) by (unfold load; simpl; lia). unfold load in Hl.
  assert (Hevs : ∀ ev, ev ∈ retained_recoveries s → event_ok ev).
  { intros ev [(q & t & Hq & Hev)|(q & r & Hq & Hev)]%elem_of_retained; [by eapply packet_recovery_ok|].
    destruct (ro_ready _ _ _ _ Hok q r Hq) as [[_ _ (packet & Hst & _)] _]. rewrite (stands_recovery _ _ _ Hst) in Hev. by eapply packet_recovery_ok. }
  assert (Hsame : rs_pending (clear_all cache s) = ∅ ∧ rs_ready (clear_all cache s) = ∅ ∧ rs_resolved_pending (clear_all cache s) = ∅ ∧
    rs_immediate (clear_all cache s) = rs_immediate s ∧ rs_next_sequence (clear_all cache s) = rs_next_sequence s ∧ rs_recovery (clear_all cache s) = rs_recovery s) by done.
  revert Hok1 Hp1 Hl1 Hsame. generalize (clear_all cache s). intros s1 Hok1 Hp1 Hl1 (E1 & E2 & E3 & E4 & E5 & E6).
  ewp_step. apply (ewp_enqueue_all limits xxh64 ∅); [done|done|lia|]. intros v lane Hok2 [Hkeep Hnew] _. rewrite E6 in Hkeep.
  apply (ewp_refresh layout limits xxh64 Layout_ok ∅); [done|]. intros v' n. apply HQ. split; [by apply (resolver_ok_counted ∅ v' n)|exact Hp1|split; simpl|exact E1|exact E2|exact E4|exact E3|exact E5].
  - intros q t Hq. right. right. intros ev Hev. left. apply Hnew, elem_of_retained. eauto.
  - intros q r Hq. right. intros ev Hev. left. apply Hnew, elem_of_retained. eauto.
  - exact Hkeep.
Qed.

Lemma empty_recovered s : resolver_ok ∅ s → pins_exact [] s → rs_resolved_pending s = ∅ → has_cached s = false → recovered s s.
Proof using Type.
  intros Hok Hp Hr Hc. unfold has_cached in Hc. apply orb_false_iff in Hc as [H1 H2]. apply negb_false_iff, bool_decide_eq_true in H1, H2. by split; [..|apply kept_core| | | | |].
Qed.

(** ** Immediate work *)

Definition join_immediate (value : ResolverReady) (bytes : Z) (s : Resolver) : Resolver :=
  let sequence := rs_next_sequence s in
  with_immediate (<[sequence := mk_ready value (ready_value_columns value) bytes sequence]> (rs_immediate s)) (with_sequence (sequence + 1) s).

Lemma join_ok exempt value bytes s : resolver_ok exempt s → 0 ≤ bytes → rs_next_sequence s < USIZE_MAX →
  ready_total (rs_immediate s) + bytes ≤ MAX_CLIENT_BLOB_ORDINARY_READY_BYTES → Z.of_nat (size (rs_immediate s)) < MAX_CLIENT_BLOB_ORDINARY_READY_EVENTS →
  resolver_ok exempt (join_immediate value bytes s).
Proof using Type.
  clear Limits Layout_ok. intros Hok Hb Hn Hmax Hcount. pose proof (ro_next _ _ _ _ Hok) as Hnext.
  assert (Hp : rs_pending s !! rs_next_sequence s = None) by (destruct (rs_pending s !! _) eqn:E; [destruct (ro_txs _ _ _ _ Hok _ _ E); lia|done]).
  assert (Hr : rs_ready s !! rs_next_sequence s = None) by (destruct (rs_ready s !! _) eqn:E; [destruct (ro_ready _ _ _ _ Hok _ _ E) as (_ & ? & _); lia|done]).
  assert (Hi : rs_immediate s !! rs_next_sequence s = None) by (destruct (rs_immediate s !! _) eqn:E; [destruct (ro_immediate _ _ _ _ Hok _ _ E) as (_ & _ & ? & _); lia|done]).
  destruct Hok. split; simpl; try done.
  - intros q t Hq. destruct (ro_txs q t Hq). split; [done|lia].
  - intros q r Hq. destruct (ro_ready q r Hq) as (? & ? & ?). split; [done|]. split; [lia|done].
  - intros q r [[<- <-]|[_ Hq]]%lookup_insert_Some.
    + split; [done|]. split; [done|]. split; [lia|done].
    + destruct (ro_immediate q r Hq) as (? & ? & ? & ? & ?). split; [done|]. split; [done|]. split; [lia|done].
  - unfold ready_total in *. rewrite map_sum_insert by done. simpl. lia.
  - rewrite map_size_insert_None by done. lia.
  - lia.
Qed.

Definition lane_refusal (e : BlobCacheError) : Prop := match e with ByteCountOverflow | OrdinaryLaneFull _ _ _ _ => True | _ => False end.

Lemma ewp_accept_immediate exempt value bytes s (Q : unit → Resolver → Prop) E : resolver_ok exempt s → 0 ≤ bytes → rs_next_sequence s < USIZE_MAX →
  (∀ v n, resolver_ok exempt (with_readings n (with_stats v (join_immediate value bytes s))) → Q tt (with_readings n (with_stats v (join_immediate value bytes s)))) →
  (∀ e v, lane_refusal e → resolver_ok exempt (with_stats v s) → E e (with_stats v s)) → ewp (accept_immediate layout value bytes) s Q E.
Proof using Layout_ok.
  intros Hok Hb Hn HQ HE. assert (Hst : ∀ v, resolver_ok exempt (with_stats v s)) by (intros v; destruct Hok; by split).
  unfold accept_immediate. ewp_step. ewp_step. change (id s) with s. ewp_step. eapply ewp_ok_or; [by apply (ordinary_fits layout limits xxh64 Layout_ok exempt)|].
  pose proof (size_bounds _ _ _ _ Hok) as (_ & _ & _ & _ & Hsz). pose proof (ly_immediate _ Layout_ok) as Hl. unfold small_size in Hl.
  pose proof (immediate_total_nonneg _ _ _ _ Hok) as Hnn. ewp_step. apply ewp_ok_or_case.
  2:{ intros _. rewrite <-(with_same_stats s). by apply HE. }
  intros retained Hret. apply bind_Some in Hret as (partial & [-> _]%checked_add_Some & [-> H2]%checked_add_Some).
  destruct (_ || _) eqn:Hfull.
  { ewp_step. apply ewp_bump. intros v. ewp_step. by apply HE. }
  apply orb_false_iff in Hfull as [Hf1%Z.leb_gt Hf2%Z.ltb_ge]. ewp_step. unfold take_ready_sequence. ewp_step. ewp_step. ewp_step. change (id s) with s.
  eapply ewp_ok_or; [apply checked_add_fits; lia|]. ewp_step. ewp_step. ewp_step. ewp_step. ewp_step. change (with_immediate _ _) with (join_immediate value bytes s).
  assert (Hok' : resolver_ok exempt (join_immediate value bytes s)) by (apply join_ok; [done..|nia|lia]).
  apply (ewp_refresh layout limits xxh64 Layout_ok exempt); [done|]. intros v n. by apply HQ, resolver_ok_counted.
Qed.
End intake.
