(* ===== verification/BlobAcceptSpec.v ===== *)
(** * Admission of cached packets

    A cached packet becomes a pending transaction that waits for its absent bodies, or is refused with a recovery; the
    transaction that just joined survives the pressure it causes or is recovered itself. *)
From stdpp Require Import base numbers list gmap sets sorting.
From S2P Require Import Prelude Effects Counting BlobStore BlobStoreSpec BlobStoreTheorems BlobPackets BlobPacketsSpec BlobResolver BlobResolverInv.
From S2P Require Import BlobResolverSpec BlobIntake BlobIntakeSpec.
#[local] Open Scope Z_scope.

Implicit Types (s : Resolver) (q hash : Z) (t : PendingTransaction) (r : ReadyItem) (cache : CacheStore) (status : BlobCacheStatus) (ev : ChunkResyncEvent).

(** ** The index *)

Lemma index_hash_lookup q hs index hash : foldl (index_hash q) index hs !! hash =
  if decide (hash ∈ hs) then Some ({[q]} ∪ default ∅ (index !! hash)) else index !! hash.
Proof.
  revert index. induction hs as [|h hs IH]; intros index; [by rewrite decide_False by apply not_elem_of_nil|]. cbn [foldl]. rewrite IH. unfold index_hash.
  destruct (decide (hash = h)) as [->|Hne].
  - rewrite lookup_insert_eq, (decide_True (P := h ∈ h :: hs)) by by left. simpl. case_decide; [|done]. f_equal. set_solver.
  - rewrite lookup_insert_ne by done. destruct (decide (hash ∈ hs)) as [Hl|Hl]; [by rewrite (decide_True (P := hash ∈ h :: hs)) by by right|].
    rewrite (decide_False (P := hash ∈ h :: hs)); [done|]. by apply not_elem_of_cons.
Qed.
Lemma waiters_indexed q hs index q0 hash : q0 ∈ waiters (foldl (index_hash q) index hs) hash ↔ q0 ∈ waiters index hash ∨ q0 = q ∧ hash ∈ hs.
Proof. unfold waiters. rewrite index_hash_lookup. case_decide; simpl; set_solver. Qed.

Lemma same_elements_length (l k : list Z) : NoDup l → NoDup k → (∀ x, x ∈ l ↔ x ∈ k) → length l = length k.
Proof. intros. by apply Permutation_length, NoDup_Permutation. Qed.

Lemma nonempty_elem (l : list Z) : l ≠ [] → ∃ x, x ∈ l.
Proof. destruct l as [|x l]; [done|]. exists x. by left. Qed.

(** ** Waiting

    Between calls a transaction waits only for bodies that are absent. Work that adds no body and no waiter keeps that. *)
Definition waits_absent s : Prop := ∀ hash q, q ∈ waiters (rs_pending_by_hash s) hash → body (rs_cache s) hash = None.
Record quiet s s' : Prop := {
  qt_absent hash : body (rs_cache s) hash = None → body (rs_cache s') hash = None;
  qt_waiters q hash : q ∈ waiters (rs_pending_by_hash s') hash → q ∈ waiters (rs_pending_by_hash s) hash;
}.
Lemma quiet_refl s : quiet s s.
Proof. by split. Qed.
Lemma quiet_trans s1 s2 s3 : quiet s1 s2 → quiet s2 s3 → quiet s1 s3.
Proof. intros [] []. split; auto. Qed.
Lemma quiet_waits s s' : quiet s s' → waits_absent s → waits_absent s'.
Proof. intros [Ha Hw] H hash q Hq. by eapply Ha, H, Hw. Qed.
Lemma evolves_quiet xxh64 out s s' : evolves xxh64 out s s' → quiet s s'.
Proof. intros []. by split. Qed.

Section admission.
Context (layout : Layout) (limits : BlobCacheLimits) (xxh64 : Blob → Z) (Limits : limits_ok limits) (Layout_ok : layout_ok layout).
Notation resolver_ok := (resolver_ok limits xxh64).
Notation steady := (steady limits xxh64).
Notation sound := (sound limits xxh64).
Notation kept := (kept xxh64).
Notation evolves := (evolves xxh64).
Implicit Types (E : BlobCacheError → Resolver → Prop).

(** ** Insertion *)

Definition joined q t (hs : list Z) (s : Resolver) : Resolver :=
  with_by_hash (foldl (index_hash q) (rs_pending_by_hash s) hs) (with_order ({[q]} ∪ rs_pending_order s)
    (with_slots (rs_column_slots s + Z.of_nat (length (pt_columns t))) (with_pending_bytes (rs_pending_bytes s + pt_accounted_bytes t)
      (with_pending (<[q := t]> (rs_pending s)) (with_sequence (q + 1) s))))).

(** The transaction of a classified packet. *)
Record fits q t (missing outstanding : list Z) s : Prop := {
  ft_next : rs_next_sequence s = q ∧ q < USIZE_MAX;
  ft_tx : tx_ok t;
  ft_count : cached_count s < MAX_CLIENT_BLOB_PENDING_TRANSACTIONS;
  ft_load : load s + Z.of_nat (length (pt_columns t)) ≤ MAX_CLIENT_BLOB_RECOVERY_READY_EVENTS;
  ft_missing hash : hash ∈ missing ↔ hash ∈ pt_unique_hashes t ∧ body (rs_cache s) hash = None ∧ rs_pending_by_hash s !! hash = None;
  ft_outstanding hash : hash ∈ outstanding ↔ hash ∈ pt_unique_hashes t ∧ body (rs_cache s) hash = None ∧ is_Some (rs_pending_by_hash s !! hash);
  ft_nodup : NoDup (missing ++ outstanding);
  ft_owned : pt_owned_hashes t = missing;
  ft_unresolved : pt_unresolved_hashes t = Z.of_nat (length (missing ++ outstanding));
}.

Section insertion.
Context (q : Z) (t : PendingTransaction) (missing outstanding : list Z) (s : Resolver).
Context (Hok : resolver_ok ∅ s) (Hfits : fits q t missing outstanding s).
Notation hs := (missing ++ outstanding).

Lemma fits_fresh : rs_pending s !! q = None ∧ rs_ready s !! q = None ∧ rs_immediate s !! q = None.
Proof using Hok Hfits.
  clear Limits Layout_ok. destruct (ft_next _ _ _ _ _ Hfits) as [Hn _]. split; [|split].
  - destruct (rs_pending s !! q) eqn:E; [destruct (ro_txs _ _ _ _ Hok _ _ E); lia|done].
  - destruct (rs_ready s !! q) eqn:E; [destruct (ro_ready _ _ _ _ Hok _ _ E) as (_ & ? & _); lia|done].
  - destruct (rs_immediate s !! q) eqn:E; [destruct (ro_immediate _ _ _ _ Hok _ _ E) as (_ & _ & ? & _); lia|done].
Qed.
Lemma fits_absent hash : hash ∈ hs ↔ hash ∈ pt_unique_hashes t ∧ body (rs_cache s) hash = None.
Proof using Hfits.
  rewrite elem_of_app, (ft_missing _ _ _ _ _ Hfits), (ft_outstanding _ _ _ _ _ Hfits). destruct (rs_pending_by_hash s !! hash); naive_solver.
Qed.
Lemma fits_not_waiting hash : q ∉ waiters (rs_pending_by_hash s) hash.
Proof using Hok Hfits. intros Hin. destruct (ro_index _ _ _ _ Hok q hash Hin) as (t' & Ht' & _). destruct fits_fresh as [? _]. congruence. Qed.
Lemma waits_joined q0 hash : q0 ∈ waiters (rs_pending_by_hash (joined q t hs s)) hash ↔ q0 ∈ waiters (rs_pending_by_hash s) hash ∨ q0 = q ∧ hash ∈ hs.
Proof using Type. apply waiters_indexed. Qed.

Lemma joined_ok : resolver_ok {[q]} (joined q t hs s).
Proof using Hok Hfits.
  clear Limits Layout_ok. destruct (ft_next _ _ _ _ _ Hfits) as [Hn Hlt]. destruct fits_fresh as (Hpn & Hrn & Hin). pose proof fits_not_waiting as Hnw. pose proof (ft_tx _ _ _ _ _ Hfits) as Htx.
  pose proof (ro_next _ _ _ _ Hok) as Hnext. pose proof (ro_totals _ _ _ _ Hok) as (H1 & H2 & H3)%totals_agree_spec.
  assert (Hcase : ∀ q0 t0, <[q := t]> (rs_pending s) !! q0 = Some t0 → q0 = q ∧ t0 = t ∨ q0 ≠ q ∧ rs_pending s !! q0 = Some t0).
  { intros q0 t0 [[<- <-]|[? ?]]%lookup_insert_Some; [by left|right; done]. }
  split.
  - exact (ro_cache _ _ _ _ Hok).
  - exact (ro_addressed _ _ _ _ Hok).
  - intros q0 t0 [[-> ->]|[_ H0]]%Hcase; simpl; [split; [done|lia]|]. destruct (ro_txs _ _ _ _ Hok q0 t0 H0). split; [done|lia].
  - simpl. rewrite dom_insert_L, (ro_order _ _ _ _ Hok). done.
  - intros h W HW. simpl in HW. rewrite index_hash_lookup in HW. case_decide; [simplify_eq; clear; set_solver|by eapply ro_nonempty].
  - intros q0 h [Hw|[-> Hh]]%waits_joined.
    + destruct (ro_index _ _ _ _ Hok q0 h Hw) as (t0 & Ht0 & ?). exists t0. split; [|done]. simpl. rewrite lookup_insert_ne by congruence. done.
    + exists t. split; [apply lookup_insert_eq|]. by apply fits_absent in Hh as [? _].
  - intros q0 t0 h [[-> ->]|[_ H0]]%Hcase Hu; rewrite waits_joined.
    + change (rs_cache (joined q t hs s)) with (rs_cache s). destruct (body (rs_cache s) h) eqn:Hb; [left; by eexists|right; right]. split; [done|]. by apply fits_absent.
    + destruct (ro_bodies _ _ _ _ Hok q0 t0 h H0 Hu); [by left|right; by left].
  - intros q0 t0 [[-> ->]|[Hne H0]]%Hcase.
    + rewrite (ft_unresolved _ _ _ _ _ Hfits). f_equal. apply same_elements_length; [apply Hfits|apply NoDup_filter; rewrite (tk_unique _ Htx); apply stable_unique_nodup|].
      intros h. rewrite list_elem_of_filter, waits_joined. split; [intros Hh; split; [by right|by apply fits_absent in Hh as [? _]]|]. intros [[Hw|[_ ?]] _]; [by apply Hnw in Hw|done].
    + rewrite (ro_unresolved _ _ _ _ Hok q0 t0 H0). do 2 f_equal. apply list_filter_iff. intros h. rewrite waits_joined. naive_solver.
  - intros h W HW. simpl in HW. rewrite index_hash_lookup in HW. assert (Hother : ∀ W0, rs_pending_by_hash s !! h = Some W0 → W0 ⊆ W →
      ∃ q0 t0, q0 ∈ W ∧ rs_pending (joined q t hs s) !! q0 = Some t0 ∧ h ∈ pt_owned_hashes t0).
    { intros W0 HW0 Hsub. destruct (ro_owner _ _ _ _ Hok h W0 HW0) as (q0 & t0 & ? & Ht0 & ?). exists q0, t0. split; [by apply Hsub|]. split; [|done]. simpl. rewrite lookup_insert_ne by congruence. done. }
    case_decide as Hh; [|by eapply Hother]. destruct (rs_pending_by_hash s !! h) as [W0|] eqn:HW0; [eapply Hother; [done|simplify_eq; simpl; clear; set_solver]|].
    exists q, t. split; [simplify_eq; clear; set_solver|]. split; [apply lookup_insert_eq|]. rewrite (ft_owned _ _ _ _ _ Hfits). apply (ft_missing _ _ _ _ _ Hfits). by apply fits_absent in Hh as [? ?].
  - intros q0 Hq0. destruct (ro_resolved _ _ _ _ Hok q0 Hq0) as [Hs Hn0]. assert (q0 ≠ q) by (intros ->; rewrite Hpn in Hs; by destruct Hs).
    split; [simpl; by rewrite lookup_insert_ne|]. intros h [Hw|[? _]]%waits_joined; [by apply (Hn0 h)|done].
  - intros q0 [t0 [[-> ->]|[Hne H0]]%Hcase]; [left; by apply elem_of_singleton|right]. destruct (ro_progress _ _ _ _ Hok q0) as [Hx|[?|[h Hh]]]; [by eexists|by apply elem_of_empty in Hx|by left|].
    right. exists h. apply waits_joined. by left.
  - intros q0 r0 Hr. destruct (ro_ready _ _ _ _ Hok q0 r0 Hr) as (? & ? & ?). simpl. split; [done|]. split; [lia|]. rewrite lookup_insert_ne by lia. done.
  - intros q0 r0 Hr. destruct (ro_immediate _ _ _ _ Hok q0 r0 Hr) as (? & ? & ? & ? & ?). simpl. split; [done|]. split; [done|]. split; [lia|]. split; [|done]. rewrite lookup_insert_ne by lia. done.
  - exact (ro_recovery _ _ _ _ Hok).
  - apply totals_agree_spec. simpl. unfold accounted_total, slots_total in *. rewrite !map_sum_insert by done. lia.
  - exact (ro_ready_bytes _ _ _ _ Hok).
  - exact (ro_immediate_bytes _ _ _ _ Hok).
  - exact (ro_immediate_count _ _ _ _ Hok).
  - simpl. lia.
  - pose proof (ft_count _ _ _ _ _ Hfits). unfold cached_count in *. simpl. rewrite map_size_insert_None by done. lia.
  - pose proof (ft_load _ _ _ _ _ Hfits). unfold load in *. simpl. lia.
Qed.
Lemma joined_pins : pins_exact (pt_unique_hashes t) s → pins_exact [] (joined q t hs s).
Proof using Hok Hfits.
  clear Limits Layout_ok. intros Hp h. destruct fits_fresh as (Hpn & _). change (rs_cache (joined q t hs s)) with (rs_cache s). rewrite (Hp h), (decide_False (P := h ∈ [])) by apply not_elem_of_nil.
  simpl. unfold holders. rewrite map_sum_insert by done. lia.
Qed.
Lemma joined_kept : kept [] s (joined q t hs s).
Proof using Hok Hfits.
  clear Limits Layout_ok. destruct fits_fresh as (Hpn & _). split; simpl; [|by left|done]. intros q0 t0 H0. left. exists t0. rewrite lookup_insert_ne by congruence. done.
Qed.
End insertion.

Lemma ewp_insert q t missing outstanding s (Q : unit → Resolver → Prop) E : resolver_ok ∅ s → fits q t missing outstanding s →
  Q tt (joined q t (missing ++ outstanding) s) → ewp (insert_pending q t (missing ++ outstanding)) (with_sequence (q + 1) s) Q E.
Proof using Type.
  clear Limits Layout_ok. intros Hok Hfits HQ. pose proof (ft_tx _ _ _ _ _ Hfits) as Htx. pose proof (ft_load _ _ _ _ _ Hfits) as Hl. pose proof (size_bounds _ _ _ _ Hok) as (Hsz & _ & _ & Hsl & _).
  pose proof (accounted_total_bound _ _ _ _ Hok) as Ha. pose proof (ro_totals _ _ _ _ Hok) as (Hb & _ & _)%totals_agree_spec. pose proof (tk_bytes _ Htx) as Hbytes. pose proof (tk_owned _ Htx) as Howned.
  unfold TX_BYTES, COUNT_BOUND in *. unfold load, MAX_CLIENT_BLOB_RECOVERY_READY_EVENTS in Hl.
  unfold insert_pending. do 4 ewp_step. ewp_step. apply ewp_add_assign; [simpl; unfold USIZE_MAX; lia|]. ewp_step. ewp_step. ewp_step.
  apply ewp_add_assign; [simpl; unfold USIZE_MAX; lia|]. ewp_step. ewp_step. ewp_step. ewp_step. ewp_step. exact HQ.
Qed.

(** ** Settling *)

(** Nothing is lost, nothing waits to be drained. *)
Record settled out s s' : Prop := {
  se_ok : resolver_ok ∅ s';
  se_pins : pins_exact [] s';
  se_resolved : rs_resolved_pending s' = ∅;
  se_kept : kept out s s';
  se_immediate : rs_immediate s' = rs_immediate s;
  se_next : rs_next_sequence s' = rs_next_sequence s;
  se_quiet : quiet s s';
}.
Lemma settled_trans out1 out2 s1 s2 s3 : settled out1 s1 s2 → settled out2 s2 s3 → settled (out1 ++ out2) s1 s3.
Proof using Type. clear Limits Layout_ok. intros [_ _ _ K1 I1 N1 A1] [? ? ? K2 I2 N2 A2]. split; [done..|by eapply kept_trans|congruence|congruence|by eapply quiet_trans]. Qed.
Lemma settled_nil out s1 s2 s3 : settled [] s1 s2 → settled out s2 s3 → settled out s1 s3.
Proof using Type. intros H1 H2. by apply (settled_trans [] out s1 s2). Qed.
Lemma kept_weaken out s s' : kept [] s s' → kept out s s'.
Proof using Type.
  clear Limits Layout_ok. intros [P R L]. assert (Hw : ∀ l : list ChunkResyncEvent, (∀ ev, ev ∈ l → covers (rs_recovery s') ev ∨ ev ∈ []) → ∀ ev, ev ∈ l → covers (rs_recovery s') ev ∨ ev ∈ out).
  { intros l Hl ev Hev. destruct (Hl ev Hev) as [?|H]; [by left|by apply elem_of_nil in H]. }
  split; [intros q t Ht; destruct (P q t Ht) as [?|[?|?]]; [by left|by right; left|right; right; by apply Hw]|intros q r Hr; destruct (R q r Hr); [by left|right; by apply Hw]|done].
Qed.
(** The lane takes over what was to go out. *)
Lemma kept_lane out out' v lane s s' : kept out s s' → (∀ ev, covers (rs_recovery s') ev → covers lane ev) →
  (∀ ev, ev ∈ out → covers lane ev ∨ ev ∈ out') → kept out' s (with_lane v lane s').
Proof using Type.
  clear Limits Layout_ok. intros [P R L] Hlane Hout.
  assert (Hw : ∀ l : list ChunkResyncEvent, (∀ ev, ev ∈ l → covers (rs_recovery s') ev ∨ ev ∈ out) → ∀ ev, ev ∈ l → covers lane ev ∨ ev ∈ out').
  { intros l Hl ev Hev. destruct (Hl ev Hev) as [?|H]; auto. }
  split; simpl; [intros q t Ht; destruct (P q t Ht) as [?|[?|?]]; [by left|by right; left|right; right; by apply Hw]|intros q r Hr; destruct (R q r Hr); [by left|right; by apply Hw]|auto].
Qed.
Lemma settled_weaken out s s' : settled [] s s' → settled out s s'.
Proof using Type. intros []. split; [done..|by apply kept_weaken|done|done|done]. Qed.
Lemma settled_evolves out s s' : resolver_ok ∅ s' → pins_exact [] s' → rs_resolved_pending s' = ∅ → evolves out s s' → settled out s s'.
Proof using Type. intros ? ? ? He. split; [done..|apply He|apply He|apply He|by eapply evolves_quiet]. Qed.

Lemma exempt_drop q s : resolver_ok {[q]} s → (is_Some (rs_pending s !! q) → q ∈ rs_resolved_pending s ∨ ∃ hash, q ∈ waiters (rs_pending_by_hash s) hash) → resolver_ok ∅ s.
Proof using Type.
  clear Limits Layout_ok. intros [] Hq. split; try done. intros q' Hq'. destruct (ro_progress q' Hq') as [->%elem_of_singleton|?]; right; [by apply Hq|done].
Qed.
Lemma exempt_none q s : resolver_ok {[q]} s → rs_pending s !! q = None → resolver_ok ∅ s.
Proof using Type. intros Hok Hn. apply (exempt_drop q); [done|]. rewrite Hn. by intros []. Qed.

(** The status keeps its recovery; the lane takes a second one. *)
Definition status_recovery status (recovery : option ChunkResyncEvent) : option ChunkResyncEvent :=
  match st_recovery status with Some retained => Some retained | None => recovery end.
Lemma set_same_recovery status : set_recovery (st_recovery status) status = status.
Proof using Type. by destruct status. Qed.
Lemma ewp_merge_status exempt status recovery s (Q : BlobCacheStatus → Resolver → Prop) E : resolver_ok exempt s →
  (∀ ev, ev ∈ option_list recovery → event_ok ev) →
  (is_Some (st_recovery status) → load s + Z.of_nat (length (option_list recovery)) ≤ MAX_CLIENT_BLOB_RECOVERY_READY_EVENTS) →
  (∀ v lane, resolver_ok exempt (with_lane v lane s) → (∀ ev, covers (rs_recovery s) ev → covers lane ev) →
    (∀ ev, ev ∈ option_list recovery → covers lane ev ∨ ev ∈ option_list (status_recovery status recovery)) →
    Q (set_recovery (status_recovery status recovery) status) (with_lane v lane s)) →
  ewp (merge_status_recovery status recovery) s Q E.
Proof using Type.
  clear Limits Layout_ok. intros Hok Hev Hl HQ. unfold merge_status_recovery, status_recovery in *. destruct (st_recovery status) as [retained|] eqn:Hst.
  - destruct recovery as [ev|]; simpl in *.
    + ewp_step. unfold enqueue_precounted_recovery. ewp_step. apply (ewp_enqueue_inner limits xxh64 exempt); [done|apply Hev; by left|specialize (Hl ltac:(by eexists)); lia|]. intros fresh v Hok1.
      assert (Hall : ∀ v', Q (set_recovery (Some retained) status) (with_lane v' (merge_into (rs_recovery s) ev) s)).
      { intros v'. apply HQ; [destruct Hok1; by split|by intros; apply merge_keeps|]. intros ev' ->%list_elem_of_singleton. left. apply merge_covers. }
      destruct fresh; [ewp_step; ewp_step; apply (Hall v)|]. ewp_step. ewp_step. apply ewp_set_stat. intros v' _. ewp_step. apply (Hall v').
    + ewp_step. rewrite <-(with_same_lane s). apply HQ; [by rewrite with_same_lane|done|]. intros ev H. by apply elem_of_nil in H.
  - ewp_step. rewrite <-(with_same_lane s). apply HQ; [by rewrite with_same_lane|done|]. by right.
Qed.

Definition same_classes status status' : Prop :=
  st_missing status' = st_missing status ∧ st_have status' = st_have status ∧ st_outstanding status' = st_outstanding status ∧
  ∀ ev, ev ∈ option_list (st_recovery status) → ev ∈ option_list (st_recovery status').
Lemma same_classes_merged status recovery : same_classes status (set_recovery (status_recovery status recovery) status).
Proof using Type. clear Limits Layout_ok. split; [done|]. split; [done|]. split; [done|]. unfold status_recovery. simpl. destruct (st_recovery status); [done|]. intros ev H. by apply elem_of_nil in H. Qed.


Section settle.
Context (q : Z) (t : PendingTransaction) (hs : list Z) (s : Resolver).
Context (Hok : resolver_ok {[q]} s) (Hp : pins_exact [] s) (Hr : rs_resolved_pending s = ∅) (Hq : rs_pending s !! q = Some t) (Hn : rs_next_sequence s = q + 1).
Context (Habsent : ∀ hash, hash ∈ hs → hash ∈ pt_unique_hashes t ∧ body (rs_cache s) hash = None) (Hwaits : ∀ hash, q ∈ waiters (rs_pending_by_hash s) hash → hash ∈ hs).

Lemma newest_not_blocking : q ∉ ready_blockers s.
Proof using Hok Hn Hq.
  clear Limits Layout_ok. unfold ready_blockers. intros ([q' t'] & Hqq & [Hx _]%list_elem_of_filter)%list_elem_of_fmap. simpl in Hqq. rewrite <-Hqq in Hx.
  apply existsb_exists in Hx as ([k r] & Hin & [Hlt%Z.ltb_lt _]%andb_true_iff). apply list_elem_of_In in Hin. unfold ordered in Hin. rewrite merge_sort_Permutation in Hin.
  apply elem_of_map_to_list in Hin. destruct (ro_ready _ _ _ _ Hok k r Hin) as ([] & ? & Hnone). assert (k ≠ q) by (intros Heq; rewrite Heq, Hq in Hnone; done). simpl in *. lia.
Qed.

(** Later states in which the transaction is still pending. *)
Definition remains s' : Prop := steady {[q]} [] s s' ∧ is_Some (rs_pending s' !! q) ∧ rs_ready s' = rs_ready s.
Lemma remains_waits s' : remains s' → hs ≠ [] → ∃ hash, q ∈ waiters (rs_pending_by_hash s') hash.
Proof using Habsent Hok Hq.
  clear Limits Layout_ok. intros [[Hok' _ He _] [[t' Ht'] _]] Hne. destruct (nonempty_elem hs Hne) as [hash Hhash]. exists hash. destruct (Habsent hash Hhash) as [Hin Hb].
  destruct (ev_back _ _ _ _ He q t' Ht') as (t0 & Ht0 & Hpk & _). assert (t0 = t) as -> by congruence.
  destruct (ro_txs _ _ _ _ Hok q t Hq) as [[] _], (ro_txs _ _ _ _ Hok' q t' Ht') as [Htx' _].
  destruct (ro_bodies _ _ _ _ Hok' q t' hash Ht') as [[b Hx]|?]; [|by rewrite (ev_absent _ _ _ _ He hash Hb) in Hx|done].
  rewrite (BlobResolverInv.tk_unique _ Htx'), (BlobResolverInv.tk_hashes _ Htx'), Hpk. by rewrite <-tk_hashes, <-tk_unique.
Qed.
Lemma remains_idle s' : remains s' → hs = [] → ∀ hash, q ∉ waiters (rs_pending_by_hash s') hash.
Proof using Hwaits.
  clear Limits Layout_ok. intros [[_ _ He _] _] Hnil hash Hin%(ev_waiters _ _ _ _ He)%Hwaits. rewrite Hnil in Hin. by apply elem_of_nil in Hin.
Qed.

(** What the status says of the transaction. *)
Record placed s' status : Prop := {
  pc_settled : settled (option_list (st_recovery status)) s s';
  pc_accepted : st_accepted status = true →
    (∃ t', rs_pending s' !! q = Some t' ∧ pt_packet t' = pt_packet t) ∨ (∃ r, rs_ready s' !! q = Some r ∧ stands_for xxh64 (pt_packet t) (rd_value r));
  pc_refused : st_accepted status = false → ∀ ev, ev ∈ pending_packet_recovery (pt_packet t) → covers (rs_recovery s') ev ∨ ev ∈ option_list (st_recovery status);
}.

Lemma placed_drained s' admission status : sound ∅ [] s s' → rs_resolved_pending s' = ∅ → st_accepted status = false →
  placed s' (set_accepted (bool_decide (is_Some (rs_pending s' !! q)) || bool_decide (is_Some (rs_ready s' !! q))) admission status).
Proof using Hok Hq.
  clear Limits Layout_ok. intros [Hok' Hp' He] Hr' _. assert (Hset : settled [] s s') by (by apply settled_evolves). split; simpl.
  - by apply settled_weaken.
  - intros [Hx|Hx]%orb_true_iff; apply bool_decide_eq_true in Hx as [x Hx].
    + left. exists x. split; [done|]. destruct (ev_back _ _ _ _ He q x Hx) as (t0 & Ht0 & ? & _). congruence.
    + right. exists x. split; [done|]. destruct (ev_ready _ _ _ _ He q x Hx) as [Hx0|(t0 & Ht0 & ?)]; [|congruence].
      destruct (ro_ready _ _ _ _ Hok q x Hx0) as (_ & _ & ?). congruence.
  - intros [H1 H2]%orb_false_iff ev Hev. apply bool_decide_eq_false in H1, H2. destruct (kp_pending _ _ _ _ He q t Hq) as [(t' & Ht' & _)|[(r & Hr1 & _)|Hcov]].
    + destruct H1. by eexists.
    + destruct H2. by eexists.
    + destruct (Hcov ev Hev) as [?|Hin]; [by left|by apply elem_of_nil in Hin].
Qed.

Lemma ready_none : rs_ready s !! q = None.
Proof using Hok Hq. clear Limits Layout_ok. destruct (rs_ready s !! q) as [r|] eqn:E; [|done]. destruct (ro_ready _ _ _ _ Hok q r E) as (_ & _ & ?). congruence. Qed.

(** The transaction itself gives way. *)
Lemma ewp_give_way status s1 (Q : BlobCacheStatus → Resolver → Prop) E : st_accepted status = false → remains s1 →
  (∀ s' status', placed s' status' → same_classes status status' → Q status' s') →
  ewp (recovery ← abandon_pending_transaction_with_recovery layout limits q true;
       status ← merge_status_recovery status recovery; _ ← refresh_pending_accounting layout; mret status) s1 Q E.
Proof using All.
  intros Hst (Hs1 & _ & Hrd) HQ. ewp_step. apply (ewp_abandon layout limits xxh64 Limits Layout_ok {[q]}); [apply Hs1|apply Hs1|]. intros out s2 Hok2 Hp2 He2 Hd2 Hr2 Hrd2 _.
  assert (Hq2 : rs_pending s2 !! q = None) by (apply not_elem_of_dom; rewrite Hd2; clear; set_solver). apply exempt_none in Hok2; [|done].
  pose proof (evolves_nil_l _ _ _ _ _ (sd_evolves _ _ _ _ _ _ Hs1) He2) as He. pose proof (ev_load _ _ _ _ He) as Hl. pose proof (ro_load _ _ _ _ Hok) as Hmax.
  assert (Hres : rs_resolved_pending s2 = ∅). { rewrite Hr2. pose proof (sd_resolved _ _ _ _ _ _ Hs1) as Hsub. rewrite Hr in Hsub. clear -Hsub. set_solver. }
  assert (Hnone : rs_ready s2 !! q = None) by (rewrite Hrd2, Hrd; apply ready_none).
  ewp_step. apply (ewp_merge_status ∅); [done|apply (ev_out _ _ _ _ He)|intros _; lia|]. intros v lane Hok3 Hk Hnew.
  pose proof (kept_lane _ (option_list (status_recovery status out)) v lane _ _ (ev_kept _ _ _ _ He) Hk Hnew) as Hkept.
  ewp_step. apply (ewp_refresh layout limits xxh64 Layout_ok ∅); [done|]. intros v' n. ewp_step. apply HQ; [|apply same_classes_merged].
  assert (Hset : settled (option_list (status_recovery status out)) s (with_readings n (with_stats v' (with_lane v lane s2)))).
  { split; [by apply resolver_ok_counted|done|done|destruct Hkept; by split| | |apply evolves_quiet in He as []; by split]; simpl; [by rewrite (ev_immediate _ _ _ _ He)|by rewrite (ev_next _ _ _ _ He)]. }
  split; simpl; [done|by rewrite Hst|]. intros _ ev Hev. destruct (kp_pending _ _ _ _ (se_kept _ _ _ Hset) q t Hq) as [(t' & Ht' & _)|[(r & Hr' & _)|Hcov]]; [simpl in Ht'; congruence|simpl in Hr'; congruence|by apply Hcov].
Qed.

Lemma drained_next s1 : resolver_ok {[q]} s1 → pins_exact [] s1 → evolves [] s s1 → is_Some (rs_pending s1 !! q) → (∀ hash, q ∉ waiters (rs_pending_by_hash s1) hash) →
  sound ∅ [] s (with_resolved ({[q]} ∪ rs_resolved_pending s1) s1).
Proof using Type.
  clear Limits Layout_ok. intros Hok1 Hp1 He Hsome Hidle. split; [|done|].
  - destruct Hok1. split; try done; simpl.
    + intros q' [->%elem_of_singleton|?]%elem_of_union; [by split|by apply ro_resolved].
    + intros q' Hq'. right. destruct (ro_progress q' Hq') as [->%elem_of_singleton|[?|?]]; [left; clear; set_solver|left; clear -H; set_solver|by right].
  - destruct He. split; try done. destruct ev_kept. by split.
Qed.

Lemma ewp_settle admission status (Q : BlobCacheStatus → Resolver → Prop) E : st_accepted status = false →
  (∀ s' status', placed s' status' → same_classes status status' → Q status' s') → (∀ s' exempt, resolver_ok exempt s' → pins_exact [] s' → E ByteCountOverflow s') →
  ewp (settle_admitted layout limits q (Z.of_nat (length hs)) admission status) s Q E.
Proof using All.
  intros Hst HQ HE. unfold settle_admitted. ewp_step. apply (ewp_relieve layout limits xxh64 Limits Layout_ok {[q]}); [done|done|]. intros b s1 Hs1 Hd1 Hrd1.
  assert (Hq1 : is_Some (rs_pending s1 !! q)).
  { apply elem_of_dom, Hd1, elem_of_difference. split; [by apply elem_of_dom|]. rewrite elem_of_list_to_set. apply newest_not_blocking. }
  ewp_step. apply (ewp_refresh_steady layout limits xxh64 Layout_ok {[q]} [] s1 s); [done|]. intros v n Hs2. assert (Hrem : remains (with_readings n (with_stats v s1))) by (by split).
  revert Hrem. clear Hs1 Hs2 Hd1 Hq1 Hrd1. generalize (with_readings n (with_stats v s1)). clear s1 v n. intros s1 Hrem.
  ewp_step. ewp_step. case_match.
  - ewp_step. apply ewp_record_skip. intros v. apply ewp_give_way; [done| |done]. destruct Hrem as (H1 & H2 & H3). split; [by apply steady_bump|done].
  - pose proof Hrem as (Hs1 & Hq1 & Hrd1). assert (Hr1 : rs_resolved_pending s1 = ∅). { pose proof (sd_resolved _ _ _ _ _ _ Hs1) as Hsub. rewrite Hr in Hsub. clear -Hsub. set_solver. }
    assert (Hfinish : ∀ s2, sound ∅ [] s s2 → rs_resolved_pending s2 = ∅ → ewp (s ← eff_gets id;
      mret (set_accepted (bool_decide (is_Some (rs_pending s !! q)) || bool_decide (is_Some (rs_ready s !! q))) admission status)) s2 Q E).
    { intros s2 Hs2 Hr2. ewp_step. ewp_step. ewp_step. apply HQ; [by apply placed_drained|done]. }
    ewp_step. destruct (Z.eqb_spec (Z.of_nat (length hs)) 0) as [Hz|Hz].
    + ewp_step. ewp_step. assert (hs = []) as Hnil by (apply length_zero_iff_nil; lia). pose proof (remains_idle s1 Hrem Hnil) as Hidle.
      set (s2 := with_resolved ({[q]} ∪ rs_resolved_pending s1) s1). assert (Hs2 : sound ∅ [] s s2).
      { apply drained_next; [apply Hs1|apply Hs1|apply Hs1|done..]. }
      apply (ewp_drain_ready layout limits xxh64 Limits Layout_ok ∅ s2 s2); [by apply steady_refl; apply Hs2| |].
      * intros s3 Hs3 Hr3. apply Hfinish; [|done]. eapply sound_nil; [done|by apply steady_sound].
      * intros s3 Hs3. by apply (HE s3 ∅); apply Hs3.
    + ewp_step. assert (hs ≠ []) as Hne by (intros Hnil; rewrite Hnil in Hz; done). apply Hfinish; [|done].
      split; [|apply Hs1|apply Hs1]. apply (exempt_drop q); [apply Hs1|]. intros _. right. by apply remains_waits.
Qed.
End settle.
End admission.

(** ** Cached packets are answered

    Whatever a cached packet meets - pressure, full lanes, absent bodies - it is admitted, or refused with a recovery; what
    was retained before is still pending, ready or covered by a recovery. *)

Implicit Types (packet : PendingPacket).

(** A packet a process can hold. *)
Record input_ok packet : Prop := {
  in_cached : packet_cached packet;
  in_small : packet_small packet;
  in_hashes : Z.of_nat (length (packet_hashes packet)) ≤ COUNT_BOUND;
}.

(** The three lists of a status, read from the cache and the index: what is held, what must be asked for, what some
    transaction already asked for. *)
Record classes (hashes : list Z) s status : Prop := {
  cl_have hash : hash ∈ st_have status ↔ hash ∈ hashes ∧ is_Some (body (rs_cache s) hash);
  cl_missing hash : hash ∈ st_missing status ↔ hash ∈ hashes ∧ body (rs_cache s) hash = None ∧ rs_pending_by_hash s !! hash = None;
  cl_outstanding hash : hash ∈ st_outstanding status ↔ hash ∈ hashes ∧ body (rs_cache s) hash = None ∧ is_Some (rs_pending_by_hash s !! hash);
  cl_once : NoDup (st_missing status ++ st_outstanding status);
}.
Lemma classified_classes hashes s status : classified_as hashes s status → classes hashes s status.
Proof. by intros []. Qed.
(** The same bodies and the same index. *)
Definition same_view s s' : Prop := (∀ hash, body (rs_cache s') hash = body (rs_cache s) hash) ∧ rs_pending_by_hash s' = rs_pending_by_hash s.
Lemma same_view_sym s s' : same_view s s' → same_view s' s.
Proof. by intros []. Qed.
Lemma same_view_quiet s s' : same_view s s' → quiet s s'.
Proof. intros [Hb Hi]. split; intros; by rewrite ?Hb, <-?Hi. Qed.
Lemma classes_view hashes s s' status : same_view s s' → classes hashes s' status → classes hashes s status.
Proof. intros [Hb Hi] []. split; [intros h; by rewrite <-Hb|intros h; by rewrite <-Hb, <-Hi..|done]. Qed.
Lemma classes_same hashes s status status' : classes hashes s status → same_classes status status' → classes hashes s status'.
Proof. intros [] (H1 & H2 & H3 & _). split; by rewrite ?H1, ?H2, ?H3. Qed.

Lemma unadmitted_in packet ev : ev ∈ unadmitted_packet_recovery packet → ev ∈ pending_packet_recovery packet.
Proof. by destruct packet as [p|p]; simpl; [|intros H; apply elem_of_nil in H]. Qed.

Section accept.
Context (layout : Layout) (limits : BlobCacheLimits) (xxh64 : Blob → Z) (Limits : limits_ok limits) (Layout_ok : layout_ok layout).
Notation resolver_ok := (resolver_ok limits xxh64).
Notation steady := (steady limits xxh64).
Notation sound := (sound limits xxh64).
Notation kept := (kept xxh64).
Notation settled := (settled limits xxh64).
Implicit Types (E : BlobCacheError → Resolver → Prop).

(** As [settled], after a packet that may have taken a sequence. *)
Record arrived (out : list ChunkResyncEvent) s s' : Prop := {
  av_ok : resolver_ok ∅ s';
  av_pins : pins_exact [] s';
  av_resolved : rs_resolved_pending s' = ∅;
  av_kept : kept out s s';
  av_immediate : rs_immediate s' = rs_immediate s;
  av_next : rs_next_sequence s ≤ rs_next_sequence s' ≤ rs_next_sequence s + 1;
  av_waits : waits_absent s → waits_absent s';
}.
Lemma settled_arrived out s s' : settled out s s' → arrived out s s'.
Proof using Type. clear Limits Layout_ok. intros [? ? ? ? ? ? Hq]. split; [done..|lia|by apply quiet_waits]. Qed.
Lemma arrived_after out out' s1 s2 s3 : settled out s1 s2 → arrived out' s2 s3 → arrived (out ++ out') s1 s3.
Proof using Type. clear Limits Layout_ok. intros [_ _ _ K1 I1 N1 A1] [? ? ? K2 I2 N2 A2]. split; [done..|by eapply kept_trans|congruence|lia|]. intros H. by eapply A2, quiet_waits. Qed.

(** The answer to a packet that arrives in state [s] and is classified in state [sc]. *)
Record answered packet s sc status s' : Prop := {
  an_arrived : arrived (option_list (st_recovery status)) s s';
  an_accepted : st_accepted status = true →
    (∃ t, rs_pending s' !! rs_next_sequence s = Some t ∧ pt_packet t = packet) ∨
    (∃ r, rs_ready s' !! rs_next_sequence s = Some r ∧ stands_for xxh64 packet (rd_value r));
  an_refused : st_accepted status = false → ∀ ev, ev ∈ unadmitted_packet_recovery packet → covers (rs_recovery s') ev ∨ ev ∈ option_list (st_recovery status);
  an_classes : classes (packet_hashes packet) sc status;
}.

(** Ready for the next packet. *)
Record idle s : Prop := {
  id_ok : resolver_ok ∅ s;
  id_pins : pins_exact [] s;
  id_resolved : rs_resolved_pending s = ∅;
}.
Lemma idle_settled s : idle s → settled [] s s.
Proof using Type. clear Limits Layout_ok. intros []. split; [done..|by apply kept_core|done|done|by apply quiet_refl]. Qed.
Lemma idle_counted v n s : idle s → idle (with_readings n (with_stats v s)).
Proof using Type. clear Limits Layout_ok. intros []. split; [by apply resolver_ok_counted|done|done]. Qed.
Lemma idle_bump v s : idle s → idle (with_stats v s).
Proof using Type. clear Limits Layout_ok. intros []. split; [destruct id_ok0; by split|done|done]. Qed.
Lemma settled_idle out s s' : settled out s s' → idle s'.
Proof using Type. intros []. by split. Qed.

Lemma kept_incl out out' s s' : kept out s s' → (∀ ev, ev ∈ out → ev ∈ out') → kept out' s s'.
Proof using Type.
  clear Limits Layout_ok. intros [P R L] Hout.
  assert (Hw : ∀ l : list ChunkResyncEvent, (∀ ev, ev ∈ l → covers (rs_recovery s') ev ∨ ev ∈ out) → ∀ ev, ev ∈ l → covers (rs_recovery s') ev ∨ ev ∈ out').
  { intros l Hl ev Hev. destruct (Hl ev Hev) as [?|H]; auto. }
  split; [intros q t Ht; destruct (P q t Ht) as [?|[?|?]]; [by left|by right; left|right; right; by apply Hw]|intros q r Hr; destruct (R q r Hr); [by left|right; by apply Hw]|done].
Qed.
Lemma arrived_incl out out' s s' : arrived out s s' → (∀ ev, ev ∈ out → ev ∈ out') → arrived out' s s'.
Proof using Type. intros [] Hout. split; [done..|by eapply kept_incl|done|done|done]. Qed.

(** Earlier steps of the same packet. *)
Lemma answered_after out packet s s1 sc s' status : settled out s s1 → rs_next_sequence s1 = rs_next_sequence s → (∀ ev, ev ∈ out → ev ∈ option_list (st_recovery status)) →
  answered packet s1 sc status s' → answered packet s sc status s'.
Proof using Type.
  clear Limits Layout_ok. intros Hs Hn Hout [H1 H2 H3 H4]. rewrite Hn in H2. split; [|done..]. eapply arrived_incl; [by eapply arrived_after|].
  intros ev [?|?]%elem_of_app; auto.
Qed.

(** ** Refusals *)

Lemma ewp_prepare_unadmitted packet s (Q : option ChunkResyncEvent → Resolver → Prop) E :
  (∀ v, Q (head (unadmitted_packet_recovery packet)) (with_stats v s)) → ewp (prepare_recovery (unadmitted_packet_recovery packet)) s Q E.
Proof using Type.
  clear Limits Layout_ok. intros HQ. destruct packet as [p|p]; simpl; [|ewp_step; rewrite <-(with_same_stats s); apply HQ].
  ewp_step. unfold enqueue_recoveries. cbn [for_each]. ewp_step. ewp_step. apply ewp_bump. intros v. ewp_step. apply HQ.
Qed.
Lemma unadmitted_head packet ev : ev ∈ unadmitted_packet_recovery packet → ev ∈ option_list (head (unadmitted_packet_recovery packet)).
Proof using Type. by destruct packet. Qed.

(** A classification without pins. *)
Lemma ewp_classify_only hashes recovery s s0 out (Q : BlobCacheStatus → Resolver → Prop) E : settled out s0 s →
  (∀ status s', settled out s0 s' → rs_recovery s' = rs_recovery s → classes hashes s status → st_recovery status = recovery → st_accepted status = false → Q status s') →
  ewp (classify_status hashes recovery false) s Q E.
Proof using Type.
  clear Limits Layout_ok. intros Hs HQ. apply (ewp_classify limits xxh64 ∅); [apply Hs|apply Hs|]. intros status v cache Hc Hb Hp Hok Hcl Hrec.
  apply HQ; [|done|by apply classified_classes|done|apply Hcl]. destruct Hs as [? ? ? Hkept ? ? Hq]. split; [done|done|done| |done|done|].
  - destruct Hkept. by split.
  - eapply quiet_trans; [exact Hq|]. by apply same_view_quiet.
Qed.

Lemma ewp_refuse_packet packet s s0 (Q : BlobCacheStatus → Resolver → Prop) E : input_ok packet → settled [] s0 s → same_view s0 s →
  (∀ status s', answered packet s0 s0 status s' → Q status s') → ewp (refuse_packet packet) s Q E.
Proof using Type.
  clear Limits Layout_ok. intros Hin Hs Hview HQ. unfold refuse_packet. ewp_step. apply ewp_bump. intros v. ewp_step. apply ewp_prepare_unadmitted. intros v'.
  rewrite packet_hashes_eq by apply Hin. apply (ewp_classify_only _ _ _ s0 []).
  - eapply (settled_nil _ _ _ _ _ _ Hs), settled_evolves; [|apply Hs|apply Hs|by apply evolves_core].
    change (with_stats v' (with_stats v s)) with (with_stats v' s). by apply (idle_bump v'), (settled_idle _ _ _ Hs).
  - intros status s' Hs' Hl Hpart Hrec Hacc. apply HQ. split; [by apply settled_arrived, settled_weaken|by rewrite Hacc| |by refine (classes_view _ _ _ _ _ Hpart)].
    intros _ ev Hev. right. rewrite Hrec. by apply unadmitted_head.
Qed.

Lemma unpinned_again hashes s : resolver_ok ∅ s → pins_exact (stable_unique hashes) s →
  resolver_ok ∅ (with_cache (unpin_all limits (stable_unique hashes) (rs_cache s)) s) ∧ pins_exact [] (with_cache (unpin_all limits (stable_unique hashes) (rs_cache s)) s).
Proof using Limits.
  intros Hok Hp. destruct (unpin_all_ok limits (stable_unique hashes) (rs_cache s) Limits (ro_cache _ _ _ _ Hok)) as [Hc Hu].
  assert (Hpin : ∀ k, pin_count (unpin_all limits (stable_unique hashes) (rs_cache s)) k = holders (rs_pending s) k).
  { intros k. rewrite (up_pins _ _ _ Hu), (Hp k), count_occ_nodup by apply stable_unique_nodup. pose proof (holders_nonneg (rs_pending s) k). case_decide; lia. }
  split; [apply resolver_ok_cache; [done|done| |]|].
  - intros k e He%(up_sub _ _ _ Hu). by eapply (ro_addressed _ _ _ _ Hok).
  - intros q t hash Hq Hin Hb. unfold body. rewrite (up_kept _ _ _ Hu); [done|]. right. left. specialize (Hpin hash). pose proof (holders_lookup _ _ _ _ Hq Hin).
    unfold pin_count in Hpin. destruct (cs_pins _ !! hash); [by eexists|]. simpl in Hpin. lia.
  - intros k. rewrite decide_False by apply not_elem_of_nil. simpl. rewrite Hpin. lia.
Qed.

Lemma unpinned_absent hashes s hash : resolver_ok ∅ s → body (rs_cache s) hash = None → body (unpin_all limits (stable_unique hashes) (rs_cache s)) hash = None.
Proof using Limits.
  intros Hok Hb. destruct (unpin_all_ok limits (stable_unique hashes) (rs_cache s) Limits (ro_cache _ _ _ _ Hok)) as [_ Hu].
  unfold body. destruct (cs_entries (unpin_all limits (stable_unique hashes) (rs_cache s)) !! hash) as [e|] eqn:He; [|done]. apply (up_sub _ _ _ Hu) in He. unfold body in Hb. by rewrite He in Hb.
Qed.

Lemma ewp_refuse_staged packet status s s0 (Q : BlobCacheStatus → Resolver → Prop) E : input_ok packet → resolver_ok ∅ s → pins_exact (stable_unique (packet_hashes packet)) s →
  rs_resolved_pending s = ∅ → kept [] s0 s → rs_immediate s = rs_immediate s0 → rs_next_sequence s = rs_next_sequence s0 →
  same_view s0 s → (is_Some (st_recovery status) → load s < MAX_CLIENT_BLOB_RECOVERY_READY_EVENTS) → st_accepted status = false → classes (packet_hashes packet) s0 status →
  (∀ status' s', answered packet s0 s0 status' s' → same_classes status status' → Q status' s') →
  ewp (refuse_staged layout limits packet (stable_unique (packet_hashes packet)) status) s Q E.
Proof using Limits Layout_ok.
  intros Hin Hok Hp Hr Hk Hi Hn Hview Hl Hacc Hpart HQ. pose proof (λ hash, unpinned_absent (packet_hashes packet) s hash Hok) as Habs. destruct (unpinned_again _ _ Hok Hp) as [Hok1 Hp1]. unfold refuse_staged. ewp_step. ewp_step.
  assert (Hset : settled [] s0 (with_cache (unpin_all limits (stable_unique (packet_hashes packet)) (rs_cache s)) s)).
  { split; [done|done|done|destruct Hk; by split|done|done|]. eapply quiet_trans; [by apply same_view_quiet|]. by split. }
  assert (Hload : load (with_cache (unpin_all limits (stable_unique (packet_hashes packet)) (rs_cache s)) s) = load s) by done. rewrite <-Hload in Hl.
  revert Hset Hl. generalize (with_cache (unpin_all limits (stable_unique (packet_hashes packet)) (rs_cache s)) s). clear Habs. clear dependent s. intros s Hset Hl.
  ewp_step. apply ewp_record_skip. intros v1. ewp_step. apply ewp_bump. intros v2. ewp_step. apply ewp_prepare_unadmitted. intros v3.
  change (with_stats v3 _) with (with_stats v3 s). ewp_step. apply (ewp_merge_status limits xxh64 ∅).
  { apply (idle_bump v3 s), (settled_idle _ _ _ Hset). }
  { intros ev Hev. apply (packet_recovery_ok packet), unadmitted_in. destruct (unadmitted_packet_recovery packet) as [|ev' l]; simpl in Hev; [by apply elem_of_nil in Hev|]. apply list_elem_of_singleton in Hev. subst. by left. }
  { intros Hs. specialize (Hl Hs). change (load (with_stats v3 s)) with (load s). assert (length (option_list (head (unadmitted_packet_recovery packet))) ≤ 1)%nat by (destruct (unadmitted_packet_recovery packet); simpl; lia). lia. }
  intros v lane Hok1 Hkeep Hnew. ewp_step. apply (ewp_refresh layout limits xxh64 Layout_ok ∅); [done|]. intros v' n. ewp_step. apply HQ; [|apply same_classes_merged].
  pose proof (kept_lane xxh64 _ (option_list (status_recovery status (head (unadmitted_packet_recovery packet)))) v lane _ _ (se_kept _ _ _ _ _ Hset) Hkeep ltac:(intros ev H; by apply elem_of_nil in H)) as Hkept.
  split; simpl.
  - apply settled_arrived. split; [by apply resolver_ok_counted|apply Hset|apply Hset|destruct Hkept; by split|apply Hset|apply Hset|].
    destruct (se_quiet _ _ _ _ _ Hset). by split.
  - by rewrite Hacc.
  - intros _ ev Hev. by apply Hnew, unadmitted_head.
  - eapply classes_same; [done|apply same_classes_merged].
Qed.

(** ** Admission *)

Lemma classified_length packet s status : classified_as (packet_hashes packet) s status → input_ok packet → Z.of_nat (length (st_missing status ++ st_outstanding status)) ≤ COUNT_BOUND.
Proof using Type.
  clear Limits Layout_ok. intros [] [_ _ Hlen]. etrans; [|exact Hlen]. apply inj_le, submseteq_length, NoDup_submseteq; [done|].
  intros hash [?%ca_missing|?%ca_outstanding]%elem_of_app; tauto.
Qed.

Definition admitted_tx packet status capacity accounted : PendingTransaction :=
  mk_pending packet (packet_hashes packet) (stable_unique (packet_hashes packet)) (st_missing status) capacity
    (Z.of_nat (length (st_missing status ++ st_outstanding status))) (st_staged_bytes status) (pending_packet_columns packet) (accounted + capacity * 8).

Lemma admitted_fits packet status capacity accounted s : input_ok packet → classified_as (packet_hashes packet) s status → 0 ≤ capacity ≤ COUNT_BOUND → 0 ≤ accounted ≤ TX_BYTES →
  st_staged_bytes status ≤ MAX_CLIENT_BLOB_STAGED_BYTES_PER_TRANSACTION → rs_next_sequence s < USIZE_MAX → cached_count s < MAX_CLIENT_BLOB_PENDING_TRANSACTIONS →
  load s + Z.of_nat (length (pending_packet_columns packet)) ≤ MAX_CLIENT_BLOB_RECOVERY_READY_EVENTS →
  fits (rs_next_sequence s) (admitted_tx packet status capacity accounted) (st_missing status) (st_outstanding status) s.
Proof using Type.
  clear Limits Layout_ok. intros [] Hcl Hcap Hacc Hst Hn Hc Hl. pose proof (ca_staged _ _ _ Hcl). unfold TX_BYTES, COUNT_BOUND in *. split; simpl; try done.
  - split; simpl; try done; unfold TX_BYTES, COUNT_BOUND; lia.
  - intros hash. rewrite elem_of_stable_unique. apply Hcl.
  - intros hash. rewrite elem_of_stable_unique. apply Hcl.
  - apply Hcl.
Qed.

Lemma placed_answered packet accounted status status' s s0 s' capacity n : kept [] s0 s → rs_immediate s = rs_immediate s0 → rs_next_sequence s0 = rs_next_sequence s →
  same_view s0 s → classes (packet_hashes packet) s0 status → same_classes status status' →
  kept [] (with_readings n s) (joined (rs_next_sequence s) (admitted_tx packet status capacity accounted) (st_missing status ++ st_outstanding status) (with_readings n s)) →
  placed limits xxh64 (rs_next_sequence s) (admitted_tx packet status capacity accounted)
    (joined (rs_next_sequence s) (admitted_tx packet status capacity accounted) (st_missing status ++ st_outstanding status) (with_readings n s)) s' status' →
  answered packet s0 s0 status' s'.
Proof using Type.
  clear Limits Layout_ok. intros Hk Hi Hn Hview Hcl Hsame Hk2 [[? ? ? ? Himm Hnext Hquiet] Hacc Href]. split.
  - split; [done|done|done| |by rewrite Himm|rewrite Hnext; simpl; lia|].
    2:{ intros Hw. apply (quiet_waits _ _ Hquiet). apply (quiet_waits _ _ (same_view_quiet _ _ Hview)) in Hw. destruct (classes_view _ s s0 status (same_view_sym _ _ Hview) Hcl) as [_ Hmi Hou _].
        intros hash q [Hq|[_ [Hm|Ho]%elem_of_app]]%waits_joined; [by apply (Hw hash q)|by apply Hmi in Hm as (_ & ? & _)|by apply Hou in Ho as (_ & ? & _)]. }
    eapply (kept_trans _ [] _ s0 s); [done|]. eapply (kept_trans _ [] _ s); [|done]. destruct Hk2. by split.
  - rewrite Hn. exact Hacc.
  - intros Hf ev Hev. by apply Href, unadmitted_in.
  - by eapply classes_same.
Qed.

Lemma ewp_admit packet accounted status s s0 (Q : BlobCacheStatus → Resolver → Prop) E : input_ok packet → resolver_ok ∅ s → pins_exact (stable_unique (packet_hashes packet)) s →
  rs_resolved_pending s = ∅ → kept [] s0 s → rs_immediate s = rs_immediate s0 → rs_next_sequence s0 = rs_next_sequence s → same_view s0 s → classified_as (packet_hashes packet) s status →
  0 ≤ accounted ≤ TX_BYTES → st_staged_bytes status ≤ MAX_CLIENT_BLOB_STAGED_BYTES_PER_TRANSACTION → rs_next_sequence s < USIZE_MAX → cached_count s < MAX_CLIENT_BLOB_PENDING_TRANSACTIONS →
  load s + Z.of_nat (length (pending_packet_columns packet)) ≤ MAX_CLIENT_BLOB_RECOVERY_READY_EVENTS →
  (∀ status' s', answered packet s0 s0 status' s' → same_classes status status' → Q status' s') → (∀ s' exempt, resolver_ok exempt s' → pins_exact [] s' → E ByteCountOverflow s') →
  ewp (admit_packet layout limits packet (packet_hashes packet) (stable_unique (packet_hashes packet)) (pending_packet_columns packet) accounted status) s Q E.
Proof using Limits Layout_ok.
  intros Hin Hok Hp Hr Hk Hi Hn0 Hview Hcl Hacc Hst Hn Hc Hl HQ HE. pose proof (classified_length _ _ _ Hcl Hin) as Hlen. unfold COUNT_BOUND in Hlen. rewrite length_app in Hlen.
  unfold admit_packet. ewp_step. apply (ewp_read_capacity _ Layout_ok). intros capacity n Hcap. ewp_step.
  assert (Hcap' := Hcap). assert (Hacc' := Hacc). unfold COUNT_BOUND, TX_BYTES in Hcap', Hacc'.
  eapply ewp_ok_or; [rewrite checked_mul_fits by (unfold USIZE_MAX; lia); simpl; apply checked_add_fits; unfold USIZE_MAX; lia|].
  assert (Hok1 : resolver_ok ∅ (with_readings n s)) by (destruct Hok; by split).
  ewp_step. unfold slots_full. ewp_step. apply (ewp_slot_count limits xxh64 ∅); [done|]. change (load (with_readings n s)) with (load s).
  pose proof (size_bounds _ _ _ _ Hok) as (_ & _ & Hsz & Hsl & _). assert (0 ≤ load s) by (unfold load; lia). unfold MAX_CLIENT_BLOB_RECOVERY_READY_EVENTS in Hl.
  rewrite sat_add_small by (unfold USIZE_MAX; lia). ewp_step. ewp_step.
  assert (Hfull : (MAX_CLIENT_BLOB_RECOVERY_READY_EVENTS <? load s + Z.of_nat (length (pending_packet_columns packet))) = false) by (apply Z.ltb_ge; unfold MAX_CLIENT_BLOB_RECOVERY_READY_EVENTS; lia).
  rewrite Hfull. unfold debug_assert. cbn [negb]. ewp_step. ewp_step. unfold take_ready_sequence. ewp_step. ewp_step. ewp_step.
  change (rs_next_sequence (id (with_readings n s))) with (rs_next_sequence s). eapply ewp_ok_or; [apply checked_add_fits; lia|]. ewp_step. ewp_step. ewp_step.
  rewrite sat_add_small by (unfold USIZE_MAX; lia). rewrite <-Nat2Z.inj_add, <-length_app.
  assert (Hfits : fits (rs_next_sequence s) (admitted_tx packet status capacity accounted) (st_missing status) (st_outstanding status) (with_readings n s)).
  { apply (admitted_fits packet status capacity accounted (with_readings n s)); try done. destruct Hcl; by split. }
  change (with_sequence (rs_next_sequence s + 1) (with_readings n s)) with (with_sequence (rs_next_sequence s + 1) (with_readings n s)).
  ewp_step. eapply (ewp_insert limits xxh64 (rs_next_sequence s) (admitted_tx packet status capacity accounted) _ _ (with_readings n s)); [done|done|].
  pose proof (joined_ok limits xxh64 _ _ _ _ _ Hok1 Hfits) as Hok2. pose proof (joined_pins limits xxh64 _ _ _ _ _ Hok1 Hfits Hp) as Hp2. pose proof (joined_kept limits xxh64 _ _ _ _ _ Hok1 Hfits) as Hk2.
  eapply (ewp_settle layout limits xxh64 Limits Layout_ok _ (admitted_tx packet status capacity accounted) (st_missing status ++ st_outstanding status));
    [done|done|done|apply lookup_insert_eq|done| | |apply Hcl| |done].
  - intros hash Hin'. by apply (fits_absent _ _ _ _ _ Hfits).
  - intros hash [Hw|[_ ?]]%waits_joined; [|done]. by apply (fits_not_waiting limits xxh64 _ _ _ _ _ Hok1 Hfits) in Hw.
  - intros s' status' Hpl Hsame. apply HQ; [|done]. apply (placed_answered packet accounted status status' s s0 s' capacity n); try done. by eapply classes_view, classified_classes.
Qed.

Lemma ewp_classify_admit packet accounted pressure_recovery s (Q : BlobCacheStatus → Resolver → Prop) E : input_ok packet → idle s → 0 ≤ accounted ≤ TX_BYTES →
  rs_next_sequence s < USIZE_MAX → cached_count s < MAX_CLIENT_BLOB_PENDING_TRANSACTIONS →
  load s + Z.of_nat (length (pending_packet_columns packet)) ≤ MAX_CLIENT_BLOB_RECOVERY_READY_EVENTS →
  (is_Some pressure_recovery → load s < MAX_CLIENT_BLOB_RECOVERY_READY_EVENTS) →
  (∀ status s', answered packet s s status s' → (∀ ev, ev ∈ option_list pressure_recovery → ev ∈ option_list (st_recovery status)) → Q status s') →
  (∀ s' exempt, resolver_ok exempt s' → pins_exact [] s' → E ByteCountOverflow s') →
  ewp (classify_and_admit layout limits packet (packet_hashes packet) (stable_unique (packet_hashes packet)) (pending_packet_columns packet) accounted pressure_recovery) s Q E.
Proof using Limits Layout_ok.
  intros Hin Hs Hacc Hn Hc Hl Hpr HQ HE. unfold classify_and_admit. ewp_step. rewrite packet_hashes_eq by apply Hin.
  apply (ewp_classify limits xxh64 ∅); [apply Hs|apply Hs|]. intros status v cache Hcache Hbody Hp1 Hok1 Hcl Hrec.
  assert (Hview : same_view s (with_stats v (with_cache cache s))) by (by split).
  pose proof (kept_counted xxh64 v cache s) as Hk1. pose proof (id_resolved _ Hs) as Hr1.
  assert (Hcl1 : classified_as (packet_hashes packet) (with_stats v (with_cache cache s)) status).
  { destruct Hcl. split; try done; simpl; intros hash; by rewrite Hbody. }
  assert (Hsame : rs_immediate (with_stats v (with_cache cache s)) = rs_immediate s ∧ rs_next_sequence (with_stats v (with_cache cache s)) = rs_next_sequence s ∧
    cached_count (with_stats v (with_cache cache s)) = cached_count s ∧ load (with_stats v (with_cache cache s)) = load s ∧
    rs_resolved_pending (with_stats v (with_cache cache s)) = ∅) by done.
  unfold pinned_for in Hp1. revert Hk1 Hcl1 Hsame Hp1 Hok1 Hview. generalize (with_stats v (with_cache cache s)). clear Hcl Hbody Hcache cache v. intros s1 Hk1 Hcl1 (Hi1 & Hn1 & Hc1 & Hl1 & Hrs1) Hp1 Hok1 Hview.
  assert (Hfinish : ∀ status' s', answered packet s s status' s' → same_classes status status' → Q status' s').
  { intros status' s' Ha (_ & _ & _ & Hkeep). apply HQ; [done|]. by rewrite <-Hrec. }
  ewp_step. ewp_step. change (id s1) with s1. destruct (_ || _) eqn:Hbig.
  - apply (ewp_refuse_staged packet status s1 s); try done; [by rewrite Hrec, Hl1|apply Hcl1|by eapply classes_view, classified_classes].
  - apply orb_false_iff in Hbig as [Hst%Z.ltb_ge _]. apply (ewp_admit packet accounted status s1 s); try done; [by rewrite Hn1|by rewrite Hc1|by rewrite Hl1].
Qed.

Lemma ewp_refuse_under_pressure packet (pressure : bool) s (Q : BlobCacheStatus → Resolver → Prop) E : input_ok packet → idle s →
  (∀ status s', answered packet s s status s' → Q status s') → ewp (refuse_under_pressure packet pressure) s Q E.
Proof using Type.
  clear Limits Layout_ok. intros Hin Hs HQ. assert (Hset : ∀ v, settled [] s (with_stats v s)).
  { intros v. pose proof (idle_settled _ (idle_bump v s Hs)) as []. split; [done..| |done|done|by split]. by apply kept_core. }
  unfold refuse_under_pressure. ewp_step. apply ewp_bump. intros v. ewp_step. destruct pressure; simpl.
  - ewp_step. by apply (ewp_refuse_packet packet _ s).
  - apply ewp_bump. intros v'. apply (ewp_refuse_packet packet _ s); [done|apply (Hset v')|done|done].
Qed.

Lemma ewp_admit_unless_full packet accounted (pressure : bool) pressure_recovery s (Q : BlobCacheStatus → Resolver → Prop) E : input_ok packet → idle s → 0 ≤ accounted ≤ TX_BYTES →
  rs_next_sequence s < USIZE_MAX →
  (is_Some pressure_recovery → cached_count s < MAX_CLIENT_BLOB_PENDING_TRANSACTIONS ∧ load s < MAX_CLIENT_BLOB_RECOVERY_READY_EVENTS ∧
    load s + Z.of_nat (length (pending_packet_columns packet)) ≤ MAX_CLIENT_BLOB_RECOVERY_READY_EVENTS) →
  (∀ status s', answered packet s s status s' → (∀ ev, ev ∈ option_list pressure_recovery → ev ∈ option_list (st_recovery status)) → Q status s') →
  (∀ s' exempt, resolver_ok exempt s' → pins_exact [] s' → E ByteCountOverflow s') →
  ewp (admit_unless_full layout limits packet (packet_hashes packet) (stable_unique (packet_hashes packet)) (pending_packet_columns packet) accounted pressure pressure_recovery) s Q E.
Proof using Limits Layout_ok.
  intros Hin Hs Hacc Hn Hpr HQ HE. pose proof (size_bounds _ _ _ _ (id_ok _ Hs)) as (_ & _ & Hsz & Hsl & _).
  pose proof (cached_count_eq _ _ _ _ (id_ok _ Hs)) as Hcount. assert (Hload : Z.of_nat (size (rs_recovery s)) ≤ load s) by (unfold load; lia).
  assert (Hrefuse : (cached_count s < MAX_CLIENT_BLOB_PENDING_TRANSACTIONS → load s < MAX_CLIENT_BLOB_RECOVERY_READY_EVENTS →
      load s + Z.of_nat (length (pending_packet_columns packet)) ≤ MAX_CLIENT_BLOB_RECOVERY_READY_EVENTS → False) → ewp (refuse_under_pressure packet pressure) s Q E).
  { intros Hfull. apply ewp_refuse_under_pressure; [done|done|]. intros status s' Ha. apply HQ; [done|]. destruct pressure_recovery as [ev|]; [|intros ev H; by apply elem_of_nil in H].
    exfalso. destruct Hpr as (? & ? & ?); [by eexists|]. by apply Hfull. }
  unfold admit_unless_full. ewp_step. ewp_step. change (id s) with s. ewp_step. unfold transactions_full. rewrite Hcount. destruct (_ || _) eqn:Hfull.
  - ewp_step. apply Hrefuse. intros. apply orb_true_iff in Hfull as [?%Z.leb_le|?%Z.leb_le]; lia.
  - apply orb_false_iff in Hfull as [Hc%Z.leb_gt Hr%Z.leb_gt]. unfold slots_full. ewp_step. apply (ewp_slot_count limits xxh64 ∅); [apply Hs|]. ewp_step.
    destruct (Z.ltb_spec MAX_CLIENT_BLOB_RECOVERY_READY_EVENTS (sat_add (load s) (Z.of_nat (length (pending_packet_columns packet))))) as [Hx|Hx].
    + apply Hrefuse. intros. unfold sat_add, USIZE_MAX in Hx. lia.
    + unfold MAX_CLIENT_BLOB_RECOVERY_READY_EVENTS in Hx. assert (0 ≤ load s) by lia.
      assert (load s + Z.of_nat (length (pending_packet_columns packet)) ≤ 2048) by (unfold sat_add, USIZE_MAX in Hx; lia).
      apply ewp_classify_admit; try done. intros Hsome. by apply Hpr.
Qed.

Lemma ewp_refuse_after_rotation packet recovery s (Q : BlobCacheStatus → Resolver → Prop) E : input_ok packet → idle s → load s < MAX_CLIENT_BLOB_RECOVERY_READY_EVENTS →
  (∀ status s', answered packet s s status s' → st_recovery status = Some recovery → Q status s') → ewp (refuse_after_rotation layout packet recovery) s Q E.
Proof using Layout_ok.
  intros Hin Hs Hl HQ. unfold refuse_after_rotation. ewp_step. apply ewp_bump. intros v. ewp_step. apply ewp_bump. intros v'. ewp_step.
  assert (Hlen : (length (unadmitted_packet_recovery packet) ≤ 1)%nat) by (destruct packet; simpl; lia).
  apply (ewp_enqueue_all limits xxh64 ∅); [exact (id_ok _ (idle_bump v' s Hs))|intros ev Hev; by apply (packet_recovery_ok packet), unadmitted_in| |].
  { change (load (with_stats v' (with_stats v s))) with (load s). lia. }
  intros v1 lane Hok1 [Hkeep Hnew] _. ewp_step. apply (ewp_refresh layout limits xxh64 Layout_ok ∅); [done|]. intros v2 n. rewrite packet_hashes_eq by apply Hin.
  apply (ewp_classify_only _ _ _ s []).
  - split; [by apply resolver_ok_counted|apply Hs|apply Hs| |done|done|by split]. split; simpl; [eauto|by left|done].
  - intros status s' Hs' Hl' Hpart Hrec Hacc. apply HQ; [|done]. split; [by apply settled_arrived, settled_weaken|by rewrite Hacc| |by refine (classes_view _ _ _ _ _ Hpart)]. intros _ ev Hev. left. rewrite Hl'. by apply Hnew.
Qed.

(** ** Pressure *)

(** The packet does not fit beside what is retained. *)
Definition pressed packet s : Prop :=
  MAX_CLIENT_BLOB_PENDING_TRANSACTIONS ≤ cached_count s ∨ MAX_CLIENT_BLOB_RECOVERY_READY_EVENTS < load s + Z.of_nat (length (pending_packet_columns packet)).
(** Its bodies, all cached, are more than a rebuilt packet may have. *)
Definition oversized packet s : Prop :=
  ∃ bytes, projected_reconstruction_bytes (rs_cache s) packet (packet_hashes packet) = Ok (Some bytes) ∧ MAX_CLIENT_BLOB_RECONSTRUCTED_BYTES < bytes.
(** A level chunk whose hashes do not match its section count. *)
Definition malformed packet : Prop :=
  match packet with PendingLevelChunk p => Z.of_nat (length (lc_metadata p)) ≠ lc_sub_chunks_count p + 1 | PendingSubChunk _ => False end.
(** The state in which a packet that arrives in [s] is classified: [s] itself, or under pressure the one in which the oldest
    transaction has given way ([n] counts the sizes read before). *)
Inductive classified_in packet s : Resolver → Prop :=
  | classified_here : malformed packet ∨ oversized packet s ∨ ¬ pressed packet s → classified_in packet s s
  | classified_relieved n out sc : ¬ malformed packet → ¬ oversized packet s → pressed packet s →
      rotate_under_pressure layout limits true (with_readings n s) = Some (Ok out, sc) → classified_in packet s sc.

(** A transaction may have given way; its recovery is handed out. *)
Record rotated (out : option ChunkResyncEvent) s s' : Prop := {
  rt_settled : settled (option_list out) s s';
  rt_next : rs_next_sequence s' = rs_next_sequence s;
  rt_load : load s' + Z.of_nat (length (option_list out)) ≤ load s;
}.
Lemma ewp_eqn {A} (m : R A) s (Q : A → Resolver → Prop) E : ewp m s (λ a s', m s = Some (Ok a, s') → Q a s') E → ewp m s Q E.
Proof using Type. clear Limits Layout_ok. unfold ewp. destruct (m s) as [[[a|e] s']|]; auto. Qed.
Lemma ewp_rotate_under_pressure (pressure : bool) s (Q : option ChunkResyncEvent → Resolver → Prop) E : idle s →
  (∀ out s', rotated out s s' → (if pressure then rotate_under_pressure layout limits true s = Some (Ok out, s') else s' = s) → Q out s') →
  ewp (rotate_under_pressure layout limits pressure) s Q E.
Proof using Limits Layout_ok.
  intros Hs HQ. assert (Hnone : ∀ v, rotated None s (with_stats v s)).
  { intros v. split; [|done|unfold load; simpl; lia]. pose proof (idle_settled _ (idle_bump v s Hs)) as []. split; [done..| |done|done|by split]. by apply kept_core. }
  destruct pressure; [|unfold rotate_under_pressure; ewp_step; apply HQ; [|done]; specialize (Hnone (rs_stats s)); by rewrite with_same_stats in Hnone].
  apply ewp_eqn. revert HQ. generalize (λ out s', rotate_under_pressure layout limits true s = Some (Ok out, s')). intros Ran HQ. unfold rotate_under_pressure.
  ewp_step. apply ewp_bump. intros v. ewp_step. ewp_step. case_match; [|ewp_step; intros Hran; by apply (HQ _ _ (Hnone v))].
  pose proof (idle_bump v s Hs) as []. apply (ewp_rotate layout limits xxh64 Limits Layout_ok ∅); [done|done|]. intros out s' [Hok Hp He Hr] Hran. apply HQ; [|exact Hran].
  split; [split; [done|done| |destruct (ev_kept _ _ _ _ He); by split| | |apply evolves_quiet in He as []; by split]|by rewrite (ev_next _ _ _ _ He)|by apply (ev_load _ _ _ _ He)].
  - rewrite id_resolved0 in Hr. clear -Hr. set_solver.
  - by rewrite (ev_immediate _ _ _ _ He).
  - by rewrite (ev_next _ _ _ _ He).
Qed.

Lemma pressed_spec packet s : idle s →
  transactions_full s || (MAX_CLIENT_BLOB_RECOVERY_READY_EVENTS <? sat_add (load s) (Z.of_nat (length (pending_packet_columns packet)))) = true ↔ pressed packet s.
Proof using Type.
  clear Limits Layout_ok. intros Hs. pose proof (size_bounds _ _ _ _ (id_ok _ Hs)) as (_ & _ & _ & Hsl & _). pose proof (ro_load _ _ _ _ (id_ok _ Hs)) as Hmax.
  assert (0 ≤ load s) by (unfold load; lia). unfold transactions_full, pressed, sat_add, USIZE_MAX, MAX_CLIENT_BLOB_RECOVERY_READY_EVENTS in *.
  rewrite (cached_count_eq _ _ _ _ (id_ok _ Hs)), orb_true_iff, Z.leb_le, Z.ltb_lt. lia.
Qed.

Lemma ewp_admit_under_pressure packet accounted s (Q : BlobCacheStatus → Resolver → Prop) E : input_ok packet → idle s → 0 ≤ accounted ≤ TX_BYTES →
  rs_next_sequence s < USIZE_MAX →
  (∀ sc status s', (¬ pressed packet s ∧ sc = s ∨ pressed packet s ∧ ∃ out, rotate_under_pressure layout limits true s = Some (Ok out, sc)) → answered packet s sc status s' → Q status s') →
  (∀ s' exempt, resolver_ok exempt s' → pins_exact [] s' → E ByteCountOverflow s') →
  ewp (admit_under_pressure layout limits packet (packet_hashes packet) (stable_unique (packet_hashes packet)) accounted) s Q E.
Proof using Limits Layout_ok.
  intros Hin Hs Hacc Hn HQ HE. unfold admit_under_pressure. ewp_step. ewp_step. change (id s) with s. ewp_step. unfold slots_full at 1. ewp_step.
  apply (ewp_slot_count limits xxh64 ∅); [apply Hs|]. ewp_step. ewp_step. pose proof (pressed_spec packet s Hs) as Hpress.
  apply ewp_rotate_under_pressure; [done|]. intros out s1 [Hset Hn1 Hl1] Hran.
  assert (Hview : ¬ pressed packet s ∧ s1 = s ∨ pressed packet s ∧ ∃ out, rotate_under_pressure layout limits true s = Some (Ok out, s1)).
  { destruct (transactions_full s || _); [right|left]; [split; [by apply Hpress|by exists out]|split; [|done]]. intros Hx. by apply Hpress in Hx. }
  pose proof (settled_idle _ _ _ Hset) as Hs1. pose proof (size_bounds _ _ _ _ (id_ok _ Hs1)) as (_ & _ & _ & Hsl & _). pose proof (ro_load _ _ _ _ (id_ok _ Hs)) as Hmax.
  assert (H0 : 0 ≤ load s1) by (unfold load; lia). unfold MAX_CLIENT_BLOB_RECOVERY_READY_EVENTS in Hmax.
  assert (Hanswer : ∀ status s', answered packet s1 s1 status s' → (∀ ev, ev ∈ option_list out → ev ∈ option_list (st_recovery status)) → Q status s').
  { intros status s' Ha Hkeep. apply (HQ s1); [done|]. by eapply answered_after. }
  ewp_step. ewp_step. change (id s1) with s1.
  assert (Hrest : ∀ remains : bool, (remains = false → cached_count s1 < MAX_CLIENT_BLOB_PENDING_TRANSACTIONS ∧ load s1 + Z.of_nat (length (pending_packet_columns packet)) ≤ MAX_CLIENT_BLOB_RECOVERY_READY_EVENTS) →
    ∀ pressure, ewp (match out with
      | Some recovery => if remains || is_sub_chunk packet then refuse_after_rotation layout packet recovery
          else admit_unless_full layout limits packet (packet_hashes packet) (stable_unique (packet_hashes packet)) (pending_packet_columns packet) accounted pressure out
      | None => admit_unless_full layout limits packet (packet_hashes packet) (stable_unique (packet_hashes packet)) (pending_packet_columns packet) accounted pressure None
      end) s1 Q E).
  { intros remains Hrem pressure. destruct out as [recovery|].
    - simpl in Hl1. destruct (remains || is_sub_chunk packet) eqn:Hcase.
      + apply ewp_refuse_after_rotation; [done|done|unfold MAX_CLIENT_BLOB_RECOVERY_READY_EVENTS; lia|]. intros status s' Ha Hrec. apply Hanswer; [done|]. by rewrite Hrec.
      + apply orb_false_iff in Hcase as [Hr _]. destruct (Hrem Hr) as [? ?]. apply ewp_admit_unless_full; try done; [lia|].
        intros _. split; [done|]. split; [unfold MAX_CLIENT_BLOB_RECOVERY_READY_EVENTS; lia|done].
    - apply ewp_admit_unless_full; try done. lia. }
  unfold transactions_full. rewrite (cached_count_eq _ _ _ _ (id_ok _ Hs1)). ewp_step. destruct (Z.leb_spec MAX_CLIENT_BLOB_PENDING_TRANSACTIONS (cached_count s1)) as [Hc|Hc].
  - ewp_step. by apply Hrest.
  - unfold slots_full. ewp_step. apply (ewp_slot_count limits xxh64 ∅); [apply Hs1|]. ewp_step. apply Hrest. intros Hf%Z.ltb_ge. split; [done|].
    unfold sat_add, USIZE_MAX, MAX_CLIENT_BLOB_RECOVERY_READY_EVENTS in *. lia.
Qed.

(** ** The whole packet *)

(** A packet that arrives, with its raw size. *)
Definition pending_of (packet : Packet) : option PendingPacket :=
  match packet with PacketLevelChunk p => Some (PendingLevelChunk p) | PacketSubChunk p => Some (PendingSubChunk p) | PacketOther _ => None end.
Record arrival_ok (packet : Packet) (raw : option Z) : Prop := {
  ar_small p : pending_of packet = Some p → packet_small p ∧ Z.of_nat (length (packet_hashes p)) ≤ COUNT_BOUND;
  ar_raw n : raw = Some n → 0 ≤ n ≤ 2 ^ 40;
}.

Lemma retained_bytes_cases capacity (packet : Packet) raw : arrival_ok packet raw → 0 ≤ capacity ≤ COUNT_BOUND →
  (∃ bytes, cached_packet_retained_bytes layout capacity packet = Ok bytes ∧ 0 ≤ bytes ≤ 2 ^ 48 + 2 ^ 41) ∨ cached_packet_retained_bytes layout capacity packet = Err NotCachedPacket.
Proof using Layout_ok.
  intros [Hsmall _] Hcap. destruct packet as [p|p|]; simpl; [left|left|by right].
  - destruct (Hsmall _ eq_refl) as [Hs _]. simpl in Hs. pose proof (ly_level_chunk _ Layout_ok) as Hl. unfold small_size, COUNT_BOUND in *. pose proof (blob_len_nonneg (lc_data p)).
    unfold level_chunk_bytes. rewrite checked_mul_fits by (unfold USIZE_MAX; lia). simpl. rewrite checked_add_fits by (unfold USIZE_MAX; lia). simpl.
    rewrite checked_add_fits by (unfold USIZE_MAX; lia). eexists. split; [done|]. lia.
  - destruct (Hsmall _ eq_refl) as [Hs _]. simpl in Hs. pose proof (small_product capacity _ Hcap (ly_sub_chunk_data _ Layout_ok)) as Hp. pose proof (ly_sub_chunk _ Layout_ok) as Hl. unfold small_size in Hl.
    unfold sub_chunk_bytes. rewrite checked_mul_fits by (unfold USIZE_MAX; lia). simpl. rewrite checked_add_fits by (unfold USIZE_MAX; lia). simpl.
    assert (Hsum : sum_Z ((λ entry, option_len (sd_payload entry)) <$> sp_entries p) = tails_len (sp_entries p)).
    { clear. induction (sp_entries p) as [|e l IH]; [done|]. rewrite fmap_cons. cbn [sum_Z tails_len foldr]. by rewrite IH. }
    assert (Hnn : ∀ x, x ∈ (λ entry, option_len (sd_payload entry)) <$> sp_entries p → 0 ≤ x).
    { intros x (e & -> & _)%list_elem_of_fmap. unfold option_len. destruct (sd_payload e); simpl; [apply blob_len_nonneg|lia]. }
    pose proof (sum_Z_nonneg _ Hnn). rewrite checked_sum_fits; [|lia|done|rewrite Hsum; unfold USIZE_MAX; lia]. eexists. split; [done|]. lia.
Qed.

Lemma cached_parts_cases (packet : Packet) :
  (∃ p, cached_parts packet = Ok (p, packet_hashes p) ∧ pending_of packet = Some p ∧ packet_cached p ∧ ¬ malformed p) ∨
  (∃ e, cached_parts packet = Err e ∧ (e = NotCachedPacket ∨ e = ByteCountOverflow)) ∨
  (∃ p a b, cached_parts packet = Err (InvalidLevelChunkHashCount a b) ∧ packet = PacketLevelChunk p ∧ lc_cache_enabled p = true ∧ malformed (PendingLevelChunk p)).
Proof using Type.
  clear Limits Layout_ok. destruct packet as [p|p|]; simpl; [| |by right; left; eauto].
  - destruct (lc_cache_enabled p) eqn:Hc; simpl; [|right; left; eauto]. unfold or_overflow.
    destruct (if 0 <=? lc_sub_chunks_count p then _ else _) as [expected|] eqn:Hexp; simpl; [|right; left; eauto].
    assert (expected = lc_sub_chunks_count p + 1) as -> by (destruct (0 <=? _); [unfold checked_add in Hexp; case_match; congruence|done]).
    destruct (Z.eqb_spec (Z.of_nat (length (lc_metadata p))) (lc_sub_chunks_count p + 1)) as [He|He]; simpl; [left|right; right; by do 3 eexists].
    exists (PendingLevelChunk p). split; [done|]. split; [done|]. split; [done|]. simpl. lia.
  - destruct (sp_cache_enabled p) eqn:Hc; simpl; [left|right; left; eauto]. exists (PendingSubChunk p). split; [done|]. split; [done|]. split; [done|]. by intros [].
Qed.

Lemma level_projection_cases cache hashes bytes : (∃ o, level_chunk_projection cache bytes hashes = Ok o) ∨ level_chunk_projection cache bytes hashes = Err ByteCountOverflow.
Proof using Type.
  revert bytes. induction hashes as [|hash hashes IH]; intros bytes; simpl; [eauto|]. destruct (cs_entries cache !! hash); [|eauto]. unfold or_overflow.
  destruct (checked_add _ _); simpl; [apply IH|eauto].
Qed.
Lemma sub_projection_cases cache entries bytes : (∃ o, sub_chunk_projection cache bytes entries = Ok o) ∨ sub_chunk_projection cache bytes entries = Err ByteCountOverflow.
Proof using Type.
  revert bytes. induction entries as [|e entries IH]; intros bytes; simpl; [eauto|]. destruct (if is_success _ then _ else _) as [id|]; [|apply IH].
  destruct (cs_entries cache !! id); [|eauto]. unfold or_overflow.
  match goal with |- context [match ?o with Some b => Ok b | None => _ end] => destruct o end; simpl; [apply IH|eauto].
Qed.
Lemma projected_cases cache packet hashes : packet_cached packet →
  (∃ o, projected_reconstruction_bytes cache packet hashes = Ok o) ∨ projected_reconstruction_bytes cache packet hashes = Err ByteCountOverflow.
Proof using Type. destruct packet as [p|p]; simpl; intros Hc; [apply level_projection_cases|]. rewrite Hc. apply sub_projection_cases. Qed.

(** How the inner function may fail. *)
Definition refusal (packet : Packet) (e : BlobCacheError) s s' : Prop :=
  ((e = NotCachedPacket ∨ e = ByteCountOverflow) ∧ ∃ exempt, resolver_ok exempt s' ∧ pins_exact [] s') ∨
  (∃ p a b, e = InvalidLevelChunkHashCount a b ∧ packet = PacketLevelChunk p ∧ lc_cache_enabled p = true ∧ malformed (PendingLevelChunk p) ∧ same_view s s' ∧ settled [] s s').

Lemma settled_readings s n v : idle s → settled [] s (with_readings n (with_stats v s)).
Proof using Type. intros Hs. pose proof (idle_settled _ (idle_counted v n s Hs)) as []. split; [done..| |done|done|by split]. by apply kept_core. Qed.

Lemma ewp_accept_inner (packet : Packet) raw s (Q : BlobCacheStatus → Resolver → Prop) E : arrival_ok packet raw → idle s → rs_next_sequence s < USIZE_MAX →
  (∀ p sc status s', pending_of packet = Some p → packet_cached p → classified_in p s sc → answered p s sc status s' → Q status s') → (∀ e s', refusal packet e s s' → E e s') →
  ewp (accept_cached_packet_inner layout limits packet raw) s Q E.
Proof using Limits Layout_ok.
  intros Har Hs Hn HQ HE. assert (Hrd : ∀ n, settled [] s (with_readings n s)).
  { intros n. pose proof (settled_readings s n (rs_stats s) Hs) as H. by rewrite with_same_stats in H. }
  assert (Hfail : ∀ n e, e = NotCachedPacket ∨ e = ByteCountOverflow → E e (with_readings n s)).
  { intros n e He. apply HE. left. split; [done|]. exists ∅. split; apply (Hrd n). }
  unfold accept_cached_packet_inner. ewp_step. unfold read_retained_bytes. ewp_step. apply (ewp_read_capacity _ Layout_ok). intros c1 n1 Hc1.
  destruct (retained_bytes_cases c1 packet raw Har Hc1) as [(bytes & -> & Hbytes)| ->]; [|by apply Hfail; left].
  cbn [of_result]. ewp_step. ewp_step. destruct (cached_parts_cases packet) as [(p & -> & Hp & Hcached & Hshape)|[(e & -> & He)|(p & a & b & -> & Hp & Hen & Hshape)]]; cbn [of_result].
  2:{ by apply Hfail. } 2:{ apply HE. right. exists p, a, b. do 4 (split; [done|]). split; [by split|apply Hrd]. }
  destruct (ar_small _ _ Har p Hp) as [Hsmall Hhashes]. assert (Hin : input_ok p) by (by split).
  ewp_step. ewp_step. unfold transaction_bytes. ewp_step. apply (ewp_read_capacity _ Layout_ok). intros c2 n2 Hc2. ewp_step. apply (ewp_read_capacity _ Layout_ok). intros c3 n3 Hc3.
  unfold COUNT_BOUND in Hc2, Hc3. assert (Hraw : 0 ≤ from_option (λ n, Z.max n bytes) bytes raw ≤ 2 ^ 48 + 2 ^ 41).
  { destruct raw as [n|]; simpl; [pose proof (ar_raw _ _ Har n eq_refl); lia|lia]. }
  revert Hraw. generalize (from_option (λ n, Z.max n bytes) bytes raw). intros retained Hraw. eapply ewp_ok_or.
  { rewrite (checked_mul_fits c2 8), (checked_mul_fits c3 8) by (unfold USIZE_MAX; lia). cbn [mbind option_bind].
    rewrite checked_add_fits by (unfold USIZE_MAX; lia). cbn [mbind option_bind]. apply checked_add_fits. unfold USIZE_MAX; lia. }
  change (with_readings n3 (with_readings n2 (with_readings n1 s))) with (with_readings n3 s). pose proof (Hrd n3) as Hset.
  assert (Hns : rs_next_sequence (with_readings n3 s) = rs_next_sequence s) by done. specialize (Hfail n3).
  assert (Hin1 : ∀ sc, (oversized p (with_readings n3 s) ∧ sc = with_readings n3 s) ∨ ¬ oversized p (with_readings n3 s) ∧ (¬ pressed p (with_readings n3 s) ∧ sc = with_readings n3 s ∨
      pressed p (with_readings n3 s) ∧ ∃ out, rotate_under_pressure layout limits true (with_readings n3 s) = Some (Ok out, sc)) →
    ∃ sc', classified_in p s sc' ∧ same_view sc' sc).
  { intros sc [[Ho ->]|[Ho [[Hnp ->]|[Hpr [out Hrun]]]]]; [exists s|exists s|exists sc].
    - split; [|by split]. apply classified_here. right. by left.
    - split; [|by split]. apply classified_here. right. by right.
    - split; [|by split]. by eapply classified_relieved. }
  revert Hset Hns Hfail Hin1. generalize (with_readings n3 s). intros s1 Hset Hns Hfail Hin1.
  pose proof (settled_idle _ _ _ Hset) as Hs1. assert (Hanswer : ∀ sc status s', (oversized p s1 ∧ sc = s1) ∨ ¬ oversized p s1 ∧ (¬ pressed p s1 ∧ sc = s1 ∨
      pressed p s1 ∧ ∃ out, rotate_under_pressure layout limits true s1 = Some (Ok out, sc)) → answered p s1 sc status s' → Q status s').
  { intros sc status s' Hsc Ha. destruct (Hin1 sc Hsc) as (sc' & Hsc' & Hview). apply (HQ p sc'); [done|done|done|]. eapply (answered_after []); [done|done| |].
    - intros ev H. by apply elem_of_nil in H.
    - destruct Ha. split; [done..|]. by eapply classes_view. }
  ewp_step. ewp_step. change (id s1) with s1. ewp_step. destruct (projected_cases (rs_cache s1) p (packet_hashes p) Hcached) as [[o Ho]|He]; [rewrite Ho|rewrite He]; cbn [of_result]; [|by apply Hfail; right].
  ewp_step. destruct (from_option _ false o) eqn:Hover.
  - ewp_step. apply ewp_record_skip. intros v. apply (ewp_refuse_packet p _ s1); [done| |by split|].
    { pose proof (settled_readings s1 (rs_readings s1) v Hs1) as H'. by rewrite <-(with_same_readings (with_stats v s1)). }
    intros status s'. apply Hanswer. left. split; [|done]. destruct o as [size|]; [|done]. exists size. split; [done|by apply Z.ltb_lt].
  - apply ewp_admit_under_pressure; [done|done|unfold TX_BYTES; lia|by rewrite Hns| |].
    { intros sc status s' Hsc. apply Hanswer. right. split; [|done]. intros (size & Hb & Hlt%Z.ltb_lt). rewrite Hb in Ho. injection Ho as <-. simpl in Hover. congruence. } intros s' exempt Hok' Hp'. apply HE. left. split; [by right|]. by exists exempt.
Qed.

Lemma ewp_catch {A} (m : R A) (handler : BlobCacheError → R A) s (Q : A → Resolver → Prop) E :
  ewp m s Q (λ e s', ewp (handler e) s' Q E) → ewp (catch m handler) s Q E.
Proof using Type. clear Limits Layout_ok. unfold ewp, catch. intros H. by destruct (m s) as [[[a|e] s']|]. Qed.

(** A cached packet is answered; what is not one, or overflows, resets the resolver. *)
Lemma ewp_accept (packet : Packet) raw s (Q : BlobCacheStatus → Resolver → Prop) E : arrival_ok packet raw → idle s → rs_next_sequence s < USIZE_MAX →
  (∀ p sc status s', pending_of packet = Some p → packet_cached p → classified_in p s sc → answered p s sc status s' → Q status s') →
  (∀ e s', e = NotCachedPacket ∨ e = ByteCountOverflow → blank limits xxh64 s' → E e s') → ewp (accept_cached_packet layout limits packet raw) s Q E.
Proof using Limits Layout_ok.
  intros Har Hs Hn HQ HE. unfold accept_cached_packet. apply ewp_catch, ewp_accept_inner; [done..|]. intros e s' [[He (exempt & Hok & Hp)]|(p & a & b & -> & Hpk & Hen & Hshape & Hview & Hset)].
  - assert (Hreset : ewp (_ ← reset_pending limits; eff_throw e) s' Q E).
    { ewp_step. apply (ewp_reset limits xxh64 Limits exempt); [done|done|]. intros s2 Hb. ewp_step. by apply HE. }
    destruct He as [-> | ->]; exact Hreset.
  - ewp_step. apply ewp_bump. intros v. ewp_step. apply ewp_bump. intros v'. apply (ewp_classify_only _ _ _ s []).
    + eapply (settled_nil _ _ _ _ _ _ Hset). pose proof (settled_readings s' (rs_readings s') v' (settled_idle _ _ _ Hset)) as H'. exact H'.
    + intros status s2 Hs2 Hl Hpart Hrec Hacc. apply (HQ (PendingLevelChunk p) s); [by rewrite Hpk|done|by apply classified_here; left|].
      rewrite Hpk in Hpart, Hrec. split; [by apply settled_arrived, settled_weaken|by rewrite Hacc| |].
      * intros _ ev Hev. right. by rewrite Hrec.
      * by refine (classes_view _ _ _ _ _ Hpart).
Qed.
End accept.
