(* ===== verification/BlobMissSpec.v ===== *)
(** * Miss responses end waiting

    Whatever a response holds, afterwards no transaction waits for one of its hashes: its bodies are published and the
    transactions go on, or they are recovered; what was retained stays accounted for. *)
From stdpp Require Import base numbers list gmap sets sorting.
From S2P Require Import Prelude Counting Effects BlobStore BlobStoreSpec BlobStoreTheorems BlobPackets BlobPacketsSpec BlobResolver BlobIntake.
From S2P Require Import BlobResolverInv BlobResolverSpec BlobIntakeSpec BlobAcceptSpec.
#[local] Open Scope Z_scope.

Implicit Types (s : Resolver) (q hash : Z) (t : PendingTransaction) (r : ReadyItem) (cache : CacheStore) (blobs unique : list (Z * Blob)).

(** ** The scan *)

Section scan.
Context (xxh64 : Blob → Z).

(** Bodies under their own hashes. *)
Definition genuine unique : Prop := ∀ hash payload, (hash, payload) ∈ unique → xxh64 payload = hash.

Lemma scan_spec s unique unsolicited blobs : genuine unique → match scan_blobs xxh64 s unique unsolicited blobs with
  | Ok (unique', _) => genuine unique' ∧ (∀ hash, hash ∈ unique.*1 → hash ∈ unique'.*1) ∧ (∀ hash, hash ∈ unique'.*1 → hash ∈ unique.*1 ∨ hash ∈ blobs.*1) ∧
      ∀ hash, hash ∈ blobs.*1 → hash ∈ unique'.*1 ∨ rs_pending_by_hash s !! hash = None
  | Err e => (∃ hash, e = ConflictingDuplicate hash) ∨ ∃ hash actual, e = HashMismatch hash actual
  end.
Proof.
  revert unique unsolicited. induction blobs as [|[hash payload] blobs IH]; intros unique unsolicited Hu; simpl.
  { split; [done|]. split; [done|]. split; [by left|]. intros ? H. by apply elem_of_nil in H. }
  assert (Hstep : ∀ unique1 unsolicited1, genuine unique1 → (∀ h, h ∈ unique.*1 → h ∈ unique1.*1) → (∀ h, h ∈ unique1.*1 → h ∈ unique.*1 ∨ h = hash) → (hash ∈ unique1.*1 ∨ rs_pending_by_hash s !! hash = None) →
    match scan_blobs xxh64 s unique1 unsolicited1 blobs with
    | Ok (unique', _) => genuine unique' ∧ (∀ h, h ∈ unique.*1 → h ∈ unique'.*1) ∧ (∀ h, h ∈ unique'.*1 → h ∈ unique.*1 ∨ h ∈ hash :: blobs.*1) ∧ ∀ h, h ∈ hash :: blobs.*1 → h ∈ unique'.*1 ∨ rs_pending_by_hash s !! h = None
    | Err e => (∃ h, e = ConflictingDuplicate h) ∨ ∃ h actual, e = HashMismatch h actual
    end).
  { intros unique1 unsolicited1 H1 Hsub Hback Hhash. specialize (IH unique1 unsolicited1 H1). destruct (scan_blobs xxh64 s unique1 unsolicited1 blobs) as [[unique' ?]|e]; [|done].
    destruct IH as (? & Hs & Hin & Hall). split; [done|]. split; [auto|]. split; [|intros h [->|?]%elem_of_cons; [destruct Hhash; auto|auto]].
    intros h [[?| ->]%Hback|?]%Hin; [by left|right; by left|right; by right]. }
  destruct (bool_decide _ && _) eqn:Hun; [apply andb_true_iff in Hun as [Hn%bool_decide_eq_true _]; apply Hstep; auto|].
  destruct (list_find _ unique) as [[i [h first]]|] eqn:Hf.
  - apply list_find_Some in Hf as (Hl & Hh & _). simpl in Hh. subst h. destruct (bool_decide_reflect (first = payload)); [|left; eauto]. apply Hstep; [done|done|by left|left].
    apply list_elem_of_fmap. exists (hash, first). split; [done|by eapply list_elem_of_lookup_2].
  - unfold client_blob_hash. destruct (Z.eqb_spec (xxh64 payload) hash) as [Heq|]; simpl; [|right; eauto]. apply Hstep.
    + intros h p [?|[= -> ->]%list_elem_of_singleton]%elem_of_app; [by apply Hu|done].
    + intros h Hh. rewrite fmap_app. apply elem_of_app. by left.
    + intros h. rewrite fmap_app. intros [?|?%list_elem_of_singleton]%elem_of_app; [by left|by right].
    + left. rewrite fmap_app. apply elem_of_app. right. by left.
Qed.
End scan.

Section miss.
Context (layout : Layout) (limits : BlobCacheLimits) (xxh64 : Blob → Z) (Limits : limits_ok limits) (Layout_ok : layout_ok layout).
Notation resolver_ok := (resolver_ok limits xxh64).
Notation steady := (steady limits xxh64).
Notation sound := (sound limits xxh64).
Notation kept := (kept xxh64).
Notation evolves := (evolves xxh64).
Notation settled := (settled limits xxh64).
Notation idle := (idle limits xxh64).
Notation genuine := (genuine xxh64).
Implicit Types (E : BlobCacheError → Resolver → Prop).

(** ** Publication *)

Record pub (hs : list Z) cache cache' : Prop := {
  pu_store : store_ok limits cache';
  pu_addressed : addressed xxh64 cache';
  pu_same_pins : cs_pins cache' = cs_pins cache;
  pu_bodies hash : is_Some (cs_pins cache !! hash) → is_Some (body cache hash) → is_Some (body cache' hash);
  pu_fresh hash : hash ∉ hs → body cache hash = None → body cache' hash = None;
}.
Lemma pub_refl hs cache : store_ok limits cache → addressed xxh64 cache → pub hs cache cache.
Proof using Type. by split. Qed.
Lemma pub_trans hs cache1 cache2 cache3 : pub hs cache1 cache2 → pub hs cache2 cache3 → pub hs cache1 cache3.
Proof using Type. intros [_ _ P1 B1 F1] [? ? P2 B2 F2]. split; [done|done|congruence| |auto]. intros hash Hp Hb. apply B2; [by rewrite P1|by apply B1]. Qed.

Definition publish_error (e : BlobCacheError) : Prop :=
  match e with ConflictingDuplicate _ | PinnedPayloadPressure | CacheEntryPressure | ByteCountOverflow => True | _ => False end.

Lemma validate_error cache acc unique e : validate_all cache acc unique = Err e → publish_error e.
Proof using Type.
  clear Limits Layout_ok. revert acc. induction unique as [|[hash payload] unique IH]; intros [[total pinned] new]; simpl; [done|].
  destruct (cs_entries cache !! hash) as [existing|]; [case_bool_decide; [apply IH|by intros [= <-]]|].
  destruct (checked_add total (blob_len payload)); [|by intros [= <-]]. destruct (is_pinned hash cache); [|apply IH]. case_match; [by intros [= <-]|apply IH].
Qed.
Lemma validate_delta_error cache unique e : validate_delta cache unique = Err e → publish_error e.
Proof using Type.
  clear Limits Layout_ok. unfold validate_delta. destruct (validate_all _ _ _) as [[[? ?] ?]|e'] eqn:Hv; simpl; [case_match; [by intros [= <-]|done]|]. intros [= <-]. by eapply validate_error.
Qed.

Lemma body_sub cache cache' k : (∀ e, cs_entries cache' !! k = Some e → cs_entries cache !! k = Some e) → body cache k = None → body cache' k = None.
Proof using Type. unfold body. intros Hs Hb. destruct (cs_entries cache' !! k) as [e|]; [|done]. by rewrite (Hs e eq_refl) in Hb. Qed.
Lemma pub_inserted hash payload cache cache' : addressed xxh64 cache → xxh64 payload = hash → store_ok limits cache' → inserted hash payload cache cache' → pub [hash] cache cache'.
Proof using Type.
  intros Ha Hh Hs Hi. split; [done|by eapply addressed_inserted|apply Hi| |].
  2:{ intros k Hk. apply body_sub. intros e. apply (in_sub _ _ _ _ Hi). intros ->. apply Hk. by left. }
  intros k Hp Hb. destruct (decide (k = hash)) as [->|Hne].
  - pose proof (in_body _ _ _ _ Hi) as Hx. unfold body. by rewrite Hx.
  - unfold body. by rewrite (in_kept _ _ _ _ Hi).
Qed.
Lemma pub_weaken hs hs' cache cache' : pub hs cache cache' → (∀ h, h ∈ hs → h ∈ hs') → pub hs' cache cache'.
Proof using Type. intros [] Hsub. split; try done. intros h Hh. apply pu_fresh0. auto. Qed.
Lemma pub_dropped hash cache cache' : store_ok limits cache' → addressed xxh64 cache' → dropped hash cache cache' → pub [] cache cache'.
Proof using Type.
  clear Limits Layout_ok. intros Hs Ha Hd. split; [done|done|apply Hd| |].
  - intros k Hp Hb. unfold body. by rewrite (dr_kept _ _ _ Hd) by (by right).
  - intros k _. apply body_sub, (dr_sub _ _ _ Hd).
Qed.
Lemma pub_refused hash payload cache e cache' : addressed xxh64 cache → store_ok limits cache → store_ok limits cache' → BlobStoreSpec.refusal hash payload cache e cache' → pub [] cache cache' ∧ publish_error e.
Proof using Type.
  clear Limits Layout_ok. intros Ha Hs Hs' Hr. pose proof (addressed_refused xxh64 hash payload _ e cache' Ha Hr) as Ha'. destruct e; simpl in Hr; try done; (split; [|done]).
  - destruct Hr as (_ & -> & _). by apply pub_refl.
  - all: destruct Hr as (_ & Hd & _); by eapply pub_dropped.
  - all: destruct Hr as (_ & Hd & _); by eapply pub_dropped.
  - all: destruct Hr as (_ & Hd & _); by eapply pub_dropped.
Qed.

Lemma ewp_publish_each unique cache (Q : unit → CacheStore → Prop) (E : BlobCacheError → CacheStore → Prop) : store_ok limits cache → addressed xxh64 cache → genuine unique →
  (∀ cache', pub unique.*1 cache cache' → (∀ hash, hash ∈ unique.*1 → is_Some (cs_pins cache !! hash) → is_Some (body cache' hash)) → Q tt cache') →
  (∀ e cache', pub unique.*1 cache cache' → publish_error e → E e cache') → ewp (for_each (λ '(hash, payload), insert_verified limits hash payload) unique) cache Q E.
Proof using Limits.
  revert cache. induction unique as [|[hash payload] unique IH]; intros cache Hs Ha Hg HQ HE; cbn [for_each].
  { ewp_step. apply HQ; [by apply pub_refl|]. intros ? H. by apply elem_of_nil in H. }
  assert (Hh : xxh64 payload = hash) by (apply Hg; by left). ewp_step. apply (ewp_insert_verified limits Limits); [done|..].
  - intros cache1 Hs1 Hi. pose proof (pub_inserted hash payload cache cache1 Ha Hh Hs1 Hi) as Hp1.
    assert (Hp1' : pub (hash :: unique.*1) cache cache1) by (eapply pub_weaken; [done|]; intros h ->%list_elem_of_singleton; by left).
    assert (Hw : ∀ c, pub unique.*1 cache1 c → pub (hash :: unique.*1) cache c).
    { intros c Hc. eapply pub_trans; [done|]. eapply pub_weaken; [done|]. by right. }
    apply IH; [done|apply Hp1|intros h p Hin; apply Hg; by right|..].
    + intros cache2 Hp2 Hb. apply HQ; [by apply Hw|]. intros h [->|Hin]%elem_of_cons Hpin; cbn [fst] in *.
      * apply (pu_bodies _ _ _ Hp2); [by rewrite (pu_same_pins _ _ _ Hp1)|]. pose proof (in_body _ _ _ _ Hi) as Hx. unfold body. by rewrite Hx.
      * apply Hb; [done|by rewrite (pu_same_pins _ _ _ Hp1)].
    + intros e cache2 Hp2 He. apply HE; [by apply Hw|done].
  - intros e cache1 Hs1 Hr. destruct (pub_refused _ _ _ _ _ Ha Hs Hs1 Hr). apply HE; [|done]. eapply pub_weaken; [done|]. intros ? H'. by apply elem_of_nil in H'.
Qed.

Lemma ewp_publish_delta unique cache (Q : Z → CacheStore → Prop) (E : BlobCacheError → CacheStore → Prop) : store_ok limits cache → addressed xxh64 cache → genuine unique →
  (∀ n cache', pub unique.*1 cache cache' → (∀ hash, hash ∈ unique.*1 → is_Some (cs_pins cache !! hash) → is_Some (body cache' hash)) → Q n cache') →
  (∀ e cache', pub unique.*1 cache cache' → publish_error e → E e cache') → ewp (publish_delta limits unique) cache Q E.
Proof using Limits.
  intros Hs Ha Hg HQ HE. unfold publish_delta. ewp_step. ewp_step. ewp_step. unfold ewp at 1. destruct (validate_delta cache unique) as [n|e] eqn:Hv.
  - ewp_step. apply ewp_publish_each; [done..| |done]. intros cache' Hp Hb. ewp_step. ewp_step. ewp_step. by apply HQ.
  - apply HE; [by apply pub_refl|by eapply validate_delta_error].
Qed.

(** ** What handling a response keeps *)

(** Bodies of [hs] may have been added. *)
Record handled (hs : list Z) s s' : Prop := {
  hd_idle : idle s';
  hd_kept : kept [] s s';
  hd_immediate : rs_immediate s' = rs_immediate s;
  hd_next : rs_next_sequence s' = rs_next_sequence s;
  hd_waiters q hash : q ∈ waiters (rs_pending_by_hash s') hash → q ∈ waiters (rs_pending_by_hash s) hash;
  hd_fresh hash : hash ∉ hs → body (rs_cache s) hash = None → body (rs_cache s') hash = None;
}.
Lemma handled_refl hs s : idle s → handled hs s s.
Proof using Type. intros Hs. split; [done|by apply kept_core|done..]. Qed.
Lemma handled_trans hs s1 s2 s3 : handled hs s1 s2 → handled hs s2 s3 → handled hs s1 s3.
Proof using Type. intros [_ K1 I1 N1 W1 F1] [? K2 I2 N2 W2 F2]. split; [done|by apply (kept_trans xxh64 [] [] s1 s2)|congruence|congruence|auto|auto]. Qed.
Lemma handled_idle hs s s' : handled hs s s' → idle s'.
Proof using Type. by intros []. Qed.
Lemma handled_evolves hs s s' : resolver_ok ∅ s' → pins_exact [] s' → rs_resolved_pending s' = ∅ → evolves [] s s' → handled hs s s'.
Proof using Type. clear Limits Layout_ok. intros H1 H2 H3 He. split; [by split|apply He|apply He|apply He|apply He|]. intros hash _. apply He. Qed.
Lemma handled_counted hs v n s0 s : handled hs s0 s → handled hs s0 (with_readings n (with_stats v s)).
Proof using Type.
  intros H. eapply handled_trans; [done|]. pose proof (idle_counted _ _ v n s (handled_idle _ _ _ H)) as []. apply handled_evolves; [done..|by apply evolves_core].
Qed.
Lemma handled_bump hs v s0 s : handled hs s0 s → handled hs s0 (with_stats v s).
Proof using Type. intros H. apply (handled_counted hs v (rs_readings s)) in H. by rewrite <-(with_same_readings (with_stats v s)). Qed.
(** When nobody waits for the bodies that may have been added. *)
Lemma handled_waits hs s s' : handled hs s s' → (∀ hash q, hash ∈ hs → q ∉ waiters (rs_pending_by_hash s') hash) → waits_absent s → waits_absent s'.
Proof using Type.
  clear Limits Layout_ok. intros Hh Hn Hw hash q Hq. apply (hd_fresh _ _ _ Hh); [by intros Hin; apply (Hn hash q)|]. by apply (Hw hash q), (hd_waiters _ _ _ Hh).
Qed.

Lemma waiting_body s q hash : resolver_ok ∅ s → q ∈ waiters (rs_pending_by_hash s) hash → pins_exact [] s → is_Some (cs_pins (rs_cache s) !! hash).
Proof using Type.
  clear Limits Layout_ok. intros Hok Hin Hp. destruct (ro_index _ _ _ _ Hok q hash Hin) as (t & Ht & Hu). pose proof (holders_lookup _ _ _ _ Ht Hu) as Hh.
  pose proof (pins_none _ hash Hp) as Hpc. unfold pin_count in Hpc. destruct (cs_pins _ !! hash); [by eexists|]. simpl in Hpc. lia.
Qed.

(** The new cache still has what pending transactions hold. *)
Lemma handled_publish hs s cache : idle s → pub hs (rs_cache s) cache → handled hs s (with_cache cache s).
Proof using Type.
  clear Limits Layout_ok. intros [Hok Hp Hr] [Hs Ha Hpins Hb Hf]. split; [split|..]; try done.
  - apply resolver_ok_cache; [done|done|done|]. intros q t hash Hq Hin. apply Hb. pose proof (holders_lookup _ _ _ _ Hq Hin).
    pose proof (pins_none _ hash Hp) as Hpc. unfold pin_count in Hpc. destruct (cs_pins _ !! hash); [by eexists|]. simpl in Hpc. lia.
  - intros hash. specialize (Hp hash). unfold pin_count in *. change (rs_cache (with_cache cache s)) with cache. rewrite Hpins. exact Hp.
  - by apply kept_core.
Qed.

(** ** Staging *)

Definition staged_more (add : Z) t : PendingTransaction :=
  mk_pending (pt_packet t) (pt_hashes t) (pt_unique_hashes t) (pt_owned_hashes t) (pt_owned_capacity t) (pt_unresolved_hashes t) (sat_add (pt_staged_bytes t) add)
    (pt_columns t) (pt_accounted_bytes t).
Definition fits_stage s (addition : Z * Z) : Prop :=
  0 ≤ addition.2 ∧ ∀ t, rs_pending s !! addition.1 = Some t → sat_add (pt_staged_bytes t) addition.2 ≤ MAX_CLIENT_BLOB_STAGED_BYTES_PER_TRANSACTION.

Lemma handled_staged hs s q add t : idle s → rs_pending s !! q = Some t → 0 ≤ add → sat_add (pt_staged_bytes t) add ≤ MAX_CLIENT_BLOB_STAGED_BYTES_PER_TRANSACTION →
  handled hs s (with_pending (<[q := staged_more add t]> (rs_pending s)) s).
Proof using Type.
  clear Limits Layout_ok. intros [Hok Hp Hr] Hq Hadd Hmax. destruct (ro_txs _ _ _ _ Hok q t Hq) as [[] _].
  assert (Htx : tx_ok (staged_more add t)).
  { split; try done. simpl. split; [|done]. unfold sat_add, USIZE_MAX. lia. }
  assert (Heq : with_txs (<[q := staged_more add t]> (rs_pending s)) (rs_pending_bytes s) s = with_pending (<[q := staged_more add t]> (rs_pending s)) s) by (by destruct s).
  pose proof (resolver_ok_update limits xxh64 ∅ s q t (staged_more add t) (rs_pending_bytes s) Hok Hq) as Hok1. forward Hok1; [by split|]. specialize (Hok1 Htx).
  forward Hok1; [simpl; lia|]. pose proof (pins_update [] s q t (staged_more add t) (rs_pending_bytes s) Hp Hq eq_refl) as Hp1. rewrite Heq in Hok1, Hp1.
  split; [by split| |done..].
  split; simpl; [|by left|done]. intros q0 t0 H0. left. destruct (decide (q0 = q)) as [->|Hne]; [rewrite lookup_insert_eq; simplify_eq; by eexists|rewrite lookup_insert_ne by done; eauto].
Qed.

Lemma ewp_add_staged hs l s s0 (Q : unit → Resolver → Prop) E : handled hs s0 s → NoDup l.*1 → (∀ addition, addition ∈ l → fits_stage s addition) →
  (∀ s', handled hs s0 s' → Q tt s') → ewp (for_each add_staged l) s Q E.
Proof using Type.
  clear Limits Layout_ok. revert s. induction l as [|[q add] l IH]; intros s Hs Hnd Hfit HQ; cbn [for_each]; [ewp_step; by apply HQ|].
  cbn [fmap list_fmap fst] in Hnd. apply NoDup_cons in Hnd as [Hq Hnd]. destruct (Hfit (q, add)) as [Hadd Hmax]; [by left|]. simpl in Hadd, Hmax.
  ewp_step. unfold add_staged. ewp_step. ewp_step. change (id s) with s. destruct (rs_pending s !! q) as [t|] eqn:Ht.
  2:{ ewp_step. apply IH; [done|done| |done]. intros a Ha. apply Hfit. by right. }
  ewp_step. ewp_step. specialize (Hmax t eq_refl). unfold debug_assert. apply Z.leb_le in Hmax as Hmax'. rewrite Hmax'.
  pose proof (handled_staged hs s q add t (handled_idle _ _ _ Hs) Ht Hadd Hmax) as Hs1. ewp_step. apply IH; [by eapply handled_trans|done| |done].
  intros [q' a] Hin. destruct (Hfit (q', a)) as [? Hm]; [by right|]. split; [done|]. simpl in *. intros t'. rewrite lookup_insert_ne; [by apply Hm|].
  intros ->. apply Hq. apply list_elem_of_fmap. by exists (q', a).
Qed.

Definition counts_up (m : gmap Z Z) : Prop := ∀ q n, m !! q = Some n → 0 ≤ n.
Lemma foldl_keeps {A B} (P : A → Prop) (f : A → B → A) l a : P a → (∀ a b, P a → P (f a b)) → P (foldl f a l).
Proof using Type. clear Limits Layout_ok. intros Ha Hf. revert a Ha. induction l; simpl; auto. Qed.
Lemma staged_additions_up s unique : counts_up (staged_additions s unique).
Proof using Type.
  clear Limits Layout_ok. apply (foldl_keeps counts_up); [intros q n H; by rewrite lookup_empty in H|]. intros m [hash payload] Hm. apply (foldl_keeps counts_up); [done|].
  clear m Hm. intros m q Hm q' n. unfold stage_addition. intros [[<- <-]|[_ H]]%lookup_insert_Some; [|by eapply Hm]. pose proof (blob_len_nonneg payload).
  assert (0 ≤ default 0 (m !! q)) by (destruct (m !! q) eqn:Hq; simpl; [by eapply Hm|lia]). unfold sat_add, USIZE_MAX. lia.
Qed.

Lemma ewp_skip_all hs l s s0 (Q : unit → Resolver → Prop) E : handled hs s0 s →
  (∀ s', handled hs s0 s' → dom (rs_pending s') = dom (rs_pending s) ∖ list_to_set l →
    (∀ q t', rs_pending s' !! q = Some t' → ∃ t, rs_pending s !! q = Some t ∧ pt_staged_bytes t' = pt_staged_bytes t) → Q tt s') →
  ewp (for_each (λ sequence, _ ← record_staged_skip; abandon_pending_transaction layout limits sequence) l) s Q E.
Proof using Limits Layout_ok.
  revert s. induction l as [|q l IH]; intros s Hs HQ; cbn [for_each].
  { ewp_step. apply HQ; [done|simpl; clear; set_solver|eauto]. }
  ewp_step. ewp_step. apply ewp_record_skip. intros v. pose proof (handled_bump hs v _ _ Hs) as Hs1.
  apply (ewp_abandon_steady layout limits xxh64 Limits Layout_ok ∅); [apply (handled_idle _ _ _ Hs1)|apply (handled_idle _ _ _ Hs1)|]. intros s2 [Hok2 Hp2 He2 Hr2] Hd2.
  assert (Hs2 : handled hs s0 s2). { eapply handled_trans; [exact Hs1|]. apply handled_evolves; [done|done| |done]. rewrite (id_resolved _ _ _ (handled_idle _ _ _ Hs1)) in Hr2. clear -Hr2. set_solver. }
  apply IH; [done|]. intros s' Hs' Hd Hst. apply HQ; [done|rewrite Hd, Hd2; simpl; clear; set_solver|].
  intros q' t' (t2 & Ht2 & ->)%Hst. destruct (ev_back _ _ _ _ He2 q' t2 Ht2) as (t & Ht & _ & ->). by exists t.
Qed.

Lemma ewp_stage hs unique s (Q : unit → Resolver → Prop) E : idle s → (∀ s', handled hs s s' → Q tt s') → ewp (stage_unique layout limits unique) s Q E.
Proof using Limits Layout_ok.
  intros Hs HQ. unfold stage_unique. ewp_step. ewp_step. change (id s) with s. ewp_step. apply (ewp_skip_all hs _ s s); [by apply handled_refl|]. intros s1 Hs1 Hd Hst.
  apply (ewp_add_staged hs _ s1 s); [done|apply NoDup_fst_map_to_list| |done]. intros [q add] Hin%elem_of_map_to_list. split; simpl; [by eapply staged_additions_up|].
  intros t1 Ht1. destruct (Hst q t1 Ht1) as (t & Ht & ->). apply Z.le_ngt. intros Hlt.
  assert (q ∈ dom (rs_pending s1)) as Hq by (by apply elem_of_dom). rewrite Hd in Hq. apply elem_of_difference in Hq as [_ Hq]. apply Hq, elem_of_list_to_set.
  unfold staged_excess. apply list_elem_of_fmap. exists (q, add). split; [done|]. apply list_elem_of_filter. split; [|by apply elem_of_map_to_list].
  unfold exceeds_staged. simpl. rewrite Ht. by apply Z.ltb_lt.
Qed.

(** ** Resolving *)

Lemma ewp_resolve_all hs hashes s s0 (Q : unit → Resolver → Prop) E : handled hs s0 s →
  (∀ hash q, hash ∈ hashes → q ∈ waiters (rs_pending_by_hash s) hash → is_Some (body (rs_cache s) hash)) →
  (∀ s', handled hs s0 s' → (∀ q hash, q ∈ waiters (rs_pending_by_hash s') hash → q ∈ waiters (rs_pending_by_hash s) hash) →
    (∀ hash q, hash ∈ hashes → q ∉ waiters (rs_pending_by_hash s') hash) → Q tt s') →
  (∀ s', resolver_ok ∅ s' → pins_exact [] s' → E ByteCountOverflow s') → ewp (for_each (resolve_hash layout limits) hashes) s Q E.
Proof using Limits Layout_ok.
  revert s. induction hashes as [|hash hashes IH]; intros s Hs Hb HQ HE; cbn [for_each].
  { ewp_step. apply HQ; [done|done|]. intros ?? H. by apply elem_of_nil in H. }
  pose proof (handled_idle _ _ _ Hs) as [Hok Hp Hr]. ewp_step. apply (ewp_resolve_hash layout limits xxh64 Limits Layout_ok ∅); [done|done| | |].
  - intros [W HW]. destruct (decide (W = ∅)) as [->|Hne]; [by destruct (ro_nonempty _ _ _ _ Hok _ _ HW)|]. apply set_choose_L in Hne as [q Hq].
    apply (Hb hash q); [by left|]. unfold waiters. by rewrite HW.
  - intros s1 [Hok1 Hp1 He1] Hr1 Hn1. assert (Hs1 : handled hs s0 s1) by (eapply handled_trans; [done|]; apply handled_evolves; auto).
    apply IH; [done| | |done].
    + intros h q Hin Hq. pose proof (ev_waiters _ _ _ _ He1 _ _ Hq) as Hq0. destruct (ro_index _ _ _ _ Hok1 q h Hq) as (t & Ht & Hu).
      destruct (ro_txs _ _ _ _ Hok1 q t Ht) as [Htx _]. apply (ev_bodies _ _ _ _ He1 q t h Ht); [|apply (Hb h q); [by right|done]].
      by rewrite <-(BlobResolverInv.tk_hashes _ Htx), <-elem_of_stable_unique, <-(BlobResolverInv.tk_unique _ Htx).
    + intros s' Hs' Hw Hn. apply HQ; [done|intros q h Hq; by apply (ev_waiters _ _ _ _ He1), Hw|].
      intros h q [->|Hin]%elem_of_cons; [intros Hq%Hw; by apply Hn1 in Hq|by apply Hn].
  - intros s' [Hok' Hp' _]. by apply HE.
Qed.

(** Nobody waits for the hashes of the response. *)
Definition answered_for blobs s : Prop := ∀ hash q, hash ∈ blobs.*1 → q ∉ waiters (rs_pending_by_hash s) hash.
Definition skip_error (e : BlobCacheError) : Prop :=
  match e with UnsolicitedBlob _ | HashMismatch _ _ | ConflictingDuplicate _ | PinnedPayloadPressure | CacheEntryPressure => True | _ => False end.

Lemma ewp_miss_inner hs blobs s (Q : unit → Resolver → Prop) E : idle s → (∀ hash, hash ∈ blobs.*1 → hash ∈ hs) → (∀ s', handled hs s s' → answered_for blobs s' → Q tt s') →
  (∀ e s', skip_error e → handled hs s s' → E e s') → (∀ s', resolver_ok ∅ s' → pins_exact [] s' → E ByteCountOverflow s') →
  ewp (accept_miss_response_inner layout limits xxh64 blobs) s Q E.
Proof using Limits Layout_ok.
  intros Hs Hsub HQ HE HO. unfold accept_miss_response_inner. ewp_step. ewp_step. change (id s) with s. ewp_step.
  pose proof (scan_spec xxh64 s [] None blobs) as Hscan. forward Hscan; [intros ?? H; by apply elem_of_nil in H|].
  destruct (scan_blobs xxh64 s [] None blobs) as [[unique unsolicited]|e]; cbn [of_result].
  2:{ apply HE; [by destruct Hscan as [[h ->]|(h & a & ->)]|by apply handled_refl]. }
  destruct Hscan as (Hg & _ & Hback & Hall).
  assert (Hsub' : ∀ hash, hash ∈ unique.*1 → hash ∈ hs). { intros hash [H%elem_of_nil|?]%Hback; [done|by apply Hsub]. } ewp_step. assert (Hrest : ∀ v, ewp (_ ← stage_unique layout limits unique; evicted ← on_cache (publish_delta limits unique);
    _ ← bump admitted_blobs (Z.of_nat (length unique)); _ ← bump evictions evicted; _ ← for_each (resolve_hash layout limits) unique.*1; refresh_pending_accounting layout) (with_stats v s) Q E).
  { intros v. pose proof (handled_bump hs v _ _ (handled_refl hs s Hs)) as Hs0. ewp_step. apply (ewp_stage hs); [by eapply handled_idle|]. intros s1 Hs1.
    assert (Hs1' : handled hs s s1) by (by eapply handled_trans). pose proof (handled_idle _ _ _ Hs1) as Hi1. ewp_step. apply ewp_on_cache.
    apply ewp_publish_delta; [apply (ro_cache _ _ _ _ (id_ok _ _ _ Hi1))|apply (ro_addressed _ _ _ _ (id_ok _ _ _ Hi1))|done| |].
    - intros evicted cache Hpub Hb. pose proof (handled_publish hs s1 cache Hi1 (pub_weaken _ _ _ _ Hpub Hsub')) as Hs2. ewp_step. apply ewp_bump. intros v1. ewp_step. apply ewp_bump. intros v2.
      pose proof (handled_trans _ _ _ _ Hs1' (handled_bump hs v2 _ _ Hs2)) as Hs3. ewp_step. change (with_stats v2 _) with (with_stats v2 (with_cache cache s1)).
      apply (ewp_resolve_all hs _ _ s); [done| | |done].
      + intros hash q Hin Hq. apply Hb; [done|]. by eapply waiting_body; [apply Hi1| |apply Hi1].
      + intros s4 Hs4 Hw Hn. apply (ewp_refresh layout limits xxh64 Layout_ok ∅); [apply (handled_idle _ _ _ Hs4)|]. intros v3 n. apply HQ; [by apply handled_counted|].
        intros hash q Hin. destruct (Hall hash Hin) as [Hu|Hnone]; [by apply Hn|]. intros Hq%(hd_waiters _ _ _ Hs4). unfold waiters in Hq. rewrite Hnone in Hq. by apply elem_of_empty in Hq.
    - intros e cache Hpub He. destruct e; try done; try (apply HE; [done|]; eapply handled_trans; [exact Hs1'|exact (handled_publish hs s1 cache Hi1 (pub_weaken _ _ _ _ Hpub Hsub'))]).
      pose proof (handled_publish hs s1 cache Hi1 (pub_weaken _ _ _ _ Hpub Hsub')) as Hs2. apply HO; apply (handled_idle _ _ _ Hs2). }
  unfold check_solicited. destruct unsolicited as [hash|]; [|ewp_step; specialize (Hrest (rs_stats s)); by rewrite with_same_stats in Hrest].
  case_bool_decide; [ewp_step; ewp_step; apply HE; [done|by apply handled_refl]|]. ewp_step. apply ewp_bump. exact Hrest.
Qed.

Lemma elem_of_waiting q s hashes : q ∈ waiting_for s hashes ↔ ∃ hash, hash ∈ hashes ∧ q ∈ waiters (rs_pending_by_hash s) hash.
Proof using Type.
  clear Limits Layout_ok. unfold waiting_for. rewrite merge_sort_Permutation, elem_of_elements, elem_of_union_list. split.
  - intros (X & (hash & -> & Hin)%list_elem_of_fmap & Hq). eauto.
  - intros (hash & Hin & Hq). exists (waiters (rs_pending_by_hash s) hash). split; [|done]. apply list_elem_of_fmap. by exists hash.
Qed.

Lemma ewp_skip hs blobs s s0 (Q : bool → Resolver → Prop) E : handled hs s0 s → (∀ s', handled hs s0 s' → answered_for blobs s' → Q false s') →
  ewp (_ ← recover_skipped_miss_response layout limits blobs.*1; mret false) s Q E.
Proof using Limits Layout_ok.
  intros Hs HQ. ewp_step. unfold recover_skipped_miss_response. ewp_step. apply ewp_bump. intros v. ewp_step. ewp_step. ewp_step.
  pose proof (handled_bump hs v _ _ Hs) as Hs1. pose proof (handled_idle _ _ _ Hs1) as [Hok1 Hp1 Hr1]. change (id (with_stats v s)) with (with_stats v s).
  apply (ewp_abandon_all layout limits xxh64 Limits Layout_ok ∅); [done|done|]. intros s2 Hok2 Hp2 He2 Hd2 Hr2 _.
  assert (Hs2 : handled hs s0 s2). { eapply handled_trans; [exact Hs1|]. apply handled_evolves; [done|done| |done]. rewrite Hr2, Hr1. clear. set_solver. }
  apply (ewp_refresh layout limits xxh64 Layout_ok ∅); [done|]. intros v' n. ewp_step. apply HQ; [by apply handled_counted|].
  intros hash q Hin Hq. change (q ∈ waiters (rs_pending_by_hash s2) hash) in Hq. destruct (ro_index _ _ _ _ Hok2 q hash Hq) as (t & Ht & _).
  assert (q ∈ dom (rs_pending s2)) as Hdom by (by apply elem_of_dom). rewrite Hd2 in Hdom. apply elem_of_difference in Hdom as [_ Hno].
  apply Hno, elem_of_list_to_set, elem_of_waiting. exists hash. split; [done|]. by apply (ev_waiters _ _ _ _ He2).
Qed.

(** A response is handled; an overflow resets the resolver. *)
Lemma ewp_miss blobs s (Q : bool → Resolver → Prop) E : idle s → (∀ accepted s', handled blobs.*1 s s' → answered_for blobs s' → Q accepted s') →
  (∀ s', blank limits xxh64 s' → E ByteCountOverflow s') → ewp (accept_miss_response layout limits xxh64 blobs) s Q E.
Proof using Limits Layout_ok.
  intros Hs HQ HE. unfold accept_miss_response. set (hs := blobs.*1) in HQ. case_bool_decide as Hnil.
  { ewp_step. apply ewp_bump. intros v. ewp_step. apply HQ; [by apply handled_bump, handled_refl|]. intros hash q Hin. rewrite Hnil in Hin. by apply elem_of_nil in Hin. }
  ewp_step. apply (ewp_read_capacity _ Layout_ok). intros c n Hc. ewp_step.
  pose proof (small_product c _ Hc (ly_missing_blob _ Layout_ok)) as Hsz. eapply ewp_expect; [apply checked_mul_fits; unfold USIZE_MAX; lia|].
  ewp_step. ewp_step. ewp_step. apply ewp_set_stat. intros v _. pose proof (handled_counted hs v n _ _ (handled_refl hs s Hs)) as Hs1.
  change (with_stats v (with_readings n s)) with (with_readings n (with_stats v s)). revert Hs1. generalize (with_readings n (with_stats v s)). intros s1 Hs1.
  apply ewp_catch. ewp_step. apply (ewp_miss_inner hs); [by eapply handled_idle|done|..].
  - intros s' Hs' Ha. ewp_step. apply HQ; [by eapply handled_trans|done].
  - intros e s' He Hs'. pose proof (handled_trans _ _ _ _ Hs1 Hs') as Hs2.
    assert (Hskip : ∀ v, ewp (_ ← recover_skipped_miss_response layout limits blobs.*1; mret false) (with_stats v s') Q E).
    { intros v'. apply (ewp_skip hs blobs _ s); [by apply handled_bump|]. intros s3 Hs3 Ha. by apply HQ. }
    destruct e; try done; unfold skip_response; ewp_step; try (apply ewp_bump; intros v'; apply Hskip); ewp_step; apply ewp_bump; intros v1; apply ewp_bump; intros v2; apply (Hskip v2).
  - intros s' Hok' Hp'. ewp_step. apply ewp_bump. intros v'. ewp_step. apply (ewp_reset limits xxh64 Limits ∅); [destruct Hok'; by split|done|]. intros s2 Hb. ewp_step. by apply HE.
Qed.
End miss.
