(* ===== verification/BlobOutputSpec.v ===== *)
(** * Output of the resolver

    What leaves the resolver and in which order, and why queued ordinary work cannot be held forever. *)
From stdpp Require Import base numbers list gmap sets sorting.
From S2P Require Import Prelude Effects Counting BlobStore BlobStoreSpec BlobStoreTheorems BlobPackets BlobPacketsSpec BlobResolver BlobResolverInv.
From S2P Require Import BlobResolverSpec BlobIntakeSpec BlobIntake BlobAcceptSpec BlobMissSpec.

(** ** Output in order

    Recoveries leave first; then the earliest item that no earlier cached work shares a column with. An item that leaves is
    handed out, nothing else changes. *)
#[local] Open Scope Z_scope.

Implicit Types (s : Resolver) (q hash : Z) (t : PendingTransaction) (r : ReadyItem) (columns : list ColumnKey) (ev : ChunkResyncEvent).

(** ** The least element *)

Lemma head_filter_least {A} (P : A → Prop) `{∀ x, Decision (P x)} (R : A → A → Prop) l x : StronglySorted R l → head (filter P l) = Some x →
  x ∈ l ∧ P x ∧ ∀ y, y ∈ l → P y → y = x ∨ R x y.
Proof.
  intros Hl. induction Hl as [|y l Hl IH Hy]; [done|]. rewrite filter_cons. destruct (decide (P y)) as [Hp|Hp].
  - intros [= <-]. split; [by left|]. split; [done|]. intros z [->|Hz]%elem_of_cons _; [by left|right]. rewrite Forall_forall in Hy. by apply Hy.
  - intros (Hin & Hpx & Hleast)%IH. split; [by right|]. split; [done|]. intros z [->|Hz]%elem_of_cons Hpz; [done|by apply Hleast].
Qed.

(** ** Which item is first *)

(** No earlier cached work shares a column. *)
Definition unblocked s q columns : Prop :=
  (∀ q' t, rs_pending s !! q' = Some t → q' < q → ∀ c, c ∈ pt_columns t → c ∉ columns) ∧
  (∀ q' r, rs_ready s !! q' = Some r → q' < q → ∀ c, c ∈ rd_columns r → c ∉ columns).
Lemma shares_column_spec a b : shares_column a b = true ↔ ∃ c, c ∈ a ∧ c ∈ b.
Proof.
  unfold shares_column. rewrite existsb_exists. split; intros (c & Hc & Hb); exists c; [rewrite <-list_elem_of_In in Hc|rewrite <-list_elem_of_In]; (split; [done|]);
    [by apply bool_decide_eq_true in Hb|by apply bool_decide_eq_true].
Qed.
Lemma no_conflict {A} (cols : A → list ColumnKey) q columns (l : list (Z * A)) :
  existsb (λ '(earlier, x), (earlier <? q) && shares_column (cols x) columns) l = false ↔ ∀ q' x, (q', x) ∈ l → q' < q → ∀ c, c ∈ cols x → c ∉ columns.
Proof.
  rewrite <-not_true_iff_false, existsb_exists. split.
  - intros Hn q' x Hin Hlt c Hc Hc'. apply Hn. exists (q', x). rewrite <-list_elem_of_In. split; [done|]. apply andb_true_iff. split; [by apply Z.ltb_lt|]. apply shares_column_spec. eauto.
  - intros Hall ([q' x] & Hin & [Hlt%Z.ltb_lt (c & Hc & Hc')%shares_column_spec]%andb_true_iff). rewrite <-list_elem_of_In in Hin. by apply (Hall q' x Hin Hlt c).
Qed.
Lemma unblocked_spec s q columns : sequence_is_unblocked s q columns = true ↔ unblocked s q columns.
Proof.
  unfold sequence_is_unblocked, unblocked. destruct columns as [|c0 columns].
  { split; [|done]. intros _. split; intros; apply not_elem_of_nil. }
  rewrite andb_true_iff, !negb_true_iff. rewrite (no_conflict pt_columns q (c0 :: columns) (map_to_list (rs_pending s))), (no_conflict rd_columns q (c0 :: columns) (ordered (rs_ready s))).
  setoid_rewrite elem_of_map_to_list. setoid_rewrite elem_of_ordered. done.
Qed.

(** [q] is the first of [items] that may leave. *)
Record first_free s (items : gmap Z ReadyItem) q r : Prop := {
  ff_item : items !! q = Some r;
  ff_free : unblocked s q (rd_columns r);
  ff_least q' r' : items !! q' = Some r' → unblocked s q' (rd_columns r') → q ≤ q';
}.
Lemma first_unblocked_Some s items q : (∀ q r, items !! q = Some r → rd_sequence r = q) → first_unblocked s items = Some q → ∃ r, first_free s items q r.
Proof.
  intros Hseq. unfold first_unblocked. destruct (head _) as [[q' r]|] eqn:Hh; [|done]. intros [= <-]. simpl. exists r.
  apply (head_filter_least _ entry_le) in Hh as (Hin & Hf & Hleast); [|apply ordered_sorted]. apply elem_of_ordered in Hin. rewrite (Hseq _ _ Hin) in Hf. apply unblocked_spec in Hf.
  split; [done|done|]. intros q2 r2 H2 Hf2. destruct (Hleast (q2, r2)) as [[= -> ->]|Hle]; [by apply elem_of_ordered| |done|exact Hle]. rewrite (Hseq _ _ H2). by apply unblocked_spec.
Qed.
Lemma first_unblocked_None s items : (∀ q r, items !! q = Some r → rd_sequence r = q) → first_unblocked s items = None → ∀ q r, items !! q = Some r → ¬ unblocked s q (rd_columns r).
Proof.
  intros Hseq. unfold first_unblocked. destruct (head _) as [?|] eqn:Hh; [done|]. intros _ q r Hq Hf. destruct (filter _ (ordered items)) eqn:Hl; [|done].
  assert ((q, r) ∈ @nil (Z * ReadyItem)) as Hin; [|by apply elem_of_nil in Hin]. rewrite <-Hl. apply list_elem_of_filter. split; [|by apply elem_of_ordered].
  rewrite (Hseq _ _ Hq). by apply unblocked_spec.
Qed.

Section pop.
Context (layout : Layout) (limits : BlobCacheLimits) (xxh64 : Blob → Z) (Layout_ok : layout_ok layout).
Notation resolver_ok := (resolver_ok limits xxh64).
Notation idle := (idle limits xxh64).
Implicit Types (E : BlobCacheError → Resolver → Prop).

Lemma ewp_expect_ok {A} (m : R A) s (Q : A → Resolver → Prop) E : ewp m s Q (λ _ _, False) → ewp (expect_ok m) s Q E.
Proof using Type. clear Layout_ok. unfold ewp, expect_ok. by destruct (m s) as [[[a|e] s']|]. Qed.

(** ** Recoveries *)

Definition without_recovery key (s : Resolver) : Resolver := with_recovery (delete key (rs_recovery s)) s.
Lemma idle_without_recovery key s : idle s → idle (without_recovery key s).
Proof using Type.
  clear Layout_ok. intros [[] Hp Hr]. split; [|done|done]. split; try done; simpl.
  - intros c rec [_ H]%lookup_delete_Some. by apply ro_recovery.
  - assert (size (delete key (rs_recovery s)) ≤ size (rs_recovery s))%nat by (rewrite map_size_delete; case_match; simpl; lia). unfold load in *. simpl. lia.
Qed.

Lemma head_least_column (l : list (ColumnKey * RecoveryReady)) x : head (merge_sort by_column_le l) = Some x → x ∈ l ∧ ∀ y, y ∈ l → y = x ∨ by_column_le x y.
Proof using Type.
  clear Layout_ok. intros Hh. assert (Htot : Total by_column_le) by (intros a b; unfold by_column_le, column_le; lia).
  assert (Htrans : Transitive by_column_le) by (intros a b c; unfold by_column_le, column_le; lia).
  pose proof (StronglySorted_merge_sort by_column_le l) as Hs. destruct (merge_sort by_column_le l) as [|y l'] eqn:Hm; [done|]. injection Hh as ->.
  setoid_rewrite <-(merge_sort_Permutation by_column_le l). rewrite Hm. split; [by left|]. intros z [->|Hz]%elem_of_cons; [by left|right].
  apply StronglySorted_inv in Hs as [_ Hall]. rewrite Forall_forall in Hall. by apply Hall.
Qed.

Lemma ewp_pop_recovery s (Q : option ChunkResyncEvent → Resolver → Prop) E : idle s → (rs_recovery s = ∅ → Q None s) →
  (∀ key recovery v n, rs_recovery s !! key = Some recovery → (∀ key', is_Some (rs_recovery s !! key') → column_le key key') →
    Q (Some (recovery_into_event recovery)) (with_readings n (with_stats v (without_recovery key s)))) → ewp (pop_recovery_ready layout) s Q E.
Proof using Layout_ok.
  intros Hs H0 H1. unfold pop_recovery_ready. ewp_step. ewp_step. change (id s) with s. destruct (head _) as [[key recovery]|] eqn:Hh.
  - apply head_least_column in Hh as [Hin Hleast]. apply elem_of_map_to_list in Hin. ewp_step. eapply ewp_expect; [done|]. ewp_step. ewp_step. ewp_step.
    apply ewp_expect_ok. change (with_recovery _ _) with (without_recovery key s). apply (ewp_refresh layout limits xxh64 Layout_ok ∅); [apply (id_ok _ _ _ (idle_without_recovery key s Hs))|]. intros v n. ewp_step.
    apply H1; [done|]. intros key' [rec' Hk']. destruct (Hleast (key', rec')) as [[= -> _]|Hle]; [by apply elem_of_map_to_list|unfold column_le; lia|exact Hle].
  - ewp_step. apply H0. apply map_to_list_empty_iff. apply Permutation_nil_r. rewrite <-(merge_sort_Permutation by_column_le). by destruct (merge_sort by_column_le (map_to_list (rs_recovery s))).
Qed.

(** ** Items *)

Definition without_ready q r (s : Resolver) : Resolver :=
  with_slots (rs_column_slots s - Z.of_nat (length (rd_columns r))) (with_ready_bytes (rs_ready_bytes s - rd_accounted_bytes r) (with_ready (delete q (rs_ready s)) s)).
Definition without_immediate q (s : Resolver) : Resolver := with_flags (rs_reset_armed s) false (with_immediate (delete q (rs_immediate s)) s).

Lemma size_deleted {A} (m : gmap Z A) q x : m !! q = Some x → Z.of_nat (size (delete q m)) = Z.of_nat (size m) - 1.
Proof using Type. clear Layout_ok. intros Hq. rewrite map_size_delete_Some by by eexists. assert (size m ≠ 0%nat); [|lia]. intros H0%map_size_empty_inv. by subst. Qed.

Lemma ready_totals q r s : resolver_ok ∅ s → rs_ready s !! q = Some r →
  ready_total (delete q (rs_ready s)) = rs_ready_bytes s - rd_accounted_bytes r ∧ 0 ≤ rd_accounted_bytes r ≤ rs_ready_bytes s ∧
  slots_total (rs_pending s) (delete q (rs_ready s)) = rs_column_slots s - Z.of_nat (length (rd_columns r)) ∧ Z.of_nat (length (rd_columns r)) ≤ rs_column_slots s.
Proof using Type.
  clear Layout_ok. intros Hok Hq. pose proof (ro_totals _ _ _ _ Hok) as (_ & Hb & Hs)%totals_agree_spec. destruct (ro_ready _ _ _ _ Hok q r Hq) as ([_ Hr _] & _ & _).
  pose proof (map_sum_delete (λ _ r, rd_accounted_bytes r) _ q r Hq) as H1. pose proof (map_sum_delete (λ _ r, Z.of_nat (length (rd_columns r))) _ q r Hq) as H2.
  assert (0 ≤ ready_total (delete q (rs_ready s))).
  { apply map_sum_nonneg. intros q' r' [_ H]%lookup_delete_Some. by destruct (ro_ready _ _ _ _ Hok q' r' H) as ([] & _ & _). }
  pose proof (slots_nonneg (rs_pending s) (delete q (rs_ready s))). unfold ready_total, slots_total in *. lia.
Qed.

Lemma idle_without_ready q r s : idle s → rs_ready s !! q = Some r → idle (without_ready q r s).
Proof using Type.
  clear Layout_ok. intros [Hok Hp Hr] Hq. pose proof (ready_totals q r s Hok Hq) as (H1 & H2 & H3 & H4). pose proof (size_deleted _ _ _ Hq) as Hsz.
  split; [|exact Hp|exact Hr]. split.
  - exact (ro_cache _ _ _ _ Hok).
  - exact (ro_addressed _ _ _ _ Hok).
  - exact (ro_txs _ _ _ _ Hok).
  - exact (ro_order _ _ _ _ Hok).
  - exact (ro_nonempty _ _ _ _ Hok).
  - exact (ro_index _ _ _ _ Hok).
  - exact (ro_bodies _ _ _ _ Hok).
  - exact (ro_unresolved _ _ _ _ Hok).
  - exact (ro_owner _ _ _ _ Hok).
  - exact (ro_resolved _ _ _ _ Hok).
  - exact (ro_progress _ _ _ _ Hok).
  - simpl. intros q' r' [_ H]%lookup_delete_Some. by apply (ro_ready _ _ _ _ Hok).
  - simpl. intros q' r' H. destruct (ro_immediate _ _ _ _ Hok q' r' H) as (? & ? & ? & ? & ?). do 4 (split; [done|]). apply lookup_delete_None. by right.
  - exact (ro_recovery _ _ _ _ Hok).
  - pose proof (ro_totals _ _ _ _ Hok) as (Hb & _ & _)%totals_agree_spec. apply totals_agree_spec. simpl. by rewrite H1, H3.
  - pose proof (ro_ready_bytes _ _ _ _ Hok). simpl. lia.
  - exact (ro_immediate_bytes _ _ _ _ Hok).
  - exact (ro_immediate_count _ _ _ _ Hok).
  - exact (ro_next _ _ _ _ Hok).
  - pose proof (ro_count _ _ _ _ Hok). unfold cached_count in *. simpl. lia.
  - pose proof (ro_load _ _ _ _ Hok). unfold load in *. simpl. lia.
Qed.
Lemma idle_without_immediate q r s : idle s → rs_immediate s !! q = Some r → idle (without_immediate q s).
Proof using Type.
  clear Layout_ok. intros [Hok Hp Hr] Hq. pose proof (size_deleted _ _ _ Hq) as Hsz. pose proof (map_sum_delete (λ _ r, rd_accounted_bytes r) _ q r Hq) as H1.
  split; [|exact Hp|exact Hr]. pose proof (ro_immediate _ _ _ _ Hok q r Hq) as (_ & Hb & _). split.
  - exact (ro_cache _ _ _ _ Hok).
  - exact (ro_addressed _ _ _ _ Hok).
  - exact (ro_txs _ _ _ _ Hok).
  - exact (ro_order _ _ _ _ Hok).
  - exact (ro_nonempty _ _ _ _ Hok).
  - exact (ro_index _ _ _ _ Hok).
  - exact (ro_bodies _ _ _ _ Hok).
  - exact (ro_unresolved _ _ _ _ Hok).
  - exact (ro_owner _ _ _ _ Hok).
  - exact (ro_resolved _ _ _ _ Hok).
  - exact (ro_progress _ _ _ _ Hok).
  - exact (ro_ready _ _ _ _ Hok).
  - simpl. intros q' r' [_ H]%lookup_delete_Some. by apply (ro_immediate _ _ _ _ Hok).
  - exact (ro_recovery _ _ _ _ Hok).
  - exact (ro_totals _ _ _ _ Hok).
  - exact (ro_ready_bytes _ _ _ _ Hok).
  - pose proof (ro_immediate_bytes _ _ _ _ Hok). unfold ready_total in *. simpl. lia.
  - pose proof (ro_immediate_count _ _ _ _ Hok). simpl. lia.
  - exact (ro_next _ _ _ _ Hok).
  - exact (ro_count _ _ _ _ Hok).
  - exact (ro_load _ _ _ _ Hok).
Qed.

Lemma ewp_pop_cached q r s (Q : ResolverReady → Resolver → Prop) E : idle s → rs_ready s !! q = Some r →
  (∀ v n, Q (rd_value r) (with_readings n (with_stats v (without_ready q r s)))) → ewp (pop_cached layout q) s Q E.
Proof using Layout_ok.
  intros Hs Hq HQ. pose proof (ready_totals q r s (id_ok _ _ _ Hs) Hq) as (_ & H2 & _ & H4). unfold pop_cached. ewp_step. ewp_step. ewp_step. eapply ewp_expect; [done|].
  ewp_step. ewp_step. ewp_step. apply ewp_sub_assign; [simpl; lia|]. ewp_step. ewp_step. ewp_step. apply ewp_sub_assign; [simpl; lia|]. ewp_step. ewp_step. ewp_step.
  apply ewp_expect_ok. change (with_slots _ _) with (without_ready q r s). apply (ewp_refresh layout limits xxh64 Layout_ok ∅); [apply (id_ok _ _ _ (idle_without_ready q r s Hs Hq))|].
  intros v n. ewp_step. apply HQ.
Qed.
Lemma ewp_pop_immediate q r s (Q : ResolverReady → Resolver → Prop) E : idle s → rs_immediate s !! q = Some r →
  (∀ v n, Q (rd_value r) (with_readings n (with_stats v (without_immediate q s)))) → ewp (pop_immediate layout q) s Q E.
Proof using Layout_ok.
  intros Hs Hq HQ. unfold pop_immediate. ewp_step. ewp_step. ewp_step. eapply ewp_expect; [done|]. ewp_step. ewp_step. ewp_step. ewp_step. ewp_step.
  apply ewp_expect_ok. change (with_flags _ _ _) with (without_immediate q s). apply (ewp_refresh layout limits xxh64 Layout_ok ∅); [apply (id_ok _ _ _ (idle_without_immediate q r s Hs Hq))|].
  intros v n. ewp_step. apply HQ.
Qed.

(** What leaves the resolver, and what it leaves. *)
Inductive pops s : option ResolverReady → Resolver → Prop :=
  | pops_recovery key recovery : rs_recovery s !! key = Some recovery → (∀ key', is_Some (rs_recovery s !! key') → column_le key key') →
      pops s (Some (ReadyEvent (EventChunkResync (recovery_into_event recovery)))) (without_recovery key s)
  | pops_cached q r : rs_recovery s = ∅ → first_free s (rs_ready s) q r → (∀ q' r', rs_immediate s !! q' = Some r' → unblocked s q' (rd_columns r') → q < q') →
      pops s (Some (rd_value r)) (without_ready q r s)
  | pops_immediate q r : rs_recovery s = ∅ → first_free s (rs_immediate s) q r → (∀ q' r', rs_ready s !! q' = Some r' → unblocked s q' (rd_columns r') → q < q') →
      pops s (Some (rd_value r)) (without_immediate q s)
  | pops_nothing : rs_recovery s = ∅ → (∀ q r, rs_ready s !! q = Some r ∨ rs_immediate s !! q = Some r → ¬ unblocked s q (rd_columns r)) → pops s None s.

Lemma ready_sequences s q r : idle s → rs_ready s !! q = Some r → rd_sequence r = q.
Proof using Type. clear Layout_ok. intros [Hok _ _] Hq. by destruct (ro_ready _ _ _ _ Hok q r Hq) as ([] & _). Qed.
Lemma immediate_sequences s q r : idle s → rs_immediate s !! q = Some r → rd_sequence r = q.
Proof using Type. clear Layout_ok. intros [Hok _ _] Hq. by destruct (ro_immediate _ _ _ _ Hok q r Hq) as (? & _). Qed.
Lemma lanes_disjoint s q r r' : idle s → rs_ready s !! q = Some r → rs_immediate s !! q = Some r' → False.
Proof using Type. clear Layout_ok. intros [Hok _ _] Hq Hi. destruct (ro_immediate _ _ _ _ Hok q r' Hi) as (_ & _ & _ & _ & Hn). congruence. Qed.

Lemma ewp_pop s (Q : option ResolverReady → Resolver → Prop) E : idle s →
  (∀ value s1 v n, pops s value s1 → idle s1 → Q value (with_readings n (with_stats v s1))) → ewp (pop_ready_ingress layout) s Q E.
Proof using Layout_ok.
  intros Hs HQ. assert (Hsame : ∀ value, pops s value s → Q value s).
  { intros value Hp. specialize (HQ value s (rs_stats s) (rs_readings s) Hp Hs). by rewrite with_same_stats, with_same_readings in HQ. }
  unfold pop_ready_ingress. ewp_step. apply ewp_pop_recovery; [done| |].
  2:{ intros key recovery v n Hk Hleast. ewp_step. apply HQ; [by eapply pops_recovery|by apply idle_without_recovery]. }
  intros Hrec. ewp_step. ewp_step. change (id s) with s. pose proof (λ q r, ready_sequences s q r Hs) as Hrs. pose proof (λ q r, immediate_sequences s q r Hs) as His.
  assert (Hcached : ∀ q r, first_free s (rs_ready s) q r → (∀ q' r', rs_immediate s !! q' = Some r' → unblocked s q' (rd_columns r') → q < q') →
    ewp (value ← pop_cached layout q; mret (Some value)) s Q E).
  { intros q r Hf Hless. ewp_step. apply (ewp_pop_cached q r); [done|apply Hf|]. intros v n. ewp_step. apply HQ; [by apply pops_cached|]. apply idle_without_ready; [done|apply Hf]. }
  assert (Himm : ∀ q r, first_free s (rs_immediate s) q r → (∀ q' r', rs_ready s !! q' = Some r' → unblocked s q' (rd_columns r') → q < q') →
    ewp (value ← pop_immediate layout q; mret (Some value)) s Q E).
  { intros q r Hf Hless. ewp_step. apply (ewp_pop_immediate q r); [done|apply Hf|]. intros v n. ewp_step. apply HQ; [by apply pops_immediate|]. eapply idle_without_immediate; [done|apply Hf]. }
  destruct (first_unblocked s (rs_ready s)) as [qc|] eqn:Hc, (first_unblocked s (rs_immediate s)) as [qi|] eqn:Hi; cbn [min_sequence].
  - apply first_unblocked_Some in Hc as [rc Hc]; [|done]. apply first_unblocked_Some in Hi as [ri Hi]; [|done].
    assert (qc ≠ qi) as Hne. { intros ->. eapply lanes_disjoint; [done|apply Hc|apply Hi]. }
    destruct (Z.le_gt_cases qc qi) as [Hle|Hgt].
    + rewrite Z.min_l by done. rewrite bool_decide_eq_true_2 by done. apply (Hcached qc rc Hc). intros q' r' Hq' Hf'. pose proof (ff_least _ _ _ _ Hi q' r' Hq' Hf'). lia.
    + rewrite Z.min_r by lia. rewrite bool_decide_eq_false_2 by congruence. rewrite bool_decide_eq_true_2 by done. apply (Himm qi ri Hi).
      intros q' r' Hq' Hf'. pose proof (ff_least _ _ _ _ Hc q' r' Hq' Hf'). lia.
  - apply first_unblocked_Some in Hc as [rc Hc]; [|done]. rewrite bool_decide_eq_true_2 by done. apply (Hcached qc rc Hc). intros q' r' Hq' Hf'. by apply (first_unblocked_None s _ His Hi) in Hf'.
  - apply first_unblocked_Some in Hi as [ri Hi]; [|done]. rewrite bool_decide_eq_false_2 by done. rewrite bool_decide_eq_true_2 by done. apply (Himm qi ri Hi).
    intros q' r' Hq' Hf'. by apply (first_unblocked_None s _ Hrs Hc) in Hf'.
  - ewp_step. apply Hsame, pops_nothing; [done|]. intros q r [Hq|Hq]; [by eapply (first_unblocked_None s _ Hrs)|by eapply (first_unblocked_None s _ His)].
Qed.
End pop.

(** ** Ordinary work goes on

    Unblocking the ordinary lane abandons exactly the pending transactions that hold back ordinary work, directly or
    through ready packets; afterwards something can leave. Recovery and resets, as the session sees them. *)

Implicit Types (c : ColumnKey).

(** ** Bounds *)

#[local] Notation bounds := (gmap ColumnKey Z).
Implicit Types (B : bounds).
Definition at_least B c q : Prop := ∃ b, B !! c = Some b ∧ q ≤ b.
Definition reaches B c q : Prop := ∃ b, B !! c = Some b ∧ q < b.

Lemma raise_all q columns B c : foldl (raise_bound q) B columns !! c = if decide (c ∈ columns) then Some (Z.max (default 0 (B !! c)) q) else B !! c.
Proof.
  revert B. induction columns as [|c0 columns IH]; intros B; [by rewrite decide_False by apply not_elem_of_nil|]. cbn [foldl]. rewrite IH. unfold raise_bound.
  destruct (decide (c = c0)) as [->|Hne].
  - rewrite lookup_insert_eq, (decide_True (P := c0 ∈ c0 :: columns)) by by left. cbn [default]. case_decide; f_equal; simpl; lia.
  - rewrite lookup_insert_ne by done. destruct (decide (c ∈ columns)) as [Hin|Hin]; [by rewrite (decide_True (P := c ∈ c0 :: columns)) by by right|].
    rewrite (decide_False (P := c ∈ c0 :: columns)); [done|]. by apply not_elem_of_cons.
Qed.
Lemma raised_here q columns B c : c ∈ columns → at_least (foldl (raise_bound q) B columns) c q.
Proof. intros Hc. unfold at_least. rewrite raise_all, decide_True by done. eexists. split; [done|lia]. Qed.
Lemma raised_keeps q columns B c q' : at_least B c q' → at_least (foldl (raise_bound q) B columns) c q'.
Proof. intros (b & Hb & Hle). unfold at_least. rewrite raise_all. case_decide; [|eauto]. rewrite Hb. eexists. split; [done|]. simpl. lia. Qed.
(** Raising to an earlier sequence does not reach later ones. *)
Lemma raised_reaches q columns B c q' : 0 ≤ q' → q ≤ q' → reaches (foldl (raise_bound q) B columns) c q' → reaches B c q'.
Proof.
  intros H0 Hle (b & Hb & Hlt). rewrite raise_all in Hb. case_decide; [|by exists b]. injection Hb as <-. destruct (B !! c) as [b|] eqn:Hbc; simpl in Hlt; [exists b; split; [done|lia]|lia].
Qed.
Lemma is_bounded_spec B q columns : is_bounded B q columns = true ↔ ∃ c, c ∈ columns ∧ reaches B c q.
Proof.
  unfold is_bounded, reaches. rewrite existsb_exists. split.
  - intros (c & Hc & Hb). rewrite <-list_elem_of_In in Hc. exists c. split; [done|]. destruct (B !! c) as [b|]; [|done]. exists b. split; [done|]. by apply Z.ltb_lt.
  - intros (c & Hc & b & Hb & Hlt). exists c. rewrite <-list_elem_of_In. split; [done|]. rewrite Hb. by apply Z.ltb_lt.
Qed.

Definition raise_item B (item : Z * ReadyItem) : bounds := foldl (raise_bound (rd_sequence item.2)) B (rd_columns item.2).
Definition raise_if B (item : Z * ReadyItem) : bounds := if is_bounded B (rd_sequence item.2) (rd_columns item.2) then raise_item B item else B.
Lemma foldl_ext_f {A C} (f g : A → C → A) l a : (∀ a x, f a x = g a x) → foldl f a l = foldl g a l.
Proof. intros Hf. revert a. induction l as [|x l IH]; intros a; [done|]. simpl. by rewrite Hf, IH. Qed.
Lemma blocked_before_eq s : blocked_before s = foldl raise_if (foldl raise_item ∅ (ordered (rs_immediate s))) (reverse (ordered (rs_ready s))).
Proof.
  unfold blocked_before. rewrite (foldl_ext_f (λ bounds '(_, ready), foldl (raise_bound (rd_sequence ready)) bounds (rd_columns ready)) raise_item) by (by intros ? []).
  apply foldl_ext_f. by intros ? [].
Qed.

Lemma direct_at_least l B item c : item ∈ l → c ∈ rd_columns item.2 → at_least (foldl raise_item B l) c (rd_sequence item.2).
Proof.
  assert (Hkeep : ∀ l B c q, at_least B c q → at_least (foldl raise_item B l) c q).
  { clear. intros l. induction l as [|x l IH]; intros B c q H; [done|]. simpl. apply IH. by apply raised_keeps. }
  revert B. induction l as [|x l IH]; intros B Hin Hc; [by apply elem_of_nil in Hin|]. simpl. apply elem_of_cons in Hin as [->|Hin]; [|by apply IH]. by apply Hkeep, raised_here.
Qed.
Lemma raise_if_keeps B item c q : at_least B c q → at_least (raise_if B item) c q.
Proof. unfold raise_if. case_match; [apply raised_keeps|done]. Qed.

(** A held item holds its columns. *)
Definition holds B (item : Z * ReadyItem) : Prop := is_bounded B (rd_sequence item.2) (rd_columns item.2) = true → ∀ c, c ∈ rd_columns item.2 → at_least B c (rd_sequence item.2).
Lemma ready_holds l done_items B : Forall (λ item, 0 ≤ rd_sequence item.2) (done_items ++ l) → StronglySorted (λ a b, rd_sequence b.2 < rd_sequence a.2) l →
  (∀ a b, a ∈ done_items → b ∈ l → rd_sequence b.2 < rd_sequence a.2) → Forall (holds B) done_items → Forall (holds (foldl raise_if B l)) (done_items ++ l).
Proof.
  revert done_items B. induction l as [|x l IH]; intros done_items B Hnn Hsorted Hlater Hdone; [by rewrite app_nil_r|]. simpl.
  replace (done_items ++ x :: l) with ((done_items ++ [x]) ++ l) in * by (by rewrite <-app_assoc). apply StronglySorted_inv in Hsorted as [Hsorted Hx].
  apply IH; [done|done| |].
  - intros a b [Ha|Ha]%elem_of_app Hb; [apply Hlater; [done|by right]|]. apply list_elem_of_singleton in Ha as ->. rewrite Forall_forall in Hx. by apply Hx.
  - rewrite !Forall_app in Hnn. destruct Hnn as [[Hnn _] _]. apply Forall_app. split.
    + rewrite Forall_forall in Hdone, Hnn |- *. intros a Ha Hb c Hc. apply raise_if_keeps. apply Hdone; [done| |done]. apply is_bounded_spec in Hb as (c' & Hc' & Hr).
      apply is_bounded_spec. exists c'. split; [done|]. revert Hr. unfold raise_if. case_match; [|done]. apply raised_reaches; [by apply Hnn|].
      apply Z.lt_le_incl, Hlater; [done|by left].
    + apply Forall_singleton. unfold holds. intros Hb c Hc. unfold raise_if in *. destruct (is_bounded B _ _) eqn:Hbb; [by apply raised_here|]. congruence.
Qed.

Lemma StronglySorted_reverse {A} (Rel : A → A → Prop) l : StronglySorted Rel l → StronglySorted (λ a b, Rel b a) (reverse l).
Proof.
  induction 1 as [|x l Hl IH Hx]; [constructor|]. rewrite reverse_cons. clear Hl. revert Hx. rewrite Forall_forall. intros Hx.
  assert (Hx' : ∀ y, y ∈ reverse l → Rel x y) by (intros y Hy; apply Hx; by rewrite elem_of_reverse in Hy). clear Hx. induction IH as [|y l' Hl' IH' Hy]; simpl; [constructor; constructor|].
  constructor; [apply IH'; intros; apply Hx'; by right|]. apply Forall_app. split; [done|]. apply Forall_singleton. apply Hx'. by left.
Qed.

Section lane.
Context (layout : Layout) (limits : BlobCacheLimits) (xxh64 : Blob → Z) (Limits : limits_ok limits) (Layout_ok : layout_ok layout).
Notation resolver_ok := (resolver_ok limits xxh64).
Notation idle := (idle limits xxh64).
Notation settled := (settled limits xxh64).
Notation handled := (handled limits xxh64 []).
Implicit Types (E : BlobCacheError → Resolver → Prop).

Lemma strictly_ordered s : resolver_ok ∅ s → StronglySorted (λ a b : Z * ReadyItem, rd_sequence b.2 < rd_sequence a.2) (reverse (ordered (rs_ready s))).
Proof using Type.
  clear Limits Layout_ok. intros Hok. apply (StronglySorted_reverse (λ a b : Z * ReadyItem, rd_sequence a.2 < rd_sequence b.2)).
  assert (Hseq : ∀ x, x ∈ ordered (rs_ready s) → rd_sequence x.2 = x.1). { intros [q r] Hx%elem_of_ordered. by destruct (ro_ready _ _ _ _ Hok q r Hx) as ([] & _). }
  revert Hseq. induction (ordered_strict (rs_ready s)) as [|x l Hl IH Hx]; intros Hseq; constructor; [apply IH; intros; apply Hseq; by right|].
  rewrite Forall_forall in Hx |- *. intros y Hy. rewrite !Hseq by (by left || by right). by apply Hx.
Qed.

(** What [blocked_before] says of the lanes. *)
Lemma blocked_immediate s q r c : resolver_ok ∅ s → rs_immediate s !! q = Some r → c ∈ rd_columns r → at_least (blocked_before s) c q.
Proof using Type.
  clear Limits Layout_ok. intros Hok Hq Hc. rewrite blocked_before_eq. destruct (ro_immediate _ _ _ _ Hok q r Hq) as (Hseq & _).
  assert (Hd : at_least (foldl raise_item ∅ (ordered (rs_immediate s))) c q) by (rewrite <-Hseq; apply (direct_at_least _ _ (q, r)); [by apply elem_of_ordered|done]).
  revert Hd. generalize (foldl raise_item ∅ (ordered (rs_immediate s))). induction (reverse (ordered (rs_ready s))) as [|x l IH]; intros B HB; [done|]. simpl. apply IH. by apply raise_if_keeps.
Qed.
Lemma blocked_ready s q r : resolver_ok ∅ s → rs_ready s !! q = Some r → is_bounded (blocked_before s) q (rd_columns r) = true → ∀ c, c ∈ rd_columns r → at_least (blocked_before s) c q.
Proof using Type.
  clear Limits Layout_ok. intros Hok Hq. destruct (ro_ready _ _ _ _ Hok q r Hq) as ([Hseq _ _] & _). rewrite <-Hseq. rewrite blocked_before_eq.
  pose proof (ready_holds (reverse (ordered (rs_ready s))) [] (foldl raise_item ∅ (ordered (rs_immediate s)))) as H. forward H; [|forward H; [by apply strictly_ordered|forward H; [|forward H; [done|]]]].
  - apply Forall_forall. intros [q' r'] Hx. simpl in Hx. rewrite elem_of_reverse, elem_of_ordered in Hx. destruct (ro_ready _ _ _ _ Hok q' r' Hx) as ([Hseq' _ _] & ? & _). simpl. lia.
  - intros a b Ha. by apply elem_of_nil in Ha.
  - rewrite Forall_forall in H. apply (H (q, r)). simpl. by rewrite elem_of_reverse, elem_of_ordered.
Qed.
Lemma lane_blockers_spec s q : q ∈ lane_blockers s ↔ ∃ t, rs_pending s !! q = Some t ∧ ∃ c, c ∈ pt_columns t ∧ reaches (blocked_before s) c q.
Proof using Type.
  clear Limits Layout_ok. unfold lane_blockers. rewrite list_elem_of_fmap. setoid_rewrite list_elem_of_filter. split.
  - intros ([q' t] & -> & Hb & Hin%elem_of_map_to_list). apply is_bounded_spec in Hb. eauto.
  - intros (t & Ht & Hb). exists (q, t). split; [done|]. split; [by apply is_bounded_spec|by apply elem_of_map_to_list].
Qed.

(** The blockers gone, something is unblocked. *)
Lemma lane_free s s' : resolver_ok ∅ s → rs_immediate s ≠ ∅ → rs_ready s' = rs_ready s → rs_immediate s' = rs_immediate s →
  (∀ q t', rs_pending s' !! q = Some t' → ∃ t, rs_pending s !! q = Some t ∧ pt_columns t' = pt_columns t ∧ q ∉ lane_blockers s) →
  ∃ q r, (rs_ready s' !! q = Some r ∨ rs_immediate s' !! q = Some r) ∧ unblocked s' q (rd_columns r).
Proof using Type.
  clear Limits Layout_ok. intros Hok Hne Hr Hi Hp. set (B := blocked_before s).
  assert (Hpend : ∀ q columns, (∀ c, c ∈ columns → at_least B c q) → ∀ q' t', rs_pending s' !! q' = Some t' → q' < q → ∀ c, c ∈ pt_columns t' → c ∉ columns).
  { intros q columns Hat q' t' Ht' Hlt c Hc Hc'. destruct (Hp q' t' Ht') as (t & Ht & Hcols & Hnb). apply Hnb, lane_blockers_spec. exists t. split; [done|].
    exists c. rewrite <-Hcols. split; [done|]. destruct (Hat c Hc') as (b & Hb & Hle). exists b. split; [done|lia]. }
  destruct (head (filter (λ x : Z * ReadyItem, is_bounded B x.1 (rd_columns x.2) = true) (ordered (rs_ready s)))) as [[q r]|] eqn:Hh.
  - apply (head_filter_least _ entry_le) in Hh as (Hin & Hb & Hleast); [|apply ordered_sorted]. apply elem_of_ordered in Hin. simpl in Hb.
    pose proof (blocked_ready s q r Hok Hin Hb) as Hat. exists q, r. split; [left; by rewrite Hr|]. split; [by apply Hpend|].
    rewrite Hr. intros q' r' Hq' Hlt c Hc Hc'. destruct (Hleast (q', r')) as [[= -> _]|Hle]; [by apply elem_of_ordered| |lia|unfold entry_le in Hle; simpl in Hle; lia].
    simpl. apply is_bounded_spec. exists c. split; [done|]. destruct (Hat c Hc') as (b & Hb' & Hle). exists b. split; [done|lia].
  - apply map_choose in Hne as (q & r & Hq). pose proof (λ c, blocked_immediate s q r c Hok Hq) as Hat. exists q, r. split; [right; by rewrite Hi|]. split; [by apply Hpend|].
    rewrite Hr. intros q' r' Hq' Hlt c Hc Hc'. destruct (filter _ (ordered (rs_ready s))) eqn:Hf; [|done].
    assert ((q', r') ∈ @nil (Z * ReadyItem)) as Hx; [|by apply elem_of_nil in Hx]. rewrite <-Hf. apply list_elem_of_filter. split; [|by apply elem_of_ordered].
    simpl. apply is_bounded_spec. exists c. split; [done|]. destruct (Hat c Hc') as (b & Hb' & Hle). exists b. split; [done|lia].
Qed.

Lemma ewp_unblock_lane s (Q : bool → Resolver → Prop) E : idle s →
  (∀ b s', handled s s' → rs_ready s' = rs_ready s → rs_immediate s' = rs_immediate s →
    (∀ q t', rs_pending s' !! q = Some t' → ∃ t, rs_pending s !! q = Some t ∧ pt_columns t' = pt_columns t ∧ q ∉ lane_blockers s) → Q b s') →
  ewp (unblock_ordinary_lane layout limits) s Q E.
Proof using Limits Layout_ok.
  intros Hs HQ. pose proof Hs as [Hok Hp Hr]. unfold unblock_ordinary_lane. ewp_step. ewp_step. change (id s) with s. ewp_step.
  apply (ewp_abandon_all layout limits xxh64 Limits Layout_ok ∅); [done|done|]. intros s1 Hok1 Hp1 He1 Hd1 Hr1 Hrd1.
  assert (Hs1 : handled s s1). { apply handled_evolves; [done|done| |done]. rewrite Hr1, Hr. clear. set_solver. }
  assert (Hback : ∀ q t', rs_pending s1 !! q = Some t' → ∃ t, rs_pending s !! q = Some t ∧ pt_columns t' = pt_columns t ∧ q ∉ lane_blockers s).
  { intros q t' Hq. destruct (ev_back _ _ _ _ He1 q t' Hq) as (t & Ht & Hpk & _). exists t. split; [done|].
    destruct (ro_txs _ _ _ _ Hok q t Ht) as [Htx _], (ro_txs _ _ _ _ Hok1 q t' Hq) as [Htx' _]. split; [by rewrite (BlobResolverInv.tk_columns _ Htx), (BlobResolverInv.tk_columns _ Htx'), Hpk|].
    assert (q ∈ dom (rs_pending s1)) as Hdom by (by apply elem_of_dom). rewrite Hd1 in Hdom. apply elem_of_difference in Hdom as [_ Hno]. by rewrite elem_of_list_to_set in Hno. }
  assert (Hflags : ∀ v a b, handled s (with_stats v (with_flags a b s1))).
  { intros v a b. eapply handled_trans; [exact Hs1|]. apply handled_evolves; [|done|apply (id_resolved _ _ _ (handled_idle _ _ _ _ _ Hs1))|by apply evolves_core].
    pose proof (resolver_ok_stats limits xxh64 ∅ v (rs_readings s1) a b s1 Hok1) as []. by split. }
  assert (Hfinish : ∀ v a b (found : bool), ewp (_ ← refresh_pending_accounting layout; mret found) (with_stats v (with_flags a b s1)) Q E).
  { intros v a b found. ewp_step. apply (ewp_refresh layout limits xxh64 Layout_ok ∅); [apply (handled_idle _ _ _ _ _ (Hflags v a b))|]. intros v' n. ewp_step.
    apply HQ; [apply handled_counted, Hflags|done|simpl; by rewrite (ev_immediate _ _ _ _ He1)|done]. }
  ewp_step. case_bool_decide.
  - ewp_step. ewp_step. ewp_step. ewp_step. case_match; [ewp_step; apply (Hfinish (rs_stats s1))|apply ewp_bump; intros v; apply Hfinish].
  - ewp_step. apply (Hfinish (rs_stats s1)).
Qed.

(** ** Recovery and reset *)

(** As [handled], the ordinary lane aside. *)
Record turned_in s s' : Prop := {
  ti_idle : idle s';
  ti_kept : kept xxh64 [] s s';
  ti_next : rs_next_sequence s' = rs_next_sequence s;
  ti_waits : waits_absent s → waits_absent s';
}.
(** Nothing waits where nothing is pending. *)
Lemma empty_waits exempt s : resolver_ok exempt s → rs_pending s = ∅ → waits_absent s.
Proof using Type. clear Limits Layout_ok. intros Hok Hp hash q Hq. destruct (ro_index _ _ _ _ Hok q hash Hq) as (t & Ht & _). by rewrite Hp, lookup_empty in Ht. Qed.


Lemma ewp_has_cached s (Q : unit → Resolver → Prop) E : idle s → (∀ s', recovered limits xxh64 s s' → Q tt s') →
  ewp (if has_cached s then _ ← bump pending_resets 1; recover_retained_cached_transactions layout limits else mret tt) s Q E.
Proof using Limits Layout_ok.
  intros Hs HQ. pose proof Hs as [Hok Hp Hr]. destruct (has_cached s) eqn:Hc.
  - ewp_step. apply ewp_bump. intros v. apply (ewp_recover_retained layout limits xxh64 Limits Layout_ok ∅); [apply (idle_bump _ _ v s Hs)|done|].
    intros s' []. apply HQ. split; try done. destruct rc_kept. by split.
  - ewp_step. apply HQ. by apply empty_recovered.
Qed.
Lemma recovered_idle s s' : recovered limits xxh64 s s' → idle s'.
Proof using Type. intros []. by split. Qed.

Lemma idle_without_lane s v : idle s → idle (with_stats v (with_immediate ∅ s)).
Proof using Type.
  clear Limits Layout_ok. intros [Hok Hp Hr]. split; [|exact Hp|exact Hr]. destruct Hok. split; try assumption; simpl; [|done|done].
  intros q r H. by rewrite lookup_empty in H.
Qed.
Lemma ewp_recover_pending s (Q : unit → Resolver → Prop) E : idle s → (∀ s', turned_in s s' → rs_immediate s' = ∅ ∧ rs_pending s' = ∅ ∧ rs_ready s' = ∅ → Q tt s') →
  ewp (recover_pending layout limits) s Q E.
Proof using Limits Layout_ok.
  intros Hs HQ. unfold recover_pending. ewp_step. ewp_step. change (id s) with s. ewp_step. apply ewp_has_cached; [done|]. intros s1 Hs1. ewp_step. ewp_step. ewp_step.
  apply ewp_set_stat. intros v _. apply ewp_set_stat. intros v' _. change (with_stats v' (with_stats v (with_immediate ∅ s1))) with (with_stats v' (with_immediate ∅ s1)).
  apply HQ; [|simpl; split; [done|]; split; apply Hs1]. split; [by apply idle_without_lane; eapply recovered_idle|destruct (rc_kept _ _ _ _ Hs1); by split|apply Hs1|].
  intros _. apply (empty_waits ∅ s1); apply Hs1.
Qed.
Lemma ewp_fast_transfer s (Q : bool → Resolver → Prop) E : idle s → (∀ b s', turned_in s s' → rs_immediate s' = rs_immediate s → Q b s') →
  ewp (reset_pending_for_fast_transfer_candidate layout limits) s Q E.
Proof using Limits Layout_ok.
  intros Hs HQ. unfold reset_pending_for_fast_transfer_candidate. ewp_step. ewp_step. ewp_step. ewp_step. change (id s) with s.
  set (s1 := with_flags false (rs_lane_stalled s) s). assert (Hs1 : idle s1).
  { destruct Hs as [Hok Hp Hr]. split; [|done|done]. pose proof (resolver_ok_stats limits xxh64 ∅ (rs_stats s) (rs_readings s) false (rs_lane_stalled s) s Hok) as []. by split. }
  destruct (negb (rs_reset_armed s)).
  - ewp_step. apply HQ; [|done]. split; [done|by apply kept_core|done|done].
  - ewp_step. change (has_cached s) with (has_cached s1). apply ewp_has_cached; [done|]. intros s2 Hs2. ewp_step. apply HQ; [|apply Hs2].
    split; [by eapply recovered_idle|destruct (rc_kept _ _ _ _ Hs2); by split|apply Hs2|]. intros _. apply (empty_waits ∅ s2); apply Hs2.
Qed.
End lane.
