(* ===== verification/BlobResolverTheorems.v ===== *)
(** * Runs of the resolver

    Any sequence of the session's calls: no call panics, the invariant holds between calls, and what was taken in is
    pending, ready, handed out, or covered by a recovery, until a reset. *)
From stdpp Require Import base numbers list gmap sets sorting.
From S2P Require Import Prelude Effects Counting BlobStore BlobStoreSpec BlobStoreTheorems BlobPackets BlobPacketsSpec BlobResolver BlobResolverInv.
From S2P Require Import BlobResolverSpec BlobIntake BlobIntakeSpec BlobAcceptSpec BlobMissSpec BlobOutputSpec.
#[local] Open Scope Z_scope.

Implicit Types (s : Resolver) (q hash : Z) (t : PendingTransaction) (ev : ChunkResyncEvent) (status : BlobCacheStatus).

(** ** Calls *)

Inductive ResolverOp :=
  | OpCachedPacket (packet : Packet) (raw : option Z) | OpMissResponse (blobs : list (Z * Blob)) | OpImmediate (value : ResolverReady) (bytes : Z)
  | OpPop | OpUnblockLane | OpRecover | OpReset | OpArmReset | OpFastTransfer.
Inductive Output := OutStatus (status : BlobCacheStatus) | OutMiss (accepted : bool) | OutReady (value : option ResolverReady) | OutDone.

Definition perform (layout : Layout) (limits : BlobCacheLimits) (xxh64 : Blob → Z) (op : ResolverOp) : R Output :=
  match op with
  | OpCachedPacket packet raw => status ← accept_cached_packet layout limits packet raw; mret (OutStatus status)
  | OpMissResponse blobs => accepted ← accept_miss_response layout limits xxh64 blobs; mret (OutMiss accepted)
  | OpImmediate value bytes => _ ← accept_immediate layout value bytes; mret OutDone
  | OpPop => value ← pop_ready_ingress layout; mret (OutReady value)
  | OpUnblockLane => _ ← unblock_ordinary_lane layout limits; mret OutDone
  | OpRecover => _ ← recover_pending layout limits; mret OutDone
  | OpReset => _ ← reset_pending limits; mret OutDone
  | OpArmReset => _ ← arm_fast_transfer_reset; mret OutDone
  | OpFastTransfer => _ ← reset_pending_for_fast_transfer_candidate layout limits; mret OutDone
  end.
Definition Answer : Type := result BlobCacheError Output.
Fixpoint run layout limits xxh64 (ops : list ResolverOp) (s : Resolver) : option (list Answer * Resolver) :=
  match ops with
  | [] => Some ([], s)
  | op :: ops => '(answer, s) ← perform layout limits xxh64 op s; '(log, s) ← run layout limits xxh64 ops s; Some (answer :: log, s)
  end.

(** A reset, asked for or after an error. *)
Definition forgets (op : ResolverOp) (answer : Answer) : bool :=
  match op, answer with OpReset, _ => true | (OpCachedPacket _ _ | OpMissResponse _), Err _ => true | _, _ => false end.
(** The recoveries and the items the session receives. *)
Definition given (answer : Answer) : list ChunkResyncEvent :=
  match answer with
  | Ok (OutStatus status) => option_list (st_recovery status)
  | Ok (OutReady (Some (ReadyEvent (EventChunkResync ev)))) => [ev]
  | _ => []
  end.
Definition handed (answer : Answer) : list ResolverReady := match answer with Ok (OutReady value) => option_list value | _ => [] end.

Definition op_ok (op : ResolverOp) : Prop :=
  match op with OpCachedPacket packet raw => arrival_ok packet raw | OpImmediate _ bytes => 0 ≤ bytes | _ => True end.

(** [ev'] asks for all that [ev] asks for. *)
Definition asks ev' ev : Prop :=
  event_column ev' = event_column ev ∧ match cr_requested_ys ev' with None => True | Some ys' => ∃ l, cr_requested_ys ev = Some l ∧ ∀ y, y ∈ l → y ∈ ys' end.
Lemma asks_refl ev : asks ev ev.
Proof. split; [done|]. destruct (cr_requested_ys ev) as [l|]; [|done]. by exists l. Qed.
Definition covered (evs : list ChunkResyncEvent) s ev : Prop := covers (rs_recovery s) ev ∨ ∃ ev', ev' ∈ evs ∧ asks ev' ev.

(** ** What must be asked for again

    A level chunk stands for its whole column ([None]), a sub-chunk reply for one height of a column per entry. *)
Definition names (packet : PendingPacket) (c : ColumnKey) (height : option Z) : Prop :=
  match packet with
  | PendingLevelChunk p => c = level_chunk_column p ∧ height = None
  | PendingSubChunk p => ∃ entry x y z, entry ∈ sp_entries p ∧ entry_position p entry = (x, y, z) ∧ c = mk_column (sp_dimension p) x z ∧ height = Some y
  end.
(** A request for [ys], or for everything, reaches a height. *)
Definition includes `{ElemOf Z A} (ys : option A) (height : option Z) : Prop := match ys with None => True | Some ys => ∃ y, height = Some y ∧ y ∈ ys end.
(** In the lane of recoveries, or in a recovery the session received. *)
Definition sought (evs : list ChunkResyncEvent) s (c : ColumnKey) (height : option Z) : Prop :=
  (∃ recovery, rs_recovery s !! c = Some recovery ∧ includes (rr_requested_ys recovery) height) ∨
  ∃ ev, ev ∈ evs ∧ event_column ev = c ∧ includes (cr_requested_ys ev) height.

Lemma includes_incl `{ElemOf Z A} `{ElemOf Z B} (ys : option A) (ys' : option B) height :
  match ys' with None => True | Some k => ∃ l, ys = Some l ∧ ∀ y, y ∈ l → y ∈ k end → includes ys height → includes ys' height.
Proof. destruct ys' as [k|]; [|done]. intros (l & -> & Hl) (y & -> & Hy). exists y. auto. Qed.
Lemma covered_sought evs s ev height : covered evs s ev → includes (cr_requested_ys ev) height → sought evs s (event_column ev) height.
Proof.
  intros [(recovery & Hl & Hys)|(ev' & Hin & Hc & Hys)] Hi; [left; exists recovery|right; exists ev']; (split; [done|]); [|split; [done|]]; by eapply includes_incl.
Qed.
Lemma recovery_names packet c height : packet_cached packet → names packet c height →
  ∃ ev, ev ∈ pending_packet_recovery packet ∧ event_column ev = c ∧ includes (cr_requested_ys ev) height.
Proof.
  destruct packet as [p|p]; simpl; intros Hc.
  - intros [-> ->]. eexists. split; [by left|]. by destruct p.
  - rewrite Hc. intros (entry & x & y & z & He & Hpos & -> & ->). assert (Hin : (x, y, z) ∈ entry_position p <$> sp_entries p) by (apply list_elem_of_fmap; by exists entry).
    apply by_column_lookup in Hin. destruct (by_column (entry_position p <$> sp_entries p) !! (x, z)) as [ys|] eqn:Hys; [|by apply elem_of_empty in Hin]. simpl in Hin.
    eexists. split; [|split].
    + unfold sub_chunk_recoveries. apply list_elem_of_fmap. exists ((x, z), ys). split; [done|]. rewrite merge_sort_Permutation. by apply elem_of_map_to_list.
    + done.
    + simpl. exists y. split; [done|]. unfold sorted_ys. by rewrite merge_sort_Permutation, elem_of_elements.
Qed.

Section runs.
Context (layout : Layout) (limits : BlobCacheLimits) (xxh64 : Blob → Z) (Limits : limits_ok limits) (Layout_ok : layout_ok layout).
Notation resolver_ok := (resolver_ok limits xxh64).
Notation idle := (idle limits xxh64).
Notation stands_for := (stands_for xxh64).

(** ** What a call keeps *)

Record keeps (evs : list ChunkResyncEvent) (values : list ResolverReady) s s' : Prop := {
  ke_pending q t : rs_pending s !! q = Some t →
    (∃ t', rs_pending s' !! q = Some t' ∧ pt_packet t' = pt_packet t) ∨ (∃ r, rs_ready s' !! q = Some r ∧ stands_for (pt_packet t) (rd_value r)) ∨
    (∀ ev, ev ∈ pending_packet_recovery (pt_packet t) → covered evs s' ev);
  ke_ready q r : rs_ready s !! q = Some r →
    rs_ready s' !! q = Some r ∨ rd_value r ∈ values ∨ (∀ ev, ev ∈ ready_value_recovery (rd_value r) → covered evs s' ev);
  ke_lane ev : covers (rs_recovery s) ev → covered evs s' ev;
}.
Lemma kept_keeps evs values s s' : kept xxh64 evs s s' → keeps evs values s s'.
Proof using Type.
  clear Limits Layout_ok. intros [P R L]. assert (Hc : ∀ ev, covers (rs_recovery s') ev ∨ ev ∈ evs → covered evs s' ev).
  { intros ev [?|?]; [by left|right; exists ev; split; [done|apply asks_refl]]. }
  split.
  - intros q t Hq. destruct (P q t Hq) as [?|[?|Hcov]]; [by left|by right; left|right; right]. intros ev Hev. by apply Hc, Hcov.
  - intros q r Hq. destruct (R q r Hq) as [?|Hcov]; [by left|right; right]. intros ev Hev. by apply Hc, Hcov.
  - intros ev Hev. by left; apply L.
Qed.

Lemma into_event_asks key recovery ev : recovery_ok key recovery → event_column ev = key →
  (match rr_requested_ys recovery with None => True | Some ys => ∃ l, cr_requested_ys ev = Some l ∧ ∀ y, y ∈ l → y ∈ ys end) → asks (recovery_into_event recovery) ev.
Proof using Type.
  clear Limits Layout_ok. intros [Hc _] Hcol Hys. split; [by rewrite Hcol|]. simpl. destruct (rr_requested_ys recovery) as [ys|]; simpl; [|done].
  destruct Hys as (l & Hl & Hin). exists l. split; [done|]. intros y Hy. unfold sorted_ys. rewrite merge_sort_Permutation, elem_of_elements. by apply Hin.
Qed.

Lemma pops_keep s value s' : idle s → pops s value s' →
  keeps (given (Ok (OutReady value))) (option_list value) s s' ∧ rs_next_sequence s' = rs_next_sequence s.
Proof using Type.
  clear Limits Layout_ok. intros Hs Hp. destruct Hp as [key recovery Hk Hleast|q r Hrec Hf Hless|q r Hrec Hf Hless|Hrec Hno]; (split; [|done]).
  - split; simpl.
    + intros q t Hq. left. eauto.
    + intros q r Hq. by left.
    + intros ev (rec & Hl & Hys). destruct (decide (event_column ev = key)) as [Heq|Hne].
      * right. eexists. split; [by left|]. rewrite Heq in Hl. assert (rec = recovery) as -> by congruence.
        eapply into_event_asks; [apply (ro_recovery _ _ _ _ (id_ok _ _ _ Hs) _ _ Hk)|done|done].
      * left. exists rec. split; [|done]. simpl. by rewrite lookup_delete_ne.
  - split; simpl.
    + intros q0 t Hq. left. eauto.
    + intros q0 r0 Hq. destruct (decide (q0 = q)) as [->|Hne]; [right; left|left; by rewrite lookup_delete_ne].
      pose proof (ff_item _ _ _ _ Hf) as Hx. assert (r0 = r) as -> by congruence. by left.
    + intros ev Hev. by left.
  - split; simpl; [intros q0 t Hq; left; eauto|by left|by left].
  - split; [intros q0 t Hq; left; eauto|by left|by left].
Qed.

Lemma pops_waits s value s' v n : pops s value s' → waits_absent s → waits_absent (with_readings n (with_stats v s')).
Proof using Type. clear Limits Layout_ok. by intros []. Qed.

(** ** One call *)

Record good op s (answer : Answer) s' : Prop := {
  go_idle : idle s';
  go_waits : waits_absent s → waits_absent s';
  go_next : rs_next_sequence s' ≤ rs_next_sequence s + 1;
  go_keeps : forgets op answer = false → keeps (given answer) (handed answer) s s';
}.
Lemma blank_good op s answer s' : idle s → forgets op answer = true → blank limits xxh64 s' → good op s answer s'.
Proof using Type.
  clear Limits Layout_ok. intros Hs Hf []. split; [by split|intros _; by eapply (empty_waits limits xxh64)| |congruence]. pose proof (ro_next _ _ _ _ (id_ok _ _ _ Hs)). lia.
Qed.

Lemma perform_good op s : idle s → op_ok op → rs_next_sequence s < USIZE_MAX →
  ewp (perform layout limits xxh64 op) s (λ out s', good op s (Ok out) s') (λ e s', good op s (Err e) s').
Proof using Limits Layout_ok.
  intros Hs Hop Hn. pose proof Hs as [Hok Hp Hr]. destruct op as [packet raw|blobs|value bytes| | | | | |]; simpl in *; ewp_step.
  - apply (ewp_accept layout limits xxh64 Limits Layout_ok); [done..| |].
    + intros p sc status s' _ _ _ [[] _ _ _]. ewp_step. split; [by split|done|lia|]. intros _. by apply kept_keeps.
    + intros e s' _ Hb. by apply blank_good.
  - apply (ewp_miss layout limits xxh64 Limits Layout_ok); [done| |].
    + intros accepted s' Hs' Ha. ewp_step. split; [apply Hs'|by apply (handled_waits limits xxh64 blobs.*1)|pose proof (hd_next _ _ _ _ _ Hs'); lia|]. destruct Hs'. intros _. by apply kept_keeps.
    + intros s' Hb. by apply blank_good.
  - apply (ewp_accept_immediate layout limits xxh64 Layout_ok ∅); [done..| |].
    + intros v n Hok'. ewp_step. split; [by split|done|simpl; lia|]. intros _. by apply kept_keeps, kept_core.
    + intros e v _ Hok'. split; [by split|done|simpl; lia|]. intros _. by apply kept_keeps, kept_core.
  - apply (ewp_pop layout limits xxh64 Layout_ok); [done|]. intros value s1 v n Hpop Hs1. ewp_step. destruct (pops_keep _ _ _ Hs Hpop) as [[] Hnext].
    split; [by apply idle_counted|by eapply pops_waits|simpl; lia|]. intros _. by split.
  - apply (ewp_unblock_lane layout limits xxh64 Limits Layout_ok); [done|]. intros b s' Hs' _ _ _. ewp_step. split; [apply Hs'|apply (handled_waits limits xxh64 [] _ _ Hs'); by intros ?? ?%elem_of_nil|pose proof (hd_next _ _ _ _ _ Hs'); lia|]. destruct Hs'. intros _. by apply kept_keeps.
  - apply (ewp_recover_pending layout limits xxh64 Limits Layout_ok); [done|]. intros s' [Hs' Hk Hn' Hw] _. ewp_step. split; [done|done|lia|]. intros _. by apply kept_keeps.
  - apply (ewp_reset limits xxh64 Limits ∅); [done|done|]. intros s' Hb. ewp_step. by apply blank_good.
  - unfold arm_fast_transfer_reset. ewp_step. ewp_step. split; [|done|simpl; lia|intros _; by apply kept_keeps, kept_core]. split; [|done|done].
    pose proof (resolver_ok_stats limits xxh64 ∅ (rs_stats s) (rs_readings s) true (rs_lane_stalled s) s Hok) as []. by split.
  - apply (ewp_fast_transfer layout limits xxh64 Limits Layout_ok); [done|]. intros b s' [Hs' Hk Hn' Hw] _. ewp_step. split; [done|done|lia|]. intros _. by apply kept_keeps.
Qed.

Lemma perform_total op s : idle s → op_ok op → rs_next_sequence s < USIZE_MAX → ∃ answer s', perform layout limits xxh64 op s = Some (answer, s') ∧ good op s answer s'.
Proof using Limits Layout_ok.
  intros Hs Hop Hn. pose proof (perform_good op s Hs Hop Hn) as H. unfold ewp in H. destruct (perform _ _ _ _ _) as [[[out|e] s']|]; [eauto|eauto|done].
Qed.

Lemma run_total ops s : idle s → Forall op_ok ops → rs_next_sequence s + Z.of_nat (length ops) ≤ USIZE_MAX →
  ∃ log s', run layout limits xxh64 ops s = Some (log, s') ∧ idle s' ∧ (waits_absent s → waits_absent s') ∧ length log = length ops ∧ rs_next_sequence s' ≤ rs_next_sequence s + Z.of_nat (length ops).
Proof using Limits Layout_ok.
  revert s. induction ops as [|op ops IH]; intros s Hs Hops Hn; cbn [run length] in *.
  { exists [], s. split; [done|]. split; [done|]. split; [done|]. split; [done|lia]. }
  apply Forall_cons in Hops as [Hop Hops]. destruct (perform_total op s Hs Hop) as (answer & s1 & -> & [Hs1 Hw1 Hn1 _]); [lia|]. cbn [mbind option_bind].
  destruct (IH s1 Hs1 Hops) as (log & s2 & -> & Hs2 & Hw2 & Hlen & Hn2); [lia|]. cbn [mbind option_bind]. exists (answer :: log), s2. split; [done|]. split; [done|]. split; [auto|]. split; [simpl; lia|lia].
Qed.

(** ** The ledger *)

(** Where a packet that took sequence [q] is: waiting, ready, handed out, or given up for recoveries. *)
Definition accounted (evs : list ChunkResyncEvent) (values : list ResolverReady) (packet : PendingPacket) q s : Prop :=
  (∃ t, rs_pending s !! q = Some t ∧ pt_packet t = packet) ∨ (∃ r, rs_ready s !! q = Some r ∧ stands_for packet (rd_value r)) ∨
  (∃ v, v ∈ values ∧ stands_for packet v) ∨ (∀ ev, ev ∈ pending_packet_recovery packet → covered evs s ev).

Lemma covered_mono evs evs' s ev : covered evs s ev → (∀ ev, ev ∈ evs → ev ∈ evs') → covered evs' s ev.
Proof using Type. clear Limits Layout_ok. intros [?|(ev' & ? & ?)] Hsub; [by left|right; eauto]. Qed.
Lemma covered_step evs evs' values s s' ev : covered evs s ev → keeps evs' values s s' → covered (evs ++ evs') s' ev.
Proof using Type.
  clear Limits Layout_ok. intros [Hl|(ev' & Hin & Ha)] Hk.
  - eapply covered_mono; [by apply (ke_lane _ _ _ _ Hk)|]. intros. apply elem_of_app. by right.
  - right. exists ev'. split; [apply elem_of_app; by left|done].
Qed.
Lemma accounted_step evs values evs' values' packet q s s' : accounted evs values packet q s → keeps evs' values' s s' →
  accounted (evs ++ evs') (values ++ values') packet q s'.
Proof using Type.
  clear Limits Layout_ok. intros Ha Hk. assert (Hnew : ∀ l : list ChunkResyncEvent, (∀ ev, ev ∈ l → covered evs' s' ev) → ∀ ev, ev ∈ l → covered (evs ++ evs') s' ev).
  { intros l Hl ev Hev. eapply covered_mono; [by apply Hl|]. intros. apply elem_of_app. by right. }
  destruct Ha as [(t & Ht & <-)|[(r & Hr & Hst)|[(v & Hv & Hst)|Hc]]].
  - destruct (ke_pending _ _ _ _ Hk q t Ht) as [(t' & ? & ?)|[(r & ? & ?)|Hc]]; [left; eauto|right; left; eauto|right; right; right; by apply Hnew].
  - destruct (ke_ready _ _ _ _ Hk q r Hr) as [?|[?|Hc]]; [right; left; eauto| |].
    + right. right. left. exists (rd_value r). split; [apply elem_of_app; by right|done].
    + right. right. right. rewrite <-(stands_recovery _ _ _ Hst). by apply Hnew.
  - right. right. left. exists v. split; [apply elem_of_app; by left|done].
  - right. right. right. intros ev Hev. by eapply covered_step; [apply Hc|].
Qed.

(** The same of what must be asked for: the packet waits, is ready, was handed out, or all it names is sought. *)
Definition placed_or_sought (evs : list ChunkResyncEvent) (values : list ResolverReady) (packet : PendingPacket) q s : Prop :=
  (∃ t, rs_pending s !! q = Some t ∧ pt_packet t = packet) ∨ (∃ r, rs_ready s !! q = Some r ∧ stands_for packet (rd_value r)) ∨
  (∃ v, v ∈ values ∧ stands_for packet v) ∨ (∀ c height, names packet c height → sought evs s c height).
Lemma accounted_sought evs values packet q s : packet_cached packet → accounted evs values packet q s → placed_or_sought evs values packet q s.
Proof using Type.
  clear Limits Layout_ok. intros Hc [?|[?|[?|Hcov]]]; [by left|by right; left|by right; right; left|right; right; right].
  intros c height Hn. destruct (recovery_names _ _ _ Hc Hn) as (ev & Hev & <- & Hi). by apply covered_sought; [apply Hcov|].
Qed.

(** No call of the run forgets. *)
Definition remembers (ops : list ResolverOp) (log : list Answer) : Prop := Forall (λ x, forgets x.1 x.2 = false) (zip ops log).

Lemma run_keeps (P : list ChunkResyncEvent → list ResolverReady → Resolver → Prop) ops s log s' evs values :
  (∀ evs values evs' values' s s', P evs values s → keeps evs' values' s s' → P (evs ++ evs') (values ++ values') s') →
  idle s → Forall op_ok ops → rs_next_sequence s + Z.of_nat (length ops) ≤ USIZE_MAX → run layout limits xxh64 ops s = Some (log, s') → remembers ops log →
  P evs values s → P (evs ++ (log ≫= given)) (values ++ (log ≫= handed)) s'.
Proof using Limits Layout_ok.
  intros HP. revert s log evs values. induction ops as [|op ops IH]; intros s log evs values Hs Hops Hn Hrun Hrem H0; cbn [run length] in *.
  { injection Hrun as <- <-. simpl. by rewrite !app_nil_r. }
  apply Forall_cons in Hops as [Hop Hops]. destruct (perform_total op s Hs Hop) as (answer & s1 & Hperf & [Hs1 _ Hn1 Hk]); [lia|]. rewrite Hperf in Hrun. cbn [mbind option_bind] in Hrun.
  destruct (run layout limits xxh64 ops s1) as [[log' s2]|] eqn:Hrest; [|done]. cbn [mbind option_bind] in Hrun. injection Hrun as <- <-.
  unfold remembers in Hrem. cbn [zip zip_with] in Hrem. apply Forall_cons in Hrem as [Hf Hrem]. rewrite !bind_cons, !app_assoc.
  eapply (IH s1); [done|done|lia|done|done|]. eapply HP; [done|]. by apply Hk.
Qed.
End runs.

(** ** Properties of the blob cache resolver *)

(** ** A small scene *)

Definition demo_layout : Layout := mk_layout 8 8 8 8 8 8 8 8 8 8 8 (λ _, 4).
Lemma demo_layout_ok : layout_ok demo_layout.
Proof. split; unfold small_size; simpl; try lia. intros _. unfold COUNT_BOUND. lia. Qed.
Lemma demo_limits_ok : limits_ok demo_limits.
Proof. by split. Qed.
Lemma new_idle limits xxh64 cache : store_ok limits cache → addressed xxh64 cache → cs_pins cache = ∅ → idle limits xxh64 (resolver_new cache).
Proof.
  intros Hc Ha Hp. split; [split|..]; simpl; try done; try (intros ? ? H; by rewrite lookup_empty in H); try (intros ? ? ? H; by rewrite lookup_empty in H).
  - intros q [t H]. by rewrite lookup_empty in H.
  - intros hash. unfold pin_count. simpl. by rewrite Hp, lookup_empty.
Qed.
Lemma demo_idle : idle demo_limits demo_hash (resolver_new cache_default).
Proof. apply new_idle; [apply cache_default_ok, demo_limits_ok|done|done]. Qed.

(** A column of two bodies, the first cached twice over, and what the server answers. *)
Definition demo_chunk : LevelChunk := mk_level_chunk_packet 0 3 4 1 None true [demo_hash [1; 2]; demo_hash [3]] [9].
Definition demo_calls : list ResolverOp :=
  [OpCachedPacket (PacketLevelChunk demo_chunk) (Some 40); OpImmediate (ReadyEvent (EventLevelChunk (mk_column 0 3 4))) 5; OpPop;
   OpMissResponse [(demo_hash [3], [3]); (demo_hash [1; 2], [1; 2])]; OpPop; OpPop; OpPop].
Example demo_answers : (λ '(log, s), (log ≫= handed, size (rs_pending s), pin_count (rs_cache s) (demo_hash [3]))) <$> run demo_layout demo_limits demo_hash demo_calls (resolver_new cache_default) =
  Some ([ReadyPacket (PacketLevelChunk (mk_level_chunk_packet 0 3 4 1 None false [] [1; 2; 3; 9])); ReadyEvent (EventLevelChunk (mk_column 0 3 4))], 0%nat, 0).
Proof. vm_compute. reflexivity. Qed.
Lemma demo_arrival : arrival_ok (PacketLevelChunk demo_chunk) (Some 40).
Proof. split; [intros p [= <-]; split; [done|simpl; unfold COUNT_BOUND; lia]|intros n [= <-]; lia]. Qed.
Lemma demo_calls_ok : Forall op_ok demo_calls.
Proof. unfold demo_calls. rewrite !Forall_cons. do 7 (split; [first [exact demo_arrival|done]|]). by apply Forall_nil_2. Qed.

(** ** Runs *)

(** C12: no run of calls panics or hangs, whatever packets, responses and pops it mixes, and between calls the invariant
    holds: every pending transaction is indexed under each absent body it names and under no present one, so that it waits
    exactly for the absent ones, and it pins all of its bodies once, so that no pin count passes the bound on transactions; each waited hash is asked for by a transaction that
    waits for it, running totals equal their sums, and every queue is within its bound. *)
Theorem resolver_runs layout limits xxh64 cache ops : layout_ok layout → limits_ok limits → store_ok limits cache → addressed xxh64 cache → cs_pins cache = ∅ →
  Forall op_ok ops → Z.of_nat (length ops) ≤ USIZE_MAX →
  ∃ log s, run layout limits xxh64 ops (resolver_new cache) = Some (log, s) ∧ idle limits xxh64 s ∧ waits_absent s ∧
    (∀ hash, pin_count (rs_cache s) hash ≤ MAX_CLIENT_BLOB_PENDING_TRANSACTIONS) ∧ length log = length ops.
Proof.
  intros Hlay Hlim Hc Ha Hp Hops Hn. destruct (run_total layout limits xxh64 Hlim Hlay ops (resolver_new cache)) as (log & s & ? & Hidle & Hw & ? & _); [by apply new_idle|done|simpl; lia|].
  exists log, s. split; [done|]. split; [done|]. split; [apply Hw; intros hash q Hq; by apply elem_of_empty in Hq|]. split; [|done].
  intros hash. eapply pins_bounded; by apply Hidle.
Qed.
Lemma resolver_runs_witness : ∃ log s, run demo_layout demo_limits demo_hash demo_calls (resolver_new cache_default) = Some (log, s) ∧ idle demo_limits demo_hash s ∧ waits_absent s ∧
  (∀ hash, pin_count (rs_cache s) hash ≤ MAX_CLIENT_BLOB_PENDING_TRANSACTIONS) ∧ length log = 7%nat.
Proof.
  apply (resolver_runs demo_layout demo_limits demo_hash cache_default demo_calls); [apply demo_layout_ok|apply demo_limits_ok|apply cache_default_ok, demo_limits_ok|done|done|apply demo_calls_ok|].
  unfold USIZE_MAX. simpl. lia.
Defined.

(** C13: no chunk is lost: after a cached packet is answered and through any later calls without a reset, an admitted packet
    is still waiting, or ready with verified bodies inline, or handed out so, or all it names is asked for again - the
    whole column of a level chunk, the height of each entry of a sub-chunk reply - by a recovery in the lane or one the
    session received. A refused level chunk's column is asked for from the start; a refused sub-chunk reply is left to the
    deadline of the request it answers, and its status alone reports it. *)
Theorem packet_never_lost layout limits xxh64 packet raw p ops s status s1 log s2 : layout_ok layout → limits_ok limits → idle limits xxh64 s → arrival_ok packet raw →
  pending_of packet = Some p → Forall op_ok ops → rs_next_sequence s + Z.of_nat (length ops) < USIZE_MAX →
  perform layout limits xxh64 (OpCachedPacket packet raw) s = Some (Ok (OutStatus status), s1) → run layout limits xxh64 ops s1 = Some (log, s2) → remembers ops log →
  (st_accepted status = true → placed_or_sought xxh64 ((Ok (OutStatus status) :: log) ≫= given) (log ≫= handed) p (rs_next_sequence s) s2) ∧
  (st_accepted status = false → ∀ chunk, packet = PacketLevelChunk chunk → sought ((Ok (OutStatus status) :: log) ≫= given) s2 (level_chunk_column chunk) None).
Proof.
  intros Hlay Hlim Hs Har Hp Hops Hn Hperf Hrun Hrem.
  assert (Hans : packet_cached p ∧ ∃ sc, answered limits xxh64 p s sc status s1).
  { pose proof (ewp_accept layout limits xxh64 Hlim Hlay packet raw s (λ status s', packet_cached p ∧ ∃ sc, answered limits xxh64 p s sc status s') (λ _ _, True) Har Hs) as H. forward H; [lia|].
    forward H; [intros p' sc st s' Hp' Hc _ Ha; assert (p' = p) as -> by congruence; eauto|]. forward H; [done|]. simpl in Hperf. unfold mbind, eff_bind in Hperf. unfold ewp in H.
    destruct (accept_cached_packet _ _ _ _ _) as [[[st|e] s']|]; [|done|done]. injection Hperf as <- <-. done. }
  destruct Hans as (Hcached & sc & [[] Hacc Href _]). assert (Hs1 : idle limits xxh64 s1) by (by split). rewrite bind_cons. cbn [given]. split; intros Hst.
  - apply accounted_sought; [done|].
    apply (run_keeps layout limits xxh64 Hlim Hlay (λ evs values s', accounted xxh64 evs values p (rs_next_sequence s) s') ops s1 log s2 (option_list (st_recovery status)) []); [|done|done|lia|done|done|].
    + intros evs values evs' values' s3 s4. apply accounted_step.
    + destruct (Hacc Hst) as [?|?]; [by left|by right; left].
  - intros chunk ->. simpl in Hp. injection Hp as <-. set (ev := level_chunk_recovery chunk). apply (covered_sought _ _ ev None); [|done].
    apply (run_keeps layout limits xxh64 Hlim Hlay (λ evs _ s', covered evs s' ev) ops s1 log s2 (option_list (st_recovery status)) []); [|done|done|lia|done|done|].
    + intros evs values evs' values' s3 s4. apply covered_step.
    + destruct (Href Hst ev) as [?|?]; [by left|by left|right; exists ev; split; [done|apply asks_refl]].
Qed.

Definition is_status (x : option (Answer * Resolver)) : bool := match x with Some (Ok (OutStatus _), _) => true | _ => false end.
Lemma demo_accepts : is_status (perform demo_layout demo_limits demo_hash (OpCachedPacket (PacketLevelChunk demo_chunk) (Some 40)) (resolver_new cache_default)) = true.
Proof. vm_compute. reflexivity. Qed.
Lemma is_status_Some x : is_status x = true → ∃ status s, x = Some (Ok (OutStatus status), s).
Proof. destruct x as [[[[]|] ?]|]; try discriminate. intros _. by do 2 eexists. Qed.
Lemma pops_remembered layout limits xxh64 s log s' : run layout limits xxh64 [OpPop] s = Some (log, s') → remembers [OpPop] log.
Proof. cbn [run]. destruct (perform layout limits xxh64 OpPop s) as [[a s3]|]; [|done]. cbn [mbind option_bind]. intros [= <- _]. by apply Forall_cons. Qed.

Lemma pops_ok : Forall op_ok [OpPop].
Proof. by apply Forall_cons. Qed.

Lemma packet_never_lost_witness : ∃ status s1 log s2, run demo_layout demo_limits demo_hash [OpPop] s1 = Some (log, s2) ∧
  (st_accepted status = true → placed_or_sought demo_hash ((Ok (OutStatus status) :: log) ≫= given) (log ≫= handed) (PendingLevelChunk demo_chunk) 0 s2) ∧
  (st_accepted status = false → ∀ chunk, PacketLevelChunk demo_chunk = PacketLevelChunk chunk → sought ((Ok (OutStatus status) :: log) ≫= given) s2 (level_chunk_column chunk) None).
Proof.
  destruct (is_status_Some _ demo_accepts) as (status & s1 & Hperf).
  destruct (perform_total demo_layout demo_limits demo_hash demo_limits_ok demo_layout_ok (OpCachedPacket (PacketLevelChunk demo_chunk) (Some 40)) _ demo_idle demo_arrival) as (a & s1' & Hperf' & [Hs1 _ Hn1 _]); [reflexivity|].
  rewrite Hperf in Hperf'. injection Hperf' as <- <-.
  destruct (run_total demo_layout demo_limits demo_hash demo_limits_ok demo_layout_ok [OpPop] s1 Hs1) as (log & s2 & Hrun & _); [exact pops_ok|clear -Hn1; cbn [rs_next_sequence resolver_new length] in *; unfold USIZE_MAX; lia|].
  exists status, s1, log, s2. split; [exact Hrun|].
  apply (packet_never_lost demo_layout demo_limits demo_hash (PacketLevelChunk demo_chunk) (Some 40) (PendingLevelChunk demo_chunk) [OpPop] (resolver_new cache_default) status s1 log s2).
  - exact demo_layout_ok.
  - exact demo_limits_ok.
  - exact demo_idle.
  - exact demo_arrival.
  - reflexivity.
  - exact pops_ok.
  - reflexivity.
  - exact Hperf.
  - exact Hrun.
  - exact (pops_remembered _ _ _ _ _ _ Hrun).
Defined.

(** ** Single calls *)

Lemma refused_sought limits xxh64 chunk s sc status s' : answered limits xxh64 (PendingLevelChunk chunk) s sc status s' → st_accepted status = false →
  sought (option_list (st_recovery status)) s' (level_chunk_column chunk) None.
Proof.
  intros Ha Hst. apply (covered_sought _ _ (level_chunk_recovery chunk) None); [|done].
  destruct (an_refused _ _ _ _ _ _ _ Ha Hst (level_chunk_recovery chunk)) as [?|?]; [by left|by left|right; eexists; split; [done|apply asks_refl]].
Qed.

(** C14: a cached packet is always answered: it is admitted, waiting or already ready at the next sequence, or refused; a
    refused level chunk's column is asked for, a refused sub-chunk reply is reported by its status alone. The status lists
    exactly the packet's hashes whose bodies the cache has, those that are absent and must be asked for, and those that are
    absent and already asked for, as they are when the packet arrives, or under pressure once the oldest transaction gave
    way. Nothing retained before is lost. Otherwise the packet was not a cached one, or its byte count overflows, and
    everything is reset. *)
Theorem cached_packet_answered layout limits xxh64 packet raw s : layout_ok layout → limits_ok limits → idle limits xxh64 s → arrival_ok packet raw →
  rs_next_sequence s < USIZE_MAX → ∃ r s', accept_cached_packet layout limits packet raw s = Some (r, s') ∧
    match r with
    | Ok status => ∃ p sc, pending_of packet = Some p ∧ packet_cached p ∧ classified_in layout limits p s sc ∧ answered limits xxh64 p s sc status s' ∧
        (st_accepted status = false → ∀ chunk, packet = PacketLevelChunk chunk → sought (option_list (st_recovery status)) s' (level_chunk_column chunk) None)
    | Err e => (e = NotCachedPacket ∨ e = ByteCountOverflow) ∧ blank limits xxh64 s'
    end.
Proof.
  intros Hlay Hlim Hs Har Hn.
  pose proof (ewp_accept layout limits xxh64 Hlim Hlay packet raw s (λ status s', ∃ p sc, pending_of packet = Some p ∧ packet_cached p ∧ classified_in layout limits p s sc ∧ answered limits xxh64 p s sc status s' ∧
      (st_accepted status = false → ∀ chunk, packet = PacketLevelChunk chunk → sought (option_list (st_recovery status)) s' (level_chunk_column chunk) None))
    (λ e s', (e = NotCachedPacket ∨ e = ByteCountOverflow) ∧ blank limits xxh64 s') Har Hs Hn) as H.
  forward H. { intros p sc status s' Hp Hc Hsc Ha. exists p, sc. do 4 (split; [done|]). intros Hst chunk ->. injection Hp as <-. by eapply refused_sought. }
  forward H; [done|]. unfold ewp in H. destruct (accept_cached_packet _ _ _ _ _) as [[[st|e] s']|]; [| |done]; do 2 eexists; (split; [done|exact H]).
Qed.
Lemma cached_packet_answered_witness : ∃ r s', accept_cached_packet demo_layout demo_limits (PacketLevelChunk demo_chunk) (Some 40) (resolver_new cache_default) = Some (r, s') ∧
  match r with
  | Ok status => ∃ p sc, pending_of (PacketLevelChunk demo_chunk) = Some p ∧ packet_cached p ∧ classified_in demo_layout demo_limits p (resolver_new cache_default) sc ∧
      answered demo_limits demo_hash p (resolver_new cache_default) sc status s' ∧
      (st_accepted status = false → ∀ chunk, PacketLevelChunk demo_chunk = PacketLevelChunk chunk → sought (option_list (st_recovery status)) s' (level_chunk_column chunk) None)
  | Err e => (e = NotCachedPacket ∨ e = ByteCountOverflow) ∧ blank demo_limits demo_hash s'
  end.
Proof. apply cached_packet_answered; [apply demo_layout_ok|apply demo_limits_ok|apply demo_idle|apply demo_arrival|done]. Defined.

(** C15: a miss response ends the waiting for each of its hashes: afterwards no pending transaction waits for one of them,
    because its bodies were verified and published or because the transactions that waited were given up for recoveries,
    even when a body is forged, contradicts another, was never asked for, or does not fit; nothing retained is lost. *)
Theorem miss_response_ends_waiting layout limits xxh64 blobs s : layout_ok layout → limits_ok limits → idle limits xxh64 s →
  ∃ r s', accept_miss_response layout limits xxh64 blobs s = Some (r, s') ∧
    match r with Ok _ => handled limits xxh64 blobs.*1 s s' ∧ answered_for blobs s' | Err e => e = ByteCountOverflow ∧ blank limits xxh64 s' end.
Proof.
  intros Hlay Hlim Hs. pose proof (ewp_miss layout limits xxh64 Hlim Hlay blobs s (λ _ s', handled limits xxh64 blobs.*1 s s' ∧ answered_for blobs s')
    (λ e s', e = ByteCountOverflow ∧ blank limits xxh64 s') Hs) as H. forward H; [done|]. forward H; [done|].
  unfold ewp in H. destruct (accept_miss_response _ _ _ _ _) as [[[b|e] s']|]; [| |done]; do 2 eexists; (split; [done|exact H]).
Qed.
Lemma miss_response_ends_waiting_witness : ∃ r s', accept_miss_response demo_layout demo_limits demo_hash [(demo_hash [3], [4])] (resolver_new cache_default) = Some (r, s') ∧
  match r with Ok _ => handled demo_limits demo_hash [demo_hash [3]] (resolver_new cache_default) s' ∧ answered_for [(demo_hash [3], [4])] s' | Err e => e = ByteCountOverflow ∧ blank demo_limits demo_hash s' end.
Proof. apply miss_response_ends_waiting; [apply demo_layout_ok|apply demo_limits_ok|apply demo_idle]. Defined.

(** C16: output is in order: recoveries leave first, the least column first; then, of the ready packets and ordinary items
    that share no column with earlier pending or ready cached work, the one that arrived first; nothing leaves only when
    every item is held back. Exactly that item is removed. *)
Theorem pop_exact layout limits xxh64 s : layout_ok layout → idle limits xxh64 s →
  ∃ value s1 v n, pop_ready_ingress layout s = Some (Ok value, with_readings n (with_stats v s1)) ∧ pops s value s1.
Proof.
  intros Hlay Hs. pose proof (ewp_pop layout limits xxh64 Hlay s (λ value s', ∃ s1 v n, s' = with_readings n (with_stats v s1) ∧ pops s value s1) (λ _ _, False) Hs) as H.
  forward H; [eauto 10|]. unfold ewp in H. destruct (pop_ready_ingress layout s) as [[[value|e] s']|]; [|done|done]. destruct H as (s1 & v & n & -> & Hp). by exists value, s1, v, n.
Qed.
Lemma pop_exact_witness : ∃ value s1 v n, pop_ready_ingress demo_layout (resolver_new cache_default) = Some (Ok value, with_readings n (with_stats v s1)) ∧ pops (resolver_new cache_default) value s1.
Proof. apply (pop_exact demo_layout demo_limits demo_hash); [apply demo_layout_ok|apply demo_idle]. Defined.

(** C17: the ordinary lane cannot stall: while ordinary work is queued, unblocking the lane leaves a state from which the
    next pop returns something. *)
Theorem lane_progress layout limits xxh64 s : layout_ok layout → limits_ok limits → idle limits xxh64 s → rs_immediate s ≠ ∅ →
  ∃ b s' value s2, unblock_ordinary_lane layout limits s = Some (Ok b, s') ∧ pop_ready_ingress layout s' = Some (Ok (Some value), s2).
Proof.
  intros Hlay Hlim Hs Hne. pose proof (ewp_unblock_lane layout limits xxh64 Hlim Hlay s (λ _ s', idle limits xxh64 s' ∧
    ∃ q r, (rs_ready s' !! q = Some r ∨ rs_immediate s' !! q = Some r) ∧ unblocked s' q (rd_columns r)) (λ _ _, False) Hs) as H.
  forward H. { intros b s' Hs' Hr Hi Hp. split; [by eapply handled_idle|]. by apply (lane_free limits xxh64 s s' (id_ok _ _ _ Hs)). }
  unfold ewp in H. destruct (unblock_ordinary_lane layout limits s) as [[[b|e] s']|]; [|done|done]. destruct H as (Hs' & q & r & Hq & Hf).
  pose proof (ewp_pop layout limits xxh64 Hlay s' (λ value _, is_Some value) (λ _ _, False) Hs') as H. forward H.
  { intros value s1 v n Hp _. destruct Hp as [? ? _ _|? ? _ _ _|? ? _ _ _|_ Hno]; [by eexists..|]. destruct (Hno q r Hq Hf). }
  unfold ewp in H. destruct (pop_ready_ingress layout s') as [[[value|e] s2]|] eqn:Hpop; [|done|done]. destruct H as [v ->]. by exists b, s', v, s2.
Qed.
Definition demo_queued : Resolver := join_immediate (ReadyEvent (EventLevelChunk (mk_column 0 3 4))) 5 (resolver_new cache_default).
Lemma demo_queued_idle : idle demo_limits demo_hash demo_queued.
Proof.
  destruct demo_idle as [Hok Hp Hr]. split; [|done|done]. apply join_ok; [done|done|done| |done]. unfold ready_total. simpl. by rewrite map_sum_empty.
Qed.
Lemma lane_progress_witness : ∃ b s' value s2, unblock_ordinary_lane demo_layout demo_limits demo_queued = Some (Ok b, s') ∧ pop_ready_ingress demo_layout s' = Some (Ok (Some value), s2).
Proof. apply (lane_progress demo_layout demo_limits demo_hash); [apply demo_layout_ok|apply demo_limits_ok|apply demo_queued_idle|done]. Defined.

(** C18: reconstruction is exact: when every body is cached, a level chunk becomes the bodies in the order its hashes name
    them followed by its own data, a sub-chunk reply keeps its entries with each named body before its tail, and the cache
    keeps its bodies and pins. *)
Theorem reconstruct_exact limits packet cache : store_ok limits cache → packet_cached packet → (∀ hash, hash ∈ packet_hashes packet → is_Some (body cache hash)) →
  reconstruction_len cache packet ≤ USIZE_MAX →
  ∃ value cache', reconstruct packet (packet_hashes packet) cache = Some (Ok value, cache') ∧ rebuilt (body cache) packet value ∧ store_ok limits cache' ∧ same_bodies cache cache'.
Proof.
  intros Hs Hc Hb Hlen. pose proof (ewp_reconstruct limits packet cache (λ value cache', rebuilt (body cache) packet value ∧ store_ok limits cache' ∧ same_bodies cache cache')
    (λ _ _, False) Hs Hc Hb Hlen) as H. forward H; [done|]. unfold ewp in H. destruct (reconstruct _ _ cache) as [[[value|e] cache']|]; [|done|done]. by exists value, cache'.
Qed.
(** The two bodies of [demo_chunk], inserted. *)
Definition demo_bodies : list (Z * Blob) := [(demo_hash [1; 2], [1; 2]); (demo_hash [3], [3])].
Definition demo_cache : CacheStore :=
  match for_each (λ '(hash, payload), insert_verified demo_limits hash payload) demo_bodies cache_default with Some (Ok _, cache) => cache | _ => cache_default end.
Lemma demo_cache_ok : store_ok demo_limits demo_cache.
Proof.
  pose proof (ewp_publish_each demo_limits demo_hash demo_limits_ok demo_bodies cache_default (λ _ cache, store_ok demo_limits cache) (λ _ _, True) (cache_default_ok _ demo_limits_ok)) as H.
  forward H; [done|]. forward H; [intros h p Hin; do 2 (apply elem_of_cons in Hin as [[= -> ->]|Hin]; [done|]); by apply elem_of_nil in Hin|].
  forward H; [by intros cache [? _ _ _] _|]. forward H; [done|]. unfold ewp in H. unfold demo_cache. destruct (for_each _ demo_bodies cache_default) as [[[u|e] cache]|]; [done|apply cache_default_ok, demo_limits_ok|done].
Qed.
Definition demo_packet : PendingPacket := PendingLevelChunk demo_chunk.
Lemma demo_bodies_cached hash : hash ∈ packet_hashes demo_packet → is_Some (body demo_cache hash).
Proof. intros [->|[->|?%elem_of_nil]%elem_of_cons]%elem_of_cons; [eexists; vm_compute; reflexivity|eexists; vm_compute; reflexivity|done]. Qed.
Example demo_rebuilt : fst <$> reconstruct demo_packet (packet_hashes demo_packet) demo_cache =
  Some (Ok (ReadyPacket (PacketLevelChunk (mk_level_chunk_packet 0 3 4 1 None false [] [1; 2; 3; 9])))).
Proof. vm_compute. reflexivity. Qed.
Lemma reconstruct_exact_witness : ∃ value cache', reconstruct demo_packet (packet_hashes demo_packet) demo_cache = Some (Ok value, cache') ∧
  rebuilt (body demo_cache) demo_packet value ∧ store_ok demo_limits cache' ∧ same_bodies demo_cache cache'.
Proof. apply (reconstruct_exact demo_limits demo_packet demo_cache); [exact demo_cache_ok|exact eq_refl|exact demo_bodies_cached|vm_compute; discriminate]. Defined.
