(* ===== verification/Lanes.v ===== *)
(** * Commit lanes

    [client-world/src/ingestion/lanes.rs]: what each world event reads and writes, and the summary of the unfinished
    events before one. Events carry the fields the classification reads; the rest of their payload is left out. *)
From stdpp Require Import base numbers list gmap sets sorting.
From S2P Require Import Prelude Keys Counting.
#[local] Open Scope Z_scope.

(** ** Consumers: a set of bits *)

Definition Consumers : Type := Z.
Definition C_NONE : Consumers := 0.
Definition C_ACTORS : Consumers := 1.
Definition C_CONTROLS : Consumers := Z.shiftl 1 1.
Definition C_UI : Consumers := Z.shiftl 1 2.
Definition C_AUDIO : Consumers := Z.shiftl 1 3.
Definition C_CAMERA : Consumers := Z.shiftl 1 4.
Definition C_PARTICLES : Consumers := Z.shiftl 1 5.
Definition C_SHAPES : Consumers := Z.shiftl 1 6.
Definition C_INVENTORY : Consumers := Z.shiftl 1 7.
Definition consumers_with (a b : Consumers) : Consumers := Z.lor a b.
Definition consumers_contains (a b : Consumers) : bool := Z.land a b =? b.
Definition consumers_intersects (a b : Consumers) : bool := negb (Z.land a b =? 0).
Definition consumers_is_empty (a : Consumers) : bool := a =? 0.

(** ** Footprints *)

Inductive FootprintColumns := NoColumns | One (column : ChunkKey) | Many (columns : list ChunkKey).

(** [columns.find(|&column| column != first)], with what the iterator has left. *)
Fixpoint find_other (first : ChunkKey) (l : list ChunkKey) : option (ChunkKey * list ChunkKey) :=
  match l with
  | [] => None
  | x :: l => if bool_decide (x = first) then find_other first l else Some (x, l)
  end.
Definition columns_from_iter (columns : list ChunkKey) : FootprintColumns :=
  match columns with
  | [] => NoColumns
  | first :: columns =>
    match find_other first columns with
    | None => One first
    | Some (second, rest) => Many (dedup (merge_sort chunk_key_le (first :: second :: rest)))
    end
  end.
Definition columns_slice (columns : FootprintColumns) : list ChunkKey :=
  match columns with NoColumns => [] | One column => [column] | Many columns => columns end.

Record Footprint := mk_footprint {
  fp_barrier : bool; fp_retention : bool; fp_positional : bool; fp_local_authority : bool; fp_mutation : bool; fp_heavy : bool;
  fp_consumers : Consumers; fp_columns : FootprintColumns }.
Definition footprint_default : Footprint := mk_footprint false false false false false false C_NONE NoColumns.
Definition footprint_barrier : Footprint := mk_footprint true false false false false false C_NONE NoColumns.
Definition footprint_session (consumers : Consumers) : Footprint := mk_footprint false false false false false false consumers NoColumns.
Definition footprint_inventory : Footprint := mk_footprint false false false true false false (consumers_with C_INVENTORY C_UI) NoColumns.
Definition footprint_terrain (columns : list ChunkKey) (heavy : bool) : Footprint :=
  mk_footprint false false false false false heavy C_NONE (columns_from_iter columns).
Definition is_nil {A} (l : list A) : bool := match l with [] => true | _ => false end.
Definition is_chunk_data (f : Footprint) : bool :=
  negb (is_nil (columns_slice (fp_columns f))) && negb (fp_barrier f) && negb (fp_retention f) && negb (fp_mutation f) && consumers_is_empty (fp_consumers f).

(** The struct updates of the classification. *)
Definition with_retention (f : Footprint) : Footprint :=
  mk_footprint (fp_barrier f) true (fp_positional f) (fp_local_authority f) (fp_mutation f) (fp_heavy f) (fp_consumers f) (fp_columns f).
Definition with_authority (positional : bool) (f : Footprint) : Footprint :=
  mk_footprint (fp_barrier f) (fp_retention f) positional true (fp_mutation f) (fp_heavy f) (fp_consumers f) (fp_columns f).
Definition with_mutation (f : Footprint) : Footprint :=
  mk_footprint (fp_barrier f) (fp_retention f) (fp_positional f) (fp_local_authority f) true (fp_heavy f) (fp_consumers f) (fp_columns f).
Definition with_consumers (consumers : Consumers) (f : Footprint) : Footprint :=
  mk_footprint (fp_barrier f) (fp_retention f) (fp_positional f) (fp_local_authority f) (fp_mutation f) (fp_heavy f) consumers (fp_columns f).

(** ** World events *)

Record BlockUpdateEvent := mk_block_update_event { bu_dimension : Z; bu_position : Z * Z * Z; bu_layer : Z; bu_network_id : Z }.
Record SyncedBlockUpdateEvent := mk_synced_update { su_update : BlockUpdateEvent; su_flags : Z; su_actor_unique_id : Z; su_message : Z }.
Inductive MovePlayerMode := ModeNormal | ModeReset | ModeTeleport | ModeRotation | ModeUnknown (code : Z).
Definition is_teleport (mode : MovePlayerMode) : bool := match mode with ModeTeleport => true | _ => false end.
Inductive MovementCorrectionSubject := SubjectPlayer | SubjectVehicle | SubjectUnknown (code : Z).
Definition is_player (subject : MovementCorrectionSubject) : bool := match subject with SubjectPlayer => true | _ => false end.
Definition ready_to_spawn (state : Z) : bool := state =? 1.
Record ActorMoveEvent := mk_actor_move { am_dimension : Z; am_runtime_id : Z; am_teleported : bool; am_force_local_move : bool; am_player_mode : option MovePlayerMode }.
Definition controls_local_actor (movement : ActorMoveEvent) : bool := am_teleported movement || am_force_local_move movement.

Inductive ActorEvent :=
  | ActorIdentifiers | ActorSpawn (runtime_id : Z) | ActorPaintingSpawn (runtime_id : Z) | ActorPlayerSpawn (runtime_id : Z) | ActorRemove
  | ActorMove (movement : ActorMoveEvent) | ActorMetadata (runtime_id : Z) | ActorAttributes (runtime_id : Z) | ActorPlayerList | ActorSkin
  | ActorStatus (runtime_id : Z) | ActorTakeItem.
Inductive AudioEvent := AudioPlay | AudioStop | AudioLevel (fire_at_position : bool) | AudioLevelEvent.
Inductive CameraEvent := CameraInputLocks | CameraOther.
Inductive UiEvent := UiPlayerGameMode | UiDefaultGameMode | UiHudHealth | UiBoss | UiOther.
Inductive ItemActorEvent := ItemRegistry | ItemAction.
Inductive ParticleEvent := ParticleSpawn (actor_unique_id : option Z) | ParticleOther.

Inductive WorldEvent :=
  | DimensionHeights | Experience | Abilities (actor_unique_id : Z) | BiomeDefinitions
  | LevelChunk (dimension x z : Z) | ChunkResync (dimension x z : Z)
  | SubChunkReplyAdmission (dimension : Z) (positions : list (Z * Z * Z)) | SubChunksEvent (dimension : Z) (positions : list (Z * Z * Z))
  | BlockUpdates (updates : list BlockUpdateEvent) | SyncedBlockUpdates (updates : list SyncedBlockUpdateEvent)
  | BlockEntityUpdate (dimension : Z) (position : Z * Z * Z) | BlockEvent (dimension : Z) (position : Z * Z * Z)
  | MapData | OpenSign (dimension : Z) (position : Z * Z * Z) | ChunkRadiusUpdated | PublisherUpdate | ChangeDimension | DimensionChangeAck
  | Respawn (state : Z) | MovePlayer (runtime_id : Z) (mode : MovePlayerMode) | PlayerMovementCorrection (subject : MovementCorrectionSubject)
  | ActorMotion (runtime_id : Z) | MovementEffect (runtime_id : Z) | NetworkStackLatency | SetTime | WorldSpawn | WorldClocks
  | GameRules (crafting_is_empty : bool) | Weather | Audio (event : AudioEvent) | Camera (event : CameraEvent) | Actor (event : ActorEvent)
  | ActorEffect (runtime_id : Z) | ActorLink | ActorPropertySync | Ui (event : UiEvent) | BlockCrack (position : Z * Z * Z)
  | Equipment | ArmorEquipment | Inventory | ItemActor (event : ItemActorEvent) | Particle (event : ParticleEvent) | PrimitiveShapes.

(** ** Classification *)

Record LaneContext := mk_lane_context { local_runtime_id : Z; local_unique_id : Z; context_dimension : Z }.

Definition block_column (dimension : Z) (position : Z * Z * Z) : ChunkKey :=
  let '(x, _, z) := position in mk_chunk_key dimension (x / 16) (z / 16).
Definition update_column (update : BlockUpdateEvent) : ChunkKey := block_column (bu_dimension update) (bu_position update).
Definition entry_column (dimension : Z) (position : Z * Z * Z) : ChunkKey := let '(x, _, z) := position in mk_chunk_key dimension x z.
Definition actor_sync (update : SyncedBlockUpdateEvent) : bool := negb (su_actor_unique_id update =? -1) && negb (su_message update =? 0).

Definition actor_consumers (event : ActorEvent) (context : LaneContext) : Consumers :=
  let local_runtime := λ runtime_id, runtime_id =? local_runtime_id context in
  let everyone := consumers_with (consumers_with C_ACTORS C_CONTROLS) C_UI in
  let others := consumers_with C_ACTORS C_UI in
  match event with
  | ActorMove _ | ActorIdentifiers => C_ACTORS
  | ActorSpawn id | ActorPlayerSpawn id | ActorPaintingSpawn id | ActorMetadata id | ActorAttributes id | ActorStatus id =>
    if local_runtime id then everyone else others
  | ActorPlayerList | ActorSkin => everyone
  | ActorTakeItem => consumers_with others C_AUDIO
  | ActorRemove => others
  end.

Definition classify_event (event : WorldEvent) (context : LaneContext) : Footprint :=
  let local := λ runtime_id, runtime_id =? local_runtime_id context in
  match event with
  | DimensionHeights | BiomeDefinitions | ChangeDimension => footprint_barrier
  | ChunkRadiusUpdated | PublisherUpdate => with_retention (footprint_session C_NONE)
  | Respawn state => with_retention (footprint_session (if ready_to_spawn state then consumers_with C_CONTROLS C_UI else C_CONTROLS))
  | MovePlayer runtime_id mode =>
    if negb (local runtime_id) then footprint_session C_ACTORS
    else if is_teleport mode then with_retention (footprint_session (consumers_with C_CONTROLS C_ACTORS))
    else with_authority true (footprint_session (consumers_with C_CONTROLS C_ACTORS))
  | PlayerMovementCorrection subject => if is_player subject then with_authority true (footprint_session C_CONTROLS) else footprint_session C_NONE
  | LevelChunk dimension x z | ChunkResync dimension x z => footprint_terrain [mk_chunk_key dimension x z] true
  | SubChunksEvent dimension positions => footprint_terrain (entry_column dimension <$> positions) true
  | SubChunkReplyAdmission dimension positions => footprint_terrain (entry_column dimension <$> positions) false
  | BlockUpdates updates => with_mutation (footprint_terrain (update_column <$> updates) true)
  | SyncedBlockUpdates updates =>
    with_consumers (if existsb actor_sync updates then C_ACTORS else C_NONE)
      (with_mutation (footprint_terrain ((λ update, update_column (su_update update)) <$> updates) true))
  | BlockEntityUpdate dimension position => footprint_terrain [block_column dimension position] true
  | BlockEvent dimension position => footprint_terrain [block_column dimension position] false
  | BlockCrack position => with_consumers C_UI (footprint_terrain [block_column (context_dimension context) position] false)
  | OpenSign dimension position => with_consumers C_UI (footprint_terrain [block_column dimension position] false)
  | NetworkStackLatency => with_authority false (footprint_session (consumers_with C_CONTROLS C_ACTORS))
  | ActorMotion runtime_id =>
    if local runtime_id then with_authority false (footprint_session (consumers_with C_ACTORS C_CONTROLS)) else footprint_session C_ACTORS
  | MovementEffect runtime_id => footprint_session (if local runtime_id then C_CONTROLS else C_NONE)
  | DimensionChangeAck | SetTime | WorldSpawn | WorldClocks | Weather => footprint_session C_CONTROLS
  | GameRules crafting_is_empty =>
    let consumers := consumers_with C_CONTROLS C_UI in
    footprint_session (if (crafting_is_empty : bool) then consumers else consumers_with consumers C_INVENTORY)
  | Audio (AudioLevel true) | Audio AudioLevelEvent => footprint_session (consumers_with C_AUDIO C_ACTORS)
  | Audio _ => footprint_session C_AUDIO
  | Camera CameraInputLocks => with_authority false (footprint_session C_CONTROLS)
  | Camera CameraOther => footprint_session (consumers_with (consumers_with C_CAMERA C_AUDIO) C_ACTORS)
  | PrimitiveShapes => footprint_session C_SHAPES
  | Actor event =>
    match event with
    | ActorMove movement =>
      if local (am_runtime_id movement) && (am_dimension movement =? context_dimension context) &&
         (match am_player_mode movement with None => true | Some _ => false end) && controls_local_actor movement
      then with_authority true (footprint_session (consumers_with C_CONTROLS C_ACTORS))
      else footprint_session (actor_consumers event context)
    | _ => footprint_session (actor_consumers event context)
    end
  | ActorEffect runtime_id => footprint_session (if local runtime_id then consumers_with C_CONTROLS C_UI else C_ACTORS)
  | Abilities actor_unique_id => if actor_unique_id =? local_unique_id context then with_authority false (footprint_session C_UI) else footprint_session C_NONE
  | ArmorEquipment | ActorPropertySync | Equipment => footprint_session C_ACTORS
  | ActorLink => footprint_session (consumers_with C_ACTORS C_UI)
  | ItemActor ItemAction => footprint_session (consumers_with C_ACTORS C_PARTICLES)
  | ItemActor ItemRegistry => footprint_session (consumers_with C_ACTORS C_INVENTORY)
  | Ui UiPlayerGameMode | Ui UiDefaultGameMode | Ui UiBoss => footprint_session (consumers_with C_UI C_ACTORS)
  | Ui UiHudHealth => footprint_session (consumers_with (consumers_with C_UI C_ACTORS) C_CONTROLS)
  | Ui UiOther | Experience | MapData => footprint_session C_UI
  | Particle (ParticleSpawn (Some _)) => footprint_session (consumers_with C_PARTICLES C_ACTORS)
  | Particle _ => footprint_session C_PARTICLES
  | Inventory => footprint_inventory
  end.
Definition classify (event : WorldEvent) (context : LaneContext) : Footprint :=
  let f := classify_event event context in
  mk_footprint (fp_barrier f) (fp_retention f) (fp_positional f)
    (fp_local_authority f || consumers_intersects (fp_consumers f) (consumers_with C_CONTROLS C_INVENTORY))
    (fp_mutation f) (fp_heavy f) (fp_consumers f) (fp_columns f).

(** ** The events before one *)

Record EarlierEvents := mk_earlier {
  ee_any : bool; ee_barrier : bool; ee_retention : bool; ee_terrain : bool; ee_mutation : bool; ee_consumers : Consumers; ee_columns : gset ChunkKey }.
Definition earlier_default : EarlierEvents := mk_earlier false false false false false C_NONE ∅.
Definition add_unknown (e : EarlierEvents) : EarlierEvents :=
  mk_earlier true true (ee_retention e) (ee_terrain e) (ee_mutation e) (ee_consumers e) (ee_columns e).
Definition earlier_add (couple_position : bool) (e : EarlierEvents) (f : Footprint) : EarlierEvents :=
  let columns := columns_slice (fp_columns f) in
  mk_earlier true (ee_barrier e || fp_barrier f) (ee_retention e || (fp_retention f || couple_position && fp_positional f))
    (ee_terrain e || negb (is_nil columns)) (ee_mutation e || fp_mutation f) (consumers_with (ee_consumers e) (fp_consumers f))
    (list_to_set columns ∪ ee_columns e).
Definition blocks (couple_position : bool) (e : EarlierEvents) (later : Footprint) : bool :=
  if negb (ee_any e) then false
  else
    let columns := columns_slice (fp_columns later) in
    let later_retention := fp_retention later || couple_position && fp_positional later in
    ee_barrier e || fp_barrier later || later_retention && (ee_terrain e || ee_retention e) || ee_retention e && negb (is_nil columns) ||
    fp_local_authority later && ee_mutation e || consumers_intersects (ee_consumers e) (fp_consumers later) ||
    existsb (λ column, bool_decide (column ∈ ee_columns e)) columns.
Definition is_barrier (e : EarlierEvents) : bool := ee_barrier e.

(** ** Conflicts of two events *)

(** Whether [later] must wait for the unfinished [earlier]: what [blocks] decides one event at a time. *)
Definition conflicts (couple_position : bool) (earlier later : Footprint) : bool :=
  let earlier_retention := fp_retention earlier || couple_position && fp_positional earlier in
  let later_retention := fp_retention later || couple_position && fp_positional later in
  let terrain f := negb (is_nil (columns_slice (fp_columns f))) in
  fp_barrier earlier || fp_barrier later || later_retention && (terrain earlier || earlier_retention) || earlier_retention && terrain later ||
  fp_local_authority later && fp_mutation earlier || consumers_intersects (fp_consumers earlier) (fp_consumers later) ||
  existsb (λ column, bool_decide (column ∈ columns_slice (fp_columns earlier))) (columns_slice (fp_columns later)).

(** ** Columns are sorted and distinct *)

Lemma chunk_key_le_iff a b :
  chunk_key_le a b ↔ ck_dimension a < ck_dimension b ∨ ck_dimension a = ck_dimension b ∧ (ck_x a < ck_x b ∨ ck_x a = ck_x b ∧ ck_z a ≤ ck_z b).
Proof.
  unfold chunk_key_le, chunk_key_leb.
  destruct (Z.compare_spec (ck_dimension a) (ck_dimension b)), (Z.compare_spec (ck_x a) (ck_x b)), (Z.compare_spec (ck_z a) (ck_z b));
    simpl; (split; [intros []; lia|]); intros; try exact I; lia.
Qed.
#[export] Instance chunk_key_le_total : Total chunk_key_le.
Proof. intros a b. rewrite !chunk_key_le_iff. lia. Qed.
#[export] Instance chunk_key_le_trans : Transitive chunk_key_le.
Proof. intros a b c. rewrite !chunk_key_le_iff. lia. Qed.
#[export] Instance chunk_key_le_antisymm : AntiSymm (=) chunk_key_le.
Proof. intros [? ? ?] [? ? ?]. rewrite !chunk_key_le_iff. simpl. intros. f_equal; lia. Qed.

Lemma find_other_None first l : find_other first l = None → ∀ x, x ∈ l → x = first.
Proof.
  induction l as [|y l IH]; simpl; [intros _ x Hx; by apply elem_of_nil in Hx|]. case_bool_decide as Hy; [|done].
  intros H x [->|Hx]%elem_of_cons; [done|by apply IH].
Qed.
Lemma find_other_Some first l second rest : find_other first l = Some (second, rest) →
  second ≠ first ∧ ∀ x, x = first ∨ x ∈ l ↔ x = first ∨ x = second ∨ x ∈ rest.
Proof.
  induction l as [|y l IH]; simpl; [done|]. case_bool_decide as Hy.
  - intros (Hne & Hin)%IH. split; [done|]. intros x. rewrite <-Hin, elem_of_cons, Hy. tauto.
  - intros [= -> ->]. split; [done|]. intros x. rewrite elem_of_cons. tauto.
Qed.

(** A sorted list without duplicates is determined by its elements. *)
Lemma sorted_distinct_eq (l k : list ChunkKey) : StronglySorted chunk_key_le l → StronglySorted chunk_key_le k → NoDup l → NoDup k → (∀ x, x ∈ l ↔ x ∈ k) → l = k.
Proof. intros Hl Hk Hnl Hnk Hin. apply (StronglySorted_unique chunk_key_le); [done|done|by apply NoDup_Permutation]. Qed.
Lemma sorted_chunks_sorted X : StronglySorted chunk_key_le (sorted_chunks X).
Proof. apply StronglySorted_merge_sort; apply _. Qed.
Lemma sorted_chunks_nodup X : NoDup (sorted_chunks X).
Proof. unfold sorted_chunks. rewrite merge_sort_Permutation. apply NoDup_elements. Qed.

Lemma columns_slice_eq columns : columns_slice (columns_from_iter columns) = sorted_chunks (list_to_set columns).
Proof.
  assert (H : ∀ l, StronglySorted chunk_key_le l → NoDup l → (∀ x, x ∈ l ↔ x ∈ columns) → l = sorted_chunks (list_to_set columns)).
  { intros l Hl Hnd Hin. apply sorted_distinct_eq; [done|apply sorted_chunks_sorted|done|apply sorted_chunks_nodup|].
    intros x. by rewrite elem_of_sorted_chunks, elem_of_list_to_set. }
  destruct columns as [|first columns]; [done|]. unfold columns_from_iter. destruct (find_other first columns) as [[second rest]|] eqn:Hf; simpl.
  - apply find_other_Some in Hf as [_ Hin]. destruct (dedup_sorted chunk_key_le (merge_sort chunk_key_le (first :: second :: rest))) as (Hs & Hnd & Hd).
    { apply StronglySorted_merge_sort; apply _. }
    apply H; [done|done|]. intros x. rewrite Hd, merge_sort_Permutation, !elem_of_cons, Hin. done.
  - apply H; [repeat constructor|apply NoDup_singleton|]. intros x. rewrite !elem_of_cons, elem_of_nil. pose proof (find_other_None _ _ Hf x). naive_solver.
Qed.
Lemma elem_of_columns columns x : x ∈ columns_slice (columns_from_iter columns) ↔ x ∈ columns.
Proof. by rewrite columns_slice_eq, elem_of_sorted_chunks, elem_of_list_to_set. Qed.

(** ** The summary decides conflicts *)

Lemma intersects_or a b c : consumers_intersects (consumers_with a b) c = consumers_intersects a c || consumers_intersects b c.
Proof.
  unfold consumers_intersects, consumers_with. rewrite Z.land_lor_distr_l.
  destruct (Z.eqb_spec (Z.land a c) 0) as [->|Ha], (Z.eqb_spec (Z.land b c) 0) as [->|Hb]; simpl; [done|..]; rewrite ?Z.lor_0_l, ?Z.lor_0_r;
    apply negb_true_iff, Z.eqb_neq; [done|done|]. rewrite Z.lor_eq_0_iff. tauto.
Qed.

(** What a summary says of events that were folded into it. *)
Record summarises couple (e : EarlierEvents) (l : list Footprint) : Prop := {
  su_any : ee_any e = negb (is_nil l);
  su_barrier : ee_barrier e = existsb fp_barrier l;
  su_retention : ee_retention e = existsb (λ f, fp_retention f || couple && fp_positional f) l;
  su_terrain : ee_terrain e = existsb (λ f, negb (is_nil (columns_slice (fp_columns f)))) l;
  su_mutation : ee_mutation e = existsb fp_mutation l;
  su_consumers c : consumers_intersects (ee_consumers e) c = existsb (λ f, consumers_intersects (fp_consumers f) c) l;
  su_columns c : c ∈ ee_columns e ↔ ∃ f, f ∈ l ∧ c ∈ columns_slice (fp_columns f);
}.
Lemma summarises_nil couple : summarises couple earlier_default [].
Proof. split; try done. intros c. split; [intros Hc; by apply not_elem_of_empty in Hc|intros (f & Hf & _); by apply elem_of_nil in Hf]. Qed.
Lemma summarises_add couple e l f : summarises couple e l → summarises couple (earlier_add couple e f) (l ++ [f]).
Proof.
  intros []. split; simpl; rewrite ?existsb_app; simpl; rewrite ?orb_false_r.
  - by destruct l.
  - by rewrite su_barrier0.
  - by rewrite su_retention0.
  - by rewrite su_terrain0.
  - by rewrite su_mutation0.
  - intros c. by rewrite intersects_or, su_consumers0, existsb_app; simpl; rewrite orb_false_r.
  - intros c. rewrite elem_of_union, elem_of_list_to_set, su_columns0. split.
    + intros [Hc|(g & Hg & Hc)]; [exists f|exists g]; (split; [|done]); set_solver.
    + intros (g & [Hg| ->%list_elem_of_singleton]%elem_of_app & Hc); [right; by exists g|by left].
Qed.
Lemma summarises_fold couple l : summarises couple (foldl (earlier_add couple) earlier_default l) l.
Proof. induction l as [|f l IH] using rev_ind; [apply summarises_nil|]. rewrite foldl_app. by apply summarises_add. Qed.

Lemma existsb_or {A} (f g : A → bool) l : existsb (λ x, f x || g x) l = existsb f l || existsb g l.
Proof. induction l as [|x l IH]; [done|]. simpl. rewrite IH. by destruct (f x), (g x), (existsb f l). Qed.
Lemma existsb_and {A} (b : bool) (f : A → bool) l : existsb (λ x, b && f x) l = b && existsb f l.
Proof. induction l as [|x l IH]; [by destruct b|]. simpl. rewrite IH. by destruct b. Qed.
Lemma existsb_and_r {A} (b : bool) (f : A → bool) l : existsb (λ x, f x && b) l = existsb f l && b.
Proof. induction l as [|x l IH]; [done|]. simpl. rewrite IH. by destruct (f x), (existsb f l), b. Qed.
Lemma existsb_const {A} (b : bool) (l : list A) : existsb (λ _, b) l = negb (is_nil l) && b.
Proof. induction l as [|x l IH]; [done|]. simpl. rewrite IH. by destruct b, (is_nil l). Qed.

Lemma blocks_summary couple e l later : summarises couple e l → blocks couple e later = existsb (λ f, conflicts couple f later) l.
Proof.
  intros []. destruct l as [|g l']; [unfold blocks; by rewrite su_any0|]. unfold blocks, conflicts. rewrite su_any0. change (negb (negb (is_nil (g :: l')))) with false.
  cbv iota zeta. set (l := g :: l') in *. rewrite !existsb_or, !existsb_and, existsb_and_r, existsb_const, !existsb_or. change (negb (is_nil l)) with true.
  rewrite su_barrier0, su_retention0, su_terrain0, su_mutation0, su_consumers0, !existsb_or. f_equal.
  apply Bool.eq_iff_eq_true. rewrite !existsb_exists. setoid_rewrite <-list_elem_of_In. split.
  - intros (c & Hc & (f & Hf & Hcf)%bool_decide_eq_true%su_columns0). exists f. split; [done|]. apply existsb_exists. exists c. rewrite <-list_elem_of_In. split; [done|by apply bool_decide_eq_true].
  - intros (f & Hf & (c & Hc & Hcf%bool_decide_eq_true)%existsb_exists). rewrite <-list_elem_of_In in Hc. exists c. split; [done|]. apply bool_decide_eq_true, su_columns0. by exists f.
Qed.
