(* ===== verification/Ordered.v ===== *)
(** * Ordered commits

    [client-world/src/ingestion/ordered.rs]: admission of world events, and the choice of the next event that may be
    applied although earlier ones are unfinished. [Content] is the payload that these functions only carry. A call of the
    completion observer is an entry of [oc_reported]; the tree searches that skip lookups are the lookups. *)
From stdpp Require Import base numbers list gmap sets sorting.
From S2P Require Import Prelude Keys Effects Counting Lanes.
#[local] Open Scope Z_scope.

Definition MAX_ADMITTED_WORLD_EVENTS : Z := 64.
Definition MAX_ADMITTED_HEAVY_EVENTS : Z := 32.
Definition MAX_DEFERRED_WORLD_EVENTS : Z := MAX_ADMITTED_HEAVY_EVENTS.

Inductive WorldStreamError :=
  | DuplicateOrPast (sequence next : Z)
  | AdmissionFull (sequence admitted capacity heavy_admitted heavy_capacity : Z).

(** What one pass may spend. *)
Record CommitBudget := mk_budget { cb_heavy : bool; cb_chunk_data : bool; cb_couple_position : bool }.
Definition UNLIMITED : CommitBudget := mk_budget true true true.

(** Which admission bound an unfinished event holds. *)
Inductive Held := HeldLight | HeldHeavy | HeldDeferred | HeldIngress (light_reserved : bool).
#[export] Instance held_eq_dec : EqDecision Held.
Proof. solve_decision. Defined.

Definition block_updates_can_coalesce (events : list BlockUpdateEvent) : bool := forallb (λ event, bu_layer event <? MAX_STORAGE_COUNT) events.
Definition synced_section (event : SyncedBlockUpdateEvent) : SubChunkKey :=
  let '(x, y, z) := bu_position (su_update event) in mk_sub_chunk_key (bu_dimension (su_update event)) (x / 16) (y / 16) (z / 16).
Definition synced_update_key (events : list SyncedBlockUpdateEvent) : option SubChunkKey :=
  match events with
  | [] => None
  | event :: _ =>
    let first := synced_section event in
    if forallb (λ event, (bu_layer (su_update event) <? MAX_STORAGE_COUNT) && bool_decide (synced_section event = first)) events then Some first else None
  end.
Definition is_heavy_chunk_data (f : Footprint) : bool := fp_heavy f && is_chunk_data f.

Section ordered.
Context {Content : Type}.

(** ** State *)

Inductive PreparedWorldEvent :=
  | InlineLevelChunk (content : Content) | RequestLevelChunk (content : Content)
  | SubChunks (dimension : Z) (entries : list Content) (duration : Z) | SubChunkEntry (dimension : Z) (entry : Content) (duration : Z)
  | PreparedBlockUpdates (content : Content) | PreparedBlockEntityUpdate (content : Content) | PreparedSyncedBlockUpdates (content : Content)
  | Immediate (event : WorldEvent) | CommitOnly | NormalizationFailure.

Inductive CommitStep :=
  | BatchStarted
  | Apply (sequence : Z) (event : PreparedWorldEvent)
  | ApplyBlockUpdates (sequence : Z) (events : list BlockUpdateEvent)
  | ApplySyncedBlockUpdates (sequence : Z) (packets : list (list SyncedBlockUpdateEvent)).
Inductive DecodeCommit := Queued | DecodedBlockUpdates (event : PreparedWorldEvent).

Record PendingSubChunkCommit := mk_pending_batch { ps_sequence : Z; ps_dimension : Z; ps_entries : list Content; ps_duration : Z }.
Inductive Slot := Waiting | Ready (event : PreparedWorldEvent) | Active.
Record Entry := mk_entry { en_footprint : Footprint; en_held : Held; en_slot : Slot }.

Record OrderedCommitState := mk_ordered {
  oc_frontier : Z; oc_entries : gmap Z Entry; oc_finished : gmap Z Z;
  oc_unfinished : Z; oc_light : Z; oc_heavy : Z; oc_deferred : Z; oc_ingress : Z; oc_ingress_light : Z;
  oc_pending_sub_chunks : option PendingSubChunkCommit; oc_blocking_block_updates : option (Z * Z); oc_block_update_range_end : option Z;
  oc_applying : option Z; oc_last_step_heavy : bool; oc_earlier : EarlierEvents; oc_skipped_chunk_data : EarlierEvents;
  oc_observed : bool; oc_reported : list Z; oc_unannounced : list Z }.
Definition ordered_new (first_sequence : Z) : OrderedCommitState :=
  mk_ordered first_sequence ∅ ∅ 0 0 0 0 0 0 None None None None false earlier_default earlier_default false [] [].

Definition with_sequences (frontier : Z) (finished : gmap Z Z) (s : OrderedCommitState) : OrderedCommitState :=
  mk_ordered frontier (oc_entries s) finished (oc_unfinished s) (oc_light s) (oc_heavy s) (oc_deferred s) (oc_ingress s) (oc_ingress_light s)
    (oc_pending_sub_chunks s) (oc_blocking_block_updates s) (oc_block_update_range_end s) (oc_applying s) (oc_last_step_heavy s) (oc_earlier s)
    (oc_skipped_chunk_data s) (oc_observed s) (oc_reported s) (oc_unannounced s).
Definition with_entries (entries : gmap Z Entry) (unfinished : Z) (s : OrderedCommitState) : OrderedCommitState :=
  mk_ordered (oc_frontier s) entries (oc_finished s) unfinished (oc_light s) (oc_heavy s) (oc_deferred s) (oc_ingress s) (oc_ingress_light s)
    (oc_pending_sub_chunks s) (oc_blocking_block_updates s) (oc_block_update_range_end s) (oc_applying s) (oc_last_step_heavy s) (oc_earlier s)
    (oc_skipped_chunk_data s) (oc_observed s) (oc_reported s) (oc_unannounced s).
Definition with_counts (light heavy deferred ingress ingress_light : Z) (s : OrderedCommitState) : OrderedCommitState :=
  mk_ordered (oc_frontier s) (oc_entries s) (oc_finished s) (oc_unfinished s) light heavy deferred ingress ingress_light
    (oc_pending_sub_chunks s) (oc_blocking_block_updates s) (oc_block_update_range_end s) (oc_applying s) (oc_last_step_heavy s) (oc_earlier s)
    (oc_skipped_chunk_data s) (oc_observed s) (oc_reported s) (oc_unannounced s).
Definition with_pending (pending : option PendingSubChunkCommit) (s : OrderedCommitState) : OrderedCommitState :=
  mk_ordered (oc_frontier s) (oc_entries s) (oc_finished s) (oc_unfinished s) (oc_light s) (oc_heavy s) (oc_deferred s) (oc_ingress s) (oc_ingress_light s)
    pending (oc_blocking_block_updates s) (oc_block_update_range_end s) (oc_applying s) (oc_last_step_heavy s) (oc_earlier s)
    (oc_skipped_chunk_data s) (oc_observed s) (oc_reported s) (oc_unannounced s).
(** The block fence, the range of the block step in progress and the step in progress. *)
Definition with_step (blocking : option (Z * Z)) (range_end applying : option Z) (s : OrderedCommitState) : OrderedCommitState :=
  mk_ordered (oc_frontier s) (oc_entries s) (oc_finished s) (oc_unfinished s) (oc_light s) (oc_heavy s) (oc_deferred s) (oc_ingress s) (oc_ingress_light s)
    (oc_pending_sub_chunks s) blocking range_end applying (oc_last_step_heavy s) (oc_earlier s)
    (oc_skipped_chunk_data s) (oc_observed s) (oc_reported s) (oc_unannounced s).
Definition with_step_heavy (heavy : bool) (s : OrderedCommitState) : OrderedCommitState :=
  mk_ordered (oc_frontier s) (oc_entries s) (oc_finished s) (oc_unfinished s) (oc_light s) (oc_heavy s) (oc_deferred s) (oc_ingress s) (oc_ingress_light s)
    (oc_pending_sub_chunks s) (oc_blocking_block_updates s) (oc_block_update_range_end s) (oc_applying s) heavy (oc_earlier s)
    (oc_skipped_chunk_data s) (oc_observed s) (oc_reported s) (oc_unannounced s).
Definition with_scratch (earlier skipped : EarlierEvents) (s : OrderedCommitState) : OrderedCommitState :=
  mk_ordered (oc_frontier s) (oc_entries s) (oc_finished s) (oc_unfinished s) (oc_light s) (oc_heavy s) (oc_deferred s) (oc_ingress s) (oc_ingress_light s)
    (oc_pending_sub_chunks s) (oc_blocking_block_updates s) (oc_block_update_range_end s) (oc_applying s) (oc_last_step_heavy s) earlier
    skipped (oc_observed s) (oc_reported s) (oc_unannounced s).
Definition with_reports (observed : bool) (reported unannounced : list Z) (s : OrderedCommitState) : OrderedCommitState :=
  mk_ordered (oc_frontier s) (oc_entries s) (oc_finished s) (oc_unfinished s) (oc_light s) (oc_heavy s) (oc_deferred s) (oc_ingress s) (oc_ingress_light s)
    (oc_pending_sub_chunks s) (oc_blocking_block_updates s) (oc_block_update_range_end s) (oc_applying s) (oc_last_step_heavy s) (oc_earlier s)
    (oc_skipped_chunk_data s) observed reported unannounced.
Definition with_slot (slot : Slot) (entry : Entry) : Entry := mk_entry (en_footprint entry) (en_held entry) slot.
Definition with_held (held : Held) (entry : Entry) : Entry := mk_entry (en_footprint entry) held (en_slot entry).
Definition put_entry (sequence : Z) (entry : Entry) (s : OrderedCommitState) : OrderedCommitState :=
  with_entries (<[sequence := entry]> (oc_entries s)) (oc_unfinished s) s.

Definition Oc : Type → Type := Eff OrderedCommitState WorldStreamError.
Definition incr (n : Z) : Oc Z := eff_expect (checked_add n 1).
Definition decr (n : Z) : Oc Z := eff_expect (checked_sub n 1).
Definition panic {A} : Oc A := λ _, None.
Definition assert_that (holds : bool) : Oc unit := if holds then mret tt else panic.

(** ** Finished runs *)

(** [finished.range(..=from).next_back()] *)
Definition last_run (holds : Z → bool) (finished : gmap Z Z) : option (Z * Z) := last (filter (λ '(start, _), holds start = true) (ordered finished)).
(** The last sequence of the run that holds [from], or the one before [from]. *)
Definition finished_through (s : OrderedCommitState) (from : Z) : Z :=
  match last_run (λ start, start <=? from) (oc_finished s) with
  | Some (_, run_end) => if from <=? run_end then run_end else sat_sub from 1
  | None => sat_sub from 1
  end.
Definition finished_through_before (s : OrderedCommitState) (from entry : Z) : Z := if from =? entry then sat_sub from 1 else finished_through s from.
Definition is_finished (s : OrderedCommitState) (sequence : Z) : bool := (sequence <? oc_frontier s) || (sequence <=? finished_through s sequence).
(** [entries.range(frontier..)] *)
Definition entries_from_frontier (s : OrderedCommitState) : list (Z * Entry) := filter (λ '(sequence, _), oc_frontier s ≤ sequence) (ordered (oc_entries s)).

Definition is_active (slot : Slot) : bool := match slot with Active => true | _ => false end.
Fixpoint next_sequence_from (s : OrderedCommitState) (expected : Z) (l : list (Z * Entry)) : Z :=
  match l with
  | [] => sat_add (finished_through s expected) 1
  | (sequence, entry) :: l =>
    let expected := sat_add (finished_through_before s expected sequence) 1 in
    if negb (sequence =? expected) || negb (is_active (en_slot entry)) then Z.min expected sequence
    else next_sequence_from s (sat_add sequence 1) l
  end.
Definition next_sequence (s : OrderedCommitState) : Z := next_sequence_from s (oc_frontier s) (entries_from_frontier s).

Definition reads_committed (s : OrderedCommitState) (sequence : Z) (entry : Entry) : bool :=
  is_active (en_slot entry) && bool_decide (oc_applying s = Some sequence) && bool_decide (oc_block_update_range_end s = None).
Fixpoint frontier_where_from (s : OrderedCommitState) (passes : Footprint → bool) (committed : Z) (l : list (Z * Entry)) : Z :=
  match l with
  | [] => finished_through s (sat_add committed 1)
  | (sequence, entry) :: l =>
    let committed := finished_through_before s (sat_add committed 1) sequence in
    if negb (sequence =? sat_add committed 1) || negb (reads_committed s sequence entry || passes (en_footprint entry)) then committed
    else frontier_where_from s passes sequence l
  end.
Definition frontier_where (s : OrderedCommitState) (passes : Footprint → bool) : Z :=
  frontier_where_from s passes (sat_sub (oc_frontier s) 1) (entries_from_frontier s).
Definition committed_sequence (s : OrderedCommitState) : Z := frontier_where s (λ _, false).
Definition committed_past_chunk_data (s : OrderedCommitState) : Z := frontier_where s is_chunk_data.
Definition is_frontier (s : OrderedCommitState) (sequence : Z) : bool := sequence =? oc_frontier s.

(** ** Capacities *)

Definition light_capacity_with_reservations (s : OrderedCommitState) (retained_commits reservations : Z) : Z :=
  sat_sub MAX_ADMITTED_WORLD_EVENTS (sat_add (sat_add (oc_light s) retained_commits) reservations).
Definition light_capacity (s : OrderedCommitState) (retained_commits : Z) : Z := light_capacity_with_reservations s retained_commits (oc_ingress_light s).
Definition heavy_capacity (s : OrderedCommitState) : Z := sat_sub MAX_ADMITTED_HEAVY_EVENTS (oc_heavy s).
Definition deferred_capacity (s : OrderedCommitState) : Z := sat_sub MAX_DEFERRED_WORLD_EVENTS (oc_deferred s).
Definition remaining_admission_capacity (s : OrderedCommitState) (retained_commits : Z) : Z :=
  let terrain := sat_add (deferred_capacity s) (if oc_deferred s =? 0 then heavy_capacity s else 0) in
  let light := light_capacity s retained_commits in
  if light <? terrain then light else terrain.
Definition full (s : OrderedCommitState) (sequence : Z) : WorldStreamError :=
  AdmissionFull sequence (oc_unfinished s) MAX_ADMITTED_WORLD_EVENTS (oc_heavy s) MAX_ADMITTED_HEAVY_EVENTS.

(** Counts for observers. *)
Definition is_ready (slot : Slot) : bool := match slot with Ready _ => true | _ => false end.
Definition retained_sequence_records (s : OrderedCommitState) : Z := Z.of_nat (size (oc_entries s)) + Z.of_nat (size (oc_finished s)).
Definition admitted_count (s : OrderedCommitState) : Z := oc_unfinished s.
Definition heavy_count (s : OrderedCommitState) : Z := oc_heavy s.
Definition deferred_count (s : OrderedCommitState) : Z := oc_deferred s.
Definition is_heavy_admitted (s : OrderedCommitState) (sequence : Z) : bool :=
  match oc_entries s !! sequence with Some entry => bool_decide (en_held entry = HeldHeavy) | None => false end.
Definition is_deferred_heavy (s : OrderedCommitState) (sequence : Z) : bool :=
  match oc_entries s !! sequence with Some entry => bool_decide (en_held entry = HeldDeferred) && fp_heavy (en_footprint entry) | None => false end.
Definition blocking_block_updates (s : OrderedCommitState) : option Z := fst <$> oc_blocking_block_updates s.
Definition ready_count (s : OrderedCommitState) : Z := Z.of_nat (length (filter (λ x : Z * Entry, Is_true (is_ready (en_slot x.2))) (ordered (oc_entries s)))).
Definition last_step_was_heavy (s : OrderedCommitState) : bool := oc_last_step_heavy s.

(** ** Admission *)

Definition accounting_holds (s : OrderedCommitState) : bool :=
  (oc_unfinished s =? Z.of_nat (size (oc_entries s))) && (oc_ingress_light s <=? oc_ingress s) &&
  (oc_unfinished s =? oc_light s + oc_heavy s + oc_deferred s + oc_ingress s).
Definition debug_check_accounting : Oc unit := s ← eff_gets id; assert_that (accounting_holds s).

Definition validate_sequence (sequence : Z) : Oc unit :=
  s ← eff_gets id;
  if is_finished s sequence || bool_decide (is_Some (oc_entries s !! sequence)) then eff_throw (DuplicateOrPast sequence (oc_frontier s)) else mret tt.
Definition insert_entry (sequence : Z) (footprint : Footprint) (held : Held) : Oc unit :=
  s ← eff_gets id;
  unfinished ← incr (oc_unfinished s);
  _ ← eff_modify (with_entries (<[sequence := mk_entry footprint held Waiting]> (oc_entries s)) unfinished);
  debug_check_accounting.

Definition hold_light : Oc unit :=
  s ← eff_gets id; n ← incr (oc_light s); eff_modify (with_counts n (oc_heavy s) (oc_deferred s) (oc_ingress s) (oc_ingress_light s)).
Definition hold_heavy : Oc unit :=
  s ← eff_gets id; n ← incr (oc_heavy s); eff_modify (with_counts (oc_light s) n (oc_deferred s) (oc_ingress s) (oc_ingress_light s)).
Definition hold_deferred : Oc unit :=
  s ← eff_gets id; n ← incr (oc_deferred s); eff_modify (with_counts (oc_light s) (oc_heavy s) n (oc_ingress s) (oc_ingress_light s)).
Definition hold_ingress : Oc unit :=
  s ← eff_gets id; n ← incr (oc_ingress s); eff_modify (with_counts (oc_light s) (oc_heavy s) (oc_deferred s) n (oc_ingress_light s)).
Definition admit_light (sequence : Z) (footprint : Footprint) (retained_commits : Z) : Oc unit :=
  s ← eff_gets id;
  if light_capacity s retained_commits =? 0 then eff_throw (full s sequence)
  else _ ← hold_light; insert_entry sequence footprint HeldLight.
Definition admit_event (sequence : Z) (footprint : Footprint) (retained_commits : Z) : Oc unit :=
  _ ← validate_sequence sequence;
  if fp_heavy footprint then
    s ← eff_gets id;
    if heavy_capacity s =? 0 then eff_throw (full s sequence) else _ ← hold_heavy; insert_entry sequence footprint HeldHeavy
  else admit_light sequence footprint retained_commits.
Definition admit_deferred (sequence : Z) (footprint : Footprint) (retained_commits : Z) : Oc unit :=
  _ ← validate_sequence sequence;
  if fp_heavy footprint then
    s ← eff_gets id;
    if deferred_capacity s =? 0 then eff_throw (full s sequence) else _ ← hold_deferred; insert_entry sequence footprint HeldDeferred
  else admit_light sequence footprint retained_commits.
Definition promote_deferred (sequence : Z) : Oc unit :=
  s ← eff_gets id;
  entry ← eff_expect (oc_entries s !! sequence);
  _ ← (if decide (en_held entry = HeldDeferred) then
         deferred ← decr (oc_deferred s);
         heavy ← incr (oc_heavy s);
         eff_modify (λ s, put_entry sequence (with_held HeldHeavy entry) (with_counts (oc_light s) heavy deferred (oc_ingress s) (oc_ingress_light s) s))
       else mret tt);
  debug_check_accounting.

Definition insert_ready (sequence : Z) (event : PreparedWorldEvent) : Oc unit :=
  s ← eff_gets id;
  match oc_entries s !! sequence with
  | Some entry =>
    match en_slot entry with
    | Waiting => eff_modify (put_entry sequence (with_slot (Ready event) entry))
    | _ => eff_throw (DuplicateOrPast sequence (oc_frontier s))
    end
  | None => eff_throw (DuplicateOrPast sequence (oc_frontier s))
  end.
Definition without_heavy (f : Footprint) : Footprint :=
  mk_footprint (fp_barrier f) (fp_retention f) (fp_positional f) (fp_local_authority f) (fp_mutation f) false (fp_consumers f) (fp_columns f).
Definition normalize (sequence : Z) : Oc unit :=
  s ← eff_gets id;
  match oc_entries s !! sequence with
  | Some entry => eff_modify (put_entry sequence (mk_entry (without_heavy (en_footprint entry)) (en_held entry) (en_slot entry)))
  | None => mret tt
  end.

Definition release_held (held : Held) : Oc unit :=
  s ← eff_gets id;
  _ ← match held with
      | HeldLight => n ← decr (oc_light s); eff_modify (with_counts n (oc_heavy s) (oc_deferred s) (oc_ingress s) (oc_ingress_light s))
      | HeldHeavy => n ← decr (oc_heavy s); eff_modify (with_counts (oc_light s) n (oc_deferred s) (oc_ingress s) (oc_ingress_light s))
      | HeldDeferred => n ← decr (oc_deferred s); eff_modify (with_counts (oc_light s) (oc_heavy s) n (oc_ingress s) (oc_ingress_light s))
      | HeldIngress light_reserved =>
        n ← decr (oc_ingress s);
        m ← eff_expect (checked_sub (oc_ingress_light s) (if (light_reserved : bool) then 1 else 0));
        eff_modify (with_counts (oc_light s) (oc_heavy s) (oc_deferred s) n m)
      end;
  debug_check_accounting.
(** Takes an entry out and gives its bound back. *)
Definition remove_entry (sequence : Z) (entry : Entry) : Oc unit :=
  s ← eff_gets id;
  unfinished ← decr (oc_unfinished s);
  _ ← eff_modify (with_entries (delete sequence (oc_entries s)) unfinished);
  release_held (en_held entry).
Definition cancel_admission (sequence : Z) : Oc unit :=
  s ← eff_gets id;
  match oc_entries s !! sequence with Some entry => remove_entry sequence entry | None => mret tt end.

(** ** Retained ingress *)

Definition reserve_ingress_light (sequence retained_commits : Z) : Oc bool :=
  s ← eff_gets id;
  entry ← eff_expect (oc_entries s !! sequence);
  match en_held entry with
  | HeldIngress light_reserved =>
    if fp_heavy (en_footprint entry) || light_reserved then mret true
    else if light_capacity s retained_commits =? 0 then mret false
    else
      n ← incr (oc_ingress_light s);
      _ ← eff_modify (λ s, put_entry sequence (with_held (HeldIngress true) entry) (with_counts (oc_light s) (oc_heavy s) (oc_deferred s) (oc_ingress s) n s));
      mret true
  | _ => panic
  end.
Definition retain_ingress (sequence : Z) (footprint : Footprint) (capacity retained_commits : Z) : Oc bool :=
  _ ← validate_sequence sequence;
  s ← eff_gets id;
  if capacity <=? oc_ingress s then eff_throw (full s sequence)
  else
    _ ← hold_ingress;
    _ ← insert_entry sequence footprint (HeldIngress false);
    reserve_ingress_light sequence retained_commits.
Definition is_ingress (held : Held) : bool := match held with HeldIngress _ => true | _ => false end.
Definition retained_ingress_footprint (s : OrderedCommitState) (sequence : Z) : option Footprint :=
  entry ← oc_entries s !! sequence; if is_ingress (en_held entry) then Some (en_footprint entry) else None.
Definition retained_ingress_light_capacity (s : OrderedCommitState) (sequence retained_commits : Z) : option Z :=
  entry ← oc_entries s !! sequence;
  match en_held entry with
  | HeldIngress light_reserved =>
    reservations ← checked_sub (oc_ingress_light s) (if (light_reserved : bool) then 1 else 0);
    Some (light_capacity_with_reservations s retained_commits reservations)
  | _ => None
  end.
Definition release_ingress (sequence : Z) : Oc unit :=
  s ← eff_gets id;
  _ ← assert_that (match oc_entries s !! sequence with Some entry => is_ingress (en_held entry) | None => false end);
  cancel_admission sequence.

(** ** The choice of the next event *)

Definition kind_is_free (s : OrderedCommitState) (event : PreparedWorldEvent) : bool :=
  match event with
  | SubChunks _ _ _ => bool_decide (oc_pending_sub_chunks s = None)
  | Immediate (BlockUpdates _) | Immediate (SyncedBlockUpdates _) => match oc_blocking_block_updates s with None => true | Some _ => false end
  | _ => true
  end.
(** What a scan knows when it reaches [sequence]: a gap before it is an event it knows nothing of. *)
Definition reach (s : OrderedCommitState) (expected sequence : Z) (earlier : EarlierEvents) : EarlierEvents :=
  if sequence =? sat_add (finished_through_before s expected sequence) 1 then earlier else add_unknown earlier.

Definition may_commit (s : OrderedCommitState) (budget : CommitBudget) (earlier : EarlierEvents) (entry : Entry) : bool :=
  match en_slot entry with
  | Ready event =>
    let f := en_footprint entry in
    (cb_heavy budget || negb (fp_heavy f || fp_barrier f)) && (cb_chunk_data budget || negb (is_heavy_chunk_data f)) &&
    kind_is_free s event && negb (blocks (cb_couple_position budget) earlier f)
  | _ => false
  end.
Fixpoint scan_entries (s : OrderedCommitState) (budget : CommitBudget) (expected : Z) (earlier : EarlierEvents) (l : list (Z * Entry)) : option Z * EarlierEvents :=
  match l with
  | [] => (None, earlier)
  | (sequence, entry) :: l =>
    let earlier := reach s expected sequence earlier in
    if is_barrier earlier then (None, earlier)
    else if may_commit s budget earlier entry then (Some sequence, earlier)
    else scan_entries s budget (sat_add sequence 1) (earlier_add (cb_couple_position budget) earlier (en_footprint entry)) l
  end.
Definition scan_unblocked (budget : CommitBudget) : Oc (option Z) :=
  s ← eff_gets id;
  let '(found, earlier) := scan_entries s budget (oc_frontier s) earlier_default (entries_from_frontier s) in
  _ ← eff_modify (λ s, with_scratch earlier (oc_skipped_chunk_data s) s);
  mret found.

Definition pending_sequence (s : OrderedCommitState) : option Z := ps_sequence <$> oc_pending_sub_chunks s.
Definition pending_is (s : OrderedCommitState) (sequence : Z) : bool := bool_decide (pending_sequence s = Some sequence).
Definition batch_waits_for (s : OrderedCommitState) (slot : Slot) : option Z := match slot with Ready (SubChunks _ _ _) => pending_sequence s | _ => None end.
Definition ready_and_free (s : OrderedCommitState) (slot : Slot) : bool := match slot with Ready event => kind_is_free s event | _ => false end.
Definition is_some {A} (o : option A) : bool := match o with Some _ => true | None => false end.
Fixpoint holding_entries (s : OrderedCommitState) (couple_position : bool) (expected : Z) (earlier skipped : EarlierEvents) (first_skipped : option Z)
    (l : list (Z * Entry)) : option Z * EarlierEvents * EarlierEvents :=
  match l with
  | [] => (None, earlier, skipped)
  | (sequence, entry) :: l =>
    let earlier := reach s expected sequence earlier in
    if is_barrier earlier then (None, earlier, skipped)
    else
      let blocked := blocks couple_position earlier (en_footprint entry) in
      let free := ready_and_free s (en_slot entry) in
      let waits_for := batch_waits_for s (en_slot entry) in
      if negb blocked && is_heavy_chunk_data (en_footprint entry) && (free || pending_is s sequence || is_some waits_for) then
        holding_entries s couple_position (sat_add sequence 1) earlier (earlier_add couple_position skipped (en_footprint entry))
          (match first_skipped with Some first => Some first | None => Some (default sequence waits_for) end) l
      else if negb blocked && free && blocks couple_position skipped (en_footprint entry) then (first_skipped, earlier, skipped)
      else holding_entries s couple_position (sat_add sequence 1) (earlier_add couple_position earlier (en_footprint entry)) skipped first_skipped l
  end.
Definition chunk_data_holding_ready_work (couple_position : bool) : Oc (option Z) :=
  s ← eff_gets id;
  let '(found, earlier, skipped) := holding_entries s couple_position (oc_frontier s) earlier_default earlier_default None (entries_from_frontier s) in
  _ ← eff_modify (with_scratch earlier skipped);
  mret found.
Definition find_unblocked (budget : CommitBudget) : Oc (option Z) :=
  found ← scan_unblocked budget;
  match found with
  | Some sequence => mret (Some sequence)
  | None =>
    if negb (cb_heavy budget) || cb_chunk_data budget then mret None
    else
      skipped ← chunk_data_holding_ready_work (cb_couple_position budget);
      match skipped with
      | None => mret None
      | Some skipped =>
        s ← eff_gets id;
        if pending_is s skipped then mret (Some skipped) else scan_unblocked (mk_budget (cb_heavy budget) true (cb_couple_position budget))
      end
  end.

(** ** Steps *)

Definition continue_sub_chunks : Oc CommitStep :=
  s ← eff_gets id;
  pending ← eff_expect (oc_pending_sub_chunks s);
  let '(event, rest) := match ps_entries pending with
    | [] => (CommitOnly, [])
    | entry :: rest => (SubChunkEntry (ps_dimension pending) entry (ps_duration pending), rest)
    end in
  _ ← eff_modify (with_pending (Some (mk_pending_batch (ps_sequence pending) (ps_dimension pending) rest (ps_duration pending))));
  _ ← eff_modify (λ s, with_step_heavy true (with_step (oc_blocking_block_updates s) (oc_block_update_range_end s) (Some (ps_sequence pending)) s));
  mret (Apply (ps_sequence pending) event).

(** The next sequence's updates, when [take] takes them and nothing before the burst blocks them. *)
Definition take_adjacent {A} (take : PreparedWorldEvent → option A) (run_end : Z) (budget : CommitBudget) : Oc (option A) :=
  s ← eff_gets id;
  match checked_add run_end 1 with
  | None => mret None
  | Some next =>
    match oc_entries s !! next with
    | None => mret None
    | Some entry =>
      match en_slot entry with
      | Ready event =>
        match take event with
        | Some updates =>
          if blocks (cb_couple_position budget) (oc_earlier s) (en_footprint entry) then mret None
          else _ ← eff_modify (put_entry next (with_slot Active entry)); mret (Some updates)
        | None => mret None
        end
      | _ => mret None
      end
    end
  end.
Definition block_updates_of (event : PreparedWorldEvent) : option (list BlockUpdateEvent) :=
  match event with Immediate (BlockUpdates updates) => if block_updates_can_coalesce updates then Some updates else None | _ => None end.
Definition synced_updates_of (key : SubChunkKey) (event : PreparedWorldEvent) : option (list SyncedBlockUpdateEvent) :=
  match event with Immediate (SyncedBlockUpdates updates) => if bool_decide (synced_update_key updates = Some key) then Some updates else None | _ => None end.
Definition take_adjacent_block_updates : Z → CommitBudget → Oc (option (list BlockUpdateEvent)) := take_adjacent block_updates_of.
Definition take_adjacent_synced_updates (key : SubChunkKey) : Z → CommitBudget → Oc (option (list SyncedBlockUpdateEvent)) := take_adjacent (synced_updates_of key).
(** [while let Some(next) = take(end) { .. end += 1 }], the parts in order *)
Fixpoint take_burst {A} (take : Z → Oc (option A)) (fuel : nat) (run_end : Z) (taken : list A) : Oc (Z * list A) :=
  match fuel with
  | O => panic
  | S fuel =>
    next ← take run_end;
    match next with
    | None => mret (run_end, taken)
    | Some part => run_end ← incr run_end; take_burst take fuel run_end (taken ++ [part])
    end
  end.

Definition start_block_step (sequence run_end : Z) : Oc unit :=
  eff_modify (λ s, with_step (oc_blocking_block_updates s) (Some run_end) (Some sequence) s).
Definition start_event (budget : CommitBudget) (sequence : Z) (event : PreparedWorldEvent) (heavy : bool) : Oc CommitStep :=
  s ← eff_gets id;
  let fuel := S (size (oc_entries s)) in
  match event with
  | SubChunks dimension entries duration =>
    _ ← eff_modify (with_pending (Some (mk_pending_batch sequence dimension entries duration)));
    mret BatchStarted
  | Immediate (BlockUpdates events) =>
    _ ← eff_modify (with_step_heavy heavy);
    burst ← (if block_updates_can_coalesce events then take_burst (λ run_end, take_adjacent_block_updates run_end budget) fuel sequence [] else mret (sequence, []));
    _ ← start_block_step sequence burst.1;
    mret (ApplyBlockUpdates sequence (events ++ concat burst.2))
  | Immediate (SyncedBlockUpdates events) =>
    _ ← eff_modify (with_step_heavy heavy);
    burst ← match synced_update_key events with
      | Some key => take_burst (λ run_end, take_adjacent_synced_updates key run_end budget) fuel sequence []
      | None => mret (sequence, [])
      end;
    _ ← start_block_step sequence burst.1;
    mret (ApplySyncedBlockUpdates sequence (events :: burst.2))
  | event =>
    _ ← eff_modify (λ s, with_step_heavy heavy (with_step (oc_blocking_block_updates s) (oc_block_update_range_end s) (Some sequence) s));
    mret (Apply sequence event)
  end.
Definition next_commit_within (budget : CommitBudget) : Oc (option CommitStep) :=
  _ ← eff_modify (with_step_heavy false);
  s ← eff_gets id;
  if is_some (oc_applying s) then mret None
  else if cb_heavy budget && cb_chunk_data budget && is_some (oc_pending_sub_chunks s) then step ← continue_sub_chunks; mret (Some step)
  else
    found ← find_unblocked budget;
    match found with
    | None => mret None
    | Some sequence =>
      s ← eff_gets id;
      if pending_is s sequence then step ← continue_sub_chunks; mret (Some step)
      else
        entry ← eff_expect (oc_entries s !! sequence);
        _ ← eff_modify (put_entry sequence (with_slot Active entry));
        match en_slot entry with
        | Ready event => step ← start_event budget sequence event (fp_heavy (en_footprint entry) || fp_barrier (en_footprint entry)); mret (Some step)
        | _ => panic
        end
    end.
Definition next_commit : Oc (option CommitStep) := next_commit_within UNLIMITED.

(** ** Completion *)

Definition report_finished (announce : bool) (sequence : Z) (s : OrderedCommitState) : OrderedCommitState :=
  if oc_observed s then
    if announce then with_reports true (oc_reported s ++ [sequence]) (oc_unannounced s) s
    else with_reports true (oc_reported s) (oc_unannounced s ++ [sequence]) s
  else s.
(** Whether anything was released. *)
Fixpoint release_each (announce : bool) (sequences : list Z) (released : bool) : Oc bool :=
  match sequences with
  | [] => mret released
  | sequence :: sequences =>
    s ← eff_gets id;
    match oc_entries s !! sequence with
    | None => release_each announce sequences released
    | Some entry =>
      _ ← remove_entry sequence entry;
      _ ← eff_modify (report_finished announce sequence);
      release_each announce sequences true
    end
  end.
Definition join_runs (run_start run_end : Z) (s : OrderedCommitState) : OrderedCommitState :=
  let '(run_start, run_end, finished) := match last_run (λ start, start <? run_start) (oc_finished s) with
    | Some (before, before_end) =>
      if run_start <=? sat_add before_end 1 then (before, Z.max run_end before_end, delete before (oc_finished s)) else (run_start, run_end, oc_finished s)
    | None => (run_start, run_end, oc_finished s)
    end in
  let '(run_end, finished) := match finished !! sat_add run_end 1 with
    | Some after_end => (after_end, delete (sat_add run_end 1) finished)
    | None => (run_end, finished)
    end in
  if run_start <=? oc_frontier s then with_sequences (sat_add run_end 1) finished s
  else with_sequences (oc_frontier s) (<[run_start := run_end]> finished) s.
Definition release_range (run_start run_end : Z) (announce : bool) : Oc unit :=
  released ← release_each announce (seqZ run_start (run_end - run_start + 1)) false;
  if (released : bool) then eff_modify (join_runs run_start run_end) else mret tt.

Definition defer_block_updates (sequence : Z) : Oc unit :=
  s ← eff_gets id;
  _ ← assert_that (bool_decide (oc_applying s = Some sequence));
  let run_end := default sequence (oc_block_update_range_end s) in
  eff_modify (with_step (Some (sequence, run_end)) None None).
Definition finish_commit (sequence : Z) : Oc bool :=
  s ← eff_gets id;
  if negb (bool_decide (oc_applying s = Some sequence)) then mret false
  else
    _ ← eff_modify (λ s, with_step (oc_blocking_block_updates s) (oc_block_update_range_end s) None s);
    let complete : Oc bool :=
      _ ← eff_modify (λ s, with_step (oc_blocking_block_updates s) None (oc_applying s) s);
      _ ← release_range sequence (default sequence (oc_block_update_range_end s)) true;
      mret true in
    match oc_pending_sub_chunks s with
    | Some pending =>
      if ps_sequence pending =? sequence then
        match ps_entries pending with
        | [] => _ ← eff_modify (with_pending None); complete
        | _ => mret false
        end
      else complete
    | None => complete
    end.
Definition is_prepared_updates (event : PreparedWorldEvent) : bool :=
  match event with PreparedBlockUpdates _ | PreparedSyncedBlockUpdates _ => true | _ => false end.
Definition complete_decode (sequence : Z) (event : PreparedWorldEvent) : Oc DecodeCommit :=
  s ← eff_gets id;
  match oc_blocking_block_updates s with
  | Some (run_start, run_end) =>
    if (run_start =? sequence) && is_prepared_updates event then
      _ ← eff_modify (λ s, with_step None (oc_block_update_range_end s) (oc_applying s) s);
      _ ← release_range sequence run_end false;
      mret (DecodedBlockUpdates event)
    else _ ← insert_ready sequence event; mret Queued
  | None => _ ← insert_ready sequence event; mret Queued
  end.

(** ** The completion observer *)

Definition observe_completions : Oc unit := eff_modify (λ s, with_reports true (oc_reported s) (oc_unannounced s) s).
Definition announce_applied : Oc unit :=
  eff_modify (λ s, if oc_observed s then with_reports true (oc_reported s ++ oc_unannounced s) [] s else s).
End ordered.
