(* ===== verification/OrderedSpec.v ===== *)
(** * Ordered commits: invariant and steps

    Finished sequences are those below the frontier and those in runs above it; every started event is covered by exactly
    one fence; an event starts only when no earlier unfinished one conflicts with it. *)
From stdpp Require Import base numbers list gmap sets sorting.
From S2P Require Import Prelude Keys Effects Counting Lanes Ordered.
#[local] Open Scope Z_scope.

(** ** Runs *)

Lemma last_filter {A} (P : A → Prop) `{∀ x, Decision (P x)} (R : A → A → Prop) l : StronglySorted R l →
  match last (filter P l) with
  | Some x => x ∈ l ∧ P x ∧ ∀ y, y ∈ l → P y → y = x ∨ R y x
  | None => ∀ y, y ∈ l → ¬ P y
  end.
Proof.
  intros Hl. induction Hl as [|x l Hl IH Hx]; [intros y Hy; by apply elem_of_nil in Hy|]. rewrite Forall_forall in Hx. rewrite filter_cons.
  destruct (decide (P x)) as [Hp|Hp].
  - rewrite last_cons. destruct (last (filter P l)) as [z|]; simpl.
    + destruct IH as (Hz & HPz & Hmax). split; [by right|]. split; [done|]. intros y [->|Hy]%elem_of_cons HPy; [right; by apply Hx|by apply Hmax].
    + split; [by left|]. split; [done|]. intros y [->|Hy]%elem_of_cons HPy; [by left|]. by destruct (IH y Hy).
  - destruct (last (filter P l)) as [z|].
    + destruct IH as (Hz & HPz & Hmax). split; [by right|]. split; [done|]. intros y [->|Hy]%elem_of_cons HPy; [done|by apply Hmax].
    + intros y [->|Hy]%elem_of_cons; [done|by apply IH].
Qed.
Lemma last_run_spec holds (m : gmap Z Z) :
  match last_run holds m with
  | Some (a, b) => m !! a = Some b ∧ holds a = true ∧ ∀ a' b', m !! a' = Some b' → holds a' = true → a' ≤ a
  | None => ∀ a b, m !! a = Some b → holds a = false
  end.
Proof.
  unfold last_run. pose proof (last_filter (λ x : Z * Z, (let '(start, _) := x in holds start = true)) (λ a b, a.1 < b.1) (ordered m) (ordered_strict m)) as H.
  replace (filter (λ '(start, _), holds start = true) (ordered m)) with (filter (λ x : Z * Z, (let '(start, _) := x in holds start = true)) (ordered m)) by done.
  destruct (last _) as [[a b]|].
  - destruct H as (Hin & Hh & Hmax). split; [by apply elem_of_ordered|]. split; [done|]. intros a' b' Hm Hh'.
    destruct (Hmax (a', b')) as [[= -> ->]|Hlt]; [by apply elem_of_ordered|done|lia|simpl in Hlt; lia].
  - intros a b Hm. apply not_true_iff_false. intros Hh. by apply (H (a, b)); [apply elem_of_ordered|].
Qed.

Definition in_run (m : gmap Z Z) (q : Z) : Prop := ∃ a b, m !! a = Some b ∧ a ≤ q ≤ b.
Record runs_ok (frontier : Z) (m : gmap Z Z) : Prop := {
  ru_bounds a b : m !! a = Some b → frontier < a ∧ a ≤ b ∧ b < USIZE_MAX;
  ru_apart a b a' b' : m !! a = Some b → m !! a' = Some b' → a < a' → b + 1 < a';
}.
Lemma run_unique frontier m a b a' b' q : runs_ok frontier m → m !! a = Some b → m !! a' = Some b' → a ≤ q ≤ b → a' ≤ q ≤ b' → a = a' ∧ b = b'.
Proof.
  intros Hr H1 H2 ? ?. destruct (Z.lt_trichotomy a a') as [?|[->|?]]; [pose proof (ru_apart _ _ Hr _ _ _ _ H1 H2); lia|split; congruence|].
  pose proof (ru_apart _ _ Hr _ _ _ _ H2 H1). lia.
Qed.
Lemma run_end_open frontier m a b : runs_ok frontier m → m !! a = Some b → ¬ in_run m (b + 1).
Proof.
  intros Hr H (a' & b' & H' & ?). destruct (ru_bounds _ _ Hr _ _ H). destruct (Z.lt_trichotomy a a') as [?|[<-|?]].
  - pose proof (ru_apart _ _ Hr _ _ _ _ H H'). lia.
  - assert (b' = b) by congruence. lia.
  - pose proof (ru_apart _ _ Hr _ _ _ _ H' H). lia.
Qed.

Section ordered.
Context {Content : Type}.
#[local] Notation State := (@OrderedCommitState Content).
#[local] Notation Entry := (@Entry Content).
#[local] Notation Event := (@PreparedWorldEvent Content).
Implicit Types (s : State) (q a b : Z) (e : Entry) (ev : Event) (f : Footprint).

(** What [finished_through] finds: the run that holds [q], or nothing. *)
Lemma finished_through_spec s q : runs_ok (oc_frontier s) (oc_finished s) → 1 ≤ q →
  q - 1 ≤ finished_through s q ∧ (∀ x, q ≤ x ≤ finished_through s q → in_run (oc_finished s) x) ∧ ¬ in_run (oc_finished s) (finished_through s q + 1) ∧
  (finished_through s q < USIZE_MAX ∨ finished_through s q = q - 1).
Proof.
  intros Hr Hq. unfold finished_through. pose proof (last_run_spec (λ start, start <=? q) (oc_finished s)) as H. replace (sat_sub q 1) with (q - 1) by (unfold sat_sub; lia).
  destruct (last_run _ _) as [[a b]|].
  - destruct H as (Hm & Ha%Z.leb_le & Hmax). destruct (Z.leb_spec q b).
    + split; [lia|]. split; [intros x Hx; exists a, b; by split; [|lia]|]. split; [by eapply run_end_open|]. left. apply (ru_bounds _ _ Hr _ _ Hm).
    + split; [lia|]. split; [intros x Hx; lia|]. split; [|by right]. intros (a' & b' & H' & ?). assert (a' ≤ a) by (eapply Hmax; [done|apply Z.leb_le; lia]).
      destruct (decide (a' = a)) as [->|]; [assert (b' = b) by congruence; lia|]. pose proof (ru_apart _ _ Hr _ _ _ _ H' Hm). lia.
  - split; [lia|]. split; [intros x Hx; lia|]. split; [|by right]. intros (a' & b' & H' & ?). specialize (H _ _ H'). apply Z.leb_gt in H. lia.
Qed.

Definition finished_seq s q : Prop := q < oc_frontier s ∨ in_run (oc_finished s) q.
Lemma is_finished_spec s q : runs_ok (oc_frontier s) (oc_finished s) → 1 ≤ oc_frontier s → is_finished s q = true ↔ finished_seq s q.
Proof.
  intros Hr Hf. unfold is_finished, finished_seq. rewrite orb_true_iff, Z.ltb_lt, Z.leb_le. destruct (decide (q < oc_frontier s)); [tauto|].
  destruct (finished_through_spec s q Hr) as (? & Hin & Hout & _); [lia|]. split; (intros [Hlt|Hin2]; [by left|right]); [apply Hin; lia|].
  destruct (decide (finished_through s q = q - 1)) as [Heq|]; [|lia]. exfalso. apply Hout. rewrite Heq. by replace (q - 1 + 1) with q by lia.
Qed.

(** ** The invariant *)

Definition held_light (h : Held) : bool := bool_decide (h = HeldLight).
Definition held_heavy (h : Held) : bool := bool_decide (h = HeldHeavy).
Definition held_deferred (h : Held) : bool := bool_decide (h = HeldDeferred).
Definition held_reserved (h : Held) : bool := bool_decide (h = HeldIngress true).
Definition weigh (h : Held → bool) (e : Entry) : Z := if h (en_held e) then 1 else 0.
Definition count_held (h : Held → bool) (m : gmap Z Entry) : Z := map_sum (λ _, weigh h) m.

Lemma count_nonneg h m : 0 ≤ count_held h m.
Proof. apply map_sum_nonneg. intros k e _. unfold weigh. by destruct (h _). Qed.
Lemma count_insert h m q e : m !! q = None → count_held h (<[q := e]> m) = weigh h e + count_held h m.
Proof. apply (map_sum_insert (λ _, weigh h)). Qed.
Lemma count_update h m q e e' : m !! q = Some e → count_held h (<[q := e']> m) = count_held h m - weigh h e + weigh h e'.
Proof. intros H. unfold count_held. by rewrite (map_sum_update _ m q e e' H). Qed.
Lemma count_delete h m q e : m !! q = Some e → count_held h m = weigh h e + count_held h (delete q m).
Proof. intros H. by apply (map_sum_delete (λ _, weigh h)). Qed.
Lemma count_total m : Z.of_nat (size m) = count_held held_light m + count_held held_heavy m + count_held held_deferred m + count_held is_ingress m.
Proof.
  induction m as [|q e m Hq IH] using map_ind; [done|]. rewrite map_size_insert_None, !count_insert by done.
  assert (weigh held_light e + weigh held_heavy e + weigh held_deferred e + weigh is_ingress e = 1); [|lia].
  unfold weigh, held_light, held_heavy, held_deferred. by destruct (en_held e); repeat (case_bool_decide; try done).
Qed.
Lemma count_reserved m : count_held held_reserved m ≤ count_held is_ingress m.
Proof.
  apply map_sum_le. intros k e _. unfold weigh, held_reserved. destruct (en_held e) as [| | |[]]; simpl; repeat case_bool_decide; simpl; try done; lia.
Qed.

(** The started events: a partial batch, the block updates being decoded, the step in progress. *)
Definition fences s : list (Z * Z) :=
  (match pending_sequence s with Some p => [(p, p)] | None => [] end) ++
  (match oc_blocking_block_updates s with Some r => [r] | None => [] end) ++
  (match oc_applying s with
   | Some a => if bool_decide (pending_sequence s = Some a) then [] else [(a, default a (oc_block_update_range_end s))]
   | None => []
   end).
Definition within q (r : Z * Z) : Prop := r.1 ≤ q ≤ r.2.
#[export] Instance within_dec q r : Decision (within q r) := and_dec _ _.
Definition cover q (l : list (Z * Z)) : nat := length (filter (within q) l).
Definition active_at (m : gmap Z Entry) q : bool := match m !! q with Some e => is_active (en_slot e) | None => false end.

Definition INGRESS_BOUND : Z := 2 ^ 32.
Record counts_ok s : Prop := {
  co_unfinished : oc_unfinished s = Z.of_nat (size (oc_entries s));
  co_light : oc_light s = count_held held_light (oc_entries s);
  co_heavy : oc_heavy s = count_held held_heavy (oc_entries s);
  co_deferred : oc_deferred s = count_held held_deferred (oc_entries s);
  co_ingress : oc_ingress s = count_held is_ingress (oc_entries s);
  co_reserved : oc_ingress_light s = count_held held_reserved (oc_entries s);
}.
Record bounds_ok s : Prop := {
  bo_light : oc_light s + oc_ingress_light s ≤ MAX_ADMITTED_WORLD_EVENTS;
  bo_heavy : oc_heavy s ≤ MAX_ADMITTED_HEAVY_EVENTS + (match oc_entries s !! oc_frontier s with Some e => weigh held_heavy e | None => 0 end);
  bo_deferred : oc_deferred s ≤ MAX_DEFERRED_WORLD_EVENTS;
  bo_ingress : oc_ingress s ≤ INGRESS_BOUND;
}.
Record ordered_ok s : Prop := {
  oo_frontier : 1 ≤ oc_frontier s ≤ USIZE_MAX;
  oo_runs : runs_ok (oc_frontier s) (oc_finished s);
  oo_keys q e : oc_entries s !! q = Some e → oc_frontier s ≤ q < USIZE_MAX ∧ ¬ in_run (oc_finished s) q;
  oo_counts : counts_ok s;
  oo_bounds : bounds_ok s;
  oo_fences r : r ∈ fences s → r.1 ≤ r.2;
  oo_active q : cover q (fences s) = if active_at (oc_entries s) q then 1%nat else 0%nat;
  oo_range b : oc_block_update_range_end s = Some b → oc_blocking_block_updates s = None ∧ ∃ a, oc_applying s = Some a ∧ pending_sequence s ≠ Some a;
}.

Lemma ordered_new_ok first : 1 ≤ first ≤ USIZE_MAX → ordered_ok (@ordered_new Content first).
Proof.
  intros Hf. split; simpl; [done|by split|done|by split|by split|intros r Hr; by apply elem_of_nil in Hr|done|done].
Qed.

Lemma counts_hold s : counts_ok s → accounting_holds s = true.
Proof.
  intros []. unfold accounting_holds. pose proof (count_total (oc_entries s)). pose proof (count_reserved (oc_entries s)).
  rewrite !andb_true_iff, !Z.eqb_eq, Z.leb_le. lia.
Qed.
Lemma count_bounds s : ordered_ok s → 0 ≤ oc_light s ≤ 64 ∧ 0 ≤ oc_heavy s ≤ 33 ∧ 0 ≤ oc_deferred s ≤ 32 ∧ 0 ≤ oc_ingress s ≤ 2 ^ 32 ∧
  0 ≤ oc_ingress_light s ≤ 64 ∧ 0 ≤ oc_unfinished s ≤ 2 ^ 33.
Proof.
  intros [_ _ _ [] [] _ _ _]. pose proof (count_nonneg held_light (oc_entries s)). pose proof (count_nonneg held_heavy (oc_entries s)).
  pose proof (count_nonneg held_deferred (oc_entries s)). pose proof (count_nonneg is_ingress (oc_entries s)). pose proof (count_nonneg held_reserved (oc_entries s)).
  pose proof (count_total (oc_entries s)). unfold MAX_ADMITTED_WORLD_EVENTS, MAX_ADMITTED_HEAVY_EVENTS, MAX_DEFERRED_WORLD_EVENTS, INGRESS_BOUND, MAX_ADMITTED_HEAVY_EVENTS in *.
  assert (match oc_entries s !! oc_frontier s with Some e => weigh held_heavy e | None => 0 end ≤ 1) by (destruct (_ !! _); unfold weigh; [destruct (held_heavy _)|]; lia).
  lia.
Qed.
Lemma key_unfinished s q e : ordered_ok s → oc_entries s !! q = Some e → ¬ finished_seq s q.
Proof. intros Hok Hq. destruct (oo_keys _ Hok q e Hq) as [? Hr]. intros [?|?]; [lia|done]. Qed.

(** Small steps of the monad. *)
Lemma ewp_incr n s (Q : Z → State → Prop) E : 0 ≤ n < USIZE_MAX → Q (n + 1) s → ewp (incr n) s Q E.
Proof. intros Hn HQ. apply (ewp_expect _ (n + 1)); [|done]. unfold checked_add. destruct (Z.leb_spec (n + 1) USIZE_MAX); [done|lia]. Qed.
Lemma ewp_decr n s (Q : Z → State → Prop) E : 1 ≤ n → Q (n - 1) s → ewp (decr n) s Q E.
Proof. intros Hn HQ. apply (ewp_expect _ (n - 1)); [|done]. unfold checked_sub. destruct (Z.leb_spec 1 n); [done|lia]. Qed.
Lemma ewp_assert (holds : bool) s (Q : unit → State → Prop) E : holds = true → Q tt s → ewp (assert_that holds) s Q E.
Proof. by intros ->. Qed.
Lemma ewp_check s (Q : unit → State → Prop) E : counts_ok s → Q tt s → ewp debug_check_accounting s Q E.
Proof. intros Hc HQ. unfold debug_check_accounting. ewp_steps. apply ewp_assert; [by apply counts_hold|done]. Qed.

(** ** What a call may change *)

(** Footprints that conflict alike: normalisation only clears [heavy]. *)
Definition same_lanes f g : Prop := without_heavy f = without_heavy g.
Lemma conflicts_same couple f f' g g' : same_lanes f f' → same_lanes g g' → conflicts couple f g = conflicts couple f' g'.
Proof.
  intros Hf Hg. change (conflicts couple f g) with (conflicts couple (without_heavy f) (without_heavy g)). rewrite Hf, Hg. done.
Qed.

(** Calls other than the start of a step: nothing starts, fences go only when all they cover is finished. *)
Record moves (new : option (Z * Footprint)) s s' : Prop := {
  mv_finished q : finished_seq s q → finished_seq s' q;
  mv_done q : finished_seq s' q → finished_seq s q ∨ ∃ r, r ∈ fences s ∧ within q r ∧ ∀ x, within x r → finished_seq s' x;
  mv_kept r : r ∈ fences s → r ∈ fences s' ∨ ∀ q, within q r → finished_seq s' q;
  mv_fences r : r ∈ fences s' → r ∈ fences s;
  mv_entries q e' : oc_entries s' !! q = Some e' →
    (∃ e, oc_entries s !! q = Some e ∧ same_lanes (en_footprint e') (en_footprint e)) ∨ (∃ f, new = Some (q, f) ∧ same_lanes (en_footprint e') f);
}.
Lemma moves_refl new s : moves new s s.
Proof. split; [done|by left|by left|done|]. intros q e He. left. by exists e. Qed.
Lemma moves_trans s1 s2 s3 new : moves new s1 s2 → moves None s2 s3 → moves new s1 s3.
Proof.
  intros [F1 D1 K1 B1 E1] [F2 D2 K2 B2 E2]. split; [auto| | |auto|].
  - intros q [H2|(r & Hr & Hq & Hd)]%D2; [|right; exists r; auto]. destruct (D1 q H2) as [?|(r & Hr & Hq & Hd)]; [by left|right; exists r; auto].
  - intros r Hr. destruct (K1 r Hr) as [Hr2|Hd]; [by apply K2|right; auto].
  - intros q e3 H3. destruct (E2 q e3 H3) as [(e2 & H2 & L2)|(f & [=] & _)]. destruct (E1 q e2 H2) as [(e1 & H1 & L1)|(f & Hn & L1)].
    + left. exists e1. split; [done|]. unfold same_lanes in *. congruence.
    + right. exists f. split; [done|]. unfold same_lanes in *. congruence.
Qed.

(** States that differ only in what the invariant does not read. *)
Record same_core s s' : Prop := {
  sc_frontier : oc_frontier s' = oc_frontier s; sc_entries : oc_entries s' = oc_entries s; sc_finished : oc_finished s' = oc_finished s;
  sc_counts : (oc_unfinished s', oc_light s', oc_heavy s', oc_deferred s', oc_ingress s', oc_ingress_light s') =
    (oc_unfinished s, oc_light s, oc_heavy s, oc_deferred s, oc_ingress s, oc_ingress_light s);
  sc_pending : pending_sequence s' = pending_sequence s; sc_blocking : oc_blocking_block_updates s' = oc_blocking_block_updates s;
  sc_range : oc_block_update_range_end s' = oc_block_update_range_end s; sc_applying : oc_applying s' = oc_applying s;
}.
Lemma same_core_refl s : same_core s s.
Proof. by split. Qed.
Lemma same_core_trans s1 s2 s3 : same_core s1 s2 → same_core s2 s3 → same_core s1 s3.
Proof. intros [] []. split; congruence. Qed.
Lemma same_core_fences s s' : same_core s s' → fences s' = fences s.
Proof. intros [_ _ _ _ Hp Hb Hr Ha]. unfold fences. by rewrite Hp, Hb, Ha, Hr. Qed.
Lemma same_core_finished s s' q : same_core s s' → finished_seq s' q ↔ finished_seq s q.
Proof. intros [Hf _ Hr _ _ _ _ _]. unfold finished_seq. by rewrite Hf, Hr. Qed.
Lemma same_core_ok s s' : same_core s s' → ordered_ok s → ordered_ok s'.
Proof.
  intros Hs [? ? ? [] [] ? ? ?]. pose proof (same_core_fences _ _ Hs) as Hfe. destruct Hs as [Hf He Hr [= Hu Hl Hh Hd Hi Hil] Hp Hb Hra Ha].
  split; rewrite ?Hfe, ?Hf, ?He, ?Hr, ?Hra, ?Ha, ?Hb, ?Hp; try done; split; rewrite ?Hu, ?Hl, ?Hh, ?Hd, ?Hi, ?Hil, ?He, ?Hf; done.
Qed.
Lemma same_core_moves s s' new : same_core s s' → moves new s s'.
Proof.
  intros Hs. split.
  - intros q. by rewrite (same_core_finished _ _ _ Hs).
  - intros q. rewrite (same_core_finished _ _ _ Hs). by left.
  - intros r. rewrite (same_core_fences _ _ Hs). by left.
  - intros r. by rewrite (same_core_fences _ _ Hs).
  - intros q e. rewrite (sc_entries _ _ Hs). intros He. left. by exists e.
Qed.

(** ** Admission *)

Lemma ewp_validate q s (Q : unit → State → Prop) (E : WorldStreamError → State → Prop) : ordered_ok s →
  (¬ finished_seq s q → oc_entries s !! q = None → Q tt s) → (∀ err, E err s) → ewp (validate_sequence q) s Q E.
Proof.
  intros Hok HQ HE. unfold validate_sequence. ewp_steps. unfold id. destruct (is_finished s q) eqn:Hf; cbn [orb]; [exact (HE _)|].
  case_bool_decide as He; [exact (HE _)|]. apply HQ.
  - rewrite <-(is_finished_spec s q); [by rewrite Hf|apply Hok|apply Hok].
  - by apply eq_None_not_Some.
Qed.

Definition counted (light heavy deferred ingress reserved : Z) q e s : State :=
  with_entries (<[q := e]> (oc_entries s)) (oc_unfinished s + 1) (with_counts light heavy deferred ingress reserved s).
Lemma frontier_term_insert s q e : oc_entries s !! q = None →
  match oc_entries s !! oc_frontier s with Some e => weigh held_heavy e | None => 0 end ≤
  match <[q := e]> (oc_entries s) !! oc_frontier s with Some e => weigh held_heavy e | None => 0 end.
Proof.
  intros Hq. destruct (decide (q = oc_frontier s)) as [<-|Hne]; [|by rewrite lookup_insert_ne].
  rewrite Hq, lookup_insert_eq. unfold weigh. destruct (held_heavy _); lia.
Qed.
Lemma inserted_ok s q f held light heavy deferred ingress reserved : let e := mk_entry f held Waiting in
  ordered_ok s → oc_entries s !! q = None → ¬ finished_seq s q → q < USIZE_MAX →
  light = oc_light s + weigh held_light e → heavy = oc_heavy s + weigh held_heavy e → deferred = oc_deferred s + weigh held_deferred e →
  ingress = oc_ingress s + weigh is_ingress e → reserved = oc_ingress_light s + weigh held_reserved e →
  light + reserved ≤ MAX_ADMITTED_WORLD_EVENTS → (heavy = oc_heavy s ∨ heavy ≤ MAX_ADMITTED_HEAVY_EVENTS) → deferred ≤ MAX_DEFERRED_WORLD_EVENTS → ingress ≤ INGRESS_BOUND →
  ordered_ok (counted light heavy deferred ingress reserved q e s) ∧ moves (Some (q, f)) s (counted light heavy deferred ingress reserved q e s).
Proof.
  intros e Hok Hq Hfin Hmax -> -> -> -> -> Hbl Hbh Hbd Hbi. assert (Hact : ∀ x, active_at (<[q := e]> (oc_entries s)) x = active_at (oc_entries s) x).
  { intros x. unfold active_at. destruct (decide (x = q)) as [->|Hne]; [by rewrite lookup_insert_eq, Hq|by rewrite lookup_insert_ne]. }
  pose proof (frontier_term_insert s q e Hq) as Hterm. split.
  - destruct Hok as [Hf Hr Hk [] [] Hfe Ha Hra]. split; simpl; [done|done| | | |done|intros x; by rewrite Hact|done].
    + intros x e'. destruct (decide (x = q)) as [->|Hne]; [|rewrite lookup_insert_ne by done; apply Hk]. intros _.
      split; [split; [|done]|]; [apply Z.nlt_ge; intros ?; apply Hfin; by left|intros ?; apply Hfin; by right].
    + split; simpl; rewrite ?count_insert by done; try lia. rewrite map_size_insert_None by done. lia.
    + split; simpl; [done| |done|done]. destruct Hbh as [Hbh|Hbh]; [lia|]. etrans; [exact Hbh|]. destruct (<[_ := _]> _ !! _); [unfold weigh; destruct (held_heavy _)|]; lia.
  - split; simpl; [done|by left|by left|done|]. intros x e'. destruct (decide (x = q)) as [->|Hne].
    + rewrite lookup_insert_eq. intros [= <-]. right. by exists f.
    + rewrite lookup_insert_ne by done. intros He. left. by exists e'.
Qed.
Definition fine (new : option (Z * Footprint)) s s' : Prop := ordered_ok s' ∧ moves new s s'.
#[local] Ltac steps := ewp_steps; unfold id.

Lemma light_room s retained : ordered_ok s → 0 ≤ retained → light_capacity s retained ≠ 0 → oc_light s + oc_ingress_light s < MAX_ADMITTED_WORLD_EVENTS.
Proof.
  intros Hok Hr. pose proof (count_bounds s Hok). unfold light_capacity, light_capacity_with_reservations, sat_sub, sat_add, MAX_ADMITTED_WORLD_EVENTS, USIZE_MAX. lia.
Qed.
(** The four ways to charge and insert a new entry. *)
Lemma ewp_insert_entry q f held light heavy deferred ingress reserved s (E : WorldStreamError → State → Prop) : ordered_ok s →
  fine (Some (q, f)) s (counted light heavy deferred ingress reserved q (mk_entry f held Waiting) s) →
  ewp (insert_entry q f held) (with_counts light heavy deferred ingress reserved s) (λ _ s', s' = counted light heavy deferred ingress reserved q (mk_entry f held Waiting) s) E.
Proof.
  intros Hok Hfine. unfold insert_entry. steps. apply ewp_incr; [pose proof (count_bounds s Hok); simpl; unfold USIZE_MAX; lia|]. steps.
  apply ewp_check; [apply Hfine|done].
Qed.
Lemma ewp_admit_light q f retained s : ordered_ok s → q < USIZE_MAX → 0 ≤ retained → ¬ finished_seq s q → oc_entries s !! q = None →
  ewp (admit_light q f retained) s (λ _ s', fine (Some (q, f)) s s') (λ _ s', s' = s).
Proof.
  intros Hok Hq Hr Hfin Hnone. unfold admit_light. steps. destruct (Z.eqb_spec (light_capacity s retained) 0) as [|Hcap]; [done|].
  pose proof (light_room s retained Hok Hr Hcap). pose proof (count_bounds s Hok). destruct (oo_bounds _ Hok). unfold hold_light. steps.
  assert (fine (Some (q, f)) s (counted (oc_light s + 1) (oc_heavy s) (oc_deferred s) (oc_ingress s) (oc_ingress_light s) q (mk_entry f HeldLight Waiting) s)) as Hfine.
  { apply inserted_ok; try done; unfold weigh; simpl; try lia. }
  apply ewp_incr; [unfold USIZE_MAX; lia|]. steps. eapply ewp_mono; [by apply (ewp_insert_entry _ _ _ _ _ _ _ _ s (λ _ s', s' = s))| |done]. by intros [] s' ->.
Qed.
Lemma ewp_admit_event q f retained s : ordered_ok s → q < USIZE_MAX → 0 ≤ retained → ewp (admit_event q f retained) s (λ _ s', fine (Some (q, f)) s s') (λ _ s', s' = s).
Proof.
  intros Hok Hq Hr. unfold admit_event. apply ewp_bind, ewp_validate; [done| |done]. intros Hfin Hnone. destruct (fp_heavy f); [|by apply ewp_admit_light].
  steps. destruct (Z.eqb_spec (heavy_capacity s) 0) as [|Hcap]; [done|]. pose proof (count_bounds s Hok). destruct (oo_bounds _ Hok).
  unfold heavy_capacity, sat_sub, MAX_ADMITTED_HEAVY_EVENTS in Hcap.
  assert (fine (Some (q, f)) s (counted (oc_light s) (oc_heavy s + 1) (oc_deferred s) (oc_ingress s) (oc_ingress_light s) q (mk_entry f HeldHeavy Waiting) s)) as Hfine.
  { apply inserted_ok; try done; unfold weigh, MAX_ADMITTED_HEAVY_EVENTS; simpl; try lia. }
  unfold hold_heavy. steps. apply ewp_incr; [unfold USIZE_MAX; lia|]. steps.
  eapply ewp_mono; [by apply (ewp_insert_entry _ _ _ _ _ _ _ _ s (λ _ s', s' = s))| |done]. by intros [] s' ->.
Qed.
Lemma ewp_admit_deferred q f retained s : ordered_ok s → q < USIZE_MAX → 0 ≤ retained → ewp (admit_deferred q f retained) s (λ _ s', fine (Some (q, f)) s s') (λ _ s', s' = s).
Proof.
  intros Hok Hq Hr. unfold admit_deferred. apply ewp_bind, ewp_validate; [done| |done]. intros Hfin Hnone. destruct (fp_heavy f); [|by apply ewp_admit_light].
  steps. destruct (Z.eqb_spec (deferred_capacity s) 0) as [|Hcap]; [done|]. pose proof (count_bounds s Hok). destruct (oo_bounds _ Hok).
  unfold deferred_capacity, sat_sub, MAX_DEFERRED_WORLD_EVENTS, MAX_ADMITTED_HEAVY_EVENTS in Hcap.
  assert (fine (Some (q, f)) s (counted (oc_light s) (oc_heavy s) (oc_deferred s + 1) (oc_ingress s) (oc_ingress_light s) q (mk_entry f HeldDeferred Waiting) s)) as Hfine.
  { apply inserted_ok; try done; unfold weigh, MAX_DEFERRED_WORLD_EVENTS, MAX_ADMITTED_HEAVY_EVENTS; simpl; try lia. }
  unfold hold_deferred. steps. apply ewp_incr; [unfold USIZE_MAX; lia|]. steps.
  eapply ewp_mono; [by apply (ewp_insert_entry _ _ _ _ _ _ _ _ s (λ _ s', s' = s))| |done]. by intros [] s' ->.
Qed.

(** ** Entries in place *)

Lemma put_entry_ok s q e e' light heavy deferred ingress reserved : ordered_ok s → oc_entries s !! q = Some e →
  is_active (en_slot e') = is_active (en_slot e) → same_lanes (en_footprint e') (en_footprint e) →
  light = oc_light s - weigh held_light e + weigh held_light e' → heavy = oc_heavy s - weigh held_heavy e + weigh held_heavy e' →
  deferred = oc_deferred s - weigh held_deferred e + weigh held_deferred e' → ingress = oc_ingress s - weigh is_ingress e + weigh is_ingress e' →
  reserved = oc_ingress_light s - weigh held_reserved e + weigh held_reserved e' →
  light + reserved ≤ MAX_ADMITTED_WORLD_EVENTS → deferred ≤ MAX_DEFERRED_WORLD_EVENTS → ingress ≤ INGRESS_BOUND →
  (weigh held_heavy e' = weigh held_heavy e ∨ heavy ≤ MAX_ADMITTED_HEAVY_EVENTS ∨ q = oc_frontier s) →
  fine None s (put_entry q e' (with_counts light heavy deferred ingress reserved s)).
Proof.
  intros Hok Hq Hslot Hlanes -> -> -> -> -> Hbl Hbd Hbi Hbh. assert (Hact : ∀ x, active_at (<[q := e']> (oc_entries s)) x = active_at (oc_entries s) x).
  { intros x. unfold active_at. destruct (decide (x = q)) as [->|Hne]; [by rewrite lookup_insert_eq, Hq|by rewrite lookup_insert_ne]. }
  split.
  - destruct Hok as [Hf Hr Hk [] [] Hfe Ha Hra]. split; simpl; [done|done| | | |done|intros x; by rewrite Hact|done].
    + intros x e2. destruct (decide (x = q)) as [->|Hne]; [intros _; by apply (Hk q e)|rewrite lookup_insert_ne by done; apply Hk].
    + split; simpl; rewrite ?(count_update _ _ _ _ _ Hq); try lia. by rewrite map_size_insert_Some by (by rewrite Hq).
    + split; simpl; [done| |done|done]. destruct (decide (q = oc_frontier s)) as [->|Hne].
      * rewrite lookup_insert_eq. rewrite Hq in bo_heavy0. lia.
      * rewrite lookup_insert_ne by done. assert (0 ≤ match oc_entries s !! oc_frontier s with Some e => weigh held_heavy e | None => 0 end); [|lia].
        destruct (_ !! _); [unfold weigh; destruct (held_heavy _)|]; lia.
  - split; simpl; [done|by left|by left|done|]. intros x e2. destruct (decide (x = q)) as [->|Hne].
    + rewrite lookup_insert_eq. intros [= <-]. left. by exists e.
    + rewrite lookup_insert_ne by done. intros He. left. by exists e2.
Qed.
Lemma put_same_ok s q e e' : ordered_ok s → oc_entries s !! q = Some e → is_active (en_slot e') = is_active (en_slot e) →
  same_lanes (en_footprint e') (en_footprint e) → en_held e' = en_held e → fine None s (put_entry q e' s).
Proof.
  intros Hok Hq Hs Hl Hh. pose proof (oo_bounds _ Hok) as []. assert (Hw : ∀ h, weigh h e' = weigh h e) by (intros h; unfold weigh; by rewrite Hh).
  apply (put_entry_ok s q e e' (oc_light s) (oc_heavy s) (oc_deferred s) (oc_ingress s) (oc_ingress_light s)); rewrite ?Hw; try done; lia.
Qed.

Lemma ewp_insert_ready q ev s : ordered_ok s → ewp (insert_ready q ev) s (λ _ s', fine None s s') (λ _ s', s' = s).
Proof.
  intros Hok. unfold insert_ready. steps. destruct (oc_entries s !! q) as [e|] eqn:Hq; [|done]. destruct (en_slot e) eqn:Hs; [|done..].
  ewp_steps. apply (put_same_ok s q e); try done. simpl. by rewrite Hs.
Qed.
Lemma ewp_normalize q s (E : WorldStreamError → State → Prop) : ordered_ok s → ewp (normalize q) s (λ _ s', fine None s s') E.
Proof.
  intros Hok. unfold normalize. steps. destruct (oc_entries s !! q) as [e|] eqn:Hq; [|split; [done|apply moves_refl]].
  ewp_steps. by apply (put_same_ok s q e).
Qed.
Lemma ewp_promote_deferred q e s (E : WorldStreamError → State → Prop) : ordered_ok s → oc_entries s !! q = Some e →
  (en_held e ≠ HeldDeferred ∨ heavy_capacity s ≠ 0 ∨ q = oc_frontier s) → ewp (promote_deferred q) s (λ _ s', fine None s s') E.
Proof.
  intros Hok Hq Hcap. unfold promote_deferred. steps. apply (ewp_expect _ e); [done|]. apply ewp_bind. case_decide as Hd.
  - pose proof (count_bounds s Hok). pose proof (oo_bounds _ Hok) as []. pose proof (oo_counts _ Hok) as [].
    assert (1 ≤ oc_deferred s). { rewrite co_deferred0, (count_delete _ _ _ _ Hq). pose proof (count_nonneg held_deferred (delete q (oc_entries s))). unfold weigh. rewrite Hd. simpl. lia. }
    assert (fine None s (put_entry q (with_held HeldHeavy e) (with_counts (oc_light s) (oc_heavy s + 1) (oc_deferred s - 1) (oc_ingress s) (oc_ingress_light s) s))) as Hfine.
    { apply (put_entry_ok s q e); try done; unfold weigh; rewrite ?Hd; simpl; try lia. right. destruct Hcap as [?|[Hcap|?]]; [done|left|by right].
      unfold heavy_capacity, sat_sub, MAX_ADMITTED_HEAVY_EVENTS in *. lia. }
    steps. apply ewp_decr; [lia|]. steps. apply ewp_incr; [unfold USIZE_MAX; lia|]. steps. apply ewp_check; [apply Hfine|done].
  - steps. apply ewp_check; [apply Hok|]. split; [done|apply moves_refl].
Qed.
Lemma ewp_reserve q e lr retained s (E : WorldStreamError → State → Prop) : ordered_ok s → oc_entries s !! q = Some e → en_held e = HeldIngress lr → 0 ≤ retained →
  ewp (reserve_ingress_light q retained) s (λ _ s', fine None s s') E.
Proof.
  intros Hok Hq Hh Hr. assert (fine None s s) as Hrefl by (split; [done|apply moves_refl]). unfold reserve_ingress_light. steps. apply (ewp_expect _ e); [done|]. rewrite Hh.
  destruct (fp_heavy (en_footprint e) || lr) eqn:Hlr; [done|]. apply orb_false_iff in Hlr as [_ ->]. destruct (Z.eqb_spec (light_capacity s retained) 0) as [|Hcap]; [done|].
  pose proof (light_room s retained Hok Hr Hcap). pose proof (count_bounds s Hok). pose proof (oo_bounds _ Hok) as [].
  assert (fine None s (put_entry q (with_held (HeldIngress true) e) (with_counts (oc_light s) (oc_heavy s) (oc_deferred s) (oc_ingress s) (oc_ingress_light s + 1) s))) as Hfine.
  { apply (put_entry_ok s q e); try done; unfold weigh, held_light, held_heavy, held_deferred, held_reserved; simpl; rewrite ?Hh; simpl; try lia. }
  steps. apply ewp_incr; [unfold USIZE_MAX; lia|]. steps. done.
Qed.
Lemma ewp_retain q f capacity retained s : ordered_ok s → q < USIZE_MAX → 0 ≤ retained → capacity ≤ INGRESS_BOUND →
  ewp (retain_ingress q f capacity retained) s (λ _ s', fine (Some (q, f)) s s') (λ _ s', s' = s).
Proof.
  intros Hok Hq Hr Hcapacity. unfold retain_ingress. apply ewp_bind, ewp_validate; [done| |done]. intros Hfin Hnone. steps.
  destruct (Z.leb_spec capacity (oc_ingress s)); [done|]. pose proof (count_bounds s Hok). pose proof (oo_bounds _ Hok) as [].
  pose (s1 := counted (oc_light s) (oc_heavy s) (oc_deferred s) (oc_ingress s + 1) (oc_ingress_light s) q (mk_entry f (HeldIngress false) Waiting) s).
  assert (fine (Some (q, f)) s s1) as Hfine. { apply inserted_ok; try done; unfold weigh; simpl; try lia. }
  unfold hold_ingress. steps. apply ewp_incr; [unfold USIZE_MAX; lia|]. steps.
  eapply ewp_mono; [by apply (ewp_insert_entry _ _ _ _ _ _ _ _ s (λ _ s', s' = s))| |done]. intros [] s' ->. fold s1.
  eapply ewp_mono; [apply (ewp_reserve q (mk_entry f (HeldIngress false) Waiting) false retained s1 (λ _ s', s' = s)); [apply Hfine|apply lookup_insert_eq|done|done]| |done].
  intros r s' [Hok' Hm]. split; [done|]. eapply moves_trans; [apply Hfine|done].
Qed.

(** ** Taking entries out *)

Definition dropped q e s : State :=
  with_counts (oc_light s - weigh held_light e) (oc_heavy s - weigh held_heavy e) (oc_deferred s - weigh held_deferred e)
    (oc_ingress s - weigh is_ingress e) (oc_ingress_light s - weigh held_reserved e) (with_entries (delete q (oc_entries s)) (oc_unfinished s - 1) s).
Lemma dropped_counts q e s : counts_ok s → oc_entries s !! q = Some e → counts_ok (dropped q e s).
Proof.
  intros [] Hq. split; simpl; [|rewrite ?co_light0, ?co_heavy0, ?co_deferred0, ?co_ingress0, ?co_reserved0, (count_delete _ _ _ _ Hq); lia..].
  assert (size (oc_entries s) ≠ 0%nat) by (apply map_size_non_empty_iff; intros H; rewrite H in Hq; by rewrite lookup_empty in Hq).
  rewrite map_size_delete, Hq. lia.
Qed.
Lemma count_one h m q e : m !! q = Some e → h (en_held e) = true → 1 ≤ count_held h m.
Proof. intros Hq Hh. rewrite (count_delete _ _ _ _ Hq). pose proof (count_nonneg h (delete q m)). unfold weigh. rewrite Hh. lia. Qed.
Lemma ewp_remove_entry q e s (Q : unit → State → Prop) E : counts_ok s → oc_entries s !! q = Some e → Q tt (dropped q e s) → ewp (remove_entry q e) s Q E.
Proof.
  intros Hc Hq HQ. pose proof (dropped_counts q e s Hc Hq) as Hd. pose proof Hc as [].
  assert (size (oc_entries s) ≠ 0%nat) by (apply map_size_non_empty_iff; intros H; rewrite H in Hq; by rewrite lookup_empty in Hq).
  unfold remove_entry. steps. apply ewp_decr; [lia|]. steps. unfold release_held. steps. pose proof (count_one held_light _ _ _ Hq). pose proof (count_one held_heavy _ _ _ Hq).
  pose proof (count_one held_deferred _ _ _ Hq). pose proof (count_one is_ingress _ _ _ Hq). pose proof (count_one held_reserved _ _ _ Hq).
  assert (Hend : ∀ s' : State, s' = dropped q e s → ewp debug_check_accounting s' Q E). { intros s' ->. by apply ewp_check. }
  unfold dropped, weigh in Hend. destruct (en_held e) as [| | |[]] eqn:Hh; cbn in Hend |- *.
  - steps. apply ewp_decr; [rewrite co_light0; auto|]. steps. apply Hend. by rewrite !Z.sub_0_r.
  - steps. apply ewp_decr; [rewrite co_heavy0; auto|]. steps. apply Hend. by rewrite !Z.sub_0_r.
  - steps. apply ewp_decr; [rewrite co_deferred0; auto|]. steps. apply Hend. by rewrite !Z.sub_0_r.
  - steps. apply ewp_decr; [rewrite co_ingress0; auto|]. steps. apply (ewp_expect _ (oc_ingress_light s - 1)).
    { unfold checked_sub. destruct (Z.leb_spec 1 (oc_ingress_light s)); [done|]. assert (1 ≤ count_held held_reserved (oc_entries s)) by auto. lia. }
    steps. apply Hend. by rewrite !Z.sub_0_r.
  - steps. apply ewp_decr; [rewrite co_ingress0; auto|]. steps. apply (ewp_expect _ (oc_ingress_light s - 0)).
    { unfold checked_sub. destruct (Z.leb_spec 0 (oc_ingress_light s)); [done|]. pose proof (count_nonneg held_reserved (oc_entries s)). lia. }
    steps. apply Hend. by rewrite !Z.sub_0_r.
Qed.

Lemma dropped_ok q e s : ordered_ok s → oc_entries s !! q = Some e → is_active (en_slot e) = false → fine None s (dropped q e s).
Proof.
  intros Hok Hq Hs. assert (Hact : ∀ x, active_at (delete q (oc_entries s)) x = active_at (oc_entries s) x).
  { intros x. unfold active_at. destruct (decide (x = q)) as [->|Hne]; [by rewrite lookup_delete_eq, Hq|by rewrite lookup_delete_ne]. }
  assert (Hw : ∀ h, 0 ≤ weigh h e ≤ 1) by (intros h; unfold weigh; destruct (h _); lia).
  pose proof (dropped_counts q e s (oo_counts _ Hok) Hq) as Hc. split.
  - destruct Hok as [Hf Hr Hk Hco [] Hfe Ha Hra]. split; simpl; [done|done| |exact Hc| |done|intros x; by rewrite Hact|done].
    + intros x e2 [_ H2]%lookup_delete_Some. by apply (Hk x e2).
    + pose proof (Hw held_light). pose proof (Hw held_heavy). pose proof (Hw held_deferred). pose proof (Hw is_ingress). pose proof (Hw held_reserved).
      split; simpl; [lia| |lia|lia]. destruct (decide (q = oc_frontier s)) as [->|Hne].
      * rewrite lookup_delete_eq. rewrite Hq in bo_heavy0. lia.
      * rewrite lookup_delete_ne by done. lia.
  - split; simpl; [done|by left|by left|done|]. intros x e2 [_ H2]%lookup_delete_Some. left. by exists e2.
Qed.
Lemma ewp_cancel q s (E : WorldStreamError → State → Prop) : ordered_ok s → active_at (oc_entries s) q = false → ewp (cancel_admission q) s (λ _ s', fine None s s') E.
Proof.
  intros Hok Hs. unfold cancel_admission. steps. unfold active_at in Hs. destruct (oc_entries s !! q) as [e|] eqn:Hq; [|split; [done|apply moves_refl]].
  apply ewp_remove_entry; [apply Hok|done|by apply dropped_ok].
Qed.
Lemma ewp_release_ingress q e s (E : WorldStreamError → State → Prop) : ordered_ok s → oc_entries s !! q = Some e → is_ingress (en_held e) = true → is_active (en_slot e) = false →
  ewp (release_ingress q) s (λ _ s', fine None s s') E.
Proof.
  intros Hok Hq Hh Hs. unfold release_ingress. steps. apply ewp_assert; [by rewrite Hq|]. apply ewp_cancel; [done|]. unfold active_at. by rewrite Hq.
Qed.

(** ** Joining a finished range *)

(** The run that takes in [a..b], and the runs left beside it. *)
Record joined (F : Z) (m : gmap Z Z) (a b a' b' : Z) (m' : gmap Z Z) : Prop := {
  jo_sub x y : m' !! x = Some y → m !! x = Some y;
  jo_all x y : m !! x = Some y → m' !! x = Some y ∨ a' ≤ x ∧ y ≤ b';
  jo_in q : a' ≤ q ≤ b' → a ≤ q ≤ b ∨ in_run m q;
  jo_around : a ≤ b ∧ a' ≤ a ∧ b ≤ b' ∧ b' < USIZE_MAX ∧ F ≤ a' ∧ (a' = a ∨ F < a');
  jo_apart x y : m' !! x = Some y → y + 1 < a' ∨ b' + 1 < x;
}.
Lemma joined_in F m a b a' b' m' q : joined F m a b a' b' m' → (a' ≤ q ≤ b' ∨ in_run m' q ↔ in_run m q ∨ a ≤ q ≤ b).
Proof.
  intros [Hsub Hall Hin (Hab & Ha & Hb & Hmax & HF & _) Hapart]. split.
  - intros [Hq|(x & y & Hx & Hq)]; [destruct (Hin q Hq); [by right|by left]|]. left. exists x, y. split; [by apply Hsub|done].
  - intros [(x & y & Hx & Hq)|Hq]; [|left; lia]. destruct (Hall x y Hx) as [Hx'|]; [|left; lia]. right. by exists x, y.
Qed.
Lemma joined_runs F m a b a' b' m' : runs_ok F m → joined F m a b a' b' m' → F < a' → runs_ok F (<[a' := b']> m') ∧
  ∀ q, in_run (<[a' := b']> m') q ↔ in_run m q ∨ a ≤ q ≤ b.
Proof.
  intros Hr Hj HF. pose proof Hj as [Hsub Hall Hin (Hab & Ha & Hb & Hmax & _ & _) Hapart]. split.
  - split.
    + intros x y [[<- <-]|[Hne Hx]]%lookup_insert_Some; [lia|]. by apply (ru_bounds _ _ Hr), Hsub.
    + intros x y x' y' [[<- <-]|[Hne Hx]]%lookup_insert_Some [[<- <-]|[Hne' Hx']]%lookup_insert_Some Hlt; [lia|..].
      * destruct (Hapart _ _ Hx'); [|done]. destruct (ru_bounds _ _ Hr _ _ (Hsub _ _ Hx')). lia.
      * destruct (Hapart _ _ Hx); [done|]. lia.
      * by apply (ru_apart _ _ Hr x y x' y'); [apply Hsub|apply Hsub|].
  - intros q. rewrite <-(joined_in _ _ _ _ _ _ _ q Hj). split.
    + intros (x & y & [[<- <-]|[_ Hx]]%lookup_insert_Some & Hq); [by left|right; by exists x, y].
    + intros [Hq|(x & y & Hx & Hq)]; [exists a', b'; by rewrite lookup_insert_eq|]. exists x, y. split; [|done]. rewrite lookup_insert_ne; [done|].
      intros <-. destruct (Hapart _ _ Hx), (ru_bounds _ _ Hr _ _ (Hsub _ _ Hx)); lia.
Qed.
Lemma joined_frontier F m a b b' m' : runs_ok F m → joined F m a b F b' m' → a = F → runs_ok (b' + 1) m' ∧
  ∀ q, q < b' + 1 ∨ in_run m' q ↔ (q < F ∨ in_run m q) ∨ a ≤ q ≤ b.
Proof.
  intros Hr Hj ->. pose proof Hj as [Hsub Hall Hin (Hab & Ha & Hb & Hmax & _ & _) Hapart]. split.
  - split; [|intros x y x' y' Hx Hx'; apply (ru_apart _ _ Hr _ _ _ _ (Hsub _ _ Hx) (Hsub _ _ Hx'))].
    intros x y Hx. destruct (ru_bounds _ _ Hr _ _ (Hsub _ _ Hx)) as (? & ? & ?). destruct (Hapart _ _ Hx); lia.
  - intros q. pose proof (joined_in _ _ _ _ _ _ _ q Hj) as Hq. split.
    + intros [Hlt|Hq']; [destruct (decide (q < F)); [by left; left|]; assert (F ≤ q ≤ b') as Hq'' by lia; tauto|tauto].
    + intros [[Hlt|Hq']|Hq']; [left; lia|..]; (destruct (proj2 Hq) as [?|?]; [tauto|left; lia|by right]).
Qed.

Lemma join_runs_spec s a b : runs_ok (oc_frontier s) (oc_finished s) → oc_frontier s ≤ a → a ≤ b → b < USIZE_MAX → (∀ q, a ≤ q ≤ b → ¬ in_run (oc_finished s) q) →
  ∃ F m, join_runs a b s = with_sequences F m s ∧ oc_frontier s ≤ F ≤ USIZE_MAX ∧ runs_ok F m ∧
    ∀ q, (q < F ∨ in_run m q) ↔ finished_seq s q ∨ a ≤ q ≤ b.
Proof.
  intros Hr HF Hab Hmax Hout. set (m := oc_finished s) in *. set (F := oc_frontier s) in *.
  assert (Hleft : ∃ a1 m1, (match last_run (λ start, start <? a) m with
      | Some (before, before_end) => if a <=? sat_add before_end 1 then (before, Z.max b before_end, delete before m) else (a, b, m)
      | None => (a, b, m) end) = (a1, b, m1) ∧ (a1 ≤ a ∧ F ≤ a1 ∧ (a1 = a ∨ F < a1)) ∧ (∀ x y, m1 !! x = Some y → m !! x = Some y ∧ (y + 1 < a1 ∨ b < x)) ∧
      (∀ x y, m !! x = Some y → m1 !! x = Some y ∨ a1 ≤ x ∧ y ≤ b) ∧ ∀ q, a1 ≤ q < a → in_run m q).
  { pose proof (last_run_spec (λ start, start <? a) m) as H. destruct (last_run _ _) as [[p pe]|].
    - destruct H as (Hp & Hpa%Z.ltb_lt & Hlast). destruct (ru_bounds _ _ Hr _ _ Hp) as (? & ? & ?).
      assert (pe < a). { apply Z.nle_gt. intros ?. apply (Hout a); [lia|]. exists p, pe. split; [done|lia]. }
      assert (Hother : ∀ x y, m !! x = Some y → x ≠ p → y + 1 < p ∨ b < x).
      { intros x y Hx Hne. destruct (Z.lt_ge_cases x a) as [Hlt|Hge]; [left; apply (ru_apart _ _ Hr _ _ _ _ Hx Hp); assert (x ≤ p) by (eapply Hlast; [done|by apply Z.ltb_lt]); lia|].
        right. apply Z.nle_gt. intros ?. apply (Hout x); [lia|]. exists x, y. destruct (ru_bounds _ _ Hr _ _ Hx). split; [done|lia]. }
      unfold sat_add. replace (Z.min (pe + 1) USIZE_MAX) with (pe + 1) by lia. destruct (Z.leb_spec a (pe + 1)).
      + exists p, (delete p m). split; [f_equal; f_equal; lia|]. split; [lia|]. split; [|split].
        * intros x y [Hne Hx]%lookup_delete_Some. split; [done|]. by apply Hother.
        * intros x y Hx. destruct (decide (x = p)) as [->|Hne]; [right; assert (y = pe) by congruence; lia|left; by rewrite lookup_delete_ne].
        * intros q Hq. exists p, pe. split; [done|lia].
      + exists a, m. split; [done|]. split; [lia|]. split; [|split; [by left|lia]]. intros x y Hx. split; [done|].
        destruct (decide (x = p)) as [->|Hne]; [left; assert (y = pe) by congruence; lia|]. destruct (Hother x y Hx Hne); lia.
    - exists a, m. split; [done|]. split; [lia|]. split; [|split; [by left|lia]]. intros x y Hx. split; [done|]. specialize (H x y Hx). apply Z.ltb_ge in H.
      right. apply Z.nle_gt. intros ?. apply (Hout x); [lia|]. exists x, y. destruct (ru_bounds _ _ Hr _ _ Hx). split; [done|lia]. }
  destruct Hleft as (a1 & m1 & Heq & (Ha1 & HF1 & HF1') & Hsub1 & Hall1 & Hin1).
  assert (Hright : ∃ b2 m2, (match m1 !! sat_add b 1 with Some after_end => (after_end, delete (sat_add b 1) m1) | None => (b, m1) end) = (b2, m2) ∧ joined F m a b a1 b2 m2).
  { replace (sat_add b 1) with (b + 1) by (unfold sat_add; lia). destruct (m1 !! (b + 1)) as [be|] eqn:Hbe.
    - destruct (Hsub1 _ _ Hbe) as [Hmbe _]. destruct (ru_bounds _ _ Hr _ _ Hmbe) as (? & ? & ?). exists be, (delete (b + 1) m1). split; [done|]. split.
      + intros x y [_ Hx]%lookup_delete_Some. by apply Hsub1.
      + intros x y Hx. destruct (decide (x = b + 1)) as [->|Hne]; [right; assert (y = be) by congruence; lia|]. rewrite lookup_delete_ne by done. destruct (Hall1 x y Hx); [by left|right; lia].
      + intros q Hq. destruct (decide (q < a)); [right; apply Hin1; lia|]. destruct (decide (q ≤ b)); [left; lia|]. right. exists (b + 1), be. split; [done|lia].
      + lia.
      + intros x y [Hne Hx]%lookup_delete_Some. destruct (Hsub1 _ _ Hx) as [Hmx [?|?]]; [by left|]. right. apply (ru_apart _ _ Hr _ _ _ _ Hmbe Hmx). lia.
    - exists b, m1. split; [done|]. split; [intros x y Hx; by apply Hsub1|done| |lia|].
      + intros q Hq. destruct (decide (q < a)); [right; apply Hin1; lia|left; lia].
      + intros x y Hx. destruct (Hsub1 _ _ Hx) as [Hmx [?|?]]; [by left|]. right. assert (x ≠ b + 1) by congruence. lia. }
  destruct Hright as (b2 & m2 & Heq2 & Hj). pose proof (jo_around _ _ _ _ _ _ _ Hj) as (_ & _ & Hb2 & Hmax2 & _ & _).
  unfold join_runs. fold m F. rewrite Heq, Heq2. replace (sat_add b2 1) with (b2 + 1) by (unfold sat_add; lia). destruct (Z.leb_spec a1 F).
  - assert (a1 = F) as -> by lia. assert (a = F) as HaF by lia. destruct (joined_frontier _ _ _ _ _ _ Hr Hj HaF) as [Hr2 Hq]. exists (b2 + 1), m2. split; [done|]. split; [lia|]. by split.
  - destruct (joined_runs _ _ _ _ _ _ _ Hr Hj) as [Hr2 Hq]; [lia|]. exists F, (<[a1 := b2]> m2). split; [done|]. split; [split; [lia|]|].
    { unfold USIZE_MAX in *. lia. }
    split; [done|]. intros q. rewrite Hq. unfold finished_seq. fold F m. tauto.
Qed.

(** ** Releasing a range *)

(** The invariant with one more started range than the fences show. *)
Record unfenced (r : Z * Z) s : Prop := {
  uf_frontier : 1 ≤ oc_frontier s ≤ USIZE_MAX;
  uf_runs : runs_ok (oc_frontier s) (oc_finished s);
  uf_keys q e : oc_entries s !! q = Some e → oc_frontier s ≤ q < USIZE_MAX ∧ ¬ in_run (oc_finished s) q;
  uf_counts : counts_ok s;
  uf_bounds : bounds_ok s;
  uf_fences r' : r' ∈ r :: fences s → r'.1 ≤ r'.2;
  uf_active q : cover q (r :: fences s) = if active_at (oc_entries s) q then 1%nat else 0%nat;
  uf_range b : oc_block_update_range_end s = Some b → oc_blocking_block_updates s = None ∧ ∃ a, oc_applying s = Some a ∧ pending_sequence s ≠ Some a;
}.
(** Equal but for the fences. *)
Definition same_table s s' : Prop :=
  oc_frontier s' = oc_frontier s ∧ oc_entries s' = oc_entries s ∧ oc_finished s' = oc_finished s ∧
  (oc_unfinished s', oc_light s', oc_heavy s', oc_deferred s', oc_ingress s', oc_ingress_light s') =
    (oc_unfinished s, oc_light s, oc_heavy s, oc_deferred s, oc_ingress s, oc_ingress_light s).
#[export] Instance cover_proper q : Proper ((≡ₚ) ==> (=)) (cover q).
Proof. intros l l' Hl. unfold cover. by rewrite Hl. Qed.
Lemma table_counts s s' : same_table s s' → counts_ok s → counts_ok s'.
Proof. intros (_ & He & _ & [= Hu Hl Hh Hd Hi Hil]) []. split; rewrite ?Hu, ?Hl, ?Hh, ?Hd, ?Hi, ?Hil, He; done. Qed.
Lemma table_bounds s s' : same_table s s' → bounds_ok s → bounds_ok s'.
Proof. intros (Hf & He & _ & [= Hu Hl Hh Hd Hi Hil]) []. split; rewrite ?Hl, ?Hh, ?Hd, ?Hi, ?Hil, ?He, ?Hf; done. Qed.
Lemma unfence r s s' : ordered_ok s → same_table s s' → fences s ≡ₚ r :: fences s' → oc_block_update_range_end s' = None → unfenced r s'.
Proof.
  intros [Hf Hr Hk Hc Hb Hfe Ha Hra] Ht Hperm Hnone. pose proof (table_counts _ _ Ht Hc). pose proof (table_bounds _ _ Ht Hb). destruct Ht as (E1 & E2 & E3 & _).
  split; rewrite ?E1, ?E2, ?E3; try done.
  - intros r'. rewrite <-Hperm. apply Hfe.
  - intros q. rewrite <-Hperm. apply Ha.
  - by rewrite Hnone.
Qed.
(** Equal fences: only the step in progress has ended. *)
Lemma refence s s' : ordered_ok s → same_table s s' → fences s ≡ₚ fences s' → oc_block_update_range_end s' = None ∨
    (∃ b a, oc_block_update_range_end s' = Some b ∧ oc_blocking_block_updates s' = None ∧ oc_applying s' = Some a ∧ pending_sequence s' ≠ Some a) → ordered_ok s'.
Proof.
  intros [Hf Hr Hk Hc Hb Hfe Ha Hra] Ht Hperm Hnone. pose proof (table_counts _ _ Ht Hc). pose proof (table_bounds _ _ Ht Hb). destruct Ht as (E1 & E2 & E3 & _).
  split; rewrite ?E1, ?E2, ?E3; try done.
  - intros r'. rewrite <-Hperm. apply Hfe.
  - intros q. rewrite <-Hperm. apply Ha.
  - intros b Hb'. destruct Hnone as [Hn|(b' & a & H1 & H2 & H3)]; [congruence|]. split; [done|]. by exists a.
Qed.
Lemma table_moves s s' : same_table s s' → fences s ≡ₚ fences s' → moves None s s'.
Proof.
  intros (E1 & E2 & E3 & _) Hperm. split.
  - intros q. unfold finished_seq. by rewrite E1, E3.
  - intros q. unfold finished_seq. rewrite E1, E3. by left.
  - intros r. rewrite Hperm. by left.
  - intros r. by rewrite Hperm.
  - intros q e. rewrite E2. intros He. left. by exists e.
Qed.

Lemma dropped_bounds q e s : bounds_ok s → oc_entries s !! q = Some e → bounds_ok (dropped q e s).
Proof.
  intros [] Hq. assert (Hw : ∀ h, 0 ≤ weigh h e ≤ 1) by (intros h; unfold weigh; destruct (h _); lia).
  pose proof (Hw held_light). pose proof (Hw held_heavy). pose proof (Hw held_deferred). pose proof (Hw is_ingress). pose proof (Hw held_reserved).
  split; simpl; [lia| |lia|lia]. destruct (decide (q = oc_frontier s)) as [->|Hne].
  - rewrite lookup_delete_eq. rewrite Hq in bo_heavy0. lia.
  - rewrite lookup_delete_ne by done. lia.
Qed.
Record cleared (l : list Z) s s' : Prop := {
  cl_same : oc_frontier s' = oc_frontier s ∧ oc_finished s' = oc_finished s ∧ oc_pending_sub_chunks s' = oc_pending_sub_chunks s ∧
    oc_blocking_block_updates s' = oc_blocking_block_updates s ∧ oc_block_update_range_end s' = oc_block_update_range_end s ∧ oc_applying s' = oc_applying s;
  cl_counts : counts_ok s';
  cl_bounds : bounds_ok s';
  cl_entries q : oc_entries s' !! q = if decide (q ∈ l) then None else oc_entries s !! q;
}.
Lemma ewp_release_each announce l released s E : counts_ok s → bounds_ok s →
  ewp (release_each announce l released) s (λ r s', cleared l s s' ∧ (r = true ↔ released = true ∨ ∃ q, q ∈ l ∧ is_Some (oc_entries s !! q))) E.
Proof.
  revert released s. induction l as [|q l IH]; intros released s Hc Hb; simpl.
  { steps. split; [by split|]. split; [by left|]. intros [?|(q & Hq & _)]; [done|by apply elem_of_nil in Hq]. }
  steps. destruct (oc_entries s !! q) as [e|] eqn:Hq.
  - apply ewp_bind, ewp_remove_entry; [done|done|]. steps. set (s1 := report_finished announce q (dropped q e s)).
    assert (Hs1 : same_table (dropped q e s) s1 ∧ oc_pending_sub_chunks s1 = oc_pending_sub_chunks s ∧ oc_blocking_block_updates s1 = oc_blocking_block_updates s ∧
      oc_block_update_range_end s1 = oc_block_update_range_end s ∧ oc_applying s1 = oc_applying s).
    { unfold s1, report_finished. by repeat case_match. }
    clearbody s1. destruct Hs1 as (Ht & Hrest). eapply ewp_mono; [apply IH| |done].
    + eapply table_counts; [done|by apply dropped_counts].
    + eapply table_bounds; [done|by apply dropped_bounds].
    + destruct Ht as (E1 & E2 & E3 & _). destruct Hrest as (P1 & P2 & P3 & P4). intros r s' [[(S1 & S2 & S3 & S4 & S5 & S6) C B En] Hr]. split.
      * split; [|done|done|].
        { rewrite S1, S2, S3, S4, S5, S6, P1, P2, P3, P4, E1, E3. done. }
        intros x. rewrite En, E2. simpl. destruct (decide (x = q)) as [->|Hne].
        { rewrite lookup_delete_eq. destruct (decide (q ∈ l)), (decide (q ∈ q :: l)); set_solver. }
        rewrite lookup_delete_ne by done. destruct (decide (x ∈ l)), (decide (x ∈ q :: l)); set_solver.
      * rewrite Hr. split; [|by left]. intros _. right. exists q. split; [set_solver|]. by exists e.
  - eapply ewp_mono; [by apply IH| |done]. intros r s' [[S C B En] Hr]. split.
    + split; [done|done|done|]. intros x. rewrite En. destruct (decide (x = q)) as [->|Hne].
      * rewrite Hq. by repeat case_decide.
      * destruct (decide (x ∈ l)), (decide (x ∈ q :: l)); set_solver.
    + rewrite Hr. split; (intros [?|(x & Hx & Hs)]; [by left|right]); [exists x; set_solver|]. apply elem_of_cons in Hx as [->|Hx]; [|by exists x].
      rewrite Hq in Hs. by destruct Hs.
Qed.

Lemma cover_cons q r l : cover q (r :: l) = if decide (within q r) then S (cover q l) else cover q l.
Proof. unfold cover. rewrite filter_cons. by case_decide. Qed.
Lemma cover_zero q l : cover q l = 0%nat ↔ ∀ r, r ∈ l → ¬ within q r.
Proof.
  unfold cover. rewrite length_zero_iff_nil. split.
  - intros Hnil r Hr Hw. assert (r ∈ filter (within q) l) as H by (by apply list_elem_of_filter). rewrite Hnil in H. by apply elem_of_nil in H.
  - intros Hout. apply elem_of_nil_inv. intros r [Hw Hr]%list_elem_of_filter. by apply (Hout r).
Qed.
Lemma unfenced_inside a b s q : unfenced (a, b) s → a ≤ q ≤ b → active_at (oc_entries s) q = true ∧ cover q (fences s) = 0%nat.
Proof.
  intros Hu Hq. pose proof (uf_active _ _ Hu q) as Ha. rewrite cover_cons in Ha. destruct (decide (within q (a, b))) as [_|Hn]; [|by destruct Hn].
  destruct (active_at _ q); [|done]. split; [done|lia].
Qed.
Lemma active_entry m q : active_at m q = true → ∃ e, m !! q = Some e ∧ is_active (en_slot e) = true.
Proof. unfold active_at. destruct (m !! q) as [e|]; [|done]. intros H. by exists e. Qed.

Lemma ewp_release_range a b announce s (Q : unit → State → Prop) E : unfenced (a, b) s →
  (∀ s', ordered_ok s' → fences s' = fences s → (∀ q, finished_seq s' q ↔ finished_seq s q ∨ a ≤ q ≤ b) →
    (∀ q e, oc_entries s' !! q = Some e → oc_entries s !! q = Some e) → Q tt s') →
  ewp (release_range a b announce) s Q E.
Proof.
  intros Hu HQ. assert (Hab : a ≤ b) by (apply (uf_fences _ _ Hu (a, b)); by left).
  assert (Hin : ∀ q, a ≤ q ≤ b → oc_frontier s ≤ q < USIZE_MAX ∧ ¬ in_run (oc_finished s) q ∧ is_Some (oc_entries s !! q) ∧ cover q (fences s) = 0%nat).
  { intros q Hq. destruct (unfenced_inside _ _ _ _ Hu Hq) as [(e & He & _)%active_entry Hc]. destruct (uf_keys _ _ Hu q e He). by rewrite He. }
  unfold release_range. apply ewp_bind. eapply ewp_mono; [apply ewp_release_each; [apply Hu|apply Hu]| |done].
  intros r s1 [[(S1 & S2 & S3 & S4 & S5 & S6) C B En] Hr]. assert (r = true) as -> by (apply Hr; right; exists a; rewrite elem_of_seqZ; split; [lia|apply Hin; lia]).
  assert (Hent : ∀ q, oc_entries s1 !! q = if decide (a ≤ q ≤ b) then None else oc_entries s !! q).
  { intros q. rewrite En. destruct (decide (q ∈ seqZ a (b - a + 1))) as [Hq|Hq], (decide (a ≤ q ≤ b)); rewrite elem_of_seqZ in Hq; try done; lia. }
  destruct (join_runs_spec s1 a b) as (F & m & Heq & HF & Hruns & Hfin); [rewrite S1, S2; apply Hu|rewrite S1; apply Hin; lia|done|apply Hin; lia|rewrite S2; intros; by apply Hin|].
  steps. rewrite Heq. unfold finished_seq in Hfin. rewrite S1, S2 in *.
  assert (Hfe : fences (with_sequences F m s1) = fences s) by (unfold fences, pending_sequence; simpl; by rewrite S3, S4, S5, S6).
  apply HQ; [|done|done|].
  - pose proof Hu as [Uf Ur Uk Uc Ub Ufe Ua Ura]. split; rewrite ?Hfe; simpl; [lia|done| |destruct C; by split| |intros; apply Ufe; by right| |].
    + intros q e. rewrite Hent. case_decide as Hq; [done|]. intros He. destruct (Uk q e He) as [Hk1 Hk2].
      assert (¬ (q < F ∨ in_run m q)) as Hn by (rewrite Hfin; intros [[?|?]|?]; [lia|done|done]). split; [|tauto]. split; [|lia]. apply Z.nlt_ge. tauto.
    + destruct B as [Bl Bh Bd Bi]. split; simpl; [done| |done|done]. rewrite S1 in Bh. destruct (decide (F = oc_frontier s)) as [->|Hne]; [done|].
      etrans; [exact Bh|]. assert (oc_entries s1 !! oc_frontier s = None) as ->; [|destruct (_ !! F); [unfold weigh; destruct (held_heavy _)|]; lia].
      rewrite Hent. case_decide as Hq; [done|]. destruct (oc_entries s !! oc_frontier s) as [e|] eqn:He; [|done]. destruct (Uk _ e He) as [_ Hk2].
      destruct (proj1 (Hfin (oc_frontier s))) as [[?|?]|?]; [left; lia|lia|done|lia].
    + intros q. unfold active_at. rewrite Hent. case_decide as Hq; [by apply Hin|]. pose proof (Ua q) as H. rewrite cover_cons in H.
      destruct (decide (within q (a, b))) as [Hw|_]; [by destruct (Hq Hw)|done].
    + intros x. unfold pending_sequence. simpl. rewrite S3, S4, S5, S6. apply Ura.
  - intros q e. simpl. rewrite Hent. by case_decide.
Qed.

(** A started range that ends: the fence goes, and everything it covers is finished. *)
Lemma released_moves a b s s1 s' : same_table s s1 → fences s ≡ₚ (a, b) :: fences s1 → fences s' = fences s1 →
  (∀ q, finished_seq s' q ↔ finished_seq s1 q ∨ a ≤ q ≤ b) → (∀ q e, oc_entries s' !! q = Some e → oc_entries s1 !! q = Some e) → moves None s s'.
Proof.
  intros (E1 & E2 & E3 & _) Hperm Hfe Hfin Hent. assert (Hf1 : ∀ q, finished_seq s1 q ↔ finished_seq s q) by (intros q; unfold finished_seq; by rewrite E1, E3). split.
  - intros q Hq. apply Hfin. left. by apply Hf1.
  - intros q [Hq|Hq]%Hfin; [left; by apply Hf1|right]. exists (a, b). rewrite Hperm. split; [by left|]. split; [done|]. intros x Hx. apply Hfin. by right.
  - intros r. rewrite Hperm, Hfe. intros [->|Hr]%elem_of_cons; [|by left]. right. intros x Hx. apply Hfin. by right.
  - intros r. rewrite Hperm, Hfe. by right.
  - intros q e He%Hent. rewrite E2 in He. left. by exists e.
Qed.

(** The end of a fenced range, by a finished step or a decoded batch. *)
Lemma ewp_end_range a b announce s s1 (Q : unit → State → Prop) E : ordered_ok s → same_table s s1 → fences s ≡ₚ (a, b) :: fences s1 → oc_block_update_range_end s1 = None →
  (∀ s', fine None s s' → (∀ q, finished_seq s' q ↔ finished_seq s q ∨ a ≤ q ≤ b) → Q tt s') → ewp (release_range a b announce) s1 Q E.
Proof.
  intros Hok Ht Hperm Hnone HQ. apply ewp_release_range; [by apply (unfence _ s)|]. intros s' Hok' Hfe Hfin Hent. apply HQ.
  - split; [done|]. by apply (released_moves a b s s1).
  - intros q. rewrite Hfin. destruct Ht as (E1 & _ & E3 & _). unfold finished_seq. by rewrite E1, E3.
Qed.
Definition step_end s q : Z := default q (oc_block_update_range_end s).
Lemma ewp_finish_commit q s (E : WorldStreamError → State → Prop) : ordered_ok s →
  ewp (finish_commit q) s (λ r s', fine None s s' ∧ (r = true → (q, step_end s q) ∈ fences s ∧ ∀ x, finished_seq s' x ↔ finished_seq s x ∨ q ≤ x ≤ step_end s q)) E.
Proof.
  intros Hok. unfold finish_commit. steps. case_bool_decide as Ha; [|by steps; split; [split; [done|apply moves_refl]|]]. cbn [negb]. steps.
  assert (Hmine : ∀ s1, same_table s s1 → fences s ≡ₚ (q, step_end s q) :: fences s1 → oc_block_update_range_end s1 = None →
    ewp (release_range q (step_end s q) true) s1
      (λ _ s', fine None s s' ∧ (true = true → (q, step_end s q) ∈ fences s ∧ ∀ x, finished_seq s' x ↔ finished_seq s x ∨ q ≤ x ≤ step_end s q)) E).
  { intros s1 Ht Hperm Hnone. apply (ewp_end_range _ _ _ s); [done..|]. intros s' Hf Hfin. split; [done|]. intros _. split; [rewrite Hperm; by left|done]. }
  fold (step_end s q). pose proof (oo_range _ Hok) as Hra. destruct (oc_pending_sub_chunks s) as [p|] eqn:Hp.
  - destruct (Z.eqb_spec (ps_sequence p) q) as [Hpq|Hpq].
    + assert (Hnone : oc_block_update_range_end s = None).
      { destruct (oc_block_update_range_end s) as [b|]; [|done]. destruct (Hra b) as (_ & a & Ha' & Hne); [done|]. destruct Hne. unfold pending_sequence. rewrite Hp. simpl. congruence. }
      destruct (ps_entries p).
      * steps. apply Hmine; [done| |done]. unfold fences, pending_sequence, step_end. simpl. rewrite Hp, Ha, Hnone. simpl. rewrite bool_decide_true by congruence. by rewrite Hpq, app_nil_r.
      * steps. assert (Hperm : fences s ≡ₚ fences (with_step (oc_blocking_block_updates s) (oc_block_update_range_end s) None s)).
        { unfold fences, pending_sequence. simpl. rewrite Hp, Ha, Hnone. simpl. by rewrite bool_decide_true by congruence. }
        split; [|done]. split; [by apply (refence s); [| |done|left]|by apply table_moves].
    + steps. apply Hmine; [done| |done]. unfold fences, pending_sequence, step_end. simpl. rewrite Hp, Ha. simpl. rewrite bool_decide_false by congruence.
      destruct (oc_blocking_block_updates s); [apply (Permutation_app_comm [_; _] [_])|apply (Permutation_app_comm [_] [_])].
  - steps. apply Hmine; [done| |done]. unfold fences, pending_sequence, step_end. simpl. rewrite Hp, Ha. simpl.
    destruct (oc_blocking_block_updates s); [apply (Permutation_app_comm [_] [_])|done].
Qed.
Lemma ewp_defer q b s (E : WorldStreamError → State → Prop) : ordered_ok s → oc_applying s = Some q → oc_block_update_range_end s = Some b →
  ewp (defer_block_updates q) s (λ _ s', fine None s s') E.
Proof.
  intros Hok Ha Hb. unfold defer_block_updates. steps. apply ewp_assert; [by apply bool_decide_eq_true|]. steps. rewrite Hb.
  destruct (oo_range _ Hok b Hb) as (Hnone & a & Ha' & Hp). replace a with q in Hp by congruence.
  assert (Hperm : fences s ≡ₚ fences (with_step (Some (q, b)) None None s)).
  { unfold fences, pending_sequence in *. simpl. rewrite Ha, Hb, Hnone, bool_decide_false by done. done. }
  split; [by apply (refence s); [| |done|left]|by apply table_moves].
Qed.
Lemma ewp_complete_decode q ev s : ordered_ok s →
  ewp (complete_decode q ev) s (λ r s', fine None s s' ∧ match r with
    | DecodedBlockUpdates _ => ∃ b, oc_blocking_block_updates s = Some (q, b) ∧ ∀ x, finished_seq s' x ↔ finished_seq s x ∨ q ≤ x ≤ b
    | Queued => True
    end) (λ _ s', s' = s).
Proof.
  intros Hok. unfold complete_decode. steps.
  assert (Hins : ewp (_ ← insert_ready q ev; mret (Queued (Content := Content))) s (λ r s', fine None s s' ∧ match r with
    | DecodedBlockUpdates _ => ∃ b, oc_blocking_block_updates s = Some (q, b) ∧ ∀ x, finished_seq s' x ↔ finished_seq s x ∨ q ≤ x ≤ b
    | Queued => True end) (λ _ s', s' = s)).
  { apply ewp_bind. eapply ewp_mono; [by apply ewp_insert_ready| |done]. intros [] s' Hs'. by steps. }
  destruct (oc_blocking_block_updates s) as [[a b]|] eqn:Hb; [|done]. destruct ((a =? q) && is_prepared_updates ev) eqn:Hq; [|done].
  apply andb_true_iff in Hq as [->%Z.eqb_eq _]. steps.
  assert (Hnone : oc_block_update_range_end s = None). { destruct (oc_block_update_range_end s) as [c|] eqn:Hc; [|done]. destruct (oo_range _ Hok c Hc). congruence. }
  apply (ewp_end_range _ _ _ s); [done|done| |done|].
  - unfold fences, pending_sequence. simpl. rewrite Hb. simpl. by rewrite <-Permutation_middle.
  - intros s' Hf Hfin. steps. split; [done|]. by exists b.
Qed.
Lemma ewp_observe s (E : WorldStreamError → State → Prop) : ordered_ok s → ewp observe_completions s (λ _ s', fine None s s') E.
Proof.
  intros Hok. unfold observe_completions. steps. assert (same_core s (with_reports true (oc_reported s) (oc_unannounced s) s)) by done.
  split; [by eapply same_core_ok|by apply same_core_moves].
Qed.
Lemma ewp_announce s (E : WorldStreamError → State → Prop) : ordered_ok s → ewp announce_applied s (λ _ s', fine None s s') E.
Proof.
  intros Hok. unfold announce_applied. steps. set (s' := if oc_observed s then _ else _). assert (same_core s s') by (unfold s'; by case_match).
  split; [by eapply same_core_ok|by apply same_core_moves].
Qed.
End ordered.
