(* ===== verification/OrderedChoice.v ===== *)
(** * Ordered commits: the choice of the next event

    A scan returns the least ready event that no earlier unfinished event conflicts with; a block burst takes only
    updates that conflict with nothing before it. *)
From stdpp Require Import base numbers list gmap sets sorting.
From S2P Require Import Prelude Keys Effects Counting Lanes Ordered OrderedSpec.
#[local] Open Scope Z_scope.

Lemma filter_all {A} (P : A → Prop) `{∀ x, Decision (P x)} (l : list A) : (∀ x, x ∈ l → P x) → filter P l = l.
Proof.
  induction l as [|x l IH]; intros Hl; [done|]. rewrite filter_cons_True by (apply Hl; by left). f_equal. apply IH. intros y Hy. apply Hl. by right.
Qed.

Section ordered.
Context {Content : Type}.
#[local] Notation State := (@OrderedCommitState Content).
#[local] Notation Entry := (@Entry Content).
#[local] Notation Event := (@PreparedWorldEvent Content).
Implicit Types (s : State) (q a b x y : Z) (e : Entry) (ev : Event) (f : Footprint).

(** ** What may commit *)

(** Every earlier unfinished sequence is admitted and does not conflict. *)
Definition unblocked s (couple : bool) q f : Prop :=
  ∀ y, y < q → ¬ finished_seq s y → ∃ e, oc_entries s !! y = Some e ∧ conflicts couple (en_footprint e) f = false.
Definition allowed_by (budget : CommitBudget) f : bool :=
  (cb_heavy budget || negb (fp_heavy f || fp_barrier f)) && (cb_chunk_data budget || negb (is_heavy_chunk_data f)).
Definition committable s (budget : CommitBudget) q : Prop := ∃ e ev,
  oc_entries s !! q = Some e ∧ en_slot e = Ready ev ∧ allowed_by budget (en_footprint e) = true ∧ kind_is_free s ev = true ∧
  unblocked s (cb_couple_position budget) q (en_footprint e).

Lemma entries_all s : ordered_ok s → entries_from_frontier s = ordered (oc_entries s).
Proof.
  intros Hok. unfold entries_from_frontier. apply filter_all. intros [q e] Hq%elem_of_ordered. destruct (oo_keys _ Hok q e Hq). simpl. lia.
Qed.

(** From [x], everything up to the answer is finished, and the entry is next or there is a gap. *)
Lemma through_before_spec s x q e : ordered_ok s → oc_frontier s ≤ x ≤ q → oc_entries s !! q = Some e → let t := finished_through_before s x q in
  x - 1 ≤ t < q ∧ (∀ y, x ≤ y ≤ t → finished_seq s y) ∧ (t + 1 = q ∨ ¬ finished_seq s (t + 1)).
Proof.
  intros Hok Hx Hq. pose proof (oo_frontier _ Hok). destruct (oo_keys _ Hok q e Hq) as [Hk Hout]. cbv zeta. unfold finished_through_before.
  destruct (Z.eqb_spec x q) as [->|Hne]; [unfold sat_sub; split; [lia|]; split; [lia|left; lia]|].
  destruct (finished_through_spec s x (oo_runs _ Hok)) as (Hge & Hin & Hopen & _); [lia|]. set (t := finished_through s x) in *.
  assert (t < q) by (apply Z.nle_gt; intros ?; apply Hout, Hin; lia). split; [lia|]. split; [intros y Hy; right; by apply Hin|].
  right. intros [?|?]; [lia|done].
Qed.
(** A gap is noticed exactly when there is one. *)
Lemma reach_spec s expected q e earlier : ordered_ok s → oc_frontier s ≤ expected ≤ q → oc_entries s !! q = Some e →
  (reach s expected q earlier = earlier ∧ ∀ x, expected ≤ x < q → finished_seq s x) ∨
  (reach s expected q earlier = add_unknown earlier ∧ ∃ x, expected ≤ x < q ∧ ¬ finished_seq s x).
Proof.
  intros Hok Hx Hq. destruct (oo_keys _ Hok q e Hq) as [Hk _]. destruct (through_before_spec s expected q e Hok Hx Hq) as (Ht & Hin & Hopen). unfold reach.
  set (t := finished_through_before s expected q) in *. clearbody t. replace (sat_add t 1) with (t + 1) by (unfold sat_add; lia). destruct (Z.eqb_spec q (t + 1)) as [->|Hgap].
  - left. split; [done|]. intros x Hx'. apply Hin. lia.
  - right. split; [done|]. exists (t + 1). split; [lia|]. destruct Hopen; [lia|done].
Qed.

(** What a scan knows when it has passed [before] and summarised those of [kept]. *)
Record knows couple s expected (earlier : EarlierEvents) (before rest kept : list (Z * Entry)) : Prop := {
  kn_split : ordered (oc_entries s) = before ++ rest;
  kn_summary : summarises couple earlier ((λ x : Z * Entry, en_footprint x.2) <$> kept);
  kn_kept entry : entry ∈ kept → entry ∈ before;
  kn_covered x : x < expected → finished_seq s x ∨ ∃ e, (x, e) ∈ before;
  kn_expected : oc_frontier s ≤ expected;
  kn_below x e : (x, e) ∈ before → x < expected;
  kn_rest x e : (x, e) ∈ rest → expected ≤ x;
}.
Lemma knows_start couple s : ordered_ok s → knows couple s (oc_frontier s) earlier_default [] (ordered (oc_entries s)) [].
Proof.
  intros Hok. split; [done|apply summarises_nil|done|intros x Hx; left; by left|done|intros x e Hx; by apply elem_of_nil in Hx|]. intros x e Hx%elem_of_ordered. destruct (oo_keys _ Hok x e Hx). lia.
Qed.
Lemma knows_entry couple s expected earlier before rest kept x e : knows couple s expected earlier before rest kept → (x, e) ∈ before ∨ (x, e) ∈ rest ↔ oc_entries s !! x = Some e.
Proof. intros Hk. by rewrite <-elem_of_app, <-(kn_split _ _ _ _ _ _ _ Hk), elem_of_ordered. Qed.
Lemma knows_order couple s expected earlier before q e rest kept : knows couple s expected earlier before ((q, e) :: rest) kept →
  (∀ x e', (x, e') ∈ before → x < q) ∧ ∀ x e', (x, e') ∈ rest → q < x.
Proof.
  intros Hk. pose proof (ordered_strict (oc_entries s)) as Hs. rewrite (kn_split _ _ _ _ _ _ _ Hk) in Hs. split.
  - intros x e' Hx. apply (StronglySorted_app_1_elem_of _ _ _ (x, e') (q, e) Hs); [done|by left].
  - intros x e' Hx. apply StronglySorted_app_1_r, StronglySorted_inv in Hs as [_ Hs]. rewrite Forall_forall in Hs. by apply (Hs (x, e')).
Qed.

(** The unfinished earlier events are those passed, unless there is a gap or a barrier. *)
Lemma knows_reach couple s expected earlier before q e rest kept : ordered_ok s → knows couple s expected earlier before ((q, e) :: rest) kept →
  if is_barrier (reach s expected q earlier)
  then ∃ y, y < q ∧ ¬ finished_seq s y ∧ (oc_entries s !! y = None ∨ ∃ ey, (y, ey) ∈ kept ∧ fp_barrier (en_footprint ey) = true)
  else reach s expected q earlier = earlier ∧ ∀ x, x < q → finished_seq s x ∨ ∃ e', (x, e') ∈ before.
Proof.
  intros Hok Hk. pose proof (knows_order _ _ _ _ _ _ _ _ _ Hk) as [Hlo Hhi].
  assert (Hq : oc_entries s !! q = Some e) by (apply (knows_entry _ _ _ _ _ _ _ _ _ Hk); right; by left).
  assert (expected ≤ q) by (apply (kn_rest _ _ _ _ _ _ _ Hk q e); by left). pose proof (kn_expected _ _ _ _ _ _ _ Hk).
  destruct (reach_spec s expected q e earlier Hok) as [[-> Hall]|(-> & y & Hy & Hgap)]; [lia|done| |].
  - unfold is_barrier. rewrite (su_barrier _ _ _ (kn_summary _ _ _ _ _ _ _ Hk)). destruct (existsb fp_barrier _) eqn:Hb.
    + apply existsb_exists in Hb as (f & Hf & Hbar). rewrite <-list_elem_of_In in Hf. apply list_elem_of_fmap in Hf as ([y ey] & -> & Hy).
      pose proof (kn_kept _ _ _ _ _ _ _ Hk _ Hy) as Hyb. assert (Hye : oc_entries s !! y = Some ey) by (apply (knows_entry _ _ _ _ _ _ _ _ _ Hk); by left).
      exists y. split; [by apply (Hlo y ey)|]. split; [by eapply key_unfinished|]. right. by exists ey.
    + split; [done|]. intros x Hx. destruct (decide (x < expected)); [by apply (kn_covered _ _ _ _ _ _ _ Hk)|left; apply Hall; lia].
  - exists y. split; [lia|]. split; [done|]. left. destruct (oc_entries s !! y) as [ey|] eqn:Hye; [|done]. apply (knows_entry _ _ _ _ _ _ _ _ _ Hk) in Hye as [Hy2|Hy2].
    + apply (kn_below _ _ _ _ _ _ _ Hk) in Hy2. lia.
    + apply elem_of_cons in Hy2 as [[= -> ->]|Hy2]; [lia|]. apply Hhi in Hy2. lia.
Qed.
(** Past a gap or a barrier everything is blocked. *)
Lemma barrier_blocks couple s expected earlier before q e rest kept y x f : knows couple s expected earlier before ((q, e) :: rest) kept →
  y < x → ¬ finished_seq s y → oc_entries s !! y = None ∨ (∃ ey, (y, ey) ∈ kept ∧ fp_barrier (en_footprint ey) = true) → ¬ unblocked s couple x f.
Proof.
  intros Hk Hlt Hun Hy Hall. destruct (Hall y Hlt Hun) as (e2 & He2 & Hc). destruct Hy as [Hy|(ey & Hy & Hb)]; [congruence|].
  assert (Hye : oc_entries s !! y = Some ey) by (apply (knows_entry _ _ _ _ _ _ _ _ _ Hk); left; by apply (kn_kept _ _ _ _ _ _ _ Hk)).
  replace e2 with ey in Hc by congruence. unfold conflicts in Hc. by rewrite Hb in Hc.
Qed.

Lemma knows_skip couple s expected earlier before q e rest kept : ordered_ok s → knows couple s expected earlier before ((q, e) :: rest) kept →
  (∀ x, x < q → finished_seq s x ∨ ∃ e', (x, e') ∈ before) → knows couple s (sat_add q 1) earlier (before ++ [(q, e)]) rest kept.
Proof.
  intros Hok Hk Hcov. pose proof (knows_order _ _ _ _ _ _ _ _ _ Hk) as [Hlo Hhi].
  assert (Hq : oc_entries s !! q = Some e) by (apply (knows_entry _ _ _ _ _ _ _ _ _ Hk); right; by left). destruct (oo_keys _ Hok q e Hq) as [? _].
  replace (sat_add q 1) with (q + 1) by (unfold sat_add; lia). split.
  - rewrite (kn_split _ _ _ _ _ _ _ Hk). by rewrite <-app_assoc.
  - apply Hk.
  - intros x Hx. apply elem_of_app. left. by apply (kn_kept _ _ _ _ _ _ _ Hk).
  - intros x Hx. destruct (decide (x = q)) as [->|Hne]; [right; exists e; set_solver|]. destruct (Hcov x) as [?|(e' & He')]; [lia|by left|right; exists e'; set_solver].
  - lia.
  - intros x e' [Hx| [= -> ->]%list_elem_of_singleton]%elem_of_app; [specialize (Hlo _ _ Hx)|]; lia.
  - intros x e' Hx. specialize (Hhi _ _ Hx). lia.
Qed.
Lemma knows_next couple s expected earlier before q e rest kept : ordered_ok s → knows couple s expected earlier before ((q, e) :: rest) kept →
  (∀ x, x < q → finished_seq s x ∨ ∃ e', (x, e') ∈ before) →
  knows couple s (sat_add q 1) (earlier_add couple earlier (en_footprint e)) (before ++ [(q, e)]) rest (kept ++ [(q, e)]).
Proof.
  intros Hok Hk Hcov. destruct (knows_skip _ _ _ _ _ _ _ _ _ Hok Hk Hcov) as [Hsplit Hsum Hkept ? ? ? ?]. split; try done.
  - rewrite fmap_app. by apply summarises_add.
  - intros x [Hx|Hx]%elem_of_app; [by apply Hkept|apply elem_of_app; by right].
Qed.

(** The summary decides whether the event it was made for is blocked. *)
Lemma summary_blocks couple earlier (kept : list (Z * Entry)) f : summarises couple earlier ((λ x : Z * Entry, en_footprint x.2) <$> kept) →
  blocks couple earlier f = false ↔ ∀ y ey, (y, ey) ∈ kept → conflicts couple (en_footprint ey) f = false.
Proof.
  intros Hsum. rewrite (blocks_summary _ _ _ _ Hsum), <-not_true_iff_false, existsb_exists. split.
  - intros Hno y ey Hy. apply not_true_iff_false. intros Hc. apply Hno. exists (en_footprint ey). split; [|done]. apply list_elem_of_In, list_elem_of_fmap. by exists (y, ey).
  - intros Hall (g & Hg & Hc). apply list_elem_of_In, list_elem_of_fmap in Hg as ([y ey] & -> & Hy). specialize (Hall y ey Hy). simpl in Hc. congruence.
Qed.
Lemma knows_blocks couple s expected earlier before q e rest f : ordered_ok s → knows couple s expected earlier before ((q, e) :: rest) before →
  (∀ x, x < q → finished_seq s x ∨ ∃ e', (x, e') ∈ before) → blocks couple earlier f = false ↔ unblocked s couple q f.
Proof.
  intros Hok Hk Hcov. pose proof (knows_order _ _ _ _ _ _ _ _ _ Hk) as [Hlo Hhi]. rewrite (summary_blocks _ _ _ _ (kn_summary _ _ _ _ _ _ _ Hk)). split.
  - intros Hno y Hy Hun. destruct (Hcov y Hy) as [?|(e' & He')]; [done|]. exists e'. split; [apply (knows_entry _ _ _ _ _ _ _ _ _ Hk); by left|by apply (Hno y)].
  - intros Hun y ey Hy. assert (Hye : oc_entries s !! y = Some ey) by (apply (knows_entry _ _ _ _ _ _ _ _ _ Hk); by left).
    destruct (Hun y) as (e2 & He2 & Hc2); [by apply (Hlo y ey)|by eapply key_unfinished|]. by replace ey with e2 by congruence.
Qed.
Lemma may_commit_iff s budget expected earlier before q e rest : ordered_ok s → knows (cb_couple_position budget) s expected earlier before ((q, e) :: rest) before →
  (∀ x, x < q → finished_seq s x ∨ ∃ e', (x, e') ∈ before) → may_commit s budget earlier e = true ↔ committable s budget q.
Proof.
  intros Hok Hk Hcov. assert (Hq : oc_entries s !! q = Some e) by (apply (knows_entry _ _ _ _ _ _ _ _ _ Hk); right; by left).
  pose proof (knows_blocks _ _ _ _ _ _ _ _ (en_footprint e) Hok Hk Hcov) as Hb. unfold may_commit, committable. rewrite <-not_true_iff_false in Hb. split.
  - destruct (en_slot e) as [|ev|] eqn:Hs; [done| |done]. rewrite !andb_true_iff, (negb_true_iff (blocks _ _ _)). intros [[Ha Hfree] Hbl].
    exists e, ev. split; [done|]. split; [done|]. split; [by apply andb_true_iff|]. split; [done|]. apply Hb. by rewrite Hbl.
  - intros (e2 & ev & He2 & Hs & Ha & Hfree & Hun). replace e2 with e in * by congruence. rewrite Hs. apply andb_true_iff in Ha as [-> ->]. rewrite Hfree.
    apply Hb in Hun. by destruct (blocks _ _ _).
Qed.

(** What the summary left behind is of: exactly the unfinished events before [q]. *)
Definition summary_before s couple q (earlier : EarlierEvents) : Prop := ∀ f, blocks couple earlier f = false ↔ unblocked s couple q f.
Lemma scan_entries_spec s budget before rest expected earlier : ordered_ok s → knows (cb_couple_position budget) s expected earlier before rest before →
  (∀ x, x < expected → ¬ committable s budget x) →
  match scan_entries s budget expected earlier rest with
  | (Some q, earlier') => committable s budget q ∧ (∀ x, x < q → ¬ committable s budget x) ∧ summary_before s (cb_couple_position budget) q earlier'
  | (None, _) => ∀ x, ¬ committable s budget x
  end.
Proof.
  revert before expected earlier. induction rest as [|[q e] rest IH]; intros before expected earlier Hok Hk Hno; simpl.
  { intros x Hx. pose proof Hx as (e & ev & He & _). apply (Hno x); [|done]. apply (knows_entry _ _ _ _ _ _ _ _ _ Hk) in He as [He|He].
    - by apply (kn_below _ _ _ _ _ _ _ Hk) in He.
    - by apply elem_of_nil in He. }
  assert (Hlow : ∀ x, x < q → ¬ committable s budget x).
  { intros x Hx Hc. pose proof Hc as (ex & ev & He & _). apply (knows_entry _ _ _ _ _ _ _ _ _ Hk) in He as [He|He].
    - apply (Hno x); [|done]. by apply (kn_below _ _ _ _ _ _ _ Hk) in He.
    - apply elem_of_cons in He as [[= -> ->]|He]; [lia|]. apply (knows_order _ _ _ _ _ _ _ _ _ Hk) in He. lia. }
  pose proof (knows_reach _ _ _ _ _ _ _ _ _ Hok Hk) as Hreach. destruct (is_barrier _).
  { intros x Hx. pose proof Hx as (ex & ev & He & _ & _ & _ & Hun). apply (knows_entry _ _ _ _ _ _ _ _ _ Hk) in He as [He|He].
    - apply (Hno x); [|done]. by apply (kn_below _ _ _ _ _ _ _ Hk) in He.
    - destruct Hreach as (y & Hy & Hyun & Hwhy). revert Hun. eapply barrier_blocks; [exact Hk| |exact Hyun|exact Hwhy].
      apply elem_of_cons in He as [[= -> ->]|He]; [lia|]. apply (knows_order _ _ _ _ _ _ _ _ _ Hk) in He. lia. }
  destruct Hreach as [-> Hcov]. pose proof (may_commit_iff _ _ _ _ _ _ _ _ Hok Hk Hcov) as Hmay. destruct (may_commit s budget earlier e).
  - split; [by apply Hmay|]. split; [done|]. intros f. by apply (knows_blocks _ _ expected _ before q e rest).
  - apply (IH (before ++ [(q, e)])); [done|by apply knows_next with expected|]. intros x Hx. destruct (decide (x = q)) as [->|]; [by rewrite <-Hmay|].
    apply Hlow. unfold sat_add in Hx. lia.
Qed.

(** ** Chunk data that holds ready work *)

Definition progressing s q e : bool := ready_and_free s (en_slot e) || pending_is s q || is_some (batch_waits_for s (en_slot e)).
(** Heavy chunk data that can progress, and that waits for nothing but such chunk data. *)
Definition only_behind s couple (W : Z → Prop) q f : Prop :=
  ∀ y, y < q → ¬ finished_seq s y → ∃ e, oc_entries s !! y = Some e ∧ (W y ∨ conflicts couple (en_footprint e) f = false).
Definition withheld s couple (W : Z → Prop) : Prop := ∀ x, W x → ∃ e,
  oc_entries s !! x = Some e ∧ is_heavy_chunk_data (en_footprint e) = true ∧ progressing s x e = true ∧ only_behind s couple W x (en_footprint e).
(** A ready event that waits for withheld chunk data alone. *)
Definition waits_behind s couple (W : Z → Prop) q : Prop := ∃ e,
  oc_entries s !! q = Some e ∧ ready_and_free s (en_slot e) = true ∧ is_heavy_chunk_data (en_footprint e) = false ∧ only_behind s couple W q (en_footprint e) ∧
  ∃ y ey, W y ∧ y < q ∧ oc_entries s !! y = Some ey ∧ conflicts couple (en_footprint ey) (en_footprint e) = true.
(** The first skipped event: it can progress at once, or the batch that it waits for can. *)
Definition first_ok s couple (first : option Z) : Prop :=
  ∀ v, first = Some v → ∃ x e, oc_entries s !! x = Some e ∧ is_heavy_chunk_data (en_footprint e) = true ∧ progressing s x e = true ∧
    unblocked s couple x (en_footprint e) ∧ v = default x (batch_waits_for s (en_slot e)).
Record lookahead s couple (W : Z → Prop) (before kept skipped : list (Z * Entry)) (skips : EarlierEvents) (first : option Z) : Prop := {
  la_all entry : entry ∈ before → entry ∈ kept ∨ entry ∈ skipped;
  la_summary : summarises couple skips ((λ x : Z * Entry, en_footprint x.2) <$> skipped);
  la_first : first_ok s couple first;
  la_skipped : skipped ≠ [] → first ≠ None;
  la_exact : first = None → kept = before;
  la_kept x e : (x, e) ∈ kept → ¬ W x;
}.
Lemma not_blocked couple s expected earlier before q e rest kept W f : knows couple s expected earlier before ((q, e) :: rest) kept → ordered_ok s →
  (∀ x ex, (x, ex) ∈ kept → ¬ W x) → only_behind s couple W q f → blocks couple earlier f = false.
Proof.
  intros Hk Hok HW Hbehind. apply (summary_blocks _ _ _ _ (kn_summary _ _ _ _ _ _ _ Hk)). intros y ey Hy. pose proof (kn_kept _ _ _ _ _ _ _ Hk _ Hy) as Hyb.
  assert (Hye : oc_entries s !! y = Some ey) by (apply (knows_entry _ _ _ _ _ _ _ _ _ Hk); by left).
  destruct (Hbehind y) as (e2 & He2 & [HWy|Hc]); [by apply (knows_order _ _ _ _ _ _ _ _ _ Hk) in Hyb|by eapply key_unfinished|by destruct (HW y ey Hy)|]. by replace ey with e2 by congruence.
Qed.
Lemma holding_spec s couple W before rest expected earlier kept skipped skips first : ordered_ok s → withheld s couple W →
  knows couple s expected earlier before rest kept → lookahead s couple W before kept skipped skips first →
  let r := (holding_entries s couple expected earlier skips first rest).1.1 in first_ok s couple r ∧ ∀ q e, (q, e) ∈ rest → waits_behind s couple W q → r ≠ None.
Proof.
  intros Hok HW. revert before expected earlier kept skipped skips first. induction rest as [|[q0 e0] rest IH]; intros before expected earlier kept skipped skips first Hk Hla; simpl.
  { split; [by intros v|]. intros q e Hq. by apply elem_of_nil in Hq. }
  assert (Hq0 : oc_entries s !! q0 = Some e0) by (apply (knows_entry _ _ _ _ _ _ _ _ _ Hk); right; by left).
  pose proof (knows_order _ _ _ _ _ _ _ _ _ Hk) as [Hlo Hhi]. pose proof (knows_reach _ _ _ _ _ _ _ _ _ Hok Hk) as Hreach. destruct (is_barrier _).
  { split; [by intros v|]. intros q e Hq (e' & _ & _ & _ & Hbehind & _) _. destruct Hreach as (y & Hy & Hyun & Hwhy).
    assert (y < q) by (apply elem_of_cons in Hq as [[= -> ->]|Hq]; [lia|apply Hhi in Hq; lia]). destruct (Hbehind y) as (e2 & He2 & HWc); [lia|done|].
    destruct Hwhy as [Hnone|(ey & Hey & Hb)]; [congruence|]. pose proof (kn_kept _ _ _ _ _ _ _ Hk _ Hey) as Hyb.
    assert (Hye : oc_entries s !! y = Some ey) by (apply (knows_entry _ _ _ _ _ _ _ _ _ Hk); by left). replace e2 with ey in HWc by congruence.
    destruct HWc as [HWy|Hc]; [by apply (la_kept _ _ _ _ _ _ _ _ Hla y ey)|]. unfold conflicts in Hc. by rewrite Hb in Hc. }
  destruct Hreach as [-> Hcov]. destruct (negb (blocks couple earlier (en_footprint e0)) && is_heavy_chunk_data (en_footprint e0) &&
    (ready_and_free s (en_slot e0) || pending_is s q0 || is_some (batch_waits_for s (en_slot e0)))) eqn:Hskip.
  - (* skipped *) apply andb_true_iff in Hskip as [[Hbl%negb_true_iff Hcd]%andb_true_iff Hpr].
    destruct (IH (before ++ [(q0, e0)]) (sat_add q0 1) earlier kept (skipped ++ [(q0, e0)]) (earlier_add couple skips (en_footprint e0))
      (match first with Some first => Some first | None => Some (default q0 (batch_waits_for s (en_slot e0))) end)) as [Hf Hsome]; [by apply knows_skip with expected| |].
    { destruct Hla as [La Ls Lf Lsk Le Lk]. split; [| | |by destruct first|by destruct first|done].
      - intros x [Hx|Hx]%elem_of_app; [destruct (La x Hx); [by left|right; apply elem_of_app; by left]|right; apply elem_of_app; by right].
      - rewrite fmap_app. by apply summarises_add.
      - destruct first as [v|]; [done|]. intros v [= <-]. exists q0, e0. do 3 (split; [done|]). split; [|done]. rewrite (Le eq_refl) in Hk. by apply (knows_blocks _ _ _ _ _ _ _ _ _ Hok Hk Hcov). }
    split; [done|]. intros q e [[= -> ->]|Hq]%elem_of_cons Hw; [|by apply (Hsome q e)]. destruct Hw as (e' & He' & _ & Hno & _). congruence.
  - destruct (negb (blocks couple earlier (en_footprint e0)) && ready_and_free s (en_slot e0) && blocks couple skips (en_footprint e0)) eqn:Hret; simpl.
    + (* found *) split; [apply Hla|]. intros _ _ _ _. apply (la_skipped _ _ _ _ _ _ _ _ Hla). apply andb_true_iff in Hret as [_ Hret]. intros Hnil.
      pose proof (la_summary _ _ _ _ _ _ _ _ Hla) as Hs. rewrite Hnil in Hs. rewrite (blocks_summary _ _ _ _ Hs) in Hret. done.
    + assert (HW0 : ¬ W q0).
      { intros Hw. destruct (HW q0 Hw) as (e & He & Hcd & Hpr & Hbehind). replace e with e0 in * by congruence.
        rewrite (not_blocked _ _ _ _ _ _ _ _ _ W (en_footprint e0) Hk Hok (la_kept _ _ _ _ _ _ _ _ Hla) Hbehind), Hcd in Hskip. unfold progressing in Hpr. by rewrite Hpr in Hskip. }
      destruct (IH (before ++ [(q0, e0)]) (sat_add q0 1) (earlier_add couple earlier (en_footprint e0)) (kept ++ [(q0, e0)]) skipped skips first) as [Hf Hsome]; [by apply knows_next with expected| |].
      { destruct Hla as [La Ls Lf Lsk Le Lk]. split; [|done|done|done| |].
        - intros x [Hx|Hx]%elem_of_app; [destruct (La x Hx); [left; apply elem_of_app; by left|by right]|left; apply elem_of_app; by right].
        - intros Hn. by rewrite (Le Hn).
        - intros x e [Hx|[= -> ->]%list_elem_of_singleton]%elem_of_app; [by apply (Lk x e)|done]. }
      split; [done|]. intros q e [[= -> ->]|Hq]%elem_of_cons Hw; [|by apply (Hsome q e)]. exfalso. destruct Hw as (e' & He' & Hfree & Hno & Hbehind & y & ey & HWy & Hy & Hye & Hc).
      replace e' with e0 in * by congruence.
      rewrite (not_blocked _ _ _ _ _ _ _ _ _ W (en_footprint e0) Hk Hok (la_kept _ _ _ _ _ _ _ _ Hla) Hbehind), Hfree in Hret. simpl in Hret.
      assert (Hsk : (y, ey) ∈ skipped).
      { destruct (Hcov y Hy) as [Hf2|(ey' & Hb)]; [by apply (key_unfinished s y ey) in Hye|].
        assert (Hye' : oc_entries s !! y = Some ey') by (apply (knows_entry _ _ _ _ _ _ _ _ _ Hk); by left). replace ey' with ey in Hb by congruence.
        destruct (la_all _ _ _ _ _ _ _ _ Hla _ Hb) as [Hx|]; [by apply (la_kept _ _ _ _ _ _ _ _ Hla) in Hx|done]. }
      pose proof (proj1 (summary_blocks _ _ _ _ (la_summary _ _ _ _ _ _ _ _ Hla)) Hret y ey Hsk). congruence.
Qed.

(** Conversely, the look ahead answers only where a ready event waits for withheld chunk data alone. *)
Definition work_held s couple : Prop := ∃ W q, withheld s couple W ∧ waits_behind s couple W q.
Definition among (l : list (Z * Entry)) q : Prop := ∃ e, (q, e) ∈ l.
Lemma only_behind_mono s couple (W W' : Z → Prop) q f : (∀ y, W y → W' y) → only_behind s couple W q f → only_behind s couple W' q f.
Proof. intros Hsub H y Hy Hun. destruct (H y Hy Hun) as (e & He & [?|?]); exists e; auto. Qed.
Lemma skipped_behind couple s expected earlier before q e rest kept skipped : ordered_ok s → knows couple s expected earlier before ((q, e) :: rest) kept →
  (∀ entry, entry ∈ before → entry ∈ kept ∨ entry ∈ skipped) → (∀ x, x < q → finished_seq s x ∨ ∃ e', (x, e') ∈ before) → blocks couple earlier (en_footprint e) = false →
  only_behind s couple (among skipped) q (en_footprint e).
Proof.
  intros Hok Hk Hall Hcov Hbl y Hy Hun. destruct (Hcov y Hy) as [?|(ey & Hb)]; [done|]. exists ey. split; [apply (knows_entry _ _ _ _ _ _ _ _ _ Hk); by left|].
  destruct (Hall _ Hb) as [Hkept|Hskip]; [right|left; by exists ey]. by apply (proj1 (summary_blocks _ _ _ _ (kn_summary _ _ _ _ _ _ _ Hk)) Hbl y ey).
Qed.
Lemma holding_sound s couple before rest expected earlier kept skipped skips first : ordered_ok s → knows couple s expected earlier before rest kept →
  (∀ entry, entry ∈ before → entry ∈ kept ∨ entry ∈ skipped) → (∀ entry, entry ∈ skipped → entry ∈ before) → summarises couple skips ((λ x : Z * Entry, en_footprint x.2) <$> skipped) →
  withheld s couple (among skipped) → (holding_entries s couple expected earlier skips first rest).1.1 ≠ None → work_held s couple.
Proof.
  intros Hok. revert before expected earlier kept skipped skips first. induction rest as [|[q0 e0] rest IH]; intros before expected earlier kept skipped skips first Hk Hall Hback Hsum HW; simpl; [done|].
  assert (Hq0 : oc_entries s !! q0 = Some e0) by (apply (knows_entry _ _ _ _ _ _ _ _ _ Hk); right; by left).
  pose proof (knows_order _ _ _ _ _ _ _ _ _ Hk) as [Hlo _]. pose proof (knows_reach _ _ _ _ _ _ _ _ _ Hok Hk) as Hreach. destruct (is_barrier _); [done|]. destruct Hreach as [-> Hcov].
  destruct (negb (blocks couple earlier (en_footprint e0)) && is_heavy_chunk_data (en_footprint e0) && (ready_and_free s (en_slot e0) || pending_is s q0 || is_some (batch_waits_for s (en_slot e0)))) eqn:Hskip.
  - apply andb_true_iff in Hskip as [[Hbl%negb_true_iff Hcd]%andb_true_iff Hpr].
    apply (IH (before ++ [(q0, e0)]) (sat_add q0 1) earlier kept (skipped ++ [(q0, e0)])); [by apply knows_skip with expected|..].
    + intros x [Hx|Hx]%elem_of_app; [destruct (Hall x Hx); [by left|right; apply elem_of_app; by left]|right; apply elem_of_app; by right].
    + intros x [Hx|Hx]%elem_of_app; apply elem_of_app; [left; by apply Hback|by right].
    + rewrite fmap_app. by apply summarises_add.
    + assert (Hsub : ∀ y, among skipped y → among (skipped ++ [(q0, e0)]) y) by (intros y [ey Hy]; exists ey; apply elem_of_app; by left).
      intros x [ex [Hx|[= -> ->]%list_elem_of_singleton]%elem_of_app].
      * destruct (HW x) as (e & He & ? & ? & Hb); [by exists ex|]. exists e. do 3 (split; [done|]). by eapply only_behind_mono.
      * exists e0. do 3 (split; [done|]). eapply only_behind_mono; [exact Hsub|]. by eapply skipped_behind.
  - destruct (negb (blocks couple earlier (en_footprint e0)) && ready_and_free s (en_slot e0) && blocks couple skips (en_footprint e0)) eqn:Hret; simpl.
    + intros _. apply andb_true_iff in Hret as [[Hbl%negb_true_iff Hfree]%andb_true_iff Hheld]. rewrite Hbl, Hfree in Hskip. simpl in Hskip. rewrite andb_true_r in Hskip.
      exists (among skipped), q0. split; [done|]. exists e0. do 3 (split; [done|]). split; [by eapply skipped_behind|].
      rewrite (blocks_summary _ _ _ _ Hsum) in Hheld. apply existsb_exists in Hheld as (f & Hf & Hc). apply list_elem_of_In, list_elem_of_fmap in Hf as ([y ey] & -> & Hy).
      pose proof (Hback _ Hy) as Hyb. exists y, ey. split; [by exists ey|]. split; [by apply (Hlo y ey)|]. split; [|done]. apply (knows_entry _ _ _ _ _ _ _ _ _ Hk). by left.
    + apply (IH (before ++ [(q0, e0)]) (sat_add q0 1) (earlier_add couple earlier (en_footprint e0)) (kept ++ [(q0, e0)]) skipped); [by apply knows_next with expected| | |done|done].
      * intros x [Hx|Hx]%elem_of_app; [destruct (Hall x Hx); [left; apply elem_of_app; by left|by right]|left; apply elem_of_app; by right].
      * intros x Hx. apply elem_of_app. left. by apply Hback.
Qed.

(** ** The search *)

#[local] Ltac steps := ewp_steps; unfold id.
Definition least (P : Z → Prop) q : Prop := P q ∧ ∀ x, x < q → ¬ P x.
(** What a scan answers, and what it leaves in the scratch summary. *)
Definition scanned s budget (r : option Z) (earlier : EarlierEvents) : Prop :=
  match r with
  | Some q => least (committable s budget) q ∧ summary_before s (cb_couple_position budget) q earlier
  | None => ∀ x, ¬ committable s budget x
  end.
Lemma ewp_scan budget s (E : WorldStreamError → State → Prop) : ordered_ok s →
  ewp (scan_unblocked budget) s (λ r s', ∃ earlier skipped, s' = with_scratch earlier skipped s ∧ scanned s budget r earlier) E.
Proof.
  intros Hok. unfold scan_unblocked. steps. rewrite entries_all by done.
  pose proof (scan_entries_spec s budget [] (ordered (oc_entries s)) (oc_frontier s) earlier_default Hok (knows_start _ s Hok)) as H.
  destruct (scan_entries _ _ _ _ _) as [r earlier]. steps. exists earlier, (oc_skipped_chunk_data s). split; [done|].
  assert (Hlow : ∀ x, x < oc_frontier s → ¬ committable s budget x).
  { intros x Hx (e & ev & He & _). destruct (oo_keys _ Hok x e He). lia. }
  specialize (H Hlow). destruct r as [q|]; [|done]. by destruct H as (? & ? & ?).
Qed.

Definition with_chunk_data (budget : CommitBudget) : CommitBudget := mk_budget (cb_heavy budget) true (cb_couple_position budget).
(** No ready event waits for withheld chunk data alone. *)
Definition no_work_held s couple : Prop := ∀ W q, withheld s couple W → ¬ waits_behind s couple W q.
(** Chunk data that the budget withholds may go on: heavy work is allowed, nothing else may commit, and a ready event waits
    for withheld chunk data alone. *)
Record beyond s budget : Prop := {
  by_heavy : cb_heavy budget = true;
  by_withheld : cb_chunk_data budget = false;
  by_idle x : ¬ committable s budget x;
  by_held : work_held s (cb_couple_position budget);
}.
Definition found s budget (r : option Z) (earlier : EarlierEvents) : Prop :=
  match r with
  | Some q => scanned s budget (Some q) earlier ∨
      beyond s budget ∧ (pending_is s q = true ∧ first_ok s (cb_couple_position budget) (Some q) ∨ scanned s (with_chunk_data budget) (Some q) earlier)
  | None => (∀ x, ¬ committable s budget x) ∧ (cb_heavy budget = true → cb_chunk_data budget = false → no_work_held s (cb_couple_position budget))
  end.
Lemma first_committable s budget v : cb_heavy budget = true → first_ok s (cb_couple_position budget) (Some v) → pending_is s v = true ∨ committable s (with_chunk_data budget) v.
Proof.
  intros Hheavy Hf. destruct (Hf v eq_refl) as (x & e & Hx & Hcd & Hpr & Hun & ->). unfold progressing in Hpr. destruct (batch_waits_for s (en_slot e)) as [p|] eqn:Hb; simpl in *.
  - left. unfold batch_waits_for in Hb. unfold pending_is. apply bool_decide_eq_true. by repeat case_match.
  - rewrite orb_false_r in Hpr. apply orb_true_iff in Hpr as [Hfree|Hp]; [right|by left]. unfold ready_and_free in Hfree. destruct (en_slot e) as [|ev|] eqn:Hs; [done| |done].
    exists e, ev. unfold allowed_by. simpl. by rewrite Hheavy, !orb_true_l.
Qed.
Lemma ewp_find budget s (E : WorldStreamError → State → Prop) : ordered_ok s →
  ewp (find_unblocked budget) s (λ r s', ∃ earlier skipped, s' = with_scratch earlier skipped s ∧ found s budget r earlier) E.
Proof.
  intros Hok. unfold find_unblocked. apply ewp_bind. eapply ewp_mono; [by apply ewp_scan| |done].
  intros [q|] s' (ea & sk & -> & Hsc); [steps; exists ea, sk; split; [done|by left]|]. destruct (negb (cb_heavy budget) || cb_chunk_data budget) eqn:Hb.
  { steps. exists ea, sk. split; [done|]. split; [done|]. intros Hh Hcd. by rewrite Hh, Hcd in Hb. }
  apply orb_false_iff in Hb as [Hheavy%negb_false_iff Hcd].
  unfold chunk_data_holding_ready_work. steps. set (s1 := with_scratch ea sk s). assert (Hok1 : ordered_ok s1) by (apply (same_core_ok s); [by split|done]). rewrite entries_all by done.
  assert (Hhold : ∀ W, withheld s (cb_couple_position budget) W → let r := (holding_entries s1 (cb_couple_position budget) (oc_frontier s1) earlier_default earlier_default None (ordered (oc_entries s1))).1.1 in
    first_ok s (cb_couple_position budget) r ∧ ∀ q e, (q, e) ∈ ordered (oc_entries s1) → waits_behind s (cb_couple_position budget) W q → r ≠ None).
  { intros W HW. apply (holding_spec s1 _ W [] _ _ _ [] []); [done|done|by apply knows_start|]. split; try done; [intros x Hx; by apply elem_of_nil in Hx|apply summarises_nil|intros x e Hx; by apply elem_of_nil in Hx]. }
  assert (Hsound : (holding_entries s1 (cb_couple_position budget) (oc_frontier s1) earlier_default earlier_default None (ordered (oc_entries s1))).1.1 ≠ None → beyond s budget).
  { intros Hr. split; [done|done|exact Hsc|]. apply (holding_sound s1 _ [] _ _ _ [] [] _ _ Hok1 (knows_start _ _ Hok1)) in Hr; [done|..]; [intros x Hx; by apply elem_of_nil in Hx|done|apply summarises_nil|].
    intros x [ex Hx]. by apply elem_of_nil in Hx. }
  destruct (holding_entries _ _ _ _ _ _ _) as [[r ea2] sk2]. simpl in Hhold, Hsound. steps. destruct r as [q|].
  - steps. change (pending_is (with_scratch ea2 sk2 s1) q) with (pending_is s q). destruct (pending_is s q) eqn:Hp.
    { steps. exists ea2, sk2. split; [done|]. right. split; [by apply Hsound|left]. split; [done|]. destruct (Hhold (λ _, False)) as [Hf _]; [by intros ?|exact Hf]. }
    eapply ewp_mono; [apply ewp_scan| |done].
    + apply (same_core_ok s); [by split|done].
    + intros [x|] s' (ea3 & sk3 & -> & Hsc3); exists ea3, sk3; (split; [done|]); [right; split; [by apply Hsound|by right]|].
      destruct (Hhold (λ _, False)) as [Hf _]; [by intros ?|]. destruct (first_committable s budget q Hheavy Hf) as [|Hc]; [congruence|]. by destruct (Hsc3 q).
  - steps. exists ea2, sk2. split; [done|]. split; [done|]. intros _ _ W q HW Hw. pose proof Hw as (e & He & _). destruct (Hhold W HW) as [_ Hn]. by apply (Hn q e); [apply elem_of_ordered|..].
Qed.

(** ** Starting a range *)

Record starts (couple : bool) a b s s' : Prop := {
  st_ok : ordered_ok s';
  st_fences : fences s' ≡ₚ (a, b) :: fences s;
  st_finished x : finished_seq s' x ↔ finished_seq s x;
  st_entries x e' : oc_entries s' !! x = Some e' → ∃ e, oc_entries s !! x = Some e ∧ en_footprint e' = en_footprint e;
  st_unblocked x : a ≤ x ≤ b → ∃ e, oc_entries s !! x = Some e ∧ unblocked s couple a (en_footprint e);
}.
Definition activated a b (m m' : gmap Z Entry) : Prop := ∀ x, m' !! x = if decide (a ≤ x ≤ b) then with_slot Active <$> m !! x else m !! x.
(** The range holds ready events that nothing before it conflicts with. *)
Definition startable (couple : bool) a b s : Prop := a ≤ b ∧ ∀ x, a ≤ x ≤ b → ∃ e ev, oc_entries s !! x = Some e ∧ en_slot e = Ready ev ∧ unblocked s couple a (en_footprint e).
Lemma activated_counts a b m m' h : activated a b m m' → count_held h m' = count_held h m ∧ size m' = size m.
Proof.
  intros Hact. split.
  - symmetry. apply map_sum_related. intros x. rewrite Hact. by case_decide; destruct (m !! x).
  - rewrite <-!size_dom. f_equal. apply set_eq. intros x. rewrite !elem_of_dom, Hact. case_decide; [|done]. by rewrite fmap_is_Some.
Qed.
Lemma starts_ok couple a b s s' : ordered_ok s → startable couple a b s → activated a b (oc_entries s) (oc_entries s') →
  oc_frontier s' = oc_frontier s → oc_finished s' = oc_finished s →
  (oc_unfinished s', oc_light s', oc_heavy s', oc_deferred s', oc_ingress s', oc_ingress_light s') =
    (oc_unfinished s, oc_light s, oc_heavy s, oc_deferred s, oc_ingress s, oc_ingress_light s) →
  fences s' ≡ₚ (a, b) :: fences s →
  (∀ c, oc_block_update_range_end s' = Some c → oc_blocking_block_updates s' = None ∧ ∃ q, oc_applying s' = Some q ∧ pending_sequence s' ≠ Some q) →
  starts couple a b s s'.
Proof.
  intros Hok [Hab Hst] Hact E1 E3 [= Hu Hl Hh Hd Hi Hil] Hperm Hrange. assert (Hcnt : ∀ h, count_held h (oc_entries s') = count_held h (oc_entries s)) by (intros h; by apply (activated_counts a b)).
  assert (Hent : ∀ x e', oc_entries s' !! x = Some e' → ∃ e, oc_entries s !! x = Some e ∧ en_footprint e' = en_footprint e ∧ en_held e' = en_held e).
  { intros x e'. rewrite Hact. case_decide; [|intros He; by exists e']. intros (e & He & ->)%fmap_Some. by exists e. }
  split; [|done| |intros x e' (e & ? & ? & _)%Hent; by exists e|].
  - pose proof (count_bounds s Hok). destruct Hok as [Hf Hr Hk [] [] Hfe Ha Hra]. split; rewrite ?E1, ?E3; try done.
    + intros x e' (e & He & _)%Hent. by apply (Hk x e).
    + split; rewrite ?Hu, ?Hl, ?Hh, ?Hd, ?Hi, ?Hil, ?Hcnt; try done. by rewrite (proj2 (activated_counts a b _ _ held_light Hact)).
    + split; rewrite ?Hl, ?Hh, ?Hd, ?Hi, ?Hil; try done. rewrite E1, Hact. case_decide; [|done]. by destruct (oc_entries s !! oc_frontier s).
    + intros r. rewrite Hperm. intros [->|Hr']%elem_of_cons; [done|by apply Hfe].
    + intros x. rewrite Hperm, cover_cons, Ha. unfold active_at. rewrite Hact. destruct (decide (within x (a, b))) as [Hw|Hw], (decide (a ≤ x ≤ b)) as [Hx|Hx]; try done.
      destruct (Hst x Hx) as (e & ev & He & Hs & _). by rewrite He, Hs.
  - intros x. unfold finished_seq. by rewrite E1, E3.
  - intros x Hx. destruct (Hst x Hx) as (e & ev & He & _ & Hun). by exists e.
Qed.

(** ** Block bursts *)

(** [s] with the events of [a..b] started. *)
Definition started_from s a b s' : Prop := ∃ m, s' = with_entries m (oc_unfinished s) s ∧ activated a b (oc_entries s) m.
Lemma activated_next a b m m' e : a ≤ b + 1 → activated a b m m' → m !! (b + 1) = Some e → activated a (b + 1) m (<[b + 1 := with_slot Active e]> m').
Proof.
  intros Hab Hact He x. destruct (decide (x = b + 1)) as [->|Hne].
  - rewrite lookup_insert_eq, decide_True by lia. by rewrite He.
  - rewrite lookup_insert_ne, Hact by done. by destruct (decide (a ≤ x ≤ b)), (decide (a ≤ x ≤ b + 1)); try lia.
Qed.
Lemma startable_size couple a b s : startable couple a b s → b - a + 1 ≤ Z.of_nat (size (oc_entries s)).
Proof.
  intros [Hab Hst]. rewrite <-size_dom. assert (list_to_set (seqZ a (b - a + 1)) ⊆ dom (oc_entries s)) as Hsub.
  { intros x Hx. apply elem_of_list_to_set, elem_of_seqZ in Hx. destruct (Hst x) as (e & ev & He & _); [lia|]. apply elem_of_dom. by exists e. }
  apply subseteq_size in Hsub. rewrite size_list_to_set, length_seqZ in Hsub by apply NoDup_seqZ. lia.
Qed.
(** The updates that [take] takes from the ready event of [x], and those of [a..b] in order. *)
Definition taken_at {A} (take : Event → option A) s x (part : A) : Prop := ∃ e ev, oc_entries s !! x = Some e ∧ en_slot e = Ready ev ∧ take ev = Some part.
Definition taken {A} (take : Event → option A) s a b (parts : list A) : Prop := Forall2 (taken_at take s) (seqZ a (b - a + 1)) parts.
Lemma taken_next {A} (take : Event → option A) s a b parts part : a ≤ b + 1 → taken take s a b parts → taken_at take s (b + 1) part → taken take s a (b + 1) (parts ++ [part]).
Proof.
  intros Hab Hparts Hpart. unfold taken in *. replace (b + 1 - a + 1) with ((b - a + 1) + 1) by lia. rewrite seqZ_app by lia. apply Forall2_app; [done|].
  replace (a + (b - a + 1)) with (b + 1) by lia. by constructor.
Qed.
Lemma ewp_take_adjacent {A} (take : Event → option A) a b budget s s0 (E : WorldStreamError → State → Prop) : ordered_ok s → started_from s a b s0 →
  startable (cb_couple_position budget) a b s → summary_before s (cb_couple_position budget) a (oc_earlier s) →
  ewp (take_adjacent take b budget) s0 (λ r s', match r with
    | None => s' = s0
    | Some part => b + 1 < USIZE_MAX ∧ started_from s a (b + 1) s' ∧ startable (cb_couple_position budget) a (b + 1) s ∧ taken_at take s (b + 1) part
    end) E.
Proof.
  intros Hok (m & -> & Hact) [Hab Hst] Hsum. unfold take_adjacent. steps. destruct (checked_add b 1) as [n|] eqn:Hn; [|by steps]. apply checked_add_Some in Hn as [-> Hn].
  simpl. assert (m !! (b + 1) = oc_entries s !! (b + 1)) as -> by (rewrite Hact, decide_False; [done|lia]).
  destruct (oc_entries s !! (b + 1)) as [e|] eqn:He; [|by steps]. destruct (en_slot e) as [|ev|] eqn:Hs; [by steps| |by steps]. destruct (take ev) as [part|] eqn:Htake; [|by steps].
  destruct (blocks _ _ _) eqn:Hb; [by steps|]. apply Hsum in Hb. steps. destruct (oo_keys _ Hok _ _ He). split; [lia|]. split.
  - eexists. split; [done|]. apply activated_next; [lia|done|done].
  - split; [|by exists e, ev]. split; [lia|]. intros x Hx. destruct (decide (x = b + 1)) as [->|]; [by exists e, ev|]. apply Hst. lia.
Qed.
Lemma ewp_burst {A} (take : Event → option A) fuel a b budget parts s s0 (E : WorldStreamError → State → Prop) : ordered_ok s → started_from s a b s0 →
  startable (cb_couple_position budget) a b s → summary_before s (cb_couple_position budget) a (oc_earlier s) →
  Z.of_nat (size (oc_entries s)) < Z.of_nat fuel + (b - a) → taken take s (a + 1) b parts →
  ewp (take_burst (λ run_end, take_adjacent take run_end budget) fuel b parts) s0
    (λ r s', started_from s a r.1 s' ∧ startable (cb_couple_position budget) a r.1 s ∧ taken take s (a + 1) r.1 r.2) E.
Proof.
  intros Hok. revert b parts s0. induction fuel as [|fuel IH]; intros b parts s0 Hfrom Hst Hsum Hfuel Hparts; simpl.
  { pose proof (startable_size _ _ _ _ Hst). lia. }
  apply ewp_bind. eapply ewp_mono; [by apply (ewp_take_adjacent take a b budget s)| |done]. intros [part|] s'; [|intros ->; by steps].
  intros (Hb & Hfrom' & Hst' & Hpart). apply ewp_bind, ewp_incr; [|].
  - destruct Hst' as [Hab Hst']. destruct (Hst' a) as (e & ev & He & _); [lia|]. pose proof (oo_frontier _ Hok). destruct (oo_keys _ Hok _ _ He). destruct Hst. lia.
  - apply IH; [done|done|done|lia|]. apply taken_next; [destruct Hst; lia|done|done].
Qed.

(** ** The start of a step *)

(** The sequences whose effect a step hands over at once. *)
Definition applied_now (step : @CommitStep Content) : list Z := match step with Apply q _ => [q] | _ => [] end.
(** A step hands over what the events of its range hold, in wire order. *)
Definition hands_over s (step : @CommitStep Content) a b : Prop :=
  match step with
  | BatchStarted => b = a ∧ ∃ e dimension entries duration, oc_entries s !! a = Some e ∧ en_slot e = Ready (SubChunks dimension entries duration)
  | Apply q ev => q = a ∧ b = a ∧ ∃ e, oc_entries s !! a = Some e ∧ en_slot e = Ready ev
  | ApplyBlockUpdates q events => q = a ∧ ∃ parts, events = concat parts ∧
      taken (λ ev, match ev with Immediate (BlockUpdates updates) => Some updates | _ => None end) s a b parts
  | ApplySyncedBlockUpdates q packets => q = a ∧
      taken (λ ev, match ev with Immediate (SyncedBlockUpdates updates) => Some updates | _ => None end) s a b packets
  end.
Lemma hands_now s step a b x : hands_over s step a b → x ∈ applied_now step → x = a ∧ b = a.
Proof. destruct step as [|q ev| |]; simpl; [by intros _ ?%elem_of_nil|..|by intros _ ?%elem_of_nil|by intros _ ?%elem_of_nil]. by intros (-> & -> & _) ->%list_elem_of_singleton. Qed.
(** The head of a burst, then its parts, taken by a stricter test. *)
Lemma taken_cons {A} (take take' : Event → option A) s a b first parts : a ≤ b → (∀ ev part, take ev = Some part → take' ev = Some part) →
  taken_at take' s a first → taken take s (a + 1) b parts → taken take' s a b (first :: parts).
Proof.
  intros Hab Hsub Hfirst Hparts. unfold taken in *. rewrite seqZ_cons by lia. constructor; [done|].
  replace (Z.pred (b - a + 1)) with (b - (a + 1) + 1) by lia. change (Z.succ a) with (a + 1). eapply Forall2_impl; [exact Hparts|]. intros x part (e & ev & He & Hs & Ht). exists e, ev. auto.
Qed.
Lemma step_starts couple q b rng heavy m s : ordered_ok s → oc_applying s = None → pending_sequence s ≠ Some q → startable couple q b s →
  activated q b (oc_entries s) m → default q rng = b → (rng = None ∨ oc_blocking_block_updates s = None) →
  starts couple q b s (with_step (oc_blocking_block_updates s) rng (Some q) (with_entries m (oc_unfinished s) (with_step_heavy heavy s))).
Proof.
  intros Hok Hnone Hpend Hst Hact Hb Hrng. apply starts_ok; try done.
  - unfold fences. change (pending_sequence (with_step _ _ _ _)) with (pending_sequence s). simpl. rewrite Hnone, bool_decide_false, Hb by done. rewrite app_nil_r, app_assoc.
    apply (Permutation_app_comm _ [_]).
  - simpl. intros c ->. destruct Hrng as [|Hblock]; [done|]. split; [done|]. by exists q.
Qed.
Lemma batch_starts couple q dimension entries duration m s : ordered_ok s → oc_applying s = None → oc_pending_sub_chunks s = None → startable couple q q s →
  activated q q (oc_entries s) m → starts couple q q s (with_pending (Some (mk_pending_batch q dimension entries duration)) (with_entries m (oc_unfinished s) s)).
Proof.
  intros Hok Hnone Hpend Hst Hact. apply starts_ok; try done.
  - unfold fences, pending_sequence. simpl. by rewrite Hnone, Hpend.
  - simpl. intros c Hc. destruct (oo_range _ Hok c Hc) as (_ & a & Ha & _). congruence.
Qed.
Lemma not_pending s q e : ordered_ok s → oc_entries s !! q = Some e → is_active (en_slot e) = false → pending_sequence s ≠ Some q.
Proof.
  intros Hok He Hs Hp. pose proof (oo_active _ Hok q) as Hc. unfold active_at in Hc. rewrite He, Hs in Hc. apply (proj1 (cover_zero q _)) with (r := (q, q)) in Hc; [by apply Hc|].
  unfold fences. rewrite Hp. by left.
Qed.
(** A ready event of the table, with what a scan found out about it. *)
Record chosen budget q e ev s : Prop := {
  ch_ok : ordered_ok s;
  ch_idle : oc_applying s = None;
  ch_entry : oc_entries s !! q = Some e;
  ch_ready : en_slot e = Ready ev;
  ch_free : kind_is_free s ev = true;
  ch_unblocked : unblocked s (cb_couple_position budget) q (en_footprint e);
  ch_summary : summary_before s (cb_couple_position budget) q (oc_earlier s);
}.
Lemma chosen_startable budget q e ev s : chosen budget q e ev s → startable (cb_couple_position budget) q q s ∧ pending_sequence s ≠ Some q.
Proof.
  intros [Hok _ He Hs _ Hun _]. split; [|apply (not_pending s q e); [done|done|by rewrite Hs]]. split; [lia|]. intros x Hx. replace x with q by lia. by exists e, ev.
Qed.
(** The burst of a chosen block step, or the event alone. *)
Lemma chosen_burst {A} (take : Event → option A) budget q e ev s m heavy E (Q : Z * list A → State → Prop) : chosen budget q e ev s → activated q q (oc_entries s) m →
  (∀ b parts m', activated q b (oc_entries s) m' → startable (cb_couple_position budget) q b s → taken take s (q + 1) b parts → Q (b, parts) (with_entries m' (oc_unfinished s) (with_step_heavy heavy s))) →
  ewp (take_burst (λ run_end, take_adjacent take run_end budget) (S (size (oc_entries s))) q []) (with_entries m (oc_unfinished s) (with_step_heavy heavy s)) Q E.
Proof.
  intros Hch Hact HQ. eapply ewp_mono; [apply (ewp_burst take _ q q budget [] (with_step_heavy heavy s))| |done].
  - apply (same_core_ok s); [by split|apply Hch].
  - exists m. by split.
  - apply (chosen_startable _ _ _ _ _ Hch).
  - apply Hch.
  - simpl. lia.
  - unfold taken. by replace (q - (q + 1) + 1) with 0 by lia.
  - intros [b parts] s' ((m' & -> & Hact') & Hst & Hparts). by apply HQ.
Qed.
Lemma ewp_start_event budget q e ev heavy s m (E : WorldStreamError → State → Prop) : chosen budget q e ev s → activated q q (oc_entries s) m →
  ewp (start_event budget q ev heavy) (with_entries m (oc_unfinished s) s) (λ step s', ∃ b, starts (cb_couple_position budget) q b s s' ∧ hands_over s step q b) E.
Proof.
  intros Hch Hact. pose proof (chosen_startable _ _ _ _ _ Hch) as [Hst Hpend]. pose proof Hch as [Hok Hnone He Hs Hfree _ _].
  assert (Hsize : size m = size (oc_entries s)) by (by apply (activated_counts q q _ _ held_light)).
  assert (Hra : oc_block_update_range_end s = None).
  { destruct (oc_block_update_range_end s) as [c|] eqn:Hc; [|done]. destruct (oo_range _ Hok c Hc) as (_ & a & Ha & _). congruence. }
  assert (Hblock : ∀ m' b step, activated q b (oc_entries s) m' → startable (cb_couple_position budget) q b s → oc_blocking_block_updates s = None → hands_over s step q b →
    ∃ b', starts (cb_couple_position budget) q b' s (with_step (oc_blocking_block_updates s) (Some b) (Some q) (with_entries m' (oc_unfinished s) (with_step_heavy heavy s))) ∧
      hands_over s step q b').
  { intros m' b step Hact' Hst' Hfr Hnow. exists b. split; [apply step_starts; try done; by right|done]. }
  assert (Hone : ∀ {A} (take : Event → option A) part, take ev = Some part → taken take s (q + 1) q [] → taken take s q q [part]).
  { intros A take part Ht Hnil. apply (taken_cons take); [lia|done|by exists e, ev|done]. }
  assert (Hnil : ∀ {A} (take : Event → option A), taken take s (q + 1) q []) by (intros A take; unfold taken; by replace (q - (q + 1) + 1) with 0 by lia).
  assert (Hplain : ewp (_ ← eff_modify (λ s, with_step_heavy heavy (with_step (oc_blocking_block_updates s) (oc_block_update_range_end s) (Some q) s)); mret (Apply q ev))
      (with_entries m (oc_unfinished s) s) (λ step s', ∃ b, starts (cb_couple_position budget) q b s s' ∧ hands_over s step q b) E).
  { steps. exists q. split; [|by split; [|split; [|exists e]]]. apply (step_starts _ q q _ heavy m s); try done; simpl; rewrite Hra; [done|by left]. }
  unfold start_event. steps. cbn [oc_entries with_entries]. rewrite Hsize. destruct ev as [| |dimension entries duration| | | | |[]| |]; try exact Hplain.
  - steps. exists q. split; [|by split; [|exists e, dimension, entries, duration]]. apply batch_starts; [done|done| |done|done]. by apply bool_decide_eq_true in Hfree.
  - assert (oc_blocking_block_updates s = None) by (simpl in Hfree; by destruct (oc_blocking_block_updates s)). steps. destruct (block_updates_can_coalesce updates).
    + eapply (chosen_burst block_updates_of budget q e _ s m heavy); [done|done|]. intros b parts m' Hact' Hst' Hparts. steps. unfold start_block_step. steps. apply Hblock; [done..|].
      split; [done|]. exists (updates :: parts). split; [done|]. apply (taken_cons block_updates_of); [apply Hst'| |by exists e, (Immediate (BlockUpdates updates))|done].
      intros ev part. unfold block_updates_of. by repeat case_match.
    + steps. unfold start_block_step. steps. apply Hblock; [done..|]. split; [done|]. exists [updates]. split; [done|]. by apply Hone.
  - assert (oc_blocking_block_updates s = None) by (simpl in Hfree; by destruct (oc_blocking_block_updates s)). steps. destruct (synced_update_key updates) as [key|].
    + eapply (chosen_burst (synced_updates_of key) budget q e _ s m heavy); [done|done|]. intros b parts m' Hact' Hst' Hparts. steps. unfold start_block_step. steps. apply Hblock; [done..|].
      split; [done|]. apply (taken_cons (synced_updates_of key)); [apply Hst'| |by exists e, (Immediate (SyncedBlockUpdates updates))|done].
      intros ev part. unfold synced_updates_of. by repeat case_match.
    + steps. unfold start_block_step. steps. apply Hblock; [done..|]. split; [done|]. by apply Hone.
Qed.

(** ** The next step *)

(** The next piece of the partial batch [p]. *)
Definition hands_piece s (p : PendingSubChunkCommit) (step : @CommitStep Content) s' : Prop :=
  step = Apply (ps_sequence p) (match ps_entries p with x :: _ => SubChunkEntry (ps_dimension p) x (ps_duration p) | [] => CommitOnly end) ∧ oc_applying s' = Some (ps_sequence p) ∧
  ps_entries <$> oc_pending_sub_chunks s' = Some (tail (ps_entries p)) ∧ fences s' = fences s ∧ fine None s s'.
(** It goes on when the budget lets heavy chunk data through, or when it is beyond the budget and it, or a batch that waits
    for it, is the chunk data to let through. *)
Definition continues budget s (step : @CommitStep Content) s' : Prop := ∃ p, oc_pending_sub_chunks s = Some p ∧ hands_piece s p step s' ∧
  (cb_heavy budget && cb_chunk_data budget = true ∨ beyond s budget ∧ first_ok s (cb_couple_position budget) (Some (ps_sequence p))).
(** A new event, where no partial batch goes first: the least that may commit, or that may once chunk data is let through. *)
Definition begins budget s (step : @CommitStep Content) s' : Prop := (cb_heavy budget && cb_chunk_data budget = true → oc_pending_sub_chunks s = None) ∧
  ∃ a b, starts (cb_couple_position budget) a b s s' ∧ hands_over s step a b ∧
    (least (committable s budget) a ∨ beyond s budget ∧ least (committable s (with_chunk_data budget)) a).
Definition next_result budget s (r : option CommitStep) s' : Prop :=
  match r with
  | None => fine None s s' ∧ (oc_applying s = None → (∀ x, ¬ committable s budget x) ∧ (cb_heavy budget && cb_chunk_data budget = true → oc_pending_sub_chunks s = None) ∧
      (cb_heavy budget = true → cb_chunk_data budget = false → no_work_held s (cb_couple_position budget)))
  | Some step => oc_applying s = None ∧ (continues budget s step s' ∨ begins budget s step s')
  end.
Lemma same_core_fine s s' : ordered_ok s → same_core s s' → fine None s s'.
Proof. intros Hok Hs. split; [by apply (same_core_ok s)|by apply same_core_moves]. Qed.
Lemma ewp_continue p ea sk heavy s (E : WorldStreamError → State → Prop) : ordered_ok s → oc_applying s = None → oc_pending_sub_chunks s = Some p →
  ewp continue_sub_chunks (with_scratch ea sk (with_step_heavy heavy s)) (λ step s', hands_piece s p step s') E.
Proof.
  intros Hok Ha Hp. unfold continue_sub_chunks. steps. apply (ewp_expect _ p); [done|].
  assert (Hra : oc_block_update_range_end s = None).
  { destruct (oc_block_update_range_end s) as [c|] eqn:Hc; [|done]. destruct (oo_range _ Hok c Hc) as (_ & a & Ha' & _). congruence. }
  assert (Hend : ∀ ev s', ev = (match ps_entries p with x :: _ => SubChunkEntry (ps_dimension p) x (ps_duration p) | [] => CommitOnly end) → same_table s s' → oc_applying s' = Some (ps_sequence p) →
    ps_entries <$> oc_pending_sub_chunks s' = Some (tail (ps_entries p)) → pending_sequence s' = Some (ps_sequence p) →
    oc_blocking_block_updates s' = oc_blocking_block_updates s → oc_block_update_range_end s' = oc_block_update_range_end s → hands_piece s p (Apply (ps_sequence p) ev) s').
  { intros ev s' -> Ht Ha' Hent Hp' Hb Hr. assert (Hfe : fences s = fences s').
    { unfold fences. rewrite Hp', Hb, Ha', Ha. unfold pending_sequence. rewrite Hp. simpl. by rewrite bool_decide_true. }
    do 4 (split; [done|]). split; [apply (refence s); [done|done|by rewrite Hfe|left; congruence]|apply table_moves; [done|by rewrite Hfe]]. }
  destruct (ps_entries p) as [|x rest] eqn:Hent; steps; by apply Hend.
Qed.
Lemma ewp_next budget s (E : WorldStreamError → State → Prop) : ordered_ok s → ewp (next_commit_within budget) s (next_result budget s) E.
Proof.
  intros Hok. unfold next_commit_within. steps. change (oc_applying (with_step_heavy false s)) with (oc_applying s).
  change (oc_pending_sub_chunks (with_step_heavy false s)) with (oc_pending_sub_chunks s).
  destruct (oc_applying s) as [a|] eqn:Ha; [by steps; split; [by apply same_core_fine|congruence]|]. cbn [is_some].
  destruct (cb_heavy budget && cb_chunk_data budget && is_some (oc_pending_sub_chunks s)) eqn:Hfull.
  { apply andb_true_iff in Hfull as [Hfull Hp]. destruct (oc_pending_sub_chunks s) as [p|] eqn:Hpend; [|done]. apply ewp_bind.
    change (with_step_heavy false s) with (with_scratch (oc_earlier s) (oc_skipped_chunk_data s) (with_step_heavy false s)).
    eapply ewp_mono; [by apply (ewp_continue p)| |done]. intros step s' Hc. steps. split; [done|]. left. exists p. split; [done|]. split; [done|by left]. }
  assert (Hfirst : cb_heavy budget && cb_chunk_data budget = true → oc_pending_sub_chunks s = None) by (intros Hb; rewrite Hb in Hfull; by destruct (oc_pending_sub_chunks s)).
  apply ewp_bind. eapply ewp_mono; [apply ewp_find| |done].
  { by apply (same_core_ok s). }
  assert (Hbeyond : beyond (with_step_heavy false s) budget → beyond s budget) by (intros []; by split).
  intros [q|] s' (ea & sk & -> & Hfound).
  - steps. change (pending_is (with_scratch ea sk (with_step_heavy false s)) q) with (pending_is s q). destruct (pending_is s q) eqn:Hp.
    { pose proof Hp as Hpis. unfold pending_is, pending_sequence in Hp. apply bool_decide_eq_true, fmap_Some in Hp as (p & Hp & ->). apply ewp_bind.
      eapply ewp_mono; [by apply (ewp_continue p)| |done]. intros step s' Hc. steps. split; [done|]. left. exists p. split; [done|]. split; [done|right].
      assert (Hnot : ∀ budget', ¬ committable s budget' (ps_sequence p)).
      { intros budget' (e & ev & He & Hs & _). apply (not_pending s (ps_sequence p) e Hok He); [by rewrite Hs|]. unfold pending_sequence. by rewrite Hp. }
      destruct Hfound as [[Hl _]|[Hb [[_ Hf]|[Hl _]]]]; [by destruct (Hnot budget), Hl|split; [by apply Hbeyond|exact Hf]|by destruct (Hnot (with_chunk_data budget)), Hl]. }
    assert (Hsel : ∃ cd, let budget' := mk_budget (cb_heavy budget) cd (cb_couple_position budget) in committable s budget' q ∧ summary_before s (cb_couple_position budget) q ea ∧
      (least (committable s budget) q ∨ beyond s budget ∧ least (committable s (with_chunk_data budget)) q)).
    { destruct Hfound as [[Hl Hsum]|[Hno [[Hp' _]|[Hl Hsum]]]].
      - exists (cb_chunk_data budget). destruct budget. split; [apply Hl|]. split; [done|by left].
      - change (pending_is s q = true) in Hp'. congruence.
      - exists true. split; [apply Hl|]. split; [done|right]. split; [by apply Hbeyond|exact Hl]. }
    destruct Hsel as (cd & (e & ev & He & Hs & _ & Hfree & Hun) & Hsum & Hleast). apply ewp_bind, (ewp_expect _ e); [done|]. steps. rewrite Hs. apply ewp_bind.
    set (s0 := with_scratch ea sk (with_step_heavy false s)). assert (Hch : chosen budget q e ev s0) by (split; try done; by apply (same_core_ok s)).
    eapply ewp_mono; [apply (ewp_start_event budget q e ev _ s0 (<[q := with_slot Active e]> (oc_entries s))); [done|]| |done].
    + intros x. destruct (decide (x = q)) as [->|Hne]; [rewrite lookup_insert_eq, decide_True by lia; simpl; by rewrite He|].
      rewrite lookup_insert_ne, decide_False by lia. done.
    + intros step s' (b & Hst & Hnow). steps. split; [done|]. right. split; [exact Hfirst|]. exists q, b. split; [|done]. by destruct Hst.
  - steps. destruct Hfound as [Hno Hheld]. split; [by apply same_core_fine|]. intros _. split; [exact Hno|]. by split.
Qed.
End ordered.
