(* ===== verification/OrderedTheorems.v ===== *)
(** * Ordered commits: runs

    Runs of calls on a new [OrderedCommitState], and what holds after every one of them. [fp] gives the footprint that
    every sequence is classified with; the log holds each sequence whose effect was handed over, in that order. *)
From stdpp Require Import base numbers list gmap sets sorting.
From S2P Require Import Prelude Keys Effects Counting Lanes Ordered OrderedSpec OrderedChoice.
#[local] Open Scope Z_scope.

(** ** The order of effects *)

Section effects.
Context {W : Type}.
Implicit Types (effects : list (Z * (W → W))).

Definition apply_all effects (w : W) : W := foldl (λ w x, x.2 w) w effects.
(** Stable: an effect goes before the first that is not smaller. *)
Fixpoint wire_insert (x : Z * (W → W)) effects : list (Z * (W → W)) :=
  match effects with
  | [] => [x]
  | y :: effects => if x.1 <=? y.1 then x :: y :: effects else y :: wire_insert x effects
  end.
Definition wire_sort effects : list (Z * (W → W)) := foldr wire_insert [] effects.

Lemma wire_insert_perm x l : wire_insert x l ≡ₚ x :: l.
Proof. induction l as [|y l IH]; simpl; [done|]. destruct (x.1 <=? y.1); [done|]. rewrite IH. apply perm_swap. Qed.
Lemma wire_sort_perm l : wire_sort l ≡ₚ l.
Proof. induction l as [|x l IH]; simpl; [done|]. by rewrite wire_insert_perm, IH. Qed.
Lemma wire_sort_sorted l : StronglySorted (λ x y, x.1 ≤ y.1) (wire_sort l).
Proof.
  induction l as [|x l IH]; simpl; [constructor|]. induction IH as [|y k Hk IH Hy]; simpl; [repeat constructor|]. destruct (Z.leb_spec x.1 y.1).
  - constructor; [by constructor|]. constructor; [done|]. eapply Forall_impl; [exact Hy|]. simpl. lia.
  - constructor; [done|]. rewrite wire_insert_perm. constructor; [lia|done].
Qed.
Lemma wire_sort_stable l q : filter (λ x, x.1 = q) (wire_sort l) = filter (λ x, x.1 = q) l.
Proof.
  induction l as [|x l IH]; simpl; [done|]. rewrite filter_cons, <-IH. generalize (wire_sort l) as k. induction k as [|y k IHk]; simpl.
  - by rewrite filter_cons.
  - destruct (Z.leb_spec x.1 y.1) as [Hle|Hgt]; [by rewrite filter_cons|]. rewrite filter_cons, IHk, (filter_cons _ y). by repeat case_decide; try lia.
Qed.

Definition commute (f g : W → W) : Prop := ∀ w, f (g w) = g (f w).
Lemma apply_insert x l w : (∀ y, y ∈ l → y.1 < x.1 → commute x.2 y.2) → apply_all (wire_insert x l) w = apply_all (x :: l) w.
Proof.
  revert w. induction l as [|y l IH]; intros w Hc; simpl; [done|]. destruct (Z.leb_spec x.1 y.1); [done|].
  change (apply_all (y :: wire_insert x l) w) with (apply_all (wire_insert x l) (y.2 w)). rewrite IH; [|intros z Hz; apply Hc; by right].
  simpl. f_equal. apply (Hc y); [by left|lia].
Qed.
Lemma apply_sort l w : StronglySorted (λ x y, y.1 < x.1 → commute x.2 y.2) l → apply_all (wire_sort l) w = apply_all l w.
Proof.
  intros Hl. revert w. induction Hl as [|x l Hl IH Hx]; intros w; simpl; [done|]. rewrite apply_insert.
  - simpl. apply IH.
  - rewrite Forall_forall in Hx. intros y. rewrite (wire_sort_perm l). apply Hx.
Qed.
End effects.

Section runs.
Context {Content : Type}.
#[local] Notation State := (@OrderedCommitState Content).
#[local] Notation Entry := (@Entry Content).
#[local] Notation Event := (@PreparedWorldEvent Content).
#[local] Notation Oc := (@Oc Content).
Implicit Types (s : State) (q a b x y : Z) (e : Entry) (ev : Event) (f : Footprint) (log items : list Z) (fp : Z → Footprint).

(** ** Calls *)

Inductive Op :=
  | OpAdmit q f (retained : Z) | OpAdmitDeferred q f (retained : Z) | OpPromote q | OpReady q ev | OpNormalize q | OpCancel q
  | OpRetain q f (capacity retained : Z) | OpReserve q (retained : Z) | OpRelease q
  | OpNext (budget : CommitBudget) | OpFinish q | OpDefer q | OpComplete q ev | OpObserve | OpAnnounce.
Definition silently {A} (m : Oc A) : Oc (list Z) := _ ← m; mret [].
Definition range_items a b : list Z := seqZ a (b - a + 1).
(** A call, with the sequences whose effects it hands over: an event when it starts, updates when they end. *)
Definition perform (op : Op) : Oc (list Z) :=
  match op with
  | OpAdmit q f retained => silently (admit_event q f retained)
  | OpAdmitDeferred q f retained => silently (admit_deferred q f retained)
  | OpPromote q => silently (promote_deferred q)
  | OpReady q ev => silently (insert_ready q ev)
  | OpNormalize q => silently (normalize q)
  | OpCancel q => silently (cancel_admission q)
  | OpRetain q f capacity retained => silently (retain_ingress q f capacity retained)
  | OpReserve q retained => silently (reserve_ingress_light q retained)
  | OpRelease q => silently (release_ingress q)
  | OpNext budget => next ← next_commit_within budget; mret (match next with Some step => applied_now step | None => [] end)
  | OpFinish q =>
    s ← eff_gets id; finished ← finish_commit q;
    mret (match oc_block_update_range_end s with Some b => if (finished : bool) then range_items q b else [] | None => [] end)
  | OpDefer q => silently (defer_block_updates q)
  | OpComplete q ev =>
    s ← eff_gets id; commit ← complete_decode q ev;
    mret (match commit, oc_blocking_block_updates s with DecodedBlockUpdates _, Some (a, b) => range_items a b | _, _ => [] end)
  | OpObserve => silently observe_completions
  | OpAnnounce => silently announce_applied
  end.

(** What the callers keep to. *)
Definition allowed fp s (op : Op) : Prop :=
  match op with
  | OpAdmit q f retained | OpAdmitDeferred q f retained => q < USIZE_MAX ∧ 0 ≤ retained ∧ same_lanes f (fp q)
  | OpRetain q f capacity retained => q < USIZE_MAX ∧ 0 ≤ retained ∧ capacity ≤ INGRESS_BOUND ∧ same_lanes f (fp q)
  | OpPromote q => ∃ e, oc_entries s !! q = Some e ∧ (en_held e ≠ HeldDeferred ∨ heavy_capacity s ≠ 0 ∨ q = oc_frontier s)
  | OpCancel q => active_at (oc_entries s) q = false
  | OpReserve q retained => 0 ≤ retained ∧ ∃ e, oc_entries s !! q = Some e ∧ is_ingress (en_held e) = true
  | OpRelease q => ∃ e, oc_entries s !! q = Some e ∧ is_ingress (en_held e) = true ∧ is_active (en_slot e) = false
  | OpDefer q => oc_applying s = Some q ∧ is_Some (oc_block_update_range_end s)
  | _ => True
  end.
Definition step_of (op : Op) s : option (list Z * State) :=
  match perform op s with Some (Ok items, s') => Some (items, s') | Some (Err _, s') => Some ([], s') | None => None end.
Inductive reaches fp (first : Z) : list Z → State → Prop :=
  | reaches_new : reaches fp first [] (ordered_new first)
  | reaches_step log s op items s' : reaches fp first log s → allowed fp s op → step_of op s = Some (items, s') → reaches fp first (log ++ items) s'.

(** ** What runs keep *)

(** Footprints are those of [fp]; an unfinished event conflicts with nothing later that has started. *)
Record settled fp s : Prop := {
  se_agreed q e : oc_entries s !! q = Some e → same_lanes (en_footprint e) (fp q);
  se_fenced r a b : r ∈ fences s → within a r → b < r.1 → ¬ finished_seq s b → conflicts false (fp b) (fp a) = false;
  se_finished a b : finished_seq s a → b < a → ¬ finished_seq s b → conflicts false (fp b) (fp a) = false;
}.
Definition logged log s : Prop := ∀ x, x ∈ log → finished_seq s x ∨ (x, x) ∈ fences s.
Definition keeps_order fp x y : Prop := y < x → conflicts false (fp y) (fp x) = false.

Lemma conflicts_weaken couple f g : conflicts couple f g = false → conflicts false f g = false.
Proof.
  unfold conflicts. cbn [andb]. rewrite !orb_false_r, !orb_false_iff, !andb_false_iff, !orb_false_iff. destruct (fp_retention f), (fp_retention g); simpl; try tauto; intuition congruence.
Qed.
Lemma settled_moves fp new s s' : (∀ q f, new = Some (q, f) → same_lanes f (fp q)) → settled fp s → moves new s s' → settled fp s'.
Proof.
  intros Hnew [Hag Hfe Hfi] [Mf Md Mk Mb Me]. split.
  - intros q e' He'. destruct (Me q e' He') as [(e & He & Hl)|(f & Hn & Hl)]; unfold same_lanes in *; rewrite Hl; [by apply Hag|by apply Hnew].
  - intros r a b Hr Ha Hb Hun. apply (Hfe r); auto.
  - intros a b Ha Hb Hun. destruct (Md a Ha) as [Ha'|(r & Hr & Hin & Hall)]; [apply Hfi; auto|]. apply (Hfe r); [done|done| |auto].
    apply Z.nle_gt. intros Hge. apply Hun, Hall. destruct Hin. split; lia.
Qed.
Lemma settled_starts fp couple a b s s' : settled fp s → starts couple a b s s' → settled fp s'.
Proof.
  intros [Hag Hfe Hfi] [Hok Sf Sfi Se Su]. split.
  - intros q e' (e & He & ->)%Se. by apply Hag.
  - intros r x y. rewrite Sf, Sfi. intros [->|Hr]%elem_of_cons Hx Hy Hun; [|by apply (Hfe r)]. destruct (Su x Hx) as (e & He & Hu).
    destruct (Hu y Hy Hun) as (e' & He' & Hc%conflicts_weaken). by rewrite (conflicts_same false _ _ _ _ (Hag y e' He') (Hag x e He)) in Hc.
  - intros x y. rewrite !Sfi. apply Hfi.
Qed.
Lemma fence_unfinished s r q : ordered_ok s → r ∈ fences s → within q r → ¬ finished_seq s q.
Proof.
  intros Hok Hr Hq. pose proof (oo_active _ Hok q) as Ha. destruct (active_at (oc_entries s) q) eqn:Hact; [|by apply (proj1 (cover_zero q _)) with (r := r) in Ha].
  apply active_entry in Hact as (e & He & _). by apply (key_unfinished s q e).
Qed.
(** Nothing in the log conflicts with a smaller sequence that is not finished. *)
Lemma logged_later fp log s x y : settled fp s → logged log s → x ∈ log → ¬ finished_seq s y → keeps_order fp x y.
Proof.
  intros Hs Hl Hx Hun Hlt. destruct (Hl x Hx) as [Hf|Hr]; [by apply (se_finished _ _ Hs)|]. by apply (se_fenced _ _ Hs (x, x)).
Qed.
Lemma logged_moves new log s s' : moves new s s' → logged log s → logged log s'.
Proof.
  intros Hm Hl x Hx. destruct (Hl x Hx) as [Hf|Hr]; [left; by apply (mv_finished _ _ _ Hm)|]. destruct (mv_kept _ _ _ Hm _ Hr) as [?|Hd]; [by right|left; by apply Hd].
Qed.
Lemma logged_starts couple a b log s s' : starts couple a b s s' → logged log s → logged log s'.
Proof. intros Hst Hl x Hx. rewrite (st_finished _ _ _ _ _ Hst), (st_fences _ _ _ _ _ Hst). destruct (Hl x Hx); [by left|right; by right]. Qed.

Record run_ok fp log s : Prop := {
  rn_ok : ordered_ok s;
  rn_settled : settled fp s;
  rn_logged : logged log s;
  rn_order : StronglySorted (keeps_order fp) log;
}.
Lemma run_silent fp new log s s' : (∀ q f, new = Some (q, f) → same_lanes f (fp q)) → run_ok fp log s → fine new s s' → run_ok fp (log ++ []) s'.
Proof.
  intros Hnew [Hok Hs Hl Ho] [Hok' Hm]. rewrite app_nil_r. split; [done|by apply (settled_moves fp new s)|by apply (logged_moves new _ s)|done].
Qed.
Lemma ewp_silently {A} (m : Oc A) fp new log s : (∀ q f, new = Some (q, f) → same_lanes f (fp q)) → run_ok fp log s →
  ewp m s (λ _ s', fine new s s') (λ _ s', s' = s) → ewp (silently m) s (λ items s', run_ok fp (log ++ items) s') (λ _ s', run_ok fp log s').
Proof.
  intros Hnew Hr Hm. unfold silently. apply ewp_bind. eapply ewp_mono; [exact Hm| |by intros ? ? ->]. intros x s' Hf. apply ewp_ret. by apply (run_silent fp new _ s).
Qed.
(** Sequences that become part of the log, none of them finished before. *)
Lemma run_extend fp log items s : run_ok fp log s → (∀ y, y ∈ items → ¬ finished_seq s y) → StronglySorted (λ x y, x ≤ y) items → StronglySorted (keeps_order fp) (log ++ items).
Proof.
  intros [Hok Hs Hl Ho] Hun Hsort. apply StronglySorted_app. split; [|split; [done|]].
  - intros x y Hx Hy. apply (logged_later fp log s); auto.
  - clear -Hsort. induction Hsort as [|x l _ IH Hx]; constructor; [done|]. eapply Forall_impl; [exact Hx|]. intros y Hxy Hlt. simpl in Hxy. lia.
Qed.
Lemma seqZ_sorted a n : StronglySorted (λ x y, x ≤ y) (seqZ a n).
Proof.
  unfold seqZ. generalize 0%nat as i, (Z.to_nat n) as k. intros i k. revert i. induction k as [|k IH]; intros i; [constructor|]. constructor; [apply IH|].
  apply Forall_forall. intros x (j & -> & Hj%elem_of_seq)%list_elem_of_fmap. lia.
Qed.
(** A range whose end hands its updates over. *)
Lemma run_range fp log a b s s' : run_ok fp log s → (a, b) ∈ fences s → fine None s s' → (∀ x, finished_seq s' x ↔ finished_seq s x ∨ a ≤ x ≤ b) → run_ok fp (log ++ range_items a b) s'.
Proof.
  intros Hr Hin [Hok' Hm] Hfin. pose proof Hr as [Hok Hs Hl Ho]. split; [done|by apply (settled_moves fp None s)| |].
  - intros x [Hx|Hx]%elem_of_app; [by apply (logged_moves None log s s' Hm Hl)|]. left. apply Hfin. right. apply elem_of_seqZ in Hx. lia.
  - apply (run_extend fp log _ s); [done| |apply seqZ_sorted]. intros y Hy. apply elem_of_seqZ in Hy. apply (fence_unfinished s (a, b)); [done|done|]. split; simpl; lia.
Qed.
(** An event handed over while its own fence stands. *)
Lemma run_now fp log items s : run_ok fp log s → (∀ x, x ∈ items → (x, x) ∈ fences s) → (length items ≤ 1)%nat → run_ok fp (log ++ items) s.
Proof.
  intros Hr Hin Hlen. pose proof Hr as [Hok Hs Hl Ho]. split; [done|done| |].
  - intros x [Hx|Hx]%elem_of_app; [by apply Hl|right; by apply Hin].
  - apply (run_extend fp log _ s); [done| |destruct items as [|x [|]]; [constructor|repeat constructor|simpl in Hlen; lia]].
    intros y Hy. apply (fence_unfinished s (y, y)); [done|by apply Hin|]. split; simpl; lia.
Qed.
Lemma now_length (step : @CommitStep Content) : (length (applied_now step) ≤ 1)%nat.
Proof. destruct step; simpl; lia. Qed.
Lemma run_next fp log budget s r s' : run_ok fp log s → next_result budget s r s' → run_ok fp (log ++ match r with Some step => applied_now step | None => [] end) s'.
Proof.
  intros Hr. pose proof Hr as [Hok Hs Hl Ho]. destruct r as [step|]; [|intros [Hf _]; by apply (run_silent fp None _ s)].
  intros [_ [(p & Hp & (Hnow & Ha & _ & Hfe & Hf) & _)|(_ & a & b & Hst & Hnow & _)]].
  - apply run_now; [|intros x|apply now_length].
    + rewrite <-(app_nil_r log). by apply (run_silent fp None _ s).
    + rewrite Hnow, Hfe. simpl. intros ->%list_elem_of_singleton. unfold fences, pending_sequence. rewrite Hp. by left.
  - apply run_now; [|intros x Hx|apply now_length].
    + split; [apply Hst|by eapply settled_starts|by eapply logged_starts|done].
    + destruct (hands_now _ _ _ _ _ Hnow Hx) as [-> ->]. rewrite (st_fences _ _ _ _ _ Hst). by left.
Qed.

Lemma ewp_perform fp log op s : run_ok fp log s → allowed fp s op → ewp (perform op) s (λ items s', run_ok fp (log ++ items) s') (λ _ s', run_ok fp log s').
Proof.
  intros Hr Hal. pose proof (rn_ok _ _ _ Hr) as Hok.
  assert (Hsome : ∀ q f, same_lanes f (fp q) → ∀ q' f', Some (q, f) = Some (q', f') → same_lanes f' (fp q')) by (intros q f Hl q' f' [= <- <-]; done).
  assert (Hnone : ∀ q f, None = Some (q, f) → same_lanes f (fp q)) by done. destruct op as [| | | | | | | | |budget|q|q|q ev| |]; simpl in *.
  - destruct Hal as (? & ? & Hl). eapply ewp_silently; [by apply Hsome|done|]. by apply ewp_admit_event.
  - destruct Hal as (? & ? & Hl). eapply ewp_silently; [by apply Hsome|done|]. by apply ewp_admit_deferred.
  - destruct Hal as (e & He & Hc). apply (ewp_silently _ _ None); [done|done|]. by apply (ewp_promote_deferred _ e).
  - apply (ewp_silently _ _ None); [done|done|]. by apply ewp_insert_ready.
  - apply (ewp_silently _ _ None); [done|done|]. by apply ewp_normalize.
  - apply (ewp_silently _ _ None); [done|done|]. by apply ewp_cancel.
  - destruct Hal as (? & ? & ? & Hl). eapply ewp_silently; [by apply Hsome|done|]. by apply ewp_retain.
  - destruct Hal as (? & e & He & Hh). destruct (en_held e) as [| | |lr] eqn:Hheld; try done. apply (ewp_silently _ _ None); [done|done|]. by apply (ewp_reserve _ e lr).
  - destruct Hal as (e & He & Hh & Hact). apply (ewp_silently _ _ None); [done|done|]. by apply (ewp_release_ingress _ e).
  - apply ewp_bind. eapply ewp_mono; [by apply ewp_next| |by intros ? ? H; apply H]. intros r s' Hn. apply ewp_ret. by apply (run_next fp log budget s).
  - ewp_steps. eapply ewp_mono; [apply (ewp_finish_commit q s (λ _ _, False)); done| |done]. intros r s' [Hf Hfin]. ewp_steps. unfold id.
    destruct (oc_block_update_range_end s) as [b|] eqn:Hb; [|by apply (run_silent fp None _ s)]. destruct r; [|by apply (run_silent fp None _ s)].
    unfold step_end in Hfin. rewrite Hb in Hfin. destruct Hfin as [Hin Hfin]; [done|]. by apply (run_range fp log q b s).
  - destruct Hal as [Ha [b Hb]]. apply (ewp_silently _ _ None); [done|done|]. by apply (ewp_defer _ b).
  - ewp_steps. eapply ewp_mono; [by apply ewp_complete_decode| |by intros ? ? ->]. intros r s' [Hf Hfin]. ewp_steps. unfold id.
    destruct r as [|ev']; [by apply (run_silent fp None _ s)|]. destruct Hfin as (b & Hb & Hfin). rewrite Hb. apply (run_range fp log q b s); [done| |done|done].
    unfold fences. rewrite Hb. apply elem_of_app. right. by left.
  - apply (ewp_silently _ _ None); [done|done|]. by apply ewp_observe.
  - apply (ewp_silently _ _ None); [done|done|]. by apply ewp_announce.
Qed.
Lemma step_ok fp log op s : run_ok fp log s → allowed fp s op → ∃ items s', step_of op s = Some (items, s') ∧ run_ok fp (log ++ items) s'.
Proof.
  intros Hr Hal. pose proof (ewp_perform fp log op s Hr Hal) as H. unfold ewp in H. unfold step_of. destruct (perform op s) as [[[items|err] s']|]; [|..|done].
  - by exists items, s'.
  - exists [], s'. by rewrite app_nil_r.
Qed.
Lemma reaches_ok fp first log s : 1 ≤ first ≤ USIZE_MAX → reaches fp first log s → run_ok fp log s.
Proof.
  intros Hf Hr. induction Hr as [|log s op items s' Hr IH Hal Hstep].
  - split; [by apply ordered_new_ok| |intros x Hx; by apply elem_of_nil in Hx|constructor]. split; simpl.
    + done.
    + intros r a b Hr. by apply elem_of_nil in Hr.
    + intros a b [Ha|(x & y & Hx & _)] Hlt Hun; [|done]. simpl in Ha. destruct Hun. left. simpl. lia.
  - destruct (step_ok fp log op s IH Hal) as (items' & s2 & Hstep' & Hr'). rewrite Hstep in Hstep'. by injection Hstep' as <- <-.
Qed.

(** ** Playing a list of calls *)

Fixpoint play (ops : list Op) s log : option (list Z * State) :=
  match ops with
  | [] => Some (log, s)
  | op :: ops => match step_of op s with Some (items, s') => play ops s' (log ++ items) | None => None end
  end.
Fixpoint all_allowed fp (ops : list Op) s : Prop :=
  match ops with
  | [] => True
  | op :: ops => allowed fp s op ∧ match step_of op s with Some (_, s') => all_allowed fp ops s' | None => True end
  end.
Lemma play_reaches fp first ops log s log' s' : reaches fp first log s → all_allowed fp ops s → play ops s log = Some (log', s') → reaches fp first log' s'.
Proof.
  revert log s. induction ops as [|op ops IH]; intros log s Hr Hal Hp; simpl in *; [by injection Hp as <- <-|].
  destruct Hal as [Ha Hal]. destruct (step_of op s) as [[items s2]|] eqn:Hstep; [|done]. by apply (IH (log ++ items) s2); [eapply reaches_step|..].
Qed.


(** ** The committed frontier *)

(** Whether a frontier that lets [passes] through moves over [q]. *)
Definition passed s (passes : Footprint → bool) q : Prop :=
  finished_seq s q ∨ ∃ e, oc_entries s !! q = Some e ∧ (reads_committed s q e || passes (en_footprint e)) = true.
Lemma frontier_from_spec s passes before rest committed : ordered_ok s → ordered (oc_entries s) = before ++ rest → oc_frontier s - 1 ≤ committed < USIZE_MAX →
  (∀ q, q ≤ committed → passed s passes q) → (∀ q e, (q, e) ∈ before → q ≤ committed) → (∀ q e, (q, e) ∈ rest → committed < q) →
  let c := frontier_where_from s passes committed rest in (∀ q, q ≤ c → passed s passes q) ∧ ¬ passed s passes (c + 1).
Proof.
  intros Hok. revert before committed. induction rest as [|[q e] rest IH]; intros before committed Hsplit Hc Hall Hlo Hhi; simpl.
  - pose proof (oo_frontier _ Hok). replace (sat_add committed 1) with (committed + 1) by (unfold sat_add; lia).
    destruct (finished_through_spec s (committed + 1) (oo_runs _ Hok)) as (Hge & Hin & Hopen & _); [lia|]. set (t := finished_through s (committed + 1)) in *. split.
    + intros x Hx. destruct (decide (x ≤ committed)); [by apply Hall|]. left. right. apply Hin. lia.
    + intros [[?|?]|(e & He & _)]; [lia|done|]. apply elem_of_ordered in He. rewrite Hsplit, app_nil_r in He. apply Hlo in He. lia.
  - assert (Hq : oc_entries s !! q = Some e) by (apply elem_of_ordered; rewrite Hsplit; set_solver). destruct (oo_keys _ Hok q e Hq) as [Hk _].
    assert (committed < q) by (apply (Hhi q e); by left). replace (sat_add committed 1) with (committed + 1) by (unfold sat_add; lia).
    destruct (through_before_spec s (committed + 1) q e Hok) as (Ht & Hin & Hopen); [lia|done|]. set (t := finished_through_before s (committed + 1) q) in *. clearbody t.
    replace (sat_add t 1) with (t + 1) by (unfold sat_add; lia).
    assert (Hrest : ∀ x e', (x, e') ∈ rest → q < x).
    { pose proof (ordered_strict (oc_entries s)) as Hs. rewrite Hsplit in Hs. intros x e' Hx. apply StronglySorted_app_1_r, StronglySorted_inv in Hs as [_ Hs].
      rewrite Forall_forall in Hs. by apply (Hs (x, e')). }
    assert (Hthrough : ∀ x, x ≤ t → passed s passes x) by (intros x Hx; destruct (decide (x ≤ committed)); [by apply Hall|left; apply Hin; lia]).
    destruct (Z.eqb_spec q (t + 1)) as [->|Hgap]; cbn [negb orb].
    + destruct (reads_committed s (t + 1) e || passes (en_footprint e)) eqn:Hp; cbn [negb].
      * apply (IH (before ++ [(t + 1, e)])); [by rewrite Hsplit, <-app_assoc|lia| | |].
        { intros x Hx. destruct (decide (x = t + 1)) as [->|]; [right; by exists e|]. apply Hthrough. lia. }
        { intros x e' [Hx%Hlo|[= -> ->]%list_elem_of_singleton]%elem_of_app; lia. }
        { intros x e' Hx. by apply (Hrest x e'). }
      * split; [done|]. intros [Hf|(e' & He' & Hp')]; [by apply (key_unfinished s (t + 1) e)|]. replace e' with e in Hp' by congruence. congruence.
    + split; [done|]. intros [Hf|(e' & He' & _)]; [destruct Hopen; [lia|done]|]. apply elem_of_ordered in He'. rewrite Hsplit in He'.
      apply elem_of_app in He' as [He'|[[= ? ?]|He']%elem_of_cons]; [apply Hlo in He'; lia|lia|apply Hrest in He'; lia].
Qed.
Lemma frontier_spec s passes : ordered_ok s → let c := frontier_where s passes in (∀ q, q ≤ c → passed s passes q) ∧ ¬ passed s passes (c + 1).
Proof.
  intros Hok. unfold frontier_where. rewrite entries_all by done. pose proof (oo_frontier _ Hok). replace (sat_sub (oc_frontier s) 1) with (oc_frontier s - 1) by (unfold sat_sub; lia).
  apply (frontier_from_spec s passes []); [done|done|lia| | |].
  - intros q Hq. left. left. lia.
  - intros q e Hq. by apply elem_of_nil in Hq.
  - intros q e Hq%elem_of_ordered. destruct (oo_keys _ Hok q e Hq). lia.
Qed.

(** ** Properties *)

(** C21: Ordered commits never panic and keep their bounds: after any calls that keep the callers' contract, every further
    such call returns, the counters account for the entries one by one, light events and reservations stay within 64,
    heavy events within 32 and one more for the frontier, deferred ones within 32, and no admitted sequence reads as finished. *)
Theorem ordered_runs fp first log s op : 1 ≤ first ≤ USIZE_MAX → reaches fp first log s → allowed fp s op →
  is_Some (step_of op s) ∧ oc_unfinished s = Z.of_nat (size (oc_entries s)) ∧ accounting_holds s = true ∧
  oc_light s + oc_ingress_light s ≤ MAX_ADMITTED_WORLD_EVENTS ∧ oc_heavy s ≤ MAX_ADMITTED_HEAVY_EVENTS + 1 ∧
  (oc_heavy s = MAX_ADMITTED_HEAVY_EVENTS + 1 → ∃ e, oc_entries s !! oc_frontier s = Some e ∧ en_held e = HeldHeavy) ∧
  oc_deferred s ≤ MAX_DEFERRED_WORLD_EVENTS ∧ ∀ q e, oc_entries s !! q = Some e → is_finished s q = false.
Proof.
  intros Hf Hr Hal. pose proof (reaches_ok _ _ _ _ Hf Hr) as Hrun. pose proof (rn_ok _ _ _ Hrun) as Hok. destruct (oo_bounds _ Hok) as [Hl Hh Hd _].
  destruct (step_ok fp log op s Hrun Hal) as (items & s' & Hstep & _). split; [by exists (items, s')|]. split; [apply Hok|]. split; [apply counts_hold, Hok|].
  split; [done|]. assert (Hw : ∀ e, weigh held_heavy e ≤ 1) by (intros e; unfold weigh; destruct (held_heavy _); lia). split; [|split; [|split; [done|]]].
  - destruct (oc_entries s !! oc_frontier s) as [e|]; [specialize (Hw e)|]; lia.
  - intros Heq. rewrite Heq in Hh. destruct (oc_entries s !! oc_frontier s) as [e|]; [|lia]. exists e. split; [done|]. unfold weigh, held_heavy in Hh. case_bool_decide; [done|lia].
  - intros q e He. apply not_true_iff_false. rewrite is_finished_spec by apply Hok. by apply (key_unfinished s q e).
Qed.

(** C19: Commit order is as good as wire order: effects may be handed over out of sequence, but when those of sequences that do
    not conflict commute, applying them in commit order gives what applying them in wire order gives. The wire order sorts
    them by sequence and keeps the effects of one sequence in their order. *)
Theorem commit_order_is_wire_order {W} fp first log s (effects : list (Z * (W → W))) w : 1 ≤ first ≤ USIZE_MAX → reaches fp first log s → effects.*1 = log →
  (∀ earlier later, earlier ∈ effects → later ∈ effects → earlier.1 < later.1 → conflicts false (fp earlier.1) (fp later.1) = false → commute later.2 earlier.2) →
  apply_all effects w = apply_all (wire_sort effects) w ∧ StronglySorted (λ u v, u.1 ≤ v.1) (wire_sort effects) ∧
  ∀ q, filter (λ u, u.1 = q) (wire_sort effects) = filter (λ u, u.1 = q) effects.
Proof.
  intros Hf Hr Heq Hcomm. pose proof (rn_order _ _ _ (reaches_ok _ _ _ _ Hf Hr)) as Ho. rewrite <-Heq in Ho. split; [|split; [apply wire_sort_sorted|intros; apply wire_sort_stable]].
  symmetry. apply apply_sort. clear Heq Hr. assert (Hall : ∀ u, u ∈ effects → u ∈ effects) by done. revert Hall Ho.
  generalize effects at 1 3 4 as l. induction l as [|u l IH]; intros Hall Ho; [constructor|]. apply StronglySorted_inv in Ho as [Ho Hu]. constructor.
  - apply IH; [|done]. intros v Hv. apply Hall. by right.
  - rewrite Forall_forall in Hu. apply Forall_forall. intros v Hv Hlt. apply (Hcomm v u); [apply Hall; by right|apply Hall; by left|done|].
    apply (Hu v.1); [by apply list_elem_of_fmap_2|done].
Qed.

(** C20: The choice of the next step is exact: nothing while a step is in progress; otherwise, if the budget lets
    heavy chunk data through, the next piece of the partial batch; else the least ready event that the budget allows, whose
    kind is free and which no unfinished earlier event conflicts with, unadmitted ones included. Chunk data that the budget
    withholds goes on only when heavy work is allowed, nothing else may commit and a ready event waits for such chunk data
    alone; then the partial batch continues if it, or a batch waiting for it, is unblocked, or the least event that chunk
    data lets through begins. A new step covers a range of which nothing conflicts with an unfinished event before it, and hands over exactly what the
    events of the range hold, in wire order; without a step nothing may commit. *)
Theorem next_commit_exact fp first log s budget : 1 ≤ first ≤ USIZE_MAX → reaches fp first log s →
  ∃ r s', next_commit_within budget s = Some (Ok r, s') ∧ next_result budget s r s' ∧ (oc_applying s ≠ None → r = None).
Proof.
  intros Hf Hr. pose proof (rn_ok _ _ _ (reaches_ok _ _ _ _ Hf Hr)) as Hok. pose proof (ewp_next budget s (λ _ _, False) Hok) as H. unfold ewp in H.
  destruct (next_commit_within budget s) as [[[r|err] s']|]; [|done..]. exists r, s'. split; [done|]. split; [done|]. intros Ha. destruct r as [step|]; [|done].
  by destruct H as [Hn _].
Qed.

(** C23: The frontier never starves: when no step is in progress and none is offered, the frontier's event still waits to be
    prepared, is part of the block batch being decoded, or is a block batch that waits for that one. *)
Theorem frontier_progress fp first log s s' e : 1 ≤ first ≤ USIZE_MAX → reaches fp first log s → oc_applying s = None → next_commit s = Some (Ok None, s') →
  oc_entries s !! oc_frontier s = Some e →
  en_slot e = Waiting ∨ ∃ a b, oc_blocking_block_updates s = Some (a, b) ∧
    (en_slot e = Active ∧ a ≤ oc_frontier s ≤ b ∨ ∃ ev, en_slot e = Ready ev ∧ kind_is_free s ev = false).
Proof.
  intros Hf Hr Ha Hn He. pose proof (rn_ok _ _ _ (reaches_ok _ _ _ _ Hf Hr)) as Hok. pose proof (ewp_next UNLIMITED s (λ _ _, False) Hok) as H.
  unfold ewp in H. unfold next_commit in Hn. rewrite Hn in H. destruct H as [_ H]. destruct (H Ha) as (Hno & Hpend & _). specialize (Hpend eq_refl).
  destruct (en_slot e) as [|ev|] eqn:Hs; [by left|right..].
  - assert (Hfree : kind_is_free s ev = false).
    { apply not_true_iff_false. intros Hfree. apply (Hno (oc_frontier s)). exists e, ev. do 4 (split; [done|]). intros y Hy Hun. destruct Hun. by left. }
    assert (∃ r, oc_blocking_block_updates s = Some r) as [[a b] Hb].
    { unfold kind_is_free in Hfree. rewrite Hpend in Hfree. destruct (oc_blocking_block_updates s) as [r|]; [by exists r|]. by repeat case_match. }
    exists a, b. split; [done|]. right. by exists ev.
  - pose proof (oo_active _ Hok (oc_frontier s)) as Hc. unfold active_at in Hc. rewrite He, Hs in Hc. unfold fences, pending_sequence in Hc. rewrite Hpend, Ha in Hc. simpl in Hc.
    destruct (oc_blocking_block_updates s) as [[a b]|]; [|done]. exists a, b. split; [done|]. left. split; [done|]. simpl in Hc. rewrite cover_cons in Hc. by case_decide.
Qed.

(** C22: Withholding chunk data starves nothing: under a budget that allows heavy work but withholds chunk data, when a ready
    event waits for withheld chunk data alone, which can progress, a step is offered. A budget without heavy work is outside
    this promise: it offers no heavy event at all. *)
Theorem withheld_chunk_data_progress fp first log s budget W q : 1 ≤ first ≤ USIZE_MAX → reaches fp first log s → oc_applying s = None →
  cb_heavy budget = true → cb_chunk_data budget = false → withheld s (cb_couple_position budget) W → waits_behind s (cb_couple_position budget) W q →
  ∃ step s', next_commit_within budget s = Some (Ok (Some step), s').
Proof.
  intros Hf Hr Ha Hh Hcd HW Hw. pose proof (rn_ok _ _ _ (reaches_ok _ _ _ _ Hf Hr)) as Hok. pose proof (ewp_next budget s (λ _ _, False) Hok) as H. unfold ewp in H.
  destruct (next_commit_within budget s) as [[[[step|]|err] s']|]; [by exists step, s'| |done..]. destruct H as [_ H]. destruct (H Ha) as (_ & _ & Hno). by destruct (Hno Hh Hcd W q).
Qed.

(** The frontier seen by observers is exact: it is the last sequence such that it and all before it have finished, are the
    event being applied, or are admitted events that the observer lets pass. *)
Theorem frontier_where_exact fp first log s passes : 1 ≤ first ≤ USIZE_MAX → reaches fp first log s →
  (∀ q, q ≤ frontier_where s passes ↔ ∀ x, x ≤ q → passed s passes x).
Proof.
  intros Hf Hr q. pose proof (rn_ok _ _ _ (reaches_ok _ _ _ _ Hf Hr)) as Hok. destruct (frontier_spec s passes Hok) as [Hin Hout]. split.
  - intros Hq x Hx. apply Hin. lia.
  - intros Hall. apply Z.nlt_ge. intros Hlt. apply Hout, Hall. lia.
Qed.
End runs.

(** The summary of earlier events blocks exactly: an event is blocked by the summary of some events when it conflicts with
    one of them, and by nothing when there are none. *)
Theorem blocks_exact couple earlier later :
  blocks couple (foldl (earlier_add couple) earlier_default earlier) later = existsb (λ f, conflicts couple f later) earlier.
Proof. apply blocks_summary, summarises_fold. Qed.

(** A footprint's columns are the set of the columns it is given: distinct and sorted, whichever variant stores them. *)
Theorem columns_exact columns : columns_slice (columns_from_iter columns) = sorted_chunks (list_to_set columns).
Proof. apply columns_slice_eq. Qed.

(** ** Runs at concrete inputs *)

Definition demo_terrain : Footprint := footprint_terrain [mk_chunk_key 0 0 0] true.
(** Sequence 1 is terrain, 2 a user-interface event, 3 an edit of the same column. *)
Definition demo_fp (q : Z) : Footprint := if q =? 1 then demo_terrain else if q =? 2 then footprint_session C_UI else with_mutation (footprint_terrain [mk_chunk_key 0 0 0] false).
Definition demo_ops : list (@Op unit) :=
  [OpAdmit 1 (demo_fp 1) 0; OpAdmit 2 (demo_fp 2) 0; OpReady 2 CommitOnly; OpNext UNLIMITED; OpFinish 2; OpAdmit 3 (demo_fp 3) 0; OpReady 3 CommitOnly].
Definition demo_state : OrderedCommitState := match play demo_ops (ordered_new 1) [] with Some (_, s) => s | None => ordered_new 1 end.
(** The user-interface event has committed first; the edit waits for the terrain. *)
Lemma demo_reaches : reaches demo_fp 1 [2] demo_state.
Proof.
  apply (play_reaches demo_fp 1 demo_ops [] (ordered_new 1)); [constructor| |by vm_compute].
  repeat (split; [by vm_compute|]; vm_compute). exact I.
Qed.
Definition demo_more : list (@Op unit) := [OpReady 1 CommitOnly; OpNext UNLIMITED; OpFinish 1; OpNext UNLIMITED; OpFinish 3].
Definition demo_end : OrderedCommitState := match play demo_more demo_state [2] with Some (_, s) => s | None => ordered_new 1 end.
Lemma demo_end_reaches : reaches demo_fp 1 [2; 1; 3] demo_end.
Proof.
  apply (play_reaches demo_fp 1 demo_more [2] demo_state); [apply demo_reaches| |by vm_compute].
  repeat (split; [by vm_compute|]; vm_compute). exact I.
Qed.
(** The terrain event is ready too. *)
Definition demo_ready : OrderedCommitState := match play [OpReady 1 CommitOnly] demo_state [2] with Some (_, s) => s | None => ordered_new 1 end.
Lemma demo_ready_reaches : reaches demo_fp 1 [2] demo_ready.
Proof. apply (play_reaches demo_fp 1 [OpReady 1 CommitOnly] [2] demo_state); [apply demo_reaches|by vm_compute|by vm_compute]. Qed.

Lemma ordered_runs_witness : is_Some (step_of (OpReady 1 CommitOnly) demo_state).
Proof. apply (ordered_runs demo_fp 1 [2] demo_state (OpReady 1 CommitOnly)); [done|apply demo_reaches|exact I]. Defined.

(** Terrain and the edit act on the first number, the user interface on the second. *)
Definition demo_effects : list (Z * (Z * Z → Z * Z)) := [(2, λ w, (w.1, w.2 + 2)); (1, λ w, (2 * w.1 + 1, w.2)); (3, λ w, (3 * w.1, w.2))].
Lemma commit_order_is_wire_order_witness : apply_all demo_effects (5, 5) = apply_all (wire_sort demo_effects) (5, 5).
Proof.
  apply (commit_order_is_wire_order demo_fp 1 [2; 1; 3] demo_end demo_effects (5, 5)); [done|apply demo_end_reaches|done|].
  intros earlier later [->|[->|[->|[]%elem_of_nil]%elem_of_cons]%elem_of_cons]%elem_of_cons [->|[->|[->|[]%elem_of_nil]%elem_of_cons]%elem_of_cons]%elem_of_cons;
    simpl; intros Hlt Hc w; try lia; try done.
Defined.

Lemma next_commit_exact_witness : ∃ r s', next_commit_within UNLIMITED demo_ready = Some (Ok r, s') ∧ next_result UNLIMITED demo_ready r s' ∧ (oc_applying demo_ready ≠ None → r = None).
Proof. apply (next_commit_exact demo_fp 1 [2] demo_ready UNLIMITED); [done|apply demo_ready_reaches]. Defined.

Lemma frontier_progress_witness : ∃ s', next_commit demo_state = Some (Ok None, s') ∧ let e := mk_entry demo_terrain HeldHeavy Waiting in
  en_slot e = Waiting ∨ ∃ a b, oc_blocking_block_updates demo_state = Some (a, b) ∧
    (en_slot e = Active ∧ a ≤ oc_frontier demo_state ≤ b ∨ ∃ ev, en_slot e = Ready ev ∧ kind_is_free demo_state ev = false).
Proof.
  exists (match next_commit demo_state with Some (_, s) => s | None => demo_state end). split; [by vm_compute|].
  apply (frontier_progress demo_fp 1 [2] demo_state (match next_commit demo_state with Some (_, s) => s | None => demo_state end)); [done|apply demo_reaches|by vm_compute..].
Defined.

Definition demo_budget : CommitBudget := mk_budget true false false.
Lemma withheld_chunk_data_progress_witness : ∃ step s', next_commit_within demo_budget demo_ready = Some (Ok (Some step), s').
Proof.
  assert (Hlow : ∀ y, y < 3 → ¬ finished_seq demo_ready y → y = 1).
  { intros y Hy Hun. destruct (Z.lt_trichotomy y 1) as [?|[?|?]]; [|done|]; destruct Hun; [by left|]. right. exists 2, 2. split; [by vm_compute|lia]. }
  apply (withheld_chunk_data_progress demo_fp 1 [2] demo_ready demo_budget (λ x, x = 1) 3); [done|apply demo_ready_reaches|by vm_compute|done|done| |].
  - intros x ->. exists (mk_entry demo_terrain HeldHeavy (Ready CommitOnly)). do 3 (split; [by vm_compute|]). intros y Hy Hun. destruct Hun. by left.
  - exists (mk_entry (demo_fp 3) HeldLight (Ready CommitOnly)). do 3 (split; [by vm_compute|]). split.
    + intros y Hy Hun. exists (mk_entry demo_terrain HeldHeavy (Ready CommitOnly)). rewrite (Hlow y Hy Hun). split; [by vm_compute|by left].
    + exists 1, (mk_entry demo_terrain HeldHeavy (Ready CommitOnly)). split; [done|]. split; [lia|]. by vm_compute.
Defined.

Lemma frontier_where_exact_witness : 2 ≤ frontier_where demo_state is_chunk_data ↔ ∀ x, x ≤ 2 → passed demo_state is_chunk_data x.
Proof. apply (frontier_where_exact demo_fp 1 [2] demo_state is_chunk_data); [done|apply demo_reaches]. Defined.

(** ** Two corners *)

(** A state that starts at sequence 0 reads that sequence as finished and refuses it. *)
Lemma sequence_zero_refused f retained : admit_event 0 f retained (@ordered_new unit 0) = Some (Err (DuplicateOrPast 0 0), ordered_new 0).
Proof. done. Qed.
(** Cancelled admissions leave more finished runs than entries. *)
Definition demo_light (_ : Z) : Footprint := footprint_session C_NONE.
Definition demo_cancelled : list (@Op unit) :=
  [OpAdmit 1 (demo_light 1) 0; OpAdmit 2 (demo_light 2) 0; OpAdmit 3 (demo_light 3) 0; OpAdmit 4 (demo_light 4) 0; OpReady 2 CommitOnly; OpReady 4 CommitOnly;
   OpNext UNLIMITED; OpFinish 2; OpNext UNLIMITED; OpFinish 4; OpCancel 1; OpCancel 3].
Lemma runs_outnumber_entries : ∃ log s, reaches demo_light 1 log s ∧ oc_entries s = (∅ : gmap Z (@Entry unit)) ∧ size (oc_finished s) = 2%nat.
Proof.
  exists [2; 4], (match play demo_cancelled (ordered_new 1) [] with Some (_, s) => s | None => ordered_new 1 end). split; [|by vm_compute].
  apply (play_reaches demo_light 1 demo_cancelled [] (ordered_new 1)); [constructor| |by vm_compute]. repeat (split; [by vm_compute|]; vm_compute). exact I.
Qed.
