(* ===== verification/ColumnScan.v ===== *)
(** * Column scans

    [chunk-pipeline/src/stream/column_scan.rs]: the span of a circle on one row, found by bisection, and the iterator over
    the columns of a disk that another disk does not hold. A panic (here an overflow) is [None]. *)
From stdpp Require Import base numbers list gmap sorting.
From S2P Require Import Prelude Bytes Counting Keys.
#[local] Open Scope Z_scope.
#[local] Ltac Zify.zify_post_hook ::= Z.div_mod_to_equations.

(** ** The span of a row *)

Section row.
Context (contains : ChunkKey → bool) (centre : ChunkKey) (x : Z).

Definition on_row (z : Z) : ChunkKey := mk_chunk_key (ck_dimension centre) x z.
(** One turn of the loop of [row_span]: the bounds of the bisection, or its answer. *)
Definition row_turn (s : Z * Z) : (Z * Z) + option Z :=
  let '(low, high) := s in
  if low <? high then
    match checked_i32 (low + (high - low) / 2 + 1) with
    | None => inr None
    | Some middle =>
      match (match checked_add (ck_z centre) middle with Some z => Some z | None => checked_sub (ck_z centre) middle end) with
      | None => inr None
      | Some z => inl (if contains (on_row z) then (middle, high) else (low, middle - 1))
      end
    end
  else inr (Some low).
(** The loop shrinks [high - low]. *)
Definition row_reach (reach : Z) : option Z := run None row_turn (S (Z.to_nat reach)) (0, reach).
Definition row_span (reach : Z) : option (option (Z * Z)) :=
  if negb (contains (on_row (ck_z centre))) then Some None
  else low ← row_reach reach; Some (Some (saturate (ck_z centre - low), saturating_add (ck_z centre) low)).

(** The row of a circle: the columns within some distance of the centre. *)
Definition within (k : Z) : Prop := ∀ z, i32_ok z = true → contains (on_row z) = true ↔ Z.abs (z - ck_z centre) ≤ k.

Lemma row_turn_spec k low high : within k → i32_ok (ck_z centre) = true → high < 2 ^ 31 → 0 ≤ low ≤ k → low < high → k ≤ high →
  ∃ low' high', row_turn (low, high) = inl (low', high') ∧ 0 ≤ low' ≤ k ∧ low' ≤ high' ∧ k ≤ high' ∧ high' ≤ high ∧ high' - low' < high - low.
Proof.
  intros Hk Hc Hhigh Hlow Hlt Hkh. unfold row_turn. destruct (Z.ltb_spec low high); [|lia].
  set (middle := low + (high - low) / 2 + 1). assert (Hm : low < middle ≤ high) by lia. clearbody middle.
  unfold checked_add, checked_sub, checked_i32 in *. unfold i32_ok in *. rewrite !andb_true_iff, Z.leb_le, Z.ltb_lt in *.
  destruct (Z.leb_spec (- 2 ^ 31) middle), (Z.ltb_spec middle (2 ^ 31)); simpl; try lia.
  assert (Hz : ∃ z, Z.abs (z - ck_z centre) = middle ∧ i32_ok z = true ∧
    match (if (- 2 ^ 31 <=? ck_z centre + middle) && (ck_z centre + middle <? 2 ^ 31) then Some (ck_z centre + middle) else None) with
    | Some z => Some z
    | None => if (- 2 ^ 31 <=? ck_z centre - middle) && (ck_z centre - middle <? 2 ^ 31) then Some (ck_z centre - middle) else None
    end = Some z).
  { destruct (Z.leb_spec (- 2 ^ 31) (ck_z centre + middle)), (Z.ltb_spec (ck_z centre + middle) (2 ^ 31)); simpl; try lia.
    - exists (ck_z centre + middle). split; [lia|]. split; [|done]. unfold i32_ok. lia.
    - destruct (Z.leb_spec (- 2 ^ 31) (ck_z centre - middle)), (Z.ltb_spec (ck_z centre - middle) (2 ^ 31)); simpl; try lia.
      exists (ck_z centre - middle). split; [lia|]. split; [|done]. unfold i32_ok. lia. }
  destruct Hz as (z & Habs & Hok & ->). specialize (Hk z Hok). rewrite Habs in Hk. destruct (contains (on_row z)).
  - exists middle, high. split; [done|]. assert (middle ≤ k) by by apply Hk. lia.
  - exists low, (middle - 1). split; [done|]. assert (¬ middle ≤ k) by (intros Hle; by apply Hk in Hle). lia.
Qed.
Lemma row_reach_spec k reach : within k → i32_ok (ck_z centre) = true → reach < 2 ^ 31 → 0 ≤ k ≤ reach → row_reach reach = Some k.
Proof.
  intros Hk Hc Hr Hb. unfold row_reach. assert (Hgen : ∀ fuel low high, 0 ≤ low ≤ k → k ≤ high → high < 2 ^ 31 →
    (Z.to_nat (high - low) < fuel)%nat → run None row_turn fuel (low, high) = Some k).
  { induction fuel as [|fuel IH]; intros low high Hlow Hhigh Hmax Hf; [lia|]. cbn [run]. destruct (decide (low < high)) as [Hlt|Hge].
    - destruct (row_turn_spec k low high) as (low' & high' & -> & ? & ? & ? & ? & ?); try done. apply IH; lia.
    - unfold row_turn. destruct (Z.ltb_spec low high); [lia|]. f_equal. lia. }
  apply Hgen; lia.
Qed.
(** The bisection finds the span of every row of a circle whose columns are those within a distance of its centre,
    whatever the coordinates. *)
Lemma row_span_spec k reach : within k → i32_ok (ck_z centre) = true → reach < 2 ^ 31 → (0 ≤ k → k ≤ reach) →
  ∃ span, row_span reach = Some span ∧ (∀ first last, span = Some (first, last) → i32_ok first = true ∧ i32_ok last = true) ∧
    ∀ z, i32_ok z = true → contains (on_row z) = true ↔ ∃ first last, span = Some (first, last) ∧ first ≤ z ≤ last.
Proof.
  intros Hk Hc Hr Hb. unfold row_span. pose proof (Hk _ Hc) as Hcc. rewrite Z.sub_diag in Hcc. simpl in Hcc.
  destruct (contains (on_row (ck_z centre))) eqn:Hin; simpl.
  - assert (0 ≤ k) by by apply Hcc. rewrite (row_reach_spec k) by (done || lia). simpl. eexists. split; [done|].
    split; [intros ? ? [= <- <-]; unfold saturating_add, saturate, i32_ok; lia|]. intros z Hz. rewrite (Hk z Hz). unfold saturating_add, saturate, i32_ok in *. split.
    + intros Habs. eexists _, _. split; [done|]. lia.
    + intros (first & last & [= <- <-] & Hzb). lia.
  - assert (¬ 0 ≤ k) by (intros H0; by apply Hcc in H0). exists None. split; [done|]. split; [done|].
    intros z Hz. rewrite (Hk z Hz). split; [lia|by intros (? & ? & ? & _)].
Qed.
End row.

(** ** Disks *)

Record Disk := mk_disk { dk_centre : ChunkKey; dk_radius : Z }.
(** [&&] does not evaluate the squares of a delta outside the radius. *)
Definition disk_contains (d : Disk) (c : ChunkKey) : bool :=
  let dx := ck_x c - ck_x (dk_centre d) in
  let dz := ck_z c - ck_z (dk_centre d) in
  let radius := dk_radius d in
  bool_decide (ck_dimension c = ck_dimension (dk_centre d)) && ((Z.abs dx <=? radius) && ((Z.abs dz <=? radius) && (dx * dx + dz * dz <=? radius * radius))).
Definition disk_row (d : Disk) (x : Z) : option (option (Z * Z)) := row_span (disk_contains d) (dk_centre d) x (dk_radius d).

Definition column_ok (c : ChunkKey) : Prop := i32_ok (ck_x c) = true ∧ i32_ok (ck_z c) = true.
Definition disk_ok (d : Disk) : Prop := column_ok (dk_centre d) ∧ i32_ok (dk_radius d) = true.

(** The squares that are evaluated, and their sum, are [i64]s. *)
Lemma disk_squares_fit d c : disk_ok d → column_ok c → let dx := ck_x c - ck_x (dk_centre d) in let dz := ck_z c - ck_z (dk_centre d) in
  - 2 ^ 63 ≤ dx < 2 ^ 63 ∧ - 2 ^ 63 ≤ dz < 2 ^ 63 ∧ (Z.abs dx ≤ dk_radius d → Z.abs dz ≤ dk_radius d → 0 ≤ dx * dx + dz * dz < 2 ^ 63 ∧ 0 ≤ dk_radius d * dk_radius d < 2 ^ 63).
Proof.
  unfold disk_ok, column_ok, i32_ok. intros [[Hx Hz] Hr] [Hcx Hcz]. simpl. rewrite !andb_true_iff, Z.leb_le, Z.ltb_lt in *.
  split; [lia|]. split; [lia|]. intros Hdx Hdz. nia.
Qed.
(** How far the row at [dx] of a circle reaches: less than nothing outside it. *)
Definition chord (radius dx : Z) : Z := if Z.abs dx <=? radius then Z.sqrt (radius * radius - dx * dx) else -1.
Lemma chord_spec radius dx dz : 0 ≤ dz → dz ≤ chord radius dx ↔ Z.abs dx ≤ radius ∧ dz ≤ radius ∧ dx * dx + dz * dz ≤ radius * radius.
Proof.
  intros Hdz. unfold chord. destruct (Z.leb_spec (Z.abs dx) radius) as [Hle|Hgt]; [|lia].
  assert (0 ≤ radius * radius - dx * dx) by nia. rewrite <-Z.sqrt_le_square by lia. split; [|lia].
  intros Hs. split; [done|]. split; [nia|lia].
Qed.
Lemma chord_reach radius dx : 0 ≤ chord radius dx → chord radius dx ≤ radius.
Proof. intros H0. apply (chord_spec radius dx (chord radius dx)) in H0 as Hc. destruct Hc as [Hc _]. specialize (Hc ltac:(lia)). lia. Qed.
Lemma disk_within d x : within (disk_contains d) (dk_centre d) x (chord (dk_radius d) (x - ck_x (dk_centre d))).
Proof.
  intros z _. unfold disk_contains, on_row. simpl. rewrite bool_decide_true by done. rewrite chord_spec by lia. simpl.
  rewrite !andb_true_iff, !Z.leb_le. set (dz := z - ck_z (dk_centre d)). clearbody dz.
  replace (Z.abs dz * Z.abs dz) with (dz * dz) by lia. tauto.
Qed.
Lemma disk_row_spec d x : disk_ok d → ∃ span, disk_row d x = Some span ∧ (∀ first last, span = Some (first, last) → i32_ok first = true ∧ i32_ok last = true) ∧
  ∀ z, i32_ok z = true → disk_contains d (on_row (dk_centre d) x z) = true ↔ ∃ first last, span = Some (first, last) ∧ first ≤ z ≤ last.
Proof.
  intros [[_ Hz] Hr]. destruct (row_span_spec _ _ _ _ (dk_radius d) (disk_within d x)) as (span & Hs & Hspan & Hin); [done| | |by exists span].
  - unfold i32_ok in Hr. lia.
  - intros H0%chord_reach. lia.
Qed.

(** ** The columns that enter *)

Record EnteringColumns := mk_entering { ec_disk : Disk; ec_previous : option Disk; ec_x : Z; ec_z : Z }.
Definition entering_new (disk : Disk) (previous : option Disk) : EnteringColumns :=
  mk_entering disk (old ← previous; if decide (ck_dimension (dk_centre old) = ck_dimension (dk_centre disk)) then Some old else None)
    (saturate (ck_x (dk_centre disk) - dk_radius disk)) (- 2 ^ 31).
(** [as i32] *)
Definition as_i32 (v : Z) : Z := to_signed 32 (to_unsigned 32 v).
(** One turn of the loop of [next]: the next row, or the answer with the iterator it leaves. *)
Definition next_turn (s : EnteringColumns) : EnteringColumns + option (option ChunkKey * EnteringColumns) :=
  let '(mk_entering disk previous x64 z64) := s in
  let next_row := mk_entering disk previous (x64 + 1) (- 2 ^ 31) in
  if x64 <=? saturating_add (ck_x (dk_centre disk)) (dk_radius disk) then
    let x := as_i32 x64 in
    match disk_row disk x with
    | None => inr None
    | Some None => inl next_row
    | Some (Some (first, last)) =>
      let z := Z.max z64 first in
      match (match previous with Some old => disk_row old x | None => Some None end) with
      | None => inr None
      | Some old_row =>
        let z := match old_row with Some (old_first, old_last) => if (old_first <=? z) && (z <=? old_last) then old_last + 1 else z | None => z end in
        if z <=? last then inr (Some (Some (mk_chunk_key (ck_dimension (dk_centre disk)) x (as_i32 z)), mk_entering disk previous x64 (z + 1)))
        else inl next_row
      end
    end
  else inr (Some (None, s)).
(** The loop visits the rows that are left. *)
Definition entering_next (s : EnteringColumns) : option (option ChunkKey * EnteringColumns) :=
  run None next_turn (S (Z.to_nat (saturating_add (ck_x (dk_centre (ec_disk s))) (dk_radius (ec_disk s)) + 1 - ec_x s))) s.
(** [collect], for at most [fuel] calls of [next]. *)
Fixpoint entering_collect (fuel : nat) (s : EnteringColumns) : option (list ChunkKey) :=
  match fuel with
  | 0%nat => None
  | S fuel =>
    '(column, s) ← entering_next s;
    match column with None => Some [] | Some column => columns ← entering_collect fuel s; Some (column :: columns) end
  end.

(** *** The columns, by testing every column of the square around the disk *)

Definition region (d : Disk) (previous : option Disk) (c : ChunkKey) : bool :=
  disk_contains d c && negb (match previous with Some old => disk_contains old c | None => false end).
Definition axis (centre radius : Z) : list Z := seqZ (saturate (centre - radius)) (saturating_add centre radius + 1 - saturate (centre - radius)).
Definition square (d : Disk) : list ChunkKey :=
  x ← axis (ck_x (dk_centre d)) (dk_radius d); mk_chunk_key (ck_dimension (dk_centre d)) x <$> axis (ck_z (dk_centre d)) (dk_radius d).
Definition entering (d : Disk) (previous : option Disk) : list ChunkKey := filter (λ c, region d previous c = true) (square d).

(** Rows in turn, and each row in turn. *)
Definition before (a b : ChunkKey) : Prop := ck_x a < ck_x b ∨ ck_x a = ck_x b ∧ ck_z a < ck_z b.

Lemma elem_of_axis centre radius v : i32_ok centre = true → v ∈ axis centre radius ↔ i32_ok v = true ∧ Z.abs (v - centre) ≤ radius.
Proof. intros Hc. unfold axis, saturating_add, saturate, i32_ok in *. rewrite elem_of_seqZ. lia. Qed.
Lemma elem_of_entering d previous c : disk_ok d → c ∈ entering d previous ↔ column_ok c ∧ region d previous c = true.
Proof.
  intros [[Hx Hz] Hr]. unfold entering, square. rewrite list_elem_of_filter, list_elem_of_bind. split.
  - intros [Hreg (x & Hc & Hix)]. apply list_elem_of_fmap in Hc as (z & -> & Hiz). apply elem_of_axis in Hiz as [Hiz _]; [|done]. apply elem_of_axis in Hix as [Hix _]; [|done]. by split.
  - intros [[Hcx Hcz] Hreg]. split; [done|]. exists (ck_x c). unfold region, disk_contains in Hreg. rewrite !andb_true_iff, bool_decide_eq_true, !Z.leb_le in Hreg.
    split; [|apply elem_of_axis; tauto]. apply list_elem_of_fmap. exists (ck_z c). split; [destruct c; simpl in *; f_equal; tauto|]. apply elem_of_axis; tauto.
Qed.

Lemma entering_sorted d previous : StronglySorted before (entering d previous).
Proof.
  apply sorted_filter. unfold square. pose proof (seqZ_increasing (saturate (ck_x (dk_centre d) - dk_radius d)) (saturating_add (ck_x (dk_centre d)) (dk_radius d) + 1 - saturate (ck_x (dk_centre d) - dk_radius d))) as Hs.
  fold (axis (ck_x (dk_centre d)) (dk_radius d)) in Hs. induction Hs as [|x l Hl IH Hx]; [constructor|]. rewrite bind_cons. apply StronglySorted_app. split; [|split; [|done]].
  - intros a b (z & -> & _)%list_elem_of_fmap (x' & (z' & -> & _)%list_elem_of_fmap & Hx')%list_elem_of_bind. left. simpl. rewrite Forall_forall in Hx. by apply Hx.
  - apply (sorted_fmap Z.lt); [|apply seqZ_increasing]. intros z z' Hz. by right.
Qed.

(** *** What the iterator yields *)

Record scan_ok (s : EnteringColumns) : Prop := {
  so_disk : disk_ok (ec_disk s);
  so_previous old : ec_previous s = Some old → disk_ok old ∧ ck_dimension (dk_centre old) = ck_dimension (dk_centre (ec_disk s));
  so_bounds : - 2 ^ 31 ≤ ec_x s ∧ - 2 ^ 31 ≤ ec_z s;
}.
(** The columns that are left. *)
Definition reached (x z : Z) (c : ChunkKey) : Prop := x < ck_x c ∨ x = ck_x c ∧ z ≤ ck_z c.
#[local] Instance reached_dec x z c : Decision (reached x z c) := ltac:(unfold reached; apply _).
Definition left (s : EnteringColumns) : list ChunkKey := filter (reached (ec_x s) (ec_z s)) (entering (ec_disk s) (ec_previous s)).
Lemma elem_of_left s c : scan_ok s → c ∈ left s ↔ reached (ec_x s) (ec_z s) c ∧ column_ok c ∧ region (ec_disk s) (ec_previous s) c = true.
Proof. intros Hok. unfold left. by rewrite list_elem_of_filter, elem_of_entering by apply Hok. Qed.
Lemma left_sorted s : StronglySorted before (left s).
Proof. apply sorted_filter, entering_sorted. Qed.
Lemma before_asym a b : before a b → ¬ before b a.
Proof. unfold before. lia. Qed.
Lemma left_eq s l : scan_ok s → StronglySorted before l → (∀ c, c ∈ l ↔ reached (ec_x s) (ec_z s) c ∧ column_ok c ∧ region (ec_disk s) (ec_previous s) c = true) → left s = l.
Proof. intros Hok Hl Hin. apply (strict_sorted_ext before); [apply before_asym|apply left_sorted|done|]. intros c. by rewrite elem_of_left, Hin. Qed.

Lemma as_i32_id v : i32_ok v = true → as_i32 v = v.
Proof. unfold i32_ok, as_i32. intros Hv. apply to_signed_unsigned; lia. Qed.
Lemma region_columns d previous c : region d previous c = true → ck_dimension c = ck_dimension (dk_centre d).
Proof. unfold region, disk_contains. rewrite !andb_true_iff, bool_decide_eq_true. tauto. Qed.
Lemma on_row_eq c d : ck_dimension c = ck_dimension d → on_row d (ck_x c) (ck_z c) = c.
Proof. destruct c. simpl. by intros ->. Qed.

Lemma skip_row s : scan_ok s → (∀ c, column_ok c → region (ec_disk s) (ec_previous s) c = true → ck_x c = ec_x s → ck_z c < ec_z s) →
  let s' := mk_entering (ec_disk s) (ec_previous s) (ec_x s + 1) (- 2 ^ 31) in scan_ok s' ∧ left s = left s'.
Proof.
  intros Hok Hno s'. assert (Hok' : scan_ok s') by (destruct Hok; split; [done|done|simpl; lia]). split; [done|].
  apply left_eq; [done|apply left_sorted|]. intros c. rewrite elem_of_left by done. simpl. split; intros (Hr & Hc & Hreg); (split; [|done]); specialize (Hno c Hc Hreg).
  - unfold reached in *. lia.
  - destruct Hc as [_ Hz]. unfold reached, i32_ok in *. lia.
Qed.
Lemma previous_row s x : scan_ok s → ∃ row, (match ec_previous s with Some old => disk_row old x | None => Some None end) = Some row ∧
  ∀ z, i32_ok z = true → (match ec_previous s with Some old => disk_contains old (on_row (dk_centre (ec_disk s)) x z) | None => false end) = true ↔
    ∃ first last, row = Some (first, last) ∧ first ≤ z ≤ last.
Proof.
  intros Hok. destruct (ec_previous s) as [old|] eqn:Hp.
  - destruct (so_previous s Hok old Hp) as [Ho Hd]. destruct (disk_row_spec old x Ho) as (row & -> & _ & Hin). exists row. split; [done|]. intros z Hz.
    rewrite <-(Hin z Hz). unfold on_row. by rewrite Hd.
  - exists None. split; [done|]. intros z _. split; [done|by intros (? & ? & ? & _)].
Qed.
(** The first column of a row from [z] on that is in one interval and not in the other. *)
Definition past (z : Z) (row : option (Z * Z)) : Z := match row with Some (first, last) => if (first <=? z) && (z <=? last) then last + 1 else z | None => z end.
Lemma past_spec z row : z ≤ past z row ∧ (¬ ∃ first last, row = Some (first, last) ∧ first ≤ past z row ≤ last) ∧
  ∀ w, z ≤ w < past z row → ∃ first last, row = Some (first, last) ∧ first ≤ w ≤ last.
Proof.
  destruct row as [[first last]|]; simpl; [|split; [lia|split; [by intros (? & ? & ? & _)|lia]]].
  destruct (Z.leb_spec first z), (Z.leb_spec z last); simpl.
  all: split; [lia|]. all: split; [intros (? & ? & [= <- <-] & ?); lia|]. all: intros w Hw; eexists _, _; split; [done|lia].
Qed.
Lemma next_turn_spec s : scan_ok s → match next_turn s with
  | inl s' => scan_ok s' ∧ left s = left s' ∧ ec_disk s' = ec_disk s ∧ ec_x s' = ec_x s + 1 ∧ ec_x s ≤ saturating_add (ck_x (dk_centre (ec_disk s))) (dk_radius (ec_disk s))
  | inr None => False
  | inr (Some (None, _)) => left s = []
  | inr (Some (Some c, s')) => scan_ok s' ∧ left s = c :: left s'
  end.
Proof.
  intros Hok. pose proof Hok as [Hd Hp [Hx Hz]]. pose proof (previous_row s (ec_x s) Hok) as (row & Hrow & Hold). pose proof (skip_row s Hok) as Hskip.
  destruct s as [disk previous x z]. simpl in *. destruct (Z.leb_spec x (saturating_add (ck_x (dk_centre disk)) (dk_radius disk))) as [Hle|Hgt].
  2:{ apply left_eq; [done|constructor|]. intros c. simpl. split; [intros H0; by apply not_elem_of_nil in H0|]. intros (Hr & Hc & Hreg). exfalso.
    unfold region, disk_contains in Hreg. destruct Hd as [[Hcx _] _], Hc as [Hc _]. unfold reached, saturating_add, saturate, i32_ok in *. lia. }
  assert (Hx32 : i32_ok x = true) by (unfold saturating_add, saturate, i32_ok in *; lia). rewrite (as_i32_id x Hx32).
  destruct (disk_row_spec disk x Hd) as (span & -> & Hspan & Hin).
  assert (Hreg : ∀ c, region disk previous c = true → ck_x c = x → column_ok c → (∃ first last, span = Some (first, last) ∧ first ≤ ck_z c ≤ last) ∧ ¬ ∃ first last, row = Some (first, last) ∧ first ≤ ck_z c ≤ last).
  { intros c Hr <- [_ Hc]. pose proof (region_columns _ _ _ Hr) as Hdim. specialize (Hin _ Hc). specialize (Hold _ Hc). rewrite on_row_eq in Hin, Hold by done.
    unfold region in Hr. rewrite andb_true_iff, negb_true_iff in Hr. rewrite <-Hin, <-Hold. split; [tauto|]. destruct Hr as [_ ->]. done. }
  destruct span as [[first last]|].
  2:{ destruct Hskip as [Hok' Heq]; [|done]. intros c Hc Hr Hcx. destruct (Hreg c Hr Hcx Hc) as [(? & ? & ? & _) _]. done. }
  rewrite Hrow. fold (past (Z.max z first) row). destruct (past_spec (Z.max z first) row) as (Hge & Hnot & Hskipped). set (w := past (Z.max z first) row) in *. clearbody w.
  destruct (Hspan _ _ eq_refl) as [Hf Hl]. destruct (Z.leb_spec w last) as [Hw|Hw].
  - assert (Hw32 : i32_ok w = true) by (unfold i32_ok in *; lia). rewrite (as_i32_id w Hw32). assert (Hok' : scan_ok (mk_entering disk previous x (w + 1))) by (split; [done|done|simpl; lia]).
    split; [done|]. apply left_eq; [done| |].
    + constructor; [apply left_sorted|]. apply Forall_forall. intros c (Hr & _ & _)%elem_of_left; [|done]. unfold reached, before in *. simpl in *. lia.
    + intros c. rewrite elem_of_cons, elem_of_left by done. simpl. split.
      * intros [->|(Hr & Hc)]; [|split; [unfold reached in *; lia|done]]. split; [unfold reached; simpl; lia|]. split; [by split|]. unfold region. rewrite andb_true_iff, negb_true_iff. split.
        { apply (Hin w Hw32). eexists _, _. split; [done|lia]. }
        { apply not_true_iff_false. intros Ho%(Hold w Hw32). done. }
      * intros (Hr & Hc & Hrg). destruct (decide (ck_x c = x)) as [Hcx|]; [|right; split; [unfold reached in *; lia|done]].
        destruct (Hreg c Hrg Hcx Hc) as [(a & b & [= <- <-] & Hab) Hno]. destruct (decide (ck_z c = w)) as [Hcz|].
        { left. pose proof (region_columns _ _ _ Hrg) as Hdim. destruct c; simpl in *. congruence. }
        right. split; [|done]. unfold reached in *. destruct (decide (ck_z c < w)); [|lia]. destruct Hno. apply Hskipped. lia.
  - destruct Hskip as [Hok' Heq]; [|done]. intros c Hc Hr Hcx. destruct (Hreg c Hr Hcx Hc) as [(a & b & [= <- <-] & Hab) Hno].
    destruct (decide (z ≤ ck_z c)); [|lia]. destruct Hno. apply Hskipped. lia.
Qed.
Lemma entering_next_spec s : scan_ok s → ∃ column s', entering_next s = Some (column, s') ∧
  match column with None => left s = [] | Some c => scan_ok s' ∧ left s = c :: left s' end.
Proof.
  unfold entering_next. set (top := saturating_add (ck_x (dk_centre (ec_disk s))) (dk_radius (ec_disk s))).
  assert (Hgen : ∀ fuel s1, scan_ok s1 → ec_disk s1 = ec_disk s → (Z.to_nat (top + 1 - ec_x s1) < fuel)%nat → ∃ column s', run None next_turn fuel s1 = Some (column, s') ∧
    match column with None => left s1 = [] | Some c => scan_ok s' ∧ left s1 = c :: left s' end).
  { induction fuel as [|fuel IH]; intros s1 Hok Hd Hf; [lia|]. cbn [run]. pose proof (next_turn_spec s1 Hok) as Ht.
    destruct (next_turn s1) as [s2|[[[c|] s2]|]] eqn:He; [|by eexists _, _|by eexists _, _|done].
    destruct Ht as (Hok2 & -> & Hd2 & Hx2 & Hle). apply IH; [done|congruence|]. rewrite Hd in Hle. unfold top in *. lia. }
  intros Hok. apply Hgen; [done|done|lia].
Qed.
Lemma entering_collect_spec s fuel : scan_ok s → (length (left s) < fuel)%nat → entering_collect fuel s = Some (left s).
Proof.
  revert s. induction fuel as [|fuel IH]; intros s Hok Hf; [lia|]. simpl. destruct (entering_next_spec s Hok) as (column & s' & -> & Hc). simpl.
  destruct column as [c|]; [|by rewrite Hc]. destruct Hc as [Hok' Hl]. rewrite Hl in Hf |- *. simpl in Hf. by rewrite IH by (done || lia).
Qed.
Lemma entering_new_ok disk previous : disk_ok disk → (∀ old, previous = Some old → disk_ok old) → scan_ok (entering_new disk previous).
Proof.
  intros Hd Hp. split; simpl; [done| |unfold saturate; lia]. intros old. destruct previous as [o|]; simpl; [|done]. case_decide; [|done]. intros [= <-]. split; [by apply Hp|done].
Qed.
Lemma entering_new_left disk previous : disk_ok disk → (∀ old, previous = Some old → disk_ok old) → left (entering_new disk previous) = entering disk previous.
Proof.
  intros Hd Hp. apply left_eq; [by apply entering_new_ok|apply entering_sorted|]. intros c. rewrite elem_of_entering by done. simpl.
  assert (Hreg : region disk (old ← previous; if decide (ck_dimension (dk_centre old) = ck_dimension (dk_centre disk)) then Some old else None) c = region disk previous c).
  { destruct previous as [old|]; simpl; [|done]. case_decide as Hdim; [done|]. unfold region at 2. destruct (disk_contains disk c) eqn:Hin; [|by unfold region; rewrite Hin].
    assert (disk_contains old c = false) as Ho; [|unfold region; by rewrite Hin, Ho].
    unfold disk_contains in *. rewrite andb_true_iff, bool_decide_eq_true in Hin. rewrite bool_decide_false; [done|]. destruct Hin as [-> _]. congruence. }
  rewrite Hreg. split; [|tauto]. intros [Hc Hr]. split; [|done]. unfold region, disk_contains in Hr. destruct Hd as [[Hx _] _], Hc as [Hcx Hcz].
  unfold reached, saturate, i32_ok in *. lia.
Qed.

(** C29: The iterator yields exactly the columns of the disk that the previous disk does not hold, each once, row by row: the
    result of testing every column of the square around the disk. It does so at the ends of the coordinates too, and
    never overflows. *)
Theorem entering_columns_exact disk previous fuel : disk_ok disk → (∀ old, previous = Some old → disk_ok old) → (length (entering disk previous) < fuel)%nat →
  entering_collect fuel (entering_new disk previous) = Some (entering disk previous) ∧
  StronglySorted before (entering disk previous) ∧ NoDup (entering disk previous) ∧
  ∀ c, c ∈ entering disk previous ↔ column_ok c ∧ disk_contains disk c = true ∧ ∀ old, previous = Some old → disk_contains old c = false.
Proof.
  intros Hd Hp Hf. rewrite <-(entering_new_left disk previous) in Hf by done. rewrite entering_collect_spec by (done || by apply entering_new_ok).
  rewrite entering_new_left by done. split; [done|]. split; [apply entering_sorted|]. split; [by eapply strict_sorted_NoDup, entering_sorted; apply before_asym|].
  intros c. rewrite elem_of_entering by done. unfold region. rewrite andb_true_iff, negb_true_iff. destruct previous as [old|]; [|naive_solver]. naive_solver.
Qed.
Definition demo_disk (x z radius : Z) : Disk := mk_disk (mk_chunk_key 0 x z) radius.
Lemma entering_columns_exact_witness : entering_collect 40 (entering_new (demo_disk (- 2 ^ 31) (2 ^ 31 - 1) 3) (Some (demo_disk (- 2 ^ 31 + 1) (2 ^ 31 - 1) 3))) =
  Some (mk_chunk_key 0 (- 2 ^ 31) <$> [2 ^ 31 - 4]).
Proof.
  refine (eq_trans (proj1 (entering_columns_exact (demo_disk (- 2 ^ 31) (2 ^ 31 - 1) 3) (Some (demo_disk (- 2 ^ 31 + 1) (2 ^ 31 - 1) 3)) 40 _ _ _)) _).
  - by repeat split.
  - intros old [= <-]. by repeat split.
  - vm_compute. lia.
  - vm_compute. reflexivity.
Defined.
