(* ===== verification/Columns.v ===== *)
(** * Column bookkeeping

    [chunk-pipeline/src/stream/column_bookkeeping.rs]: records stored under their column, and a queue with stable
    positions and an index of the positions of each column. A panic is [None]; the visit counters of tests are left out. *)
From stdpp Require Import base numbers list gmap sets sorting.
From S2P Require Import Prelude Keys Counting.
#[local] Open Scope Z_scope.

(** ** Ownership *)

(** The column that owns a record; a reservation has none yet. *)
Class ColumnOwned (T : Type) := column : T → option ChunkKey.
#[export] Instance sub_chunk_key_column : ColumnOwned SubChunkKey := λ key, Some (sk_chunk key).

(** ** Records *)

Section records.
Context {K V : Type} `{Countable K} `{ColumnOwned K}.

Record ColumnRecords := mk_records { cr_columns : gmap ChunkKey (gmap K V); cr_len : Z }.
Definition cr_default : ColumnRecords := mk_records ∅ 0.
Definition cr_get (r : ColumnRecords) (key : K) : option V := c ← column key; records ← cr_columns r !! c; records !! key.
Definition cr_contains_key (r : ColumnRecords) (key : K) : bool := bool_decide (is_Some (cr_get r key)).
(** [get_mut] followed by an update of the record. *)
Definition cr_update (f : V → V) (key : K) (r : ColumnRecords) : ColumnRecords :=
  match column key with Some c => mk_records (alter (alter f key) c (cr_columns r)) (cr_len r) | None => r end.
Definition cr_insert (key : K) (value : V) (r : ColumnRecords) : option (option V * ColumnRecords) :=
  c ← column key;
  let records := default ∅ (cr_columns r !! c) in
  let previous := records !! key in
  Some (previous, mk_records (<[c := <[key := value]> records]> (cr_columns r)) (cr_len r + match previous with None => 1 | Some _ => 0 end)).
Definition cr_remove (key : K) (r : ColumnRecords) : option (option V * ColumnRecords) :=
  match column key with
  | None => Some (None, r)
  | Some c =>
    match cr_columns r !! c with
    | None => Some (None, r)
    | Some records =>
      let removed := records !! key in
      let records := delete key records in
      len ← checked_sub (cr_len r) (match removed with Some _ => 1 | None => 0 end);
      Some (removed, mk_records (if decide (records = ∅) then delete c (cr_columns r) else <[c := records]> (cr_columns r)) len)
    end
  end.
Definition cr_remove_column (c : ChunkKey) (r : ColumnRecords) : option (gmap K V * ColumnRecords) :=
  let records := default ∅ (cr_columns r !! c) in
  len ← checked_sub (cr_len r) (Z.of_nat (size records));
  Some (records, mk_records (delete c (cr_columns r)) len).

(** What the records stand for: a plain map. *)
Record represents (r : ColumnRecords) (m : gmap K V) : Prop := {
  re_get key : cr_get r key = m !! key;
  re_owned key v : m !! key = Some v → is_Some (column key);
  re_buckets c records : cr_columns r !! c = Some records → records ≠ ∅ ∧ ∀ key v, records !! key = Some v → column key = Some c;
  re_len : cr_len r = Z.of_nat (size m);
}.
Lemma represents_default : represents cr_default ∅.
Proof. split; try done. intros key. unfold cr_get. by destruct (column key). Qed.
(** The bucket of a column is the part of the map that it owns. *)
Lemma bucket_get r m c key : represents r m → (default ∅ (cr_columns r !! c) : gmap K V) !! key = if decide (column key = Some c) then m !! key else None.
Proof.
  intros Hr. rewrite <-(re_get _ _ Hr). unfold cr_get. case_decide as Hc.
  - rewrite Hc. simpl. destruct (cr_columns r !! c); [done|]. simpl. apply lookup_empty.
  - destruct (cr_columns r !! c) as [records|] eqn:Hb; [|apply lookup_empty]. simpl. destruct (records !! key) as [v|] eqn:Hk; [|done].
    destruct Hc. by apply (proj2 (re_buckets _ _ Hr c records Hb) key v).
Qed.
Definition owned_by (c : ChunkKey) (m : gmap K V) : gmap K V := filter (λ x, column x.1 = Some c) m.
Lemma bucket_eq r m c : represents r m → default ∅ (cr_columns r !! c) = owned_by c m.
Proof.
  intros Hr. apply map_eq. intros key. rewrite (bucket_get r m c key Hr). unfold owned_by. rewrite map_lookup_filter.
  case_decide as Hc; destruct (m !! key) as [v|]; simpl; try done; [by rewrite option_guard_True|by rewrite option_guard_False].
Qed.
Lemma nonempty_lookup (m : gmap K V) key v : m !! key = Some v → m ≠ ∅.
Proof. intros Hk ->. by rewrite lookup_empty in Hk. Qed.

Lemma cr_insert_spec r m key value c : represents r m → column key = Some c →
  ∃ r', cr_insert key value r = Some (m !! key, r') ∧ represents r' (<[key := value]> m).
Proof.
  intros Hr Hc. unfold cr_insert. rewrite Hc. simpl. rewrite (bucket_get r m c key Hr), decide_True by done.
  eexists. split; [done|]. split; simpl.
  - intros k. unfold cr_get. simpl. destruct (column k) as [c'|] eqn:Hk; simpl.
    + destruct (decide (c' = c)) as [->|Hne].
      * rewrite lookup_insert_eq. simpl. destruct (decide (k = key)) as [->|Hkey]; [by rewrite !lookup_insert_eq|].
        rewrite !lookup_insert_ne by done. rewrite (bucket_get r m c k Hr). by rewrite decide_True.
      * rewrite lookup_insert_ne by done. rewrite lookup_insert_ne by congruence. rewrite <-(re_get _ _ Hr). unfold cr_get. by rewrite Hk.
    + rewrite lookup_insert_ne by congruence. destruct (m !! k) as [v|] eqn:Hm; [|done]. destruct (re_owned _ _ Hr k v Hm). congruence.
  - intros k v [[<- _]|[_ Hk]]%lookup_insert_Some; [by rewrite Hc|by apply (re_owned _ _ Hr k v)].
  - intros c' records [[<- <-]|[_ Hb]]%lookup_insert_Some; [|by apply (re_buckets _ _ Hr)]. split; [by eapply nonempty_lookup, lookup_insert_eq|].
    intros k v [[<- _]|[_ Hk]]%lookup_insert_Some; [done|]. rewrite (bucket_get r m c k Hr) in Hk. by case_decide.
  - rewrite (re_len _ _ Hr). destruct (m !! key) as [v|] eqn:Hm; [rewrite map_size_insert_Some by (by rewrite Hm)|rewrite map_size_insert_None by done]; lia.
Qed.
Lemma cr_remove_spec r m key : represents r m → ∃ r', cr_remove key r = Some (m !! key, r') ∧ represents r' (delete key m).
Proof.
  intros Hr. unfold cr_remove. pose proof (re_get _ _ Hr key) as Hg. unfold cr_get in Hg. destruct (column key) as [c|] eqn:Hc.
  2:{ exists r. simpl in Hg. rewrite <-Hg. by rewrite delete_id by done. }
  simpl in Hg. destruct (cr_columns r !! c) as [records|] eqn:Hb; simpl in Hg.
  2:{ exists r. rewrite <-Hg. by rewrite delete_id by done. }
  destruct (re_buckets _ _ Hr c records Hb) as [Hne Hown]. assert (Hrec : ∀ k, records !! k = if decide (column k = Some c) then m !! k else None).
  { intros k. rewrite <-(bucket_get r m c k Hr). by rewrite Hb. }
  assert (Hlen : checked_sub (cr_len r) (match m !! key with Some _ => 1 | None => 0 end) = Some (Z.of_nat (size (delete key m)))).
  { apply checked_sub_Some. rewrite (re_len _ _ Hr). destruct (m !! key) as [v|] eqn:Hm; [|rewrite delete_id by done; lia].
    assert (size m ≠ 0%nat) by (intros Hz%map_size_empty_iff; by apply (nonempty_lookup m key v)). rewrite map_size_delete, Hm. lia. }
  rewrite Hg, Hlen. simpl. eexists. split; [done|]. split; simpl.
  - intros k. unfold cr_get. simpl. destruct (column k) as [c'|] eqn:Hk; simpl.
    + destruct (decide (c' = c)) as [->|Hnec].
      * assert (Hd : (delete key m) !! k = delete key records !! k).
        { destruct (decide (k = key)) as [->|Hkey]; [by rewrite !lookup_delete_eq|]. rewrite !lookup_delete_ne by done. by rewrite Hrec, decide_True. }
        rewrite Hd. case_decide as He; [rewrite lookup_delete_eq, He; by rewrite lookup_empty|by rewrite lookup_insert_eq].
      * rewrite lookup_delete_ne by congruence. rewrite <-(re_get _ _ Hr). unfold cr_get. rewrite Hk. simpl.
        by case_decide; [rewrite lookup_delete_ne by done|rewrite lookup_insert_ne by done].
    + rewrite lookup_delete_ne by congruence. destruct (m !! k) as [v|] eqn:Hm; [|done]. destruct (re_owned _ _ Hr k v Hm). congruence.
  - intros k v [_ Hk]%lookup_delete_Some. by apply (re_owned _ _ Hr k v).
  - intros c' records' Hb'. case_decide as He; [apply lookup_delete_Some in Hb' as [_ Hb']; by apply (re_buckets _ _ Hr)|].
    apply lookup_insert_Some in Hb' as [[<- <-]|[_ Hb']]; [|by apply (re_buckets _ _ Hr)]. split; [done|]. intros k v [_ Hk]%lookup_delete_Some. by apply (Hown k v).
  - done.
Qed.
Lemma cr_remove_column_spec r m c : represents r m →
  ∃ r', cr_remove_column c r = Some (owned_by c m, r') ∧ represents r' (filter (λ x, column x.1 ≠ Some c) m).
Proof.
  intros Hr. unfold cr_remove_column. rewrite (bucket_eq r m c Hr).
  assert (Hsize : (size m = size (owned_by c m) + size (filter (λ x, column x.1 ≠ Some c) m))%nat).
  { rewrite <-(map_filter_union_complement (λ x : K * V, column x.1 = Some c) m) at 1. rewrite map_size_disj_union; [done|apply map_disjoint_filter_complement]. }
  assert (Hlen : checked_sub (cr_len r) (Z.of_nat (size (owned_by c m))) = Some (Z.of_nat (size (filter (λ x, column x.1 ≠ Some c) m)))).
  { apply checked_sub_Some. rewrite (re_len _ _ Hr). lia. }
  rewrite Hlen. simpl. eexists. split; [done|]. split; simpl.
  - intros k. rewrite map_lookup_filter, <-(re_get _ _ Hr). unfold cr_get. simpl. destruct (column k) as [c'|] eqn:Hk; simpl; [|done].
    destruct (decide (c' = c)) as [->|Hne].
    + rewrite lookup_delete_eq. simpl. destruct (cr_columns r !! c ≫= _); simpl; [|done]. rewrite option_guard_False; [done|]. simpl. congruence.
    + rewrite lookup_delete_ne by done. destruct (cr_columns r !! c' ≫= _); simpl; [|done]. rewrite option_guard_True; [done|]. simpl. congruence.
  - intros k v [Hk _]%map_lookup_filter_Some. by apply (re_owned _ _ Hr k v).
  - intros c' records [_ Hb]%lookup_delete_Some. by apply (re_buckets _ _ Hr).
  - done.
Qed.
Lemma cr_update_spec r m f key : represents r m → represents (cr_update f key r) (alter f key m).
Proof.
  intros Hr. unfold cr_update. destruct (column key) as [c|] eqn:Hc.
  2:{ assert (m !! key = None) as Hm by (destruct (m !! key) as [v|] eqn:E; [|done]; destruct (re_owned _ _ Hr key v E); congruence).
    assert (alter f key m = m) as ->; [|done]. apply map_eq. intros k. destruct (decide (k = key)) as [->|]; [by rewrite lookup_alter_eq, Hm|by rewrite lookup_alter_ne]. }
  assert (Hget : ∀ k, cr_get (mk_records (alter (alter f key) c (cr_columns r)) (cr_len r)) k = alter f key m !! k).
  { intros k. destruct (decide (k = key)) as [->|Hne].
    - rewrite lookup_alter_eq, <-(re_get _ _ Hr). unfold cr_get. rewrite Hc. simpl. rewrite lookup_alter_eq. destruct (cr_columns r !! c); simpl; [by rewrite lookup_alter_eq|done].
    - rewrite lookup_alter_ne by done. rewrite <-(re_get _ _ Hr). unfold cr_get. destruct (column k) as [ck|]; simpl; [|done].
      destruct (decide (ck = c)) as [->|Hcc]; [|by rewrite lookup_alter_ne]. rewrite lookup_alter_eq. destruct (cr_columns r !! c); simpl; [by rewrite lookup_alter_ne|done]. }
  split; [exact Hget| | |].
  - intros k v Hk. destruct (decide (k = key)) as [->|Hne]; [by rewrite Hc|]. rewrite lookup_alter_ne in Hk by done. by apply (re_owned _ _ Hr k v).
  - intros c' records Hb. simpl in Hb. apply lookup_alter_Some in Hb as [(<- & records' & Hb & ->)|[_ Hb]]; [|by apply (re_buckets _ _ Hr)].
    destruct (re_buckets _ _ Hr c records' Hb) as [Hne Hown]. split.
    + intros He. apply Hne, map_eq. intros k. assert (Hk : alter f key records' !! k = None) by (rewrite He; apply lookup_empty). rewrite lookup_empty.
      destruct (decide (k = key)) as [->|]; [|by rewrite lookup_alter_ne in Hk]. rewrite lookup_alter_eq in Hk. by destruct (records' !! key).
    + intros k v Hk. destruct (decide (k = key)) as [->|]; [done|]. rewrite lookup_alter_ne in Hk by done. by apply (Hown k v).
  - simpl. rewrite (re_len _ _ Hr). f_equal. rewrite <-!size_dom. f_equal. symmetry. apply (dom_alter_L f m key).
Qed.

Inductive RecordOp := RInsert (key : K) (value : V) | RUpdate (key : K) (f : V → V) | RRemove (key : K) | RRemoveColumn (c : ChunkKey).
Definition record_step (r : ColumnRecords) (op : RecordOp) : option ColumnRecords :=
  match op with
  | RInsert key value => snd <$> cr_insert key value r
  | RUpdate key f => Some (cr_update f key r)
  | RRemove key => snd <$> cr_remove key r
  | RRemoveColumn c => snd <$> cr_remove_column c r
  end.
Definition record_effect (m : gmap K V) (op : RecordOp) : gmap K V :=
  match op with
  | RInsert key value => <[key := value]> m
  | RUpdate key f => alter f key m
  | RRemove key => delete key m
  | RRemoveColumn c => filter (λ x, column x.1 ≠ Some c) m
  end.
(** [insert] expects a key with a column. *)
Definition record_op_ok (op : RecordOp) : Prop := match op with RInsert key _ => column key ≠ None | _ => True end.
(** Records stored by column behave as one map, whatever is done to them: every call returns what the map holds, the count is
    the map's, and no column is kept without a record. *)
Theorem column_records_refine ops : Forall record_op_ok ops →
  let m := foldl record_effect ∅ ops in
  ∃ r, foldM record_step cr_default ops = Some r ∧ cr_len r = Z.of_nat (size m) ∧ (∀ key, cr_get r key = m !! key) ∧
    (∀ c, cr_columns r !! c = if decide (owned_by c m = ∅) then None else Some (owned_by c m)) ∧
    (∀ key, ∃ r', cr_remove key r = Some (m !! key, r')) ∧ ∀ c, ∃ r', cr_remove_column c r = Some (owned_by c m, r').
Proof.
  intros Hops m. assert (Hr : ∃ r, foldM record_step cr_default ops = Some r ∧ represents r m).
  { unfold m. clear m. pose proof represents_default as Hr. revert Hr. generalize cr_default. generalize (∅ : gmap K V). induction Hops as [|op ops Hop Hops IH]; intros m r Hr; simpl; [by exists r|].
    assert (Hs : ∃ r', record_step r op = Some r' ∧ represents r' (record_effect m op)).
    { destruct op as [key value|key f|key|c]; simpl in *.
      - destruct (column key) as [c|] eqn:Hc; [|done]. destruct (cr_insert_spec r m key value c Hr Hc) as (r' & -> & Hr'). by exists r'.
      - eexists. split; [done|]. by apply cr_update_spec.
      - destruct (cr_remove_spec r m key Hr) as (r' & -> & Hr'). by exists r'.
      - destruct (cr_remove_column_spec r m c Hr) as (r' & -> & Hr'). by exists r'. }
    destruct Hs as (r' & -> & Hr'). simpl. by apply IH. }
  destruct Hr as (r & Hrun & Hr). exists r. split; [done|]. split; [apply Hr|]. split; [apply Hr|]. split; [|split].
  - intros c. pose proof (bucket_eq r m c Hr) as Hb. pose proof (re_buckets _ _ Hr c) as Hne. destruct (cr_columns r !! c) as [records|]; simpl in Hb.
    + rewrite <-Hb. destruct (Hne records eq_refl) as [Hn _]. by rewrite decide_False.
    + by rewrite <-Hb, decide_True.
  - intros key. destruct (cr_remove_spec r m key Hr) as (r' & Hrm & _). by exists r'.
  - intros c. destruct (cr_remove_column_spec r m c Hr) as (r' & Hrm & _). by exists r'.
Qed.
End records.
Arguments ColumnRecords K V {_ _}.

(** ** Queues *)

Section queue.
Context {T : Type} `{HT : ColumnOwned T}.

Definition I128_MAX : Z := 2 ^ 127 - 1.
Definition I128_MIN : Z := - 2 ^ 127.
Record ColumnQueue := mk_queue { cq_entries : gmap Z T; cq_columns : gmap ChunkKey (gset Z); cq_front : Z; cq_back : Z }.
Definition cq_default : ColumnQueue := mk_queue ∅ ∅ 0 0.
(** [iter] and [entries]: in dispatch order. *)
Definition cq_list (q : ColumnQueue) : list (Z * T) := ordered (cq_entries q).
Definition cq_get (q : ColumnQueue) (position : Z) : option T := cq_entries q !! position.
Definition cq_len (q : ColumnQueue) : Z := Z.of_nat (size (cq_entries q)).
Definition cq_insert (position : Z) (entry : T) (q : ColumnQueue) : option ColumnQueue :=
  let columns := match column entry with Some c => <[c := {[position]} ∪ default ∅ (cq_columns q !! c)]> (cq_columns q) | None => cq_columns q end in
  match cq_entries q !! position with
  | Some _ => None
  | None => Some (mk_queue (<[position := entry]> (cq_entries q)) columns (cq_front q) (cq_back q))
  end.
Definition cq_remove (position : Z) (q : ColumnQueue) : option (option T * ColumnQueue) :=
  match cq_entries q !! position with
  | None => Some (None, q)
  | Some entry =>
    let entries := delete position (cq_entries q) in
    match column entry with
    | None => Some (Some entry, mk_queue entries (cq_columns q) (cq_front q) (cq_back q))
    | Some c =>
      positions ← (cq_columns q !! c : option (gset Z));
      let positions := positions ∖ {[position]} in
      let columns := if decide (positions = ∅) then delete c (cq_columns q) else <[c := positions]> (cq_columns q) in
      Some (Some entry, mk_queue entries columns (cq_front q) (cq_back q))
    end
  end.
Definition cq_push_back (entry : T) (q : ColumnQueue) : option ColumnQueue :=
  let position := cq_back q in
  if I128_MAX <=? position then None else cq_insert position entry (mk_queue (cq_entries q) (cq_columns q) (cq_front q) (position + 1)).
Definition cq_push_front (entry : T) (q : ColumnQueue) : option ColumnQueue :=
  if cq_front q <=? I128_MIN then None
  else let position := cq_front q - 1 in cq_insert position entry (mk_queue (cq_entries q) (cq_columns q) position (cq_back q)).
Definition cq_replace (position : Z) (entry : T) (q : ColumnQueue) : option ColumnQueue :=
  '(removed, q) ← cq_remove position q;
  match removed with Some _ => cq_insert position entry q | None => None end.
Definition cq_pop_front (q : ColumnQueue) : option (option T * ColumnQueue) :=
  match cq_list q with [] => Some (None, q) | (position, _) :: _ => cq_remove position q end.
(** [for position in removed { self.remove(position) }] *)
Fixpoint cq_remove_each (positions : list Z) (q : ColumnQueue) : option ColumnQueue :=
  match positions with [] => Some q | position :: positions => '(_, q) ← cq_remove position q; cq_remove_each positions q end.
Definition cq_retain (keep : T → bool) (q : ColumnQueue) : option ColumnQueue :=
  cq_remove_each ((filter (λ x, keep x.2 = false) (cq_list q)).*1) q.
(** [positions.into_iter().map(|position| entries.remove(&position).expect(..)).collect()] *)
Fixpoint cq_take_each (positions : list Z) (entries : gmap Z T) : option (list T * gmap Z T) :=
  match positions with
  | [] => Some ([], entries)
  | position :: positions =>
    entry ← entries !! position;
    '(taken, entries) ← cq_take_each positions (delete position entries);
    Some (entry :: taken, entries)
  end.
Definition cq_remove_column (c : ChunkKey) (q : ColumnQueue) : option (list T * ColumnQueue) :=
  let positions := merge_sort Z.le (elements (default ∅ (cq_columns q !! c))) in
  '(taken, entries) ← cq_take_each positions (cq_entries q);
  Some (taken, mk_queue entries (delete c (cq_columns q)) (cq_front q) (cq_back q)).

(** *** The invariant *)

Record queue_ok (q : ColumnQueue) : Prop := {
  qo_bounds p x : cq_entries q !! p = Some x → cq_front q ≤ p < cq_back q;
  qo_window : I128_MIN ≤ cq_front q ≤ cq_back q ≤ I128_MAX;
  qo_index c p : p ∈ default ∅ (cq_columns q !! c) ↔ ∃ x, cq_entries q !! p = Some x ∧ column x = Some c;
  qo_nonempty c : cq_columns q !! c ≠ Some ∅;
}.
Lemma queue_default_ok : queue_ok cq_default.
Proof. split; try done. intros c p. simpl. split; [intros Hp; by apply elem_of_empty in Hp|by intros (x & Hx & _)]. Qed.

Lemma cq_insert_spec position entry q : cq_entries q !! position = None → (∀ p x, cq_entries q !! p = Some x → cq_front q ≤ p < cq_back q) →
  cq_front q ≤ position < cq_back q → I128_MIN ≤ cq_front q ≤ cq_back q ≤ I128_MAX →
  (∀ c p, p ∈ default ∅ (cq_columns q !! c) ↔ ∃ x, cq_entries q !! p = Some x ∧ column x = Some c) → (∀ c, cq_columns q !! c ≠ Some ∅) →
  ∃ q', cq_insert position entry q = Some q' ∧ queue_ok q' ∧ cq_entries q' = <[position := entry]> (cq_entries q) ∧ cq_front q' = cq_front q ∧ cq_back q' = cq_back q.
Proof.
  intros Hnone Hb Hpos Hw Hi Hne. unfold cq_insert. rewrite Hnone. eexists. split; [done|]. split; [|done]. split; simpl; [|done| |].
  - intros p x [[<- _]|[_ Hp]]%lookup_insert_Some; [done|by apply (Hb p x)].
  - intros c p. destruct (column entry) as [ce|] eqn:Hce.
    + destruct (decide (c = ce)) as [->|Hc].
      * rewrite lookup_insert_eq. simpl. rewrite elem_of_union, elem_of_singleton, Hi. split.
        { intros [->|(x & Hx & Hcx)]; [exists entry; by rewrite lookup_insert_eq|]. exists x. split; [|done]. rewrite lookup_insert_ne; [done|]. congruence. }
        { intros (x & [[<- <-]|[_ Hx]]%lookup_insert_Some & Hcx); [by left|right; by exists x]. }
      * rewrite lookup_insert_ne by done. rewrite Hi. split.
        { intros (x & Hx & Hcx). exists x. split; [|done]. rewrite lookup_insert_ne; [done|]. congruence. }
        { intros (x & [[<- <-]|[_ Hx]]%lookup_insert_Some & Hcx); [congruence|by exists x]. }
    + rewrite Hi. split.
      * intros (x & Hx & Hcx). exists x. split; [|done]. rewrite lookup_insert_ne; [done|]. congruence.
      * intros (x & [[<- <-]|[_ Hx]]%lookup_insert_Some & Hcx); [congruence|by exists x].
  - intros c. destruct (column entry) as [ce|]; [|done]. destruct (decide (c = ce)) as [->|Hc]; [rewrite lookup_insert_eq|by rewrite lookup_insert_ne].
    intros [= He]. set_solver.
Qed.
Lemma cq_remove_spec position q : queue_ok q → ∃ q', cq_remove position q = Some (cq_entries q !! position, q') ∧ queue_ok q' ∧
  cq_entries q' = delete position (cq_entries q) ∧ cq_front q' = cq_front q ∧ cq_back q' = cq_back q.
Proof.
  intros [Hb Hw Hi Hne]. unfold cq_remove. destruct (cq_entries q !! position) as [entry|] eqn:He.
  2:{ exists q. split; [done|]. split; [done|]. by rewrite delete_id. }
  assert (Hsub : ∀ p x, delete position (cq_entries q) !! p = Some x → cq_front q ≤ p < cq_back q) by (intros p x [_ Hp]%lookup_delete_Some; by apply (Hb p x)).
  assert (Hidx : ∀ c p, (∃ x, delete position (cq_entries q) !! p = Some x ∧ column x = Some c) ↔ p ∈ default ∅ (cq_columns q !! c) ∧ p ≠ position).
  { intros c p. rewrite Hi. split.
    - intros (x & [Hne' Hx]%lookup_delete_Some & Hc). split; [by exists x|done].
    - intros [(x & Hx & Hc) Hne']. exists x. by rewrite lookup_delete_ne. }
  destruct (column entry) as [c|] eqn:Hc.
  - assert (Hp : position ∈ default ∅ (cq_columns q !! c)) by (apply Hi; by exists entry). destruct (cq_columns q !! c) as [positions|] eqn:Hcols; [|simpl in Hp; set_solver].
    simpl in Hp. simpl. eexists. split; [done|]. split; [|done]. split; simpl; [done|done| |].
    + intros c' p. rewrite Hidx. destruct (decide (c' = c)) as [->|Hcc].
      * rewrite Hcols. simpl. case_decide as Hemp; [rewrite lookup_delete_eq|rewrite lookup_insert_eq]; simpl; set_solver.
      * assert (Hsame : (if decide (positions ∖ {[position]} = ∅) then delete c (cq_columns q) else <[c:=positions ∖ {[position]}]> (cq_columns q)) !! c' = cq_columns q !! c').
        { case_decide; [by rewrite lookup_delete_ne|by rewrite lookup_insert_ne]. }
        rewrite Hsame. split; [|tauto]. intros Hp'. split; [done|]. intros ->. apply Hi in Hp' as (x & Hx & Hcx). congruence.
    + intros c'. case_decide as Hemp.
      * destruct (decide (c' = c)) as [->|]; [by rewrite lookup_delete_eq|by rewrite lookup_delete_ne].
      * destruct (decide (c' = c)) as [->|]; [rewrite lookup_insert_eq; congruence|by rewrite lookup_insert_ne].
  - eexists. split; [done|]. split; [|done]. split; simpl; [done|done| |done]. intros c p. rewrite Hidx. split; [|tauto]. intros Hp. split; [done|].
    intros ->. apply Hi in Hp as (x & Hx & Hcx). congruence.
Qed.

(** *** The queue as a list *)

Inductive QueueOp := PushBack (entry : T) | PushFront (entry : T) | Replace (position : Z) (entry : T) | Remove (position : Z) | PopFront
  | Retain (keep : T → bool) | RemoveColumn (c : ChunkKey).
Definition queue_step (op : QueueOp) (q : ColumnQueue) : option (list T * ColumnQueue) :=
  match op with
  | PushBack entry => pair [] <$> cq_push_back entry q
  | PushFront entry => pair [] <$> cq_push_front entry q
  | Replace position entry => pair [] <$> cq_replace position entry q
  | Remove position => '(removed, q) ← cq_remove position q; Some (option_list removed, q)
  | PopFront => '(removed, q) ← cq_pop_front q; Some (option_list removed, q)
  | Retain keep => pair [] <$> cq_retain keep q
  | RemoveColumn c => cq_remove_column c q
  end.
(** The same calls on the entries in order, with the ends of the used positions. *)
Definition View : Type := Z * Z * list (Z * T).
Definition view (q : ColumnQueue) : View := (cq_front q, cq_back q, cq_list q).
Definition view_step (op : QueueOp) (v : View) : option (list T * View) :=
  let '(front, back, l) := v in
  match op with
  | PushBack entry => if I128_MAX <=? back then None else Some ([], (front, back + 1, l ++ [(back, entry)]))
  | PushFront entry => if front <=? I128_MIN then None else Some ([], (front - 1, back, (front - 1, entry) :: l))
  | Replace position entry =>
    if decide (position ∈ l.*1) then Some ([], (front, back, (λ z, if decide (z.1 = position) then (position, entry) else z) <$> l)) else None
  | Remove position => Some ((filter (λ z, z.1 = position) l).*2, (front, back, filter (λ z, z.1 ≠ position) l))
  | PopFront => Some (match l with [] => ([], v) | z :: l => ([z.2], (front, back, l)) end)
  | Retain keep => Some ([], (front, back, filter (λ z, keep z.2 = true) l))
  | RemoveColumn c => Some ((filter (λ z, column z.2 = Some c) l).*2, (front, back, filter (λ z, column z.2 ≠ Some c) l))
  end.

Lemma elem_of_cq_list q p x : (p, x) ∈ cq_list q ↔ cq_entries q !! p = Some x.
Proof. apply elem_of_ordered. Qed.
Lemma cq_remove_each_spec positions q : queue_ok q → ∃ q', cq_remove_each positions q = Some q' ∧ queue_ok q' ∧
  cq_entries q' = filter (λ z, z.1 ∉ positions) (cq_entries q) ∧ cq_front q' = cq_front q ∧ cq_back q' = cq_back q.
Proof.
  revert q. induction positions as [|p positions IH]; intros q Hok; simpl.
  { exists q. split; [done|]. split; [done|]. split; [|done]. symmetry. apply map_filter_id. intros k x _. simpl. apply not_elem_of_nil. }
  destruct (cq_remove_spec p q Hok) as (q1 & -> & Hok1 & He1 & Hf1 & Hb1). simpl. destruct (IH q1 Hok1) as (q2 & -> & Hok2 & He2 & Hf2 & Hb2). exists q2. split; [done|].
  split; [done|]. split; [|by rewrite Hf2, Hb2]. rewrite He2, He1. apply map_eq. intros k. apply option_eq. intros x.
  rewrite !map_lookup_filter_Some, lookup_delete_Some. simpl. rewrite not_elem_of_cons. naive_solver.
Qed.
Lemma cq_take_each_spec (l : list (Z * T)) entries : NoDup l.*1 → (∀ p x, (p, x) ∈ l → entries !! p = Some x) →
  cq_take_each l.*1 entries = Some (l.*2, filter (λ z, z.1 ∉ l.*1) entries).
Proof.
  revert entries. induction l as [|[p x] l IH]; intros entries Hnd Hin; simpl.
  { f_equal. f_equal. symmetry. apply map_filter_id. intros k x _. simpl. apply not_elem_of_nil. }
  rewrite (Hin p x) by (by left). simpl. rewrite fmap_cons in Hnd. apply NoDup_cons in Hnd as [Hp Hnd]. rewrite IH; [|done|].
  - simpl. f_equal. f_equal. apply map_eq. intros k. apply option_eq. intros y. rewrite !map_lookup_filter_Some, lookup_delete_Some. simpl. rewrite not_elem_of_cons. naive_solver.
  - intros k y Hk. rewrite lookup_delete_ne; [apply Hin; by right|]. intros <-. apply Hp, list_elem_of_fmap. by exists (p, y).
Qed.

Lemma positions_list (m : gmap Z T) (positions : gset Z) : (∀ p, p ∈ positions ↔ is_Some (m !! p)) → merge_sort Z.le (elements positions) = (ordered m).*1.
Proof.
  intros Hp. apply (StronglySorted_unique Z.le).
  - apply StronglySorted_merge_sort; apply _.
  - pose proof (ordered_strict m) as Hs. induction Hs as [|x l Hl IH Hx]; [constructor|]. rewrite fmap_cons. constructor; [done|].
    rewrite Forall_forall in Hx. apply Forall_forall. intros k (y & -> & Hy)%list_elem_of_fmap. specialize (Hx y Hy). lia.
  - rewrite merge_sort_Permutation. apply NoDup_Permutation; [apply NoDup_elements|apply ordered_keys|]. intros k. rewrite elem_of_elements, Hp, list_elem_of_fmap. split.
    + intros [x Hx]. exists (k, x). split; [done|by apply elem_of_ordered].
    + intros ([k' x] & -> & Hx%elem_of_ordered). by exists x.
Qed.
(** One position holds at most one entry. *)
Lemma entry_at q p : (filter (λ z, z.1 = p) (cq_list q)).*2 = option_list (cq_entries q !! p).
Proof.
  unfold cq_list. rewrite ordered_filter. destruct (cq_entries q !! p) as [x|] eqn:Hp.
  - assert (filter (λ z : Z * T, z.1 = p) (cq_entries q) = {[p := x]}) as ->.
    { apply map_eq. intros k. apply option_eq. intros y. rewrite map_lookup_filter_Some, lookup_singleton_Some. naive_solver. }
    unfold ordered. by rewrite map_to_list_singleton.
  - assert (filter (λ z : Z * T, z.1 = p) (cq_entries q) = ∅) as ->; [|done].
    apply map_eq. intros k. apply option_eq. intros y. rewrite map_lookup_filter_Some, lookup_empty. naive_solver.
Qed.
Lemma pop_front_exact q : queue_ok q → match cq_list q with
  | [] => cq_pop_front q = Some (None, q)
  | (p, x) :: l => ∃ q', cq_pop_front q = Some (Some x, q') ∧ queue_ok q' ∧ view q' = (cq_front q, cq_back q, l)
  end.
Proof.
  intros Hok. unfold cq_pop_front. destruct (cq_list q) as [|[p x] l] eqn:Hl; [done|]. destruct (cq_remove_spec p q Hok) as (q' & Hr & Hok' & He & Hf & Hb).
  assert (cq_entries q !! p = Some x) as Hp by (apply elem_of_cq_list; rewrite Hl; by left). rewrite Hp in Hr. exists q'. split; [done|]. split; [done|].
  unfold view, cq_list. rewrite Hf, Hb, He, ordered_delete. fold (cq_list q). rewrite Hl, filter_cons_False by (simpl; tauto). f_equal.
  pose proof (ordered_strict (cq_entries q)) as Hs. fold (cq_list q) in Hs. rewrite Hl in Hs. apply StronglySorted_inv in Hs as [_ Hs]. rewrite Forall_forall in Hs.
  assert (Hall : ∀ z, z ∈ l → z.1 ≠ p) by (intros z Hz; specialize (Hs z Hz); simpl in Hs; lia). clear -Hall.
  induction l as [|z l IH]; [done|]. rewrite filter_cons_True by (apply Hall; by left). f_equal. apply IH. intros y Hy. apply Hall. by right.
Qed.

Lemma push_back_exact entry q : queue_ok q → cq_back q < I128_MAX →
  ∃ q', cq_push_back entry q = Some q' ∧ queue_ok q' ∧ view q' = (cq_front q, cq_back q + 1, cq_list q ++ [(cq_back q, entry)]).
Proof.
  intros [Hb Hw Hi Hne] Hroom. unfold cq_push_back. destruct (Z.leb_spec I128_MAX (cq_back q)); [lia|].
  destruct (cq_insert_spec (cq_back q) entry (mk_queue (cq_entries q) (cq_columns q) (cq_front q) (cq_back q + 1))) as (q' & -> & Hok' & He & Hf & Hbk); simpl; try done; try lia.
  - destruct (cq_entries q !! cq_back q) as [x|] eqn:Hx; [|done]. specialize (Hb _ _ Hx). lia.
  - intros p x Hx. specialize (Hb p x Hx). lia.
  - exists q'. split; [done|]. split; [done|]. unfold view, cq_list. rewrite He, Hf, Hbk. simpl. rewrite ordered_insert_last; [done|]. intros k y Hk. by apply (Hb k y).
Qed.
Lemma push_front_exact entry q : queue_ok q → I128_MIN < cq_front q →
  ∃ q', cq_push_front entry q = Some q' ∧ queue_ok q' ∧ view q' = (cq_front q - 1, cq_back q, (cq_front q - 1, entry) :: cq_list q).
Proof.
  intros [Hb Hw Hi Hne] Hroom. unfold cq_push_front. destruct (Z.leb_spec (cq_front q) I128_MIN); [lia|].
  destruct (cq_insert_spec (cq_front q - 1) entry (mk_queue (cq_entries q) (cq_columns q) (cq_front q - 1) (cq_back q))) as (q' & -> & Hok' & He & Hf & Hbk); simpl; try done; try lia.
  - destruct (cq_entries q !! (cq_front q - 1)) as [x|] eqn:Hx; [|done]. specialize (Hb _ _ Hx). lia.
  - intros p x Hx. specialize (Hb p x Hx). lia.
  - exists q'. split; [done|]. split; [done|]. unfold view, cq_list. rewrite He, Hf, Hbk. simpl. rewrite ordered_insert_first; [done|]. intros k y Hk. specialize (Hb k y Hk). lia.
Qed.
Lemma replace_exact p x entry q : queue_ok q → (p, x) ∈ cq_list q →
  ∃ q', cq_replace p entry q = Some q' ∧ queue_ok q' ∧ view q' = (cq_front q, cq_back q, (λ z, if decide (z.1 = p) then (p, entry) else z) <$> cq_list q).
Proof.
  intros Hok Hp%elem_of_cq_list. unfold cq_replace. destruct (cq_remove_spec p q Hok) as (q1 & -> & Hok1 & He1 & Hf1 & Hb1). simpl. rewrite Hp.
  destruct (cq_insert_spec p entry q1) as (q2 & -> & Hok2 & He2 & Hf2 & Hb2); [by rewrite He1, lookup_delete_eq|apply Hok1|rewrite Hf1, Hb1; by apply (qo_bounds q Hok p x)|apply Hok1|apply Hok1|apply Hok1|].
  exists q2. split; [done|]. split; [done|]. unfold view, cq_list. rewrite He2, He1, Hf2, Hb2, Hf1, Hb1, insert_delete_eq. by rewrite (ordered_update _ p x).
Qed.
Lemma replace_missing p entry q : queue_ok q → p ∉ (cq_list q).*1 → cq_replace p entry q = None.
Proof.
  intros Hok Hp. unfold cq_replace. destruct (cq_remove_spec p q Hok) as (q1 & -> & _). simpl. destruct (cq_entries q !! p) as [x|] eqn:He; [|done].
  destruct Hp. apply list_elem_of_fmap. exists (p, x). split; [done|by apply elem_of_cq_list].
Qed.
Lemma remove_exact p q : queue_ok q →
  ∃ q', cq_remove p q = Some (cq_entries q !! p, q') ∧ queue_ok q' ∧ view q' = (cq_front q, cq_back q, filter (λ z, z.1 ≠ p) (cq_list q)).
Proof.
  intros Hok. destruct (cq_remove_spec p q Hok) as (q1 & -> & Hok1 & He1 & Hf1 & Hb1). exists q1. split; [done|]. split; [done|]. unfold view, cq_list. by rewrite He1, Hf1, Hb1, ordered_delete.
Qed.
Lemma retain_exact keep q : queue_ok q →
  ∃ q', cq_retain keep q = Some q' ∧ queue_ok q' ∧ view q' = (cq_front q, cq_back q, filter (λ z, keep z.2 = true) (cq_list q)).
Proof.
  intros Hok. unfold cq_retain. destruct (cq_remove_each_spec ((filter (λ x, keep x.2 = false) (cq_list q)).*1) q Hok) as (q' & -> & Hok' & He & Hf & Hbk). exists q'. split; [done|]. split; [done|].
  assert (Heq : cq_entries q' = filter (λ z : Z * T, keep z.2 = true) (cq_entries q)).
  { rewrite He. apply map_eq. intros k. apply option_eq. intros x. rewrite !map_lookup_filter_Some. simpl. split; (intros [Hk Hno]; split; [done|]).
    - apply not_false_iff_true. intros Hf'. apply Hno, list_elem_of_fmap. exists (k, x). split; [done|]. apply list_elem_of_filter. split; [done|by apply elem_of_cq_list].
    - intros ([k' y] & -> & [Hy Hin]%list_elem_of_filter)%list_elem_of_fmap. apply elem_of_cq_list in Hin. simpl in *. congruence. }
  unfold view, cq_list. rewrite Hf, Hbk, Heq. f_equal. symmetry. apply (ordered_filter (λ z : Z * T, keep z.2 = true)).
Qed.
Lemma remove_column_exact c q : queue_ok q →
  ∃ q', cq_remove_column c q = Some ((filter (λ z, column z.2 = Some c) (cq_list q)).*2, q') ∧ queue_ok q' ∧
    view q' = (cq_front q, cq_back q, filter (λ z, column z.2 ≠ Some c) (cq_list q)).
Proof.
  intros [Hb Hw Hi Hne]. unfold cq_remove_column. rewrite (positions_list (filter (λ z, column z.2 = Some c) (cq_entries q))).
  2:{ intros p. rewrite Hi. unfold is_Some. setoid_rewrite map_lookup_filter_Some. done. }
  rewrite <-(ordered_filter (λ z, column z.2 = Some c)). fold (cq_list q). rewrite cq_take_each_spec.
  2:{ unfold cq_list. rewrite ordered_filter. apply ordered_keys. }
  2:{ intros p x [_ Hx]%list_elem_of_filter. by apply elem_of_cq_list. }
  simpl. assert (Heq : filter (λ z, z.1 ∉ (filter (λ z, column z.2 = Some c) (cq_list q)).*1) (cq_entries q) = filter (λ z, column z.2 ≠ Some c) (cq_entries q)).
  { apply map_eq. intros k. apply option_eq. intros x. rewrite !map_lookup_filter_Some. simpl. split; (intros [Hk Hno]; split; [done|]).
    - intros Hc. apply Hno, list_elem_of_fmap. exists (k, x). split; [done|]. apply list_elem_of_filter. split; [done|by apply elem_of_cq_list].
    - intros ([k' y] & -> & [Hy Hin]%list_elem_of_filter)%list_elem_of_fmap. apply elem_of_cq_list in Hin. simpl in *. congruence. }
  rewrite Heq. eexists. split; [done|]. split; [|unfold view, cq_list; simpl; by rewrite (ordered_filter (λ z : Z * T, column z.2 ≠ Some c))]. split; simpl.
  - intros p x [Hx _]%map_lookup_filter_Some. by apply (Hb p x).
  - done.
  - intros c' p. setoid_rewrite map_lookup_filter_Some. simpl. destruct (decide (c' = c)) as [->|Hcc].
    + rewrite lookup_delete_eq. simpl. split; [intros Hp; by apply elem_of_empty in Hp|]. intros (x & [_ Hx] & Hc). done.
    + rewrite lookup_delete_ne by done. rewrite Hi. split; [intros (x & Hx & Hc); exists x; split; [split; [done|congruence]|done]|intros (x & [Hx _] & Hc); by exists x].
  - intros c'. destruct (decide (c' = c)) as [->|]; [by rewrite lookup_delete_eq|by rewrite lookup_delete_ne].
Qed.

Lemma queue_step_spec op q : queue_ok q →
  match queue_step op q with Some (out, q') => queue_ok q' ∧ view_step op (view q) = Some (out, view q') | None => view_step op (view q) = None end.
Proof.
  intros Hok. destruct op as [entry|entry|p entry|p| |keep|c]; simpl.
  - destruct (Z.leb_spec I128_MAX (cq_back q)) as [Hf|Hf]; [unfold cq_push_back; by rewrite (proj2 (Z.leb_le _ _) Hf)|].
    destruct (push_back_exact entry q Hok Hf) as (q' & -> & Hok' & Hv). simpl. by rewrite Hv.
  - destruct (Z.leb_spec (cq_front q) I128_MIN) as [Hf|Hf]; [unfold cq_push_front; by rewrite (proj2 (Z.leb_le _ _) Hf)|].
    destruct (push_front_exact entry q Hok Hf) as (q' & -> & Hok' & Hv). simpl. by rewrite Hv.
  - case_decide as Hp; [|by rewrite replace_missing]. apply list_elem_of_fmap in Hp as ([p' x] & -> & Hp). simpl. destruct (replace_exact p' x entry q Hok Hp) as (q' & -> & Hok' & Hv). simpl. by rewrite Hv.
  - destruct (remove_exact p q Hok) as (q' & -> & Hok' & Hv). simpl. split; [done|]. by rewrite Hv, entry_at.
  - pose proof (pop_front_exact q Hok) as Hpop. destruct (cq_list q) as [|[p x] l] eqn:Hl.
    + rewrite Hpop. simpl. split; [done|]. unfold view. by rewrite Hl.
    + destruct Hpop as (q' & -> & Hok' & Hv). simpl. split; [done|]. by rewrite Hv.
  - destruct (retain_exact keep q Hok) as (q' & -> & Hok' & Hv). simpl. by rewrite Hv.
  - destruct (remove_column_exact c q Hok) as (q' & -> & Hok' & Hv). simpl. by rewrite Hv.
Qed.

(** *** Runs of calls *)

Definition queue_run (ops : list QueueOp) (q : ColumnQueue) : option (list (list T) * ColumnQueue) :=
  foldM (λ '(outs, q) op, '(out, q) ← queue_step op q; Some (outs ++ [out], q)) ([], q) ops.
Definition view_run (ops : list QueueOp) (v : View) : option (list (list T) * View) :=
  foldM (λ '(outs, v) op, '(out, v) ← view_step op v; Some (outs ++ [out], v)) ([], v) ops.
(** [assert_consistent]: the index that the entries determine. *)
Definition expected_columns (q : ColumnQueue) : gmap ChunkKey (gset Z) :=
  foldl (λ columns '(position, entry), match column entry with Some c => <[c := {[position]} ∪ default ∅ (columns !! c)]> columns | None => columns end) ∅ (cq_list q).

Lemma expected_spec (l : list (Z * T)) c p : let columns := foldl (λ columns '(position, entry), match column entry with Some c => <[c := {[position]} ∪ default ∅ (columns !! c)]> columns | None => columns end) (∅ : gmap ChunkKey (gset Z)) l in
  (p ∈ default ∅ (columns !! c) ↔ ∃ x, (p, x) ∈ l ∧ column x = Some c) ∧ columns !! c ≠ Some ∅.
Proof.
  induction l as [|[position entry] l IH] using rev_ind; simpl.
  { rewrite lookup_empty. simpl. split; [|done]. split; [intros Hp; by apply elem_of_empty in Hp|intros (x & Hx & _); by apply not_elem_of_nil in Hx]. }
  rewrite foldl_app. simpl. set (columns := foldl _ _ l) in *. clearbody columns. destruct IH as [IH Hne].
  assert (Hl : (∃ x, (p, x) ∈ l ++ [(position, entry)] ∧ column x = Some c) ↔ (∃ x, (p, x) ∈ l ∧ column x = Some c) ∨ p = position ∧ column entry = Some c).
  { setoid_rewrite elem_of_app. setoid_rewrite list_elem_of_singleton. naive_solver. }
  rewrite Hl, <-IH. destruct (column entry) as [ce|]; [|split; [naive_solver|done]]. destruct (decide (c = ce)) as [->|Hc].
  - rewrite lookup_insert_eq. simpl. split; [set_solver|]. intros [= He]. set_solver.
  - rewrite lookup_insert_ne by done. split; [naive_solver|done].
Qed.
Lemma index_exact q : queue_ok q → cq_columns q = expected_columns q.
Proof.
  intros [Hb Hw Hi Hne]. apply map_eq. intros c. unfold expected_columns. assert (Hex := λ p, proj1 (expected_spec (cq_list q) c p)). simpl in Hex.
  pose proof (proj2 (expected_spec (cq_list q) c 0)) as Hne'. simpl in Hne'. set (columns := foldl _ _ (cq_list q)) in *. clearbody columns.
  assert (Hsame : default ∅ (cq_columns q !! c) = (default ∅ (columns !! c) : gset Z)).
  { apply set_eq. intros p. rewrite Hex, Hi. split; intros (x & Hx & Hc); exists x; (split; [|done]); by apply elem_of_cq_list. }
  specialize (Hne c). destruct (cq_columns q !! c) as [a|], (columns !! c) as [b|]; simpl in Hsame; congruence.
Qed.
Lemma queue_run_spec ops outs q : queue_ok q →
  match foldM (λ '(outs, q) op, '(out, q) ← queue_step op q; Some (outs ++ [out], q)) (outs, q) ops with
  | Some (outs', q') => foldM (λ '(outs, v) op, '(out, v) ← view_step op v; Some (outs ++ [out], v)) (outs, view q) ops = Some (outs', view q') ∧ queue_ok q'
  | None => foldM (λ '(outs, v) op, '(out, v) ← view_step op v; Some (outs ++ [out], v)) (outs, view q) ops = None
  end.
Proof.
  revert outs q. induction ops as [|op ops IH]; intros outs q Hok; cbn [foldM]; [done|].
  pose proof (queue_step_spec op q Hok) as Hs. destruct (queue_step op q) as [[out q']|]; [|by rewrite Hs]. destruct Hs as [Hok' Hv]. rewrite Hv. simpl. by apply IH.
Qed.
(** Whatever is done to a new queue, it behaves as the list of its entries in dispatch order: each call answers as the list
    does and panics only when positions run out or a position holds nothing to replace, and the index of columns is the
    one that the entries determine. *)
Theorem column_queue_refines ops :
  match queue_run ops cq_default with
  | Some (outs, q) => view_run ops (0, 0, []) = Some (outs, view q) ∧ cq_columns q = expected_columns q
  | None => view_run ops (0, 0, []) = None
  end.
Proof.
  pose proof (queue_run_spec ops [] cq_default queue_default_ok) as Hgen. fold (queue_run ops cq_default) in Hgen. fold (view_run ops (view cq_default)) in Hgen. change (view cq_default) with (0, 0, @nil (Z * T)) in Hgen.
  destruct (queue_run ops cq_default) as [[outs q]|]; [|done]. destruct Hgen as [Hv Hok]. split; [done|by apply index_exact].
Qed.
End queue.
Arguments ColumnQueue : clear implicits.

Definition demo_record_ops : list (RecordOp (K := SubChunkKey) (V := Z)) :=
  [RInsert (mk_sub_chunk_key 0 0 1 0) 1; RInsert (mk_sub_chunk_key 0 0 2 0) 2; RInsert (mk_sub_chunk_key 0 1 0 0) 3; RUpdate (mk_sub_chunk_key 0 0 2 0) (Z.add 3); RRemove (mk_sub_chunk_key 0 0 1 0); RRemoveColumn (mk_chunk_key 0 1 0)].
Lemma column_records_refine_witness : ∃ r, foldM record_step cr_default demo_record_ops = Some r ∧ cr_get r (mk_sub_chunk_key 0 0 2 0) = Some 5.
Proof.
  destruct (column_records_refine demo_record_ops) as (r & Hr & _ & Hg & _); [repeat constructor; done|]. exists r. split; [exact Hr|]. rewrite Hg. vm_compute. reflexivity.
Defined.
