(* ===== verification/ColumnSet.v ===== *)
(** * Sections grouped by column

    [chunk-pipeline/src/stream/column_set.rs]: a set of sub-chunk keys stored by column, with the age of each column, a
    revision of its membership and a bounded journal of membership changes, and the replay of that journal in
    [near_drawn.rs]. A panic is [None]; clocks are [u64]s. *)
From stdpp Require Import base numbers list gmap sets sorting.
From S2P Require Import Prelude Bytes Keys Counting Lanes ColumnScan.
#[local] Open Scope Z_scope.

(** ** The journal *)

Definition MEMBERSHIP_JOURNAL_CAPACITY : Z := 8192.
Record MembershipJournal := mk_journal { jn_keys : list SubChunkKey; jn_written : Z; jn_floor : Z }.
Definition journal_default : MembershipJournal := mk_journal [] 0 0.
Definition journal_slot (j : MembershipJournal) (position : Z) : option nat :=
  offset ← Counting.checked_sub position (jn_floor j); Some (Z.to_nat (offset mod MEMBERSHIP_JOURNAL_CAPACITY)).
Definition journal_record (key : SubChunkKey) (j : MembershipJournal) : option MembershipJournal :=
  slot ← journal_slot j (jn_written j);
  keys ← (if decide (slot = length (jn_keys j)) then Some (jn_keys j ++ [key])
          else if decide (slot < length (jn_keys j))%nat then Some (<[slot := key]> (jn_keys j)) else None);
  written ← Counting.checked_add (jn_written j) 1;
  Some (mk_journal keys written (jn_floor j)).
(** The inner [None]: some of the keys have been overwritten. *)
Definition journal_since (j : MembershipJournal) (position : Z) : option (option (list SubChunkKey)) :=
  match Counting.checked_sub (jn_written j) position with
  | None => Some None
  | Some pending =>
    if (position <? jn_floor j) || (MEMBERSHIP_JOURNAL_CAPACITY <? pending) then Some None
    else keys ← mapM (λ position, slot ← journal_slot j position; jn_keys j !! slot) (seqZ position pending); Some (Some keys)
  end.
Definition journal_restart_after (j : MembershipJournal) : option MembershipJournal :=
  written ← Counting.checked_add (jn_written j) 1; Some (mk_journal [] written written).

(** *** What the ring holds of the keys recorded since its floor *)

Record logs (j : MembershipJournal) (log : list SubChunkKey) : Prop := {
  lg_floor : 0 ≤ jn_floor j;
  lg_written : jn_written j = jn_floor j + Z.of_nat (length log);
  lg_length : Z.of_nat (length (jn_keys j)) = Z.min (Z.of_nat (length log)) MEMBERSHIP_JOURNAL_CAPACITY;
  lg_keys (i : nat) : (i < length log)%nat → Z.of_nat (length log) ≤ Z.of_nat i + MEMBERSHIP_JOURNAL_CAPACITY →
    jn_keys j !! Z.to_nat (Z.of_nat i mod MEMBERSHIP_JOURNAL_CAPACITY) = log !! i;
}.
Lemma logs_default : logs journal_default [].
Proof. split; [done|done|done|]. intros i Hi. simpl in Hi. lia. Qed.
Lemma slot_at j i : 0 ≤ i → journal_slot j (jn_floor j + i) = Some (Z.to_nat (i mod MEMBERSHIP_JOURNAL_CAPACITY)).
Proof.
  intros Hi. unfold journal_slot. rewrite (proj2 (checked_sub_Some (jn_floor j + i) (jn_floor j) i)) by lia. done.
Qed.
Lemma record_spec j log key : logs j log → jn_written j < USIZE_MAX →
  ∃ j', journal_record key j = Some j' ∧ logs j' (log ++ [key]) ∧ jn_floor j' = jn_floor j ∧ jn_written j' = jn_written j + 1.
Proof.
  intros [Hf Hw Hl Hk] Hroom. unfold journal_record. pose proof (slot_at j (Z.of_nat (length log)) ltac:(lia)) as Hslot. rewrite <-Hw in Hslot. rewrite Hslot. simpl.
  rewrite (proj2 (checked_add_Some (jn_written j) 1 (jn_written j + 1))) by lia.
  set (n := Z.of_nat (length log)) in *. set (slot := Z.to_nat (n mod MEMBERSHIP_JOURNAL_CAPACITY)).
  assert (Hmod : ∀ i : Z, 0 ≤ i → 0 ≤ i mod MEMBERSHIP_JOURNAL_CAPACITY < MEMBERSHIP_JOURNAL_CAPACITY) by (intros i _; by apply Z.mod_pos_bound).
  destruct (decide (n < MEMBERSHIP_JOURNAL_CAPACITY)) as [Hsmall|Hlarge].
  - assert (Hs : slot = length (jn_keys j)) by (unfold slot; rewrite Z.mod_small by lia; lia). rewrite decide_True by done. simpl.
    eexists. split; [done|]. split; [|done]. split; simpl; [done|rewrite length_app; simpl; lia|rewrite !length_app; simpl; lia|].
    intros i Hi _. rewrite length_app in Hi. simpl in Hi. rewrite Z.mod_small, Nat2Z.id by (unfold MEMBERSHIP_JOURNAL_CAPACITY in *; lia).
    destruct (decide (i < length log)%nat) as [Hlt|Hge].
    + rewrite !lookup_app_l by (unfold MEMBERSHIP_JOURNAL_CAPACITY in *; lia). rewrite <-(Hk i) by (unfold MEMBERSHIP_JOURNAL_CAPACITY in *; lia).
      by rewrite Z.mod_small, Nat2Z.id by (unfold MEMBERSHIP_JOURNAL_CAPACITY in *; lia).
    + rewrite !lookup_app_r by (unfold MEMBERSHIP_JOURNAL_CAPACITY in *; lia). f_equal. unfold MEMBERSHIP_JOURNAL_CAPACITY in *. lia.
  - assert (Hlen : Z.of_nat (length (jn_keys j)) = MEMBERSHIP_JOURNAL_CAPACITY) by lia. pose proof (Hmod n ltac:(lia)) as Hmn.
    rewrite decide_False, decide_True by (unfold slot; lia). simpl. eexists. split; [done|]. split; [|done].
    split; simpl; [done|rewrite length_app; simpl; lia|rewrite length_app, length_insert; simpl; lia|].
    intros i Hi Hrecent. rewrite length_app in Hi, Hrecent. simpl in Hi, Hrecent. destruct (decide (i = length log)) as [->|Hne].
    + rewrite lookup_app_r, Nat.sub_diag by lia. fold n. fold slot. simpl. apply list_lookup_insert_eq. unfold slot. lia.
    + rewrite lookup_app_l by lia. rewrite <-(Hk i) by lia. apply list_lookup_insert_ne. unfold slot. intros Heq.
      assert (n mod MEMBERSHIP_JOURNAL_CAPACITY = Z.of_nat i mod MEMBERSHIP_JOURNAL_CAPACITY) as Hm by (apply Z2Nat.inj; [lia|apply Hmod; lia|done]).
      unfold MEMBERSHIP_JOURNAL_CAPACITY in *. pose proof (Z.div_mod n 8192). pose proof (Z.div_mod (Z.of_nat i) 8192). lia.
Qed.
Lemma since_spec j log position : logs j log → 0 ≤ position → journal_since j position =
  Some (if decide (jn_floor j ≤ position ∧ position ≤ jn_written j ∧ jn_written j - position ≤ MEMBERSHIP_JOURNAL_CAPACITY) then Some (drop (Z.to_nat (position - jn_floor j)) log) else None).
Proof.
  intros [Hf Hw Hl Hk] Hp. unfold journal_since, Counting.checked_sub. destruct (Z.leb_spec position (jn_written j)) as [Hle|Hgt].
  2:{ rewrite decide_False; [done|lia]. }
  destruct (Z.ltb_spec position (jn_floor j)), (Z.ltb_spec MEMBERSHIP_JOURNAL_CAPACITY (jn_written j - position)); simpl; try (rewrite decide_False; [done|lia]).
  rewrite decide_True by lia. assert (Hm : mapM (λ p, slot ← journal_slot j p; jn_keys j !! slot) (seqZ position (jn_written j - position)) = Some (drop (Z.to_nat (position - jn_floor j)) log)).
  { apply mapM_Some. apply Forall2_same_length_lookup_2.
    - rewrite length_seqZ, length_drop. lia.
    - intros i p key Hi Hkey. apply lookup_seqZ in Hi as [-> Hi]. rewrite lookup_drop in Hkey.
      replace (position + Z.of_nat i) with (jn_floor j + (position - jn_floor j + Z.of_nat i)) by lia. rewrite slot_at by lia. simpl.
      rewrite <-Hkey. rewrite <-(Hk (Z.to_nat (position - jn_floor j) + i)%nat) by lia. do 3 f_equal. lia. }
  by rewrite Hm.
Qed.
Lemma restart_spec j log : logs j log → jn_written j < USIZE_MAX →
  ∃ j', journal_restart_after j = Some j' ∧ logs j' [] ∧ jn_floor j' = jn_written j + 1 ∧ jn_written j' = jn_written j + 1.
Proof.
  intros [Hf Hw Hl Hk] Hroom. unfold journal_restart_after. rewrite (proj2 (checked_add_Some (jn_written j) 1 (jn_written j + 1))) by lia.
  eexists. split; [done|]. split; [|done]. split; simpl; [lia|lia|done|lia].
Qed.

(** ** The set *)

(** [binary_search_by_key(&y, |key| key.y)] on a column in ascending height: where the height is, or where it belongs. *)
Fixpoint search_y (y : Z) (column : list SubChunkKey) : nat + nat :=
  match column with
  | [] => inr 0%nat
  | key :: column =>
    if y <? sk_y key then inr 0%nat
    else if y =? sk_y key then inl 0%nat
    else match search_y y column with inl at_ => inl (S at_) | inr at_ => inr (S at_) end
  end.
Record ColumnSubChunkSet := mk_set {
  cs_columns : gmap ChunkKey (list SubChunkKey);
  cs_ordered : gmap ChunkKey Z;
  cs_generation : Z;
  cs_revision : Z;
  cs_len : Z;
  cs_hash : option Z;
  cs_journal : MembershipJournal;
}.
Definition set_default : ColumnSubChunkSet := mk_set ∅ ∅ 0 0 0 None journal_default.
(** [==]: what is cached does not count. *)
Definition set_eqb (a b : ColumnSubChunkSet) : bool := (cs_len a =? cs_len b) && bool_decide (cs_columns a = cs_columns b).
Definition set_contains (key : SubChunkKey) (s : ColumnSubChunkSet) : bool :=
  match cs_columns s !! sk_chunk key with
  | Some column => match search_y (sk_y key) column with inl _ => true | inr _ => false end
  | None => false
  end.
(** The column is created first: a new one is empty, and takes the next age. *)
Definition set_insert (key : SubChunkKey) (s : ColumnSubChunkSet) : option (bool * ColumnSubChunkSet) :=
  let c := sk_chunk key in
  let column := default [] (cs_columns s !! c) in
  '(generation, ordered) ← (if decide (column = []) then
      generation ← Counting.checked_add (cs_generation s) 1; Some (generation, <[c := generation]> (cs_ordered s))
    else Some (cs_generation s, cs_ordered s));
  match search_y (sk_y key) column with
  | inl _ => Some (false, mk_set (<[c := column]> (cs_columns s)) ordered generation (cs_revision s) (cs_len s) (cs_hash s) (cs_journal s))
  | inr at_ =>
    len ← Counting.checked_add (cs_len s) 1;
    revision ← Counting.checked_add (cs_revision s) 1;
    journal ← journal_record key (cs_journal s);
    Some (true, mk_set (<[c := take at_ column ++ key :: drop at_ column]> (cs_columns s)) ordered generation revision len None journal)
  end.
Definition set_remove (key : SubChunkKey) (s : ColumnSubChunkSet) : option (bool * ColumnSubChunkSet) :=
  let c := sk_chunk key in
  match cs_columns s !! c with
  | None => Some (false, s)
  | Some column =>
    match search_y (sk_y key) column with
    | inr _ => Some (false, s)
    | inl at_ =>
      let column := delete at_ column in
      len ← Counting.checked_sub (cs_len s) 1;
      revision ← Counting.checked_add (cs_revision s) 1;
      journal ← journal_record key (cs_journal s);
      let emptied := bool_decide (column = []) in
      Some (true, mk_set (if emptied then delete c (cs_columns s) else <[c := column]> (cs_columns s))
        (if emptied then delete c (cs_ordered s) else cs_ordered s) (cs_generation s) revision len None journal)
    end
  end.
(** [for &key in .. { self.journal.record(key) }] *)
Definition record_each (keys : list SubChunkKey) (j : MembershipJournal) : option MembershipJournal := foldM (λ j key, journal_record key j) j keys.
Definition set_replace_column (c : ChunkKey) (keys : list SubChunkKey) (s : ColumnSubChunkSet) : option ColumnSubChunkSet :=
  if negb (forallb (λ key, bool_decide (sk_chunk key = c)) keys) then None
  else
    let replacement := dedup (merge_sort sub_chunk_key_le keys) in
    if decide (default [] (cs_columns s !! c) = replacement) then Some s
    else
      revision ← Counting.checked_add (cs_revision s) 1;
      journal ← record_each replacement (cs_journal s);
      let added := Z.of_nat (length replacement) in
      let previous := cs_columns s !! c in
      '(columns, ordered, generation) ← (if decide (replacement = []) then Some (delete c (cs_columns s), delete c (cs_ordered s), cs_generation s)
        else
          '(ordered, generation) ← (match cs_ordered s !! c with
            | Some _ => Some (cs_ordered s, cs_generation s)
            | None => generation ← Counting.checked_add (cs_generation s) 1; Some (<[c := generation]> (cs_ordered s), generation)
            end);
          Some (<[c := replacement]> (cs_columns s), ordered, generation));
      journal ← record_each (default [] previous) journal;
      let removed := Z.of_nat (length (default [] previous)) in
      len ← Counting.checked_sub (cs_len s) removed;
      len ← Counting.checked_add len added;
      Some (mk_set columns ordered generation revision len None journal).
Definition set_iter (s : ColumnSubChunkSet) : option (list SubChunkKey) :=
  (λ l, concat l) <$> mapM (λ c, cs_columns s !! c) (sorted_chunks (dom (cs_ordered s))).
Definition set_column (c : ChunkKey) (s : ColumnSubChunkSet) : list SubChunkKey := default [] (cs_columns s !! c).
(** In no particular order. *)
Definition set_columns (s : ColumnSubChunkSet) : option (list ChunkKey) := mapM (λ x, sk_chunk <$> head x.2) (map_to_list (cs_columns s)).
Definition set_next_column (cursor : option ChunkKey) (s : ColumnSubChunkSet) : option ChunkKey :=
  head (filter (λ c, match cursor with Some cursor => negb (chunk_key_leb c cursor) | None => true end = true) (sorted_chunks (dom (cs_ordered s)))).
Definition set_changed_since (s : ColumnSubChunkSet) (position : Z) : option (option (list SubChunkKey)) := journal_since (cs_journal s) position.
Definition set_existed_at (c : ChunkKey) (generation : Z) (s : ColumnSubChunkSet) : bool :=
  match cs_ordered s !! c with Some created => created <=? generation | None => false end.
(** The set that was detached, and what takes its place. *)
Definition set_retire (s : ColumnSubChunkSet) : option (ColumnSubChunkSet * ColumnSubChunkSet) :=
  revision ← Counting.checked_add (cs_revision s) (if cs_len s =? 0 then 0 else 1);
  journal ← journal_restart_after (cs_journal s);
  Some (s, mk_set ∅ ∅ (cs_generation s) revision 0 None journal).
(** FNV-1a over the little-endian fields of the keys, [helpers.rs]. *)
Definition FNV_OFFSET_BASIS : Z := 0xcbf29ce484222325.
Definition FNV_PRIME : Z := 0x00000100000001b3.
Definition deterministic_sub_chunk_key_hash (keys : list SubChunkKey) : Z :=
  foldl (λ hash byte, Z.lxor hash byte * FNV_PRIME mod 2 ^ 64) FNV_OFFSET_BASIS
    (field ← (key ← keys; [sk_dimension key; sk_x key; sk_y key; sk_z key]); le_bytes 4 (to_unsigned 32 field)).
(** [get_or_init] *)
Definition set_deterministic_hash (s : ColumnSubChunkSet) : option (Z * ColumnSubChunkSet) :=
  match cs_hash s with
  | Some hash => Some (hash, s)
  | None =>
    keys ← set_iter s;
    let hash := deterministic_sub_chunk_key_hash (merge_sort sub_chunk_key_le keys) in
    Some (hash, mk_set (cs_columns s) (cs_ordered s) (cs_generation s) (cs_revision s) (cs_len s) (Some hash) (cs_journal s))
  end.
Definition set_extend (keys : list SubChunkKey) (s : ColumnSubChunkSet) : option ColumnSubChunkSet :=
  foldM (λ s key, snd <$> set_insert key s) s keys.

(** *** Columns in height order *)

#[export] Instance sub_chunk_key_le_anti : AntiSymm (=) sub_chunk_key_le.
Proof. intros a b. rewrite !sub_chunk_key_le_iff. intros H1 H2. destruct a, b; simpl in *. f_equal; lia. Qed.
Definition lower (a b : SubChunkKey) : Prop := sk_y a < sk_y b.
Lemma lower_asym a b : lower a b → ¬ lower b a.
Proof. unfold lower. lia. Qed.
Lemma search_found y col at_ : search_y y col = inl at_ → ∃ key, col !! at_ = Some key ∧ sk_y key = y.
Proof.
  revert at_. induction col as [|k col IH]; intros at_; simpl; [done|]. destruct (Z.ltb_spec y (sk_y k)); [done|]. destruct (Z.eqb_spec y (sk_y k)) as [->|Hne].
  - intros [= <-]. by exists k.
  - destruct (search_y y col) as [i|i]; [|done]. intros [= <-]. by apply IH.
Qed.
Lemma search_missing y col at_ : StronglySorted lower col → search_y y col = inr at_ →
  (∀ key, key ∈ take at_ col → sk_y key < y) ∧ (∀ key, key ∈ drop at_ col → y < sk_y key).
Proof.
  intros Hs. revert at_. induction Hs as [|k col Hs IH Hk]; intros at_; simpl.
  { intros [= <-]. split; intros key Hkey; by apply not_elem_of_nil in Hkey. }
  rewrite Forall_forall in Hk. destruct (Z.ltb_spec y (sk_y k)) as [Hlt|Hge].
  { intros [= <-]. split; [intros key Hkey; by apply not_elem_of_nil in Hkey|]. simpl. intros key [->|Hin]%elem_of_cons; [done|]. specialize (Hk key Hin). unfold lower in Hk. lia. }
  destruct (Z.eqb_spec y (sk_y k)) as [->|Hne]; [done|]. destruct (search_y y col) as [i|i]; [done|]. intros [= <-]. destruct (IH i eq_refl) as [H1 H2]. split; simpl; [|done].
  intros key [->|Hin]%elem_of_cons; [lia|by apply H1].
Qed.
Lemma column_key c col a b : Forall (λ k, sk_chunk k = c) col → a ∈ col → sk_chunk b = c → sk_y a = sk_y b → a = b.
Proof. rewrite Forall_forall. intros Hc Ha Hb Hy. specialize (Hc a Ha). destruct a, b. unfold sk_chunk in *. simpl in *. congruence. Qed.
(** The search finds the key itself, as the column's keys differ in nothing but their heights. *)
Lemma search_spec key col : StronglySorted lower col → Forall (λ k, sk_chunk k = sk_chunk key) col →
  match search_y (sk_y key) col with
  | inl at_ => col !! at_ = Some key
  | inr at_ => key ∉ col ∧ StronglySorted lower (take at_ col ++ key :: drop at_ col)
  end.
Proof.
  intros Hs Hc. destruct (search_y (sk_y key) col) as [i|i] eqn:Hf.
  - apply search_found in Hf as (k & Hk & Hy). rewrite Hk. f_equal. by eapply column_key; [exact Hc|by eapply list_elem_of_lookup_2|done|].
  - destruct (search_missing _ _ _ Hs Hf) as [H1 H2]. split.
    + rewrite <-(take_drop i col), elem_of_app. intros [Hin|Hin]; [specialize (H1 _ Hin)|specialize (H2 _ Hin)]; lia.
    + rewrite <-(take_drop i col) in Hs. apply StronglySorted_app in Hs as (Hcross & Ht & Hd). apply StronglySorted_app. split; [|split; [done|]].
      * intros a b Ha [->|Hb]%elem_of_cons; [by apply H1|by apply Hcross].
      * constructor; [done|]. apply Forall_forall. intros b Hb. by apply H2.
Qed.
Lemma lower_of_sorted c l : StronglySorted sub_chunk_key_le l → NoDup l → Forall (λ k, sk_chunk k = c) l → StronglySorted lower l.
Proof.
  induction 1 as [|x l Hl IH Hx]; intros Hnd Hc; [constructor|]. apply NoDup_cons in Hnd as [Hn Hnd]. apply Forall_cons in Hc as [Hcx Hc]. constructor; [by apply IH|].
  rewrite Forall_forall in Hx, Hc. apply Forall_forall. intros y Hy. specialize (Hx y Hy). specialize (Hc y Hy). apply sub_chunk_key_le_iff in Hx.
  assert (x ≠ y) by congruence. unfold lower. destruct x, y. unfold sk_chunk in *. simpl in *. destruct Hcx. injection Hc as -> -> ->. assert (sk_y ≠ sk_y0) by congruence. lia.
Qed.
Lemma replacement_spec c keys : forallb (λ key, bool_decide (sk_chunk key = c)) keys = true →
  let l := dedup (merge_sort sub_chunk_key_le keys) in Forall (λ k, sk_chunk k = c) l ∧ StronglySorted lower l ∧ (∀ k, k ∈ l ↔ k ∈ keys) ∧ (length l ≤ length keys)%nat.
Proof.
  intros Hc l. assert (Hd : StronglySorted sub_chunk_key_le l ∧ NoDup l ∧ ∀ k, k ∈ l ↔ k ∈ merge_sort sub_chunk_key_le keys).
  { unfold l, dedup. pose proof (StronglySorted_merge_sort sub_chunk_key_le keys) as Hs. destruct (merge_sort sub_chunk_key_le keys) as [|x m].
    - split; [constructor|]. split; [constructor|done].
    - by apply (dedup_from_spec sub_chunk_key_le). }
  destruct Hd as (Hs & Hnd & Hin). assert (Hin' : ∀ k, k ∈ l ↔ k ∈ keys) by (intros k; by rewrite Hin, merge_sort_Permutation).
  assert (Hcl : Forall (λ k, sk_chunk k = c) l).
  { apply Forall_forall. intros k Hk%Hin'. rewrite forallb_forall in Hc. apply list_elem_of_In in Hk. specialize (Hc k Hk). by apply bool_decide_eq_true in Hc. }
  split; [done|]. split; [by eapply lower_of_sorted|]. split; [done|]. apply submseteq_length. apply NoDup_submseteq; [done|]. intros k. by rewrite Hin'.
Qed.

(** *** The invariant *)

(** The columns [columns] and their ages [ordered] hold the keys [X]. *)
Record shape (columns : gmap ChunkKey (list SubChunkKey)) (ordered : gmap ChunkKey Z) (generation : Z) (X : gset SubChunkKey) : Prop := {
  sh_column c col : columns !! c = Some col → col ≠ [] ∧ Forall (λ k, sk_chunk k = c) col ∧ StronglySorted lower col;
  sh_members k : k ∈ X ↔ k ∈ default [] (columns !! sk_chunk k);
  sh_ordered c : is_Some (ordered !! c) ↔ is_Some (columns !! c);
  sh_ages c age : ordered !! c = Some age → age ≤ generation;
}.
Record set_ok (s : ColumnSubChunkSet) (X : gset SubChunkKey) (log : list SubChunkKey) : Prop := {
  sk_shape : shape (cs_columns s) (cs_ordered s) (cs_generation s) X;
  sk_len : cs_len s = Z.of_nat (size X);
  sk_recorded : (size X ≤ length log)%nat;
  sk_journal : logs (cs_journal s) log;
  sk_generation : 0 ≤ cs_generation s ≤ jn_written (cs_journal s);
  sk_revision : 0 ≤ cs_revision s ≤ jn_written (cs_journal s);
  sk_hash hash : cs_hash s = Some hash → hash = deterministic_sub_chunk_key_hash (sorted_keys X);
}.
Lemma set_default_ok : set_ok set_default ∅ [].
Proof.
  split; simpl; try done.
  split; [done|intros k; split; intros Hk; [by apply elem_of_empty in Hk|by apply not_elem_of_nil in Hk]|by intros c; split; intros [? ?]|done].
Qed.
Lemma shape_column columns ordered generation X c : shape columns ordered generation X →
  Forall (λ k, sk_chunk k = c) (default [] (columns !! c)) ∧ StronglySorted lower (default [] (columns !! c)) ∧
  ∀ k, k ∈ default [] (columns !! c) ↔ k ∈ X ∧ sk_chunk k = c.
Proof.
  intros [Hc Hm _ _]. assert (Hf : Forall (λ k, sk_chunk k = c) (default [] (columns !! c)) ∧ StronglySorted lower (default [] (columns !! c))).
  { destruct (columns !! c) as [col|] eqn:E; simpl; [|split; constructor]. destruct (Hc c col E) as (_ & H1 & H2). by split. }
  destruct Hf as [Hf Hs]. split; [done|]. split; [done|]. intros k. rewrite Hm. rewrite Forall_forall in Hf. split; [intros Hk; specialize (Hf k Hk) as <-; done|by intros [Hk <-]].
Qed.
(** The keys with those of one column replaced. *)
Definition put_column (c : ChunkKey) (col : list SubChunkKey) (X : gset SubChunkKey) : gset SubChunkKey := filter (λ k, sk_chunk k ≠ c) X ∪ list_to_set col.
Lemma elem_of_put c col X k : Forall (λ k, sk_chunk k = c) col → k ∈ put_column c col X ↔ (sk_chunk k = c ∧ k ∈ col) ∨ (sk_chunk k ≠ c ∧ k ∈ X).
Proof.
  intros Hc. unfold put_column. rewrite elem_of_union, elem_of_filter, elem_of_list_to_set. rewrite Forall_forall in Hc. split; [|tauto].
  intros [Hk|Hk]; [by right|left; split; [by apply Hc|done]].
Qed.
Lemma lower_NoDup l : StronglySorted lower l → NoDup l.
Proof. apply strict_sorted_NoDup, lower_asym. Qed.
Lemma size_put columns ordered generation c col X : shape columns ordered generation X → Forall (λ k, sk_chunk k = c) col → StronglySorted lower col →
  (size (put_column c col X) + length (default [] (columns !! c)) = size X + length col)%nat.
Proof.
  intros Hsh Hc Hs. destruct (shape_column _ _ _ _ c Hsh) as (Hfc & Hsc & Hin). unfold put_column. rewrite Forall_forall in Hc.
  assert (HX : X = filter (λ k, sk_chunk k ≠ c) X ∪ list_to_set (default [] (columns !! c))).
  { apply set_eq. intros k. rewrite elem_of_union, elem_of_filter, elem_of_list_to_set, Hin. destruct (decide (sk_chunk k = c)); tauto. }
  assert (Hsz : size X = (size (filter (λ k, sk_chunk k ≠ c) X) + length (default [] (columns !! c)))%nat).
  { rewrite HX at 1. rewrite size_union, size_list_to_set; [done|by apply lower_NoDup|]. intros k [Hk _]%elem_of_filter [_ Hk']%elem_of_list_to_set%Hin. done. }
  rewrite Hsz, size_union, size_list_to_set; [lia|by apply lower_NoDup|]. intros k [Hk _]%elem_of_filter Hk'%elem_of_list_to_set. by apply Hk, Hc.
Qed.
Lemma put_shape columns ordered generation X c col ordered' generation' : shape columns ordered generation X → Forall (λ k, sk_chunk k = c) col → StronglySorted lower col →
  (∀ c', c' ≠ c → ordered' !! c' = ordered !! c') → (is_Some (ordered' !! c) ↔ col ≠ []) → (∀ age, ordered' !! c = Some age → age ≤ generation') → generation ≤ generation' →
  shape (if decide (col = []) then delete c columns else <[c := col]> columns) ordered' generation' (put_column c col X).
Proof.
  intros [Hcol Hm Ho Ha] Hc Hs Hother Hhere Hage Hgen. set (columns' := if decide (col = []) then delete c columns else <[c := col]> columns).
  assert (Hl : columns' !! c = if decide (col = []) then None else Some col) by (unfold columns'; case_decide; [apply lookup_delete_eq|apply lookup_insert_eq]).
  assert (Hl' : ∀ c', c' ≠ c → columns' !! c' = columns !! c') by (intros c' Hne; unfold columns'; case_decide; [by apply lookup_delete_ne|by apply lookup_insert_ne]).
  split.
  - intros c' col' Hlk. destruct (decide (c' = c)) as [->|Hne]; [|rewrite Hl' in Hlk by done; by apply Hcol]. rewrite Hl in Hlk. case_decide; [done|]. by injection Hlk as <-.
  - intros k. rewrite elem_of_put by done. destruct (decide (sk_chunk k = c)) as [Hk|Hk].
    + rewrite Hk, Hl. case_decide as He; [subst col|]; simpl; tauto.
    + rewrite Hl', Hm by done. tauto.
  - intros c'. destruct (decide (c' = c)) as [->|Hne]; [|rewrite Hother, Hl' by done; apply Ho]. rewrite Hhere, Hl. case_decide; split; [done|by intros [? ?]|done|done].
  - intros c' age Hlk. destruct (decide (c' = c)) as [->|Hne]; [by apply Hage|]. rewrite Hother in Hlk by done. specialize (Ha c' age Hlk). lia.
Qed.

(** What a call does to the clocks, the ages and the journal. *)
Record moves (retired : bool) (s : ColumnSubChunkSet) (X : gset SubChunkKey) (log : list SubChunkKey) (s' : ColumnSubChunkSet) (X' : gset SubChunkKey) (log' : list SubChunkKey) : Prop := {
  mo_generation : cs_generation s ≤ cs_generation s';
  mo_ages c : cs_ordered s' !! c = cs_ordered s !! c ∨ cs_ordered s' !! c = None ∨
    (cs_ordered s !! c = None ∧ ∃ age, cs_ordered s' !! c = Some age ∧ cs_generation s < age);
  mo_revision : cs_revision s ≤ cs_revision s' ∧ (cs_revision s' = cs_revision s ↔ X' = X);
  mo_log : if retired then jn_written (cs_journal s) < jn_floor (cs_journal s')
    else jn_floor (cs_journal s') = jn_floor (cs_journal s) ∧ ∃ new, log' = log ++ new ∧ ∀ k, k ∉ new → k ∈ X' ↔ k ∈ X;
}.
Lemma moves_same s X log s' : cs_generation s' = cs_generation s → cs_ordered s' = cs_ordered s → cs_revision s' = cs_revision s → cs_journal s' = cs_journal s →
  moves false s X log s' X log.
Proof.
  intros Hg Ho Hr Hj. split; [lia|intros c; left; by rewrite Ho|split; [lia|done]|]. rewrite Hj. split; [done|]. exists []. by rewrite app_nil_r.
Qed.
Definition aged (c : ChunkKey) (col : list SubChunkKey) (s : ColumnSubChunkSet) : gmap ChunkKey Z * Z :=
  if decide (col = []) then (delete c (cs_ordered s), cs_generation s)
  else match cs_ordered s !! c with Some _ => (cs_ordered s, cs_generation s) | None => (<[c := cs_generation s + 1]> (cs_ordered s), cs_generation s + 1) end.
Lemma aged_spec c col s : let '(ordered, generation) := aged c col s in
  (∀ c', c' ≠ c → ordered !! c' = cs_ordered s !! c') ∧ (is_Some (ordered !! c) ↔ col ≠ []) ∧ cs_generation s ≤ generation ≤ cs_generation s + 1 ∧
  ((∀ c age, cs_ordered s !! c = Some age → age ≤ cs_generation s) → ∀ age, ordered !! c = Some age → age ≤ generation) ∧
  ∀ c, ordered !! c = cs_ordered s !! c ∨ ordered !! c = None ∨ (cs_ordered s !! c = None ∧ ∃ age, ordered !! c = Some age ∧ cs_generation s < age).
Proof.
  unfold aged. case_decide as Hcol; [|destruct (cs_ordered s !! c) as [age|] eqn:Ho].
  - split; [intros c' Hne; by apply lookup_delete_ne|]. rewrite lookup_delete_eq. split; [split; [by intros [? ?]|done]|]. split; [lia|]. split; [done|].
    intros c'. destruct (decide (c' = c)) as [->|Hne]; [right; left; apply lookup_delete_eq|left; by apply lookup_delete_ne].
  - split; [done|]. rewrite Ho. split; [done|]. split; [lia|]. split; [intros Ha a [= <-]; by apply (Ha c)|]. intros c'. by left.
  - split; [intros c' Hne; by apply lookup_insert_ne|]. rewrite lookup_insert_eq. split; [done|]. split; [lia|]. split; [intros _ a [= <-]; lia|].
    intros c'. destruct (decide (c' = c)) as [->|Hne]; [right; right|left; by apply lookup_insert_ne]. rewrite lookup_insert_eq. split; [done|]. eexists. split; [done|lia].
Qed.
Definition put_set (c : ChunkKey) (col : list SubChunkKey) (revision : Z) (len : Z) (journal : MembershipJournal) (s : ColumnSubChunkSet) : ColumnSubChunkSet :=
  mk_set (if decide (col = []) then delete c (cs_columns s) else <[c := col]> (cs_columns s)) (aged c col s).1 (aged c col s).2 revision len None journal.
(** Every change of a column is one of these. *)
Lemma put_set_ok s X log c col new journal : set_ok s X log → Forall (λ k, sk_chunk k = c) col → StronglySorted lower col → col ≠ set_column c s →
  logs journal (log ++ new) → jn_floor journal = jn_floor (cs_journal s) → jn_written journal = jn_written (cs_journal s) + Z.of_nat (length new) → new ≠ [] →
  (∀ k, k ∉ new → k ∈ put_column c col X ↔ k ∈ X) → (size (put_column c col X) ≤ size X + length new)%nat →
  let s' := put_set c col (cs_revision s + 1) (Z.of_nat (size (put_column c col X))) journal s in
  set_ok s' (put_column c col X) (log ++ new) ∧ moves false s X log s' (put_column c col X) (log ++ new).
Proof.
  intros [Hsh Hlen Hrec Hj Hgen Hrev Hhash] Hc Hs Hne Hlogs Hfloor Hwritten Hnew Hdiff Hsize s'.
  assert (Hn : (1 ≤ length new)%nat) by (destruct new; simpl; [done|lia]).
  pose proof (aged_spec c col s) as Hag. unfold s', put_set. destruct (aged c col s) as [ordered generation]. simpl. destruct Hag as (Hother & Hhere & Hg & Hage & Hmoves).
  split; split; simpl.
  - apply put_shape with (ordered := cs_ordered s) (generation := cs_generation s); try done; [|lia]. apply Hage, Hsh.
  - done.
  - rewrite length_app. lia.
  - done.
  - lia.
  - lia.
  - done.
  - lia.
  - done.
  - split; [lia|]. split; [lia|]. intros HX. exfalso. apply Hne. destruct (shape_column _ _ _ _ c Hsh) as (_ & Hsc & Hin).
    apply (strict_sorted_ext lower); [apply lower_asym|done|done|]. intros k. unfold set_column. rewrite Hin, <-HX, elem_of_put by done. rewrite Forall_forall in Hc.
    split; [intros Hk; split; [left; split; [by apply Hc|done]|by apply Hc]|tauto].
  - split; [done|]. by exists new.
Qed.

Lemma column_aged s X log c : set_ok s X log → set_column c s = [] ↔ cs_ordered s !! c = None.
Proof.
  intros [[Hcol _ Ho _] _ _ _ _ _ _]. unfold set_column. specialize (Hcol c). specialize (Ho c). destruct (cs_columns s !! c) as [col|] eqn:E; simpl.
  - destruct (Hcol col eq_refl) as [Hne _]. split; [done|]. intros Hn. rewrite Hn in Ho. destruct (proj2 Ho) as [? ?]; done.
  - split; [|done]. intros _. apply eq_None_not_Some. rewrite Ho. by intros [? ?].
Qed.
Lemma set_insert_spec key s X log : set_ok s X log → jn_written (cs_journal s) < USIZE_MAX →
  ∃ s', set_insert key s = Some (bool_decide (key ∉ X), s') ∧ let log' := if decide (key ∈ X) then log else log ++ [key] in
    set_ok s' ({[key]} ∪ X) log' ∧ moves false s X log s' ({[key]} ∪ X) log' ∧ jn_written (cs_journal s') ≤ jn_written (cs_journal s) + 1.
Proof.
  intros Hok Hroom. pose proof Hok as [Hsh Hlen Hrec Hj Hgen Hrev Hhash]. set (c := sk_chunk key). destruct (shape_column _ _ _ _ c Hsh) as (Hc & Hs & Hin).
  pose proof (search_spec key (set_column c s) Hs Hc) as Hsearch. unfold set_insert. fold c. fold (set_column c s). pose proof (column_aged s X log c Hok) as Haged.
  destruct (search_y (sk_y key) (set_column c s)) as [i|i] eqn:Hf.
  - assert (Hk : key ∈ X) by (apply (Hin key); by eapply list_elem_of_lookup_2). assert (Hcol : set_column c s ≠ []) by (intros He; by rewrite He in Hsearch).
    rewrite decide_False by done. simpl. rewrite bool_decide_false by tauto. exists s. rewrite decide_True by done.
    assert (HX : {[key]} ∪ X = X) by set_solver. rewrite HX. split; [|split; [done|split; [by apply moves_same|lia]]]. do 2 f_equal.
    rewrite insert_id; [by destruct s|]. unfold set_column in *. by destruct (cs_columns s !! c).
  - destruct Hsearch as [Hno Hs']. assert (Hk : key ∉ X) by (intros Hk; apply Hno, Hin; by split). rewrite bool_decide_true by done. rewrite (decide_False (P := key ∈ X)) by done.
    set (col := take i (set_column c s) ++ key :: drop i (set_column c s)) in *.
    assert (Hcolin : ∀ k, k ∈ col ↔ k = key ∨ k ∈ set_column c s).
    { intros k. unfold col. rewrite elem_of_app, elem_of_cons. rewrite <-(take_drop i (set_column c s)) at 3. rewrite elem_of_app. tauto. }
    assert (Hcol : col ≠ []) by (intros He; assert (key ∈ col) as Hk' by (apply Hcolin; by left); rewrite He in Hk'; by apply not_elem_of_nil in Hk').
    assert (Hcc : Forall (λ k, sk_chunk k = c) col).
    { apply Forall_forall. rewrite Forall_forall in Hc. intros k [->|Hk']%Hcolin; [done|by apply Hc]. }
    assert (HX : put_column c col X = {[key]} ∪ X).
    { apply set_eq. intros k. rewrite elem_of_put, elem_of_union, elem_of_singleton by done. rewrite Hcolin. unfold set_column. rewrite Hin. destruct (decide (sk_chunk k = c)); [tauto|].
      split; [tauto|]. intros [->|Hk']; [done|tauto]. }
    destruct (record_spec _ _ key Hj Hroom) as (journal & Hr & Hlogs & Hfl & Hw).
    destruct (put_set_ok s X log c col [key] journal Hok Hcc Hs') as [Hok' Hmoves]; try done.
    { intros He. assert (Hk' : key ∈ set_column c s) by (rewrite <-He; apply Hcolin; by left). done. }
    { intros k Hk'. rewrite HX. rewrite list_elem_of_singleton in Hk'. set_solver. }
    { rewrite HX, size_union, size_singleton by set_solver. simpl. lia. }
    rewrite HX in *. eexists. split; [|split; [exact Hok'|split; [exact Hmoves|unfold put_set; simpl; lia]]].
    assert (Hgo : (if decide (set_column c s = []) then generation ← Counting.checked_add (cs_generation s) 1; Some (generation, <[c:=generation]> (cs_ordered s)) else Some (cs_generation s, cs_ordered s)) =
      Some ((aged c col s).2, (aged c col s).1)).
    { unfold aged. rewrite (decide_False (P := col = [])) by done. case_decide as He.
      - apply Haged in He. rewrite He. by rewrite (proj2 (checked_add_Some (cs_generation s) 1 (cs_generation s + 1))) by lia.
      - destruct (cs_ordered s !! c); [done|]. by destruct He; apply Haged. }
    rewrite Hgo. simpl. assert (Hsz : Z.of_nat (size X) < USIZE_MAX) by (pose proof (lg_written _ _ Hj); pose proof (lg_floor _ _ Hj); lia).
    rewrite (proj2 (checked_add_Some (cs_len s) 1 (cs_len s + 1))) by lia. simpl.
    rewrite (proj2 (checked_add_Some (cs_revision s) 1 (cs_revision s + 1))) by lia. simpl. rewrite Hr. simpl. unfold put_set. rewrite decide_False by done.
    do 3 f_equal. rewrite size_union, size_singleton by set_solver. lia.
Qed.
Lemma column_delete i key col : StronglySorted lower col → col !! i = Some key →
  StronglySorted lower (delete i col) ∧ ∀ k, k ∈ delete i col ↔ k ∈ col ∧ k ≠ key.
Proof.
  intros Hs Hi. rewrite <-(take_drop_middle col i key Hi) in Hs. apply StronglySorted_app in Hs as (Hcross & Ht & Hd). apply StronglySorted_inv in Hd as [Hd Hkd].
  rewrite Forall_forall in Hkd. split.
  - rewrite delete_take_drop. apply StronglySorted_app. split; [|by split]. intros a b Ha Hb. apply Hcross; [done|by right].
  - intros k. rewrite delete_take_drop. rewrite <-(take_drop_middle col i key Hi) at 3. rewrite !elem_of_app, elem_of_cons. split.
    + intros [Hk|Hk]; (split; [tauto|]); intros ->.
      * specialize (Hcross key key Hk ltac:(by left)). by apply (lower_asym key key).
      * specialize (Hkd key Hk). by apply (lower_asym key key).
    + intros [[Hk|[Hk|Hk]] Hne]; tauto.
Qed.
Lemma set_remove_spec key s X log : set_ok s X log → jn_written (cs_journal s) < USIZE_MAX →
  ∃ s', set_remove key s = Some (bool_decide (key ∈ X), s') ∧ let log' := if decide (key ∈ X) then log ++ [key] else log in
    set_ok s' (X ∖ {[key]}) log' ∧ moves false s X log s' (X ∖ {[key]}) log' ∧ jn_written (cs_journal s') + Z.of_nat (size (X ∖ {[key]})) ≤ jn_written (cs_journal s) + Z.of_nat (size X).
Proof.
  intros Hok Hroom. pose proof Hok as [Hsh Hlen Hrec Hj Hgen Hrev Hhash]. set (c := sk_chunk key). destruct (shape_column _ _ _ _ c Hsh) as (Hc & Hs & Hin).
  pose proof (search_spec key (set_column c s) Hs Hc) as Hsearch. unfold set_remove. fold c.
  assert (Hmiss : key ∉ X → set_ok s (X ∖ {[key]}) log ∧ moves false s X log s (X ∖ {[key]}) log ∧ jn_written (cs_journal s) + Z.of_nat (size (X ∖ {[key]})) ≤ jn_written (cs_journal s) + Z.of_nat (size X)).
  { intros Hk. assert (X ∖ {[key]} = X) as -> by set_solver. split; [done|]. split; [by apply moves_same|lia]. }
  unfold set_column in *. destruct (cs_columns s !! c) as [col|] eqn:Hlk; simpl in *.
  2:{ assert (Hk : key ∉ X) by (intros Hk; apply (not_elem_of_nil key), Hin; by split). exists s. rewrite bool_decide_false, decide_False by done. split; [done|]. by apply Hmiss. }
  destruct (search_y (sk_y key) col) as [i|i] eqn:Hf.
  2:{ assert (Hk : key ∉ X) by (intros Hk; apply Hsearch, Hin; by split). exists s. rewrite bool_decide_false, decide_False by done. split; [done|]. by apply Hmiss. }
  clear Hmiss. assert (Hk : key ∈ X) by (apply (Hin key); by eapply list_elem_of_lookup_2). rewrite (bool_decide_true (key ∈ X)), (decide_True (P := key ∈ X)) by done.
  destruct (column_delete i key col Hs Hsearch) as [Hs' Hcolin]. set (col' := delete i col) in *.
  assert (Hcc : Forall (λ k, sk_chunk k = c) col') by (apply Forall_forall; rewrite Forall_forall in Hc; intros k [Hk' _]%Hcolin; by apply Hc).
  assert (HX : put_column c col' X = X ∖ {[key]}).
  { apply set_eq. intros k. rewrite elem_of_put, elem_of_difference, elem_of_singleton by done. rewrite Hcolin, Hin. destruct (decide (sk_chunk k = c)); [tauto|]. split; [|tauto].
    intros [[? _]|[_ Hk']]; [done|]. split; [done|]. by intros ->. }
  assert (Hsz : size X = S (size (X ∖ {[key]}))).
  { assert (X = {[key]} ∪ X ∖ {[key]}) as HX' by (apply union_difference_L; set_solver). rewrite HX' at 1. rewrite size_union, size_singleton by set_solver. lia. }
  destruct (record_spec _ _ key Hj Hroom) as (journal & Hr & Hlogs & Hfl & Hw).
  destruct (put_set_ok s X log c col' [key] journal Hok Hcc Hs') as [Hok' Hmoves]; try done.
  { intros He. unfold set_column in He. rewrite Hlk in He. simpl in He. assert (Hk' : key ∈ col') by (rewrite He; by eapply list_elem_of_lookup_2). by apply Hcolin in Hk' as [_ ?]. }
  { intros k Hk'. rewrite HX. rewrite list_elem_of_singleton in Hk'. set_solver. }
  { rewrite HX. simpl. lia. }
  rewrite HX in *. eexists. split; [|split; [exact Hok'|split; [exact Hmoves|unfold put_set; simpl; lia]]].
  rewrite (proj2 (checked_sub_Some (cs_len s) 1 (cs_len s - 1))) by lia. simpl. rewrite (proj2 (checked_add_Some (cs_revision s) 1 (cs_revision s + 1))) by lia. simpl. rewrite Hr. simpl.
  assert (Ho : is_Some (cs_ordered s !! c)) by (apply (sh_ordered _ _ _ _ Hsh); by rewrite Hlk). destruct Ho as [age Ho]. unfold put_set, aged. rewrite Ho.
  replace (Z.of_nat (size (X ∖ {[key]}))) with (cs_len s - 1) by lia. case_decide as He; [rewrite bool_decide_true by done|rewrite bool_decide_false by done]; done.
Qed.
Lemma record_each_spec keys j log : logs j log → jn_written j + Z.of_nat (length keys) ≤ USIZE_MAX →
  ∃ j', record_each keys j = Some j' ∧ logs j' (log ++ keys) ∧ jn_floor j' = jn_floor j ∧ jn_written j' = jn_written j + Z.of_nat (length keys).
Proof.
  revert j log. induction keys as [|key keys IH]; intros j log Hj Hroom; simpl in *.
  { exists j. rewrite app_nil_r. split; [done|]. split; [done|]. split; [done|lia]. }
  destruct (record_spec j log key Hj) as (j1 & Hr & Hj1 & Hf1 & Hw1); [lia|]. unfold record_each. simpl. rewrite Hr. simpl.
  destruct (IH j1 (log ++ [key]) Hj1) as (j2 & Hr2 & Hj2 & Hf2 & Hw2); [lia|]. exists j2. rewrite <-app_assoc in Hj2. split; [done|]. split; [done|]. split; [congruence|lia].
Qed.
Lemma set_replace_column_spec c keys s X log : set_ok s X log → forallb (λ key, bool_decide (sk_chunk key = c)) keys = true →
  jn_written (cs_journal s) + Z.of_nat (size X) + Z.of_nat (length keys) ≤ USIZE_MAX → jn_written (cs_journal s) < USIZE_MAX →
  ∃ s' log', set_replace_column c keys s = Some s' ∧ let X' := filter (λ k, sk_chunk k ≠ c) X ∪ list_to_set keys in set_ok s' X' log' ∧ moves false s X log s' X' log' ∧
    jn_written (cs_journal s') + Z.of_nat (size X') ≤ jn_written (cs_journal s) + Z.of_nat (size X) + 2 * Z.of_nat (length keys).
Proof.
  intros Hok Hkeys Hroom Hlast. pose proof Hok as [Hsh Hlen Hrec Hj Hgen Hrev Hhash]. destruct (shape_column _ _ _ _ c Hsh) as (Hc & Hs & Hin).
  unfold set_replace_column. rewrite Hkeys. simpl. destruct (replacement_spec c keys Hkeys) as (Hrc & Hrs & Hrin & Hrlen).
  set (col := dedup (merge_sort sub_chunk_key_le keys)) in *. clearbody col. simpl in Hrc, Hrs, Hrin, Hrlen.
  assert (HX : filter (λ k, sk_chunk k ≠ c) X ∪ list_to_set keys = put_column c col X) by (apply set_eq; intros k; unfold put_column; by rewrite !elem_of_union, !elem_of_list_to_set, Hrin).
  rewrite HX. pose proof (size_put _ _ _ c col X Hsh Hrc Hrs) as Hsize. fold (set_column c s) in *. simpl. case_decide as Hsame.
  { exists s, log. split; [done|]. assert (put_column c col X = X) as Heq.
    { apply set_eq. intros k. rewrite elem_of_put by done. rewrite <-Hsame, Hin. destruct (decide (sk_chunk k = c)); tauto. }
    rewrite Heq in *. split; [done|]. split; [by apply moves_same|lia]. }
  rewrite (proj2 (checked_add_Some (cs_revision s) 1 (cs_revision s + 1))) by lia. simpl.
  assert (Hcol : (length (set_column c s) ≤ size X)%nat).
  { rewrite <-(size_list_to_set (C := gset SubChunkKey)) by by apply lower_NoDup. apply subseteq_size. intros k Hk%elem_of_list_to_set. by apply Hin in Hk as [Hk _]. }
  destruct (record_each_spec col _ _ Hj) as (j1 & Hr1 & Hj1 & Hf1 & Hw1); [lia|]. destruct (record_each_spec (set_column c s) _ _ Hj1) as (j2 & Hr2 & Hj2 & Hf2 & Hw2); [lia|].
  rewrite Hr1. simpl. rewrite <-app_assoc in Hj2.
  destruct (put_set_ok s X log c col (col ++ set_column c s) j2 Hok Hrc Hrs) as [Hok' Hmoves]; try done.
  - congruence.
  - rewrite length_app. lia.
  - intros [He1 He2]%app_eq_nil. by rewrite He1, He2 in Hsame.
  - intros k Hk. rewrite not_elem_of_app, Hin in Hk. rewrite elem_of_put by done. tauto.
  - rewrite length_app. lia.
  - exists (put_set c col (cs_revision s + 1) (Z.of_nat (size (put_column c col X))) j2 s), (log ++ col ++ set_column c s). split; [|split; [exact Hok'|split; [exact Hmoves|unfold put_set; simpl; lia]]].
    assert (Hgo : (if decide (col = []) then Some (delete c (cs_columns s), delete c (cs_ordered s), cs_generation s)
        else '(ordered, generation) ← (match cs_ordered s !! c with Some _ => Some (cs_ordered s, cs_generation s)
            | None => generation ← Counting.checked_add (cs_generation s) 1; Some (<[c:=generation]> (cs_ordered s), generation) end);
          Some (<[c:=col]> (cs_columns s), ordered, generation)) =
      Some (if decide (col = []) then delete c (cs_columns s) else <[c:=col]> (cs_columns s), (aged c col s).1, (aged c col s).2)).
    { unfold aged. case_decide; [done|]. destruct (cs_ordered s !! c); [done|]. by rewrite (proj2 (checked_add_Some (cs_generation s) 1 (cs_generation s + 1))) by lia. }
    rewrite Hgo. simpl. fold (set_column c s). rewrite Hr2. simpl.
    rewrite (proj2 (checked_sub_Some (cs_len s) (Z.of_nat (length (set_column c s))) (cs_len s - Z.of_nat (length (set_column c s))))) by lia. simpl.
    rewrite (proj2 (checked_add_Some (cs_len s - Z.of_nat (length (set_column c s))) (Z.of_nat (length col)) (Z.of_nat (size (put_column c col X))))); [done|].
    pose proof (lg_written _ _ Hj). pose proof (lg_floor _ _ Hj). lia.
Qed.
Lemma set_retire_spec s X log : set_ok s X log → jn_written (cs_journal s) < USIZE_MAX →
  ∃ s', set_retire s = Some (s, s') ∧ set_ok s' ∅ [] ∧ moves true s X log s' ∅ [] ∧ jn_written (cs_journal s') = jn_written (cs_journal s) + 1.
Proof.
  intros [Hsh Hlen Hrec Hj Hgen Hrev Hhash] Hroom. unfold set_retire. destruct (restart_spec _ _ Hj Hroom) as (journal & Hr & Hlogs & Hf & Hw).
  assert (Hinc : (if cs_len s =? 0 then 0 else 1) = if decide (X = ∅) then 0 else 1).
  { rewrite Hlen. case_decide as HX; [subst X; by rewrite size_empty|]. destruct (Z.eqb_spec (Z.of_nat (size X)) 0) as [Hz|]; [|done]. destruct HX. apply leibniz_equiv, size_empty_inv. lia. }
  rewrite Hinc. rewrite (proj2 (checked_add_Some (cs_revision s) (if decide (X = ∅) then 0 else 1) (cs_revision s + if decide (X = ∅) then 0 else 1))) by (case_decide; lia).
  simpl. rewrite Hr. simpl. eexists. split; [done|]. split; [|split; [|simpl; lia]].
  - pose proof (set_default_ok) as [Hd _ _ _ _ _ _]. split; simpl; [|done|done|done|lia|case_decide; lia|done]. split; [apply Hd|apply Hd|apply Hd|done].
  - split; simpl; [lia|intros c; right; left; apply lookup_empty| |lia]. destruct (decide (X = ∅)) as [->|HX]; (split; [lia|]); (split; [|intros He; try done; lia]); [done|lia].
Qed.

(** *** Queries *)


Lemma set_contains_spec key s X log : set_ok s X log → set_contains key s = bool_decide (key ∈ X).
Proof.
  intros [Hsh _ _ _ _ _ _]. destruct (shape_column _ _ _ _ (sk_chunk key) Hsh) as (Hc & Hs & Hin). pose proof (search_spec key _ Hs Hc) as Hsearch.
  unfold set_contains. destruct (cs_columns s !! sk_chunk key) as [col|]; simpl in *.
  - destruct (search_y (sk_y key) col) as [i|i]; symmetry; [apply bool_decide_eq_true|apply bool_decide_eq_false].
    + apply Hin. by eapply list_elem_of_lookup_2.
    + intros Hk. destruct Hsearch as [Hno _]. by apply Hno, Hin.
  - symmetry. apply bool_decide_eq_false. intros Hk. apply (not_elem_of_nil key), Hin. by split.
Qed.
Lemma set_column_spec c s X log : set_ok s X log → StronglySorted lower (set_column c s) ∧ ∀ k, k ∈ set_column c s ↔ k ∈ X ∧ sk_chunk k = c.
Proof. intros [Hsh _ _ _ _ _ _]. destruct (shape_column _ _ _ _ c Hsh) as (_ & Hs & Hin). by split. Qed.
Lemma populated c s X log : set_ok s X log → is_Some (cs_ordered s !! c) ↔ ∃ k, k ∈ X ∧ sk_chunk k = c.
Proof.
  intros Hok. pose proof (column_aged s X log c Hok) as Ha. destruct (set_column_spec c s X log Hok) as [_ Hin]. split.
  - intros Hs. destruct (set_column c s) as [|k col] eqn:E; [rewrite (proj1 Ha eq_refl) in Hs; by destruct Hs|]. exists k. apply Hin. by left.
  - intros (k & Hk). apply Hin in Hk. destruct (cs_ordered s !! c) as [age|] eqn:E; [done|]. rewrite (proj2 Ha eq_refl) in Hk. by apply not_elem_of_nil in Hk.
Qed.
(** Column by column in the order of their keys, each from its lowest section up. *)
Definition column_order (a b : SubChunkKey) : Prop :=
  sk_chunk a = sk_chunk b ∧ lower a b ∨ sk_chunk a ≠ sk_chunk b ∧ chunk_key_le (sk_chunk a) (sk_chunk b).
Lemma column_by_column (f : ChunkKey → list SubChunkKey) chunks : (∀ c, StronglySorted lower (f c) ∧ ∀ k, k ∈ f c → sk_chunk k = c) →
  StronglySorted chunk_key_le chunks → NoDup chunks → StronglySorted column_order (concat (f <$> chunks)).
Proof.
  intros Hf Hs. induction Hs as [|c chunks Hs IH Hc]; intros Hnd; simpl; [constructor|]. apply NoDup_cons in Hnd as [Hn Hnd]. destruct (Hf c) as [Hl Hin]. rewrite Forall_forall in Hc.
  apply StronglySorted_app. split; [|split; [|by apply IH]].
  - intros a b Ha%Hin Hb. apply list_elem_of_In, in_concat in Hb as (col & Hcol & Hb). apply list_elem_of_In in Hcol, Hb. apply list_elem_of_fmap in Hcol as (c' & -> & Hc').
    apply (Hf c') in Hb. right. rewrite Ha, Hb. split; [by intros ->|by apply Hc].
  - clear Hc IH Hs Hn. induction Hl as [|k col Hl IH Hk]; constructor; [apply IH; intros k' Hk'; apply Hin; by right|]. rewrite Forall_forall in Hk. apply Forall_forall. intros k' Hk'.
    left. split; [by rewrite !Hin by (by left || by right)|by apply Hk].
Qed.
Lemma set_iter_spec s X log : set_ok s X log → ∃ l, set_iter s = Some l ∧ StronglySorted column_order l ∧ NoDup l ∧ ∀ k, k ∈ l ↔ k ∈ X.
Proof.
  intros Hok. pose proof Hok as [Hsh _ _ _ _ _ _]. unfold set_iter. set (chunks := sorted_chunks (dom (cs_ordered s))).
  assert (Hchunks : ∀ c, c ∈ chunks → is_Some (cs_columns s !! c)) by (intros c Hc%elem_of_sorted_chunks; apply elem_of_dom in Hc; by apply (sh_ordered _ _ _ _ Hsh)).
  assert (Hm : mapM (λ c, cs_columns s !! c) chunks = Some ((λ c, set_column c s) <$> chunks)).
  { apply mapM_Some. apply Forall2_fmap_r. apply Forall_Forall2_diag, Forall_forall. intros c Hc. destruct (Hchunks c Hc) as [col Hcol]. unfold set_column. simpl. by rewrite Hcol. }
  assert (Hnd : NoDup chunks) by (unfold chunks, sorted_chunks; rewrite merge_sort_Permutation; apply NoDup_elements).
  rewrite Hm. simpl. eexists. split; [done|]. split; [|split].
  - apply column_by_column; [|apply StronglySorted_merge_sort; apply _|done]. intros c. destruct (set_column_spec c s X log Hok) as [? Hin]. split; [done|]. by intros k [_ ?]%Hin.
  - clear Hm Hchunks. clearbody chunks.
    induction Hnd as [|c chunks Hc Hnd IH]; simpl; [constructor|]. apply NoDup_app. split; [apply lower_NoDup, (set_column_spec c s X log Hok)|]. split; [|done].
    intros k Hk Hk'. apply list_elem_of_In, in_concat in Hk' as (col & Hcol & Hk'). apply list_elem_of_In in Hcol, Hk'. apply list_elem_of_fmap in Hcol as (c' & -> & Hc').
    apply (set_column_spec c s X log Hok) in Hk as [_ <-]. apply (set_column_spec c' s X log Hok) in Hk' as [_ Heq]. by subst c'.
  - intros k. rewrite list_elem_of_In, in_concat. split.
    + intros (col & Hcol & Hk). apply list_elem_of_In in Hcol, Hk. apply list_elem_of_fmap in Hcol as (c' & -> & _). by apply (set_column_spec c' s X log Hok) in Hk as [Hk _].
    + intros Hk. exists (set_column (sk_chunk k) s). rewrite <-!list_elem_of_In. split; [|by apply (set_column_spec (sk_chunk k) s X log Hok)].
      apply list_elem_of_fmap. exists (sk_chunk k). split; [done|]. apply elem_of_sorted_chunks, elem_of_dom. apply (populated _ _ _ _ Hok). by exists k.
Qed.
Lemma set_deterministic_hash_spec s X log : set_ok s X log → ∃ s', set_deterministic_hash s = Some (deterministic_sub_chunk_key_hash (sorted_keys X), s') ∧ set_ok s' X log ∧ moves false s X log s' X log ∧
  cs_journal s' = cs_journal s.
Proof.
  intros Hok. unfold set_deterministic_hash. destruct (cs_hash s) as [hash|] eqn:Hh.
  { exists s. rewrite (sk_hash _ _ _ Hok _ Hh). split; [done|]. split; [done|]. split; [by apply moves_same|done]. }
  destruct (set_iter_spec s X log Hok) as (l & -> & _ & Hnd & Hin). simpl.
  assert (merge_sort sub_chunk_key_le l = sorted_keys X) as ->.
  { apply (StronglySorted_unique sub_chunk_key_le); [apply StronglySorted_merge_sort; apply _|apply sub_chunk_keys_sorted|]. unfold sorted_keys. rewrite !merge_sort_Permutation.
    apply NoDup_Permutation; [done|apply NoDup_elements|]. intros k. by rewrite Hin, elem_of_elements. }
  eexists. split; [done|]. split; [|split; [by apply moves_same|done]]. destruct Hok as [Hsh Hlen Hrec Hj Hgen Hrev Hhash]. split; try done. simpl. by intros hash [= <-].
Qed.
Lemma set_columns_spec s X log : set_ok s X log → ∃ l, set_columns s = Some l ∧ NoDup l ∧ ∀ c, c ∈ l ↔ ∃ k, k ∈ X ∧ sk_chunk k = c.
Proof.
  intros Hok. pose proof Hok as [Hsh _ _ _ _ _ _]. unfold set_columns.
  assert (Hm : mapM (λ x, sk_chunk <$> head x.2) (map_to_list (cs_columns s)) = Some ((map_to_list (cs_columns s)).*1)).
  { apply mapM_Some. apply Forall2_fmap_r. apply Forall_Forall2_diag, Forall_forall. intros [c col] Hc%elem_of_map_to_list. destruct (sh_column _ _ _ _ Hsh c col Hc) as (Hne & Hcc & _).
    destruct col as [|k col]; [done|]. simpl. apply Forall_cons in Hcc as [-> _]. done. }
  rewrite Hm. eexists. split; [done|]. split; [apply NoDup_fst_map_to_list|]. intros c. rewrite <-(populated c s X log Hok), (sh_ordered _ _ _ _ Hsh), list_elem_of_fmap. split.
  - intros ([c' col] & -> & Hc%elem_of_map_to_list). by exists col.
  - intros [col Hc]. exists (c, col). split; [done|by apply elem_of_map_to_list].
Qed.
(** The least populated column past the cursor. *)
Definition least_past (X : gset SubChunkKey) (cursor next : option ChunkKey) : Prop :=
  match next with
  | Some c => (∃ k, k ∈ X ∧ sk_chunk k = c) ∧ (∀ cursor', cursor = Some cursor' → ¬ chunk_key_le c cursor') ∧
      ∀ k, k ∈ X → (∀ cursor', cursor = Some cursor' → ¬ chunk_key_le (sk_chunk k) cursor') → chunk_key_le c (sk_chunk k)
  | None => ∀ k, k ∈ X → ∃ cursor', cursor = Some cursor' ∧ chunk_key_le (sk_chunk k) cursor'
  end.
Lemma set_next_column_spec cursor s X log : set_ok s X log → least_past X cursor (set_next_column cursor s).
Proof.
  intros Hok. set (past_cursor c := match cursor with Some cursor => negb (chunk_key_leb c cursor) | None => true end).
  unfold least_past. change (set_next_column cursor s) with (head (filter (λ c, past_cursor c = true) (sorted_chunks (dom (cs_ordered s))))).
  assert (Hpast : ∀ c, past_cursor c = true ↔ ∀ cursor', cursor = Some cursor' → ¬ chunk_key_le c cursor').
  { intros c. unfold past_cursor, chunk_key_le. destruct cursor as [cursor'|]; [|done]. destruct (chunk_key_leb c cursor') eqn:He; simpl.
    - split; [done|]. intros Hn. destruct (Hn _ eq_refl). by rewrite He.
    - split; [|done]. intros _ ? [= <-]. rewrite He. by intros []. }
  assert (Hin : ∀ c, c ∈ filter (λ c, past_cursor c = true) (sorted_chunks (dom (cs_ordered s))) ↔ past_cursor c = true ∧ ∃ k, k ∈ X ∧ sk_chunk k = c).
  { intros c. rewrite list_elem_of_filter, elem_of_sorted_chunks, elem_of_dom, (populated c s X log Hok). done. }
  pose proof (sorted_filter chunk_key_le (λ c, past_cursor c = true) (sorted_chunks (dom (cs_ordered s)))) as Hs.
  destruct (filter (λ c, past_cursor c = true) (sorted_chunks (dom (cs_ordered s)))) as [|c l]; simpl.
  - intros k Hk. destruct cursor as [cursor'|]; [|exfalso; apply (not_elem_of_nil (sk_chunk k)), Hin; split; [done|by exists k]].
    exists cursor'. split; [done|]. unfold chunk_key_le. destruct (chunk_key_leb (sk_chunk k) cursor') eqn:Hle; [done|]. exfalso. apply (not_elem_of_nil (sk_chunk k)), Hin.
    split; [|by exists k]. unfold past_cursor. by rewrite Hle.
  - assert (Hc : c ∈ c :: l) by by left. apply Hin in Hc as [Hc Hk]. split; [done|]. split; [by apply Hpast|]. intros k Hk' Hcur. assert (Hkl : sk_chunk k ∈ c :: l) by (apply Hin; split; [by apply Hpast|by exists k]).
    apply elem_of_cons in Hkl as [->|Hkl]; [by apply chunk_key_le_iff; right; split; [done|]; right; split; [done|]|].
    assert (Hss : StronglySorted chunk_key_le (c :: l)) by (apply Hs, StronglySorted_merge_sort; apply _). apply StronglySorted_inv in Hss as [_ Hss]. rewrite Forall_forall in Hss. by apply Hss.
Qed.

(** ** Runs of calls *)

Inductive SetOp := SInsert (key : SubChunkKey) | SRemove (key : SubChunkKey) | SReplace (c : ChunkKey) (keys : list SubChunkKey) | SRetire | SHash.
Inductive SetAnswer := SDone | SChanged (changed : bool) | SDetached (detached : ColumnSubChunkSet) | SHashed (hash : Z).
Definition set_step (op : SetOp) (s : ColumnSubChunkSet) : option (SetAnswer * ColumnSubChunkSet) :=
  match op with
  | SInsert key => '(changed, s) ← set_insert key s; Some (SChanged changed, s)
  | SRemove key => '(changed, s) ← set_remove key s; Some (SChanged changed, s)
  | SReplace c keys => pair SDone <$> set_replace_column c keys s
  | SRetire => '(detached, s) ← set_retire s; Some (SDetached detached, s)
  | SHash => '(hash, s) ← set_deterministic_hash s; Some (SHashed hash, s)
  end.
(** The state before the calls and after each. *)
Fixpoint set_trace (ops : list SetOp) (s : ColumnSubChunkSet) : option (list ColumnSubChunkSet * ColumnSubChunkSet) :=
  match ops with
  | [] => Some ([s], s)
  | op :: ops => '(_, next) ← set_step op s; '(states, last) ← set_trace ops next; Some (s :: states, last)
  end.
(** The answers of the calls. *)
Fixpoint set_run (ops : list SetOp) (s : ColumnSubChunkSet) : option (list SetAnswer * ColumnSubChunkSet) :=
  match ops with
  | [] => Some ([], s)
  | op :: ops => '(answer, s) ← set_step op s; '(answers, s) ← set_run ops s; Some (answer :: answers, s)
  end.
(** The same calls on a plain set. *)
Definition set_effect (op : SetOp) (X : gset SubChunkKey) : gset SubChunkKey :=
  match op with
  | SInsert key => {[key]} ∪ X
  | SRemove key => X ∖ {[key]}
  | SReplace c keys => filter (λ k, sk_chunk k ≠ c) X ∪ list_to_set keys
  | SRetire => ∅
  | SHash => X
  end.
Definition set_effects (ops : list SetOp) (X : gset SubChunkKey) : gset SubChunkKey := foldl (λ X op, set_effect op X) X ops.
(** What a call on the members [X] answers: whether it changed them, the detached members, their hash. *)
Definition set_answer (op : SetOp) (X : gset SubChunkKey) (answer : SetAnswer) : Prop :=
  match op with
  | SInsert key => answer = SChanged (bool_decide (key ∉ X))
  | SRemove key => answer = SChanged (bool_decide (key ∈ X))
  | SReplace _ _ => answer = SDone
  | SRetire => ∃ detached, answer = SDetached detached ∧ cs_len detached = Z.of_nat (size X) ∧ ∀ key, set_contains key detached = bool_decide (key ∈ X)
  | SHash => answer = SHashed (deterministic_sub_chunk_key_hash (sorted_keys X))
  end.
Fixpoint set_answers (ops : list SetOp) (X : gset SubChunkKey) (answers : list SetAnswer) : Prop :=
  match ops, answers with
  | [], [] => True
  | op :: ops, answer :: answers => set_answer op X answer ∧ set_answers ops (set_effect op X) answers
  | _, _ => False
  end.
(** [replace_column] asserts that its keys belong to the column. *)
Definition set_op_ok (op : SetOp) : bool := match op with SReplace c keys => forallb (λ key, bool_decide (sk_chunk key = c)) keys | _ => true end.
(** The journal positions and members that a call can add. *)
Definition set_cost (op : SetOp) : Z :=
  match op with SInsert _ => 2 | SRemove _ => 1 | SReplace _ keys => 1 + 2 * Z.of_nat (length keys) | SRetire => 1 | SHash => 0 end.
Definition set_costs (ops : list SetOp) : Z := foldr (λ op total, set_cost op + total) 0 ops.
Definition set_clock (s : ColumnSubChunkSet) : Z := jn_written (cs_journal s) + cs_len s.

Lemma set_cost_nonneg op : 0 ≤ set_cost op.
Proof. destruct op; simpl; lia. Qed.
Lemma set_costs_nonneg ops : 0 ≤ set_costs ops.
Proof. induction ops as [|op ops IH]; simpl; [lia|]. pose proof (set_cost_nonneg op). lia. Qed.
Lemma set_step_spec op s X log : set_ok s X log → set_op_ok op = true → set_clock s + set_cost op ≤ USIZE_MAX →
  ∃ answer s' log', set_step op s = Some (answer, s') ∧ set_answer op X answer ∧ set_ok s' (set_effect op X) log' ∧ moves (match op with SRetire => true | _ => false end) s X log s' (set_effect op X) log' ∧ set_clock s' ≤ set_clock s + set_cost op.
Proof.
  intros Hok Hop Hroom. pose proof (sk_len _ _ _ Hok) as Hlen. unfold set_clock in *. destruct op as [key|key|c keys| |]; cbn [set_step set_cost set_effect set_op_ok set_answer] in *.
  - destruct (set_insert_spec key s X log Hok) as (s' & -> & Hok' & Hm & Hw); [lia|]. simpl. eexists _, _, _. split; [done|]. split; [done|]. split; [exact Hok'|]. split; [exact Hm|].
    rewrite (sk_len _ _ _ Hok'). pose proof (size_union_alt {[key]} X) as Hs. assert (size ({[key]} ∪ X) ≤ 1 + size X)%nat; [|lia].
    rewrite Hs, size_singleton. assert (size (X ∖ {[key]}) ≤ size X)%nat; [|lia]. apply subseteq_size. set_solver.
  - destruct (set_remove_spec key s X log Hok) as (s' & -> & Hok' & Hm & Hw); [lia|]. simpl. eexists _, _, _. split; [done|]. split; [done|]. split; [exact Hok'|]. split; [exact Hm|].
    rewrite (sk_len _ _ _ Hok'). lia.
  - destruct (set_replace_column_spec c keys s X log Hok Hop) as (s' & log' & -> & Hok' & Hm & Hw); [lia|lia|]. simpl. eexists _, _, _. split; [done|]. split; [done|]. split; [exact Hok'|]. split; [exact Hm|].
    rewrite (sk_len _ _ _ Hok'). lia.
  - destruct (set_retire_spec s X log Hok) as (s' & -> & Hok' & Hm & Hw); [lia|]. simpl. eexists _, _, _. split; [done|].
    split; [exists s; split; [done|]; split; [done|]; intros key; by eapply set_contains_spec|]. split; [exact Hok'|]. split; [exact Hm|].
    rewrite (sk_len _ _ _ Hok'), size_empty. lia.
  - destruct (set_deterministic_hash_spec s X log Hok) as (s' & -> & Hok' & Hm & Hj). simpl. eexists _, _, _. split; [done|]. split; [done|]. split; [exact Hok'|]. split; [exact Hm|].
    rewrite Hj, (sk_len _ _ _ Hok'). lia.
Qed.
(** A run returns, and its last state holds what the calls make of the members. *)
Lemma set_trace_clock ops s X log : set_ok s X log → forallb set_op_ok ops = true → set_clock s + set_costs ops ≤ USIZE_MAX →
  ∃ states last log', set_trace ops s = Some (states, last) ∧ set_ok last (set_effects ops X) log' ∧ set_clock last ≤ set_clock s + set_costs ops.
Proof.
  revert s X log. induction ops as [|op ops IH]; intros s X log Hok Hops Hroom; simpl in *; [eexists _, _, _; split; [done|split; [done|lia]]|].
  apply andb_true_iff in Hops as [Hop Hops]. pose proof (set_costs_nonneg ops). destruct (set_step_spec op s X log Hok Hop) as (answer & s1 & log1 & -> & _ & Hok1 & _ & Hc1); [lia|]. simpl.
  destruct (IH s1 _ log1 Hok1 Hops) as (states & last & log' & -> & Hok' & Hc); [lia|]. simpl. eexists _, _, _. split; [done|]. split; [done|lia].
Qed.

Lemma set_run_spec ops s X log : set_ok s X log → forallb set_op_ok ops = true → set_clock s + set_costs ops ≤ USIZE_MAX →
  ∃ answers last log', set_run ops s = Some (answers, last) ∧ set_answers ops X answers ∧ set_ok last (set_effects ops X) log'.
Proof.
  revert s X log. induction ops as [|op ops IH]; intros s X log Hok Hops Hroom; simpl in *; [by eexists _, _, _|].
  apply andb_true_iff in Hops as [Hop Hops]. pose proof (set_costs_nonneg ops). destruct (set_step_spec op s X log Hok Hop) as (answer & s1 & log1 & -> & Ha & Hok1 & _ & Hc1); [lia|]. simpl.
  destruct (IH s1 _ log1 Hok1 Hops) as (answers & last & log' & -> & Has & Hok'); [lia|]. simpl. by eexists _, _, _.
Qed.

(** C26: Whatever is done to it, the set answers every question as a plain set of keys does, and no call panics while its
    clocks have room: an insertion and a removal tell whether they changed the members, retiring hands over exactly the
    members, and the hash is that of the members; afterwards membership, the length, each column from its lowest section
    up, the columns, all keys column by column in order, the next populated column after a cursor and the cached hash are
    those of the set. *)
Theorem column_set_refines ops : forallb set_op_ok ops = true → set_costs ops ≤ USIZE_MAX →
  let X := set_effects ops ∅ in
  ∃ answers s, set_run ops set_default = Some (answers, s) ∧ set_answers ops ∅ answers ∧ cs_len s = Z.of_nat (size X) ∧
    (∀ key, set_contains key s = bool_decide (key ∈ X)) ∧
    (∀ c, StronglySorted lower (set_column c s) ∧ ∀ k, k ∈ set_column c s ↔ k ∈ X ∧ sk_chunk k = c) ∧
    (∃ l, set_iter s = Some l ∧ StronglySorted column_order l ∧ NoDup l ∧ ∀ k, k ∈ l ↔ k ∈ X) ∧
    (∃ l, set_columns s = Some l ∧ NoDup l ∧ ∀ c, c ∈ l ↔ ∃ k, k ∈ X ∧ sk_chunk k = c) ∧
    (∀ cursor, least_past X cursor (set_next_column cursor s)) ∧
    ∃ s', set_deterministic_hash s = Some (deterministic_sub_chunk_key_hash (sorted_keys X), s').
Proof.
  intros Hops Hroom X. destruct (set_run_spec ops set_default ∅ [] set_default_ok Hops) as (answers & s & log & Ht & Ha & Hok); [unfold set_clock; simpl; lia|].
  exists answers, s. split; [done|]. split; [done|]. split; [apply Hok|]. split; [intros key; by eapply set_contains_spec|]. split; [intros c; by eapply set_column_spec|].
  split; [by eapply set_iter_spec|]. split; [by eapply set_columns_spec|]. split; [intros cursor; by eapply set_next_column_spec|].
  destruct (set_deterministic_hash_spec s X log Hok) as (s' & Hh & _). by exists s'.
Qed.

(** *** What later states remember *)

Lemma set_costs_app ops ops' : set_costs (ops ++ ops') = set_costs ops + set_costs ops'.
Proof. induction ops as [|op ops IH]; simpl; [done|]. lia. Qed.
Lemma runs_split before_ops ops : forallb set_op_ok (before_ops ++ ops) = true → set_costs (before_ops ++ ops) ≤ USIZE_MAX →
  ∃ past s log, set_trace before_ops set_default = Some (past, s) ∧ set_ok s (set_effects before_ops ∅) log ∧ forallb set_op_ok ops = true ∧ set_clock s + set_costs ops ≤ USIZE_MAX.
Proof.
  rewrite forallb_app, andb_true_iff, set_costs_app. intros [Hb Ho] Hroom. pose proof (set_costs_nonneg ops).
  destruct (set_trace_clock before_ops set_default ∅ [] set_default_ok Hb) as (past & s & log & Ht & Hok & Hc); [unfold set_clock; simpl; lia|].
  exists past, s, log. split; [done|]. split; [done|]. split; [done|]. unfold set_clock in *. simpl in Hc. lia.
Qed.

Lemma existed_step c generation s s' retired X log X' log' : moves retired s X log s' X' log' → generation ≤ cs_generation s →
  set_existed_at c generation s' = set_existed_at c generation s && bool_decide (is_Some (cs_ordered s' !! c)).
Proof.
  intros [_ Hages _ _] Hg. unfold set_existed_at. destruct (Hages c) as [->|[->|(-> & age & -> & Hage)]].
  - destruct (cs_ordered s !! c) as [age|]; [|done]. by rewrite bool_decide_true, andb_true_r.
  - by rewrite andb_false_r.
  - simpl. destruct (Z.leb_spec age generation); [lia|done].
Qed.
Lemma trace_head ops s states last : set_trace ops s = Some (states, last) → ∃ rest, states = s :: rest.
Proof.
  destruct ops as [|op ops]; simpl; [intros [= <- _]; by exists []|]. destruct (set_step op s) as [[answer s1]|]; simpl; [|done].
  destruct (set_trace ops s1) as [[rest last']|]; simpl; [|done]. intros [= <- _]. by exists rest.
Qed.
Lemma existed_run ops s X log c generation : set_ok s X log → forallb set_op_ok ops = true → set_clock s + set_costs ops ≤ USIZE_MAX → generation ≤ cs_generation s →
  ∃ states last, set_trace ops s = Some (states, last) ∧
    set_existed_at c generation last = set_existed_at c generation s && forallb (λ s', bool_decide (set_column c s' ≠ [])) states.
Proof.
  revert s X log. induction ops as [|op ops IH]; intros s X log Hok Hops Hroom Hg; simpl in *.
  { exists [s], s. split; [done|]. simpl. rewrite andb_true_r. unfold set_existed_at. pose proof (column_aged s X log c Hok) as Ha. destruct (cs_ordered s !! c) as [age|]; [|done].
    rewrite bool_decide_true; [by rewrite andb_true_r|]. intros He. by apply Ha in He. }
  apply andb_true_iff in Hops as [Hop Hops]. pose proof (set_costs_nonneg ops). destruct (set_step_spec op s X log Hok Hop) as (answer & s1 & log1 & -> & _ & Hok1 & Hm & Hc1); [lia|]. simpl.
  destruct (IH s1 _ log1 Hok1 Hops) as (states & last & Ht & Hlast); [lia|pose proof (mo_generation _ _ _ _ _ _ _ Hm); lia|]. rewrite Ht. simpl. eexists _, _. split; [done|]. simpl.
  rewrite Hlast, (existed_step c generation s s1 _ _ _ _ _ Hm Hg). apply trace_head in Ht as [rest ->]. simpl.
  pose proof (column_aged s X log c Hok) as Ha. pose proof (column_aged s1 _ log1 c Hok1) as Ha1. rewrite <-!andb_assoc. destruct (set_existed_at c generation s) eqn:He; simpl; [|done].
  rewrite (bool_decide_true (set_column c s ≠ [])) by (intros Hn; apply Ha in Hn; unfold set_existed_at in He; by rewrite Hn in He). simpl.
  rewrite (bool_decide_ext (is_Some (cs_ordered s1 !! c)) (set_column c s1 ≠ [])); [by destruct (bool_decide _)|]. rewrite Ha1. symmetry. apply not_eq_None_Some.
Qed.
(** C28: A column existed at a generation if it has not been empty since: it was populated when the generation was read and in
    every state after that, whatever happened to its sections. A column that lost its last section and was populated again
    is a new one. *)
Theorem existed_at_exact before_ops ops c : forallb set_op_ok (before_ops ++ ops) = true → set_costs (before_ops ++ ops) ≤ USIZE_MAX →
  ∃ past s states last, set_trace before_ops set_default = Some (past, s) ∧ set_trace ops s = Some (states, last) ∧
    set_existed_at c (cs_generation s) last = forallb (λ s', bool_decide (set_column c s' ≠ [])) states.
Proof.
  intros Hops Hroom. destruct (runs_split before_ops ops Hops Hroom) as (past & s & log & Ht & Hok & Hops2 & Hroom2).
  destruct (existed_run ops s _ log c (cs_generation s) Hok Hops2 Hroom2) as (states & last & Ht2 & Hlast); [lia|]. exists past, s, states, last. split; [done|]. split; [done|].
  rewrite Hlast. destruct (trace_head _ _ _ _ Ht2) as [rest ->]. simpl. unfold set_existed_at. pose proof (column_aged s _ log c Hok) as Ha. destruct (cs_ordered s !! c) as [age|] eqn:Ho.
  - rewrite (proj2 (Z.leb_le _ _)) by (by eapply (sh_ages _ _ _ _ (sk_shape _ _ _ Hok))). done.
  - rewrite bool_decide_false by (intros Hn; by apply Hn, Ha). done.
Qed.

Lemma revision_run ops s X log : set_ok s X log → forallb set_op_ok ops = true → set_clock s + set_costs ops ≤ USIZE_MAX →
  ∃ states last, set_trace ops s = Some (states, last) ∧ cs_revision s ≤ cs_revision last ∧
    (cs_revision last = cs_revision s ↔ ∀ n, set_effects (take n ops) X = X).
Proof.
  revert s X log. induction ops as [|op ops IH]; intros s X log Hok Hops Hroom; simpl in *.
  { eexists _, _. split; [done|]. split; [lia|]. split; [|done]. intros _ n. by destruct n. }
  apply andb_true_iff in Hops as [Hop Hops]. pose proof (set_costs_nonneg ops). destruct (set_step_spec op s X log Hok Hop) as (answer & s1 & log1 & -> & _ & Hok1 & Hm & Hc1); [lia|]. simpl.
  destruct (IH s1 _ log1 Hok1 Hops) as (states & last & -> & Hle & Hiff); [lia|]. simpl. eexists _, _. split; [done|]. destruct (mo_revision _ _ _ _ _ _ _ Hm) as [Hle1 Hiff1]. split; [lia|]. split.
  - intros Heq. assert (HX : set_effect op X = X) by (apply Hiff1; lia). rewrite HX in Hiff. intros [|n]; [done|]. simpl. unfold set_effects in *. simpl. rewrite HX. apply Hiff. lia.
  - intros Hall. assert (HX : set_effect op X = X) by apply (Hall 1%nat). rewrite HX in Hiff. apply Hiff1 in HX as HX'. rewrite <-HX'. apply Hiff. intros n. specialize (Hall (S n)).
    unfold set_effects in *. simpl in Hall. by rewrite HX in Hall.
Qed.
(** The revision of the membership stays exactly as long as every call leaves the members as they are, and never falls: two
    equal readings mean that the members were the same all the time between them. *)
Theorem membership_revision_exact before_ops ops : forallb set_op_ok (before_ops ++ ops) = true → set_costs (before_ops ++ ops) ≤ USIZE_MAX →
  let X := set_effects before_ops ∅ in
  ∃ past s states last, set_trace before_ops set_default = Some (past, s) ∧ set_trace ops s = Some (states, last) ∧
    cs_revision s ≤ cs_revision last ∧ (cs_revision last = cs_revision s ↔ ∀ n, set_effects (take n ops) X = X).
Proof.
  intros Hops Hroom X. destruct (runs_split before_ops ops Hops Hroom) as (past & s & log & Ht & Hok & Hops2 & Hroom2).
  destruct (revision_run ops s _ log Hok Hops2 Hroom2) as (states & last & Ht2 & Hrev). exists past, s, states, last. split; [done|]. split; [done|]. exact Hrev.
Qed.

(** ** The replay of both sets, [near_drawn.rs] *)

(** A [TerrainPublicationCursor]: the journal positions of the resident sections and of the known air. *)
Definition publication_cursor (resident known_air : ColumnSubChunkSet) : Z * Z := (jn_written (cs_journal resident), jn_written (cs_journal known_air)).
Definition publication_changes (resident known_air : ColumnSubChunkSet) (cursor : Z * Z) : option (option (list (SubChunkKey * bool))) :=
  changed ← set_changed_since resident cursor.1;
  match changed with
  | None => Some None
  | Some resident_keys =>
    changed ← set_changed_since known_air cursor.2;
    match changed with
    | None => Some None
    | Some air_keys => Some (Some ((λ key, (key, set_contains key resident || set_contains key known_air)) <$> resident_keys ++ air_keys))
    end
  end.
(** What a reader does with the changes. *)
Definition apply_changes (changes : list (SubChunkKey * bool)) (X : gset SubChunkKey) : gset SubChunkKey :=
  foldl (λ X '(key, present), if (present : bool) then {[key]} ∪ X else X ∖ {[key]}) X changes.

Lemma apply_changes_spec (P : SubChunkKey → bool) keys X k :
  k ∈ apply_changes ((λ key, (key, P key)) <$> keys) X ↔ if decide (k ∈ keys) then P k = true else k ∈ X.
Proof.
  revert X. induction keys as [|key keys IH]; intros X; [by rewrite decide_False by apply not_elem_of_nil|]. rewrite fmap_cons. unfold apply_changes in *. cbn [foldl]. rewrite IH.
  destruct (decide (k ∈ keys)) as [Hk|Hk]; [by rewrite decide_True by by right|]. destruct (decide (k = key)) as [->|Hne].
  - rewrite decide_True by by left. destruct (P key); set_solver.
  - rewrite decide_False by (by rewrite not_elem_of_cons). destruct (P key); set_solver.
Qed.
Definition retires (ops : list SetOp) : bool := existsb (λ op, match op with SRetire => true | _ => false end) ops.
Lemma logged_run ops s X log : set_ok s X log → forallb set_op_ok ops = true → set_clock s + set_costs ops ≤ USIZE_MAX →
  ∃ states last log', set_trace ops s = Some (states, last) ∧ set_ok last (set_effects ops X) log' ∧ jn_written (cs_journal s) ≤ jn_written (cs_journal last) ∧
    if retires ops then jn_written (cs_journal s) < jn_floor (cs_journal last)
    else jn_floor (cs_journal last) = jn_floor (cs_journal s) ∧ ∃ new, log' = log ++ new ∧ ∀ k, k ∉ new → k ∈ set_effects ops X ↔ k ∈ X.
Proof.
  revert s X log. induction ops as [|op ops IH]; intros s X log Hok Hops Hroom; simpl in *.
  { eexists _, _, _. split; [done|]. split; [done|]. split; [lia|]. split; [done|]. exists []. by rewrite app_nil_r. }
  apply andb_true_iff in Hops as [Hop Hops]. pose proof (set_costs_nonneg ops). destruct (set_step_spec op s X log Hok Hop) as (answer & s1 & log1 & -> & _ & Hok1 & Hm & Hc1); [lia|]. simpl.
  destruct (IH s1 _ log1 Hok1 Hops) as (states & last & log' & -> & Hok' & Hw & Hlast); [lia|]. simpl. eexists _, _, _. split; [done|]. split; [done|].
  pose proof (mo_log _ _ _ _ _ _ _ Hm) as Hl. pose proof (sk_journal _ _ _ Hok) as Hj. pose proof (sk_journal _ _ _ Hok1) as Hj1. pose proof (lg_written _ _ Hj). pose proof (lg_written _ _ Hj1).
  assert (Hle : (if retires ops then jn_written (cs_journal s1) < jn_floor (cs_journal last) else jn_floor (cs_journal last) = jn_floor (cs_journal s1))) by (destruct (retires ops); tauto).
  destruct op; cbn [orb]; try (destruct Hl as [Hf (new & -> & Hnew)]; rewrite length_app in *;
    (split; [lia|]); destruct (retires ops); [lia|]; destruct Hlast as [Hf2 (new2 & -> & Hnew2)]; (split; [congruence|]); exists (new ++ new2); rewrite app_assoc; split; [done|];
    intros k [Hk1 Hk2]%not_elem_of_app; rewrite (Hnew2 k Hk2); by apply Hnew). destruct (retires ops); lia.
Qed.
Lemma since_run ops s X log : set_ok s X log → forallb set_op_ok ops = true → set_clock s + set_costs ops ≤ USIZE_MAX →
  ∃ states last log' changed, set_trace ops s = Some (states, last) ∧ set_ok last (set_effects ops X) log' ∧ set_changed_since last (jn_written (cs_journal s)) = Some changed ∧
    (changed = None ↔ retires ops = true ∨ MEMBERSHIP_JOURNAL_CAPACITY < jn_written (cs_journal last) - jn_written (cs_journal s)) ∧
    ∀ keys k, changed = Some keys → k ∉ keys → k ∈ set_effects ops X ↔ k ∈ X.
Proof.
  intros Hok Hops Hroom. destruct (logged_run ops s X log Hok Hops Hroom) as (states & last & log' & Ht & Hok' & Hw & Hl).
  pose proof (sk_journal _ _ _ Hok) as Hj. pose proof (sk_journal _ _ _ Hok') as Hj'. pose proof (lg_written _ _ Hj). pose proof (lg_floor _ _ Hj).
  eexists states, last, log', _. split; [done|]. split; [done|]. unfold set_changed_since. rewrite (since_spec _ _ _ Hj') by lia. split; [done|]. destruct (retires ops).
  - rewrite decide_False by lia. split; [|done]. split; [by left|done].
  - destruct Hl as [Hf (new & -> & Hnew)]. case_decide as Hd; (split; [split; [try done; right; lia|intros [?|?]; try done; lia]|]); [|done].
    intros keys k [= <-]. rewrite Hf. rewrite drop_app_length' by lia. apply Hnew.
Qed.

(** C27: A reader that holds the sections as of its cursor and applies the changes since then holds the current sections: those
    that are resident or known air. It gets the changes unless a set was retired since, or has changed more often than its
    journal is long. *)
Theorem publication_changes_exact before_resident before_air ops_resident ops_air :
  forallb set_op_ok (before_resident ++ ops_resident) = true → forallb set_op_ok (before_air ++ ops_air) = true →
  set_costs (before_resident ++ ops_resident) ≤ USIZE_MAX → set_costs (before_air ++ ops_air) ≤ USIZE_MAX →
  ∃ past_r past_a resident0 air0 states_r states_a resident air changes,
    set_trace before_resident set_default = Some (past_r, resident0) ∧ set_trace before_air set_default = Some (past_a, air0) ∧
    set_trace ops_resident resident0 = Some (states_r, resident) ∧ set_trace ops_air air0 = Some (states_a, air) ∧
    publication_changes resident air (publication_cursor resident0 air0) = Some changes ∧
    match changes with
    | Some changes => apply_changes changes (set_effects before_resident ∅ ∪ set_effects before_air ∅) = set_effects (before_resident ++ ops_resident) ∅ ∪ set_effects (before_air ++ ops_air) ∅
    | None => retires ops_resident = true ∨ MEMBERSHIP_JOURNAL_CAPACITY < (publication_cursor resident air).1 - (publication_cursor resident0 air0).1 ∨
              retires ops_air = true ∨ MEMBERSHIP_JOURNAL_CAPACITY < (publication_cursor resident air).2 - (publication_cursor resident0 air0).2
    end.
Proof.
  intros Hr Ha Hcr Hca. destruct (runs_split before_resident ops_resident Hr Hcr) as (past_r & r0 & logr & Htr & Hokr & Hopsr & Hroomr).
  destruct (runs_split before_air ops_air Ha Hca) as (past_a & a0 & loga & Hta & Hoka & Hopsa & Hrooma).
  destruct (since_run ops_resident r0 _ logr Hokr Hopsr Hroomr) as (states_r & r & logr' & cr & Htr' & Hokr' & Hcr' & Hnr & Hkr).
  destruct (since_run ops_air a0 _ loga Hoka Hopsa Hrooma) as (states_a & a & loga' & ca & Hta' & Hoka' & Hca' & Hna & Hka).
  exists past_r, past_a, r0, a0, states_r, states_a, r, a. unfold publication_changes, publication_cursor. simpl. rewrite Hcr'. simpl.
  destruct cr as [keys_r|]; [|exists None; do 5 (split; [done|]); tauto]. rewrite Hca'. simpl. destruct ca as [keys_a|]; [|exists None; do 5 (split; [done|]); tauto].
  eexists. do 5 (split; [done|]).
  unfold set_effects. rewrite !foldl_app. fold (set_effects before_resident ∅) (set_effects before_air ∅).
  fold (set_effects ops_resident (set_effects before_resident ∅)) (set_effects ops_air (set_effects before_air ∅)).
  apply set_eq. intros k. rewrite (apply_changes_spec (λ key, set_contains key r || set_contains key a)). rewrite (set_contains_spec k r _ _ Hokr'), (set_contains_spec k a _ _ Hoka').
  case_decide as Hk; [by rewrite orb_true_iff, !bool_decide_eq_true, elem_of_union|]. rewrite not_elem_of_app in Hk. rewrite !elem_of_union, (Hkr keys_r k), (Hka keys_a k); tauto.
Qed.

(** *** Witnesses *)

Definition demo_section (x y : Z) : SubChunkKey := mk_sub_chunk_key 0 x y 0.
Definition demo_before : list SetOp := [SInsert (demo_section 0 1); SInsert (demo_section 0 0); SInsert (demo_section 1 0); SHash].
Definition demo_after : list SetOp := [SReplace (mk_chunk_key 0 0 0) [demo_section 0 2; demo_section 0 2; demo_section 0 1]; SRemove (demo_section 1 0); SInsert (demo_section 1 3)].
Lemma column_set_refines_witness : ∃ answers s, set_run (demo_before ++ demo_after) set_default = Some (answers, s) ∧
  set_contains (demo_section 0 2) s = true ∧ set_next_column (Some (mk_chunk_key 0 0 0)) s = Some (mk_chunk_key 0 1 0) ∧ last answers = Some (SChanged true).
Proof.
  destruct (column_set_refines (demo_before ++ demo_after)) as (answers & s & Ht & Ha & _ & Hc & _); [reflexivity|by vm_compute|]. exists answers, s. split; [exact Ht|].
  split; [by rewrite Hc|]. revert Ht. vm_compute. intros [= <- <-]. split; reflexivity.
Defined.
Definition demo_set (ops : list SetOp) (s : ColumnSubChunkSet) : ColumnSubChunkSet := default s (snd <$> set_trace ops s).
Definition demo_states (ops : list SetOp) (s : ColumnSubChunkSet) : list ColumnSubChunkSet := default [] (fst <$> set_trace ops s).
Lemma demo_set_is ops s states last : set_trace ops s = Some (states, last) → last = demo_set ops s ∧ states = demo_states ops s.
Proof. intros Ht. unfold demo_set, demo_states. by rewrite Ht. Qed.
Lemma existed_at_exact_witness : let s := demo_set demo_before set_default in let last := demo_set demo_after s in
  set_existed_at (mk_chunk_key 0 0 0) (cs_generation s) last = true ∧ set_existed_at (mk_chunk_key 0 1 0) (cs_generation s) last = false.
Proof.
  split.
  - destruct (existed_at_exact demo_before demo_after (mk_chunk_key 0 0 0)) as (past & s & states & last & Ht & Ht2 & He); [reflexivity|by vm_compute|].
    apply demo_set_is in Ht as [-> _]. apply demo_set_is in Ht2 as [-> ->]. etrans; [exact He|vm_compute; reflexivity].
  - destruct (existed_at_exact demo_before demo_after (mk_chunk_key 0 1 0)) as (past & s & states & last & Ht & Ht2 & He); [reflexivity|by vm_compute|].
    apply demo_set_is in Ht as [-> _]. apply demo_set_is in Ht2 as [-> ->]. etrans; [exact He|vm_compute; reflexivity].
Defined.
Lemma publication_changes_exact_witness : let resident0 := demo_set demo_before set_default in let resident := demo_set demo_after resident0 in
  ∃ changes, publication_changes resident set_default (publication_cursor resident0 set_default) = Some (Some changes) ∧
  apply_changes changes (set_effects demo_before ∅) = set_effects (demo_before ++ demo_after) ∅.
Proof.
  destruct (publication_changes_exact demo_before [] demo_after []) as (past_r & past_a & r0 & a0 & states_r & states_a & r & a & changes & Hr0 & Ha0 & Hr & Ha & Hc & Happly);
    [reflexivity|reflexivity|by vm_compute|by vm_compute|].
  injection Ha0 as <- <-. injection Ha as <- <-. apply demo_set_is in Hr0 as [-> _]. apply demo_set_is in Hr as [-> _]. destruct changes as [changes|].
  - change (set_effects ([] ++ []) ∅) with (∅ : gset SubChunkKey) in Happly. change (set_effects [] ∅) with (∅ : gset SubChunkKey) in Happly. rewrite !union_empty_r_L in Happly.
    exists changes. split; [exact Hc|exact Happly].
  - exfalso. destruct Happly as [Hx|[Hx|[Hx|Hx]]]; vm_compute in Hx; discriminate Hx.
Defined.
Definition demo_same : list SetOp := demo_before ++ [SReplace (mk_chunk_key 0 1 0) [demo_section 1 0]].
Lemma membership_revision_exact_witness : let s := demo_set demo_before set_default in cs_revision (demo_set demo_same s) = cs_revision s.
Proof.
  destruct (membership_revision_exact demo_before demo_same) as (past & s & states & last & Ht & Ht2 & _ & Hr); [reflexivity|by vm_compute|].
  apply demo_set_is in Ht as [-> _]. apply demo_set_is in Ht2 as [-> _]. apply Hr. intros n.
  assert (Hn : take n demo_same = take (Nat.min n 5) demo_same) by (destruct (decide (n ≤ 5)%nat); [by rewrite Nat.min_l by lia|rewrite Nat.min_r, !take_ge by (simpl; lia); done]).
  rewrite Hn. assert (Hm : Nat.min n 5 ∈ seq 0 6) by (apply elem_of_seq; lia). revert Hm. generalize (Nat.min n 5). apply Forall_forall.
  refine (bool_decide_eq_true_1 _ _). vm_compute. reflexivity.
Defined.
