(* ===== verification/Requests.v ===== *)
(** * The queue of outbound requests

    [chunk-pipeline/src/stream/request_queue.rs]: column requests in the order of their admission, reservations that hold
    the place of a request still to come, and the priorities of what was dispatched, kept until transport confirms it.
    Also the requests themselves, of [stream/model.rs], and their classes, of [stream/diagnostics.rs]. A panic is [None]. *)
From stdpp Require Import base numbers list gmap sets sorting.
From S2P Require Import Prelude Keys Counting ColumnScan Columns.
#[local] Open Scope Z_scope.

(** ** Requests *)

Definition OUTBOUND_REQUEST_CAPACITY : Z := 64.
Definition MAX_SUB_CHUNK_COLUMN_HEIGHT : Z := 128.
Record PendingSubChunkRequest := mk_request { pr_chunk : ChunkKey; pr_base : Z; pr_count : Z; pr_demand : Z }.
#[export] Instance request_column : ColumnOwned PendingSubChunkRequest := λ request, Some (pr_chunk request).
Definition request_new (chunk : ChunkKey) (base count demand : Z) : option PendingSubChunkRequest :=
  if (count =? 0) || (MAX_SUB_CHUNK_COLUMN_HEIGHT <? count) then None
  else last ← checked_i32 (count - 1); _ ← Keys.checked_add base last; Some (mk_request chunk base count demand).
Definition request_keys (request : PendingSubChunkRequest) : list SubChunkKey :=
  omap (λ offset, offset ← checked_i32 offset; y ← Keys.checked_add (pr_base request) offset; Some (from_chunk (pr_chunk request) y)) (seqZ 0 (pr_count request)).

(** All the fields of a request identify it, so an identity is the request. *)
Abbreviation RequestIdentity := PendingSubChunkRequest.
#[export] Instance request_eq_dec : EqDecision PendingSubChunkRequest.
Proof. solve_decision. Defined.
#[export] Instance request_countable : Countable PendingSubChunkRequest.
Proof. by apply (inj_countable' (λ r, (pr_chunk r, pr_base r, pr_count r, pr_demand r)) (λ '(c, b, n, d), mk_request c b n d)); intros []. Defined.
(** The derived order, field by field. *)
Definition identity_leb (a b : RequestIdentity) : bool :=
  if bool_decide (pr_chunk a = pr_chunk b) then
    match (pr_base a ?= pr_base b), (pr_count a ?= pr_count b), (pr_demand a ?= pr_demand b) with
    | Lt, _, _ => true | Gt, _, _ => false
    | _, Lt, _ => true | _, Gt, _ => false
    | _, _, Gt => false | _, _, _ => true
    end
  else chunk_key_leb (pr_chunk a) (pr_chunk b).

Record RequestPriority := mk_priority { pp_sequence : Z; pp_retry : bool; pp_transport_retry : bool }.
Definition priority_new (sequence : Z) (retry : bool) : RequestPriority := mk_priority sequence retry false.
Inductive Slot := Reserved (world_sequence queue_sequence : Z) | Ready (request : PendingSubChunkRequest) (priority : RequestPriority).
#[export] Instance slot_column : ColumnOwned Slot := λ slot, match slot with Ready request _ => Some (pr_chunk request) | Reserved _ _ => None end.

Inductive RequestClass := PlayerRetry | PlayerInitial | VisibleRetry | VisibleInitial | PrefetchRetry | PrefetchInitial.
#[export] Instance class_eq_dec : EqDecision RequestClass.
Proof. solve_decision. Defined.
Definition ORDERED : list RequestClass := [PlayerRetry; PlayerInitial; VisibleRetry; VisibleInitial; PrefetchRetry; PrefetchInitial].
Definition class_index (class : RequestClass) : nat :=
  match class with PlayerRetry => 0 | PlayerInitial => 1 | VisibleRetry => 2 | VisibleInitial => 3 | PrefetchRetry => 4 | PrefetchInitial => 5 end.
Definition request_class (retry : bool) (chunk : ChunkKey) (player_chunk : option ChunkKey) (required_columns : gset ChunkKey) : RequestClass :=
  if bool_decide (player_chunk = Some chunk) then (if retry then PlayerRetry else PlayerInitial)
  else if bool_decide (chunk ∈ required_columns) then (if retry then VisibleRetry else VisibleInitial)
  else if retry then PrefetchRetry else PrefetchInitial.

(** ** The queue *)

Record RequestQueue := mk_request_queue { rq_slots : ColumnQueue Slot; rq_popped : ColumnRecords RequestIdentity RequestPriority; rq_next : Z }.
Definition queue_default : RequestQueue := mk_request_queue cq_default cr_default 0.
Definition queue_len (q : RequestQueue) : Z := cq_len (rq_slots q).
Definition ready_requests (q : RequestQueue) : list PendingSubChunkRequest :=
  omap (λ x, match x.2 with Ready request _ => Some request | Reserved _ _ => None end) (cq_list (rq_slots q)).
Definition allocate_sequence (q : RequestQueue) : option (Z * RequestQueue) :=
  let sequence := rq_next q in
  next ← Counting.checked_add sequence 1; Some (sequence, mk_request_queue (rq_slots q) (rq_popped q) next).
Definition queue_reserve (world_sequence : Z) (q : RequestQueue) : option RequestQueue :=
  '(queue_sequence, q) ← allocate_sequence q;
  slots ← cq_push_back (Reserved world_sequence queue_sequence) (rq_slots q);
  Some (mk_request_queue slots (rq_popped q) (rq_next q)).
Definition is_reservation (world_sequence : Z) (slot : Slot) : bool :=
  match slot with Reserved reserved _ => reserved =? world_sequence | Ready _ _ => false end.
Definition reservation_index (world_sequence : Z) (q : RequestQueue) : option Z :=
  fst <$> head (filter (λ x, is_reservation world_sequence x.2 = true) (cq_list (rq_slots q))).
Definition has_reservation (world_sequence : Z) (q : RequestQueue) : bool := bool_decide (is_Some (reservation_index world_sequence q)).
Definition replace_reservation (world_sequence : Z) (request : PendingSubChunkRequest) (q : RequestQueue) : option (bool * RequestQueue) :=
  match reservation_index world_sequence q with
  | None => Some (false, q)
  | Some index =>
    slot ← cq_get (rq_slots q) index;
    match slot with
    | Ready _ _ => None
    | Reserved _ queue_sequence =>
      slots ← cq_replace index (Ready request (priority_new queue_sequence false)) (rq_slots q);
      Some (true, mk_request_queue slots (rq_popped q) (rq_next q))
    end
  end.
Definition push_ready (request : PendingSubChunkRequest) (retry : bool) (q : RequestQueue) : option RequestQueue :=
  '(sequence, q) ← allocate_sequence q;
  slots ← cq_push_back (Ready request (priority_new sequence retry)) (rq_slots q);
  Some (mk_request_queue slots (rq_popped q) (rq_next q)).
Definition retry_front (request : PendingSubChunkRequest) (q : RequestQueue) : option RequestQueue :=
  '(removed, popped) ← cr_remove request (rq_popped q);
  let q := mk_request_queue (rq_slots q) popped (rq_next q) in
  '(priority, q) ← (match removed with
    | Some priority => Some (priority, q)
    | None => '(sequence, q) ← allocate_sequence q; Some (priority_new sequence false, q)
    end);
  let priority := mk_priority (pp_sequence priority) (pp_retry priority) true in
  slots ← cq_push_front (Ready request priority) (rq_slots q);
  Some (mk_request_queue slots (rq_popped q) (rq_next q)).
Record Selection := mk_selection { sl_index : Z; sl_class : RequestClass; sl_transport_retry : bool; sl_starved : bool }.
Definition select (player_chunk : option ChunkKey) (required_columns : gset ChunkKey) (q : RequestQueue) : option Selection :=
  match cq_list (rq_slots q) with
  | (index, Ready request priority) :: _ =>
    Some (mk_selection index (request_class (pp_retry priority) (pr_chunk request) player_chunk required_columns) (pp_transport_retry priority) false)
  | _ => None
  end.
(** [iter] of the records: column by column, and in the order of the keys within one. *)
Definition popped_iter (r : ColumnRecords RequestIdentity RequestPriority) : list (RequestIdentity * RequestPriority) :=
  c ← sorted_chunks (dom (cr_columns r)); merge_sort (λ a b, Is_true (identity_leb a.1 b.1)) (map_to_list (default ∅ (cr_columns r !! c))).
(** [min_by_key]: the first of the least. *)
Definition min_by_key {A} (f : A → Z) (l : list A) : option A :=
  match l with [] => None | x :: l => Some (foldl (λ best y, if f y <? f best then y else best) x l) end.
Definition pop_next (player_chunk : option ChunkKey) (required_columns : gset ChunkKey) (q : RequestQueue) : option (option PendingSubChunkRequest * RequestQueue) :=
  match select player_chunk required_columns q with
  | None => Some (None, q)
  | Some selected =>
    '(removed, slots) ← cq_remove (sl_index selected) (rq_slots q);
    match removed with
    | Some (Ready request priority) =>
      let identity := request in
      let oldest := if (OUTBOUND_REQUEST_CAPACITY <=? cr_len (rq_popped q)) && negb (cr_contains_key (rq_popped q) identity)
        then fst <$> min_by_key (λ x, pp_sequence x.2) (popped_iter (rq_popped q)) else None in
      popped ← (match oldest with Some oldest => snd <$> cr_remove oldest (rq_popped q) | None => Some (rq_popped q) end);
      '(_, popped) ← cr_insert identity priority popped;
      Some (Some request, mk_request_queue slots popped (rq_next q))
    | _ => None
    end
  end.
Definition confirm_popped (request : PendingSubChunkRequest) (q : RequestQueue) : option (option bool * RequestQueue) :=
  '(removed, popped) ← cr_remove request (rq_popped q);
  Some (option_map pp_retry removed, mk_request_queue (rq_slots q) popped (rq_next q)).
Definition cancel_reservation (world_sequence : Z) (q : RequestQueue) : option RequestQueue :=
  slots ← cq_retain (λ slot, negb (is_reservation world_sequence slot)) (rq_slots q);
  Some (mk_request_queue slots (rq_popped q) (rq_next q)).
Definition cancel_ready (cancel : PendingSubChunkRequest → bool) (q : RequestQueue) : option RequestQueue :=
  slots ← cq_retain (λ slot, negb (match slot with Ready request _ => cancel request | Reserved _ _ => false end)) (rq_slots q);
  Some (mk_request_queue slots (rq_popped q) (rq_next q)).
Definition cancel_columns (chunks : gset ChunkKey) (q : RequestQueue) : option RequestQueue :=
  foldM (λ q chunk,
    '(_, slots) ← cq_remove_column chunk (rq_slots q);
    '(_, popped) ← cr_remove_column chunk (rq_popped q);
    Some (mk_request_queue slots popped (rq_next q))) q (sorted_chunks chunks).

(** *** The evidence *)

Record RequestClassDepth := mk_depth { cd_class : RequestClass; cd_ready : Z; cd_eligible : Z }.
Record RequestQueueEvidence := mk_evidence {
  re_depths : list RequestClassDepth;
  re_reservations : Z;
  re_blocked : Z;
  re_next_class : option RequestClass;
  re_next_is_transport_retry : bool;
  re_next_is_starved : bool;
}.
Definition evidence_default : RequestQueueEvidence := mk_evidence ((λ class, mk_depth class 0 0) <$> ORDERED) 0 0 None false false.
(** One slot of the loop of [evidence]. *)
Definition evidence_slot (player_chunk : option ChunkKey) (required_columns : gset ChunkKey) (e : RequestQueueEvidence) (slot : Slot) : RequestQueueEvidence :=
  match slot with
  | Reserved _ _ => mk_evidence (re_depths e) (re_reservations e + 1) (re_blocked e) (re_next_class e) (re_next_is_transport_retry e) (re_next_is_starved e)
  | Ready request priority =>
    let class := request_class (pp_retry priority) (pr_chunk request) player_chunk required_columns in
    let eligible := if re_reservations e =? 0 then 1 else 0 in
    mk_evidence (alter (λ depth, mk_depth (cd_class depth) (cd_ready depth + 1) (cd_eligible depth + eligible)) (class_index class) (re_depths e))
      (re_reservations e) (re_blocked e + (1 - eligible)) (re_next_class e) (re_next_is_transport_retry e) (re_next_is_starved e)
  end.
Definition evidence (player_chunk : option ChunkKey) (required_columns : gset ChunkKey) (q : RequestQueue) : RequestQueueEvidence :=
  let e := foldl (evidence_slot player_chunk required_columns) evidence_default (cq_list (rq_slots q)).*2 in
  match select player_chunk required_columns q with
  | Some next => mk_evidence (re_depths e) (re_reservations e) (re_blocked e) (Some (sl_class next)) (sl_transport_retry next) (sl_starved next)
  | None => e
  end.

(** ** The queue as a list of slots *)

Inductive RequestOp :=
  | OpReserve (world_sequence : Z) | OpFill (world_sequence : Z) (request : PendingSubChunkRequest) | OpPush (request : PendingSubChunkRequest) (retry : bool)
  | OpRetry (request : PendingSubChunkRequest) | OpPop | OpConfirm (request : PendingSubChunkRequest) | OpCancelReservation (world_sequence : Z)
  | OpCancelReady (cancel : PendingSubChunkRequest → bool) | OpCancelColumns (chunks : gset ChunkKey).
Inductive Answer := Done | Filled (filled : bool) | Popped (request : option PendingSubChunkRequest) | Confirmed (retry : option bool).
Definition request_step (player_chunk : option ChunkKey) (required_columns : gset ChunkKey) (op : RequestOp) (q : RequestQueue) : option (Answer * RequestQueue) :=
  match op with
  | OpReserve world_sequence => pair Done <$> queue_reserve world_sequence q
  | OpFill world_sequence request => '(filled, q) ← replace_reservation world_sequence request q; Some (Filled filled, q)
  | OpPush request retry => pair Done <$> push_ready request retry q
  | OpRetry request => pair Done <$> retry_front request q
  | OpPop => '(request, q) ← pop_next player_chunk required_columns q; Some (Popped request, q)
  | OpConfirm request => '(retry, q) ← confirm_popped request q; Some (Confirmed retry, q)
  | OpCancelReservation world_sequence => pair Done <$> cancel_reservation world_sequence q
  | OpCancelReady cancel => pair Done <$> cancel_ready cancel q
  | OpCancelColumns chunks => pair Done <$> cancel_columns chunks q
  end.

(** What the queue promises: the slots in dispatch order, what was dispatched, and the next age. *)
Record Requests := mk_requests { ar_slots : list Slot; ar_popped : gmap RequestIdentity RequestPriority; ar_next : Z }.
(** The reservation of a sequence becomes a request of the same age. *)
Fixpoint fill (world_sequence : Z) (request : PendingSubChunkRequest) (slots : list Slot) : option (list Slot) :=
  match slots with
  | [] => None
  | Reserved reserved queue_sequence :: slots =>
    if reserved =? world_sequence then Some (Ready request (priority_new queue_sequence false) :: slots)
    else cons (Reserved reserved queue_sequence) <$> fill world_sequence request slots
  | slot :: slots => cons slot <$> fill world_sequence request slots
  end.
Definition oldest (popped : gmap RequestIdentity RequestPriority) : option RequestIdentity := fst <$> min_by_key (λ x, pp_sequence x.2) (map_to_list popped).
(** Room for one more dispatched request, at the cost of the oldest. *)
Definition make_room (request : PendingSubChunkRequest) (popped : gmap RequestIdentity RequestPriority) : gmap RequestIdentity RequestPriority :=
  if decide (OUTBOUND_REQUEST_CAPACITY ≤ Z.of_nat (size popped) ∧ popped !! request = None) then match oldest popped with Some oldest => delete oldest popped | None => popped end
  else popped.
Definition spec_step (op : RequestOp) (a : Requests) : Answer * Requests :=
  let '(mk_requests slots popped next) := a in
  match op with
  | OpReserve world_sequence => (Done, mk_requests (slots ++ [Reserved world_sequence next]) popped (next + 1))
  | OpFill world_sequence request => match fill world_sequence request slots with Some slots => (Filled true, mk_requests slots popped next) | None => (Filled false, a) end
  | OpPush request retry => (Done, mk_requests (slots ++ [Ready request (priority_new next retry)]) popped (next + 1))
  | OpRetry request =>
    match popped !! request with
    | Some priority => (Done, mk_requests (Ready request (mk_priority (pp_sequence priority) (pp_retry priority) true) :: slots) (delete request popped) next)
    | None => (Done, mk_requests (Ready request (mk_priority next false true) :: slots) popped (next + 1))
    end
  | OpPop =>
    match slots with
    | Ready request priority :: slots => (Popped (Some request), mk_requests slots (<[request := priority]> (make_room request popped)) next)
    | _ => (Popped None, a)
    end
  | OpConfirm request => (Confirmed (pp_retry <$> popped !! request), mk_requests slots (delete request popped) next)
  | OpCancelReservation world_sequence => (Done, mk_requests (filter (λ slot, negb (is_reservation world_sequence slot) = true) slots) popped next)
  | OpCancelReady cancel => (Done, mk_requests (filter (λ slot, negb (match slot with Ready request _ => cancel request | Reserved _ _ => false end) = true) slots) popped next)
  | OpCancelColumns chunks =>
    (Done, mk_requests (filter (λ slot, negb (match column slot with Some c => bool_decide (c ∈ chunks) | None => false end) = true) slots)
      (filter (λ x, negb (bool_decide (pr_chunk x.1 ∈ chunks)) = true) popped) next)
  end.

(** Ages are given once. *)
Definition slot_sequence (slot : Slot) : Z := match slot with Reserved _ sequence => sequence | Ready _ priority => pp_sequence priority end.
Record requests_ok (a : Requests) : Prop := {
  ao_slots : NoDup (slot_sequence <$> ar_slots a);
  ao_popped r r' p p' : ar_popped a !! r = Some p → ar_popped a !! r' = Some p' → pp_sequence p = pp_sequence p' → r = r';
  ao_apart slot r p : slot ∈ ar_slots a → ar_popped a !! r = Some p → slot_sequence slot ≠ pp_sequence p;
  ao_slots_next slot : slot ∈ ar_slots a → slot_sequence slot < ar_next a;
  ao_popped_next r p : ar_popped a !! r = Some p → pp_sequence p < ar_next a;
  ao_bound : Z.of_nat (size (ar_popped a)) ≤ OUTBOUND_REQUEST_CAPACITY;
}.
Record shows (q : RequestQueue) (a : Requests) : Prop := {
  sw_queue : queue_ok (rq_slots q);
  sw_slots : (cq_list (rq_slots q)).*2 = ar_slots a;
  sw_popped : represents (rq_popped q) (ar_popped a);
  sw_next : rq_next q = ar_next a;
  sw_back : cq_back (rq_slots q) ≤ rq_next q;
}.

Lemma default_shows : shows queue_default (mk_requests [] ∅ 0).
Proof. split; simpl; [apply queue_default_ok|done|apply represents_default|done|done]. Qed.
Lemma default_requests_ok : requests_ok (mk_requests [] ∅ 0).
Proof. split; simpl; [constructor|done|by intros slot ? ? ?%not_elem_of_nil|by intros slot ?%not_elem_of_nil|done|done]. Qed.

(** *** The oldest *)

Lemma min_by_key_spec {A} (f : A → Z) l : match min_by_key f l with Some x => x ∈ l ∧ ∀ y, y ∈ l → f x ≤ f y | None => l = [] end.
Proof.
  destruct l as [|x l]; simpl; [done|]. assert (Hgen : ∀ best, (foldl (λ best y, if f y <? f best then y else best) best l = best ∨ foldl (λ best y, if f y <? f best then y else best) best l ∈ l) ∧
    f (foldl (λ best y, if f y <? f best then y else best) best l) ≤ f best ∧ ∀ y, y ∈ l → f (foldl (λ best y, if f y <? f best then y else best) best l) ≤ f y).
  { induction l as [|z l IH]; intros best; simpl; [split; [by left|]; split; [done|by intros y ?%not_elem_of_nil]|].
    destruct (IH (if f z <? f best then z else best)) as (Hin & Hle & Hall). set (m := foldl _ _ l) in *. clearbody m.
    destruct (Z.ltb_spec (f z) (f best)) as [Hlt|Hge]; (split; [|split; [lia|intros y [->|Hy]%elem_of_cons; [lia|by apply Hall]]]); rewrite elem_of_cons; naive_solver. }
  destruct (Hgen x) as (Hin & Hle & Hall). split; [rewrite elem_of_cons; naive_solver|]. intros y [->|Hy]%elem_of_cons; [done|by apply Hall].
Qed.
Lemma min_by_key_agree {A} (f : A → Z) l l' : (∀ x, x ∈ l ↔ x ∈ l') → (∀ x y, x ∈ l → y ∈ l → f x = f y → x = y) → min_by_key f l = min_by_key f l'.
Proof.
  intros Hin Hinj. pose proof (min_by_key_spec f l) as H1. pose proof (min_by_key_spec f l') as H2. destruct (min_by_key f l) as [x|], (min_by_key f l') as [y|]; [|subst l'|subst l|done].
  - destruct H1 as [Hx Hmx], H2 as [Hy Hmy]. f_equal. apply Hinj; [done|by apply Hin|]. apply Hin in Hy as Hy'. apply Hin in Hx as Hx'. specialize (Hmx y Hy'). specialize (Hmy x Hx'). lia.
  - destruct H1 as [Hx _]. by apply Hin, not_elem_of_nil in Hx.
  - destruct H2 as [Hy _]. by apply Hin, not_elem_of_nil in Hy.
Qed.
Lemma elem_of_popped_iter r m x : represents r m → x ∈ popped_iter r ↔ m !! x.1 = Some x.2.
Proof.
  intros Hr. unfold popped_iter. rewrite list_elem_of_bind. destruct x as [k p]. simpl. split.
  - intros (c & Hx & _). rewrite merge_sort_Permutation, elem_of_map_to_list in Hx. rewrite (bucket_get r m c k Hr) in Hx. by case_decide.
  - intros Hk. exists (pr_chunk k). rewrite merge_sort_Permutation, elem_of_map_to_list, (bucket_get r m _ k Hr), decide_True by done. split; [done|].
    apply elem_of_sorted_chunks, elem_of_dom. pose proof (re_get _ _ Hr k) as Hg. rewrite Hk in Hg. unfold cr_get in Hg. simpl in Hg. by destruct (cr_columns r !! pr_chunk k).
Qed.
Lemma oldest_agree q a : shows q a → requests_ok a → fst <$> min_by_key (λ x, pp_sequence x.2) (popped_iter (rq_popped q)) = oldest (ar_popped a).
Proof.
  intros Hsw Hok. unfold oldest. f_equal. apply min_by_key_agree.
  - intros [k p]. rewrite (elem_of_popped_iter _ _ _ (sw_popped _ _ Hsw)), elem_of_map_to_list. done.
  - intros [k p] [k' p'] Hk Hk' Hs. apply (elem_of_popped_iter _ _ _ (sw_popped _ _ Hsw)) in Hk, Hk'. simpl in *. assert (k = k') as -> by by apply (ao_popped a Hok k k' p p'). congruence.
Qed.

(** *** Each call *)

Section steps.
Context (player_chunk : option ChunkKey) (required_columns : gset ChunkKey).
#[local] Abbreviation step := (request_step player_chunk required_columns).
(** One more age and one more position on either side. *)
Definition roomy (q : RequestQueue) : Prop := rq_next q < USIZE_MAX ∧ I128_MIN < cq_front (rq_slots q).
Definition follows (op : RequestOp) (q : RequestQueue) (a : Requests) : Prop :=
  ∃ q', step op q = Some ((spec_step op a).1, q') ∧ shows q' (spec_step op a).2 ∧ rq_next q' ≤ rq_next q + 1 ∧ cq_front (rq_slots q) - 1 ≤ cq_front (rq_slots q').

Lemma allocate_exact q : roomy q → allocate_sequence q = Some (rq_next q, mk_request_queue (rq_slots q) (rq_popped q) (rq_next q + 1)).
Proof. intros [Hn _]. unfold allocate_sequence. by rewrite (proj2 (checked_add_Some (rq_next q) 1 (rq_next q + 1))) by lia. Qed.
Lemma back_room q a : shows q a → roomy q → cq_back (rq_slots q) < I128_MAX.
Proof. intros Hsw [Hn _]. pose proof (sw_back _ _ Hsw). unfold USIZE_MAX, I128_MAX in *. lia. Qed.
Lemma push_follows q a slot : shows q a → roomy q →
  ∃ slots, cq_push_back slot (rq_slots q) = Some slots ∧ shows (mk_request_queue slots (rq_popped q) (rq_next q + 1)) (mk_requests (ar_slots a ++ [slot]) (ar_popped a) (ar_next a + 1)) ∧
    cq_front slots = cq_front (rq_slots q).
Proof.
  intros Hsw Hroom. destruct (push_back_exact slot (rq_slots q) (sw_queue _ _ Hsw) (back_room q a Hsw Hroom)) as (slots & -> & Hok & Hv). unfold view in Hv. injection Hv as Hf Hb Hl.
  exists slots. split; [done|]. split; [|done]. pose proof (sw_back _ _ Hsw). split; simpl; [done|by rewrite Hl, fmap_app, (sw_slots _ _ Hsw)|apply Hsw|by rewrite (sw_next _ _ Hsw)|lia].
Qed.
Lemma reserve_follows world_sequence q a : shows q a → roomy q → follows (OpReserve world_sequence) q a.
Proof.
  intros Hsw Hroom. unfold follows. simpl. unfold queue_reserve. rewrite (allocate_exact q Hroom). simpl.
  destruct (push_follows q a (Reserved world_sequence (rq_next q)) Hsw Hroom) as (slots & -> & Hsw' & Hf). simpl. eexists. rewrite (sw_next _ _ Hsw) in Hsw' |- *. destruct a. split; [done|]. split; [exact Hsw'|]. simpl. lia.
Qed.
Lemma push_ready_follows request retry q a : shows q a → roomy q → follows (OpPush request retry) q a.
Proof.
  intros Hsw Hroom. unfold follows. simpl. unfold push_ready. rewrite (allocate_exact q Hroom). simpl.
  destruct (push_follows q a (Ready request (priority_new (rq_next q) retry)) Hsw Hroom) as (slots & -> & Hsw' & Hf). simpl. eexists. rewrite (sw_next _ _ Hsw) in Hsw' |- *. destruct a. split; [done|]. split; [exact Hsw'|]. simpl. lia.
Qed.
Lemma fill_spec world_sequence request (l : list (Z * Slot)) : NoDup l.*1 →
  match head (filter (λ x, is_reservation world_sequence x.2 = true) l) with
  | None => fill world_sequence request l.*2 = None
  | Some (index, slot) => ∃ sequence, slot = Reserved world_sequence sequence ∧ (index, slot) ∈ l ∧
      fill world_sequence request l.*2 = Some ((λ z, if decide (z.1 = index) then (index, Ready request (priority_new sequence false)) else z) <$> l).*2
  end.
Proof.
  induction l as [|[p slot] l IH]; intros Hnd; [done|]. rewrite fmap_cons in Hnd. apply NoDup_cons in Hnd as [Hp Hnd]. specialize (IH Hnd). rewrite filter_cons, !fmap_cons. cbn [fst snd] in *.
  assert (Hother : ∀ x, x ∈ l → x.1 ≠ p) by (intros x Hx <-; apply Hp, list_elem_of_fmap; by exists x). clear Hp.
  destruct (is_reservation world_sequence slot) eqn:Hr; [rewrite decide_True by done|rewrite decide_False by done].
  - destruct slot as [reserved sequence|]; [|done]. simpl in Hr. apply Z.eqb_eq in Hr as ->. simpl. rewrite Z.eqb_refl. exists sequence. split; [done|]. split; [by left|]. rewrite decide_True by done.
    do 3 f_equal. clear -Hother. induction l as [|x l IH]; [done|]. rewrite !fmap_cons. rewrite decide_False by (apply Hother; by left). f_equal. apply IH. intros y Hy. apply Hother. by right.
  - assert (Hskip : ∀ l, fill world_sequence request (slot :: l) = cons slot <$> fill world_sequence request l) by (intros l'; destruct slot; simpl in *; [by rewrite Hr|done]).
    rewrite Hskip. destruct (head (filter _ l)) as [[index slot']|]; [|by rewrite IH]. destruct IH as (sequence & -> & Hin & ->). exists sequence. split; [done|]. split; [by right|].
    simpl. rewrite decide_False; [done|]. intros ->. by apply (Hother _ Hin).
Qed.
Lemma fill_follows world_sequence request q a : shows q a → follows (OpFill world_sequence request) q a.
Proof.
  intros Hsw. unfold follows. simpl. unfold replace_reservation, reservation_index. destruct a as [slots popped next]. pose proof (sw_slots _ _ Hsw) as Hslots. simpl in Hslots.
  pose proof (fill_spec world_sequence request (cq_list (rq_slots q)) (ordered_keys _)) as Hfill. rewrite Hslots in Hfill.
  destruct (head (filter _ (cq_list (rq_slots q)))) as [[index slot]|]; simpl.
  2:{ rewrite Hfill. exists q. split; [done|]. split; [done|lia]. }
  destruct Hfill as (sequence & -> & Hin & Hfill). rewrite Hfill. unfold cq_get. rewrite (proj1 (elem_of_cq_list _ _ _) Hin). simpl.
  destruct (replace_exact index _ (Ready request (priority_new sequence false)) (rq_slots q) (sw_queue _ _ Hsw) Hin) as (slots' & -> & Hok & Hv). unfold view in Hv. injection Hv as Hf Hb Hl. simpl.
  eexists. split; [done|]. simpl. split; [|lia]. pose proof (sw_back _ _ Hsw). split; simpl; [done|by rewrite Hl|apply Hsw|apply Hsw|lia].
Qed.
Lemma retry_follows request q a : shows q a → roomy q → follows (OpRetry request) q a.
Proof.
  intros Hsw Hroom. unfold follows. simpl. unfold retry_front. destruct a as [slots popped next]. destruct (cr_remove_spec (rq_popped q) popped request (sw_popped _ _ Hsw)) as (r' & -> & Hr'). simpl.
  pose proof (sw_back _ _ Hsw) as Hback. pose proof (sw_next _ _ Hsw) as Hnext. pose proof (sw_slots _ _ Hsw) as Hslots. simpl in *.
  assert (Hpush : ∀ slot, ∃ slots', cq_push_front slot (rq_slots q) = Some slots' ∧ queue_ok slots' ∧ (cq_list slots').*2 = slot :: slots ∧ cq_back slots' = cq_back (rq_slots q) ∧ cq_front slots' = cq_front (rq_slots q) - 1).
  { intros slot. destruct (push_front_exact slot (rq_slots q) (sw_queue _ _ Hsw) (proj2 Hroom)) as (slots' & -> & Hok & Hv). unfold view in Hv. injection Hv as Hf Hb Hl. exists slots'.
    split; [done|]. split; [done|]. split; [by rewrite Hl, fmap_cons, Hslots|done]. }
  destruct (popped !! request) as [priority|] eqn:Hp; simpl.
  - destruct (Hpush (Ready request (mk_priority (pp_sequence priority) (pp_retry priority) true))) as (slots' & -> & Hok & Hl & Hb & Hf). simpl. eexists. split; [done|].
    split; [split; simpl; [done|done|done|done|lia]|]. simpl. lia.
  - pose proof (allocate_exact (mk_request_queue (rq_slots q) r' (rq_next q)) Hroom) as Ha. simpl in Ha. rewrite Ha. simpl. rewrite <-Hnext.
    destruct (Hpush (Ready request (mk_priority (rq_next q) false true))) as (slots' & -> & Hok & Hl & Hb & Hf). simpl. eexists. split; [done|].
    rewrite delete_id in Hr' by done. split; [split; simpl; [done|done|done|done|lia]|]. simpl. lia.
Qed.
Lemma confirm_follows request q a : shows q a → follows (OpConfirm request) q a.
Proof.
  intros Hsw. unfold follows. simpl. unfold confirm_popped. destruct a as [slots popped next]. destruct (cr_remove_spec (rq_popped q) popped request (sw_popped _ _ Hsw)) as (r' & -> & Hr'). simpl.
  eexists. split; [done|]. split; [split; simpl; [apply Hsw|apply Hsw|done|apply Hsw|apply Hsw]|simpl; lia].
Qed.
Lemma make_room_spec request q a : shows q a → requests_ok a →
  ∃ popped, (match (if (OUTBOUND_REQUEST_CAPACITY <=? cr_len (rq_popped q)) && negb (cr_contains_key (rq_popped q) request)
        then fst <$> min_by_key (λ x, pp_sequence x.2) (popped_iter (rq_popped q)) else None) with
      Some oldest => snd <$> cr_remove oldest (rq_popped q) | None => Some (rq_popped q) end) = Some popped ∧ represents popped (make_room request (ar_popped a)).
Proof.
  intros Hsw Hok. pose proof (sw_popped _ _ Hsw) as Hr. rewrite (oldest_agree q a Hsw Hok), (re_len _ _ Hr). unfold cr_contains_key. rewrite (re_get _ _ Hr). unfold make_room.
  assert (Hcond : (OUTBOUND_REQUEST_CAPACITY <=? Z.of_nat (size (ar_popped a))) && negb (bool_decide (is_Some (ar_popped a !! request))) =
    bool_decide (OUTBOUND_REQUEST_CAPACITY ≤ Z.of_nat (size (ar_popped a)) ∧ ar_popped a !! request = None)).
  { symmetry. destruct (Z.leb_spec OUTBOUND_REQUEST_CAPACITY (Z.of_nat (size (ar_popped a)))); simpl; [|by apply bool_decide_false; lia].
    destruct (ar_popped a !! request); simpl; [by rewrite bool_decide_false by naive_solver|by rewrite bool_decide_true]. }
  rewrite Hcond. destruct (decide (OUTBOUND_REQUEST_CAPACITY ≤ Z.of_nat (size (ar_popped a)) ∧ ar_popped a !! request = None)) as [Hd|Hd]; [rewrite bool_decide_true by done|rewrite bool_decide_false by done; by eexists].
  destruct (oldest (ar_popped a)) as [old|]; [|by eexists]. destruct (cr_remove_spec (rq_popped q) (ar_popped a) old Hr) as (r' & -> & Hr'). by eexists.
Qed.
Lemma pop_follows q a : shows q a → requests_ok a → follows OpPop q a.
Proof.
  intros Hsw Hok. unfold follows. cbn [request_step]. unfold pop_next, select. pose proof (sw_slots _ _ Hsw) as Hslots. destruct a as [slots popped next]. simpl in Hslots.
  destruct (cq_list (rq_slots q)) as [|[index slot] l] eqn:Hl; simpl in Hslots; subst slots; [exists q; split; [done|split; [done|lia]]|].
  destruct slot as [world_sequence sequence|request priority]; [exists q; split; [done|split; [done|lia]]|]. cbn [sl_index].
  pose proof (pop_front_exact (rq_slots q) (sw_queue _ _ Hsw)) as Hpop. unfold cq_pop_front in Hpop. rewrite Hl in Hpop. destruct Hpop as (slots' & -> & Hok' & Hv). unfold view in Hv. injection Hv as Hf Hb Hl'. cbn [mbind option_bind].
  destruct (make_room_spec request q _ Hsw Hok) as (popped' & -> & Hr'). cbn [mbind option_bind]. simpl in Hr'. destruct (cr_insert_spec popped' _ request priority (pr_chunk request) Hr' eq_refl) as (r2 & Hi & Hr2). rewrite Hi. cbn [mbind option_bind].
  pose proof (sw_back _ _ Hsw). eexists. split; [done|]. split; [|simpl; lia]. split; simpl; [done|by rewrite Hl'|done|apply Hsw|lia].
Qed.
Lemma filter_snd {A B} (Q : A * B → Prop) (P : B → Prop) `{∀ x, Decision (Q x)} `{∀ x, Decision (P x)} (l : list (A * B)) :
  (∀ z, Q z ↔ P z.2) → (filter Q l).*2 = filter P l.*2.
Proof.
  intros HQ. induction l as [|z l IH]; [done|]. rewrite filter_cons, fmap_cons, filter_cons. specialize (HQ z).
  destruct (decide (Q z)), (decide (P z.2)); try tauto. rewrite fmap_cons. by f_equal.
Qed.
Lemma retain_follows (keep : Slot → bool) q a : shows q a →
  ∃ slots, cq_retain keep (rq_slots q) = Some slots ∧ shows (mk_request_queue slots (rq_popped q) (rq_next q)) (mk_requests (filter (λ slot, keep slot = true) (ar_slots a)) (ar_popped a) (ar_next a)) ∧
    cq_front slots = cq_front (rq_slots q).
Proof.
  intros Hsw. destruct (retain_exact keep (rq_slots q) (sw_queue _ _ Hsw)) as (slots & -> & Hok & Hv). unfold view in Hv. injection Hv as Hf Hb Hl. exists slots. split; [done|]. split; [|done].
  pose proof (sw_back _ _ Hsw). split; simpl; [done| |apply Hsw|apply Hsw|lia]. rewrite Hl, <-(sw_slots _ _ Hsw). by apply filter_snd.
Qed.
Lemma cancel_reservation_follows world_sequence q a : shows q a → follows (OpCancelReservation world_sequence) q a.
Proof.
  intros Hsw. unfold follows. simpl. unfold cancel_reservation. destruct (retain_follows (λ slot, negb (is_reservation world_sequence slot)) q a Hsw) as (slots & -> & Hsw' & Hf). simpl.
  destruct a. eexists. split; [done|]. split; [exact Hsw'|]. simpl. lia.
Qed.
Lemma cancel_ready_follows cancel q a : shows q a → follows (OpCancelReady cancel) q a.
Proof.
  intros Hsw. unfold follows. simpl. unfold cancel_ready. destruct (retain_follows (λ slot, negb (match slot with Ready request _ => cancel request | Reserved _ _ => false end)) q a Hsw) as (slots & -> & Hsw' & Hf). simpl.
  destruct a. eexists. split; [done|]. split; [exact Hsw'|]. simpl. lia.
Qed.
Definition outside (chunks : list ChunkKey) (a : Requests) : Requests :=
  mk_requests (filter (λ slot, negb (match column slot with Some c => bool_decide (c ∈ chunks) | None => false end) = true) (ar_slots a))
    (filter (λ x, negb (bool_decide (pr_chunk x.1 ∈ chunks)) = true) (ar_popped a)) (ar_next a).
Lemma cancel_each_follows chunks q a : shows q a →
  ∃ q', foldM (λ q chunk, '(_, slots) ← cq_remove_column chunk (rq_slots q); '(_, popped) ← cr_remove_column chunk (rq_popped q); Some (mk_request_queue slots popped (rq_next q))) q chunks = Some q' ∧
    shows q' (outside chunks a) ∧ rq_next q' = rq_next q ∧ cq_front (rq_slots q') = cq_front (rq_slots q).
Proof.
  revert q a. induction chunks as [|c chunks IH]; intros q a Hsw; cbn [foldM].
  { exists q. split; [done|]. split; [|done]. unfold outside. destruct a as [slots popped next]. cbn [ar_slots ar_popped ar_next]. rewrite map_filter_id by done.
    assert (filter (λ slot, negb (match column slot with Some c => bool_decide (c ∈ []) | None => false end) = true) slots = slots) as ->; [|done].
    clear. induction slots as [|slot slots IH]; [done|]. rewrite filter_cons, decide_True by by destruct (column slot). by rewrite IH. }
  destruct (remove_column_exact c (rq_slots q) (sw_queue _ _ Hsw)) as (slots & -> & Hok & Hv). unfold view in Hv. injection Hv as Hf Hb Hl. simpl.
  destruct (cr_remove_column_spec (rq_popped q) (ar_popped a) c (sw_popped _ _ Hsw)) as (popped & -> & Hr). simpl. pose proof (sw_back _ _ Hsw).
  assert (Hsw1 : shows (mk_request_queue slots popped (rq_next q)) (mk_requests (filter (λ slot, column slot ≠ Some c) (ar_slots a)) (filter (λ x, column x.1 ≠ Some c) (ar_popped a)) (ar_next a))).
  { split; simpl; [done| |done|apply Hsw|lia]. rewrite Hl, <-(sw_slots _ _ Hsw). by apply filter_snd. }
  destruct (IH _ _ Hsw1) as (q' & Hq & Hsw' & Hn & Hfr). exists q'. split; [exact Hq|]. simpl in Hn, Hfr. split; [|split; [done|by rewrite Hfr]].
  assert (Heq : outside (c :: chunks) a = outside chunks (mk_requests (filter (λ slot, column slot ≠ Some c) (ar_slots a)) (filter (λ x, column x.1 ≠ Some c) (ar_popped a)) (ar_next a))); [|by rewrite Heq].
  unfold outside. simpl. f_equal.
  - rewrite list_filter_filter. apply list_filter_iff. intros slot. destruct (column slot) as [cs|]; simpl; [|naive_solver]. rewrite !negb_true_iff, !bool_decide_eq_false, elem_of_cons. naive_solver.
  - rewrite map_filter_filter. apply map_filter_ext. intros r p _. simpl. rewrite !negb_true_iff, !bool_decide_eq_false, elem_of_cons. unfold column, request_column. naive_solver.
Qed.
Lemma cancel_columns_follows chunks q a : shows q a → follows (OpCancelColumns chunks) q a.
Proof.
  intros Hsw. unfold follows. simpl. unfold cancel_columns. destruct (cancel_each_follows (sorted_chunks chunks) q a Hsw) as (q' & Hq & Hsw' & Hn & Hf).
  exists q'. assert (Heq : (spec_step (OpCancelColumns chunks) a) = (Done, outside (sorted_chunks chunks) a)).
  { destruct a as [slots popped next]. unfold outside. simpl. do 2 f_equal.
    - apply list_filter_iff. intros slot. destruct (column slot) as [c|]; [|done]. by rewrite (bool_decide_ext (c ∈ sorted_chunks chunks) (c ∈ chunks)) by apply elem_of_sorted_chunks.
    - apply map_filter_ext. intros r p _. simpl. by rewrite (bool_decide_ext (pr_chunk r ∈ sorted_chunks chunks) (pr_chunk r ∈ chunks)) by apply elem_of_sorted_chunks. }
  rewrite Heq. simpl. split; [by rewrite Hq|]. split; [done|]. lia.
Qed.
End steps.

(** *** The invariant *)

Lemma requests_shrink a slots popped next : requests_ok a → NoDup (slot_sequence <$> slots) → (∀ slot, slot ∈ slots → ∃ slot0, slot0 ∈ ar_slots a ∧ slot_sequence slot = slot_sequence slot0) →
  popped ⊆ ar_popped a → ar_next a ≤ next → requests_ok (mk_requests slots popped next).
Proof.
  intros [Hs Hp Ha Hsn Hpn Hb] Hnd Hin Hsub Hnext. rewrite map_subseteq_spec in Hsub. split; simpl.
  - done.
  - intros r r' p p' Hr Hr'. apply Hp; by apply Hsub.
  - intros slot r p Hslot Hr. destruct (Hin slot Hslot) as (slot0 & Hslot0 & ->). by apply (Ha slot0 r p); [|apply Hsub].
  - intros slot Hslot. destruct (Hin slot Hslot) as (slot0 & Hslot0 & ->). specialize (Hsn slot0 Hslot0). lia.
  - intros r p Hr. specialize (Hpn r p (Hsub _ _ Hr)). lia.
  - assert (size popped ≤ size (ar_popped a))%nat; [|lia]. by apply map_subseteq_size, map_subseteq_spec.
Qed.
Lemma requests_grow a slot slots : requests_ok a → slot_sequence slot = ar_next a → slots ≡ₚ slot :: ar_slots a → requests_ok (mk_requests slots (ar_popped a) (ar_next a + 1)).
Proof.
  intros [Hs Hp Ha Hsn Hpn Hb] Hseq Hperm. split; simpl.
  - rewrite Hperm, fmap_cons. apply NoDup_cons. split; [|done]. intros (slot' & Heq & Hslot')%list_elem_of_fmap. specialize (Hsn slot' Hslot'). lia.
  - done.
  - intros slot' r p Hslot' Hr. rewrite Hperm in Hslot'. apply elem_of_cons in Hslot' as [->|Hslot']; [|by apply (Ha slot' r p)]. specialize (Hpn r p Hr). lia.
  - intros slot' Hslot'. rewrite Hperm in Hslot'. apply elem_of_cons in Hslot' as [->|Hslot']; [lia|]. specialize (Hsn slot' Hslot'). lia.
  - intros r p Hr. specialize (Hpn r p Hr). lia.
  - done.
Qed.
Lemma fill_sequences world_sequence request (slots slots' : list Slot) : fill world_sequence request slots = Some slots' → slot_sequence <$> slots' = slot_sequence <$> slots.
Proof.
  revert slots'. induction slots as [|slot slots IH]; intros slots'; simpl; [done|]. destruct slot as [reserved sequence|r priority].
  - destruct (reserved =? world_sequence); [by intros [= <-]|]. destruct (fill world_sequence request slots) as [l|]; simpl; [|done]. intros [= <-]. rewrite fmap_cons. by rewrite (IH l eq_refl).
  - destruct (fill world_sequence request slots) as [l|]; simpl; [|done]. intros [= <-]. rewrite fmap_cons. by rewrite (IH l eq_refl).
Qed.
Lemma sequences_elem (slots slots' : list Slot) : slot_sequence <$> slots' = slot_sequence <$> slots → ∀ slot, slot ∈ slots' → ∃ slot0, slot0 ∈ slots ∧ slot_sequence slot = slot_sequence slot0.
Proof.
  intros Heq slot Hslot. assert (Hin : slot_sequence slot ∈ slot_sequence <$> slots) by (rewrite <-Heq; apply list_elem_of_fmap; by exists slot).
  apply list_elem_of_fmap in Hin as (slot0 & Hs & Hin). by exists slot0.
Qed.
Lemma NoDup_filter_fmap {A B} (f : A → B) (P : A → Prop) `{∀ x, Decision (P x)} l : NoDup (f <$> l) → NoDup (f <$> filter P l).
Proof.
  induction l as [|x l IH]; [done|]. rewrite fmap_cons, filter_cons. intros [Hx Hl]%NoDup_cons. case_decide; [|by apply IH]. rewrite fmap_cons. apply NoDup_cons. split; [|by apply IH].
  intros (y & Hy & [_ Hin]%list_elem_of_filter)%list_elem_of_fmap. apply Hx, list_elem_of_fmap. by exists y.
Qed.
Lemma filter_ok a (P : Slot → Prop) `{∀ x, Decision (P x)} popped : requests_ok a → popped ⊆ ar_popped a → requests_ok (mk_requests (filter P (ar_slots a)) popped (ar_next a)).
Proof.
  intros Hok Hsub. apply (requests_shrink a); [done|by apply NoDup_filter_fmap, Hok| |done|done]. intros slot [_ Hin]%list_elem_of_filter. by exists slot.
Qed.
Lemma make_room_sub request popped : make_room request popped ⊆ popped.
Proof. unfold make_room. case_decide; [|done]. destruct (oldest popped); [apply delete_subseteq|done]. Qed.
Lemma make_room_size request popped : Z.of_nat (size popped) ≤ OUTBOUND_REQUEST_CAPACITY → popped !! request = None → Z.of_nat (size (make_room request popped)) < OUTBOUND_REQUEST_CAPACITY.
Proof.
  intros Hsize Hr. unfold make_room. case_decide as Hd; [|apply Z.nle_gt; intros Hle; by apply Hd]. unfold oldest. pose proof (min_by_key_spec (λ x : RequestIdentity * RequestPriority, pp_sequence x.2) (map_to_list popped)) as Hm.
  destruct (min_by_key _ (map_to_list popped)) as [[old p]|]; simpl.
  - destruct Hm as [Hold%elem_of_map_to_list _]. assert (size popped ≠ 0%nat) by (intros Hz%map_size_empty_iff; by rewrite Hz, lookup_empty in Hold). rewrite map_size_delete, Hold. lia.
  - apply map_to_list_empty_iff in Hm as ->. rewrite map_size_empty in *. unfold OUTBOUND_REQUEST_CAPACITY in *. lia.
Qed.
Lemma pop_ok slots request priority popped next : requests_ok (mk_requests (Ready request priority :: slots) popped next) → requests_ok (mk_requests slots (<[request := priority]> (make_room request popped)) next).
Proof.
  intros [Hs Hp Ha Hsn Hpn Hb]. simpl in *. apply NoDup_cons in Hs as [Hfresh Hs]. pose proof (make_room_sub request popped) as Hsub. rewrite map_subseteq_spec in Hsub.
  assert (Hhere : ∀ r p, popped !! r = Some p → pp_sequence priority ≠ pp_sequence p) by (intros r p Hr; apply (Ha (Ready request priority) r p); [by left|done]).
  split; simpl.
  - done.
  - intros r r' p p' [[<- <-]|[Hne Hr]]%lookup_insert_Some [[<- <-]|[Hne' Hr']]%lookup_insert_Some Heq; [done|by apply Hsub, Hhere in Hr'|by apply Hsub, Hhere in Hr|]. apply (Hp r r' p p'); [by apply Hsub|by apply Hsub|done].
  - intros slot r p Hslot [[<- <-]|[_ Hr]]%lookup_insert_Some; [|apply (Ha slot r p); [by right|by apply Hsub]]. intros Heq. apply Hfresh, list_elem_of_fmap. by exists slot.
  - intros slot Hslot. apply Hsn. by right.
  - intros r p [[<- <-]|[_ Hr]]%lookup_insert_Some; [apply (Hsn (Ready request priority)); by left|by apply (Hpn r p), Hsub].
  - destruct (make_room request popped !! request) as [p|] eqn:Hm.
    + rewrite map_size_insert_Some by (by rewrite Hm). assert (size (make_room request popped) ≤ size popped)%nat; [|lia]. by apply map_subseteq_size, make_room_sub.
    + rewrite map_size_insert_None by done. destruct (popped !! request) as [p|] eqn:Hpr.
      * unfold make_room in Hm. rewrite decide_False in Hm by (rewrite Hpr; naive_solver). congruence.
      * pose proof (make_room_size request popped Hb Hpr). lia.
Qed.
Lemma spec_step_ok op a : requests_ok a → requests_ok (spec_step op a).2.
Proof.
  intros Hok. destruct a as [slots popped next]. destruct op as [w|w r|r retry|r| |r|w|cancel|chunks]; simpl.
  - apply (requests_grow (mk_requests slots popped next) (Reserved w next)); [done|done|]. by rewrite Permutation_app_comm.
  - destruct (fill w r slots) as [slots'|] eqn:Hf; [|done]. apply fill_sequences in Hf. simpl. apply (requests_shrink (mk_requests slots popped next)); [done|rewrite Hf; apply Hok|by apply sequences_elem|done|done].
  - apply (requests_grow (mk_requests slots popped next) (Ready r (priority_new next retry))); [done|done|]. by rewrite Permutation_app_comm.
  - destruct (popped !! r) as [priority|] eqn:Hr; [|by apply (requests_grow (mk_requests slots popped next) (Ready r (mk_priority next false true)))].
    pose proof Hok as [Hs Hp Ha Hsn Hpn Hb]. simpl in *. assert (Hsub : delete r popped ⊆ popped) by apply delete_subseteq. split; simpl.
    + apply NoDup_cons. split; [|done]. intros (slot & Heq & Hslot)%list_elem_of_fmap. by destruct (Ha slot r priority Hslot Hr).
    + intros r1 r2 p1 p2 [_ H1]%lookup_delete_Some [_ H2]%lookup_delete_Some. by apply Hp.
    + intros slot r1 p [->|Hslot]%elem_of_cons [Hne H1]%lookup_delete_Some; [|by apply (Ha slot r1 p)]. simpl. intros Heq. by destruct Hne; apply (Hp r r1 priority p).
    + intros slot [->|Hslot]%elem_of_cons; [by apply (Hpn r priority)|by apply Hsn].
    + intros r1 p [_ H1]%lookup_delete_Some. by apply (Hpn r1 p).
    + assert (size (delete r popped) ≤ size popped)%nat; [|lia]. by apply map_subseteq_size.
  - destruct slots as [|[w seq|r priority] slots]; simpl; [done|done|by apply pop_ok].
  - apply (requests_shrink (mk_requests slots popped next)); [done|apply Hok|by intros slot Hslot; exists slot|apply delete_subseteq|done].
  - by apply (filter_ok (mk_requests slots popped next)).
  - by apply (filter_ok (mk_requests slots popped next)).
  - apply (filter_ok (mk_requests slots popped next)); [done|apply map_filter_subseteq].
Qed.

(** ** Runs of calls *)

(** *** Live demands, [stream/requests/dispatch.rs] *)

Record SubChunkRequestBatch := mk_request_batch { sb_owner : Z * Z; sb_intents : list PendingSubChunkRequest }.
Definition matches_demand (requested : gmap ChunkKey (gmap Z Z)) (key : SubChunkKey) (demand : Z) : bool :=
  match column ← requested !! sk_chunk key; column !! sk_y key with Some pending => pending =? demand | None => false end.
Definition live (requested : gmap ChunkKey (gmap Z Z)) (intent : PendingSubChunkRequest) : bool :=
  existsb (λ key, matches_demand requested key (pr_demand intent)) (request_keys intent).

Section runs.
Context (player_chunk : option ChunkKey) (required_columns : gset ChunkKey).

Fixpoint request_run (ops : list RequestOp) (q : RequestQueue) : option (list Answer * RequestQueue) :=
  match ops with
  | [] => Some ([], q)
  | op :: ops => '(answer, q) ← request_step player_chunk required_columns op q; '(answers, q) ← request_run ops q; Some (answer :: answers, q)
  end.
Fixpoint spec_run (ops : list RequestOp) (a : Requests) : list Answer * Requests :=
  match ops with
  | [] => ([], a)
  | op :: ops => let '(answers, a') := spec_run ops (spec_step op a).2 in ((spec_step op a).1 :: answers, a')
  end.
(** Room for a number of calls. *)
Definition slack (q : RequestQueue) (calls : Z) : Prop := rq_next q + calls ≤ USIZE_MAX ∧ I128_MIN + calls ≤ cq_front (rq_slots q).
Lemma step_follows op q a calls : shows q a → requests_ok a → slack q calls → 0 < calls →
  ∃ q', request_step player_chunk required_columns op q = Some ((spec_step op a).1, q') ∧ shows q' (spec_step op a).2 ∧ requests_ok (spec_step op a).2 ∧ slack q' (calls - 1).
Proof.
  intros Hsw Hok [Hn Hf] Hc. assert (Hroom : roomy q) by (split; lia). assert (Hfol : follows player_chunk required_columns op q a).
  { destruct op; [by apply reserve_follows|by apply fill_follows|by apply push_ready_follows|by apply retry_follows|by apply pop_follows|by apply confirm_follows|by apply cancel_reservation_follows|by apply cancel_ready_follows|by apply cancel_columns_follows]. }
  destruct Hfol as (q' & Hstep & Hsw' & Hn' & Hf'). exists q'. split; [done|]. split; [done|]. split; [by apply spec_step_ok|]. split; lia.
Qed.
Lemma run_follows ops q a calls : shows q a → requests_ok a → slack q (calls + Z.of_nat (length ops)) → 0 ≤ calls →
  ∃ q', request_run ops q = Some ((spec_run ops a).1, q') ∧ shows q' (spec_run ops a).2 ∧ requests_ok (spec_run ops a).2 ∧ slack q' calls.
Proof.
  revert q a. induction ops as [|op ops IH]; intros q a Hsw Hok Hs Hc; simpl in *.
  { exists q. split; [done|]. split; [done|]. split; [done|]. by rewrite Z.add_0_r in Hs. }
  destruct (step_follows op q a _ Hsw Hok Hs) as (q1 & -> & Hsw1 & Hok1 & Hs1); [lia|]. simpl.
  destruct (IH q1 _ Hsw1 Hok1) as (q2 & -> & Hsw2 & Hok2 & Hs2); [|done|]. { by replace (calls + Z.of_nat (length ops)) with (calls + Z.of_nat (S (length ops)) - 1) by lia. }
  exists q2. destruct (spec_run ops (spec_step op a).2) as [answers a']. by split.
Qed.
Lemma default_slack calls : 0 ≤ calls ≤ USIZE_MAX → slack queue_default calls.
Proof. intros Hc. split; simpl; [lia|]. unfold USIZE_MAX, I128_MIN in *. lia. Qed.

(** C24: A queue behaves as a list of slots, whatever is done to it: requests leave in the order of their admission and an unfilled
    reservation holds back all that came after it, a filled reservation keeps its place and its age, no call panics, no age
    is given twice, and at most [OUTBOUND_REQUEST_CAPACITY] dispatched requests are remembered, the oldest being forgotten. *)
Theorem request_queue_refines ops : Z.of_nat (length ops) ≤ USIZE_MAX →
  ∃ answers q a, request_run ops queue_default = Some (answers, q) ∧ spec_run ops (mk_requests [] ∅ 0) = (answers, a) ∧
    (cq_list (rq_slots q)).*2 = ar_slots a ∧ (∀ request, cr_get (rq_popped q) request = ar_popped a !! request) ∧
    NoDup (slot_sequence <$> ar_slots a) ∧ cr_len (rq_popped q) ≤ OUTBOUND_REQUEST_CAPACITY.
Proof.
  intros Hlen. destruct (run_follows ops queue_default _ 0 default_shows default_requests_ok) as (q & Hrun & Hsw & Hok & _); [apply default_slack; lia|lia|].
  eexists _, q, _. split; [exact Hrun|]. split; [apply surjective_pairing|]. split; [apply Hsw|]. split; [apply Hsw|]. split; [apply Hok|].
  rewrite (re_len _ _ (sw_popped _ _ Hsw)). apply Hok.
Qed.

(** *** A batch that was not sent, [stream/requests/dispatch.rs] *)

(** The loop of [prepare_sub_chunk_request], at most [OUTBOUND_REQUEST_CAPACITY] times. *)
Fixpoint pop_each (budget : nat) (q : RequestQueue) : option (list PendingSubChunkRequest * RequestQueue) :=
  match budget with
  | 0%nat => Some ([], q)
  | S budget =>
    '(request, q) ← pop_next player_chunk required_columns q;
    match request with None => Some ([], q) | Some request => '(intents, q) ← pop_each budget q; Some (request :: intents, q) end
  end.
Definition pop_intents (intent_budget : Z) (q : RequestQueue) : option (list PendingSubChunkRequest * RequestQueue) :=
  pop_each (Z.to_nat (Z.min intent_budget OUTBOUND_REQUEST_CAPACITY)) q.
(** [retry_sub_chunk_request_front]: a batch of an older terrain is dropped, one that does not fit is refused and the rest is
    given back, last intent first. [requested] holds the demand of each pending section. *)
Definition give_back (requested : gmap ChunkKey (gmap Z Z)) (q : RequestQueue) (intent : PendingSubChunkRequest) : option RequestQueue :=
  if live requested intent then retry_front intent q else snd <$> confirm_popped intent q.
Definition retry_intents (generation : Z * Z) (requested : gmap ChunkKey (gmap Z Z)) (batch : SubChunkRequestBatch) (q : RequestQueue) :
    option (result SubChunkRequestBatch unit * RequestQueue) :=
  if negb (bool_decide (sb_owner batch = generation)) then Some (Ok tt, q)
  else if OUTBOUND_REQUEST_CAPACITY <? queue_len q + Z.of_nat (length (filter (λ intent, live requested intent = true) (sb_intents batch))) then Some (Err batch, q)
  else q ← foldM (give_back requested) q (reverse (sb_intents batch)); Some (Ok tt, q).
(** The requests before the first reservation. *)
Fixpoint leading (slots : list Slot) : list (PendingSubChunkRequest * RequestPriority) :=
  match slots with Ready request priority :: slots => (request, priority) :: leading slots | _ => [] end.
Definition unsent (slot : Slot) : Slot :=
  match slot with Ready request priority => Ready request (mk_priority (pp_sequence priority) (pp_retry priority) true) | _ => slot end.
(** The live requests among [slots], marked as unsent. *)
Definition returned requested (slots : list Slot) : list Slot :=
  omap (λ slot, match slot with Ready request _ => if live requested request then Some (unsent slot) else None | Reserved _ _ => None end) slots.
Definition give_back_op requested (intent : PendingSubChunkRequest) : RequestOp := if live requested intent then OpRetry intent else OpConfirm intent.
Lemma returned_all requested budget slots : (∀ request, request ∈ (take budget (leading slots)).*1 → live requested request = true) →
  returned requested (take (length (take budget (leading slots))) slots) = unsent <$> take (length (take budget (leading slots))) slots.
Proof.
  revert budget. induction slots as [|[w sequence|request p] slots IH]; intros [|budget] Hl; simpl; try done.
  assert (Hr : live requested request = true) by (apply Hl; simpl; by left). unfold returned. simpl. rewrite Hr. f_equal. apply IH. intros request' Hin. apply Hl. simpl. by right.
Qed.
Lemma pop_each_follows budget q a : shows q a → requests_ok a → let batch := take budget (leading (ar_slots a)) in
  ∃ q' a', pop_each budget q = Some (batch.*1, q') ∧ shows q' a' ∧ requests_ok a' ∧ ar_slots a' = drop (length batch) (ar_slots a) ∧
    rq_next q' ≤ rq_next q + Z.of_nat budget ∧ cq_front (rq_slots q) - Z.of_nat budget ≤ cq_front (rq_slots q') ∧ ar_next a' = ar_next a ∧
    (NoDup batch.*1 → (∀ request, request ∈ batch.*1 → ar_popped a !! request = None) → Z.of_nat (size (ar_popped a) + length batch) ≤ OUTBOUND_REQUEST_CAPACITY →
     ∀ requested, foldl (λ a op, (spec_step op a).2) a' (give_back_op requested <$> reverse batch.*1) =
       mk_requests (returned requested (take (length batch) (ar_slots a)) ++ drop (length batch) (ar_slots a)) (ar_popped a) (ar_next a)).
Proof.
  cbv zeta. revert q a. induction budget as [|budget IH]; intros q a Hsw Hok.
  { exists q, a. split; [done|]. split; [done|]. split; [done|]. split; [done|]. split; [lia|]. split; [lia|]. split; [done|]. intros _ _ _ ?. by destruct a. }
  cbn [pop_each]. destruct (pop_follows player_chunk required_columns q a Hsw Hok) as (q1 & Hstep & Hsw1 & Hn1 & Hf1). pose proof (spec_step_ok OpPop a Hok) as Hok1. simpl in Hstep.
  destruct (pop_next player_chunk required_columns q) as [[request q1']|] eqn:Hp; simpl in Hstep; [|done]. injection Hstep as Hans ->. cbn [mbind option_bind].
  destruct a as [[|[w sequence|r p] slots] popped next]; simpl in Hans, Hsw1, Hok1 |- *; injection Hans as ->.
  1,2: (eexists q1, _; split; [done|]; split; [exact Hsw1|]; split; [exact Hok1|]; split; [done|]; split; [lia|]; split; [lia|]; done).
  destruct (IH q1 _ Hsw1 Hok1) as (q' & a' & -> & Hsw' & Hok' & Hslots & Hn & Hf & Hnext & Hretry). cbn [mbind option_bind]. simpl in Hslots, Hnext, Hretry. exists q', a'.
  split; [done|]. split; [done|]. split; [done|]. split; [done|]. split; [lia|]. split; [lia|]. split; [done|]. intros [Hr Hnd]%NoDup_cons Hfree Hsize requested.
  assert (Hpr : popped !! r = None) by (apply Hfree; by left). assert (Hroom : make_room r popped = popped) by (unfold make_room; rewrite decide_False; [done|]; intros [Hle _]; simpl in Hsize; lia).
  rewrite Hroom in Hretry.
  assert (Hlist : give_back_op requested <$> reverse (r :: (take budget (leading slots)).*1) = (give_back_op requested <$> reverse (take budget (leading slots)).*1) ++ [give_back_op requested r])
    by by rewrite reverse_cons, fmap_app.
  etrans; [apply (f_equal (foldl (λ a op, (spec_step op a).2) a') Hlist)|]. rewrite foldl_app, Hretry; simpl.
  - unfold give_back_op, returned. simpl. destruct (live requested r); simpl; by rewrite ?lookup_insert_eq, delete_insert_id.
  - done.
  - intros r' Hr'. rewrite lookup_insert_ne by (intros <-; by apply Hr). apply Hfree. by right.
  - rewrite map_size_insert_None by done. simpl in Hsize. lia.
Qed.
Lemma give_each_follows requested intents q a calls : shows q a → requests_ok a → slack q (calls + Z.of_nat (length intents)) → 0 ≤ calls →
  ∃ q', foldM (give_back requested) q intents = Some q' ∧ shows q' (foldl (λ a op, (spec_step op a).2) a (give_back_op requested <$> intents)).
Proof.
  revert q a. induction intents as [|intent intents IH]; intros q a Hsw Hok Hs Hc; cbn [foldM]; [by exists q|]. simpl in Hs.
  destruct (step_follows (give_back_op requested intent) q a _ Hsw Hok Hs) as (q1 & Hstep & Hsw1 & Hok1 & Hs1); [lia|].
  assert (Hgive : give_back requested q intent = Some q1).
  { unfold give_back, give_back_op in *. destruct (live requested intent); cbn [request_step] in Hstep.
    - destruct (retry_front intent q) as [q1'|]; simpl in Hstep; [|done]. by injection Hstep as _ ->.
    - destruct (confirm_popped intent q) as [[retry q1']|]; simpl in Hstep |- *; [|done]. by injection Hstep as _ ->. }
  rewrite Hgive. cbn [mbind option_bind].
  destruct (IH q1 _ Hsw1 Hok1) as (q2 & Hq2 & Hsw2); [|done|by exists q2]. by replace (calls + Z.of_nat (length intents)) with (calls + Z.of_nat (S (length intents)) - 1) by lia.
Qed.
(** C25: A batch takes the requests up to the first reservation, within its budget and the capacity of 64, and giving it back
    unsent undoes that, if nothing else has happened to the queue, the batch's requests differ, none of them was dispatched
    before and, with those that were, they are at most 64. Then a batch of an older terrain changes nothing, and one whose
    live requests do not fit beside the queue's 64 is refused whole and changes nothing. Otherwise each live request is
    back where it was, with the age it had, only marked as a transport retry, each retired one is gone, and what is
    remembered as dispatched and the next age are as before the batch was taken. *)
Theorem unsent_batch_restored ops budget generation owner requested : 0 ≤ budget → Z.of_nat (length ops) + 2 * OUTBOUND_REQUEST_CAPACITY ≤ USIZE_MAX →
  ∃ answers q intents q1, request_run ops queue_default = Some (answers, q) ∧ pop_intents budget q = Some (intents, q1) ∧ let n := length intents in let slots := (cq_list (rq_slots q)).*2 in
    intents = (take (Z.to_nat (Z.min budget OUTBOUND_REQUEST_CAPACITY)) (leading slots)).*1 ∧ (cq_list (rq_slots q1)).*2 = drop n slots ∧
    (NoDup intents → (∀ intent, intent ∈ intents → cr_get (rq_popped q) intent = None) → cr_len (rq_popped q) + Z.of_nat n ≤ OUTBOUND_REQUEST_CAPACITY →
     let batch := mk_request_batch owner intents in let lives := Z.of_nat (length (filter (λ intent, live requested intent = true) intents)) in
     ∃ r q2, retry_intents generation requested batch q1 = Some (r, q2) ∧
       if decide (owner ≠ generation) then r = Ok tt ∧ q2 = q1
       else if decide (OUTBOUND_REQUEST_CAPACITY < queue_len q1 + lives) then r = Err batch ∧ q2 = q1
       else r = Ok tt ∧ (cq_list (rq_slots q2)).*2 = returned requested (take n slots) ++ drop n slots ∧
         ((∀ intent, intent ∈ intents → live requested intent = true) → returned requested (take n slots) = unsent <$> take n slots) ∧
         (∀ request, cr_get (rq_popped q2) request = cr_get (rq_popped q) request) ∧ rq_next q2 = rq_next q).
Proof.
  intros Hb Hlen. unfold OUTBOUND_REQUEST_CAPACITY at 1 in Hlen. set (k := Z.to_nat (Z.min budget OUTBOUND_REQUEST_CAPACITY)). assert (Hk : (k ≤ 64)%nat) by (unfold k, OUTBOUND_REQUEST_CAPACITY; lia).
  destruct (run_follows ops queue_default _ (2 * 64) default_shows default_requests_ok) as (q & Hrun & Hsw & Hok & Hs); [apply default_slack; lia|lia|].
  set (a := (spec_run ops (mk_requests [] ∅ 0)).2) in *. clearbody a. destruct (pop_each_follows k q a Hsw Hok) as (q1 & a1 & Hpop & Hsw1 & Hok1 & Hslots & Hn & Hf & Hnext & Hback).
  pose proof (sw_slots _ _ Hsw) as Hl. pose proof (sw_popped _ _ Hsw) as Hpopped. rewrite <-Hl in *. remember (take k (leading (cq_list (rq_slots q)).*2)) as batch eqn:Hbatch.
  assert (Hlb : length batch.*1 = length batch) by apply length_fmap. assert (Hbudget : (length batch ≤ k)%nat) by (rewrite Hbatch, length_take; lia).
  eexists _, q, batch.*1, q1. split; [exact Hrun|]. split; [done|]. cbv zeta. split; [by rewrite Hbatch|]. rewrite Hlb. split; [by rewrite (sw_slots _ _ Hsw1), Hslots|].
  intros Hnd Hfree Hsize. rewrite (re_len _ _ Hpopped) in Hsize. destruct Hs as [Hs1 Hs2].
  destruct (give_each_follows requested (reverse batch.*1) q1 a1 0 Hsw1 Hok1) as (q2 & Hq2 & Hsw2); [rewrite length_reverse, Hlb; split; lia|done|].
  rewrite Hback in Hsw2; [|done|intros r Hr; rewrite <-(re_get _ _ Hpopped); by apply Hfree|lia]. unfold retry_intents. cbn [sb_owner sb_intents].
  destruct (decide (owner ≠ generation)) as [Hne|Heq]; [rewrite bool_decide_false by done; eauto|]. rewrite bool_decide_true by (by apply dec_stable). cbn [negb].
  case_decide as Hfull; [apply Z.ltb_lt in Hfull; rewrite Hfull; eauto|]. apply Z.nlt_ge, Z.ltb_ge in Hfull. rewrite Hfull, Hq2. cbn [mbind option_bind].
  eexists _, q2. split; [done|]. split; [done|]. split; [apply Hsw2|]. split; [|split].
  - rewrite Hbatch. apply returned_all.
  - intros request. by rewrite (re_get _ _ (sw_popped _ _ Hsw2)), (re_get _ _ Hpopped).
  - by rewrite (sw_next _ _ Hsw2), (sw_next _ _ Hsw).
Qed.

(** *** The evidence *)

Definition all_ready (slots : list Slot) : list (PendingSubChunkRequest * RequestPriority) :=
  omap (λ slot, match slot with Ready request priority => Some (request, priority) | Reserved _ _ => None end) slots.
Definition of_class (class : RequestClass) (l : list (PendingSubChunkRequest * RequestPriority)) : Z :=
  Z.of_nat (length (filter (λ x, request_class (pp_retry x.2) (pr_chunk x.1) player_chunk required_columns = class) l)).
Definition reservations (slots : list Slot) : Z := Z.of_nat (length slots) - Z.of_nat (length (all_ready slots)).
Lemma of_class_app class l l' : of_class class (l ++ l') = of_class class l + of_class class l'.
Proof. unfold of_class. rewrite filter_app, length_app. lia. Qed.
Lemma all_ready_app slots slots' : all_ready (slots ++ slots') = all_ready slots ++ all_ready slots'.
Proof. apply omap_app. Qed.
Lemma all_ready_length slots : (length (all_ready slots) ≤ length slots)%nat.
Proof. induction slots as [|[w s|r p] slots IH]; simpl in *; [lia|lia|unfold all_ready in *; simpl; lia]. Qed.
Lemma leading_snoc slots slot : leading (slots ++ [slot]) = leading slots ++ (if reservations slots =? 0 then leading [slot] else []).
Proof.
  induction slots as [|[w s|r p] slots IH]; [done| |].
  - assert (Hr : (reservations (Reserved w s :: slots) =? 0) = false); [|by rewrite Hr].
    apply Z.eqb_neq. pose proof (all_ready_length slots). unfold reservations. change (all_ready (Reserved w s :: slots)) with (all_ready slots). rewrite length_cons. lia.
  - simpl. rewrite IH. simpl. assert (Hr : reservations (Ready r p :: slots) = reservations slots) by (unfold reservations; change (all_ready (Ready r p :: slots)) with ((r, p) :: all_ready slots); rewrite !length_cons; lia). by rewrite Hr.
Qed.
Lemma class_index_inj class class' : class_index class = class_index class' → class = class'.
Proof. by destruct class, class'. Qed.
Lemma evidence_slots slots : let e := foldl (evidence_slot player_chunk required_columns) evidence_default slots in
  re_reservations e = reservations slots ∧ re_blocked e = Z.of_nat (length (all_ready slots)) - Z.of_nat (length (leading slots)) ∧ re_next_class e = None ∧
  ∀ class, re_depths e !! class_index class = Some (mk_depth class (of_class class (all_ready slots)) (of_class class (leading slots))).
Proof.
  induction slots as [|slot slots IH] using rev_ind; simpl; [split; [done|]; split; [done|]; split; [done|]; by intros []|].
  rewrite foldl_app. simpl. set (e := foldl _ _ slots) in *. clearbody e. destruct IH as (Hr & Hb & Hn & Hd). rewrite leading_snoc, all_ready_app, !length_app. unfold reservations at 1. rewrite all_ready_app, !length_app.
  destruct slot as [w s|r p].
  - change (all_ready [Reserved w s]) with (@nil (PendingSubChunkRequest * RequestPriority)). rewrite app_nil_r. simpl. assert (Hl : leading slots ++ (if reservations slots =? 0 then [] else []) = leading slots) by (destruct (reservations slots =? 0); apply app_nil_r).
    rewrite Hl. unfold reservations in Hr. split; [lia|]. split; [destruct (reservations slots =? 0); simpl; lia|]. split; [done|]. intros class. apply Hd.
  - change (all_ready [Ready r p]) with [(r, p)]. simpl. rewrite Hr. split; [unfold reservations; lia|]. split; [destruct (reservations slots =? 0); simpl; lia|]. split; [done|].
    intros class. set (here := request_class (pp_retry p) (pr_chunk r) player_chunk required_columns). rewrite !of_class_app.
    assert (Hone : of_class class [(r, p)] = if decide (here = class) then 1 else 0) by (unfold of_class; destruct (decide (here = class)) as [Hc|Hc]; [by rewrite filter_cons_True|by rewrite filter_cons_False]).
    destruct (decide (here = class)) as [<-|Hne].
    + rewrite list_lookup_alter_eq, Hd. simpl. do 2 f_equal; [lia|]. destruct (reservations slots =? 0); [lia|]. unfold of_class. simpl. lia.
    + rewrite list_lookup_alter_ne by (intros Heq; by apply class_index_inj in Heq). rewrite Hd. do 2 f_equal; [lia|]. destruct (reservations slots =? 0); [lia|]. unfold of_class. simpl. lia.
Qed.
(** The evidence is the queue's: it counts the reservations, the ready requests of each class, and those that no reservation
    holds back, and its next class is the class of the request that would leave next, if any would. *)
Theorem evidence_exact ops : Z.of_nat (length ops) ≤ USIZE_MAX →
  ∃ answers q next q', request_run ops queue_default = Some (answers, q) ∧ pop_next player_chunk required_columns q = Some (next, q') ∧
    let slots := (cq_list (rq_slots q)).*2 in let e := evidence player_chunk required_columns q in
    next = fst <$> head (leading slots) ∧
    re_next_class e = (λ x, request_class (pp_retry x.2) (pr_chunk x.1) player_chunk required_columns) <$> head (leading slots) ∧
    re_reservations e = reservations slots ∧ re_blocked e = Z.of_nat (length (all_ready slots)) - Z.of_nat (length (leading slots)) ∧
    ∀ class, re_depths e !! class_index class = Some (mk_depth class (of_class class (all_ready slots)) (of_class class (leading slots))).
Proof.
  intros Hlen. destruct (run_follows ops queue_default _ 0 default_shows default_requests_ok) as (q & Hrun & Hsw & Hok & _); [apply default_slack; lia|lia|].
  destruct (pop_follows player_chunk required_columns q _ Hsw Hok) as (q' & Hpop & _). cbn [request_step] in Hpop. destruct (pop_next player_chunk required_columns q) as [[next q1]|] eqn:Hp; simpl in Hpop; [|done].
  injection Hpop as Hans _. eexists _, q, next, q1. split; [exact Hrun|]. split; [done|]. cbv zeta.
  destruct (evidence_slots (cq_list (rq_slots q)).*2) as (Hr & Hb & Hn & Hd). unfold evidence, select. pose proof (sw_slots _ _ Hsw) as Hl. set (a := (spec_run ops (mk_requests [] ∅ 0)).2) in *. clearbody a.
  destruct a as [slots popped age]. simpl in Hl. subst slots. destruct (cq_list (rq_slots q)) as [|[index [w s|r p]] l] eqn:Hlist; simpl in Hans; injection Hans as ->; simpl in *; done.
Qed.
End runs.

(** *** Witnesses *)

Lemma cr_get_empty (r : ColumnRecords RequestIdentity RequestPriority) request : cr_columns r = ∅ → cr_get r request = None.
Proof. intros He. unfold cr_get. simpl. by rewrite He, lookup_empty. Qed.

Definition demo_request (x demand : Z) : PendingSubChunkRequest := mk_request (mk_chunk_key 0 x 0) (-4) 24 demand.
Definition demo_requests : list RequestOp :=
  [OpReserve 7; OpPush (demo_request 1 11) false; OpFill 7 (demo_request 0 10); OpPush (demo_request 2 12) true; OpReserve 9; OpPush (demo_request 3 13) false].
Definition demo_player : option ChunkKey := Some (mk_chunk_key 0 1 0).
Definition demo_required : gset ChunkKey := {[mk_chunk_key 0 2 0]}.
Definition demo_queue : RequestQueue := default queue_default (snd <$> request_run demo_player demo_required demo_requests queue_default).
Lemma request_queue_refines_witness : fst <$> request_run demo_player demo_required (demo_requests ++ [OpPop; OpPop; OpPop; OpPop]) queue_default =
  Some [Done; Done; Filled true; Done; Done; Done; Popped (Some (demo_request 0 10)); Popped (Some (demo_request 1 11)); Popped (Some (demo_request 2 12)); Popped None].
Proof.
  destruct (request_queue_refines demo_player demo_required (demo_requests ++ [OpPop; OpPop; OpPop; OpPop])) as (answers & q & a & Hrun & Hspec & _); [by vm_compute|].
  rewrite Hrun. cbn [fmap option_fmap option_map fst]. f_equal. exact (eq_sym (f_equal fst Hspec)).
Defined.
Definition demo_batch : list PendingSubChunkRequest := [demo_request 0 10; demo_request 1 11; demo_request 2 12].
(** The demand of the second request is retired. *)
Definition demo_requested : gmap ChunkKey (gmap Z Z) := {[mk_chunk_key 0 0 0 := {[-4 := 10]}; mk_chunk_key 0 1 0 := {[3 := 99]}; mk_chunk_key 0 2 0 := {[5 := 12]}]}.
Definition demo_taken : RequestQueue := default queue_default (snd <$> pop_intents demo_player demo_required 8 demo_queue).
Lemma unsent_batch_restored_witness : ∃ q1 q2, pop_intents demo_player demo_required 8 demo_queue = Some (demo_batch, q1) ∧
  retry_intents (1, 2) demo_requested (mk_request_batch (1, 2) demo_batch) q1 = Some (Ok tt, q2) ∧
  slot_sequence <$> (cq_list (rq_slots q2)).*2 = [0; 2; 3; 4] ∧ slot_sequence <$> (cq_list (rq_slots demo_queue)).*2 = [0; 1; 2; 3; 4].
Proof.
  destruct (unsent_batch_restored demo_player demo_required demo_requests 8 (1, 2) (1, 2) demo_requested) as (answers & q & intents & q1 & Hrun & Hpop & Hintents & Hslots1 & Hrest); [done|by vm_compute|].
  assert (Hq : q = demo_queue) by (unfold demo_queue; by rewrite Hrun). clear Hrun. subst q.
  assert (Hi : intents = demo_batch) by (rewrite Hintents; vm_compute; reflexivity). clear Hintents. subst intents.
  assert (Hq1 : q1 = demo_taken) by (unfold demo_taken; by rewrite Hpop). subst q1.
  destruct Hrest as (r & q2 & Hretry & Hcase);
    [refine (bool_decide_eq_true_1 _ _); vm_compute; reflexivity|intros intent _; apply cr_get_empty; vm_compute; reflexivity|by vm_compute|].
  exists demo_taken, q2. split; [exact Hpop|]. rewrite decide_False in Hcase by (intros []; done).
  rewrite decide_False in Hcase by (refine (bool_decide_eq_true_1 _ _); vm_compute; reflexivity).
  destruct Hcase as (-> & Hslots & _). split; [exact Hretry|]. rewrite Hslots. split; vm_compute; reflexivity.
Defined.
Lemma evidence_exact_witness : re_depths (evidence demo_player demo_required demo_queue) !! 5%nat = Some (mk_depth PrefetchInitial 2 1) ∧
  re_next_class (evidence demo_player demo_required demo_queue) = Some PrefetchInitial.
Proof.
  destruct (evidence_exact demo_player demo_required demo_requests) as (answers & q & next & q' & Hrun & _ & _ & Hc & _ & _ & Hd); [by vm_compute|].
  assert (Hq : q = demo_queue) by (unfold demo_queue; by rewrite Hrun). clear Hrun. subst q. split; [etrans; [exact (Hd PrefetchInitial)|]|rewrite Hc]; vm_compute; reflexivity.
Defined.
